(* ===== verification/_CoqProject ===== *)
-Q . S2P
Prelude.v
StrBytes.v
JsonValue.v
Template.v
TemplateRender.v
WalkDir.v
WalkDirFacts.v
WalkComplete.v
RequestQueues.v
RequestQueuesFacts.v
RequestQueuesLive.v
Truncate.v
Models.v
OutputTruncation.v
ContextFragments.v
ContextNormalize.v
ContextNormalizeFacts.v
ContextHistory.v
ContextHistoryFacts.v
WorldState.v
WorldStateFacts.v
ThreadItems.v
NetAddr.v
NetPolicy.v
NetPolicyFacts.v
NetConfig.v
NetState.v
NetRuntime.v
NetRuntimeFacts.v
NetManaged.v
NetUpdates.v
Keymap.v
TextArea.v
TextAreaInput.v
TextAreaFacts.v
TextAreaMoves.v
TextAreaEditing.v
TextAreaElements.v
TextAreaWrap.v
TextAreaRows.v
TextAreaReach.v
TextAreaDraw.v
ItemBuilders.v
ThreadHistory.v
ThreadHistoryChanges.v
ThreadHistoryFacts.v
ThreadHistoryFeed.v
SeekSequence.v
PatchParser.v
PatchParserFacts.v
PatchGrammar.v
PatchApply.v
PatchFs.v
PatchFsFacts.v
PatchInvocation.v
ExecRule.v
ExecPolicy.v
ExecPolicyFacts.v
ExecPolicyParser.v
ExecPolicyAmend.v
HeadTail.v
AutoCompact.v
StreamParser.v
StreamParserFacts.v
Utf8Stream.v
HistoryProjection.v
HistoryProjectionFacts.v
HistoryStore.v
HistoryStoreFacts.v
HistoryTables.v
HistoryMaterialize.v
RolloutLineage.v
HistoryPaging.v
HistoryPagingFacts.v
HistoryListing.v
HistoryPages.v
ShellScript.v
ShellScriptFacts.v
CommandSafety.v
CommandSafetyFacts.v
