(* ===== verification/Prelude.v ===== *)
(** * ycode verification library

    ycode is a terminal coding agent written in Rust ([src/codex-rs], a workspace of
    about a hundred crates).  A model proposes shell commands and patches; the agent
    decides whether a command may run, runs it, trims its output, applies patches to
    the workspace, keeps the conversation within the limits of the model and streams
    the model's text to the user.  This library models the parts of the workspace that
    make those decisions and edits, as executable definitions with the source's names,
    and proves what they promise.

    ** Parts and files

    Patches ([apply-patch]).  The model's patch text is parsed into hunks, the lines of
    every chunk are located in the file, and the edits are written to a file system
    with a delta that records them.
    - [SeekSequence]: [seek_sequence.rs], the four passes of the line search.
    - [PatchParser], [PatchParserFacts]: [streaming_parser.rs] and [parser.rs], the
      streaming state machine, its invariant and its independence of the pieces.
    - [PatchGrammar]: the grammar of the format as a syntax tree; parsing inverts
      rendering, and a streamed patch grows hunk by hunk.
    - [PatchApply]: [compute_replacements] and [apply_replacements] of [lib.rs].
    - [PatchFs], [PatchFsFacts]: [apply_patch] down to every file system call.  The
      file system is the type class [ExecutorFileSystem] (the Rust trait, the
      operations that are used), its laws are [FileSystemLaws], and [MemFs] is an
      instance.
    - [PatchInvocation]: [invocation.rs], the recognition of patches in commands and
      the preview that is shown for approval, built on the two above.

    Execution policy ([execpolicy]).  Rules decide whether a command is allowed, needs
    a prompt or is forbidden.
    - [ExecRule], [ExecPolicy], [ExecPolicyFacts]: decisions, rules, matching, overlay
      and network domains; the indexed lookup implements a specification over the
      flat list of rules.
    - [ExecPolicyParser]: the builder that policy files fill, and their examples.
    - [ExecPolicyAmend]: appending accepted rules to a policy file, error paths
      included.

    Command classification ([shell-command]).
    - [ShellScript], [ShellScriptFacts]: reading commands off the syntax tree of a
      script ([bash.rs]), detecting and selecting a shell ([shell_detect.rs]).
    - [CommandSafety], [CommandSafetyFacts]: the commands that run without approval
      and those that are reported as dangerous.

    The conversation ([core/src/context_manager], [core/src/context],
    [context-fragments]).  Items are recorded, truncated, rolled back and normalized
    before they are sent to the model.
    - [Models]: the items, token usage and their types ([protocol]).
    - [ContextFragments]: the context the agent injects, and its recognition.
    - [ContextNormalize], [ContextNormalizeFacts]: [normalize.rs], pairing calls with
      outputs and removing media the model does not accept.
    - [ContextHistory], [ContextHistoryFacts]: [history.rs], recording, rollback and
      token estimates.
    - [JsonValue], [WorldState], [WorldStateFacts]: JSON values, and [world_state], the
      snapshots of what the model was told and their merge patches; the operations of a
      session that record them in the history and in the rollout ([session/mod.rs],
      [session/handlers.rs]); and the reverse scan of the rollout that restores them
      ([session/rollout_reconstruction.rs]).  [session_step] is the step relation of a
      session: the order in which [run_turn] ([session/turn.rs]) calls the operations.

    The thread history ([protocol], [cli-protocol], [rollout], [state], [thread-store]).
    A session appends events to a rollout file, one JSON record a line; the front ends
    read turns and items, kept in SQLite tables that follow the file.
    - [ThreadItems]: the events, items, turns and session metadata the builder reads and
      writes ([protocol], [cli-protocol/src/protocol/v2]).
    - [ItemBuilders]: [item_builders.rs], the items of commands, patches and guardian
      reviews.
    - [ThreadHistory]: [thread_history.rs], the builder that turns persisted events into
      turns, with its change sets.  [ThreadHistoryChanges], [ThreadHistoryFacts] and
      [ThreadHistoryFeed] hold its lemmas and its theorems.
    - [HistoryProjection], [HistoryProjectionFacts]: [thread_history_projection.rs] and
      [thread_history_materialization.rs], the bytes of a rollout file cut into complete
      records and fed to the builder from a byte offset on, and the reading of the session
      metadata at the head of a file.
    - [HistoryStore], [HistoryStoreFacts], [HistoryTables]: [thread_history.rs] of
      [thread-store], the writes to the tables of turns and items, in a transaction, and
      the materialization of a file from the checkpoint of the tables;
      [HistoryMaterialize] holds its theorems.
    - [RolloutLineage]: the chain of files a forked thread is made of.
    - [HistoryPaging]: [read.rs], [segment_paging.rs] and [turn_lookup.rs], the cursors
      and the pages of turns and items along a lineage; [HistoryPagingFacts],
      [HistoryListing] and [HistoryPages] hold their lemmas and theorems.

    The composer ([tui/src/bottom_pane/textarea.rs]).  The user edits the next message in
    a text area with a cursor, atomic elements that stand for attachments, a kill buffer
    and an optional Vim mode.
    - [Keymap]: [key_hint.rs] and [keymap.rs], key events, their matching and the default
      keymaps.
    - [TextArea]: the text area's state and its editing operations.
    - [TextAreaInput]: the key handlers and [textarea/vim.rs], operators, motions and text
      objects.
    - [TextAreaWrap]: [wrapping.rs] and the rows, the scroll offset and the cursor cell.
    - [TextAreaDraw]: the drawing of the area as the list of its calls on the buffer.
    - [TextAreaFacts], [TextAreaMoves], [TextAreaEditing], [TextAreaElements] and
      [TextAreaRows] hold the lemmas: edits, computed positions, commands, elements, rows;
      [TextAreaReach] holds the reachable states and the theorems.

    The network proxy ([network-proxy]).  Commands reach the network through a proxy that
    decides which hosts they may talk to.
    - [NetAddr]: IP addresses as [std::net] parses and classifies them, and the addresses
      [policy.rs] treats as local.
    - [NetPolicy], [NetPolicyFacts]: the rest of [policy.rs], the normal forms of hosts and
      patterns, their inclusion and the compiled lists; what an entry stands for.
    - [NetConfig]: [config.rs], the permissions, their precedence and their changes.
    - [NetState]: [state.rs], the compiled state and the check of a configuration against
      the constraints a managed configuration sets.
    - [NetRuntime]: [runtime.rs], [network_policy.rs] and [connect_policy.rs], the decision
      on a host, the operations on the shared state, requests and connections.
    - [NetRuntimeFacts], [NetManaged] and [NetUpdates] hold the theorems: decisions, managed
      constraints, and interleaved changes as a step relation, whose states are those of
      [core/src/config/network_proxy_spec.rs]; the module [SampleNet] is an instance of the
      parameters with a configuration.

    Services.
    - [RequestQueues], [RequestQueuesFacts], [RequestQueuesLive]: the queues of client
      requests and the gates of connections ([cli-runtime]) as a step relation over
      all interleavings; [TaskTrackerLaws] is what is assumed of the task tracker.
    - [WalkDir], [WalkDirFacts], [WalkComplete]: the bounded directory walk of
      [file-system] over any file system.

    Output and text.
    - [StrBytes]: byte lengths and slices of strings.
    - [Truncate], [OutputTruncation]: [utils/string] and [utils/output-truncation],
      cutting texts and tool outputs to a budget.
    - [Template], [TemplateRender]: the templates of [utils/template].
    - [HeadTail]: the capped buffer of command output ([core/src/unified_exec]).
    - [AutoCompact]: the compaction window ([core/src/state/auto_compact_window.rs]).
    - [StreamParser], [StreamParserFacts], [Utf8Stream]: the stream parsers of
      [utils/stream-parser]; the class [StreamTextParser] is the Rust trait, and
      [StreamTextSpec] is what a parser promises to the byte layer on top of it.

    ** Correspondence

    Strings are lists of code points ([str]), [Result] is [result], a panic is [None]
    of an outer [option], and a method that changes its receiver returns the new
    state with its result.  Machine integers appear where the code saturates, checks
    or can overflow: they are integers with their bounds, as in [HeadTail],
    [AutoCompact], [Truncate], [ContextHistory] and [WalkDir]; the one product of
    floating-point numbers is computed with the specification floats of the standard
    library.  Concurrent code is a step relation whose steps are the sections between
    two points of interference.  Code outside the sources is a parameter: the
    tree-sitter parser, the Starlark interpreter, [shlex], [serde_json], UUIDs, image
    decoding, diffs, the task tracker, file systems and system calls.  What is assumed
    of it is named: [FileSystemLaws], [BashGrammar] and [TaskTrackerLaws].  For the
    thread history the parameters are the operations of three classes: [HistoryEnv], the
    types and functions the builder calls but does not look into; [RolloutJson], the
    decoding of a record; and [CursorJson], the coding of a cursor, of which the paging
    theorems assume that decoding inverts encoding.  For the text area they are
    [UnicodeText] and [Textwrap], the segmentation of text, its width and its wrapping,
    with [UnicodeLaws], [WidthLaws] and [TextwrapLaws]: the pieces make up the text, the
    boundary next to a position is found, widths are not negative, a text has a first line
    and a borrowed line is a slice; the styles of drawing are a parameter too.  For the
    network proxy they are [Globs] with [GlobLaws], what the glob crate documents of the
    patterns the proxy makes; [UrlHosts], the hosts of URLs; [MitmHooks], the hooks on
    intercepted requests; and, as arguments, lookups of names, the decider and what a
    reload returns.  A table is a finite map from its
    primary key to the columns that are read; a transaction is a function from tables to
    an error or new tables, so that an error leaves nothing behind.

    ** What the theorems show

    Patches: parsing inverts the grammar, streams a patch in any pieces with hunks that
    only grow, and returns complete hunks; an update whose chunks have old lines
    rewrites exactly the located regions; an exact delta replays and undoes the run,
    also after an error; the preview of a patch is what applying it does; nothing
    panics.  Policies: the decision is the most severe of the accepting rules, an
    overlay does not weaken a matching base rule, accepted files satisfy their examples,
    and an append adds its line once or leaves a beginning of it.  Classification: no
    command is both safe and dangerous, and the dangerous, [git] and [sed] classes are
    characterized exactly.  The conversation: after normalization every call with a call
    id has its output and every such output its call, rollback cuts exactly the last
    turns with their context, estimates never overflow, injected context is recognised,
    and a session that is resumed, or rolled back, has the baseline of what the model
    was told.  The thread history: the change sets of the builder, applied one after the
    other, give the turns a replay of the log gives, and a replay keeps every turn;
    catching up with a file in any number of steps leaves the tables of one run over the
    whole of it, the tables keep their keys, references and ranges, and their rows are
    those of the log's records; a lineage resolves or reports why it does not, without
    running out of fuel; following the cursors of a listing visits every visible turn or
    item once, in order, and a turn is listed exactly when a lookup finds it.  The
    composer: whatever the keys and the calls, as long as callers pass ranges and
    elements on character boundaries, nothing panics, positions stay on character
    boundaries and elements apart; an edit never changes the text of an element; a yank
    undoes a kill that touches the cursor; a saved draft is restored; rows fit the
    width, and the rows in view, the cursor's among them, are drawn inside the area.
    The network proxy: a host is allowed exactly when the lists and the rule on local
    networks say so; a decider widens the allow list and nothing else; a local address
    is dialled directly only for a request that named it; a pattern without globs allows
    another exactly when it covers its hosts, and a configuration that passes the check
    stays within the managed lists; and whatever interleaves, the shared state has
    compiled its own lists, is within its constraints, and loses no change of the lists.
    Services: requests of a key run in order and exclusive ones alone, one is skipped
    only at a closed gate, a gate that is shut down has nothing running, the queues run
    dry; the walk ends, stays within its limits and, when it is not truncated, lists
    exactly what is reachable.  Output and text: the buffer is the two ends of the
    stream, truncation keeps both ends within the budget and one marker, templates parse
    and render exactly as their syntax says, and the stream parsers agree with a
    reference on the whole text however it is cut, as long as no opening delimiter
    contains another.

    ** Fuel

    Loops that are not structural carry fuel that is shown to be enough, or that is
    the bound of the code itself.
    - [inline_loop]: every round consumes input; the length of the text is enough.
    - [validate]: every character takes at least one byte.
    - [pop_all]: a traversal visits each node once; [traverse_elem] shows that the
      size of the tree is enough.
    - [detect_shell_type_fuel]: every call is on a shorter name.
    - [dangerous_command_match_budget]: the wrapper depth limit of the code.
    - [parse_loop], [placeholder_loop]: every round advances by a character; the
      length of the source is enough.
    - [walk_loop]: a round reads one directory; the limit on directories is enough.
    - [lineage_fuel]: a round visits a thread that was not visited before; the number of
      known threads is enough.
    - [char_boundary_before], [char_boundary_after]: a round moves by one byte.
    - [expand_loop]: a round that changes the range takes in another element; the number
      of elements is enough.
    - [drop_oldest]: a round removes a request; the number of requests is enough.
    - [follow_pages]: the client of a listing, which follows cursors; every page but the
      last is not empty, so the number of rows is enough.

    ** Not modelled

    The agent loop of [core] beyond the parts above, front ends, network clients,
    process and terminal services, and the embedded script engine: these
    are asynchronous input and output around services.  The unified diff of a patch
    and the query that finds a here-document are those of third-party crates.  Of the
    history, the estimate for a turn context is left out, and of the sections of the
    world state what they serialize to and how they render; of the reconstruction of a
    rollout, the rebuilt list of items and the context windows, on which the baselines do
    not depend.  Of the thread history, the
    search of threads, the live writer and the compressed files and locks of a lineage
    are left out, and failures of SQLite other than a key that exists.  Of the text area,
    the theorems on rows are for texts without halfwidth sound marks, because the
    projection of the others relies on where the wrapping crate puts breaks.  Of the
    network proxy the servers, interception, certificates, credentials, attribution
    tokens, unix sockets at run time and the addresses of URLs are left out; the theorems
    on lists are for entries whose normal form is a domain, its subdomains or both, in which
    stars are the only glob characters, and those on managed lists for entries in normal
    form without stars but the wildcard.  The request queues assume that a request
    returns; a request that panics ends the task of its key.  Windows paths and suffixes
    are left out.

    Candidates for a next step: path URIs ([utils/path-uri]) and command summaries
    ([shell-command/src/parse_command.rs]). *)

From Stdlib Require Import Ascii String ZArith NArith Lia.
From stdpp Require Import base option list numbers.

Set Default Proof Using "Type".
Open Scope nat_scope.

(** ** Rust strings

    A Rust [String] / [&str] is a sequence of Unicode scalar values; its length in
    bytes is the sum of the UTF-8 lengths of its characters.  Characters are [N]
    code points and a string is the list of its characters. *)
Abbreviation char := N (only parsing).
Abbreviation str := (list N) (only parsing).

(** The last element of a list, as an option ([slice::last]). *)
Abbreviation last := list.last.

(** An ASCII literal of the source, as a string. *)
Definition lit (s : string) : str := map N_of_ascii (list_ascii_of_string s).
Arguments lit _%_string_scope : simpl never.

Declare Scope str_scope.
Delimit Scope str_scope with str.
Notation "s '==s' t" := (bool_decide (s = t)) (at level 70) : str_scope.
Open Scope str_scope.

(** Characters used by the code, by name. *)
Definition LF : char := 10%N.
Definition CR : char := 13%N.
Definition SPACE : char := 32%N.
Definition PLUS : char := 43%N.
Definition MINUS : char := 45%N.

(** [char::is_whitespace]: the Unicode [White_Space] property. *)
Definition is_whitespace (c : char) : bool :=
  ((9 <=? c) && (c <=? 13) || (c =? 32) || (c =? 133) || (c =? 160) || (c =? 5760)
   || (8192 <=? c) && (c <=? 8202) || (c =? 8232) || (c =? 8233) || (c =? 8239)
   || (c =? 8287) || (c =? 12288))%N.

Definition is_ascii_digit (c : char) : bool := ((48 <=? c) && (c <=? 57))%N.

Definition to_ascii_lowercase_char (c : char) : char :=
  if ((65 <=? c) && (c <=? 90))%N then (c + 32)%N else c.

Definition to_ascii_lowercase (s : str) : str := map to_ascii_lowercase_char s.

(** [char::len_utf8]. *)
Definition len_utf8 (c : char) : nat :=
  if (c <? 128)%N then 1 else if (c <? 2048)%N then 2 else if (c <? 65536)%N then 3 else 4.

(** [str::len]: the length in bytes. *)
Fixpoint byte_len (s : str) : nat :=
  match s with
  | [] => 0
  | c :: s' => len_utf8 c + byte_len s'
  end.

(** [str::trim_start], [trim_end], [trim]. *)
Fixpoint drop_while (p : char → bool) (s : str) : str :=
  match s with
  | [] => []
  | c :: s' => if p c then drop_while p s' else s
  end.

Definition trim_start (s : str) : str := drop_while is_whitespace s.
Definition trim_end_matches (p : char → bool) (s : str) : str := rev (drop_while p (rev s)).
Definition trim_end (s : str) : str := trim_end_matches is_whitespace s.
Definition trim (s : str) : str := trim_end (trim_start s).

(** [str::strip_prefix], [starts_with], [strip_suffix], [ends_with]. *)
Fixpoint strip_prefix (p s : str) : option str :=
  match p, s with
  | [], _ => Some s
  | c :: p', d :: s' => if (c =? d)%N then strip_prefix p' s' else None
  | _ :: _, [] => None
  end.

Definition starts_with (p s : str) : bool :=
  match strip_prefix p s with Some _ => true | None => false end.

Definition strip_suffix (p s : str) : option str :=
  match strip_prefix (rev p) (rev s) with Some r => Some (rev r) | None => None end.

Definition ends_with (p s : str) : bool :=
  match strip_suffix p s with Some _ => true | None => false end.

(** [str::split(c)] for a character separator: always at least one piece. *)
Fixpoint split_char (sep : char) (s : str) : list str :=
  match s with
  | [] => [[]]
  | c :: s' =>
      if (c =? sep)%N then [] :: split_char sep s'
      else match split_char sep s' with
           | [] => [[c]]
           | w :: ws => (c :: w) :: ws
           end
  end.

(** [str::split_once(c)] / [rsplit_once(c)]. *)
Fixpoint split_once (sep : char) (s : str) : option (str * str) :=
  match s with
  | [] => None
  | c :: s' =>
      if (c =? sep)%N then Some ([], s')
      else match split_once sep s' with
           | Some (a, b) => Some (c :: a, b)
           | None => None
           end
  end.

Definition rsplit_once (sep : char) (s : str) : option (str * str) :=
  match split_once sep (rev s) with
  | Some (a, b) => Some (rev b, rev a)
  | None => None
  end.

(** [str::contains(char)]. *)
Definition contains_char (c : char) (s : str) : bool := existsb (N.eqb c) s.

(** [str::contains(&str)]. *)
Fixpoint contains_str (p s : str) : bool :=
  starts_with p s || match s with [] => false | _ :: s' => contains_str p s' end.

(** [slice::join]. *)
Fixpoint join (sep : str) (ls : list str) : str :=
  match ls with
  | [] => []
  | [l] => l
  | l :: ls' => l ++ sep ++ join sep ls'
  end.

(** A line with its trailing carriage return removed, as [str::lines] and the
    streaming parser do. *)
Definition strip_cr (s : str) : str :=
  match strip_suffix [CR] s with Some r => r | None => s end.

(** [str::lines]: pieces between line feeds, each without a trailing carriage
    return before the line feed, and no final empty piece. The final piece, which
    no line feed ends, keeps a trailing carriage return. *)
Fixpoint lines_of_pieces (ps : list str) : list str :=
  match ps with
  | [] => []
  | [p] => match p with [] => [] | _ => [p] end
  | p :: ps' => strip_cr p :: lines_of_pieces ps'
  end.

Definition lines (s : str) : list str := lines_of_pieces (split_char LF s).

(** Decimal rendering ([{}] of an unsigned integer). *)
Fixpoint decimal_fuel (fuel : nat) (n : N) (acc : str) : str :=
  match fuel with
  | O => acc
  | S f =>
      let acc' := (48 + n mod 10)%N :: acc in
      if (n / 10 =? 0)%N then acc' else decimal_fuel f (n / 10)%N acc'
  end.

Definition decimal (n : N) : str := decimal_fuel (S (N.to_nat (N.size n))) n [].

(** ** Fallible code: [Result<T, E>] *)
Inductive result (E A : Type) : Type :=
| Ok (a : A)
| Err (e : E).
Arguments Ok {E A} _.
Arguments Err {E A} _.

Definition is_ok {E A} (r : result E A) : bool :=
  match r with Ok _ => true | Err _ => false end.

Definition rbind {E A B} (r : result E A) (k : A → result E B) : result E B :=
  match r with Ok a => k a | Err e => Err e end.

Declare Scope result_scope.
Delimit Scope result_scope with result.
Notation "'let?' x ':=' r 'in' k" := (rbind r (λ x, k))
  (at level 10, x pattern, k at level 200) : result_scope.
Notation "'check?' r 'in' k" := (rbind r (λ _, k))
  (at level 10, k at level 200) : result_scope.
Open Scope result_scope.

(** ** Machine integers *)
Open Scope Z_scope.
Definition USIZE_MAX : Z := 2 ^ 64 - 1.
Definition I64_MAX : Z := 2 ^ 63 - 1.
Definition I64_MIN : Z := - 2 ^ 63.

(** [usize::saturating_add], [saturating_sub], [saturating_mul] (64-bit target). *)
Definition usat_add (a b : Z) : Z := Z.min (a + b) USIZE_MAX.
Definition usat_sub (a b : Z) : Z := Z.max (a - b) 0.
Definition usat_mul (a b : Z) : Z := Z.min (a * b) USIZE_MAX.

(** [i64::saturating_add], [saturating_sub]. *)
Definition clamp_i64 (z : Z) : Z := Z.max I64_MIN (Z.min z I64_MAX).
Definition isat_add (a b : Z) : Z := clamp_i64 (a + b).
Definition isat_sub (a b : Z) : Z := clamp_i64 (a - b).
Close Scope Z_scope.

(** ** Lemmas on strings *)

Create HintDb strings discriminated.

#[global] Arguments trim : simpl never.
#[global] Arguments trim_end : simpl never.
#[global] Arguments trim_start : simpl never.
#[global] Arguments strip_cr : simpl never.
#[global] Arguments lines : simpl never.

Lemma strip_prefix_app p s : strip_prefix p (p ++ s) = Some s.
Proof. induction p as [|c p IH]; simpl; [done|]. by rewrite N.eqb_refl. Qed.

Lemma strip_prefix_Some p s r : strip_prefix p s = Some r ↔ s = p ++ r.
Proof.
  split; [|intros ->; apply strip_prefix_app].
  revert s. induction p as [|c p IH]; intros [|d s]; simpl; try (intros; simplify_eq; done).
  destruct (N.eqb_spec c d) as [->|]; [|done]. intros ?%IH. by subst.
Qed.

Lemma strip_prefix_None p s : strip_prefix p s = None ↔ ∀ r, s ≠ p ++ r.
Proof.
  split.
  - intros H r ->. by rewrite strip_prefix_app in H.
  - intros H. destruct (strip_prefix p s) as [r|] eqn:E; [|done].
    apply strip_prefix_Some in E. by destruct (H r).
Qed.

Lemma starts_with_true p s : starts_with p s = true ↔ ∃ r, s = p ++ r.
Proof.
  unfold starts_with. destruct (strip_prefix p s) as [r|] eqn:E.
  - apply strip_prefix_Some in E. split; [by exists r|done].
  - rewrite strip_prefix_None in E. split; [done|]. by intros [r ->]; destruct (E r).
Qed.

Lemma strip_suffix_Some p s r : strip_suffix p s = Some r ↔ s = r ++ p.
Proof.
  unfold strip_suffix. destruct (strip_prefix (rev p) (rev s)) as [r'|] eqn:E.
  - apply strip_prefix_Some in E. apply (f_equal (@rev _)) in E.
    rewrite rev_involutive, rev_app_distr, rev_involutive in E. split.
    + by intros [= <-].
    + intros ->. by apply app_inv_tail in E as <-.
  - rewrite strip_prefix_None in E. split; [done|]. intros ->.
    destruct (E (rev r)). by rewrite rev_app_distr.
Qed.

Lemma ends_with_true p s : ends_with p s = true ↔ ∃ r, s = r ++ p.
Proof.
  unfold ends_with. destruct (strip_suffix p s) as [r|] eqn:E.
  - apply strip_suffix_Some in E. naive_solver.
  - split; [done|]. intros [r Hr]. by apply strip_suffix_Some in Hr as E'; simplify_eq.
Qed.

(** Strings without a line feed. *)
Definition no_lf (s : str) : Prop := Forall (λ c, c ≠ LF) s.

Lemma drop_while_Forall (P : char → Prop) p s : Forall P s → Forall P (drop_while p s).
Proof. induction 1 as [|c s Hc Hs IH]; simpl; [done|]. destruct (p c); auto. Qed.

Lemma Forall_trim_end_matches (P : char → Prop) p s : Forall P s → Forall P (trim_end_matches p s).
Proof. intros H. unfold trim_end_matches. by apply Forall_rev, drop_while_Forall, Forall_rev. Qed.

Lemma no_lf_trim_end s : no_lf s → no_lf (trim_end s).
Proof. apply Forall_trim_end_matches. Qed.

Lemma no_lf_trim s : no_lf s → no_lf (trim s).
Proof. intros H. by apply no_lf_trim_end, drop_while_Forall. Qed.

Lemma no_lf_app s t : no_lf (s ++ t) ↔ no_lf s ∧ no_lf t.
Proof. apply Forall_app. Qed.

Lemma no_lf_nil : no_lf [].
Proof. constructor. Qed.

Lemma no_lf_strip_prefix p s r : strip_prefix p s = Some r → no_lf s → no_lf r.
Proof. intros ->%strip_prefix_Some. by rewrite no_lf_app; intros [_ ?]. Qed.

Lemma no_lf_strip_cr s : no_lf s → no_lf (strip_cr s).
Proof.
  unfold strip_cr. destruct (strip_suffix [CR] s) as [r|] eqn:E; [|done].
  apply strip_suffix_Some in E as ->. by rewrite no_lf_app; intros [? _].
Qed.

#[export] Hint Resolve no_lf_trim_end no_lf_trim no_lf_nil no_lf_strip_prefix no_lf_strip_cr : strings.

(** *** The last element *)
Lemma removelast_snoc {A} (l : list A) x : removelast (l ++ [x]) = l.
Proof. apply removelast_last. Qed.

Lemma last_Some_snoc {A} (l : list A) x : last l = Some x ↔ ∃ l', l = l' ++ [x].
Proof. apply last_Some. Qed.

Lemma app_snoc_inj {A} (l l' : list A) x y : l ++ [x] = l' ++ [y] → l = l' ∧ x = y.
Proof. apply app_inj_tail. Qed.

Lemma Forall_weaken {A} (P Q : A → Prop) l :
  Forall P l → (∀ x, P x → Q x) → Forall Q l.
Proof. intros H HPQ. induction H; constructor; auto. Qed.

Lemma Forall_elem {A} (P : A → Prop) l x : Forall P l → x ∈ l → P x.
Proof. intros H. rewrite list.Forall_forall in H. apply H. Qed.

Lemma Forall_snoc {A} (P : A → Prop) l x : Forall P (l ++ [x]) ↔ Forall P l ∧ P x.
Proof. by rewrite Forall_app, Forall_singleton. Qed.

(** *** Trimming *)
Lemma drop_while_app p s t :
  drop_while p (s ++ t) = match drop_while p s with [] => drop_while p t | r => r ++ t end.
Proof.
  induction s as [|c s IH]; [done|]. simpl. destruct (p c); [apply IH|done].
Qed.

Lemma trim_end_cons c s : trim_end (c :: s) = [] ∨ trim_end (c :: s) = c :: trim_end s.
Proof.
  unfold trim_end, trim_end_matches. cbn [rev]. rewrite drop_while_app.
  destruct (drop_while is_whitespace (rev s)) as [|d r] eqn:E.
  - cbn. destruct (is_whitespace c); [by left|right]. done.
  - right. rewrite rev_app_distr. done.
Qed.

Lemma trim_end_snoc s c : is_whitespace c = false → trim_end (s ++ [c]) = s ++ [c].
Proof.
  intros Hc. unfold trim_end, trim_end_matches. rewrite rev_app_distr. cbn.
  rewrite Hc. cbn. by rewrite rev_involutive.
Qed.

Lemma trim_start_cons c s : is_whitespace c = false → trim_start (c :: s) = c :: s.
Proof. intros Hc. unfold trim_start. cbn. by rewrite Hc. Qed.

Lemma trim_cons c s : is_whitespace c = false → trim (c :: s) = trim_end (c :: s).
Proof. intros Hc. unfold trim. by rewrite trim_start_cons. Qed.

(** *** Splitting and joining *)
Lemma split_char_no_sep sep s : Forall (λ c, c ≠ sep) s → split_char sep s = [s].
Proof.
  induction 1 as [|c s Hc Hs IH]; [done|]. cbn.
  rewrite (proj2 (N.eqb_neq _ _) Hc), IH. done.
Qed.

Lemma split_char_app_sep sep s t :
  Forall (λ c, c ≠ sep) s → split_char sep (s ++ sep :: t) = s :: split_char sep t.
Proof.
  induction 1 as [|c s Hc Hs IH]; cbn; [by rewrite N.eqb_refl|].
  by rewrite (proj2 (N.eqb_neq _ _) Hc), IH.
Qed.

Lemma join_cons sep l ls : ls ≠ [] → join sep (l :: ls) = l ++ sep ++ join sep ls.
Proof. by destruct ls. Qed.

Lemma split_char_join sep ls :
  ls ≠ [] → Forall (Forall (λ c, c ≠ sep)) ls → split_char sep (join [sep] ls) = ls.
Proof.
  intros Hne Hls. induction Hls as [|l ls Hl Hls IH]; [done|].
  destruct ls as [|l' ls]; [by apply split_char_no_sep|].
  rewrite join_cons by done. cbn [app]. rewrite split_char_app_sep by done. by rewrite IH.
Qed.

Lemma split_char_nonempty sep s : split_char sep s ≠ [].
Proof.
  destruct s as [|c s]; [done|]. cbn. destruct (c =? sep)%N; [done|].
  by destruct (split_char sep s).
Qed.

Lemma join_split_char sep s : join [sep] (split_char sep s) = s.
Proof.
  induction s as [|c s IH]; [done|]. cbn. pose proof (split_char_nonempty sep s).
  destruct (N.eqb_spec c sep) as [->|].
  - rewrite join_cons by done. cbn. by rewrite IH.
  - destruct (split_char sep s) as [|w [|w' ws]]; [done|by subst s|].
    cbn in IH |- *. by rewrite <- IH.
Qed.

Lemma split_char_Forall sep s : Forall (Forall (λ c, c ≠ sep)) (split_char sep s).
Proof.
  induction s as [|c s IH]; cbn; [by repeat constructor|].
  destruct (N.eqb_spec c sep); [by constructor|].
  inversion IH as [|w ws Hw Hws Heq]; subst; repeat constructor; done.
Qed.

Lemma lines_join ls :
  ls ≠ [] → Forall no_lf ls → Forall (λ l, strip_cr l = l) ls → last ls ≠ Some [] →
  lines (join [LF] ls) = ls.
Proof.
  intros Hne Hlf Hcr Hlast. unfold lines. rewrite split_char_join by done. clear Hlf.
  induction Hcr as [|l ls Hl Hls IH]; [done|]. destruct ls as [|l' ls].
  - cbn in *. by destruct l.
  - cbn [lines_of_pieces] in *. rewrite Hl. f_equal. by apply IH.
Qed.

Lemma strip_cr_no_cr s : last s ≠ Some CR → strip_cr s = s.
Proof.
  intros H. unfold strip_cr. destruct (strip_suffix [CR] s) as [r|] eqn:E; [|done].
  apply strip_suffix_Some in E as ->. by rewrite last_snoc in H.
Qed.

Lemma join_snoc sep ls l : ls ≠ [] → join sep (ls ++ [l]) = join sep ls ++ sep ++ l.
Proof.
  induction ls as [|x ls IH]; [done|]. intros _. destruct ls as [|y ls]; [done|].
  cbn [app]. rewrite (join_cons sep x) by done. change (y :: ls ++ [l]) with ((y :: ls) ++ [l]).
  rewrite IH by done. rewrite (join_cons sep x (y :: ls)) by done. by rewrite !app_assoc.
Qed.
