(* ===== verification/StrBytes.v ===== *)
(** * Strings by byte offset

    Rust indexes a [&str] by bytes; an index that is not on a character boundary
    panics.  This file holds [str::len], slicing and [char_indices] over strings as
    lists of code points, with a panic as [None], and the splits of a string at a
    byte budget that the users of byte offsets share. *)

From Stdlib Require Import String ZArith Lia.
From stdpp Require Import base option list numbers.
From S2P Require Import Prelude.

Local Open Scope Z_scope.

(** [str::len] as a [usize]. *)
Definition slen (s : str) : Z := Z.of_nat (byte_len s).

(** No allocation of Rust is larger than [isize::MAX] bytes. *)
Definition ISIZE_MAX : Z := 2 ^ 63 - 1.

(** [&s[..n]] and [&s[n..]]; [None] is the panic of an offset that is not on a
    character boundary or is past the end. *)
Fixpoint slice_to (s : str) (n : Z) : option str :=
  if n =? 0 then Some []
  else match s with
       | [] => None
       | c :: s' => r ← slice_to s' (n - Z.of_nat (len_utf8 c)); Some (c :: r)
       end.

Fixpoint slice_from (s : str) (n : Z) : option str :=
  if n =? 0 then Some s
  else match s with
       | [] => None
       | c :: s' => slice_from s' (n - Z.of_nat (len_utf8 c))
       end.

(** [&s[a..b]]. *)
Definition slice_range (s : str) (a b : Z) : option str :=
  r ← slice_from s a; slice_to r (b - a).

(** [str::char_indices], the first character at offset [i]. *)
Fixpoint char_indices_from (i : Z) (s : str) : list (Z * char) :=
  match s with
  | [] => []
  | c :: s' => (i, c) :: char_indices_from (i + Z.of_nat (len_utf8 c)) s'
  end.

Definition char_indices (s : str) : list (Z * char) := char_indices_from 0 s.

(** The order of Rust strings: bytes, which for UTF-8 is the order of the code points. *)
Fixpoint str_ltb (a b : str) : bool :=
  match a, b with
  | _, [] => false
  | [], _ :: _ => true
  | x :: a', y :: b' => (x <? y)%N || ((x =? y)%N && str_ltb a' b')
  end.

(** ** Lengths *)

Lemma len_utf8_bounds c : (1 ≤ len_utf8 c ≤ 4)%nat.
Proof. unfold len_utf8. repeat case_match; lia. Qed.

Lemma byte_len_app s t : byte_len (s ++ t) = (byte_len s + byte_len t)%nat.
Proof. induction s as [|c s IH]; simpl; lia. Qed.

Lemma slen_nil : slen [] = 0.
Proof. done. Qed.

Lemma slen_cons c s : slen (c :: s) = Z.of_nat (len_utf8 c) + slen s.
Proof. unfold slen. simpl. lia. Qed.

Lemma slen_app s t : slen (s ++ t) = slen s + slen t.
Proof. unfold slen. rewrite byte_len_app. lia. Qed.

Lemma slen_nonneg s : 0 ≤ slen s.
Proof. unfold slen. lia. Qed.

Lemma slen_zero s : slen s = 0 ↔ s = [].
Proof.
  split; [|by intros ->]. destruct s as [|c s]; [done|]. rewrite slen_cons.
  pose proof (len_utf8_bounds c). pose proof (slen_nonneg s). lia.
Qed.

(** A string has at most as many characters as bytes. *)
Lemma length_le_slen s : Z.of_nat (length s) ≤ slen s.
Proof.
  induction s as [|c s IH]; [done|]. rewrite slen_cons. cbn [length].
  pose proof (len_utf8_bounds c). lia.
Qed.

Lemma slen_ascii s : Forall (λ c, (c < 128)%N) s → slen s = Z.of_nat (length s).
Proof.
  induction 1 as [|c s Hc Hs IH]; [done|]. rewrite slen_cons, IH. cbn [length].
  unfold len_utf8. rewrite (proj2 (N.ltb_lt c 128) Hc). lia.
Qed.

Create Rewrite HintDb slen.
#[export] Hint Rewrite slen_nil slen_cons slen_app : slen.

(** The bounds of the lengths in sight, each once, then [lia]. *)
Ltac learn_len c :=
  lazymatch goal with
  | _ : (1 ≤ len_utf8 c ≤ 4)%nat |- _ => fail
  | _ => pose proof (len_utf8_bounds c)
  end.
Ltac learn_slen s :=
  lazymatch goal with
  | _ : 0 ≤ slen s |- _ => fail
  | _ => pose proof (slen_nonneg s)
  end.
Ltac slen_lia :=
  autorewrite with slen in *;
  repeat match goal with
  | |- context [len_utf8 ?c] => learn_len c
  | H : context [len_utf8 ?c] |- _ => learn_len c
  | |- context [slen ?s] => learn_slen s
  | H : context [slen ?s] |- _ => learn_slen s
  end; lia.

(** ** Slices *)

Lemma slice_to_Some s n r : slice_to s n = Some r ↔ ∃ t, s = r ++ t ∧ slen r = n.
Proof.
  revert n r. induction s as [|c s IH]; intros n r; cbn [slice_to].
  - destruct (Z.eqb_spec n 0) as [->|Hn]; split.
    + intros [= <-]. by exists [].
    + intros ([|? ?] & Ht & Hr); by destruct r.
    + done.
    + intros (t & Ht & Hr). by destruct r, t.
  - destruct (Z.eqb_spec n 0) as [->|Hn]; split.
    + intros [= <-]. by exists (c :: s).
    + intros (t & Ht & Hr%slen_zero). by subst r.
    + intros (r' & (t & -> & Hl)%IH & [= <-])%bind_Some. exists t. split; [done|]. slen_lia.
    + intros (t & Ht & Hr). destruct r as [|d r]; [by rewrite slen_nil in Hr|].
      injection Ht as -> ->. apply bind_Some. exists r. split; [|done].
      apply IH. exists t. split; [done|]. slen_lia.
Qed.

Lemma slice_from_Some s n r : slice_from s n = Some r ↔ ∃ p, s = p ++ r ∧ slen p = n.
Proof.
  revert n r. induction s as [|c s IH]; intros n r; cbn [slice_from].
  - destruct (Z.eqb_spec n 0) as [->|Hn]; split.
    + intros [= <-]. by exists [].
    + intros (p & Hp & ->%slen_zero). by rewrite Hp.
    + done.
    + intros (p & Hp & Hl). symmetry in Hp. apply app_nil in Hp as [-> ->].
      by rewrite slen_nil in Hl.
  - destruct (Z.eqb_spec n 0) as [->|Hn]; split.
    + intros [= <-]. by exists [].
    + intros (p & Hp & ->%slen_zero). by rewrite Hp.
    + intros (p & -> & Hl)%IH. exists (c :: p). split; [done|]. slen_lia.
    + intros (p & Hp & Hl). destruct p as [|d p]; [by rewrite slen_nil in Hl|].
      injection Hp as -> ->. apply IH. exists p. split; [done|]. slen_lia.
Qed.

Lemma slice_to_app s t : slice_to (s ++ t) (slen s) = Some s.
Proof. apply slice_to_Some. by exists t. Qed.

Lemma slice_from_app s t : slice_from (s ++ t) (slen s) = Some t.
Proof. apply slice_from_Some. by exists s. Qed.

Lemma slice_range_app p s t a b :
  a = slen p → b = slen p + slen s → slice_range (p ++ s ++ t) a b = Some s.
Proof.
  intros -> ->. unfold slice_range. rewrite slice_from_app. cbn [mbind option_bind].
  replace (slen p + slen s - slen p) with (slen s) by lia. apply slice_to_app.
Qed.

Lemma char_indices_from_app i s t :
  char_indices_from i (s ++ t) = char_indices_from i s ++ char_indices_from (i + slen s) t.
Proof.
  revert i. induction s as [|c s IH]; intros i; cbn [app char_indices_from].
  - by rewrite slen_nil, Z.add_0_r.
  - rewrite IH, slen_cons. do 3 f_equal. lia.
Qed.

(** ** Splitting at a budget *)

(** [p] is the longest prefix of [p ++ q] of at most [n] bytes. *)
Definition longest_prefix (n : Z) (p q : str) : Prop :=
  slen p ≤ n ∧ ∀ c r, q = c :: r → n < slen p + Z.of_nat (len_utf8 c).

(** [q] is the longest suffix of [p ++ q] of at most [n] bytes. *)
Definition longest_suffix (n : Z) (p q : str) : Prop :=
  slen q ≤ n ∧ ∀ c r, p = r ++ [c] → n < Z.of_nat (len_utf8 c) + slen q.

Lemma longest_prefix_exists n s : 0 ≤ n → ∃ p q, s = p ++ q ∧ longest_prefix n p q.
Proof.
  revert n. induction s as [|c s IH]; intros n Hn.
  - exists [], []. repeat split; [done|]. by intros.
  - destruct (decide (Z.of_nat (len_utf8 c) ≤ n)) as [Hc|Hc].
    + destruct (IH (n - Z.of_nat (len_utf8 c))) as (p & q & -> & Hle & Hmax); [lia|].
      exists (c :: p), q. split; [done|]. split; [slen_lia|].
      intros d r Hq. specialize (Hmax d r Hq). rewrite slen_cons. lia.
    + exists [], (c :: s). split; [done|]. split; [done|].
      intros d r [= <- <-]. rewrite slen_nil. lia.
Qed.

Lemma longest_suffix_exists n s : 0 ≤ n → ∃ p q, s = p ++ q ∧ longest_suffix n p q.
Proof.
  revert n. induction s as [|c s IH] using rev_ind; intros n Hn.
  - exists [], []. repeat split; [done|]. intros c r Hr. by destruct r.
  - destruct (decide (Z.of_nat (len_utf8 c) ≤ n)) as [Hc|Hc].
    + destruct (IH (n - Z.of_nat (len_utf8 c))) as (p & q & -> & Hle & Hmax); [lia|].
      exists p, (q ++ [c]). rewrite app_assoc. split; [done|]. split; [slen_lia|].
      intros d r Hp. specialize (Hmax d r Hp). autorewrite with slen. lia.
    + exists (s ++ [c]), []. rewrite app_nil_r. split; [done|]. split; [done|].
      intros d r [_ <-]%app_snoc_inj. rewrite slen_nil. lia.
Qed.

(** ** Decimal numbers are short *)

Lemma decimal_fuel_length fuel n acc k :
  (n < 10 ^ N.of_nat (S k))%N → (length (decimal_fuel fuel n acc) ≤ S k + length acc)%nat.
Proof.
  revert n acc k. induction fuel as [|fuel IH]; intros n acc k Hn; cbn [decimal_fuel]; [lia|].
  destruct (N.eqb_spec (n / 10) 0) as [H0|H0]; cbn [length]; [lia|].
  destruct k as [|k].
  - cbn in Hn. rewrite N.div_small in H0; lia.
  - etransitivity; [apply (IH _ _ k)|cbn [length]; lia].
    apply N.Div0.div_lt_upper_bound. rewrite <- N.pow_succ_r'. by rewrite <- Nat2N.inj_succ.
Qed.

Lemma decimal_fuel_ascii fuel n acc :
  Forall (λ c, (c < 128)%N) acc → Forall (λ c, (c < 128)%N) (decimal_fuel fuel n acc).
Proof.
  revert n acc. induction fuel as [|fuel IH]; intros n acc Hacc; cbn [decimal_fuel]; [done|].
  assert (Hd : (48 + n mod 10 < 128)%N) by (pose proof (N.mod_lt n 10); lia).
  destruct (n / 10 =? 0)%N; auto.
Qed.

(** A [u64] has at most twenty digits. *)
Lemma slen_decimal_u64 n : (n < 2 ^ 64)%N → slen (decimal n) ≤ 20.
Proof.
  intros Hn. unfold decimal. rewrite slen_ascii by (apply decimal_fuel_ascii; constructor).
  assert (Hk : (n < 10 ^ N.of_nat 20)%N) by (etransitivity; [exact Hn|done]).
  pose proof (decimal_fuel_length (S (N.to_nat (N.size n))) n [] 19 Hk) as H.
  cbn [length] in H. lia.
Qed.

(** ** The order of strings *)

Lemma str_ltb_irrefl a : str_ltb a a = false.
Proof. induction a as [|x a IH]; [done|]. cbn. by rewrite N.ltb_irrefl, N.eqb_refl, IH. Qed.

Lemma str_ltb_trans a b c : str_ltb a b = true → str_ltb b c = true → str_ltb a c = true.
Proof.
  revert b c. induction a as [|x a IH]; intros [|y b] [|z c]; cbn; try done.
  rewrite !orb_true_iff, !andb_true_iff, !N.ltb_lt, !N.eqb_eq.
  intros [Hxy|[-> Hab]] [Hyz|[-> Hbc]]; [left; lia|by left|by left|right; eauto].
Qed.

Lemma str_ltb_total a b : str_ltb a b = false → a ≠ b → str_ltb b a = true.
Proof.
  revert b. induction a as [|x a IH]; intros [|y b]; cbn; try done.
  rewrite orb_false_iff, andb_false_iff, orb_true_iff, andb_true_iff, N.ltb_ge, N.ltb_lt, !N.eqb_neq, N.eqb_eq.
  intros [Hle H] Hne. destruct (decide (x = y)) as [->|Hxy]; [|left; lia].
  right. split; [done|]. apply IH; [by destruct H|congruence].
Qed.
