(* ===== verification/JsonValue.v ===== *)
(** * JSON values

    [serde_json::Value]: objects are finite maps, compared without regard to the order
    of their fields, as the crate compares them.  Numbers are any type with decidable
    equality.  The file gives values an induction principle and decidable equality. *)

From Stdlib Require Import String.
From stdpp Require Import base option list numbers countable gmap.
From S2P Require Import Prelude.

Section value.
Context {Number : Type}.

#[local] Unset Elimination Schemes.
Inductive Value : Type :=
| Null
| Bool (b : bool)
| Num (n : Number)
| String_ (s : str)
| Array (values : list Value)
| Object (fields : gmap str Value).
#[local] Set Elimination Schemes.

Fixpoint value_size (v : Value) : nat :=
  match v with
  | Array l => S (sum_list_with value_size l)
  | Object m => S (map_fold (λ _ v n, value_size v + n) 0 m)
  | _ => 1
  end.

Lemma array_size l v : v ∈ l → value_size v < value_size (Array l).
Proof.
  intros (l1 & l2 & ->)%list_elem_of_split. cbn [value_size]. rewrite sum_list_with_app. cbn. lia.
Qed.

Lemma object_size m k v : m !! k = Some v → value_size v < value_size (Object m).
Proof.
  intros Hk. cbn [value_size]. rewrite (map_fold_delete_L _ _ k v m); [lia| |done]. intros; lia.
Qed.

(** Induction under arrays and objects. *)
Lemma Value_nested_ind (P : Value → Prop) :
  P Null → (∀ b, P (Bool b)) → (∀ n, P (Num n)) → (∀ s, P (String_ s)) →
  (∀ l, (∀ v, v ∈ l → P v) → P (Array l)) →
  (∀ m, (∀ k v, m !! k = Some v → P v) → P (Object m)) → ∀ v, P v.
Proof.
  intros HN Hb Hn Hs Ha Ho v. remember (value_size v) as n eqn:E. revert v E.
  induction n as [n IH] using lt_wf_ind. intros [|b|k|s|l|m] ->; [done..| |].
  - apply Ha. intros v Hv. by apply (IH _ (array_size l v Hv)).
  - apply Ho. intros k v Hv. by apply (IH _ (object_size m k v Hv)).
Qed.

Context `{EqDecision Number}.

Fixpoint value_eqb (v w : Value) : bool :=
  match v, w with
  | Null, Null => true
  | Bool b, Bool c => eqb b c
  | Num n, Num k => bool_decide (n = k)
  | String_ s, String_ t => bool_decide (s = t)
  | Array l, Array k =>
      (fix go l k := match l, k with
                     | [], [] => true
                     | v :: l, w :: k => value_eqb v w && go l k
                     | _, _ => false
                     end) l k
  | Object m, Object n =>
      bool_decide (size m = size n)
      && map_fold (λ k v acc, match n !! k with Some w => value_eqb v w | None => false end && acc)
           true m
  | _, _ => false
  end.

Lemma map_fold_all (f : str → Value → bool) (m : gmap str Value) :
  map_fold (λ k v acc, f k v && acc) true m = true ↔ map_Forall (λ k v, f k v = true) m.
Proof.
  apply (map_fold_weak_ind (λ r m, r = true ↔ map_Forall (λ k v, f k v = true) m)).
  - split; [intros _; apply map_Forall_empty|done].
  - intros k v m' r Hk IH. rewrite andb_true_iff, IH, map_Forall_insert by done. done.
Qed.

Lemma value_eqb_eq v w : value_eqb v w = true ↔ v = w.
Proof.
  revert w. induction v as [|b|n|s|l IH|m IH] using Value_nested_ind; intros [|c|k|t|l'|m'];
    cbn [value_eqb]; try done.
  - rewrite eqb_true_iff. naive_solver.
  - rewrite bool_decide_eq_true. naive_solver.
  - rewrite bool_decide_eq_true. naive_solver.
  - revert l' IH. induction l as [|v l IHl]; intros [|w l'] IH; try done.
    rewrite andb_true_iff, (IH v) by by left.
    rewrite (IHl l') by (intros; apply IH; by right).
    split; [by intros [-> [= ->]]|by intros [= -> ->]].
  - rewrite andb_true_iff, bool_decide_eq_true, map_fold_all. split.
    + intros [Hs Hall]. f_equal. apply map_subseteq_size_eq; [|lia].
      apply map_subseteq_spec. intros k v Hk. specialize (Hall k v Hk). cbn in Hall.
      destruct (m' !! k) as [w|] eqn:Ek; [|done]. apply (IH k v Hk) in Hall. by subst.
    + intros [= <-]. split; [done|]. intros k v Hk. cbn. rewrite Hk. by apply (IH k v Hk).
Qed.

#[export] Instance value_eq_dec : EqDecision Value.
Proof.
  intros v w. destruct (value_eqb v w) eqn:E; [left|right]; rewrite <- value_eqb_eq; congruence.
Defined.
End value.
Arguments Value : clear implicits.
