(* ===== verification/Template.v ===== *)
(** * Templates: [utils/template/src/lib.rs]

    Prompt texts are strict templates: [{{ name }}] is replaced by a value, and doubled
    delimiters stand for themselves.  Parsing walks a byte cursor over the source;
    a slice off a character boundary would be a panic, [None]. *)

From Stdlib Require Import String ZArith Lia.
From stdpp Require Import base option list numbers.
From S2P Require Import Prelude StrBytes.

Local Open Scope Z_scope.

Inductive TemplateParseError : Type :=
| EmptyPlaceholder (start : Z)
| NestedPlaceholder (start : Z)
| UnmatchedClosingDelimiter (start : Z)
| UnterminatedPlaceholder (start : Z).

Inductive TemplateRenderError : Type :=
| DuplicateValue (name : str)
| ExtraValue (name : str)
| MissingValue (name : str).

Inductive TemplateError : Type :=
| ParseError (e : TemplateParseError)
| RenderError (e : TemplateRenderError).

Inductive Segment : Type :=
| Literal (text : str)
| Placeholder (name : str).

(** A [BTreeSet<String>] as the sorted list of its elements. *)
Fixpoint set_insert (x : str) (s : list str) : list str :=
  match s with
  | [] => [x]
  | y :: s' => if str_ltb x y then x :: s
               else if bool_decide (x = y) then s
               else y :: set_insert x s'
  end.

(** A [BTreeMap<String, String>] as its entries in key order; [insert] also returns the
    value it replaces. *)
Fixpoint map_insert (k v : str) (m : list (str * str)) : list (str * str) * option str :=
  match m with
  | [] => ([(k, v)], None)
  | (k', v') :: m' =>
      if str_ltb k k' then ((k, v) :: m, None)
      else if bool_decide (k = k') then ((k, v) :: m', Some v')
      else let '(m'', old) := map_insert k v m' in ((k', v') :: m'', old)
  end.

Definition map_get (k : str) (m : list (str * str)) : option str :=
  snd <$> find (λ kv, bool_decide (kv.1 = k)) m.

Record Template : Type := mkTemplate {
  placeholders : list str;
  segments : list Segment;
}.

Definition OPEN : str := lit "{{".
Definition CLOSE : str := lit "}}".
Definition OPEN2 : str := lit "{{{{".
Definition CLOSE2 : str := lit "}}}}".

Definition push_literal (segs : list Segment) (literal : str) : list Segment :=
  if bool_decide (literal = []) then segs
  else match last segs with
       | Some (Literal existing) => removelast segs ++ [Literal (existing ++ literal)]
       | _ => segs ++ [Literal literal]
       end.

(** The loop of [parse_placeholder]. *)
Fixpoint placeholder_loop (fuel : nat) (source : str) (start placeholder_start cursor : Z)
    : option (result TemplateParseError (str * Z)) :=
  match fuel with
  | O => None
  | S fuel =>
      if slen source <=? cursor then Some (Err (UnterminatedPlaceholder start))
      else
        rest ← slice_from source cursor;
        if starts_with OPEN rest then Some (Err (NestedPlaceholder start))
        else if starts_with CLOSE rest then
          raw ← slice_range source placeholder_start cursor;
          let placeholder := trim raw in
          if bool_decide (placeholder = []) then Some (Err (EmptyPlaceholder start))
          else Some (Ok (placeholder, cursor + slen CLOSE))
        else match rest with
             | [] => Some (Err (UnterminatedPlaceholder start))
             | ch :: _ =>
                 placeholder_loop fuel source start placeholder_start
                   (cursor + Z.of_nat (len_utf8 ch))
             end
  end.

Definition parse_placeholder (fuel : nat) (source : str) (start : Z)
    : option (result TemplateParseError (str * Z)) :=
  let placeholder_start := start + slen OPEN in
  placeholder_loop fuel source start placeholder_start placeholder_start.

(** The loop of [Template::parse]. *)
Fixpoint parse_loop (fuel : nat) (source : str) (phs : list str) (segs : list Segment)
    (literal_start cursor : Z) : option (result TemplateParseError Template) :=
  match fuel with
  | O => None
  | S fuel' =>
      let finish :=
        rest ← slice_from source literal_start;
        Some (Ok (mkTemplate phs (push_literal segs rest))) in
      if slen source <=? cursor then finish
      else
        rest ← slice_from source cursor;
        if starts_with OPEN2 rest then
          literal ← slice_range source literal_start cursor;
          let next := cursor + slen OPEN2 in
          parse_loop fuel' source phs (push_literal (push_literal segs literal) OPEN) next next
        else if starts_with CLOSE2 rest then
          literal ← slice_range source literal_start cursor;
          let next := cursor + slen CLOSE2 in
          parse_loop fuel' source phs (push_literal (push_literal segs literal) CLOSE) next next
        else if starts_with OPEN rest then
          literal ← slice_range source literal_start cursor;
          r ← parse_placeholder fuel source cursor;
          match r with
          | Err e => Some (Err e)
          | Ok (placeholder, next) =>
              parse_loop fuel' source (set_insert placeholder phs)
                (push_literal segs literal ++ [Placeholder placeholder]) next next
          end
        else if starts_with CLOSE rest then Some (Err (UnmatchedClosingDelimiter cursor))
        else match rest with
             | [] => finish
             | ch :: _ => parse_loop fuel' source phs segs literal_start
                            (cursor + Z.of_nat (len_utf8 ch))
             end
  end.

(** Every round consumes a character, so the length of the source is enough. *)
Definition parse (source : str) : option (result TemplateParseError Template) :=
  parse_loop (S (length source)) source [] [] 0 0.

Fixpoint build_variable_map (m : list (str * str)) (variables : list (str * str))
    : result TemplateRenderError (list (str * str)) :=
  match variables with
  | [] => Ok m
  | (name, value) :: rest =>
      let '(m', old) := map_insert name value m in
      match old with
      | Some _ => Err (DuplicateValue name)
      | None => build_variable_map m' rest
      end
  end.

Fixpoint render_segments (variables : list (str * str)) (rendered : str) (segs : list Segment)
    : result TemplateRenderError str :=
  match segs with
  | [] => Ok rendered
  | Literal literal :: segs' => render_segments variables (rendered ++ literal) segs'
  | Placeholder name :: segs' =>
      match map_get name variables with
      | None => Err (MissingValue name)
      | Some value => render_segments variables (rendered ++ value) segs'
      end
  end.

Definition render_template (t : Template) (variables : list (str * str))
    : result TemplateRenderError str :=
  let? variables := build_variable_map [] variables in
  match find (λ p, negb (bool_decide (is_Some (map_get p variables)))) (placeholders t) with
  | Some p => Err (MissingValue p)
  | None =>
      match find (λ kv, negb (bool_decide (kv.1 ∈ placeholders t))) variables with
      | Some (name, _) => Err (ExtraValue name)
      | None => render_segments variables [] (segments t)
      end
  end.

Definition render (template : str) (variables : list (str * str))
    : option (result TemplateError str) :=
  r ← parse template;
  Some (match r with
        | Err e => Err (ParseError e)
        | Ok t => match render_template t variables with
                  | Err e => Err (RenderError e)
                  | Ok s => Ok s
                  end
        end).

(** ** The syntax of templates

    A template is read piece by piece from the front. *)
Inductive Piece : Type :=
| PChar (c : char)
| POpen
| PClose
| PHole (raw : str).

(** No delimiter starts inside [raw], read in front of [rest]. *)
Definition no_delimiter (raw rest : str) : Prop :=
  ∀ a b, raw = a ++ b → b ≠ [] →
  starts_with OPEN (b ++ rest) = false ∧ starts_with CLOSE (b ++ rest) = false.

Inductive Step : str → Piece → str → Prop :=
| step_open r : Step (OPEN2 ++ r) POpen r
| step_close r : Step (CLOSE2 ++ r) PClose r
| step_hole raw r :
    starts_with OPEN2 (OPEN ++ raw ++ CLOSE ++ r) = false →
    no_delimiter raw (CLOSE ++ r) → trim raw ≠ [] →
    Step (OPEN ++ raw ++ CLOSE ++ r) (PHole raw) r
| step_char c r :
    starts_with OPEN (c :: r) = false → starts_with CLOSE (c :: r) = false →
    Step (c :: r) (PChar c) r.

Inductive Steps : str → list Piece → str → Prop :=
| steps_nil s : Steps s [] s
| steps_cons s p s' ps r : Step s p s' → Steps s' ps r → Steps s (p :: ps) r.

(** Why reading stops with an error at the text [r], which is at offset [start]. *)
Inductive Stuck (start : Z) : str → TemplateParseError → Prop :=
| stuck_close r :
    starts_with CLOSE2 (CLOSE ++ r) = false →
    Stuck start (CLOSE ++ r) (UnmatchedClosingDelimiter start)
| stuck_empty raw r :
    starts_with OPEN2 (OPEN ++ raw ++ CLOSE ++ r) = false →
    no_delimiter raw (CLOSE ++ r) → trim raw = [] →
    Stuck start (OPEN ++ raw ++ CLOSE ++ r) (EmptyPlaceholder start)
| stuck_nested raw r :
    starts_with OPEN2 (OPEN ++ raw ++ OPEN ++ r) = false →
    no_delimiter raw (OPEN ++ r) →
    Stuck start (OPEN ++ raw ++ OPEN ++ r) (NestedPlaceholder start)
| stuck_unterminated raw :
    starts_with OPEN2 (OPEN ++ raw) = false →
    no_delimiter raw [] →
    Stuck start (OPEN ++ raw) (UnterminatedPlaceholder start).

(** What the pieces mean: the segments and the names of the template. *)
Definition push_piece (segs : list Segment) (p : Piece) : list Segment :=
  match p with
  | PChar c => push_literal segs [c]
  | POpen => push_literal segs OPEN
  | PClose => push_literal segs CLOSE
  | PHole raw => segs ++ [Placeholder (trim raw)]
  end.

Definition add_name (phs : list str) (p : Piece) : list str :=
  match p with PHole raw => set_insert (trim raw) phs | _ => phs end.

Definition template_of (ps : list Piece) : Template :=
  mkTemplate (foldl add_name [] ps) (foldl push_piece [] ps).

(** ** Literals *)

Lemma push_literal_nil segs : push_literal segs [] = segs.
Proof. done. Qed.

Lemma push_literal_app segs a b : push_literal (push_literal segs a) b = push_literal segs (a ++ b).
Proof.
  unfold push_literal. destruct a as [|x a]; [done|]. destruct b as [|y b].
  { by rewrite (bool_decide_true ([] = [])), app_nil_r. }
  rewrite !bool_decide_false by done.
  destruct (last segs) as [[t|n]|] eqn:E.
  all: rewrite last_snoc, removelast_snoc, <- ?app_assoc; done.
Qed.

(** ** Delimiters *)

Lemma starts_with_cut p s : starts_with p s = true → ∃ r, s = p ++ r.
Proof. apply starts_with_true. Qed.

Lemma no_delimiter_nil rest : no_delimiter [] rest.
Proof. intros a b Hab Hb. symmetry in Hab. apply app_nil in Hab as [_ ->]. done. Qed.

Lemma no_delimiter_snoc raw c rest :
  no_delimiter raw (c :: rest) → starts_with OPEN (c :: rest) = false →
  starts_with CLOSE (c :: rest) = false → no_delimiter (raw ++ [c]) rest.
Proof.
  intros Hn Ho Hc a b Hab Hb. destruct (exists_last Hb) as (b' & d & ->).
  rewrite app_assoc in Hab. apply app_snoc_inj in Hab as [-> <-]. rewrite <- app_assoc. cbn [app].
  destruct b' as [|e b']; [done|]. by apply (Hn a).
Qed.

(** The loop of a placeholder stops at the first delimiter behind [raw]. *)
Lemma placeholder_loop_spec fuel pre raw rest :
  (length rest < fuel)%nat → no_delimiter raw rest →
  ∃ res, placeholder_loop fuel (pre ++ OPEN ++ raw ++ rest) (slen pre) (slen pre + slen OPEN)
           (slen pre + slen OPEN + slen raw) = Some res
  ∧ match res with
    | Ok (name, next) => ∃ raw' r, raw ++ rest = raw' ++ CLOSE ++ r ∧ no_delimiter raw' (CLOSE ++ r)
        ∧ name = trim raw' ∧ trim raw' ≠ [] ∧ next = slen (pre ++ OPEN ++ raw' ++ CLOSE)
    | Err (EmptyPlaceholder start) => start = slen pre ∧ ∃ raw' r,
        raw ++ rest = raw' ++ CLOSE ++ r ∧ no_delimiter raw' (CLOSE ++ r) ∧ trim raw' = []
    | Err (NestedPlaceholder start) => start = slen pre ∧ ∃ raw' r,
        raw ++ rest = raw' ++ OPEN ++ r ∧ no_delimiter raw' (OPEN ++ r)
    | Err (UnterminatedPlaceholder start) => start = slen pre ∧ no_delimiter (raw ++ rest) []
    | Err (UnmatchedClosingDelimiter _) => False
    end.
Proof.
  revert raw rest. induction fuel as [|fuel IH]; intros raw rest Hf Hn; [lia|].
  cbn [placeholder_loop].
  destruct (Z.leb_spec (slen (pre ++ OPEN ++ raw ++ rest)) (slen pre + slen OPEN + slen raw)) as [Hle|Hgt].
  { assert (rest = []) as -> by (apply slen_zero; slen_lia). eexists. split; [done|].
    rewrite app_nil_r. done. }
  assert (Hrest : rest ≠ []) by (intros ->; slen_lia).
  assert (slice_from (pre ++ OPEN ++ raw ++ rest) (slen pre + slen OPEN + slen raw) = Some rest) as ->.
  { apply slice_from_Some. exists (pre ++ OPEN ++ raw). rewrite <- !app_assoc. split; [done|].
    autorewrite with slen. lia. }
  cbn [mbind option_bind].
  destruct (starts_with OPEN rest) eqn:Eo.
  { apply starts_with_cut in Eo as [r ->]. eexists. split; [done|]. split; [done|]. by exists raw, r. }
  destruct (starts_with CLOSE rest) eqn:Ec.
  { apply starts_with_cut in Ec as [r ->].
    assert (slice_range (pre ++ OPEN ++ raw ++ CLOSE ++ r) (slen pre + slen OPEN)
      (slen pre + slen OPEN + slen raw) = Some raw) as ->.
    { rewrite (app_assoc pre). apply slice_range_app; by rewrite slen_app. }
    cbn [mbind option_bind]. case_bool_decide as Ht; eexists; (split; [done|]);
      [by split; [|exists raw, r]|].
    exists raw, r. split_and!; try done. autorewrite with slen. lia. }
  destruct rest as [|ch rest]; [done|].
  destruct (IH (raw ++ [ch]) rest) as (res & Hres & Hspec).
  { cbn in Hf. lia. }
  { by apply no_delimiter_snoc. }
  exists res. rewrite <- !app_assoc in Hres, Hspec. cbn [app] in Hres, Hspec.
  rewrite slen_app, (slen_cons ch []), slen_nil, Z.add_0_r, Z.add_assoc in Hres. done.
Qed.

(** ** Parsing *)

(** Lengths of texts around delimiters. *)
Ltac delim_lia :=
  assert (length OPEN = 2%nat ∧ length CLOSE = 2%nat ∧ length OPEN2 = 4%nat
          ∧ length CLOSE2 = 4%nat) as (? & ? & ? & ?) by done;
  rewrite ?length_app in *; cbn [length] in *; lia.

(** The outcome of the loop, whatever was read before. *)
Definition loop_outcome (source rest : str) (phs : list str) (segs : list Segment)
    (res : result TemplateParseError Template) : Prop :=
  match res with
  | Ok t => ∃ ps, Steps rest ps [] ∧ t = mkTemplate (foldl add_name phs ps) (foldl push_piece segs ps)
  | Err e => ∃ ps r, Steps rest ps r ∧ Stuck (slen source - slen r) r e
  end.

Lemma loop_outcome_step source rest p rest' phs segs res :
  Step rest p rest' →
  loop_outcome source rest' (add_name phs p) (push_piece segs p) res →
  loop_outcome source rest phs segs res.
Proof.
  intros Hs. destruct res as [t|e]; cbn [loop_outcome].
  - intros (ps & Hps & ->). exists (p :: ps). split; [by econstructor|done].
  - intros (ps & r & Hps & Hst). exists (p :: ps), r. split; [by econstructor|done].
Qed.

(** The errors of a placeholder are errors of the loop. *)
Lemma placeholder_outcome fuel pre body phs segs :
  (length body < fuel)%nat → starts_with OPEN2 (OPEN ++ body) = false →
  ∃ res, parse_placeholder fuel (pre ++ OPEN ++ body) (slen pre) = Some res
  ∧ match res with
    | Ok (name, next) => ∃ raw r, Step (OPEN ++ body) (PHole raw) r ∧ name = trim raw
        ∧ OPEN ++ body = (OPEN ++ raw ++ CLOSE) ++ r ∧ next = slen (pre ++ OPEN ++ raw ++ CLOSE)
        ∧ (length r < length body)%nat
    | Err e => loop_outcome (pre ++ OPEN ++ body) (OPEN ++ body) phs segs (Err e)
    end.
Proof.
  intros Hf Hno. destruct (placeholder_loop_spec fuel pre [] body Hf (no_delimiter_nil body))
    as (res & Hres & Hspec). cbn [app] in *. rewrite slen_nil, Z.add_0_r in Hres.
  exists res. split; [done|].
  assert (Herr : ∀ e, Stuck (slen pre) (OPEN ++ body) e →
    loop_outcome (pre ++ OPEN ++ body) (OPEN ++ body) phs segs (Err e)).
  { intros e He. exists [], (OPEN ++ body). split; [constructor|].
    rewrite slen_app. by replace (slen pre + slen (OPEN ++ body) - slen (OPEN ++ body))
      with (slen pre) by lia. }
  destruct res as [[name next]|[start|start|start|start]].
  - destruct Hspec as (raw & r & -> & Hn & -> & Ht & ->). exists raw, r.
    split_and!; [by constructor|done|by rewrite <- !app_assoc|done|].
    delim_lia.
  - destruct Hspec as (-> & raw & r & -> & Hn & Ht). apply Herr. by constructor.
  - destruct Hspec as (-> & raw & r & -> & Hn). apply Herr. by constructor.
  - done.
  - destruct Hspec as (-> & Hn). apply Herr. by constructor.
Qed.

(** What the loop does with enough fuel, behind [consumed] and a pending literal. *)
Definition loop_correct (fuel : nat) : Prop :=
  ∀ consumed pending rest phs segs, (length rest < fuel)%nat →
  ∃ res, parse_loop fuel (consumed ++ pending ++ rest) phs segs (slen consumed)
           (slen consumed + slen pending) = Some res
         ∧ loop_outcome (consumed ++ pending ++ rest) rest phs (push_literal segs pending) res.

(** Continuing behind [k], where nothing is pending. *)
Lemma loop_next fuel consumed pending k r phs segs next :
  loop_correct fuel → (length r < fuel)%nat → next = slen consumed + slen pending + slen k →
  ∃ res, parse_loop fuel (consumed ++ pending ++ k ++ r) phs segs next next = Some res
         ∧ loop_outcome (consumed ++ pending ++ k ++ r) r phs segs res.
Proof.
  intros IH Hr ->. destruct (IH (consumed ++ pending ++ k) [] r phs segs Hr) as (res & Hres & Ho).
  exists res. rewrite <- !app_assoc in Hres, Ho. cbn [app] in Hres, Ho.
  by rewrite !slen_app, slen_nil, Z.add_0_r, !Z.add_assoc in Hres.
Qed.

(** At an opening delimiter. *)
Lemma loop_placeholder fuel consumed pending body phs segs :
  loop_correct fuel → (length (OPEN ++ body) < S fuel)%nat → starts_with OPEN2 (OPEN ++ body) = false →
  let source := consumed ++ pending ++ OPEN ++ body in
  ∃ res, match parse_placeholder (S fuel) source (slen consumed + slen pending) with
         | Some (Ok (name, next)) =>
             parse_loop fuel source (set_insert name phs) (segs ++ [Placeholder name]) next next
         | Some (Err e) => Some (Err e)
         | None => None
         end = Some res
         ∧ loop_outcome source (OPEN ++ body) phs segs res.
Proof.
  intros IH Hf E1. cbn zeta.
  destruct (placeholder_outcome (S fuel) (consumed ++ pending) body phs segs)
    as (res & Hres & Ho); [delim_lia|done|].
  rewrite slen_app, <- app_assoc in Hres. rewrite Hres.
  destruct res as [[name next]|e]; [|rewrite <- app_assoc in Ho; by eexists].
  destruct Ho as (raw & r & Hs & -> & Hr & -> & Hlt).
  destruct (loop_next fuel consumed pending (OPEN ++ raw ++ CLOSE) r (set_insert (trim raw) phs)
    (segs ++ [Placeholder (trim raw)]) (slen ((consumed ++ pending) ++ OPEN ++ raw ++ CLOSE)))
    as (res & Hl & Ho'); [done|delim_lia|by rewrite !slen_app|].
  rewrite Hr. exists res. split; [done|]. rewrite Hr in Hs. by eapply loop_outcome_step.
Qed.

Lemma parse_loop_spec fuel : loop_correct fuel.
Proof.
  induction fuel as [|fuel IH]; intros consumed pending rest phs segs Hf; [lia|].
  cbn [parse_loop].
  destruct (Z.leb_spec (slen (consumed ++ pending ++ rest)) (slen consumed + slen pending)) as [Hle|Hgt].
  { assert (rest = []) as -> by (apply slen_zero; slen_lia).
    rewrite app_nil_r, slice_from_app. eexists. split; [done|]. exists []. split; [constructor|done]. }
  assert (slice_from (consumed ++ pending ++ rest) (slen consumed + slen pending) = Some rest) as ->.
  { rewrite app_assoc, <- slen_app. apply slice_from_app. }
  assert (slice_range (consumed ++ pending ++ rest) (slen consumed) (slen consumed + slen pending)
          = Some pending) as ->.
  { by apply slice_range_app. }
  cbn [mbind option_bind].
  destruct (starts_with OPEN2 rest) eqn:E1.
  { apply starts_with_cut in E1 as [r ->]. destruct (loop_next fuel consumed pending OPEN2 r phs
      (push_literal (push_literal segs pending) OPEN) (slen consumed + slen pending + slen OPEN2))
      as (res & -> & Ho); [done|delim_lia|done|].
    exists res. split; [done|]. eapply loop_outcome_step; [constructor|done]. }
  destruct (starts_with CLOSE2 rest) eqn:E2.
  { apply starts_with_cut in E2 as [r ->]. destruct (loop_next fuel consumed pending CLOSE2 r phs
      (push_literal (push_literal segs pending) CLOSE) (slen consumed + slen pending + slen CLOSE2))
      as (res & -> & Ho); [done|delim_lia|done|].
    exists res. split; [done|]. eapply loop_outcome_step; [constructor|done]. }
  destruct (starts_with OPEN rest) eqn:E3.
  { apply starts_with_cut in E3 as [body ->].
    destruct (loop_placeholder fuel consumed pending body phs (push_literal segs pending) IH Hf E1)
      as (res & Hres & Ho). exists res. split; [|done].
    destruct (parse_placeholder _ _ _) as [[[name next]|e]|]; exact Hres. }
  destruct (starts_with CLOSE rest) eqn:E4.
  { apply starts_with_cut in E4 as [r Hr]. eexists. split; [done|].
    exists [], rest. split; [constructor|]. rewrite Hr in E2 |- *. autorewrite with slen.
    replace (slen consumed + (slen pending + (slen CLOSE + slen r)) - (slen CLOSE + slen r))
      with (slen consumed + slen pending) by lia. by constructor. }
  destruct rest as [|ch r]; [slen_lia|].
  destruct (IH consumed (pending ++ [ch]) r phs segs) as (res & Hres & Ho); [cbn in Hf; lia|].
  exists res. rewrite <- !app_assoc in Hres, Ho. cbn [app] in Hres, Ho.
  rewrite slen_app, (slen_cons ch []), slen_nil, Z.add_0_r, Z.add_assoc in Hres. split; [done|].
  eapply loop_outcome_step; [by apply step_char|]. cbn [push_piece add_name].
  by rewrite push_literal_app.
Qed.

(** *** Reading is deterministic *)

(** Where a hole ends: at a delimiter or at the end of the text. *)
Definition at_end (rest : str) : Prop :=
  starts_with OPEN rest = true ∨ starts_with CLOSE rest = true ∨ rest = [].

Lemma hole_unique_le raw rest raw' rest' :
  no_delimiter raw rest → at_end rest' → raw ++ rest = raw' ++ rest' →
  (length raw' ≤ length raw)%nat → raw = raw' ∧ rest = rest'.
Proof.
  intros Hn He Heq Hle. apply app_eq_app in Heq as (l & [[-> ->]|[-> ->]]).
  - destruct l as [|c l]; [by rewrite app_nil_r|].
    destruct (Hn raw' (c :: l) eq_refl ltac:(done)) as [Ho Hc]. destruct He as [He|[He|He]]; congruence || done.
  - rewrite length_app in Hle. destruct l; [by rewrite app_nil_r|cbn in Hle; lia].
Qed.

Lemma hole_unique raw rest raw' rest' :
  no_delimiter raw rest → no_delimiter raw' rest' → at_end rest → at_end rest' →
  raw ++ rest = raw' ++ rest' → raw = raw' ∧ rest = rest'.
Proof.
  intros Hn Hn' He He' Heq. destruct (Nat.le_ge_cases (length raw') (length raw)).
  - by apply hole_unique_le.
  - destruct (hole_unique_le raw' rest' raw rest) as [-> ->]; done.
Qed.

Lemma at_end_close r : at_end (CLOSE ++ r).
Proof. right. left. apply starts_with_true. by exists r. Qed.
Lemma at_end_open r : at_end (OPEN ++ r).
Proof. left. apply starts_with_true. by exists r. Qed.
Lemma at_end_nil : at_end [].
Proof. by right; right. Qed.
#[local] Hint Resolve at_end_close at_end_open at_end_nil : core.

Lemma starts_with_OPEN2 r : starts_with OPEN2 (OPEN2 ++ r) = true.
Proof. apply starts_with_true. by exists r. Qed.
Lemma starts_with_CLOSE2 r : starts_with CLOSE2 (CLOSE2 ++ r) = true.
Proof. apply starts_with_true. by exists r. Qed.
Lemma OPEN2_split r : OPEN2 ++ r = OPEN ++ OPEN ++ r.
Proof. done. Qed.
Lemma CLOSE2_split r : CLOSE2 ++ r = CLOSE ++ CLOSE ++ r.
Proof. done. Qed.
Lemma OPEN_not_CLOSE r r' : OPEN ++ r ≠ CLOSE ++ r'.
Proof. done. Qed.

Lemma char_no_delim c r s :
  starts_with OPEN (c :: r) = false → starts_with CLOSE (c :: r) = false →
  c :: r ≠ OPEN ++ s ∧ c :: r ≠ CLOSE ++ s.
Proof.
  intros Ho Hc. split; intros Heq; rewrite Heq in Ho, Hc.
  - rewrite (proj2 (starts_with_true _ _)) in Ho by eauto. done.
  - rewrite (proj2 (starts_with_true _ _)) in Hc by eauto. done.
Qed.

(** The front of a text: at most one of the readings applies. *)
Inductive Reading : Type :=
| RPiece (p : Piece) (rest : str)
| RStuck (e : TemplateParseError)
| REnd.

Inductive Reads (start : Z) : str → Reading → Prop :=
| reads_piece s p r : Step s p r → Reads start s (RPiece p r)
| reads_stuck s e : Stuck start s e → Reads start s (RStuck e)
| reads_end : Reads start [] REnd.

(** A text behind an opening delimiter, by what ends the hole. *)
Inductive HoleEnd : Type := EClose | EOpen | ENone.
Definition hole_rest (h : HoleEnd) (r : str) : str :=
  match h with EClose => CLOSE ++ r | EOpen => OPEN ++ r | ENone => [] end.

Definition hole_reading (start : Z) (raw : str) (h : HoleEnd) (r : str) : Reading :=
  match h with
  | EClose => if bool_decide (trim raw = []) then RStuck (EmptyPlaceholder start)
              else RPiece (PHole raw) r
  | EOpen => RStuck (NestedPlaceholder start)
  | ENone => RStuck (UnterminatedPlaceholder start)
  end.

(** The four shapes of the front of a text, with their readings. *)
Inductive Front (start : Z) : str → Reading → Prop :=
| front_nil : Front start [] REnd
| front_open r : Front start (OPEN ++ OPEN ++ r) (RPiece POpen r)
| front_close r : Front start (CLOSE ++ CLOSE ++ r) (RPiece PClose r)
| front_unmatched r : starts_with CLOSE r = false →
    Front start (CLOSE ++ r) (RStuck (UnmatchedClosingDelimiter start))
| front_char c r : starts_with OPEN (c :: r) = false → starts_with CLOSE (c :: r) = false →
    Front start (c :: r) (RPiece (PChar c) r)
| front_hole raw h r : starts_with OPEN (raw ++ hole_rest h r) = false →
    no_delimiter raw (hole_rest h r) →
    Front start (OPEN ++ raw ++ hole_rest h r) (hole_reading start raw h r).

Lemma starts_with_double p s : starts_with (p ++ p) (p ++ s) = starts_with p s.
Proof.
  destruct (starts_with p s) eqn:E.
  - apply starts_with_true in E as [r ->]. apply starts_with_true. exists r. by rewrite <- app_assoc.
  - destruct (starts_with (p ++ p) (p ++ s)) eqn:E'; [|done].
    apply starts_with_true in E' as [r Hr]. rewrite <- app_assoc in Hr. apply app_inv_head in Hr.
    rewrite (proj2 (starts_with_true p s)) in E by eauto. done.
Qed.

Lemma reads_front start s x : Reads start s x → Front start s x.
Proof.
  assert (Ho : ∀ s, starts_with OPEN2 (OPEN ++ s) = starts_with OPEN s) by (apply (starts_with_double OPEN)).
  assert (Hc : ∀ s, starts_with CLOSE2 (CLOSE ++ s) = starts_with CLOSE s) by (apply (starts_with_double CLOSE)).
  destruct 1 as [s p r Hs|s e He|]; [destruct Hs as [r|r|raw r H2 Hn Ht|c r H1 H2]|
    destruct He as [r H2|raw r H2 Hn Ht|raw r H2 Hn|raw H2 Hn]|constructor].
  - apply (front_open start r).
  - apply (front_close start r).
  - rewrite Ho in H2. pose proof (front_hole start raw EClose r H2 Hn) as Hf. cbn in Hf.
    by rewrite bool_decide_false in Hf.
  - by constructor.
  - rewrite Hc in H2. by constructor.
  - rewrite Ho in H2. pose proof (front_hole start raw EClose r H2 Hn) as Hf. cbn in Hf.
    by rewrite bool_decide_true in Hf.
  - rewrite Ho in H2. apply (front_hole start raw EOpen r H2 Hn).
  - rewrite Ho in H2. rewrite <- (app_nil_r raw). rewrite <- (app_nil_r raw) in H2 at 1.
    pose proof (front_hole start raw ENone [] H2 Hn) as Hf. done.
Qed.

Lemma at_end_rest h r : at_end (hole_rest h r).
Proof. destruct h; cbn; auto. Qed.

Lemma hole_rest_reading start raw h r h' r' :
  hole_rest h r = hole_rest h' r' → hole_reading start raw h r = hole_reading start raw h' r'.
Proof. destruct h, h'; cbn; intros Heq; try done; by apply app_inv_head in Heq as ->. Qed.

Lemma front_deterministic start s s' x y : Front start s x → Front start s' y → s = s' → x = y.
Proof.
  assert (Hsw : ∀ p r, starts_with p (p ++ r) = true) by (intros; apply starts_with_true; eauto).
  intros Hx Hy Heq.
  destruct Hx as [|r|r|r H1|c r H1 H2|raw h r H1 H2], Hy as [|r'|r'|r' H1'|c' r' H1' H2'|raw' h' r' H1' H2'];
    try done; try (by apply OPEN_not_CLOSE in Heq); try (by symmetry in Heq; apply OPEN_not_CLOSE in Heq).
  all: try (rewrite Heq in *); try (rewrite <- Heq in * ); rewrite ?Hsw in *; try done.
  all: try (apply app_inv_head in Heq; try apply app_inv_head in Heq; subst; rewrite ?Hsw in *; done).
  all: try (apply app_inv_head in Heq; rewrite ?Heq, ?Hsw in *; rewrite <- ?Heq, ?Hsw in *; done).
  all: try congruence.
  apply app_inv_head in Heq. apply hole_unique in Heq as [-> Heq]; try done; try apply at_end_rest.
  by apply hole_rest_reading.
Qed.

Lemma step_deterministic s p r p' r' : Step s p r → Step s p' r' → p = p' ∧ r = r'.
Proof.
  intros H1 H2. assert (RPiece p r = RPiece p' r') as [= -> ->]; [|done].
  eapply (front_deterministic 0 s s); [by apply reads_front, reads_piece..|done].
Qed.

(** The text where reading ends: nothing is left, or the next piece is an error. *)
Definition final (r : str) : Prop := r = [] ∨ ∃ start e, Stuck start r e.

Lemma final_no_step r p r' : final r → ¬ Step r p r'.
Proof.
  intros Hf Hs.
  assert (∃ start x, Front start r x ∧ ∀ p q, x ≠ RPiece p q) as (start & x & Hx & Hne).
  { destruct Hf as [->|(start & e & He)]; [exists 0, REnd|exists start, (RStuck e)].
    - split; [constructor|done].
    - split; [by apply reads_front, reads_stuck|done]. }
  apply (Hne p r'). eapply (front_deterministic start r r); [done| |done].
  by apply reads_front, reads_piece.
Qed.

Lemma steps_deterministic s ps r ps' r' :
  Steps s ps r → Steps s ps' r' → final r → final r' → ps = ps' ∧ r = r'.
Proof.
  intros H. revert ps' r'. induction H as [s|s p s' ps r Hs H IH]; intros ps' r' H' Hf Hf'.
  - destruct H'; [done|]. by destruct (final_no_step s p s').
  - destruct H' as [s|s q t qs u Ht H']; [by destruct (final_no_step s p s')|].
    destruct (step_deterministic _ _ _ _ _ Hs Ht) as [-> ->].
    by destruct (IH _ _ H' Hf Hf') as [-> ->].
Qed.

Lemma stuck_deterministic start s e e' : Stuck start s e → Stuck start s e' → e = e'.
Proof.
  intros H1 H2. assert (RStuck e = RStuck e') as [= ->]; [|done].
  eapply (front_deterministic start s s); [by apply reads_front, reads_stuck..|done].
Qed.

(** Every text has exactly one reading, and the parser returns it. *)
Lemma parse_outcome source :
  ∃ res, parse source = Some res ∧ loop_outcome source source [] [] res.
Proof. apply (parse_loop_spec (S (length source)) [] [] source). lia. Qed.

(** C39: the parser terminates on every source without a panic, and its result is
    determined by the syntax: if the source reads as pieces up to its end, the result
    is the template of those pieces (literals merged, the names of the holes
    collected); if reading gets stuck, it is the error of the text at that offset,
    which is one of an unmatched closing delimiter, an empty, a nested or an
    unterminated placeholder. *)
Theorem template_parse_exact (source : str) :
  (∀ ps, Steps source ps [] → parse source = Some (Ok (template_of ps)))
  ∧ (∀ ps r e, Steps source ps r → Stuck (slen source - slen r) r e → parse source = Some (Err e))
  ∧ ((∃ ps, Steps source ps []) ∨ (∃ ps r e, Steps source ps r ∧ Stuck (slen source - slen r) r e)).
Proof.
  destruct (parse_outcome source) as (res & -> & Ho). split_and!.
  - intros ps Hps. destruct res as [t|e]; cbn in Ho.
    + destruct Ho as (ps' & Hps' & ->).
      by destruct (steps_deterministic _ _ _ _ _ Hps Hps') as [-> _]; [left..|].
    + destruct Ho as (ps' & r & Hps' & Hst).
      destruct (steps_deterministic _ _ _ _ _ Hps Hps') as [_ <-]; [by left|right; eauto|].
      inversion Hst.
  - intros ps r e Hps Hst. destruct res as [t|e']; cbn in Ho.
    + destruct Ho as (ps' & Hps' & ->).
      destruct (steps_deterministic _ _ _ _ _ Hps Hps') as [_ ->]; [right; eauto|by left|].
      inversion Hst.
    + destruct Ho as (ps' & r' & Hps' & Hst').
      destruct (steps_deterministic _ _ _ _ _ Hps Hps') as [_ <-]; [right; eauto..|].
      by rewrite (stuck_deterministic _ _ _ _ Hst Hst').
  - destruct res as [t|e]; cbn in Ho.
    + left. destruct Ho as (ps & Hps & _). by exists ps.
    + right. destruct Ho as (ps & r & Hps & Hst). eauto.
Qed.
