(* ===== verification/TemplateRender.v ===== *)
(** * Rendering templates: the second half of [utils/template/src/lib.rs]

    The values must match the placeholders exactly.  The order in which errors are
    reported is that of the code: a repeated value first, then the least missing
    name, then the least unused one. *)

From Stdlib Require Import String ZArith Lia.
From stdpp Require Import base option list numbers sorting.
From S2P Require Import Prelude StrBytes Template.

Abbreviation str_lt := (λ a b, str_ltb a b = true) (only parsing).

(** ** Sorted sets and maps *)

Definition sorted (l : list str) : Prop := StronglySorted str_lt l.

Lemma sorted_cons x l : sorted (x :: l) ↔ Forall (λ y, str_ltb x y = true) l ∧ sorted l.
Proof.
  split; [intros H; inversion H; auto|intros []; by constructor].
Qed.

Lemma elem_of_set_insert x y l : y ∈ set_insert x l ↔ y = x ∨ y ∈ l.
Proof.
  induction l as [|z l IH]; cbn [set_insert]; [by rewrite list_elem_of_singleton, elem_of_nil; tauto|].
  destruct (str_ltb x z); [by rewrite !elem_of_cons|].
  case_bool_decide as Hxz; [subst; rewrite !elem_of_cons; tauto|].
  rewrite !elem_of_cons, IH. tauto.
Qed.

Lemma set_insert_sorted x l : sorted l → sorted (set_insert x l).
Proof.
  induction l as [|z l IH]; cbn [set_insert]; intros Hs; [by repeat constructor|].
  apply sorted_cons in Hs as [Hz Hs]. destruct (str_ltb x z) eqn:E.
  - apply sorted_cons. split; [|by apply sorted_cons]. constructor; [done|].
    eapply Forall_weaken; [exact Hz|]. intros y. by apply str_ltb_trans.
  - case_bool_decide as Hxz; [by apply sorted_cons|]. apply sorted_cons. split; [|auto].
    apply list.Forall_forall. intros y [->|Hy]%elem_of_set_insert.
    + apply str_ltb_total; [done|]. congruence.
    + by eapply Forall_elem in Hz.
Qed.

Lemma map_get_Some k m v : map_get k m = Some v → k ∈ m.*1.
Proof.
  unfold map_get. destruct (find _ m) as [[k' v']|] eqn:E; [|done]. intros [= <-].
  apply find_some in E as [Hin Hk%bool_decide_eq_true]. cbn in Hk. subst.
  apply list_elem_of_fmap. exists (k, v'). split; [done|]. by apply list_elem_of_In.
Qed.

Lemma map_get_None k m : map_get k m = None ↔ k ∉ m.*1.
Proof.
  unfold map_get. destruct (find _ m) as [[k' v']|] eqn:E; cbn.
  - split; [done|]. intros Hk. destruct Hk. apply find_some in E as [Hin Hk%bool_decide_eq_true].
    cbn in Hk. subst. apply list_elem_of_fmap. exists (k, v'). split; [done|]. by apply list_elem_of_In.
  - split; [|done]. intros _ ([k' v'] & -> & Hin)%list_elem_of_fmap.
    apply list_elem_of_In in Hin. eapply find_none in E; [|exact Hin]. cbn in E.
    by apply bool_decide_eq_false in E.
Qed.

Lemma map_get_cons k k' v m :
  map_get k ((k', v) :: m) = if bool_decide (k' = k) then Some v else map_get k m.
Proof. unfold map_get. cbn. by case_bool_decide. Qed.

(** Inserting into a sorted map. *)
Lemma map_insert_spec k v m :
  sorted m.*1 →
  sorted (map_insert k v m).1.*1 ∧ (map_insert k v m).2 = map_get k m
  ∧ ∀ k', map_get k' (map_insert k v m).1 = if bool_decide (k = k') then Some v else map_get k' m.
Proof.
  induction m as [|[k1 v1] m IH]; intros Hs; cbn [map_insert].
  { split; [by repeat constructor|]. split; [done|]. intros k'. apply map_get_cons. }
  cbn [fmap list_fmap fst] in Hs. apply sorted_cons in Hs as [Hk1 Hs].
  destruct (str_ltb k k1) eqn:E.
  - split_and!.
    + cbn [fst fmap list_fmap]. apply sorted_cons. split; [|by apply sorted_cons].
      constructor; [done|]. eapply Forall_weaken; [exact Hk1|]. intros y. by apply str_ltb_trans.
    + cbn [snd]. symmetry. apply map_get_None. cbn [fmap list_fmap fst].
      intros [->|Hin]%elem_of_cons; [by rewrite str_ltb_irrefl in E|].
      eapply Forall_elem in Hk1; [|exact Hin]. cbn in Hk1.
      pose proof (str_ltb_trans _ _ _ E Hk1) as Hkk. by rewrite str_ltb_irrefl in Hkk.
    + intros k'. apply map_get_cons.
  - case_bool_decide as Hkk.
    + subst k1. split_and!; [by apply sorted_cons|by rewrite map_get_cons, bool_decide_true|].
      intros k'. cbn [fst]. rewrite !map_get_cons. by case_bool_decide.
    + destruct (IH Hs) as (IH1 & IH2 & IH3). destruct (map_insert k v m) as [m' old].
      cbn [fst snd] in *. split_and!.
      * cbn [fmap list_fmap fst]. apply sorted_cons. split; [|done].
        apply list.Forall_forall. intros y Hy. assert (is_Some (map_get y m')) as [w Hw].
        { destruct (map_get y m') eqn:Ey; [by eexists|]. by apply map_get_None in Ey. }
        rewrite IH3 in Hw. case_bool_decide as Hky.
        -- subst. by apply str_ltb_total.
        -- apply map_get_Some in Hw. by eapply Forall_elem in Hk1.
      * rewrite map_get_cons, bool_decide_false by congruence. done.
      * intros k'. rewrite !map_get_cons, IH3. repeat case_bool_decide; congruence.
Qed.

(** The variables: either some name is repeated, and the first repetition is reported,
    or the map has every value. *)
Lemma build_variable_map_spec variables m :
  sorted m.*1 →
  match build_variable_map m variables with
  | Ok m' => NoDup variables.*1 ∧ (∀ k, k ∈ variables.*1 → k ∉ m.*1) ∧ sorted m'.*1
      ∧ ∀ k, map_get k m' = match map_get k variables with Some v => Some v | None => map_get k m end
  | Err (DuplicateValue n) => ∃ pre v post, variables = pre ++ (n, v) :: post
      ∧ NoDup pre.*1 ∧ (∀ k, k ∈ pre.*1 → k ∉ m.*1) ∧ (n ∈ pre.*1 ∨ n ∈ m.*1)
  | Err _ => False
  end.
Proof.
  revert m. induction variables as [|[n v] variables IH]; intros m Hs; cbn [build_variable_map].
  { split_and!; [constructor|by intros ? ?%elem_of_nil|done|done]. }
  destruct (map_insert_spec n v m Hs) as (Hs' & Hold & Hget).
  destruct (map_insert n v m) as [m1 old]. cbn [fst snd] in *. subst old.
  destruct (map_get n m) as [w|] eqn:En.
  { exists [], v, variables. split_and!; [done|constructor|by intros ? ?%elem_of_nil|].
    right. by eapply map_get_Some. }
  assert (Hk : ∀ k, k ∈ m1.*1 ↔ k = n ∨ k ∈ m.*1).
  { intros k. pose proof (Hget k) as Hg. pose proof (map_get_None k m1) as H1.
    pose proof (map_get_None k m) as H2. case_bool_decide as Hnk.
    - subst. split; [by left|]. intros _. destruct (decide (k ∈ m1.*1)) as [|Hn]; [done|].
      apply H1 in Hn. congruence.
    - rewrite Hg in H1. split.
      + intros Hin. right. destruct (decide (k ∈ m.*1)) as [|Hn]; [done|]. by apply H2, H1 in Hn.
      + intros [->|Hin]; [done|]. destruct (decide (k ∈ m1.*1)) as [|Hn]; [done|].
        by apply H1, H2 in Hn. }
  apply map_get_None in En. specialize (IH m1 Hs').
  destruct (build_variable_map m1 variables) as [m'|[n'|n'|n']]; try done.
  - destruct IH as (Hnd & Hdis & Hsm & Hg). cbn [fmap list_fmap fst]. split_and!.
    + apply list.NoDup_cons. split; [|done]. intros Hin. apply (Hdis n Hin), Hk. by left.
    + intros k [->|Hin]%elem_of_cons; [done|]. intros Hm. apply (Hdis k Hin), Hk. by right.
    + done.
    + intros k. rewrite Hg, map_get_cons, Hget. case_bool_decide as Hnk; [|done]. subst.
      destruct (map_get k variables) eqn:Ek; [|done]. apply map_get_Some in Ek.
      destruct (Hdis k Ek). apply Hk. by left.
  - destruct IH as (pre & v' & post & -> & Hnd & Hdis & Hin). exists ((n, v) :: pre), v', post.
    cbn [fmap list_fmap fst]. split_and!; [done|..].
    + apply list.NoDup_cons. split; [|done]. intros Hn. apply (Hdis n Hn), Hk. by left.
    + intros k [->|Hp]%elem_of_cons; [done|]. intros Hm. apply (Hdis k Hp), Hk. by right.
    + destruct Hin as [Hin|Hin]; [left; apply elem_of_cons; by right|].
      destruct (proj1 (Hk _) Hin) as [Heq|Hm]; [|by right]. left. apply elem_of_cons. by left.
Qed.

(** ** The least counterexample of a search in order *)

Lemma find_least (p : str → bool) l x :
  sorted l → find p l = Some x →
  x ∈ l ∧ p x = true ∧ ∀ y, y ∈ l → p y = true → y = x ∨ str_ltb x y = true.
Proof.
  induction l as [|z l IH]; cbn [find]; [done|]. intros [Hz Hs]%sorted_cons.
  destruct (p z) eqn:E.
  - intros [= ->]. split; [apply elem_of_cons; by left|]. split; [done|].
    intros y [->|Hy]%elem_of_cons _; [by left|]. right. by eapply Forall_elem in Hz.
  - intros Hf. destruct (IH Hs Hf) as (Hx & Hp & Hl). split; [apply elem_of_cons; by right|].
    split; [done|]. intros y [->|Hy]%elem_of_cons Hpy; [congruence|auto].
Qed.

Lemma find_keys (p : str → bool) (m : list (str * str)) :
  fst <$> find (λ kv, p kv.1) m = find p m.*1.
Proof. induction m as [|[k v] m IH]; [done|]. cbn. by destruct (p k). Qed.

Lemma find_none_all {A} (p : A → bool) (l : list A) :
  find p l = None → ∀ x, x ∈ l → p x = false.
Proof. intros H x Hx. apply list_elem_of_In in Hx. by eapply find_none in H. Qed.

(** ** Segments *)

Definition segment_text (variables : list (str * str)) (s : Segment) : str :=
  match s with Literal t => t | Placeholder n => default [] (map_get n variables) end.

Definition text_of (variables : list (str * str)) (segs : list Segment) : str :=
  mjoin (segment_text variables <$> segs).

Lemma text_of_app vs a b : text_of vs (a ++ b) = text_of vs a ++ text_of vs b.
Proof. unfold text_of. by rewrite fmap_app, join_app. Qed.

Lemma text_of_push vs segs l : text_of vs (push_literal segs l) = text_of vs segs ++ l.
Proof.
  unfold push_literal. case_bool_decide as Hl; [by subst; rewrite app_nil_r|].
  destruct (last segs) as [[t|n]|] eqn:E; rewrite text_of_app.
  - apply last_Some_snoc in E as [segs' ->]. rewrite removelast_snoc, text_of_app.
    unfold text_of at 2 4. cbn. by rewrite !app_nil_r, app_assoc.
  - unfold text_of at 2. cbn. by rewrite app_nil_r.
  - unfold text_of at 2. cbn. by rewrite app_nil_r.
Qed.

(** The value of a piece under the variables. *)
Definition piece_text (variables : list (str * str)) (p : Piece) : str :=
  match p with
  | PChar c => [c]
  | POpen => OPEN
  | PClose => CLOSE
  | PHole raw => default [] (map_get (trim raw) variables)
  end.

Lemma text_of_pieces vs ps segs :
  text_of vs (foldl push_piece segs ps) = text_of vs segs ++ mjoin (piece_text vs <$> ps).
Proof.
  revert segs. induction ps as [|p ps IH]; intros segs; [by rewrite app_nil_r|].
  cbn [foldl]. rewrite IH. change (p :: ps) with ([p] ++ ps). rewrite fmap_app, join_app, app_assoc.
  f_equal. destruct p; cbn [push_piece]; rewrite ?text_of_push, ?text_of_app; unfold text_of;
    cbn; by rewrite ?app_nil_r.
Qed.

(** The names a template asks for. *)
Definition names (ps : list Piece) : list str :=
  omap (λ p, match p with PHole raw => Some (trim raw) | _ => None end) ps.

Lemma elem_of_placeholders ps phs n :
  n ∈ foldl add_name phs ps ↔ n ∈ phs ∨ n ∈ names ps.
Proof.
  revert phs. induction ps as [|p ps IH]; intros phs; [unfold names; cbn; rewrite elem_of_nil; tauto|].
  cbn [foldl]. rewrite IH. destruct p; cbn [add_name]; unfold names; cbn; try done.
  rewrite elem_of_set_insert, elem_of_cons. tauto.
Qed.

Lemma placeholders_sorted ps phs : sorted phs → sorted (foldl add_name phs ps).
Proof.
  revert phs. induction ps as [|p ps IH]; intros phs Hs; [done|]. apply IH.
  destruct p; cbn [add_name]; auto using set_insert_sorted.
Qed.

Lemma push_literal_names segs l n : Placeholder n ∈ push_literal segs l ↔ Placeholder n ∈ segs.
Proof.
  unfold push_literal. case_bool_decide; [done|].
  destruct (last segs) as [[t|m]|] eqn:E; try (rewrite elem_of_app, list_elem_of_singleton;
    split; [by intros [?|[=]]|by left]).
  apply last_Some_snoc in E as [segs' ->]. rewrite removelast_snoc, !elem_of_app, !list_elem_of_singleton.
  split; (intros [?|[=]]; by left).
Qed.

Lemma segments_names ps segs n :
  Placeholder n ∈ foldl push_piece segs ps ↔ Placeholder n ∈ segs ∨ n ∈ names ps.
Proof.
  revert segs. induction ps as [|p ps IH]; intros segs; [unfold names; cbn; rewrite elem_of_nil; tauto|].
  cbn [foldl]. rewrite IH. destruct p as [c| | |raw]; cbn [push_piece];
    [by rewrite push_literal_names..|].
  change (names (PHole raw :: ps)) with (trim raw :: names ps).
  rewrite elem_of_app, list_elem_of_singleton, elem_of_cons.
  split; [intros [[?|[= ->]]|?]|intros [?|[->|?]]]; tauto.
Qed.

Lemma render_segments_ok vs segs acc :
  (∀ n, Placeholder n ∈ segs → is_Some (map_get n vs)) →
  render_segments vs acc segs = Ok (acc ++ text_of vs segs).
Proof.
  revert acc. induction segs as [|s segs IH]; intros acc Hv; cbn [render_segments].
  - by rewrite app_nil_r.
  - change (s :: segs) with ([s] ++ segs). rewrite text_of_app, app_assoc.
    assert (Hv' : ∀ n, Placeholder n ∈ segs → is_Some (map_get n vs)).
    { intros n Hn. apply Hv, elem_of_cons. by right. }
    destruct s as [t|n].
    + rewrite IH by done. unfold text_of at 2. cbn. by rewrite app_nil_r.
    + destruct (Hv n) as [v Hn]; [apply elem_of_cons; by left|]. rewrite Hn, IH by done.
      unfold text_of at 2. cbn. by rewrite Hn, app_nil_r.
Qed.

Lemma piece_text_ext vs vs' (ps : list Piece) :
  (∀ k, map_get k vs = map_get k vs') → piece_text vs <$> ps = piece_text vs' <$> ps.
Proof. intros Hext. apply list_fmap_ext. intros i [] _; cbn; by rewrite ?Hext. Qed.

(** What the result of rendering the template of [ps] says about the values. *)
Definition render_outcome (ps : list Piece) (variables : list (str * str))
    (r : result TemplateRenderError str) : Prop :=
  match r with
  | Ok text => NoDup variables.*1 ∧ (∀ n, n ∈ names ps ↔ n ∈ variables.*1)
      ∧ text = mjoin (piece_text variables <$> ps)
  | Err (DuplicateValue n) => ∃ pre v post,
      variables = pre ++ (n, v) :: post ∧ NoDup pre.*1 ∧ n ∈ pre.*1
  | Err (MissingValue n) => NoDup variables.*1 ∧ n ∈ names ps ∧ (n ∉ variables.*1)
      ∧ ∀ n', n' ∈ names ps → n' ∉ variables.*1 → n' = n ∨ str_ltb n n' = true
  | Err (ExtraValue n) => NoDup variables.*1 ∧ (∀ n', n' ∈ names ps → n' ∈ variables.*1)
      ∧ n ∈ variables.*1 ∧ (n ∉ names ps)
      ∧ ∀ n', n' ∈ variables.*1 → n' ∉ names ps → n' = n ∨ str_ltb n n' = true
  end.

Lemma render_template_outcome (ps : list Piece) (variables : list (str * str)) :
  render_outcome ps variables (render_template (template_of ps) variables).
Proof.
  unfold render_template. pose proof (build_variable_map_spec variables []) as Hb.
  specialize (Hb ltac:(constructor)).
  destruct (build_variable_map [] variables) as [m|[n|n|n]]; cbn [rbind]; try done.
  2:{ destruct Hb as (pre & v & post & Hv & Hn & _ & [Hin|[]%elem_of_nil]). by exists pre, v, post. }
  destruct Hb as (Hnd & _ & Hs & Hg).
  assert (Hget : ∀ k, map_get k m = map_get k variables).
  { intros k. rewrite Hg. by destruct (map_get k variables). }
  assert (Hin : ∀ k, k ∈ m.*1 ↔ k ∈ variables.*1).
  { intros k. pose proof (map_get_None k m) as H1. pose proof (map_get_None k variables) as H2.
    rewrite Hget in H1. destruct (decide (k ∈ m.*1)), (decide (k ∈ variables.*1)); tauto. }
  assert (Hph : ∀ n, n ∈ placeholders (template_of ps) ↔ n ∈ names ps).
  { intros n. cbn [placeholders template_of]. rewrite elem_of_placeholders, elem_of_nil. tauto. }
  assert (Hsp : sorted (placeholders (template_of ps))).
  { apply placeholders_sorted. constructor. }
  assert (Hmiss : ∀ n, negb (bool_decide (is_Some (map_get n m))) = true ↔ n ∉ variables.*1).
  { intros n. rewrite negb_true_iff, bool_decide_eq_false, Hget, <- map_get_None, eq_None_not_Some. done. }
  assert (Hextra : ∀ n, negb (bool_decide (n ∈ placeholders (template_of ps))) = true ↔ n ∉ names ps).
  { intros n. by rewrite negb_true_iff, bool_decide_eq_false, Hph. }
  destruct (find _ (placeholders (template_of ps))) as [p|] eqn:Ep.
  { apply find_least in Ep as (Hp & Hpm & Hl); [|done]. apply Hmiss in Hpm.
    split_and!; [done|by apply Hph|done|]. intros n' Hn' Hm'. apply Hl; [by apply Hph|by apply Hmiss]. }
  assert (Hall : ∀ n, n ∈ names ps → n ∈ variables.*1).
  { intros n Hn%Hph. eapply find_none_all in Ep; [|exact Hn]. cbn beta in Ep.
    destruct (decide (n ∈ variables.*1)) as [|Hno]; [done|]. apply Hmiss in Hno. congruence. }
  pose proof (find_keys (λ k, negb (bool_decide (k ∈ placeholders (template_of ps)))) m) as Hk.
  destruct (find _ m) as [[n v]|] eqn:Em; cbn [fmap option_fmap option_map fst] in Hk.
  { symmetry in Hk. apply find_least in Hk as (Hn & Hne & Hl); [|done]. apply Hextra in Hne.
    split_and!; [done|done|by apply Hin|done|]. intros n' Hn' Hm'. apply Hl; [by apply Hin|by apply Hextra]. }
  assert (Hno : ∀ n, n ∈ variables.*1 → n ∈ names ps).
  { intros n Hn%Hin. symmetry in Hk. eapply find_none_all in Hk; [|exact Hn]. cbn beta in Hk.
    destruct (decide (n ∈ names ps)) as [|Hx]; [done|]. apply Hextra in Hx. congruence. }
  rewrite render_segments_ok.
  - split; [done|]. split; [split; auto|]. cbn [app template_of segments].
    rewrite text_of_pieces. change (text_of m []) with (@nil N). cbn [app].
    f_equal. by apply piece_text_ext.
  - intros n. cbn [segments template_of]. rewrite segments_names, elem_of_nil. intros [[]|Hn].
    rewrite Hget. destruct (map_get n variables) eqn:E; [by eexists|].
    apply map_get_None in E. by destruct E; apply Hall.
Qed.

(** Rendering a source with values always returns.  It returns the source with
    every hole replaced by its value and doubled delimiters halved exactly when the
    source reads to its end and the values are the names of its holes, each once.
    Otherwise it reports where reading gets stuck, the first repeated value, the least
    name without a value, or the least value without a hole, in that order. *)
Theorem render_exact (source : str) (variables : list (str * str)) :
  (∃ ps, Steps source ps [] ∧ ∃ r, render_outcome ps variables r
     ∧ render source variables = Some (match r with Ok text => Ok text | Err e => Err (RenderError e) end))
  ∨ (∃ ps r e, Steps source ps r ∧ Stuck (slen source - slen r) r e
     ∧ render source variables = Some (Err (ParseError e))).
Proof.
  unfold render. destruct (parse_outcome source) as ([t|e] & -> & Ho); cbn in Ho |- *.
  - left. destruct Ho as (ps & Hps & ->). exists ps. split; [done|].
    eexists. split; [apply render_template_outcome|]. fold (template_of ps).
    by destruct (render_template (template_of ps) variables).
  - right. destruct Ho as (ps & r & Hps & Hst). eauto 10.
Qed.

Lemma render_example :
  render (lit "Hello {{ name }}, {{{{x}}}}") [(lit "name", lit "Ada")]
  = Some (Ok (lit "Hello Ada, {{x}}"))
  ∧ render (lit "{{a") [] = Some (Err (ParseError (UnterminatedPlaceholder 0)))
  ∧ render (lit "{{a}}{{b}}") [] = Some (Err (RenderError (MissingValue (lit "a"))))
  ∧ render (lit "}}") [] = Some (Err (ParseError (UnmatchedClosingDelimiter 0))).
Proof. split_and!; vm_compute; reflexivity. Qed.
