(* ===== verification/WalkDir.v ===== *)
(** * The bounded directory walk: [file-system/src/lib.rs]

    [walk_via_directory_reads] lists the descendants of a directory breadth first,
    under limits on depth, directories, entries and the size of the answer.  The file
    system answers through the class [WalkFs]; it may change between calls, so every
    call passes on the state of the world.  [None] is reserved for running out of
    fuel, which the termination theorem excludes. *)

From Stdlib Require Import String ZArith Lia.
From stdpp Require Import base option list numbers.
From S2P Require Import Prelude StrBytes.

Local Open Scope Z_scope.

Definition MAX_WALK_DEPTH : Z := 64.
Definition MAX_WALK_DIRECTORIES : Z := 10000.
Definition MAX_WALK_ENTRIES : Z := 50000.
Definition MAX_WALK_RESPONSE_BYTES : Z := 4 * 1024 * 1024.
Definition WALK_RESPONSE_ITEM_OVERHEAD_BYTES : Z := 64.

Record FileMetadata : Type := {
  is_directory : bool;
  is_file : bool;
  is_symlink : bool;
  size : Z;
  created_at_ms : Z;
  modified_at_ms : Z;
}.

Record ReadDirectoryEntry : Type := {
  file_name : str;
  entry_is_directory : bool;
  entry_is_file : bool;
}.

Record WalkOptions : Type := {
  max_depth : Z;
  max_directories : Z;
  max_entries : Z;
  follow_directory_symlinks : bool;
  prune_hidden_directories : bool;
}.

Inductive WalkEntryKind : Type := Directory | File.

(** [io::Error]: invalid arguments of the walk itself, or an error of the file system
    with its text. *)
Inductive IoError : Type :=
| InvalidInput (message : str)
| FsError (message : str).

Definition error_text (e : IoError) : str := match e with InvalidInput m | FsError m => m end.

(** The operations the walk uses: [ExecutorFileSystem] and [PathUri]. *)
Class WalkFs (World Path : Type) := {
  get_metadata : World → Path → World * result IoError FileMetadata;
  canonicalize : World → Path → World * result IoError Path;
  read_directory : World → Path → World * result IoError (list ReadDirectoryEntry);
  path_join : Path → str → result str Path;
  path_string : Path → str;
}.

Section walk.
Context {World Path : Type} `{EqDecision Path} `{WalkFs World Path}.

Record WalkEntry : Type := mkWalkEntry { walk_path : Path; walk_kind : WalkEntryKind }.
Record WalkError : Type := mkWalkError { error_path : Path; error_message : str }.

Record WalkOutcome : Type := mkOutcome {
  entries : list WalkEntry;
  errors : list WalkError;
  truncated : bool;
}.

Definition default_outcome : WalkOutcome := mkOutcome [] [] false.
Definition set_truncated (o : WalkOutcome) : WalkOutcome := mkOutcome (entries o) (errors o) true.
Definition push_entry (o : WalkOutcome) (e : WalkEntry) : WalkOutcome :=
  mkOutcome (entries o ++ [e]) (errors o) (truncated o).
Definition push_error (o : WalkOutcome) (e : WalkError) : WalkOutcome :=
  mkOutcome (entries o) (errors o ++ [e]) (truncated o).

(** [usize::checked_add]. *)
Definition checked_add (a b : Z) : option Z := if a + b <=? USIZE_MAX then Some (a + b) else None.

(** The outcome, the bytes used, and whether there was room. *)
Definition reserve_walk_response_bytes (o : WalkOutcome) (response_bytes content_bytes : Z)
    : WalkOutcome * Z * bool :=
  let item_bytes := usat_add content_bytes WALK_RESPONSE_ITEM_OVERHEAD_BYTES in
  match checked_add response_bytes item_bytes with
  | None => (set_truncated o, response_bytes, false)
  | Some total_bytes =>
      if MAX_WALK_RESPONSE_BYTES <? total_bytes then (set_truncated o, response_bytes, false)
      else (o, total_bytes, true)
  end.

Definition push_walk_error (o : WalkOutcome) (response_bytes : Z) (path : Path) (message : str)
    : WalkOutcome * Z * bool :=
  let item_bytes := usat_add (slen (path_string path)) (slen message) in
  let '(o, response_bytes, ok) := reserve_walk_response_bytes o response_bytes item_bytes in
  if ok then (push_error o (mkWalkError path message), response_bytes, true)
  else (o, response_bytes, false).

(** The variables of the walk. *)
Record WalkState : Type := mkWalk {
  world : World;
  outcome : WalkOutcome;
  queue : list (Path * Z);
  visited_directories : list Path;
  directory_count : Z;
  entry_count : Z;
  response_bytes : Z;
}.

(** What an iteration does: go on, or return the outcome from the function. *)
Inductive Flow : Type :=
| Continue (st : WalkState)
| Return (st : WalkState).

Definition set_world (st : WalkState) (w : World) : WalkState :=
  mkWalk w (outcome st) (queue st) (visited_directories st) (directory_count st)
    (entry_count st) (response_bytes st).
Definition set_outcome (st : WalkState) (o : WalkOutcome) (bytes : Z) : WalkState :=
  mkWalk (world st) o (queue st) (visited_directories st) (directory_count st)
    (entry_count st) bytes.
Definition set_queue (st : WalkState) (q : list (Path * Z)) : WalkState :=
  mkWalk (world st) (outcome st) q (visited_directories st) (directory_count st)
    (entry_count st) (response_bytes st).

(** [if !push_walk_error(..) { return Ok(outcome) } continue]. *)
Definition record_error (st : WalkState) (path : Path) (message : str) : Flow :=
  let '(o, bytes, ok) := push_walk_error (outcome st) (response_bytes st) path message in
  let st := set_outcome st o bytes in
  if ok then Continue st else Return st.

Section options.
Context (options : WalkOptions).

(** Queueing a directory that is not yet visited. *)
Definition enqueue_directory (st : WalkState) (path directory_identity : Path) (depth : Z) : WalkState :=
  if bool_decide (directory_identity ∈ visited_directories st) then st
  else
    let visited := directory_identity :: visited_directories st in
    if directory_count st =? max_directories options
    then mkWalk (world st) (set_truncated (outcome st)) (queue st) visited (directory_count st)
           (entry_count st) (response_bytes st)
    else mkWalk (world st) (outcome st) (queue st ++ [(path, depth + 1)]) visited
           (directory_count st + 1) (entry_count st) (response_bytes st).

(** Descending into a directory entry. *)
Definition descend (st : WalkState) (path : Path) (name : str) (depth : Z) : Flow :=
  if prune_hidden_directories options && starts_with (lit ".") name then Continue st
  else if follow_directory_symlinks options then
    let '(w, r) := canonicalize (world st) path in
    let st := set_world st w in
    match r with
    | Ok directory_identity => Continue (enqueue_directory st path directory_identity depth)
    | Err e => record_error st path (error_text e)
    end
  else Continue (enqueue_directory st path path depth).

(** The kind of an entry that is listed; symbolic links are listed only as followed
    directories. *)
Definition entry_kind (m : FileMetadata) : option WalkEntryKind :=
  if is_symlink m && (negb (follow_directory_symlinks options) || negb (is_directory m)) then None
  else if is_directory m then Some Directory
  else if is_file m then Some File
  else None.

(** One entry of a directory; the entry is already counted. *)
Definition visit_entry (st : WalkState) (directory : Path) (depth : Z) (entry : ReadDirectoryEntry)
    : Flow :=
  match path_join directory (file_name entry) with
  | Err e => record_error st directory e
  | Ok path =>
      let '(w, r) := get_metadata (world st) path in
      let st := set_world st w in
      match r with
      | Err e => record_error st path (error_text e)
      | Ok metadata =>
          match entry_kind metadata with
          | None => Continue st
          | Some kind =>
              let '(o, bytes, ok) := reserve_walk_response_bytes (outcome st) (response_bytes st)
                                       (slen (path_string path)) in
              let st := set_outcome st o bytes in
              if negb ok then Return st
              else
                let st := set_outcome st (push_entry (outcome st) (mkWalkEntry path kind)) bytes in
                match kind with
                | Directory =>
                    if depth <? max_depth options then descend st path (file_name entry) depth
                    else Continue st
                | File => Continue st
                end
          end
      end
  end.

Definition count_entry (st : WalkState) : WalkState :=
  mkWalk (world st) (outcome st) (queue st) (visited_directories st) (directory_count st)
    (entry_count st + 1) (response_bytes st).

Fixpoint visit_entries (st : WalkState) (directory : Path) (depth : Z)
    (es : list ReadDirectoryEntry) : Flow :=
  match es with
  | [] => Continue st
  | entry :: es' =>
      if entry_count st =? max_entries options
      then Return (set_outcome st (set_truncated (outcome st)) (response_bytes st))
      else match visit_entry (count_entry st) directory depth entry with
           | Continue st => visit_entries st directory depth es'
           | Return st => Return st
           end
  end.

(** [sort_by] on the file names; the sort is stable. *)
Fixpoint insert_by_name (e : ReadDirectoryEntry) (es : list ReadDirectoryEntry)
    : list ReadDirectoryEntry :=
  match es with
  | [] => [e]
  | e' :: es' => if str_ltb (file_name e') (file_name e) then e' :: insert_by_name e es' else e :: es
  end.

Definition sort_by_name (es : list ReadDirectoryEntry) : list ReadDirectoryEntry :=
  foldr insert_by_name [] es.

(** One round: the front of the queue is read and its entries are visited. *)
Definition walk_round (st : WalkState) (directory : Path) (depth : Z) : Flow :=
  let '(w, r) := read_directory (world st) directory in
  let st := set_world st w in
  match r with
  | Err e => record_error st directory (error_text e)
  | Ok es => visit_entries st directory depth (sort_by_name es)
  end.

Fixpoint walk_loop (fuel : nat) (st : WalkState) : option WalkState :=
  match queue st with
  | [] => Some st
  | (directory, depth) :: rest =>
      match fuel with
      | O => None
      | S fuel =>
          match walk_round (set_queue st rest) directory depth with
          | Continue st => walk_loop fuel st
          | Return st => Some st
          end
      end
  end.

Definition limits_message : str :=
  lit "filesystem walk limits exceed maximums: depth=64, directories=10000, entries=50000".

Definition walk_via_directory_reads (fuel : nat) (w : World) (root : Path)
    : option (World * result IoError WalkOutcome) :=
  if (max_directories options =? 0) || (max_entries options =? 0)
  then Some (w, Err (InvalidInput (lit "filesystem walk limits must be greater than zero")))
  else if (MAX_WALK_DEPTH <? max_depth options) || (MAX_WALK_DIRECTORIES <? max_directories options)
          || (MAX_WALK_ENTRIES <? max_entries options)
  then Some (w, Err (InvalidInput limits_message))
  else
    let '(w, r) := get_metadata w root in
    match r with
    | Err e => Some (w, Err e)
    | Ok root_metadata =>
        if negb (is_directory root_metadata)
           || (is_symlink root_metadata && negb (follow_directory_symlinks options))
        then Some (w, Ok default_outcome)
        else
          let '(w, root_identity) :=
            if follow_directory_symlinks options then canonicalize w root else (w, Ok root) in
          match root_identity with
          | Err e => Some (w, Err e)
          | Ok root_identity =>
              st ← walk_loop fuel (mkWalk w default_outcome [(root, 0)] [root_identity] 1 0 0);
              Some (world st, Ok (outcome st))
          end
    end.
End options.
End walk.
