(* ===== verification/WalkDirFacts.v ===== *)
(** * What the walk promises

    Whatever the file system answers, the walk ends after reading at most the allowed
    number of directories, and its answer stays within the limits on entries and
    bytes. *)

From Stdlib Require Import String ZArith Lia.
From stdpp Require Import base option list numbers.
From S2P Require Import Prelude StrBytes WalkDir.

Local Open Scope Z_scope.

Section facts.
Context {World Path : Type} `{EqDecision Path} `{WalkFs World Path}.
Context (options : WalkOptions).
Hypothesis max_entries_nonneg : 0 ≤ max_entries options.

Abbreviation state := (@WalkState World Path) (only parsing).
Abbreviation flow := (@Flow World Path) (only parsing).

(** The size of an answer as the code counts it. *)
Definition entry_bytes (e : @WalkEntry Path) : Z :=
  slen (path_string (walk_path e)) + WALK_RESPONSE_ITEM_OVERHEAD_BYTES.
Definition error_bytes (e : @WalkError Path) : Z :=
  slen (path_string (error_path e)) + slen (error_message e) + WALK_RESPONSE_ITEM_OVERHEAD_BYTES.

Fixpoint sum_by {A} (f : A → Z) (l : list A) : Z :=
  match l with [] => 0 | x :: l' => f x + sum_by f l' end.

Definition response_size (o : @WalkOutcome Path) : Z :=
  sum_by entry_bytes (entries o) + sum_by error_bytes (errors o).

Lemma sum_by_app {A} (f : A → Z) l l' : sum_by f (l ++ l') = sum_by f l + sum_by f l'.
Proof. induction l as [|x l IH]; cbn; lia. Qed.

(** [slack] is one while an entry is counted but not yet listed. *)
Record walk_inv (slack : Z) (st : state) : Prop := {
  inv_entries : Z.of_nat (length (entries (outcome st))) + slack ≤ entry_count st;
  inv_entry_count : entry_count st ≤ max_entries options;
  inv_bytes : response_size (outcome st) = response_bytes st;
  inv_bytes_bound : 0 ≤ response_bytes st ≤ MAX_WALK_RESPONSE_BYTES;
  inv_directories : directory_count st ≤ max_directories options;
  inv_depths : Forall (λ pd, 0 ≤ pd.2 ≤ Z.max 0 (max_depth options)) (queue st);
  inv_visited : NoDup (visited_directories st);
}.

(** The directories that are queued or may still be queued. *)
Definition fuel_needed (st : state) : Z :=
  Z.of_nat (length (queue st)) + (max_directories options - directory_count st).

(** A piece of a round keeps the invariant and what may still be queued. *)
Definition flow_ok (slack : Z) (st : state) (f : flow) : Prop :=
  match f with
  | Continue st' => walk_inv slack st' ∧ fuel_needed st' = fuel_needed st
  | Return st' => walk_inv 0 st'
  end.

Lemma walk_inv_weaken st : walk_inv 1 st → walk_inv 0 st.
Proof. intros []. constructor; try done. lia. Qed.

(** Reserving room is exact: it either adds the size of the item or truncates. *)
Lemma reserve_spec (o : @WalkOutcome Path) bytes content :
  0 ≤ bytes → 0 ≤ content →
  reserve_walk_response_bytes o bytes content
  = if bytes + content + WALK_RESPONSE_ITEM_OVERHEAD_BYTES <=? MAX_WALK_RESPONSE_BYTES
    then (o, bytes + content + WALK_RESPONSE_ITEM_OVERHEAD_BYTES, true)
    else (set_truncated o, bytes, false).
Proof.
  intros Hb Hc. unfold reserve_walk_response_bytes, checked_add, usat_add.
  unfold WALK_RESPONSE_ITEM_OVERHEAD_BYTES, MAX_WALK_RESPONSE_BYTES.
  assert (Hu : USIZE_MAX = 2 ^ 64 - 1) by done.
  destruct (Z.leb_spec (bytes + content + 64) (4 * 1024 * 1024)) as [Hle|Hgt].
  - rewrite Z.min_l by lia. rewrite (proj2 (Z.leb_le _ _)) by lia.
    rewrite (proj2 (Z.ltb_ge _ _)) by lia. f_equal. f_equal. lia.
  - destruct (Z.leb_spec (bytes + Z.min (content + 64) USIZE_MAX) USIZE_MAX); [|done].
    by rewrite (proj2 (Z.ltb_lt _ _)) by lia.
Qed.

Lemma walk_inv_world slack st w : walk_inv slack st → walk_inv slack (set_world st w).
Proof. intros []. by constructor. Qed.

(** The truncated flag does not matter to the invariant. *)
Lemma walk_inv_truncated slack st :
  walk_inv slack st →
  walk_inv slack (set_outcome st (set_truncated (outcome st)) (response_bytes st)).
Proof. intros []. by constructor. Qed.

Lemma record_error_ok slack st path message :
  0 ≤ slack → walk_inv slack st → flow_ok slack st (record_error st path message).
Proof.
  intros Hs Hinv. pose proof (slen_nonneg (path_string path)). pose proof (slen_nonneg message).
  unfold record_error, push_walk_error.
  assert (Hcont : 0 ≤ usat_add (slen (path_string path)) (slen message)).
  { unfold usat_add, USIZE_MAX. lia. }
  pose proof (inv_bytes_bound _ _ Hinv) as Hb. rewrite reserve_spec by lia.
  destruct (Z.leb_spec (response_bytes st + usat_add (slen (path_string path)) (slen message)
    + WALK_RESPONSE_ITEM_OVERHEAD_BYTES) MAX_WALK_RESPONSE_BYTES) as [Hle|Hgt]; cbn [flow_ok].
  - split; [|done]. destruct Hinv as [He Hc Hby _ Hd Hq Hv].
    assert (usat_add (slen (path_string path)) (slen message)
            = slen (path_string path) + slen message) as Hu.
    { unfold usat_add, USIZE_MAX, MAX_WALK_RESPONSE_BYTES, WALK_RESPONSE_ITEM_OVERHEAD_BYTES in *. lia. }
    constructor; cbn [set_outcome outcome entry_count response_bytes directory_count queue
      visited_directories push_error entries errors]; try done.
    + unfold response_size in *. cbn [entries errors push_error]. rewrite sum_by_app. cbn [sum_by].
      unfold error_bytes at 2. cbn [error_path error_message]. lia.
    + unfold WALK_RESPONSE_ITEM_OVERHEAD_BYTES in *. lia.
  - apply walk_inv_truncated. destruct Hinv. constructor; try done. lia.
Qed.

Lemma enqueue_ok slack st path ident depth :
  walk_inv slack st → 0 ≤ depth < max_depth options →
  let st' := enqueue_directory options st path ident depth in
  walk_inv slack st' ∧ fuel_needed st' = fuel_needed st.
Proof.
  intros Hinv Hd. cbn zeta. unfold enqueue_directory. case_bool_decide as Hin; [done|].
  destruct Hinv as [He Hc Hby Hb Hdc Hq Hv].
  assert (NoDup (ident :: visited_directories st)) by by apply list.NoDup_cons.
  destruct (Z.eqb_spec (directory_count st) (max_directories options)) as [Heq|Hne].
  - split; [by constructor|done].
  - split; [constructor; try done; cbn [directory_count queue]; [lia|]|].
    + apply Forall_snoc. split; [done|]. cbn. lia.
    + unfold fuel_needed. cbn [queue directory_count]. rewrite length_app. cbn [length]. lia.
Qed.

Lemma descend_ok st path name depth :
  walk_inv 0 st → 0 ≤ depth < max_depth options →
  flow_ok 0 st (descend options st path name depth).
Proof.
  intros Hinv Hd. unfold descend. destruct (_ && _); [done|].
  destruct (follow_directory_symlinks options); [|by apply enqueue_ok].
  destruct (canonicalize (world st) path) as [w [ident|e]].
  - by apply (enqueue_ok 0 (set_world st w)); [apply walk_inv_world|].
  - by apply (record_error_ok 0 (set_world st w)); [|apply walk_inv_world].
Qed.

Lemma flow_ok_weaken st f : flow_ok 1 st f → flow_ok 0 st f.
Proof. destruct f; cbn; [|done]. intros [Hi ?]. split; [by apply walk_inv_weaken|done]. Qed.

Lemma visit_entry_ok st directory depth e :
  walk_inv 1 st → 0 ≤ depth → flow_ok 0 st (visit_entry options st directory depth e).
Proof.
  intros Hinv Hd. unfold visit_entry.
  destruct (path_join directory (file_name e)) as [path|err];
    [|by apply flow_ok_weaken, record_error_ok].
  destruct (get_metadata (world st) path) as [w [m|err]];
    [|by apply flow_ok_weaken, (record_error_ok 1 (set_world st w)); [|apply walk_inv_world]].
  apply (walk_inv_world _ _ w) in Hinv. change (flow_ok 0 st) with (flow_ok 0 (set_world st w)).
  generalize dependent (set_world st w). clear st. intros st Hinv.
  destruct (entry_kind options m) as [kind|]; [|by split; [apply walk_inv_weaken|]].
  pose proof (slen_nonneg (path_string path)) as Hp.
  pose proof (inv_bytes_bound _ _ Hinv) as Hb. rewrite reserve_spec by lia.
  destruct (Z.leb_spec (response_bytes st + slen (path_string path)
    + WALK_RESPONSE_ITEM_OVERHEAD_BYTES) MAX_WALK_RESPONSE_BYTES) as [Hle|Hgt]; cbn [negb].
  2:{ by apply walk_inv_truncated, walk_inv_weaken. }
  set (st1 := set_outcome (set_outcome _ _ _) _ _).
  assert (Hst1 : walk_inv 0 st1).
  { destruct Hinv as [He Hc Hby _ Hdc Hq Hv].
    constructor; cbn [st1 set_outcome outcome push_entry entries entry_count response_bytes]; try done.
    - rewrite length_app. cbn [length]. lia.
    - unfold response_size in *. cbn [entries errors push_entry]. rewrite sum_by_app. cbn [sum_by].
      unfold entry_bytes at 2. cbn [walk_path]. lia.
    - unfold WALK_RESPONSE_ITEM_OVERHEAD_BYTES in *. lia. }
  change (flow_ok 0 st) with (flow_ok 0 st1).
  destruct kind; [|by split]. destruct (Z.ltb_spec depth (max_depth options)); [|by split].
  by apply descend_ok.
Qed.

Lemma visit_entries_ok es st directory depth :
  walk_inv 0 st → 0 ≤ depth → flow_ok 0 st (visit_entries options st directory depth es).
Proof.
  intros Hinv Hd. revert st Hinv. induction es as [|e es IH]; intros st Hinv; cbn [visit_entries]; [done|].
  destruct (Z.eqb_spec (entry_count st) (max_entries options)) as [Heq|Hne].
  { by apply walk_inv_truncated. }
  assert (Hc : walk_inv 1 (count_entry st)).
  { destruct Hinv. constructor; cbn [count_entry outcome entry_count]; try done; lia. }
  pose proof (visit_entry_ok (count_entry st) directory depth e Hc Hd) as Hv.
  destruct (visit_entry options (count_entry st) directory depth e) as [st'|st']; [|done].
  destruct Hv as [Hi Hf]. specialize (IH st' Hi).
  destruct (visit_entries options st' directory depth es); [|done].
  destruct IH as [Hi' Hf']. split; [done|]. by rewrite Hf', Hf.
Qed.

Lemma walk_round_ok st directory depth :
  walk_inv 0 st → 0 ≤ depth → flow_ok 0 st (walk_round options st directory depth).
Proof.
  intros Hinv Hd. unfold walk_round.
  destruct (read_directory (world st) directory) as [w [es|err]].
  - by apply (visit_entries_ok _ (set_world st w)); [apply walk_inv_world|].
  - by apply (record_error_ok 0 (set_world st w)); [|apply walk_inv_world].
Qed.

Lemma walk_loop_ok fuel st :
  walk_inv 0 st → fuel_needed st ≤ Z.of_nat fuel →
  ∃ st', walk_loop options fuel st = Some st' ∧ walk_inv 0 st'
         ∧ ∀ more, (fuel ≤ more)%nat → walk_loop options more st = Some st'.
Proof.
  revert st. induction fuel as [|fuel IH]; intros st Hinv Hf.
  - destruct (queue st) as [|[d depth] rest] eqn:E.
    + exists st. cbn. rewrite E. split_and!; [done|done|]. intros [|more] _; cbn; by rewrite E.
    + unfold fuel_needed in Hf. rewrite E in Hf. cbn [length] in Hf.
      pose proof (inv_directories _ _ Hinv). lia.
  - destruct (queue st) as [|[d depth] rest] eqn:E.
    + exists st. cbn. rewrite E. split_and!; [done|done|]. intros [|more] _; cbn; by rewrite E.
    + pose proof (inv_depths _ _ Hinv) as Hq. rewrite E in Hq. apply list.Forall_cons in Hq as [Hd Hq].
      assert (Hi : walk_inv 0 (set_queue st rest)) by (destruct Hinv; by constructor).
      pose proof (walk_round_ok (set_queue st rest) d depth Hi (proj1 Hd)) as Hr.
      cbn [walk_loop]. rewrite E.
      destruct (walk_round options (set_queue st rest) d depth) as [st'|st'] eqn:Er.
      * destruct Hr as [Hi' Hf']. destruct (IH st' Hi') as (st'' & Hl & Hi'' & Hm).
        { rewrite Hf'. unfold fuel_needed in *. cbn [set_queue queue directory_count].
          rewrite E in Hf. cbn [length] in Hf. lia. }
        exists st''. split_and!; [done|done|]. intros [|more] Hle; [lia|].
        cbn [walk_loop]. rewrite E, Er. apply Hm. lia.
      * exists st'. split_and!; [done|done|]. intros [|more] Hle; [lia|].
        cbn [walk_loop]. by rewrite E, Er.
Qed.

Lemma walk_start w root ident :
  0 < max_directories options →
  walk_inv 0 (mkWalk w default_outcome [(root, 0)] [ident] 1 0 0)
  ∧ fuel_needed (mkWalk w default_outcome [(root, 0)] [ident] 1 0 0) = max_directories options.
Proof.
  intros Hd. split; [|unfold fuel_needed; cbn; lia].
  constructor; cbn [outcome entries entry_count response_bytes directory_count queue
    visited_directories default_outcome length]; try done; try lia.
  - by repeat constructor; cbn; lia.
  - apply NoDup_singleton.
Qed.
End facts.

(** The walk ends: fuel for as many rounds as directories may be read is enough,
    whatever the file system answers, and more fuel changes nothing. *)
Theorem walk_terminates {World Path : Type} `{EqDecision Path} `{WalkFs World Path}
    (options : WalkOptions) (fuel : nat) (w : World) (root : Path) :
  0 ≤ max_entries options → 0 ≤ max_directories options ≤ Z.of_nat fuel →
  ∃ result, walk_via_directory_reads options fuel w root = Some result
            ∧ ∀ more, (fuel ≤ more)%nat →
              walk_via_directory_reads options more w root = Some result.
Proof.
  intros He Hd. unfold walk_via_directory_reads.
  destruct (Z.eqb_spec (max_directories options) 0) as [|Hne]; [by eexists|].
  destruct (_ || _); [by eexists|]. destruct (_ || _ || _); [by eexists|].
  destruct (get_metadata w root) as [w1 [m|err]]; [|by eexists].
  destruct (_ || _); [by eexists|].
  destruct (if follow_directory_symlinks options then _ else _) as [w2 [ident|err]]; [|by eexists].
  destruct (walk_start options He w2 root ident) as [Hinv Hf]; [lia|].
  destruct (walk_loop_ok options fuel _ Hinv) as (st & Hl & _ & Hm); [lia|].
  rewrite Hl. eexists. split; [done|]. intros more Hle. by rewrite (Hm more Hle).
Qed.

(** An answer of the walk lists at most [max_entries] entries, and its paths and
    messages, with the overhead of each item, take at most [MAX_WALK_RESPONSE_BYTES]
    bytes; both limits hold whatever the file system answers. *)
Theorem walk_bounded {World Path : Type} `{EqDecision Path} `{WalkFs World Path}
    (options : WalkOptions) (fuel : nat) (w w' : World) (root : Path) (o : @WalkOutcome Path) :
  0 ≤ max_entries options → 0 ≤ max_directories options ≤ Z.of_nat fuel →
  walk_via_directory_reads options fuel w root = Some (w', Ok o) →
  Z.of_nat (length (entries o)) ≤ max_entries options ≤ MAX_WALK_ENTRIES
  ∧ response_size o ≤ MAX_WALK_RESPONSE_BYTES.
Proof.
  intros He Hd. unfold walk_via_directory_reads.
  destruct (Z.eqb_spec (max_directories options) 0) as [|Hne]; [done|].
  destruct (Z.eqb_spec (max_entries options) 0) as [|Hne']; [done|]. cbn [orb].
  destruct (_ <? max_depth options); [done|]. destruct (_ <? max_directories options); [done|].
  destruct (Z.ltb_spec MAX_WALK_ENTRIES (max_entries options)) as [|Hmax]; [done|]. cbn [orb].
  destruct (get_metadata w root) as [w1 [m|err]]; [|done].
  destruct (_ || _).
  { intros [= <- <-]. cbn. unfold MAX_WALK_RESPONSE_BYTES, response_size. cbn. lia. }
  destruct (if follow_directory_symlinks options then _ else _) as [w2 [ident|err]]; [|done].
  destruct (walk_start options He w2 root ident) as [Hinv Hf]; [lia|].
  destruct (walk_loop_ok options fuel _ Hinv) as (st & Hl & Hst & _); [lia|].
  rewrite Hl. intros [= <- <-]. destruct Hst. split; lia.
Qed.

(** A small tree: paths are lists of names, [a] is a directory with a file, a symbolic
    link to a directory and an entry whose metadata cannot be read; [.h] is hidden. *)
Module SampleTree.
Definition dir : FileMetadata := {| is_directory := true; is_file := false; is_symlink := false;
  size := 0; created_at_ms := 0; modified_at_ms := 0 |}.
Definition file : FileMetadata := {| is_directory := false; is_file := true; is_symlink := false;
  size := 0; created_at_ms := 0; modified_at_ms := 0 |}.
Definition link : FileMetadata := {| is_directory := true; is_file := false; is_symlink := true;
  size := 0; created_at_ms := 0; modified_at_ms := 0 |}.

Definition name (s : string) : ReadDirectoryEntry :=
  {| file_name := lit s; entry_is_directory := false; entry_is_file := false |}.

Definition tree_meta (p : list str) : result IoError FileMetadata :=
  if bool_decide (p ∈ [[]; [lit "a"]; [lit ".h"]]) then Ok dir
  else if bool_decide (p ∈ [[lit "f"]; [lit "a"; lit "g"]; [lit ".h"; lit "s"]]) then Ok file
  else if bool_decide (p = [lit "a"; lit "l"]) then Ok link
  else Err (FsError (lit "denied")).

Definition tree_listing (p : list str) : result IoError (list ReadDirectoryEntry) :=
  if bool_decide (p = []) then Ok [name "f"; name "a"; name ".h"]
  else if bool_decide (p = [lit "a"]) then Ok [name "l"; name "x"; name "g"]
  else if bool_decide (p = [lit ".h"]) then Ok [name "s"]
  else Err (FsError (lit "denied")).

#[export] Instance tree : WalkFs unit (list str) := {
  get_metadata w p := (w, tree_meta p);
  canonicalize w p := (w, Ok p);
  read_directory w p := (w, tree_listing p);
  path_join p n := Ok (p ++ [n]);
  path_string p := mjoin ((λ n, lit "/" ++ n) <$> p);
}.

Definition tree_options : WalkOptions := {| max_depth := 5; max_directories := 4; max_entries := 20;
  follow_directory_symlinks := false; prune_hidden_directories := true |}.

Definition tree_outcome : @WalkOutcome (list str) := mkOutcome
  [mkWalkEntry [lit ".h"] Directory; mkWalkEntry [lit "a"] Directory; mkWalkEntry [lit "f"] File;
   mkWalkEntry [lit "a"; lit "g"] File]
  [mkWalkError [lit "a"; lit "x"] (lit "denied")] false.

Lemma tree_walk : walk_via_directory_reads tree_options 4 tt [] = Some (tt, Ok tree_outcome).
Proof. vm_compute. reflexivity. Qed.
End SampleTree.
Import SampleTree.

Lemma walk_terminates_witness :
  ∃ result, walk_via_directory_reads (Path := list str) SampleTree.tree_options 4 tt [] = Some result
            ∧ ∀ more, (4 ≤ more)%nat →
              walk_via_directory_reads SampleTree.tree_options more tt [] = Some result.
Proof. apply (walk_terminates SampleTree.tree_options 4 tt []); cbn; lia. Defined.

Lemma walk_bounded_witness :
  Z.of_nat (length (entries SampleTree.tree_outcome)) ≤ 20 ≤ MAX_WALK_ENTRIES
  ∧ response_size SampleTree.tree_outcome ≤ MAX_WALK_RESPONSE_BYTES.
Proof.
  apply (walk_bounded SampleTree.tree_options 4 tt tt []); [cbn; lia|cbn; lia|].
  exact SampleTree.tree_walk.
Defined.
