(* ===== verification/WalkComplete.v ===== *)
(** * The walk lists exactly what is there

    On a file system whose answers do not change, and without following symbolic
    links, an answer that is not truncated lists the reachable files and directories,
    no other path, and reports every failure on the way. *)

From Stdlib Require Import String ZArith Lia Sorting.Sorted.
From stdpp Require Import base option list numbers sets.
From S2P Require Import Prelude StrBytes WalkDir WalkDirFacts.

Local Open Scope Z_scope.

Section complete.
Context {World Path : Type} `{EqDecision Path} `{WalkFs World Path}.
Context (options : WalkOptions) (root : Path).
Context (meta : Path → result IoError FileMetadata)
        (listing : Path → result IoError (list ReadDirectoryEntry)).
Hypothesis stable_metadata : ∀ w p, (get_metadata w p).2 = meta p.
Hypothesis stable_listing : ∀ w p, (read_directory w p).2 = listing p.
Hypothesis no_follow : follow_directory_symlinks options = false.

Abbreviation state := (@WalkState World Path) (only parsing).

(** An entry of a directory with its path and its metadata. *)
Definition child (d : Path) (e : ReadDirectoryEntry) (p : Path) (kind : WalkEntryKind) : Prop :=
  ∃ es m, listing d = Ok es ∧ e ∈ es ∧ path_join d (file_name e) = Ok p ∧ meta p = Ok m
          ∧ entry_kind options m = Some kind.

Definition pruned (e : ReadDirectoryEntry) : bool :=
  prune_hidden_directories options && starts_with (lit ".") (file_name e).

(** The directories to read, with their depth. *)
Inductive reach_dir : Path → Z → Prop :=
| reach_root : reach_dir root 0
| reach_child d k e p :
    reach_dir d k → child d e p Directory → k < max_depth options → pruned e = false →
    reach_dir p (k + 1).

Definition reachable (p : Path) (kind : WalkEntryKind) : Prop :=
  ∃ d k e, reach_dir d k ∧ child d e p kind.

(** The failures on the way. *)
Inductive failure : Path → str → Prop :=
| fail_listing d k err :
    reach_dir d k → listing d = Err err → failure d (error_text err)
| fail_join d k es e m :
    reach_dir d k → listing d = Ok es → e ∈ es → path_join d (file_name e) = Err m → failure d m
| fail_metadata d k es e p err :
    reach_dir d k → listing d = Ok es → e ∈ es → path_join d (file_name e) = Ok p →
    meta p = Err err → failure p (error_text err).

(** What is recorded of one entry [e] of the directory [d] of depth [k]; [dirs] are
    the directories read or queued. *)
Record entry_done (dirs : list (Path * Z)) (o : @WalkOutcome Path) (d : Path) (k : Z)
    (e : ReadDirectoryEntry) : Prop := {
  done_listed p m kind :
    path_join d (file_name e) = Ok p → meta p = Ok m → entry_kind options m = Some kind →
    mkWalkEntry p kind ∈ entries o
    ∧ (kind = Directory → k < max_depth options → pruned e = false →
       ∃ j, j ≤ k + 1 ∧ (p, j) ∈ dirs);
  done_join m : path_join d (file_name e) = Err m → mkWalkError d m ∈ errors o;
  done_metadata p err :
    path_join d (file_name e) = Ok p → meta p = Err err → mkWalkError p (error_text err) ∈ errors o;
}.

Definition dir_done (dirs : list (Path * Z)) (o : @WalkOutcome Path) (d : Path) (k : Z) : Prop :=
  match listing d with
  | Ok es => ∀ e, e ∈ es → entry_done dirs o d k e
  | Err err => mkWalkError d (error_text err) ∈ errors o
  end.

(** The answer grows. *)
Definition grows (st st' : state) : Prop :=
  truncated (outcome st) = false
  ∧ entries (outcome st) ⊆ entries (outcome st')
  ∧ errors (outcome st) ⊆ errors (outcome st')
  ∧ queue st ⊆ queue st'.

Global Instance grows_preorder_trans : Transitive grows.
Proof. intros a b c (?&?&?&?) (?&?&?&?). unfold grows. split_and!; [done|etrans; done..]. Qed.

Lemma entry_done_grows R st st' d k e :
  grows st st' → entry_done (R ++ queue st) (outcome st) d k e →
  entry_done (R ++ queue st') (outcome st') d k e.
Proof.
  intros (_ & He & Hr & Hq) [Hl Hj Hm]. split; [|by eauto..].
  intros p m kind Hp Hmeta Hk. destruct (Hl p m kind Hp Hmeta Hk) as [Hin Hd].
  split; [by apply He|]. intros Hk' Hlt Hpr. destruct (Hd Hk' Hlt Hpr) as (j & Hj' & Hpj).
  exists j. split; [done|]. rewrite elem_of_app in *. destruct Hpj; [by left|]. right. by apply Hq.
Qed.

Lemma dir_done_grows R st st' d k :
  grows st st' → dir_done (R ++ queue st) (outcome st) d k →
  dir_done (R ++ queue st') (outcome st') d k.
Proof.
  intros Hg. unfold dir_done. destruct (listing d); [|by apply Hg].
  intros Hd e He. by eapply entry_done_grows, Hd.
Qed.

(** The state in a round on a directory of depth [k]; [R] are the directories read,
    the current one included. *)
Record round_inv (R : list (Path * Z)) (k : Z) (st : state) : Prop := {
  ri_root : ∃ j, j ≤ 0 ∧ (root, j) ∈ R ++ queue st;
  ri_visited p : p ∈ visited_directories st → ∃ j, (p, j) ∈ R ++ queue st;
  ri_reach p j : (p, j) ∈ R ++ queue st → reach_dir p j;
  ri_entries e : e ∈ entries (outcome st) → reachable (walk_path e) (walk_kind e);
  ri_errors e : e ∈ errors (outcome st) → failure (error_path e) (error_message e);
  ri_depth p j : (p, j) ∈ R ++ queue st → j ≤ k + 1;
  ri_queue : Forall (λ pj, k ≤ pj.2) (queue st);
  ri_sorted : StronglySorted (λ a b, a.2 ≤ b.2) (queue st);
}.

(** What a step of a round does, unless it truncates the answer. *)
Definition step_ok (R : list (Path * Z)) (k : Z) (done : state → Prop) (st : state)
    (f : @Flow World Path) : Prop :=
  match f with
  | Continue st' => truncated (outcome st') = false → round_inv R k st' ∧ grows st st' ∧ done st'
  | Return st' => truncated (outcome st') = true
  end.

Lemma reserve_cases (o : @WalkOutcome Path) b c :
  (∃ b', reserve_walk_response_bytes o b c = (o, b', true))
  ∨ reserve_walk_response_bytes o b c = (set_truncated o, b, false).
Proof.
  unfold reserve_walk_response_bytes. destruct (checked_add _ _); [|by right].
  destruct (_ <? _); [by right|]. left. by eexists.
Qed.

Lemma grows_refl st : truncated (outcome st) = false → grows st st.
Proof. done. Qed.

(** Once truncated, always truncated. *)
Definition flow_state (f : @Flow World Path) : state := match f with Continue st | Return st => st end.

Lemma record_error_truncated st path message :
  truncated (outcome st) = true → truncated (outcome (flow_state (record_error st path message))) = true.
Proof.
  intros Ht. unfold record_error, push_walk_error.
  by destruct (reserve_cases (outcome st) (response_bytes st)
    (usat_add (slen (path_string path)) (slen message))) as [[b' ->]| ->].
Qed.

Lemma descend_truncated st path name k :
  truncated (outcome st) = true → truncated (outcome (flow_state (descend options st path name k))) = true.
Proof.
  intros Ht. unfold descend. destruct (_ && _); [done|]. rewrite no_follow.
  unfold enqueue_directory. case_bool_decide; [done|]. by destruct (_ =? _).
Qed.

Lemma visit_entry_truncated st d k e :
  truncated (outcome st) = true → truncated (outcome (flow_state (visit_entry options st d k e))) = true.
Proof.
  intros Ht. unfold visit_entry.
  destruct (path_join d (file_name e)) as [path|m]; [|by apply record_error_truncated].
  destruct (get_metadata (world st) path) as [w [m|err]]; [|by apply record_error_truncated].
  destruct (entry_kind options m) as [kind|]; [|done].
  destruct (reserve_cases (outcome (set_world st w)) (response_bytes (set_world st w))
    (slen (path_string path))) as [[b' ->]| ->]; [|done]. cbn [negb].
  destruct kind; [|done]. destruct (_ <? _); [|done]. by apply descend_truncated.
Qed.

Lemma visit_entries_truncated es st d k :
  truncated (outcome st) = true → truncated (outcome (flow_state (visit_entries options st d k es))) = true.
Proof.
  revert st. induction es as [|e es IH]; intros st Ht; cbn [visit_entries]; [done|].
  destruct (_ =? _); [done|].
  pose proof (visit_entry_truncated (count_entry st) d k e Ht) as Hv.
  destruct (visit_entry options (count_entry st) d k e); [by apply IH|done].
Qed.

Lemma walk_loop_truncated fuel st st' :
  truncated (outcome st) = true → walk_loop options fuel st = Some st' →
  truncated (outcome st') = true.
Proof.
  revert st. induction fuel as [|fuel IH]; intros st Ht; cbn [walk_loop];
    destruct (queue st) as [|[d k] rest]; try by intros [= <-].
  assert (Hr : truncated (outcome (flow_state (walk_round options (set_queue st rest) d k))) = true).
  { unfold walk_round. destruct (read_directory (world (set_queue st rest)) d) as [w [es|err]];
      [by apply visit_entries_truncated|by apply record_error_truncated]. }
  destruct (walk_round options (set_queue st rest) d k); [by apply IH|]. by intros [= <-].
Qed.

(** An error of a call is recorded. *)
Lemma record_error_step R k st path message (done : state → Prop) :
  round_inv R k st → failure path message →
  (∀ st', grows st st' → mkWalkError path message ∈ errors (outcome st') → done st') →
  step_ok R k done st (record_error st path message).
Proof.
  intros [? ? ? ? Her ? ? ?] Hf Hdone. unfold record_error, push_walk_error.
  destruct (reserve_cases (outcome st) (response_bytes st)
    (usat_add (slen (path_string path)) (slen message))) as [[b' ->]| ->]; [|done].
  cbn [step_ok set_outcome outcome push_error truncated]. intros Ht.
  assert (Hg : grows st (set_outcome st (push_error (outcome st) (mkWalkError path message)) b')).
  { split_and!; try done. intros x Hx. apply elem_of_app. by left. }
  split_and!; [|done|].
  - constructor; try done. cbn [set_outcome outcome push_error errors]. intros e.
    rewrite elem_of_app, list_elem_of_singleton. intros [?| ->]; [by apply Her|done].
  - apply Hdone; [done|]. cbn. apply elem_of_app. right. by apply list_elem_of_singleton.
Qed.

Lemma StronglySorted_snoc (q : list (Path * Z)) x :
  StronglySorted (λ a b, a.2 ≤ b.2) q → Forall (λ y, y.2 ≤ x.2) q →
  StronglySorted (λ a b, a.2 ≤ b.2) (q ++ [x]).
Proof.
  induction 1 as [|y q Hq IH Hy]; intros Hx; [by repeat constructor|].
  apply list.Forall_cons in Hx as [Hyx Hx]. constructor; [by apply IH|].
  apply Forall_app. split; [done|]. by constructor.
Qed.

(** A directory is queued unless it was visited, and the limit truncates. *)
Lemma enqueue_step R k st path :
  round_inv R k st → reach_dir path (k + 1) → truncated (outcome st) = false →
  let st' := enqueue_directory options st path path k in
  truncated (outcome st') = false →
  round_inv R k st' ∧ grows st st' ∧ ∃ j, j ≤ k + 1 ∧ (path, j) ∈ R ++ queue st'.
Proof.
  intros Hinv Hr Ht. cbn zeta. unfold enqueue_directory. case_bool_decide as Hin.
  { intros _. split_and!; [done|done|].
    destruct (ri_visited _ _ _ Hinv _ Hin) as [j Hj].
    exists j. split; [by eapply ri_depth|done]. }
  destruct (_ =? _); [done|]. intros _.
  assert (Hsplit : ∀ x, x ∈ R ++ (queue st ++ [(path, k + 1)]) ↔ x ∈ R ++ queue st ∨ x = (path, k + 1)).
  { intros x. by rewrite !elem_of_app, list_elem_of_singleton, assoc by apply _. }
  destruct Hinv as [(j0 & Hj0 & Hroot) Hvis Hre Hen Her Hdep Hq Hs]. split_and!.
  - constructor; cbn [queue outcome visited_directories]; try done.
    + exists j0. split; [done|]. apply Hsplit. by left.
    + intros p. rewrite elem_of_cons. intros [->|Hp].
      * exists (k + 1). apply Hsplit. by right.
      * destruct (Hvis p Hp) as [j Hj]. exists j. apply Hsplit. by left.
    + intros p j [Hp|[= -> ->]]%Hsplit; [by apply Hre|done].
    + intros p j [Hp|[= -> ->]]%Hsplit; [by eapply Hdep|lia].
    + apply Forall_app. split; [done|]. constructor; [cbn; lia|done].
    + apply StronglySorted_snoc; [done|]. apply list.Forall_forall. intros [p j] Hp. cbn.
      apply (Hdep p). apply elem_of_app. by right.
  - split_and!; try done. cbn. intros x Hx. apply elem_of_app. by left.
  - exists (k + 1). split; [lia|]. apply Hsplit. by right.
Qed.

(** The entry [e] of [d], with its path and kind, is listed in [st1]; what is left is
    to descend into a directory. *)
Lemma listed_step R k st st1 d es e path m kind :
  reach_dir d k → listing d = Ok es → e ∈ es → path_join d (file_name e) = Ok path →
  meta path = Ok m → entry_kind options m = Some kind →
  round_inv R k st1 → grows st st1 → truncated (outcome st1) = false →
  mkWalkEntry path kind ∈ entries (outcome st1) →
  step_ok R k (λ st', entry_done (R ++ queue st') (outcome st') d k e) st
    match kind with
    | Directory =>
        if k <? max_depth options then descend options st1 path (file_name e) k else Continue st1
    | File => Continue st1
    end.
Proof.
  intros Hd Hes He Hp Hm Hk Hst1 Hg Ht Hin.
  assert (Hdone : ∀ st', grows st1 st' →
    (kind = Directory → k < max_depth options → pruned e = false →
      ∃ j, j ≤ k + 1 ∧ (path, j) ∈ R ++ queue st') →
    entry_done (R ++ queue st') (outcome st') d k e).
  { intros st' (_ & Hen & _ & _) Hq. split; intros *; rewrite Hp; intros [=]; subst;
      rewrite Hm; intros [=]; subst. rewrite Hk. intros [= <-]. split; [|done]. by apply Hen. }
  assert (Hstay : (kind = Directory → k < max_depth options → pruned e = true) →
    step_ok R k (λ st', entry_done (R ++ queue st') (outcome st') d k e) st (Continue st1)).
  { intros Hno _. split_and!; [done|done|]. apply Hdone; [done|].
    intros Hk' Hlt. by rewrite (Hno Hk' Hlt). }
  destruct kind; [|by apply Hstay].
  destruct (Z.ltb_spec k (max_depth options)); [|apply Hstay; lia].
  unfold descend. fold (pruned e). destruct (pruned e) eqn:Hpr; [by apply Hstay|].
  rewrite no_follow. cbn [step_ok]. intros Ht'.
  destruct (enqueue_step R k st1 path Hst1) as (Hi & Hg' & Hj);
    [eapply reach_child; [done|by exists es, m|done|done]|done|done|].
  split_and!; [done|by etrans|]. by apply Hdone.
Qed.

Lemma visit_entry_step R k st d es e :
  round_inv R k st → truncated (outcome st) = false → reach_dir d k → listing d = Ok es → e ∈ es →
  step_ok R k (λ st', entry_done (R ++ queue st') (outcome st') d k e) st
    (visit_entry options st d k e).
Proof.
  intros Hinv Ht Hd Hes He. unfold visit_entry.
  destruct (path_join d (file_name e)) as [path|m] eqn:Hp.
  2:{ apply record_error_step; [done|by eapply fail_join|]. intros st' _ Hin.
      split; intros *; rewrite Hp; intros [=]; by subst. }
  pose proof (stable_metadata (world st) path) as Hmeta.
  destruct (get_metadata (world st) path) as [w r]. cbn in Hmeta. subst r.
  assert (Hinv' : round_inv R k (set_world st w)) by by destruct Hinv.
  change (step_ok R k ?P st) with (step_ok R k P (set_world st w)).
  change (truncated (outcome (set_world st w)) = false) in Ht.
  generalize dependent (set_world st w). clear st Hinv. intros st Ht Hinv.
  destruct (meta path) as [m|err] eqn:Hm.
  2:{ apply record_error_step; [done|by eapply fail_metadata|]. intros st' _ Hin.
      split; intros *; rewrite Hp; intros [=]; subst; rewrite Hm; intros [=]; by subst. }
  destruct (entry_kind options m) as [kind|] eqn:Hk.
  2:{ intros _. split_and!; [done|done|].
      split; intros *; rewrite Hp; intros [=]; subst; rewrite Hm; intros [=]; subst;
        congruence. }
  destruct (reserve_cases (outcome st) (response_bytes st) (slen (path_string path)))
    as [[b' ->]| ->]; [|done]. cbn [negb].
  eapply listed_step; try done.
  - destruct Hinv as [? ? ? Hen ? ? ? ?]. constructor; try done.
    intros x. cbn [set_outcome outcome push_entry entries].
    rewrite elem_of_app, list_elem_of_singleton. intros [?| ->]; [by apply Hen|].
    exists d, k, e. split; [done|]. by exists es, m.
  - split_and!; try done. intros x Hx. apply elem_of_app. by left.
  - apply elem_of_app. right. by apply list_elem_of_singleton.
Qed.

Lemma insert_by_name_elem e x es : x ∈ insert_by_name e es ↔ x = e ∨ x ∈ es.
Proof.
  induction es as [|y es IH]; cbn; [by rewrite !elem_of_cons, elem_of_nil|].
  destruct (str_ltb _ _); rewrite !elem_of_cons; [rewrite IH|]; tauto.
Qed.

Lemma sort_by_name_elem x es : x ∈ sort_by_name es ↔ x ∈ es.
Proof.
  induction es as [|y es IH]; [done|]. cbn [sort_by_name foldr].
  by rewrite insert_by_name_elem, elem_of_cons, <- IH.
Qed.

Lemma visit_entries_step R k d all es st :
  round_inv R k st → truncated (outcome st) = false → reach_dir d k → listing d = Ok all → es ⊆ all →
  step_ok R k (λ st', ∀ e, e ∈ es → entry_done (R ++ queue st') (outcome st') d k e) st
    (visit_entries options st d k es).
Proof.
  intros Hinv Ht Hd Hall. revert st Hinv Ht.
  induction es as [|e es IH]; intros st Hinv Ht Hsub; cbn [visit_entries].
  { intros _. split_and!; [done|done|]. intros e He. by apply elem_of_nil in He. }
  destruct (_ =? _); [done|].
  assert (Hinv' : round_inv R k (count_entry st)) by by destruct Hinv.
  pose proof (visit_entry_step R k (count_entry st) d all e Hinv' Ht Hd Hall) as Hv.
  specialize (Hv ltac:(apply Hsub; by left)).
  destruct (visit_entry options (count_entry st) d k e) as [st1|st1]; [|done].
  destruct (truncated (outcome st1)) eqn:Ht1.
  - pose proof (visit_entries_truncated es st1 d k Ht1) as Htr.
    destruct (visit_entries options st1 d k es); [|done]. cbn in *. congruence.
  - destruct (Hv Ht1) as (Hi1 & Hg1 & He1).
    specialize (IH st1 Hi1 Ht1 ltac:(intros x Hx; apply Hsub; by right)).
    destruct (visit_entries options st1 d k es) as [st2|st2]; [|done].
    intros Ht2. destruct (IH Ht2) as (Hi2 & Hg2 & Hes2). split_and!; [done|by etrans|].
    intros x [->|Hx]%elem_of_cons; [by eapply entry_done_grows|by apply Hes2].
Qed.

Lemma walk_round_step R k d st :
  round_inv R k st → truncated (outcome st) = false → reach_dir d k →
  step_ok R k (λ st', dir_done (R ++ queue st') (outcome st') d k) st (walk_round options st d k).
Proof.
  intros Hinv Ht Hd. unfold walk_round. pose proof (stable_listing (world st) d) as Hl.
  destruct (read_directory (world st) d) as [w r]. cbn in Hl. subst r.
  assert (Hinv' : round_inv R k (set_world st w)) by by destruct Hinv.
  change (step_ok R k ?P st) with (step_ok R k P (set_world st w)).
  destruct (listing d) as [es|err] eqn:Hl.
  - pose proof (visit_entries_step R k d es (sort_by_name es) (set_world st w) Hinv' Ht Hd Hl) as Hv.
    specialize (Hv ltac:(intros x; by rewrite sort_by_name_elem)).
    destruct (visit_entries _ _ _ _ _); [|done]. intros Ht'. destruct (Hv Ht') as (? & ? & Hes).
    split_and!; [done|done|]. unfold dir_done. rewrite Hl. intros e He.
    by apply Hes, sort_by_name_elem.
  - apply record_error_step; [done|by eapply fail_listing|]. intros st' _ Hin.
    unfold dir_done. by rewrite Hl.
Qed.

(** Taking the front of the queue starts its round. *)
Lemma round_start R k st d k0 rest :
  round_inv R k st → queue st = (d, k0) :: rest → round_inv (R ++ [(d, k0)]) k0 (set_queue st rest).
Proof.
  intros [Hroot Hvis Hre Hen Her Hdep Hq Hs] Eq. rewrite Eq in *.
  apply list.Forall_cons in Hq as [Hk0 Hq]. cbn in Hk0.
  apply StronglySorted_inv in Hs as [Hs Hall].
  constructor; cbn [set_queue queue outcome visited_directories]; rewrite <- ?app_assoc; try done.
  intros p j Hp. specialize (Hdep p j Hp). lia.
Qed.

(** When the queue is empty, everything read is recorded. *)
Lemma walk_loop_complete fuel R k st st' :
  round_inv R k st → truncated (outcome st) = false →
  (∀ d j, (d, j) ∈ R → dir_done (R ++ queue st) (outcome st) d j) →
  walk_loop options fuel st = Some st' → truncated (outcome st') = false →
  ∃ R' k', round_inv R' k' st' ∧ queue st' = []
           ∧ ∀ d j, (d, j) ∈ R' → dir_done R' (outcome st') d j.
Proof.
  revert R k st. induction fuel as [|fuel IH]; intros R k st Hinv Ht Hdone; cbn [walk_loop].
  all: destruct (queue st) as [|[d k0] rest] eqn:Eq.
  1,3: intros [= ->] _; exists R, k; rewrite Eq; split_and!; [done|done|];
       intros d j Hd; rewrite <- (app_nil_r R), <- Eq at 1; rewrite Eq; by apply Hdone.
  { done. }
  pose proof (round_start R k st d k0 rest Hinv Eq) as Hstart.
  assert (Hd : reach_dir d k0).
  { apply (ri_reach _ _ _ Hstart). rewrite !elem_of_app, list_elem_of_singleton. auto. }
  pose proof (walk_round_step _ _ d _ Hstart Ht Hd) as Hr.
  destruct (walk_round options (set_queue st rest) d k0) as [st1|st1] eqn:Er.
  2:{ intros [= ->]. cbn in Hr. congruence. }
  intros Hl Ht'. destruct (truncated (outcome st1)) eqn:Ht1.
  { by rewrite (walk_loop_truncated _ _ _ Ht1 Hl) in Ht'. }
  destruct (Hr Ht1) as (Hi1 & Hg1 & Hd1).
  eapply (IH _ _ st1); [done|done| |done|done].
  intros d' j'. rewrite elem_of_app, list_elem_of_singleton. intros [Hin|[= -> ->]]; [|done].
  eapply dir_done_grows; [done|]. cbn [set_queue queue outcome]. rewrite <- app_assoc. cbn [app].
  by apply Hdone.
Qed.

(** A directory to read was read, at no greater depth. *)
Lemma reach_dir_read R k st d j :
  round_inv R k st → queue st = [] → (∀ d j, (d, j) ∈ R → dir_done R (outcome st) d j) →
  reach_dir d j → ∃ i, i ≤ j ∧ (d, i) ∈ R.
Proof.
  intros Hinv Hq Hdone. induction 1 as [|d j e p Hd (i & Hij & Hi) (es & m & Hl & He & Hp & Hm & Hk) Hlt Hpr].
  - destruct (ri_root _ _ _ Hinv) as (i & Hi & Hin). rewrite Hq, app_nil_r in Hin. by exists i.
  - pose proof (Hdone d i Hi) as Hdd. unfold dir_done in Hdd. rewrite Hl in Hdd.
    destruct (done_listed _ _ _ _ _ (Hdd e He) p m Directory Hp Hm Hk) as [_ Hsub].
    destruct Hsub as (i' & Hi' & Hin); [done|lia|done|]. exists i'. split; [lia|done].
Qed.

(** C29: on a file system whose answers do not change, a walk that does not follow
    symbolic links and whose answer is not truncated lists exactly the files and
    directories reachable from its root within the depth limit and outside pruned
    directories, and its errors are exactly the failures on the way. *)
Theorem walk_complete fuel w w' o m :
  meta root = Ok m → is_directory m = true → is_symlink m = false →
  walk_via_directory_reads options fuel w root = Some (w', Ok o) → truncated o = false →
  (∀ p kind, mkWalkEntry p kind ∈ entries o ↔ reachable p kind)
  ∧ ∀ p message, mkWalkError p message ∈ errors o ↔ failure p message.
Proof.
  intros Hm Hdir Hsym. unfold walk_via_directory_reads.
  destruct (_ || _); [done|]. destruct (_ || _ || _); [done|].
  pose proof (stable_metadata w root) as Hsm. destruct (get_metadata w root) as [w1 r].
  cbn in Hsm. subst r. rewrite Hm, Hdir, Hsym, no_follow. cbn [negb orb andb].
  intros (st & Hl & [= _ <-])%bind_Some Ht.
  assert (Hinit : round_inv [] 0 (mkWalk w1 default_outcome [(root, 0)] [root] 1 0 0)).
  { constructor; cbn [queue outcome default_outcome entries errors visited_directories app].
    - exists 0. split; [lia|by left].
    - intros p ->%list_elem_of_singleton. exists 0. by left.
    - intros p j [= -> ->]%list_elem_of_singleton. apply reach_root.
    - intros e He. by apply elem_of_nil in He.
    - intros e He. by apply elem_of_nil in He.
    - intros p j [= -> ->]%list_elem_of_singleton. lia.
    - by repeat constructor.
    - by repeat constructor. }
  destruct (walk_loop_complete fuel [] 0 _ st Hinit eq_refl) as (R & k & Hinv & Hq & Hdone);
    [by intros ?? ?%elem_of_nil|done|done|].
  assert (Hread : ∀ d j, reach_dir d j → ∃ i, dir_done R (outcome st) d i).
  { intros d j Hd. destruct (reach_dir_read _ _ _ _ _ Hinv Hq Hdone Hd) as (i & _ & Hi).
    exists i. by apply Hdone. }
  split.
  - intros p kind. split; [intros He; apply (ri_entries _ _ _ Hinv _ He)|].
    intros (d & j & e & Hd & es & m' & Hes & He & Hp & Hm' & Hk).
    destruct (Hread d j Hd) as [i Hi]. unfold dir_done in Hi. rewrite Hes in Hi.
    by apply (done_listed _ _ _ _ _ (Hi e He) p m').
  - intros p message. split; [intros He; apply (ri_errors _ _ _ Hinv _ He)|].
    destruct 1 as [d j err Hd Hes|d j es e msg Hd Hes He Hp|d j es e p' err Hd Hes He Hp Herr];
      destruct (Hread d j Hd) as [i Hi]; unfold dir_done in Hi; rewrite Hes in Hi; [done|..].
    + by apply (done_join _ _ _ _ _ (Hi e He)).
    + by apply (done_metadata _ _ _ _ _ (Hi e He)).
Qed.
End complete.

Import SampleTree.

Lemma walk_complete_witness :
  (∀ p kind, mkWalkEntry p kind ∈ entries tree_outcome
             ↔ reachable tree_options [] tree_meta tree_listing p kind)
  ∧ ∀ p message, mkWalkError p message ∈ errors tree_outcome
                 ↔ failure tree_options [] tree_meta tree_listing p message.
Proof.
  apply (walk_complete (H := tree) tree_options [] tree_meta tree_listing (λ _ _, eq_refl) (λ _ _, eq_refl)
    eq_refl 4 tt tt tree_outcome dir); [reflexivity|reflexivity|reflexivity| |reflexivity].
  exact tree_walk.
Defined.
