(* ===== verification/RequestQueues.v ===== *)
(** * Serialized request queues: [cli-runtime/src/request_serialization.rs] and
    [cli-runtime/src/connection_rpc_gate.rs]

    Requests that touch one resource wait in a queue of its key.  A task per key takes
    the requests in order and runs a batch at a time: one exclusive request, or a run
    of shared reads.  Every request passes the gate of its connection.  The tasks run
    concurrently; a step of [step] is what one task does between two points where
    another can interfere: a section under a lock, a spawn, the start or the end of a
    request.  A request is opaque and is assumed to return. *)

From Stdlib Require Import String ZArith Lia.
From stdpp Require Import base option list numbers countable gmap.
From S2P Require Import Prelude.

(** [tokio_util::task::TaskTracker]: the tokens outstanding, and whether [wait] is
    over. *)
Class TaskTracker (T : Type) := {
  tracker_new : T;
  token : T → T;
  drop_token : T → T;
  tracker_close : T → T;
  wait_over : T → bool;
  tokens : T → nat;
}.

(** Its documentation: [wait] is over when the tracker is closed and empty. *)
Class TaskTrackerLaws (T : Type) `{TaskTracker T} : Prop := {
  tokens_new : tokens tracker_new = 0;
  tokens_token t : tokens (token t) = S (tokens t);
  tokens_drop t : tokens (drop_token t) = pred (tokens t);
  tokens_close t : tokens (tracker_close t) = tokens t;
  wait_over_empty t : wait_over t = true → tokens t = 0;
}.

Definition ConnectionId : Type := N.

Section keys.
Context {PathBuf : Type}.

Inductive ClientRequestSerializationScope : Type :=
| ScopeGlobal (name : str)
| ScopeGlobalSharedRead (name : str)
| ScopeThread (thread_id : str)
| ScopeThreadPath (path : PathBuf)
| ScopeCommandExecProcess (process_id : str)
| ScopeProcess (process_handle : str)
| ScopeFuzzyFileSearchSession (session_id : str)
| ScopeFsWatch (watch_id : str).

Inductive RequestSerializationQueueKey : Type :=
| Global_ (name : str)
| Thread (thread_id : str)
| ThreadPath (path : PathBuf)
| CommandExecProcess (connection_id : ConnectionId) (process_id : str)
| Process (connection_id : ConnectionId) (process_handle : str)
| FuzzyFileSearchSession (session_id : str)
| FsWatch (connection_id : ConnectionId) (watch_id : str).

Inductive RequestSerializationAccess : Type := Exclusive | SharedRead.

Definition from_scope (connection_id : ConnectionId) (scope : ClientRequestSerializationScope)
    : RequestSerializationQueueKey * RequestSerializationAccess :=
  match scope with
  | ScopeGlobal name => (Global_ name, Exclusive)
  | ScopeGlobalSharedRead name => (Global_ name, SharedRead)
  | ScopeThread thread_id => (Thread thread_id, Exclusive)
  | ScopeThreadPath path => (ThreadPath path, Exclusive)
  | ScopeCommandExecProcess process_id => (CommandExecProcess connection_id process_id, Exclusive)
  | ScopeProcess process_handle => (Process connection_id process_handle, Exclusive)
  | ScopeFuzzyFileSearchSession session_id => (FuzzyFileSearchSession session_id, Exclusive)
  | ScopeFsWatch watch_id => (FsWatch connection_id watch_id, Exclusive)
  end.

#[export] Instance access_eq_dec : EqDecision RequestSerializationAccess.
Proof. solve_decision. Defined.

#[export] Instance key_eq_dec `{EqDecision PathBuf} : EqDecision RequestSerializationQueueKey.
Proof. solve_decision. Defined.

(** A key as a number of its constructor, a connection, a text and a path. *)
#[export] Instance key_countable `{Countable PathBuf} : Countable RequestSerializationQueueKey.
Proof.
  refine (inj_countable'
    (λ k, match k with
     | Global_ s => inl (0%nat, 0%N, s)
     | Thread s => inl (1%nat, 0%N, s)
     | CommandExecProcess c s => inl (2%nat, c, s)
     | Process c s => inl (3%nat, c, s)
     | FuzzyFileSearchSession s => inl (4%nat, 0%N, s)
     | FsWatch c s => inl (5%nat, c, s)
     | ThreadPath p => inr p
     end)
    (λ x, match x with
     | inl (0, _, s) => Global_ s
     | inl (1, _, s) => Thread s
     | inl (2, c, s) => CommandExecProcess c s
     | inl (3, c, s) => Process c s
     | inl (4, _, s) => FuzzyFileSearchSession s
     | inl (_, c, s) => FsWatch c s
     | inr p => ThreadPath p
     end%nat) _).
  by intros [].
Defined.
End keys.
Arguments RequestSerializationQueueKey : clear implicits.
Arguments ClientRequestSerializationScope : clear implicits.

(** [ConnectionRpcGate]. *)
Record ConnectionRpcGate (T : Type) : Type := mkGate { accepting : bool; tasks_ : T }.
Arguments mkGate {T} _ _.
Arguments accepting {T} _.
Arguments tasks_ {T} _.

(** [QueuedInitializedRequest]: the gate of its connection, absent for background
    work, and the future, by a number. *)
Record QueuedInitializedRequest : Type := mkRequest { gate : option ConnectionId; future : N }.

Record QueuedSerializedRequest : Type := mkQueued {
  access : RequestSerializationAccess;
  request : QueuedInitializedRequest;
}.

(** A request in a batch. *)
Inductive RunState : Type := NotStarted | Started | Finished.

#[export] Instance run_state_eq_dec : EqDecision RunState.
Proof. solve_decision. Defined.

(** A drain task: before its lock, or joining a batch. *)
Inductive DrainState : Type :=
| AtLock
| Joining (batch : list (QueuedSerializedRequest * RunState)).

Definition is_shared (q : QueuedSerializedRequest) : bool :=
  match access q with SharedRead => true | Exclusive => false end.

(** The batch at the front of a queue, and the rest. *)
Fixpoint span_shared (queue : list QueuedSerializedRequest)
    : list QueuedSerializedRequest * list QueuedSerializedRequest :=
  match queue with
  | q :: rest =>
      if is_shared q then let '(taken, rest) := span_shared rest in (q :: taken, rest)
      else ([], queue)
  | [] => ([], [])
  end.

Definition pop_batch (queue : list QueuedSerializedRequest)
    : option (list QueuedSerializedRequest * list QueuedSerializedRequest) :=
  match queue with
  | [] => None
  | q :: rest =>
      if is_shared q then let '(taken, rest) := span_shared rest in Some (q :: taken, rest)
      else Some ([q], rest)
  end.

Section queues.
Context {PathBuf : Type} `{Countable PathBuf} {T : Type} `{TaskTracker T}.

Abbreviation Key := (RequestSerializationQueueKey PathBuf) (only parsing).

Definition gate_new : ConnectionRpcGate T := mkGate true tracker_new.

(** The queues under their lock, the keys whose task is about to be spawned, the
    drain tasks, and the gates of the connections. *)
Record State : Type := mkState {
  inner : gmap Key (list QueuedSerializedRequest);
  to_spawn : list Key;
  drains : list (Key * DrainState);
  gates : gmap ConnectionId (ConnectionRpcGate T);
}.

Definition initial : State := mkState ∅ [] [] ∅.

Definition gate_of (st : State) (c : ConnectionId) : ConnectionRpcGate T :=
  default gate_new (gates st !! c).

(** The section of [enqueue] under the lock. *)
Definition enqueue (st : State) (key : Key) (access : RequestSerializationAccess)
    (request : QueuedInitializedRequest) : State :=
  let request := mkQueued access request in
  match inner st !! key with
  | Some queue =>
      mkState (<[key := queue ++ [request]]> (inner st)) (to_spawn st) (drains st) (gates st)
  | None =>
      mkState (<[key := [request]]> (inner st)) (to_spawn st ++ [key]) (drains st) (gates st)
  end.

(** The section of [drain] under the lock: the batch and the queues left, or the
    queues left when the task returns. *)
Definition drain_section (m : gmap Key (list QueuedSerializedRequest)) (key : Key)
    : gmap Key (list QueuedSerializedRequest) * option (list QueuedSerializedRequest) :=
  match m !! key with
  | None => (m, None)
  | Some queue =>
      match pop_batch queue with
      | Some (requests, rest) => (<[key := rest]> m, Some requests)
      | None => (delete key m, None)
      end
  end.

Definition drain_step (st : State) (i : nat) (key : Key) : State :=
  match drain_section (inner st) key with
  | (m, Some requests) =>
      mkState m (to_spawn st)
        (<[i := (key, Joining ((λ q, (q, NotStarted)) <$> requests))]> (drains st)) (gates st)
  | (m, None) => mkState m (to_spawn st) (delete i (drains st)) (gates st)
  end.

(** [ConnectionRpcGate::run] up to the future: the gate with the token taken, or
    nothing when the gate is closed. *)
Definition gate_run_start (g : ConnectionRpcGate T) : option (ConnectionRpcGate T) :=
  if negb (accepting g) then None else Some (mkGate (accepting g) (token (tasks_ g))).

(** [drop(token)]. *)
Definition gate_run_end (g : ConnectionRpcGate T) : ConnectionRpcGate T :=
  mkGate (accepting g) (drop_token (tasks_ g)).

Definition gate_close (g : ConnectionRpcGate T) : ConnectionRpcGate T :=
  mkGate false (tracker_close (tasks_ g)).

(** [QueuedInitializedRequest::run] up to its future: the gates, and whether the
    future is run. *)
Definition run_start (st : State) (r : QueuedInitializedRequest)
    : gmap ConnectionId (ConnectionRpcGate T) * bool :=
  match gate r with
  | None => (gates st, true)
  | Some c =>
      match gate_run_start (gate_of st c) with
      | Some g => (<[c := g]> (gates st), true)
      | None => (gates st, false)
      end
  end.

Definition run_end (st : State) (r : QueuedInitializedRequest)
    : gmap ConnectionId (ConnectionRpcGate T) :=
  match gate r with
  | None => gates st
  | Some c => <[c := gate_run_end (gate_of st c)]> (gates st)
  end.

(** The [j]-th request of the batch of the task [i] is now in [s]. *)
Definition set_run (st : State) (i j : nat) (key : Key)
    (batch : list (QueuedSerializedRequest * RunState)) (q : QueuedSerializedRequest) (s : RunState)
    (gs : gmap ConnectionId (ConnectionRpcGate T)) : State :=
  mkState (inner st) (to_spawn st) (<[i := (key, Joining (<[j := (q, s)]> batch))]> (drains st)) gs.

Inductive Event : Type :=
| EvEnqueue (key : Key) (access : RequestSerializationAccess) (request : QueuedInitializedRequest)
| EvSpawn (key : Key)
| EvDrain (key : Key)
| EvStart (key : Key) (request : QueuedInitializedRequest)
| EvSkip (key : Key) (request : QueuedInitializedRequest)
| EvFinish (key : Key) (request : QueuedInitializedRequest)
| EvJoined (key : Key) (batch : list QueuedSerializedRequest)
| EvClose (connection : ConnectionId)
| EvShutdown (connection : ConnectionId).

Inductive step : State → Event → State → Prop :=
| step_enqueue st key access request :
    step st (EvEnqueue key access request) (enqueue st key access request)
| step_spawn st key before after :
    to_spawn st = before ++ key :: after →
    step st (EvSpawn key)
      (mkState (inner st) (before ++ after) (drains st ++ [(key, AtLock)]) (gates st))
| step_drain st i key :
    drains st !! i = Some (key, AtLock) →
    step st (EvDrain key) (drain_step st i key)
| step_start st i key batch j q gs :
    drains st !! i = Some (key, Joining batch) → batch !! j = Some (q, NotStarted) →
    run_start st (request q) = (gs, true) →
    step st (EvStart key (request q)) (set_run st i j key batch q Started gs)
| step_skip st i key batch j q gs :
    drains st !! i = Some (key, Joining batch) → batch !! j = Some (q, NotStarted) →
    run_start st (request q) = (gs, false) →
    step st (EvSkip key (request q)) (set_run st i j key batch q Finished gs)
| step_finish st i key batch j q :
    drains st !! i = Some (key, Joining batch) → batch !! j = Some (q, Started) →
    step st (EvFinish key (request q)) (set_run st i j key batch q Finished (run_end st (request q)))
| step_joined st i key batch :
    drains st !! i = Some (key, Joining batch) → Forall (λ x, x.2 = Finished) batch →
    step st (EvJoined key batch.*1)
      (mkState (inner st) (to_spawn st) (<[i := (key, AtLock)]> (drains st)) (gates st))
| step_close st c :
    step st (EvClose c)
      (mkState (inner st) (to_spawn st) (drains st) (<[c := gate_close (gate_of st c)]> (gates st)))
| step_shutdown st c :
    accepting (gate_of st c) = false → wait_over (tasks_ (gate_of st c)) = true →
    step st (EvShutdown c) st.

(** A run, with its events in order. *)
Inductive run : State → list Event → State → Prop :=
| run_nil st : run st [] st
| run_snoc st evs st' e st'' : run st evs st' → step st' e st'' → run st (evs ++ [e]) st''.
End queues.
Arguments State : clear implicits.
Arguments State _ {_ _} _.
Arguments Event : clear implicits.
