(* ===== verification/RequestQueuesLive.v ===== *)
(** * The request queues run dry

    Without new requests, every step of the tasks lowers a measure of the work left,
    and a state in which no task can step has run every request, or skipped it because the
    gate of its connection was closed.  So every scheduler that lets tasks step when they can
    deals with every request. *)

From Stdlib Require Import String ZArith Lia.
From stdpp Require Import base option list numbers countable gmap.
From S2P Require Import Prelude RequestQueues RequestQueuesFacts.

(** A step of the tasks, not a call from outside. *)
Definition internal {PathBuf} (e : Event PathBuf) : bool :=
  match e with
  | EvEnqueue _ _ _ | EvClose _ | EvShutdown _ => false
  | _ => true
  end.

Section live.
Context {PathBuf : Type} `{Countable PathBuf} {T : Type} `{TaskTrackerLaws T}.

Abbreviation Key := (RequestSerializationQueueKey PathBuf) (only parsing).
Abbreviation state := (State PathBuf T) (only parsing).
Abbreviation event := (Event PathBuf) (only parsing).

(** The requests that wait, in all the queues. *)
Definition waiting_total (m : gmap Key (list QueuedSerializedRequest)) : nat :=
  map_fold (λ _ q n, length q + n) 0 m.

Definition run_work (s : RunState) : nat :=
  match s with NotStarted => 3 | Started => 2 | Finished => 1 end.

Definition drain_work (kd : Key * DrainState) : nat :=
  1 + sum_list_with (λ x, run_work x.2) (batch_of kd.2).

Definition work (st : state) : nat :=
  4 * waiting_total (inner st) + 2 * length (to_spawn st) + sum_list_with drain_work (drains st).

Lemma waiting_total_delete m k q :
  m !! k = Some q → waiting_total m = length q + waiting_total (delete k m).
Proof. intros Hk. unfold waiting_total. rewrite (map_fold_delete_L _ _ k q m); [done|lia|done]. Qed.

Lemma waiting_total_insert m k q q' :
  m !! k = Some q → length q + waiting_total (<[k := q']> m) = length q' + waiting_total m.
Proof.
  intros Hk. rewrite (waiting_total_delete m k q Hk).
  rewrite (waiting_total_delete (<[k := q']> m) k q') by apply lookup_insert_eq.
  rewrite delete_insert_eq. lia.
Qed.

Lemma drains_work_middle ds1 (kd : Key * DrainState) ds2 :
  sum_list_with drain_work (ds1 ++ kd :: ds2)
  = sum_list_with drain_work ds1 + drain_work kd + sum_list_with drain_work ds2.
Proof. rewrite sum_list_with_app. cbn [sum_list_with]. lia. Qed.

(** A request of a batch moves on. *)
Lemma set_run_work (st : state) i j key batch q s s' gs :
  drains st !! i = Some (key, Joining batch) → batch !! j = Some (q, s) → run_work s' < run_work s →
  work (set_run st i j key batch q s' gs) < work st.
Proof.
  intros (ds1 & ds2 & Hd & ->)%list_elem_of_split_length (b1 & b2 & -> & ->)%list_elem_of_split_length Hs.
  unfold work, set_run. cbn [inner to_spawn drains]. rewrite Hd, !insert_middle, !drains_work_middle.
  unfold drain_work. cbn [snd batch_of]. rewrite !sum_list_with_app. cbn [sum_list_with snd]. lia.
Qed.

Lemma drain_work_step evs (st : state) i key :
  queues_inv evs st → drains st !! i = Some (key, AtLock) → work (drain_step st i key) < work st.
Proof.
  intros Hinv (ds1 & ds2 & Hd & ->)%list_elem_of_split_length.
  assert (Hsome : is_Some (inner st !! key)).
  { apply (qi_keys _ _ Hinv). unfold owners. rewrite Hd, fmap_app, !elem_of_app. right. right. by left. }
  destruct Hsome as [queue Hq]. unfold drain_step, drain_section. rewrite Hq.
  pose proof (pop_batch_spec queue) as Hpop. destruct (pop_batch queue) as [[batch rest]|].
  - destruct Hpop as [-> Hok]. unfold work. cbn [inner to_spawn drains].
    rewrite Hd, insert_middle, !drains_work_middle. unfold drain_work. cbn [snd batch_of sum_list_with].
    assert (Hw : sum_list_with (λ x, run_work x.2) ((λ q, (q, NotStarted)) <$> batch) = 3 * length batch).
    { clear. induction batch as [|q batch IH]; [done|]. cbn [fmap list_fmap sum_list_with snd length].
      cbn in IH |- *. lia. }
    rewrite Hw. pose proof (waiting_total_insert _ _ _ rest Hq) as Hi. rewrite length_app in Hi.
    assert (0 < length batch) by (destruct Hok as [[q ->]|[Hne _]]; [cbn; lia|destruct batch; [done|cbn; lia]]).
    lia.
  - subst queue. unfold work. cbn [inner to_spawn drains]. rewrite Hd, delete_middle, drains_work_middle.
    rewrite (waiting_total_delete _ _ _ Hq), sum_list_with_app. unfold drain_work. cbn. lia.
Qed.

Lemma internal_step_work evs (st st' : state) e :
  queues_inv evs st → step st e st' → internal e = true → work st' < work st.
Proof.
  intros Hinv Hs He. destruct Hs as [st key a r|st key before after Hs|st i key Hi
    |st i key batch j q gs Hi Hj Hr|st i key batch j q gs Hi Hj Hr|st i key batch j q Hi Hj
    |st i key batch Hi Hf|st c|st c _ _]; try done.
  - unfold work. cbn [inner to_spawn drains]. rewrite Hs, drains_work_middle, !length_app. cbn. lia.
  - by eapply drain_work_step.
  - eapply set_run_work; [done|done|cbn; lia].
  - eapply set_run_work; [done|done|cbn; lia].
  - eapply set_run_work; [done|done|cbn; lia].
  - pose proof (qi_batches _ _ Hinv key batch (list_elem_of_lookup_2 _ _ _ Hi)) as Hok.
    apply list_elem_of_split_length in Hi as (ds1 & ds2 & Hd & ->).
    unfold work. cbn [inner to_spawn drains]. rewrite Hd, insert_middle, !drains_work_middle.
    unfold drain_work. cbn [snd batch_of sum_list_with].
    destruct batch as [|[q s] batch]; [by destruct Hok as [[? [=]]|[? _]]|].
    apply list.Forall_cons in Hf as [Hs _]. cbn in Hs. subst s. cbn. lia.
Qed.

(** A request that is not finished can start, be skipped, or finish. *)
Lemma batch_progress (st : state) i key batch :
  drains st !! i = Some (key, Joining batch) → ∃ e st', step st e st' ∧ internal e = true.
Proof.
  intros Hi. destruct (decide (Forall (λ x, x.2 = Finished) batch)) as [Hf|Hn].
  { eexists _, _. by split; [eapply step_joined|]. }
  apply not_Forall_Exists in Hn; [|apply _].
  apply list.Exists_exists in Hn as ([q s] & (j & Hj)%list_elem_of_lookup_1 & Hs). cbn in Hs.
  destruct s; [| |done].
  - destruct (run_start st (request q)) as [gs []] eqn:Hr; eexists _, _.
    + by split; [eapply step_start|].
    + by split; [eapply step_skip|].
  - eexists _, _. by split; [eapply step_finish|].
Qed.

Lemma progress (st : state) :
  owners st ≠ [] → ∃ e st', step st e st' ∧ internal e = true.
Proof.
  intros Ho. unfold owners in Ho. destruct (to_spawn st) as [|k ks] eqn:Es.
  - destruct (drains st) as [|[k d] ds] eqn:Ed; [done|].
    assert (Hd : drains st !! 0 = Some (k, d)) by by rewrite Ed.
    destruct d as [|batch]; [|by eapply batch_progress].
    eexists _, _. by split; [eapply step_drain|].
  - exists (EvSpawn k). eexists. split; [|done]. by apply (step_spawn st k [] ks).
Qed.

Lemma run_trans (st st' st'' : state) evs evs' :
  run st evs st' → run st' evs' st'' → run st (evs ++ evs') st''.
Proof.
  intros Hr. induction 1; [by rewrite app_nil_r|]. rewrite assoc by apply _. econstructor; eauto.
Qed.

Lemma internal_run_work evs (st st' : state) evs' :
  run initial evs st → run st evs' st' → Forall (λ e, internal e = true) evs' →
  length evs' + work st' ≤ work st.
Proof.
  intros Hr Hr'. induction Hr' as [|st evs' st1 e st2 Hr1 IH Hs]; [done|].
  intros [Hf He]%Forall_app. apply list.Forall_cons in He as [He _].
  assert (Hlt : work st2 < work st1).
  { exact (internal_step_work _ _ _ _ (run_inv _ _ (run_trans _ _ _ _ _ Hr Hr1)) Hs He). }
  rewrite length_app. cbn [length]. specialize (IH Hr Hf). lia.
Qed.

(** C28: once no more requests come in, and as long as the requests that are run return, the
    tasks make at most [work] steps, whatever their order, and when none of them can step
    every queue is removed, the batches of each key were made of its requests in the order of
    their arrival, and every request was run to its end or skipped, the latter only if the
    gate of its connection is closed. *)
Theorem queues_run_dry evs (st : state) evs' (st' : state) :
  run initial evs st → run st evs' st' → Forall (λ e, internal e = true) evs' →
  length evs' ≤ work st
  ∧ ((∀ e st'', step st' e st'' → internal e = false) →
     inner st' = ∅
     ∧ ∀ key, completed key (evs ++ evs') = enqueued key (evs ++ evs')
         ∧ finished key (evs ++ evs') ++ skipped key (evs ++ evs')
           ≡ₚ (request <$> enqueued key (evs ++ evs'))
         ∧ ∀ r, r ∈ skipped key (evs ++ evs') →
             ∃ c, gate r = Some c ∧ accepting (gate_of st' c) = false).
Proof.
  intros Hr Hr' Hf. split; [pose proof (internal_run_work _ _ _ _ Hr Hr' Hf); lia|].
  intros Hstuck. pose proof (run_trans _ _ _ _ _ Hr Hr') as Hrun. pose proof (run_inv _ _ Hrun) as Hinv.
  assert (Ho : owners st' = []).
  { destruct (decide (owners st' = [])) as [|Hne]; [done|].
    destruct (progress st' Hne) as (e & st'' & Hs & He). rewrite (Hstuck e st'' Hs) in He. done. }
  assert (Hin : inner st' = ∅).
  { apply map_eq. intros k. rewrite lookup_empty. apply eq_None_not_Some.
    rewrite <- (qi_keys _ _ Hinv), Ho. apply not_elem_of_nil. }
  split; [done|]. intros key. unfold owners in Ho. apply app_eq_nil in Ho as [_ Hd%fmap_nil_inv].
  assert (Hce : completed key (evs ++ evs') = enqueued key (evs ++ evs')).
  { rewrite (qi_order _ _ Hinv key). unfold waiting, running. rewrite Hin, lookup_empty, Hd. cbn.
    by rewrite !app_nil_r. }
  split_and!; [done| |intros r; by apply skipped_closed].
  rewrite (run_outcomes _ _ Hrun key), Hce. unfold running. rewrite Hd. cbn. by rewrite app_nil_r.
Qed.
End live.

Lemma idle_stuck {PathBuf} `{Countable PathBuf} {T} `{TaskTracker T} (st : State PathBuf T) :
  to_spawn st = [] → drains st = [] → ∀ e st'', step st e st'' → internal e = false.
Proof.
  intros Hs Hd e st''. destruct 1 as [|st key before after E|st i key E|st i key batch j q gs E
    |st i key batch j q gs E|st i key batch j q E|st i key batch E| |]; try done.
  - rewrite Hs in E. by apply app_cons_not_nil in E.
  - by rewrite Hd, lookup_nil in E.
  - by rewrite Hd, lookup_nil in E.
  - by rewrite Hd, lookup_nil in E.
  - by rewrite Hd, lookup_nil in E.
  - by rewrite Hd, lookup_nil in E.
Qed.

(** One request, from its arrival to the end of its task. *)
Definition one_request : QueuedInitializedRequest := mkRequest None 1%N.
Definition one_batch (s : RunState) : list (QueuedSerializedRequest * RunState) :=
  [(mkQueued Exclusive one_request, s)].

Definition one_enqueued : State N (bool * nat) :=
  enqueue sample_initial sample_key Exclusive one_request.
Definition one_at (inner : gmap _ _) (drains : list _) : State N (bool * nat) :=
  mkState inner [] drains (gates one_enqueued).

Definition one_events : list (Event N) :=
  [EvSpawn sample_key; EvDrain sample_key; EvStart sample_key one_request;
   EvFinish sample_key one_request; EvJoined sample_key [mkQueued Exclusive one_request];
   EvDrain sample_key].

Lemma one_run : run one_enqueued one_events (one_at ∅ []).
Proof.
  set (m := inner one_enqueued). set (m' := <[sample_key := []]> m).
  apply (run_snoc _ [_; _; _; _; _] (one_at m' [(sample_key, AtLock)]));
    [|by apply (step_drain (one_at m' [(sample_key, AtLock)]) 0)].
  apply (run_snoc _ [_; _; _; _] (one_at m' [(sample_key, Joining (one_batch Finished))]));
    [|by apply (step_joined (one_at m' [(sample_key, Joining (one_batch Finished))]) 0
                  sample_key (one_batch Finished)); [|repeat constructor]].
  apply (run_snoc _ [_; _; _] (one_at m' [(sample_key, Joining (one_batch Started))]));
    [|by apply (step_finish (one_at m' [(sample_key, Joining (one_batch Started))]) 0
                  sample_key (one_batch Started) 0 (mkQueued Exclusive one_request))].
  apply (run_snoc _ [_; _] (one_at m' [(sample_key, Joining (one_batch NotStarted))]));
    [|by apply (step_start (one_at m' [(sample_key, Joining (one_batch NotStarted))]) 0
                  sample_key (one_batch NotStarted) 0 (mkQueued Exclusive one_request)
                  (gates one_enqueued))].
  apply (run_snoc _ [_] (one_at m [(sample_key, AtLock)]));
    [|by apply (step_drain (one_at m [(sample_key, AtLock)]) 0)].
  apply (run_snoc _ [] one_enqueued); [constructor|]. by apply (step_spawn one_enqueued _ [] []).
Qed.

Lemma queues_run_dry_witness :
  length one_events ≤ work one_enqueued
  ∧ finished sample_key ([EvEnqueue sample_key Exclusive one_request] ++ one_events)
    ++ skipped sample_key ([EvEnqueue sample_key Exclusive one_request] ++ one_events)
    ≡ₚ (request <$> enqueued sample_key ([EvEnqueue sample_key Exclusive one_request] ++ one_events)).
Proof.
  destruct (queues_run_dry [EvEnqueue sample_key Exclusive one_request] one_enqueued one_events
    (one_at ∅ [])) as [Hl Hd].
  - apply (run_snoc _ [] sample_initial); [constructor|apply step_enqueue].
  - exact one_run.
  - by repeat constructor.
  - split; [exact Hl|]. apply Hd. by apply idle_stuck.
Defined.
