(* ===== verification/Truncate.v ===== *)
(** * Truncating text: [utils/string/src/truncate.rs] and [lib.rs]

    The middle of a long text is replaced by a marker that says how much was removed;
    the two ends are cut on character boundaries.  Byte counts are [usize] values,
    and a slice off a boundary is a panic ([None]), which the theorems exclude. *)

From Stdlib Require Import String ZArith Lia.
From stdpp Require Import base option list numbers.
From S2P Require Import Prelude StrBytes.

Local Open Scope Z_scope.

Definition APPROX_BYTES_PER_TOKEN : Z := 4.

Definition approx_token_count (text : str) : Z :=
  usat_add (slen text) (usat_sub APPROX_BYTES_PER_TOKEN 1) / APPROX_BYTES_PER_TOKEN.

Definition approx_bytes_for_tokens (tokens : Z) : Z := usat_mul tokens APPROX_BYTES_PER_TOKEN.

(** [usize] and [u64] have the same width here. *)
Definition approx_tokens_from_byte_count (bytes : Z) : Z :=
  usat_add bytes (usat_sub APPROX_BYTES_PER_TOKEN 1) / APPROX_BYTES_PER_TOKEN.

(** The loop variables of [split_string]. *)
Record SplitState : Type := mkSplit {
  prefix_end : Z;
  suffix_start : Z;
  removed_chars : Z;
  suffix_started : bool;
}.

Definition split_step (beginning_bytes tail_start_target : Z) (st : SplitState)
    (ic : Z * char) : SplitState :=
  let '(idx, ch) := ic in
  let char_end := idx + Z.of_nat (len_utf8 ch) in
  if char_end <=? beginning_bytes
  then mkSplit char_end (suffix_start st) (removed_chars st) (suffix_started st)
  else if tail_start_target <=? idx then
    if negb (suffix_started st)
    then mkSplit (prefix_end st) idx (removed_chars st) true
    else st
  else mkSplit (prefix_end st) (suffix_start st) (usat_add (removed_chars st) 1)
         (suffix_started st).

Definition split_string (s : str) (beginning_bytes end_bytes : Z) : option (Z * str * str) :=
  if bool_decide (s = []) then Some (0, [], [])
  else
    let len := slen s in
    let tail_start_target := usat_sub len end_bytes in
    let st := foldl (split_step beginning_bytes tail_start_target)
                (mkSplit 0 len 0 false) (char_indices s) in
    let suffix_start :=
      if suffix_start st <? prefix_end st then prefix_end st else suffix_start st in
    before ← slice_to s (prefix_end st);
    after ← slice_from s suffix_start;
    Some (removed_chars st, before, after).

Definition split_budget (budget : Z) : Z * Z :=
  let left_ := budget / 2 in (left_, budget - left_).

Definition ELLIPSIS : char := 8230%N.

Definition format_truncation_marker (use_tokens : bool) (removed_count : Z) : str :=
  if use_tokens
  then ELLIPSIS :: decimal (Z.to_N removed_count) ++ lit " tokens truncated" ++ [ELLIPSIS]
  else ELLIPSIS :: decimal (Z.to_N removed_count) ++ lit " chars truncated" ++ [ELLIPSIS].

Definition removed_units (use_tokens : bool) (removed_bytes removed_chars : Z) : Z :=
  if use_tokens then approx_tokens_from_byte_count removed_bytes else removed_chars.

Definition assemble_truncated_output (pre suf marker : str) : str := pre ++ marker ++ suf.

Definition truncate_with_byte_estimate (s : str) (max_bytes : Z) (use_tokens : bool) : option str :=
  if bool_decide (s = []) then Some []
  else
    let total_chars := Z.of_nat (length s) in
    if max_bytes =? 0
    then Some (format_truncation_marker use_tokens (removed_units use_tokens (slen s) total_chars))
    else if slen s <=? max_bytes then Some s
    else
      let total_bytes := slen s in
      let '(left_budget, right_budget) := split_budget max_bytes in
      '(removed_chars, left_, right_) ← split_string s left_budget right_budget;
      let marker := format_truncation_marker use_tokens
                      (removed_units use_tokens (usat_sub total_bytes max_bytes) removed_chars) in
      Some (assemble_truncated_output left_ right_ marker).

Definition truncate_middle_chars (s : str) (max_bytes : Z) : option str :=
  truncate_with_byte_estimate s max_bytes false.

Definition truncate_middle_with_token_budget (s : str) (max_tokens : Z)
    : option (str * option Z) :=
  if bool_decide (s = []) then Some ([], None)
  else if (0 <? max_tokens) && (slen s <=? approx_bytes_for_tokens max_tokens)
  then Some (s, None)
  else
    truncated ← truncate_with_byte_estimate s (approx_bytes_for_tokens max_tokens) true;
    let total_tokens := approx_token_count s in
    if bool_decide (truncated = s) then Some (truncated, None)
    else Some (truncated, Some total_tokens).

(** [take_bytes_at_char_boundary]: the loop with its [break]. *)
Fixpoint last_ok_loop (maxb : Z) (last_ok : Z) (ics : list (Z * char)) : Z :=
  match ics with
  | [] => last_ok
  | (i, ch) :: ics' =>
      let nb := i + Z.of_nat (len_utf8 ch) in
      if maxb <? nb then last_ok else last_ok_loop maxb nb ics'
  end.

Definition take_bytes_at_char_boundary (s : str) (maxb : Z) : option str :=
  if slen s <=? maxb then Some s else slice_to s (last_ok_loop maxb 0 (char_indices s)).

(** ** Metric tags *)

Definition is_ascii_alphanumeric (c : char) : bool :=
  is_ascii_digit c || ((65 <=? c) && (c <=? 90))%N || ((97 <=? c) && (c <=? 122))%N.

Definition TAG_MAX_LEN : Z := 256.
Definition UNDERSCORE : char := 95%N.

(** The characters a tag keeps: alphanumeric, [.], [_], [-] and [/]. *)
Definition tag_char (ch : char) : bool :=
  is_ascii_alphanumeric ch || ((ch =? 46) || (ch =? 95) || (ch =? 45) || (ch =? 47))%N.

Definition sanitize_metric_tag_value (value : str) : option str :=
  let sanitized := map (λ ch, if tag_char ch then ch else UNDERSCORE) value in
  let trimmed := trim_end_matches (N.eqb UNDERSCORE) (drop_while (N.eqb UNDERSCORE) sanitized) in
  if bool_decide (trimmed = []) || forallb (λ ch, negb (is_ascii_alphanumeric ch)) trimmed
  then Some (lit "unspecified")
  else if slen trimmed <=? TAG_MAX_LEN then Some trimmed
  else slice_to trimmed TAG_MAX_LEN.

(** ** Markdown locations *)

Definition parse_markdown_hash_location_point (point : str) : option (str * option str) :=
  point ← strip_prefix (lit "L") point;
  match split_once 67%N point with
  | Some (line, column) => Some (line, Some column)
  | None => Some (point, None)
  end.

Definition push_point (line : str) (column : option str) : str :=
  line ++ match column with Some c => lit ":" ++ c | None => [] end.

Definition normalize_markdown_hash_location_suffix (suffix : str) : option str :=
  fragment ← strip_prefix (lit "#") suffix;
  let '(start, end_) :=
    match split_once MINUS fragment with
    | Some (start, end_) => (start, Some end_)
    | None => (fragment, None)
    end in
  '(start_line, start_column) ← parse_markdown_hash_location_point start;
  let normalized := lit ":" ++ push_point start_line start_column in
  match end_ with
  | Some end_ =>
      '(end_line, end_column) ← parse_markdown_hash_location_point end_;
      Some (normalized ++ lit "-" ++ push_point end_line end_column)
  | None => Some normalized
  end.

(** ** The split *)

Section split.
Context (b t : Z).

(** While characters end within the budget, only the end of the prefix moves. *)
Lemma split_prefix s i ss r st :
  i + slen s ≤ b →
  foldl (split_step b t) (mkSplit i ss r st) (char_indices_from i s)
  = mkSplit (i + slen s) ss r st.
Proof.
  revert i. induction s as [|c s IH]; intros i Hb; cbn [char_indices_from foldl split_step].
  - by rewrite slen_nil, Z.add_0_r.
  - rewrite slen_cons in *. destruct (Z.leb_spec (i + Z.of_nat (len_utf8 c)) b) as [Hc|Hc].
    + cbn [suffix_start removed_chars suffix_started]. rewrite IH by lia. f_equal. lia.
    + slen_lia.
Qed.

(** Past the prefix and before the target of the tail, characters are counted. *)
Lemma split_removed s i p ss r :
  0 ≤ r ≤ USIZE_MAX →
  (∀ c q, s = c :: q → b < i + Z.of_nat (len_utf8 c)) →
  (∀ c q, s = q ++ [c] → i + slen q < t) →
  foldl (split_step b t) (mkSplit p ss r false) (char_indices_from i s)
  = mkSplit p ss (Z.min (r + Z.of_nat (length s)) USIZE_MAX) false.
Proof.
  revert i r. induction s as [|c s IH]; intros i r Hr Hb Ht; cbn [char_indices_from foldl].
  - cbn [length]. f_equal. lia.
  - specialize (Hb c s eq_refl) as Hc.
    assert (Hi : i < t).
    { destruct (exists_last (l := c :: s)) as (q & d & Hq); [done|].
      specialize (Ht d q Hq). slen_lia. }
    cbn [split_step prefix_end suffix_start removed_chars suffix_started].
    rewrite (proj2 (Z.leb_gt _ _)), (proj2 (Z.leb_gt _ _)) by lia.
    rewrite IH.
    + cbn [length]. unfold usat_add. f_equal. lia.
    + unfold usat_add. lia.
    + intros d q ->. slen_lia.
    + intros d q ->. specialize (Ht d (c :: q) eq_refl). slen_lia.
Qed.

(** From the first character at or past the target, the suffix is kept. *)
Lemma split_suffix_started s i p ss r :
  (∀ c q, s = c :: q → b < i + Z.of_nat (len_utf8 c)) → t ≤ i →
  foldl (split_step b t) (mkSplit p ss r true) (char_indices_from i s) = mkSplit p ss r true.
Proof.
  revert i. induction s as [|c s IH]; intros i Hb Ht; cbn [char_indices_from foldl]; [done|].
  specialize (Hb c s eq_refl).
  cbn [split_step prefix_end suffix_start removed_chars suffix_started].
  rewrite (proj2 (Z.leb_gt _ _)), (proj2 (Z.leb_le _ _)) by lia. cbn [negb].
  apply IH; [intros d q ->|]; slen_lia.
Qed.

Lemma split_suffix s i p ss r :
  (∀ c q, s = c :: q → b < i + Z.of_nat (len_utf8 c)) → (s ≠ [] → t ≤ i) →
  ss = i + slen s →
  ∃ b', foldl (split_step b t) (mkSplit p ss r false) (char_indices_from i s) = mkSplit p i r b'.
Proof.
  intros Hb Ht ->. destruct s as [|c s]; cbn [char_indices_from foldl].
  - exists false. by rewrite slen_nil, Z.add_0_r.
  - specialize (Ht ltac:(done)). specialize (Hb c s eq_refl).
    cbn [split_step prefix_end suffix_start removed_chars suffix_started].
    rewrite (proj2 (Z.leb_gt _ _)), (proj2 (Z.leb_le _ _)) by lia. cbn [negb].
    exists true. apply split_suffix_started; [intros d q ->|]; slen_lia.
Qed.
End split.

(** [split_string] keeps the longest prefix within its budget and, of the rest, the
    longest suffix within its own; it counts the characters in between and never
    slices off a boundary. *)
Lemma split_string_correct s b e :
  0 ≤ b → 0 ≤ e →
  ∃ before mid after,
    split_string s b e = Some (Z.min (Z.of_nat (length mid)) USIZE_MAX, before, after)
    ∧ s = before ++ mid ++ after
    ∧ longest_prefix b before (mid ++ after)
    ∧ longest_suffix e mid after.
Proof.
  intros Hb He. unfold split_string. case_bool_decide as Hs.
  { subst. exists [], [], []. repeat split; try done. intros c r H. by destruct r. }
  destruct (longest_prefix_exists b s Hb) as (before & rest & -> & Hp).
  destruct (longest_suffix_exists e rest He) as (mid & after & -> & Hq).
  exists before, mid, after. destruct Hp as [Hple Hpmax], Hq as [Hqle Hqmax].
  set (t := usat_sub (slen (before ++ mid ++ after)) e).
  assert (Ht : t = Z.max (slen before + slen mid + slen after - e) 0).
  { unfold t, usat_sub. autorewrite with slen. lia. }
  unfold char_indices. rewrite char_indices_from_app, foldl_app, split_prefix by (simpl; lia).
  rewrite char_indices_from_app, foldl_app, split_removed; cycle 1.
  { done. }
  { intros c q ->. specialize (Hpmax c (q ++ after) eq_refl). lia. }
  { intros c q ->. specialize (Hqmax c q eq_refl). slen_lia. }
  edestruct (split_suffix b t after (0 + slen before + slen mid)) as [b' ->].
  { intros c q ->. destruct mid as [|d mid]; [specialize (Hpmax c q eq_refl)|
      specialize (Hpmax d (mid ++ c :: q) eq_refl)]; slen_lia. }
  { slen_lia. }
  { autorewrite with slen. lia. }
  cbn [prefix_end suffix_start removed_chars]. rewrite (proj2 (Z.ltb_ge _ _)) by slen_lia.
  rewrite !Z.add_0_l, slice_to_app. cbn [mbind option_bind].
  rewrite app_assoc, <- slen_app, slice_from_app. by rewrite <- app_assoc.
Qed.

(** A marker takes at most 43 bytes. *)
Definition MARKER_MAX : Z := 43.

Lemma slen_marker use_tokens n :
  0 ≤ n ≤ USIZE_MAX → slen (format_truncation_marker use_tokens n) ≤ MARKER_MAX.
Proof.
  intros Hn. pose proof (slen_decimal_u64 (Z.to_N n) ltac:(unfold USIZE_MAX in Hn; lia)) as Hd.
  unfold format_truncation_marker, MARKER_MAX.
  assert (He : slen [ELLIPSIS] = 3) by done.
  assert (Ht : slen (lit " tokens truncated") = 17) by done.
  assert (Hc : slen (lit " chars truncated") = 16) by done.
  destruct use_tokens; rewrite slen_cons, !slen_app; change (len_utf8 ELLIPSIS) with 3%nat; lia.
Qed.

Lemma approx_tokens_bounds n :
  0 ≤ n ≤ USIZE_MAX → 0 ≤ approx_tokens_from_byte_count n ≤ USIZE_MAX.
Proof.
  intros Hn. unfold approx_tokens_from_byte_count, usat_add, usat_sub, APPROX_BYTES_PER_TOKEN.
  unfold USIZE_MAX in *. split; [apply Z.div_pos; lia|]. apply Z.div_le_upper_bound; lia.
Qed.

Lemma approx_tokens_ceil n :
  0 ≤ n ≤ ISIZE_MAX → approx_tokens_from_byte_count n = (n + 3) / 4.
Proof.
  intros Hn. unfold approx_tokens_from_byte_count, usat_add, usat_sub, APPROX_BYTES_PER_TOKEN.
  unfold USIZE_MAX, ISIZE_MAX in *. f_equal. lia.
Qed.

(** The cut itself: the two ends are kept within the two halves of the budget, at most
    six bytes of it are lost to character boundaries, and the marker counts what is
    removed. *)
Lemma truncate_cut (s : str) (max : Z) (use_tokens : bool) :
  0 < max → max < slen s → slen s ≤ ISIZE_MAX →
  ∃ before mid after,
    let units := if use_tokens then (slen s - max + 3) / 4 else Z.of_nat (length mid) in
    truncate_with_byte_estimate s max use_tokens
      = Some (before ++ format_truncation_marker use_tokens units ++ after)
    ∧ s = before ++ mid ++ after ∧ mid ≠ []
    ∧ slen before ≤ max / 2 ∧ slen after ≤ max - max / 2
    ∧ max - 6 ≤ slen before + slen after
    ∧ slen (before ++ format_truncation_marker use_tokens units ++ after) ≤ max + MARKER_MAX.
Proof.
  intros Hmax Hs Hlen.
  assert (Hh : 0 ≤ max / 2) by (apply Z.div_pos; lia).
  assert (Hh' : max / 2 ≤ max) by (apply Z.div_le_upper_bound; lia).
  destruct (split_string_correct s (max / 2) (max - max / 2)) as
    (before & mid & after & Hsp & Heq & [Hp Hpm] & [Hq Hqm]); [lia..|].
  exists before, mid, after.
  assert (Hmid : mid ≠ []) by (intros ->; subst s; slen_lia).
  pose proof (length_le_slen mid) as Hlm.
  assert (Hm : slen mid ≤ slen s) by (subst s; slen_lia).
  assert (Hu : USIZE_MAX = 2 ^ 64 - 1) by done. unfold ISIZE_MAX in *.
  rewrite Z.min_l in Hsp by lia.
  set (units := if use_tokens then _ else _). cbn zeta.
  assert (Hunits : removed_units use_tokens (usat_sub (slen s) max) (Z.of_nat (length mid)) = units
                   ∧ 0 ≤ units ≤ USIZE_MAX).
  { unfold removed_units, units, usat_sub. destruct use_tokens; [|lia].
    rewrite Z.max_l, approx_tokens_ceil by (unfold ISIZE_MAX; lia). split; [done|].
    split; [apply Z.div_pos; lia|apply Z.div_le_upper_bound; lia]. }
  destruct Hunits as [Hunits Hub]. pose proof (slen_marker use_tokens units Hub).
  split_and!; try done; try slen_lia.
  - unfold truncate_with_byte_estimate. rewrite bool_decide_false by (intros ->; slen_lia).
    rewrite (proj2 (Z.eqb_neq _ _)), (proj2 (Z.leb_gt _ _)) by lia. cbn [split_budget].
    unfold split_budget. rewrite Hsp. cbn [mbind option_bind]. by rewrite Hunits.
  - destruct (exists_last Hmid) as (q & d & ->). destruct q as [|c q].
    + specialize (Hpm d after eq_refl). specialize (Hqm d [] eq_refl). slen_lia.
    + specialize (Hpm c (q ++ [d] ++ after)). rewrite <- app_assoc in Hpm. specialize (Hpm eq_refl).
      specialize (Hqm d (c :: q) eq_refl). slen_lia.
Qed.

Lemma truncate_short s max use_tokens :
  slen s ≤ max → truncate_with_byte_estimate s max use_tokens = Some s.
Proof.
  intros H. unfold truncate_with_byte_estimate. case_bool_decide as Hs; [by subst|].
  rewrite <- slen_zero in Hs. pose proof (slen_nonneg s).
  by rewrite (proj2 (Z.eqb_neq _ _)), (proj2 (Z.leb_le _ _)) by lia.
Qed.

Lemma truncate_nothing s use_tokens :
  s ≠ [] → truncate_with_byte_estimate s 0 use_tokens
  = Some (format_truncation_marker use_tokens
            (removed_units use_tokens (slen s) (Z.of_nat (length s)))).
Proof. intros Hs. unfold truncate_with_byte_estimate. by rewrite bool_decide_false. Qed.

(** No branch panics, and no result is more than a marker longer than the budget. *)
Lemma truncate_total s max use_tokens :
  0 ≤ max → slen s ≤ ISIZE_MAX →
  ∃ r, truncate_with_byte_estimate s max use_tokens = Some r
       ∧ slen r ≤ max + MARKER_MAX ∧ (s ≠ [] → r ≠ []).
Proof.
  intros Hmax Hlen.
  destruct (decide (slen s ≤ max)) as [Hs|Hs].
  { exists s. rewrite truncate_short by done. unfold MARKER_MAX. split_and!; [done|lia|done]. }
  destruct (decide (max = 0)) as [->|Hne].
  - assert (Hs' : s ≠ []) by (intros ->; slen_lia).
    eexists. rewrite truncate_nothing by done. split; [done|]. split.
    + apply slen_marker. pose proof (length_le_slen s). pose proof (slen_nonneg s).
      assert (slen s ≤ USIZE_MAX) by (unfold ISIZE_MAX, USIZE_MAX in *; lia).
      destruct use_tokens; cbn [removed_units]; [apply approx_tokens_bounds|]; lia.
    + by destruct use_tokens.
  - destruct (truncate_cut s max use_tokens) as (before & mid & after & H & _ & _ & _ & _ & _ & Hb);
      [lia..|]. eexists. split; [exact H|]. split; [exact Hb|].
    intros _ [_ [Hm _]%app_nil]%app_nil. by destruct use_tokens.
Qed.

(** Truncating the middle of a text never panics.  A text within the budget is
    returned unchanged; with no budget only the marker is left; otherwise the result
    is a beginning and an end of the text, each within its half of the budget and on
    character boundaries, around a marker that states how many characters, or
    approximate tokens, were removed.  At most six bytes of the budget are lost to
    boundaries, and the result exceeds the budget by at most one marker. *)
Theorem truncate_middle_bounds (s : str) (max : Z) (use_tokens : bool) :
  0 ≤ max → slen s ≤ ISIZE_MAX →
  (slen s ≤ max → truncate_with_byte_estimate s max use_tokens = Some s)
  ∧ (max = 0 → s ≠ [] → truncate_with_byte_estimate s max use_tokens
       = Some (format_truncation_marker use_tokens
                 (if use_tokens then (slen s + 3) / 4 else Z.of_nat (length s))))
  ∧ (0 < max < slen s → ∃ before mid after,
       let units := if use_tokens then (slen s - max + 3) / 4 else Z.of_nat (length mid) in
       let r := before ++ format_truncation_marker use_tokens units ++ after in
       truncate_with_byte_estimate s max use_tokens = Some r
       ∧ s = before ++ mid ++ after ∧ mid ≠ []
       ∧ slen before ≤ max / 2 ∧ slen after ≤ max - max / 2
       ∧ max - 6 ≤ slen before + slen after ∧ slen r ≤ max + MARKER_MAX).
Proof.
  intros Hmax Hlen. split_and!.
  - apply truncate_short.
  - intros -> Hs. rewrite truncate_nothing by done. pose proof (slen_nonneg s).
    unfold removed_units. destruct use_tokens; [|done]. by rewrite approx_tokens_ceil by lia.
  - intros [? ?]. by apply truncate_cut.
Qed.

Lemma truncate_middle_bounds_witness :
  truncate_with_byte_estimate (lit "hello world, hello world") 8 false
  = Some (lit "hell" ++ [ELLIPSIS] ++ lit "16 chars truncated" ++ [ELLIPSIS] ++ lit "orld")
  ∧ truncate_with_byte_estimate (lit "hello") 5 true = Some (lit "hello").
Proof.
  split; [vm_compute; reflexivity|].
  destruct (truncate_middle_bounds (lit "hello") 5 true) as [H _]; [done..|]. by apply H.
Defined.

(** The marker comes on top of the budget. *)
Lemma truncate_exceeds_budget :
  ∃ r, truncate_middle_chars (lit "0123456789") 4 = Some r ∧ 4 < slen r.
Proof. eexists. split; vm_compute; reflexivity. Qed.

(** [truncate_middle_with_token_budget] reports the approximate token count of the
    original exactly when the text changed. *)
Lemma token_budget_total s max_tokens :
  0 ≤ max_tokens → slen s ≤ ISIZE_MAX →
  ∃ r n, truncate_middle_with_token_budget s max_tokens = Some (r, n)
         ∧ slen r ≤ approx_bytes_for_tokens max_tokens + MARKER_MAX
         ∧ (s ≠ [] → r ≠ [])
         ∧ n = (if bool_decide (r = s) then None else Some ((slen s + 3) / 4)).
Proof.
  intros Hmax Hlen. pose proof (slen_nonneg s). unfold truncate_middle_with_token_budget.
  assert (Hb : 0 ≤ approx_bytes_for_tokens max_tokens).
  { unfold approx_bytes_for_tokens, usat_mul, APPROX_BYTES_PER_TOKEN, USIZE_MAX. lia. }
  assert (Ht : approx_token_count s = (slen s + 3) / 4).
  { apply (approx_tokens_ceil (slen s)). lia. }
  case_bool_decide as Hs.
  { subst. exists [], None. rewrite slen_nil, bool_decide_true by done. unfold MARKER_MAX.
    split_and!; [done|lia|done|done]. }
  destruct ((0 <? max_tokens) && (slen s <=? approx_bytes_for_tokens max_tokens)) eqn:E.
  { apply andb_true_iff in E as [_ E%Z.leb_le]. exists s, None.
    rewrite bool_decide_true by done. unfold MARKER_MAX. split_and!; [done|lia|done|done]. }
  destruct (truncate_total s (approx_bytes_for_tokens max_tokens) true) as (r & -> & Hr & Hne);
    [done..|]. cbn [mbind option_bind]. rewrite Ht.
  exists r. case_bool_decide; eexists; split_and!; eauto.
Qed.

(** [take_bytes_at_char_boundary] is the longest prefix within the budget. *)
Lemma last_ok_loop_correct maxb p q i :
  i + slen p ≤ maxb → (∀ c r, q = c :: r → maxb < i + slen p + Z.of_nat (len_utf8 c)) →
  last_ok_loop maxb i (char_indices_from i (p ++ q)) = i + slen p.
Proof.
  revert i. induction p as [|c p IH]; intros i Hle Hmax; cbn [app char_indices_from last_ok_loop].
  - rewrite slen_nil, Z.add_0_r in *. destruct q as [|c q]; [done|].
    cbn [char_indices_from last_ok_loop]. specialize (Hmax c q eq_refl).
    by rewrite (proj2 (Z.ltb_lt _ _)) by lia.
  - rewrite (proj2 (Z.ltb_ge _ _)) by slen_lia. rewrite IH.
    + rewrite slen_cons. lia.
    + slen_lia.
    + intros d r Hq. specialize (Hmax d r Hq). slen_lia.
Qed.

Lemma take_bytes_correct s maxb :
  0 ≤ maxb → ∃ p q, take_bytes_at_char_boundary s maxb = Some p ∧ s = p ++ q
                     ∧ longest_prefix maxb p q.
Proof.
  intros Hm. unfold take_bytes_at_char_boundary. destruct (Z.leb_spec (slen s) maxb) as [Hs|Hs].
  { exists s, []. rewrite app_nil_r. split_and!; [done..|]. by intros. }
  destruct (longest_prefix_exists maxb s Hm) as (p & q & -> & Hp & Hq).
  exists p, q. split_and!; [|done..]. unfold char_indices.
  rewrite last_ok_loop_correct; [apply slice_to_app|lia|].
  intros c r E. specialize (Hq c r E). lia.
Qed.

(** ** Metric tags and locations *)

Lemma tag_char_ascii c : tag_char c = true → (c < 128)%N.
Proof.
  unfold tag_char, is_ascii_alphanumeric, is_ascii_digit. intros H.
  repeat (apply orb_true_iff in H as [H|H]); try apply andb_true_iff in H as [_ H];
    try apply N.leb_le in H; try apply N.eqb_eq in H; lia.
Qed.

(** The value of a metric tag is never empty, has only the characters that tags
    allow and at most 256 of them; the slice that enforces the length cannot panic
    because what is left is ASCII. *)
Lemma sanitize_metric_tag_value_valid value :
  ∃ r, sanitize_metric_tag_value value = Some r
       ∧ r ≠ [] ∧ Forall (λ c, tag_char c = true) r ∧ slen r ≤ TAG_MAX_LEN.
Proof.
  unfold sanitize_metric_tag_value.
  set (trimmed := trim_end_matches _ _).
  assert (Htag : Forall (λ c, tag_char c = true) trimmed).
  { apply Forall_trim_end_matches, drop_while_Forall, Forall_map, Forall_true.
    intros c. cbn. by destruct (tag_char c) eqn:E. }
  destruct (bool_decide (trimmed = []) || _) eqn:E.
  { eexists. split; [done|]. split; [done|]. split; [|done].
    repeat constructor. }
  apply orb_false_iff in E as [Hne%bool_decide_eq_false _].
  destruct (Z.leb_spec (slen trimmed) TAG_MAX_LEN) as [Hl|Hl]; [by exists trimmed|].
  assert (Hascii : Forall (λ c, (c < 128)%N) trimmed)
    by (eapply Forall_weaken; [exact Htag|apply tag_char_ascii]).
  rewrite slen_ascii in Hl by done. exists (take 256 trimmed).
  assert (Hlen : slen (take 256 trimmed) = TAG_MAX_LEN).
  { rewrite slen_ascii by by apply Forall_take. rewrite length_take.
    unfold TAG_MAX_LEN in *. lia. }
  split_and!; [|by destruct trimmed|by apply Forall_take|lia].
  apply slice_to_Some. exists (drop 256 trimmed). by rewrite take_drop.
Qed.

Lemma split_once_app sep s t :
  Forall (λ c, c ≠ sep) s → split_once sep (s ++ sep :: t) = Some (s, t).
Proof.
  induction 1 as [|c s Hc Hs IH]; cbn [app split_once]; [by rewrite N.eqb_refl|].
  by rewrite (proj2 (N.eqb_neq _ _) Hc), IH.
Qed.

Lemma split_once_none sep s : Forall (λ c, c ≠ sep) s → split_once sep s = None.
Proof.
  induction 1 as [|c s Hc Hs IH]; cbn [split_once]; [done|].
  by rewrite (proj2 (N.eqb_neq _ _) Hc), IH.
Qed.

(** A point of a location: a line without [C] and an optional column. *)
Definition render_point (line : str) (column : option str) : str :=
  lit "L" ++ line ++ match column with Some c => lit "C" ++ c | None => [] end.

Lemma parse_render_point line column :
  Forall (λ c, c ≠ 67%N) line →
  parse_markdown_hash_location_point (render_point line column) = Some (line, column).
Proof.
  intros Hl. unfold parse_markdown_hash_location_point, render_point.
  rewrite strip_prefix_app. cbn [mbind option_bind].
  destruct column as [c|]; [|by rewrite app_nil_r, split_once_none].
  change (lit "C" ++ c) with (67%N :: c). by rewrite split_once_app.
Qed.

(** A markdown location of a range becomes the location the terminal shows. *)
Lemma normalize_markdown_range l1 c1 l2 c2 :
  Forall (λ c, c ≠ 67%N) l1 → Forall (λ c, c ≠ 67%N) l2 →
  Forall (λ c, c ≠ MINUS) (render_point l1 c1) →
  normalize_markdown_hash_location_suffix
    (lit "#" ++ render_point l1 c1 ++ lit "-" ++ render_point l2 c2)
  = Some (lit ":" ++ push_point l1 c1 ++ lit "-" ++ push_point l2 c2).
Proof.
  intros H1 H2 Hm. unfold normalize_markdown_hash_location_suffix.
  rewrite strip_prefix_app. cbn [mbind option_bind].
  change (lit "-" ++ render_point l2 c2) with (MINUS :: render_point l2 c2).
  rewrite split_once_app, !parse_render_point by done. cbn [mbind option_bind].
  by rewrite <- !app_assoc.
Qed.
