(* ===== verification/Models.v ===== *)
(** * The items of a conversation: [protocol/src/models.rs] and [protocol.rs]

    The response items that make up the history of a thread, the payloads of tool
    outputs, and token accounting.  JSON values and recorded tool calls are carried
    and never inspected here; their types are the parameters [WireTypes]. *)

From Stdlib Require Import String ZArith Lia.
From stdpp Require Import base option list numbers.
From S2P Require Import Prelude StrBytes Truncate.

(** [serde_json::Value] and the recorded calls of [models/executed_tool_calls.rs]. *)
Class WireTypes := {
  Value : Type;
  ExecutedToolCall : Type;
}.

Inductive ImageDetail : Type := Auto | Low | High | Original.

Inductive InputModality : Type := MText | MImage | MAudio.

#[global] Instance InputModality_eq_dec : EqDecision InputModality.
Proof. solve_decision. Defined.

Inductive MessagePhase : Type := Commentary | FinalAnswer.

Module ContentItem.
Inductive t : Type :=
| InputText (text : str)
| InputImage (image_url : str) (detail : option ImageDetail)
| InputAudio (audio_url : str)
| OutputText (text : str).
End ContentItem.

Module AgentMessageInputContent.
Inductive t : Type :=
| InputText (text : str)
| EncryptedContent (encrypted_content : str).
End AgentMessageInputContent.

(** [FunctionCallOutputContentItem]. *)
Module OutputItem.
Inductive t : Type :=
| InputText (text : str)
| InputImage (image_url : str) (detail : option ImageDetail)
| InputAudio (audio_url : str)
| EncryptedContent (encrypted_content : str).
End OutputItem.

Inductive FunctionCallOutputBody : Type :=
| BodyText (content : str)
| ContentItems (items : list OutputItem.t).

Record FunctionCallOutputPayload : Type := mkPayload {
  body : FunctionCallOutputBody;
  success : option bool;
}.

Definition from_text (content : str) : FunctionCallOutputPayload :=
  mkPayload (BodyText content) None.

(** [content_items_mut] followed by an update of every item in place. *)
Definition map_content_items (f : OutputItem.t → OutputItem.t) (p : FunctionCallOutputPayload)
    : FunctionCallOutputPayload :=
  match body p with
  | BodyText _ => p
  | ContentItems items => mkPayload (ContentItems (map f items)) (success p)
  end.

Inductive LocalShellStatus : Type := Completed | InProgress | Incomplete.

Record LocalShellExecAction : Type := {
  command : list str;
  timeout_ms : option Z;
  working_directory : option str;
  env : option (list (str * str));
  user : option str;
}.

Inductive LocalShellAction : Type := Exec (action : LocalShellExecAction).

Inductive WebSearchAction : Type :=
| Search (query : option str) (queries : option (list str))
| OpenPage (url : option str)
| FindInPage (url : option str) (pattern : option str)
| OtherAction.

Inductive ReasoningItemReasoningSummary : Type := SummaryText (text : str).

Inductive ReasoningItemContent : Type :=
| ReasoningText (text : str)
| Text (text : str).

Record Metadata `{WireTypes} : Type := {
  turn_id : option str;
  executed_tool_calls : option (list ExecutedToolCall);
}.

(** [ResponseItemId] is a string; [with_suffix] joins its two parts. *)
Abbreviation ResponseItemId := (list N) (only parsing).

Definition with_suffix (pre suffix : str) : ResponseItemId := pre ++ lit "_" ++ suffix.

Inductive ResponseItem `{WireTypes} : Type :=
| AdditionalTools (id : option ResponseItemId) (role : str) (tools : list Value)
| Message (id : option ResponseItemId) (role : str) (content : list ContentItem.t)
    (phase : option MessagePhase) (metadata : option Metadata)
| AgentMessage (id : option ResponseItemId) (author recipient : str)
    (content : list AgentMessageInputContent.t) (metadata : option Metadata)
| Reasoning (id : option ResponseItemId) (summary : list ReasoningItemReasoningSummary)
    (content : option (list ReasoningItemContent)) (encrypted_content : option str)
    (metadata : option Metadata)
| LocalShellCall (id : option ResponseItemId) (call_id : option str) (status : LocalShellStatus)
    (action : LocalShellAction) (metadata : option Metadata)
| FunctionCall (id : option ResponseItemId) (name : str) (namespace : option str)
    (arguments : str) (encrypted_function_args : option (list str)) (call_id : str)
    (metadata : option Metadata)
| ToolSearchCall (id : option ResponseItemId) (call_id status : option str) (execution : str)
    (arguments : Value) (metadata : option Metadata)
| FunctionCallOutput (id : option ResponseItemId) (call_id : str)
    (output : FunctionCallOutputPayload) (metadata : option Metadata)
| CustomToolCall (id : option ResponseItemId) (status : option str) (call_id name : str)
    (namespace : option str) (input : str) (metadata : option Metadata)
| CustomToolCallOutput (id : option ResponseItemId) (call_id : str) (name : option str)
    (output : FunctionCallOutputPayload) (metadata : option Metadata)
| ToolSearchOutput (id : option ResponseItemId) (call_id : option str) (status execution : str)
    (tools : list Value) (metadata : option Metadata)
| WebSearchCall (id : option ResponseItemId) (status : option str)
    (action : option WebSearchAction) (metadata : option Metadata)
| ImageGenerationCall (id : option ResponseItemId) (status : str) (revised_prompt : option str)
    (result : str) (metadata : option Metadata)
| Compaction (id : option ResponseItemId) (encrypted_content : str) (metadata : option Metadata)
| CompactionTrigger
| ContextCompaction (id : option ResponseItemId) (encrypted_content : option str)
    (metadata : option Metadata)
| Other.

(** ** Token accounting

    Counts are [i64]; [+] and [-] on them panic (or wrap) outside the range, which is
    [None] here. *)
Local Open Scope Z_scope.

Definition i64_checked (z : Z) : option Z :=
  if (I64_MIN <=? z) && (z <=? I64_MAX) then Some z else None.

Record TokenUsage : Type := mkUsage {
  input_tokens : Z;
  cached_input_tokens : Z;
  cache_write_input_tokens : Z;
  output_tokens : Z;
  reasoning_output_tokens : Z;
  total_tokens : Z;
  codex_rollout_budget_units : option str;
}.

Definition default_usage : TokenUsage := mkUsage 0 0 0 0 0 0 None.

Definition add_assign (u o : TokenUsage) : option TokenUsage :=
  i ← i64_checked (input_tokens u + input_tokens o);
  c ← i64_checked (cached_input_tokens u + cached_input_tokens o);
  w ← i64_checked (cache_write_input_tokens u + cache_write_input_tokens o);
  o' ← i64_checked (output_tokens u + output_tokens o);
  r ← i64_checked (reasoning_output_tokens u + reasoning_output_tokens o);
  t ← i64_checked (total_tokens u + total_tokens o);
  Some (mkUsage i c w o' r t (codex_rollout_budget_units u)).

Record TokenUsageInfo : Type := mkUsageInfo {
  total_token_usage : TokenUsage;
  last_token_usage : TokenUsage;
  model_context_window : option Z;
}.

Definition append_last_usage (info : TokenUsageInfo) (last : TokenUsage) : option TokenUsageInfo :=
  total ← add_assign (total_token_usage info) last;
  Some (mkUsageInfo total last (model_context_window info)).

(** [TokenUsageInfo::new_or_append]; the outer [None] is the overflow. *)
Definition new_or_append (info : option TokenUsageInfo) (last : option TokenUsage)
    (window : option Z) : option (option TokenUsageInfo) :=
  match info, last with
  | None, None => Some None
  | _, _ =>
      let info := match info with
                  | Some info => info
                  | None => mkUsageInfo default_usage default_usage window
                  end in
      info ← match last with Some last => append_last_usage info last | None => Some info end;
      Some (Some (match window with
                  | Some w => mkUsageInfo (total_token_usage info) (last_token_usage info) (Some w)
                  | None => info
                  end))
  end.

Definition fill_to_context_window (info : TokenUsageInfo) (context_window : Z)
    : option TokenUsageInfo :=
  let previous_total := total_tokens (total_token_usage info) in
  d ← i64_checked (context_window - previous_total);
  let delta := Z.max d 0 in
  Some (mkUsageInfo (mkUsage 0 0 0 0 0 context_window None) (mkUsage 0 0 0 0 0 delta None)
          (Some context_window)).

Definition full_context_window (context_window : Z) : option TokenUsageInfo :=
  fill_to_context_window (mkUsageInfo default_usage default_usage (Some context_window))
    context_window.

Lemma i64_checked_Some z r : i64_checked z = Some r ↔ r = z ∧ I64_MIN ≤ z ≤ I64_MAX.
Proof.
  unfold i64_checked. destruct ((I64_MIN <=? z) && (z <=? I64_MAX)) eqn:E.
  - apply andb_true_iff in E as [?%Z.leb_le ?%Z.leb_le]. naive_solver.
  - apply andb_false_iff in E as [?%Z.leb_gt|?%Z.leb_gt]; split; try done; lia.
Qed.
