(* ===== verification/OutputTruncation.v ===== *)
(** * Truncating tool output: [utils/output-truncation/src/lib.rs] and the policy of
    [protocol/src/protocol.rs]

    A policy is a budget in bytes or in approximate tokens.  The items of a tool
    output share one budget: text is kept, cut or omitted, audio is kept or omitted,
    images and encrypted content always pass.  A panic is [None]. *)

From Stdlib Require Import String ZArith Lia Floats.SpecFloat.
From stdpp Require Import base option list numbers.
From S2P Require Import Prelude StrBytes Truncate Models.

Local Open Scope Z_scope.

Inductive TruncationPolicy : Type :=
| Bytes (limit : Z)
| Tokens (limit : Z).

Definition token_budget (p : TruncationPolicy) : Z :=
  match p with Bytes bytes => approx_tokens_from_byte_count bytes | Tokens tokens => tokens end.

Definition byte_budget (p : TruncationPolicy) : Z :=
  match p with Bytes bytes => bytes | Tokens tokens => approx_bytes_for_tokens tokens end.

(** ** [policy * multiplier]

    [f64] is the binary64 format of the standard library's executable floats. *)
Definition f64_of_usize (n : Z) : spec_float := binary_normalize 53 1024 n 0 false.
Definition f64_mul (a b : spec_float) : spec_float := SFmul 53 1024 a b.

(** The literal [1.2]. *)
Definition F64_1_2 : spec_float := S754_finite false 5404319552844595 (-52).

(** [x.ceil() as usize]: the cast saturates, and maps [NaN] to zero. *)
Definition ceil_as_usize (x : spec_float) : Z :=
  match x with
  | S754_zero _ | S754_nan => 0
  | S754_infinity s => if s then 0 else USIZE_MAX
  | S754_finite s m e =>
      if s then 0
      else Z.min (if 0 <=? e then Zpos m * 2 ^ e else (Zpos m + 2 ^ (- e) - 1) / 2 ^ (- e)) USIZE_MAX
  end.

Definition policy_mul (p : TruncationPolicy) (multiplier : spec_float) : TruncationPolicy :=
  match p with
  | Bytes bytes => Bytes (ceil_as_usize (f64_mul (f64_of_usize bytes) multiplier))
  | Tokens tokens => Tokens (ceil_as_usize (f64_mul (f64_of_usize tokens) multiplier))
  end.

(** ** Text *)

Definition truncate_text (content : str) (policy : TruncationPolicy) : option str :=
  match policy with
  | Bytes bytes => truncate_middle_chars content bytes
  | Tokens tokens => fst <$> truncate_middle_with_token_budget content tokens
  end.

Definition formatted_truncate_text (content : str) (policy : TruncationPolicy) : option str :=
  if slen content <=? byte_budget policy then Some content
  else
    let original_token_count := approx_token_count content in
    let total_lines := length (lines content) in
    result ← truncate_text content policy;
    Some (lit "Warning: truncated output (original token count: "
          ++ decimal (Z.to_N original_token_count) ++ lit ")" ++ [LF]
          ++ lit "Total output lines: " ++ decimal (N.of_nat total_lines) ++ [LF; LF] ++ result).

(** ** Items *)

Definition text_segment (item : OutputItem.t) : option str :=
  match item with OutputItem.InputText text => Some text | _ => None end.

Definition non_text (item : OutputItem.t) : option OutputItem.t :=
  match item with OutputItem.InputText _ => None | _ => Some item end.

Definition push_segment (combined text : str) : str :=
  (if bool_decide (combined = []) then combined else combined ++ [LF]) ++ text.

Definition formatted_truncate_text_content_items_with_policy (items : list OutputItem.t)
    (policy : TruncationPolicy) : option (list OutputItem.t * option Z) :=
  let text_segments := omap text_segment items in
  if bool_decide (text_segments = []) then Some (items, None)
  else
    let combined := foldl push_segment [] text_segments in
    if slen combined <=? byte_budget policy then Some (items, None)
    else
      let original_token_count := approx_token_count combined in
      text ← formatted_truncate_text combined policy;
      Some (OutputItem.InputText text :: omap non_text items, Some original_token_count).

(** The loop variables of [truncate_function_output_items_with_policy]. *)
Record ItemsState : Type := mkItems {
  out : list OutputItem.t;
  remaining_budget : Z;
  omitted_text_items : nat;
  omitted_audio_items : nat;
}.

Definition with_limit (p : TruncationPolicy) (n : Z) : TruncationPolicy :=
  match p with Bytes _ => Bytes n | Tokens _ => Tokens n end.

Definition text_cost (p : TruncationPolicy) (text : str) : Z :=
  match p with Bytes _ => slen text | Tokens _ => approx_token_count text end.

Definition token_cost (p : TruncationPolicy) (tokens : Z) : Z :=
  match p with Bytes _ => approx_bytes_for_tokens tokens | Tokens _ => tokens end.

Definition push_out (st : ItemsState) (item : OutputItem.t) (budget : Z) : ItemsState :=
  mkItems (out st ++ [item]) budget (omitted_text_items st) (omitted_audio_items st).

Definition omit_text (st : ItemsState) (budget : Z) : ItemsState :=
  mkItems (out st) budget (S (omitted_text_items st)) (omitted_audio_items st).

Definition items_step (policy : TruncationPolicy) (estimate_audio_token_count : str → Z)
    (st : ItemsState) (item : OutputItem.t) : option ItemsState :=
  let rem := remaining_budget st in
  match item with
  | OutputItem.InputText text =>
      if rem =? 0 then Some (omit_text st rem)
      else
        let cost := text_cost policy text in
        if cost <=? rem then Some (push_out st item (usat_sub rem cost))
        else
          snippet ← truncate_text text (with_limit policy rem);
          if bool_decide (snippet = []) then Some (omit_text st 0)
          else Some (push_out st (OutputItem.InputText snippet) 0)
  | OutputItem.InputImage _ _ => Some (push_out st item rem)
  | OutputItem.InputAudio audio_url =>
      let cost := token_cost policy (estimate_audio_token_count audio_url) in
      if cost <=? rem then Some (push_out st item (usat_sub rem cost))
      else Some (mkItems (out st) rem (omitted_text_items st) (S (omitted_audio_items st)))
  | OutputItem.EncryptedContent _ => Some (push_out st item rem)
  end.

Fixpoint items_loop (policy : TruncationPolicy) (est : str → Z) (st : ItemsState)
    (items : list OutputItem.t) : option ItemsState :=
  match items with
  | [] => Some st
  | item :: items' => st' ← items_step policy est st item; items_loop policy est st' items'
  end.

Definition initial_budget (policy : TruncationPolicy) : Z :=
  match policy with Bytes _ => byte_budget policy | Tokens _ => token_budget policy end.

Definition omitted_notice (n : nat) (what : string) : list OutputItem.t :=
  if (0 <? n)%nat
  then [OutputItem.InputText (lit "[omitted " ++ decimal (N.of_nat n) ++ lit what)]
  else [].

Definition truncate_function_output_items_with_policy (items : list OutputItem.t)
    (policy : TruncationPolicy) (est : str → Z) : option (list OutputItem.t) :=
  st ← items_loop policy est (mkItems [] (initial_budget policy) 0 0) items;
  Some (out st ++ omitted_notice (omitted_text_items st) " text items ...]"
               ++ omitted_notice (omitted_audio_items st) " audio items ...]").

Definition approx_tokens_from_byte_count_i64 (bytes : Z) : Z :=
  if bytes <=? 0 then 0 else Z.min (approx_tokens_from_byte_count bytes) I64_MAX.

(** ** What the items cost

    The cost of an item against a policy: its text, or the estimate of its audio. *)
Section cost.
Context (policy : TruncationPolicy) (est : str → Z).

(** What the budget pays for in bytes: text by its length, audio by its estimate. *)
Definition item_bytes (item : OutputItem.t) : Z :=
  match item with
  | OutputItem.InputText text => slen text
  | OutputItem.InputAudio url => APPROX_BYTES_PER_TOKEN * est url
  | _ => 0
  end.

Fixpoint total_item_bytes (l : list OutputItem.t) : Z :=
  match l with [] => 0 | item :: l' => item_bytes item + total_item_bytes l' end.

(** The bytes a remaining budget stands for. *)
Definition budget_bytes (n : Z) : Z :=
  match policy with Bytes _ => n | Tokens _ => APPROX_BYTES_PER_TOKEN * n end.

Definition is_media (item : OutputItem.t) : bool :=
  match item with OutputItem.InputImage _ _ | OutputItem.EncryptedContent _ => true | _ => false end.

Definition is_text (item : OutputItem.t) : bool :=
  match item with OutputItem.InputText _ => true | _ => false end.

Definition is_audio (item : OutputItem.t) : bool :=
  match item with OutputItem.InputAudio _ => true | _ => false end.

Lemma total_item_bytes_app l1 l2 :
  total_item_bytes (l1 ++ l2) = total_item_bytes l1 + total_item_bytes l2.
Proof. induction l1 as [|x l1 IH]; cbn [app total_item_bytes]; lia. Qed.

Definition limit (p : TruncationPolicy) : Z := match p with Bytes n | Tokens n => n end.
End cost.


(** No string of Rust is longer than [isize::MAX] bytes. *)
Definition item_len_ok (item : OutputItem.t) : Prop :=
  match item with OutputItem.InputText text => slen text ≤ ISIZE_MAX | _ => True end.

Section items.
Context (policy : TruncationPolicy) (est : str → Z).
Hypothesis limit_bounds : 0 ≤ limit policy < USIZE_MAX.
Hypothesis est_nonneg : ∀ url, 0 ≤ est url.

(** A text that fits the remaining budget uses at least its length of it. *)
Lemma text_cost_bytes text : slen text ≤ ISIZE_MAX → slen text ≤ budget_bytes policy (text_cost policy text).
Proof.
  intros Hl. pose proof (slen_nonneg text). unfold budget_bytes, text_cost. destruct policy; [lia|].
  change (approx_token_count text) with (approx_tokens_from_byte_count (slen text)).
  rewrite approx_tokens_ceil by lia. unfold APPROX_BYTES_PER_TOKEN.
  pose proof (Z.div_mod (slen text + 3) 4). pose proof (Z.mod_pos_bound (slen text + 3) 4). lia.
Qed.

Lemma text_cost_nonneg text : 0 ≤ text_cost policy text.
Proof.
  pose proof (slen_nonneg text). unfold text_cost. destruct policy; [lia|].
  unfold approx_token_count, usat_add, usat_sub, APPROX_BYTES_PER_TOKEN, USIZE_MAX.
  apply Z.div_pos; lia.
Qed.

Lemma token_cost_bytes n rem :
  0 ≤ n → rem ≤ limit policy → token_cost policy n ≤ rem →
  0 ≤ token_cost policy n ∧ budget_bytes policy (token_cost policy n) = APPROX_BYTES_PER_TOKEN * n.
Proof.
  intros Hn Hrem Hc. unfold token_cost, budget_bytes in *. destruct policy; cbn [limit] in *.
  - unfold approx_bytes_for_tokens, usat_mul, APPROX_BYTES_PER_TOKEN in *. lia.
  - lia.
Qed.

Lemma budget_bytes_mono a b : a ≤ b → budget_bytes policy a ≤ budget_bytes policy b.
Proof. unfold budget_bytes, APPROX_BYTES_PER_TOKEN. destruct policy; lia. Qed.

Lemma budget_bytes_sub a b :
  budget_bytes policy (a - b) = budget_bytes policy a - budget_bytes policy b.
Proof. unfold budget_bytes, APPROX_BYTES_PER_TOKEN. destruct policy; lia. Qed.

(** The snippet of a text is nonempty and within the budget and one marker. *)
Lemma snippet_bounds text rem :
  0 ≤ rem → slen text ≤ ISIZE_MAX → text ≠ [] →
  ∃ r, truncate_text text (with_limit policy rem) = Some r
       ∧ r ≠ [] ∧ slen r ≤ budget_bytes policy rem + MARKER_MAX.
Proof.
  intros Hrem Hl Hne. unfold truncate_text, with_limit, budget_bytes. destruct policy.
  - destruct (truncate_total text rem false) as (r & Hr & Hb & Hn); [done..|]. eauto.
  - destruct (token_budget_total text rem) as (r & n & -> & Hb & Hn & _); [done..|].
    exists r. split; [done|]. split; [auto|].
    unfold approx_bytes_for_tokens, usat_mul, APPROX_BYTES_PER_TOKEN in *. lia.
Qed.

(** The invariant of the loop after the items [done]. *)
Record items_inv (done_ : list OutputItem.t) (st : ItemsState) : Prop := {
  inv_budget : 0 ≤ remaining_budget st ≤ limit policy;
  inv_bytes : total_item_bytes est (out st) + budget_bytes policy (remaining_budget st)
              ≤ budget_bytes policy (limit policy)
                + (if remaining_budget st =? 0 then MARKER_MAX else 0);
  inv_media : filter is_media (out st) = filter is_media done_;
  inv_audio : filter is_audio (out st) `sublist_of` filter is_audio done_
              ∧ (length (filter is_audio (out st)) + omitted_audio_items st
                 = length (filter is_audio done_))%nat;
  inv_texts : ∃ pre cut rest,
    omap text_segment done_ = pre ++ rest ∧ omap text_segment (out st) = pre ++ cut
    ∧ length rest = (length cut + omitted_text_items st)%nat ∧ (length cut ≤ 1)%nat
    ∧ (remaining_budget st ≠ 0 → cut = [] ∧ rest = []);
}.

Lemma items_inv_init : items_inv [] (mkItems [] (limit policy) 0 0).
Proof.
  constructor; cbn [out remaining_budget omitted_text_items omitted_audio_items].
  - lia.
  - cbn [total_item_bytes]. case_match; unfold MARKER_MAX; lia.
  - done.
  - done.
  - exists [], [], []. repeat split; cbn; auto.
Qed.

Lemma omap_snoc {A B} (f : A → option B) l x :
  omap f (l ++ [x]) = omap f l ++ match f x with Some y => [y] | None => [] end.
Proof. rewrite omap_app. cbn. by destruct (f x). Qed.

(** Keeping an item that the budget pays for. *)
Lemma items_inv_push done_ st item rem' :
  items_inv done_ st → 0 ≤ rem' ≤ remaining_budget st →
  item_bytes est item + budget_bytes policy rem' ≤ budget_bytes policy (remaining_budget st) →
  (is_text item = true → remaining_budget st ≠ 0) →
  items_inv (done_ ++ [item]) (push_out st item rem').
Proof.
  intros [Hb Hy Hm [Ha Hac] (pre & cut & rest & Hd & Ho & Hl & H1 & H0)] Hr Hc Ht.
  constructor; cbn [push_out out remaining_budget omitted_text_items omitted_audio_items].
  - lia.
  - rewrite total_item_bytes_app. cbn [total_item_bytes].
    destruct (Z.eqb_spec (remaining_budget st) 0), (Z.eqb_spec rem' 0); unfold MARKER_MAX in *; lia.
  - by rewrite !list.filter_app, Hm.
  - rewrite !list.filter_app, !length_app. split; [by apply sublist_app|lia].
  - rewrite !omap_snoc, Hd, Ho. destruct (text_segment item) as [text|] eqn:E.
    + assert (is_text item = true) as Hi by (destruct item; done).
      destruct (H0 (Ht Hi)) as [-> ->]. exists (pre ++ [text]), [], [].
      rewrite !app_nil_r. repeat split; auto.
    + exists pre, cut, rest. rewrite !app_nil_r. repeat split; auto.
      * apply H0. lia.
      * apply H0. lia.
Qed.

(** Cutting the first text that does not fit; the budget is then used up. *)
Lemma items_inv_cut done_ st text snippet :
  items_inv done_ st → remaining_budget st ≠ 0 →
  slen snippet ≤ budget_bytes policy (remaining_budget st) + MARKER_MAX →
  items_inv (done_ ++ [OutputItem.InputText text]) (push_out st (OutputItem.InputText snippet) 0).
Proof.
  intros [Hb Hy Hm [Ha Hac] (pre & cut & rest & Hd & Ho & Hl & H1 & H0)] Hr Hs.
  destruct (H0 Hr) as [-> ->].
  constructor; cbn [push_out out remaining_budget omitted_text_items omitted_audio_items].
  - lia.
  - rewrite total_item_bytes_app. cbn [total_item_bytes item_bytes].
    rewrite (proj2 (Z.eqb_neq _ _) Hr) in Hy. change (0 =? 0) with true. cbn iota.
    assert (budget_bytes policy 0 = 0) by (unfold budget_bytes; destruct policy; lia). lia.
  - by rewrite !list.filter_app, Hm.
  - rewrite !list.filter_app. cbn. by rewrite !app_nil_r.
  - rewrite !omap_snoc, Hd, Ho. cbn [text_segment]. rewrite !app_nil_r.
    exists pre, [snippet], [text]. cbn [length] in *. repeat split; lia.
Qed.

(** Omitting a text once the budget is used up. *)
Lemma items_inv_omit_text done_ st text :
  items_inv done_ st → remaining_budget st = 0 →
  items_inv (done_ ++ [OutputItem.InputText text]) (omit_text st 0).
Proof.
  intros [Hb Hy Hm [Ha Hac] (pre & cut & rest & Hd & Ho & Hl & H1 & H0)] Hr.
  rewrite Hr in *. constructor; cbn [omit_text out remaining_budget omitted_text_items omitted_audio_items].
  - lia.
  - done.
  - by rewrite list.filter_app, app_nil_r.
  - rewrite list.filter_app. cbn. by rewrite app_nil_r.
  - rewrite omap_snoc, Hd. cbn [text_segment]. exists pre, cut, (rest ++ [text]).
    rewrite app_assoc, length_app. cbn [length]. repeat split; [done|lia|done|lia|lia].
Qed.

(** Omitting an audio item that does not fit. *)
Lemma items_inv_omit_audio done_ st url :
  items_inv done_ st →
  items_inv (done_ ++ [OutputItem.InputAudio url])
    (mkItems (out st) (remaining_budget st) (omitted_text_items st) (S (omitted_audio_items st))).
Proof.
  intros [Hb Hy Hm [Ha Hac] Ht].
  constructor; cbn [out remaining_budget omitted_text_items omitted_audio_items].
  - done.
  - done.
  - by rewrite list.filter_app, app_nil_r.
  - rewrite list.filter_app, length_app. split; [by apply sublist_inserts_r|].
    change (filter is_audio [OutputItem.InputAudio url]) with [OutputItem.InputAudio url].
    cbn [length]. lia.
  - rewrite omap_snoc. cbn [text_segment]. by rewrite app_nil_r.
Qed.

(** Every step succeeds and keeps the invariant. *)
Lemma items_step_inv done_ st item :
  items_inv done_ st → item_len_ok item →
  ∃ st', items_step policy est st item = Some st' ∧ items_inv (done_ ++ [item]) st'.
Proof.
  intros Hinv Hok. pose proof (inv_budget _ _ Hinv) as Hb.
  assert (Hkeep : is_text item = false → item_bytes est item = 0 →
    items_inv (done_ ++ [item]) (push_out st item (remaining_budget st))).
  { intros Ht Hz. apply items_inv_push; [done|lia|lia|congruence]. }
  destruct item as [text|url detail|url|enc]; cbn [items_step]; [|by eauto| |by eauto].
  - destruct (Z.eqb_spec (remaining_budget st) 0) as [Hz|Hz].
    { rewrite Hz. eauto using items_inv_omit_text. }
    destruct (Z.leb_spec (text_cost policy text) (remaining_budget st)) as [Hc|Hc].
    + eexists. split; [done|]. pose proof (text_cost_nonneg text). unfold usat_sub.
      rewrite Z.max_l by lia. apply items_inv_push; [done|lia| |done].
      rewrite budget_bytes_sub. pose proof (text_cost_bytes text Hok). cbn [item_bytes]. lia.
    + assert (Hne : text ≠ []).
      { intros ->. destruct policy; cbn in Hc; [change (slen []) with 0 in Hc; lia|].
        change (approx_token_count []) with 0 in Hc. lia. }
      destruct (snippet_bounds text (remaining_budget st)) as (r & -> & Hr & Hl); [lia|done|done|].
      cbn [mbind option_bind]. rewrite bool_decide_false by done.
      eauto using items_inv_cut.
  - destruct (Z.leb_spec (token_cost policy (est url)) (remaining_budget st)) as [Hc|Hc];
      [|eauto using items_inv_omit_audio].
    destruct (token_cost_bytes (est url) (remaining_budget st)) as [Hn Hby]; [auto|lia|done|].
    eexists. split; [done|]. unfold usat_sub. rewrite Z.max_l by lia.
    apply items_inv_push; [done|lia| |done]. rewrite budget_bytes_sub. cbn [item_bytes]. lia.
Qed.

Lemma items_loop_inv items done_ st :
  items_inv done_ st → Forall item_len_ok items →
  ∃ st', items_loop policy est st items = Some st' ∧ items_inv (done_ ++ items) st'.
Proof.
  intros Hinv Hok. revert done_ st Hinv. induction Hok as [|item items Hi Hok IH]; intros done_ st Hinv.
  - exists st. by rewrite app_nil_r.
  - destruct (items_step_inv done_ st item) as (st' & Hs & Hinv'); [done..|].
    destruct (IH _ _ Hinv') as (st'' & Hl & Hinv''). exists st''. cbn [items_loop]. rewrite Hs.
    cbn [mbind option_bind]. split; [done|]. by rewrite <- app_assoc in Hinv''.
Qed.
End items.

(** The call succeeds in a state that satisfies the invariant, and what is kept costs
    at most the budget and one marker. *)
Lemma output_items_final items policy est :
  0 ≤ limit policy < USIZE_MAX → (∀ url, 0 ≤ est url) → Forall item_len_ok items →
  ∃ st, truncate_function_output_items_with_policy items policy est
          = Some (out st ++ omitted_notice (omitted_text_items st) " text items ...]"
                         ++ omitted_notice (omitted_audio_items st) " audio items ...]")
        ∧ items_inv policy est items st
        ∧ total_item_bytes est (out st) ≤ budget_bytes policy (limit policy) + MARKER_MAX.
Proof.
  intros Hl He Hok. unfold truncate_function_output_items_with_policy.
  replace (initial_budget policy) with (limit policy) by by destruct policy.
  destruct (items_loop_inv policy est Hl He items [] _ (items_inv_init policy est Hl) Hok)
    as (st & -> & Hinv). exists st. split; [done|]. split; [done|].
  destruct Hinv as [Hb Hy _ _ _].
  assert (0 ≤ budget_bytes policy (remaining_budget st)).
  { unfold budget_bytes, APPROX_BYTES_PER_TOKEN. destruct policy; lia. }
  destruct (_ =? _); unfold MARKER_MAX in *; lia.
Qed.

(** C38: the items of a tool output are truncated to their shared budget.  The call
    never panics.  What is kept costs at most the budget of the policy and one marker;
    images and encrypted content pass unchanged and in order; the texts are kept from
    the first on, verbatim except that the last kept one may be cut; kept audio items
    are original ones in order; and the notices count exactly the omitted items. *)
Theorem output_items_bounded (items : list OutputItem.t) (policy : TruncationPolicy) (est : str → Z) :
  0 ≤ limit policy < USIZE_MAX → (∀ url, 0 ≤ est url) → Forall item_len_ok items →
  ∃ kept omitted_texts omitted_audio,
    truncate_function_output_items_with_policy items policy est
      = Some (kept ++ omitted_notice omitted_texts " text items ...]"
                   ++ omitted_notice omitted_audio " audio items ...]")
    ∧ total_item_bytes est kept ≤ budget_bytes policy (limit policy) + MARKER_MAX
    ∧ filter is_media kept = filter is_media items
    ∧ filter is_audio kept `sublist_of` filter is_audio items
    ∧ (length (filter is_audio kept) + omitted_audio = length (filter is_audio items))%nat
    ∧ ∃ pre cut rest,
        omap text_segment items = pre ++ rest ∧ omap text_segment kept = pre ++ cut
        ∧ length rest = (length cut + omitted_texts)%nat ∧ (length cut ≤ 1)%nat.
Proof.
  intros Hl He Hok. destruct (output_items_final items policy est Hl He Hok) as (st & -> & Hinv & Hy).
  destruct Hinv as [_ _ Hm [Ha Hac] (pre & cut & rest & Hd & Ho & Hlen & H1 & _)].
  exists (out st), (omitted_text_items st), (omitted_audio_items st).
  split_and!; try done. by exists pre, cut, rest.
Qed.

Lemma output_items_bounded_witness :
  truncate_function_output_items_with_policy
    [OutputItem.InputText (lit "0123456789"); OutputItem.InputImage (lit "u") None;
     OutputItem.InputText (lit "gone"); OutputItem.InputAudio (lit "a")] (Bytes 6) (λ _, 5)
  = Some [OutputItem.InputText (lit "012" ++ [ELLIPSIS] ++ lit "4 chars truncated" ++ [ELLIPSIS] ++ lit "789");
          OutputItem.InputImage (lit "u") None;
          OutputItem.InputText (lit "[omitted 1 text items ...]");
          OutputItem.InputText (lit "[omitted 1 audio items ...]")]
  ∧ ∃ kept n m, truncate_function_output_items_with_policy
      [OutputItem.InputText (lit "abc")] (Tokens 1) (λ _, 0)
      = Some (kept ++ omitted_notice n " text items ...]" ++ omitted_notice m " audio items ...]").
Proof.
  split; [vm_compute; reflexivity|].
  destruct (output_items_bounded [OutputItem.InputText (lit "abc")] (Tokens 1) (λ _, 0))
    as (kept & n & m & H & _); [done|done|by repeat constructor|]. eauto.
Defined.

(** [truncate_text] never panics, and stays within its budget and one marker. *)
Lemma truncate_text_total content policy :
  0 ≤ limit policy → slen content ≤ ISIZE_MAX →
  ∃ r, truncate_text content policy = Some r
       ∧ slen r ≤ budget_bytes policy (limit policy) + MARKER_MAX.
Proof.
  intros Hl Hc. unfold truncate_text, budget_bytes. destruct policy as [b|t]; cbn [limit] in *.
  - destruct (truncate_total content b false) as (r & Hr & Hb & _); [done..|]. eauto.
  - destruct (token_budget_total content t) as (r & n & -> & Hb & _); [done..|]. exists r.
    split; [done|]. unfold approx_bytes_for_tokens, usat_mul, APPROX_BYTES_PER_TOKEN in *. lia.
Qed.

(** The combined form either returns the items as they are, when their joined text
    fits, or one text in front of all the other items, with the token count of the
    joined text. *)
Lemma formatted_items_spec items policy :
  0 ≤ limit policy → slen (foldl push_segment [] (omap text_segment items)) ≤ ISIZE_MAX →
  let combined := foldl push_segment [] (omap text_segment items) in
  (slen combined ≤ byte_budget policy →
     formatted_truncate_text_content_items_with_policy items policy = Some (items, None))
  ∧ (byte_budget policy < slen combined → ∃ text,
     formatted_truncate_text_content_items_with_policy items policy
     = Some (OutputItem.InputText text :: omap non_text items, Some ((slen combined + 3) / 4))).
Proof.
  intros Hl Hc combined. unfold formatted_truncate_text_content_items_with_policy.
  fold combined in Hc |- *. split; intros Hb.
  - case_bool_decide; [done|]. by rewrite (proj2 (Z.leb_le _ _)).
  - rewrite bool_decide_false.
    2:{ intros E. unfold combined in Hb. rewrite E in Hb. cbn [foldl] in Hb.
        rewrite slen_nil in Hb. unfold byte_budget, approx_bytes_for_tokens, usat_mul in Hb.
        unfold APPROX_BYTES_PER_TOKEN, USIZE_MAX in Hb. destruct policy; cbn [limit] in *; lia. }
    rewrite (proj2 (Z.leb_gt _ _)) by done. unfold formatted_truncate_text.
    rewrite (proj2 (Z.leb_gt _ _)) by done.
    destruct (truncate_text_total combined policy) as (r & -> & _); [done..|].
    cbn [mbind option_bind]. eexists. do 3 f_equal.
    change (approx_token_count combined) with (approx_tokens_from_byte_count (slen combined)).
    apply approx_tokens_ceil. pose proof (slen_nonneg combined). lia.
Qed.
