(* ===== verification/ContextFragments.v ===== *)
(** * Context fragments: [context-fragments], [core/src/context] and [event_mapping.rs]

    The agent injects context into the conversation as messages of their own: user
    instructions, skills, aborted turns, additional context.  A fragment is rendered
    between markers, and recognized later by them, so that injected context is not
    taken for a turn of the user. *)

From Stdlib Require Import String ZArith Lia.
From stdpp Require Import base option list numbers.
From S2P Require Import Prelude StrBytes Truncate Models.

Local Open Scope Z_scope.

(** [str::eq_ignore_ascii_case]. *)
Definition eq_ignore_ascii_case (a b : str) : bool :=
  bool_decide (to_ascii_lowercase a = to_ascii_lowercase b).

(** [str::split_once(&str)]. *)
Fixpoint split_once_str (sep s : str) : option (str * str) :=
  match strip_prefix sep s with
  | Some r => Some ([], r)
  | None => match s with
            | [] => None
            | c :: s' => match split_once_str sep s' with
                         | Some (a, b) => Some (c :: a, b)
                         | None => None
                         end
            end
  end.

(** ** Fragments with markers ([fragment.rs]) *)

Definition matches_marked_text (start_marker end_marker text : str) : bool :=
  if bool_decide (start_marker = []) || bool_decide (end_marker = []) then false
  else
    let trimmed := trim_start text in
    let starts_with_marker :=
      match slice_to trimmed (slen start_marker) with
      | Some candidate => eq_ignore_ascii_case candidate start_marker
      | None => false
      end in
    let trimmed := trim_end trimmed in
    let ends_with_marker :=
      match slice_from trimmed (usat_sub (slen trimmed) (slen end_marker)) with
      | Some candidate => eq_ignore_ascii_case candidate end_marker
      | None => false
      end in
    starts_with_marker && ends_with_marker.

(** [ContextualUserFragment::render] from the markers and the body. *)
Definition render (markers : str * str) (body : str) : str :=
  if bool_decide (markers.1 = []) && bool_decide (markers.2 = []) then body
  else markers.1 ++ body ++ markers.2.

(** [ContextualUserFragment::into]. *)
Definition into_response_item `{WireTypes} (role text : str) : ResponseItem :=
  Message None role [ContentItem.InputText text] None None.

(** ** The fragments of the user role *)

Module UserInstructions.
Record t : Type := mk { directory : option str; text : str }.
Definition type_markers : str * str := (lit "# AGENTS.md instructions", lit "</INSTRUCTIONS>").
Definition body (f : t) : str :=
  match directory f with Some d => lit " for " ++ d | None => [] end
  ++ [LF; LF] ++ lit "<INSTRUCTIONS>" ++ [LF] ++ text f ++ [LF].
Definition matches_text (text : str) : bool :=
  matches_marked_text type_markers.1 type_markers.2 text.
End UserInstructions.

Module EnvironmentsState.
Definition type_markers : str * str := (lit "<environment_context>", lit "</environment_context>").
Definition matches_text (text : str) : bool :=
  matches_marked_text type_markers.1 type_markers.2 text.
End EnvironmentsState.

Module SkillInstructions.
Record t : Type := mk { name : str; path : str; contents : str }.
Definition type_markers : str * str := (lit "<skill>", lit "</skill>").
Definition body (f : t) : str :=
  [LF] ++ lit "<name>" ++ name f ++ lit "</name>" ++ [LF] ++ lit "<path>" ++ path f
  ++ lit "</path>" ++ [LF] ++ contents f ++ [LF].
Definition matches_text (text : str) : bool :=
  matches_marked_text type_markers.1 type_markers.2 text.
End SkillInstructions.

Module UserShellCommand.
Definition type_markers : str * str := (lit "<user_shell_command>", lit "</user_shell_command>").
Definition matches_text (text : str) : bool :=
  matches_marked_text type_markers.1 type_markers.2 text.
End UserShellCommand.

Module TurnAborted.
Record t : Type := mk { guidance : str }.
Definition type_markers : str * str := (lit "<turn_aborted>", lit "</turn_aborted>").
Definition body (f : t) : str := [LF] ++ guidance f ++ [LF].
Definition matches_text (text : str) : bool :=
  matches_marked_text type_markers.1 type_markers.2 text.
End TurnAborted.

Module SubagentNotification.
Definition type_markers : str * str :=
  (lit "<subagent_notification>", lit "</subagent_notification>").
Definition matches_text (text : str) : bool :=
  matches_marked_text type_markers.1 type_markers.2 text.
End SubagentNotification.

(** [additional_context.rs]: the markers carry the key. *)
Module AdditionalContext.
Definition MAX_ADDITIONAL_CONTEXT_VALUE_TOKENS : Z := 1000.
Definition START_MARKER_PREFIX : str := lit "<external_".
Definition END_MARKER_SUFFIX : str := lit ">".
Record t : Type := mk { key : str; value : str }.
Definition type_markers : str * str := (START_MARKER_PREFIX, END_MARKER_SUFFIX).

Definition body (f : t) : option str :=
  '(value, _) ← truncate_middle_with_token_budget (value f) MAX_ADDITIONAL_CONTEXT_VALUE_TOKENS;
  Some (key f ++ lit ">" ++ value ++ lit "</external_" ++ key f).

Definition developer_body (f : t) : option str :=
  '(value, _) ← truncate_middle_with_token_budget (value f) MAX_ADDITIONAL_CONTEXT_VALUE_TOKENS;
  Some (lit "<" ++ key f ++ lit ">" ++ value ++ lit "</" ++ key f ++ lit ">").

Definition matches_text (text : str) : bool :=
  match strip_prefix START_MARKER_PREFIX (trim text) with
  | None => false
  | Some rest =>
      match split_once_str END_MARKER_SUFFIX rest with
      | None => false
      | Some (key, value_and_close) => ends_with (lit "</external_" ++ key ++ lit ">") value_and_close
      end
  end.
End AdditionalContext.

(** [internal_model_context.rs]: the source is an attribute of the opening tag. *)
Module InternalModelContext.
Definition CONTEXT_START_MARKER : str := lit "<codex_internal_context".
Definition CONTEXT_END_MARKER : str := lit "</codex_internal_context>".
Definition SOURCE_ATTR_START : str := lit " source=" ++ [34%N].
Definition SOURCE_ATTR_END : str := [34%N] ++ lit ">".

Definition is_ascii_lowercase (c : char) : bool := ((97 <=? c) && (c <=? 122))%N.

Definition is_valid_source (source : str) : bool :=
  match source with
  | [] => false
  | first :: chars =>
      is_ascii_lowercase first
      && forallb (λ ch, is_ascii_lowercase ch || is_ascii_digit ch || (ch =? 95)%N) chars
  end.

(** [InternalContextSource::new]; the error carries the rejected source. *)
Definition new_source (source : str) : result str str :=
  if is_valid_source source then Ok source else Err source.

Record t : Type := mk { source : str; content : str }.
Definition type_markers : str * str := (CONTEXT_START_MARKER, CONTEXT_END_MARKER).

Definition body (f : t) : str :=
  SOURCE_ATTR_START ++ source f ++ SOURCE_ATTR_END ++ [LF] ++ content f ++ [LF].

Definition matches_legacy_goal_context (text : str) : bool :=
  starts_with (lit "<goal_context>") text && ends_with (lit "</goal_context>") text.

Definition matches_text (text : str) : bool :=
  let trimmed := trim text in
  if matches_legacy_goal_context trimmed then true
  else match strip_prefix CONTEXT_START_MARKER trimmed with
       | None => false
       | Some rest =>
           match strip_prefix SOURCE_ATTR_START rest with
           | None => false
           | Some rest =>
               match split_once_str SOURCE_ATTR_END rest with
               | None => false
               | Some (source, body_and_close) =>
                   is_valid_source source && ends_with CONTEXT_END_MARKER body_and_close
               end
           end
       end.
End InternalModelContext.

(** Warnings of older versions, recognized by their text. *)
Module LegacyWarnings.
Definition process_limit (text : str) : bool :=
  starts_with (lit "Warning: The maximum number of unified exec processes you can keep open is")
    (trim text).
Definition apply_patch_exec_command (text : str) : bool :=
  let trimmed := trim text in
  starts_with (lit "Warning: apply_patch was requested via ") trimmed
  && ends_with (lit "Use the apply_patch tool instead of exec_command.") trimmed.
Definition model_mismatch (text : str) : bool :=
  starts_with (lit "Warning: Your account was flagged for potentially high-risk cyber activity")
    (trim text).
End LegacyWarnings.

(** ** Recognition ([contextual_user_message.rs], [event_mapping.rs]) *)

Definition CONTEXTUAL_USER_FRAGMENT_MATCHERS : list (str → bool) :=
  [UserInstructions.matches_text; EnvironmentsState.matches_text; AdditionalContext.matches_text;
   SkillInstructions.matches_text; UserShellCommand.matches_text; TurnAborted.matches_text;
   SubagentNotification.matches_text; InternalModelContext.matches_text;
   LegacyWarnings.process_limit; LegacyWarnings.apply_patch_exec_command;
   LegacyWarnings.model_mismatch].

Definition is_standard_contextual_user_text (text : str) : bool :=
  existsb (λ matches_text, matches_text text) CONTEXTUAL_USER_FRAGMENT_MATCHERS.

Definition is_contextual_user_fragment (item : ContentItem.t) : bool :=
  match item with
  | ContentItem.InputText text => is_standard_contextual_user_text text
  | _ => false
  end.

Definition is_contextual_user_message_content (message : list ContentItem.t) : bool :=
  existsb is_contextual_user_fragment message.

Definition CONTEXTUAL_DEVELOPER_PREFIXES : list str :=
  [lit "<model_switch>"; lit "<apps_instructions>"; lit "<agent_settings>";
   lit "<multi_agent_mode>"; lit "<environments_instructions>"; lit "<git_attribution>";
   lit "<realtime_conversation>"; lit "<skills_instructions>"; lit "<tools>";
   lit "<personality_spec>"; lit "<token_budget>"; lit "<context_window>";
   lit "<context_window_guidance>"; lit "<rollout_budget>"].

Definition is_contextual_dev_fragment (item : ContentItem.t) : bool :=
  match item with
  | ContentItem.InputText text =>
      let trimmed := trim_start text in
      existsb (λ pre, match slice_to trimmed (slen pre) with
                      | Some candidate => eq_ignore_ascii_case candidate pre
                      | None => false
                      end) CONTEXTUAL_DEVELOPER_PREFIXES
  | _ => false
  end.

Definition is_contextual_dev_message_content (message : list ContentItem.t) : bool :=
  existsb is_contextual_dev_fragment message.

Definition has_non_contextual_dev_message_content (message : list ContentItem.t) : bool :=
  existsb (λ item, negb (is_contextual_dev_fragment item)) message.

(** ** The store of additional context ([state/additional_context.rs]) *)

Inductive AdditionalContextKind : Type := Untrusted | Application.

Record AdditionalContextEntry : Type := mkEntry { entry_value : str; entry_kind : AdditionalContextKind }.

#[global] Instance AdditionalContextEntry_eq_dec : EqDecision AdditionalContextEntry.
Proof. assert (EqDecision AdditionalContextKind) by solve_decision. solve_decision. Defined.

(** A [BTreeMap] as the list of its entries in key order. *)
Abbreviation ContextMap := (list (list N * AdditionalContextEntry)) (only parsing).

Definition map_get (k : str) (m : ContextMap) : option AdditionalContextEntry :=
  snd <$> find (λ kv, bool_decide (kv.1 = k)) m.

(** The message of an entry: its role and text. *)
Definition entry_fragment (kv : str * AdditionalContextEntry) : option (str * str) :=
  let f := AdditionalContext.mk kv.1 (entry_value kv.2) in
  match entry_kind kv.2 with
  | Untrusted => body ← AdditionalContext.body f;
                 Some (lit "user", render AdditionalContext.type_markers body)
  | Application => body ← AdditionalContext.developer_body f;
                   Some (lit "developer", render ([], []) body)
  end.

(** [AdditionalContextStore::merge]: the new store and the messages. *)
Definition merge (store values : ContextMap) : option (ContextMap * list (str * str)) :=
  fragments ← mapM entry_fragment
    (filter (λ kv, map_get kv.1 store ≠ Some kv.2) values);
  Some (values, fragments).

(** ** Rendered fragments are recognized *)

Definition all_whitespace (w : str) : Prop := Forall (λ c, is_whitespace c = true) w.

Lemma trim_start_whitespace w s : all_whitespace w → trim_start (w ++ s) = trim_start s.
Proof. unfold trim_start. induction 1 as [|c w Hc Hw IH]; [done|]. cbn [app drop_while]. by rewrite Hc. Qed.

Lemma trim_end_whitespace w s : all_whitespace w → trim_end (s ++ w) = trim_end s.
Proof.
  intros Hw. unfold trim_end, trim_end_matches. rewrite rev_app_distr.
  change (rev (trim_start (rev w ++ rev s)) = rev (trim_start (rev s))).
  rewrite trim_start_whitespace; [done|]. by apply Forall_rev.
Qed.

(** A text that starts and ends with other characters, within whitespace. *)
Lemma trim_start_marked w c s : all_whitespace w → is_whitespace c = false →
  trim_start (w ++ c :: s) = c :: s.
Proof. intros Hw Hc. by rewrite trim_start_whitespace, trim_start_cons. Qed.

Lemma trim_end_marked w c s : all_whitespace w → is_whitespace c = false →
  trim_end ((s ++ [c]) ++ w) = s ++ [c].
Proof. intros Hw Hc. by rewrite trim_end_whitespace, trim_end_snoc. Qed.

Definition marker_ok (start_marker end_marker : str) : Prop :=
  (∃ c s, start_marker = c :: s ∧ is_whitespace c = false)
  ∧ (∃ c s, end_marker = s ++ [c] ∧ is_whitespace c = false).

Lemma trim_marked w1 w2 s e body :
  marker_ok s e → all_whitespace w1 → all_whitespace w2 →
  trim_start (w1 ++ (s ++ body ++ e) ++ w2) = (s ++ body ++ e) ++ w2
  ∧ trim_end ((s ++ body ++ e) ++ w2) = s ++ body ++ e.
Proof.
  intros [(c & s' & -> & Hc) (d & e' & -> & Hd)] H1 H2. split.
  - change (((c :: s') ++ body ++ e' ++ [d]) ++ w2) with (c :: (s' ++ body ++ e' ++ [d]) ++ w2).
    by rewrite trim_start_marked.
  - rewrite !app_assoc. by rewrite trim_end_marked.
Qed.

Lemma matches_marked_render w1 w2 s e body :
  marker_ok s e → all_whitespace w1 → all_whitespace w2 →
  matches_marked_text s e (w1 ++ (s ++ body ++ e) ++ w2) = true.
Proof.
  intros Hm H1 H2. destruct (trim_marked w1 w2 s e body Hm H1 H2) as [Ht1 Ht2].
  unfold matches_marked_text. destruct Hm as [(c & s' & Hs & _) (d & e' & He & _)].
  rewrite (bool_decide_false (s = [])) by by rewrite Hs.
  rewrite (bool_decide_false (e = [])) by (rewrite He; by destruct e').
  cbn [orb]. rewrite Ht1, Ht2. rewrite <- !(app_assoc s), slice_to_app.
  replace (usat_sub (slen (s ++ body ++ e)) (slen e)) with (slen (s ++ body)).
  2:{ unfold usat_sub. slen_lia. }
  rewrite app_assoc, slice_from_app. unfold eq_ignore_ascii_case.
  by rewrite !bool_decide_true.
Qed.

Lemma split_once_str_app c sep a b :
  Forall (λ d, d ≠ c) a → split_once_str (c :: sep) (a ++ (c :: sep) ++ b) = Some (a, b).
Proof.
  induction 1 as [|d a Hd Ha IH].
  - change ([] ++ (c :: sep) ++ b) with ((c :: sep) ++ b).
    pose proof (strip_prefix_app (c :: sep) b) as H. destruct ((c :: sep) ++ b) eqn:E; [done|].
    cbn [split_once_str]. by rewrite H.
  - cbn [app split_once_str strip_prefix]. rewrite (proj2 (N.eqb_neq c d)) by congruence.
    change (c :: sep ++ b) with ((c :: sep) ++ b). by rewrite IH.
Qed.

(** The fragments of the user role; where the body is not modelled it is arbitrary. *)
Inductive UserFragment : Type :=
| FInstructions (f : UserInstructions.t)
| FEnvironments (body : str)
| FAdditional (f : AdditionalContext.t)
| FSkill (f : SkillInstructions.t)
| FShellCommand (body : str)
| FAborted (f : TurnAborted.t)
| FSubagent (body : str)
| FInternal (f : InternalModelContext.t).

Definition render_fragment (f : UserFragment) : option str :=
  match f with
  | FInstructions f => Some (render UserInstructions.type_markers (UserInstructions.body f))
  | FEnvironments body => Some (render EnvironmentsState.type_markers body)
  | FAdditional f => render AdditionalContext.type_markers <$> AdditionalContext.body f
  | FSkill f => Some (render SkillInstructions.type_markers (SkillInstructions.body f))
  | FShellCommand body => Some (render UserShellCommand.type_markers body)
  | FAborted f => Some (render TurnAborted.type_markers (TurnAborted.body f))
  | FSubagent body => Some (render SubagentNotification.type_markers body)
  | FInternal f => Some (render InternalModelContext.type_markers (InternalModelContext.body f))
  end.

(** A key without [>], and a source that [InternalContextSource::new] accepts. *)
Definition fragment_ok (f : UserFragment) : Prop :=
  match f with
  | FAdditional f => Forall (λ c, c ≠ 62%N) (AdditionalContext.key f)
                     ∧ slen (AdditionalContext.value f) ≤ ISIZE_MAX
  | FInternal f => is_ok (InternalModelContext.new_source (InternalModelContext.source f)) = true
  | _ => True
  end.

Lemma valid_source_no_quote source :
  InternalModelContext.is_valid_source source = true → Forall (λ c, c ≠ 34%N) source.
Proof.
  assert (Hl : ∀ c, InternalModelContext.is_ascii_lowercase c = true → c ≠ 34%N)
    by (intros c [? ?]%andb_true_iff ->; done).
  destruct source as [|c source]; [done|]. intros [Hc Hs]%andb_true_iff. constructor; [auto|].
  apply list.Forall_forall. intros d Hd. rewrite forallb_forall in Hs.
  apply list_elem_of_In, Hs in Hd.
  apply orb_true_iff in Hd as [[Hd|Hd]%orb_true_iff|Hd]; [auto| |].
  - by intros ->.
  - apply N.eqb_eq in Hd as ->. done.
Qed.

Lemma additional_recognized w1 w2 key value :
  all_whitespace w1 → all_whitespace w2 → Forall (λ c, c ≠ 62%N) key →
  AdditionalContext.matches_text
    (w1 ++ (AdditionalContext.START_MARKER_PREFIX
            ++ (key ++ lit ">" ++ value ++ lit "</external_" ++ key)
            ++ AdditionalContext.END_MARKER_SUFFIX) ++ w2) = true.
Proof.
  intros H1 H2 Hk. unfold AdditionalContext.matches_text, trim.
  edestruct (trim_marked w1 w2 AdditionalContext.START_MARKER_PREFIX
    AdditionalContext.END_MARKER_SUFFIX) as [-> ->]; [|done..|].
  { split; [by eexists _, _|by exists 62%N, []]. }
  rewrite strip_prefix_app. unfold AdditionalContext.END_MARKER_SUFFIX.
  change (lit ">") with [62%N]. rewrite <- !app_assoc, split_once_str_app by done.
  apply ends_with_true. by exists value.
Qed.

Lemma internal_recognized w1 w2 source content :
  all_whitespace w1 → all_whitespace w2 → InternalModelContext.is_valid_source source = true →
  InternalModelContext.matches_text
    (w1 ++ (InternalModelContext.CONTEXT_START_MARKER
            ++ InternalModelContext.body (InternalModelContext.mk source content)
            ++ InternalModelContext.CONTEXT_END_MARKER) ++ w2) = true.
Proof.
  intros H1 H2 Hs. unfold InternalModelContext.matches_text, trim.
  edestruct (trim_marked w1 w2 InternalModelContext.CONTEXT_START_MARKER
    InternalModelContext.CONTEXT_END_MARKER) as [-> ->]; [|done..|].
  { split; [by eexists _, _|]. exists 62%N, (lit "</codex_internal_context"). done. }
  case_match; [done|]. rewrite strip_prefix_app. unfold InternalModelContext.body.
  cbn [InternalModelContext.source InternalModelContext.content].
  rewrite <- !app_assoc, strip_prefix_app.
  unfold InternalModelContext.SOURCE_ATTR_END. change ([34%N] ++ lit ">") with [34%N; 62%N].
  rewrite split_once_str_app by by apply valid_source_no_quote.
  rewrite Hs. apply ends_with_true.
  exists ([LF] ++ content ++ [LF]). by rewrite <- !app_assoc.
Qed.

Lemma matcher_recognizes m text :
  m ∈ CONTEXTUAL_USER_FRAGMENT_MATCHERS → m text = true →
  is_standard_contextual_user_text text = true.
Proof.
  intros Hm Ht. unfold is_standard_contextual_user_text. apply existsb_exists.
  exists m. split; [|done]. by apply list_elem_of_In.
Qed.

Ltac in_matchers :=
  unfold CONTEXTUAL_USER_FRAGMENT_MATCHERS; rewrite !elem_of_cons; repeat (first [left; reflexivity | right]).

Ltac marked Hmk m mk :=
  eexists; split; [done|];
  match goal with
  | |- context [render mk ?b] => change (render mk b) with (mk.1 ++ b ++ mk.2)
  end;
  apply (Hmk mk.1 mk.2 m); [in_matchers|reflexivity|];
  split; eexists _, _;
    (split; [first [reflexivity|apply (app_removelast_last 0%N); discriminate]|reflexivity]).

Lemma fragment_recognized_text f w1 w2 :
  fragment_ok f → all_whitespace w1 → all_whitespace w2 →
  ∃ text, render_fragment f = Some text
          ∧ is_standard_contextual_user_text (w1 ++ text ++ w2) = true.
Proof.
  intros Hok H1 H2.
  assert (Hmk : ∀ s e m body, m ∈ CONTEXTUAL_USER_FRAGMENT_MATCHERS →
    m = matches_marked_text s e → marker_ok s e →
    is_standard_contextual_user_text (w1 ++ (s ++ body ++ e) ++ w2) = true).
  { intros s e m body Hm -> Hme. eapply matcher_recognizes; [exact Hm|].
    by apply matches_marked_render. }
  destruct f as [f|b|f|f|b|f|b|f]; cbn [render_fragment] in *.
  3:{ destruct Hok as [Hk Hv]. unfold AdditionalContext.body.
      destruct (token_budget_total (AdditionalContext.value f)
        AdditionalContext.MAX_ADDITIONAL_CONTEXT_VALUE_TOKENS) as (r & n & -> & _); [done..|].
      cbn [mbind option_bind fmap option_fmap option_map]. eexists. split; [done|].
      eapply (matcher_recognizes AdditionalContext.matches_text); [in_matchers|].
      by apply additional_recognized. }
  7:{ eexists. split; [done|]. eapply (matcher_recognizes InternalModelContext.matches_text);
      [in_matchers|]. destruct f as [source content]. apply internal_recognized; try done.
      cbn in Hok. unfold InternalModelContext.new_source in Hok. by case_match. }
  - marked Hmk UserInstructions.matches_text UserInstructions.type_markers.
  - marked Hmk EnvironmentsState.matches_text EnvironmentsState.type_markers.
  - marked Hmk SkillInstructions.matches_text SkillInstructions.type_markers.
  - marked Hmk UserShellCommand.matches_text UserShellCommand.type_markers.
  - marked Hmk TurnAborted.matches_text TurnAborted.type_markers.
  - marked Hmk SubagentNotification.matches_text SubagentNotification.type_markers.
Qed.

(** The context that the agent injects is recognized as such.  Every rendered
    fragment of the user role, also with whitespace around it and among other parts
    of a message, makes the message contextual, provided that the key of additional
    context has no [>] and the source of internal context is one that its constructor
    accepts. *)
Theorem fragment_recognized (f : UserFragment) (w1 w2 : str) (before after : list ContentItem.t) :
  fragment_ok f → all_whitespace w1 → all_whitespace w2 →
  ∃ text, render_fragment f = Some text
          ∧ is_contextual_user_message_content
              (before ++ [ContentItem.InputText (w1 ++ text ++ w2)] ++ after) = true.
Proof.
  intros Hok H1 H2. destruct (fragment_recognized_text f w1 w2) as (text & Hr & Ht); [done..|].
  exists text. split; [done|]. unfold is_contextual_user_message_content.
  rewrite !existsb_app. cbn [existsb is_contextual_user_fragment]. rewrite Ht.
  by rewrite orb_true_r.
Qed.

Lemma fragment_recognized_witness :
  ∃ text, render_fragment (FAdditional (AdditionalContext.mk (lit "tab") (lit "x"))) = Some text
          ∧ is_contextual_user_message_content
              ([] ++ [ContentItem.InputText ([LF] ++ text ++ [SPACE])] ++ []) = true.
Proof. apply fragment_recognized; cbn; repeat constructor; done. Defined.

(** A key with [>] is rendered but not recognized: the fragment counts as text of the
    user. *)
Lemma additional_key_with_gt_unrecognized :
  ∃ text, render_fragment (FAdditional (AdditionalContext.mk (lit "a>b") (lit "x"))) = Some text
          ∧ is_contextual_user_message_content [ContentItem.InputText text] = false.
Proof. eexists. split; [vm_compute; reflexivity|vm_compute; reflexivity]. Qed.

(** *** Text of the user is not taken for context *)

Definition contextual_openers : list str :=
  [lit "# AGENTS.md instructions"; lit "<environment_context>"; lit "<external_"; lit "<skill>";
   lit "<user_shell_command>"; lit "<turn_aborted>"; lit "<subagent_notification>";
   lit "<codex_internal_context"; lit "<goal_context>";
   lit "Warning: The maximum number of unified exec processes you can keep open is";
   lit "Warning: apply_patch was requested via ";
   lit "Warning: Your account was flagged for potentially high-risk cyber activity"].

Ltac in_openers := apply (bool_decide_unpack _); vm_compute; exact I.

(** [s] begins with [o], up to ASCII case. *)
Definition begins_with (o s : str) : Prop :=
  ∃ rest, to_ascii_lowercase s = to_ascii_lowercase o ++ rest.

Lemma to_ascii_lowercase_app s t :
  to_ascii_lowercase (s ++ t) = to_ascii_lowercase s ++ to_ascii_lowercase t.
Proof. apply map_app. Qed.

Lemma begins_with_app o s t : begins_with o s → begins_with o (s ++ t).
Proof.
  intros [rest H]. exists (rest ++ to_ascii_lowercase t).
  by rewrite to_ascii_lowercase_app, H, <- app_assoc.
Qed.

Lemma begins_with_exact o s : begins_with o (o ++ s).
Proof. exists (to_ascii_lowercase s). apply to_ascii_lowercase_app. Qed.

Lemma trim_end_prefix s : ∃ w, s = trim_end s ++ w.
Proof.
  unfold trim_end, trim_end_matches.
  assert (H : ∀ l, ∃ w, l = w ++ drop_while is_whitespace l).
  { induction l as [|c l [w IH]]; [by exists []|]. cbn [drop_while]. destruct (is_whitespace c).
    - exists (c :: w). cbn [app]. by f_equal.
    - by exists []. }
  destruct (H (rev s)) as [w Hw]. exists (rev w).
  rewrite <- rev_app_distr, <- Hw. by rewrite rev_involutive.
Qed.

Lemma marked_begins s e text :
  matches_marked_text s e text = true → begins_with s (trim_start text).
Proof.
  unfold matches_marked_text. case_match; [done|]. intros [Hs _]%andb_true_iff.
  destruct (slice_to _ _) as [cand|] eqn:E; [|done].
  apply slice_to_Some in E as (t & -> & _). apply begins_with_app.
  apply bool_decide_eq_true in Hs. exists []. by rewrite app_nil_r.
Qed.

Lemma trimmed_begins o text r : trim text = o ++ r → begins_with o (trim_start text).
Proof.
  unfold trim. intros H. destruct (trim_end_prefix (trim_start text)) as [w Hw].
  rewrite Hw, H. by apply begins_with_app, begins_with_exact.
Qed.

(** A text is recognized as context only if it begins, after whitespace and up to
    case, with one of the openers. *)
Lemma contextual_text_opener text :
  is_standard_contextual_user_text text = true →
  Exists (λ o, begins_with o (trim_start text)) contextual_openers.
Proof.
  intros H. assert (Hin : ∀ o, o ∈ contextual_openers → begins_with o (trim_start text) →
    Exists (λ o, begins_with o (trim_start text)) contextual_openers).
  { intros o Ho Hb. apply list.Exists_exists. eauto. }
  assert (Hst : ∀ o, o ∈ contextual_openers → starts_with o (trim text) = true →
    Exists (λ o, begins_with o (trim_start text)) contextual_openers).
  { intros o Ho [r Hr]%starts_with_true. eapply Hin; [exact Ho|]. by eapply trimmed_begins. }
  apply existsb_exists in H as (m & Hm & Ht). apply list_elem_of_In in Hm.
  unfold CONTEXTUAL_USER_FRAGMENT_MATCHERS in Hm.
  repeat (apply elem_of_cons in Hm as [->|Hm]); try by apply elem_of_nil in Hm.
  all: try (apply marked_begins in Ht; eapply Hin; [|exact Ht]; in_openers).
  - unfold AdditionalContext.matches_text in Ht.
    destruct (strip_prefix _ (trim text)) as [r|] eqn:E; [|done].
    apply strip_prefix_Some, trimmed_begins in E. eapply Hin; [|exact E]. in_openers.
  - unfold InternalModelContext.matches_text in Ht. case_match eqn:El.
    + apply andb_true_iff in El as [El _]. eapply Hst; [|exact El]. in_openers.
    + destruct (strip_prefix _ (trim text)) as [r|] eqn:E; [|done].
      apply strip_prefix_Some, trimmed_begins in E. eapply Hin; [|exact E]. in_openers.
  - eapply Hst; [|exact Ht]. in_openers.
  - apply andb_true_iff in Ht as [Ht _]. eapply Hst; [|exact Ht]. in_openers.
  - eapply Hst; [|exact Ht]. in_openers.
Qed.

(** *** The store of additional context *)

Lemma entry_fragment_total kv :
  slen (entry_value kv.2) ≤ ISIZE_MAX → is_Some (entry_fragment kv).
Proof.
  intros Hl. unfold entry_fragment, AdditionalContext.body, AdditionalContext.developer_body.
  destruct (token_budget_total (entry_value kv.2)
    AdditionalContext.MAX_ADDITIONAL_CONTEXT_VALUE_TOKENS) as (r & n & E & _); [done..|].
  cbn [AdditionalContext.value]. rewrite E. destruct (entry_kind kv.2); cbn; eauto.
Qed.

Lemma map_get_elem k v (m : list (str * AdditionalContextEntry)) :
  NoDup m.*1 → (k, v) ∈ m → map_get k m = Some v.
Proof.
  unfold map_get. induction m as [|[k' v'] m IH]; cbn [fmap list_fmap find]; intros Hnd Hin.
  - by apply elem_of_nil in Hin.
  - apply list.NoDup_cons in Hnd as [Hk Hnd]. cbn [fst]. case_bool_decide as Hd; cbn in Hd.
    + subst. apply elem_of_cons in Hin as [[= ->]|Hin]; [done|].
      destruct Hk. apply list_elem_of_fmap. by exists (k, v).
    + apply elem_of_cons in Hin as [[= -> ->]|Hin]; [done|]. auto.
Qed.

(** Merging emits one message per entry that is new or changed, and merging the same
    values again emits none. *)
Lemma merge_changed_once store values :
  NoDup values.*1 → Forall (λ kv, slen (entry_value kv.2) ≤ ISIZE_MAX) values →
  ∃ fragments, merge store values = Some (values, fragments)
    ∧ length fragments = length (filter (λ kv, map_get kv.1 store ≠ Some kv.2) values)
    ∧ merge values values = Some (values, []).
Proof.
  intros Hnd Hl. unfold merge.
  assert (Ht : ∀ vs, Forall (λ kv, slen (entry_value kv.2) ≤ ISIZE_MAX) vs →
    ∃ fs, mapM entry_fragment vs = Some fs ∧ length fs = length vs).
  { intros vs Hvs. assert (is_Some (mapM entry_fragment vs)) as [fs Hfs].
    { apply mapM_is_Some. eapply Forall_weaken; [exact Hvs|]. apply entry_fragment_total. }
    exists fs. split; [done|]. by apply length_mapM in Hfs. }
  destruct (Ht (filter (λ kv, map_get kv.1 store ≠ Some kv.2) values)) as (fs & -> & Hlen).
  { apply list.Forall_forall. intros kv [_ Hin]%list_elem_of_filter. by eapply Forall_elem in Hl. }
  exists fs. split; [done|]. split; [done|].
  assert (filter (λ kv, map_get kv.1 values ≠ Some kv.2) values = []) as ->; [|done].
  apply elem_of_nil_inv. intros [k v] [Hne Hin]%list_elem_of_filter.
  apply Hne. by apply map_get_elem.
Qed.
