(* ===== verification/ContextNormalize.v ===== *)
(** * Normalizing the history for a prompt: [core/src/context_manager/normalize.rs]

    The model rejects a history in which a tool call has no output or an output has no
    call.  Normalization adds outputs for calls that were cut short, drops outputs
    whose calls are gone, and replaces media the model does not accept.  The second
    kind of repair is reported by [error_or_panic], which panics ([None]) in builds
    with [debug_assertions] and logs otherwise. *)

From Stdlib Require Import String ZArith Lia.
From stdpp Require Import base option list numbers.
From S2P Require Import Prelude StrBytes Truncate Models.

Section normalize.
Context `{WireTypes}.
(** [Uuid::new_v5] in the namespace of synthetic outputs, as text. *)
Context (new_v5 : str → str).
Context (debug_assertions : bool).

Definition error_or_panic {A} (k : option A) : option A := if debug_assertions then None else k.

Definition synthetic_output_id (pre : str) (item_id : option str) : option ResponseItemId :=
  source_id ← item_id;
  if bool_decide (source_id = []) then None
  else let name := pre ++ lit ":" ++ source_id in Some (with_suffix pre (new_v5 name)).

(** The ids of the three kinds of outputs, and of the four kinds of calls. *)
Definition function_output_id (i : ResponseItem) : option str :=
  match i with FunctionCallOutput _ call_id _ _ => Some call_id | _ => None end.
Definition tool_search_output_id (i : ResponseItem) : option str :=
  match i with ToolSearchOutput _ (Some call_id) _ _ _ _ => Some call_id | _ => None end.
Definition custom_tool_output_id (i : ResponseItem) : option str :=
  match i with CustomToolCallOutput _ call_id _ _ _ => Some call_id | _ => None end.

Definition function_call_id (i : ResponseItem) : option str :=
  match i with FunctionCall _ _ _ _ _ call_id _ => Some call_id | _ => None end.
Definition tool_search_call_id (i : ResponseItem) : option str :=
  match i with ToolSearchCall _ (Some call_id) _ _ _ _ => Some call_id | _ => None end.
Definition local_shell_call_id (i : ResponseItem) : option str :=
  match i with LocalShellCall _ (Some call_id) _ _ _ => Some call_id | _ => None end.
Definition custom_tool_call_id (i : ResponseItem) : option str :=
  match i with CustomToolCall _ _ call_id _ _ _ _ => Some call_id | _ => None end.

(** [set.contains(id)] for the set collected from [items] by [f]. *)
Definition contains_id (f : ResponseItem → option str) (items : list ResponseItem) (id : str) : bool :=
  bool_decide (id ∈ omap f items).

Definition aborted : FunctionCallOutputPayload := from_text (lit "aborted").

(** The synthetic output of one item of the second loop; [None] is the panic. *)
Definition missing_output (items : list ResponseItem) (item : ResponseItem)
    : option (option ResponseItem) :=
  match item with
  | FunctionCall id _ _ _ _ call_id _ =>
      if contains_id function_output_id items call_id then Some None
      else Some (Some (FunctionCallOutput (synthetic_output_id (lit "fco") id) call_id aborted None))
  | ToolSearchCall id (Some call_id) _ _ _ _ =>
      if contains_id tool_search_output_id items call_id then Some None
      else Some (Some (ToolSearchOutput (synthetic_output_id (lit "tso") id) (Some call_id)
                         (lit "completed") (lit "client") [] None))
  | CustomToolCall id _ call_id _ _ _ _ =>
      if contains_id custom_tool_output_id items call_id then Some None
      else error_or_panic
             (Some (Some (CustomToolCallOutput (synthetic_output_id (lit "ctco") id) call_id None
                            aborted None)))
  | LocalShellCall id (Some call_id) _ _ _ =>
      if contains_id function_output_id items call_id then Some None
      else error_or_panic
             (Some (Some (FunctionCallOutput (synthetic_output_id (lit "fco") id) call_id aborted None)))
  | _ => Some None
  end.

Fixpoint missing_outputs (all : list ResponseItem) (idx : nat) (items : list ResponseItem)
    : option (list (nat * ResponseItem)) :=
  match items with
  | [] => Some []
  | item :: items' =>
      m ← missing_output all item;
      ms ← missing_outputs all (S idx) items';
      Some (match m with Some o => (idx, o) :: ms | None => ms end)
  end.

(** [Vec::insert], which panics past the end. *)
Definition vec_insert (i : nat) (x : ResponseItem) (l : list ResponseItem)
    : option (list ResponseItem) :=
  if i <=? length l then Some (take i l ++ x :: drop i l) else None.

Fixpoint insert_all (ms : list (nat * ResponseItem)) (items : list ResponseItem)
    : option (list ResponseItem) :=
  match ms with
  | [] => Some items
  | (idx, o) :: ms' => items' ← vec_insert (idx + 1) o items; insert_all ms' items'
  end.

Definition ensure_call_outputs_present (items : list ResponseItem) : option (list ResponseItem) :=
  ms ← missing_outputs items 0 items;
  insert_all (rev ms) items.

(** The predicate of [retain]; [None] is the panic of a debug build. *)
Definition retain_output (items : list ResponseItem) (item : ResponseItem) : option bool :=
  match item with
  | FunctionCallOutput _ call_id _ _ =>
      if contains_id function_call_id items call_id || contains_id local_shell_call_id items call_id
      then Some true else error_or_panic (Some false)
  | CustomToolCallOutput _ call_id _ _ _ =>
      if contains_id custom_tool_call_id items call_id then Some true else error_or_panic (Some false)
  | ToolSearchOutput _ call_id _ execution _ _ =>
      if bool_decide (execution = lit "server") then Some true
      else match call_id with
           | Some call_id =>
               if contains_id tool_search_call_id items call_id then Some true
               else error_or_panic (Some false)
           | None => Some true
           end
  | _ => Some true
  end.

Fixpoint retain (p : ResponseItem → option bool) (items : list ResponseItem)
    : option (list ResponseItem) :=
  match items with
  | [] => Some []
  | i :: items' => b ← p i; r ← retain p items'; Some (if (b : bool) then i :: r else r)
  end.

Definition remove_orphan_outputs (items : list ResponseItem) : option (list ResponseItem) :=
  retain (retain_output items) items.

(** [position] and [Vec::remove]. *)
Definition remove_first_matching (predicate : ResponseItem → bool) (items : list ResponseItem)
    : list ResponseItem :=
  match list_find (λ i, predicate i = true) items with
  | Some (pos, _) => delete pos items
  | None => items
  end.

Definition id_is (f : ResponseItem → option str) (call_id : str) (i : ResponseItem) : bool :=
  bool_decide (f i = Some call_id).

Definition remove_corresponding_for (items : list ResponseItem) (item : ResponseItem)
    : list ResponseItem :=
  match item with
  | FunctionCall _ _ _ _ _ call_id _ => remove_first_matching (id_is function_output_id call_id) items
  | FunctionCallOutput _ call_id _ _ =>
      match list_find (λ i, id_is function_call_id call_id i = true) items with
      | Some (pos, _) => delete pos items
      | None => match list_find (λ i, id_is local_shell_call_id call_id i = true) items with
                | Some (pos, _) => delete pos items
                | None => items
                end
      end
  | ToolSearchCall _ (Some call_id) _ _ _ _ =>
      remove_first_matching (id_is tool_search_output_id call_id) items
  | ToolSearchOutput _ (Some call_id) _ _ _ _ =>
      remove_first_matching (id_is tool_search_call_id call_id) items
  | CustomToolCall _ _ call_id _ _ _ _ =>
      remove_first_matching (id_is custom_tool_output_id call_id) items
  | CustomToolCallOutput _ call_id _ _ _ =>
      remove_first_matching (id_is custom_tool_call_id call_id) items
  | LocalShellCall _ (Some call_id) _ _ _ =>
      remove_first_matching (id_is function_output_id call_id) items
  | _ => items
  end.

(** ** Media *)

Definition IMAGE_CONTENT_OMITTED_PLACEHOLDER : str :=
  lit "image content omitted because you do not support image input".
Definition AUDIO_CONTENT_OMITTED_PLACEHOLDER : str :=
  lit "audio content omitted because you do not support audio input".

Definition strip_image_content (c : ContentItem.t) : ContentItem.t :=
  match c with
  | ContentItem.InputImage _ _ => ContentItem.InputText IMAGE_CONTENT_OMITTED_PLACEHOLDER
  | _ => c
  end.
Definition strip_image_output (c : OutputItem.t) : OutputItem.t :=
  match c with
  | OutputItem.InputImage _ _ => OutputItem.InputText IMAGE_CONTENT_OMITTED_PLACEHOLDER
  | _ => c
  end.

Definition strip_image (item : ResponseItem) : ResponseItem :=
  match item with
  | Message id role content phase m => Message id role (map strip_image_content content) phase m
  | FunctionCallOutput id call_id output m =>
      FunctionCallOutput id call_id (map_content_items strip_image_output output) m
  | CustomToolCallOutput id call_id name output m =>
      CustomToolCallOutput id call_id name (map_content_items strip_image_output output) m
  | ImageGenerationCall id status prompt _ m => ImageGenerationCall id status prompt [] m
  | _ => item
  end.

Definition strip_images_when_unsupported (modalities : list InputModality)
    (items : list ResponseItem) : list ResponseItem :=
  if bool_decide (MImage ∈ modalities) then items else map strip_image items.

Definition strip_audio_content (c : ContentItem.t) : ContentItem.t :=
  match c with
  | ContentItem.InputAudio _ => ContentItem.InputText AUDIO_CONTENT_OMITTED_PLACEHOLDER
  | _ => c
  end.
Definition strip_audio_output (c : OutputItem.t) : OutputItem.t :=
  match c with
  | OutputItem.InputAudio _ => OutputItem.InputText AUDIO_CONTENT_OMITTED_PLACEHOLDER
  | _ => c
  end.

Definition strip_audio (item : ResponseItem) : ResponseItem :=
  match item with
  | Message id role content phase m => Message id role (map strip_audio_content content) phase m
  | FunctionCallOutput id call_id output m =>
      FunctionCallOutput id call_id (map_content_items strip_audio_output output) m
  | CustomToolCallOutput id call_id name output m =>
      CustomToolCallOutput id call_id name (map_content_items strip_audio_output output) m
  | _ => item
  end.

Definition strip_audio_when_unsupported (modalities : list InputModality)
    (items : list ResponseItem) : list ResponseItem :=
  if bool_decide (MAudio ∈ modalities) then items else map strip_audio items.

(** [ContextManager::normalize_history]. *)
Definition normalize_history (modalities : list InputModality) (items : list ResponseItem)
    : option (list ResponseItem) :=
  items ← ensure_call_outputs_present items;
  items ← remove_orphan_outputs items;
  Some (strip_audio_when_unsupported modalities
          (strip_images_when_unsupported modalities items)).
End normalize.
