(* ===== verification/ContextNormalizeFacts.v ===== *)
(** * What normalization promises

    A history is well paired when every call has an output and every output a call.
    Normalization is one pass over the items, its result is well paired and free of
    unsupported media, and normalizing again changes nothing; removing the oldest
    item keeps a history well paired. *)

From Stdlib Require Import String ZArith Lia.
From stdpp Require Import base option list numbers sets.
From S2P Require Import Prelude StrBytes Truncate Models ContextNormalize.

Lemma filter_all {A} (P : A → Prop) `{∀ x, Decision (P x)} (l : list A) :
  (∀ x, x ∈ l → P x) → filter P l = l.
Proof.
  induction l as [|x l IH]; intros Hl; [done|]. rewrite filter_cons.
  case_decide as Hx; [|by destruct Hx; apply Hl, elem_of_cons; left].
  f_equal. apply IH. intros y Hy. apply Hl, elem_of_cons. by right.
Qed.

(** ** Calls and outputs by key

    A local shell call is answered by a function call output. *)
Inductive CallKind : Type := KFunction | KToolSearch | KCustom.

#[global] Instance CallKind_eq_dec : EqDecision CallKind.
Proof. solve_decision. Defined.



Section facts.
Context `{WireTypes}.
Context (new_v5 : str → str).

Definition call_key (i : ResponseItem) : option (CallKind * str) :=
  match i with
  | FunctionCall _ _ _ _ _ call_id _ => Some (KFunction, call_id)
  | LocalShellCall _ (Some call_id) _ _ _ => Some (KFunction, call_id)
  | ToolSearchCall _ (Some call_id) _ _ _ _ => Some (KToolSearch, call_id)
  | CustomToolCall _ _ call_id _ _ _ _ => Some (KCustom, call_id)
  | _ => None
  end.

Definition output_key (i : ResponseItem) : option (CallKind * str) :=
  match i with
  | FunctionCallOutput _ call_id _ _ => Some (KFunction, call_id)
  | ToolSearchOutput _ (Some call_id) _ _ _ _ => Some (KToolSearch, call_id)
  | CustomToolCallOutput _ call_id _ _ _ => Some (KCustom, call_id)
  | _ => None
  end.

(** The server answers its own tool searches; their calls need not be in the history. *)
Definition is_server_output (i : ResponseItem) : bool :=
  match i with
  | ToolSearchOutput _ _ _ execution _ _ => bool_decide (execution = lit "server")
  | _ => false
  end.

Definition has_output (items : list ResponseItem) (k : CallKind * str) : Prop :=
  k ∈ omap output_key items.
Definition has_call (items : list ResponseItem) (k : CallKind * str) : Prop :=
  k ∈ omap call_key items.

#[global] Instance has_output_dec items k : Decision (has_output items k).
Proof. unfold has_output. apply _. Defined.
#[global] Instance has_call_dec items k : Decision (has_call items k).
Proof. unfold has_call. apply _. Defined.

Record well_paired (items : list ResponseItem) : Prop := {
  calls_answered : ∀ i k, i ∈ items → call_key i = Some k → has_output items k;
  outputs_called : ∀ i k, i ∈ items → output_key i = Some k → is_server_output i = false →
                   has_call items k;
}.

(** ** The passes of a release build *)

Definition missing (all : list ResponseItem) (i : ResponseItem) : option ResponseItem :=
  default None (missing_output new_v5 false all i).
Definition retained (all : list ResponseItem) (i : ResponseItem) : bool :=
  default false (retain_output false all i).

Lemma missing_output_release all i : missing_output new_v5 false all i = Some (missing all i).
Proof. unfold missing. destruct i as [| | | |? []| |? []| | | | | | | | | |]; cbn; repeat case_match; done. Qed.

Lemma retain_output_release all i : retain_output false all i = Some (retained all i).
Proof. unfold retained. destruct i; cbn; repeat case_match; done. Qed.

(** Every item is followed by its synthetic output, if it needs one. *)
Definition with_missing (all : list ResponseItem) (items : list ResponseItem) : list ResponseItem :=
  items ≫= λ i, i :: option_list (missing all i).

Lemma insert_all_app ms ms' items :
  insert_all (ms ++ ms') items = (r ← insert_all ms items; insert_all ms' r).
Proof.
  revert items. induction ms as [|[idx o] ms IH]; intros items; [done|]. cbn [app insert_all].
  destruct (vec_insert _ _ _); [apply IH|done].
Qed.

Lemma ensure_loop all p items :
  ∃ ms, missing_outputs new_v5 false all (length p) items = Some ms
        ∧ insert_all (rev ms) (p ++ items) = Some (p ++ with_missing all items).
Proof.
  revert p. induction items as [|i items IH]; intros p; [by exists []|].
  destruct (IH (p ++ [i])) as (ms & Hms & Hin). rewrite length_app in Hms. cbn in Hms.
  rewrite Nat.add_1_r in Hms. rewrite <- !app_assoc in Hin. cbn [app] in Hin.
  cbn [missing_outputs]. rewrite missing_output_release, Hms. cbn [mbind option_bind].
  destruct (missing all i) as [o|] eqn:E; eexists; (split; [done|]).
  - cbn [rev]. rewrite insert_all_app, Hin. cbn [mbind option_bind insert_all]. unfold vec_insert.
    rewrite !length_app, (proj2 (Nat.leb_le _ _)) by (cbn; lia). cbn [mbind option_bind].
    replace (length p + 1)%nat with (length (p ++ [i])) by (rewrite length_app; done).
    change (i :: with_missing all items) with ([i] ++ with_missing all items).
    rewrite (app_assoc p), take_app_length, drop_app_length.
    unfold with_missing. cbn. rewrite E. by rewrite <- app_assoc.
  - rewrite Hin. unfold with_missing. cbn. by rewrite E.
Qed.

Lemma ensure_reference items :
  ensure_call_outputs_present new_v5 false items = Some (with_missing items items).
Proof.
  unfold ensure_call_outputs_present. destruct (ensure_loop items [] items) as (ms & Hms & Hin).
  cbn [length app] in *. by rewrite Hms.
Qed.

Lemma retain_reference all items :
  retain (retain_output false all) items = Some (filter (λ i, retained all i) items).
Proof.
  induction items as [|i items IH]; [done|]. cbn [retain].
  rewrite retain_output_release, IH. cbn [mbind option_bind]. rewrite filter_cons.
  by destruct (retained all i) eqn:E; case_decide.
Qed.

(** ** What the passes look at *)

Lemma contains_id_spec f items id : contains_id f items id = true ↔ id ∈ omap f items.
Proof. unfold contains_id. apply bool_decide_eq_true. Qed.

Lemma elem_omap_weaken {A B} (f : ResponseItem → option A) (g : ResponseItem → option B)
    (items : list ResponseItem) x y :
  (∀ i, f i = Some x → g i = Some y) → x ∈ omap f items → y ∈ omap g items.
Proof. intros Hfg (i & Hi & Hf)%list_elem_of_omap. apply list_elem_of_omap. eauto. Qed.

Ltac item_cases i := destruct i as [| | | |? [?|] ? ? ?| |? [?|] ? ? ? ?| | | |? [?|] ? ? ? ?| | | | | |].

Lemma contains_output items id :
  (contains_id function_output_id items id = true ↔ has_output items (KFunction, id))
  ∧ (contains_id tool_search_output_id items id = true ↔ has_output items (KToolSearch, id))
  ∧ (contains_id custom_tool_output_id items id = true ↔ has_output items (KCustom, id)).
Proof.
  rewrite !contains_id_spec. unfold has_output.
  split_and!; split; apply elem_omap_weaken; intros i; item_cases i; cbn; congruence.
Qed.

Lemma contains_call items id :
  (contains_id function_call_id items id || contains_id local_shell_call_id items id = true
     ↔ has_call items (KFunction, id))
  ∧ (contains_id tool_search_call_id items id = true ↔ has_call items (KToolSearch, id))
  ∧ (contains_id custom_tool_call_id items id = true ↔ has_call items (KCustom, id)).
Proof.
  rewrite orb_true_iff, !contains_id_spec. unfold has_call. split_and!; split.
  - intros [Hx|Hx]; revert Hx; apply elem_omap_weaken; intros i; item_cases i; cbn; congruence.
  - intros (i & Hi & Hk)%list_elem_of_omap. rewrite !list_elem_of_omap.
    item_cases i; cbn in Hk; simplify_eq; [right|left]; by eexists.
  - apply elem_omap_weaken; intros i; item_cases i; cbn; congruence.
  - apply elem_omap_weaken; intros i; item_cases i; cbn; congruence.
  - apply elem_omap_weaken; intros i; item_cases i; cbn; congruence.
  - apply elem_omap_weaken; intros i; item_cases i; cbn; congruence.
Qed.

(** A call without an output gets one with its key; nothing else is added. *)
Lemma missing_spec all i :
  match missing all i with
  | Some o => ∃ k, call_key i = Some k ∧ ¬ has_output all k ∧ output_key o = Some k
                   ∧ call_key o = None ∧ is_server_output o = false
  | None => ∀ k, call_key i = Some k → has_output all k
  end.
Proof.
  pose proof (contains_output all) as Hc. unfold missing.
  item_cases i; cbn; try done;
    match goal with
    | |- context [contains_id ?f all ?id] =>
        destruct (Hc id) as (H1 & H2 & H3); destruct (contains_id f all id) eqn:E; cbn
    end.
  all: first
    [ intros k [= <-]; first [by apply H1|by apply H2|by apply H3]
    | eexists; split_and!; try done; intros Hk;
      first [apply H1 in Hk|apply H2 in Hk|apply H3 in Hk]; congruence ].
Qed.

(** An item is dropped exactly when it is an output whose call is gone. *)
Lemma retained_spec all i :
  retained all i = false ↔
  ∃ k, output_key i = Some k ∧ is_server_output i = false ∧ ¬ has_call all k.
Proof.
  pose proof (contains_call all) as Hc. unfold retained.
  item_cases i; cbn; try (split; [done|by intros (k & ? & ?)]).
  all: match goal with
    | |- context [contains_id _ _ ?id] => destruct (Hc id) as (H1 & H2 & H3)
    | _ => idtac
    end.
  all: repeat match goal with
    | |- context [if ?b then _ else _] => destruct b eqn:?; cbn
    end; split; try done.
  all: try (intros _; eexists; split_and!; try done; intros Hk;
      first [apply H1 in Hk|apply H2 in Hk|apply H3 in Hk]; congruence).
  all: intros (k & [= <-] & ? & Hk); try done; destruct Hk.
  all: first [by apply H1|by apply H2|by apply H3].
Qed.

(** ** One pass *)

Definition pass (all items : list ResponseItem) : list ResponseItem :=
  items ≫= λ i, if retained all i then i :: option_list (missing all i) else [].
Definition one_pass (items : list ResponseItem) : list ResponseItem := pass items items.

Lemma output_is_no_call i k : output_key i = Some k → call_key i = None.
Proof. by item_cases i. Qed.

Lemma has_call_intro items i k : i ∈ items → call_key i = Some k → has_call items k.
Proof. intros ? ?. apply list_elem_of_omap. eauto. Qed.

Lemma has_output_intro items i k : i ∈ items → output_key i = Some k → has_output items k.
Proof. intros ? ?. apply list_elem_of_omap. eauto. Qed.

Lemma has_call_with_missing all items k : has_call (with_missing all items) k ↔ has_call items k.
Proof.
  unfold has_call, with_missing. induction items as [|i items IH]; [done|].
  cbn [mbind list_bind]. rewrite omap_app, elem_of_app, IH. clear IH.
  change (i :: option_list (missing all i)) with ([i] ++ option_list (missing all i)).
  change (i :: items) with ([i] ++ items). rewrite !omap_app, !elem_of_app.
  assert (omap call_key (option_list (missing all i)) = []) as ->.
  { pose proof (missing_spec all i) as Hm. destruct (missing all i) as [o|]; [|done].
    destruct Hm as (k' & _ & _ & _ & Ho & _). cbn. by rewrite Ho. }
  rewrite elem_of_nil. tauto.
Qed.

Lemma retained_ext all all' i :
  (∀ k, has_call all k ↔ has_call all' k) → retained all i = retained all' i.
Proof.
  intros Heq. destruct (retained all i) eqn:E1, (retained all' i) eqn:E2; try done.
  - apply retained_spec in E2 as (k & Ho & Hs & Hk). rewrite <- Heq in Hk.
    assert (retained all i = false) by (apply retained_spec; eauto). congruence.
  - apply retained_spec in E1 as (k & Ho & Hs & Hk). rewrite Heq in Hk.
    assert (retained all' i = false) by (apply retained_spec; eauto). congruence.
Qed.

Lemma retained_synthetic all i o : i ∈ all → missing all i = Some o → retained all o = true.
Proof.
  intros Hi Hm. pose proof (missing_spec all i) as Hs. rewrite Hm in Hs.
  destruct Hs as (k & Hk & _ & Ho & _). destruct (retained all o) eqn:E; [done|].
  apply retained_spec in E as (k' & Ho' & _ & Hn). simplify_eq. destruct Hn.
  by eapply has_call_intro.
Qed.

Lemma missing_dropped all i : retained all i = false → missing all i = None.
Proof.
  intros (k & Ho%output_is_no_call & _)%retained_spec. pose proof (missing_spec all i) as Hs.
  destruct (missing all i); [|done]. destruct Hs as (k' & Hk & _). congruence.
Qed.

Lemma with_missing_cons all i items :
  with_missing all (i :: items) = (i :: option_list (missing all i)) ++ with_missing all items.
Proof. done. Qed.

Lemma pass_cons all i items :
  pass all (i :: items)
  = (if retained all i then i :: option_list (missing all i) else []) ++ pass all items.
Proof. done. Qed.

Lemma filter_with_missing all items :
  items ⊆ all →
  filter (λ i, retained (with_missing all all) i) (with_missing all items) = pass all items.
Proof.
  assert (Hr : ∀ j, retained (with_missing all all) j = retained all j)
    by (intros j; apply retained_ext, has_call_with_missing).
  induction items as [|i items IH]; intros Hincl; [done|].
  rewrite with_missing_cons, pass_cons, list.filter_app, IH by set_solver. f_equal.
  rewrite filter_cons, Hr. destruct (retained all i) eqn:E; case_decide; try done.
  - f_equal. destruct (missing all i) as [o|] eqn:Em; [|done]. change (option_list (Some o)) with [o].
    rewrite filter_cons, Hr, (retained_synthetic all i o); [|set_solver|done].
    by case_decide.
  - by rewrite missing_dropped.
Qed.

(** Adding the outputs and then dropping the orphans is one pass. *)
Lemma two_passes_reference items :
  (r ← ensure_call_outputs_present new_v5 false items; remove_orphan_outputs false r)
  = Some (one_pass items).
Proof.
  rewrite ensure_reference. cbn [mbind option_bind]. unfold remove_orphan_outputs.
  rewrite retain_reference. f_equal. by apply filter_with_missing.
Qed.

Lemma elem_of_one_pass items i :
  i ∈ one_pass items ↔
  (i ∈ items ∧ retained items i = true) ∨ (∃ c, c ∈ items ∧ missing items c = Some i).
Proof.
  unfold one_pass, pass. rewrite list_elem_of_bind. split.
  - intros (c & Hi & Hc). destruct (retained items c) eqn:E; [|by apply elem_of_nil in Hi].
    apply elem_of_cons in Hi as [->|Hi]; [by left|]. right. exists c. split; [done|].
    destruct (missing items c); [|by apply elem_of_nil in Hi].
    apply list_elem_of_singleton in Hi. by subst.
  - intros [[Hi Hr]|(c & Hc & Hm)].
    + exists i. rewrite Hr. split; [apply elem_of_cons; by left|done].
    + exists c. split; [|done]. destruct (retained items c) eqn:E.
      * rewrite Hm. apply elem_of_cons. right. by apply list_elem_of_singleton.
      * by rewrite missing_dropped in Hm.
Qed.

Lemma call_retained items i k : call_key i = Some k → retained items i = true.
Proof.
  intros Hk. destruct (retained items i) eqn:E; [done|].
  apply retained_spec in E as (k' & Ho%output_is_no_call & _). congruence.
Qed.

Lemma one_pass_well_paired items : well_paired (one_pass items).
Proof.
  assert (Hcall : ∀ k, has_call items k → has_call (one_pass items) k).
  { intros k (c & Hc & Hk)%list_elem_of_omap. eapply has_call_intro; [|exact Hk].
    apply elem_of_one_pass. left. split; [done|]. by eapply call_retained. }
  split; intros i k [[Hi Hr]|(c & Hc & Hm)]%elem_of_one_pass Hk.
  - pose proof (missing_spec items i) as Hs. destruct (missing items i) as [o|] eqn:Em.
    + destruct Hs as (k' & Hk' & _ & Ho & _). simplify_eq.
      eapply has_output_intro; [|exact Ho]. apply elem_of_one_pass. eauto.
    + destruct (proj1 (list_elem_of_omap _ _ _) (Hs k Hk)) as (o & Ho & Hok).
      eapply has_output_intro; [|exact Hok]. apply elem_of_one_pass. left. split; [done|].
      destruct (retained items o) eqn:E; [done|].
      apply retained_spec in E as (k' & Hok' & _ & Hn). simplify_eq. destruct Hn.
      eapply has_call_intro; [exact Hi|done].
  - pose proof (missing_spec items c) as Hs. rewrite Hm in Hs.
    destruct Hs as (k' & _ & _ & _ & Hn & _). congruence.
  - intros Hsv. apply Hcall. destruct (decide (has_call items k)) as [|Hn]; [done|].
    assert (retained items i = false) by (apply retained_spec; eauto). congruence.
  - intros _. apply Hcall. pose proof (missing_spec items c) as Hs. rewrite Hm in Hs.
    destruct Hs as (k' & Hk' & _ & Ho & _). simplify_eq. by eapply has_call_intro.
Qed.

(** A well-paired history needs no repair. *)
Lemma pass_id all items : well_paired all → items ⊆ all → pass all items = items.
Proof.
  intros [Ha Ho]. induction items as [|i items IH]; intros Hincl; [done|].
  rewrite pass_cons, IH by set_solver.
  assert (Hi : i ∈ all) by set_solver. destruct (retained all i) eqn:E.
  - pose proof (missing_spec all i) as Hs. destruct (missing all i) as [o|]; [|done].
    destruct Hs as (k & Hk & Hn & _). destruct Hn. by eapply Ha.
  - apply retained_spec in E as (k & Hk & Hs & Hn). destruct Hn. by eapply Ho.
Qed.

(** ** Media *)

Definition strip_item (modalities : list InputModality) (i : ResponseItem) : ResponseItem :=
  let i := if bool_decide (MImage ∈ modalities) then i else strip_image i in
  if bool_decide (MAudio ∈ modalities) then i else strip_audio i.

Lemma strip_reference modalities items :
  strip_audio_when_unsupported modalities (strip_images_when_unsupported modalities items)
  = map (strip_item modalities) items.
Proof.
  unfold strip_audio_when_unsupported, strip_images_when_unsupported, strip_item.
  repeat case_bool_decide; rewrite ?map_map, ?map_id; done.
Qed.

Lemma strip_item_keys modalities i :
  call_key (strip_item modalities i) = call_key i
  ∧ output_key (strip_item modalities i) = output_key i
  ∧ is_server_output (strip_item modalities i) = is_server_output i.
Proof. unfold strip_item. repeat case_bool_decide; by destruct i. Qed.

Lemma map_map_id {A} (f : A → A) l : (∀ x, f (f x) = f x) → map f (map f l) = map f l.
Proof. intros Hf. rewrite map_map. by apply map_ext. Qed.

Lemma map_content_items_comp f g p :
  map_content_items f (map_content_items g p) = map_content_items (λ x, f (g x)) p.
Proof. unfold map_content_items. destruct p as [[t|items] s]; [done|]. cbn. by rewrite map_map. Qed.

Lemma map_content_items_ext f g p :
  (∀ x, f x = g x) → map_content_items f p = map_content_items g p.
Proof.
  intros Hfg. unfold map_content_items. destruct (body p); [done|]. by rewrite (map_ext f g).
Qed.

Lemma strip_item_idempotent modalities i :
  strip_item modalities (strip_item modalities i) = strip_item modalities i.
Proof.
  unfold strip_item. repeat case_bool_decide; try done; destruct i; cbn; try done;
    rewrite ?map_content_items_comp, ?map_map; f_equal;
    try (apply map_ext; by intros []); apply map_content_items_ext; by intros [].
Qed.

(** No part of an item is an image (or audio). *)
Definition no_image (i : ResponseItem) : Prop :=
  match i with
  | Message _ _ content _ _ =>
      Forall (λ c, match c with ContentItem.InputImage _ _ => False | _ => True end) content
  | FunctionCallOutput _ _ output _ | CustomToolCallOutput _ _ _ output _ =>
      match body output with
      | ContentItems items =>
          Forall (λ c, match c with OutputItem.InputImage _ _ => False | _ => True end) items
      | BodyText _ => True
      end
  | ImageGenerationCall _ _ _ result _ => result = []
  | _ => True
  end.

Definition no_audio (i : ResponseItem) : Prop :=
  match i with
  | Message _ _ content _ _ =>
      Forall (λ c, match c with ContentItem.InputAudio _ => False | _ => True end) content
  | FunctionCallOutput _ _ output _ | CustomToolCallOutput _ _ _ output _ =>
      match body output with
      | ContentItems items =>
          Forall (λ c, match c with OutputItem.InputAudio _ => False | _ => True end) items
      | BodyText _ => True
      end
  | _ => True
  end.

Lemma strip_item_media modalities i :
  (MImage ∉ modalities → no_image (strip_item modalities i))
  ∧ (MAudio ∉ modalities → no_audio (strip_item modalities i)).
Proof.
  unfold strip_item. split; intros Hm; rewrite (bool_decide_false _ Hm); case_bool_decide.
  all: destruct i as [|? ? content| | | | | |? ? [[]]| |? ? ? [[]]| | | | | | |]; cbn; try done.
  all: rewrite ?map_map; apply Forall_map, Forall_true; by intros [].
Qed.

Lemma well_paired_map f items :
  (∀ i, call_key (f i) = call_key i ∧ output_key (f i) = output_key i
        ∧ is_server_output (f i) = is_server_output i) →
  well_paired items → well_paired (map f items).
Proof.
  intros Hf [Ha Ho].
  assert (Hk : ∀ k, (has_call (map f items) k ↔ has_call items k)
                    ∧ (has_output (map f items) k ↔ has_output items k)).
  { intros k. unfold has_call, has_output. rewrite !list_elem_of_omap.
    setoid_rewrite list_elem_of_fmap. split; split; intros (x & Hx & Hxk).
    all: try (destruct Hx as (y & -> & Hy); destruct (Hf y) as (H1 & H2 & _)).
    all: try (destruct (Hf x) as (H1 & H2 & _)).
    all: eexists; split; eauto; congruence. }
  split; intros i k (j & -> & Hj)%list_elem_of_fmap; destruct (Hf j) as (Hc & Hout & Hs);
    rewrite ?Hc, ?Hout, ?Hs; intros; apply Hk; eauto.
Qed.

Lemma normalize_reference modalities items :
  normalize_history new_v5 false modalities items
  = Some (map (strip_item modalities) (one_pass items)).
Proof.
  unfold normalize_history. pose proof (two_passes_reference items) as H2.
  destruct (ensure_call_outputs_present new_v5 false items) as [r|]; [|done].
  cbn [mbind option_bind] in *. rewrite H2. cbn [mbind option_bind]. by rewrite strip_reference.
Qed.

(** ** Debug builds

    Where a debug build does not panic it agrees with the release build. *)
Lemma missing_outputs_debug all idx items ms :
  missing_outputs new_v5 true all idx items = Some ms →
  missing_outputs new_v5 false all idx items = Some ms.
Proof.
  assert (Hm : ∀ i m, missing_output new_v5 true all i = Some m →
    missing_output new_v5 false all i = Some m).
  { intros i m. item_cases i; cbn; try done; case_match; done. }
  revert idx ms. induction items as [|i items IH]; intros idx ms; [done|].
  cbn [missing_outputs]. intros (m & ->%Hm & (ms' & ->%IH & [= <-])%bind_Some)%bind_Some. done.
Qed.

Lemma retain_debug all items r :
  retain (retain_output true all) items = Some r → retain (retain_output false all) items = Some r.
Proof.
  assert (Hm : ∀ i b, retain_output true all i = Some b → retain_output false all i = Some b).
  { intros i m. item_cases i; cbn; try done; repeat case_match; done. }
  revert r. induction items as [|i items IH]; intros r; [done|].
  cbn [retain]. intros (m & ->%Hm & (ms' & ->%IH & [= <-])%bind_Some)%bind_Some. done.
Qed.

Lemma normalize_debug_agrees modalities items r :
  normalize_history new_v5 true modalities items = Some r →
  normalize_history new_v5 false modalities items = Some r.
Proof.
  unfold normalize_history, ensure_call_outputs_present, remove_orphan_outputs.
  intros (l & (ms & ->%missing_outputs_debug & He)%bind_Some &
          (l' & Hl'%retain_debug & [= <-])%bind_Some)%bind_Some.
  cbn [mbind option_bind]. rewrite He. cbn [mbind option_bind]. by rewrite Hl'.
Qed.

(** ** Removing the oldest item *)

(** Ids are used once: no two calls and no two outputs share a key. *)
Definition unique_keys (items : list ResponseItem) : Prop :=
  NoDup (omap call_key items) ∧ NoDup (omap output_key items).

(** [b] is the other half of the pair of [a]. *)
Definition partner (a b : ResponseItem) : Prop :=
  is_Some (call_key a) ∧ output_key b = call_key a
  ∨ is_Some (output_key a) ∧ call_key b = output_key a.

#[global] Instance partner_dec a b : Decision (partner a b).
Proof. unfold partner. apply _. Defined.

Lemma omap_unique {A} (f : ResponseItem → option A) (l : list ResponseItem) i j x y k :
  NoDup (omap f l) → l !! i = Some x → l !! j = Some y → f x = Some k → f y = Some k → i = j.
Proof.
  revert i j. induction l as [|z l IH]; intros i j Hnd Hi Hj Hx Hy; [done|].
  assert (Hin : ∀ n w, l !! n = Some w → f w = Some k → k ∈ omap f l).
  { intros n w Hn Hw. apply list_elem_of_omap. exists w. split; [|done].
    by eapply list_elem_of_lookup_2. }
  change (z :: l) with ([z] ++ l) in Hnd. rewrite omap_app in Hnd. cbn in Hnd.
  destruct i as [|i], j as [|j]; cbn in Hi, Hj; simplify_eq; try done.
  - rewrite Hx in Hnd. cbn in Hnd. apply list.NoDup_cons in Hnd as [Hnd _]. destruct Hnd. eauto.
  - rewrite Hy in Hnd. cbn in Hnd. apply list.NoDup_cons in Hnd as [Hnd _]. destruct Hnd. eauto.
  - f_equal. apply IH; [|done..]. destruct (f z); cbn in Hnd; [|done].
    by apply list.NoDup_cons in Hnd as [_ Hnd].
Qed.

Lemma delete_unique (P : ResponseItem → Prop) `{∀ i, Decision (P i)} (l : list ResponseItem) pos x :
  l !! pos = Some x → P x → (∀ j y, l !! j = Some y → P y → j = pos) →
  delete pos l = filter (λ i, ¬ P i) l.
Proof.
  revert pos. induction l as [|z l IH]; intros pos Hl Hx Hu; [done|].
  rewrite filter_cons. destruct pos as [|pos]; cbn in *; simplify_eq.
  - case_decide; [done|]. symmetry. apply filter_all.
    intros y Hy Py. apply list_elem_of_lookup_1 in Hy as [j Hj]. by specialize (Hu (S j) y Hj Py).
  - case_decide as Hz; [|by specialize (Hu 0%nat z eq_refl Hz)].
    f_equal. apply IH; [done..|]. intros j y Hj Py. specialize (Hu (S j) y Hj Py). lia.
Qed.

(** Under unique keys, removing the first match of a key removes every match. *)
Lemma remove_first_key f (g : ResponseItem → option (CallKind * str)) k l :
  NoDup (omap g l) → (∀ i, f i = true ↔ g i = Some k) →
  remove_first_matching f l = filter (λ i, g i ≠ Some k) l.
Proof.
  intros Hnd Hfg. unfold remove_first_matching.
  destruct (list_find _ l) as [[pos x]|] eqn:E.
  - apply list_find_Some in E as (Hl & Hx & _). apply Hfg in Hx.
    apply (delete_unique (λ i, g i = Some k) l pos x); [done..|].
    intros j y Hj Hy. by eapply omap_unique.
  - apply list_find_None in E. symmetry. apply filter_all. intros i Hi Hk.
    eapply Forall_elem in E; [|exact Hi]. by destruct E; apply Hfg.
Qed.

Lemma remove_function_call id l :
  NoDup (omap call_key l) →
  match list_find (λ i, id_is function_call_id id i = true) l with
  | Some (pos, _) => delete pos l
  | None => match list_find (λ i, id_is local_shell_call_id id i = true) l with
            | Some (pos, _) => delete pos l
            | None => l
            end
  end = filter (λ i, call_key i ≠ Some (KFunction, id)) l.
Proof.
  intros Hnd.
  assert (Hk : ∀ f pos x, (∀ i, id_is f id i = true → call_key i = Some (KFunction, id)) →
    list_find (λ i, id_is f id i = true) l = Some (pos, x) →
    delete pos l = filter (λ i, call_key i ≠ Some (KFunction, id)) l).
  { intros f pos x Hf (Hl & Hx%Hf & _)%list_find_Some.
    apply (delete_unique (λ i, call_key i = Some (KFunction, id)) l pos x); [done..|].
    intros j y Hj Hy. by eapply omap_unique. }
  assert (Hf : ∀ i, id_is function_call_id id i = true → call_key i = Some (KFunction, id)).
  { intros i Hi%bool_decide_eq_true. item_cases i; cbn in *; congruence. }
  assert (Hs : ∀ i, id_is local_shell_call_id id i = true → call_key i = Some (KFunction, id)).
  { intros i Hi%bool_decide_eq_true. item_cases i; cbn in *; congruence. }
  destruct (list_find (λ i, id_is function_call_id id i = true) l) as [[pos x]|] eqn:E1.
  { by eapply (Hk function_call_id). }
  destruct (list_find (λ i, id_is local_shell_call_id id i = true) l) as [[pos x]|] eqn:E2.
  { by eapply (Hk local_shell_call_id). }
  symmetry. apply filter_all. intros i Hi Hck. apply list_find_None in E1, E2.
  eapply Forall_elem in E1; [|exact Hi]. eapply Forall_elem in E2; [|exact Hi].
  unfold id_is in E1, E2. rewrite bool_decide_eq_true in E1, E2.
  item_cases i; cbn in *; congruence.
Qed.

Lemma filter_iff (P Q : ResponseItem → Prop) `{∀ i, Decision (P i)} `{∀ i, Decision (Q i)}
    (l : list ResponseItem) :
  (∀ i, P i ↔ Q i) → filter P l = filter Q l.
Proof. intros HPQ. by apply list_filter_iff. Qed.

(** The counterpart that is removed is exactly the partner. *)
Lemma remove_corresponding_partner x l :
  unique_keys l → remove_corresponding_for l x = filter (λ b, ¬ partner x b) l.
Proof.
  intros [Hc Ho].
  assert (Hcall : ∀ k f, call_key x = Some k → (∀ i, f i = true ↔ output_key i = Some k) →
    remove_first_matching f l = filter (λ b, ¬ partner x b) l).
  { intros k f Hk Hf. rewrite (remove_first_key f output_key k l Ho Hf). apply filter_iff.
    intros i. unfold partner. rewrite Hk. destruct (output_key x) eqn:E.
    - apply output_is_no_call in E. congruence.
    - split; [|naive_solver]. intros Hn [[_ Hi]|[[? [=]] _]]. done. }
  assert (Hout : ∀ k, output_key x = Some k →
    filter (λ i, call_key i ≠ Some k) l = filter (λ b, ¬ partner x b) l).
  { intros k Hk. pose proof (output_is_no_call x k Hk) as Hn. apply filter_iff. intros i.
    unfold partner. rewrite Hk, Hn. split; [|naive_solver].
    intros Hne [[[? [=]] _]|[_ Hi]]. done. }
  assert (Hnone : call_key x = None → output_key x = None → l = filter (λ b, ¬ partner x b) l).
  { intros Hn1 Hn2. symmetry. apply filter_all. intros i _. unfold partner.
    rewrite Hn1, Hn2. by intros [[[? [=]] _]|[[? [=]] _]]. }
  item_cases x; cbn [remove_corresponding_for]; try (by apply Hnone).
  - eapply Hcall; [done|]. intros i. unfold id_is. rewrite bool_decide_eq_true.
    item_cases i; cbn; split; congruence.
  - eapply Hcall; [done|]. intros i. unfold id_is. rewrite bool_decide_eq_true.
    item_cases i; cbn; split; congruence.
  - eapply Hcall; [done|]. intros i. unfold id_is. rewrite bool_decide_eq_true.
    item_cases i; cbn; split; congruence.
  - rewrite <- (Hout _ eq_refl). by apply remove_function_call.
  - eapply Hcall; [done|]. intros i. unfold id_is. rewrite bool_decide_eq_true.
    item_cases i; cbn; split; congruence.
  - rewrite <- (Hout _ eq_refl). apply remove_first_key; [done|]. intros i. unfold id_is.
    rewrite bool_decide_eq_true. item_cases i; cbn; split; congruence.
  - rewrite <- (Hout _ eq_refl). apply remove_first_key; [done|]. intros i. unfold id_is.
    rewrite bool_decide_eq_true. item_cases i; cbn; split; congruence.
Qed.

Lemma NoDup_omap_filter {A} (f : ResponseItem → option A) (P : ResponseItem → Prop)
    `{∀ i, Decision (P i)} (l : list ResponseItem) :
  NoDup (omap f l) → NoDup (omap f (filter P l)).
Proof.
  intros Hnd. eapply sublist_NoDup; [exact Hnd|]. clear Hnd.
  induction l as [|i l IH]; [done|]. rewrite filter_cons.
  change (i :: l) with ([i] ++ l). rewrite omap_app. case_decide.
  - change (i :: filter P l) with ([i] ++ filter P l). rewrite omap_app. by apply sublist_app.
  - by apply sublist_inserts_l.
Qed.

Lemma unique_cons x i l k (f : ResponseItem → option (CallKind * str)) :
  NoDup (omap f (x :: l)) → i ∈ l → f x = Some k → f i ≠ Some k.
Proof.
  intros Hnd [n Hn]%list_elem_of_lookup_1 Hx Hi.
  assert (0 = S n) as E by by eapply (omap_unique f (x :: l)).
  done.
Qed.

Lemma unique_keys_tail x l : unique_keys (x :: l) → unique_keys l.
Proof.
  intros [Hc Ho]. change (x :: l) with ([x] ++ l) in Hc, Ho. rewrite omap_app in Hc, Ho.
  by apply list.NoDup_app in Hc as (_ & _ & ?); apply list.NoDup_app in Ho as (_ & _ & ?).
Qed.

(** Removing the oldest item together with its partner keeps the history well paired. *)
Lemma remove_first_well_paired x l :
  unique_keys (x :: l) → well_paired (x :: l) →
  unique_keys (remove_corresponding_for l x) ∧ well_paired (remove_corresponding_for l x).
Proof.
  intros Hu [Ha Ho]. pose proof (unique_keys_tail x l Hu) as [Hlc Hlo].
  rewrite remove_corresponding_partner by done. destruct Hu as [Huc Huo].
  split; [split; by apply NoDup_omap_filter|].
  split; intros i k [Hp Hi]%list_elem_of_filter Hk.
  - assert (Hout : has_output (x :: l) k) by (eapply Ha; [apply elem_of_cons; by right|done]).
    apply list_elem_of_omap in Hout as (o & [->|Hol]%elem_of_cons & Hok).
    { destruct Hp. right. rewrite Hok, Hk. split; [by eexists|done]. }
    eapply has_output_intro; [|exact Hok]. apply list_elem_of_filter. split; [|done].
    intros [[[k' Hx] Heq]|[[k' Hx] Heq]].
    + rewrite Hx, Hok in Heq. simplify_eq. exact (unique_cons x i l _ _ Huc Hi Hx Hk).
    + apply output_is_no_call in Hok. congruence.
  - intros Hs. assert (Hcall : has_call (x :: l) k)
      by (eapply Ho; [apply elem_of_cons; by right|done|done]).
    apply list_elem_of_omap in Hcall as (c & [->|Hcl]%elem_of_cons & Hck).
    { destruct Hp. left. rewrite Hck, Hk. split; [by eexists|done]. }
    eapply has_call_intro; [|exact Hck]. apply list_elem_of_filter. split; [|done].
    intros [[[k' Hx] Heq]|[[k' Hx] Heq]].
    + assert (output_key c = Some k') as Hoc%output_is_no_call by congruence. congruence.
    + rewrite Hx, Hck in Heq. simplify_eq. exact (unique_cons x i l _ _ Huo Hi Hx Hk).
Qed.
End facts.

(** C5: a release build prepares a history for the model without failing.  In the
    result every call with a call id has an output, and every output with a call id that
    is not the server's own has a call; function calls, custom calls and their outputs
    always have one, local shell calls and tool searches may lack it and then stay
    unpaired.  Images and audio the model does not accept are gone.  The items are those
    of the history in their order, with each orphan dropped and each unanswered call
    directly followed by a synthetic output of its own kind and id; normalizing the
    result again changes nothing. *)
Theorem normalize_history_correct `{WireTypes} (new_v5 : str → str)
    (modalities : list InputModality) (items : list ResponseItem) :
  ∃ r, normalize_history new_v5 false modalities items = Some r
    ∧ r = map (strip_item modalities)
            (items ≫= λ i, if retained items i then i :: option_list (missing new_v5 items i) else [])
    ∧ (∀ i, retained items i = false ↔
         ∃ k, output_key i = Some k ∧ is_server_output i = false ∧ ¬ has_call items k)
    ∧ (∀ i, i ∈ items → is_Some (missing new_v5 items i) ↔
         ∃ k, call_key i = Some k ∧ ¬ has_output items k)
    ∧ (∀ i o, missing new_v5 items i = Some o → output_key o = call_key i)
    ∧ (∀ i, i ∈ items → call_key i = None → output_key i = None →
         retained items i = true ∧ missing new_v5 items i = None)
    ∧ well_paired r
    ∧ (MImage ∉ modalities → Forall no_image r) ∧ (MAudio ∉ modalities → Forall no_audio r)
    ∧ normalize_history new_v5 false modalities r = Some r.
Proof.
  eexists. split; [apply normalize_reference|]. split; [done|].
  assert (Hw : well_paired (map (strip_item modalities) (one_pass new_v5 items))).
  { apply well_paired_map; [apply strip_item_keys|apply one_pass_well_paired]. }
  split_and!.
  - apply retained_spec.
  - intros i Hi. pose proof (missing_spec new_v5 items i) as Hs.
    destruct (missing new_v5 items i) as [o|].
    + split; [|by eauto]. intros _. destruct Hs as (k & ? & ? & _). eauto.
    + split; [by intros [? [=]]|]. intros (k & Hk & Hn). by destruct (Hn (Hs k Hk)).
  - intros i o Hm. pose proof (missing_spec new_v5 items i) as Hs. rewrite Hm in Hs.
    destruct Hs as (k & -> & _ & -> & _). done.
  - intros i Hi Hc Ho. split.
    + apply not_false_iff_true. intros (k & Hk & _)%retained_spec. congruence.
    + pose proof (missing_spec new_v5 items i) as Hs. destruct (missing new_v5 items i); [|done].
      destruct Hs as (k & ? & _). congruence.
  - done.
  - intros Hm. apply Forall_map, Forall_true. intros i. by apply strip_item_media.
  - intros Hm. apply Forall_map, Forall_true. intros i. by apply strip_item_media.
  - rewrite normalize_reference. unfold one_pass at 1. rewrite pass_id by done.
    f_equal. apply map_map_id, strip_item_idempotent.
Qed.

(** The output of a tool search without a call id stays, although no call belongs to it. *)
Lemma output_without_id_kept `{WireTypes} (new_v5 : str → str) modalities :
  let o := ToolSearchOutput None None (lit "completed") (lit "client") [] None in
  normalize_history new_v5 false modalities [o] = Some [o].
Proof.
  cbn. unfold strip_audio_when_unsupported, strip_images_when_unsupported. by repeat case_bool_decide.
Qed.
