(* ===== verification/ContextHistory.v ===== *)
(** * The history of a thread: [core/src/context_manager/history.rs]

    The manager owns the items of a thread and the token accounting.  Recording
    truncates tool outputs, rollback cuts the last turns, the oldest item can be
    dropped with its partner, and sizes are estimated from bytes with saturating
    arithmetic.  Parameters stand for the serializer ([serde_json]), the image
    decoder, the audio estimate and the types that are only carried; the cache of
    image estimates returns what it computes and is left out.  [None] is a panic. *)

From Stdlib Require Import String ZArith Lia.
From stdpp Require Import base option list numbers.
From S2P Require Import Prelude StrBytes Truncate Models OutputTruncation ContextFragments.
From S2P Require Import ContextNormalize.

Section history.
Context `{WireTypes} {TurnContextItem WorldStateSnapshot : Type}.
Context (new_v5 : str → str) (debug_assertions : bool).
(** The length of [serde_json::to_string(item)], when it succeeds. *)
Context (json_len : ResponseItem → option Z).
(** Width and height of a base64 image payload, when it decodes. *)
Context (image_dimensions : str → option (Z * Z)).
Context (estimate_audio_token_count : str → Z).
(** Whether [serde_json::from_str] reads a text as an [InterAgentCommunication]. *)
Context (is_inter_agent_json : str → bool).

Record ContextManager : Type := mkManager {
  items : list ResponseItem;
  history_version : Z;
  token_info : option TokenUsageInfo;
  reference_context_item : option TurnContextItem;
  world_state_baseline : option WorldStateSnapshot;
}.

Definition set_items (cm : ContextManager) (l : list ResponseItem) : ContextManager :=
  mkManager l (history_version cm) (token_info cm) (reference_context_item cm)
    (world_state_baseline cm).

Definition set_token_info (cm : ContextManager) (info : option TokenUsageInfo) : ContextManager :=
  mkManager (items cm) (history_version cm) info (reference_context_item cm)
    (world_state_baseline cm).

Definition set_reference_context_item (cm : ContextManager) (item : option TurnContextItem)
    : ContextManager :=
  mkManager (items cm) (history_version cm) (token_info cm) item (world_state_baseline cm).

Definition set_world_state_baseline (cm : ContextManager) (s : WorldStateSnapshot) : ContextManager :=
  mkManager (items cm) (history_version cm) (token_info cm) (reference_context_item cm) (Some s).

Definition new_manager : option ContextManager :=
  info ← new_or_append None None None;
  Some (mkManager [] 0 info None None).

Definition set_token_usage_full (cm : ContextManager) (context_window : Z) : option ContextManager :=
  info ← match token_info cm with
         | Some info => fill_to_context_window info context_window
         | None => full_context_window context_window
         end;
  Some (set_token_info cm (Some info)).

Definition update_token_info (cm : ContextManager) (usage : TokenUsage) (window : option Z)
    : option ContextManager :=
  info ← new_or_append (token_info cm) (Some usage) window;
  Some (set_token_info cm info).

(** ** Recording *)

Definition is_api_message (message : ResponseItem) : bool :=
  match message with
  | Message _ role _ _ _ => negb (bool_decide (role = lit "system"))
  | CompactionTrigger | Other => false
  | _ => true
  end.

Definition truncate_function_output_payload (output : FunctionCallOutputPayload)
    (policy : TruncationPolicy) : option FunctionCallOutputPayload :=
  body ← match body output with
         | BodyText content => BodyText <$> truncate_text content policy
         | ContentItems items =>
             ContentItems <$> truncate_function_output_items_with_policy items policy
                                estimate_audio_token_count
         end;
  Some (mkPayload body (success output)).

Definition process_item (item : ResponseItem) (policy : TruncationPolicy) : option ResponseItem :=
  let policy_with_serialization_budget := policy_mul policy F64_1_2 in
  match item with
  | FunctionCallOutput id call_id output metadata =>
      output ← truncate_function_output_payload output policy_with_serialization_budget;
      Some (FunctionCallOutput id call_id output metadata)
  | CustomToolCallOutput id call_id name output metadata =>
      output ← truncate_function_output_payload output policy_with_serialization_budget;
      Some (CustomToolCallOutput id call_id name output metadata)
  | _ => Some item
  end.

Fixpoint record_items (cm : ContextManager) (new_items : list ResponseItem)
    (policy : TruncationPolicy) : option ContextManager :=
  match new_items with
  | [] => Some cm
  | item :: rest =>
      if negb (is_api_message item) then record_items cm rest policy
      else
        processed ← process_item item policy;
        record_items (set_items cm (items cm ++ [processed])) rest policy
  end.

Definition for_prompt (cm : ContextManager) (modalities : list InputModality)
    : option (list ResponseItem) :=
  normalize_history new_v5 debug_assertions modalities (items cm).

(** ** Rewriting *)

Definition U64_MAX : Z := (2 ^ 64 - 1)%Z.

Definition replace (cm : ContextManager) (l : list ResponseItem) : ContextManager :=
  mkManager l (Z.min (history_version cm + 1) U64_MAX) (token_info cm)
    (reference_context_item cm) None.

Definition remove_first_item (cm : ContextManager) : ContextManager :=
  match items cm with
  | [] => cm
  | removed :: rest =>
      mkManager (remove_corresponding_for rest removed) (history_version cm) (token_info cm)
        (reference_context_item cm) None
  end.

Definition is_inter_agent_instruction_content (content : list ContentItem.t) : bool :=
  match content with
  | [ContentItem.InputText text] | [ContentItem.OutputText text] => is_inter_agent_json text
  | _ => false
  end.

Definition is_user_turn_boundary (item : ResponseItem) : bool :=
  match item with
  | AgentMessage _ _ _ _ _ => true
  | Message _ role content _ _ =>
      (bool_decide (role = lit "user") && negb (is_contextual_user_message_content content))
      || (bool_decide (role = lit "assistant") && is_inter_agent_instruction_content content)
  | _ => false
  end.

Fixpoint positions_from (idx : nat) (l : list ResponseItem) : list nat :=
  match l with
  | [] => []
  | item :: l' =>
      if is_user_turn_boundary item then idx :: positions_from (S idx) l'
      else positions_from (S idx) l'
  end.

Definition user_message_positions (l : list ResponseItem) : list nat := positions_from 0 l.

(** A message that the rollback trims above the cut, and whether it is a mixed bundle. *)
Definition is_trimmed_dev (item : ResponseItem) : bool :=
  match item with
  | Message _ role content _ _ =>
      bool_decide (role = lit "developer") && is_contextual_dev_message_content content
  | _ => false
  end.
Definition is_mixed_dev (item : ResponseItem) : bool :=
  match item with
  | Message _ _ content _ _ => has_non_contextual_dev_message_content content
  | _ => false
  end.
Definition is_trimmed_user (item : ResponseItem) : bool :=
  match item with
  | Message _ role content _ _ =>
      bool_decide (role = lit "user") && is_contextual_user_message_content content
  | _ => false
  end.

(** The new cut, and whether the reference item is cleared; the recursion is on the
    cut, which every round lowers.  An index out of range is a panic. *)
Fixpoint trim_pre_turn_context_updates (snapshot : list ResponseItem)
    (first_instruction_turn_idx cut_idx : nat) : option (nat * bool) :=
  match cut_idx with
  | O => Some (0, false)
  | S below =>
      if first_instruction_turn_idx <? cut_idx then
        item ← snapshot !! below;
        if is_trimmed_dev item then
          '(cut, cleared) ← trim_pre_turn_context_updates snapshot first_instruction_turn_idx below;
          Some (cut, cleared || is_mixed_dev item)
        else if is_trimmed_user item then
          trim_pre_turn_context_updates snapshot first_instruction_turn_idx below
        else Some (cut_idx, false)
      else Some (cut_idx, false)
  end.

(** [u32] turns. *)
Definition drop_last_n_user_turns (cm : ContextManager) (num_turns : nat) : option ContextManager :=
  if num_turns =? 0 then Some cm
  else
    let snapshot := items cm in
    let user_positions := user_message_positions snapshot in
    match user_positions with
    | [] => Some (replace cm snapshot)
    | first_instruction_turn_idx :: _ =>
        cut_idx ← if length user_positions <=? num_turns then Some first_instruction_turn_idx
                  else user_positions !! (length user_positions - num_turns);
        '(cut_idx, cleared) ←
           trim_pre_turn_context_updates snapshot first_instruction_turn_idx cut_idx;
        let cm := if (cleared : bool) then set_reference_context_item cm None else cm in
        if cut_idx <=? length snapshot then Some (replace cm (take cut_idx snapshot)) else None
    end.

(** ** Size estimates *)
Local Open Scope Z_scope.

Definition estimate_reasoning_length (encoded_len : Z) : Z :=
  usat_sub (usat_mul encoded_len 3 / 4) 650.

(** [div_ceil(16)]. *)
Definition estimate_encrypted_function_output_length (encoded_len : Z) : Z :=
  (usat_mul encoded_len 9 + 15) / 16.

Definition RESIZED_IMAGE_BYTES_ESTIMATE : Z := 7373.
Definition ORIGINAL_IMAGE_PATCH_SIZE : Z := 32.
Definition ORIGINAL_IMAGE_MAX_PATCHES : Z := 10000.

(** [i64::try_from(n).unwrap_or(i64::MAX)] of a [usize]. *)
Definition to_i64 (n : Z) : Z := Z.min n I64_MAX.

Definition prefix_ignore_case (pre s : str) : bool :=
  match slice_to s (slen pre) with
  | Some candidate => eq_ignore_ascii_case candidate pre
  | None => false
  end.

(** Slices behind a found comma and behind a matched prefix are on boundaries; a panic
    would be the outer [None]. *)
Definition parse_base64_data_url (url media_type_prefix : str) : option (option str) :=
  if negb (prefix_ignore_case (lit "data:") url) then Some None
  else match split_once 44%N url with
       | None => Some None
       | Some (metadata, payload) =>
           metadata_without_scheme ← slice_from metadata (slen (lit "data:"));
           match split_char 59%N metadata_without_scheme with
           | [] => Some None
           | mime_type :: metadata_parts =>
               let has_base64_marker :=
                 existsb (λ part, eq_ignore_ascii_case part (lit "base64")) metadata_parts in
               if negb (prefix_ignore_case media_type_prefix mime_type) then Some None
               else if negb has_base64_marker then Some None
               else Some (Some payload)
           end
       end.

Definition parse_base64_image_data_url (url : str) : option (option str) :=
  parse_base64_data_url url (lit "image/").
Definition parse_base64_audio_data_url (url : str) : option (option str) :=
  parse_base64_data_url url (lit "audio/").

Definition estimate_original_image_bytes (image_url : str) : option (option Z) :=
  payload ← parse_base64_image_data_url image_url;
  Some (payload ← payload;
        '(width, height) ← image_dimensions payload;
        let patches_wide := (isat_add width (ORIGINAL_IMAGE_PATCH_SIZE - 1)) / ORIGINAL_IMAGE_PATCH_SIZE in
        let patches_high := (isat_add height (ORIGINAL_IMAGE_PATCH_SIZE - 1)) / ORIGINAL_IMAGE_PATCH_SIZE in
        let patch_count := clamp_i64 (patches_wide * patches_high) in
        let patch_count := if 0 <=? patch_count then patch_count else USIZE_MAX in
        let patch_count := Z.min patch_count ORIGINAL_IMAGE_MAX_PATCHES in
        Some (to_i64 (approx_bytes_for_tokens patch_count))).

(** The accumulator of an adjustment: payload bytes and replacement bytes. *)
Definition accumulate (acc : Z * Z) (payload_len replacement : Z) : Z * Z :=
  (isat_add acc.1 (to_i64 payload_len), isat_add acc.2 replacement).

Definition accumulate_image (acc : Z * Z) (image_url : str) (detail : option ImageDetail)
    : option (Z * Z) :=
  payload ← parse_base64_image_data_url image_url;
  match payload with
  | None => Some acc
  | Some payload =>
      replacement ← match detail with
                    | Some Original =>
                        e ← estimate_original_image_bytes image_url;
                        Some (default RESIZED_IMAGE_BYTES_ESTIMATE e)
                    | _ => Some RESIZED_IMAGE_BYTES_ESTIMATE
                    end;
      Some (accumulate acc (slen payload) replacement)
  end.

Definition accumulate_audio (acc : Z * Z) (audio_url : str) : option (Z * Z) :=
  payload ← parse_base64_audio_data_url audio_url;
  match payload with
  | None => Some acc
  | Some payload =>
      Some (accumulate acc (slen payload)
              (to_i64 (approx_bytes_for_tokens (estimate_audio_token_count audio_url))))
  end.

Definition accumulate_encrypted (acc : Z * Z) (encrypted_content : str) : Z * Z :=
  accumulate acc (slen encrypted_content)
    (to_i64 (estimate_encrypted_function_output_length (slen encrypted_content))).

(** A loop with a body that can panic. *)
Fixpoint fold_option {A B} (f : B → A → option B) (b : B) (l : list A) : option B :=
  match l with [] => Some b | x :: l' => b' ← f b x; fold_option f b' l' end.

Definition output_items (output : FunctionCallOutputPayload) : list OutputItem.t :=
  match body output with ContentItems l => l | BodyText _ => [] end.

Definition image_data_url_estimate_adjustment (item : ResponseItem) : option (Z * Z) :=
  match item with
  | Message _ _ content _ _ =>
      fold_option (λ acc c, match c with
                            | ContentItem.InputImage url detail => accumulate_image acc url detail
                            | _ => Some acc
                            end) (0, 0) content
  | FunctionCallOutput _ _ output _ | CustomToolCallOutput _ _ _ output _ =>
      fold_option (λ acc c, match c with
                            | OutputItem.InputImage url detail => accumulate_image acc url detail
                            | _ => Some acc
                            end) (0, 0) (output_items output)
  | _ => Some (0, 0)
  end.

Definition audio_data_url_estimate_adjustment (item : ResponseItem) : option (Z * Z) :=
  match item with
  | Message _ _ content _ _ =>
      fold_option (λ acc c, match c with
                            | ContentItem.InputAudio url => accumulate_audio acc url
                            | _ => Some acc
                            end) (0, 0) content
  | FunctionCallOutput _ _ output _ | CustomToolCallOutput _ _ _ output _ =>
      fold_option (λ acc c, match c with
                            | OutputItem.InputAudio url => accumulate_audio acc url
                            | _ => Some acc
                            end) (0, 0) (output_items output)
  | _ => Some (0, 0)
  end.

Definition encrypted_function_output_estimate_adjustment (item : ResponseItem) : Z * Z :=
  match item with
  | FunctionCallOutput _ _ output _ =>
      foldl (λ acc c, match c with
                      | OutputItem.EncryptedContent e => accumulate_encrypted acc e
                      | _ => acc
                      end) (0, 0) (output_items output)
  | AgentMessage _ _ _ content _ =>
      foldl (λ acc c, match c with
                      | AgentMessageInputContent.EncryptedContent e => accumulate_encrypted acc e
                      | _ => acc
                      end) (0, 0) content
  | _ => (0, 0)
  end.

Definition estimate_response_item_model_visible_bytes (item : ResponseItem) : option Z :=
  match item with
  | Reasoning _ _ _ (Some content) _ | Compaction _ content _
  | ContextCompaction _ (Some content) _ =>
      Some (to_i64 (estimate_reasoning_length (slen content)))
  | _ =>
      let raw := default 0 (to_i64 <$> json_len item) in
      '(image_payload, image_replacement) ← image_data_url_estimate_adjustment item;
      '(audio_payload, audio_replacement) ← audio_data_url_estimate_adjustment item;
      let '(encrypted_payload, encrypted_replacement) :=
        encrypted_function_output_estimate_adjustment item in
      let raw := isat_add (isat_sub (isat_add (isat_sub raw image_payload) image_replacement)
                             audio_payload) audio_replacement in
      Some (isat_add (isat_sub raw encrypted_payload) encrypted_replacement)
  end.

Definition estimate_item_token_count (item : ResponseItem) : option Z :=
  approx_tokens_from_byte_count_i64 <$> estimate_response_item_model_visible_bytes item.

(** [.map(estimate_item_token_count).fold(0, saturating_add)]. *)
Definition sum_estimates (l : list ResponseItem) : option Z :=
  fold_option (λ acc item, n ← estimate_item_token_count item; Some (isat_add acc n)) 0 l.

Definition estimate_token_count_with_base_instructions (cm : ContextManager) (base : str) : option Z :=
  let base_tokens := to_i64 (approx_token_count base) in
  items_tokens ← sum_estimates (items cm);
  Some (isat_add base_tokens items_tokens).

Definition is_model_generated_item (item : ResponseItem) : bool :=
  match item with
  | Message _ role _ _ _ => bool_decide (role = lit "assistant")
  | Reasoning _ _ _ _ _ | FunctionCall _ _ _ _ _ _ _ | ToolSearchCall _ _ _ _ _ _
  | WebSearchCall _ _ _ _ | ImageGenerationCall _ _ _ _ _ | CustomToolCall _ _ _ _ _ _ _
  | LocalShellCall _ _ _ _ _ | Compaction _ _ _ | ContextCompaction _ _ _ => true
  | _ => false
  end.

(** [iter().rposition(p)]. *)
Fixpoint rposition (p : ResponseItem → bool) (l : list ResponseItem) : option nat :=
  match l with
  | [] => None
  | x :: l' => match rposition p l' with
               | Some i => Some (S i)
               | None => if p x then Some 0%nat else None
               end
  end.

Definition items_after_last_model_generated_item (cm : ContextManager) : list ResponseItem :=
  let start := match rposition is_model_generated_item (items cm) with
               | Some index => S index
               | None => length (items cm)
               end in
  drop start (items cm).

Definition is_encrypted_reasoning (item : ResponseItem) : bool :=
  match item with Reasoning _ _ _ (Some _) _ => true | _ => false end.

Definition get_non_last_reasoning_items_tokens (cm : ContextManager) : option Z :=
  match rposition is_user_turn_boundary (items cm) with
  | None => Some 0
  | Some last_user_index =>
      sum_estimates (List.filter is_encrypted_reasoning (take last_user_index (items cm)))
  end.

Definition get_total_token_usage (cm : ContextManager) (server_reasoning_included : bool) : option Z :=
  let last_tokens := match token_info cm with
                     | Some info => total_tokens (last_token_usage info)
                     | None => 0
                     end in
  after ← sum_estimates (items_after_last_model_generated_item cm);
  if server_reasoning_included then Some (isat_add last_tokens after)
  else
    reasoning ← get_non_last_reasoning_items_tokens cm;
    Some (isat_add (isat_add last_tokens reasoning) after).

Definition estimated_tokens_after_last_model_generated_item (cm : ContextManager) : option Z :=
  sum_estimates (items_after_last_model_generated_item cm).
End history.
