(* ===== verification/ContextHistoryFacts.v ===== *)
(** * What the history promises

    Size estimates never panic or overflow: they are the sum of the items' estimates,
    capped.  Rollback keeps a prefix and drops whole turns; dropping the oldest item
    keeps calls and outputs paired; recorded outputs fit their budget. *)

From Stdlib Require Import String ZArith Lia.
From stdpp Require Import base option list numbers sets.
From S2P Require Import Prelude StrBytes Truncate Models OutputTruncation ContextFragments.
From S2P Require Import ContextNormalize ContextNormalizeFacts ContextHistory.

Local Open Scope Z_scope.

Section estimates.
Context `{WireTypes} {TurnContextItem WorldStateSnapshot : Type}.
Context (json_len : ResponseItem → option Z).
Context (image_dimensions : str → option (Z * Z)).
Context (estimate_audio_token_count : str → Z).
Context (is_inter_agent_json : str → bool).

Abbreviation manager := (@ContextManager _ TurnContextItem WorldStateSnapshot) (only parsing).

(** ** Data URLs *)

Lemma split_once_skip sep p t :
  Forall (λ c, c ≠ sep) p →
  split_once sep (p ++ t) = (λ ab, (p ++ ab.1, ab.2)) <$> split_once sep t.
Proof.
  induction 1 as [|c p Hc Hp IH]; cbn [app split_once].
  - by destruct (split_once sep t) as [[a b]|].
  - rewrite (proj2 (N.eqb_neq c sep) Hc), IH. by destruct (split_once sep t) as [[a b]|].
Qed.

Lemma prefix_ignore_case_Some pre s :
  prefix_ignore_case pre s = true →
  ∃ cand t, s = cand ++ t ∧ slen cand = slen pre ∧ to_ascii_lowercase cand = to_ascii_lowercase pre.
Proof.
  unfold prefix_ignore_case. destruct (slice_to s (slen pre)) as [cand|] eqn:E; [|done].
  apply slice_to_Some in E as (t & -> & Hl). intros Hc%bool_decide_eq_true. eauto.
Qed.

(** The slices of [parse_base64_data_url] are on character boundaries. *)
Lemma parse_base64_data_url_total url media : is_Some (parse_base64_data_url url media).
Proof.
  unfold parse_base64_data_url. destruct (prefix_ignore_case _ url) eqn:E; cbn [negb]; [|by eauto].
  apply prefix_ignore_case_Some in E as (cand & t & -> & Hlen & Hlow).
  assert (Hno : Forall (λ c, c ≠ 44%N) cand).
  { apply list.Forall_forall. intros c Hc ->.
    assert (Hin : 44%N ∈ to_ascii_lowercase cand).
    { apply list_elem_of_fmap. by exists 44%N. }
    rewrite Hlow in Hin. revert Hin. apply (bool_decide_unpack _). by vm_compute. }
  rewrite split_once_skip by done. destruct (split_once 44%N t) as [[a b]|]; [|by cbn; eauto].
  cbn [fmap option_fmap option_map fst snd]. rewrite <- Hlen, slice_from_app.
  cbn [mbind option_bind]. repeat case_match; eauto.
Qed.

Lemma fold_option_total {A B} (f : B → A → option B) l b :
  (∀ b x, is_Some (f b x)) → is_Some (fold_option f b l).
Proof.
  intros Hf. revert b. induction l as [|x l IH]; intros b; [by eexists|].
  cbn [fold_option]. destruct (Hf b x) as [b' ->]. apply IH.
Qed.

Lemma accumulate_image_total acc url detail :
  is_Some (accumulate_image image_dimensions acc url detail).
Proof.
  unfold accumulate_image, parse_base64_image_data_url.
  destruct (parse_base64_data_url_total url (lit "image/")) as [p Hp]. rewrite Hp.
  cbn [mbind option_bind]. destruct p as [payload|]; [|by eauto].
  unfold estimate_original_image_bytes, parse_base64_image_data_url. rewrite Hp.
  cbn [mbind option_bind]. destruct detail as [[]|]; cbn [mbind option_bind]; eauto.
Qed.

Lemma accumulate_audio_total acc url :
  is_Some (accumulate_audio estimate_audio_token_count acc url).
Proof.
  unfold accumulate_audio, parse_base64_audio_data_url.
  destruct (parse_base64_data_url_total url (lit "audio/")) as [[p|] ->]; cbn; eauto.
Qed.

Lemma model_visible_bytes_total item :
  is_Some (estimate_response_item_model_visible_bytes json_len image_dimensions
             estimate_audio_token_count item).
Proof.
  assert (Hi : is_Some (image_data_url_estimate_adjustment image_dimensions item)).
  { destruct item; cbn; eauto; apply fold_option_total; intros b [];
      eauto using accumulate_image_total. }
  assert (Ha : is_Some (audio_data_url_estimate_adjustment estimate_audio_token_count item)).
  { destruct item; cbn; eauto; apply fold_option_total; intros b [];
      eauto using accumulate_audio_total. }
  destruct Hi as [[ip ir] Hi], Ha as [[ap ar] Ha].
  unfold estimate_response_item_model_visible_bytes. rewrite Hi, Ha. cbn [mbind option_bind].
  destruct (encrypted_function_output_estimate_adjustment item). repeat case_match; eauto.
Qed.

(** ** Sums *)

Abbreviation est_item := (estimate_item_token_count json_len image_dimensions estimate_audio_token_count).
Abbreviation est_sum := (sum_estimates json_len image_dimensions estimate_audio_token_count).

Definition item_tokens (i : ResponseItem) : Z := default 0 (est_item i).

Fixpoint total_tokens_of (l : list ResponseItem) : Z :=
  match l with [] => 0 | i :: l' => item_tokens i + total_tokens_of l' end.

Lemma tokens_i64_bounds n : 0 ≤ approx_tokens_from_byte_count_i64 n ≤ I64_MAX.
Proof.
  unfold approx_tokens_from_byte_count_i64. destruct (Z.leb_spec n 0); [done|].
  assert (0 ≤ approx_tokens_from_byte_count n).
  { unfold approx_tokens_from_byte_count, usat_add, usat_sub, APPROX_BYTES_PER_TOKEN, USIZE_MAX.
    apply Z.div_pos; lia. }
  unfold I64_MAX. lia.
Qed.

Lemma estimate_item_total i : est_item i = Some (item_tokens i) ∧ 0 ≤ item_tokens i ≤ I64_MAX.
Proof.
  unfold item_tokens, estimate_item_token_count.
  destruct (model_visible_bytes_total i) as [n ->]. cbn.
  split; [done|apply tokens_i64_bounds].
Qed.

Lemma total_tokens_nonneg l : 0 ≤ total_tokens_of l.
Proof.
  induction l as [|i l IH]; cbn; [done|]. pose proof (estimate_item_total i). lia.
Qed.

Lemma sum_estimates_from l acc :
  0 ≤ acc ≤ I64_MAX →
  fold_option (λ acc item, n ← est_item item; Some (isat_add acc n)) acc l
  = Some (Z.min (acc + total_tokens_of l) I64_MAX).
Proof.
  revert acc. induction l as [|i l IH]; intros acc Hacc; cbn [fold_option total_tokens_of].
  - f_equal. lia.
  - destruct (estimate_item_total i) as [-> Hi]. cbn [mbind option_bind].
    pose proof (total_tokens_nonneg l). rewrite IH; unfold isat_add, clamp_i64, I64_MIN, I64_MAX in *.
    + f_equal. lia.
    + lia.
Qed.

Lemma sum_estimates_capped l : est_sum l = Some (Z.min (total_tokens_of l) I64_MAX).
Proof. apply (sum_estimates_from l 0). done. Qed.

Lemma total_tokens_app l l' : total_tokens_of (l ++ l') = total_tokens_of l + total_tokens_of l'.
Proof. induction l as [|i l IH]; cbn; lia. Qed.

Lemma total_tokens_suffix l n : total_tokens_of (drop n l) ≤ total_tokens_of l.
Proof.
  rewrite <- (take_drop n l) at 2. rewrite total_tokens_app.
  pose proof (total_tokens_nonneg (take n l)). lia.
Qed.

(** ** The last match *)

Lemma rposition_Some p (l : list ResponseItem) i :
  rposition p l = Some i →
  ∃ pre x suf, l = pre ++ x :: suf ∧ length pre = i ∧ p x = true
               ∧ Forall (λ y, p y = false) suf.
Proof.
  revert i. induction l as [|y l IH]; intros i; cbn [rposition]; [done|].
  destruct (rposition p l) as [j|] eqn:E.
  - intros [= <-]. destruct (IH j eq_refl) as (pre & x & suf & -> & Hl & Hx & Hs).
    exists (y :: pre), x, suf. cbn. auto.
  - destruct (p y) eqn:Hy; [|done]. intros [= <-]. exists [], y, l. split_and!; try done.
    clear IH Hy. induction l as [|z l IHl]; [done|]. cbn [rposition] in E.
    destruct (rposition p l); [done|]. destruct (p z) eqn:Hz; [done|]. auto.
Qed.

Lemma rposition_None p (l : list ResponseItem) :
  rposition p l = None → Forall (λ y, p y = false) l.
Proof.
  induction l as [|y l IH]; cbn [rposition]; [done|]. destruct (rposition p l); [done|].
  destruct (p y) eqn:Hy; [done|]. auto.
Qed.

(** The items after the last one that the model generated, none if there is no such. *)
Lemma items_after_spec (cm : manager) :
  (Forall (λ i, is_model_generated_item i = false) (items cm)
     ∧ items_after_last_model_generated_item cm = [])
  ∨ ∃ before x, items cm = before ++ x :: items_after_last_model_generated_item cm
      ∧ is_model_generated_item x = true
      ∧ Forall (λ i, is_model_generated_item i = false) (items_after_last_model_generated_item cm).
Proof.
  unfold items_after_last_model_generated_item.
  destruct (rposition is_model_generated_item (items cm)) as [i|] eqn:E.
  - right. apply rposition_Some in E as (pre & x & suf & Heq & <- & Hx & Hs). exists pre, x.
    rewrite Heq. replace (S (length pre)) with (length (pre ++ [x])) by (rewrite length_app; cbn; lia).
    change (x :: suf) with ([x] ++ suf). rewrite app_assoc, drop_app_length.
    rewrite <- app_assoc. auto.
  - left. split; [by apply rposition_None|]. by rewrite drop_all.
Qed.

Definition last_tokens (cm : manager) : Z :=
  match token_info cm with Some info => total_tokens (last_token_usage info) | None => 0 end.

(** The encrypted reasoning items before the last turn boundary. *)
Definition earlier_reasoning (cm : manager) : list ResponseItem :=
  match rposition (is_user_turn_boundary is_inter_agent_json) (items cm) with
  | None => []
  | Some last_user_index => List.filter is_encrypted_reasoning (take last_user_index (items cm))
  end.

Lemma isat_add_cap a b : 0 ≤ a → 0 ≤ b → isat_add a b = Z.min (a + b) I64_MAX.
Proof. unfold isat_add, clamp_i64, I64_MIN, I64_MAX. lia. Qed.

Lemma non_last_reasoning_capped (cm : manager) :
  get_non_last_reasoning_items_tokens json_len image_dimensions estimate_audio_token_count
    is_inter_agent_json cm = Some (Z.min (total_tokens_of (earlier_reasoning cm)) I64_MAX).
Proof.
  unfold get_non_last_reasoning_items_tokens, earlier_reasoning.
  destruct (rposition _ _); [apply sum_estimates_capped|done].
Qed.
End estimates.

(** The size estimates of a history cannot fail or overflow.  The estimate of the
    whole history is the sum of the estimates of its items and of the base
    instructions, capped at the largest [i64]; the usage is the count of the last
    response plus the items recorded after the last one that the model generated and,
    unless the server counts them, the encrypted reasoning items before the last
    turn. *)
Theorem token_usage_capped `{WireTypes} {T S : Type} json_len image_dimensions est_audio inter_agent
    (cm : @ContextManager _ T S) (base : str) :
  0 ≤ last_tokens cm →
  let total := total_tokens_of json_len image_dimensions est_audio in
  let after := items_after_last_model_generated_item cm in
  let reasoning := earlier_reasoning inter_agent cm in
  estimate_token_count_with_base_instructions json_len image_dimensions est_audio cm base
    = Some (Z.min (approx_token_count base + total (items cm)) I64_MAX)
  ∧ get_total_token_usage json_len image_dimensions est_audio inter_agent cm true
    = Some (Z.min (last_tokens cm + total after) I64_MAX)
  ∧ get_total_token_usage json_len image_dimensions est_audio inter_agent cm false
    = Some (Z.min (last_tokens cm + total reasoning + total after) I64_MAX)
  ∧ (∃ before, items cm = before ++ after
       ∧ (after ≠ [] → ∃ before' x, before = before' ++ [x] ∧ is_model_generated_item x = true))
  ∧ Forall (λ i, is_model_generated_item i = false) after
  ∧ (∀ i, 0 ≤ item_tokens json_len image_dimensions est_audio i ≤ I64_MAX).
Proof.
  intros Hl total after reasoning. subst total after reasoning.
  set (total := total_tokens_of json_len image_dimensions est_audio).
  assert (Ht : ∀ l, 0 ≤ total l) by (intros; apply total_tokens_nonneg).
  assert (Hbase : 0 ≤ approx_token_count base ≤ I64_MAX).
  { unfold approx_token_count, usat_add, usat_sub, APPROX_BYTES_PER_TOKEN, USIZE_MAX, I64_MAX.
    pose proof (slen_nonneg base). split; [apply Z.div_pos; lia|apply Z.div_le_upper_bound; lia]. }
  assert (Hcap : ∀ n m, 0 ≤ n → 0 ≤ m → isat_add n (Z.min m I64_MAX) = Z.min (n + m) I64_MAX).
  { intros n m Hn Hm. rewrite isat_add_cap; unfold I64_MAX; lia. }
  split_and!.
  - unfold estimate_token_count_with_base_instructions. rewrite sum_estimates_capped. fold total.
    cbn [mbind option_bind]. unfold to_i64. rewrite Z.min_l by lia. rewrite Hcap; [done|lia|apply Ht].
  - unfold get_total_token_usage. rewrite sum_estimates_capped. fold total. cbn [mbind option_bind].
    fold (last_tokens cm). rewrite Hcap; [done|lia|apply Ht].
  - unfold get_total_token_usage. rewrite sum_estimates_capped. fold total. cbn [mbind option_bind].
    rewrite non_last_reasoning_capped. fold total. cbn [mbind option_bind].
    fold (last_tokens cm). rewrite (Hcap (last_tokens cm)); [|lia|apply Ht]. f_equal.
    pose proof (Ht (earlier_reasoning inter_agent cm)).
    pose proof (Ht (items_after_last_model_generated_item cm)).
    rewrite Hcap by (unfold I64_MAX in *; lia). lia.
  - destruct (items_after_spec cm) as [[_ Hn]|(before & x & Heq & Hx & _)].
    + exists (items cm). rewrite Hn, app_nil_r. done.
    + exists (before ++ [x]). rewrite <- app_assoc. eauto.
  - destruct (items_after_spec cm) as [[_ Hn]|(before & x & Heq & Hx & Hf)]; [by rewrite Hn|done].
  - intros i. apply estimate_item_total.
Qed.

(** A small history: a user message answered by the model and a tool call. *)
#[global] Instance TextWire : WireTypes := {| Value := str; ExecutedToolCall := str |}.

Definition user_says (t : string) : ResponseItem :=
  Message None (lit "user") [ContentItem.InputText (lit t)] None None.
Definition model_says (t : string) : ResponseItem :=
  Message None (lit "assistant") [ContentItem.OutputText (lit t)] None None.
Definition model_calls (id : string) : ResponseItem :=
  FunctionCall None (lit "shell") None (lit "{}") None (lit id) None.
Definition call_returns (id t : string) : ResponseItem :=
  FunctionCallOutput None (lit id) (from_text (lit t)) None.

Definition sample_history : @ContextManager _ unit unit :=
  mkManager [user_says "one"; model_calls "a"; call_returns "a" "done"; user_says "two";
             model_says "ok"] 0 None (Some tt) (Some tt).

Lemma token_usage_capped_witness :
  0 ≤ last_tokens sample_history
  ∧ get_total_token_usage (λ _, Some 40) (λ _, None) (λ _, 0) (λ _, false) sample_history true
    = Some (Z.min (last_tokens sample_history
                   + total_tokens_of (λ _, Some 40) (λ _, None) (λ _, 0)
                       (items_after_last_model_generated_item sample_history)) I64_MAX).
Proof.
  split; [done|].
  apply (token_usage_capped (λ _, Some 40) (λ _, None) (λ _, 0) (λ _, false) sample_history []).
  done.
Defined.

(** ** Rollback *)
Local Close Scope Z_scope.

Section rollback.
Context `{WireTypes} {TurnContextItem WorldStateSnapshot : Type}.
Context (inter_agent : str → bool).

Abbreviation manager := (@ContextManager _ TurnContextItem WorldStateSnapshot) (only parsing).
Abbreviation boundary := (is_user_turn_boundary inter_agent).

(** The number of turns of a history. *)
Definition turns (l : list ResponseItem) : nat := length (List.filter boundary l).

(** Context that a rollback trims together with the turn it belongs to. *)
Definition is_trimmed (i : ResponseItem) : bool := is_trimmed_dev i || is_trimmed_user i.
Definition clears_reference (i : ResponseItem) : bool := is_trimmed_dev i && is_mixed_dev i.

Lemma turns_app l l' : turns (l ++ l') = turns l + turns l'.
Proof. unfold turns. by rewrite List.filter_app, length_app. Qed.

Lemma trimmed_not_boundary i : is_trimmed i = true → boundary i = false.
Proof.
  unfold is_trimmed. destruct i as [|id role content phase m| | | | | | | | | | | | | | |]; try done.
  cbn. intros [[->%bool_decide_eq_true Hc]%andb_true_iff|[->%bool_decide_eq_true Hc]%andb_true_iff]%orb_true_iff.
  - done.
  - by rewrite Hc.
Qed.

Lemma turns_trimmed ctx : Forall (λ i, is_trimmed i = true) ctx → turns ctx = 0.
Proof.
  unfold turns. induction 1 as [|i ctx Hi Hc IH]; [done|]. cbn [List.filter].
  by rewrite trimmed_not_boundary.
Qed.

Lemma positions_length k l : length (positions_from inter_agent k l) = turns l.
Proof.
  unfold turns. revert k. induction l as [|i l IH]; intros k; [done|].
  cbn [positions_from List.filter]. destruct (boundary i); cbn [length]; auto.
Qed.

Lemma positions_lookup k l j p :
  positions_from inter_agent k l !! j = Some p →
  ∃ pre x suf, l = pre ++ x :: suf ∧ p = k + length pre ∧ boundary x = true ∧ turns pre = j.
Proof.
  revert k j. induction l as [|i l IH]; intros k j; cbn [positions_from]; [done|].
  destruct (boundary i) eqn:Hb; [destruct j as [|j]; cbn [lookup list_lookup]|].
  - intros [= <-]. exists [], i, l. split_and!; [done|cbn; lia|done|done].
  - intros (pre & x & suf & -> & -> & Hx & Ht)%IH. exists (i :: pre), x, suf.
    split_and!; try done; [cbn; lia|]. unfold turns in *. cbn [List.filter]. rewrite Hb. cbn. lia.
  - intros (pre & x & suf & -> & -> & Hx & Ht)%IH. exists (i :: pre), x, suf.
    split_and!; try done; [cbn; lia|]. unfold turns in *. cbn [List.filter]. by rewrite Hb.
Qed.

Lemma take_S_snoc (l : list ResponseItem) n x :
  l !! n = Some x → take (S n) l = take n l ++ [x].
Proof. apply take_S_r. Qed.

(** The walk above the cut: it stops at the first item that is not trimmed context, or
    at the first turn, and reports whether a mixed bundle was trimmed. *)
Lemma trim_spec snapshot first cut :
  cut ≤ length snapshot →
  ∃ cut' ctx, trim_pre_turn_context_updates snapshot first cut
                = Some (cut', existsb clears_reference ctx)
    ∧ cut' ≤ cut ∧ (first ≤ cut → first ≤ cut')
    ∧ take cut snapshot = take cut' snapshot ++ ctx
    ∧ Forall (λ i, is_trimmed i = true) ctx
    ∧ (first < cut' → ∃ y, snapshot !! (cut' - 1) = Some y ∧ is_trimmed y = false).
Proof.
  induction cut as [|below IH]; intros Hle; cbn [trim_pre_turn_context_updates].
  { exists 0, []. split_and!; try done; lia. }
  assert (Hstop : ∀ b, b = false → (first < S below → ∃ y, snapshot !! below = Some y ∧ is_trimmed y = false) →
    ∃ cut' ctx, Some (S below, b) = Some (cut', existsb clears_reference ctx)
      ∧ cut' ≤ S below ∧ (first ≤ S below → first ≤ cut')
      ∧ take (S below) snapshot = take cut' snapshot ++ ctx
      ∧ Forall (λ i, is_trimmed i = true) ctx
      ∧ (first < cut' → ∃ y, snapshot !! (cut' - 1) = Some y ∧ is_trimmed y = false)).
  { intros b -> Hy. exists (S below), []. rewrite app_nil_r. split_and!; try done.
    intros Hlt. replace (S below - 1) with below by lia. auto. }
  destruct (Nat.ltb_spec first (S below)) as [Hlt|Hge]; [|apply Hstop; [done|lia]].
  destruct (lookup_lt_is_Some_2 snapshot below) as [x Hx]; [lia|]. rewrite Hx.
  cbn [mbind option_bind]. destruct IH as (cut' & ctx & Htr & Hc & Hf & Htake & Hctx & Hy); [lia|].
  assert (Hnext : is_trimmed x = true → ∀ cl, cl = existsb clears_reference (ctx ++ [x]) →
    ∃ cut'' ctx', Some (cut', cl) = Some (cut'', existsb clears_reference ctx')
      ∧ cut'' ≤ S below ∧ (first ≤ S below → first ≤ cut'')
      ∧ take (S below) snapshot = take cut'' snapshot ++ ctx'
      ∧ Forall (λ i, is_trimmed i = true) ctx'
      ∧ (first < cut'' → ∃ y, snapshot !! (cut'' - 1) = Some y ∧ is_trimmed y = false)).
  { intros Ht cl ->. exists cut', (ctx ++ [x]). split_and!; [done|lia|lia| |by apply Forall_snoc|done].
    rewrite (take_S_snoc snapshot below x Hx), Htake. by rewrite app_assoc. }
  rewrite existsb_app in Hnext. cbn [existsb] in Hnext. unfold clears_reference at 2 in Hnext.
  unfold is_trimmed at 1 in Hnext. rewrite Htr. cbn [mbind option_bind].
  destruct (is_trimmed_dev x) eqn:Ed; [by apply Hnext; [|rewrite orb_false_r]|].
  destruct (is_trimmed_user x) eqn:Eu; [by apply Hnext; [|rewrite !orb_false_r]|].
  apply Hstop; [done|]. intros _. exists x. unfold is_trimmed. by rewrite Ed, Eu.
Qed.

Lemma user_positions_cut (l : list ResponseItem) n :
  user_message_positions inter_agent l ≠ [] → 0 < n →
  ∃ first ps cut pre x suf,
    user_message_positions inter_agent l = first :: ps
    ∧ (if length (first :: ps) <=? n then Some first else (first :: ps) !! (length (first :: ps) - n))
      = Some cut
    ∧ l = pre ++ x :: suf ∧ cut = length pre ∧ boundary x = true ∧ turns pre = turns l - n
    ∧ first ≤ cut ∧ turns (take first l) = 0
    ∧ ∀ session rest, l = session ++ rest → turns session = 0 → length session ≤ first.
Proof.
  intros Hne Hn. destruct (user_message_positions inter_agent l) as [|first ps] eqn:E; [done|].
  pose proof (positions_length 0 l) as Hlen. fold (user_message_positions inter_agent l) in Hlen.
  rewrite E in Hlen.
  assert (Hj : ∃ cut, (first :: ps) !! (turns l - n) = Some cut
    ∧ (if length (first :: ps) <=? n then Some first
       else (first :: ps) !! (length (first :: ps) - n)) = Some cut).
  { rewrite Hlen. destruct (Nat.leb_spec (turns l) n) as [Hle|Hlt].
    - exists first. by replace (turns l - n) with 0 by lia.
    - destruct (lookup_lt_is_Some_2 (first :: ps) (turns l - n)) as [cut Hcut]; [lia|]. eauto. }
  destruct Hj as (cut & Hcut & Hif). rewrite <- E in Hcut.
  destruct (positions_lookup 0 l _ _ Hcut) as (pre & x & suf & Hl & Hp & Hx & Ht).
  assert (H0 : user_message_positions inter_agent l !! 0 = Some first) by by rewrite E.
  destruct (positions_lookup 0 l _ _ H0) as (pre0 & x0 & suf0 & Hl0 & Hp0 & Hx0 & Ht0).
  exists first, ps, cut, pre, x, suf. cbn in Hp, Hp0.
  split_and!; [done..| | |].
  - subst first cut. destruct (Nat.le_gt_cases (length pre0) (length pre)) as [|Hgt]; [done|].
    exfalso. assert (Hpre : take (length pre0) l = pre0) by by rewrite Hl0, take_app_length.
    rewrite Hl in Hpre. rewrite take_app_ge in Hpre by lia.
    replace (length pre0 - length pre) with (S (length pre0 - length pre - 1)) in Hpre by lia.
    cbn [take] in Hpre. rewrite <- Hpre, turns_app in Ht0. unfold turns in Ht0 at 2.
    cbn [List.filter] in Ht0. rewrite Hx in Ht0. cbn [length] in Ht0. lia.
  - subst first. by rewrite Hl0, take_app_length.
  - intros session rest Hs Hs0. apply Nat.nlt_ge. intros Hlt.
    assert (Hin : session !! first = Some x0).
    { rewrite <- (lookup_app_l session rest) by done. rewrite <- Hs, Hl0, Hp0.
      by apply list_lookup_middle. }
    apply list_elem_of_lookup_2, list_elem_of_split in Hin as (s1 & s2 & ->).
    rewrite turns_app in Hs0. unfold turns in Hs0 at 2. cbn [List.filter] in Hs0.
    rewrite Hx0 in Hs0. cbn [length] in Hs0. lia.
Qed.

(** With no turn to drop, the history is only marked as rewritten. *)
Lemma drop_without_turns (cm : manager) n :
  0 < n → user_message_positions inter_agent (items cm) = [] →
  drop_last_n_user_turns inter_agent cm n = Some (replace cm (items cm)).
Proof.
  intros Hn E. unfold drop_last_n_user_turns.
  rewrite (proj2 (Nat.eqb_neq n 0)) by lia. by rewrite E.
Qed.

Lemma drop_zero_turns (cm : manager) : drop_last_n_user_turns inter_agent cm 0 = Some cm.
Proof. done. Qed.
End rollback.

(** Rolling back [n] turns never fails.  The kept history is a prefix with exactly
    [n] turns fewer (none if there are not as many); it contains everything before the
    first turn; what is cut begins with context messages, then the first dropped turn;
    no further context message is left at the end unless the first turn is reached.
    The version is bumped, the world state baseline is cleared, and the reference
    context is cleared exactly when a mixed developer bundle is cut. *)
Theorem drop_last_n_user_turns_correct `{WireTypes} {T S : Type} (inter_agent : str → bool)
    (cm : @ContextManager _ T S) (n : nat) :
  0 < n → user_message_positions inter_agent (items cm) ≠ [] →
  ∃ kept ctx x dropped,
    items cm = kept ++ ctx ++ x :: dropped
    ∧ drop_last_n_user_turns inter_agent cm n
      = Some (replace (if existsb clears_reference ctx then set_reference_context_item cm None
                       else cm) kept)
    ∧ turns inter_agent kept = turns inter_agent (items cm) - n
    ∧ is_user_turn_boundary inter_agent x = true
    ∧ Forall (λ i, is_trimmed i = true) ctx
    ∧ (∀ session rest, items cm = session ++ rest → turns inter_agent session = 0 →
         session `prefix_of` kept)
    ∧ (∀ y, last kept = Some y → is_trimmed y = true → turns inter_agent kept = 0).
Proof.
  intros Hn Hne.
  destruct (user_positions_cut inter_agent (items cm) n Hne Hn)
    as (first & ps & cut & pre & x & suf & Hps & Hcut & Hl & -> & Hx & Ht & Hf & H0 & Hses).
  destruct (trim_spec (items cm) first (length pre)) as (cut' & ctx & Htr & Hc & Hfc & Htake & Hctx & Hy).
  { rewrite Hl, length_app. lia. }
  assert (Hpre : take (length pre) (items cm) = pre) by by rewrite Hl, take_app_length.
  rewrite Hpre in Htake. set (kept := take cut' (items cm)) in *.
  assert (Hturns : turns inter_agent kept = turns inter_agent (items cm) - n).
  { rewrite <- Ht, Htake, turns_app, (turns_trimmed _ ctx Hctx). lia. }
  assert (Hkl : length kept = cut').
  { unfold kept. rewrite length_take. rewrite Hl, length_app in *. lia. }
  exists kept, ctx, x, suf. split_and!; [|..|done|done|done| |].
  - rewrite app_assoc, <- Htake. done.
  - unfold drop_last_n_user_turns. rewrite (proj2 (Nat.eqb_neq n 0)) by lia.
    rewrite Hps, Hcut. cbn [mbind option_bind]. rewrite Htr. cbn [mbind option_bind].
    rewrite (proj2 (Nat.leb_le _ _)) by (rewrite Hl, length_app; lia).
    by destruct (existsb clears_reference ctx).
  - intros session rest Hs Hs0. pose proof (Hses session rest Hs Hs0).
    exists (take (cut' - length session) rest). unfold kept. rewrite Hs.
    apply take_app_ge. lia.
  - intros y Hlast Hyt. destruct (Nat.lt_ge_cases first cut') as [Hlt|Hge].
    + destruct (Hy Hlt) as (y' & Hy' & Hf'). rewrite last_lookup, Hkl in Hlast.
      unfold kept in Hlast. rewrite lookup_take_lt in Hlast by lia.
      replace (pred cut') with (cut' - 1) in Hlast by lia. congruence.
    + assert (cut' = first) by lia. subst first. unfold kept. done.
Qed.

Lemma drop_last_n_user_turns_correct_witness :
  drop_last_n_user_turns (λ _, false) sample_history 1
  = Some (mkManager [user_says "one"; model_calls "a"; call_returns "a" "done"] 1 None (Some tt) None)
  ∧ ∃ kept ctx x dropped, items sample_history = kept ++ ctx ++ x :: dropped
      ∧ turns (λ _, false) kept = 1.
Proof.
  split; [vm_compute; reflexivity|].
  destruct (drop_last_n_user_turns_correct (λ _, false) sample_history 1)
    as (kept & ctx & x & dropped & Heq & _ & Ht & _); [lia|by vm_compute|].
  exists kept, ctx, x, dropped. split; [exact Heq|]. rewrite Ht. by vm_compute.
Defined.

(** A rollback of a history without turns is not a no-op: it bumps the version and
    forgets the world state. *)
Lemma drop_without_turns_rewrites :
  let cm : @ContextManager TextWire unit unit := mkManager [] 0 None None (Some tt) in
  drop_last_n_user_turns (λ _, false) cm 1 = Some (mkManager [] 1 None None None).
Proof. done. Qed.

(** ** Dropping the oldest item *)

(** Dropping the oldest item of a well-paired history with unique ids keeps it well
    paired: exactly the oldest item and the other half of its pair are removed. *)
Theorem remove_first_item_well_paired `{WireTypes} {T S : Type} (cm : @ContextManager _ T S) :
  unique_keys (items cm) → well_paired (items cm) →
  unique_keys (items (remove_first_item cm)) ∧ well_paired (items (remove_first_item cm))
  ∧ ∀ x rest, items cm = x :: rest →
      items (remove_first_item cm) = filter (λ b, ¬ partner x b) rest.
Proof.
  intros Hu Hw. unfold remove_first_item. destruct (items cm) as [|x rest] eqn:E; cbn [items].
  - rewrite E. done.
  - destruct (remove_first_well_paired x rest) as [Hu' Hw']; [done..|]. split_and!; [done..|].
    intros ? ? [= <- <-]. apply remove_corresponding_partner. by eapply unique_keys_tail.
Qed.

Lemma remove_first_item_well_paired_witness :
  let cm : @ContextManager TextWire unit unit :=
    mkManager [model_calls "a"; user_says "hi"; call_returns "a" "x"] 0 None None None in
  items (remove_first_item cm) = [user_says "hi"] ∧ well_paired (items (remove_first_item cm)).
Proof.
  intros cm. split; [vm_compute; reflexivity|]. apply remove_first_item_well_paired.
  - split; cbn; repeat constructor; set_solver.
  - split; intros i k Hi Hk; cbn in Hi; rewrite !elem_of_cons, elem_of_nil in Hi;
      destruct Hi as [->|[->|[->|[]]]]; cbn in Hk; simplify_eq; by constructor.
Defined.

(** ** Recording *)

Section recording.
Context `{WireTypes} {TurnContextItem WorldStateSnapshot : Type}.
Context (est_audio : str → Z) (policy : TruncationPolicy).

Abbreviation manager := (@ContextManager _ TurnContextItem WorldStateSnapshot) (only parsing).

(** The budget that recorded outputs are cut to. *)
Definition record_policy : TruncationPolicy := policy_mul policy F64_1_2.

(** An output is cut to the budget: a text to its bytes and one marker, items to the
    same with the notices of what was omitted behind. *)
Definition payload_fits (p : FunctionCallOutputPayload) : Prop :=
  match body p with
  | BodyText content => (slen content ≤ budget_bytes record_policy (limit record_policy) + MARKER_MAX)%Z
  | ContentItems l => ∃ kept notices, l = kept ++ notices ∧ length notices ≤ 2
      ∧ (total_item_bytes est_audio kept
         ≤ budget_bytes record_policy (limit record_policy) + MARKER_MAX)%Z
  end.

Definition recorded_as (i r : ResponseItem) : Prop :=
  match i, r with
  | FunctionCallOutput id call_id output m, FunctionCallOutput id' call_id' output' m' =>
      id' = id ∧ call_id' = call_id ∧ m' = m ∧ success output' = success output ∧ payload_fits output'
  | CustomToolCallOutput id call_id name output m, CustomToolCallOutput id' call_id' name' output' m' =>
      id' = id ∧ call_id' = call_id ∧ name' = name ∧ m' = m
      ∧ success output' = success output ∧ payload_fits output'
  | _, _ => r = i
  end.

(** No string of an output is longer than a Rust string can be. *)
Definition payload_len_ok (p : FunctionCallOutputPayload) : Prop :=
  match body p with
  | BodyText content => (slen content ≤ ISIZE_MAX)%Z
  | ContentItems l => Forall item_len_ok l
  end.
Definition item_ok (i : ResponseItem) : Prop :=
  match i with
  | FunctionCallOutput _ _ output _ | CustomToolCallOutput _ _ _ output _ => payload_len_ok output
  | _ => True
  end.

Hypothesis limit_bounds : (0 ≤ limit record_policy < USIZE_MAX)%Z.
Hypothesis est_nonneg : ∀ url, (0 ≤ est_audio url)%Z.

Lemma omitted_notice_length n what : length (omitted_notice n what) ≤ 1.
Proof. unfold omitted_notice. case_match; cbn; lia. Qed.

Lemma truncate_payload_fits p :
  payload_len_ok p →
  ∃ p', truncate_function_output_payload est_audio p record_policy = Some p'
        ∧ success p' = success p ∧ payload_fits p'.
Proof.
  unfold payload_len_ok, truncate_function_output_payload, payload_fits. intros Hok.
  destruct (body p) as [content|l].
  - destruct (truncate_text_total content record_policy) as (r & -> & Hr); [lia|done|].
    cbn. eauto.
  - destruct (output_items_final l record_policy est_audio) as (st & -> & _ & Hb); [done..|].
    cbn. eexists. split; [done|]. split; [done|]. cbn [body].
    eexists _, _. split; [done|]. split; [|done]. rewrite length_app.
    pose proof (omitted_notice_length (omitted_text_items st) " text items ...]").
    pose proof (omitted_notice_length (omitted_audio_items st) " audio items ...]"). lia.
Qed.

Lemma process_item_recorded i :
  item_ok i → ∃ r, process_item est_audio i policy = Some r ∧ recorded_as i r.
Proof.
  intros Hok. unfold process_item. fold record_policy.
  destruct i; cbn [item_ok recorded_as] in *; try by eauto.
  all: destruct (truncate_payload_fits output Hok) as (p' & -> & Hs & Hp).
  all: cbn [mbind option_bind]; eexists; split; [done|]; cbn; auto 10.
Qed.

Lemma record_items_loop (cm : manager) new_items :
  Forall item_ok new_items →
  ∃ recorded, record_items est_audio cm new_items policy
                = Some (set_items cm (items cm ++ recorded))
              ∧ Forall2 recorded_as (List.filter is_api_message new_items) recorded.
Proof.
  intros Hok. revert cm. induction Hok as [|i new_items Hi Hok IH]; intros cm.
  - exists []. rewrite app_nil_r. by destruct cm.
  - cbn [record_items List.filter]. destruct (is_api_message i) eqn:E; cbn [negb]; [|apply IH].
    destruct (process_item_recorded i Hi) as (r & -> & Hr). cbn [mbind option_bind].
    destruct (IH (set_items cm (items cm ++ [r]))) as (rs & -> & Hrs).
    exists (r :: rs). split; [|by constructor]. cbn [set_items items]. by rewrite <- app_assoc.
Qed.
End recording.

(** Recording never fails and only appends: the items other than system messages
    and compaction triggers, in their order, each unchanged except that the payload of
    a tool output is cut to 1.2 times the budget of the policy and one marker.
    Versions, token counts and baselines stay as they are. *)
Theorem record_items_correct `{WireTypes} {T S : Type} (est_audio : str → Z)
    (policy : TruncationPolicy) (cm : @ContextManager _ T S) (new_items : list ResponseItem) :
  (0 ≤ limit (record_policy policy) < USIZE_MAX)%Z → (∀ url, (0 ≤ est_audio url)%Z) →
  Forall item_ok new_items →
  ∃ recorded, record_items est_audio cm new_items policy = Some (set_items cm (items cm ++ recorded))
    ∧ Forall2 (recorded_as est_audio policy) (List.filter is_api_message new_items) recorded.
Proof. intros Hl He Hok. by apply record_items_loop. Qed.

Lemma record_items_correct_witness :
  record_items (λ _, 0%Z) sample_history [call_returns "b" "0123456789"; CompactionTrigger] (Bytes 5)
  = Some (set_items sample_history
            (items sample_history ++ [FunctionCallOutput None (lit "b")
               (from_text (lit "012" ++ [ELLIPSIS] ++ lit "4 chars truncated" ++ [ELLIPSIS]
                           ++ lit "789")) None]))
  ∧ ∃ recorded, record_items (λ _, 0%Z) sample_history [call_returns "b" "ok"] (Tokens 10)
      = Some (set_items sample_history (items sample_history ++ recorded)).
Proof.
  split; [vm_compute; reflexivity|].
  destruct (record_items_correct (λ _, 0%Z) (Tokens 10) sample_history [call_returns "b" "ok"])
    as (recorded & H & _); [vm_compute; split; [discriminate|reflexivity]|done| |by eauto].
  repeat constructor. by vm_compute.
Defined.
