(* ===== verification/WorldState.v ===== *)
(** * World state: [core/src/context/world_state/mod.rs]

    The state of the world that the model has been told is kept as a snapshot of
    sections.  An update renders what changed, and persists a full snapshot or a merge
    patch; [rollout_reconstruction.rs] replays what was persisted when a session is
    resumed or rolled back, and [session/mod.rs] is what persists.  A section is given
    by what it serializes to and by how it matches and renders fragments. *)

From Stdlib Require Import String.
From stdpp Require Import base option list numbers countable gmap.
From S2P Require Import Prelude StrBytes JsonValue Truncate Models OutputTruncation ContextFragments.
From S2P Require Import ContextNormalize ContextHistory.

Inductive PreviousSectionState (A : Type) : Type :=
| Absent
| Unknown
| Known (previous : A).
Arguments Absent {A}.
Arguments Unknown {A}.
Arguments Known {A} _.

Section world_state.
Context `{WireTypes} {Number : Type} `{EqDecision Number} {Fragment TurnContextItem : Type}.

Abbreviation value := (JsonValue.Value Number) (only parsing).

Definition is_null (v : value) : bool := match v with Null => true | _ => false end.

Fixpoint remove_null_object_fields (v : value) : value :=
  match v with
  | Object m =>
      Object (map_fold (λ k v acc, match (if is_null v then None
                                          else Some (remove_null_object_fields v)) with
                                   | Some v => <[k := v]> acc
                                   | None => acc
                                   end) ∅ m)
  | _ => v
  end.

Definition as_object (v : value) : option (gmap str value) :=
  match v with Object m => Some m | _ => None end.

Fixpoint create_merge_patch (previous current : value) : option value :=
  if decide (previous = current) then None
  else match current with
       | Object cur =>
           let prev := default ∅ (as_object previous) in
           let patch :=
             map_fold (λ k _ acc, match (if decide (is_Some (cur !! k)) then None else Some Null) with
                                  | Some v => <[k := v]> acc
                                  | None => acc
                                  end) ∅ prev in
           Some (Object (map_fold (λ k v acc, match match prev !! k with
                                                    | None => Some v
                                                    | Some p => create_merge_patch p v
                                                    end with
                                              | Some v => <[k := v]> acc
                                              | None => acc
                                              end) patch cur))
       | _ => Some current
       end.

Fixpoint apply_merge_patch_value (target patch : value) : value :=
  match patch with
  | Object p =>
      Object (map_fold (λ k v acc,
                if is_null v then delete k acc
                else <[k := apply_merge_patch_value (default Null (acc !! k)) v]> acc)
              (default ∅ (as_object target)) p)
  | _ => patch
  end.

(** ** Snapshots *)

Definition WorldStateSnapshot : Type := gmap str value.

Definition merge_patch_from (current previous : WorldStateSnapshot) : option value :=
  create_merge_patch (Object previous) (Object current).

(** [serde_json::from_value] at the type of the snapshot accepts objects. *)
Definition apply_merge_patch (s : WorldStateSnapshot) (patch : value) : option WorldStateSnapshot :=
  as_object (apply_merge_patch_value (Object s) patch).

Record WorldStateItem : Type := mkWorldStateItem { full : bool; state : value }.

(** [ErasedWorldStateSection]; [serialized] is [None] for a section that is not
    persisted or does not serialize. *)
Record Section_ : Type := {
  serialized : option value;
  matches_legacy_fragment : str → str → bool;
  has_retained_fragment_matcher : bool;
  matches_retained_fragment : str → str → bool;
  render_diff : PreviousSectionState value → option Fragment;
}.

Definition section_snapshot (s : Section_) : option value :=
  v ← serialized s;
  let v := remove_null_object_fields v in
  if is_null v then None else Some v.

(** The sections by their ids, in order. *)
Definition WorldState : Type := list (str * Section_).

Definition snapshot (ws : WorldState) : WorldStateSnapshot :=
  list_to_map (omap (λ '(id, s), (λ v, (id, v)) <$> section_snapshot s) ws).

Definition has_fragment (matches : str → str → bool) (items : list ResponseItem) : bool :=
  existsb (λ item,
    match item with
    | Message _ role content _ _ =>
        existsb (λ c, match c with ContentItem.InputText text => matches role text | _ => false end)
          content
    | _ => false
    end) items.

Definition previous_state (previous : option WorldStateSnapshot) (items : list ResponseItem)
    (id : str) (s : Section_) : PreviousSectionState value :=
  match previous ≫= λ p, p !! id with
  | Some v =>
      if has_retained_fragment_matcher s && negb (has_fragment (matches_retained_fragment s) items)
      then Absent else Known v
  | None => if has_fragment (matches_legacy_fragment s) items then Unknown else Absent
  end.

Definition render_history_diff (ws : WorldState) (previous : option WorldStateSnapshot)
    (items : list ResponseItem) : list Fragment :=
  omap (λ '(id, s), render_diff s (previous_state previous items id s)) ws.

Abbreviation manager := (@ContextManager _ TurnContextItem WorldStateSnapshot) (only parsing).

Definition update_world_state (cm : manager) (ws : WorldState)
    : list Fragment * option WorldStateItem * manager :=
  let s := snapshot ws in
  let fragments := render_history_diff ws (world_state_baseline cm) (items cm) in
  let rollout_item :=
    match world_state_baseline cm with
    | None => Some (mkWorldStateItem true (Object s))
    | Some previous => mkWorldStateItem false <$> merge_patch_from s previous
    end in
  (fragments, rollout_item, set_world_state_baseline cm s).

(** [WorldState::render_diff]: against a snapshot alone. *)
Definition render_diff_from (ws : WorldState) (previous : WorldStateSnapshot) : list Fragment :=
  omap (λ '(id, s), render_diff s match previous !! id with Some v => Known v | None => Absent end) ws.
End world_state.

(** ** The rollout: [protocol.rs], [session/rollout_reconstruction.rs]

    The records of a session, and the scan that walks them from the newest to the
    oldest.  Context windows are left out; they do not influence the rest. *)

Record PreviousTurnSettings : Type := mkSettings {
  ps_model : str;
  ps_comp_hash : option str;
  ps_realtime_active : option bool;
}.

Section rollout.
Context `{WireTypes} {Number : Type} `{EqDecision Number} {Fragment Other : Type} `{EqDecision Other}.
Context (is_inter_agent_json : str → bool) (est_audio : str → Z).

(** The fields the scan reads, and the others. *)
Record TurnContextItem : Type := mkTurnContext {
  tc_turn_id : option str;
  tc_model : str;
  tc_comp_hash : option str;
  tc_realtime_active : option bool;
  tc_other : Other;
}.

#[global] Instance TurnContextItem_eq_dec : EqDecision TurnContextItem.
Proof. solve_decision. Defined.

(** [OtherEvent] is any event the scan does not name. *)
Inductive RolloutItem : Type :=
| SessionMeta
| ResponseRecord (item : ResponseItem)
| InterAgentCommunication
| InterAgentCommunicationMetadata (trigger_turn : bool)
| Compacted (replacement_history : option (list ResponseItem))
| TurnContext (ctx : TurnContextItem)
| WorldStateRecord (item : @WorldStateItem Number)
| ThreadRolledBack (num_turns : Z)
| TurnComplete (turn_id : str)
| TurnAborted (turn_id : option str)
| UserMessage
| TurnStarted (turn_id : str)
| OtherEvent.

Inductive TurnReferenceContextItem : Type :=
| NeverSet
| Cleared
| Latest (item : TurnContextItem).

Record ActiveReplaySegment : Type := mkSegment {
  seg_turn_id : option str;
  counts_as_user_turn : bool;
  seg_settings : option PreviousTurnSettings;
  seg_reference : TurnReferenceContextItem;
  seg_replay : list RolloutItem;
  seg_base : option (list ResponseItem);
}.

Definition default_segment : ActiveReplaySegment := mkSegment None false None NeverSet [] None.

(** The variables of the scan. *)
Record Scan : Type := mkScan {
  active_segment : option ActiveReplaySegment;
  base_replacement_history : option (list ResponseItem);
  previous_turn_settings : option PreviousTurnSettings;
  scan_reference : TurnReferenceContextItem;
  world_state_replay : list RolloutItem;
  pending_rollback_turns : Z;
  rollout_suffix : list RolloutItem;
}.

Definition turn_ids_are_compatible (active_turn_id item_turn_id : option str) : bool :=
  match active_turn_id, item_turn_id with
  | Some turn_id, Some item_turn_id => item_turn_id ==s turn_id
  | _, _ => true
  end.

Definition is_never_set (r : TurnReferenceContextItem) : bool :=
  match r with NeverSet => true | _ => false end.

Definition is_cleared (r : TurnReferenceContextItem) : bool :=
  match r with Cleared => true | _ => false end.

(** The segment is taken out of the scan and merged into it. *)
Definition finalize_active_segment (seg : ActiveReplaySegment) (st : Scan) : Scan :=
  if (0 <? pending_rollback_turns st)%Z then
    mkScan None (base_replacement_history st) (previous_turn_settings st) (scan_reference st)
      (world_state_replay st)
      (if counts_as_user_turn seg then pending_rollback_turns st - 1 else pending_rollback_turns st)
      (rollout_suffix st)
  else
    mkScan None
      match base_replacement_history st with Some b => Some b | None => seg_base seg end
      (match previous_turn_settings st with
       | Some s => Some s
       | None => if counts_as_user_turn seg then seg_settings seg else None
       end)
      (if is_never_set (scan_reference st)
          && (counts_as_user_turn seg || is_cleared (seg_reference seg))
       then seg_reference seg else scan_reference st)
      (world_state_replay st ++ seg_replay seg)
      (pending_rollback_turns st) (rollout_suffix st).

(** What an item other than a rollback or the start of a turn does to the segment. *)
Definition segment_item (item : RolloutItem) (active : option ActiveReplaySegment)
    : option ActiveReplaySegment :=
  let seg := default default_segment active in
  let push := λ seg, mkSegment (seg_turn_id seg) (counts_as_user_turn seg) (seg_settings seg)
    (seg_reference seg) (seg_replay seg ++ [item]) (seg_base seg) in
  let with_id := λ seg id, mkSegment match seg_turn_id seg with Some i => Some i | None => id end
    (counts_as_user_turn seg) (seg_settings seg) (seg_reference seg) (seg_replay seg) (seg_base seg) in
  let count := λ seg b, mkSegment (seg_turn_id seg) (counts_as_user_turn seg || b) (seg_settings seg)
    (seg_reference seg) (seg_replay seg) (seg_base seg) in
  match item with
  | Compacted replacement_history =>
      let seg := push seg in
      Some (mkSegment (seg_turn_id seg) (counts_as_user_turn seg) (seg_settings seg)
        (if is_never_set (seg_reference seg) then Cleared else seg_reference seg) (seg_replay seg)
        match seg_base seg with Some b => Some b | None => replacement_history end)
  | TurnComplete id => Some (with_id seg (Some id))
  | TurnAborted id =>
      match active, id with
      | None, None => None
      | _, _ => Some (with_id seg id)
      end
  | UserMessage | InterAgentCommunication => Some (count seg true)
  | ResponseRecord r => Some (count seg (is_user_turn_boundary is_inter_agent_json r))
  | TurnContext ctx =>
      let seg := with_id seg (tc_turn_id ctx) in
      Some (if turn_ids_are_compatible (seg_turn_id seg) (tc_turn_id ctx) then
              mkSegment (seg_turn_id seg) (counts_as_user_turn seg)
                (Some (mkSettings (tc_model ctx) (tc_comp_hash ctx) (tc_realtime_active ctx)))
                (if is_never_set (seg_reference seg) then Latest ctx else seg_reference seg)
                (seg_replay seg) (seg_base seg)
            else seg)
  | WorldStateRecord _ => Some (push seg)
  | _ => active
  end.

(** The suffix moves to behind a compaction that becomes the base of its segment. *)
Definition suffix_after (item : RolloutItem) (newer : list RolloutItem) (st : Scan) : list RolloutItem :=
  match item with
  | Compacted (Some _) =>
      match seg_base (default default_segment (active_segment st)) with
      | None => newer
      | Some _ => rollout_suffix st
      end
  | _ => rollout_suffix st
  end.

Definition USIZE_MAX : Z := (2 ^ 64 - 1)%Z.

(** One item; [newer] are the items behind it. *)
Definition scan_item (item : RolloutItem) (newer : list RolloutItem) (st : Scan) : Scan :=
  match item with
  | ThreadRolledBack n =>
      mkScan (active_segment st) (base_replacement_history st) (previous_turn_settings st)
        (scan_reference st) (world_state_replay st)
        (Z.min (pending_rollback_turns st + n) USIZE_MAX) (rollout_suffix st)
  | TurnStarted id =>
      match active_segment st with
      | Some seg =>
          if turn_ids_are_compatible (seg_turn_id seg) (Some id) then finalize_active_segment seg st
          else st
      | None => st
      end
  | _ =>
      mkScan (segment_item item (active_segment st)) (base_replacement_history st)
        (previous_turn_settings st) (scan_reference st) (world_state_replay st)
        (pending_rollback_turns st) (suffix_after item newer st)
  end.

Definition scan_done (st : Scan) : bool :=
  match base_replacement_history st, previous_turn_settings st with
  | Some _, Some _ => negb (is_never_set (scan_reference st))
  | _, _ => false
  end.

(** The loop, over the items from the newest on. *)
Fixpoint scan_items (older newer : list RolloutItem) (st : Scan) : Scan :=
  match older with
  | [] => st
  | item :: older =>
      let st := scan_item item newer st in
      if scan_done st then st else scan_items older (item :: newer) st
  end.

Definition scan_rollout (rollout : list RolloutItem) : Scan :=
  let st := scan_items (rev rollout) [] (mkScan None None None NeverSet [] 0%Z rollout) in
  match active_segment st with
  | Some seg => finalize_active_segment seg st
  | None => st
  end.

(** ** Replaying

    [None] is the [unreachable!] for an item that is never collected. *)
Fixpoint replay_world_state (log : list RolloutItem) (baseline : option (@WorldStateSnapshot Number))
    : option (option (@WorldStateSnapshot Number)) :=
  match log with
  | [] => Some baseline
  | Compacted _ :: log => replay_world_state log None
  | WorldStateRecord i :: log =>
      replay_world_state log
        (if full i then as_object (state i)
         else match baseline with
              | None => None
              | Some b => apply_merge_patch b (state i)
              end)
  | _ :: _ => None
  end.

Definition is_legacy_compaction (item : RolloutItem) : bool :=
  match item with Compacted None => true | _ => false end.

(** The parts of [RolloutReconstruction] that the session's baselines are set from. *)
Record RolloutReconstruction : Type := mkReconstruction {
  rr_previous_turn_settings : option PreviousTurnSettings;
  rr_reference_context_item : option TurnContextItem;
  rr_world_state_baseline : option (@WorldStateSnapshot Number);
}.

Definition reconstruct_history_from_rollout (rollout : list RolloutItem)
    : option RolloutReconstruction :=
  let st := scan_rollout rollout in
  let reference := match scan_reference st with Latest item => Some item | _ => None end in
  let reference := if existsb is_legacy_compaction (rollout_suffix st) then None else reference in
  mkReconstruction (previous_turn_settings st) reference
    <$> replay_world_state (rev (world_state_replay st)) None.

(** ** The session: [session/mod.rs], [session/handlers.rs]

    The history and the rollout.  Fragments become items by [merge_contextual_fragments],
    and [prepare] is what [prepare_conversation_items_for_history] makes of the items. *)

Abbreviation manager := (@ContextManager _ TurnContextItem (@WorldStateSnapshot Number)) (only parsing).

Record Session : Type := mkSession {
  history : manager;
  rollout : list RolloutItem;
}.

Context (merge_contextual_fragments : list Fragment → list ResponseItem).
Context (prepare : list ResponseItem → list ResponseItem).

Definition persist_rollout_items (s : Session) (l : list RolloutItem) : Session :=
  mkSession (history s) (rollout s ++ l).

Definition record_conversation_items (s : Session) (l : list ResponseItem) (policy : TruncationPolicy)
    : option Session :=
  let l := prepare l in
  cm ← record_items est_audio (history s) l policy;
  Some (persist_rollout_items (mkSession cm (rollout s)) (map ResponseRecord l)).

Definition record_some_items (s : Session) (l : list ResponseItem) (policy : TruncationPolicy)
    : option Session :=
  match l with [] => Some s | _ => record_conversation_items s l policy end.

Definition persist_world_state (s : Session) (item : option WorldStateItem) : Session :=
  match item with Some i => persist_rollout_items s [WorldStateRecord i] | None => s end.

(** The world state is the one that is built for the step; [None] is a panic. *)
Definition record_step_world_state_if_changed (s : Session) (previous ws : @WorldState Number Fragment)
    (policy : TruncationPolicy) : option Session :=
  let previous_snapshot := snapshot previous in
  let item := mkWorldStateItem false <$> merge_patch_from (snapshot ws) previous_snapshot in
  s ← record_some_items s (merge_contextual_fragments (render_diff_from ws previous_snapshot)) policy;
  Some (persist_world_state
          (mkSession (set_world_state_baseline (history s) (snapshot ws)) (rollout s)) item).

(** [initial_context] and [contributions] are the items of
    [build_initial_context_with_world_state] and
    [build_turn_context_contribution_items]. *)
Definition record_context_updates_and_set_reference_context_item (s : Session)
    (ws : @WorldState Number Fragment) (turn_context_item : TurnContextItem)
    (initial_context contributions : list ResponseItem) (policy : TruncationPolicy) : option Session :=
  let reference := reference_context_item (history s) in
  let turn_context_changed := negb (bool_decide (reference = Some turn_context_item)) in
  let '(context_items, item, cm) :=
    match reference with
    | None =>
        (initial_context, Some (mkWorldStateItem true (Object (snapshot ws))),
         set_world_state_baseline (history s) (snapshot ws))
    | Some _ =>
        let '(fragments, item, cm) := update_world_state (history s) ws in
        (merge_contextual_fragments fragments
           ++ (if turn_context_changed then contributions else []), item, cm)
    end in
  let s := mkSession cm (rollout s) in
  let only_world_state_changed :=
    negb turn_context_changed && match context_items with [] => true | _ => false end in
  if only_world_state_changed && match item with None => true | Some _ => false end then Some s
  else
    s ← record_some_items s context_items policy;
    let s := persist_world_state s item in
    if only_world_state_changed then Some s
    else
      let s := persist_rollout_items s [TurnContext turn_context_item] in
      Some (mkSession (set_reference_context_item (history s) (Some turn_context_item)) (rollout s)).

(** [items] with their ids assigned. *)
Definition replace_compacted_history (s : Session) (items : list ResponseItem)
    (reference : option TurnContextItem) (world_state_baseline : option (@WorldState Number Fragment))
    : Session :=
  let cm := set_reference_context_item (replace (history s) items) reference in
  let '(cm, item) :=
    match world_state_baseline with
    | Some ws => (set_world_state_baseline cm (snapshot ws),
                  Some (mkWorldStateItem true (Object (snapshot ws))))
    | None => (cm, None)
    end in
  let s := persist_rollout_items (mkSession cm (rollout s)) [Compacted (Some items)] in
  let s := persist_world_state s item in
  match reference with
  | Some ctx => persist_rollout_items s [TurnContext ctx]
  | None => s
  end.

(** [items] is the rebuilt history; [None] is a panic. *)
Definition apply_rollout_reconstruction (s : Session) (rollout_items : list RolloutItem)
    (items : list ResponseItem) : option Session :=
  r ← reconstruct_history_from_rollout rollout_items;
  let cm := set_reference_context_item (replace (history s) items) (rr_reference_context_item r) in
  let cm := match rr_world_state_baseline r with
            | Some snapshot => set_world_state_baseline cm snapshot
            | None => cm
            end in
  Some (mkSession cm (rollout s)).

(** The stored history is the rollout; a refused rollback leaves the session alone. *)
Definition thread_rollback (s : Session) (has_active_turn : bool) (num_turns : Z)
    (items : list ResponseItem) : option Session :=
  if (num_turns =? 0)%Z then Some s
  else if has_active_turn then Some s
  else
    s ← apply_rollout_reconstruction s (rollout s ++ [ThreadRolledBack num_turns]) items;
    Some (persist_rollout_items s [ThreadRolledBack num_turns]).
End rollout.
