(* ===== verification/WorldStateFacts.v ===== *)
(** * A resumed session knows what the model was told

    A merge patch takes the previous snapshot to the current one, because snapshots
    have no null fields.  The scan of a rollout collects the records of the turns that
    survive its rollbacks.  So reconstructing the rollout of a session gives its live
    baseline, across turns, compactions, rollbacks and resumptions. *)

From Stdlib Require Import String.
From stdpp Require Import base option list numbers countable gmap.
From S2P Require Import Prelude StrBytes JsonValue Truncate Models OutputTruncation ContextFragments.
From S2P Require Import ContextNormalize ContextHistory ContextHistoryFacts WorldState.

(** A fold that sets some of the keys. *)
Lemma lookup_fold_set {A B} (f : str → A → option B) (b : gmap str B) (m : gmap str A) k :
  map_fold (λ k v acc, match f k v with Some x => <[k := x]> acc | None => acc end) b m !! k
  = match m !! k with
    | Some v => match f k v with Some x => Some x | None => b !! k end
    | None => b !! k
    end.
Proof.
  revert k. apply (map_fold_weak_ind (λ r m, ∀ k, r !! k
    = match m !! k with
      | Some v => match f k v with Some x => Some x | None => b !! k end
      | None => b !! k
      end)); [done|].
  intros k0 v0 m' r Hk0 IH k. destruct (decide (k0 = k)) as [->|Hne].
  - rewrite lookup_insert_eq. destruct (f k v0); [by rewrite lookup_insert_eq|].
    by rewrite IH, Hk0.
  - rewrite lookup_insert_ne by done. rewrite <- IH.
    destruct (f k0 v0); [by rewrite lookup_insert_ne|done].
Qed.

Section facts.
Context `{WireTypes} {Number : Type} `{EqDecision Number} {Fragment TurnContextItem : Type}.

Abbreviation value := (JsonValue.Value Number) (only parsing).
Abbreviation world := (@WorldState Number Fragment) (only parsing).
Abbreviation manager := (@ContextManager _ TurnContextItem (@WorldStateSnapshot Number)) (only parsing).

(** No object, outside of arrays, has a null field. *)
Inductive null_free : value → Prop :=
| nf_atom v : as_object v = None → null_free v
| nf_object m :
    (∀ k v, m !! k = Some v → v ≠ Null) → (∀ k v, m !! k = Some v → null_free v) →
    null_free (Object m).

Lemma null_free_field (m : gmap str value) k v : null_free (Object m) → m !! k = Some v → v ≠ Null ∧ null_free v.
Proof. inversion 1; subst; [done|]. eauto. Qed.

Lemma is_null_true (v : value) : is_null v = true ↔ v = Null.
Proof. by destruct v. Qed.

Lemma remove_null_lookup (m : gmap str value) k :
  as_object (remove_null_object_fields (Object m)) ≫= (λ m', m' !! k)
  = match m !! k with
    | Some v => if is_null v then None else Some (remove_null_object_fields v)
    | None => None
    end.
Proof.
  cbn [remove_null_object_fields as_object mbind option_bind].
  rewrite (lookup_fold_set (λ _ v, if is_null v then None else Some (remove_null_object_fields v))).
  destruct (m !! k) as [v|]; [|done]. by destruct (is_null v).
Qed.

Lemma remove_null_not_null (v : value) : v ≠ Null → remove_null_object_fields v ≠ Null.
Proof. by destruct v. Qed.

Lemma remove_null_null_free (v : value) : null_free (remove_null_object_fields v).
Proof.
  induction v as [| | | | |m IH] using Value_nested_ind; try by constructor.
  assert (Hf : ∀ k v, as_object (remove_null_object_fields (Object m)) ≫= (λ m', m' !! k) = Some v →
    v ≠ Null ∧ null_free v).
  { intros k v. rewrite remove_null_lookup. destruct (m !! k) as [v0|] eqn:Hk; [|done].
    destruct (is_null v0) eqn:Hn; [done|]. intros [= <-]. split; [|by eapply IH].
    apply remove_null_not_null. intros ->. done. }
  cbn [remove_null_object_fields as_object mbind option_bind] in *.
  constructor; intros k v Hk; by apply (Hf k v).
Qed.

(** ** Merge patches *)

Lemma apply_object_lookup (target : value) p k :
  as_object (apply_merge_patch_value target (Object p)) ≫= (λ m, m !! k)
  = match p !! k with
    | Some v => if is_null v then None
                else Some (apply_merge_patch_value
                             (default Null (default ∅ (as_object target) !! k)) v)
    | None => default ∅ (as_object target) !! k
    end.
Proof.
  cbn [apply_merge_patch_value as_object mbind option_bind].
  generalize (default ∅ (as_object target)). intros t. revert k.
  apply (map_fold_weak_ind (λ r m, ∀ k, r !! k
    = match m !! k with
      | Some v => if is_null v then None
                  else Some (apply_merge_patch_value (default Null (t !! k)) v)
      | None => t !! k
      end)); [done|].
  intros k0 v0 m' r Hk0 IH k. destruct (decide (k0 = k)) as [->|Hne].
  - rewrite lookup_insert_eq. destruct (is_null v0); [by rewrite lookup_delete_eq|].
    rewrite lookup_insert_eq. by rewrite (IH k), Hk0.
  - rewrite lookup_insert_ne by done. rewrite <- IH.
    destruct (is_null v0); [by rewrite lookup_delete_ne|by rewrite lookup_insert_ne].
Qed.

(** An object is what its fields are. *)
Lemma object_ext (v : value) m :
  (∃ m', v = Object m') → (∀ k, as_object v ≫= (λ m', m' !! k) = m !! k) → v = Object m.
Proof. intros [m' ->] Hk. f_equal. apply map_eq, Hk. Qed.

Lemma apply_object (target : value) p : ∃ m, apply_merge_patch_value target (Object p) = Object m.
Proof. by eexists. Qed.

(** On a target that is no object, a patch without nulls is the value itself. *)
Lemma apply_fresh (v : value) : null_free v → ∀ target, as_object target = None →
  apply_merge_patch_value target v = v.
Proof.
  induction v as [| | | | |m IH] using Value_nested_ind; intros Hf target Ht; try done.
  apply object_ext; [apply apply_object|]. intros k. rewrite apply_object_lookup, Ht. cbn.
  destruct (m !! k) as [v|] eqn:Hk; [|apply lookup_empty].
  destruct (null_free_field m k v Hf Hk) as [Hn Hv].
  destruct (is_null v) eqn:En; [by apply is_null_true in En|]. rewrite lookup_empty. cbn.
  by rewrite (IH k v Hk).
Qed.

Lemma create_object_lookup (prev cur : gmap str value) patch k :
  create_merge_patch (Object prev) (Object cur) = Some patch →
  as_object patch ≫= (λ m, m !! k)
  = match cur !! k with
    | Some v => match prev !! k with None => Some v | Some p => create_merge_patch p v end
    | None => match prev !! k with Some _ => Some Null | None => None end
    end.
Proof.
  cbn [create_merge_patch as_object default]. case_decide; [done|]. intros [= <-].
  cbn [as_object mbind option_bind].
  rewrite (lookup_fold_set (λ k v, match prev !! k with
    | None => Some v | Some p => create_merge_patch p v end)).
  rewrite (lookup_fold_set (λ k _, if decide (is_Some (cur !! k)) then None else Some Null)).
  rewrite lookup_empty. destruct (cur !! k) as [v|].
  - rewrite decide_True by done. destruct (prev !! k) as [p|]; [|done].
    by destruct (create_merge_patch p v).
  - rewrite decide_False by apply is_Some_None. by destruct (prev !! k).
Qed.

Lemma create_none (prev cur : value) : create_merge_patch prev cur = None ↔ prev = cur.
Proof. destruct cur; cbn [create_merge_patch]; by case_decide. Qed.

Lemma create_not_null (prev cur : value) p :
  create_merge_patch prev cur = Some p → cur ≠ Null → p ≠ Null.
Proof. destruct cur; cbn [create_merge_patch]; case_decide; try done; by intros [= <-]. Qed.

(** Against something that is no object, the patch is that against no fields. *)
Lemma create_atom (prev : value) cur :
  as_object prev = None →
  create_merge_patch prev (Object cur) = Some (Object (map_fold (λ k v acc, <[k := v]> acc) ∅ cur)).
Proof.
  intros Hp. cbn [create_merge_patch]. rewrite Hp, decide_False by by intros ->.
  cbn [default]. by rewrite map_fold_empty.
Qed.

(** The patch takes the previous value to the current one. *)
Lemma merge_patch_correct (cur prev : value) patch :
  null_free cur → create_merge_patch prev cur = Some patch → apply_merge_patch_value prev patch = cur.
Proof.
  revert prev patch. induction cur as [|b|n|s|l _|cur IH] using Value_nested_ind; intros prev patch Hf.
  1-5: cbn [create_merge_patch]; case_decide; [done|]; by intros [= <-].
  destruct (as_object prev) as [pm|] eqn:Ep.
  - destruct prev as [| | | | |prev]; try done. injection Ep as ->. intros Hc.
    assert (Ho : ∃ p, patch = Object p).
    { cbn [create_merge_patch] in Hc. case_decide; [done|]. injection Hc as <-. by eexists. }
    destruct Ho as [p ->]. apply object_ext; [apply apply_object|]. intros k.
    rewrite apply_object_lookup. pose proof (create_object_lookup pm cur (Object p) k Hc) as Hl.
    cbn [as_object mbind option_bind] in Hl. rewrite Hl. cbn.
    destruct (cur !! k) as [v|] eqn:Hk; [|by destruct (pm !! k)].
    destruct (null_free_field cur k v Hf Hk) as [Hn Hv]. destruct (pm !! k) as [pv|] eqn:Hpk; cbn.
    + destruct (create_merge_patch pv v) as [q|] eqn:Hq.
      * pose proof (create_not_null _ _ _ Hq Hn) as Hqn.
        destruct (is_null q) eqn:En; [by apply is_null_true in En|]. f_equal. by eapply IH.
      * apply create_none in Hq. by subst.
    + destruct (is_null v) eqn:En; [by apply is_null_true in En|]. f_equal. by apply apply_fresh.
  - rewrite create_atom by done. intros [= <-].
    assert (map_fold (λ k v acc, <[k := v]> acc) ∅ cur = cur) as ->.
    { apply map_eq. intros k. rewrite (lookup_fold_set (λ _ v, Some v)), lookup_empty.
      by destruct (cur !! k). }
    by apply apply_fresh.
Qed.

(** ** Snapshots and their replay *)

Lemma snapshot_null_free (ws : world) : null_free (Object (snapshot ws)).
Proof.
  assert (Hf : ∀ k v, snapshot ws !! k = Some v → v ≠ Null ∧ null_free v).
  { intros k v Hk%(elem_of_list_to_map_2 (M := gmap str)).
    apply list_elem_of_omap in Hk as ([id s] & Hin & Hs).
    destruct (section_snapshot s) as [v'|] eqn:E; [|done]. injection Hs as <- <-.
    unfold section_snapshot in E. destruct (serialized s) as [raw|]; [|done]. cbn in E.
    destruct (is_null _) eqn:En; [done|]. injection E as <-. split; [|apply remove_null_null_free].
    by intros Hv%is_null_true; rewrite Hv in En. }
  constructor; intros k v Hk; by apply (Hf k v).
Qed.
End facts.

(** ** What survives the rollbacks

    A rollout is a sequence of turns, of rollbacks between them, and of records that the
    scan passes over.  A rollback drops turns from the newest on, until it has dropped its
    number of user turns. *)

Section reconstruction.
Context `{WireTypes} {Number : Type} `{EqDecision Number} {Other : Type} `{EqDecision Other}.
Context (inter_agent : str → bool).

Abbreviation record := (@RolloutItem _ Number Other) (only parsing).
Abbreviation scan := (@Scan _ Number Other) (only parsing).
Abbreviation base_snapshot := (@WorldStateSnapshot Number) (only parsing).

Definition is_record (i : record) : bool :=
  match i with Compacted _ | WorldStateRecord _ => true | _ => false end.

Definition is_compacted (i : record) : bool := match i with Compacted _ => true | _ => false end.

(** The records that make a turn one of the user's. *)
Definition counts (i : record) : bool :=
  match i with
  | UserMessage | InterAgentCommunication => true
  | ResponseRecord r => is_user_turn_boundary inter_agent r
  | _ => false
  end.

(** The records of a turn name no other turn. *)
Definition in_turn (id : str) (i : record) : Prop :=
  match i with
  | TurnStarted _ | ThreadRolledBack _ => False
  | TurnComplete id' => id' = id
  | TurnAborted o => o = None ∨ o = Some id
  | TurnContext ctx => tc_turn_id ctx = None ∨ tc_turn_id ctx = Some id
  | _ => True
  end.

Inductive Entry : Type :=
| Turn (id : str) (body : list record)
| Rollback (num_turns : Z)
| Outside (item : record).

Definition entry_ok (e : Entry) : Prop :=
  match e with
  | Turn id body => Forall (in_turn id) body
  | Rollback n => (0 ≤ n < 2 ^ 32)%Z
  | Outside i => match i with
                 | SessionMeta | InterAgentCommunicationMetadata _ | OtherEvent => True
                 | _ => False
                 end
  end.

Definition entry_items (e : Entry) : list record :=
  match e with
  | Turn id body => TurnStarted id :: body
  | Rollback n => [ThreadRolledBack n]
  | Outside i => [i]
  end.

Definition flatten (es : list Entry) : list record := concat (map entry_items es).

Definition user_turn (body : list record) : bool := existsb counts body.

(** The turns, the newest first. *)
Fixpoint drop_newest (n : Z) (turns : list (list record)) : list (list record) :=
  match turns with
  | [] => []
  | body :: older =>
      if (0 <? n)%Z then drop_newest (if user_turn body then n - 1 else n)%Z older
      else turns
  end.

Definition push_entry (turns : list (list record)) (e : Entry) : list (list record) :=
  match e with
  | Turn _ body => body :: turns
  | Rollback n => drop_newest n turns
  | Outside _ => turns
  end.

Definition surviving (es : list Entry) : list (list record) := foldl push_entry [] es.

Definition replay_step (baseline : option base_snapshot) (i : record) : option base_snapshot :=
  match i with
  | Compacted _ => None
  | WorldStateRecord i =>
      if full i then as_object (state i)
      else match baseline with None => None | Some b => apply_merge_patch b (state i) end
  | _ => baseline
  end.

(** The surviving records of world states and compactions, in order. *)
Definition surviving_log (turns : list (list record)) : list record :=
  concat (rev (map (List.filter is_record) turns)).

Definition told (es : list Entry) : option base_snapshot :=
  foldl replay_step None (surviving_log (surviving es)).

(** *** Dropping turns *)

Lemma drop_newest_0 n turns : (n ≤ 0)%Z → drop_newest n turns = turns.
Proof.
  intros Hn. destruct turns; cbn [drop_newest]; [done|].
  by rewrite (proj2 (Z.ltb_ge 0 n) Hn).
Qed.

Lemma drop_newest_add p n turns :
  (0 ≤ p)%Z → (0 ≤ n)%Z → drop_newest (p + n) turns = drop_newest p (drop_newest n turns).
Proof.
  intros Hp. revert n. induction turns as [|b ts IH]; intros n Hn; [done|].
  destruct (Z.ltb_spec 0 n) as [Hlt|Hge].
  - cbn [drop_newest]. rewrite (proj2 (Z.ltb_lt 0 (p + n))) by lia.
    rewrite (proj2 (Z.ltb_lt 0 n)) by lia.
    destruct (user_turn b); rewrite <- IH by lia; f_equal; lia.
  - assert (n = 0)%Z as -> by lia. by rewrite (drop_newest_0 0), Z.add_0_r.
Qed.

Lemma surviving_snoc es e : surviving (es ++ [e]) = push_entry (surviving es) e.
Proof. unfold surviving. by rewrite foldl_app. Qed.

Lemma flatten_snoc es e : flatten (es ++ [e]) = flatten es ++ entry_items e.
Proof. unfold flatten. rewrite map_app, concat_app. cbn. by rewrite app_nil_r. Qed.

Lemma surviving_log_cons body turns :
  surviving_log (body :: turns) = surviving_log turns ++ List.filter is_record body.
Proof. unfold surviving_log. cbn. rewrite concat_app. cbn. by rewrite app_nil_r. Qed.

Lemma filter_records l : Forall (λ i, is_record i = true) (List.filter is_record l).
Proof. apply List.Forall_forall. intros x Hx. apply List.filter_In in Hx. apply Hx. Qed.

(** *** Replaying *)

Lemma replay_total l b :
  Forall (λ i, is_record i = true) l → replay_world_state l b = Some (foldl replay_step b l).
Proof.
  intros Hl. revert b. induction Hl as [|i l Hi _ IH]; intros b; [done|].
  destruct i; try done; cbn [replay_world_state foldl replay_step]; apply IH.
Qed.

(** A compaction makes what came before it irrelevant. *)
Lemma replay_reset l b b' :
  existsb is_compacted l = true → foldl replay_step b l = foldl replay_step b' l.
Proof.
  revert b b'. induction l as [|i l IH]; intros b b'; [done|]. cbn [existsb foldl].
  destruct i; try apply IH. done.
Qed.

(** *** The scan of a turn *)

Definition seg_ok (id : str) (items : list record) (a : option (@ActiveReplaySegment _ Number Other))
    : Prop :=
  match a with
  | None => List.filter is_record items = [] ∧ existsb counts items = false
  | Some seg =>
      (seg_turn_id seg = None ∨ seg_turn_id seg = Some id)
      ∧ counts_as_user_turn seg = existsb counts items
      ∧ seg_replay seg = List.filter is_record items
      ∧ (is_Some (seg_base seg) → existsb is_compacted items = true)
  end.

Lemma existsb_snoc {A} (f : A → bool) l x : existsb f (l ++ [x]) = existsb f l || f x.
Proof. rewrite existsb_app. cbn. by rewrite orb_false_r. Qed.

Lemma filter_snoc {A} (f : A → bool) l x :
  List.filter f (l ++ [x]) = List.filter f l ++ (if f x then [x] else []).
Proof. rewrite List.filter_app. cbn. by destruct (f x). Qed.

Lemma existsb_rev {A} (f : A → bool) l : existsb f (rev l) = existsb f l.
Proof.
  induction l as [|x l IH]; [done|]. cbn [rev existsb]. rewrite existsb_snoc, IH. apply orb_comm.
Qed.

Lemma seg_ok_default id : seg_ok id [] (Some default_segment).
Proof. split_and!; cbn; auto. by intros [? ?]. Qed.

(** Getting or inserting a segment. *)
Lemma seg_ok_get id items a : seg_ok id items a → seg_ok id items (Some (default default_segment a)).
Proof.
  destruct a as [seg|]; [done|]. intros [Hf Hc]. cbn. rewrite Hf, Hc. split_and!; auto.
  by intros [? ?].
Qed.

Lemma segment_item_ok id items a i :
  in_turn id i → seg_ok id items a → seg_ok id (items ++ [i]) (segment_item inter_agent i a).
Proof.
  intros Hi Ha. pose proof (seg_ok_get id items a Ha) as Hg. unfold segment_item.
  remember (default default_segment a) as seg eqn:Eseg. clear Eseg.
  destruct seg as [sid cnt set ref rep base]. destruct Hg as (Hid & Hcnt & Hrep & Hbase).
  cbn [seg_turn_id counts_as_user_turn seg_replay seg_base] in *.
  assert (Hs : ∀ o : option str, o = None ∨ o = Some id →
    match sid with Some i => Some i | None => o end = None
    ∨ match sid with Some i => Some i | None => o end = Some id) by (intros o Ho; by destruct sid).
  destruct i; cbn [in_turn] in Hi; try done; unfold seg_ok in *;
    rewrite ?filter_snoc, ?existsb_snoc; cbn [is_record counts is_compacted];
    rewrite ?app_nil_r, ?orb_false_r, ?orb_true_r;
    cbn [seg_turn_id counts_as_user_turn seg_replay seg_base]; try done.
  6: destruct a; [|destruct turn_id; [|done]].
  3: destruct (turn_ids_are_compatible _ _).
  all: split_and!; cbn; rewrite ?orb_true_r; auto; try congruence.
  all: apply Hs; auto; right; congruence.
Qed.

Lemma segment_items_ok id l items a :
  Forall (in_turn id) l → seg_ok id items a →
  seg_ok id (items ++ l) (foldl (λ a i, segment_item inter_agent i a) a l).
Proof.
  intros Hl. revert items a. induction Hl as [|i l Hi _ IH]; intros items a Ha; cbn [foldl].
  - by rewrite app_nil_r.
  - specialize (IH (items ++ [i]) _ (segment_item_ok id items a i Hi Ha)).
    by rewrite <- app_assoc in IH.
Qed.

Definition set_active (st : scan) a suffix : scan :=
  mkScan a (base_replacement_history st) (previous_turn_settings st) (scan_reference st)
    (world_state_replay st) (pending_rollback_turns st) suffix.

(** The items of a turn only change its segment. *)
Lemma scan_body id l older newer st :
  Forall (in_turn id) l → scan_done st = false →
  ∃ newer' suffix, scan_items inter_agent (l ++ older) newer st
    = scan_items inter_agent older newer'
        (set_active st (foldl (λ a i, segment_item inter_agent i a) (active_segment st) l) suffix).
Proof.
  intros Hl. revert newer st. induction Hl as [|i l Hi _ IH]; intros newer st Hd.
  - exists newer, (rollout_suffix st). by destruct st.
  - assert (Hs : ∃ suffix, scan_item inter_agent i newer st
        = set_active st (segment_item inter_agent i (active_segment st)) suffix).
    { destruct i; try done; by eexists. }
    destruct Hs as [suffix Hs]. cbn [app scan_items]. rewrite Hs.
    replace (scan_done (set_active st _ suffix)) with (scan_done st) by by destruct st.
    rewrite Hd. destruct (IH (i :: newer) (set_active st
      (segment_item inter_agent i (active_segment st)) suffix)) as (n' & s' & E); [by destruct st|].
    exists n', s'. by rewrite E.
Qed.

(** A base is one of a compaction that the scan has collected. *)
Definition base_collected (st : scan) : Prop :=
  is_Some (base_replacement_history st) → existsb is_compacted (world_state_replay st) = true.

Lemma existsb_compacted_filter l : existsb is_compacted (List.filter is_record l) = existsb is_compacted l.
Proof. induction l as [|i l IH]; [done|]. destruct i; cbn; by rewrite ?IH. Qed.

(** At the start of its turn, a segment is merged or, while a rollback is pending, dropped. *)
Lemma scan_turn_started id l newer st :
  Forall (in_turn id) l → base_collected st → active_segment st = None → (0 ≤ pending_rollback_turns st)%Z →
  ∀ suffix, let st' := scan_item inter_agent (TurnStarted id) newer
    (set_active st (foldl (λ a i, segment_item inter_agent i a) None l) suffix) in
  active_segment st' = None ∧ base_collected st'
  ∧ if (0 <? pending_rollback_turns st)%Z
    then scan_done st' = scan_done st ∧ world_state_replay st' = world_state_replay st
         ∧ pending_rollback_turns st'
           = (if existsb counts l then pending_rollback_turns st - 1 else pending_rollback_turns st)%Z
    else world_state_replay st' = world_state_replay st ++ List.filter is_record l
         ∧ pending_rollback_turns st' = pending_rollback_turns st.
Proof.
  intros Hl Hb Ha Hp suffix. pose proof (segment_items_ok id l [] None Hl (conj eq_refl eq_refl)) as Hs.
  cbn [app] in Hs. cbn [scan_item set_active active_segment].
  destruct (foldl _ None l) as [seg|]; cbn [seg_ok] in Hs.
  - destruct Hs as (Hid & Hc & Hr & Hbase).
    assert (turn_ids_are_compatible (seg_turn_id seg) (Some id) = true) as ->.
    { destruct Hid as [->| ->]; [done|]. cbn. apply bool_decide_true. done. }
    unfold finalize_active_segment. cbn. destruct (0 <? pending_rollback_turns st)%Z; cbn.
    + rewrite Hc. done.
    + rewrite Hr. split_and!; try done. intros Hsome. cbn in *. rewrite existsb_app.
      rewrite existsb_compacted_filter. destruct (base_replacement_history st) eqn:Eb.
      * rewrite Hb by (rewrite Eb; by eexists). done.
      * rewrite Hbase by done. apply orb_true_r.
  - destruct Hs as [Hf Hc]. cbn. rewrite Hf, Hc, app_nil_r. split_and!; try done.
    by destruct (0 <? _)%Z.
Qed.

(** The sum of the rollbacks, which the scan keeps as a [usize]. *)
Definition rollbacks (es : list Entry) : Z :=
  foldr (λ e acc, match e with Rollback n => n + acc | _ => acc end)%Z 0%Z es.

Lemma rollbacks_snoc es e :
  rollbacks (es ++ [e]) = (rollbacks es + match e with Rollback n => n | _ => 0 end)%Z.
Proof. induction es as [|e' es IH]; cbn; [by destruct e; lia|]. fold rollbacks. unfold rollbacks in IH. rewrite IH. destruct e'; lia. Qed.

Lemma rollbacks_bound es :
  Forall entry_ok es → (0 ≤ rollbacks es ≤ Z.of_nat (length (flatten es)) * (2 ^ 32 - 1))%Z.
Proof.
  induction 1 as [|e es He _ IH]; [done|]. unfold flatten in *. cbn [map concat rollbacks foldr].
  fold (rollbacks es). rewrite length_app, Nat2Z.inj_add.
  destruct e as [id b|n|i]; cbn [entry_items length entry_ok] in *; lia.
Qed.

(** What the scan collects replays to what the surviving turns replay to. *)
Lemma scan_flatten es newer st :
  Forall entry_ok es → active_segment st = None → scan_done st = false → base_collected st →
  (0 ≤ pending_rollback_turns st)%Z → (pending_rollback_turns st + rollbacks es ≤ USIZE_MAX)%Z →
  Forall (λ i, is_record i = true) (world_state_replay st) →
  let st' := scan_items inter_agent (rev (flatten es)) newer st in
  (active_segment st' = None ∧ Forall (λ i, is_record i = true) (world_state_replay st'))
  ∧ foldl replay_step None (rev (world_state_replay st'))
    = foldl replay_step None (surviving_log (drop_newest (pending_rollback_turns st) (surviving es))
        ++ rev (world_state_replay st)).
Proof.
  revert newer st. induction es as [|e es IH] using rev_ind; intros newer st Hok Ha Hd Hb Hp Hm Hrec; [done|].
  apply Forall_app in Hok as [Hok He]. apply List.Forall_inv in He. rewrite flatten_snoc, rev_app_distr, surviving_snoc.
  rewrite rollbacks_snoc in Hm. pose proof (rollbacks_bound es Hok) as [Hnn _].
  destruct e as [id body|n|i]; cbn [entry_items entry_ok] in *.
  - cbn [rev]. rewrite <- app_assoc. cbn [app].
    destruct (scan_body id (rev body) (TurnStarted id :: rev (flatten es)) newer st) as (n' & suf & ->);
      [by apply List.Forall_rev|done|]. cbn zeta. rewrite Ha. cbn [scan_items].
    destruct (scan_turn_started id (rev body) n' st (List.Forall_rev He) Hb Ha Hp suf) as (Ha' & Hb' & Hw).
    set (st' := scan_item _ _ _ _) in *. clearbody st'.
    rewrite existsb_rev, List.filter_rev in Hw. fold (user_turn body) in Hw.
    cbn [push_entry drop_newest]. destruct (Z.ltb_spec 0 (pending_rollback_turns st)) as [Hlt|Hge].
    + destruct Hw as (Hd' & Hw & Hp'). rewrite Hd', Hd.
      destruct (IH (TurnStarted id :: n') st') as [Hact E]; try done; try congruence;
        [destruct (user_turn body); lia..|].
      split; [done|]. by rewrite E, Hp', Hw.
    + destruct Hw as [Hw Hp']. rewrite surviving_log_cons, <- app_assoc.
      assert (Hl : List.filter is_record body ++ rev (world_state_replay st)
        = rev (world_state_replay st')).
      { by rewrite Hw, rev_app_distr, rev_involutive. }
      assert (Hrec' : Forall (λ i, is_record i = true) (world_state_replay st')).
      { rewrite Hw. apply Forall_app. split; [done|]. apply List.Forall_rev, filter_records. }
      rewrite Hl. destruct (scan_done st') eqn:Hd'.
      * split; [done|]. rewrite foldl_app. apply replay_reset. rewrite existsb_rev. apply Hb'.
        unfold scan_done in Hd'. destruct (base_replacement_history st'); [by eexists|done].
      * destruct (IH (TurnStarted id :: n') st') as [Hact E]; try done; [lia..|].
        split; [done|]. by rewrite E, drop_newest_0 by lia.
  - cbn [rev app scan_items push_entry scan_item]. rewrite Z.min_l by lia. set (st' := mkScan _ _ _ _ _ _ _).
    replace (scan_done st') with (scan_done st) by by destruct st. rewrite Hd.
    assert (Hd' : scan_done st' = false) by (by destruct st).
    destruct (IH (ThreadRolledBack n :: newer) st') as [Hact E]; try done; [cbn; lia..|].
    split; [done|]. rewrite E. cbn. by rewrite drop_newest_add by lia.
  - cbn [rev app scan_items push_entry].
    assert (scan_item inter_agent i newer st = st) as ->.
    { destruct st; cbn in Ha; subst. by destruct i. }
    rewrite Hd. apply IH; try done. lia.
Qed.

(** The reconstruction gives what the surviving turns told the model. *)
Lemma reconstruct_told es :
  Forall entry_ok es → (Z.of_nat (length (flatten es)) ≤ 2 ^ 32)%Z →
  ∃ r, reconstruct_history_from_rollout inter_agent (flatten es) = Some r
    ∧ rr_world_state_baseline r = told es.
Proof.
  intros Hok Hn. pose proof (rollbacks_bound es Hok) as [_ Hr].
  destruct (scan_flatten es [] (mkScan None None None NeverSet [] 0 (flatten es)) Hok)
    as [[Ha Hrec] E]; try done; [by intros [? ?]|unfold USIZE_MAX; cbn; lia|].
  unfold reconstruct_history_from_rollout, scan_rollout. rewrite Ha.
  cbn in E. rewrite drop_newest_0, app_nil_r in E by lia.
  rewrite replay_total by by apply List.Forall_rev. rewrite E. by eexists.
Qed.

(** *** Within a turn *)

Lemma told_extend es id body l :
  told (es ++ [Turn id (body ++ l)])
  = foldl replay_step (told (es ++ [Turn id body])) (List.filter is_record l).
Proof.
  unfold told. rewrite !surviving_snoc. cbn [push_entry].
  by rewrite !surviving_log_cons, List.filter_app, !foldl_app.
Qed.

Lemma told_start es id : told (es ++ [Turn id []]) = told es.
Proof.
  unfold told. rewrite surviving_snoc. cbn [push_entry]. rewrite surviving_log_cons. cbn.
  by rewrite app_nil_r.
Qed.

Lemma told_outside es i : told (es ++ [Outside i]) = told es.
Proof. unfold told. by rewrite surviving_snoc. Qed.
End reconstruction.

(** ** Sessions

    A turn builds a world state at its start and at every step, and keeps the one it
    built last; a compaction before that has none to inject or builds one of its own, and
    one during the steps injects the turn's.  Rollbacks come between turns. *)

Section sessions.
Context `{WireTypes} {Number : Type} `{EqDecision Number} {Fragment Other : Type} `{EqDecision Other}.
Context (inter_agent : str → bool) (est_audio : str → Z).
Context (merge : list Fragment → list ResponseItem) (prepare : list ResponseItem → list ResponseItem).

Abbreviation record := (@RolloutItem _ Number Other) (only parsing).
Abbreviation session := (@Session _ Number Other) (only parsing).
Abbreviation world := (@WorldState Number Fragment) (only parsing).
Abbreviation baseline s := (world_state_baseline (history s)).

(** The session, the turn that runs, and the world state [run_turn] owns. *)
Record Live : Type := mkLive {
  the_session : session;
  running : option str;
  owned : option world;
}.

Inductive session_step : Live → Live → Prop :=
| step_turn_started (s : session) id :
    session_step (mkLive s None None) (mkLive (persist_rollout_items s [TurnStarted id]) (Some id) None)
| step_turn_over (s : session) id ws (e : record) :
    e = TurnComplete id ∨ e = TurnAborted (Some id) ∨ e = TurnAborted None →
    session_step (mkLive s (Some id) ws) (mkLive (persist_rollout_items s [e]) None None)
| step_event (s : session) id ws (e : record) :
    in_turn id e → is_record e = false →
    session_step (mkLive s (Some id) ws) (mkLive (persist_rollout_items s [e]) (Some id) ws)
| step_outside (s : session) (e : record) :
    entry_ok (Outside e) →
    session_step (mkLive s None None) (mkLive (persist_rollout_items s [e]) None None)
| step_record (s : session) id ws l policy s' :
    record_conversation_items est_audio prepare s l policy = Some s' →
    session_step (mkLive s (Some id) ws) (mkLive s' (Some id) ws)
| step_context_updates (s : session) id ws ctx initial contributions policy s' :
    in_turn id (TurnContext ctx : record) →
    record_context_updates_and_set_reference_context_item est_audio merge prepare
      s ws ctx initial contributions policy = Some s' →
    session_step (mkLive s (Some id) None) (mkLive s' (Some id) (Some ws))
| step_world_state (s : session) id previous ws policy s' :
    record_step_world_state_if_changed est_audio merge prepare s previous ws policy = Some s' →
    session_step (mkLive s (Some id) (Some previous)) (mkLive s' (Some id) (Some ws))
| step_compact_before (s : session) id l reference (ws : option world) :
    (∀ ctx, reference = Some ctx → in_turn id (TurnContext ctx : record)) →
    session_step (mkLive s (Some id) None)
      (mkLive (replace_compacted_history s l reference ws) (Some id) None)
| step_compact_during (s : session) id l ctx ws :
    in_turn id (TurnContext ctx : record) →
    session_step (mkLive s (Some id) (Some ws))
      (mkLive (replace_compacted_history s l (Some ctx) (Some ws)) (Some id) (Some ws))
| step_rollback (s : session) n l s' :
    (0 ≤ n < 2 ^ 32)%Z → thread_rollback inter_agent s false n l = Some s' →
    session_step (mkLive s None None) (mkLive s' None None)
| step_rollback_in_turn (s : session) id ws n l s' :
    (0 ≤ n < 2 ^ 32)%Z → thread_rollback inter_agent s true n l = Some s' →
    session_step (mkLive s (Some id) ws) (mkLive s' (Some id) ws)
| step_resume (s : session) turn ws l s' :
    apply_rollout_reconstruction inter_agent s (rollout s) l = Some s' →
    session_step (mkLive s turn ws) (mkLive s' None None).

(** *** What the operations persist and set *)

(** The records of a turn that an operation appends, and those of them that are replayed. *)
Definition emits (id : str) (s s' : session) (log : list record) : Prop :=
  ∃ ext, rollout s' = rollout s ++ ext ∧ Forall (in_turn id) ext ∧ List.filter is_record ext = log.

Lemma emits_refl id s s' : rollout s' = rollout s → emits id s s' [].
Proof. intros E. exists []. by rewrite E, app_nil_r. Qed.

Lemma emits_trans id s1 s2 s3 l1 l2 : emits id s1 s2 l1 → emits id s2 s3 l2 → emits id s1 s3 (l1 ++ l2).
Proof.
  intros (e1 & E1 & F1 & <-) (e2 & E2 & F2 & <-). exists (e1 ++ e2).
  by rewrite E2, E1, <- app_assoc, Forall_app, List.filter_app.
Qed.

Lemma emits_persist id s cm l :
  Forall (in_turn id) l →
  emits id s (persist_rollout_items (mkSession cm (rollout s)) l) (List.filter is_record l).
Proof. intros Hl. by exists l. Qed.

Lemma record_items_baseline (cm cm' : @ContextManager _ (@TurnContextItem Other) (@WorldStateSnapshot Number))
    l policy :
  record_items est_audio cm l policy = Some cm' → world_state_baseline cm' = world_state_baseline cm.
Proof.
  revert cm. induction l as [|i l IH]; intros cm; cbn [record_items]; [by intros [= <-]|].
  destruct (negb _); [apply IH|]. intros (p & _ & Hl)%bind_Some. by rewrite (IH _ Hl).
Qed.

Lemma record_conversation_emits id s s' l policy :
  record_conversation_items est_audio prepare s l policy = Some s' →
  emits id s s' [] ∧ baseline s' = baseline s.
Proof.
  unfold record_conversation_items. intros (cm & Hr & [= <-])%bind_Some.
  split; [|by apply record_items_baseline in Hr].
  assert (Hf : List.filter is_record (map ResponseRecord (prepare l) : list record) = []).
  { clear. induction (prepare l) as [|x xs IH]; [done|exact IH]. }
  rewrite <- Hf. apply emits_persist. apply list.Forall_fmap. by apply Forall_true.
Qed.

Lemma record_some_emits id s s' l policy :
  record_some_items est_audio prepare s l policy = Some s' →
  emits id s s' [] ∧ baseline s' = baseline s.
Proof.
  destruct l; cbn [record_some_items]; [|apply record_conversation_emits].
  intros [= <-]. split; [by apply emits_refl|done].
Qed.

Lemma persist_world_state_emits id s cm item :
  emits id s (persist_world_state (mkSession cm (rollout s)) item)
    (option_list (WorldStateRecord <$> item)).
Proof. destruct item; [by apply emits_persist, Forall_singleton|by apply emits_refl]. Qed.

Lemma step_world_state_emits id s s' previous ws policy :
  record_step_world_state_if_changed est_audio merge prepare s previous ws policy = Some s' →
  emits id s s' (option_list (WorldStateRecord <$>
    (mkWorldStateItem false <$> merge_patch_from (snapshot ws) (snapshot previous))))
  ∧ baseline s' = Some (snapshot ws).
Proof.
  unfold record_step_world_state_if_changed. intros (s1 & (He & _)%(record_some_emits id) & [= <-])%bind_Some.
  split; [|by destruct (merge_patch_from _ _)].
  by apply (emits_trans id _ _ _ [] _ He), persist_world_state_emits.
Qed.

(** The item of an update, or the full one. *)
Definition context_item (s : session) (ws : world) : option WorldStateItem :=
  match reference_context_item (history s) with
  | None => Some (mkWorldStateItem true (Object (snapshot ws)))
  | Some _ => (update_world_state (history s) ws).1.2
  end.

Lemma context_updates_emit id s s' ws ctx initial contributions policy :
  in_turn id (TurnContext ctx : record) →
  record_context_updates_and_set_reference_context_item est_audio merge prepare
    s ws ctx initial contributions policy = Some s' →
  emits id s s' (option_list (WorldStateRecord <$> context_item s ws))
  ∧ baseline s' = Some (snapshot ws).
Proof.
  intros Hctx. unfold record_context_updates_and_set_reference_context_item, context_item.
  set (triple := match reference_context_item (history s) with None => _ | Some _ => _ end).
  assert (Ht : triple.1.2 = match reference_context_item (history s) with
      | None => Some (mkWorldStateItem true (Object (snapshot ws)))
      | Some _ => (update_world_state (history s) ws).1.2 end
    ∧ world_state_baseline triple.2 = Some (snapshot ws)).
  { unfold triple. by destruct (reference_context_item (history s)). }
  destruct Ht as [<- Hb]. clearbody triple. destruct triple as [[context_items item] cm].
  cbn [fst snd] in *. destruct (_ && _) eqn:Hskip.
  - apply andb_true_iff in Hskip as [_ Hi]. destruct item; [done|]. intros [= <-].
    split; [by apply emits_refl|done].
  - intros (s1 & (He & Hb1)%(record_some_emits id) & Hs')%bind_Some. cbn in Hb1.
    assert (E1 : emits id s (persist_world_state s1 item) (option_list (WorldStateRecord <$> item))).
    { apply (emits_trans id s s1 _ []); [exact He|]. destruct s1. apply persist_world_state_emits. }
    assert (B1 : baseline (persist_world_state s1 item) = Some (snapshot ws)).
    { destruct item; cbn; congruence. }
    revert Hs'. destruct (negb _ && _); [by intros [= <-]|]. intros [= <-]. split; [|exact B1].
    rewrite <- (app_nil_r (option_list _)). eapply emits_trans; [exact E1|].
    by apply (emits_persist id _ _ [TurnContext ctx]), Forall_singleton.
Qed.

Lemma compact_emits id (s : session) l reference (ws : option world) :
  (∀ ctx, reference = Some ctx → in_turn id (TurnContext ctx : record)) →
  let s' := replace_compacted_history s l reference ws in
  emits id s s' (Compacted (Some l) :: match ws with
    | Some ws => [WorldStateRecord (mkWorldStateItem true (Object (snapshot ws)))]
    | None => []
    end)
  ∧ baseline s' = match ws with Some ws => Some (snapshot ws) | None => None end.
Proof.
  intros Hr. unfold replace_compacted_history, emits. destruct ws as [ws|], reference as [ctx|];
    (split; [|done]); cbn.
  - exists [Compacted (Some l); WorldStateRecord (mkWorldStateItem true (Object (snapshot ws))); TurnContext ctx].
    rewrite <- !app_assoc. split_and!; [done| |done]. repeat apply Forall_cons_2; try done; by apply Hr.
  - exists [Compacted (Some l); WorldStateRecord (mkWorldStateItem true (Object (snapshot ws)))].
    rewrite <- !app_assoc. split_and!; [done| |done]. by repeat apply Forall_cons_2.
  - exists [Compacted (Some l); TurnContext ctx].
    rewrite <- !app_assoc. split_and!; [done| |done]. repeat apply Forall_cons_2; try done; by apply Hr.
  - exists [Compacted (Some l)]. split_and!; [done| |done]. by repeat apply Forall_cons_2.
Qed.

(** What the items of an update do to the replayed baseline. *)
Lemma replay_patch (previous : @WorldStateSnapshot Number) (ws : world) :
  foldl replay_step (Some previous) (option_list (WorldStateRecord <$>
    (mkWorldStateItem false <$> merge_patch_from (snapshot ws) previous)) : list record)
  = Some (snapshot ws).
Proof.
  unfold merge_patch_from. destruct (create_merge_patch _ _) as [patch|] eqn:Hp; cbn.
  - unfold apply_merge_patch. by rewrite (merge_patch_correct _ _ _ (snapshot_null_free ws) Hp).
  - by apply create_none in Hp as [= <-].
Qed.

Lemma replay_context_item (s : session) (ws : world) :
  foldl replay_step (baseline s) (option_list (WorldStateRecord <$> context_item s ws) : list record)
  = Some (snapshot ws).
Proof.
  unfold context_item. destruct (reference_context_item (history s)); [|done].
  unfold update_world_state. cbn [fst snd]. destruct (baseline s); [apply replay_patch|done].
Qed.

(** *** The invariant *)

(** The rollout has the shape of entries, a running turn is its last, what the entries
    told is the baseline, and so is the world state a turn owns. *)
Definition in_sync (l : Live) : Prop :=
  (∃ es, rollout (the_session l) = flatten es ∧ Forall entry_ok es
     ∧ told inter_agent es = baseline (the_session l)
     ∧ match running l with
       | Some id => ∃ es' body, es = es' ++ [Turn id body]
       | None => True
       end)
  ∧ match owned l with Some ws => baseline (the_session l) = Some (snapshot ws) | None => True end.

(** An operation of a running turn keeps the invariant when the baseline it sets is what
    its records replay to. *)
Lemma in_sync_emits s s' id ws ws' log :
  in_sync (mkLive s (Some id) ws) → emits id s s' log →
  foldl replay_step (baseline s) log = baseline s' →
  match ws' with Some w => baseline s' = Some (snapshot w) | None => True end →
  in_sync (mkLive s' (Some id) ws').
Proof.
  intros [(es & Hr & Hok & Ht & (es' & body & ->)) _] (ext & E & Hext & <-) Hb Hw. split; [|exact Hw].
  cbn [the_session running] in *. exists (es' ++ [Turn id (body ++ ext)]).
  rewrite E, Hr, !flatten_snoc, told_extend, Ht. apply Forall_app in Hok as [Hok Hbody].
  apply List.Forall_inv in Hbody. split_and!; [|..|by eauto].
  - cbn [entry_items]. by rewrite <- app_assoc.
  - apply Forall_app. split; [done|]. apply Forall_singleton, Forall_app. done.
  - exact Hb.
Qed.

Lemma in_sync_snoc es s s' e turn :
  rollout s = flatten es → Forall entry_ok es → rollout s' = rollout s ++ entry_items e → entry_ok e →
  told inter_agent (es ++ [e]) = baseline s' →
  match turn with Some id => ∃ body, e = Turn id body | None => True end →
  in_sync (mkLive s' turn None).
Proof.
  intros Hr Hok E He Hb Hturn. split; [|done]. exists (es ++ [e]). cbn.
  rewrite E, Hr, flatten_snoc. split_and!; [done| |done|].
  - apply Forall_app. split; [done|]. by apply Forall_singleton.
  - destruct turn; [|done]. destruct Hturn as [body ->]. eauto.
Qed.

Lemma apply_reconstruction_baseline (s : session) rollout_items l (s' : session) :
  apply_rollout_reconstruction inter_agent s rollout_items l = Some s' →
  rollout s' = rollout s
  ∧ ∃ r, reconstruct_history_from_rollout inter_agent rollout_items = Some r
      ∧ baseline s' = rr_world_state_baseline r.
Proof.
  unfold apply_rollout_reconstruction. intros (r & Hr & [= <-])%bind_Some. split; [done|].
  exists r. split; [done|]. cbn. by destruct (rr_world_state_baseline r).
Qed.

Lemma session_step_grows l l' : session_step l l' →
  ∃ ext, rollout (the_session l') = rollout (the_session l) ++ ext.
Proof.
  assert (Hid : ∀ s : session, ∃ ext, rollout s = rollout s ++ ext) by (exists []; by rewrite app_nil_r).
  intros Hs. destruct Hs as [| | | |s id ws l p s' Hr|s id ws ctx ini con p s' Hc Hr
    |s id pr ws p s' Hr|s id l r ws Hr|s id l ctx ws Hr|s n l s' Hn Hr|s id ws n l s' Hn Hr|s turn ws l s' Hr]; cbn;
    try by eexists.
  - apply (record_conversation_emits id) in Hr as [(ext & E & _) _]. by exists ext.
  - apply (context_updates_emit id) in Hr as [(ext & E & _) _]; [by exists ext|done].
  - apply (step_world_state_emits id) in Hr as [(ext & E & _) _]. by exists ext.
  - destruct (compact_emits id s l r ws Hr) as [(ext & E & _) _]. by exists ext.
  - destruct (compact_emits id s l (Some ctx) (Some ws)) as [(ext & E & _) _]; [by intros ? [= <-]|].
    by exists ext.
  - unfold thread_rollback in Hr. destruct (n =? 0)%Z; [by injection Hr as <-|].
    apply bind_Some in Hr as (s1 & [E _]%apply_reconstruction_baseline & [= <-]). cbn. rewrite E. by eexists.
  - unfold thread_rollback in Hr. destruct (n =? 0)%Z; injection Hr as <-; apply Hid.
  - apply apply_reconstruction_baseline in Hr as [-> _]. apply Hid.
Qed.

Lemma session_step_in_sync l l' :
  session_step l l' → (Z.of_nat (length (rollout (the_session l'))) ≤ 2 ^ 32)%Z → in_sync l → in_sync l'.
Proof.
  intros Hs Hn Hl. pose proof Hl as [(es & Er & Hok & Ht & Hrun) Hw].
  destruct Hs as [s id|s id ws e He|s id ws e He Hf|s e He|s id ws l p s' Hr|s id ws ctx ini con p s' Hc Hr
    |s id pr ws p s' Hr|s id l r ws Hr|s id l ctx ws Hr|s n l s' Hn' Hr|s id ws n l s' Hn' Hr|s turn ws l s' Hr];
    cbn [the_session running owned] in *.
  - apply (in_sync_snoc es s _ (Turn id [])); try done; [constructor|by rewrite told_start|by eexists].
  - assert (Hin : in_turn id e ∧ is_record e = false) by (by destruct He as [->|[->| ->]]; cbn; auto).
    destruct Hin as [Hin Hf].
    assert (Hg : in_sync (mkLive (persist_rollout_items s [e]) (Some id) None)).
    { eapply in_sync_emits; [exact Hl|by exists [e]; split; [|split; [apply Forall_singleton|]]| |done].
      cbn. by rewrite Hf. }
    destruct Hg as [(es' & E1 & E2 & E3 & _) _]. split; [|done]. exists es'. done.
  - eapply in_sync_emits; [exact Hl|by exists [e]; split; [|split; [apply Forall_singleton|]]| |exact Hw].
    cbn. by rewrite Hf.
  - apply (in_sync_snoc es s _ (Outside e)); try done. by rewrite told_outside.
  - apply (record_conversation_emits id) in Hr as [He Hb].
    eapply in_sync_emits; [exact Hl|exact He|done|]. by rewrite Hb.
  - apply (context_updates_emit id) in Hr as [He Hb]; [|done].
    eapply in_sync_emits; [exact Hl|exact He| |done]. rewrite replay_context_item. done.
  - apply (step_world_state_emits id) in Hr as [He Hb].
    eapply in_sync_emits; [exact Hl|exact He| |done]. by rewrite Hw, replay_patch.
  - destruct (compact_emits id s l r ws Hr) as [He Hb].
    eapply in_sync_emits; [exact Hl|exact He| |done]. rewrite Hb. by destruct ws.
  - destruct (compact_emits id s l (Some ctx) (Some ws)) as [He Hb]; [by intros ? [= <-]|].
    eapply in_sync_emits; [exact Hl|exact He| |]; by rewrite Hb.
  - unfold thread_rollback in Hr. destruct (n =? 0)%Z; [by injection Hr as <-|].
    apply bind_Some in Hr as (s1 & (E & r & Hr & Hb)%apply_reconstruction_baseline & [= <-]).
    destruct (reconstruct_told inter_agent (es ++ [Rollback n])) as (r' & Hr' & Hb').
    { apply Forall_app. split; [done|]. by apply Forall_singleton. }
    { cbn in Hn. rewrite E, Er in Hn. by rewrite flatten_snoc. }
    apply (in_sync_snoc es s _ (Rollback n)); try done; [cbn; by rewrite E|].
    rewrite flatten_snoc, <- Er in Hr'. cbn in Hr', Hb |- *. congruence.
  - unfold thread_rollback in Hr. destruct (n =? 0)%Z; by injection Hr as <-.
  - apply apply_reconstruction_baseline in Hr as (E & r & Hr & Hb). split; [|done]. cbn.
    rewrite E in *. exists es. split_and!; try done.
    destruct (reconstruct_told inter_agent es Hok) as (r' & Hr' & Hb'); [by rewrite <- Er|].
    rewrite Er in Hr. congruence.
Qed.

Lemma session_in_sync l0 l :
  rtc session_step l0 l → in_sync l0 → (Z.of_nat (length (rollout (the_session l))) ≤ 2 ^ 32)%Z → in_sync l.
Proof.
  intros Hs. revert l Hs. apply (rtc_ind_r (λ l, in_sync l0 → _ → in_sync l)); [done|].
  intros l l' _ Hs IH H0 Hn. apply (session_step_in_sync l l' Hs Hn), IH; [done|].
  destruct (session_step_grows l l' Hs) as [ext E]. rewrite E, length_app in Hn. lia.
Qed.

End sessions.

(** A section that serializes to an object with one field. *)
Definition sample_section (v : string) : @Section_ Z unit := {|
  serialized := Some (Object {[ lit "v" := String_ (lit v); lit "none" := Null ]});
  matches_legacy_fragment := λ _ _, false;
  has_retained_fragment_matcher := false;
  matches_retained_fragment := λ _ _, false;
  render_diff := λ _, Some tt;
|}.

Definition sample_manager : @ContextManager TextWire (@TurnContextItem unit) (@WorldStateSnapshot Z) :=
  mkManager [] 0 None None None.

Definition sample_context (id : string) : @TurnContextItem unit :=
  mkTurnContext (Some (lit id)) (lit "m") None None tt.

Abbreviation sample_record := (@RolloutItem TextWire Z unit) (only parsing).

(** The world of a step with the sections [a] and [b]. *)
Definition sample_world (a b : string) : @WorldState Z unit :=
  [(lit "a", sample_section a); (lit "b", sample_section b)].

Definition sample_value (v : string) : JsonValue.Value Z := Object {[ lit "v" := String_ (lit v) ]}.

Abbreviation sample_step :=
  (session_step (Other := unit) (λ _, false) (λ _, 0%Z) (λ _, [user_says "state"]) (λ l, l))
  (only parsing).


(** The suffix the history is rebuilt from moves behind a compaction when the compaction is
    seen, also when its turn is then rolled back: no checkpoint survives here, and the
    records of the first turn are not in the suffix. *)
Lemma rolled_back_compaction_cuts_suffix :
  let rollout : list sample_record :=
    [TurnStarted (lit "1"); UserMessage; ResponseRecord (user_says "hi"); TurnComplete (lit "1");
     TurnStarted (lit "2"); UserMessage; ResponseRecord (user_says "more");
     Compacted (Some [user_says "summary"]); TurnComplete (lit "2"); ThreadRolledBack 1] in
  let st := scan_rollout (λ _, false) rollout in
  base_replacement_history st = None
  ∧ rollout_suffix st = [TurnComplete (lit "2"); ThreadRolledBack 1].
Proof. split; vm_compute; reflexivity. Qed.
