(* ===== verification/ThreadItems.v ===== *)
(** * Events and items of a thread: [protocol/src/protocol.rs], [protocol/src/items.rs],
    [cli-protocol/src/protocol/v2] and [cli-protocol/src/protocol/item_builders.rs]

    The events the agent records in a rollout, the items of a turn as the core
    produces them ([CoreTurnItem]) and as clients see them ([ThreadItem]), and the
    conversions between them.  A module [X] holds the type [X.t] and its conversions;
    the prefix [Core] is the one the sources use for the types of [protocol].  A
    [PathBuf] is its text, a [PathUri] the text of the URI, a [ThreadId] the number of
    its UUID, a [Duration] its nanoseconds, and an [f32] its bits.  JSON values are
    carried and never inspected. *)

From Stdlib Require Import String ZArith NArith.
From stdpp Require Import base option list numbers gmap.
From S2P Require Import Prelude StrBytes Models.

(** The code outside the sources: [uuid] ([thread_id_to_string]), [shlex] and the
    crates below [codex_secrets] and [codex_utils_path_uri]; and the payloads that
    thread history never looks into. *)
Class HistoryEnv := {
  thread_id_to_string : N → str;
  shlex_try_join : list str → option str;
  redact_secrets : str → str;
  path_uri_join : str → str → option str;
  legacy_app_path : str → str;
  SessionMetaRest : Type;
  InterAgentCommunication : Type;
  TurnContextItem : Type;
  WorldStateItem : Type;
  GuardianAssessmentEvent : Type;
  ApplyPatchApprovalRequestEvent : Type;
  TokenCountEvent : Type;
  OtherEvent : Type;
}.

(** ** Durations: [Duration::as_millis] and [i64::try_from] *)
Abbreviation Duration := N (only parsing).
Definition as_millis (d : Duration) : Z := Z.of_N (d / 1000000)%N.
Definition i64_try_from (z : Z) : option Z :=
  if (z <=? I64_MAX)%Z then Some z else None.

(** [sort] of strings: insertion in byte order, which is the order of code points. *)
Fixpoint insert_str (s : str) (l : list str) : list str :=
  match l with
  | [] => [s]
  | t :: l' => if str_ltb t s then t :: insert_str s l' else s :: l
  end.
Definition sort_strs (l : list str) : list str := foldr insert_str [] l.

(** ** The types of [protocol] *)
Abbreviation ThreadId := N (only parsing).

Module AgentStatus.
Inductive t : Type :=
| PendingInit
| Running
| Interrupted
| Completed (message : option str)
| Errored (message : str)
| Shutdown
| NotFound.
End AgentStatus.

Inductive ReasoningEffort : Type :=
| EffortNone | EffortMinimal | EffortLow | EffortMedium | EffortHigh | EffortXHigh
| EffortMax | EffortUltra | EffortCustom (effort : str).

Module ExecCommandSource.
Inductive t : Type := Agent | UserShell | UnifiedExecStartup | UnifiedExecInteraction.
End ExecCommandSource.

Module ExecCommandStatus.
Inductive t : Type := Completed | Failed | Declined.
End ExecCommandStatus.

Module CorePatchApplyStatus.
Inductive t : Type := Completed | Failed | Declined.
End CorePatchApplyStatus.

Module FileChange.
Inductive t : Type :=
| Add (content : str)
| Delete (content : str)
| Update (unified_diff : str) (move_path : option str).
End FileChange.

Module ParsedCommand.
Inductive t : Type :=
| Read (cmd name path : str)
| ListFiles (cmd : str) (path : option str)
| Search (cmd : str) (query path : option str)
| Unknown (cmd : str).
End ParsedCommand.

Module CoreSubAgentActivityKind.
Inductive t : Type := Started | Interacted | Interrupted.
End CoreSubAgentActivityKind.

Module NonSteerableTurnKind.
Inductive t : Type := Compact.
End NonSteerableTurnKind.

Module CoreCodexErrorInfo.
Inductive t : Type :=
| ContextWindowExceeded
| SessionBudgetExceeded
| UsageLimitExceeded
| ServerOverloaded
| CyberPolicy
| HttpConnectionFailed (http_status_code : option Z)
| ResponseStreamConnectionFailed (http_status_code : option Z)
| InternalServerError
| Unauthorized
| BadRequest
| SandboxError
| ResponseStreamDisconnected (http_status_code : option Z)
| ResponseTooManyFailedAttempts (http_status_code : option Z)
| ActiveTurnNotSteerable (turn_kind : NonSteerableTurnKind.t)
| ThreadRollbackFailed
| Other.

Definition affects_turn_status (e : t) : bool :=
  match e with
  | ThreadRollbackFailed | ActiveTurnNotSteerable _ => false
  | _ => true
  end.
End CoreCodexErrorInfo.

Module CoreMemoryCitationEntry.
Record t : Type := mk { path : str; line_start : Z; line_end : Z; note : str }.
End CoreMemoryCitationEntry.

Module CoreMemoryCitation.
Record t : Type := mk { entries : list CoreMemoryCitationEntry.t; rollout_ids : list str }.
End CoreMemoryCitation.

Module CoreByteRange.
Record t : Type := mk { start : Z; end_ : Z }.
End CoreByteRange.

Module CoreTextElement.
Record t : Type := mk { byte_range : CoreByteRange.t; placeholder : option str }.
End CoreTextElement.

Module CoreUserInput.
Inductive t : Type :=
| Text (text : str) (text_elements : list CoreTextElement.t)
| Image (image_url : str) (detail : option ImageDetail)
| LocalImage (path : str) (detail : option ImageDetail)
| Audio (audio_url : str)
| LocalAudio (path : str)
| Skill (name path : str)
| Mention (name path : str).
End CoreUserInput.

Module CoreDynamicToolCallOutputContentItem.
Inductive t : Type :=
| InputText (text : str)
| InputImage (image_url : str)
| InputAudio (audio_url : str).
End CoreDynamicToolCallOutputContentItem.

Module ReviewTarget.
Inductive t : Type :=
| UncommittedChanges
| BaseBranch (branch : str)
| Commit (sha : str) (title : option str)
| Custom (instructions : str).
End ReviewTarget.

Module ReviewLineRange.
Record t : Type := mk { start : Z; end_ : Z }.
End ReviewLineRange.

Module ReviewCodeLocation.
Record t : Type := mk { absolute_file_path : str; line_range : ReviewLineRange.t }.
End ReviewCodeLocation.

Module ReviewFinding.
Record t : Type := mk {
  title : str;
  body : str;
  confidence_score : N;
  priority : Z;
  code_location : ReviewCodeLocation.t;
}.
End ReviewFinding.

Module ReviewOutputEvent.
Record t : Type := mk {
  findings : list ReviewFinding.t;
  overall_correctness : str;
  overall_explanation : str;
  overall_confidence_score : N;
}.
End ReviewOutputEvent.

(** ** Items of the extensions: [ext/items] *)
Module ExtWebSearchAction.
Inductive t : Type :=
| Search (query : option str) (queries : option (list str))
| OpenPage (url : option str)
| FindInPage (url pattern : option str)
| Other.
End ExtWebSearchAction.

Module WebSearchItem.
Record t `{WireTypes} : Type := mk {
  id : str;
  query : str;
  action : option ExtWebSearchAction.t;
  results : option (list Value);
}.
End WebSearchItem.

Module SleepItem.
Record t : Type := mk { id : str; duration_ms : Z }.
End SleepItem.

Module ImageGenerationItem.
Record t : Type := mk {
  id : str;
  status : str;
  revised_prompt : option str;
  result : str;
  transparent_background : option bool;
  saved_path : option str;
}.
End ImageGenerationItem.

Module ExtensionItem.
Inductive t `{WireTypes} : Type :=
| ImageGeneration (item : ImageGenerationItem.t)
| Sleep (item : SleepItem.t)
| WebSearch (item : WebSearchItem.t).
End ExtensionItem.

(** ** Items of a turn in the core: [protocol/src/items.rs] *)
Module CoreCommandExecutionStatus.
Inductive t : Type := InProgress | Completed | Failed | Declined.
End CoreCommandExecutionStatus.

Module CoreDynamicToolCallStatus.
Inductive t : Type := InProgress | Completed | Failed.
End CoreDynamicToolCallStatus.

Module CoreCollabAgentTool.
Inductive t : Type := SpawnAgent | SendInput | ResumeAgent | Wait | CloseAgent.
End CoreCollabAgentTool.

Module CoreCollabAgentToolCallStatus.
Inductive t : Type := InProgress | Completed | Failed.
End CoreCollabAgentToolCallStatus.

Module CoreNativeCodeModePhase.
Inductive t : Type :=
| Invocation | Generating | Compiling | Repairing | Running | Repair | Artifact
| Succeeded | Failed | Interrupted.
End CoreNativeCodeModePhase.

Module CollabAgentRef.
Record t : Type := mk {
  thread_id : ThreadId;
  agent_nickname : option str;
  agent_role : option str;
}.
End CollabAgentRef.

Module UserMessageItem.
Record t : Type := mk { id : str; client_id : option str; content : list CoreUserInput.t }.
End UserMessageItem.

(** [AgentMessageContent] has the single variant [Text]. *)
Inductive AgentMessageContent : Type := AgentText (text : str).

Module AgentMessageItem.
Record t : Type := mk {
  id : str;
  content : list AgentMessageContent;
  phase : option MessagePhase;
  memory_citation : option CoreMemoryCitation.t;
}.
End AgentMessageItem.

Module EnteredReviewModeItem.
Record t : Type := mk { id : str; target : ReviewTarget.t; user_facing_hint : str }.
End EnteredReviewModeItem.

Module ExitedReviewModeItem.
Record t : Type := mk { id : str; review_output : option ReviewOutputEvent.t }.
End ExitedReviewModeItem.

Module PlanItem.
Record t : Type := mk { id : str; text : str }.
End PlanItem.

Module ReasoningItem.
Record t : Type := mk { id : str; summary_text : list str; raw_content : list str }.
End ReasoningItem.

Module CommandExecutionItem.
Record t : Type := mk {
  id : str;
  process_id : option str;
  command : list str;
  cwd : str;
  parsed_cmd : list ParsedCommand.t;
  source : ExecCommandSource.t;
  interaction_input : option str;
  status : CoreCommandExecutionStatus.t;
  stdout : option str;
  stderr : option str;
  aggregated_output : option str;
  exit_code : option Z;
  duration : option Duration;
  formatted_output : option str;
}.
End CommandExecutionItem.

Module DynamicToolCallItem.
Record t `{WireTypes} : Type := mk {
  id : str;
  namespace : option str;
  tool : str;
  arguments : Value;
  status : CoreDynamicToolCallStatus.t;
  content_items : option (list CoreDynamicToolCallOutputContentItem.t);
  success : option bool;
  error : option str;
  duration : option Duration;
}.
End DynamicToolCallItem.

Module CollabAgentToolCallItem.
Record t : Type := mk {
  id : str;
  tool : CoreCollabAgentTool.t;
  status : CoreCollabAgentToolCallStatus.t;
  sender_thread_id : ThreadId;
  receiver_thread_ids : list ThreadId;
  receiver_agents : list CollabAgentRef.t;
  prompt : option str;
  model : option str;
  reasoning_effort : option ReasoningEffort;
  agents_states : gmap ThreadId AgentStatus.t;
}.
End CollabAgentToolCallItem.

Module SubAgentActivityItem.
Record t : Type := mk {
  id : str;
  kind : CoreSubAgentActivityKind.t;
  agent_thread_id : ThreadId;
  agent_path : str;
}.
End SubAgentActivityItem.

Module CoreWebSearchItem.
Record t `{WireTypes} : Type := mk {
  id : str;
  query : str;
  action : WebSearchAction;
  results : option (list Value);
}.
End CoreWebSearchItem.

Module ImageViewItem.
Record t : Type := mk { id : str; path : str }.
End ImageViewItem.

Module CoreImageGenerationItem.
Record t : Type := mk {
  id : str;
  status : str;
  revised_prompt : option str;
  result : str;
  saved_path : option str;
}.
End CoreImageGenerationItem.

Module FileChangeItem.
Record t : Type := mk {
  id : str;
  changes : gmap str FileChange.t;
  status : option CorePatchApplyStatus.t;
  auto_approved : option bool;
  stdout : option str;
  stderr : option str;
}.
End FileChangeItem.

Module ContextCompactionItem.
Record t : Type := mk { id : str }.
End ContextCompactionItem.

Module NativeCodeModeItem.
Record t : Type := mk {
  id : str;
  run_id : str;
  phase : CoreNativeCodeModePhase.t;
  text : str;
}.
End NativeCodeModeItem.

Module CoreTurnItem.
Inductive t `{WireTypes} : Type :=
| UserMessage (item : UserMessageItem.t)
| AgentMessage (item : AgentMessageItem.t)
| Plan (item : PlanItem.t)
| Reasoning (item : ReasoningItem.t)
| CommandExecution (item : CommandExecutionItem.t)
| DynamicToolCall (item : DynamicToolCallItem.t)
| CollabAgentToolCall (item : CollabAgentToolCallItem.t)
| SubAgentActivity (item : SubAgentActivityItem.t)
| WebSearch (item : CoreWebSearchItem.t)
| ImageView (item : ImageViewItem.t)
| Extension (item : ExtensionItem.t)
| ImageGeneration (item : CoreImageGenerationItem.t)
| EnteredReviewMode (item : EnteredReviewModeItem.t)
| ExitedReviewMode (item : ExitedReviewModeItem.t)
| FileChange (item : FileChangeItem.t)
| ContextCompaction (item : ContextCompactionItem.t)
| NativeCodeMode (item : NativeCodeModeItem.t).
End CoreTurnItem.

(** ** Events: [protocol/src/protocol.rs] *)
Module ErrorEvent.
Record t : Type := mk { message : str; codex_error_info : option CoreCodexErrorInfo.t }.

Definition affects_turn_status (e : t) : bool :=
  match codex_error_info e with
  | None => true
  | Some info => CoreCodexErrorInfo.affects_turn_status info
  end.
End ErrorEvent.

Module UserMessageEvent.
Record t : Type := mk {
  client_id : option str;
  message : str;
  images : option (list str);
  image_details : list (option ImageDetail);
  local_images : list str;
  local_image_details : list (option ImageDetail);
  audio : option (list str);
  local_audio : list str;
  text_elements : list CoreTextElement.t;
}.
End UserMessageEvent.

Module AgentMessageEvent.
Record t : Type := mk {
  message : str;
  phase : option MessagePhase;
  memory_citation : option CoreMemoryCitation.t;
}.
End AgentMessageEvent.

(** [AgentReasoningEvent] and [AgentReasoningRawContentEvent] hold one text. *)
Record AgentReasoningEvent : Type := mkReasoning { reasoning_text : str }.
Record AgentReasoningRawContentEvent : Type := mkRawReasoning { raw_reasoning_text : str }.

Record WebSearchBeginEvent : Type := mkWebSearchBegin { web_search_begin_call_id : str }.

Module WebSearchEndEvent.
Record t `{WireTypes} : Type := mk {
  call_id : str;
  query : str;
  action : WebSearchAction;
  results : option (list Value);
}.
End WebSearchEndEvent.

Module ExecCommandBeginEvent.
Record t : Type := mk {
  call_id : str;
  process_id : option str;
  turn_id : str;
  started_at_ms : Z;
  command : list str;
  cwd : str;
  parsed_cmd : list ParsedCommand.t;
  source : ExecCommandSource.t;
  interaction_input : option str;
}.
End ExecCommandBeginEvent.

Module ExecCommandEndEvent.
Record t : Type := mk {
  call_id : str;
  process_id : option str;
  turn_id : str;
  completed_at_ms : Z;
  command : list str;
  cwd : str;
  parsed_cmd : list ParsedCommand.t;
  source : ExecCommandSource.t;
  interaction_input : option str;
  stdout : str;
  stderr : str;
  aggregated_output : str;
  exit_code : Z;
  duration : Duration;
  formatted_output : str;
  status : ExecCommandStatus.t;
}.
End ExecCommandEndEvent.

Module PatchApplyBeginEvent.
Record t : Type := mk {
  call_id : str;
  turn_id : str;
  auto_approved : bool;
  changes : gmap str FileChange.t;
}.
End PatchApplyBeginEvent.

Module PatchApplyEndEvent.
Record t : Type := mk {
  call_id : str;
  turn_id : str;
  stdout : str;
  stderr : str;
  success : bool;
  changes : gmap str FileChange.t;
  status : CorePatchApplyStatus.t;
}.
End PatchApplyEndEvent.

Module DynamicToolCallRequest.
Record t `{WireTypes} : Type := mk {
  call_id : str;
  turn_id : str;
  started_at_ms : Z;
  namespace : option str;
  tool : str;
  arguments : Value;
}.
End DynamicToolCallRequest.

Module DynamicToolCallResponseEvent.
Record t `{WireTypes} : Type := mk {
  call_id : str;
  turn_id : str;
  completed_at_ms : Z;
  namespace : option str;
  tool : str;
  arguments : Value;
  content_items : list CoreDynamicToolCallOutputContentItem.t;
  success : bool;
  error : option str;
  duration : Duration;
}.
End DynamicToolCallResponseEvent.

Module ViewImageToolCallEvent.
Record t : Type := mk { call_id : str; path : str }.
End ViewImageToolCallEvent.

Record ImageGenerationBeginEvent : Type := mkImageBegin { image_begin_call_id : str }.

Module ImageGenerationEndEvent.
Record t : Type := mk {
  call_id : str;
  status : str;
  revised_prompt : option str;
  result : str;
  transparent_background : option bool;
  saved_path : option str;
}.
End ImageGenerationEndEvent.

Module CollabAgentSpawnBeginEvent.
Record t : Type := mk {
  call_id : str;
  started_at_ms : Z;
  sender_thread_id : ThreadId;
  prompt : str;
  model : str;
  reasoning_effort : ReasoningEffort;
}.
End CollabAgentSpawnBeginEvent.

Module CollabAgentSpawnEndEvent.
Record t : Type := mk {
  call_id : str;
  completed_at_ms : Z;
  sender_thread_id : ThreadId;
  new_thread_id : option ThreadId;
  new_agent_nickname : option str;
  new_agent_role : option str;
  prompt : str;
  model : str;
  reasoning_effort : ReasoningEffort;
  status : AgentStatus.t;
}.
End CollabAgentSpawnEndEvent.

Module CollabAgentInteractionBeginEvent.
Record t : Type := mk {
  call_id : str;
  started_at_ms : Z;
  sender_thread_id : ThreadId;
  receiver_thread_id : ThreadId;
  prompt : str;
}.
End CollabAgentInteractionBeginEvent.

Module CollabAgentInteractionEndEvent.
Record t : Type := mk {
  call_id : str;
  completed_at_ms : Z;
  sender_thread_id : ThreadId;
  receiver_thread_id : ThreadId;
  receiver_agent_nickname : option str;
  receiver_agent_role : option str;
  prompt : str;
  status : AgentStatus.t;
}.
End CollabAgentInteractionEndEvent.

Module SubAgentActivityEvent.
Record t : Type := mk {
  event_id : str;
  occurred_at_ms : Z;
  agent_thread_id : ThreadId;
  agent_path : str;
  kind : CoreSubAgentActivityKind.t;
}.
End SubAgentActivityEvent.

Module CollabWaitingBeginEvent.
Record t : Type := mk {
  started_at_ms : Z;
  sender_thread_id : ThreadId;
  receiver_thread_ids : list ThreadId;
  receiver_agents : list CollabAgentRef.t;
  call_id : str;
}.
End CollabWaitingBeginEvent.

Module CollabAgentStatusEntry.
Record t : Type := mk {
  thread_id : ThreadId;
  agent_nickname : option str;
  agent_role : option str;
  status : AgentStatus.t;
}.
End CollabAgentStatusEntry.

Module CollabWaitingEndEvent.
Record t : Type := mk {
  sender_thread_id : ThreadId;
  call_id : str;
  completed_at_ms : Z;
  agent_statuses : list CollabAgentStatusEntry.t;
  statuses : gmap ThreadId AgentStatus.t;
}.
End CollabWaitingEndEvent.

Module CollabCloseBeginEvent.
Record t : Type := mk {
  call_id : str;
  started_at_ms : Z;
  sender_thread_id : ThreadId;
  receiver_thread_id : ThreadId;
}.
End CollabCloseBeginEvent.

Module CollabCloseEndEvent.
Record t : Type := mk {
  call_id : str;
  completed_at_ms : Z;
  sender_thread_id : ThreadId;
  receiver_thread_id : ThreadId;
  receiver_agent_nickname : option str;
  receiver_agent_role : option str;
  status : AgentStatus.t;
}.
End CollabCloseEndEvent.

Module CollabResumeBeginEvent.
Record t : Type := mk {
  call_id : str;
  started_at_ms : Z;
  sender_thread_id : ThreadId;
  receiver_thread_id : ThreadId;
  receiver_agent_nickname : option str;
  receiver_agent_role : option str;
}.
End CollabResumeBeginEvent.

Module CollabResumeEndEvent.
Record t : Type := mk {
  call_id : str;
  completed_at_ms : Z;
  sender_thread_id : ThreadId;
  receiver_thread_id : ThreadId;
  receiver_agent_nickname : option str;
  receiver_agent_role : option str;
  status : AgentStatus.t;
}.
End CollabResumeEndEvent.

Module EnteredReviewModeEvent.
Record t : Type := mk {
  target : ReviewTarget.t;
  user_facing_hint : option str;
  turn_id : option str;
  item_id : option str;
}.
End EnteredReviewModeEvent.

Module ExitedReviewModeEvent.
Record t : Type := mk {
  turn_id : option str;
  item_id : option str;
  review_output : option ReviewOutputEvent.t;
}.
End ExitedReviewModeEvent.

Module ItemStartedEvent.
Record t `{WireTypes} : Type := mk {
  thread_id : ThreadId;
  turn_id : str;
  item : CoreTurnItem.t;
  started_at_ms : Z;
}.
End ItemStartedEvent.

Module ItemCompletedEvent.
Record t `{WireTypes} : Type := mk {
  thread_id : ThreadId;
  turn_id : str;
  item : CoreTurnItem.t;
  started_at_ms : option Z;
  completed_at_ms : Z;
}.
End ItemCompletedEvent.

(** [num_turns] is a [u32]. *)
Record ThreadRolledBackEvent : Type := mkRollback { num_turns : Z }.

Inductive TurnAbortReason : Type :=
| AbortInterrupted | AbortReplaced | AbortReviewEnded | AbortBudgetLimited.

Module TurnAbortedEvent.
Record t : Type := mk {
  turn_id : option str;
  reason : TurnAbortReason;
  started_at : option Z;
  completed_at : option Z;
  duration_ms : option Z;
}.
End TurnAbortedEvent.

Module TurnStartedEvent.
Record t : Type := mk {
  turn_id : str;
  trace_id : option str;
  started_at : option Z;
  model_context_window : option Z;
}.
End TurnStartedEvent.

Module TurnCompleteEvent.
Record t : Type := mk {
  turn_id : str;
  last_agent_message : option str;
  error : option ErrorEvent.t;
  started_at : option Z;
  completed_at : option Z;
  duration_ms : option Z;
  time_to_first_token_ms : option Z;
}.
End TurnCompleteEvent.

Module CompactedItem.
Record t `{WireTypes} : Type := mk {
  message : str;
  replacement_history : option (list ResponseItem);
  window_number : option Z;
  first_window_id : option str;
  previous_window_id : option str;
  window_id : option str;
}.
End CompactedItem.

(** The variants that thread history matches on; [Other] stands for all the variants
    its last arm ignores. *)
Module EventMsg.
Inductive t `{WireTypes, HistoryEnv} : Type :=
| UserMessage (payload : UserMessageEvent.t)
| AgentMessage (payload : AgentMessageEvent.t)
| AgentReasoning (payload : AgentReasoningEvent)
| AgentReasoningRawContent (payload : AgentReasoningRawContentEvent)
| WebSearchBegin (payload : WebSearchBeginEvent)
| WebSearchEnd (payload : WebSearchEndEvent.t)
| ExecCommandBegin (payload : ExecCommandBeginEvent.t)
| ExecCommandEnd (payload : ExecCommandEndEvent.t)
| GuardianAssessment (payload : GuardianAssessmentEvent)
| ApplyPatchApprovalRequest (payload : ApplyPatchApprovalRequestEvent)
| PatchApplyBegin (payload : PatchApplyBeginEvent.t)
| PatchApplyEnd (payload : PatchApplyEndEvent.t)
| DynamicToolCallRequested (payload : DynamicToolCallRequest.t)
| DynamicToolCallResponse (payload : DynamicToolCallResponseEvent.t)
| ViewImageToolCall (payload : ViewImageToolCallEvent.t)
| ImageGenerationBegin (payload : ImageGenerationBeginEvent)
| ImageGenerationEnd (payload : ImageGenerationEndEvent.t)
| CollabAgentSpawnBegin (payload : CollabAgentSpawnBeginEvent.t)
| CollabAgentSpawnEnd (payload : CollabAgentSpawnEndEvent.t)
| CollabAgentInteractionBegin (payload : CollabAgentInteractionBeginEvent.t)
| CollabAgentInteractionEnd (payload : CollabAgentInteractionEndEvent.t)
| SubAgentActivity (payload : SubAgentActivityEvent.t)
| CollabWaitingBegin (payload : CollabWaitingBeginEvent.t)
| CollabWaitingEnd (payload : CollabWaitingEndEvent.t)
| CollabCloseBegin (payload : CollabCloseBeginEvent.t)
| CollabCloseEnd (payload : CollabCloseEndEvent.t)
| CollabResumeBegin (payload : CollabResumeBeginEvent.t)
| CollabResumeEnd (payload : CollabResumeEndEvent.t)
| ContextCompacted
| EnteredReviewMode (payload : EnteredReviewModeEvent.t)
| ExitedReviewMode (payload : ExitedReviewModeEvent.t)
| ItemStarted (payload : ItemStartedEvent.t)
| ItemCompleted (payload : ItemCompletedEvent.t)
| Error (payload : ErrorEvent.t)
| TokenCount (payload : TokenCountEvent)
| ThreadRolledBack (payload : ThreadRolledBackEvent)
| TurnAborted (payload : TurnAbortedEvent.t)
| TurnStarted (payload : TurnStartedEvent.t)
| TurnComplete (payload : TurnCompleteEvent.t)
| Other (payload : OtherEvent).
End EventMsg.

(** ** Session metadata: the fields the history reads, and the rest *)
Module HistoryPosition.
Record t : Type := mk {
  thread_id : ThreadId;
  end_ordinal_exclusive : N;
  end_byte_offset : N;
}.
End HistoryPosition.

Module ThreadHistoryMode.
Inductive t : Type := Legacy | Paginated.
End ThreadHistoryMode.

Module SessionMeta.
Record t `{HistoryEnv} : Type := mk {
  id : ThreadId;
  history_mode : ThreadHistoryMode.t;
  history_base : option HistoryPosition.t;
  subagent_history_start_ordinal : option N;
  rest : SessionMetaRest;
}.
End SessionMeta.

Module RolloutItem.
Inductive t `{WireTypes, HistoryEnv} : Type :=
| SessionMeta (payload : SessionMeta.t)
| ResponseItem (item : Models.ResponseItem)
| InterAgentCommunication (payload : ThreadItems.InterAgentCommunication)
| InterAgentCommunicationMetadata (trigger_turn : bool)
| Compacted (payload : CompactedItem.t)
| TurnContext (payload : TurnContextItem)
| WorldState (payload : WorldStateItem)
| EventMsg (event : EventMsg.t).
End RolloutItem.
