(* ===== verification/NetAddr.v ===== *)
(** * Addresses: [std::net] and the classification of [network-proxy/src/policy.rs]

    IPv4 and IPv6 addresses as integers of 32 and 128 bits, the parser of the standard
    library, and the addresses the network proxy treats as local. *)

From Stdlib Require Import String ZArith NArith Lia.
From stdpp Require Import base option list numbers.
From S2P Require Import Prelude.

Local Open Scope Z_scope.

(** ** Addresses *)

Module IpAddr.
Inductive t : Type :=
| V4 (bits : Z)
| V6 (bits : Z).
#[global] Instance t_eq_dec : EqDecision t.
Proof. solve_decision. Defined.
End IpAddr.

(** An IPv4 address from its octets, an IPv6 address from its groups. *)
Definition from_octets (octets : list Z) : Z := foldl (λ acc o, acc * 256 + o) 0 octets.
Definition from_segments (segments : list Z) : Z := foldl (λ acc g, acc * 65536 + g) 0 segments.

(** The octet and the group of an index. *)
Definition octet (ip : Z) (i : Z) : Z := Z.land (Z.shiftr ip (8 * (3 - i))) 255.
Definition segment (ip : Z) (i : Z) : Z := Z.land (Z.shiftr ip (16 * (7 - i))) 65535.

(** ** The parser of the standard library

    A parser takes the rest of the input and returns a value with what it leaves; a parser
    that fails leaves the input as it was. *)

(** [char::to_digit]. *)
Definition to_digit (radix : Z) (c : char) : option Z :=
  let c := Z.of_N c in
  let d := if (48 <=? c) && (c <=? 57) then c - 48
           else if (97 <=? c) && (c <=? 122) then c - 97 + 10
           else if (65 <=? c) && (c <=? 90) then c - 65 + 10
           else radix in
  if (d <? radix) then Some d else None.

(** The digits at the start of the input: their value, their number and the rest. *)
Fixpoint read_digits (radix acc : Z) (count : nat) (s : str) : Z * nat * str :=
  match s with
  | c :: s' =>
      match to_digit radix c with
      | Some d => read_digits radix (acc * radix + d) (S count) s'
      | None => (acc, count, s)
      end
  | [] => (acc, count, [])
  end.

(** [read_number] into an integer below [limit]. *)
Definition read_number (radix : Z) (max_digits : nat) (allow_zero_prefix : bool) (limit : Z)
    (s : str) : option (Z * str) :=
  let has_leading_zero := match s with c :: _ => (c =? 48)%N | [] => false end in
  let '(value, digit_count, rest) := read_digits radix 0 0 s in
  if (max_digits <? digit_count)%nat then None
  else if (digit_count =? 0)%nat then None
  else if negb allow_zero_prefix && has_leading_zero && (1 <? digit_count)%nat then None
  else if (value <? limit) then Some (value, rest) else None.

(** [read_separator]: the separator is read before every item but the first. *)
Definition read_separator {A} (sep : char) (index : nat) (inner : str → option (A * str))
    (s : str) : option (A * str) :=
  match index with
  | O => inner s
  | S _ => match s with
           | c :: s' => if (c =? sep)%N then inner s' else None
           | [] => None
           end
  end.

(** The octets from an index on. *)
Fixpoint read_octets (n : nat) (index : nat) (s : str) : option (list Z * str) :=
  match n with
  | O => Some ([], s)
  | S n' =>
      '(o, s) ← read_separator 46%N index (read_number 10 3 false 256) s;
      '(os, s) ← read_octets n' (S index) s;
      Some (o :: os, s)
  end.

Definition read_ipv4_addr (s : str) : option (Z * str) :=
  '(octets, s) ← read_octets 4 0 s; Some (from_octets octets, s).

(** [read_groups] for at most [n] groups: the groups, whether they end with an IPv4
    address, and the rest. *)
Fixpoint read_groups (n : nat) (index : nat) (s : str) : list Z * bool * str :=
  match n with
  | O => ([], false, s)
  | S n' =>
      let ipv4 := match n' with
                  | O => None
                  | S _ => read_separator 58%N index read_ipv4_addr s
                  end in
      match ipv4 with
      | Some (v4, s) => ([Z.shiftr v4 16; Z.land v4 65535], true, s)
      | None =>
          match read_separator 58%N index (read_number 16 4 true 65536) s with
          | Some (group, s) =>
              let '(groups, v4, s) := read_groups n' (S index) s in (group :: groups, v4, s)
          | None => ([], false, s)
          end
      end
  end.

Definition read_ipv6_addr (s : str) : option (Z * str) :=
  let '(head, head_ipv4, s) := read_groups 8 0 s in
  let head_size := length head in
  if (head_size =? 8)%nat then Some (from_segments head, s)
  else if (head_ipv4 : bool) then None
  else
    match s with
    | c1 :: c2 :: s' =>
        if ((c1 =? 58) && (c2 =? 58))%N then
          let '(tail, _, s) := read_groups (8 - (head_size + 1)) 0 s' in
          Some (from_segments (head ++ replicate (8 - head_size - length tail) 0 ++ tail), s)
        else None
    | _ => None
    end.

(** [IpAddr::from_str]: the whole input is an address.  The IPv6 reader is tried when the
    IPv4 reader fails. *)
Definition parse_ip (s : str) : option IpAddr.t :=
  let r := match read_ipv4_addr s with
           | Some (v4, rest) => Some (IpAddr.V4 v4, rest)
           | None => match read_ipv6_addr s with
                     | Some (v6, rest) => Some (IpAddr.V6 v6, rest)
                     | None => None
                     end
           end in
  match r with Some (ip, []) => Some ip | _ => None end.

(** ** The classification of the standard library *)

Definition v4_is_loopback (ip : Z) : bool := octet ip 0 =? 127.
Definition v4_is_private (ip : Z) : bool :=
  (octet ip 0 =? 10)
  || ((octet ip 0 =? 172) && (16 <=? octet ip 1) && (octet ip 1 <=? 31))
  || ((octet ip 0 =? 192) && (octet ip 1 =? 168)).
Definition v4_is_link_local (ip : Z) : bool := (octet ip 0 =? 169) && (octet ip 1 =? 254).
Definition v4_is_unspecified (ip : Z) : bool := ip =? 0.
Definition v4_is_multicast (ip : Z) : bool := (224 <=? octet ip 0) && (octet ip 0 <=? 239).
Definition v4_is_broadcast (ip : Z) : bool := ip =? 2 ^ 32 - 1.

Definition v6_is_loopback (ip : Z) : bool := ip =? 1.
Definition v6_is_unspecified (ip : Z) : bool := ip =? 0.
Definition v6_is_multicast (ip : Z) : bool := Z.land (segment ip 0) 65280 =? 65280.
Definition v6_is_unique_local (ip : Z) : bool := Z.land (segment ip 0) 65024 =? 64512.
Definition v6_is_unicast_link_local (ip : Z) : bool := Z.land (segment ip 0) 65472 =? 65152.

(** [Ipv6Addr::to_ipv4]: the address an IPv4-mapped or IPv4-compatible address stands for. *)
Definition to_ipv4 (ip : Z) : option Z :=
  if forallb (λ i, segment ip i =? 0) [0; 1; 2; 3; 4]
     && ((segment ip 5 =? 0) || (segment ip 5 =? 65535))
  then Some (Z.land ip (2 ^ 32 - 1)) else None.

Definition is_loopback (ip : IpAddr.t) : bool :=
  match ip with IpAddr.V4 a => v4_is_loopback a | IpAddr.V6 a => v6_is_loopback a end.

(** ** The classification of the proxy *)

Definition u32 (n : Z) : Z := n mod 2 ^ 32.

Definition ipv4_in_cidr (ip : Z) (base : list Z) (prefix : Z) : bool :=
  let base := from_octets base in
  let mask := if (prefix =? 0) then 0 else u32 (Z.shiftl (2 ^ 32 - 1) (32 - prefix)) in
  Z.land ip mask =? Z.land base mask.

Definition is_non_public_ipv4 (ip : Z) : bool :=
  v4_is_loopback ip
  || v4_is_private ip
  || v4_is_link_local ip
  || v4_is_unspecified ip
  || v4_is_multicast ip
  || v4_is_broadcast ip
  || ipv4_in_cidr ip [0; 0; 0; 0] 8
  || ipv4_in_cidr ip [100; 64; 0; 0] 10
  || ipv4_in_cidr ip [192; 0; 0; 0] 24
  || ipv4_in_cidr ip [192; 0; 2; 0] 24
  || ipv4_in_cidr ip [198; 18; 0; 0] 15
  || ipv4_in_cidr ip [198; 51; 100; 0] 24
  || ipv4_in_cidr ip [203; 0; 113; 0] 24
  || ipv4_in_cidr ip [240; 0; 0; 0] 4.

Definition is_non_public_ipv6 (ip : Z) : bool :=
  match to_ipv4 ip with
  | Some v4 => is_non_public_ipv4 v4 || v6_is_loopback ip
  | None =>
      v6_is_loopback ip || v6_is_unspecified ip || v6_is_multicast ip || v6_is_unique_local ip
      || v6_is_unicast_link_local ip
  end.

Definition is_non_public_ip (ip : IpAddr.t) : bool :=
  match ip with
  | IpAddr.V4 ip => is_non_public_ipv4 ip
  | IpAddr.V6 ip => is_non_public_ipv6 ip
  end.

(** The local addresses, as ranges with both ends. *)
Definition block4 (octets : list Z) (prefix : Z) : Z * Z :=
  (from_octets octets, from_octets octets + 2 ^ (32 - prefix) - 1).
Definition block6 (segments : list Z) (prefix : Z) : Z * Z :=
  (from_segments segments, from_segments segments + 2 ^ (128 - prefix) - 1).

Definition in_block (ip : Z) (block : Z * Z) : bool := (block.1 <=? ip) && (ip <=? block.2).

Definition LOCAL_BLOCKS4 : list (Z * Z) :=
  [block4 [0; 0; 0; 0] 8; block4 [10; 0; 0; 0] 8; block4 [100; 64; 0; 0] 10;
   block4 [127; 0; 0; 0] 8; block4 [169; 254; 0; 0] 16; block4 [172; 16; 0; 0] 12;
   block4 [192; 0; 0; 0] 24; block4 [192; 0; 2; 0] 24; block4 [192; 168; 0; 0] 16;
   block4 [198; 18; 0; 0] 15; block4 [198; 51; 100; 0] 24; block4 [203; 0; 113; 0] 24;
   block4 [224; 0; 0; 0] 3].

(** Unique local, link local and multicast. *)
Definition LOCAL_BLOCKS6 : list (Z * Z) :=
  [block6 [64512; 0; 0; 0; 0; 0; 0; 0] 7; block6 [65152; 0; 0; 0; 0; 0; 0; 0] 10;
   block6 [65280; 0; 0; 0; 0; 0; 0; 0] 8].

(** The addresses that stand for an IPv4 address. *)
Definition V4_BLOCKS6 : list (Z * Z) :=
  [block6 [0; 0; 0; 0; 0; 0; 0; 0] 96; block6 [0; 0; 0; 0; 0; 65535; 0; 0] 96].

Definition local_address (ip : IpAddr.t) : bool :=
  match ip with
  | IpAddr.V4 a => existsb (in_block a) LOCAL_BLOCKS4
  | IpAddr.V6 a =>
      existsb (in_block a) LOCAL_BLOCKS6
      || (existsb (in_block a) V4_BLOCKS6 && existsb (in_block (a mod 2 ^ 32)) LOCAL_BLOCKS4)
  end.

(** ** Reading yields addresses *)

Lemma to_digit_bounds radix c d : 0 < radix → to_digit radix c = Some d → 0 ≤ d < radix.
Proof.
  intros Hr. unfold to_digit. cbv zeta. destruct (_ <? radix) eqn:Hlt; [|done]. intros [= <-].
  repeat case_match; lia.
Qed.

Lemma read_digits_nonneg radix acc count s : 0 < radix → 0 ≤ acc →
  0 ≤ (read_digits radix acc count s).1.1.
Proof.
  intros Hr. revert acc count. induction s as [|c s IH]; intros acc count Ha; cbn [read_digits]; [done|].
  destruct (to_digit radix c) as [d|] eqn:Hd; [|done].
  apply to_digit_bounds in Hd; [|done]. apply IH. nia.
Qed.

Lemma read_number_bounds radix digits prefix limit s v rest : 0 < radix →
  read_number radix digits prefix limit s = Some (v, rest) → 0 ≤ v < limit.
Proof.
  intros Hr. unfold read_number. pose proof (read_digits_nonneg radix 0 0 s Hr) as Hn.
  destruct (read_digits radix 0 0 s) as [[value n] r]. cbn in Hn.
  destruct (_ <? n)%nat; [done|]. destruct (_ =? _)%nat; [done|]. destruct (_ && _); [done|].
  destruct (Z.ltb_spec value limit); [|done]. intros [= <- <-]. lia.
Qed.

Lemma read_separator_inner {A} sep i (inner : str → option (A * str)) s r :
  read_separator sep i inner s = Some r → ∃ s', inner s' = Some r.
Proof.
  unfold read_separator. destruct i; [by eauto|]. destruct s as [|c s]; [done|].
  destruct (_ =? _)%N; [by eauto|done].
Qed.

(** A number written in a base with digits below the base. *)
Lemma digits_bound base (ds : list Z) acc : 0 < base → 0 ≤ acc → Forall (λ d, 0 ≤ d < base) ds →
  0 ≤ foldl (λ acc d, acc * base + d) acc ds < (acc + 1) * base ^ Z.of_nat (length ds).
Proof.
  intros Hb. revert acc. induction ds as [|d ds IH]; intros acc Ha Hd; cbn [foldl length].
  - rewrite Z.pow_0_r. lia.
  - apply list.Forall_cons in Hd as [Hd Hds]. destruct (IH (acc * base + d)) as [H1 H2]; [nia|done|].
    split; [done|]. eapply Z.lt_le_trans; [exact H2|].
    rewrite Nat2Z.inj_succ, Z.pow_succ_r by lia.
    assert (0 < base ^ Z.of_nat (length ds)) by (apply Z.pow_pos_nonneg; lia). nia.
Qed.

Lemma read_octets_ok n i s os rest : read_octets n i s = Some (os, rest) →
  length os = n ∧ Forall (λ o, 0 ≤ o < 256) os.
Proof.
  revert i s os rest. induction n as [|n IH]; intros i s os rest; cbn [read_octets].
  { intros [= <- <-]. done. }
  destruct (read_separator _ _ _ _) as [[o s1]|] eqn:Ho; [|done]. cbn [mbind option_bind].
  destruct (read_octets n (S i) s1) as [[os' s2]|] eqn:Hos; [|done]. intros [= <- <-].
  apply read_separator_inner in Ho as [s' Ho]. apply read_number_bounds in Ho; [|lia].
  destruct (IH _ _ _ _ Hos) as [<- Hf]. by split; [|constructor].
Qed.

Lemma read_ipv4_bounds s v rest : read_ipv4_addr s = Some (v, rest) → 0 ≤ v < 2 ^ 32.
Proof.
  unfold read_ipv4_addr. destruct (read_octets 4 0 s) as [[os r]|] eqn:Ho; [|done].
  intros [= <- <-]. apply read_octets_ok in Ho as [Hl Hf].
  pose proof (digits_bound 256 os 0 ltac:(lia) ltac:(lia) Hf) as Hb. rewrite Hl in Hb. exact Hb.
Qed.

Lemma read_groups_ok n i s gs v4 rest : read_groups n i s = (gs, v4, rest) →
  (length gs ≤ n)%nat ∧ Forall (λ g, 0 ≤ g < 65536) gs.
Proof.
  revert i s gs v4 rest. induction n as [|n IH]; intros i s gs v4 rest; cbn [read_groups].
  { intros [= <- <- <-]. by split. }
  destruct (match n with O => None | S _ => _ end) as [[a s1]|] eqn:H4.
  - intros [= <- <- <-]. destruct n as [|n]; [done|]. split; [cbn; lia|].
    apply read_separator_inner in H4 as [s' H4]. apply read_ipv4_bounds in H4.
    rewrite Z.shiftr_div_pow2 by lia. change 65535 with (Z.ones 16). rewrite Z.land_ones by lia.
    repeat constructor; [apply Z.div_pos; lia|apply Z.div_lt_upper_bound; lia|..];
      apply Z.mod_pos_bound; lia.
  - clear H4. destruct (read_separator _ _ _ _) as [[g s1]|] eqn:Hg; [|intros [= <- <- <-]; split; [cbn; lia|done]].
    destruct (read_groups n (S i) s1) as [[gs' v4'] s2] eqn:Hgs. intros [= <- <- <-].
    apply read_separator_inner in Hg as [s' Hg]. apply read_number_bounds in Hg; [|lia].
    destruct (IH _ _ _ _ _ Hgs) as [Hl Hf]. split; [cbn; lia|by constructor].
Qed.

Lemma segments_bound gs : (length gs ≤ 8)%nat → Forall (λ g, 0 ≤ g < 65536) gs →
  0 ≤ from_segments gs < 2 ^ 128.
Proof.
  intros Hl Hf. pose proof (digits_bound 65536 gs 0 ltac:(lia) ltac:(lia) Hf) as [H1 H2].
  split; [exact H1|]. eapply Z.lt_le_trans; [exact H2|].
  change (2 ^ 128) with (65536 ^ 8). rewrite Z.mul_1_l. apply Z.pow_le_mono_r; lia.
Qed.

Lemma read_ipv6_bounds s v rest : read_ipv6_addr s = Some (v, rest) → 0 ≤ v < 2 ^ 128.
Proof.
  unfold read_ipv6_addr. destruct (read_groups 8 0 s) as [[hd v4] s1] eqn:Hh.
  apply read_groups_ok in Hh as [Hl Hf].
  destruct (Nat.eqb_spec (length hd) 8); [intros [= <- <-]; by apply segments_bound|].
  destruct v4; [done|]. destruct s1 as [|c1 [|c2 s2]]; [done|done|].
  destruct (_ && _)%N; [|done].
  destruct (read_groups (8 - (length hd + 1)) 0 s2) as [[tl v4] s3] eqn:Ht.
  apply read_groups_ok in Ht as [Hlt Hft]. intros [= <- <-]. apply segments_bound.
  - rewrite !length_app, length_replicate. lia.
  - apply Forall_app. split; [done|]. apply Forall_app. split; [|done].
    apply Forall_replicate. lia.
Qed.

Definition ip_ok (ip : IpAddr.t) : Prop :=
  match ip with IpAddr.V4 a => 0 ≤ a < 2 ^ 32 | IpAddr.V6 a => 0 ≤ a < 2 ^ 128 end.

Lemma parse_ip_ok s ip : parse_ip s = Some ip → ip_ok ip.
Proof.
  unfold parse_ip. destruct (read_ipv4_addr s) as [[v r]|] eqn:H4.
  - destruct r; [|done]. intros [= <-]. by eapply read_ipv4_bounds.
  - destruct (read_ipv6_addr s) as [[v r]|] eqn:H6; [|done]. destruct r; [|done]. intros [= <-].
    by eapply read_ipv6_bounds.
Qed.

(** ** Local addresses are ranges *)

Lemma land_high_mask n k x : 0 ≤ k ≤ n → 0 ≤ x < 2 ^ n →
  Z.land x (2 ^ n - 2 ^ k) = 2 ^ k * (x / 2 ^ k).
Proof.
  intros Hk Hx. replace (2 ^ n - 2 ^ k) with (Z.shiftl (Z.ones (n - k)) k).
  - rewrite Z.mul_comm, <- Z.shiftr_div_pow2, <- Z.shiftl_mul_pow2 by lia.
    apply Z.bits_inj'. intros i Hi. rewrite Z.land_spec, !Z.shiftl_spec by done.
    destruct (Z.ltb_spec i k) as [Hlt|Hge].
    { rewrite !(Z.testbit_neg_r _ (i - k)) by lia. by rewrite andb_false_r. }
    rewrite Z.shiftr_spec by lia. replace (i - k + k) with i by lia.
    destruct (Z.ltb_spec i n).
    + rewrite Z.ones_spec_low by lia. apply andb_true_r.
    + rewrite Z.ones_spec_high by lia. rewrite andb_false_r.
      rewrite <- (Z.mod_small x (2 ^ n)) by lia. symmetry. apply Z.mod_pow2_bits_high. lia.
  - rewrite Z.shiftl_mul_pow2, Z.ones_equiv by lia.
    replace n with (n - k + k) at 2 by lia. rewrite Z.pow_add_r by lia. lia.
Qed.

(** A block of addresses is the range of the addresses that share its prefix. *)
Lemma ipv4_in_cidr_range ip base prefix : 0 ≤ prefix ≤ 32 → 0 ≤ ip < 2 ^ 32 →
  0 ≤ from_octets base < 2 ^ 32 → (2 ^ (32 - prefix) | from_octets base) →
  ipv4_in_cidr ip base prefix
  = (from_octets base <=? ip) && (ip <? from_octets base + 2 ^ (32 - prefix)).
Proof.
  intros Hp Hip Hb [m Hm]. unfold ipv4_in_cidr. cbv zeta. set (b := from_octets base) in *.
  assert (Hpow : 0 < 2 ^ (32 - prefix)) by (apply Z.pow_pos_nonneg; lia).
  assert (Hmask : (if prefix =? 0 then 0 else u32 (Z.shiftl (2 ^ 32 - 1) (32 - prefix)))
                  = 2 ^ 32 - 2 ^ (32 - prefix)).
  { destruct (Z.eqb_spec prefix 0) as [->|]; [done|]. unfold u32. rewrite Z.shiftl_mul_pow2 by lia.
    replace ((2 ^ 32 - 1) * 2 ^ (32 - prefix))
      with (2 ^ 32 - 2 ^ (32 - prefix) + (2 ^ (32 - prefix) - 1) * 2 ^ 32) by lia.
    rewrite Z.mod_add by lia. apply Z.mod_small.
    assert (2 ^ (32 - prefix) ≤ 2 ^ 32) by (apply Z.pow_le_mono_r; lia). lia. }
  rewrite Hmask, !land_high_mask by lia. set (k := 2 ^ (32 - prefix)) in *.
  assert (Hbk : k * (b / k) = b) by (rewrite Hm, Z.div_mul by lia; lia). rewrite Hbk.
  pose proof (Z.div_mod ip k ltac:(lia)). pose proof (Z.mod_pos_bound ip k ltac:(lia)).
  apply eq_true_iff_eq. rewrite andb_true_iff, Z.eqb_eq, Z.leb_le, Z.ltb_lt. split; [lia|].
  intros [H1 H2]. assert (ip / k = m) by (symmetry; apply Z.div_unique with (ip - b); lia). nia.
Qed.

(** The first two octets and the groups, as quotients. *)
Lemma octet_div ip i : 0 ≤ i ≤ 3 → octet ip i = (ip / 2 ^ (8 * (3 - i))) mod 256.
Proof.
  intros Hi. unfold octet. rewrite Z.shiftr_div_pow2 by lia.
  change 255 with (Z.ones 8). by rewrite Z.land_ones by lia.
Qed.

Lemma segment_div ip i : 0 ≤ i ≤ 7 → segment ip i = (ip / 2 ^ (16 * (7 - i))) mod 65536.
Proof.
  intros Hi. unfold segment. rewrite Z.shiftr_div_pow2 by lia.
  change 65535 with (Z.ones 16). by rewrite Z.land_ones by lia.
Qed.

(** A block given by numbers. *)
Lemma cidr_block ip base prefix : 0 ≤ ip < 2 ^ 32 →
  (0 <=? prefix) && (prefix <=? 32) && (0 <=? from_octets base) && (from_octets base <? 2 ^ 32)
  && (from_octets base mod 2 ^ (32 - prefix) =? 0) = true →
  ipv4_in_cidr ip base prefix = in_block ip (block4 base prefix).
Proof.
  intros Hip Hok. repeat (apply andb_true_iff in Hok as [Hok ?]).
  assert (0 < 2 ^ (32 - prefix)) by (apply Z.pow_pos_nonneg; lia).
  rewrite ipv4_in_cidr_range; [|lia|lia|lia|apply Z.mod_divide; lia].
  unfold in_block, block4. cbn [fst snd]. f_equal. apply eq_true_iff_eq. lia.
Qed.

(** The first two octets of an address. *)
Lemma octets_bounds ip : 0 ≤ ip < 2 ^ 32 →
  2 ^ 24 * octet ip 0 ≤ ip < 2 ^ 24 * (octet ip 0 + 1) ∧ 0 ≤ octet ip 0 < 256
  ∧ 2 ^ 16 * (256 * octet ip 0 + octet ip 1) ≤ ip < 2 ^ 16 * (256 * octet ip 0 + octet ip 1 + 1)
  ∧ 0 ≤ octet ip 1 < 256.
Proof.
  intros Hip. rewrite !octet_div by lia. cbn [Z.sub Z.mul Z.add Z.opp Z.pos_sub Pos.mul Pos.add].
  change (2 ^ (8 * (3 - 0))) with (2 ^ 24). change (2 ^ (8 * (3 - 1))) with (2 ^ 16).
  pose proof (Z.div_mod ip (2 ^ 24) ltac:(lia)). pose proof (Z.mod_pos_bound ip (2 ^ 24) ltac:(lia)).
  pose proof (Z.div_mod ip (2 ^ 16) ltac:(lia)). pose proof (Z.mod_pos_bound ip (2 ^ 16) ltac:(lia)).
  pose proof (Z.div_mod (ip / 2 ^ 16) 256 ltac:(lia)).
  pose proof (Z.mod_pos_bound (ip / 2 ^ 16) 256 ltac:(lia)).
  rewrite (Z.mod_small (ip / 2 ^ 24)) by lia.
  assert (Hq : ip / 2 ^ 16 / 256 = ip / 2 ^ 24) by (rewrite Z.div_div by lia; done). lia.
Qed.

(** The classes of the standard library, as blocks. *)
Lemma v4_classes ip : 0 ≤ ip < 2 ^ 32 →
  v4_is_loopback ip = in_block ip (block4 [127; 0; 0; 0] 8)
  ∧ v4_is_private ip = in_block ip (block4 [10; 0; 0; 0] 8)
      || in_block ip (block4 [172; 16; 0; 0] 12) || in_block ip (block4 [192; 168; 0; 0] 16)
  ∧ v4_is_link_local ip = in_block ip (block4 [169; 254; 0; 0] 16)
  ∧ v4_is_multicast ip || in_block ip (block4 [240; 0; 0; 0] 4)
    = in_block ip (block4 [224; 0; 0; 0] 3)
  ∧ (v4_is_unspecified ip = true → in_block ip (block4 [0; 0; 0; 0] 8) = true)
  ∧ (v4_is_broadcast ip = true → in_block ip (block4 [224; 0; 0; 0] 3) = true).
Proof.
  intros Hip. pose proof (octets_bounds ip Hip) as (H1 & H2 & H3 & H4).
  unfold v4_is_loopback, v4_is_private, v4_is_link_local, v4_is_multicast, v4_is_unspecified,
    v4_is_broadcast, in_block, block4. cbn [from_octets foldl fst snd].
  split_and!; try apply eq_true_iff_eq; lia.
Qed.

Lemma non_public_ipv4_blocks ip : 0 ≤ ip < 2 ^ 32 →
  is_non_public_ipv4 ip = existsb (in_block ip) LOCAL_BLOCKS4.
Proof.
  intros Hip. destruct (v4_classes ip Hip) as (H1 & H2 & H3 & H4 & H5 & H6).
  unfold is_non_public_ipv4. rewrite H1, H2, H3, !cidr_block by done.
  apply eq_true_iff_eq. cbn [existsb LOCAL_BLOCKS4]. rewrite <- H4 in *.
  pose proof diff_false_true. rewrite !orb_true_iff in *. tauto.
Qed.

(** The groups above the last two are the digits of the upper bits. *)
Lemma segments_zero ip : 0 ≤ ip < 2 ^ 128 →
  forallb (λ i, segment ip i =? 0) [0; 1; 2; 3; 4] = (ip <? 2 ^ 48)
  ∧ (ip < 2 ^ 48 → segment ip 5 = ip / 2 ^ 32).
Proof.
  intros Hip. cbn [forallb]. rewrite !segment_div by lia.
  change (2 ^ (16 * (7 - 0))) with (2 ^ 112). change (2 ^ (16 * (7 - 1))) with (2 ^ 96).
  change (2 ^ (16 * (7 - 2))) with (2 ^ 80). change (2 ^ (16 * (7 - 3))) with (2 ^ 64).
  change (2 ^ (16 * (7 - 4))) with (2 ^ 48). change (2 ^ (16 * (7 - 5))) with (2 ^ 32).
  assert (Hdig : ∀ a, 0 < a → 0 ≤ ip / a / 65536 ∧ (ip / a = 65536 * (ip / a / 65536) + (ip / a) mod 65536)
    ∧ 0 ≤ (ip / a) mod 65536 < 65536).
  { intros a Ha. pose proof (Z.div_mod (ip / a) 65536 ltac:(lia)).
    pose proof (Z.mod_pos_bound (ip / a) 65536 ltac:(lia)).
    assert (0 ≤ ip / a) by (apply Z.div_pos; lia).
    split; [apply Z.div_pos; lia|]. lia. }
  assert (Hstep : ∀ a b, a * 65536 = b → 0 < a → ip / a / 65536 = ip / b).
  { intros a b <- Ha. by rewrite Z.div_div by lia. }
  pose proof (Hdig (2 ^ 32) ltac:(lia)) as D2. pose proof (Hdig (2 ^ 48) ltac:(lia)) as D3.
  pose proof (Hdig (2 ^ 64) ltac:(lia)) as D4. pose proof (Hdig (2 ^ 80) ltac:(lia)) as D5.
  pose proof (Hdig (2 ^ 96) ltac:(lia)) as D6. pose proof (Hdig (2 ^ 112) ltac:(lia)) as D7.
  rewrite (Hstep (2 ^ 32) (2 ^ 48)) in D2 by lia. rewrite (Hstep (2 ^ 48) (2 ^ 64)) in D3 by lia.
  rewrite (Hstep (2 ^ 64) (2 ^ 80)) in D4 by lia. rewrite (Hstep (2 ^ 80) (2 ^ 96)) in D5 by lia.
  rewrite (Hstep (2 ^ 96) (2 ^ 112)) in D6 by lia. rewrite (Hstep (2 ^ 112) (2 ^ 128)) in D7 by lia.
  rewrite (Z.div_small ip (2 ^ 128)) in D7 by lia.
  assert (H48 : ip / 2 ^ 48 = 0 ↔ ip < 2 ^ 48)
    by (rewrite Z.div_small_iff by lia; lia).
  clear Hdig Hstep. split; [|lia]. apply eq_true_iff_eq. rewrite !andb_true_iff, !Z.eqb_eq, Z.ltb_lt. lia.
Qed.

Lemma to_ipv4_blocks ip : 0 ≤ ip < 2 ^ 128 →
  to_ipv4 ip = if existsb (in_block ip) V4_BLOCKS6 then Some (ip mod 2 ^ 32) else None.
Proof.
  intros Hip. destruct (segments_zero ip Hip) as [Hz Hs]. unfold to_ipv4. rewrite Hz.
  change (2 ^ 32 - 1) with (Z.ones 32). rewrite Z.land_ones by lia.
  assert (Heq : (ip <? 2 ^ 48) && ((segment ip 5 =? 0) || (segment ip 5 =? 65535))
                = existsb (in_block ip) V4_BLOCKS6); [|by rewrite Heq].
  pose proof (Z.div_mod ip (2 ^ 32) ltac:(lia)). pose proof (Z.mod_pos_bound ip (2 ^ 32) ltac:(lia)).
  unfold V4_BLOCKS6, in_block, block6. cbn [existsb fst snd from_segments foldl].
  apply eq_true_iff_eq. destruct (Z.ltb_spec ip (2 ^ 48)) as [Hlt|Hge].
  - rewrite (Hs Hlt). cbn [andb]. lia.
  - cbn [andb]. lia.
Qed.

Lemma v6_classes ip : 0 ≤ ip < 2 ^ 128 →
  v6_is_unique_local ip || v6_is_unicast_link_local ip || v6_is_multicast ip
  = existsb (in_block ip) LOCAL_BLOCKS6.
Proof.
  intros Hip. unfold v6_is_unique_local, v6_is_unicast_link_local, v6_is_multicast.
  assert (Hs : segment ip 0 = ip / 2 ^ 112).
  { rewrite segment_div by lia. apply Z.mod_small.
    split; [apply Z.div_pos; lia|apply Z.div_lt_upper_bound; lia]. }
  pose proof (Z.div_mod ip (2 ^ 112) ltac:(lia)). pose proof (Z.mod_pos_bound ip (2 ^ 112) ltac:(lia)).
  rewrite Hs. set (q := ip / 2 ^ 112) in *. assert (Hq : 0 ≤ q < 2 ^ 16) by lia.
  change 65024 with (2 ^ 16 - 2 ^ 9). change 65472 with (2 ^ 16 - 2 ^ 6). change 65280 with (2 ^ 16 - 2 ^ 8) at 1.
  rewrite !land_high_mask by lia.
  pose proof (Z.div_mod q (2 ^ 9) ltac:(lia)). pose proof (Z.mod_pos_bound q (2 ^ 9) ltac:(lia)).
  pose proof (Z.div_mod q (2 ^ 6) ltac:(lia)). pose proof (Z.mod_pos_bound q (2 ^ 6) ltac:(lia)).
  pose proof (Z.div_mod q (2 ^ 8) ltac:(lia)). pose proof (Z.mod_pos_bound q (2 ^ 8) ltac:(lia)).
  unfold LOCAL_BLOCKS6, in_block, block6. cbn [existsb fst snd from_segments foldl].
  rewrite orb_false_r, !orb_assoc. f_equal; [f_equal|]; apply eq_true_iff_eq; lia.
Qed.

(** The addresses the proxy treats as local are exactly those of a table of blocks: for
    IPv4 this network, the private, shared, loopback, link-local, protocol, benchmark,
    documentation, multicast and reserved blocks; for IPv6 the unique-local, link-local and
    multicast blocks, and every address that stands for a local IPv4 address, the loopback
    and the unspecified address among them. *)
Lemma non_public_blocks ip : ip_ok ip → is_non_public_ip ip = local_address ip.
Proof.
  destruct ip as [a|a]; cbn [ip_ok is_non_public_ip local_address]; [apply non_public_ipv4_blocks|].
  intros Ha. unfold is_non_public_ipv6. rewrite <- v6_classes, to_ipv4_blocks by done.
  pose proof (v6_classes a Ha) as H6. pose proof (Z.mod_pos_bound a (2 ^ 32) ltac:(lia)) as Hm.
  destruct (existsb (in_block a) V4_BLOCKS6) eqn:H4; cbn [andb].
  - rewrite H6, non_public_ipv4_blocks by done.
    assert (Hno : existsb (in_block a) LOCAL_BLOCKS6 = false).
    { apply not_true_is_false. intros Hin. revert H4 Hin.
      unfold V4_BLOCKS6, LOCAL_BLOCKS6, in_block, block6. cbn [existsb fst snd from_segments foldl]. lia. }
    rewrite Hno. cbn [orb]. unfold v6_is_loopback.
    destruct (Z.eqb_spec a 1) as [->|_]; [done|by rewrite orb_false_r].
  - rewrite orb_false_r. unfold v6_is_loopback, v6_is_unspecified.
    destruct (Z.eqb_spec a 1) as [->|_]; [done|]. destruct (Z.eqb_spec a 0) as [->|_]; [done|].
    cbn [orb]. rewrite (orb_comm (v6_is_multicast a)), <- orb_assoc, (orb_comm (v6_is_multicast a)).
    by rewrite orb_assoc.
Qed.


(** Addresses that are not globally routable and count as public: the IPv6 documentation
    block, and the loopback address behind a NAT64 prefix. *)
Lemma unroutable_counts_as_public :
  is_non_public_ip <$> parse_ip (lit "2001:db8::1") = Some false
  ∧ is_non_public_ip <$> parse_ip (lit "64:ff9b::127.0.0.1") = Some false.
Proof. by vm_compute. Qed.
