(* ===== verification/NetPolicy.v ===== *)
(** * Hosts and domain patterns: [network-proxy/src/policy.rs]

    The normal form of a host, the patterns of the allow and deny lists, and their
    compilation to globs.  The globs are those of the [globset] crate and the host parser
    for managed lists is that of the [url] crate. *)

From Stdlib Require Import String ZArith NArith.
From stdpp Require Import base option list numbers.
From S2P Require Import Prelude NetAddr.

Local Open Scope str_scope.

Definition DOT : char := 46%N.
Definition COLON : char := 58%N.
Definition STAR : char := 42%N.
Definition QUESTION : char := 63%N.
Definition PERCENT : char := 37%N.
Definition LBRACKET : char := 91%N.
Definition RBRACKET : char := 93%N.

Definition is_dot (c : char) : bool := (c =? DOT)%N.

(** [str::split_once] of a text. *)
Fixpoint split_once_str (sep s : str) : option (str * str) :=
  match strip_prefix sep s with
  | Some rest => Some ([], rest)
  | None =>
      match s with
      | [] => None
      | c :: s' =>
          match split_once_str sep s' with
          | Some (a, b) => Some (c :: a, b)
          | None => None
          end
      end
  end.

(** ** Hosts *)

Definition is_ip_literal (s : str) : bool := bool_decide (is_Some (parse_ip s)).

(** An address, a delimiter and a scope. *)
Definition scoped_literal (delimiter host : str) : option str :=
  match split_once_str delimiter host with
  | Some (ip, scope) => if is_ip_literal ip then Some (ip ++ [PERCENT] ++ scope) else None
  | None => None
  end.

Definition normalize_ip_literal (host : str) : option str :=
  if is_ip_literal host then Some host
  else match scoped_literal (lit "%25") host with
       | Some ip => Some ip
       | None => scoped_literal (lit "%") host
       end.

Definition normalize_dns_host_or_ip_literal (host : str) : str :=
  let host := to_ascii_lowercase host in
  let host := trim_end_matches is_dot host in
  match normalize_ip_literal host with
  | Some ip => ip
  | None => host
  end.

(** The number of bytes equal to an ASCII character. *)
Definition count_char (c : char) (s : str) : nat := length (List.filter (N.eqb c) s).

(** The text between the brackets of a bracketed host. *)
Definition bracketed (host : str) : option str :=
  match host with
  | c :: rest => if (c =? LBRACKET)%N then fst <$> split_once RBRACKET rest else None
  | [] => None
  end.

Definition normalize_host (host : str) : str :=
  let host := trim host in
  match bracketed host with
  | Some inner => normalize_dns_host_or_ip_literal inner
  | None =>
      if (count_char COLON host =? 1)%nat
      then normalize_dns_host_or_ip_literal (default [] (head (split_char COLON host)))
      else normalize_dns_host_or_ip_literal host
  end.

Definition unscoped_ip_literal (host : str) : option str :=
  match split_once PERCENT host with
  | Some (ip, _) => if is_ip_literal ip then Some ip else None
  | None => None
  end.

(** [Host]: a normal form that is not empty. *)
Definition parse_host (input : str) : option str :=
  let normalized := normalize_host input in
  if bool_decide (normalized = []) then None else Some normalized.

Definition is_loopback_host (host : str) : bool :=
  let host := default host (unscoped_ip_literal host) in
  if host ==s lit "localhost" then true
  else match parse_ip host with Some ip => is_loopback ip | None => false end.

(** ** Patterns *)

Module DomainPattern.
Inductive t : Type :=
| ApexAndSubdomains (domain : str)
| SubdomainsOnly (domain : str)
| Exact (domain : str).
#[global] Instance t_eq_dec : EqDecision t.
Proof. solve_decision. Defined.
End DomainPattern.

Definition normalize_pattern (pattern : str) : str :=
  let pattern := trim pattern in
  if pattern ==s lit "*" then lit "*"
  else
    let '(prefix, remainder) :=
      match strip_prefix (lit "**.") pattern with
      | Some domain => (lit "**.", domain)
      | None =>
          match strip_prefix (lit "*.") pattern with
          | Some domain => (lit "*.", domain)
          | None => ([], pattern)
          end
      end in
    let remainder := normalize_host remainder in
    if bool_decide (prefix = []) then remainder else prefix ++ remainder.

Definition parse_domain (domain : str) (build : str → DomainPattern.t) : DomainPattern.t :=
  let domain := trim domain in
  if bool_decide (domain = []) then DomainPattern.Exact [] else build domain.

(** [DomainPattern::parse]. *)
Definition parse_pattern (input : str) : DomainPattern.t :=
  let input := trim input in
  if bool_decide (input = []) then DomainPattern.Exact []
  else
    match strip_prefix (lit "**.") input with
    | Some domain => parse_domain domain DomainPattern.ApexAndSubdomains
    | None =>
        match strip_prefix (lit "*.") input with
        | Some domain => parse_domain domain DomainPattern.SubdomainsOnly
        | None => DomainPattern.Exact input
        end
    end.

Definition expand_domain_pattern (pattern : str) : list str :=
  match parse_pattern pattern with
  | DomainPattern.Exact domain => [domain]
  | DomainPattern.SubdomainsOnly domain => [lit "?*." ++ domain]
  | DomainPattern.ApexAndSubdomains domain => [domain; lit "?*." ++ domain]
  end.

Definition is_global_wildcard_domain_pattern (pattern : str) : bool :=
  existsb (λ candidate, candidate ==s lit "*") (expand_domain_pattern (normalize_pattern pattern)).

Definition normalize_domain (domain : str) : str := to_ascii_lowercase (trim_end_matches is_dot domain).

Definition domain_eq (left right : str) : bool := normalize_domain left ==s normalize_domain right.

Definition is_subdomain_or_equal (child parent : str) : bool :=
  let child := normalize_domain child in
  let parent := normalize_domain parent in
  if child ==s parent then true else ends_with ([DOT] ++ parent) child.

Definition is_strict_subdomain (child parent : str) : bool :=
  let child := normalize_domain child in
  let parent := normalize_domain parent in
  negb (child ==s parent) && ends_with ([DOT] ++ parent) child.

(** [DomainPattern::allows]. *)
Definition allows (self candidate : DomainPattern.t) : bool :=
  match self with
  | DomainPattern.Exact domain =>
      match candidate with
      | DomainPattern.Exact candidate => domain_eq candidate domain
      | _ => false
      end
  | DomainPattern.SubdomainsOnly domain =>
      match candidate with
      | DomainPattern.Exact candidate => is_strict_subdomain candidate domain
      | DomainPattern.SubdomainsOnly candidate => is_subdomain_or_equal candidate domain
      | DomainPattern.ApexAndSubdomains candidate => is_strict_subdomain candidate domain
      end
  | DomainPattern.ApexAndSubdomains domain =>
      match candidate with
      | DomainPattern.Exact candidate => is_subdomain_or_equal candidate domain
      | DomainPattern.SubdomainsOnly candidate => is_subdomain_or_equal candidate domain
      | DomainPattern.ApexAndSubdomains candidate => is_subdomain_or_equal candidate domain
      end
  end.

(** ** Managed lists *)

(** [url::Host::parse], and the printed host. *)
Class UrlHosts : Type := { url_host_parse : str → option str }.

Section Managed.
Context {H : UrlHosts}.

Definition parse_domain_for_constraints (domain : str) : str :=
  let domain := trim_end_matches is_dot (trim domain) in
  if bool_decide (domain = []) then []
  else
    let host := if starts_with [LBRACKET] domain && ends_with [RBRACKET] domain
                then removelast (tail domain) else domain in
    if contains_char STAR host || contains_char QUESTION host || contains_char PERCENT host
    then domain
    else default [] (url_host_parse host).

(** [DomainPattern::parse_for_constraints]. *)
Definition parse_for_constraints (input : str) : DomainPattern.t :=
  let input := trim input in
  if bool_decide (input = []) then DomainPattern.Exact []
  else
    match strip_prefix (lit "**.") input with
    | Some domain => DomainPattern.ApexAndSubdomains (parse_domain_for_constraints domain)
    | None =>
        match strip_prefix (lit "*.") input with
        | Some domain => DomainPattern.SubdomainsOnly (parse_domain_for_constraints domain)
        | None => DomainPattern.Exact (parse_domain_for_constraints input)
        end
    end.
End Managed.

(** ** Globs *)

(** [GlobBuilder] with [case_insensitive], [GlobSetBuilder] and [GlobSet]. *)
Class Globs : Type := {
  Glob : Type;
  new_glob : str → option Glob;
  glob_match : Glob → str → bool;
  GlobSet : Type;
  build_globs : list Glob → option GlobSet;
  is_match : GlobSet → str → bool
}.

Inductive GlobalWildcard : Type := Allow_wildcard | Reject_wildcard.

(** Why a list of patterns is not compiled. *)
Inductive GlobError : Type :=
| UnsupportedGlobalWildcard
| InvalidGlobPattern (candidate : str)
| GlobSetTooLarge.

Section Compile.
Context {G : Globs}.

(** The loop over the globs of one pattern; [seen] are the globs so far. *)
Fixpoint add_candidates (candidates seen : list str) (builder : list Glob)
    : result GlobError (list str * list Glob) :=
  match candidates with
  | [] => Ok (seen, builder)
  | candidate :: candidates' =>
      if bool_decide (candidate ∈ seen) then add_candidates candidates' seen builder
      else
        match new_glob candidate with
        | Some glob => add_candidates candidates' (seen ++ [candidate]) (builder ++ [glob])
        | None => Err (InvalidGlobPattern candidate)
        end
  end.

Definition rejects (global_wildcard : GlobalWildcard) (pattern : str) : bool :=
  match global_wildcard with
  | Reject_wildcard => is_global_wildcard_domain_pattern pattern
  | Allow_wildcard => false
  end.

Fixpoint add_patterns (global_wildcard : GlobalWildcard) (patterns seen : list str)
    (builder : list Glob) : result GlobError (list Glob) :=
  match patterns with
  | [] => Ok builder
  | pattern :: patterns' =>
      if rejects global_wildcard pattern then Err UnsupportedGlobalWildcard
      else
        let? added := add_candidates (expand_domain_pattern (normalize_pattern pattern)) seen builder in
        add_patterns global_wildcard patterns' added.1 added.2
  end.

Definition compile_globset_with_policy (patterns : list str) (global_wildcard : GlobalWildcard)
    : result GlobError GlobSet :=
  let? globs := add_patterns global_wildcard patterns [] [] in
  match build_globs globs with Some set => Ok set | None => Err GlobSetTooLarge end.

Definition compile_allowlist_globset (patterns : list str) : result GlobError GlobSet :=
  compile_globset_with_policy patterns Allow_wildcard.

Definition compile_denylist_globset (patterns : list str) : result GlobError GlobSet :=
  compile_globset_with_policy patterns Reject_wildcard.

(** [globset_matches_host_or_unscoped] of [runtime.rs]. *)
Definition globset_matches_host_or_unscoped (set : GlobSet) (host : str) : bool :=
  is_match set host
  || match unscoped_ip_literal host with Some ip => is_match set ip | None => false end.
End Compile.
