(* ===== verification/NetPolicyFacts.v ===== *)
(** * What domain patterns cover

    The hosts a pattern covers, the order of patterns the managed check decides, the laws
    of the glob crate, and what a compiled list matches. *)

From Stdlib Require Import String ZArith NArith Lia.
From stdpp Require Import base option list numbers.
From S2P Require Import Prelude NetAddr NetPolicy.

Local Open Scope str_scope.

(** ** Covered hosts *)

(** A host strictly below a domain. *)
Definition below (domain host : str) : bool :=
  ends_with ([DOT] ++ domain) host && negb (host ==s [DOT] ++ domain).

(** Some end of a text satisfies a predicate. *)
Fixpoint some_suffix (f : str → bool) (s : str) : bool :=
  f s || match s with [] => false | _ :: s' => some_suffix f s' end.

(** A star in a pattern stands for any text. *)
Fixpoint wild_match (pattern host : str) : bool :=
  match pattern with
  | [] => host ==s []
  | c :: pattern' =>
      if (c =? STAR)%N then some_suffix (wild_match pattern') host
      else match host with
           | x :: host' => (x =? c)%N && wild_match pattern' host'
           | [] => false
           end
  end.

(** A host strictly below one that a pattern matches. *)
Definition wild_below (pattern host : str) : bool :=
  some_suffix (λ t, match t with c :: t' => (c =? DOT)%N && wild_match pattern t' | [] => false end)
    (tail host).

(** The hosts a pattern stands for. *)
Definition covers (p : DomainPattern.t) (host : str) : bool :=
  match p with
  | DomainPattern.Exact d => wild_match (normalize_domain d) host
  | DomainPattern.SubdomainsOnly d => wild_below (normalize_domain d) host
  | DomainPattern.ApexAndSubdomains d =>
      wild_match (normalize_domain d) host || wild_below (normalize_domain d) host
  end.

(** The hosts of a pattern whose domain is read as a text. *)
Definition covers_text (p : DomainPattern.t) (host : str) : bool :=
  match p with
  | DomainPattern.Exact d => host ==s normalize_domain d
  | DomainPattern.SubdomainsOnly d => below (normalize_domain d) host
  | DomainPattern.ApexAndSubdomains d => (host ==s normalize_domain d) || below (normalize_domain d) host
  end.

Definition domain_of (p : DomainPattern.t) : str :=
  match p with
  | DomainPattern.Exact d | DomainPattern.SubdomainsOnly d | DomainPattern.ApexAndSubdomains d => d
  end.

(** The domain of a pattern does not start with a dot. *)
Definition undotted (p : DomainPattern.t) : bool := negb (starts_with [DOT] (normalize_domain (domain_of p))).

(** ** Plain entries *)

(** The characters with a meaning in a glob; the slash separates components of paths. *)
Definition glob_meta (c : char) : bool := contains_char c (lit "*?[]{}\/").

(** A character of a domain in normal form. *)
Definition domain_char (c : char) : bool :=
  negb (is_whitespace c) && negb (glob_meta c) && (to_ascii_lowercase_char c =? c)%N.

Definition plain_domain (d : str) : bool :=
  negb (bool_decide (d = [])) && forallb domain_char d && negb (starts_with [DOT] d)
  && negb (ends_with [DOT] d).

(** The domain of a pattern has no character with a meaning in a glob. *)
Definition literal (p : DomainPattern.t) : bool :=
  negb (existsb glob_meta (domain_of p)).

(** A domain in which stars may stand for any text. *)
Definition wild_char (c : char) : bool :=
  negb (is_whitespace c) && negb (contains_char c (lit "?[]{}\/")) && (to_ascii_lowercase_char c =? c)%N.

Definition wild_domain (d : str) : bool :=
  negb (bool_decide (d = [])) && forallb wild_char d && negb (ends_with [DOT] d).

(** The entries of a literal list in normal form: a domain, its subdomains, both, or any
    host. *)
Inductive plain_entry : str → DomainPattern.t → Prop :=
| plain_exact d : plain_domain d = true → plain_entry d (DomainPattern.Exact d)
| plain_subdomains d :
    plain_domain d = true → plain_entry (lit "*." ++ d) (DomainPattern.SubdomainsOnly d)
| plain_apex d :
    plain_domain d = true → plain_entry (lit "**." ++ d) (DomainPattern.ApexAndSubdomains d)
| plain_any : plain_entry (lit "*") (DomainPattern.Exact (lit "*")).

(** The hosts an entry stands for. *)
Definition entry_covers (entry host : str) : bool :=
  covers (parse_pattern (normalize_pattern entry)) host.

(** A list of entries names a host, or the address of a host with a scope. *)
Definition listed (entries : list str) (host : str) : bool :=
  existsb (λ e, entry_covers e host
                || match unscoped_ip_literal host with Some ip => entry_covers e ip | None => false end)
    entries.

(** The entries of a list are, in their normal form, domains in which stars may stand for any
    text, with one of the prefixes for subdomains or without. *)
Definition plain_list (entries : list str) : Prop :=
  Forall (λ e, wild_domain (domain_of (parse_pattern (normalize_pattern e))) = true) entries.

(** What the glob crate documents, for patterns without path separators: a set matches when
    one of its globs does; a pattern without special characters but stars matches, up to the
    case of ASCII letters, the texts that have any text in the place of each star; behind a
    question mark, a star and a dot it matches what has at least one more character and a dot
    in front. *)
Class GlobLaws {G : Globs} : Prop := {
  build_law gs set h : build_globs gs = Some set → is_match set h = existsb (λ g, glob_match g h) gs;
  wildcard_law d g h : wild_domain d = true → new_glob d = Some g →
    glob_match g h = wild_match d (to_ascii_lowercase h);
  subdomain_law d g h : wild_domain d = true → new_glob (lit "?*." ++ d) = Some g →
    glob_match g h = wild_below d (to_ascii_lowercase h)
}.

(** ** Stars *)

Lemma some_suffix_true f s : some_suffix f s = true ↔ ∃ a b, s = a ++ b ∧ f b = true.
Proof.
  induction s as [|c s IH]; cbn [some_suffix]; rewrite orb_true_iff.
  - split; [intros [Hf|Hf]; [by exists [], []|done]|]. intros (a & b & Hs & Hf).
    symmetry in Hs. apply app_nil in Hs as [-> ->]. by left.
  - rewrite IH. split.
    + intros [Hf|(a & b & -> & Hf)]; [by exists [], (c :: s)|by exists (c :: a), b].
    + intros (a & b & Hs & Hf). destruct a as [|x a]; [left; by rewrite Hs|right].
      injection Hs as -> ->. by exists a, b.
Qed.

(** A pattern without stars matches itself. *)
Lemma wild_match_literal d h : contains_char STAR d = false → wild_match d h = (h ==s d).
Proof.
  revert h. induction d as [|c d IH]; intros h; [intros _; by apply bool_decide_ext|].
  unfold contains_char. cbn [existsb wild_match].
  rewrite orb_false_iff, N.eqb_sym. intros [-> Hd]. destruct h as [|x h]; [by rewrite bool_decide_false|].
  rewrite IH by done. apply eq_true_iff_eq. rewrite andb_true_iff, !bool_decide_eq_true, N.eqb_eq. naive_solver.
Qed.

Lemma wild_below_literal d h : contains_char STAR d = false → wild_below d h = below d h.
Proof.
  intros Hd. apply eq_true_iff_eq. unfold wild_below, below.
  rewrite some_suffix_true, andb_true_iff, ends_with_true, negb_true_iff, bool_decide_eq_false. split.
  - intros (a & b & Hh & Hb). destruct b as [|c b]; [done|]. apply andb_true_iff in Hb as [->%N.eqb_eq Hb].
    rewrite wild_match_literal in Hb by done. apply bool_decide_eq_true in Hb as ->.
    destruct h as [|x h]; [by destruct a|]. cbn in Hh. subst h. split; [by exists (x :: a)|].
    intros Heq. apply (f_equal length) in Heq. rewrite app_comm_cons, length_app in Heq. cbn in Heq. lia.
  - intros [[a ->] Hne]. destruct a as [|x a]; [done|]. exists a, ([DOT] ++ d). split; [done|].
    cbn. rewrite wild_match_literal by done. by apply bool_decide_eq_true.
Qed.

Lemma star_meta d : existsb glob_meta d = false → contains_char STAR (normalize_domain d) = false.
Proof.
  intros Hd. apply not_true_iff_false. unfold contains_char. rewrite existsb_exists.
  intros (c & Hin & <-%N.eqb_eq). unfold normalize_domain, to_ascii_lowercase in Hin.
  apply in_map_iff in Hin as (x & Hx & Hin).
  assert (Hxs : x = STAR).
  { unfold to_ascii_lowercase_char in Hx. destruct (N.leb_spec 65 x), (N.leb_spec x 90); cbn in Hx; try done.
    unfold STAR in Hx. lia. }
  subst x. assert (Hmem : In STAR d).
  { assert (Hall : Forall (λ c, c ∈ d) d) by by apply list.Forall_forall.
    apply (Forall_trim_end_matches _ is_dot) in Hall. rewrite list.Forall_forall in Hall.
    apply list_elem_of_In, Hall, list_elem_of_In, Hin. }
  assert (existsb glob_meta d = true) by (apply existsb_exists; by exists STAR). congruence.
Qed.

Lemma literal_covers p h : literal p = true → covers p h = covers_text p h.
Proof.
  unfold literal. rewrite negb_true_iff. intros Hp%star_meta.
  destruct p; cbn [covers covers_text domain_of] in *; by rewrite ?wild_match_literal, ?wild_below_literal.
Qed.

Lemma any_covers h : covers (DomainPattern.Exact (lit "*")) h = true.
Proof. cbn. apply some_suffix_true. exists h, []. by rewrite app_nil_r. Qed.

(** ** Inclusion of patterns *)

Lemma below_true d h : below d h = true ↔ ∃ x, x ≠ [] ∧ h = x ++ [DOT] ++ d.
Proof.
  unfold below. rewrite andb_true_iff, ends_with_true, negb_true_iff, bool_decide_eq_false. split.
  - intros [[x ->] Hne]. exists x. split; [|done]. by intros ->.
  - intros (x & Hx & ->). split; [by exists x|]. intros Heq. apply Hx.
    apply (f_equal length) in Heq. rewrite length_app in Heq. destruct x; [done|cbn in Heq; lia].
Qed.

Lemma below_longer d h : below d h = true → (length d < length h)%nat.
Proof. intros (x & Hx & ->)%below_true. rewrite !length_app. cbn. lia. Qed.

Lemma below_trans d e h : below d e = true → below e h = true → below d h = true.
Proof.
  intros (x & Hx & ->)%below_true (y & Hy & ->)%below_true. apply below_true.
  exists (y ++ [DOT] ++ x). split; [by destruct y|]. by rewrite <- !app_assoc.
Qed.

Lemma below_label (a : char) d : below d (a :: [DOT] ++ d) = true.
Proof. apply below_true. by exists [a]. Qed.

(** The checks of the code, on domains that do not start with a dot. *)
Lemma strict_below child parent : starts_with [DOT] (normalize_domain child) = false →
  is_strict_subdomain child parent = below (normalize_domain parent) (normalize_domain child).
Proof.
  intros Hc. unfold is_strict_subdomain, below.
  destruct (ends_with ([DOT] ++ normalize_domain parent) (normalize_domain child)) eqn:He;
    [|by rewrite andb_false_r]. rewrite andb_true_r. cbn [andb]. f_equal.
  apply ends_with_true in He as [x Hx]. apply bool_decide_ext. split.
  - intros Heq. apply (f_equal length) in Hx. rewrite Heq, !length_app in Hx. cbn in Hx. lia.
  - intros Heq. rewrite Heq in Hc. done.
Qed.

Lemma subdomain_or_equal_spec child parent : starts_with [DOT] (normalize_domain child) = false →
  is_subdomain_or_equal child parent
  = (normalize_domain child ==s normalize_domain parent)
    || below (normalize_domain parent) (normalize_domain child).
Proof.
  intros Hc. rewrite <- strict_below by done. unfold is_subdomain_or_equal, is_strict_subdomain.
  by case_bool_decide.
Qed.

(** A domain all whose subdomains lie below another is that domain or lies below it. *)
Lemma below_subdomains d e (a : char) : a ≠ DOT → starts_with [DOT] e = false →
  below d (a :: [DOT] ++ e) = true → e = d ∨ below d e = true.
Proof.
  intros Ha He (x & Hx & Heq)%below_true. destruct x as [|b x]; [done|]. injection Heq as <- Heq.
  destruct x as [|b x]; [left; by injection Heq|]. injection Heq as <- Heq.
  right. apply below_true. exists x. split; [|done]. intros ->. cbn in Heq. by rewrite Heq in He.
Qed.

Definition LABEL : char := 97%N.

(** The hosts of a pattern, as a proposition. *)
Lemma covers_text_true p h : covers_text p h = true ↔
  match p with
  | DomainPattern.Exact d => h = normalize_domain d
  | DomainPattern.SubdomainsOnly d => below (normalize_domain d) h = true
  | DomainPattern.ApexAndSubdomains d => h = normalize_domain d ∨ below (normalize_domain d) h = true
  end.
Proof. destruct p; cbn; by rewrite ?orb_true_iff, ?bool_decide_eq_true. Qed.

(** When one domain's hosts are those of another or lie below it. *)
Lemma at_or_below_inclusion D E : starts_with [DOT] E = false →
  (E = D ∨ below D E = true)
  ↔ ∀ h, below E h = true → h = D ∨ below D h = true.
Proof.
  intros HE. split.
  - intros [->|Hb] h Hh; right; [done|by eapply below_trans].
  - intros Hall. destruct (Hall (LABEL :: LABEL :: [DOT] ++ E)) as [HD|Hb];
      [apply below_true; by exists [LABEL; LABEL]| |].
    + destruct (Hall (LABEL :: [DOT] ++ E) (below_label _ _)) as [HD'|Hb'].
      * rewrite <- HD in HD'. discriminate.
      * apply below_longer in Hb'. rewrite <- HD in Hb'. cbn in Hb'. lia.
    + apply below_true in Hb as (x & Hx & Heq). destruct x as [|b x]; [done|]. injection Heq as <- Heq.
      apply (below_subdomains D E LABEL); [done|done|]. apply below_true. exists x.
      split; [|done]. intros ->. discriminate.
Qed.

(** No single host is all the subdomains of a domain. *)
Lemma subdomains_not_single D E : ¬ ∀ h, below E h = true → h = D.
Proof.
  intros Hall. assert (H1 := Hall _ (below_label LABEL E)).
  assert (H2 := Hall _ (below_label MINUS E)). rewrite <- H1 in H2. discriminate.
Qed.

Lemma allows_covers p q : undotted q = true →
  allows p q = true ↔ ∀ host, covers_text q host = true → covers_text p host = true.
Proof.
  unfold undotted. rewrite negb_true_iff. intros Hq. setoid_rewrite covers_text_true.
  destruct p as [d|d|d], q as [e|e|e]; cbn [allows domain_of] in *;
    rewrite ?subdomain_or_equal_spec, ?strict_below by done; unfold domain_eq;
    set (D := normalize_domain d); set (E := normalize_domain e) in *; clearbody D E;
    rewrite ?orb_true_iff, ?bool_decide_eq_true.
  - pose proof (at_or_below_inclusion D E Hq). naive_solver.
  - by apply at_or_below_inclusion.
  - naive_solver.
  - split; [|naive_solver]. intros Hb h [->|Hh]; [done|by eapply below_trans].
  - split; [intros [->|Hb] h Hh; [done|by eapply below_trans]|].
    intros Hall. apply (below_subdomains D E LABEL); [done|done|]. apply Hall, below_label.
  - naive_solver.
  - split; [done|]. intros Hall. destruct (subdomains_not_single D E). naive_solver.
  - split; [done|]. intros Hall. by destruct (subdomains_not_single D E).
  - naive_solver.
Qed.

(** C26: The check that a managed pattern allows a pattern decides inclusion, for patterns
    whose domains have no glob characters and a candidate whose domain does not start with a
    dot: it holds exactly when every host the candidate stands for is one the managed pattern
    stands for.  (Domains with stars are compared as texts; the lone star is refused in
    managed lists before this check.) *)
Theorem allows_is_inclusion p q : literal p = true → literal q = true → undotted q = true →
  allows p q = true ↔ ∀ host, covers q host = true → covers p host = true.
Proof.
  intros Hp Hq Hu. rewrite allows_covers by done.
  split; intros Hall host; specialize (Hall host); by rewrite !literal_covers in *.
Qed.

Lemma allows_is_inclusion_witness :
  allows (DomainPattern.SubdomainsOnly (lit "example.com")) (DomainPattern.SubdomainsOnly (lit "a.example.com"))
  = true ↔ ∀ host, covers (DomainPattern.SubdomainsOnly (lit "a.example.com")) host = true →
      covers (DomainPattern.SubdomainsOnly (lit "example.com")) host = true.
Proof. apply allows_is_inclusion; vm_compute; reflexivity. Defined.

(** ** Normal forms *)

Lemma no_whitespace_trim s : Forall (λ c, is_whitespace c = false) s → trim s = s.
Proof.
  intros Hs. destruct s as [|c s]; [done|]. apply list.Forall_cons in Hs as [Hc Hs].
  rewrite trim_cons by done. destruct s as [|d s _] using rev_ind; [by apply (trim_end_snoc [])|].
  rewrite app_comm_cons. apply trim_end_snoc. apply Forall_snoc in Hs. tauto.
Qed.

Lemma domain_chars d : plain_domain d = true →
  d ≠ [] ∧ Forall (λ c, is_whitespace c = false ∧ glob_meta c = false ∧ to_ascii_lowercase_char c = c) d
  ∧ starts_with [DOT] d = false ∧ ends_with [DOT] d = false.
Proof.
  unfold plain_domain. rewrite !andb_true_iff, !negb_true_iff, bool_decide_eq_false, forallb_forall.
  intros [[[Hne Hch] Hs] He]. split_and!; [done| |done|done].
  apply list.Forall_forall. intros c Hc%list_elem_of_In. specialize (Hch c Hc). unfold domain_char in Hch.
  rewrite !andb_true_iff, !negb_true_iff, N.eqb_eq in Hch. tauto.
Qed.

Lemma plain_lower d : plain_domain d = true → to_ascii_lowercase d = d.
Proof.
  intros (_ & Hc & _)%domain_chars. induction Hc as [|c d (_ & _ & Hc) Hd IH]; [done|].
  cbn. unfold to_ascii_lowercase in IH. by rewrite Hc, IH.
Qed.

Lemma plain_trim d : plain_domain d = true → trim d = d.
Proof.
  intros (_ & Hc & _)%domain_chars. apply no_whitespace_trim. apply (Forall_weaken _ _ _ Hc). tauto.
Qed.

Lemma trim_end_matches_keeps p s : (∀ c, last s = Some c → p c = false) → trim_end_matches p s = s.
Proof.
  destruct s as [|c s _] using rev_ind; intros Hl; [done|]. unfold trim_end_matches.
  rewrite rev_app_distr. cbn. rewrite (Hl c) by by rewrite last_snoc. cbn. by rewrite rev_involutive.
Qed.

Lemma plain_domain_normal d : plain_domain d = true → normalize_domain d = d.
Proof.
  intros Hd. unfold normalize_domain. rewrite trim_end_matches_keeps; [by apply plain_lower|].
  intros c (l & Hl)%last_Some. destruct (domain_chars d Hd) as (_ & _ & _ & He).
  unfold is_dot. destruct (N.eqb_spec c DOT) as [->|]; [|done].
  assert (Ht : ends_with [DOT] d = true) by (apply ends_with_true; by exists l). congruence.
Qed.

Definition lower_case (s : str) : Prop := Forall (λ c, to_ascii_lowercase_char c = c) s.

Lemma lower_case_lowered s : lower_case s ↔ to_ascii_lowercase s = s.
Proof.
  unfold lower_case, to_ascii_lowercase. induction s as [|c s IH]; cbn; [done|].
  rewrite list.Forall_cons, IH. split; [by intros [-> ->]|by intros [= H1 H2]].
Qed.

Lemma wild_domain_normal d : wild_domain d = true → normalize_domain d = d.
Proof.
  unfold wild_domain. rewrite !andb_true_iff, !negb_true_iff, forallb_forall. intros [[_ Hch] He].
  unfold normalize_domain. rewrite trim_end_matches_keeps.
  - apply lower_case_lowered. apply list.Forall_forall. intros c Hc%list_elem_of_In. specialize (Hch c Hc).
    unfold wild_char in Hch. rewrite !andb_true_iff, N.eqb_eq in Hch. tauto.
  - intros c (l & Hl)%last_Some. unfold is_dot. destruct (N.eqb_spec c DOT) as [->|]; [|done].
    assert (Ht : ends_with [DOT] d = true) by (apply ends_with_true; by exists l). congruence.
Qed.

(** A plain domain starts with no star. *)
Lemma plain_no_star d r : plain_domain d = true → d ≠ STAR :: r.
Proof.
  intros (_ & Hc & _)%domain_chars ->. apply list.Forall_cons in Hc as [(_ & Hc & _) _]. done.
Qed.

Lemma plain_prefixed_trim pre d : Forall (λ c, is_whitespace c = false) pre → plain_domain d = true →
  trim (pre ++ d) = pre ++ d.
Proof.
  intros Hp (_ & Hc & _)%domain_chars. apply no_whitespace_trim. apply Forall_app. split; [done|].
  apply (Forall_weaken _ _ _ Hc). tauto.
Qed.

Lemma parse_domain_plain d build : plain_domain d = true → parse_domain d build = build d.
Proof.
  intros Hd. unfold parse_domain. rewrite plain_trim by done.
  destruct (domain_chars d Hd) as (Hne & _). by rewrite bool_decide_false.
Qed.

Lemma parse_plain e p : plain_entry e p → parse_pattern e = p.
Proof.
  intros Hp. unfold parse_pattern. destruct Hp as [d Hd|d Hd|d Hd|]; [..|done].
  - rewrite plain_trim by done. destruct (domain_chars d Hd) as (Hne & _).
    rewrite bool_decide_false by done.
    destruct (strip_prefix (lit "**.") d) as [r|] eqn:H1;
      [apply strip_prefix_Some in H1; by destruct (plain_no_star d _ Hd H1)|].
    destruct (strip_prefix (lit "*.") d) as [r|] eqn:H2;
      [apply strip_prefix_Some in H2; by destruct (plain_no_star d _ Hd H2)|done].
  - rewrite plain_prefixed_trim by (done || by repeat constructor). by apply parse_domain_plain.
  - rewrite plain_prefixed_trim by (done || by repeat constructor). by apply parse_domain_plain.
Qed.

(** The literal entries are among them. *)
Lemma plain_domain_wild d : plain_domain d = true → wild_domain d = true.
Proof.
  unfold plain_domain, wild_domain. rewrite !andb_true_iff, !forallb_forall. intros [[[Hn Hc] _] He].
  split_and!; [done| |done].
  intros c Hin. specialize (Hc c Hin). unfold domain_char, wild_char in *.
  rewrite !andb_true_iff, !negb_true_iff in *. destruct Hc as [[Hw Hm] Hl]. split_and!; [done| |done].
  unfold glob_meta, contains_char in *. cbn [lit existsb] in *. by apply orb_false_iff in Hm as [_ Hm].
Qed.

Lemma plain_entry_wild e p : plain_entry e p → wild_domain (domain_of (parse_pattern e)) = true.
Proof.
  intros Hp. rewrite (parse_plain e p Hp).
  destruct Hp; cbn [domain_of]; try by apply plain_domain_wild. by vm_compute.
Qed.

(** ** Hosts in lower case *)

Lemma lowercase_char_idem c : to_ascii_lowercase_char (to_ascii_lowercase_char c) = to_ascii_lowercase_char c.
Proof.
  unfold to_ascii_lowercase_char. destruct (N.leb_spec 65 c), (N.leb_spec c 90); cbn;
    rewrite ?(proj2 (N.leb_le 65 c)), ?(proj2 (N.leb_gt c 90)), ?(proj2 (N.leb_gt 65 c)),
      ?(proj2 (N.leb_gt (c + 32) 90)), ?andb_false_r by lia; done.
Qed.

Lemma lowercase_idem s : to_ascii_lowercase (to_ascii_lowercase s) = to_ascii_lowercase s.
Proof. unfold to_ascii_lowercase. rewrite map_map. apply map_ext, lowercase_char_idem. Qed.

Lemma split_once_str_Some sep s a b : split_once_str sep s = Some (a, b) → s = a ++ sep ++ b.
Proof.
  revert a. induction s as [|c s IH]; intros a; cbn [split_once_str].
  - destruct (strip_prefix sep []) as [r|] eqn:Hp; [|done]. intros [= <- <-].
    by apply strip_prefix_Some in Hp.
  - destruct (strip_prefix sep (c :: s)) as [r|] eqn:Hp.
    + intros [= <- <-]. by apply strip_prefix_Some in Hp.
    + destruct (split_once_str sep s) as [[a' b']|]; [|done]. intros [= <- <-].
      cbn. f_equal. by apply IH.
Qed.

Lemma split_once_parts sep s a b : split_once sep s = Some (a, b) → s = a ++ [sep] ++ b.
Proof.
  revert a. induction s as [|c s IH]; intros a; cbn [split_once]; [done|].
  destruct (N.eqb_spec c sep) as [->|]; [by intros [= <- <-]|].
  destruct (split_once sep s) as [[a' b']|]; [|done]. intros [= <- <-]. cbn. f_equal. by apply IH.
Qed.

Lemma scoped_literal_lower delimiter host ip : lower_case host →
  scoped_literal delimiter host = Some ip → lower_case ip.
Proof.
  intros Hh. unfold scoped_literal. destruct (split_once_str delimiter host) as [[a b]|] eqn:Hs; [|done].
  apply split_once_str_Some in Hs as ->. destruct (is_ip_literal a); [|done]. intros [= <-].
  unfold lower_case in *. rewrite !Forall_app in *. destruct Hh as (? & _ & ?).
  split; [done|]. by constructor.
Qed.

Lemma normalize_dns_lower host : lower_case (normalize_dns_host_or_ip_literal host).
Proof.
  unfold normalize_dns_host_or_ip_literal. set (h := trim_end_matches is_dot (to_ascii_lowercase host)).
  assert (Hh : lower_case h).
  { apply Forall_trim_end_matches. apply lower_case_lowered, lowercase_idem. }
  destruct (normalize_ip_literal h) as [ip|] eqn:Hip; [|done]. unfold normalize_ip_literal in Hip.
  destruct (is_ip_literal h); [by injection Hip as <-|].
  destruct (scoped_literal (lit "%25") h) as [ip'|] eqn:Hs;
    [injection Hip as <-|]; by eapply scoped_literal_lower.
Qed.

Lemma normalize_host_lower host : lower_case (normalize_host host).
Proof. unfold normalize_host. repeat case_match; apply normalize_dns_lower. Qed.

Lemma unscoped_lower host ip : lower_case host → unscoped_ip_literal host = Some ip → lower_case ip.
Proof.
  unfold unscoped_ip_literal. destruct (split_once PERCENT host) as [[a b]|] eqn:Hs; [|done].
  apply split_once_parts in Hs as ->. destruct (is_ip_literal a); [|done]. intros Hh [= <-].
  unfold lower_case in *. rewrite Forall_app in Hh. tauto.
Qed.

(** ** What a compiled list matches *)

Section Compiled.
Context {G : Globs} {GL : GlobLaws}.

(** The globs of a builder are those of the texts it has seen. *)
Definition built (seen : list str) (builder : list Glob) : Prop :=
  Forall2 (λ c g, new_glob c = Some g) seen builder.

Lemma add_candidates_built cs seen builder seen' builder' : built seen builder →
  add_candidates cs seen builder = Ok (seen', builder') →
  built seen' builder' ∧ ∀ c, c ∈ seen' ↔ c ∈ seen ∨ c ∈ cs.
Proof.
  revert seen builder. induction cs as [|c cs IH]; intros seen builder Hb; cbn [add_candidates].
  { intros [= <- <-]. split; [done|]. intros c. rewrite elem_of_nil. tauto. }
  case_bool_decide as Hin.
  - intros Hr. destruct (IH _ _ Hb Hr) as [Hb' Hm]. split; [done|]. intros x. rewrite Hm, elem_of_cons.
    naive_solver.
  - destruct (new_glob c) as [g|] eqn:Hg; [|done]. intros Hr.
    destruct (IH (seen ++ [c]) (builder ++ [g])) as [Hb' Hm]; [|done|].
    + apply Forall2_app; [done|]. by repeat constructor.
    + split; [done|]. intros x. rewrite Hm, elem_of_app, list_elem_of_singleton, elem_of_cons. tauto.
Qed.

Lemma add_patterns_built w ps seen builder builder' : built seen builder →
  add_patterns w ps seen builder = Ok builder' →
  ∃ seen', built seen' builder'
    ∧ ∀ c, c ∈ seen' ↔ c ∈ seen ∨ ∃ p, p ∈ ps ∧ c ∈ expand_domain_pattern (normalize_pattern p).
Proof.
  revert seen builder. induction ps as [|p ps IH]; intros seen builder Hb; cbn [add_patterns].
  { intros [= <-]. exists seen. split; [done|]. intros c. setoid_rewrite elem_of_nil. naive_solver. }
  destruct (rejects w p); [done|].
  destruct (add_candidates _ seen builder) as [[seen1 builder1]|] eqn:Ha; cbn [rbind fst snd]; [|done].
  destruct (add_candidates_built _ _ _ _ _ Hb Ha) as [Hb1 Hm1]. intros Hr.
  destruct (IH _ _ Hb1 Hr) as (seen' & Hb' & Hm'). exists seen'. split; [done|].
  intros c. rewrite Hm', Hm1. setoid_rewrite elem_of_cons. naive_solver.
Qed.

Lemma built_match seen builder h : built seen builder →
  existsb (λ g, glob_match g h) builder = true
  ↔ ∃ c g, c ∈ seen ∧ new_glob c = Some g ∧ glob_match g h = true.
Proof.
  induction 1 as [|c g seen builder Hg Hb IH]; cbn [existsb].
  { setoid_rewrite elem_of_nil. naive_solver. }
  rewrite orb_true_iff, IH. setoid_rewrite elem_of_cons. naive_solver.
Qed.

(** The globs of one entry match the hosts it covers. *)
Lemma plain_globs_match e h : wild_domain (domain_of (parse_pattern e)) = true → to_ascii_lowercase h = h →
  (∀ c, c ∈ expand_domain_pattern e → is_Some (new_glob c)) →
  (∃ c g, c ∈ expand_domain_pattern e ∧ new_glob c = Some g ∧ glob_match g h = true)
  ↔ covers (parse_pattern e) h = true.
Proof.
  unfold expand_domain_pattern. intros Hd Hh Hall.
  destruct (parse_pattern e) as [d|d|d]; cbn [covers domain_of] in *; rewrite wild_domain_normal by done.
  - destruct (Hall d) as [g Hg]; [by left|]. destruct (Hall (lit "?*." ++ d)) as [g' Hg']; [by right; left|].
    pose proof (wildcard_law d g h Hd Hg) as Hl. pose proof (subdomain_law d g' h Hd Hg') as Hl'.
    rewrite Hh in Hl, Hl'. rewrite <- Hl, <- Hl', orb_true_iff.
    setoid_rewrite elem_of_cons. setoid_rewrite list_elem_of_singleton. naive_solver.
  - destruct (Hall (lit "?*." ++ d)) as [g Hg]; [by left|].
    pose proof (subdomain_law d g h Hd Hg) as Hl. rewrite Hh in Hl.
    setoid_rewrite list_elem_of_singleton. rewrite <- Hl. naive_solver.
  - destruct (Hall d) as [g Hg]; [by left|]. pose proof (wildcard_law d g h Hd Hg) as Hl. rewrite Hh in Hl.
    setoid_rewrite list_elem_of_singleton. rewrite <- Hl. naive_solver.
Qed.

Lemma built_is_Some seen builder c : built seen builder → c ∈ seen → is_Some (new_glob c).
Proof.
  induction 1 as [|x g seen builder Hg Hb IH]; [by intros ?%elem_of_nil|].
  intros [->|Hin]%elem_of_cons; [by eexists|auto].
Qed.

(** A compiled list of plain entries matches the hosts its entries stand for. *)
Lemma compiled_match w ps set h : compile_globset_with_policy ps w = Ok set → plain_list ps →
  to_ascii_lowercase h = h → is_match set h = existsb (λ e, entry_covers e h) ps.
Proof.
  unfold compile_globset_with_policy. destruct (add_patterns w ps [] []) as [gs|] eqn:Ha; [|done].
  cbn [rbind]. destruct (build_globs gs) as [set'|] eqn:Hset; [|done]. intros [= <-] Hplain Hh.
  rewrite (build_law gs set' h Hset).
  destruct (add_patterns_built w ps [] [] gs) as (seen & Hb & Hm); [constructor|done|].
  apply eq_true_iff_eq. rewrite (built_match seen gs h Hb), existsb_exists. setoid_rewrite Hm.
  assert (Hone : ∀ e, e ∈ ps →
    (∃ c g, c ∈ expand_domain_pattern (normalize_pattern e) ∧ new_glob c = Some g ∧ glob_match g h = true)
    ↔ entry_covers e h = true).
  { intros e He. pose proof (Forall_elem _ _ _ Hplain He) as Hd. cbn beta in Hd.
    apply (plain_globs_match _ h Hd Hh). intros c Hc.
    apply (built_is_Some seen gs c Hb), Hm. right. eauto. }
  split.
  - intros (c & g & [Hn|(e & He & Hc)] & Hg & Hgm); [by apply elem_of_nil in Hn|].
    exists e. split; [by apply list_elem_of_In|]. apply Hone; [done|]. eauto.
  - intros (e & He & Hc). apply list_elem_of_In in He. apply Hone in Hc as (c & g & ? & ? & ?); [|done].
    exists c, g. eauto 10.
Qed.

Lemma existsb_or {A} (f g : A → bool) l : existsb (λ x, f x || g x) l = existsb f l || existsb g l.
Proof.
  induction l as [|x l IH]; cbn; [done|]. rewrite IH. by destruct (f x), (g x), (existsb f l).
Qed.

Lemma existsb_never {A} (l : list A) : existsb (λ _, false) l = false.
Proof. by induction l. Qed.

Lemma listed_match w ps set h : compile_globset_with_policy ps w = Ok set → plain_list ps →
  lower_case h → globset_matches_host_or_unscoped set h = listed ps h.
Proof.
  intros Hset Hp Hh. unfold globset_matches_host_or_unscoped, listed.
  rewrite (compiled_match w ps set h Hset Hp) by by apply lower_case_lowered.
  destruct (unscoped_ip_literal h) as [ip|] eqn:Hip.
  - rewrite (compiled_match w ps set ip Hset Hp)
      by (apply lower_case_lowered; by eapply unscoped_lower).
    symmetry. apply existsb_or.
  - rewrite existsb_or, orb_false_r. by rewrite existsb_never, orb_false_r.
Qed.
End Compiled.
