(* ===== verification/NetConfig.v ===== *)
(** * Configuration of the network proxy: [network-proxy/src/config.rs]

    The domain and socket permissions with their precedence, the operations that change
    them, and the addresses the proxy listens on. *)

From Stdlib Require Import String ZArith NArith.
From stdpp Require Import base option list numbers gmap.
From S2P Require Import Prelude StrBytes NetAddr NetPolicy.

Local Open Scope Z_scope.
Local Open Scope str_scope.

(** ** Permissions *)

Module NetworkDomainPermission.
Inductive t : Type := None | Allow | Deny.
#[global] Instance t_eq_dec : EqDecision t.
Proof. solve_decision. Defined.
End NetworkDomainPermission.
Abbreviation NetworkDomainPermission := NetworkDomainPermission.t (only parsing).

(** The order of the variants. *)
Definition permission_rank (p : NetworkDomainPermission) : Z :=
  match p with
  | NetworkDomainPermission.None => 0
  | NetworkDomainPermission.Allow => 1
  | NetworkDomainPermission.Deny => 2
  end.

Module NetworkDomainPermissionEntry.
Record t : Type := mk { pattern : str; permission : NetworkDomainPermission }.
#[global] Instance t_eq_dec : EqDecision t.
Proof. solve_decision. Defined.
End NetworkDomainPermissionEntry.
Abbreviation DomainEntry := NetworkDomainPermissionEntry.t (only parsing).

Module NetworkUnixSocketPermission.
Inductive t : Type := Allow | Deny.
#[global] Instance t_eq_dec : EqDecision t.
Proof. solve_decision. Defined.
End NetworkUnixSocketPermission.

(** [BTreeMap::insert] on the entries of a map in key order. *)
Fixpoint socket_insert (path : str) (permission : NetworkUnixSocketPermission.t)
    (sockets : list (str * NetworkUnixSocketPermission.t))
    : list (str * NetworkUnixSocketPermission.t) :=
  match sockets with
  | [] => [(path, permission)]
  | (p, q) :: sockets' =>
      if str_ltb path p then (path, permission) :: sockets
      else if p ==s path then (path, permission) :: sockets'
      else (p, q) :: socket_insert path permission sockets'
  end.

Module NetworkMode.
Inductive t : Type := Limited | Full.
#[global] Instance t_eq_dec : EqDecision t.
Proof. solve_decision. Defined.
End NetworkMode.

Definition allows_method (mode : NetworkMode.t) (method : str) : bool :=
  match mode with
  | NetworkMode.Full => true
  | NetworkMode.Limited =>
      (method ==s lit "GET") || (method ==s lit "HEAD") || (method ==s lit "OPTIONS")
  end.

(** The loop of [effective_entries] over the entries: the patterns in the order they are
    first seen, and the strongest permission of each. *)
Fixpoint effective_loop (entries : list DomainEntry) (order : list str)
    (permissions : gmap str NetworkDomainPermission)
    : list str * gmap str NetworkDomainPermission :=
  match entries with
  | [] => (order, permissions)
  | entry :: entries' =>
      let pattern := NetworkDomainPermissionEntry.pattern entry in
      let permission := NetworkDomainPermissionEntry.permission entry in
      match permissions !! pattern with
      | None => effective_loop entries' (order ++ [pattern]) (<[pattern := permission]> permissions)
      | Some current =>
          effective_loop entries' order
            (if (permission_rank current <? permission_rank permission)
             then <[pattern := permission]> permissions else permissions)
      end
  end.

(** The loop over the order: every permission is taken out of the map once. *)
Fixpoint take_permissions (order : list str) (permissions : gmap str NetworkDomainPermission)
    : list DomainEntry :=
  match order with
  | [] => []
  | pattern :: order' =>
      match permissions !! pattern with
      | Some permission =>
          NetworkDomainPermissionEntry.mk pattern permission
          :: take_permissions order' (delete pattern permissions)
      | None => take_permissions order' permissions
      end
  end.

Definition effective_entries (entries : list DomainEntry) : list DomainEntry :=
  let '(order, permissions) := effective_loop entries [] ∅ in take_permissions order permissions.

(** ** The configuration *)

(** [mitm_hook.rs]: the hooks on intercepted requests, their validation and compilation,
    and the state of interception. *)
Class MitmHooks : Type := {
  MitmHookConfig : Type;
  MitmHookConfig_eq_dec :: EqDecision MitmHookConfig;
  MitmHooksByHost : Type;
  validate_hooks : bool → list MitmHookConfig → result str unit;
  compile_hooks : bool → list MitmHookConfig → result str MitmHooksByHost;
  has_hooks : MitmHooksByHost → str → bool;
  MitmState : Type;
  new_mitm_state : bool → result str MitmState
}.

Module NetworkProxyConfig.
Record t {M : MitmHooks} : Type := mk {
  enabled : bool;
  proxy_url : str;
  enable_socks5 : bool;
  socks_url : str;
  enable_socks5_udp : bool;
  allow_upstream_proxy : bool;
  dangerously_allow_non_loopback_proxy : bool;
  dangerously_allow_all_unix_sockets : bool;
  mode : NetworkMode.t;
  domains : option (list DomainEntry);
  unix_sockets : option (list (str * NetworkUnixSocketPermission.t));
  allow_local_binding : bool;
  mitm : bool;
  credential_broker : bool;
  dangerously_allow_plaintext_credential_injection : bool;
  mitm_hooks : list MitmHookConfig
}.
Arguments mk {M}.
#[global] Instance t_eq_dec {M : MitmHooks} : EqDecision t.
Proof. solve_decision. Defined.
End NetworkProxyConfig.

Module SocketAddr.
Record t : Type := mk { ip : IpAddr.t; port : Z }.
End SocketAddr.

Section Config.
Context {M : MitmHooks}.
Implicit Types c : NetworkProxyConfig.t.

Definition with_domains (v : option (list DomainEntry)) c : NetworkProxyConfig.t :=
  NetworkProxyConfig.mk (NetworkProxyConfig.enabled c) (NetworkProxyConfig.proxy_url c)
    (NetworkProxyConfig.enable_socks5 c) (NetworkProxyConfig.socks_url c)
    (NetworkProxyConfig.enable_socks5_udp c) (NetworkProxyConfig.allow_upstream_proxy c)
    (NetworkProxyConfig.dangerously_allow_non_loopback_proxy c)
    (NetworkProxyConfig.dangerously_allow_all_unix_sockets c) (NetworkProxyConfig.mode c)
    v (NetworkProxyConfig.unix_sockets c) (NetworkProxyConfig.allow_local_binding c)
    (NetworkProxyConfig.mitm c) (NetworkProxyConfig.credential_broker c)
    (NetworkProxyConfig.dangerously_allow_plaintext_credential_injection c)
    (NetworkProxyConfig.mitm_hooks c).

Definition with_unix_sockets (v : option (list (str * NetworkUnixSocketPermission.t))) c
    : NetworkProxyConfig.t :=
  NetworkProxyConfig.mk (NetworkProxyConfig.enabled c) (NetworkProxyConfig.proxy_url c)
    (NetworkProxyConfig.enable_socks5 c) (NetworkProxyConfig.socks_url c)
    (NetworkProxyConfig.enable_socks5_udp c) (NetworkProxyConfig.allow_upstream_proxy c)
    (NetworkProxyConfig.dangerously_allow_non_loopback_proxy c)
    (NetworkProxyConfig.dangerously_allow_all_unix_sockets c) (NetworkProxyConfig.mode c)
    (NetworkProxyConfig.domains c) v (NetworkProxyConfig.allow_local_binding c)
    (NetworkProxyConfig.mitm c) (NetworkProxyConfig.credential_broker c)
    (NetworkProxyConfig.dangerously_allow_plaintext_credential_injection c)
    (NetworkProxyConfig.mitm_hooks c).

Definition with_mode (v : NetworkMode.t) c : NetworkProxyConfig.t :=
  NetworkProxyConfig.mk (NetworkProxyConfig.enabled c) (NetworkProxyConfig.proxy_url c)
    (NetworkProxyConfig.enable_socks5 c) (NetworkProxyConfig.socks_url c)
    (NetworkProxyConfig.enable_socks5_udp c) (NetworkProxyConfig.allow_upstream_proxy c)
    (NetworkProxyConfig.dangerously_allow_non_loopback_proxy c)
    (NetworkProxyConfig.dangerously_allow_all_unix_sockets c) v
    (NetworkProxyConfig.domains c) (NetworkProxyConfig.unix_sockets c)
    (NetworkProxyConfig.allow_local_binding c) (NetworkProxyConfig.mitm c)
    (NetworkProxyConfig.credential_broker c)
    (NetworkProxyConfig.dangerously_allow_plaintext_credential_injection c)
    (NetworkProxyConfig.mitm_hooks c).

Definition with_broker (broker interception : bool) c : NetworkProxyConfig.t :=
  NetworkProxyConfig.mk (NetworkProxyConfig.enabled c) (NetworkProxyConfig.proxy_url c)
    (NetworkProxyConfig.enable_socks5 c) (NetworkProxyConfig.socks_url c)
    (NetworkProxyConfig.enable_socks5_udp c) (NetworkProxyConfig.allow_upstream_proxy c)
    (NetworkProxyConfig.dangerously_allow_non_loopback_proxy c)
    (NetworkProxyConfig.dangerously_allow_all_unix_sockets c) (NetworkProxyConfig.mode c)
    (NetworkProxyConfig.domains c) (NetworkProxyConfig.unix_sockets c)
    (NetworkProxyConfig.allow_local_binding c) interception broker
    (NetworkProxyConfig.dangerously_allow_plaintext_credential_injection c)
    (NetworkProxyConfig.mitm_hooks c).

(** [NetworkProxyConfig::default]. *)
Definition default_config : NetworkProxyConfig.t :=
  NetworkProxyConfig.mk false (lit "http://127.0.0.1:3128") true (lit "http://127.0.0.1:8081") true
    true false false NetworkMode.Full None None false false false false [].

Definition set_credential_broker_enabled c (enabled : bool) : NetworkProxyConfig.t :=
  with_broker enabled (NetworkProxyConfig.mitm c || enabled) c.

Definition domain_entries c (permission : NetworkDomainPermission) : option (list str) :=
  match NetworkProxyConfig.domains c with
  | None => None
  | Some entries =>
      let patterns :=
        map NetworkDomainPermissionEntry.pattern
          (List.filter (λ entry, bool_decide (NetworkDomainPermissionEntry.permission entry = permission))
             (effective_entries entries)) in
      if bool_decide (patterns = []) then None else Some patterns
  end.

Definition allowed_domains c : option (list str) := domain_entries c NetworkDomainPermission.Allow.
Definition denied_domains c : option (list str) := domain_entries c NetworkDomainPermission.Deny.

Definition allow_unix_sockets c : list str :=
  match NetworkProxyConfig.unix_sockets c with
  | None => []
  | Some sockets =>
      map fst (List.filter (λ kv, bool_decide (kv.2 = NetworkUnixSocketPermission.Allow))
                 sockets)
  end.

(** The permissions of a list, or none. *)
Definition some_domains (entries : list DomainEntry) : option (list DomainEntry) :=
  if bool_decide (entries = []) then None else Some entries.

Definition upsert_domain_permission c (host : str) (permission : NetworkDomainPermission)
    (normalize : str → str) : NetworkProxyConfig.t :=
  let entries := default [] (NetworkProxyConfig.domains c) in
  let normalized_host := normalize host in
  let entries := List.filter
    (λ entry, negb (normalize (NetworkDomainPermissionEntry.pattern entry) ==s normalized_host))
    entries in
  with_domains (some_domains (entries ++ [NetworkDomainPermissionEntry.mk host permission])) c.

Fixpoint push_entries (patterns : list str) (permission : NetworkDomainPermission)
    (entries : list DomainEntry) : list DomainEntry :=
  match patterns with
  | [] => entries
  | pattern :: patterns' =>
      let entry := NetworkDomainPermissionEntry.mk pattern permission in
      push_entries patterns' permission
        (if existsb (λ e, bool_decide (e = entry)) entries then entries else entries ++ [entry])
  end.

Definition set_domain_entries c (patterns : list str) (permission : NetworkDomainPermission)
    : NetworkProxyConfig.t :=
  let entries := default [] (NetworkProxyConfig.domains c) in
  let entries := List.filter
    (λ entry, negb (bool_decide (NetworkDomainPermissionEntry.permission entry = permission)))
    entries in
  with_domains (some_domains (push_entries patterns permission entries)) c.

Definition set_allowed_domains c (patterns : list str) : NetworkProxyConfig.t :=
  set_domain_entries c patterns NetworkDomainPermission.Allow.

Definition set_denied_domains c (patterns : list str) : NetworkProxyConfig.t :=
  set_domain_entries c patterns NetworkDomainPermission.Deny.

Definition set_unix_socket_entries c (paths : list str) (permission : NetworkUnixSocketPermission.t)
    : NetworkProxyConfig.t :=
  let sockets := default [] (NetworkProxyConfig.unix_sockets c) in
  let sockets := List.filter (λ kv, negb (bool_decide (kv.2 = permission))) sockets in
  let sockets := foldl (λ m path, socket_insert path permission m) sockets paths in
  with_unix_sockets (if bool_decide (sockets = []) then None else Some sockets) c.

Definition set_allow_unix_sockets c (paths : list str) : NetworkProxyConfig.t :=
  set_unix_socket_entries c paths NetworkUnixSocketPermission.Allow.

(** ** Listening addresses *)

Definition LOCALHOST : IpAddr.t := IpAddr.V4 (from_octets [127; 0; 0; 1]).

Definition clamp_non_loopback (addr : SocketAddr.t) (allow_non_loopback : bool) : SocketAddr.t :=
  if is_loopback (SocketAddr.ip addr) then addr
  else if allow_non_loopback then addr
  else SocketAddr.mk LOCALHOST (SocketAddr.port addr).

Definition clamp_bind_addrs (http_addr socks_addr : SocketAddr.t) c : SocketAddr.t * SocketAddr.t :=
  let non_loopback := NetworkProxyConfig.dangerously_allow_non_loopback_proxy c in
  let http_addr := clamp_non_loopback http_addr non_loopback in
  let socks_addr := clamp_non_loopback socks_addr non_loopback in
  if bool_decide (allow_unix_sockets c = [])
     && negb (NetworkProxyConfig.dangerously_allow_all_unix_sockets c)
  then (http_addr, socks_addr)
  else (SocketAddr.mk LOCALHOST (SocketAddr.port http_addr),
        SocketAddr.mk LOCALHOST (SocketAddr.port socks_addr)).

(** [validate_unix_socket_allowlist_paths] on a Unix system, where an absolute path is one
    that starts with a slash: the index of the first path that is not absolute. *)
Fixpoint first_relative (index : nat) (paths : list str) : option nat :=
  match paths with
  | [] => None
  | path :: paths' => if starts_with (lit "/") path then first_relative (S index) paths' else Some index
  end.

Definition validate_unix_socket_allowlist_paths c : result nat unit :=
  match first_relative 0 (allow_unix_sockets c) with
  | Some index => Err index
  | None => Ok tt
  end.
End Config.
