(* ===== verification/NetState.v ===== *)
(** * Managed constraints on the proxy: [network-proxy/src/state.rs]

    The compiled policy of a configuration, and the check that a configuration stays within
    the constraints a managed configuration sets. *)

From Stdlib Require Import String ZArith NArith.
From stdpp Require Import base option list numbers gmap.
From S2P Require Import Prelude StrBytes NetAddr NetPolicy NetConfig.

Local Open Scope Z_scope.
Local Open Scope str_scope.

(** ** Constraints *)

Module NetworkProxyConstraints.
Record t : Type := mk {
  enabled : option bool;
  mode : option NetworkMode.t;
  allow_upstream_proxy : option bool;
  dangerously_allow_non_loopback_proxy : option bool;
  dangerously_allow_all_unix_sockets : option bool;
  allowed_domains : option (list str);
  allowlist_expansion_enabled : option bool;
  denied_domains : option (list str);
  denylist_expansion_enabled : option bool;
  allow_unix_sockets : option (list str);
  allow_local_binding : option bool
}.
#[global] Instance t_eq_dec : EqDecision t.
Proof. solve_decision. Defined.

Definition default : t := mk None None None None None None None None None None None.
End NetworkProxyConstraints.

(** A value of an error message: a text, a list of entries, a mode, or a mode with
    [or more restrictive].  The entries that come from a set are in the order of its list. *)
Inductive Shown : Type :=
| Text (s : str)
| Entries (entries : list str)
| Mode (mode : NetworkMode.t)
| AtMost (mode : NetworkMode.t).

(** [NetworkProxyConstraintError::InvalidValue]. *)
Module NetworkProxyConstraintError.
Record t : Type := mk { field_name : str; candidate : Shown; allowed : Shown }.
End NetworkProxyConstraintError.
Abbreviation ConstraintError := NetworkProxyConstraintError.t (only parsing).

Definition invalid_value (field_name : str) (candidate allowed : Shown)
    : result ConstraintError unit :=
  Err (NetworkProxyConstraintError.mk field_name candidate allowed).

Definition network_mode_rank (mode : NetworkMode.t) : Z :=
  match mode with NetworkMode.Limited => 0 | NetworkMode.Full => 1 end.

(** A check that fails with an error when a condition holds. *)
Definition reject_if (condition : bool) (error : result ConstraintError unit)
    : result ConstraintError unit :=
  if condition then error else Ok tt.

Definition DISABLED : Shown := Text (lit "false (disabled by managed config)").

Definition validate_non_global_wildcard_domain_patterns (field_name : str) (patterns : list str)
    : result ConstraintError unit :=
  match List.find is_global_wildcard_domain_pattern patterns with
  | Some pattern =>
      invalid_value field_name (Text (trim pattern))
        (Text (lit "exact hosts or scoped wildcards like *.example.com or **.example.com"))
  | None => Ok tt
  end.

(** Sets of texts as lists: membership, and equality of the members. *)
Definition mem (s : str) (l : list str) : bool := bool_decide (s ∈ l).
Definition same_members (l k : list str) : bool :=
  forallb (λ s, mem s k) l && forallb (λ s, mem s l) k.

Definition lowered (entries : list str) : list str := map to_ascii_lowercase entries.

(** ** The check, one step per field *)

Section Validate.
Context {M : MitmHooks} {H : UrlHosts}.
Implicit Types (config : NetworkProxyConfig.t) (constraints : NetworkProxyConstraints.t).

Definition config_allowed config : list str := default [] (allowed_domains config).
Definition config_denied config : list str := default [] (denied_domains config).

(** A flag that a managed [false] turns off. *)
Definition validate_flag (field_name : str) (managed : option bool) (candidate : bool)
    : result ConstraintError unit :=
  match managed with
  | Some false => reject_if candidate (invalid_value field_name (Text (lit "true")) DISABLED)
  | _ => Ok tt
  end.

Definition validate_mode config constraints : result ConstraintError unit :=
  match NetworkProxyConstraints.mode constraints with
  | Some max_mode =>
      let candidate := NetworkProxyConfig.mode config in
      reject_if (network_mode_rank max_mode <? network_mode_rank candidate)
        (invalid_value (lit "network.mode") (Mode candidate) (AtMost max_mode))
  | None => Ok tt
  end.

Definition validate_all_unix_sockets config constraints : result ConstraintError unit :=
  let allow_all := default (bool_decide (NetworkProxyConstraints.allow_unix_sockets constraints = None))
                     (NetworkProxyConstraints.dangerously_allow_all_unix_sockets constraints) in
  reject_if (NetworkProxyConfig.dangerously_allow_all_unix_sockets config && negb allow_all)
    (invalid_value (lit "network.dangerously_allow_all_unix_sockets") (Text (lit "true")) DISABLED).

(** The allow list against the managed one: it contains it, equals it, or is covered by it.
    Entries the configuration denies need not be allowed. *)
Definition validate_allowed_domains config constraints : result ConstraintError unit :=
  match NetworkProxyConstraints.allowed_domains constraints with
  | None => Ok tt
  | Some managed =>
      let overrides := lowered (config_denied config) in
      check? validate_non_global_wildcard_domain_patterns (lit "network.allowed_domains") managed in
      match NetworkProxyConstraints.allowlist_expansion_enabled constraints with
      | Some true =>
          let candidate_set := lowered (config_allowed config) in
          let missing := List.filter (λ entry, negb (mem entry candidate_set) && negb (mem entry overrides))
                           (lowered managed) in
          reject_if (negb (bool_decide (missing = [])))
            (invalid_value (lit "network.allowed_domains")
               (Text (lit "missing managed allowed_domains entries")) (Entries missing))
      | Some false =>
          let candidate_set := lowered (config_allowed config) in
          let expected_set := List.filter (λ entry, negb (mem entry overrides)) (lowered managed) in
          reject_if (negb (same_members candidate_set expected_set))
            (invalid_value (lit "network.allowed_domains") (Entries (config_allowed config))
               (Text (lit "must match managed allowed_domains")))
      | None =>
          let managed_patterns := map parse_for_constraints managed in
          let invalid := List.filter
            (λ entry, negb (existsb (λ managed, allows managed (parse_for_constraints entry))
                              managed_patterns)) (config_allowed config) in
          reject_if (negb (bool_decide (invalid = [])))
            (invalid_value (lit "network.allowed_domains") (Entries invalid)
               (Text (lit "subset of managed allowed_domains")))
      end
  end.

Definition validate_denied_domains config constraints : result ConstraintError unit :=
  match NetworkProxyConstraints.denied_domains constraints with
  | None => Ok tt
  | Some managed =>
      check? validate_non_global_wildcard_domain_patterns (lit "network.denied_domains") managed in
      let required_set := lowered managed in
      let candidate_set := lowered (config_denied config) in
      match NetworkProxyConstraints.denylist_expansion_enabled constraints with
      | Some false =>
          reject_if (negb (same_members candidate_set required_set))
            (invalid_value (lit "network.denied_domains") (Entries (config_denied config))
               (Text (lit "must match managed denied_domains")))
      | _ =>
          let missing := List.filter (λ entry, negb (mem entry candidate_set)) required_set in
          reject_if (negb (bool_decide (missing = [])))
            (invalid_value (lit "network.denied_domains")
               (Text (lit "missing managed denied_domains entries")) (Entries missing))
      end
  end.

Definition validate_unix_sockets config constraints : result ConstraintError unit :=
  match NetworkProxyConstraints.allow_unix_sockets constraints with
  | None => Ok tt
  | Some managed =>
      let allowed_set := lowered managed in
      let invalid := List.filter (λ entry, negb (mem (to_ascii_lowercase entry) allowed_set))
                       (allow_unix_sockets config) in
      reject_if (negb (bool_decide (invalid = [])))
        (invalid_value (lit "network.allow_unix_sockets") (Entries invalid)
           (Text (lit "subset of managed allow_unix_sockets")))
  end.

(** [validate_mitm_hook_config], with its error as the error of the field. *)
Definition validate_mitm_hooks config : result ConstraintError unit :=
  match validate_hooks (NetworkProxyConfig.mitm config) (NetworkProxyConfig.mitm_hooks config) with
  | Ok _ => Ok tt
  | Err e => invalid_value (lit "network.mitm_hooks") (Text e) (Text (lit "valid MITM hook configuration"))
  end.

Definition validate_policy_against_constraints config constraints : result ConstraintError unit :=
  check? validate_mitm_hooks config in
  check? validate_non_global_wildcard_domain_patterns (lit "network.denied_domains")
           (config_denied config) in
  check? validate_flag (lit "network.enabled") (NetworkProxyConstraints.enabled constraints)
           (NetworkProxyConfig.enabled config) in
  check? validate_mode config constraints in
  check? validate_flag (lit "network.allow_upstream_proxy")
           (NetworkProxyConstraints.allow_upstream_proxy constraints)
           (NetworkProxyConfig.allow_upstream_proxy config) in
  check? validate_flag (lit "network.dangerously_allow_non_loopback_proxy")
           (NetworkProxyConstraints.dangerously_allow_non_loopback_proxy constraints)
           (NetworkProxyConfig.dangerously_allow_non_loopback_proxy config) in
  check? validate_all_unix_sockets config constraints in
  check? validate_flag (lit "network.allow_local_binding")
           (NetworkProxyConstraints.allow_local_binding constraints)
           (NetworkProxyConfig.allow_local_binding config) in
  check? validate_allowed_domains config constraints in
  check? validate_denied_domains config constraints in
  validate_unix_sockets config constraints.
End Validate.

(** ** The compiled state *)

(** A blocked request, with what the policy records of it. *)
Module BlockedRequest.
Record t : Type := mk {
  host : str;
  reason : str;
  client : option str;
  method : option str;
  mode : option NetworkMode.t;
  protocol : str;
  execution_id : option str;
  decision : option str;
  source : option str;
  port : option Z;
  timestamp : Z
}.
End BlockedRequest.

Module ConfigState.
Record t {M : MitmHooks} {G : Globs} : Type := mk {
  config : NetworkProxyConfig.t;
  allow_set : GlobSet;
  deny_set : GlobSet;
  mitm : option MitmState;
  mitm_hooks : MitmHooksByHost;
  constraints : NetworkProxyConstraints.t;
  blocked : list BlockedRequest.t;
  blocked_total : Z
}.
Arguments mk {M G}.
End ConfigState.

(** Why a state is not built. *)
Inductive BuildError : Type :=
| InvalidUnixSocket (index : nat)
| BrokerWithoutMitm
| InvalidConstraint (error : ConstraintError)
| InvalidGlobs (error : GlobError)
| InvalidHooks (error : str)
| MitmFailed (error : str).

Definition map_err {E F A} (f : E → F) (r : result E A) : result F A :=
  match r with Ok a => Ok a | Err e => Err (f e) end.

Section Build.
Context {M : MitmHooks} {G : Globs}.

Definition build_config_state (config : NetworkProxyConfig.t) (constraints : NetworkProxyConstraints.t)
    : result BuildError ConfigState.t :=
  check? map_err InvalidUnixSocket (validate_unix_socket_allowlist_paths config) in
  check? (if negb (NetworkProxyConfig.credential_broker config) || NetworkProxyConfig.mitm config
          then Ok tt else Err BrokerWithoutMitm) in
  let allowed := config_allowed config in
  let denied := config_denied config in
  check? map_err InvalidConstraint
           (validate_non_global_wildcard_domain_patterns (lit "network.denied_domains") denied) in
  let? deny_set := map_err InvalidGlobs (compile_denylist_globset denied) in
  let? allow_set := map_err InvalidGlobs (compile_allowlist_globset allowed) in
  let? hooks := map_err InvalidHooks
                  (compile_hooks (NetworkProxyConfig.mitm config) (NetworkProxyConfig.mitm_hooks config)) in
  let? mitm := (if NetworkProxyConfig.mitm config
                then map_err MitmFailed
                       (let? state := new_mitm_state (NetworkProxyConfig.allow_upstream_proxy config) in
                        Ok (Some state))
                else Ok None) in
  Ok (ConfigState.mk config allow_set deny_set mitm hooks constraints [] 0).
End Build.
