(* ===== verification/NetRuntime.v ===== *)
(** * The running proxy: [network-proxy/src/runtime.rs], [network_policy.rs] and
    [connect_policy.rs]

    The decision whether a host may be reached, the operations on the shared state, the
    policy of a request with its decider, and the check of an address when a connection is
    made.  Reloading the configuration, name lookups and the decider are inputs. *)

From Stdlib Require Import String ZArith NArith.
From stdpp Require Import base option list numbers gmap.
From S2P Require Import Prelude StrBytes NetAddr NetPolicy NetConfig NetState.

Local Open Scope Z_scope.
Local Open Scope str_scope.

(** ** Decisions on hosts *)

Module HostBlockReason.
Inductive t : Type := Denied | NotAllowed | NotAllowedLocal.
#[global] Instance t_eq_dec : EqDecision t.
Proof. solve_decision. Defined.
End HostBlockReason.

Definition reason_str (r : HostBlockReason.t) : str :=
  match r with
  | HostBlockReason.Denied => lit "denied"
  | HostBlockReason.NotAllowed => lit "not_allowed"
  | HostBlockReason.NotAllowedLocal => lit "not_allowed_local"
  end.

Module HostBlockDecision.
Inductive t : Type := Allowed | Blocked (reason : HostBlockReason.t).
#[global] Instance t_eq_dec : EqDecision t.
Proof. solve_decision. Defined.
End HostBlockDecision.

(** What a lookup of a name gives within the time limit. *)
Inductive Lookup : Type :=
| Addresses (addrs : list SocketAddr.t)
| LookupFailed
| LookupTimedOut.

Definition host_resolves_to_non_public_ip (host : str) (port : Z) (lookup : str → Z → Lookup) : bool :=
  match parse_ip host with
  | Some ip => is_non_public_ip ip
  | None =>
      match lookup host port with
      | Addresses addrs => existsb (λ addr, is_non_public_ip (SocketAddr.ip addr)) addrs
      | LookupFailed => true
      | LookupTimedOut => true
      end
  end.

Definition is_explicit_local_allowlisted (allowed : list str) (host : str) : bool :=
  let unscoped_host := unscoped_ip_literal host in
  existsb (λ pattern,
    let pattern := trim pattern in
    if (pattern ==s lit "*") || starts_with (lit "*.") pattern || starts_with (lit "**.") pattern
    then false
    else if contains_char STAR pattern || contains_char QUESTION pattern then false
    else
      let normalized_pattern := normalize_host pattern in
      (normalized_pattern ==s host)
      || match unscoped_host with Some ip => normalized_pattern ==s ip | None => false end) allowed.

(** The loopback names and the addresses that are not public, written as such. *)
Definition local_literal (host : str) : bool :=
  let host_no_scope := default host (unscoped_ip_literal host) in
  if is_loopback_host host then true
  else match parse_ip host_no_scope with Some ip => is_non_public_ip ip | None => false end.

(** Why an operation of the running proxy fails. *)
Inductive RuntimeError : Type :=
| ReloadFailed (error : str)
| BrokerChanged
| InvalidHost
| Constrained (error : ConstraintError)
| BuildFailed (error : BuildError).

Section Runtime.
Context {M : MitmHooks} {H : UrlHosts} {G : Globs}.
Implicit Types s : ConfigState.t.

(** The body of [host_blocked] once the configuration is loaded. *)
Definition decide_host s (host : str) (port : Z) (lookup : str → Z → Lookup) : HostBlockDecision.t :=
  match parse_host host with
  | None => HostBlockDecision.Blocked HostBlockReason.NotAllowed
  | Some host =>
      let config := ConfigState.config s in
      let allowed := allowed_domains config in
      let allowed_domains_empty := bool_decide (allowed = None) in
      let allowed := default [] allowed in
      if globset_matches_host_or_unscoped (ConfigState.deny_set s) host
      then HostBlockDecision.Blocked HostBlockReason.Denied
      else
        let is_allowlisted := globset_matches_host_or_unscoped (ConfigState.allow_set s) host in
        let blocked_local :=
          if NetworkProxyConfig.allow_local_binding config then false
          else if local_literal host then negb (is_explicit_local_allowlisted allowed host)
          else host_resolves_to_non_public_ip host port lookup in
        if blocked_local then HostBlockDecision.Blocked HostBlockReason.NotAllowedLocal
        else if allowed_domains_empty || negb is_allowlisted
        then HostBlockDecision.Blocked HostBlockReason.NotAllowed
        else HostBlockDecision.Allowed
  end.

(** ** Operations on the shared state *)

Definition with_config (v : NetworkProxyConfig.t) s : ConfigState.t :=
  ConfigState.mk v (ConfigState.allow_set s) (ConfigState.deny_set s) (ConfigState.mitm s)
    (ConfigState.mitm_hooks s) (ConfigState.constraints s) (ConfigState.blocked s)
    (ConfigState.blocked_total s).

Definition with_blocked (blocked : list BlockedRequest.t) (total : Z) s : ConfigState.t :=
  ConfigState.mk (ConfigState.config s) (ConfigState.allow_set s) (ConfigState.deny_set s)
    (ConfigState.mitm s) (ConfigState.mitm_hooks s) (ConfigState.constraints s) blocked total.

Definition broker_unchanged (broker : bool) (new_state : ConfigState.t) : bool :=
  Bool.eqb broker (NetworkProxyConfig.credential_broker (ConfigState.config new_state)).

(** [reload_if_needed]; [reload] is what the reloader returns. *)
Definition reload_if_needed (broker : bool) s (reload : result str (option ConfigState.t))
    : result RuntimeError ConfigState.t :=
  match reload with
  | Err e => Err (ReloadFailed e)
  | Ok None => Ok s
  | Ok (Some new_state) =>
      if broker_unchanged broker new_state
      then Ok (with_blocked (ConfigState.blocked s) (ConfigState.blocked_total s) new_state)
      else Err BrokerChanged
  end.

(** [force_reload] keeps the buffered requests, not their total. *)
Definition force_reload (broker : bool) s (reload : result str ConfigState.t)
    : result RuntimeError ConfigState.t :=
  match reload with
  | Err e => Err (ReloadFailed e)
  | Ok new_state =>
      if broker_unchanged broker new_state
      then Ok (with_blocked (ConfigState.blocked s) (ConfigState.blocked_total new_state) new_state)
      else Err BrokerChanged
  end.

Definition replace_config_state (broker : bool) s (reload : result str (option ConfigState.t))
    (new_state : ConfigState.t) : result RuntimeError ConfigState.t :=
  let? s := reload_if_needed broker s reload in
  if broker_unchanged broker new_state
  then Ok (with_blocked (ConfigState.blocked s) (ConfigState.blocked_total s) new_state)
  else Err BrokerChanged.

Definition host_blocked (broker : bool) s (reload : result str (option ConfigState.t))
    (host : str) (port : Z) (lookup : str → Z → Lookup)
    : result RuntimeError (HostBlockDecision.t * ConfigState.t) :=
  let? s := reload_if_needed broker s reload in Ok (decide_host s host port lookup, s).

Definition MAX_BLOCKED_EVENTS : nat := 200.

(** The loop that drops the oldest requests. *)
Fixpoint drop_oldest (fuel : nat) (blocked : list BlockedRequest.t) : list BlockedRequest.t :=
  match fuel with
  | O => blocked
  | S fuel' => if (MAX_BLOCKED_EVENTS <? length blocked)%nat
               then drop_oldest fuel' (tail blocked) else blocked
  end.

(** The critical section of [record_blocked]. *)
Definition push_blocked (entry : BlockedRequest.t) s : ConfigState.t :=
  let blocked := ConfigState.blocked s ++ [entry] in
  with_blocked (drop_oldest (length blocked) blocked)
    (Z.min (ConfigState.blocked_total s + 1) (2 ^ 64 - 1)) s.

Definition with_execution_id (id : option str) (e : BlockedRequest.t) : BlockedRequest.t :=
  BlockedRequest.mk (BlockedRequest.host e) (BlockedRequest.reason e) (BlockedRequest.client e)
    (BlockedRequest.method e) (BlockedRequest.mode e) (BlockedRequest.protocol e) id
    (BlockedRequest.decision e) (BlockedRequest.source e) (BlockedRequest.port e)
    (BlockedRequest.timestamp e).

(** [record_blocked], with the request the observer sees. *)
Definition record_blocked (broker : bool) (execution_id : option str) s
    (reload : result str (option ConfigState.t)) (entry : BlockedRequest.t)
    : result RuntimeError (BlockedRequest.t * ConfigState.t) :=
  let? s := reload_if_needed broker s reload in
  let entry := with_execution_id execution_id entry in
  Ok (entry, push_blocked entry s).

Definition drain_blocked (broker : bool) s (reload : result str (option ConfigState.t))
    : result RuntimeError (list BlockedRequest.t * ConfigState.t) :=
  let? s := reload_if_needed broker s reload in
  Ok (ConfigState.blocked s, with_blocked [] (ConfigState.blocked_total s) s).

Definition method_allowed (broker : bool) s (reload : result str (option ConfigState.t))
    (method : str) : result RuntimeError (bool * ConfigState.t) :=
  let? s := reload_if_needed broker s reload in
  Ok (allows_method (NetworkProxyConfig.mode (ConfigState.config s)) method, s).

(** ** Changing the policy

    The changes read the state, prepare the new one without the lock, and write it if
    nothing they depend on has changed in the meantime. *)

Inductive DomainListKind : Type := AllowList | DenyList.

Definition permission_of (target : DomainListKind) : NetworkDomainPermission :=
  match target with
  | AllowList => NetworkDomainPermission.Allow
  | DenyList => NetworkDomainPermission.Deny
  end.

Definition target_entries (target : DomainListKind) (config : NetworkProxyConfig.t) : list str :=
  match target with AllowList => config_allowed config | DenyList => config_denied config end.

Definition opposite_entries (target : DomainListKind) (config : NetworkProxyConfig.t) : list str :=
  match target with AllowList => config_denied config | DenyList => config_allowed config end.

(** What an update prepares from the state it has read: nothing to do, or the new state. *)
Definition prepare_update (read : ConfigState.t) (normalized_host : str) (target : DomainListKind)
    : result RuntimeError (option ConfigState.t) :=
  let previous_cfg := ConfigState.config read in
  let constraints := ConfigState.constraints read in
  let contains entries := existsb (λ entry, normalize_host entry ==s normalized_host) entries in
  if contains (target_entries target previous_cfg)
     && negb (contains (opposite_entries target previous_cfg))
  then Ok None
  else
    let candidate := upsert_domain_permission previous_cfg normalized_host (permission_of target)
                       normalize_host in
    check? map_err Constrained (validate_policy_against_constraints candidate constraints) in
    let? new_state := map_err BuildFailed (build_config_state candidate constraints) in
    Ok (Some (with_blocked (ConfigState.blocked read) (ConfigState.blocked_total read) new_state)).

(** The write: the new state, or none when the update starts over. *)
Definition commit_update (read : ConfigState.t) (new_state : ConfigState.t) s : option ConfigState.t :=
  if bool_decide (ConfigState.constraints s = ConfigState.constraints read)
     && bool_decide (ConfigState.config s = ConfigState.config read)
  then Some new_state else None.

(** [update_domain_list] when nothing happens between its read and its write. *)
Definition update_domain_list (broker : bool) s (reload : result str (option ConfigState.t))
    (host : str) (target : DomainListKind) : result RuntimeError ConfigState.t :=
  match parse_host host with
  | None => Err InvalidHost
  | Some normalized_host =>
      let? s := reload_if_needed broker s reload in
      let? prepared := prepare_update s normalized_host target in
      match prepared with
      | None => Ok s
      | Some new_state => Ok (default s (commit_update s new_state s))
      end
  end.

Definition add_allowed_domain (broker : bool) s (reload : result str (option ConfigState.t))
    (host : str) : result RuntimeError ConfigState.t :=
  update_domain_list broker s reload host AllowList.

Definition add_denied_domain (broker : bool) s (reload : result str (option ConfigState.t))
    (host : str) : result RuntimeError ConfigState.t :=
  update_domain_list broker s reload host DenyList.

(** The check of [set_network_mode] on the state it has read, and its write. *)
Definition prepare_mode (read : ConfigState.t) (mode : NetworkMode.t) : result RuntimeError unit :=
  map_err Constrained
    (validate_policy_against_constraints (with_mode mode (ConfigState.config read))
       (ConfigState.constraints read)).

Definition commit_mode (read : ConfigState.t) (mode : NetworkMode.t) s : option ConfigState.t :=
  if bool_decide (ConfigState.constraints s = ConfigState.constraints read)
  then Some (with_config (with_mode mode (ConfigState.config s)) s) else None.

Definition set_network_mode (broker : bool) s (reload : result str (option ConfigState.t))
    (mode : NetworkMode.t) : result RuntimeError ConfigState.t :=
  let? s := reload_if_needed broker s reload in
  check? prepare_mode s mode in
  Ok (default s (commit_mode s mode s)).
End Runtime.

(** ** The policy of a request: [network_policy.rs] *)

Module NetworkDecisionSource.
Inductive t : Type := BaselinePolicy | ModeGuard | ProxyState | Decider.
End NetworkDecisionSource.

Module NetworkPolicyDecision.
Inductive t : Type := Deny | Ask.
End NetworkPolicyDecision.

Module NetworkProtocol.
Inductive t : Type := Http | HttpsConnect | Socks5Tcp | Socks5Udp.
End NetworkProtocol.

Module NetworkPolicyRequest.
Record t : Type := mk {
  protocol : NetworkProtocol.t;
  host : str;
  port : Z;
  environment_id : option str;
  client_addr : option str;
  method : option str;
  command : option str;
  exec_policy_hint : option str;
  execution_id : option str
}.
End NetworkPolicyRequest.

Module NetworkDecision.
Inductive t : Type :=
| Allow
| Deny (reason : str) (source : NetworkDecisionSource.t) (decision : NetworkPolicyDecision.t).
End NetworkDecision.

Definition deny_with_source (reason : str) (source : NetworkDecisionSource.t) : NetworkDecision.t :=
  NetworkDecision.Deny (if bool_decide (reason = []) then lit "policy_denied" else reason) source
    NetworkPolicyDecision.Deny.

Definition map_decider_decision (decision : NetworkDecision.t) : NetworkDecision.t :=
  match decision with
  | NetworkDecision.Allow => NetworkDecision.Allow
  | NetworkDecision.Deny reason _ decision =>
      NetworkDecision.Deny reason NetworkDecisionSource.Decider decision
  end.

(** The event that records a decision. *)
Module PolicyAuditEvent.
Record t : Type := mk {
  scope : str;
  decision : str;
  source : NetworkDecisionSource.t;
  reason : str;
  protocol : NetworkProtocol.t;
  server_address : str;
  server_port : Z;
  method : option str;
  client_addr : option str;
  execution_id : option str;
  policy_override : bool
}.
End PolicyAuditEvent.

Definition policy_decision_str (d : NetworkPolicyDecision.t) : str :=
  match d with
  | NetworkPolicyDecision.Deny => lit "deny"
  | NetworkPolicyDecision.Ask => lit "ask"
  end.

(** The request as the decider sees it. *)
Definition decider_request (environment_id execution_id : option str) (r : NetworkPolicyRequest.t)
    : NetworkPolicyRequest.t :=
  NetworkPolicyRequest.mk (NetworkPolicyRequest.protocol r) (NetworkPolicyRequest.host r)
    (NetworkPolicyRequest.port r)
    (match NetworkPolicyRequest.environment_id r with Some id => Some id | None => environment_id end)
    (NetworkPolicyRequest.client_addr r) (NetworkPolicyRequest.method r)
    (NetworkPolicyRequest.command r) (NetworkPolicyRequest.exec_policy_hint r) execution_id.

(** [rama]'s host of a connection. *)
Inductive TargetHost : Type :=
| Address (ip : IpAddr.t)
| Name (name : str).

Definition is_localhost_name (name : str) : bool :=
  to_ascii_lowercase (trim_end_matches is_dot name) ==s lit "localhost".

Definition target_matches_non_public_addr (host : TargetHost) (addr : IpAddr.t) : bool :=
  match host with
  | Address ip => bool_decide (ip = addr)
  | Name name => is_localhost_name name && is_loopback addr
  end.

Definition is_non_public_target (host : TargetHost) : bool :=
  match host with
  | Address ip => is_non_public_ip ip
  | Name name => is_localhost_name name
  end.

Section Requests.
Context {M : MitmHooks} {H : UrlHosts} {G : Globs}.
Implicit Types s : ConfigState.t.

Definition evaluate_host_policy (broker : bool) (environment_id execution_id : option str) s
    (reload : result str (option ConfigState.t)) (lookup : str → Z → Lookup)
    (decider : option (NetworkPolicyRequest.t → NetworkDecision.t)) (request : NetworkPolicyRequest.t)
    : result RuntimeError (NetworkDecision.t * PolicyAuditEvent.t * ConfigState.t) :=
  let? blocked := host_blocked broker s reload (NetworkPolicyRequest.host request)
                    (NetworkPolicyRequest.port request) lookup in
  let '(host_decision, s) := blocked in
  let '(decision, policy_override) :=
    match host_decision with
    | HostBlockDecision.Allowed => (NetworkDecision.Allow, false)
    | HostBlockDecision.Blocked HostBlockReason.NotAllowed =>
        match decider with
        | Some decide =>
            let decision :=
              map_decider_decision (decide (decider_request environment_id execution_id request)) in
            (decision, match decision with NetworkDecision.Allow => true | _ => false end)
        | None =>
            (deny_with_source (reason_str HostBlockReason.NotAllowed)
               NetworkDecisionSource.BaselinePolicy, false)
        end
    | HostBlockDecision.Blocked reason =>
        (deny_with_source (reason_str reason) NetworkDecisionSource.BaselinePolicy, false)
    end in
  let '(policy_decision, source, reason) :=
    match decision with
    | NetworkDecision.Allow =>
        (lit "allow",
         if (policy_override : bool) then NetworkDecisionSource.Decider
         else NetworkDecisionSource.BaselinePolicy,
         if (policy_override : bool) then reason_str HostBlockReason.NotAllowed else lit "allow")
    | NetworkDecision.Deny reason source decision => (policy_decision_str decision, source, reason)
    end in
  Ok (decision,
      PolicyAuditEvent.mk (lit "domain") policy_decision source reason
        (NetworkPolicyRequest.protocol request) (NetworkPolicyRequest.host request)
        (NetworkPolicyRequest.port request) (NetworkPolicyRequest.method request)
        (NetworkPolicyRequest.client_addr request) execution_id policy_override, s).

(** ** The check of an address: [connect_policy.rs] *)

(** [allows_non_public_target]; the two calls may each see a reload. *)
Definition allows_non_public_target (broker : bool) s
    (reload1 reload2 : result str (option ConfigState.t)) (lookup : str → Z → Lookup)
    (target : TargetHost) (target_text : str) (port : Z) (addr : IpAddr.t)
    : result RuntimeError (bool * ConfigState.t) :=
  let? s := reload_if_needed broker s reload1 in
  if NetworkProxyConfig.allow_local_binding (ConfigState.config s) then Ok (true, s)
  else if negb (target_matches_non_public_addr target addr) then Ok (false, s)
  else
    let? decided := host_blocked broker s reload2 target_text port lookup in
    Ok (bool_decide (decided.1 = HostBlockDecision.Allowed), decided.2).

(** [TargetCheckedStreamConnector::connect]: whether an address is dialled. *)
Definition connect (broker : bool) s
    (reload1 reload2 : result str (option ConfigState.t)) (lookup : str → Z → Lookup)
    (target : TargetHost) (target_text : str) (port : Z) (addr : IpAddr.t)
    : result RuntimeError (bool * ConfigState.t) :=
  if is_non_public_ip addr
  then allows_non_public_target broker s reload1 reload2 lookup target target_text port addr
  else Ok (true, s).

(** [TargetCheckedTcpConnector::serve]: the address is that of the upstream proxy, which is
    dialled without a check, or one of the target's. *)
Definition connects (upstream_proxy broker : bool) s
    (reload1 reload2 : result str (option ConfigState.t)) (lookup : str → Z → Lookup)
    (target : TargetHost) (target_text : str) (port : Z) (addr : IpAddr.t)
    : result RuntimeError (bool * ConfigState.t) :=
  if upstream_proxy then Ok (true, s)
  else connect broker s reload1 reload2 lookup target target_text port addr.
End Requests.
