(* ===== verification/NetRuntimeFacts.v ===== *)
(** * What the running proxy guarantees

    The decision on a host in terms of the lists of the configuration, the limits of a
    decider and of a connection, and the limits a managed configuration sets. *)

From Stdlib Require Import String ZArith NArith Lia.
From stdpp Require Import base option list numbers gmap.
From S2P Require Import Prelude StrBytes NetAddr NetPolicy NetPolicyFacts NetConfig NetState NetRuntime.

Local Open Scope Z_scope.
Local Open Scope str_scope.

Section Facts.
Context {M : MitmHooks} {H : UrlHosts} {G : Globs}.
Implicit Types s : ConfigState.t.

(** The compiled sets are those of the lists. *)
Definition coherent s : Prop :=
  compile_allowlist_globset (config_allowed (ConfigState.config s)) = Ok (ConfigState.allow_set s)
  ∧ compile_denylist_globset (config_denied (ConfigState.config s)) = Ok (ConfigState.deny_set s).

(** The entries of the lists of a configuration use no glob characters but stars. *)
Definition plain_config (c : NetworkProxyConfig.t) : Prop :=
  plain_list (config_allowed c) ∧ plain_list (config_denied c).

(** The addresses of a host are known and none of them is local. *)
Definition resolves_public (h : str) (port : Z) (lookup : str → Z → Lookup) : Prop :=
  match parse_ip h with
  | Some ip => local_address ip = false
  | None => ∃ addrs, lookup h port = Addresses addrs
              ∧ Forall (λ a, local_address (SocketAddr.ip a) = false) addrs
  end.

(** A host may be reached although local networks are protected. *)
Definition local_access (c : NetworkProxyConfig.t) (h : str) (port : Z) (lookup : str → Z → Lookup) : Prop :=
  NetworkProxyConfig.allow_local_binding c = true
  ∨ (local_literal h = true ∧ is_explicit_local_allowlisted (config_allowed c) h = true)
  ∨ (local_literal h = false ∧ resolves_public h port lookup).

(** A request names a local address: as such, or as a loopback address of localhost. *)
Definition names_address (target : TargetHost) (addr : IpAddr.t) : Prop :=
  match target with
  | Address ip => ip = addr
  | Name name =>
      to_ascii_lowercase (trim_end_matches is_dot name) = lit "localhost" ∧ is_loopback addr = true
  end.

(** A lookup returns addresses. *)
Definition lookup_ok (lookup : str → Z → Lookup) : Prop :=
  ∀ h port addrs, lookup h port = Addresses addrs → Forall (λ a, ip_ok (SocketAddr.ip a)) addrs.

Context {GL : GlobLaws}.

Lemma resolves_public_spec h port lookup : lookup_ok lookup →
  host_resolves_to_non_public_ip h port lookup = false ↔ resolves_public h port lookup.
Proof.
  intros Hl. unfold host_resolves_to_non_public_ip, resolves_public.
  destruct (parse_ip h) as [ip|] eqn:Hip.
  { by rewrite non_public_blocks by by eapply parse_ip_ok. }
  destruct (lookup h port) as [addrs| |] eqn:Hlk; [|by split; [|intros (? & ? & _)]..].
  pose proof (Hl _ _ _ Hlk) as Hok. split.
  - intros Hf. exists addrs. split; [done|]. clear Hlk. induction Hok as [|a addrs Ha Hok IH]; [done|].
    cbn in Hf. apply orb_false_iff in Hf as [Hf Hr]. rewrite non_public_blocks in Hf by done.
    constructor; [done|by apply IH].
  - intros (addrs' & [= <-] & Hall). clear Hlk. induction Hok as [|a addrs Ha Hok IH]; [done|].
    apply list.Forall_cons in Hall as [H1 H2]. cbn. rewrite non_public_blocks, H1 by done. by apply IH.
Qed.

Lemma parse_host_lower host h : parse_host host = Some h → lower_case h.
Proof.
  unfold parse_host. case_bool_decide; [done|]. intros [= <-]. apply normalize_host_lower.
Qed.

(** The decision in terms of the lists. *)
Lemma decide_host_lists s host h port lookup :
  coherent s → plain_config (ConfigState.config s) → parse_host host = Some h →
  decide_host s host port lookup =
    let c := ConfigState.config s in
    if listed (config_denied c) h then HostBlockDecision.Blocked HostBlockReason.Denied
    else if (if NetworkProxyConfig.allow_local_binding c then false
             else if local_literal h then negb (is_explicit_local_allowlisted (config_allowed c) h)
             else host_resolves_to_non_public_ip h port lookup)
    then HostBlockDecision.Blocked HostBlockReason.NotAllowedLocal
    else if listed (config_allowed c) h then HostBlockDecision.Allowed
    else HostBlockDecision.Blocked HostBlockReason.NotAllowed.
Proof.
  intros [Ha Hd] [Hpa Hpd] Hh. unfold decide_host. rewrite Hh. cbv zeta.
  pose proof (parse_host_lower _ _ Hh) as Hlow.
  rewrite (listed_match Reject_wildcard (config_denied (ConfigState.config s)) _ h Hd Hpd Hlow).
  rewrite (listed_match Allow_wildcard (config_allowed (ConfigState.config s)) _ h Ha Hpa Hlow).
  destruct (listed (config_denied _) h); [done|].
  unfold config_allowed. destruct (if NetworkProxyConfig.allow_local_binding _ then _ else _); [done|].
  destruct (allowed_domains (ConfigState.config s)) as [l|]; cbn [default from_option]; unfold id.
  - rewrite bool_decide_false by done. cbn [orb]. by destruct (listed l h).
  - rewrite bool_decide_true by done. done.
Qed.

(** The cases of the decision. *)
Ltac decide_lists :=
  repeat match goal with |- context [if ?b then HostBlockDecision.Blocked _ else _] => destruct b end;
  repeat match goal with |- context [if ?b then HostBlockDecision.Allowed else _] => destruct b end.

Lemma blocked_local_spec c h port lookup : lookup_ok lookup →
  (if NetworkProxyConfig.allow_local_binding c then false
   else if local_literal h then negb (is_explicit_local_allowlisted (config_allowed c) h)
   else host_resolves_to_non_public_ip h port lookup) = false
  ↔ local_access c h port lookup.
Proof.
  intros Hl. unfold local_access. rewrite <- (resolves_public_spec h port lookup Hl).
  destruct (NetworkProxyConfig.allow_local_binding c), (local_literal h),
    (is_explicit_local_allowlisted (config_allowed c) h); cbn; naive_solver.
Qed.

(** C9: Under compiled lists whose entries, once normalized, are domains with an optional
    [*.] or [**.] prefix that use no glob character but stars (stars within labels included),
    and a lookup that returns addresses, a host is allowed exactly when it has a normal form
    that an entry of the allow list stands for and no entry of the deny list does, and it is
    not local: local networks are open, or it is a local name or an address of a local block
    that is listed literally, or all its addresses are known and none is in a local block.
    The local blocks are those the code tests for, which are fewer than all that is not
    globally routable. *)
Theorem host_allowed_iff s host port lookup :
  coherent s → plain_config (ConfigState.config s) → lookup_ok lookup →
  decide_host s host port lookup = HostBlockDecision.Allowed
  ↔ ∃ h, parse_host host = Some h
    ∧ listed (config_allowed (ConfigState.config s)) h = true
    ∧ listed (config_denied (ConfigState.config s)) h = false
    ∧ local_access (ConfigState.config s) h port lookup.
Proof.
  intros Hc Hp Hl. destruct (parse_host host) as [h|] eqn:Hh.
  - rewrite (decide_host_lists s host h port lookup Hc Hp Hh). cbv zeta.
    transitivity (listed (config_allowed (ConfigState.config s)) h = true
      ∧ listed (config_denied (ConfigState.config s)) h = false
      ∧ local_access (ConfigState.config s) h port lookup); [|naive_solver].
    rewrite <- (blocked_local_spec _ h port lookup Hl). decide_lists; naive_solver.
  - unfold decide_host. rewrite Hh. naive_solver.
Qed.

Lemma denied_lists s host h port lookup :
  coherent s → plain_config (ConfigState.config s) → parse_host host = Some h →
  decide_host s host port lookup = HostBlockDecision.Blocked HostBlockReason.Denied
  ↔ listed (config_denied (ConfigState.config s)) h = true.
Proof.
  intros Hc Hp Hh. rewrite (decide_host_lists s host h port lookup Hc Hp Hh). cbv zeta.
  decide_lists; naive_solver.
Qed.

(** The host decisions that let a request through, with and without the decider. *)
Lemma passes_lists s host h port lookup :
  coherent s → plain_config (ConfigState.config s) → lookup_ok lookup → parse_host host = Some h →
  match decide_host s host port lookup with
  | HostBlockDecision.Allowed =>
      listed (config_allowed (ConfigState.config s)) h = true
  | HostBlockDecision.Blocked HostBlockReason.NotAllowed =>
      listed (config_allowed (ConfigState.config s)) h = false
  | _ => False
  end
  → listed (config_denied (ConfigState.config s)) h = false
    ∧ local_access (ConfigState.config s) h port lookup.
Proof.
  intros Hc Hp Hl Hh. rewrite (decide_host_lists s host h port lookup Hc Hp Hh). cbv zeta.
  rewrite <- (blocked_local_spec _ h port lookup Hl).
  decide_lists; naive_solver.
Qed.

(** The allow list, read off a decision that is not about denial or locality. *)
Lemma decided_listed s host h port lookup :
  coherent s → plain_config (ConfigState.config s) → parse_host host = Some h →
  match decide_host s host port lookup with
  | HostBlockDecision.Allowed =>
      listed (config_allowed (ConfigState.config s)) h = true
  | HostBlockDecision.Blocked HostBlockReason.NotAllowed =>
      listed (config_allowed (ConfigState.config s)) h = false
  | _ => True
  end.
Proof.
  intros Hc Hp Hh. rewrite (decide_host_lists s host h port lookup Hc Hp Hh). cbv zeta.
  decide_lists; done.
Qed.

Lemma allowed_lists s host h port lookup :
  coherent s → plain_config (ConfigState.config s) → lookup_ok lookup → parse_host host = Some h →
  decide_host s host port lookup = HostBlockDecision.Allowed →
  listed (config_allowed (ConfigState.config s)) h = true
  ∧ listed (config_denied (ConfigState.config s)) h = false
  ∧ local_access (ConfigState.config s) h port lookup.
Proof.
  intros Hc Hp Hl Hh Hd. pose proof (decided_listed s host h port lookup Hc Hp Hh) as Hlist.
  pose proof (passes_lists s host h port lookup Hc Hp Hl Hh) as Hpass. rewrite Hd in *. tauto.
Qed.

(** ** Requests and connections *)

Lemma names_address_spec target addr :
  target_matches_non_public_addr target addr = true ↔ names_address target addr.
Proof.
  destruct target as [ip|name]; cbn [target_matches_non_public_addr names_address];
    [apply bool_decide_eq_true|]. unfold is_localhost_name.
  by rewrite andb_true_iff, bool_decide_eq_true.
Qed.


(** C25: A direct connection, one that goes through no upstream proxy, is dialled at an address
    of a local block only when local networks are open, or when the request named that
    address, or named localhost and the address is a loopback one, and the host so named is in
    the allow list, not in the deny list and reachable as a local host; the lists are
    compiled, and their entries use no glob character but stars.  While local networks are
    closed, a public name is thus never dialled directly at a local address, whatever it
    resolved to when the request was judged. *)
Theorem local_connections_guarded broker s reload1 reload2 lookup target text port addr s' :
  connects false broker s reload1 reload2 lookup target text port addr = Ok (true, s') →
  ip_ok addr → local_address addr = true →
  coherent s' → plain_config (ConfigState.config s') → lookup_ok lookup →
  NetworkProxyConfig.allow_local_binding (ConfigState.config s') = true
  ∨ (names_address target addr
     ∧ ∃ h, parse_host text = Some h
       ∧ listed (config_allowed (ConfigState.config s')) h = true
       ∧ listed (config_denied (ConfigState.config s')) h = false
       ∧ local_access (ConfigState.config s') h port lookup).
Proof.
  unfold connects, connect. intros Heq Hip Hloc Hc Hp Hl.
  rewrite non_public_blocks, Hloc in Heq by done. unfold allows_non_public_target, host_blocked in Heq.
  destruct (reload_if_needed broker s reload1) as [s1|]; cbn [rbind] in Heq; [|done].
  destruct (NetworkProxyConfig.allow_local_binding (ConfigState.config s1)) eqn:Hlb;
    [left; by injection Heq as <-|].
  destruct (target_matches_non_public_addr target addr) eqn:Ht; cbn [negb] in Heq; [|done]. right.
  destruct (reload_if_needed broker s1 reload2) as [s2|]; cbn [rbind fst snd] in Heq; [|done].
  injection Heq as Hd <-. apply bool_decide_eq_true in Hd.
  split; [by apply names_address_spec|].
  destruct (parse_host text) as [h|] eqn:Hh; [|by unfold decide_host in Hd; rewrite Hh in Hd].
  exists h. split; [done|]. by apply (allowed_lists s2 text).
Qed.
End Facts.

(** ** A small instance of the parameters, and a configuration *)

Module SampleNet.

(** A glob is its text; the texts are those the proxy makes. *)
Definition match_text (pattern host : str) : bool :=
  match strip_prefix (lit "?*.") pattern with
  | Some d => wild_below d (to_ascii_lowercase host)
  | None => wild_match pattern (to_ascii_lowercase host)
  end.

#[global] Instance globs : Globs := {|
  Glob := str;
  new_glob := Some;
  glob_match := match_text;
  GlobSet := list str;
  build_globs := Some;
  is_match set h := existsb (λ g, match_text g h) set
|}.

(** Hosts with a port are no hosts of URLs. *)
#[global] Instance urls : UrlHosts :=
  {| url_host_parse h := if contains_char COLON h then None else Some (to_ascii_lowercase h) |}.

#[global] Instance hooks : MitmHooks := {|
  MitmHookConfig := unit;
  MitmHooksByHost := unit;
  validate_hooks _ _ := Ok tt;
  compile_hooks _ _ := Ok tt;
  has_hooks _ _ := false;
  MitmState := unit;
  new_mitm_state _ := Ok tt
|}.

#[global] Instance glob_laws : GlobLaws.
Proof.
  split; cbn.
  - by intros gs set h [= <-].
  - intros d g h Hd [= <-]. unfold match_text.
    destruct (strip_prefix (lit "?*.") d) as [r|] eqn:Hs; [|done].
    apply strip_prefix_Some in Hs as ->. by vm_compute in Hd.
  - intros d g h Hd [= <-]. done.
Qed.

(** Two allowed entries, a denied one and a local one. *)
Definition domains : list DomainEntry :=
  [NetworkDomainPermissionEntry.mk (lit "**.example.com") NetworkDomainPermission.Allow;
   NetworkDomainPermissionEntry.mk (lit "127.0.0.1") NetworkDomainPermission.Allow;
   NetworkDomainPermissionEntry.mk (lit "bad.example.com") NetworkDomainPermission.Deny].

Definition config : NetworkProxyConfig.t := with_domains (Some domains) default_config.

Definition constraints : NetworkProxyConstraints.t :=
  NetworkProxyConstraints.mk None (Some NetworkMode.Full) None None None
    (Some [lit "**.example.com"; lit "127.0.0.1"]) None (Some [lit "bad.example.com"]) None None (Some false).

Definition state : ConfigState.t :=
  ConfigState.mk config [lit "example.com"; lit "?*.example.com"; lit "127.0.0.1"] [lit "bad.example.com"]
    None tt constraints [] 0.

Lemma state_built : build_config_state config constraints = Ok state.
Proof. by vm_compute. Qed.

(** Every name resolves to one public address. *)
Definition lookup (h : str) (port : Z) : Lookup :=
  Addresses [SocketAddr.mk (IpAddr.V4 (from_octets [93; 184; 216; 34])) port].

Lemma config_lists : config_allowed config = [lit "**.example.com"; lit "127.0.0.1"]
  ∧ config_denied config = [lit "bad.example.com"].
Proof. by vm_compute. Qed.
End SampleNet.

Module RuntimeSample.
Import SampleNet.

Lemma sample_coherent : coherent state.
Proof. by vm_compute. Qed.

Lemma sample_lookup : lookup_ok lookup.
Proof. intros h port addrs [= <-]. by repeat constructor. Qed.

Lemma sample_plain : plain_config (ConfigState.config state).
Proof.
  unfold plain_config. change (ConfigState.config state) with config. destruct config_lists as [-> ->].
  split; repeat apply Forall_cons_2; try apply Forall_nil_2; vm_compute; reflexivity.
Qed.

Lemma host_allowed_iff_witness :
  ∃ h, parse_host (lit "API.example.com:443") = Some h ∧ listed (config_allowed config) h = true
    ∧ listed (config_denied config) h = false ∧ local_access config h 443 lookup.
Proof.
  refine (proj1 (host_allowed_iff state (lit "API.example.com:443") 443
    lookup sample_coherent sample_plain sample_lookup) _); vm_compute; reflexivity.
Defined.

(** A star within a label of a denied entry. *)
Lemma mid_label_wildcards :
  let denied := [lit "region*.v2.argotunnel.com"] in
  listed denied (lit "region1.v2.argotunnel.com") = true
  ∧ listed denied (lit "region.v2.argotunnel.com") = true
  ∧ listed denied (lit "xregion1.v2.argotunnel.com") = false
  ∧ listed denied (lit "foo.region1.v2.argotunnel.com") = false.
Proof. split_and!; vm_compute; reflexivity. Qed.

(** A request for a host of neither list. *)
Definition request : NetworkPolicyRequest.t :=
  NetworkPolicyRequest.mk NetworkProtocol.HttpsConnect (lit "other.org") 443 None None None None None None.

Definition accepted : PolicyAuditEvent.t :=
  PolicyAuditEvent.mk (lit "domain") (lit "allow") NetworkDecisionSource.Decider (lit "not_allowed")
    NetworkProtocol.HttpsConnect (lit "other.org") 443 None None None true.


Lemma local_connections_guarded_witness :
  NetworkProxyConfig.allow_local_binding config = true
  ∨ (names_address (Address LOCALHOST) LOCALHOST
     ∧ ∃ h, parse_host (lit "127.0.0.1") = Some h
       ∧ listed (config_allowed config) h = true ∧ listed (config_denied config) h = false
       ∧ local_access config h 8080 lookup).
Proof.
  apply (local_connections_guarded false state (Ok None) (Ok None) lookup (Address LOCALHOST)
    (lit "127.0.0.1") 8080 LOCALHOST state).
  - vm_compute. reflexivity.
  - vm_compute. repeat constructor; discriminate.
  - vm_compute. reflexivity.
  - exact sample_coherent.
  - exact sample_plain.
  - exact sample_lookup.
Defined.
End RuntimeSample.
