(* ===== verification/NetManaged.v ===== *)
(** * What a managed configuration enforces

    A configuration that passes the check against its constraints reaches no host outside
    the managed lists, and cannot turn on what the constraints turn off. *)

From Stdlib Require Import String ZArith NArith Lia.
From stdpp Require Import base option list numbers gmap.
From S2P Require Import Prelude StrBytes NetAddr NetPolicy NetPolicyFacts NetConfig NetState NetRuntime.
From S2P Require Import NetRuntimeFacts.

Local Open Scope Z_scope.
Local Open Scope str_scope.

Section Managed.
Context {M : MitmHooks} {H : UrlHosts} {G : Globs}.
Implicit Types (e m h : str) (s : ConfigState.t).

(** An entry written in its normal form, whose domain the URL library keeps. *)
Definition verbatim (e : str) (p : DomainPattern.t) : Prop :=
  plain_entry e p ∧ normalize_pattern e = e
  ∧ (p = DomainPattern.Exact (lit "*") ∨ contains_char PERCENT (domain_of p) = true
     ∨ url_host_parse (domain_of p) = Some (domain_of p)).

Definition verbatim_list (entries : list str) : Prop := Forall (λ e, ∃ p, verbatim e p) entries.

Lemma verbatim_plain l : verbatim_list l → plain_list l.
Proof.
  intros Hl. apply (Forall_weaken _ _ _ Hl). intros e (p & Hp & Hn & _). cbn beta. rewrite Hn.
  by eapply plain_entry_wild.
Qed.

Lemma plain_entry_lower e p : plain_entry e p → to_ascii_lowercase e = e.
Proof.
  intros []; [by apply plain_lower|..|done]; unfold to_ascii_lowercase; rewrite map_app; f_equal;
    by apply plain_lower.
Qed.

Lemma verbatim_lowered l : verbatim_list l → lowered l = l.
Proof.
  intros Hl. unfold lowered. induction Hl as [|e l (p & Hp & _) Hl IH]; [done|]. cbn.
  by rewrite IH, (plain_entry_lower e p).
Qed.

(** ** Patterns of constraints *)

Lemma parse_domain_constraints d : plain_domain d = true →
  contains_char PERCENT d = true ∨ url_host_parse d = Some d → parse_domain_for_constraints d = d.
Proof.
  intros Hd Hu. unfold parse_domain_for_constraints. rewrite plain_trim by done.
  destruct (domain_chars d Hd) as (Hne & Hc & _ & He).
  rewrite trim_end_matches_keeps.
  2: { intros c (l & Hl)%last_Some. unfold is_dot. destruct (N.eqb_spec c DOT) as [->|]; [|done].
       assert (Ht : ends_with [DOT] d = true) by (apply ends_with_true; by exists l). congruence. }
  rewrite bool_decide_false by done.
  replace (starts_with [LBRACKET] d) with false.
  2: { unfold starts_with. destruct (strip_prefix [LBRACKET] d) as [r|] eqn:Hs; [|done].
       apply strip_prefix_Some in Hs as ->. by apply list.Forall_cons in Hc as [(_ & Hm & _) _]. }
  cbn [andb]. destruct (contains_char STAR d || contains_char QUESTION d || contains_char PERCENT d) eqn:Hx;
    [done|]. apply orb_false_iff in Hx as [_ Hx]. destruct Hu as [Hu| ->]; [congruence|done].
Qed.

Lemma parse_constraints_plain e p : verbatim e p → parse_for_constraints e = p.
Proof.
  intros (Hp & _ & Hu). pose proof (parse_plain e p Hp) as Hparse.
  unfold parse_for_constraints, parse_pattern in *.
  destruct Hp as [d Hd|d Hd|d Hd|]; [..|done];
    (destruct Hu as [Hu|Hu]; [by simplify_eq|]); cbn [domain_of] in Hu.
  - rewrite plain_trim in * by done. destruct (domain_chars d Hd) as (Hne & _).
    rewrite bool_decide_false by done.
    destruct (strip_prefix (lit "**.") d) as [r|] eqn:H1;
      [apply strip_prefix_Some in H1; by destruct (plain_no_star d _ Hd H1)|].
    destruct (strip_prefix (lit "*.") d) as [r|] eqn:H2;
      [apply strip_prefix_Some in H2; by destruct (plain_no_star d _ Hd H2)|].
    by rewrite parse_domain_constraints.
  - rewrite plain_prefixed_trim by (done || by repeat constructor).
    trans (DomainPattern.SubdomainsOnly (parse_domain_for_constraints d)); [done|].
    by rewrite parse_domain_constraints.
  - rewrite plain_prefixed_trim by (done || by repeat constructor).
    trans (DomainPattern.ApexAndSubdomains (parse_domain_for_constraints d)); [done|].
    by rewrite parse_domain_constraints.
Qed.

(** ** Lists *)

Lemma plain_undotted e p : plain_entry e p → undotted p = true.
Proof.
  unfold undotted. intros Hp. apply negb_true_iff.
  destruct Hp as [d Hd|d Hd|d Hd|]; cbn [domain_of]; [..|done];
    rewrite plain_domain_normal by done; by destruct (domain_chars d Hd) as (_ & _ & ? & _).
Qed.

(** No plain pattern but the wildcard covers the wildcard's text. *)
Lemma plain_not_star m p : plain_entry m p → p ≠ DomainPattern.Exact (lit "*") →
  covers_text p (lit "*") = false.
Proof.
  intros Hm Hp. apply not_true_iff_false. rewrite covers_text_true.
  assert (Hb : ∀ d, d ≠ [] → below d (lit "*") = true → False).
  { intros d Hd Hb%below_longer. change (length (lit "*")) with 1%nat in Hb. by destruct d; [|cbn in Hb; lia]. }
  destruct Hm as [d Hd|d Hd|d Hd|]; [..|done]; rewrite plain_domain_normal by done;
    destruct (domain_chars d Hd) as (Hne & Hc & _); [intros <-|intros Hx; by apply (Hb d)|intros [<-|Hx]; [|by apply (Hb d)]];
    by apply list.Forall_cons in Hc as [(_ & Hm & _) _].
Qed.

Lemma plain_domain_literal d : plain_domain d = true → existsb glob_meta d = false.
Proof.
  intros (_ & Hc & _)%domain_chars. induction Hc as [|c d (_ & Hm & _) _ IH]; [done|]. cbn. by rewrite Hm.
Qed.

Lemma verbatim_covers e p h : verbatim e p →
  entry_covers e h = bool_decide (p = DomainPattern.Exact (lit "*")) || covers_text p h.
Proof.
  intros (Hp & Hn & _). unfold entry_covers. rewrite Hn, (parse_plain e p Hp).
  destruct Hp as [d Hd|d Hd|d Hd|]; [..|by rewrite any_covers, bool_decide_true];
    (rewrite bool_decide_false by (intros [= ->]; done)); cbn [orb]; apply literal_covers;
    unfold literal; by rewrite plain_domain_literal.
Qed.

(** An entry a managed entry allows stands for hosts of the managed entry. *)
Lemma allowed_entry_covers e p m q h : verbatim e p → verbatim m q → q ≠ DomainPattern.Exact (lit "*") →
  allows q p = true → entry_covers e h = true → entry_covers m h = true.
Proof.
  intros He Hm Hq Ha. rewrite (verbatim_covers e p), (verbatim_covers m q) by done.
  destruct He as (Hpe & _), Hm as (Hpm & _).
  pose proof (proj1 (allows_covers q p (plain_undotted e p Hpe)) Ha) as Hinc.
  rewrite !orb_true_iff, !bool_decide_eq_true. intros [->|Hc]; [|by right; apply Hinc].
  specialize (Hinc (lit "*")). rewrite (plain_not_star m q Hpm Hq) in Hinc. by discriminate Hinc.
Qed.

(** A list whose entries lie in another names no more hosts. *)
Lemma listed_mono l k h :
  (∀ e, e ∈ l → ∃ m, m ∈ k ∧ ∀ h, entry_covers e h = true → entry_covers m h = true) →
  listed l h = true → listed k h = true.
Proof.
  unfold listed. rewrite !existsb_exists. intros Hall (e & He & Hc). apply list_elem_of_In in He.
  destruct (Hall e He) as (m & Hm & Himp). exists m. split; [by apply list_elem_of_In|].
  rewrite orb_true_iff in *. destruct (unscoped_ip_literal h) as [ip|]; destruct Hc as [Hc|Hc]; auto.
Qed.

Lemma no_global_wildcard name l m q : validate_non_global_wildcard_domain_patterns name l = Ok tt →
  m ∈ l → verbatim m q → q ≠ DomainPattern.Exact (lit "*").
Proof.
  unfold validate_non_global_wildcard_domain_patterns.
  destruct (List.find _ l) as [x|] eqn:Hf; [done|]. intros _ Hin (Hm & Hn & _) ->.
  pose proof (List.find_none _ _ Hf m) as Hno. apply list_elem_of_In in Hin. specialize (Hno Hin).
  unfold is_global_wildcard_domain_pattern, expand_domain_pattern in Hno.
  by rewrite Hn, (parse_plain _ _ Hm) in Hno.
Qed.

Lemma reject_if_ok cond name x y : reject_if cond (invalid_value name x y) = Ok tt → cond = false.
Proof. by destruct cond. Qed.

Lemma filter_empty {A} (f : A → bool) l x : List.filter f l = [] → x ∈ l → f x = false.
Proof.
  intros Hf Hin. apply not_true_iff_false. intros Hx. apply list_elem_of_In in Hin.
  assert (Hi : In x (List.filter f l)) by by apply filter_In. by rewrite Hf in Hi.
Qed.

(** The managed list bounds the allow list. *)
Lemma managed_allow_bound c k managed h :
  validate_allowed_domains c k = Ok tt → NetworkProxyConstraints.allowed_domains k = Some managed →
  NetworkProxyConstraints.allowlist_expansion_enabled k ≠ Some true →
  verbatim_list (config_allowed c) → verbatim_list managed →
  listed (config_allowed c) h = true → listed managed h = true.
Proof.
  unfold validate_allowed_domains. intros Hv Hm Hx Ha Hman. rewrite Hm in Hv.
  destruct (validate_non_global_wildcard_domain_patterns _ managed) as [[]|] eqn:Hw; [|done].
  cbn [rbind] in Hv. apply listed_mono. intros e He.
  destruct (NetworkProxyConstraints.allowlist_expansion_enabled k) as [[]|]; [done|..];
    apply reject_if_ok, negb_false_iff in Hv.
  - rewrite (verbatim_lowered _ Ha), (verbatim_lowered _ Hman) in Hv. unfold same_members in Hv.
    apply andb_true_iff in Hv as [Hv _]. rewrite forallb_forall in Hv. apply list_elem_of_In in He.
    specialize (Hv e He). unfold mem in Hv. apply bool_decide_eq_true, list_elem_of_In, filter_In in Hv.
    exists e. split; [apply list_elem_of_In, Hv|done].
  - apply bool_decide_eq_true in Hv. pose proof (filter_empty _ _ e Hv He) as Hf. cbn beta in Hf.
    apply negb_false_iff, existsb_exists in Hf as (q & Hq & Hallow).
    apply in_map_iff in Hq as (m & <- & Hin). apply list_elem_of_In in Hin.
    destruct (Forall_elem _ _ _ Hman Hin) as [q Hq], (Forall_elem _ _ _ Ha He) as [p Hp].
    rewrite (parse_constraints_plain m q Hq), (parse_constraints_plain e p Hp) in Hallow.
    exists m. split; [done|]. intros h'. apply (allowed_entry_covers e p m q); try done.
    by eapply no_global_wildcard.
Qed.

(** The deny list contains the managed one. *)
Lemma managed_deny_bound c k managed h :
  validate_denied_domains c k = Ok tt → NetworkProxyConstraints.denied_domains k = Some managed →
  verbatim_list (config_denied c) → verbatim_list managed →
  listed managed h = true → listed (config_denied c) h = true.
Proof.
  unfold validate_denied_domains. intros Hv Hm Hd Hman. rewrite Hm in Hv.
  destruct (validate_non_global_wildcard_domain_patterns _ managed) as [[]|] eqn:Hw; [|done].
  cbn [rbind] in Hv. rewrite (verbatim_lowered _ Hd), (verbatim_lowered _ Hman) in Hv.
  assert (Hin : ∀ m, m ∈ managed → m ∈ config_denied c).
  { intros m Hmem. destruct (NetworkProxyConstraints.denylist_expansion_enabled k) as [[]|];
      apply reject_if_ok, negb_false_iff in Hv.
    2: { apply andb_true_iff in Hv as [_ Hv]. rewrite forallb_forall in Hv. apply list_elem_of_In in Hmem.
         specialize (Hv m Hmem). by apply bool_decide_eq_true in Hv. }
    all: apply bool_decide_eq_true in Hv; pose proof (filter_empty _ _ m Hv Hmem) as Hf; cbn beta in Hf;
      by apply negb_false_iff, bool_decide_eq_true in Hf. }
  apply listed_mono. intros m Hmem. exists m. eauto.
Qed.

(** A check that passes has passed every step. *)
Lemma validated_steps c k : validate_policy_against_constraints c k = Ok tt →
  validate_flag (lit "network.enabled") (NetworkProxyConstraints.enabled k) (NetworkProxyConfig.enabled c)
    = Ok tt
  ∧ validate_mode c k = Ok tt
  ∧ validate_flag (lit "network.allow_local_binding") (NetworkProxyConstraints.allow_local_binding k)
      (NetworkProxyConfig.allow_local_binding c) = Ok tt
  ∧ validate_allowed_domains c k = Ok tt ∧ validate_denied_domains c k = Ok tt.
Proof.
  unfold validate_policy_against_constraints. intros Hv.
  repeat match type of Hv with
  | rbind ?r _ = Ok _ => destruct r as [[]|] eqn:?; cbn [rbind] in Hv; [|discriminate]
  end.
  done.
Qed.

Lemma flag_off name on : validate_flag name (Some false) on = Ok tt → on = false.
Proof. by destruct on. Qed.

Context {GL : GlobLaws}.

End Managed.

(** ** A managed configuration *)

Module ManagedSample.
Import SampleNet.

Lemma sample_verbatim :
  verbatim_list [lit "**.example.com"; lit "127.0.0.1"] ∧ verbatim_list [lit "bad.example.com"].
Proof.
  split; repeat apply Forall_cons_2; try apply Forall_nil_2.
  - exists (DomainPattern.ApexAndSubdomains (lit "example.com")).
    split_and!; [by apply (plain_apex (lit "example.com"))|by vm_compute|by right; right; vm_compute].
  - exists (DomainPattern.Exact (lit "127.0.0.1")).
    split_and!; [by apply (plain_exact (lit "127.0.0.1"))|by vm_compute|by right; right; vm_compute].
  - exists (DomainPattern.Exact (lit "bad.example.com")).
    split_and!; [by apply (plain_exact (lit "bad.example.com"))|by vm_compute|by right; right; vm_compute].
Qed.


(** An entry with a port is no host of a URL, so in the constraints it is the empty domain,
    which allows every other such entry, while the proxy drops the port and lets the host
    through: a managed list with one such entry allows any host. *)
Lemma rejected_entries_allow_each_other :
  let managed := NetworkProxyConstraints.mk None None None None None
    (Some [lit "good.com:443"]) None None None None None in
  let c := set_allowed_domains default_config [lit "evil.com:443"] in
  validate_policy_against_constraints c managed = Ok tt
  ∧ ∃ s, build_config_state c managed = Ok s
      ∧ decide_host s (lit "evil.com") 443 lookup = HostBlockDecision.Allowed.
Proof. split; [by vm_compute|]. eexists. split; [by vm_compute|by vm_compute]. Qed.

(** A denied IPv6 address is compared as a text: another spelling of it passes. *)
Lemma denied_address_other_spelling :
  let c := set_denied_domains (set_allowed_domains default_config [lit "*"])
    [lit "2001:4860:4860::8888"] in
  ∃ s, build_config_state c NetworkProxyConstraints.default = Ok s
    ∧ parse_ip (lit "2001:4860:4860:0:0:0:0:8888") = parse_ip (lit "2001:4860:4860::8888")
    ∧ decide_host s (lit "2001:4860:4860::8888") 443 lookup
      = HostBlockDecision.Blocked HostBlockReason.Denied
    ∧ decide_host s (lit "2001:4860:4860:0:0:0:0:8888") 443 lookup = HostBlockDecision.Allowed.
Proof. eexists. split; [by vm_compute|]. by vm_compute. Qed.
End ManagedSample.
