(* ===== verification/NetUpdates.v ===== *)
(** * Changes of the running policy

    The operations that change the shared state read it, prepare a new one without the lock
    and write it later, so changes interleave.  The steps of the interleaved operations, the
    invariant of the shared state, and the effect of adding a host to a list. *)

From Stdlib Require Import String ZArith NArith Lia.
From stdpp Require Import base option list numbers gmap relations.
From S2P Require Import Prelude StrBytes NetAddr NetPolicy NetPolicyFacts NetConfig NetState NetRuntime.
From S2P Require Import NetRuntimeFacts.

Local Open Scope Z_scope.
Local Open Scope str_scope.

(** ** Interleaved operations *)

Section Steps.
Context {M : MitmHooks} {H : UrlHosts} {G : Globs}.
Implicit Types s new read : ConfigState.t.

(** An operation between its read and its write. *)
Inductive Pending : Type :=
| Reloading (new : ConfigState.t)
| Updating (read : ConfigState.t) (host : str) (target : DomainListKind) (new : ConfigState.t)
| SettingMode (read : ConfigState.t) (mode : NetworkMode.t).

(** The policy of a state: its lists are compiled and it is within its constraints. *)
Definition policy_sound s : Prop :=
  coherent s
  ∧ validate_policy_against_constraints (ConfigState.config s) (ConfigState.constraints s) = Ok tt.

(** The requests kept are within their bound. *)
Definition buffer_ok s : Prop :=
  (length (ConfigState.blocked s) ≤ MAX_BLOCKED_EVENTS)%nat
  ∧ 0 ≤ ConfigState.blocked_total s < 2 ^ 64.

Definition state_ok s : Prop := policy_sound s ∧ buffer_ok s.

(** The states a reloader and the other callers supply: a configuration that passed the check
    against its constraints, compiled ([NetworkProxySpec]). *)
Definition spec_state (config : NetworkProxyConfig.t) (constraints : NetworkProxyConstraints.t)
    : result RuntimeError ConfigState.t :=
  check? map_err Constrained (validate_policy_against_constraints config constraints) in
  map_err BuildFailed (build_config_state config constraints).

(** The shared state and the operations in flight. *)
Record Shared : Type := mkShared { current : ConfigState.t; pending : list Pending }.

(** One step: an operation reads, or one that has read writes or starts over. *)
Inductive step (broker : bool) : Shared → Shared → Prop :=
| step_reload_read s ps c k new s' :
    spec_state c k = Ok new → reload_if_needed broker s (Ok (Some new)) = Ok s' →
    step broker (mkShared s ps) (mkShared s (Reloading s' :: ps))
| step_reload_write s ps ps' s' :
    step broker (mkShared s (ps ++ Reloading s' :: ps')) (mkShared s' (ps ++ ps'))
| step_force_reload s ps c k new s' :
    spec_state c k = Ok new → force_reload broker s (Ok new) = Ok s' →
    step broker (mkShared s ps) (mkShared s' ps)
| step_replace s ps c k new s' :
    spec_state c k = Ok new → replace_config_state broker s (Ok None) new = Ok s' →
    step broker (mkShared s ps) (mkShared s' ps)
| step_update_read s ps input host target new :
    parse_host input = Some host → prepare_update s host target = Ok (Some new) →
    step broker (mkShared s ps) (mkShared s (Updating s host target new :: ps))
| step_update_write s ps ps' read host target new s' :
    commit_update read new s = Some s' →
    step broker (mkShared s (ps ++ Updating read host target new :: ps')) (mkShared s' (ps ++ ps'))
| step_update_retry s ps ps' read host target new :
    commit_update read new s = None →
    step broker (mkShared s (ps ++ Updating read host target new :: ps')) (mkShared s (ps ++ ps'))
| step_mode_read s ps mode :
    prepare_mode s mode = Ok tt →
    step broker (mkShared s ps) (mkShared s (SettingMode s mode :: ps))
| step_mode_write s ps ps' read mode s' :
    commit_mode read mode s = Some s' →
    step broker (mkShared s (ps ++ SettingMode read mode :: ps')) (mkShared s' (ps ++ ps'))
| step_mode_retry s ps ps' read mode :
    commit_mode read mode s = None →
    step broker (mkShared s (ps ++ SettingMode read mode :: ps')) (mkShared s (ps ++ ps'))
| step_record s ps id entry e s' :
    record_blocked broker id s (Ok None) entry = Ok (e, s') →
    step broker (mkShared s ps) (mkShared s' ps)
| step_drain s ps l s' :
    drain_blocked broker s (Ok None) = Ok (l, s') →
    step broker (mkShared s ps) (mkShared s' ps).

(** What the operations in flight keep of their reads. *)
Definition pending_ok (p : Pending) : Prop :=
  match p with
  | Reloading new => state_ok new
  | Updating read host target new =>
      state_ok new ∧ ConfigState.constraints new = ConfigState.constraints read
      ∧ ConfigState.config new
          = upsert_domain_permission (ConfigState.config read) host (permission_of target) normalize_host
  | SettingMode read mode =>
      validate_policy_against_constraints (with_mode mode (ConfigState.config read))
        (ConfigState.constraints read) = Ok tt
  end.

Definition shared_ok (x : Shared) : Prop := state_ok (current x) ∧ Forall pending_ok (pending x).

(** ** The parts of a state *)

Lemma with_blocked_ok s l n : policy_sound s → (length l ≤ MAX_BLOCKED_EVENTS)%nat → 0 ≤ n < 2 ^ 64 →
  state_ok (with_blocked l n s).
Proof. intros Hp Hl Hn. done. Qed.

Lemma drop_oldest_bound n l : (length l ≤ n)%nat →
  (length (drop_oldest n l) ≤ MAX_BLOCKED_EVENTS)%nat.
Proof.
  revert l. induction n as [|n IH]; intros l Hl; cbn [drop_oldest]; [lia|].
  destruct (Nat.ltb_spec MAX_BLOCKED_EVENTS (length l)) as [Hlt|Hge]; [|done].
  apply IH. destruct l; cbn [tail length] in *; lia.
Qed.

Lemma push_blocked_ok e s : state_ok s → state_ok (push_blocked e s).
Proof.
  intros [Hp [_ Ht]]. apply with_blocked_ok; [done|by apply drop_oldest_bound|lia].
Qed.

Lemma build_coherent c k s : build_config_state c k = Ok s →
  coherent s ∧ ConfigState.config s = c ∧ ConfigState.constraints s = k.
Proof.
  unfold build_config_state, coherent. intros Hb.
  repeat match type of Hb with
  | rbind (map_err ?f ?r) _ = Ok _ => destruct r eqn:?; cbn [map_err rbind] in Hb; [|discriminate]
  | rbind ?r _ = Ok _ => destruct r eqn:?; cbn [rbind] in Hb; [|discriminate]
  end.
  by injection Hb as <-.
Qed.

(** The mode takes part in one step of the check only. *)
Lemma validate_with_mode c k mode : validate_mode (with_mode mode c) k = Ok tt →
  validate_policy_against_constraints c k = Ok tt →
  validate_policy_against_constraints (with_mode mode c) k = Ok tt.
Proof.
  unfold validate_policy_against_constraints. intros Hm Hv. rewrite Hm. revert Hv.
  change (validate_mitm_hooks (with_mode mode c)) with (validate_mitm_hooks c).
  change (config_denied (with_mode mode c)) with (config_denied c).
  change (validate_all_unix_sockets (with_mode mode c) k) with (validate_all_unix_sockets c k).
  change (validate_allowed_domains (with_mode mode c) k) with (validate_allowed_domains c k).
  change (validate_denied_domains (with_mode mode c) k) with (validate_denied_domains c k).
  change (validate_unix_sockets (with_mode mode c) k) with (validate_unix_sockets c k).
  cbn [with_mode NetworkProxyConfig.enabled NetworkProxyConfig.allow_upstream_proxy
    NetworkProxyConfig.dangerously_allow_non_loopback_proxy NetworkProxyConfig.allow_local_binding].
  intros Hv. repeat match type of Hv with
  | rbind ?r _ = Ok _ => destruct r as [[]|]; cbn [rbind] in Hv |- *; [|discriminate]
  end. done.
Qed.

Lemma validated_mode c k : validate_policy_against_constraints c k = Ok tt → validate_mode c k = Ok tt.
Proof.
  unfold validate_policy_against_constraints. intros Hv.
  repeat match type of Hv with
  | rbind (validate_mode c k) _ = Ok _ => destruct (validate_mode c k) as [[]|]; [done|discriminate]
  | rbind ?r _ = Ok _ => destruct r as [[]|]; cbn [rbind] in Hv; [|discriminate]
  end.
Qed.

(** ** The steps keep the invariant *)

Lemma prepare_update_ok s host target new : state_ok s → prepare_update s host target = Ok (Some new) →
  pending_ok (Updating s host target new).
Proof.
  intros [_ Hb]. unfold prepare_update. destruct (_ && _); [done|].
  set (c := upsert_domain_permission _ _ _ _).
  destruct (validate_policy_against_constraints c _) as [[]|] eqn:Hv; cbn [map_err rbind]; [|done].
  destruct (build_config_state c _) as [built|] eqn:Hbuild; cbn [map_err rbind]; [|done].
  intros [= <-]. destruct (build_coherent _ _ _ Hbuild) as (Hc & Hcfg & Hk).
  split_and!; [|done|done]. destruct Hb. apply with_blocked_ok; [|done..]. split; [done|]. by rewrite Hcfg, Hk.
Qed.

Lemma commit_mode_ok read mode s s' : state_ok s → pending_ok (SettingMode read mode) →
  commit_mode read mode s = Some s' → state_ok s'.
Proof.
  intros [[Hc Hv] Hb] Hp. unfold commit_mode. case_bool_decide as Heq; [|done]. intros [= <-].
  split; [|done]. split; [done|]. cbn. apply validate_with_mode; [|done].
  apply validated_mode in Hp. by rewrite Heq.
Qed.

Lemma pending_middle ps p ps' : Forall pending_ok (ps ++ p :: ps') →
  pending_ok p ∧ Forall pending_ok (ps ++ ps').
Proof. rewrite !Forall_app, Forall_cons. tauto. Qed.

Lemma spec_state_ok c k s : spec_state c k = Ok s → state_ok s.
Proof.
  unfold spec_state. destruct (validate_policy_against_constraints c k) as [[]|] eqn:Hv; [|done].
  cbn [map_err rbind]. destruct (build_config_state c k) as [b|] eqn:Hb; [|done]. intros [= <-].
  destruct (build_coherent _ _ _ Hb) as (Hc & Hcfg & Hk). split; [split; [done|by rewrite Hcfg, Hk]|].
  unfold build_config_state in Hb.
  repeat match type of Hb with
  | rbind (map_err ?f ?r) _ = Ok _ => destruct r; cbn [map_err rbind] in Hb; [|discriminate]
  | rbind ?r _ = Ok _ => destruct r; cbn [rbind] in Hb; [|discriminate]
  end.
  injection Hb as <-. by split; cbn; [lia|].
Qed.

Lemma step_ok broker x y : step broker x y → shared_ok x → shared_ok y.
Proof.
  intros Hs [Hx Hp].
  destruct Hs as [s ps c k new s' Hnew Hr|s ps ps' s'|s ps c k new s' Hnew Hr|s ps c k new s' Hnew Hr
    |s ps input host target new Hh Hr|s ps ps' read host target new s' Hr|s ps ps' read host target new Hr
    |s ps mode Hr|s ps ps' read mode s' Hr|s ps ps' read mode Hr|s ps id entry e s' Hr|s ps l s' Hr];
    try apply spec_state_ok in Hnew as [Hsound []]; cbn [current pending] in *;
    try (destruct (pending_middle _ _ _ Hp) as [Hone Hrest]); split; cbn [current pending]; try done.
  - apply Forall_cons. split; [|done]. unfold reload_if_needed in Hr. destruct (broker_unchanged _ _); [|done].
    simplify_eq. destruct Hx as [_ []]. by apply with_blocked_ok.
  - unfold force_reload in Hr. destruct (broker_unchanged _ _); [|done].
    simplify_eq. destruct Hx as [_ []]. by apply with_blocked_ok.
  - unfold replace_config_state in Hr. cbn [reload_if_needed rbind] in Hr.
    destruct (broker_unchanged _ _); [|done]. simplify_eq. destruct Hx as [_ []]. by apply with_blocked_ok.
  - apply Forall_cons. split; [|done]. by eapply prepare_update_ok.
  - unfold commit_update in Hr. destruct (_ && _); [|done]. simplify_eq. apply Hone.
  - apply Forall_cons. split; [|done]. unfold prepare_mode in Hr. cbn [pending_ok].
    by destruct (validate_policy_against_constraints _ _) as [[]|].
  - by eapply commit_mode_ok.
  - unfold record_blocked in Hr. cbn [reload_if_needed rbind] in Hr. simplify_eq. by apply push_blocked_ok.
  - unfold drain_blocked in Hr. cbn [reload_if_needed rbind] in Hr. simplify_eq. destruct Hx as [Hx []].
    apply with_blocked_ok; [done|cbn; lia|done].
Qed.

End Steps.

(** ** Strongest permissions *)

(** The loop keeps what it has seen, and the strongest permission wins. *)
Lemma effective_loop_deny entries order perms order' perms' pattern :
  effective_loop entries order perms = (order', perms') →
  NoDup order → (∀ p, p ∈ order ↔ is_Some (perms !! p)) →
  perms !! pattern = Some NetworkDomainPermission.Deny
  ∨ NetworkDomainPermissionEntry.mk pattern NetworkDomainPermission.Deny ∈ entries →
  NoDup order' ∧ pattern ∈ order' ∧ perms' !! pattern = Some NetworkDomainPermission.Deny.
Proof.
  revert order perms. induction entries as [|[p q] entries IH]; intros order perms Hl Hnd Hdom Hden;
    cbn [effective_loop NetworkDomainPermissionEntry.pattern NetworkDomainPermissionEntry.permission] in Hl.
  { injection Hl as <- <-. destruct Hden as [Hden|Hden]; [|by apply elem_of_nil in Hden].
    split_and!; [done| |done]. apply Hdom. by eexists. }
  destruct (perms !! p) as [current|] eqn:Hp.
  - apply IH in Hl; [done|done| |].
    + intros p'. rewrite Hdom. destruct (_ <? _); [|done]. destruct (decide (p = p')) as [<-|Hne].
      * rewrite Hp, lookup_insert_eq. split; by eexists.
      * by rewrite lookup_insert_ne.
    + rewrite elem_of_cons in Hden. destruct Hden as [Hden|[[= -> <-]|Hden]]; [..|by right]; left.
      * destruct (decide (p = pattern)) as [->|Hne];
          [rewrite Hp in Hden; injection Hden as ->; by destruct q|].
        destruct (_ <? _); [by rewrite lookup_insert_ne|done].
      * destruct current; [apply lookup_insert_eq..|done].
  - apply IH in Hl; [done| | |].
    + apply NoDup_app. split_and!; [done| |apply NoDup_singleton].
      intros x Hx ->%list_elem_of_singleton. apply Hdom in Hx as [? Hx]. congruence.
    + intros p'. rewrite elem_of_app, list_elem_of_singleton, Hdom.
      destruct (decide (p' = p)) as [->|Hne]; [rewrite lookup_insert_eq; naive_solver|].
      rewrite lookup_insert_ne by done. naive_solver.
    + rewrite elem_of_cons in Hden. destruct Hden as [Hden|[[= -> <-]|Hden]]; [..|by right]; left.
      * by rewrite lookup_insert_ne by congruence.
      * by rewrite lookup_insert_eq.
Qed.

Lemma take_permissions_elem order perms p q : NoDup order → p ∈ order → perms !! p = Some q →
  NetworkDomainPermissionEntry.mk p q ∈ take_permissions order perms.
Proof.
  revert perms. induction order as [|x order IH]; intros perms Hnd Hin Hp; [by apply elem_of_nil in Hin|].
  apply NoDup_cons in Hnd as [Hx Hnd]. cbn [take_permissions]. apply elem_of_cons in Hin as [->|Hin].
  - rewrite Hp. apply elem_of_cons. by left.
  - destruct (perms !! x) as [r|]; [apply elem_of_cons; right|]; apply IH; try done.
    rewrite lookup_delete_ne; [done|]. by intros ->.
Qed.

Lemma denied_effective {M : MitmHooks} c entries pattern :
  NetworkProxyConfig.domains c = Some entries →
  NetworkDomainPermissionEntry.mk pattern NetworkDomainPermission.Deny ∈ entries →
  pattern ∈ config_denied c.
Proof.
  intros Hd Hin. unfold config_denied, denied_domains, domain_entries. rewrite Hd. unfold effective_entries.
  destruct (effective_loop entries [] ∅) as [order perms] eqn:Hl.
  destruct (effective_loop_deny _ _ _ _ _ pattern Hl) as (Hnd & Ho & Hp);
    [apply NoDup_nil_2|intros p; rewrite lookup_empty, elem_of_nil; split; [done|by intros []]|by right|].
  pose proof (take_permissions_elem _ _ _ _ Hnd Ho Hp) as Htake.
  set (l := map _ _). assert (Hl' : pattern ∈ l).
  { apply list_elem_of_In, in_map_iff. eexists. split; [|apply filter_In; split; [by apply list_elem_of_In|]];
      by rewrite ?bool_decide_true. }
  case_bool_decide as Hnil; [|done]. by rewrite Hnil in Hl'.
Qed.

(** ** Adding a host *)

Lemma trim_end_dots_star r : ∃ r', trim_end_matches is_dot (STAR :: r) = STAR :: r'.
Proof.
  unfold trim_end_matches. cbn [rev]. generalize (rev r) as l. intros l.
  induction l as [|c l IH]; [by exists []|]. cbn. destruct (is_dot c); [apply IH|].
  cbn. rewrite rev_app_distr. cbn. by eexists.
Qed.

Lemma scoped_literal_star delimiter r ip : delimiter ≠ [] → starts_with [STAR] delimiter = false →
  scoped_literal delimiter (STAR :: r) = Some ip → ∃ r', ip = STAR :: r'.
Proof.
  intros Hne Hd. unfold scoped_literal. destruct (split_once_str delimiter (STAR :: r)) as [[a b]|] eqn:Hs; [|done].
  destruct (is_ip_literal a) eqn:Ha; [|done]. intros [= <-]. apply split_once_str_Some in Hs.
  destruct a as [|x a]; [done|]. injection Hs as <- _. by eexists.
Qed.

Lemma normalize_dns_star r : ∃ r', normalize_dns_host_or_ip_literal (STAR :: r) = STAR :: r'.
Proof.
  unfold normalize_dns_host_or_ip_literal. cbn [to_ascii_lowercase map].
  change (to_ascii_lowercase_char STAR) with STAR.
  destruct (trim_end_dots_star (map to_ascii_lowercase_char r)) as [r1 ->].
  unfold normalize_ip_literal. destruct (is_ip_literal _); [by eexists|].
  destruct (scoped_literal (lit "%25") _) as [ip|] eqn:H1; [by eapply scoped_literal_star in H1|].
  destruct (scoped_literal (lit "%") _) as [ip|] eqn:H2; [by eapply scoped_literal_star in H2|by eexists].
Qed.

(** An entry that starts with a star keeps it. *)
Lemma normalize_host_star e r : trim e = STAR :: r → ∃ r', normalize_host e = STAR :: r'.
Proof.
  intros He. unfold normalize_host. rewrite He. cbn [bracketed].
  replace (STAR =? LBRACKET)%N with false by done.
  destruct (_ =? 1)%nat; [|apply normalize_dns_star]. cbn [split_char].
  replace (STAR =? COLON)%N with false by done.
  destruct (split_char COLON r) as [|x l]; apply normalize_dns_star.
Qed.

(** The entries of a list are written in their normal form. *)
Definition normal_list (entries : list str) : Prop :=
  Forall (λ e, normalize_pattern e = e ∧ ∃ p, plain_entry e p) entries.

Lemma plain_normal d : plain_domain d = true → normalize_pattern d = normalize_host d.
Proof.
  intros Hd. unfold normalize_pattern. rewrite plain_trim by done.
  rewrite bool_decide_false by (intros ->; done).
  destruct (strip_prefix (lit "**.") d) as [r|] eqn:H1;
    [apply strip_prefix_Some in H1; by destruct (plain_no_star d _ Hd H1)|].
  destruct (strip_prefix (lit "*.") d) as [r|] eqn:H2;
    [apply strip_prefix_Some in H2; by destruct (plain_no_star d _ Hd H2)|done].
Qed.

(** The entry with the host as its normal form is the host. *)
Lemma normal_entry_host e p h : normalize_pattern e = e → plain_entry e p → plain_domain h = true →
  normalize_host e = h → e = h.
Proof.
  intros Hn Hp Hh He. destruct Hp as [d Hd|d Hd|d Hd|].
  { by rewrite plain_normal, He in Hn. }
  1: destruct (normalize_host_star (lit "*." ++ d) (DOT :: d)) as [r Hr].
  3: destruct (normalize_host_star (lit "**." ++ d) (STAR :: DOT :: d)) as [r Hr].
  5: destruct (normalize_host_star (lit "*") []) as [r Hr].
  all: try (rewrite plain_prefixed_trim by (done || by repeat constructor)); try done.
  all: rewrite Hr in He; by destruct (plain_no_star h r Hh).
Qed.

Lemma plain_no_stars d : plain_domain d = true → contains_char STAR d = false.
Proof.
  intros (_ & Hc & _)%domain_chars. unfold contains_char.
  induction Hc as [|c d (_ & Hm & _) _ IH]; [done|]. cbn [existsb]. rewrite IH, orb_false_r.
  destruct (N.eqb_spec STAR c) as [<-|]; [by vm_compute in Hm|done].
Qed.

Section Adding.
Context {M : MitmHooks} {H : UrlHosts} {G : Globs} {GL : GlobLaws}.
Implicit Types s : ConfigState.t.

(** After a host is added to the deny list it is an entry of it. *)
Lemma added_entry broker s reload host s' h :
  add_denied_domain broker s reload host = Ok s' → parse_host host = Some h → plain_domain h = true →
  normal_list (config_denied (ConfigState.config s')) → h ∈ config_denied (ConfigState.config s').
Proof.
  unfold add_denied_domain, update_domain_list. intros Ha Hh Hpl Hnorm. rewrite Hh in Ha.
  destruct (reload_if_needed broker s reload) as [s1|]; cbn [rbind] in Ha; [|done].
  unfold prepare_update in Ha. destruct (existsb _ (target_entries _ _)) eqn:Ht; cbn [andb] in Ha.
  1: destruct (negb _); cbn [rbind] in Ha.
  { injection Ha as <-. apply existsb_exists in Ht as (e & He & Heq). apply list_elem_of_In in He.
    cbn [target_entries] in He. apply bool_decide_eq_true in Heq.
    destruct (Forall_elem _ _ _ Hnorm He) as (Hn & p & Hp).
    by rewrite <- (normal_entry_host e p h Hn Hp Hpl Heq). }
  all: destruct (validate_policy_against_constraints _ _) as [[]|]; cbn [map_err rbind] in Ha; [|done];
    destruct (build_config_state _ _) as [b|] eqn:Hb; cbn [map_err rbind] in Ha; [|done];
    unfold commit_update in Ha; rewrite !bool_decide_true in Ha by done; injection Ha as <-;
    destruct (build_coherent _ _ _ Hb) as (_ & Hcfg & _); cbn; rewrite Hcfg;
    eapply denied_effective; [|apply elem_of_app; right; by apply list_elem_of_singleton];
    cbn [with_domains upsert_domain_permission NetworkProxyConfig.domains]; unfold some_domains;
    by rewrite bool_decide_false by (by intros [? ?]%app_nil).
Qed.

(** A host added to the deny list is blocked from then on, as denied, whatever the lists
    said of it before. *)
Theorem added_host_denied broker s reload host s' h port lookup :
  add_denied_domain broker s reload host = Ok s' → parse_host host = Some h →
  plain_domain h = true → normalize_pattern h = h →
  coherent s' → plain_config (ConfigState.config s') →
  normal_list (config_denied (ConfigState.config s')) →
  decide_host s' host port lookup = HostBlockDecision.Blocked HostBlockReason.Denied.
Proof.
  intros Ha Hh Hpl Hn Hc Hp Hnorm. apply (denied_lists s' host h port lookup Hc Hp Hh).
  pose proof (added_entry _ _ _ _ _ _ Ha Hh Hpl Hnorm) as Hin.
  unfold listed. apply existsb_exists. exists h. split; [by apply list_elem_of_In|].
  unfold entry_covers. rewrite Hn, (parse_plain h _ (plain_exact h Hpl)). cbn [covers].
  rewrite plain_domain_normal, wild_match_literal, bool_decide_true by (done || by apply plain_no_stars).
  done.
Qed.
End Adding.

(** ** Changes of a configuration *)

Module UpdateSample.
Import SampleNet.

(** The state after another host is denied. *)
Definition changed : ConfigState.t :=
  match prepare_update state (lit "api.example.com") DenyList with Ok (Some s) => s | _ => state end.


Lemma added_host_denied_witness :
  decide_host changed (lit "API.example.com") 443 lookup = HostBlockDecision.Blocked HostBlockReason.Denied.
Proof.
  assert (Hd : config_denied (ConfigState.config changed) = [lit "bad.example.com"; lit "api.example.com"])
    by by vm_compute.
  assert (Hallow : config_allowed (ConfigState.config changed) = [lit "**.example.com"; lit "127.0.0.1"])
    by by vm_compute.
  assert (Hnorm : normal_list (config_denied (ConfigState.config changed))).
  { rewrite Hd. apply Forall_cons_2; [|apply Forall_cons_2; [|apply Forall_nil_2]].
    - split; [vm_compute; reflexivity|eexists; by apply (plain_exact (lit "bad.example.com"))].
    - split; [vm_compute; reflexivity|eexists; by apply (plain_exact (lit "api.example.com"))]. }
  apply (added_host_denied false state (Ok None) _ changed (lit "api.example.com"));
    [vm_compute; reflexivity..| | |exact Hnorm].
  - split; vm_compute; reflexivity.
  - split; [rewrite Hallow; rewrite <- (proj1 config_lists); apply RuntimeSample.sample_plain|].
    apply (Forall_weaken _ _ _ Hnorm). intros e (Hn & p & Hp). cbn beta. rewrite Hn. by eapply plain_entry_wild.
Defined.

(** A blocked request. *)
Definition entry : BlockedRequest.t :=
  BlockedRequest.mk (lit "bad.example.com") (lit "denied") None None None (lit "http") None None None None 0.

(** A request recorded between the read and the write of a change is lost. *)
Lemma recorded_during_update_lost :
  prepare_update state (lit "api.example.com") DenyList = Ok (Some changed)
  ∧ ConfigState.blocked (push_blocked entry state) = [entry]
  ∧ ∃ s', commit_update state changed (push_blocked entry state) = Some s'
      ∧ ConfigState.blocked s' = [] ∧ ConfigState.blocked_total s' = 0.
Proof. split_and!; [by vm_compute|by vm_compute|]. exists changed. by vm_compute. Qed.

(** A forced reload keeps the requests and forgets their number. *)
Lemma forced_reload_forgets_total :
  ∃ s', force_reload false (push_blocked entry state) (Ok state) = Ok s'
    ∧ ConfigState.blocked s' = [entry] ∧ ConfigState.blocked_total s' = 0.
Proof. eexists. split; [by vm_compute|]. by vm_compute. Qed.
End UpdateSample.
