(* ===== verification/Keymap.v ===== *)
(** * Key bindings of the editor: [tui/src/key_hint.rs] and [tui/src/keymap.rs]

    Key events, the matching of an event against the bindings of an action, and the
    keymaps of the composer's text area with their built-in defaults. *)

From Stdlib Require Import String ZArith NArith.
From stdpp Require Import base option list numbers.
From S2P Require Import Prelude.

(** ** Key events

    The types of the terminal library, with the key codes the sources name; every other
    key is known by its name. *)
Module KeyCode.
Inductive t : Type :=
| Char (c : char)
| Esc
| Enter
| Backspace
| Delete
| Insert
| Left
| Right
| Up
| Down
| Home
| End_
| Other (name : str).

#[global] Instance t_eq_dec : EqDecision t.
Proof. solve_decision. Defined.
End KeyCode.

(** Modifier sets are bit sets. *)
Module KeyModifiers.
Definition NONE : N := 0.
Definition SHIFT : N := 1.
Definition CONTROL : N := 2.
Definition ALT : N := 4.
End KeyModifiers.

Module KeyEventKind.
Inductive t : Type := Press | Repeat | Release.
#[global] Instance t_eq_dec : EqDecision t.
Proof. solve_decision. Defined.
End KeyEventKind.

Module KeyEvent.
Record t : Type := mk {
  code : KeyCode.t;
  modifiers : N;
  kind : KeyEventKind.t
}.
End KeyEvent.

(** ** Bindings *)
Module KeyBinding.
Record t : Type := mk {
  key : KeyCode.t;
  modifiers : N
}.
End KeyBinding.

Definition is_ascii_uppercase (c : char) : bool := ((65 <=? c) && (c <=? 90))%N.
Definition is_ascii_control (c : char) : bool := ((c <=? 31) || (c =? 127))%N.

Definition c0_control_char_to_ctrl_char (ch : char) : option char :=
  if (ch =? 0)%N then Some 32%N
  else if ((1 <=? ch) && (ch <=? 26))%N then Some (ch - 1 + 97)%N
  else if ((28 <=? ch) && (ch <=? 31))%N then Some (ch - 28 + 52)%N
  else None.

Definition normalize_key_parts (key : KeyCode.t) (modifiers : N) : KeyCode.t * N :=
  match key with
  | KeyCode.Char ch =>
      match (if (modifiers =? 0)%N then c0_control_char_to_ctrl_char ch else None) with
      | Some ctrl_char => (KeyCode.Char ctrl_char, N.lor KeyModifiers.CONTROL modifiers)
      | None =>
          if is_ascii_uppercase ch
          then (KeyCode.Char (to_ascii_lowercase_char ch), N.lor modifiers KeyModifiers.SHIFT)
          else (key, modifiers)
      end
  | _ => (key, modifiers)
  end.

Definition is_press (binding : KeyBinding.t) (event : KeyEvent.t) : bool :=
  bool_decide (normalize_key_parts (KeyBinding.key binding) (KeyBinding.modifiers binding)
               = normalize_key_parts (KeyEvent.code event) (KeyEvent.modifiers event))
  && (bool_decide (KeyEvent.kind event = KeyEventKind.Press)
      || bool_decide (KeyEvent.kind event = KeyEventKind.Repeat)).

Definition is_pressed (bindings : list KeyBinding.t) (event : KeyEvent.t) : bool :=
  existsb (λ binding, is_press binding event) bindings.

Definition plain (key : KeyCode.t) : KeyBinding.t := KeyBinding.mk key KeyModifiers.NONE.
Definition alt (key : KeyCode.t) : KeyBinding.t := KeyBinding.mk key KeyModifiers.ALT.
Definition shift (key : KeyCode.t) : KeyBinding.t := KeyBinding.mk key KeyModifiers.SHIFT.
Definition ctrl (key : KeyCode.t) : KeyBinding.t := KeyBinding.mk key KeyModifiers.CONTROL.

(** No modifier set counts as that of an AltGr key. *)
Definition is_altgr (mods : N) : bool := false.

(** ** Keymaps *)
Module EditorKeymap.
Record t : Type := mk {
  insert_newline : list KeyBinding.t;
  move_left : list KeyBinding.t;
  move_right : list KeyBinding.t;
  move_up : list KeyBinding.t;
  move_down : list KeyBinding.t;
  move_word_left : list KeyBinding.t;
  move_word_right : list KeyBinding.t;
  move_line_start : list KeyBinding.t;
  move_line_end : list KeyBinding.t;
  delete_backward : list KeyBinding.t;
  delete_forward : list KeyBinding.t;
  delete_backward_word : list KeyBinding.t;
  delete_forward_word : list KeyBinding.t;
  kill_line_start : list KeyBinding.t;
  kill_whole_line : list KeyBinding.t;
  kill_line_end : list KeyBinding.t;
  yank : list KeyBinding.t
}.
End EditorKeymap.

Module VimNormalKeymap.
Record t : Type := mk {
  enter_insert : list KeyBinding.t;
  append_after_cursor : list KeyBinding.t;
  append_line_end : list KeyBinding.t;
  insert_line_start : list KeyBinding.t;
  open_line_below : list KeyBinding.t;
  open_line_above : list KeyBinding.t;
  move_left : list KeyBinding.t;
  move_right : list KeyBinding.t;
  move_up : list KeyBinding.t;
  move_down : list KeyBinding.t;
  move_word_forward : list KeyBinding.t;
  move_word_backward : list KeyBinding.t;
  move_word_end : list KeyBinding.t;
  move_line_start : list KeyBinding.t;
  move_line_end : list KeyBinding.t;
  delete_char : list KeyBinding.t;
  substitute_char : list KeyBinding.t;
  delete_to_line_end : list KeyBinding.t;
  change_to_line_end : list KeyBinding.t;
  yank_line : list KeyBinding.t;
  paste_after : list KeyBinding.t;
  start_delete_operator : list KeyBinding.t;
  start_yank_operator : list KeyBinding.t;
  start_change_operator : list KeyBinding.t;
  cancel_operator : list KeyBinding.t
}.
End VimNormalKeymap.

Module VimOperatorKeymap.
Record t : Type := mk {
  delete_line : list KeyBinding.t;
  yank_line : list KeyBinding.t;
  motion_left : list KeyBinding.t;
  motion_right : list KeyBinding.t;
  motion_up : list KeyBinding.t;
  motion_down : list KeyBinding.t;
  motion_word_forward : list KeyBinding.t;
  motion_word_backward : list KeyBinding.t;
  motion_word_end : list KeyBinding.t;
  motion_line_start : list KeyBinding.t;
  motion_line_end : list KeyBinding.t;
  select_inner_text_object : list KeyBinding.t;
  select_around_text_object : list KeyBinding.t;
  cancel : list KeyBinding.t
}.
End VimOperatorKeymap.

Module VimTextObjectKeymap.
Record t : Type := mk {
  word : list KeyBinding.t;
  big_word : list KeyBinding.t;
  parentheses : list KeyBinding.t;
  brackets : list KeyBinding.t;
  braces : list KeyBinding.t;
  double_quote : list KeyBinding.t;
  single_quote : list KeyBinding.t;
  backtick : list KeyBinding.t;
  cancel : list KeyBinding.t
}.
End VimTextObjectKeymap.

(** The keymaps of a [RuntimeKeymap] the text area keeps. *)
Module RuntimeKeymap.
Record t : Type := mk {
  editor : EditorKeymap.t;
  vim_normal : VimNormalKeymap.t;
  vim_operator : VimOperatorKeymap.t;
  vim_text_object : VimTextObjectKeymap.t
}.
End RuntimeKeymap.

Module KeymapContext.
Inductive t : Type :=
| Global | Chat | Composer | Editor | VimNormal | VimOperator | VimTextObject | Pager | List.
End KeymapContext.

(** ** The built-in defaults *)

(** The key of a character. *)
Definition chr (c : string) : KeyCode.t :=
  match lit c with c :: _ => KeyCode.Char c | [] => KeyCode.Other [] end.

Definition default_editor : EditorKeymap.t :=
  {| EditorKeymap.insert_newline :=
       [ctrl (chr "j"); ctrl (chr "m"); plain KeyCode.Enter; shift KeyCode.Enter; alt KeyCode.Enter];
     EditorKeymap.move_left := [plain KeyCode.Left; ctrl (chr "b")];
     EditorKeymap.move_right := [plain KeyCode.Right; ctrl (chr "f")];
     EditorKeymap.move_up := [plain KeyCode.Up; ctrl (chr "p")];
     EditorKeymap.move_down := [plain KeyCode.Down; ctrl (chr "n")];
     EditorKeymap.move_word_left :=
       [alt (chr "b"); KeyBinding.mk KeyCode.Left KeyModifiers.ALT;
        KeyBinding.mk KeyCode.Left KeyModifiers.CONTROL];
     EditorKeymap.move_word_right :=
       [alt (chr "f"); KeyBinding.mk KeyCode.Right KeyModifiers.ALT;
        KeyBinding.mk KeyCode.Right KeyModifiers.CONTROL];
     EditorKeymap.move_line_start := [plain KeyCode.Home; ctrl (chr "a")];
     EditorKeymap.move_line_end := [plain KeyCode.End_; ctrl (chr "e")];
     EditorKeymap.delete_backward :=
       [plain KeyCode.Backspace; shift KeyCode.Backspace; ctrl (chr "h")];
     EditorKeymap.delete_forward := [plain KeyCode.Delete; shift KeyCode.Delete; ctrl (chr "d")];
     EditorKeymap.delete_backward_word :=
       [alt KeyCode.Backspace; ctrl KeyCode.Backspace;
        KeyBinding.mk KeyCode.Backspace (N.lor KeyModifiers.CONTROL KeyModifiers.SHIFT);
        ctrl (chr "w"); KeyBinding.mk (chr "h") (N.lor KeyModifiers.CONTROL KeyModifiers.ALT)];
     EditorKeymap.delete_forward_word :=
       [alt KeyCode.Delete; ctrl KeyCode.Delete;
        KeyBinding.mk KeyCode.Delete (N.lor KeyModifiers.CONTROL KeyModifiers.SHIFT);
        alt (chr "d")];
     EditorKeymap.kill_line_start := [ctrl (chr "u")];
     EditorKeymap.kill_whole_line := [];
     EditorKeymap.kill_line_end := [ctrl (chr "k")];
     EditorKeymap.yank := [ctrl (chr "y")] |}.

Definition default_vim_normal : VimNormalKeymap.t :=
  {| VimNormalKeymap.enter_insert := [plain (chr "i"); plain KeyCode.Insert];
     VimNormalKeymap.append_after_cursor := [plain (chr "a")];
     VimNormalKeymap.append_line_end := [shift (chr "a"); plain (chr "A")];
     VimNormalKeymap.insert_line_start := [shift (chr "i"); plain (chr "I")];
     VimNormalKeymap.open_line_below := [plain (chr "o")];
     VimNormalKeymap.open_line_above := [shift (chr "o"); plain (chr "O")];
     VimNormalKeymap.move_left := [plain (chr "h"); plain KeyCode.Left];
     VimNormalKeymap.move_right := [plain (chr "l"); plain KeyCode.Right];
     VimNormalKeymap.move_up := [plain (chr "k"); plain KeyCode.Up];
     VimNormalKeymap.move_down := [plain (chr "j"); plain KeyCode.Down];
     VimNormalKeymap.move_word_forward := [plain (chr "w")];
     VimNormalKeymap.move_word_backward := [plain (chr "b")];
     VimNormalKeymap.move_word_end := [plain (chr "e")];
     VimNormalKeymap.move_line_start := [plain (chr "0")];
     VimNormalKeymap.move_line_end := [plain (chr "$"); shift (chr "$")];
     VimNormalKeymap.delete_char := [plain (chr "x")];
     VimNormalKeymap.substitute_char := [plain (chr "s")];
     VimNormalKeymap.delete_to_line_end := [shift (chr "d"); plain (chr "D")];
     VimNormalKeymap.change_to_line_end := [shift (chr "c"); plain (chr "C")];
     VimNormalKeymap.yank_line := [shift (chr "y"); plain (chr "Y")];
     VimNormalKeymap.paste_after := [plain (chr "p")];
     VimNormalKeymap.start_delete_operator := [plain (chr "d")];
     VimNormalKeymap.start_yank_operator := [plain (chr "y")];
     VimNormalKeymap.start_change_operator := [plain (chr "c")];
     VimNormalKeymap.cancel_operator := [plain KeyCode.Esc] |}.

Definition default_vim_operator : VimOperatorKeymap.t :=
  {| VimOperatorKeymap.delete_line := [plain (chr "d")];
     VimOperatorKeymap.yank_line := [plain (chr "y")];
     VimOperatorKeymap.motion_left := [plain (chr "h")];
     VimOperatorKeymap.motion_right := [plain (chr "l")];
     VimOperatorKeymap.motion_up := [plain (chr "k")];
     VimOperatorKeymap.motion_down := [plain (chr "j")];
     VimOperatorKeymap.motion_word_forward := [plain (chr "w")];
     VimOperatorKeymap.motion_word_backward := [plain (chr "b")];
     VimOperatorKeymap.motion_word_end := [plain (chr "e")];
     VimOperatorKeymap.motion_line_start := [plain (chr "0")];
     VimOperatorKeymap.motion_line_end := [plain (chr "$"); shift (chr "$")];
     VimOperatorKeymap.select_inner_text_object := [plain (chr "i")];
     VimOperatorKeymap.select_around_text_object := [plain (chr "a")];
     VimOperatorKeymap.cancel := [plain KeyCode.Esc] |}.

Definition default_vim_text_object : VimTextObjectKeymap.t :=
  {| VimTextObjectKeymap.word := [plain (chr "w")];
     VimTextObjectKeymap.big_word := [shift (chr "w"); plain (chr "W")];
     VimTextObjectKeymap.parentheses :=
       [plain (chr "("); shift (chr "("); plain (chr ")"); shift (chr ")"); plain (chr "b")];
     VimTextObjectKeymap.brackets := [plain (chr "["); plain (chr "]")];
     VimTextObjectKeymap.braces :=
       [plain (chr "{"); shift (chr "{"); plain (chr "}"); shift (chr "}");
        shift (chr "b"); plain (chr "B")];
     VimTextObjectKeymap.double_quote :=
       [plain (KeyCode.Char 34%N); shift (KeyCode.Char 34%N)];
     VimTextObjectKeymap.single_quote := [plain (chr "'")];
     VimTextObjectKeymap.backtick := [plain (chr "`")];
     VimTextObjectKeymap.cancel := [plain KeyCode.Esc] |}.

Definition defaults : RuntimeKeymap.t :=
  RuntimeKeymap.mk default_editor default_vim_normal default_vim_operator default_vim_text_object.

(** A letter binding matches however the terminal reports the shift key, and a control
    binding matches the control character. *)
Lemma is_press_compat :
  is_press (shift (chr "a")) (KeyEvent.mk (chr "A") KeyModifiers.NONE KeyEventKind.Press) = true
  ∧ is_press (ctrl (chr "j")) (KeyEvent.mk (KeyCode.Char LF) KeyModifiers.NONE KeyEventKind.Repeat)
    = true
  ∧ ∀ binding code modifiers,
      is_press binding (KeyEvent.mk code modifiers KeyEventKind.Release) = false.
Proof. split_and!; [done|done|]. intros. unfold is_press. cbn. by rewrite andb_false_r. Qed.
