(* ===== verification/TextArea.v ===== *)
(** * The composer's text area: [tui/src/bottom_pane/textarea.rs]

    The editable text with its cursor, its atomic elements and its kill buffer, and the
    operations on them.  Positions are byte offsets; a slice or an edit off a character
    boundary panics, which is [None].  The segmentation of text into graphemes and words
    and the width of a text are those of third-party crates. *)

From Stdlib Require Import String ZArith NArith.
From stdpp Require Import base option list numbers.
From S2P Require Import Prelude StrBytes ThreadItems Keymap.

Local Open Scope Z_scope.
Local Open Scope str_scope.

(** ** Text segmentation *)

(** What [GraphemeCursor] reports when the chunk it was given is not enough. *)
Inductive GraphemeIncomplete : Type :=
| PreContext (offset : Z)
| PrevChunk
| NextChunk
| InvalidOffset.

(** [unicode_segmentation] and [unicode_width].  A cursor is given the whole text as its
    chunk. *)
Class UnicodeText : Type := {
  graphemes : str → list str;
  split_word_bounds : str → list str;
  prev_boundary : str → Z → result GraphemeIncomplete (option Z);
  next_boundary : str → Z → result GraphemeIncomplete (option Z);
  unicode_width : str → Z
}.

(** Pieces with their byte offsets. *)
Fixpoint indices_from (i : Z) (pieces : list str) : list (Z * str) :=
  match pieces with
  | [] => []
  | p :: pieces' => (i, p) :: indices_from (i + slen p) pieces'
  end.

(** [str::find] and [str::rfind] of a character. *)
Definition str_find (p : char → bool) (s : str) : option Z :=
  fst <$> List.find (λ ic, p ic.2) (char_indices s).
Definition str_rfind (p : char → bool) (s : str) : option Z :=
  fst <$> List.find (λ ic, p ic.2) (rev (char_indices s)).

Definition is_lf (c : char) : bool := (c =? LF)%N.
Definition not_whitespace (c : char) : bool := negb (is_whitespace c).

(** [str::is_char_boundary]. *)
Definition is_char_boundary (s : str) (n : Z) : bool :=
  match slice_from s n with Some _ => true | None => false end.

(** [String::insert_str] and [String::replace_range]. *)
Definition string_insert_str (s : str) (pos : Z) (t : str) : option str :=
  p ← slice_to s pos;
  q ← slice_from s pos;
  Some (p ++ t ++ q).

Definition string_replace_range (s : str) (a b : Z) (t : str) : option str :=
  if (a <=? b) then
    p ← slice_to s a;
    q ← slice_from s b;
    Some (p ++ t ++ q)
  else None.

Definition grapheme_indices `{UnicodeText} (s : str) : list (Z * str) :=
  indices_from 0 (graphemes s).
Definition split_word_bound_indices `{UnicodeText} (s : str) : list (Z * str) :=
  indices_from 0 (split_word_bounds s).

(** [width.rs]: halfwidth sound marks take a cell of their own. *)
Definition display_width `{UnicodeText} (s : str) : Z :=
  unicode_width s
  + Z.of_nat (length (List.filter (λ c, (c =? 65438) || (c =? 65439))%N s)).

(** The separators are the ASCII punctuation but the underscore; the double quote, 34, is
    apart because of the syntax of strings. *)
Definition WORD_SEPARATORS : str := 34%N :: lit "`~!@#$%^&*()-=+[{]}\|;:',.<>/?".

Definition is_word_separator (ch : char) : bool := contains_char ch WORD_SEPARATORS.

(** The loop of [split_word_pieces] over the characters of a segment. *)
Fixpoint split_segment (segment_start : Z) (segment : str) (piece_start : Z)
    (in_separator : bool) (chars : list (Z * char)) : option (list (Z * str)) :=
  match chars with
  | [] => piece ← slice_from segment piece_start; Some [(segment_start + piece_start, piece)]
  | (idx, ch) :: chars' =>
      let is_separator := is_word_separator ch in
      if Bool.eqb is_separator in_separator
      then split_segment segment_start segment piece_start in_separator chars'
      else
        piece ← slice_range segment piece_start idx;
        rest ← split_segment segment_start segment idx is_separator chars';
        Some ((segment_start + piece_start, piece) :: rest)
  end.

Fixpoint split_segments (segments : list (Z * str)) : option (list (Z * str)) :=
  match segments with
  | [] => Some []
  | (segment_start, segment) :: segments' =>
      pieces ← match char_indices segment with
               | [] => Some []
               | (_, first_char) :: chars =>
                   split_segment segment_start segment 0 (is_word_separator first_char) chars
               end;
      rest ← split_segments segments';
      Some (pieces ++ rest)
  end.

Definition split_word_pieces `{UnicodeText} (run : str) : option (list (Z * str)) :=
  split_segments (split_word_bound_indices run).

Definition TAB : char := 9%N.

Definition text_for_display (text : str) : str :=
  if contains_char TAB text then map (λ c, if (c =? TAB)%N then SPACE else c) text else text.

(** ** State *)

(** [std::ops::Range<usize>]. *)
Module Range.
Record t : Type := mk { start : Z; end_ : Z }.
#[global] Instance t_eq_dec : EqDecision t.
Proof. solve_decision. Defined.
End Range.

Module TextElement.
Record t : Type := mk { id : Z; range : Range.t }.
End TextElement.

Module TextElementSnapshot.
Record t : Type := mk { id : Z; range : Range.t; text : str }.
End TextElementSnapshot.

Module WrapCache.
Record t : Type := mk { width : Z; lines : list Range.t }.
End WrapCache.

Inductive KillBufferKind : Type := Characterwise | Linewise.

Inductive VimMode : Type := Normal | Insert.
Inductive VimOperator : Type := Delete | Yank | Change.
Inductive VimTextObjectScope : Type := Inner | Around.

Module VimPending.
Inductive t : Type :=
| None
| Operator (op : VimOperator)
| TextObject (operator : VimOperator) (scope : VimTextObjectScope).
End VimPending.
Abbreviation VimPending := VimPending.t (only parsing).

Record TextArea : Type := mk_TextArea {
  text : str;
  cursor_pos : Z;
  wrap_cache : option WrapCache.t;
  preferred_col : option Z;
  elements : list TextElement.t;
  next_element_id : Z;
  kill_buffer : str;
  kill_buffer_kind : KillBufferKind;
  vim_enabled : bool;
  vim_mode : VimMode;
  vim_pending : VimPending;
  editor_keymap : EditorKeymap.t;
  vim_normal_keymap : VimNormalKeymap.t;
  vim_operator_keymap : VimOperatorKeymap.t;
  vim_text_object_keymap : VimTextObjectKeymap.t
}.

(** Assignments to one field. *)
Definition with_text (v : str) (s : TextArea) : TextArea :=
  mk_TextArea v (cursor_pos s) (wrap_cache s) (preferred_col s) (elements s)
    (next_element_id s) (kill_buffer s) (kill_buffer_kind s) (vim_enabled s) (vim_mode s)
    (vim_pending s) (editor_keymap s) (vim_normal_keymap s) (vim_operator_keymap s)
    (vim_text_object_keymap s).
Definition with_cursor_pos (v : Z) (s : TextArea) : TextArea :=
  mk_TextArea (text s) v (wrap_cache s) (preferred_col s) (elements s) (next_element_id s)
    (kill_buffer s) (kill_buffer_kind s) (vim_enabled s) (vim_mode s) (vim_pending s)
    (editor_keymap s) (vim_normal_keymap s) (vim_operator_keymap s) (vim_text_object_keymap
    s).
Definition with_wrap_cache (v : option WrapCache.t) (s : TextArea) : TextArea :=
  mk_TextArea (text s) (cursor_pos s) v (preferred_col s) (elements s) (next_element_id s)
    (kill_buffer s) (kill_buffer_kind s) (vim_enabled s) (vim_mode s) (vim_pending s)
    (editor_keymap s) (vim_normal_keymap s) (vim_operator_keymap s) (vim_text_object_keymap
    s).
Definition with_preferred_col (v : option Z) (s : TextArea) : TextArea :=
  mk_TextArea (text s) (cursor_pos s) (wrap_cache s) v (elements s) (next_element_id s)
    (kill_buffer s) (kill_buffer_kind s) (vim_enabled s) (vim_mode s) (vim_pending s)
    (editor_keymap s) (vim_normal_keymap s) (vim_operator_keymap s) (vim_text_object_keymap
    s).
Definition with_elements (v : list TextElement.t) (s : TextArea) : TextArea :=
  mk_TextArea (text s) (cursor_pos s) (wrap_cache s) (preferred_col s) v (next_element_id s)
    (kill_buffer s) (kill_buffer_kind s) (vim_enabled s) (vim_mode s) (vim_pending s)
    (editor_keymap s) (vim_normal_keymap s) (vim_operator_keymap s) (vim_text_object_keymap
    s).
Definition with_next_element_id (v : Z) (s : TextArea) : TextArea :=
  mk_TextArea (text s) (cursor_pos s) (wrap_cache s) (preferred_col s) (elements s) v
    (kill_buffer s) (kill_buffer_kind s) (vim_enabled s) (vim_mode s) (vim_pending s)
    (editor_keymap s) (vim_normal_keymap s) (vim_operator_keymap s) (vim_text_object_keymap
    s).
Definition with_kill_buffer (v : str) (s : TextArea) : TextArea :=
  mk_TextArea (text s) (cursor_pos s) (wrap_cache s) (preferred_col s) (elements s)
    (next_element_id s) v (kill_buffer_kind s) (vim_enabled s) (vim_mode s) (vim_pending s)
    (editor_keymap s) (vim_normal_keymap s) (vim_operator_keymap s) (vim_text_object_keymap
    s).
Definition with_kill_buffer_kind (v : KillBufferKind) (s : TextArea) : TextArea :=
  mk_TextArea (text s) (cursor_pos s) (wrap_cache s) (preferred_col s) (elements s)
    (next_element_id s) (kill_buffer s) v (vim_enabled s) (vim_mode s) (vim_pending s)
    (editor_keymap s) (vim_normal_keymap s) (vim_operator_keymap s) (vim_text_object_keymap
    s).
Definition with_vim_enabled (v : bool) (s : TextArea) : TextArea :=
  mk_TextArea (text s) (cursor_pos s) (wrap_cache s) (preferred_col s) (elements s)
    (next_element_id s) (kill_buffer s) (kill_buffer_kind s) v (vim_mode s) (vim_pending s)
    (editor_keymap s) (vim_normal_keymap s) (vim_operator_keymap s) (vim_text_object_keymap
    s).
Definition with_vim_mode (v : VimMode) (s : TextArea) : TextArea :=
  mk_TextArea (text s) (cursor_pos s) (wrap_cache s) (preferred_col s) (elements s)
    (next_element_id s) (kill_buffer s) (kill_buffer_kind s) (vim_enabled s) v (vim_pending
    s) (editor_keymap s) (vim_normal_keymap s) (vim_operator_keymap s)
    (vim_text_object_keymap s).
Definition with_vim_pending (v : VimPending) (s : TextArea) : TextArea :=
  mk_TextArea (text s) (cursor_pos s) (wrap_cache s) (preferred_col s) (elements s)
    (next_element_id s) (kill_buffer s) (kill_buffer_kind s) (vim_enabled s) (vim_mode s) v
    (editor_keymap s) (vim_normal_keymap s) (vim_operator_keymap s) (vim_text_object_keymap
    s).

Definition new : TextArea :=
  mk_TextArea [] 0 None None [] 1 [] Characterwise false Insert VimPending.None
    (RuntimeKeymap.editor defaults) (RuntimeKeymap.vim_normal defaults)
    (RuntimeKeymap.vim_operator defaults) (RuntimeKeymap.vim_text_object defaults).

Definition set_keymap_bindings (s : TextArea) (keymap : RuntimeKeymap.t) : TextArea :=
  mk_TextArea (text s) (cursor_pos s) (wrap_cache s) (preferred_col s) (elements s)
    (next_element_id s) (kill_buffer s) (kill_buffer_kind s) (vim_enabled s) (vim_mode s)
    (vim_pending s) (RuntimeKeymap.editor keymap) (RuntimeKeymap.vim_normal keymap)
    (RuntimeKeymap.vim_operator keymap) (RuntimeKeymap.vim_text_object keymap).

(** ** Boundaries *)

(** The two loops of [clamp_pos_to_char_boundary]; every round moves by one byte. *)
Fixpoint char_boundary_before (fuel : nat) (s : str) (prev : Z) : Z :=
  match fuel with
  | O => prev
  | S fuel' =>
      if (0 <? prev) && negb (is_char_boundary s prev)
      then char_boundary_before fuel' s (prev - 1) else prev
  end.

Fixpoint char_boundary_after (fuel : nat) (s : str) (next : Z) : Z :=
  match fuel with
  | O => next
  | S fuel' =>
      if (next <? slen s) && negb (is_char_boundary s next)
      then char_boundary_after fuel' s (next + 1) else next
  end.

Definition clamp_pos_to_char_boundary (s : TextArea) (pos : Z) : Z :=
  let pos := Z.min pos (slen (text s)) in
  if is_char_boundary (text s) pos then pos
  else
    let prev := char_boundary_before (Z.to_nat pos) (text s) pos in
    let next := char_boundary_after (Z.to_nat (slen (text s) - pos)) (text s) pos in
    if (usat_sub pos prev <=? usat_sub next pos) then prev else next.

(** The element whose index the source returns. *)
Definition find_element_containing (s : TextArea) (pos : Z) : option TextElement.t :=
  List.find (λ e, (Range.start (TextElement.range e) <? pos)
                  && (pos <? Range.end_ (TextElement.range e))) (elements s).

Definition clamp_pos_to_nearest_boundary (s : TextArea) (pos : Z) : Z :=
  let pos := clamp_pos_to_char_boundary s pos in
  match find_element_containing s pos with
  | Some e =>
      let dist_start := usat_sub pos (Range.start (TextElement.range e)) in
      let dist_end := usat_sub (Range.end_ (TextElement.range e)) pos in
      if (dist_start <=? dist_end)
      then clamp_pos_to_char_boundary s (Range.start (TextElement.range e))
      else clamp_pos_to_char_boundary s (Range.end_ (TextElement.range e))
  | None => pos
  end.

Definition clamp_pos_for_insertion (s : TextArea) (pos : Z) : Z :=
  let pos := clamp_pos_to_char_boundary s pos in
  match find_element_containing s pos with
  | Some e =>
      let dist_start := usat_sub pos (Range.start (TextElement.range e)) in
      let dist_end := usat_sub (Range.end_ (TextElement.range e)) pos in
      if (dist_start <=? dist_end)
      then clamp_pos_to_char_boundary s (Range.start (TextElement.range e))
      else clamp_pos_to_char_boundary s (Range.end_ (TextElement.range e))
  | None => pos
  end.

Definition adjust_pos_out_of_elements (s : TextArea) (pos : Z) (prefer_start : bool) : Z :=
  match find_element_containing s pos with
  | Some e =>
      if prefer_start then Range.start (TextElement.range e) else Range.end_ (TextElement.range e)
  | None => pos
  end.

(** One pass over the elements; the second component is [changed]. *)
Fixpoint expand_pass (es : list TextElement.t) (range : Range.t) (changed : bool)
    : Range.t * bool :=
  match es with
  | [] => (range, changed)
  | e :: es' =>
      let r := TextElement.range e in
      if (Range.start r <? Range.end_ range) && (Range.start range <? Range.end_ r) then
        let new_start := Z.min (Range.start range) (Range.start r) in
        let new_end := Z.max (Range.end_ range) (Range.end_ r) in
        if negb (new_start =? Range.start range) || negb (new_end =? Range.end_ range)
        then expand_pass es' (Range.mk new_start new_end) true
        else expand_pass es' range changed
      else expand_pass es' range changed
  end.

(** A pass that changes the range takes in an element that was not part of it. *)
Fixpoint expand_loop (fuel : nat) (es : list TextElement.t) (range : Range.t) : Range.t :=
  match fuel with
  | O => range
  | S fuel' =>
      let '(range, changed) := expand_pass es range false in
      if changed then expand_loop fuel' es range else range
  end.

Definition expand_range_to_element_boundaries (s : TextArea) (range : Range.t) : Range.t :=
  expand_loop (S (length (elements s))) (elements s) range.

(** ** Edits *)

Definition shift_element (at_ end_ inserted diff : Z) (e : TextElement.t) : TextElement.t :=
  let r := TextElement.range e in
  if (Range.end_ r <=? at_) then e
  else if (end_ <=? Range.start r) then
    TextElement.mk (TextElement.id e) (Range.mk (Range.start r + diff) (Range.end_ r + diff))
  else
    TextElement.mk (TextElement.id e)
      (Range.mk (Z.min at_ (Range.start r)) (at_ + Z.max inserted (usat_sub (Range.end_ r) end_))).

Definition shift_elements (s : TextArea) (at_ removed inserted : Z) : TextArea :=
  let end_ := at_ + removed in
  let diff := inserted - removed in
  let kept := List.filter (λ e, negb ((at_ <=? Range.start (TextElement.range e))
                                      && (Range.end_ (TextElement.range e) <=? end_))) (elements s) in
  with_elements (map (shift_element at_ end_ inserted diff) kept) s.

Definition update_elements_after_replace (s : TextArea) (start end_ inserted_len : Z) : TextArea :=
  shift_elements s start (usat_sub end_ start) inserted_len.

Definition insert_str_at (s : TextArea) (pos : Z) (inserted : str) : option TextArea :=
  let pos := clamp_pos_for_insertion s pos in
  text' ← string_insert_str (text s) pos inserted;
  let s := with_wrap_cache None (with_text text' s) in
  let s := if (pos <=? cursor_pos s)
           then with_cursor_pos (cursor_pos s + slen inserted) s else s in
  let s := shift_elements s pos 0 (slen inserted) in
  Some (with_preferred_col None s).

Definition insert_str (s : TextArea) (inserted : str) : option TextArea :=
  insert_str_at s (cursor_pos s) inserted.

(** [usize::clamp] to [0..=len]. *)
Definition clamp_len (s : TextArea) (pos : Z) : Z := Z.max 0 (Z.min pos (slen (text s))).

Definition replace_range_raw (s : TextArea) (range : Range.t) (inserted : str)
    : option TextArea :=
  if negb (Range.start range <=? Range.end_ range) then None
  else
    let start := clamp_len s (Range.start range) in
    let end_ := clamp_len s (Range.end_ range) in
    let removed_len := end_ - start in
    let inserted_len := slen inserted in
    if (removed_len =? 0) && (inserted_len =? 0) then Some s
    else
      let diff := inserted_len - removed_len in
      text' ← string_replace_range (text s) (Range.start range) (Range.end_ range) inserted;
      let s := with_preferred_col None (with_wrap_cache None (with_text text' s)) in
      let s := update_elements_after_replace s start end_ inserted_len in
      let cursor := if (cursor_pos s <? start) then cursor_pos s
                    else if (cursor_pos s <=? end_) then start + inserted_len
                    else cursor_pos s + diff in
      let s := with_cursor_pos (Z.min cursor (slen (text s))) s in
      Some (with_cursor_pos (clamp_pos_to_nearest_boundary s (cursor_pos s)) s).

Definition replace_range (s : TextArea) (range : Range.t) (inserted : str) : option TextArea :=
  replace_range_raw s (expand_range_to_element_boundaries s range) inserted.

Definition set_cursor (s : TextArea) (pos : Z) : TextArea :=
  let s := with_cursor_pos (clamp_len s pos) s in
  let s := with_cursor_pos (clamp_pos_to_nearest_boundary s (cursor_pos s)) s in
  with_preferred_col None s.

(** ** Elements *)

(** [sort_by_key] is stable. *)
Fixpoint insert_by_start (e : TextElement.t) (es : list TextElement.t) : list TextElement.t :=
  match es with
  | [] => [e]
  | f :: es' =>
      if (Range.start (TextElement.range e) <=? Range.start (TextElement.range f)) then e :: es
      else f :: insert_by_start e es'
  end.

Definition sort_by_start (es : list TextElement.t) : list TextElement.t :=
  foldr insert_by_start [] es.

Definition U64_LIMIT : Z := 2 ^ 64 - 1.

(** [next_element_id], the method: it returns the id and saturates the counter. *)
Definition take_element_id (s : TextArea) : Z * TextArea :=
  (next_element_id s, with_next_element_id (Z.min (next_element_id s + 1) U64_LIMIT) s).

(** The loop of [set_text_inner] over the given elements. *)
Fixpoint push_elements (s : TextArea) (given : list CoreTextElement.t) : TextArea :=
  match given with
  | [] => s
  | elem :: given' =>
      let range := CoreTextElement.byte_range elem in
      let start := Z.min (CoreByteRange.start range) (slen (text s)) in
      let end_ := Z.min (CoreByteRange.end_ range) (slen (text s)) in
      let start := clamp_pos_to_char_boundary s start in
      let end_ := clamp_pos_to_char_boundary s end_ in
      if (end_ <=? start) then push_elements s given'
      else
        let '(id, s) := take_element_id s in
        push_elements (with_elements (elements s ++ [TextElement.mk id (Range.mk start end_)]) s)
          given'
  end.

Definition set_text_inner (s : TextArea) (new_text : str)
    (given : option (list CoreTextElement.t)) : TextArea :=
  let s := with_text new_text s in
  let s := with_cursor_pos (clamp_len s (cursor_pos s)) s in
  let s := with_elements [] s in
  let s := match given with
           | Some given =>
               let s := push_elements s given in
               with_elements (sort_by_start (elements s)) s
           | None => s
           end in
  let s := with_cursor_pos (clamp_pos_to_nearest_boundary s (cursor_pos s)) s in
  with_preferred_col None (with_wrap_cache None s).

Definition set_text_clearing_elements (s : TextArea) (new_text : str) : TextArea :=
  set_text_inner s new_text None.

Definition set_text_with_elements (s : TextArea) (new_text : str)
    (given : list CoreTextElement.t) : TextArea :=
  set_text_inner s new_text (Some given).

(** [str::get] of a range. *)
Definition str_get (s : str) (r : Range.t) : option str :=
  if (Range.start r <=? Range.end_ r) then slice_range s (Range.start r) (Range.end_ r) else None.

Definition element_text (s : TextArea) (e : TextElement.t) : option str :=
  str_get (text s) (TextElement.range e).

Definition element_payloads (s : TextArea) : list str := omap (element_text s) (elements s).

Definition text_elements (s : TextArea) : list CoreTextElement.t :=
  map (λ e, CoreTextElement.mk
              (CoreByteRange.mk (Range.start (TextElement.range e)) (Range.end_ (TextElement.range e)))
              (element_text s e)) (elements s).

Definition text_element_snapshots (s : TextArea) : list TextElementSnapshot.t :=
  omap (λ e, (λ t, TextElementSnapshot.mk (TextElement.id e) (TextElement.range e) t)
             <$> element_text s e) (elements s).

Definition text_element_ranges (s : TextArea) : list Range.t := map TextElement.range (elements s).

(** [slice::partition_point] of a partitioned slice, and [Iterator::take_while]. *)
Fixpoint partition_point {A} (p : A → bool) (l : list A) : nat :=
  match l with
  | [] => O
  | x :: l' => if p x then S (partition_point p l') else O
  end.

Fixpoint take_while {A} (p : A → bool) (l : list A) : list A :=
  match l with
  | [] => []
  | x :: l' => if p x then x :: take_while p l' else []
  end.

Definition text_element_ranges_overlapping (s : TextArea) (range : Range.t) : list Range.t :=
  let first := partition_point
    (λ e, Range.end_ (TextElement.range e) <=? Range.start range) (elements s) in
  map TextElement.range
    (take_while (λ e, Range.start (TextElement.range e) <? Range.end_ range)
       (drop first (elements s))).

Definition element_id_for_exact_range (s : TextArea) (range : Range.t) : option Z :=
  TextElement.id <$> List.find (λ e, bool_decide (TextElement.range e = range)) (elements s).

Definition add_element (s : TextArea) (range : Range.t) : Z * TextArea :=
  let '(id, s) := take_element_id s in
  let s := with_elements (elements s ++ [TextElement.mk id range]) s in
  (id, with_elements (sort_by_start (elements s)) s).

Definition insert_element (s : TextArea) (inserted : str) : option (Z * TextArea) :=
  let start := clamp_pos_for_insertion s (cursor_pos s) in
  s ← insert_str_at s start inserted;
  let end_ := start + slen inserted in
  let '(id, s) := add_element s (Range.mk start end_) in
  Some (id, set_cursor s end_).

Definition add_element_range (s : TextArea) (range : Range.t) : option Z * TextArea :=
  let start := clamp_pos_to_char_boundary s (Z.min (Range.start range) (slen (text s))) in
  let end_ := clamp_pos_to_char_boundary s (Z.min (Range.end_ range) (slen (text s))) in
  if (end_ <=? start) then (None, s)
  else if existsb (λ e, (Range.start (TextElement.range e) =? start)
                        && (Range.end_ (TextElement.range e) =? end_)) (elements s)
  then (None, s)
  else if existsb (λ e, (start <? Range.end_ (TextElement.range e))
                        && (Range.start (TextElement.range e) <? end_)) (elements s)
  then (None, s)
  else let '(id, s) := add_element s (Range.mk start end_) in (Some id, s).

Definition remove_element_range (s : TextArea) (range : Range.t) : bool * TextArea :=
  let start := clamp_pos_to_char_boundary s (Z.min (Range.start range) (slen (text s))) in
  let end_ := clamp_pos_to_char_boundary s (Z.min (Range.end_ range) (slen (text s))) in
  if (end_ <=? start) then (false, s)
  else
    let len_before := length (elements s) in
    let s := with_elements
      (List.filter (λ e, negb (Range.start (TextElement.range e) =? start)
                         || negb (Range.end_ (TextElement.range e) =? end_)) (elements s)) s in
    (negb (len_before =? length (elements s))%nat, s).

(** The index of the first element that satisfies a condition. *)
Fixpoint position {A} (p : A → bool) (l : list A) : option nat :=
  match l with
  | [] => None
  | x :: l' => if p x then Some O else S <$> position p l'
  end.

(** What [replace_element_payload] does to the elements other than the renamed one. *)
Definition shift_renamed (start end_ inserted_len diff : Z) (e : TextElement.t) : TextElement.t :=
  let r := TextElement.range e in
  if (Range.end_ r <=? start) then e
  else if (end_ <=? Range.start r) then
    TextElement.mk (TextElement.id e) (Range.mk (Range.start r + diff) (Range.end_ r + diff))
  else
    TextElement.mk (TextElement.id e)
      (Range.mk (Z.min start (Range.start r))
         (Z.max (start + inserted_len) (Z.max 0 (Range.end_ r + diff)))).

Definition replace_element_payload (s : TextArea) (old new_ : str) : option (bool * TextArea) :=
  match position (λ e, bool_decide (element_text s e = Some old)) (elements s) with
  | None => Some (false, s)
  | Some idx =>
      elem ← elements s !! idx;
      let start := Range.start (TextElement.range elem) in
      let end_ := Range.end_ (TextElement.range elem) in
      if (end_ <? start) || (slen (text s) <? end_) then Some (false, s)
      else
        let removed_len := end_ - start in
        let inserted_len := slen new_ in
        let diff := inserted_len - removed_len in
        text' ← string_replace_range (text s) start end_ new_;
        let s := with_preferred_col None (with_wrap_cache None (with_text text' s)) in
        let renamed := TextElement.mk (TextElement.id elem) (Range.mk start (start + inserted_len)) in
        let s := with_elements
          (imap (λ j e, if (j =? idx)%nat then renamed
                        else if (diff =? 0) then e
                        else shift_renamed start end_ inserted_len diff e) (elements s)) s in
        let cursor := if (cursor_pos s <? start) then cursor_pos s
                      else if (cursor_pos s <=? end_) then start + inserted_len
                      else cursor_pos s + diff in
        let s := with_cursor_pos cursor s in
        let s := with_cursor_pos (clamp_pos_to_nearest_boundary s (cursor_pos s)) s in
        Some (true, with_elements (sort_by_start (elements s)) s)
  end.

(** ** Lines *)

Definition beginning_of_line (s : TextArea) (pos : Z) : option Z :=
  before ← slice_to (text s) pos;
  Some (match str_rfind is_lf before with Some i => i + 1 | None => 0 end).

Definition beginning_of_current_line (s : TextArea) : option Z :=
  beginning_of_line s (cursor_pos s).

Definition end_of_line (s : TextArea) (pos : Z) : option Z :=
  after ← slice_from (text s) pos;
  Some (match str_find is_lf after with Some i => i + pos | None => slen (text s) end).

Definition end_of_current_line (s : TextArea) : option Z := end_of_line s (cursor_pos s).

Definition first_non_blank_of_current_line (s : TextArea) : option Z :=
  bol ← beginning_of_current_line s;
  eol ← end_of_current_line s;
  line ← slice_range (text s) bol eol;
  Some (match List.find (λ ic, not_whitespace ic.2) (char_indices line) with
        | Some (offset, _) => bol + offset
        | None => eol
        end).

Definition current_line_range_with_newline (s : TextArea) : option Range.t :=
  bol ← beginning_of_current_line s;
  eol ← end_of_current_line s;
  Some (Range.mk bol (if (eol <? slen (text s)) then eol + 1 else eol)).

Section Segmented.
Context `{UnicodeText}.

(** ** Movement by graphemes and elements *)

Definition prev_atomic_boundary (s : TextArea) (pos : Z) : Z :=
  if (pos =? 0) then 0
  else
    match List.find (λ e, (Range.start (TextElement.range e) <? pos)
                          && (pos <=? Range.end_ (TextElement.range e))) (elements s) with
    | Some e => Range.start (TextElement.range e)
    | None =>
        match prev_boundary (text s) pos with
        | Ok (Some b) =>
            match find_element_containing s b with
            | Some e => Range.start (TextElement.range e)
            | None => b
            end
        | Ok None => 0
        | Err _ => usat_sub pos 1
        end
    end.

Definition next_atomic_boundary (s : TextArea) (pos : Z) : Z :=
  if (slen (text s) <=? pos) then slen (text s)
  else
    match List.find (λ e, (Range.start (TextElement.range e) <=? pos)
                          && (pos <? Range.end_ (TextElement.range e))) (elements s) with
    | Some e => Range.end_ (TextElement.range e)
    | None =>
        match next_boundary (text s) pos with
        | Ok (Some b) =>
            match find_element_containing s b with
            | Some e => Range.end_ (TextElement.range e)
            | None => b
            end
        | Ok None => slen (text s)
        | Err _ => usat_add pos 1
        end
    end.

Definition vim_normal_end_cursor (s : TextArea) : Z :=
  if bool_decide (text s = []) then 0 else prev_atomic_boundary s (slen (text s)).

Definition move_cursor_left (s : TextArea) : TextArea :=
  with_preferred_col None (with_cursor_pos (prev_atomic_boundary s (cursor_pos s)) s).

Definition move_cursor_right (s : TextArea) : TextArea :=
  with_preferred_col None (with_cursor_pos (next_atomic_boundary s (cursor_pos s)) s).

(** ** Movement by lines *)

Definition current_display_col (s : TextArea) : option Z :=
  bol ← beginning_of_current_line s;
  before ← slice_range (text s) bol (cursor_pos s);
  Some (display_width before).

Definition wrapped_line_index_by_start (lines : list Range.t) (pos : Z) : option nat :=
  match partition_point (λ r, Range.start r <=? pos) lines with
  | O => None
  | S idx => Some idx
  end.

(** The offset of the grapheme that crosses the column. *)
Fixpoint crossing_grapheme (width_so_far target_col : Z) (gs : list (Z * str)) : option Z :=
  match gs with
  | [] => None
  | (i, g) :: gs' =>
      let width_so_far := width_so_far + display_width g in
      if (target_col <? width_so_far) then Some i
      else crossing_grapheme width_so_far target_col gs'
  end.

Definition move_to_display_col_on_line (s : TextArea) (line_start line_end target_col : Z)
    : option TextArea :=
  line ← slice_range (text s) line_start line_end;
  let pos := match crossing_grapheme 0 target_col (grapheme_indices line) with
             | Some i => line_start + i
             | None => line_end
             end in
  let s := with_cursor_pos pos s in
  Some (with_cursor_pos (clamp_pos_to_nearest_boundary s (cursor_pos s)) s).

(** The column a vertical movement keeps to, within the visual line [cur_range]. *)
Definition visual_target_col (s : TextArea) (cur_range : Range.t) : option Z :=
  match preferred_col s with
  | Some c => Some c
  | None =>
      before ← slice_range (text s) (Range.start cur_range) (cursor_pos s);
      Some (display_width before)
  end.

(** The block of [move_cursor_up] that reads the cache: the column, and the bounds of the
    visual line above. *)
Definition visual_line_above (s : TextArea) : option (option (Z * option (Z * Z))) :=
  match wrap_cache s with
  | None => Some None
  | Some cache =>
      let lines := WrapCache.lines cache in
      match wrapped_line_index_by_start lines (cursor_pos s) with
      | None => Some None
      | Some idx =>
          cur_range ← lines !! idx;
          target_col ← visual_target_col s cur_range;
          match idx with
          | O => Some (Some (target_col, None))
          | S idx' =>
              prev ← lines !! idx';
              let line_start := Range.start prev in
              let line_end := usat_sub (Range.end_ prev) 1 in
              let line_end := if (line_end =? Range.start cur_range)
                              then Z.max (prev_atomic_boundary s line_end) line_start
                              else line_end in
              Some (Some (target_col, Some (line_start, line_end)))
          end
      end
  end.

(** The same for [move_cursor_down]. *)
Definition visual_line_below (s : TextArea) : option (option (Z * option (Z * Z))) :=
  match wrap_cache s with
  | None => Some None
  | Some cache =>
      let lines := WrapCache.lines cache in
      match wrapped_line_index_by_start lines (cursor_pos s) with
      | None => Some None
      | Some idx =>
          cur_range ← lines !! idx;
          target_col ← visual_target_col s cur_range;
          match lines !! S idx with
          | None => Some (Some (target_col, None))
          | Some next =>
              let line_start := Range.start next in
              let line_end := usat_sub (Range.end_ next) 1 in
              let line_end := match lines !! S (S idx) with
                              | Some following =>
                                  if (Range.start following =? line_end)
                                  then Z.max (prev_atomic_boundary s line_end) line_start
                                  else line_end
                              | None => line_end
                              end in
              Some (Some (target_col, Some (line_start, line_end)))
          end
      end
  end.

(** [preferred_col] becomes the column unless it is set. *)
Definition keep_preferred_col (s : TextArea) (target_col : Z) : TextArea :=
  match preferred_col s with
  | None => with_preferred_col (Some target_col) s
  | Some _ => s
  end.

(** The column of a movement by logical lines. *)
Definition logical_target_col (s : TextArea) : option (Z * TextArea) :=
  match preferred_col s with
  | Some c => Some (c, s)
  | None => c ← current_display_col s; Some (c, with_preferred_col (Some c) s)
  end.

Definition move_cursor_up (s : TextArea) : option TextArea :=
  visual ← visual_line_above s;
  match visual with
  | Some (target_col, Some (line_start, line_end)) =>
      move_to_display_col_on_line (keep_preferred_col s target_col) line_start line_end target_col
  | Some (_, None) => Some (with_preferred_col None (with_cursor_pos 0 s))
  | None =>
      before ← slice_to (text s) (cursor_pos s);
      match str_rfind is_lf before with
      | Some prev_nl =>
          '(target_col, s) ← logical_target_col s;
          before_nl ← slice_to (text s) prev_nl;
          let prev_line_start :=
            match str_rfind is_lf before_nl with Some i => i + 1 | None => 0 end in
          move_to_display_col_on_line s prev_line_start prev_nl target_col
      | None => Some (with_preferred_col None (with_cursor_pos 0 s))
      end
  end.

Definition move_cursor_down (s : TextArea) : option TextArea :=
  visual ← visual_line_below s;
  match visual with
  | Some (target_col, Some (line_start, line_end)) =>
      move_to_display_col_on_line (keep_preferred_col s target_col) line_start line_end target_col
  | Some (_, None) => Some (with_preferred_col None (with_cursor_pos (slen (text s)) s))
  | None =>
      '(target_col, s) ← logical_target_col s;
      after ← slice_from (text s) (cursor_pos s);
      match str_find is_lf after with
      | Some i =>
          let next_line_start := i + cursor_pos s + 1 in
          next_line ← slice_from (text s) next_line_start;
          let next_line_end := match str_find is_lf next_line with
                               | Some i => i + next_line_start
                               | None => slen (text s)
                               end in
          move_to_display_col_on_line s next_line_start next_line_end target_col
      | None => Some (with_preferred_col None (with_cursor_pos (slen (text s)) s))
      end
  end.

Definition move_cursor_to_beginning_of_line (s : TextArea) (move_up_at_bol : bool)
    : option TextArea :=
  bol ← beginning_of_current_line s;
  s ← (if move_up_at_bol && (cursor_pos s =? bol)
       then pos ← beginning_of_line s (usat_sub (cursor_pos s) 1); Some (set_cursor s pos)
       else Some (set_cursor s bol));
  Some (with_preferred_col None s).

(** No text is longer than [isize::MAX] bytes, so that the addition does not saturate. *)
Definition move_cursor_to_end_of_line (s : TextArea) (move_down_at_eol : bool)
    : option TextArea :=
  eol ← end_of_current_line s;
  if move_down_at_eol && (cursor_pos s =? eol)
  then
    let next_pos := Z.min (cursor_pos s + 1) (slen (text s)) in
    pos ← end_of_line s next_pos;
    Some (set_cursor s pos)
  else Some (set_cursor s eol).

(** ** Words *)

Definition all_separators (piece : str) : bool := forallb is_word_separator piece.

(** The loop of [beginning_of_previous_word] over the pieces before a separator. *)
Fixpoint skip_separators_back (run_start : Z) (pieces : list (Z * str)) (start : Z) : Z :=
  match pieces with
  | (idx, piece) :: pieces' =>
      if all_separators piece then skip_separators_back run_start pieces' (run_start + idx)
      else start
  | [] => start
  end.

(** The loop of [end_of_next_word_from] over the pieces after a separator. *)
Fixpoint skip_separators (base : Z) (pieces : list (Z * str)) (end_ : Z) : Z :=
  match pieces with
  | (idx, piece) :: pieces' =>
      if all_separators piece then skip_separators base pieces' (base + idx + slen piece)
      else end_
  | [] => end_
  end.

Definition beginning_of_previous_word (s : TextArea) : option Z :=
  prefix ← slice_to (text s) (cursor_pos s);
  match List.find (λ ic, not_whitespace ic.2) (rev (char_indices prefix)) with
  | None => Some 0
  | Some (first_non_ws_idx, ch) =>
      before ← slice_to prefix first_non_ws_idx;
      let run_start := match List.find (λ ic, is_whitespace ic.2) (rev (char_indices before)) with
                       | Some (idx, ch) => idx + Z.of_nat (len_utf8 ch)
                       | None => 0
                       end in
      let run_end := first_non_ws_idx + Z.of_nat (len_utf8 ch) in
      run ← slice_range prefix run_start run_end;
      pieces ← split_word_pieces run;
      match rev pieces with
      | [] => Some run_start
      | (piece_start, piece) :: pieces' =>
          let start := run_start + piece_start in
          let start := if all_separators piece
                       then skip_separators_back run_start pieces' start else start in
          Some (adjust_pos_out_of_elements s start true)
      end
  end.

Definition end_of_next_word_from (s : TextArea) (from : Z) : option Z :=
  suffix ← slice_from (text s) from;
  match str_find not_whitespace suffix with
  | None => Some (slen (text s))
  | Some first_non_ws =>
      run ← slice_from suffix first_non_ws;
      run ← slice_to run (default (slen run) (str_find is_whitespace run));
      pieces ← split_word_pieces run;
      match pieces with
      | [] => Some (from + first_non_ws)
      | (start, piece) :: pieces' =>
          let word_start := from + first_non_ws + start in
          let end_ := word_start + slen piece in
          let end_ := if all_separators piece
                      then skip_separators (from + first_non_ws) pieces' end_ else end_ in
          Some (adjust_pos_out_of_elements s end_ false)
      end
  end.

Definition end_of_next_word (s : TextArea) : option Z := end_of_next_word_from s (cursor_pos s).

Definition vim_word_end_exclusive (s : TextArea) : option Z :=
  end_ ← end_of_next_word s;
  let target := if (cursor_pos s <? end_) then prev_atomic_boundary s end_ else end_ in
  if (target =? cursor_pos s) && (end_ <? slen (text s)) then end_of_next_word_from s end_
  else Some end_.

Definition vim_word_end_cursor (s : TextArea) : option Z :=
  end_ ← vim_word_end_exclusive s;
  Some (if (cursor_pos s <? end_) then prev_atomic_boundary s end_ else end_).

Definition vim_line_end_cursor (s : TextArea) : option Z :=
  bol ← beginning_of_current_line s;
  eol ← end_of_current_line s;
  Some (if (bol <? eol) then Z.max (prev_atomic_boundary s eol) bol else eol).

Definition beginning_of_next_word (s : TextArea) : option Z :=
  suffix ← slice_from (text s) (cursor_pos s);
  match str_find not_whitespace suffix with
  | None => Some (slen (text s))
  | Some first_non_ws =>
      let word_start := cursor_pos s + first_non_ws in
      if negb (word_start =? cursor_pos s)
      then Some (adjust_pos_out_of_elements s word_start true)
      else
        end_ ← end_of_next_word s;
        if (slen (text s) <=? end_) then Some (slen (text s))
        else
          rest ← slice_from (text s) end_;
          match str_find not_whitespace rest with
          | None => Some (slen (text s))
          | Some next_non_ws => Some (adjust_pos_out_of_elements s (end_ + next_non_ws) true)
          end
  end.

(** ** Deleting, killing and yanking *)

(** The loops of the [delete] operations. *)
Fixpoint step_back (s : TextArea) (n : nat) (target : Z) : Z :=
  match n with
  | O => target
  | S n' =>
      let target := prev_atomic_boundary s target in
      if (target =? 0) then target else step_back s n' target
  end.

Fixpoint step_forward (s : TextArea) (n : nat) (target : Z) : Z :=
  match n with
  | O => target
  | S n' =>
      let target := next_atomic_boundary s target in
      if (slen (text s) <=? target) then target else step_forward s n' target
  end.

Definition delete_backward (s : TextArea) (n : nat) : option TextArea :=
  if (n =? 0)%nat || (cursor_pos s =? 0) then Some s
  else replace_range s (Range.mk (step_back s n (cursor_pos s)) (cursor_pos s)) [].

Definition delete_forward (s : TextArea) (n : nat) : option TextArea :=
  if (n =? 0)%nat || (slen (text s) <=? cursor_pos s) then Some s
  else replace_range s (Range.mk (cursor_pos s) (step_forward s n (cursor_pos s))) [].

Definition store_kill_buffer (s : TextArea) (killed : str) (kind : KillBufferKind) : TextArea :=
  with_kill_buffer_kind kind (with_kill_buffer killed s).

Definition kill_range_with_kind (s : TextArea) (range : Range.t) (kind : KillBufferKind)
    : option TextArea :=
  let range := expand_range_to_element_boundaries s range in
  if (Range.end_ range <=? Range.start range) then Some s
  else
    removed ← slice_range (text s) (Range.start range) (Range.end_ range);
    if bool_decide (removed = []) then Some s
    else replace_range_raw (store_kill_buffer s removed kind) range [].

Definition kill_range (s : TextArea) (range : Range.t) : option TextArea :=
  kill_range_with_kind s range Characterwise.

Definition kill_line_range (s : TextArea) (range : Range.t) : option TextArea :=
  kill_range_with_kind s range Linewise.

Definition yank_range_with_kind (s : TextArea) (range : Range.t) (kind : KillBufferKind)
    : option TextArea :=
  let range := expand_range_to_element_boundaries s range in
  if (Range.end_ range <=? Range.start range) then Some s
  else
    removed ← slice_range (text s) (Range.start range) (Range.end_ range);
    if bool_decide (removed = []) then Some s else Some (store_kill_buffer s removed kind).

Definition yank_range (s : TextArea) (range : Range.t) : option TextArea :=
  yank_range_with_kind s range Characterwise.

Definition yank_line_range (s : TextArea) (range : Range.t) : option TextArea :=
  yank_range_with_kind s range Linewise.

Definition delete_forward_kill (s : TextArea) (n : nat) : option TextArea :=
  if (n =? 0)%nat || (slen (text s) <=? cursor_pos s) then Some s
  else kill_range s (Range.mk (cursor_pos s) (step_forward s n (cursor_pos s))).

Definition delete_backward_word (s : TextArea) : option TextArea :=
  start ← beginning_of_previous_word s;
  kill_range s (Range.mk start (cursor_pos s)).

Definition delete_forward_word (s : TextArea) : option TextArea :=
  end_ ← end_of_next_word s;
  if (cursor_pos s <? end_) then kill_range s (Range.mk (cursor_pos s) end_) else Some s.

Definition kill_to_end_of_line (s : TextArea) : option TextArea :=
  eol ← end_of_current_line s;
  let range := if (cursor_pos s =? eol)
               then if (eol <? slen (text s)) then Some (Range.mk (cursor_pos s) (eol + 1)) else None
               else Some (Range.mk (cursor_pos s) eol) in
  match range with Some range => kill_range s range | None => Some s end.

Definition vim_kill_to_end_of_line (s : TextArea) : option TextArea :=
  eol ← end_of_current_line s;
  if (cursor_pos s <? eol) then kill_range s (Range.mk (cursor_pos s) eol) else Some s.

Definition kill_to_beginning_of_line (s : TextArea) : option TextArea :=
  bol ← beginning_of_current_line s;
  let range := if (cursor_pos s =? bol)
               then if (0 <? bol) then Some (Range.mk (bol - 1) bol) else None
               else Some (Range.mk bol (cursor_pos s)) in
  match range with Some range => kill_range s range | None => Some s end.

Definition yank (s : TextArea) : option TextArea :=
  if bool_decide (kill_buffer s = []) then Some s else insert_str s (kill_buffer s).

Definition paste_line_after_current_line (s : TextArea) : option TextArea :=
  eol ← end_of_current_line s;
  let insert_at := if (eol <? slen (text s)) then eol + 1 else eol in
  let cursor := if (eol <? slen (text s)) then insert_at else insert_at + 1 in
  let pasted := if (eol <? slen (text s)) then
                  if ends_with [LF] (kill_buffer s) then kill_buffer s
                  else kill_buffer s ++ [LF]
                else [LF] ++ trim_end_matches is_lf (kill_buffer s) in
  s ← insert_str_at s insert_at pasted;
  Some (set_cursor s (Z.min cursor (slen (text s)))).

Definition paste_after_cursor (s : TextArea) : option TextArea :=
  if bool_decide (kill_buffer s = []) then Some s
  else
    match kill_buffer_kind s with
    | Linewise => paste_line_after_current_line s
    | Characterwise =>
        let insert_at := next_atomic_boundary s (cursor_pos s) in
        let s := set_cursor s insert_at in
        insert_str s (kill_buffer s)
    end.

Definition yank_current_line (s : TextArea) : option TextArea :=
  range ← current_line_range_with_newline s;
  yank_line_range s range.

Definition kill_current_line (s : TextArea) : option TextArea :=
  range ← current_line_range_with_newline s;
  kill_line_range s range.

End Segmented.
