(* ===== verification/TextAreaInput.v ===== *)
(** * Key input of the text area: [tui/src/bottom_pane/textarea.rs] and [textarea/vim.rs]

    The handlers of key events: the plain editor keymap, the two modes of the Vim keymap,
    its operators, motions and text objects. *)

From Stdlib Require Import String ZArith NArith.
From stdpp Require Import base option list numbers.
From S2P Require Import Prelude StrBytes Keymap TextArea.

Local Open Scope Z_scope.

#[global] Instance VimOperator_eq_dec : EqDecision VimOperator.
Proof. solve_decision. Defined.

Module VimMotion.
Inductive t : Type :=
| Left | Right | Up | Down | WordForward | WordBackward | WordEnd | LineStart | LineEnd.
End VimMotion.

Module VimTextObject.
Inductive t : Type :=
| Word | BigWord | Parentheses | Brackets | Braces | DoubleQuote | SingleQuote | Backtick.
End VimTextObject.

(** ** Modes *)

Definition set_vim_enabled (s : TextArea) (enabled : bool) : TextArea :=
  with_vim_mode (if enabled then Normal else Insert)
    (with_vim_pending VimPending.None (with_vim_enabled enabled s)).

Definition enter_vim_insert_mode (s : TextArea) : TextArea :=
  if vim_enabled s then with_vim_pending VimPending.None (with_vim_mode Insert s) else s.

Definition enter_vim_normal_mode (s : TextArea) : TextArea :=
  if vim_enabled s
  then with_preferred_col None (with_vim_pending VimPending.None (with_vim_mode Normal s))
  else s.

Definition is_insert (m : VimMode) : bool := match m with Insert => true | Normal => false end.

Definition is_vim_normal_mode (s : TextArea) : bool := vim_enabled s && negb (is_insert (vim_mode s)).

Definition is_vim_operator_pending (s : TextArea) : bool :=
  match vim_pending s with VimPending.None => false | _ => true end.

Definition keymap_context (s : TextArea) : KeymapContext.t :=
  if negb (vim_enabled s) || is_insert (vim_mode s) then KeymapContext.Editor
  else match vim_pending s with
       | VimPending.None => KeymapContext.VimNormal
       | VimPending.Operator _ => KeymapContext.VimOperator
       | VimPending.TextObject _ _ => KeymapContext.VimTextObject
       end.

Definition allows_paste_burst (s : TextArea) : bool := negb (vim_enabled s) || is_insert (vim_mode s).

Definition uses_vim_insert_cursor (s : TextArea) : bool := vim_enabled s && is_insert (vim_mode s).

Definition press_or_repeat (event : KeyEvent.t) : bool :=
  match KeyEvent.kind event with
  | KeyEventKind.Press | KeyEventKind.Repeat => true
  | KeyEventKind.Release => false
  end.

Definition should_handle_vim_insert_escape (s : TextArea) (event : KeyEvent.t) : bool :=
  vim_enabled s && is_insert (vim_mode s) && bool_decide (KeyEvent.code event = KeyCode.Esc)
  && (KeyEvent.modifiers event =? KeyModifiers.NONE)%N && press_or_repeat event.

Definition vim_mode_label (s : TextArea) : option str :=
  if negb (vim_enabled s) then None
  else Some (match vim_mode s with Normal => lit "Normal" | Insert => lit "Insert" end).

(** ** Text objects *)

Definition cursor_overlaps_range (s : TextArea) (range : Range.t) : bool :=
  (Range.start range <=? cursor_pos s) && (cursor_pos s <? Range.end_ range).

Definition cursor_is_at_range_end (s : TextArea) (range : Range.t) : bool :=
  (Range.start range <? Range.end_ range) && (cursor_pos s =? Range.end_ range).

(** The loop of [non_ws_runs]; [start] is the start of an open run. *)
Fixpoint non_ws_loop (len : Z) (chars : list (Z * char)) (start : option Z) : list Range.t :=
  match chars with
  | [] => match start with Some run_start => [Range.mk run_start len] | None => [] end
  | (idx, ch) :: chars' =>
      if is_whitespace ch then
        match start with
        | Some run_start => Range.mk run_start idx :: non_ws_loop len chars' None
        | None => non_ws_loop len chars' None
        end
      else
        match start with
        | None => non_ws_loop len chars' (Some idx)
        | Some _ => non_ws_loop len chars' start
        end
  end.

Definition non_ws_runs (s : TextArea) : list Range.t :=
  non_ws_loop (slen (text s)) (char_indices (text s)) None.

Definition big_word_range_at_cursor (s : TextArea) : option Range.t :=
  List.find (λ range, cursor_overlaps_range s range || cursor_is_at_range_end s range)
    (non_ws_runs s).

(** The loop over the pieces of a run: the piece under the cursor, or the last one. *)
Fixpoint piece_at_cursor (s : TextArea) (run_start : Z) (pieces : list (Z * str))
    (last_piece : option Range.t) : Range.t + option Range.t :=
  match pieces with
  | [] => inr last_piece
  | (piece_start, piece) :: pieces' =>
      let piece := Range.mk (run_start + piece_start) (run_start + piece_start + slen piece) in
      if cursor_overlaps_range s piece then inl piece
      else piece_at_cursor s run_start pieces' (Some piece)
  end.

(** The loops over the whitespace after and before a word. *)
Fixpoint whitespace_end (start : Z) (chars : list (Z * char)) (end_ : Z) : Z :=
  match chars with
  | (offset, ch) :: chars' =>
      if is_whitespace ch
      then whitespace_end start chars' (start + offset + Z.of_nat (len_utf8 ch)) else end_
  | [] => end_
  end.

Fixpoint whitespace_start (chars : list (Z * char)) (start : Z) : Z :=
  match chars with
  | (idx, ch) :: chars' => if is_whitespace ch then whitespace_start chars' idx else start
  | [] => start
  end.

Definition following_whitespace_end (s : TextArea) (start : Z) : option Z :=
  after ← slice_from (text s) start;
  Some (whitespace_end start (char_indices after) start).

Definition preceding_whitespace_start (s : TextArea) (end_ : Z) : option Z :=
  before ← slice_to (text s) end_;
  Some (whitespace_start (rev (char_indices before)) end_).

Definition expand_word_around (s : TextArea) (inner : Range.t) : option Range.t :=
  following ← following_whitespace_end s (Range.end_ inner);
  if (Range.end_ inner <? following) then Some (Range.mk (Range.start inner) following)
  else
    start ← preceding_whitespace_start s (Range.start inner);
    Some (Range.mk start (Range.end_ inner)).

Definition is_inside_element (s : TextArea) (pos : Z) : bool :=
  existsb (λ e, (Range.start (TextElement.range e) <=? pos)
                && (pos <? Range.end_ (TextElement.range e))) (elements s).

(** [Range::len]. *)
Definition range_len (r : Range.t) : Z := usat_sub (Range.end_ r) (Range.start r).

(** The candidate replaces the best range so far when it is shorter. *)
Definition shorter_range (candidate : Range.t) (best : option Range.t) : option Range.t :=
  if (Range.start candidate <=? Range.end_ candidate)
     && match best with
        | None => true
        | Some current => (range_len candidate <? range_len current)
        end
  then Some candidate else best.

Fixpoint paired_loop (s : TextArea) (scope : VimTextObjectScope) (open close : char)
    (chars : list (Z * char)) (stack : list Z) (best : option Range.t) : option Range.t :=
  match chars with
  | [] => best
  | (idx, ch) :: chars' =>
      if is_inside_element s idx then paired_loop s scope open close chars' stack best
      else if (ch =? open)%N then paired_loop s scope open close chars' (idx :: stack) best
      else if (ch =? close)%N then
        match stack with
        | [] => paired_loop s scope open close chars' stack best
        | open_idx :: stack' =>
            let close_end := idx + Z.of_nat (len_utf8 ch) in
            let best :=
              if (open_idx <=? cursor_pos s) && (cursor_pos s <=? idx) then
                shorter_range (match scope with
                        | Inner => Range.mk (open_idx + Z.of_nat (len_utf8 open)) idx
                        | Around => Range.mk open_idx close_end
                        end) best
              else best in
            paired_loop s scope open close chars' stack' best
        end
      else paired_loop s scope open close chars' stack best
  end.

Definition paired_text_object_range (s : TextArea) (scope : VimTextObjectScope)
    (open close : char) : option Range.t :=
  paired_loop s scope open close (char_indices (text s)) [] None.

(** The backslashes at the end of a text. *)
Fixpoint count_backslashes (chars : list char) : nat :=
  match chars with
  | ch :: chars' => if (ch =? 92)%N then S (count_backslashes chars') else O
  | [] => O
  end.

Definition is_escaped (s : TextArea) (pos : Z) : option bool :=
  before ← slice_to (text s) pos;
  Some (Nat.odd (count_backslashes (rev before))).

Definition idx_range (open_idx close_idx : Z) (quote : char) : Range.t :=
  Range.mk open_idx (close_idx + Z.of_nat (len_utf8 quote)).

Fixpoint quoted_loop (s : TextArea) (scope : VimTextObjectScope) (quote : char) (line_start : Z)
    (chars : list (Z * char)) (open : option Z) (best : option Range.t)
    : option (option Range.t) :=
  match chars with
  | [] => Some best
  | (offset, ch) :: chars' =>
      let idx := line_start + offset in
      if is_inside_element s idx || negb (ch =? quote)%N
      then quoted_loop s scope quote line_start chars' open best
      else
        escaped ← is_escaped s idx;
        if (escaped : bool) then quoted_loop s scope quote line_start chars' open best
        else
          match open with
          | Some open_idx =>
              let best :=
                if (open_idx <=? cursor_pos s) && (cursor_pos s <=? idx) then
                  shorter_range (match scope with
                          | Inner => Range.mk (open_idx + Z.of_nat (len_utf8 quote)) idx
                          | Around => idx_range open_idx idx quote
                          end) best
                else best in
              quoted_loop s scope quote line_start chars' None best
          | None => quoted_loop s scope quote line_start chars' (Some idx) best
          end
  end.

Definition quoted_text_object_range (s : TextArea) (scope : VimTextObjectScope) (quote : char)
    : option (option Range.t) :=
  line_start ← beginning_of_current_line s;
  line_end ← end_of_current_line s;
  line ← slice_range (text s) line_start line_end;
  quoted_loop s scope quote line_start (char_indices line) None None.

Section Segmented.
Context `{UnicodeText}.

(** The runs are visited in order; the first one at the cursor decides. *)
Definition small_word_range_at_cursor (s : TextArea) : option (option Range.t) :=
  match List.find (λ run, cursor_overlaps_range s run || cursor_is_at_range_end s run)
          (non_ws_runs s) with
  | None => Some None
  | Some run =>
      run_text ← slice_range (text s) (Range.start run) (Range.end_ run);
      pieces ← split_word_pieces run_text;
      Some (match piece_at_cursor s (Range.start run) pieces None with
            | inl piece => Some piece
            | inr last_piece =>
                if cursor_is_at_range_end s run
                then match last_piece with Some p => Some p | None => Some run end
                else Some run
            end)
  end.

Definition word_text_object_range (s : TextArea) (scope : VimTextObjectScope) (big_word : bool)
    : option (option Range.t) :=
  inner ← (if big_word then Some (big_word_range_at_cursor s) else small_word_range_at_cursor s);
  match inner with
  | None => Some None
  | Some inner =>
      match scope with
      | Inner => Some (Some inner)
      | Around => around ← expand_word_around s inner; Some (Some around)
      end
  end.

Definition text_object_range (s : TextArea) (object : VimTextObject.t)
    (scope : VimTextObjectScope) : option (option Range.t) :=
  match object with
  | VimTextObject.Word => word_text_object_range s scope false
  | VimTextObject.BigWord => word_text_object_range s scope true
  | VimTextObject.Parentheses => Some (paired_text_object_range s scope 40%N 41%N)
  | VimTextObject.Brackets => Some (paired_text_object_range s scope 91%N 93%N)
  | VimTextObject.Braces => Some (paired_text_object_range s scope 123%N 125%N)
  | VimTextObject.DoubleQuote => quoted_text_object_range s scope 34%N
  | VimTextObject.SingleQuote => quoted_text_object_range s scope 39%N
  | VimTextObject.Backtick => quoted_text_object_range s scope 96%N
  end.

(** ** Keys *)

Definition vim_text_object_scope_for_event (s : TextArea) (event : KeyEvent.t)
    : option VimTextObjectScope :=
  let keymap := vim_operator_keymap s in
  if is_pressed (VimOperatorKeymap.select_inner_text_object keymap) event then Some Inner
  else if is_pressed (VimOperatorKeymap.select_around_text_object keymap) event then Some Around
  else None.

Definition vim_text_object_for_event (s : TextArea) (event : KeyEvent.t)
    : option VimTextObject.t :=
  let keymap := vim_text_object_keymap s in
  if is_pressed (VimTextObjectKeymap.word keymap) event then Some VimTextObject.Word
  else if is_pressed (VimTextObjectKeymap.big_word keymap) event then Some VimTextObject.BigWord
  else if is_pressed (VimTextObjectKeymap.parentheses keymap) event
  then Some VimTextObject.Parentheses
  else if is_pressed (VimTextObjectKeymap.brackets keymap) event then Some VimTextObject.Brackets
  else if is_pressed (VimTextObjectKeymap.braces keymap) event then Some VimTextObject.Braces
  else if is_pressed (VimTextObjectKeymap.double_quote keymap) event
  then Some VimTextObject.DoubleQuote
  else if is_pressed (VimTextObjectKeymap.single_quote keymap) event
  then Some VimTextObject.SingleQuote
  else if is_pressed (VimTextObjectKeymap.backtick keymap) event then Some VimTextObject.Backtick
  else None.

Definition vim_motion_for_event (s : TextArea) (event : KeyEvent.t) : option VimMotion.t :=
  let keymap := vim_operator_keymap s in
  if is_pressed (VimOperatorKeymap.motion_left keymap) event then Some VimMotion.Left
  else if is_pressed (VimOperatorKeymap.motion_right keymap) event then Some VimMotion.Right
  else if is_pressed (VimOperatorKeymap.motion_down keymap) event then Some VimMotion.Down
  else if is_pressed (VimOperatorKeymap.motion_up keymap) event then Some VimMotion.Up
  else if is_pressed (VimOperatorKeymap.motion_word_forward keymap) event
  then Some VimMotion.WordForward
  else if is_pressed (VimOperatorKeymap.motion_word_backward keymap) event
  then Some VimMotion.WordBackward
  else if is_pressed (VimOperatorKeymap.motion_word_end keymap) event then Some VimMotion.WordEnd
  else if is_pressed (VimOperatorKeymap.motion_line_start keymap) event
  then Some VimMotion.LineStart
  else if is_pressed (VimOperatorKeymap.motion_line_end keymap) event then Some VimMotion.LineEnd
  else None.

Definition linewise_range_for_vertical_motion (s : TextArea) (motion : VimMotion.t)
    : option (option Range.t) :=
  current ← current_line_range_with_newline s;
  range ← match motion with
          | VimMotion.Up =>
              start ← (if (Range.start current =? 0) then Some (Range.start current)
                       else beginning_of_line s (usat_sub (Range.start current) 1));
              Some (Some (Range.mk start (Range.end_ current)))
          | VimMotion.Down =>
              end_ ← (if (slen (text s) <=? Range.end_ current) then Some (Range.end_ current)
                      else
                        next_eol ← end_of_line s (Range.end_ current);
                        Some (if (next_eol <? slen (text s)) then next_eol + 1 else next_eol));
              Some (Some (Range.mk (Range.start current) end_))
          | _ => Some None
          end;
  Some (match range with
        | Some range => if (Range.start range <? Range.end_ range) then Some range else None
        | None => None
        end).

(** The cursor after the motion; the motion is undone. *)
Definition target_for_motion (s : TextArea) (motion : VimMotion.t) : option (Z * TextArea) :=
  let original_cursor := cursor_pos s in
  let original_preferred := preferred_col s in
  s ← match motion with
      | VimMotion.Left => Some (move_cursor_left s)
      | VimMotion.Right => Some (move_cursor_right s)
      | VimMotion.Up => move_cursor_up s
      | VimMotion.Down => move_cursor_down s
      | VimMotion.WordForward => set_cursor s <$> beginning_of_next_word s
      | VimMotion.WordBackward => set_cursor s <$> beginning_of_previous_word s
      | VimMotion.WordEnd => set_cursor s <$> vim_word_end_exclusive s
      | VimMotion.LineStart => set_cursor s <$> beginning_of_current_line s
      | VimMotion.LineEnd => set_cursor s <$> end_of_current_line s
      end;
  Some (cursor_pos s, with_preferred_col original_preferred (with_cursor_pos original_cursor s)).

Definition range_for_motion (s : TextArea) (motion : VimMotion.t)
    : option (option Range.t * TextArea) :=
  match motion with
  | VimMotion.Up | VimMotion.Down =>
      range ← linewise_range_for_vertical_motion s motion; Some (range, s)
  | _ =>
      let start := cursor_pos s in
      '(target, s) ← target_for_motion s motion;
      Some (if (start =? target) then None
            else if (target <? start) then Some (Range.mk target start)
            else Some (Range.mk start target), s)
  end.

Definition apply_vim_operator (s : TextArea) (op : VimOperator) (motion : VimMotion.t)
    : option TextArea :=
  '(range, s) ← range_for_motion s motion;
  match range with
  | None => Some s
  | Some range =>
      match op with
      | Delete => kill_range s range
      | Yank => yank_range s range
      | Change => Some s
      end
  end.

Definition apply_vim_operator_to_range (s : TextArea) (op : VimOperator) (range : Range.t)
    : option TextArea :=
  match op with
  | Delete => kill_range s range
  | Yank => yank_range s range
  | Change => s ← kill_range s range; Some (with_vim_mode Insert s)
  end.

(** Whether the key was handled is not looked at by the callers. *)
Definition handle_vim_operator (s : TextArea) (op : VimOperator) (event : KeyEvent.t)
    : option TextArea :=
  let keymap := vim_operator_keymap s in
  if bool_decide (op = Delete) && is_pressed (VimOperatorKeymap.delete_line keymap) event
  then kill_current_line s
  else if bool_decide (op = Yank) && is_pressed (VimOperatorKeymap.yank_line keymap) event
  then yank_current_line s
  else if is_pressed (VimOperatorKeymap.cancel keymap) event then Some s
  else
    match vim_text_object_scope_for_event s event with
    | Some scope => Some (with_vim_pending (VimPending.TextObject op scope) s)
    | None =>
        match (if bool_decide (op = Change) then None else vim_motion_for_event s event) with
        | Some motion => apply_vim_operator s op motion
        | None => Some s
        end
    end.

Definition handle_vim_text_object (s : TextArea) (op : VimOperator) (scope : VimTextObjectScope)
    (event : KeyEvent.t) : option TextArea :=
  if is_pressed (VimTextObjectKeymap.cancel (vim_text_object_keymap s)) event then Some s
  else
    match vim_text_object_for_event s event with
    | None => Some s
    | Some object =>
        range ← text_object_range s object scope;
        match range with
        | Some range => apply_vim_operator_to_range s op range
        | None => Some s
        end
    end.

(** The body of [handle_vim_normal] when no operator is pending. *)
Definition vim_normal_key (s : TextArea) (event : KeyEvent.t) : option TextArea :=
  let keymap := vim_normal_keymap s in
  if is_pressed (VimNormalKeymap.enter_insert keymap) event then Some (with_vim_mode Insert s)
  else if is_pressed (VimNormalKeymap.append_after_cursor keymap) event then
    Some (with_vim_mode Insert (set_cursor s (next_atomic_boundary s (cursor_pos s))))
  else if is_pressed (VimNormalKeymap.append_line_end keymap) event then
    eol ← end_of_current_line s; Some (with_vim_mode Insert (set_cursor s eol))
  else if is_pressed (VimNormalKeymap.insert_line_start keymap) event then
    pos ← first_non_blank_of_current_line s; Some (with_vim_mode Insert (set_cursor s pos))
  else if is_pressed (VimNormalKeymap.open_line_below keymap) event then
    eol ← end_of_current_line s;
    let old_len := slen (text s) in
    let insert_at := if (eol <? old_len) then eol + 1 else eol in
    s ← insert_str_at s insert_at [LF];
    let cursor := if (eol <? old_len) then insert_at else insert_at + 1 in
    Some (with_vim_mode Insert (set_cursor s cursor))
  else if is_pressed (VimNormalKeymap.open_line_above keymap) event then
    bol ← beginning_of_current_line s;
    s ← insert_str_at s bol [LF];
    Some (with_vim_mode Insert (set_cursor s bol))
  else if is_pressed (VimNormalKeymap.move_left keymap) event then Some (move_cursor_left s)
  else if is_pressed (VimNormalKeymap.move_right keymap) event then Some (move_cursor_right s)
  else if is_pressed (VimNormalKeymap.move_down keymap) event then move_cursor_down s
  else if is_pressed (VimNormalKeymap.move_up keymap) event then move_cursor_up s
  else if is_pressed (VimNormalKeymap.move_word_forward keymap) event then
    set_cursor s <$> beginning_of_next_word s
  else if is_pressed (VimNormalKeymap.move_word_backward keymap) event then
    set_cursor s <$> beginning_of_previous_word s
  else if is_pressed (VimNormalKeymap.move_word_end keymap) event then
    set_cursor s <$> vim_word_end_cursor s
  else if is_pressed (VimNormalKeymap.move_line_start keymap) event then
    set_cursor s <$> beginning_of_current_line s
  else if is_pressed (VimNormalKeymap.move_line_end keymap) event then
    set_cursor s <$> vim_line_end_cursor s
  else if is_pressed (VimNormalKeymap.delete_char keymap) event then delete_forward_kill s 1
  else if is_pressed (VimNormalKeymap.substitute_char keymap) event then
    eol ← end_of_current_line s;
    s ← (if (cursor_pos s <? eol) then delete_forward_kill s 1 else Some s);
    Some (with_vim_mode Insert s)
  else if is_pressed (VimNormalKeymap.delete_to_line_end keymap) event then
    vim_kill_to_end_of_line s
  else if is_pressed (VimNormalKeymap.change_to_line_end keymap) event then
    s ← vim_kill_to_end_of_line s; Some (with_vim_mode Insert s)
  else if is_pressed (VimNormalKeymap.yank_line keymap) event then yank_current_line s
  else if is_pressed (VimNormalKeymap.paste_after keymap) event then paste_after_cursor s
  else if is_pressed (VimNormalKeymap.start_delete_operator keymap) event then
    Some (with_vim_pending (VimPending.Operator Delete) s)
  else if is_pressed (VimNormalKeymap.start_yank_operator keymap) event then
    Some (with_vim_pending (VimPending.Operator Yank) s)
  else if is_pressed (VimNormalKeymap.start_change_operator keymap) event then
    Some (with_vim_pending (VimPending.Operator Change) s)
  else if is_pressed (VimNormalKeymap.cancel_operator keymap) event then
    Some (with_vim_pending VimPending.None s)
  else Some s.

Definition handle_vim_normal (s : TextArea) (event : KeyEvent.t) : option TextArea :=
  let pending := vim_pending s in
  let s := with_vim_pending VimPending.None s in
  match pending with
  | VimPending.None => vim_normal_key s event
  | VimPending.Operator op => handle_vim_operator s op event
  | VimPending.TextObject operator scope => handle_vim_text_object s operator scope event
  end.

(** Whether an event is the control key of a letter. *)
Definition is_control_key (event : KeyEvent.t) (c : char) : bool :=
  bool_decide (KeyEvent.code event = KeyCode.Char c)
  && (KeyEvent.modifiers event =? KeyModifiers.CONTROL)%N.

(** The character an AltGr key types. *)
Definition altgr_char (event : KeyEvent.t) : option char :=
  match KeyEvent.code event with
  | KeyCode.Char c => if is_altgr (KeyEvent.modifiers event) then Some c else None
  | _ => None
  end.

Definition input_with_keymap (s : TextArea) (event : KeyEvent.t) (keymap : EditorKeymap.t)
    : option TextArea :=
  if is_pressed (EditorKeymap.insert_newline keymap) event then insert_str s [LF]
  else if is_pressed (EditorKeymap.delete_backward_word keymap) event then delete_backward_word s
  else
    match altgr_char event with
    | Some c => insert_str s [c]
    | None =>
        if is_pressed (EditorKeymap.delete_backward keymap) event then delete_backward s 1
        else if is_pressed (EditorKeymap.delete_forward_word keymap) event
        then delete_forward_word s
        else if is_pressed (EditorKeymap.delete_forward keymap) event then delete_forward s 1
        else if is_pressed (EditorKeymap.kill_line_start keymap) event
        then kill_to_beginning_of_line s
        else if is_pressed (EditorKeymap.kill_whole_line keymap) event then kill_current_line s
        else if is_pressed (EditorKeymap.kill_line_end keymap) event then kill_to_end_of_line s
        else if is_pressed (EditorKeymap.yank keymap) event then yank s
        else if is_pressed (EditorKeymap.move_word_left keymap) event
        then set_cursor s <$> beginning_of_previous_word s
        else if is_pressed (EditorKeymap.move_word_right keymap) event
        then set_cursor s <$> end_of_next_word s
        else if is_pressed (EditorKeymap.move_left keymap) event then Some (move_cursor_left s)
        else if is_pressed (EditorKeymap.move_right keymap) event then Some (move_cursor_right s)
        else if is_pressed (EditorKeymap.move_up keymap) event then move_cursor_up s
        else if is_pressed (EditorKeymap.move_down keymap) event then move_cursor_down s
        else if is_pressed (EditorKeymap.move_line_start keymap) event
        then move_cursor_to_beginning_of_line s (is_control_key event 97%N)
        else if is_pressed (EditorKeymap.move_line_end keymap) event
        then move_cursor_to_end_of_line s (is_control_key event 101%N)
        else
          match KeyEvent.code event with
          | KeyCode.Char c =>
              if (KeyEvent.modifiers event =? KeyModifiers.NONE)%N
                 || (KeyEvent.modifiers event =? KeyModifiers.SHIFT)%N
              then if is_ascii_control c then Some s else insert_str s [c]
              else Some s
          | _ => Some s
          end
    end.

Definition handle_vim_insert (s : TextArea) (event : KeyEvent.t) : option TextArea :=
  if bool_decide (KeyEvent.code event = KeyCode.Esc) then
    bol ← beginning_of_current_line s;
    let s := if (bol <? cursor_pos s)
             then with_cursor_pos (Z.max (prev_atomic_boundary s (cursor_pos s)) bol) s else s in
    Some (enter_vim_normal_mode s)
  else input_with_keymap s event (editor_keymap s).

Definition handle_vim_input (s : TextArea) (event : KeyEvent.t) : option TextArea :=
  match vim_mode s with
  | Insert => handle_vim_insert s event
  | Normal => handle_vim_normal s event
  end.

Definition input (s : TextArea) (event : KeyEvent.t) : option TextArea :=
  if negb (press_or_repeat event) then Some s
  else if vim_enabled s then handle_vim_input s event
  else input_with_keymap s event (editor_keymap s).

End Segmented.
