(* ===== verification/TextAreaFacts.v ===== *)
(** * Boundaries, elements and edits of the text area

    The well-formedness of a text area, the two edits every operation is made of, and
    what they keep: positions on character boundaries, elements that do not overlap, and
    the text of every element that stays. *)

From Stdlib Require Import String ZArith NArith Lia Sorting.Sorted.
From stdpp Require Import base option list numbers.
From S2P Require Import Prelude StrBytes Keymap TextArea.

Local Open Scope Z_scope.

(** ** Character boundaries *)

Definition bd (s : str) (n : Z) : Prop := ∃ p q, s = p ++ q ∧ slen p = n.

Lemma bd_0 s : bd s 0.
Proof. by exists [], s. Qed.

Lemma bd_eq s n n' : bd s n → n = n' → bd s n'.
Proof. by intros ? <-. Qed.

Lemma bd_len s : bd s (slen s).
Proof. exists s, []. by rewrite app_nil_r. Qed.

Lemma bd_range s n : bd s n → 0 ≤ n ≤ slen s.
Proof. intros (p & q & -> & <-). slen_lia. Qed.

Lemma bd_app s t : bd (s ++ t) (slen s).
Proof. by exists s, t. Qed.

Lemma bd_app_l s t n : bd s n → bd (s ++ t) n.
Proof. intros (p & q & -> & <-). exists p, (q ++ t). by rewrite <- app_assoc. Qed.

Lemma bd_app_r s t n : bd t n → bd (s ++ t) (slen s + n).
Proof. intros (p & q & -> & <-). exists (s ++ p), q. by rewrite <- app_assoc, slen_app. Qed.

(** Two splits of a text. *)
Lemma split_le (p q a b : str) :
  p ++ q = a ++ b → slen p ≤ slen a → ∃ m, a = p ++ m ∧ q = m ++ b.
Proof.
  revert a. induction p as [|c p IH]; intros a Heq Hle; [by exists a|].
  destruct a as [|d a]; [slen_lia|]. injection Heq as -> Heq.
  destruct (IH a Heq) as (m & -> & ->); [slen_lia|]. by exists m.
Qed.

Lemma bd_app_l_inv s t n : bd (s ++ t) n → n ≤ slen s → bd s n.
Proof.
  intros (p & q & Heq & <-) Hle. symmetry in Heq.
  destruct (split_le _ _ _ _ Heq Hle) as (m & -> & _). apply bd_app.
Qed.

Lemma bd_app_r_inv s t n : bd (s ++ t) n → slen s ≤ n → bd t (n - slen s).
Proof.
  intros (p & q & Heq & <-) Hle.
  destruct (split_le _ _ _ _ Heq Hle) as (m & -> & ->).
  rewrite slen_app. replace (slen s + slen m - slen s) with (slen m) by lia. apply bd_app.
Qed.

Lemma bd_split s n : bd s n →
  ∃ p q, s = p ++ q ∧ slen p = n ∧ slice_to s n = Some p ∧ slice_from s n = Some q.
Proof.
  intros (p & q & -> & <-). exists p, q. by rewrite slice_to_app, slice_from_app.
Qed.

Lemma bd_split2 s a b : bd s a → bd s b → a ≤ b →
  ∃ p m q, s = p ++ m ++ q ∧ slen p = a ∧ slen p + slen m = b ∧ slice_range s a b = Some m.
Proof.
  intros (p & q & -> & <-) Hb Hle.
  destruct (bd_app_r_inv _ _ _ Hb Hle) as (m & r & -> & Hm).
  exists p, m, r. split_and!; [done|done|lia|]. apply slice_range_app; lia.
Qed.

Lemma is_char_boundary_true s n : is_char_boundary s n = true ↔ bd s n.
Proof.
  unfold is_char_boundary. split.
  - destruct (slice_from s n) eqn:Hs; [|done]. apply slice_from_Some in Hs as (p & -> & <-).
    intros _. apply bd_app.
  - intros (p & q & _ & _ & _ & ->)%bd_split. done.
Qed.

Create HintDb bd.
#[export] Hint Resolve bd_0 bd_len bd_app bd_app_l bd_app_r : bd.

(** The loops that look for a boundary find one. *)
Lemma char_boundary_before_bd fuel s n :
  0 ≤ n → (Z.to_nat n ≤ fuel)%nat →
  bd s (char_boundary_before fuel s n) ∧ char_boundary_before fuel s n ≤ n.
Proof.
  revert n. induction fuel as [|fuel IH]; intros n Hn Hf; cbn [char_boundary_before].
  - replace n with 0 by lia. split; [apply bd_0|lia].
  - destruct (Z.ltb_spec 0 n) as [Hp|Hp]; cbn [andb].
    + destruct (is_char_boundary s n) eqn:Hb; cbn [negb].
      * apply is_char_boundary_true in Hb. split; [done|lia].
      * destruct (IH (n - 1)) as [H1 H2]; [lia..|]. split; [done|lia].
    + replace n with 0 by lia. split; [apply bd_0|lia].
Qed.

Lemma char_boundary_after_bd fuel s n :
  n ≤ slen s → (Z.to_nat (slen s - n) ≤ fuel)%nat →
  bd s (char_boundary_after fuel s n) ∧ n ≤ char_boundary_after fuel s n.
Proof.
  revert n. induction fuel as [|fuel IH]; intros n Hn Hf; cbn [char_boundary_after].
  - replace n with (slen s) by lia. split; [apply bd_len|lia].
  - destruct (Z.ltb_spec n (slen s)) as [Hp|Hp]; cbn [andb].
    + destruct (is_char_boundary s n) eqn:Hb; cbn [negb].
      * apply is_char_boundary_true in Hb. split; [done|lia].
      * destruct (IH (n + 1)) as [H1 H2]; [lia..|]. split; [done|lia].
    + replace n with (slen s) by lia. split; [apply bd_len|lia].
Qed.

Lemma clamp_char_bd s pos : 0 ≤ pos → bd (text s) (clamp_pos_to_char_boundary s pos).
Proof.
  intros Hpos. unfold clamp_pos_to_char_boundary. pose proof (slen_nonneg (text s)).
  destruct (is_char_boundary (text s) (Z.min pos (slen (text s)))) eqn:Hb.
  - by apply is_char_boundary_true.
  - destruct (_ <=? _); [apply char_boundary_before_bd|apply char_boundary_after_bd]; lia.
Qed.

Lemma clamp_char_id s pos : bd (text s) pos → clamp_pos_to_char_boundary s pos = pos.
Proof.
  intros Hb. unfold clamp_pos_to_char_boundary. pose proof (bd_range _ _ Hb).
  rewrite Z.min_l by lia. by rewrite (proj2 (is_char_boundary_true _ _) Hb).
Qed.

(** ** Elements *)

Definition estart (e : TextElement.t) : Z := Range.start (TextElement.range e).
Definition eend (e : TextElement.t) : Z := Range.end_ (TextElement.range e).

(** An element lies on boundaries; two elements do not overlap and are in order. *)
Definition el_ok (t : str) (e : TextElement.t) : Prop :=
  bd t (estart e) ∧ bd t (eend e) ∧ estart e ≤ eend e.

Definition el_before (e f : TextElement.t) : Prop :=
  estart e ≤ estart f ∧ (eend e ≤ estart f ∨ eend f ≤ estart e).

Definition elements_ok (t : str) (es : list TextElement.t) : Prop :=
  Forall (el_ok t) es ∧ StronglySorted el_before es.

(** The same without the order. *)
Definition sep (e f : TextElement.t) : Prop := eend e ≤ estart f ∨ eend f ≤ estart e.

Definition spread (t : str) (es : list TextElement.t) : Prop :=
  Forall (el_ok t) es ∧ ForallOrdPairs sep es.

(** A position that is not inside an element. *)
Definition free (es : list TextElement.t) (pos : Z) : Prop :=
  ∀ e, e ∈ es → ¬ (estart e < pos < eend e).

(** A range that cuts no element. *)
Definition closed (es : list TextElement.t) (p q : Z) : Prop :=
  ∀ e, e ∈ es → eend e ≤ p ∨ q ≤ estart e ∨ (p ≤ estart e ∧ eend e ≤ q).

Lemma ord_pairs_elem {A} (R : A → A → Prop) l x y :
  ForallOrdPairs R l → x ∈ l → y ∈ l → x = y ∨ R x y ∨ R y x.
Proof.
  induction 1 as [|z l Hz Hs IH]; intros Hx Hy; [by apply elem_of_nil in Hx|].
  rewrite list.Forall_forall in Hz.
  apply elem_of_cons in Hx as [->|Hx]; apply elem_of_cons in Hy as [->|Hy]; auto.
Qed.

Lemma elements_spread t es : elements_ok t es → spread t es.
Proof.
  intros [Hok Hs]. split; [done|].
  induction Hs as [|e es Hs IH He]; [constructor|]. apply list.Forall_cons in Hok as [_ Hok].
  constructor; [|by apply IH]. apply (Forall_weaken _ _ _ He). by intros f [_ H].
Qed.

Lemma elem_ok t es e : elements_ok t es → e ∈ es → el_ok t e.
Proof. intros [H _] He. by apply (Forall_elem _ _ _ H). Qed.

Lemma edges_free_spread t es e :
  spread t es → e ∈ es → free es (estart e) ∧ free es (eend e).
Proof.
  intros [Hok Hs] He. pose proof (Forall_elem _ _ _ Hok He) as (_ & _ & Hle).
  split; intros f Hf; pose proof (Forall_elem _ _ _ Hok Hf) as (_ & _ & Hlf);
    destruct (ord_pairs_elem _ _ _ _ Hs He Hf) as [->|[[?|?]|[?|?]]]; lia.
Qed.

Lemma edges_free t es e : elements_ok t es → e ∈ es → free es (estart e) ∧ free es (eend e).
Proof. intros H. by apply (edges_free_spread t), elements_spread. Qed.

Lemma find_containing s pos :
  match find_element_containing s pos with
  | Some e => e ∈ elements s ∧ estart e < pos < eend e
  | None => free (elements s) pos
  end.
Proof.
  unfold find_element_containing. destruct (List.find _ _) as [e|] eqn:Hf.
  - apply find_some in Hf as [He Hb]. apply list_elem_of_In in He. split; [done|].
    unfold estart, eend. lia.
  - intros e He Hin. pose proof (find_none _ _ Hf e) as Hn. cbn in Hn.
    apply list_elem_of_In in He. specialize (Hn He). unfold estart, eend in Hin. lia.
Qed.

Lemma adjust_out s pos b :
  elements_ok (text s) (elements s) → bd (text s) pos →
  let r := adjust_pos_out_of_elements s pos b in
  bd (text s) r ∧ free (elements s) r ∧ (if b then r ≤ pos else pos ≤ r).
Proof.
  intros Hok Hb. cbv zeta. unfold adjust_pos_out_of_elements. pose proof (find_containing s pos) as Hf.
  destruct (find_element_containing s pos) as [e|].
  - destruct Hf as [He Hin]. destruct (edges_free _ _ _ Hok He).
    destruct (elem_ok _ _ _ Hok He) as (? & ? & ?).
    fold (estart e) (eend e). destruct b; split_and!; auto; lia.
  - split_and!; auto. destruct b; lia.
Qed.

(** ** Well-formed text areas *)

(** A visual line ends with a byte that stands for the insertion point. *)
Definition line_ok (t : str) (r : Range.t) : Prop :=
  bd t (Range.start r) ∧ bd t (Range.end_ r - 1) ∧ Range.start r ≤ Range.end_ r - 1.

Definition cache_ok (s : TextArea) : Prop :=
  ∀ c, wrap_cache s = Some c → Forall (line_ok (text s)) (WrapCache.lines c).

Record wf (s : TextArea) : Prop := {
  wf_cursor : bd (text s) (cursor_pos s);
  wf_elements : elements_ok (text s) (elements s);
  wf_cache : cache_ok s
}.

Lemma clamp_nearest_spread s pos :
  spread (text s) (elements s) → 0 ≤ pos →
  bd (text s) (clamp_pos_to_nearest_boundary s pos)
  ∧ free (elements s) (clamp_pos_to_nearest_boundary s pos).
Proof.
  intros Hok Hpos. unfold clamp_pos_to_nearest_boundary.
  pose proof (clamp_char_bd s pos Hpos) as Hb.
  pose proof (find_containing s (clamp_pos_to_char_boundary s pos)) as Hf.
  destruct (find_element_containing s _) as [e|]; [|done].
  destruct Hf as [He Hin]. destruct (edges_free_spread _ _ _ Hok He).
  destruct (Forall_elem _ _ _ (proj1 Hok) He) as (? & ? & ?). fold (estart e) (eend e).
  destruct (_ <=? _); by rewrite clamp_char_id.
Qed.

Lemma clamp_nearest_ok s pos :
  elements_ok (text s) (elements s) → 0 ≤ pos →
  bd (text s) (clamp_pos_to_nearest_boundary s pos)
  ∧ free (elements s) (clamp_pos_to_nearest_boundary s pos).
Proof. intros Hok. by apply clamp_nearest_spread, elements_spread. Qed.

Lemma clamp_nearest_id s pos :
  bd (text s) pos → free (elements s) pos → clamp_pos_to_nearest_boundary s pos = pos.
Proof.
  intros Hb Hfree. unfold clamp_pos_to_nearest_boundary. rewrite (clamp_char_id _ _ Hb).
  pose proof (find_containing s pos) as Hf.
  destruct (find_element_containing s pos) as [e|]; [|done].
  destruct Hf as [He Hin]. by destruct (Hfree e He).
Qed.

(** The texts of the elements, with their ids. *)
Definition payloads (t : str) (es : list TextElement.t) : list (Z * str) :=
  omap (λ e, (TextElement.id e,.) <$> str_get t (TextElement.range e)) es.

(** ** Replacing a closed range *)

Section Replace.
Variables (a m b t : str) (es : list TextElement.t).
Let p := slen a.
Let q := slen a + slen m.
Hypothesis Hok : elements_ok (a ++ m ++ b) es.
Hypothesis Hclosed : closed es p q.

Let keep (e : TextElement.t) : bool :=
  negb ((p <=? Range.start (TextElement.range e)) && (Range.end_ (TextElement.range e) <=? q)).
Let shift := shift_element p q (slen t) (slen t - slen m).

(** What is kept lies on one side of the range. *)
Lemma kept_side e : e ∈ es → keep e = true →
  (eend e ≤ p ∧ shift e = e ∧ ¬ (p ≤ estart e))
  ∨ (q ≤ estart e ∧ p < eend e
     ∧ shift e = TextElement.mk (TextElement.id e)
         (Range.mk (estart e + (slen t - slen m)) (eend e + (slen t - slen m)))).
Proof using Hok Hclosed.
  intros He Hk. destruct (elem_ok _ _ _ Hok He) as (_ & _ & Hle).
  specialize (Hclosed e He). subst keep. cbn beta in Hk. unfold estart, eend in *.
  pose proof (slen_nonneg m). pose proof (slen_nonneg t). subst p q.
  unfold shift, shift_element.
  destruct (Z.leb_spec (Range.end_ (TextElement.range e)) (slen a)).
  - left. split_and!; [lia|done|lia].
  - destruct (Z.leb_spec (slen a + slen m) (Range.start (TextElement.range e))); [|lia].
    right. split_and!; [lia|lia|done].
Qed.

Lemma shifted_ok e : e ∈ es → keep e = true → el_ok (a ++ t ++ b) (shift e).
Proof using Hok Hclosed.
  intros He Hk. destruct (elem_ok _ _ _ Hok He) as (Hs & Hn & Hle).
  destruct (kept_side e He Hk) as [(Hp & -> & _)|(Hq & _ & ->)].
  - split_and!; [| |done]; apply bd_app_l; eapply bd_app_l_inv; eauto; unfold p in *; lia.
  - unfold el_ok, estart, eend in *. cbn. rewrite !app_assoc in Hs, Hn.
    apply bd_app_r_inv in Hs; [|rewrite slen_app; unfold q in *; lia].
    apply bd_app_r_inv in Hn; [|rewrite slen_app; unfold q in *; lia].
    rewrite !app_assoc. split_and!; [| |lia];
      (eapply (bd_app_r (a ++ t)) in Hs, Hn; rewrite !slen_app in *).
    + eapply bd_eq; [exact Hs|lia].
    + eapply bd_eq; [exact Hn|lia].
Qed.

Lemma shifted_before e f : e ∈ es → f ∈ es → keep e = true → keep f = true →
  el_before e f → el_before (shift e) (shift f).
Proof using Hok Hclosed.
  intros He Hf Hke Hkf Hb. destruct (elem_ok _ _ _ Hok He) as (_ & _ & Hle).
  destruct (elem_ok _ _ _ Hok Hf) as (_ & _ & Hlf).
  pose proof (slen_nonneg m). pose proof (slen_nonneg t).
  destruct (kept_side e He Hke) as [(? & -> & ?)|(? & ? & ->)];
    destruct (kept_side f Hf Hkf) as [(? & -> & ?)|(? & ? & ->)];
    unfold el_before, estart, eend, p, q in *; cbn; lia.
Qed.

Lemma shifted_payload e : e ∈ es → keep e = true →
  str_get (a ++ t ++ b) (TextElement.range (shift e)) = str_get (a ++ m ++ b) (TextElement.range e).
Proof using Hok Hclosed.
  intros He Hk. destruct (elem_ok _ _ _ Hok He) as (Hs & Hn & Hle). unfold str_get.
  destruct (kept_side e He Hk) as [(Hp & -> & _)|(Hq & _ & ->)]; cbn.
  - fold (estart e) (eend e). rewrite (proj2 (Z.leb_le _ _) Hle).
    destruct (bd_split2 a (estart e) (eend e)) as (x & y & z & -> & Hx & Hy & _);
      [eapply bd_app_l_inv; eauto; unfold p in *; lia
      |eapply bd_app_l_inv; eauto; unfold p in *; lia|done|].
    rewrite <- !app_assoc. rewrite !(slice_range_app x y) by lia. done.
  - rewrite (proj2 (Z.leb_le _ _)) by lia. fold (estart e) (eend e).
    rewrite (proj2 (Z.leb_le _ _) Hle). rewrite !app_assoc in Hs, Hn.
    apply bd_app_r_inv in Hs; [|rewrite slen_app; unfold q in *; lia].
    apply bd_app_r_inv in Hn; [|rewrite slen_app; unfold q in *; lia].
    destruct (bd_split2 b _ _ Hs Hn) as (x & y & z & -> & Hx & Hy & _); [lia|].
    rewrite slen_app in Hx, Hy.
    transitivity (Some y); [|symmetry].
    + rewrite (app_assoc a), (app_assoc (a ++ t)).
      apply slice_range_app; rewrite !slen_app; lia.
    + rewrite (app_assoc a), (app_assoc (a ++ m)).
      apply slice_range_app; rewrite !slen_app; lia.
Qed.

Lemma shift_Forall l : (∀ e, e ∈ l → e ∈ es) →
  Forall (el_ok (a ++ t ++ b)) (map shift (List.filter keep l)).
Proof using Hok Hclosed.
  intros Hsub. apply list.Forall_forall. intros e' He'.
  apply list_elem_of_In, in_map_iff in He' as (e & <- & [He Hk]%filter_In).
  apply list_elem_of_In in He. apply shifted_ok; auto.
Qed.

Lemma shift_sorted l : (∀ e, e ∈ l → e ∈ es) → StronglySorted el_before l →
  StronglySorted el_before (map shift (List.filter keep l)).
Proof using Hok Hclosed.
  intros Hsub Hs. induction Hs as [|e l Hs IH He]; cbn; [constructor|].
  assert (Hsub' : ∀ f, f ∈ l → f ∈ es) by (intros; apply Hsub; by right).
  destruct (keep e) eqn:Hk; [|by apply IH]. cbn. constructor; [by apply IH|].
  apply list.Forall_forall. intros f' Hf'.
  apply list_elem_of_In, in_map_iff in Hf' as (f & <- & [Hf Hkf]%filter_In).
  apply list_elem_of_In in Hf. rewrite list.Forall_forall in He.
  apply shifted_before; auto. apply Hsub. by left.
Qed.

Lemma shift_payloads l : (∀ e, e ∈ l → e ∈ es) →
  payloads (a ++ t ++ b) (map shift (List.filter keep l)) `sublist_of` payloads (a ++ m ++ b) l.
Proof using Hok Hclosed.
  intros Hsub. induction l as [|e l IH]; [done|]. cbn [List.filter].
  assert (IH' : payloads (a ++ t ++ b) (map shift (List.filter keep l))
                `sublist_of` payloads (a ++ m ++ b) l)
    by (apply IH; intros; apply Hsub; by right).
  destruct (keep e) eqn:Hk.
  - cbn [map payloads omap list_omap]. rewrite shifted_payload by (done || apply Hsub; by left).
    assert (Hid : TextElement.id (shift e) = TextElement.id e)
      by (unfold shift, shift_element; repeat case_match; done).
    rewrite Hid. destruct (str_get (a ++ m ++ b) _); cbn; [by apply sublist_skip|done].
  - cbn [payloads omap list_omap]. destruct (str_get (a ++ m ++ b) _); cbn; [by apply sublist_cons|done].
Qed.

Lemma shift_elements_ok : elements_ok (a ++ t ++ b) (map shift (List.filter keep es)).
Proof using Hok Hclosed. split; [by apply shift_Forall|apply shift_sorted; [done|apply Hok]]. Qed.

(** Where the positions outside the elements go. *)
Lemma shift_free pos :
  (pos ≤ p ∧ free es pos) ∨ p ≤ pos ≤ p + slen t
  ∨ (p + slen t ≤ pos ∧ free es (pos - (slen t - slen m))) →
  free (map shift (List.filter keep es)) pos.
Proof using Hok Hclosed.
  intros Hpos e' He'.
  apply list_elem_of_In, in_map_iff in He' as (e & <- & [He Hk]%filter_In).
  apply list_elem_of_In in He. pose proof (elem_ok _ _ _ Hok He) as (_ & _ & Hle).
  pose proof (slen_nonneg m). pose proof (slen_nonneg t).
  destruct (kept_side e He Hk) as [(? & -> & ?)|(? & ? & ->)]; unfold p, q in *;
    destruct Hpos as [[Hp Hfree]|[Hp|[Hp Hfree]]]; try (specialize (Hfree e He));
    unfold estart, eend in *; cbn; lia.
Qed.
(** What is kept lies before or after the new text. *)
Lemma shift_apart e : e ∈ map shift (List.filter keep es) → eend e ≤ p ∨ p + slen t ≤ estart e.
Proof using Hok Hclosed.
  intros He'.
  apply list_elem_of_In, in_map_iff in He' as (e' & <- & [He Hk]%filter_In).
  apply list_elem_of_In in He.
  destruct (kept_side e' He Hk) as [(? & -> & ?)|(? & ? & ->)]; unfold p, q in *; [by left|right].
  unfold estart in *. cbn. lia.
Qed.
End Replace.

(** The elements after [shift_elements], from a state with the elements of a text. *)
Lemma shift_spec s a m b t es :
  elements s = es → elements_ok (a ++ m ++ b) es → closed es (slen a) (slen a + slen m) →
  let es' := elements (shift_elements s (slen a) (slen m) (slen t)) in
  elements_ok (a ++ t ++ b) es'
  ∧ payloads (a ++ t ++ b) es' `sublist_of` payloads (a ++ m ++ b) es
  ∧ (∀ pos, (pos ≤ slen a ∧ free es pos) ∨ slen a ≤ pos ≤ slen a + slen t
       ∨ (slen a + slen t ≤ pos ∧ free es (pos - (slen t - slen m))) → free es' pos)
  ∧ (∀ e, e ∈ es' → eend e ≤ slen a ∨ slen a + slen t ≤ estart e).
Proof.
  intros <- Hok Hcl. cbv zeta. split_and!.
  - by apply shift_elements_ok.
  - by apply (shift_payloads a m b t (elements s)).
  - apply (shift_free a m b t (elements s) Hok Hcl).
  - apply (shift_apart a m b t (elements s) Hok Hcl).
Qed.

(** ** Expanding a range to element boundaries *)

Definition within (r r' : Range.t) : Prop :=
  Range.start r' ≤ Range.start r ∧ Range.end_ r ≤ Range.end_ r'.

Definition inside (r : Range.t) (e : TextElement.t) : bool :=
  (Range.start r <=? estart e) && (eend e <=? Range.end_ r).

Lemma expand_pass_spec es r ch r' ch' : expand_pass es r ch = (r', ch') →
  within r r'
  ∧ (ch' = false → ch = false ∧ r' = r ∧ closed es (Range.start r) (Range.end_ r))
  ∧ (ch' = true → ch = true ∨ ∃ e, e ∈ es ∧ inside r e = false ∧ inside r' e = true)
  ∧ (∀ P : Z → Prop, P (Range.start r) → P (Range.end_ r) →
       (∀ e, e ∈ es → P (estart e) ∧ P (eend e)) → P (Range.start r') ∧ P (Range.end_ r'))
  ∧ (∀ c, closed es (Range.start c) (Range.end_ c) → within r c → within r' c).
Proof.
  revert r ch. induction es as [|e es IH]; intros r ch; cbn [expand_pass].
  { intros [= <- <-]. split_and!; auto; [split; lia|]. intros Hch. split_and!; auto.
    intros e He. by apply elem_of_nil in He. }
  fold (estart e) (eend e). unfold within, inside in *.
  destruct ((estart e <? Range.end_ r) && (Range.start r <? eend e)) eqn:Hov;
    [destruct (negb _ || negb _) eqn:Hch|]; intros Hp;
    destruct (IH _ _ Hp) as (H1 & H2 & H3 & H4 & H5); cbn [Range.start Range.end_] in *.
  - split_and!; [lia|lia| | | |].
    + intros ->. destruct (H2 eq_refl) as [? _]. done.
    + intros _. right. exists e. split; [by left|]. lia.
    + intros P Ps Pe Pes. destruct (Pes e) as [? ?]; [by left|].
      apply H4; [by destruct (Z.min_spec (Range.start r) (estart e)) as [[_ ->]|[_ ->]]
                |by destruct (Z.max_spec (Range.end_ r) (eend e)) as [[_ ->]|[_ ->]]
                |intros f Hf; apply Pes; by right].
    + intros c Hc Hw. apply H5; [intros f Hf; apply Hc; by right|].
      specialize (Hc e (list_elem_of_here _ _)). lia.
  - split_and!; [lia|lia| | | |].
    + intros ->. destruct (H2 eq_refl) as (-> & -> & Hc). split_and!; auto.
      intros f [->|Hf]%elem_of_cons; [lia|by apply Hc].
    + intros ->. destruct (H3 eq_refl) as [->|(f & ? & ? & ?)]; [by left|]. right. exists f.
      split; [by right|done].
    + intros P Ps Pe Pes. apply H4; auto. intros f Hf. apply Pes. by right.
    + intros c Hc. apply H5. intros f Hf. apply Hc. by right.
  - split_and!; [lia|lia| | | |].
    + intros ->. destruct (H2 eq_refl) as (-> & -> & Hc). split_and!; auto.
      intros f [->|Hf]%elem_of_cons; [lia|by apply Hc].
    + intros ->. destruct (H3 eq_refl) as [->|(f & ? & ? & ?)]; [by left|]. right. exists f.
      split; [by right|done].
    + intros P Ps Pe Pes. apply H4; auto. intros f Hf. apply Pes. by right.
    + intros c Hc. apply H5. intros f Hf. apply Hc. by right.
Qed.

(** How many elements are not part of a range. *)
Definition outside_count (es : list TextElement.t) (r : Range.t) : nat :=
  length (List.filter (λ e, negb (inside r e)) es).

Lemma outside_count_le es r r' : within r r' → (outside_count es r' ≤ outside_count es r)%nat.
Proof.
  intros Hw. unfold outside_count. induction es as [|e es IH]; cbn; [done|].
  destruct (inside r e) eqn:H1, (inside r' e) eqn:H2; cbn; try lia.
  unfold inside, within in *. lia.
Qed.

Lemma outside_count_lt es r r' e : within r r' → e ∈ es → inside r e = false →
  inside r' e = true → (outside_count es r' < outside_count es r)%nat.
Proof.
  intros Hw He H1 H2. apply list_elem_of_split in He as (l1 & l2 & ->).
  unfold outside_count. rewrite !List.filter_app, !length_app. cbn [List.filter].
  rewrite H1, H2. cbn.
  pose proof (outside_count_le l1 r r' Hw). pose proof (outside_count_le l2 r r' Hw).
  unfold outside_count in *. lia.
Qed.

Lemma expand_loop_spec fuel es r : (outside_count es r < fuel)%nat →
  let r' := expand_loop fuel es r in
  within r r' ∧ closed es (Range.start r') (Range.end_ r')
  ∧ (∀ P : Z → Prop, P (Range.start r) → P (Range.end_ r) →
       (∀ e, e ∈ es → P (estart e) ∧ P (eend e)) → P (Range.start r') ∧ P (Range.end_ r'))
  ∧ (∀ c, closed es (Range.start c) (Range.end_ c) → within r c → within r' c).
Proof.
  revert r. induction fuel as [|fuel IH]; intros r Hf; cbn [expand_loop]; [lia|].
  destruct (expand_pass es r false) as [r1 ch] eqn:Hp.
  destruct (expand_pass_spec _ _ _ _ _ Hp) as (H1 & H2 & H3 & H4 & H5).
  destruct ch.
  - destruct (H3 eq_refl) as [?|(e & He & Hi & Hi')]; [done|].
    destruct (IH r1) as (I1 & I2 & I3 & I4).
    { pose proof (outside_count_lt _ _ _ _ H1 He Hi Hi'). lia. }
    unfold within in *. split_and!; [lia|lia|done| |].
    + intros P Ps Pe Pes. destruct (H4 P Ps Pe Pes). by apply I3.
    + intros c Hc Hw. by apply I4, H5.
  - destruct (H2 eq_refl) as (_ & -> & Hc). cbv zeta. auto.
Qed.

(** The result is the least range that contains the given one and cuts no element. *)
Lemma expand_range_spec s r :
  let r' := expand_range_to_element_boundaries s r in
  within r r' ∧ closed (elements s) (Range.start r') (Range.end_ r')
  ∧ (∀ P : Z → Prop, P (Range.start r) → P (Range.end_ r) →
       (∀ e, e ∈ elements s → P (estart e) ∧ P (eend e)) → P (Range.start r') ∧ P (Range.end_ r'))
  ∧ (∀ c, closed (elements s) (Range.start c) (Range.end_ c) → within r c → within r' c).
Proof.
  apply expand_loop_spec. unfold outside_count.
  pose proof (List.filter_length_le (λ e, negb (inside r e)) (elements s)). lia.
Qed.

(** A range on boundaries. *)
Definition range_ok (t : str) (r : Range.t) : Prop :=
  bd t (Range.start r) ∧ bd t (Range.end_ r) ∧ Range.start r ≤ Range.end_ r.

Lemma expand_range_ok s r :
  elements_ok (text s) (elements s) → range_ok (text s) r →
  let r' := expand_range_to_element_boundaries s r in
  range_ok (text s) r' ∧ within r r' ∧ closed (elements s) (Range.start r') (Range.end_ r').
Proof.
  intros Hok (Hs & He & Hle). cbv zeta. destruct (expand_range_spec s r) as (Hw & Hc & HP & _).
  destruct (HP (bd (text s))) as [Hs' He']; [done|done| |].
  { intros e Hin. destruct (elem_ok _ _ _ Hok Hin) as (? & ? & _). done. }
  split_and!; auto. split_and!; auto. unfold within in Hw. lia.
Qed.

(** ** What an operation keeps *)

Definition single_line (s : TextArea) : Prop :=
  Forall (λ p, LF ∉ p.2) (payloads (text s) (elements s)).

Definition cursor_outside (s : TextArea) : Prop := free (elements s) (cursor_pos s).

(** The cache is empty, or it is the cache of the same text. *)
Definition cache_kept (s s' : TextArea) : Prop :=
  wrap_cache s' = None ∨ (wrap_cache s' = wrap_cache s ∧ text s' = text s).

(** The area stays well formed, the elements that stay keep their order and their texts,
    the cursor stays out of the elements (when no element spans lines), and the rows that
    are cached are those of the text. *)
Record keeps (s s' : TextArea) : Prop := {
  keeps_wf : wf s';
  keeps_payloads :
    payloads (text s') (elements s') `sublist_of` payloads (text s) (elements s);
  keeps_outside : cursor_outside s → single_line s → cursor_outside s';
  keeps_cache : cache_kept s s'
}.

Lemma keeps_refl s : wf s → keeps s s.
Proof. split; [done..|]. by right. Qed.

Lemma sublist_Forall {A} (P : A → Prop) l k : l `sublist_of` k → Forall P k → Forall P l.
Proof.
  intros Hs HP. apply list.Forall_forall. intros x Hx.
  apply (Forall_elem _ _ _ HP). by eapply elem_of_sublist.
Qed.

Lemma keeps_single_line s s' : keeps s s' → single_line s → single_line s'.
Proof. intros [_ Hp _ _]. by apply sublist_Forall. Qed.

Lemma keeps_trans s1 s2 s3 : keeps s1 s2 → keeps s2 s3 → keeps s1 s3.
Proof.
  intros H12 H23. split; [apply H23|etransitivity; [apply H23|apply H12]|..].
  - intros Ho Hl. apply H23; [by apply H12|by eapply keeps_single_line].
  - destruct (keeps_cache _ _ H23) as [?|[Hw Ht]]; [by left|]. unfold cache_kept.
    rewrite Hw, Ht. apply H12.
Qed.

(** An operation that returns, and keeps. *)
Definition succeeds (s : TextArea) (r : option TextArea) : Prop := ∃ s', r = Some s' ∧ keeps s s'.

Lemma succeeds_ret s s' : keeps s s' → succeeds s (Some s').
Proof. intros H. by exists s'. Qed.

Lemma succeeds_bind s r k :
  succeeds s r → (∀ s', keeps s s' → succeeds s' (k s')) → succeeds s (r ≫= k).
Proof.
  intros (s1 & -> & H1) Hk. destruct (Hk s1 H1) as (s2 & H2 & H3).
  exists s2. split; [done|by eapply keeps_trans].
Qed.

(** Two states that agree on what is kept. *)
Definition same_core (s s' : TextArea) : Prop :=
  text s' = text s ∧ cursor_pos s' = cursor_pos s ∧ elements s' = elements s
  ∧ wrap_cache s' = wrap_cache s.

Lemma same_core_keeps s1 s2 s3 : keeps s1 s2 → same_core s2 s3 → keeps s1 s3.
Proof.
  intros [[Hc He Hk] Hp Ho Hck] (Ht & Hcu & Hel & Hw).
  split; [split|by rewrite Ht, Hel|..].
  - by rewrite Ht, Hcu.
  - by rewrite Ht, Hel.
  - unfold cache_ok in *. by rewrite Ht, Hw.
  - unfold cursor_outside in *. by rewrite Hel, Hcu.
  - unfold cache_kept in *. by rewrite Ht, Hw.
Qed.

Lemma same_core_wf s s' : wf s → same_core s s' → keeps s s'.
Proof. intros Hwf. apply same_core_keeps. by apply keeps_refl. Qed.

(** Moving the cursor. *)
Lemma move_keeps s pos :
  wf s → bd (text s) pos → (cursor_outside s → single_line s → free (elements s) pos) →
  keeps s (with_cursor_pos pos s).
Proof. intros [Hc He Hk] Hb Hf. split; [by split|done|done|]. by right. Qed.

Lemma set_cursor_keeps s pos : wf s → keeps s (set_cursor s pos).
Proof.
  intros Hwf. unfold set_cursor. cbv zeta.
  set (s1 := with_cursor_pos (clamp_len s pos) s).
  destruct (clamp_nearest_ok s1 (cursor_pos s1)) as [Hb Hf];
    [apply Hwf|cbn; unfold clamp_len; lia|].
  eapply same_core_keeps with (s2 := with_cursor_pos (clamp_pos_to_nearest_boundary s1 (cursor_pos s1)) s);
    [|done]. by apply move_keeps.
Qed.

Lemma clamp_move_keeps s pos : wf s → 0 ≤ pos →
  keeps s (with_cursor_pos (clamp_pos_to_nearest_boundary (with_cursor_pos pos s) pos)
             (with_cursor_pos pos s)).
Proof.
  intros Hwf Hpos. destruct (clamp_nearest_ok (with_cursor_pos pos s) pos) as [Hb Hf];
    [apply Hwf|done|].
  eapply same_core_keeps with
    (s2 := with_cursor_pos (clamp_pos_to_nearest_boundary (with_cursor_pos pos s) pos) s);
    [|done]. by apply move_keeps.
Qed.

(** Inserting text. *)
Lemma closed_point es p : free es p → closed es p p.
Proof. intros Hf e He. specialize (Hf e He). lia. Qed.

Lemma insert_spec s pos t : wf s → 0 ≤ pos →
  let p := clamp_pos_to_nearest_boundary s pos in
  ∃ a b s', text s = a ++ b ∧ slen a = p ∧ insert_str_at s pos t = Some s'
    ∧ text s' = a ++ t ++ b
    ∧ cursor_pos s' = (if (p <=? cursor_pos s) then cursor_pos s + slen t else cursor_pos s)
    ∧ kill_buffer s' = kill_buffer s ∧ keeps s s'
    ∧ (∀ e, e ∈ elements s' → eend e ≤ p ∨ p + slen t ≤ estart e).
Proof.
  intros Hwf Hpos. cbv zeta. destruct (clamp_nearest_ok s pos (wf_elements _ Hwf) Hpos) as [Hb Hf].
  unfold insert_str_at.
  change (clamp_pos_for_insertion s pos) with (clamp_pos_to_nearest_boundary s pos). cbv zeta.
  set (p := clamp_pos_to_nearest_boundary s pos) in *.
  destruct (bd_split _ _ Hb) as (a & b & Ht & Ha & Hto & Hfrom).
  unfold string_insert_str. rewrite Hto, Hfrom. cbn [mbind option_bind].
  change (cursor_pos (with_wrap_cache None _)) with (cursor_pos s).
  set (s1 := if p <=? cursor_pos s then _ else _).
  assert (Hs1 : elements s1 = elements s ∧ text s1 = a ++ t ++ b ∧ wrap_cache s1 = None
    ∧ kill_buffer s1 = kill_buffer s
    ∧ cursor_pos s1 = if p <=? cursor_pos s then cursor_pos s + slen t else cursor_pos s)
    by (unfold s1; by destruct (p <=? cursor_pos s)).
  destruct Hs1 as (He1 & Ht1 & Hw1 & Hkb & Hc1).
  destruct (shift_spec s1 a [] b t (elements s) He1) as (Hel & Hpl & Hfr & Hap).
  { cbn [app]. rewrite <- Ht. apply Hwf. }
  { rewrite slen_nil, Z.add_0_r, Ha. by apply closed_point. }
  rewrite slen_nil, Ha in Hel, Hpl, Hfr, Hap. cbn [app] in Hpl. pose proof (slen_nonneg t).
  exists a, b. eexists. split_and!; [done|done|reflexivity|exact Ht1|exact Hc1|exact Hkb| |exact Hap].
  split; [split|..].
  - change (bd (text s1) (cursor_pos s1)). rewrite Ht1, Hc1.
    pose proof (wf_cursor _ Hwf) as Hc. rewrite Ht in Hc. destruct (Z.leb_spec p (cursor_pos s)).
    + apply bd_app_r_inv in Hc; [|lia]. apply (bd_app_r t), (bd_app_r a) in Hc.
      eapply bd_eq; [exact Hc|lia].
    + apply bd_app_l. eapply bd_app_l_inv; [done|lia].
  - change (elements_ok (text s1) (elements (shift_elements s1 p 0 (slen t)))). by rewrite Ht1.
  - intros c. change (wrap_cache s1 = Some c → Forall (line_ok (text s1)) (WrapCache.lines c)).
    by rewrite Hw1.
  - change (payloads (text s1) (elements (shift_elements s1 p 0 (slen t)))
            `sublist_of` payloads (text s) (elements s)). by rewrite Ht1, Ht.
  - intros Ho _. change (free (elements (shift_elements s1 p 0 (slen t))) (cursor_pos s1)).
    apply Hfr. rewrite Hc1. destruct (Z.leb_spec p (cursor_pos s)); [right; right|left].
    + split; [lia|]. by replace (_ - _) with (cursor_pos s) by lia.
    + split; [lia|done].
  - by left.
Qed.

Lemma insert_str_at_ok s pos t : wf s → 0 ≤ pos → succeeds s (insert_str_at s pos t).
Proof.
  intros Hwf Hpos. destruct (insert_spec s pos t Hwf Hpos) as (_ & _ & s' & _ & _ & H & _ & _ & _ & Hk & _).
  by exists s'.
Qed.

Lemma insert_str_ok s t : wf s → succeeds s (insert_str s t).
Proof. intros Hwf. apply insert_str_at_ok; [done|]. apply (bd_range _ _ (wf_cursor _ Hwf)). Qed.

(** Replacing a range that cuts no element. *)
Lemma clamp_len_bd s n : bd (text s) n → clamp_len s n = n.
Proof. intros H%bd_range. unfold clamp_len. lia. Qed.

(** Where a replacement puts the cursor, before it is moved out of the elements. *)
Definition cursor_after (c p q n len : Z) : Z :=
  Z.min (if (c <? p) then c else if (c <=? q) then p + n else c + (n - (q - p))) len.

Lemma replace_raw_eq s r t a m b :
  text s = a ++ m ++ b → slen a = Range.start r → slen a + slen m = Range.end_ r →
  m ≠ [] ∨ t ≠ [] →
  replace_range_raw s r t =
    let s1 := shift_elements (with_preferred_col None (with_wrap_cache None
                (with_text (a ++ t ++ b) s))) (slen a) (slen m) (slen t) in
    let s2 := with_cursor_pos (cursor_after (cursor_pos s) (slen a) (slen a + slen m) (slen t)
                (slen (a ++ t ++ b))) s1 in
    Some (with_cursor_pos (clamp_pos_to_nearest_boundary s2 (cursor_pos s2)) s2).
Proof.
  intros Ht Ha Hm Hne. unfold replace_range_raw, cursor_after. rewrite <- Ha, <- Hm.
  pose proof (slen_nonneg a). pose proof (slen_nonneg m).
  rewrite (proj2 (Z.leb_le _ _)) by lia. cbn [negb].
  assert (Hlen : slen (text s) = slen a + slen m + slen b) by (rewrite Ht, !slen_app; lia).
  pose proof (slen_nonneg b). unfold clamp_len. rewrite Hlen.
  replace (Z.max 0 (Z.min (slen a) _)) with (slen a) by lia.
  replace (Z.max 0 (Z.min (slen a + slen m) _)) with (slen a + slen m) by lia.
  replace (slen a + slen m - slen a) with (slen m) by lia. cbv zeta.
  assert (Hcond : (slen m =? 0) && (slen t =? 0) = false).
  { pose proof (slen_zero m). pose proof (slen_zero t).
    destruct (Z.eqb_spec (slen m) 0), (Z.eqb_spec (slen t) 0); cbn; tauto. }
  rewrite Hcond. unfold string_replace_range. rewrite (proj2 (Z.leb_le _ _)) by lia.
  rewrite Ht, slice_to_app. cbn [mbind option_bind].
  rewrite app_assoc, <- slen_app, slice_from_app. cbn [mbind option_bind].
  unfold update_elements_after_replace, usat_sub.
  replace (Z.max (slen (a ++ m) - slen a) 0) with (slen m) by (rewrite slen_app; lia). done.
Qed.

Lemma replace_raw_spec s r t :
  wf s → range_ok (text s) r → closed (elements s) (Range.start r) (Range.end_ r) →
  (Range.start r < Range.end_ r ∨ t ≠ []) →
  ∃ a m b s', text s = a ++ m ++ b ∧ slen a = Range.start r ∧ slen a + slen m = Range.end_ r
    ∧ replace_range_raw s r t = Some s' ∧ text s' = a ++ t ++ b
    ∧ (Range.start r ≤ cursor_pos s ≤ Range.end_ r → cursor_pos s' = Range.start r + slen t)
    ∧ kill_buffer s' = kill_buffer s ∧ keeps s s' ∧ cursor_outside s'.
Proof.
  intros Hwf (Hbs & Hbe & Hle) Hcl Hne.
  destruct (bd_split2 _ _ _ Hbs Hbe Hle) as (a & m & b & Ht & Ha & Hm & _).
  exists a, m, b. rewrite (replace_raw_eq s r t a m b Ht Ha Hm).
  2: { destruct Hne as [Hlt|?]; [left|by right]. intros ->. rewrite slen_nil in Hm. lia. }
  cbv zeta. set (s0 := with_preferred_col None _).
  destruct (shift_spec s0 a m b t (elements s) eq_refl) as (Hel & Hpl & Hfr & _);
    [rewrite <- Ht; apply Hwf|by rewrite Hm, Ha|].
  set (s1 := shift_elements s0 _ _ _) in *.
  set (cur := cursor_after _ _ _ _ _). set (s2 := with_cursor_pos cur s1).
  pose proof (bd_range _ _ (wf_cursor _ Hwf)).
  pose proof (slen_nonneg a). pose proof (slen_nonneg m). pose proof (slen_nonneg t).
  pose proof (slen_nonneg b).
  assert (Hcur : 0 ≤ cur) by (unfold cur, cursor_after; rewrite !slen_app; repeat case_match; lia).
  destruct (clamp_nearest_ok s2 cur Hel Hcur) as [Hb2 Hf2].
  eexists. split_and!; [done|done|done|reflexivity|done| |done| |exact Hf2].
  - intros Hin. assert (Hc : cur = slen a + slen t)
      by (unfold cur, cursor_after; rewrite !slen_app; repeat case_match; lia).
    change (clamp_pos_to_nearest_boundary s2 cur = Range.start r + slen t).
    rewrite clamp_nearest_id; [lia| |apply Hfr; right; left; lia].
    rewrite Hc. change (bd (a ++ t ++ b) (slen a + slen t)). apply bd_app_r, bd_app.
  - split; [split; [exact Hb2|exact Hel|done]| |intros _ _; exact Hf2|by left].
    change (payloads (a ++ t ++ b) (elements s1) `sublist_of` payloads (text s) (elements s)).
    by rewrite Ht.
Qed.

Lemma replace_raw_ok s r t :
  wf s → range_ok (text s) r → closed (elements s) (Range.start r) (Range.end_ r) →
  succeeds s (replace_range_raw s r t).
Proof.
  intros Hwf Hr Hcl.
  destruct (decide (Range.start r < Range.end_ r ∨ t ≠ [])) as [Hne|Hne].
  - destruct (replace_raw_spec s r t Hwf Hr Hcl Hne)
      as (_ & _ & _ & s' & _ & _ & _ & H & _ & _ & _ & Hk & _). by exists s'.
  - destruct Hr as (Hbs & Hbe & Hle). 
    assert (t = []) as -> by (destruct (decide (t = [])); [done|tauto]).
    unfold replace_range_raw. rewrite (proj2 (Z.leb_le _ _) Hle). cbn [negb]. cbv zeta.
    rewrite !clamp_len_bd by done. rewrite (proj2 (Z.eqb_eq (_ - _) 0)) by lia.
    cbn. by apply succeeds_ret, keeps_refl.
Qed.

Lemma replace_range_ok s r t : wf s → range_ok (text s) r → succeeds s (replace_range s r t).
Proof.
  intros Hwf Hr. destruct (expand_range_ok s r (wf_elements _ Hwf) Hr) as (Hr' & _ & Hcl).
  by apply replace_raw_ok.
Qed.

(** ** Kills and yanks *)

(** A kill removes the expanded range and puts its text in the kill buffer. *)
Lemma kill_spec s r kind :
  wf s → range_ok (text s) r →
  let r' := expand_range_to_element_boundaries s r in
  (Range.start r' = Range.end_ r' ∧ kill_range_with_kind s r kind = Some s)
  ∨ ∃ a m b s', text s = a ++ m ++ b ∧ slen a = Range.start r' ∧ slen a + slen m = Range.end_ r'
      ∧ m ≠ [] ∧ kill_range_with_kind s r kind = Some s' ∧ text s' = a ++ b
      ∧ (Range.start r ≤ cursor_pos s ≤ Range.end_ r → cursor_pos s' = slen a)
      ∧ kill_buffer s' = m ∧ keeps s s' ∧ cursor_outside s'.
Proof.
  intros Hwf Hr. cbv zeta.
  destruct (expand_range_ok s r (wf_elements _ Hwf) Hr) as (Hr' & Hw & Hcl).
  unfold kill_range_with_kind. set (r' := expand_range_to_element_boundaries s r) in *.
  destruct Hr' as (Hbs & Hbe & Hle).
  destruct (Z.leb_spec (Range.end_ r') (Range.start r')) as [Hge|Hlt]; [left; split; [lia|done]|].
  right. destruct (bd_split2 _ _ _ Hbs Hbe Hle) as (a & m & b & Ht & Ha & Hm & Hsl).
  assert (Hne : m ≠ []) by (intros ->; rewrite slen_nil in Hm; lia).
  set (s1 := store_kill_buffer s m kind).
  assert (Hk1 : keeps s s1) by by apply same_core_wf.
  destruct (replace_raw_spec s1 r' [] (keeps_wf _ _ Hk1)) as
    (a' & m' & b' & s' & Ht' & Ha' & Hm' & Hrep & Htx & Hcu & Hkb & Hk & Ho);
    [done|done|by left|].
  exists a', m', b', s'. change (text s1) with (text s) in Ht'. rewrite <- Hm' in Hm.
  assert (a' = a ∧ m' = m ∧ b' = b) as (-> & -> & ->).
  { rewrite Ht in Ht'. destruct (split_le _ _ _ _ Ht') as (x & Hx & Hy); [lia|].
    assert (x = []) as -> by (apply slen_zero; rewrite Hx, slen_app in Ha'; lia).
    rewrite app_nil_r in Hx. cbn in Hy. subst a'.
    destruct (split_le _ _ _ _ Hy) as (x & Hx' & Hy'); [lia|].
    assert (x = []) as -> by (apply slen_zero; rewrite Hx', slen_app in Hm; lia).
    rewrite app_nil_r in Hx'. by subst. }
  split_and!; [done|done|done|done| |done| |done|by eapply keeps_trans|done].
  - rewrite Hsl. cbn [mbind option_bind]. by rewrite bool_decide_eq_false_2.
  - intros Hin. unfold within in Hw. rewrite Hcu by (change (cursor_pos s1) with (cursor_pos s); lia).
    rewrite slen_nil. lia.
Qed.

Lemma kill_ok s r kind : wf s → range_ok (text s) r → succeeds s (kill_range_with_kind s r kind).
Proof.
  intros Hwf Hr.
  destruct (kill_spec s r kind Hwf Hr) as
    [[_ H]|(_ & _ & _ & s' & _ & _ & _ & _ & H & _ & _ & _ & Hk & _)].
  - exists s. split; [done|by apply keeps_refl].
  - by exists s'.
Qed.

Lemma yank_range_ok s r kind :
  wf s → range_ok (text s) r → succeeds s (yank_range_with_kind s r kind).
Proof.
  intros Hwf Hr. destruct (expand_range_ok s r (wf_elements _ Hwf) Hr) as ((Hbs & Hbe & Hle) & _ & _).
  unfold yank_range_with_kind.
  destruct (_ <=? _); [by apply succeeds_ret, keeps_refl|].
  destruct (bd_split2 _ _ _ Hbs Hbe Hle) as (a & m & b & _ & _ & _ & ->). cbn [mbind option_bind].
  case_bool_decide; apply succeeds_ret; [by apply keeps_refl|by apply same_core_wf].
Qed.

(** Whatever a kill removed, a yank puts back. *)
Lemma kill_yank s r kind s1 :
  wf s → range_ok (text s) r → Range.start r ≤ cursor_pos s ≤ Range.end_ r →
  kill_range_with_kind s r kind = Some s1 → text s1 ≠ text s →
  ∃ s2, yank s1 = Some s2 ∧ text s2 = text s.
Proof.
  intros Hwf Hr Hin Hkill Hne.
  destruct (kill_spec s r kind Hwf Hr) as
    [[_ H]|(a & m & b & s' & Ht & Ha & Hm & Hm0 & H & Ht' & Hcu & Hkb & Hk & Ho)];
    rewrite Hkill in H; injection H as ->; [done|].
  unfold yank. rewrite Hkb, bool_decide_eq_false_2 by done. unfold insert_str.
  pose proof (keeps_wf _ _ Hk) as Hwf'.
  assert (Hcl : clamp_pos_to_nearest_boundary s' (cursor_pos s') = cursor_pos s')
    by (apply clamp_nearest_id; [apply Hwf'|exact Ho]).
  destruct (insert_spec s' (cursor_pos s') m Hwf') as (a' & b' & s2 & Hs & Ha' & Hins & Hres & _).
  { apply (bd_range _ _ (wf_cursor _ Hwf')). }
  exists s2. split; [done|]. rewrite Hres, Ht. rewrite Hcl, (Hcu Hin) in Ha'. rewrite Ht' in Hs.
  destruct (split_le _ _ _ _ Hs) as (x & Hx & Hy); [lia|].
  assert (x = []) as -> by (apply slen_zero; rewrite Hx, slen_app in Ha'; lia).
  rewrite app_nil_r in Hx. cbn in Hy. by subst.
Qed.
