(* ===== verification/TextAreaMoves.v ===== *)
(** * Positions the text area computes

    Every position an operation computes, by lines, graphemes, elements or words, lies on
    a character boundary of the text, and none of the slices on the way panics. *)

From Stdlib Require Import String ZArith NArith Lia.
From stdpp Require Import base option list numbers.
From S2P Require Import Prelude StrBytes Keymap TextArea TextAreaFacts.

Local Open Scope Z_scope.

(** ** What the segmentation crates promise *)

(** The graphemes of a text, and its words, make up the text; a cursor that has the whole
    text finds the boundary next to a position. *)
Class UnicodeLaws `{UnicodeText} : Prop := {
  graphemes_concat s : concat (graphemes s) = s;
  word_bounds_concat s : concat (split_word_bounds s) = s;
  prev_boundary_law s n : bd s n → 0 < n →
    ∃ b, prev_boundary s n = Ok (Some b) ∧ bd s b ∧ b < n;
  next_boundary_law s n : bd s n → n < slen s →
    ∃ b, next_boundary s n = Ok (Some b) ∧ bd s b ∧ n < b
}.

(** ** Searching characters *)

Lemma char_indices_from_elem i s j c : (j, c) ∈ char_indices_from i s →
  ∃ p q, s = p ++ c :: q ∧ j = i + slen p.
Proof.
  revert i. induction s as [|d s IH]; intros i; cbn [char_indices_from].
  - by intros ?%elem_of_nil.
  - intros [[= -> ->]|H]%elem_of_cons; [exists [], s; rewrite slen_nil; split; [done|lia]|].
    destruct (IH _ H) as (p & q & -> & ->). exists (d :: p), q. split; [done|]. slen_lia.
Qed.

Lemma char_indices_elem s j c : (j, c) ∈ char_indices s → ∃ p q, s = p ++ c :: q ∧ j = slen p.
Proof. intros (p & q & -> & ->)%char_indices_from_elem. by exists p, q. Qed.

(** A character and its offset: both ends of the character are boundaries. *)
Lemma char_bounds s p c q : s = p ++ c :: q →
  bd s (slen p) ∧ bd s (slen p + Z.of_nat (len_utf8 c)) ∧ slen p + Z.of_nat (len_utf8 c) ≤ slen s.
Proof.
  intros ->. split_and!; [apply bd_app| |slen_lia].
  replace (p ++ c :: q) with ((p ++ [c]) ++ q) by by rewrite <- app_assoc.
  eapply bd_eq; [apply bd_app|slen_lia].
Qed.

Lemma find_elem {A} (p : A → bool) l x : List.find p l = Some x → x ∈ l ∧ p x = true.
Proof. intros [H1 H2]%find_some. by rewrite list_elem_of_In. Qed.

Lemma find_char_spec (p : char → bool) s j c :
  List.find (λ ic, p ic.2) (char_indices s) = Some (j, c) →
  ∃ a b, s = a ++ c :: b ∧ j = slen a ∧ p c = true.
Proof. intros [(a & b & -> & ->)%char_indices_elem Hp]%find_elem. by exists a, b. Qed.

Lemma rfind_char_spec (p : char → bool) s j c :
  List.find (λ ic, p ic.2) (rev (char_indices s)) = Some (j, c) →
  ∃ a b, s = a ++ c :: b ∧ j = slen a ∧ p c = true.
Proof.
  intros [H Hp]%find_elem. apply list_elem_of_In, in_rev, list_elem_of_In in H.
  apply char_indices_elem in H as (a & b & -> & ->). by exists a, b.
Qed.

Lemma str_find_spec p s i : str_find p s = Some i →
  ∃ a c b, s = a ++ c :: b ∧ i = slen a ∧ p c = true.
Proof.
  unfold str_find. intros ([j c] & (a & b & -> & -> & Hp)%find_char_spec & ->)%fmap_Some.
  by exists a, c, b.
Qed.

Lemma str_rfind_spec p s i : str_rfind p s = Some i →
  ∃ a c b, s = a ++ c :: b ∧ i = slen a ∧ p c = true.
Proof.
  unfold str_rfind. intros ([j c] & (a & b & -> & -> & Hp)%rfind_char_spec & ->)%fmap_Some.
  by exists a, c, b.
Qed.

Lemma is_lf_true c : is_lf c = true → c = LF.
Proof. apply N.eqb_eq. Qed.

(** A newline takes one byte. *)
Lemma bd_after_lf p q : bd (p ++ LF :: q) (slen p + 1).
Proof. apply (char_bounds _ p LF q eq_refl). Qed.

Lemma bd_sub p m q n : bd m n → bd (p ++ m ++ q) (slen p + n).
Proof. intros H. by apply bd_app_r, bd_app_l. Qed.

(** ** Lines *)

Lemma beginning_of_line_ok s pos : bd (text s) pos →
  ∃ b, beginning_of_line s pos = Some b ∧ bd (text s) b ∧ b ≤ pos.
Proof.
  intros (p & q & Ht & Hp & Hto & _)%bd_split. unfold beginning_of_line. rewrite Hto.
  cbn [mbind option_bind]. eexists. split; [done|]. rewrite Ht.
  destruct (str_rfind is_lf p) as [i|] eqn:Hf.
  - apply str_rfind_spec in Hf as (a & c & b & -> & -> & ->%is_lf_true).
    split; [apply bd_app_l, bd_after_lf|]. rewrite slen_app, slen_cons in Hp. pose proof (slen_nonneg b).
    change (len_utf8 LF) with 1%nat in Hp. lia.
  - split; [apply bd_0|]. pose proof (slen_nonneg p). lia.
Qed.

Lemma end_of_line_ok s pos : bd (text s) pos →
  ∃ e, end_of_line s pos = Some e ∧ bd (text s) e ∧ pos ≤ e
    ∧ (e < slen (text s) → bd (text s) (e + 1)).
Proof.
  intros (p & q & Ht & Hp & _ & Hfrom)%bd_split. unfold end_of_line. rewrite Hfrom.
  cbn [mbind option_bind]. eexists. split; [done|]. rewrite Ht.
  destruct (str_find is_lf q) as [i|] eqn:Hf.
  - apply str_find_spec in Hf as (a & c & b & -> & -> & ->%is_lf_true).
    rewrite Z.add_comm, <- Hp. split_and!; [apply bd_app_r, bd_app|pose proof (slen_nonneg a); lia|].
    intros _. rewrite <- Z.add_assoc. apply bd_app_r, bd_after_lf.
  - split_and!; [apply bd_len|pose proof (slen_nonneg q); rewrite slen_app; lia|lia].
Qed.

Lemma line_range_ok s : bd (text s) (cursor_pos s) →
  ∃ r, current_line_range_with_newline s = Some r ∧ range_ok (text s) r
    ∧ Range.start r ≤ cursor_pos s ≤ Range.end_ r.
Proof.
  intros Hc. destruct (beginning_of_line_ok _ _ Hc) as (b & Hb & Hbb & Hbl).
  destruct (end_of_line_ok _ _ Hc) as (e & He & Heb & Hel & Hen).
  unfold current_line_range_with_newline, beginning_of_current_line, end_of_current_line.
  rewrite Hb. cbn [mbind option_bind]. rewrite He. cbn [mbind option_bind].
  eexists. split; [done|].
  destruct (Z.ltb_spec e (slen (text s))); (split; [split_and!|]); cbn; auto; lia.
Qed.

Lemma first_non_blank_ok s : bd (text s) (cursor_pos s) →
  ∃ p, first_non_blank_of_current_line s = Some p.
Proof.
  intros Hc. destruct (beginning_of_line_ok _ _ Hc) as (b & Hb & Hbb & Hbl).
  destruct (end_of_line_ok _ _ Hc) as (e & He & Heb & Hel & _).
  unfold first_non_blank_of_current_line, beginning_of_current_line, end_of_current_line.
  rewrite Hb. cbn [mbind option_bind]. rewrite He. cbn [mbind option_bind].
  destruct (bd_split2 _ _ _ Hbb Heb) as (x & m & y & _ & _ & _ & ->); [lia|].
  cbn [mbind option_bind]. by eexists.
Qed.

Section Laws.
Context {U : UnicodeText} {UL : UnicodeLaws}.

(** ** Atomic boundaries *)

Lemma prev_atomic_ok s pos :
  elements_ok (text s) (elements s) → bd (text s) pos →
  let r := prev_atomic_boundary s pos in
  bd (text s) r ∧ free (elements s) r ∧ r ≤ pos.
Proof.
  intros Hok Hb. cbv zeta. pose proof (bd_range _ _ Hb) as Hr. unfold prev_atomic_boundary.
  assert (H0 : free (elements s) 0).
  { intros e He. destruct (elem_ok _ _ _ Hok He) as (Hs%bd_range & _). lia. }
  destruct (Z.eqb_spec pos 0) as [->|Hpos]; [split_and!; [apply bd_0|done|lia]|].
  destruct (List.find _ _) as [e|] eqn:Hf.
  - apply find_elem in Hf as [He Hin]. destruct (elem_ok _ _ _ Hok He) as (? & ? & ?).
    destruct (edges_free _ _ _ Hok He). fold (estart e). unfold estart in *. split_and!; auto. lia.
  - destruct (prev_boundary_law _ _ Hb) as (b & -> & Hbb & Hlt); [lia|].
    pose proof (adjust_out s b true Hok Hbb) as (? & ? & ?).
    unfold adjust_pos_out_of_elements in *.
    destruct (find_element_containing s b); split_and!; auto; lia.
Qed.

Lemma next_atomic_ok s pos :
  elements_ok (text s) (elements s) → bd (text s) pos →
  let r := next_atomic_boundary s pos in
  bd (text s) r ∧ free (elements s) r ∧ pos ≤ r.
Proof.
  intros Hok Hb. cbv zeta. pose proof (bd_range _ _ Hb) as Hr. unfold next_atomic_boundary.
  assert (H0 : free (elements s) (slen (text s))).
  { intros e He. destruct (elem_ok _ _ _ Hok He) as (_ & Hs%bd_range & _). lia. }
  destruct (Z.leb_spec (slen (text s)) pos) as [?|Hpos]; [split_and!; [apply bd_len|done|lia]|].
  destruct (List.find _ _) as [e|] eqn:Hf.
  - apply find_elem in Hf as [He Hin]. destruct (elem_ok _ _ _ Hok He) as (? & ? & ?).
    destruct (edges_free _ _ _ Hok He). fold (eend e). unfold eend in *. split_and!; auto. lia.
  - destruct (next_boundary_law _ _ Hb Hpos) as (b & -> & Hbb & Hlt).
    pose proof (adjust_out s b false Hok Hbb) as (? & ? & ?).
    unfold adjust_pos_out_of_elements in *.
    destruct (find_element_containing s b); split_and!; auto; lia.
Qed.

Lemma step_back_ok s n pos :
  elements_ok (text s) (elements s) → bd (text s) pos →
  bd (text s) (step_back s n pos) ∧ step_back s n pos ≤ pos.
Proof.
  intros Hok. revert pos. induction n as [|n IH]; intros pos Hb; cbn [step_back]; [split; [done|lia]|].
  destruct (prev_atomic_ok s pos Hok Hb) as (Hb' & _ & Hle).
  destruct (_ =? 0); [done|]. destruct (IH _ Hb'). split; [done|lia].
Qed.

Lemma step_forward_ok s n pos :
  elements_ok (text s) (elements s) → bd (text s) pos →
  bd (text s) (step_forward s n pos) ∧ pos ≤ step_forward s n pos.
Proof.
  intros Hok. revert pos. induction n as [|n IH]; intros pos Hb; cbn [step_forward]; [split; [done|lia]|].
  destruct (next_atomic_ok s pos Hok Hb) as (Hb' & _ & Hle).
  destruct (_ <=? _); [done|]. destruct (IH _ Hb'). split; [done|lia].
Qed.

Lemma move_left_keeps s : wf s → keeps s (move_cursor_left s).
Proof.
  intros Hwf. destruct (prev_atomic_ok s _ (wf_elements _ Hwf) (wf_cursor _ Hwf)) as (? & ? & _).
  apply (same_core_keeps _ (with_cursor_pos (prev_atomic_boundary s (cursor_pos s)) s)); [|done].
  by apply move_keeps.
Qed.

Lemma move_right_keeps s : wf s → keeps s (move_cursor_right s).
Proof.
  intros Hwf. destruct (next_atomic_ok s _ (wf_elements _ Hwf) (wf_cursor _ Hwf)) as (? & ? & _).
  apply (same_core_keeps _ (with_cursor_pos (next_atomic_boundary s (cursor_pos s)) s)); [|done].
  by apply move_keeps.
Qed.

(** ** Vertical movement *)

(** A piece of a text that is cut into pieces. *)
Lemma indices_from_elem i (l : list str) j g : (j, g) ∈ indices_from i l →
  ∃ p q, concat l = p ++ g ++ q ∧ j = i + slen p.
Proof.
  revert i. induction l as [|x l IH]; intros i; cbn [indices_from concat].
  - by intros ?%elem_of_nil.
  - intros [[= -> ->]|Hin]%elem_of_cons; [exists [], (concat l); rewrite slen_nil; split; [done|lia]|].
    destruct (IH _ Hin) as (p & q & -> & ->). exists (x ++ p), q.
    rewrite <- app_assoc, slen_app. split; [done|lia].
Qed.

Lemma crossing_elem w t gs i : crossing_grapheme w t gs = Some i → ∃ g, (i, g) ∈ gs.
Proof.
  revert w. induction gs as [|[j g] gs IH]; intros w; cbn [crossing_grapheme]; [done|].
  destruct (_ <? _); [intros [= ->]; exists g; by left|].
  intros [g' Hg']%IH. exists g'. by right.
Qed.

Lemma move_to_col_ok s a b col : wf s → bd (text s) a → bd (text s) b → a ≤ b →
  succeeds s (move_to_display_col_on_line s a b col).
Proof.
  intros Hwf Ha Hb Hle. unfold move_to_display_col_on_line.
  destruct (bd_split2 _ _ _ Ha Hb Hle) as (x & m & y & _ & _ & _ & ->). cbn [mbind option_bind].
  apply succeeds_ret, clamp_move_keeps; [done|]. apply bd_range in Ha, Hb.
  destruct (crossing_grapheme _ _ _) as [i|] eqn:Hc; [|lia].
  apply crossing_elem in Hc as [g Hg]. apply indices_from_elem in Hg as (p & _ & _ & ->).
  pose proof (slen_nonneg p). lia.
Qed.

Lemma move_to_end_keeps s pos :
  wf s → pos = 0 ∨ pos = slen (text s) →
  keeps s (with_preferred_col None (with_cursor_pos pos s)).
Proof.
  intros Hwf Hpos. eapply same_core_keeps; [apply (move_keeps s pos Hwf)|done].
  - destruct Hpos as [->| ->]; [apply bd_0|apply bd_len].
  - intros _ _ e He. destruct (elem_ok _ _ _ (wf_elements _ Hwf) He) as (?%bd_range & ?%bd_range & _).
    destruct Hpos as [->| ->]; lia.
Qed.

Lemma partition_point_lookup {A} (p : A → bool) l n : partition_point p l = S n →
  ∃ x, l !! n = Some x ∧ p x = true.
Proof.
  revert n. induction l as [|x l IH]; intros n; cbn [partition_point]; [done|].
  destruct (p x) eqn:Hp; [|done]. intros [= <-].
  destruct (partition_point p l) as [|n] eqn:Hl; [by exists x|]. by apply IH.
Qed.

Lemma line_index_lookup lines pos n : wrapped_line_index_by_start lines pos = Some n →
  ∃ r, lines !! n = Some r ∧ Range.start r ≤ pos.
Proof.
  unfold wrapped_line_index_by_start. destruct (partition_point _ _) as [|m] eqn:Hp; [done|].
  intros [= <-]. destruct (partition_point_lookup _ _ _ Hp) as (r & Hr & Hle).
  exists r. split; [done|]. lia.
Qed.

(** The bounds of the line a vertical movement goes to. *)
Definition target_ok (s : TextArea) (v : option (Z * option (Z * Z))) : Prop :=
  ∀ col a b, v = Some (col, Some (a, b)) → bd (text s) a ∧ bd (text s) b ∧ a ≤ b.

Lemma visual_target_col_ok s r : wf s → bd (text s) (Range.start r) → Range.start r ≤ cursor_pos s →
  ∃ col, visual_target_col s r = Some col.
Proof.
  intros Hwf Hb Hle. unfold visual_target_col. destruct (preferred_col s) as [c|]; [by exists c|].
  destruct (bd_split2 _ _ _ Hb (wf_cursor _ Hwf) Hle) as (x & m & y & _ & _ & _ & ->).
  by eexists.
Qed.

Lemma cached_line_ok s c n r : wf s → wrap_cache s = Some c → WrapCache.lines c !! n = Some r →
  line_ok (text s) r.
Proof. intros Hwf Hc Hr. apply (Forall_lookup_1 _ _ _ _ (wf_cache _ Hwf _ Hc) Hr). Qed.

(** The end of a row, before the graphemes it shares with the next one. *)
Lemma row_end_ok s a b : wf s → bd (text s) a → bd (text s) b → a ≤ b →
  bd (text s) (Z.max (prev_atomic_boundary s b) a) ∧ a ≤ Z.max (prev_atomic_boundary s b) a.
Proof.
  intros Hwf Ha Hb Hle. destruct (prev_atomic_ok s b (wf_elements _ Hwf) Hb) as (Hp & _ & _).
  split; [|lia]. destruct (Z.max_spec (prev_atomic_boundary s b) a) as [[_ ->]|[_ ->]]; done.
Qed.

Lemma visual_above_ok s : wf s → ∃ v, visual_line_above s = Some v ∧ target_ok s v.
Proof.
  intros Hwf. unfold visual_line_above. destruct (wrap_cache s) as [c|] eqn:Hc; [|by eexists].
  destruct (wrapped_line_index_by_start _ _) as [n|] eqn:Hn; [|by eexists].
  apply line_index_lookup in Hn as (r & Hr & Hle). rewrite Hr. cbn [mbind option_bind].
  destruct (cached_line_ok _ _ _ _ Hwf Hc Hr) as (Hb & _ & _).
  destruct (visual_target_col_ok s r Hwf Hb Hle) as [col ->]. cbn [mbind option_bind].
  destruct n as [|n]; [by eexists|].
  destruct (WrapCache.lines c !! n) as [pr|] eqn:Hpr; cbn [mbind option_bind].
  - destruct (cached_line_ok _ _ _ _ Hwf Hc Hpr) as (Hb1 & Hb2 & Hb3).
    eexists. split; [done|]. intros col' a b [= <- <- <-]. unfold usat_sub.
    pose proof (bd_range _ _ Hb1). rewrite Z.max_l by lia.
    destruct (_ =? Range.start r); [|done]. split; [done|]. by apply row_end_ok.
  - apply lookup_ge_None in Hpr. apply lookup_lt_Some in Hr. lia.
Qed.

Lemma visual_below_ok s : wf s → ∃ v, visual_line_below s = Some v ∧ target_ok s v.
Proof.
  intros Hwf. unfold visual_line_below. destruct (wrap_cache s) as [c|] eqn:Hc; [|by eexists].
  destruct (wrapped_line_index_by_start _ _) as [n|] eqn:Hn; [|by eexists].
  apply line_index_lookup in Hn as (r & Hr & Hle). rewrite Hr. cbn [mbind option_bind].
  destruct (cached_line_ok _ _ _ _ Hwf Hc Hr) as (Hb & _ & _).
  destruct (visual_target_col_ok s r Hwf Hb Hle) as [col ->]. cbn [mbind option_bind].
  destruct (WrapCache.lines c !! S n) as [nx|] eqn:Hnx; [|by eexists].
  destruct (cached_line_ok _ _ _ _ Hwf Hc Hnx) as (Hb1 & Hb2 & Hb3).
  eexists. split; [done|]. intros col' a b [= <- <- <-]. unfold usat_sub.
  pose proof (bd_range _ _ Hb1). rewrite Z.max_l by lia.
  destruct (WrapCache.lines c !! S (S n)) as [fo|]; [|done].
  destruct (Range.start fo =? _); [|done]. split; [done|]. by apply row_end_ok.
Qed.

Lemma keep_col_keeps s col : wf s → keeps s (keep_preferred_col s col).
Proof. intros Hwf. unfold keep_preferred_col. destruct (preferred_col s); by apply same_core_wf. Qed.

Lemma keep_col_core s col : same_core s (keep_preferred_col s col).
Proof. unfold keep_preferred_col. by destruct (preferred_col s). Qed.

Lemma logical_col_ok s : wf s → ∃ col s', logical_target_col s = Some (col, s') ∧ same_core s s'.
Proof.
  intros Hwf. unfold logical_target_col. destruct (preferred_col s) as [c|]; [by exists c, s|].
  destruct (beginning_of_line_ok _ _ (wf_cursor _ Hwf)) as (b & Hb & Hbb & Hle).
  unfold current_display_col, beginning_of_current_line. rewrite Hb. cbn [mbind option_bind].
  destruct (bd_split2 _ _ _ Hbb (wf_cursor _ Hwf) Hle) as (x & m & y & _ & _ & _ & ->).
  cbn [mbind option_bind]. by eexists _, _.
Qed.

(** A movement within the line that [a] and [b] bound, from a state that agrees with [s]. *)
Lemma move_line_succeeds s s' a b col :
  wf s → same_core s s' → bd (text s) a → bd (text s) b → a ≤ b →
  succeeds s (move_to_display_col_on_line s' a b col).
Proof.
  intros Hwf Hc Ha Hb Hle. pose proof (same_core_wf _ _ Hwf Hc) as Hk.
  destruct Hc as (Ht & _). rewrite <- Ht in Ha, Hb.
  destruct (move_to_col_ok s' a b col (keeps_wf _ _ Hk) Ha Hb Hle) as (s2 & -> & Hk2).
  exists s2. split; [done|by eapply keeps_trans].
Qed.

Lemma move_up_ok s : wf s → succeeds s (move_cursor_up s).
Proof.
  intros Hwf. unfold move_cursor_up. destruct (visual_above_ok s Hwf) as (v & -> & Hv).
  cbn [mbind option_bind]. destruct v as [[col [[a b]|]]|].
  - destruct (Hv col a b eq_refl) as (Ha & Hb & Hle).
    by apply move_line_succeeds; [|apply keep_col_core|..].
  - apply succeeds_ret, move_to_end_keeps; auto.
  - destruct (bd_split _ _ (wf_cursor _ Hwf)) as (p & q & Ht & Hp & -> & _). cbn [mbind option_bind].
    destruct (str_rfind is_lf p) as [i|] eqn:Hf;
      [|apply succeeds_ret, move_to_end_keeps; auto].
    apply str_rfind_spec in Hf as (a & c & b & -> & -> & ->%is_lf_true).
    destruct (logical_col_ok s Hwf) as (col & s' & -> & Hc). cbn [mbind option_bind].
    assert (Ha : bd (text s) (slen a)) by (rewrite Ht, <- app_assoc; apply bd_app).
    pose proof (beginning_of_line_ok s _ Ha) as (bl & Hbl & Hbb & Hle).
    unfold beginning_of_line in Hbl. destruct Hc as (Ht' & Hc). rewrite Ht'.
    destruct (slice_to (text s) (slen a)) as [x|]; [|done]. cbn [mbind option_bind] in *.
    injection Hbl as ->. apply move_line_succeeds; [done|by split|done|done|done].
Qed.

Lemma move_down_ok s : wf s → succeeds s (move_cursor_down s).
Proof.
  intros Hwf. unfold move_cursor_down. destruct (visual_below_ok s Hwf) as (v & -> & Hv).
  cbn [mbind option_bind]. destruct v as [[col [[a b]|]]|].
  - destruct (Hv col a b eq_refl) as (Ha & Hb & Hle).
    by apply move_line_succeeds; [|apply keep_col_core|..].
  - apply succeeds_ret, move_to_end_keeps; auto.
  - destruct (logical_col_ok s Hwf) as (col & s' & -> & Hc). cbn [mbind option_bind].
    destruct Hc as (Ht' & Hcu' & Hc). rewrite Ht', Hcu'.
    destruct (bd_split _ _ (wf_cursor _ Hwf)) as (p & q & Ht & Hp & _ & ->). cbn [mbind option_bind].
    destruct (str_find is_lf q) as [i|] eqn:Hf.
    + apply str_find_spec in Hf as (a & c & b & -> & -> & ->%is_lf_true).
      assert (Ha : bd (text s) (slen a + cursor_pos s + 1)).
      { rewrite Ht. eapply bd_eq; [apply bd_app_r, bd_after_lf|lia]. }
      destruct (end_of_line_ok s _ Ha) as (el & Hel & Heb & Hle & _). unfold end_of_line in Hel.
      destruct (slice_from (text s) _) as [x|]; [|done]. cbn [mbind option_bind] in *.
      injection Hel as ->. apply move_line_succeeds; [done|by split|done|done|done].
    + destruct (move_to_end_keeps s (slen (text s)) Hwf) as [K1 K2 K3]; [by right|].
      apply succeeds_ret. eapply same_core_keeps; [by apply move_to_end_keeps; [|right]|].
      by destruct Hc.
Qed.

(** ** Words *)

(** [piece] stands at byte [i] of [s]. *)
Definition piece_at (s : str) (ip : Z * str) : Prop :=
  ∃ p q, s = p ++ ip.2 ++ q ∧ ip.1 = slen p.

Lemma piece_at_bounds s i g : piece_at s (i, g) → bd s i ∧ bd s (i + slen g).
Proof.
  intros (p & q & Hs & Hi). cbn in *. subst. split; [apply bd_app|]. apply bd_sub, bd_len.
Qed.

Lemma piece_at_sub p s q i g : piece_at s (i, g) → piece_at (p ++ s ++ q) (slen p + i, g).
Proof.
  intros (x & y & Hs & Hi). cbn in *. subst. exists (p ++ x), (y ++ q). cbn.
  rewrite <- !app_assoc, slen_app. done.
Qed.

Lemma split_segment_ok start segment u v k b : segment = u ++ v → bd segment k → k ≤ slen u →
  ∃ pieces, split_segment start segment k b (char_indices_from (slen u) v) = Some pieces
    ∧ Forall (λ ip, ∃ j, ip.1 = start + j ∧ piece_at segment (j, ip.2)) pieces.
Proof.
  revert u k b. induction v as [|c v IH]; intros u k b Hseg Hk Hle;
    cbn [char_indices_from split_segment].
  - destruct (bd_split _ _ Hk) as (p & q & Hs & Hp & _ & ->). cbn [mbind option_bind].
    eexists. split; [done|]. constructor; [|constructor]. exists k. split; [done|].
    exists p, []. cbn. by rewrite app_nil_r.
  - assert (Hseg' : segment = (u ++ [c]) ++ v) by by rewrite <- app_assoc.
    assert (Hlen : slen u + Z.of_nat (len_utf8 c) = slen (u ++ [c]))
      by (autorewrite with slen; lia).
    rewrite Hlen. destruct (Bool.eqb _ b).
    + apply (IH (u ++ [c])); [done|done|]. slen_lia.
    + assert (Hu : bd segment (slen u)) by (rewrite Hseg; apply bd_app).
      destruct (bd_split2 _ _ _ Hk Hu Hle) as (p & m & q & Hs & Hp & Hm & ->).
      cbn [mbind option_bind].
      destruct (IH (u ++ [c]) (slen u) (is_word_separator c) Hseg' Hu) as (rest & -> & Hrest);
        [slen_lia|].
      cbn [mbind option_bind]. eexists. split; [done|]. constructor; [|done].
      exists k. split; [done|]. by exists p, q.
Qed.

Lemma split_segments_ok s pre segs : s = pre ++ concat segs →
  ∃ pieces, split_segments (indices_from (slen pre) segs) = Some pieces ∧ Forall (piece_at s) pieces.
Proof.
  revert pre. induction segs as [|seg segs IH]; intros pre Hs; cbn [indices_from split_segments].
  { eexists. split; [done|constructor]. }
  cbn [concat] in Hs.
  assert (Hsub : ∃ ps, match char_indices seg with
      | [] => Some []
      | (_, first_char) :: chars =>
          split_segment (slen pre) seg 0 (is_word_separator first_char) chars
      end = Some ps ∧ Forall (piece_at s) ps).
  { destruct seg as [|c v]; cbn [char_indices char_indices_from]; [eexists; split; [done|constructor]|].
    destruct (split_segment_ok (slen pre) (c :: v) [c] v 0 (is_word_separator c) eq_refl (bd_0 _))
      as (ps & Hps & Hall); [slen_lia|].
    exists ps. rewrite slen_cons, slen_nil, Z.add_0_r in Hps. split; [exact Hps|].
    apply (Forall_weaken _ _ _ Hall). intros [i g] (j & Hij & Hp). cbn in Hij. subst i.
    rewrite Hs. by apply piece_at_sub. }
  destruct Hsub as (ps & -> & Hps). cbn [mbind option_bind].
  destruct (IH (pre ++ seg)) as (rest & Hrest & Hall); [by rewrite Hs, app_assoc|].
  rewrite slen_app in Hrest. rewrite Hrest. cbn [mbind option_bind].
  eexists. split; [done|]. by apply Forall_app.
Qed.

Lemma split_word_pieces_ok s :
  ∃ pieces, split_word_pieces s = Some pieces ∧ Forall (piece_at s) pieces.
Proof.
  unfold split_word_pieces, split_word_bound_indices.
  apply (split_segments_ok s []). cbn. by rewrite word_bounds_concat.
Qed.

(** The loops over separators stop at the edge of a piece. *)
Lemma skip_back_ok (P : Z → Prop) base pieces start :
  Forall (λ ip, P (base + ip.1)) pieces → P start → P (skip_separators_back base pieces start).
Proof.
  intros Hall. revert start. induction Hall as [|[i g] pieces Hp Hall IH]; intros start Hs;
    cbn [skip_separators_back]; [done|]. destruct (all_separators g); auto.
Qed.

Lemma skip_ok (P : Z → Prop) base pieces end_ :
  Forall (λ ip, P (base + ip.1 + slen ip.2)) pieces → P end_ →
  P (skip_separators base pieces end_).
Proof.
  intros Hall. revert end_. induction Hall as [|[i g] pieces Hp Hall IH]; intros end_ Hs;
    cbn [skip_separators]; [done|]. destruct (all_separators g); auto.
Qed.

(** A boundary of [s] within the bytes from [a] to [b]. *)
Definition bd_in (s : str) (a b n : Z) : Prop := bd s n ∧ a ≤ n ≤ b.

(** The edges of the pieces of a run. *)
Lemma pieces_in p run q pieces : Forall (piece_at run) pieces →
  Forall (λ ip, bd_in (p ++ run ++ q) (slen p) (slen p + slen run) (slen p + ip.1)
                ∧ bd_in (p ++ run ++ q) (slen p) (slen p + slen run) (slen p + ip.1 + slen ip.2))
    pieces.
Proof.
  intros Hall. apply (Forall_weaken _ _ _ Hall). intros [i g] Hp. cbn.
  destruct (piece_at_bounds _ _ _ Hp) as [Hi%bd_range Hg%bd_range].
  destruct (piece_at_bounds _ _ _ (piece_at_sub p _ q _ _ Hp)) as [Hi' Hg'].
  split; (split; [done|]); lia.
Qed.

(** The last word of a text that ends with it: where it starts. *)
Lemma beginning_of_previous_word_ok s : wf s →
  ∃ b, beginning_of_previous_word s = Some b ∧ bd (text s) b ∧ b ≤ cursor_pos s.
Proof.
  intros Hwf. unfold beginning_of_previous_word.
  destruct (bd_split _ _ (wf_cursor _ Hwf)) as (pre & suf & Ht & Hp & -> & _).
  cbn [mbind option_bind]. pose proof (slen_nonneg pre).
  destruct (List.find _ _) as [[i c]|] eqn:Hf; [|exists 0; split_and!; [done|apply bd_0|lia]].
  apply rfind_char_spec in Hf as (a & b & -> & -> & _).
  rewrite slice_to_app. cbn [mbind option_bind].
  set (run_start := match List.find _ _ with Some (idx, ch) => _ | None => 0 end).
  assert (Hrs : bd a run_start).
  { unfold run_start. destruct (List.find _ (rev (char_indices a))) as [[j d]|] eqn:Hf; [|apply bd_0].
    apply rfind_char_spec in Hf as (x & y & Ha & -> & _). by apply (char_bounds _ x d y). }
  destruct (bd_range _ _ Hrs). destruct (char_bounds _ a c b eq_refl) as (Hb1 & Hb2 & Hb3).
  destruct (bd_split2 (a ++ c :: b) run_start (slen a + Z.of_nat (len_utf8 c)))
    as (x & run & y & Hs & Hx & Hr & ->); [by apply bd_app_l|done|lia|].
  cbn [mbind option_bind]. destruct (split_word_pieces_ok run) as (pieces & -> & Hall).
  cbn [mbind option_bind]. apply (pieces_in x run (y ++ suf)), Forall_rev in Hall.
  replace (x ++ run ++ y ++ suf) with (text s) in Hall by (rewrite Ht, Hs, <- !app_assoc; done).
  rewrite Hx in Hall, Hr. rewrite Hr in Hall.
  assert (Hrb : bd (text s) run_start) by (rewrite Ht; by apply bd_app_l, bd_app_l).
  destruct (rev pieces) as [|[i g] ps]; [exists run_start; split_and!; [done|done|lia]|].
  apply list.Forall_cons in Hall as [[Hg _] Hps]. cbn in Hg.
  set (st := if all_separators g then _ else _).
  assert (Hst : bd_in (text s) run_start (slen a + Z.of_nat (len_utf8 c)) st).
  { unfold st. destruct (all_separators g); [|done]. apply skip_back_ok; [|done].
    apply (Forall_weaken _ _ _ Hps). by intros ? [? _]. }
  destruct (adjust_out s st true (wf_elements _ Hwf) (proj1 Hst)) as (Hb & _ & Hle).
  eexists. split_and!; [done|done|]. destruct Hst. lia.
Qed.

Lemma end_of_next_word_from_ok s pos : wf s → bd (text s) pos →
  ∃ e, end_of_next_word_from s pos = Some e ∧ bd (text s) e ∧ pos ≤ e.
Proof.
  intros Hwf Hpos. unfold end_of_next_word_from.
  destruct (bd_split _ _ Hpos) as (pre & suf & Ht & Hp & _ & ->). cbn [mbind option_bind].
  destruct (str_find not_whitespace suf) as [i|] eqn:Hf;
    [|eexists; split_and!; [done|apply bd_len|apply bd_range in Hpos; lia]].
  apply str_find_spec in Hf as (a & c & b & -> & -> & _).
  rewrite slice_from_app. cbn [mbind option_bind].
  assert (Hrun : bd (c :: b) (default (slen (c :: b)) (str_find is_whitespace (c :: b)))).
  { destruct (str_find is_whitespace (c :: b)) as [j|] eqn:Hj; [|apply bd_len].
    apply str_find_spec in Hj as (x & d & y & Hxy & -> & _). cbn [default].
    rewrite Hxy. apply bd_app. }
  destruct (bd_split _ _ Hrun) as (run & rest & Hrr & Hrl & -> & _). cbn [mbind option_bind].
  destruct (split_word_pieces_ok run) as (pieces & -> & Hall). cbn [mbind option_bind].
  apply (pieces_in (pre ++ a) run rest) in Hall.
  replace ((pre ++ a) ++ run ++ rest) with (text s) in Hall
    by (rewrite Ht, Hrr, <- !app_assoc; done).
  rewrite slen_app, Hp in Hall. pose proof (slen_nonneg a).
  destruct pieces as [|[i g] ps].
  { exists (pos + slen a). split_and!; [done| |lia]. rewrite Ht, <- Hp. apply bd_app_r, bd_app. }
  apply list.Forall_cons in Hall as [[_ Hg] Hps]. cbn in Hg.
  set (e := if all_separators g then _ else _).
  assert (He : bd_in (text s) (pos + slen a) (pos + slen a + slen run) e).
  { unfold e. destruct (all_separators g); [|done]. apply skip_ok; [|done].
    apply (Forall_weaken _ _ _ Hps). by intros ? [_ ?]. }
  destruct (adjust_out s e false (wf_elements _ Hwf) (proj1 He)) as (Hb & _ & Hle).
  eexists. split_and!; [done|done|]. destruct He. lia.
Qed.

Lemma end_of_next_word_ok s : wf s →
  ∃ e, end_of_next_word s = Some e ∧ bd (text s) e ∧ cursor_pos s ≤ e.
Proof. intros Hwf. apply end_of_next_word_from_ok; [done|apply Hwf]. Qed.

Lemma vim_word_end_exclusive_ok s : wf s →
  ∃ e, vim_word_end_exclusive s = Some e ∧ bd (text s) e ∧ cursor_pos s ≤ e.
Proof.
  intros Hwf. unfold vim_word_end_exclusive.
  destruct (end_of_next_word_ok s Hwf) as (e & -> & Hb & Hle). cbn [mbind option_bind].
  destruct (_ && _); [|by exists e].
  destruct (end_of_next_word_from_ok s e Hwf Hb) as (e' & ? & ? & ?). exists e'. split_and!; auto. lia.
Qed.

Lemma vim_word_end_cursor_ok s : wf s → ∃ e, vim_word_end_cursor s = Some e.
Proof.
  intros Hwf. unfold vim_word_end_cursor.
  destruct (vim_word_end_exclusive_ok s Hwf) as (e & -> & _). by eexists.
Qed.

Lemma vim_line_end_cursor_ok s : wf s → ∃ e, vim_line_end_cursor s = Some e.
Proof.
  intros Hwf. unfold vim_line_end_cursor, beginning_of_current_line, end_of_current_line.
  destruct (beginning_of_line_ok _ _ (wf_cursor _ Hwf)) as (b & -> & _).
  destruct (end_of_line_ok _ _ (wf_cursor _ Hwf)) as (e & -> & _). by eexists.
Qed.

Lemma beginning_of_next_word_ok s : wf s → ∃ b, beginning_of_next_word s = Some b.
Proof.
  intros Hwf. unfold beginning_of_next_word.
  destruct (bd_split _ _ (wf_cursor _ Hwf)) as (pre & suf & _ & _ & _ & ->). cbn [mbind option_bind].
  destruct (str_find not_whitespace suf) as [i|]; [|by eexists].
  destruct (negb _); [by eexists|].
  destruct (end_of_next_word_ok s Hwf) as (e & -> & Hb & _). cbn [mbind option_bind].
  destruct (_ <=? _); [by eexists|].
  destruct (bd_split _ _ Hb) as (x & y & _ & _ & _ & ->). cbn [mbind option_bind].
  destruct (str_find not_whitespace y); by eexists.
Qed.

End Laws.
