(* ===== verification/TextAreaEditing.v ===== *)
(** * Editing keeps the text area well formed

    Every command and every key event returns, leaves the area well formed, keeps the
    texts of the elements that stay, and keeps the cursor out of them; a yank undoes a
    kill. *)

From Stdlib Require Import String ZArith NArith Lia.
From stdpp Require Import base option list numbers.
From S2P Require Import Prelude StrBytes Keymap TextArea TextAreaInput TextAreaFacts TextAreaMoves.

Local Open Scope Z_scope.

(** ** Text objects *)

(** A range a text object gives, if it gives one. *)
Definition object_ok (t : str) (r : option Range.t) : Prop := ∀ r', r = Some r' → range_ok t r'.

Lemma non_ws_loop_ok t u v start : t = u ++ v →
  (∀ k, start = Some k → bd t k ∧ k ≤ slen u) →
  Forall (range_ok t) (non_ws_loop (slen t) (char_indices_from (slen u) v) start).
Proof.
  revert u start. induction v as [|c v IH]; intros u start Ht Hst;
    cbn [char_indices_from non_ws_loop].
  - destruct start as [k|]; [|constructor]. destruct (Hst k eq_refl).
    constructor; [|constructor]. split_and!; cbn; [done|apply bd_len|].
    rewrite Ht, app_nil_r. lia.
  - assert (Ht' : t = (u ++ [c]) ++ v) by by rewrite <- app_assoc.
    assert (Hlen : slen u + Z.of_nat (len_utf8 c) = slen (u ++ [c]))
      by (autorewrite with slen; lia).
    assert (Hu : bd t (slen u)) by (rewrite Ht; apply bd_app).
    rewrite Hlen. destruct (is_whitespace c); destruct start as [k|].
    + destruct (Hst k eq_refl). constructor; [by split_and!|]. by apply IH.
    + by apply IH.
    + apply IH; [done|]. intros k' [= <-]. destruct (Hst k eq_refl). split; [done|]. slen_lia.
    + apply IH; [done|]. intros k' [= <-]. split; [done|]. slen_lia.
Qed.

Lemma non_ws_runs_ok s : Forall (range_ok (text s)) (non_ws_runs s).
Proof. unfold non_ws_runs, char_indices. by apply (non_ws_loop_ok (text s) [] (text s) None). Qed.

Lemma whitespace_end_ok t p q start u v e :
  t = p ++ q → start = slen p → q = u ++ v → bd t e → start ≤ e ≤ start + slen u →
  let r := whitespace_end start (char_indices_from (slen u) v) e in bd t r ∧ start ≤ r.
Proof.
  intros Ht Hst. revert u e. induction v as [|c v IH]; intros u e Hq He Hle;
    cbn [char_indices_from whitespace_end]; cbv zeta; [split; [done|lia]|].
  assert (Hq' : q = (u ++ [c]) ++ v) by by rewrite <- app_assoc.
  assert (Hlen : slen u + Z.of_nat (len_utf8 c) = slen (u ++ [c])) by (autorewrite with slen; lia).
  destruct (is_whitespace c); [|split; [done|lia]].
  rewrite <- Z.add_assoc, Hlen. apply IH; [done| |pose proof (slen_nonneg (u ++ [c])); lia].
  rewrite Ht, Hst, Hq'. apply bd_app_r, bd_app.
Qed.

Lemma whitespace_start_ok t l e :
  Forall (λ ic, bd t ic.1 ∧ ic.1 ≤ e) l → ∀ st, bd t st → st ≤ e →
  bd t (whitespace_start l st) ∧ whitespace_start l st ≤ e.
Proof.
  induction 1 as [|[i c] l [Hi Hle] Hl IH]; intros st Hst Hse; cbn [whitespace_start]; [done|].
  destruct (is_whitespace c); [by apply IH|done].
Qed.

Lemma expand_word_around_ok s r : range_ok (text s) r →
  ∃ r', expand_word_around s r = Some r' ∧ range_ok (text s) r'.
Proof.
  intros (Hs & He & Hle). unfold expand_word_around, following_whitespace_end.
  destruct (bd_split _ _ He) as (p & q & Ht & Hp & _ & ->). cbn [mbind option_bind].
  destruct (whitespace_end_ok (text s) p q (Range.end_ r) [] q (Range.end_ r)) as [Hb Hge];
    [done|done|done|done|rewrite slen_nil; lia|]. rewrite slen_nil in *.
  unfold char_indices. destruct (Z.ltb_spec (Range.end_ r)
    (whitespace_end (Range.end_ r) (char_indices_from 0 q) (Range.end_ r))) as [Hlt|Hlt].
  - eexists. split; [done|]. split_and!; cbn; [done|done|lia].
  - unfold preceding_whitespace_start.
    destruct (bd_split _ _ Hs) as (p' & q' & Ht' & Hp' & -> & _). cbn [mbind option_bind].
    eexists. split; [done|].
    destruct (whitespace_start_ok (text s) (rev (char_indices p')) (Range.start r)) with (Range.start r)
      as [Hws Hwl]; [|done|lia|split_and!; cbn; [done|done|lia]].
    apply Forall_rev, list.Forall_forall. intros [i c] Hic.
    apply char_indices_elem in Hic as (a & b & -> & ->). cbn. rewrite Ht'. split.
    + apply bd_app_l, bd_app.
    + rewrite <- Hp'. slen_lia.
Qed.

Lemma shorter_range_ok t c best :
  bd t (Range.start c) → bd t (Range.end_ c) → object_ok t best → object_ok t (shorter_range c best).
Proof.
  intros Hs He Hb. unfold shorter_range. destruct (Z.leb_spec (Range.start c) (Range.end_ c)); cbn [andb]; [|done].
  destruct (match best with Some _ => _ | None => _ end); [|done]. by intros r [= <-].
Qed.

(** An open delimiter: both edges of its character are boundaries. *)
Definition open_ok (t : str) (open : char) (i : Z) : Prop :=
  bd t i ∧ bd t (i + Z.of_nat (len_utf8 open)).

Lemma paired_loop_ok s scope open close u v stack best : text s = u ++ v →
  Forall (open_ok (text s) open) stack → object_ok (text s) best →
  object_ok (text s) (paired_loop s scope open close (char_indices_from (slen u) v) stack best).
Proof.
  revert u stack best. induction v as [|c v IH]; intros u stack best Ht Hst Hb;
    cbn [char_indices_from paired_loop]; [done|].
  assert (Ht' : text s = (u ++ [c]) ++ v) by by rewrite <- app_assoc.
  assert (Hlen : slen u + Z.of_nat (len_utf8 c) = slen (u ++ [c])) by (autorewrite with slen; lia).
  destruct (char_bounds (text s) u c v Ht) as (Hb1 & Hb2 & _).
  rewrite Hlen. destruct (is_inside_element s (slen u)); [by apply IH|].
  destruct (N.eqb_spec c open) as [->|_]; [apply IH; [done| |done]; by constructor|].
  destruct (N.eqb_spec c close) as [->|_]; [|by apply IH].
  destruct stack as [|o stack]; [by apply IH|]. apply list.Forall_cons in Hst as [[Ho1 Ho2] Hst].
  apply IH; [done|done|]. destruct (_ && _); [|done].
  apply shorter_range_ok; [..|done]; destruct scope; cbn; try done. by rewrite <- Hlen.
Qed.

Lemma paired_ok s scope open close :
  object_ok (text s) (paired_text_object_range s scope open close).
Proof.
  unfold paired_text_object_range, char_indices.
  by apply (paired_loop_ok s scope open close [] (text s)).
Qed.

Lemma quoted_loop_ok s scope quote p u v q open best : text s = p ++ (u ++ v) ++ q →
  (∀ i, open = Some i → open_ok (text s) quote i) → object_ok (text s) best →
  ∃ r, quoted_loop s scope quote (slen p) (char_indices_from (slen u) v) open best = Some r
    ∧ object_ok (text s) r.
Proof.
  revert u open best. induction v as [|c v IH]; intros u open best Ht Ho Hb;
    cbn [char_indices_from quoted_loop]; [by exists best|].
  assert (Ht' : text s = p ++ ((u ++ [c]) ++ v) ++ q) by (rewrite Ht, <- !app_assoc; done).
  assert (Hlen : slen u + Z.of_nat (len_utf8 c) = slen (u ++ [c])) by (autorewrite with slen; lia).
  destruct (char_bounds (text s) (p ++ u) c (v ++ q)) as (Hb1 & Hb2 & _);
    [by rewrite Ht, <- !app_assoc|].
  rewrite slen_app in Hb1, Hb2. rewrite Hlen. destruct (is_inside_element s _); [by apply IH|].
  destruct (N.eqb_spec c quote) as [->|_]; cbn [negb orb]; [|by apply IH].
  unfold is_escaped. destruct (bd_split _ _ Hb1) as (x & y & _ & _ & -> & _).
  cbn [mbind option_bind]. destruct (Nat.odd _); [by apply IH|].
  destruct open as [i|]; apply IH; try done.
  - destruct (Ho i eq_refl) as [Ho1 Ho2]. destruct (_ && _); [|done].
    apply shorter_range_ok; [..|done]; destruct scope; cbn; done.
  - intros i [= <-]. by split.
Qed.

Lemma quoted_ok s scope quote : wf s →
  ∃ r, quoted_text_object_range s scope quote = Some r ∧ object_ok (text s) r.
Proof.
  intros Hwf. unfold quoted_text_object_range, beginning_of_current_line, end_of_current_line.
  destruct (beginning_of_line_ok _ _ (wf_cursor _ Hwf)) as (b & -> & Hbb & Hbl).
  destruct (end_of_line_ok _ _ (wf_cursor _ Hwf)) as (e & -> & Heb & Hel & _).
  cbn [mbind option_bind].
  destruct (bd_split2 _ _ _ Hbb Heb) as (x & m & y & Ht & Hx & _ & ->); [lia|].
  cbn [mbind option_bind]. rewrite <- Hx. unfold char_indices.
  by apply (quoted_loop_ok s scope quote x [] m y).
Qed.

Section Laws.
Context {U : UnicodeText} {UL : UnicodeLaws}.

Lemma piece_at_cursor_ok s p run q pieces last_piece :
  text s = p ++ run ++ q → Forall (piece_at run) pieces → object_ok (text s) last_piece →
  match piece_at_cursor s (slen p) pieces last_piece with
  | inl r => range_ok (text s) r
  | inr l => object_ok (text s) l
  end.
Proof.
  intros Ht Hall. revert last_piece.
  induction Hall as [|[i g] pieces Hp Hall IH]; intros last_piece Hl; cbn [piece_at_cursor]; [done|].
  assert (Hr : range_ok (text s) (Range.mk (slen p + i) (slen p + i + slen g))).
  { destruct (piece_at_bounds _ _ _ (piece_at_sub p _ q _ _ Hp)) as [H1 H2]. rewrite Ht.
    split_and!; cbn; [done|done|]. pose proof (slen_nonneg g). lia. }
  destruct (cursor_overlaps_range s _); [done|]. apply IH. by intros r [= <-].
Qed.

Lemma small_word_ok s : ∃ r, small_word_range_at_cursor s = Some r ∧ object_ok (text s) r.
Proof.
  unfold small_word_range_at_cursor. destruct (List.find _ _) as [run|] eqn:Hf; [|by eexists].
  apply find_elem in Hf as [Hin _].
  pose proof (Forall_elem _ _ _ (non_ws_runs_ok s) Hin) as Hr. pose proof Hr as (Hs & He & Hle).
  destruct (bd_split2 _ _ _ Hs He Hle) as (p & m & q & Ht & Hp & Hm & ->). cbn [mbind option_bind].
  destruct (split_word_pieces_ok m) as (pieces & -> & Hall). cbn [mbind option_bind].
  eexists. split; [done|]. rewrite <- Hp.
  pose proof (piece_at_cursor_ok s p m q pieces None Ht Hall) as Hpc.
  destruct (piece_at_cursor s (slen p) pieces None) as [r|l].
  - intros r' [= <-]. by apply Hpc.
  - destruct (cursor_is_at_range_end s run); [|by intros r' [= <-]].
    destruct l as [r|]; [by apply Hpc|by intros r' [= <-]].
Qed.

Lemma word_object_ok s scope big :
  ∃ r, word_text_object_range s scope big = Some r ∧ object_ok (text s) r.
Proof.
  unfold word_text_object_range.
  assert (Hin : ∃ r, (if big then Some (big_word_range_at_cursor s) else small_word_range_at_cursor s)
                     = Some r ∧ object_ok (text s) r).
  { destruct big; [|apply small_word_ok]. eexists. split; [done|]. intros r Hr.
    apply find_elem in Hr as [Hr _]. by apply (Forall_elem _ _ _ (non_ws_runs_ok s)). }
  destruct Hin as (r & -> & Hr). cbn [mbind option_bind].
  destruct r as [r|]; [|by eexists]. destruct scope; [by eexists|].
  destruct (expand_word_around_ok s r (Hr r eq_refl)) as (r' & -> & Hr'). cbn [mbind option_bind].
  eexists. split; [done|]. by intros r'' [= <-].
Qed.

Lemma text_object_ok s object scope : wf s →
  ∃ r, text_object_range s object scope = Some r ∧ object_ok (text s) r.
Proof.
  intros Hwf. destruct object; cbn [text_object_range];
    first [apply word_object_ok|by apply quoted_ok|eexists; split; [done|apply paired_ok]].
Qed.

(** ** Commands *)

(** A command that only moves the cursor to a computed position. *)
Lemma set_cursor_opt_ok s r : wf s → (∃ p, r = Some p) → succeeds s (set_cursor s <$> r).
Proof. intros Hwf [p ->]. by apply succeeds_ret, set_cursor_keeps. Qed.

Lemma bol_ok s : wf s → ∃ b, beginning_of_current_line s = Some b.
Proof. intros Hwf. destruct (beginning_of_line_ok _ _ (wf_cursor _ Hwf)) as (b & H & _). by exists b. Qed.

Lemma eol_ok s : wf s → ∃ e, end_of_current_line s = Some e.
Proof. intros Hwf. destruct (end_of_line_ok _ _ (wf_cursor _ Hwf)) as (e & H & _). by exists e. Qed.

Lemma delete_backward_ok s n : wf s → succeeds s (delete_backward s n).
Proof.
  intros Hwf. unfold delete_backward. destruct (_ || _); [by apply succeeds_ret, keeps_refl|].
  destruct (step_back_ok s n _ (wf_elements _ Hwf) (wf_cursor _ Hwf)).
  apply replace_range_ok; [done|]. split_and!; cbn; [done|apply Hwf|done].
Qed.

Lemma delete_forward_ok s n : wf s → succeeds s (delete_forward s n).
Proof.
  intros Hwf. unfold delete_forward. destruct (_ || _); [by apply succeeds_ret, keeps_refl|].
  destruct (step_forward_ok s n _ (wf_elements _ Hwf) (wf_cursor _ Hwf)).
  apply replace_range_ok; [done|]. split_and!; cbn; [apply Hwf|done|done].
Qed.

(** The kill commands kill a range on boundaries that the cursor touches, or nothing. *)
Definition kills_at_cursor (s : TextArea) (r : option TextArea) : Prop :=
  r = Some s ∨ ∃ range kind, r = kill_range_with_kind s range kind ∧ range_ok (text s) range
    ∧ Range.start range ≤ cursor_pos s ≤ Range.end_ range.

Lemma kills_ok s r : wf s → kills_at_cursor s r → succeeds s r.
Proof.
  intros Hwf [->|(range & kind & -> & Hr & _)]; [by apply succeeds_ret, keeps_refl|by apply kill_ok].
Qed.

Lemma kills_yank s r s1 : wf s → kills_at_cursor s r → r = Some s1 → text s1 ≠ text s →
  ∃ s2, yank s1 = Some s2 ∧ text s2 = text s.
Proof.
  intros Hwf [->|(range & kind & -> & Hr & Hin)]; [by intros [= <-]|]. by apply kill_yank.
Qed.

Lemma delete_forward_kill_kills s n : wf s → kills_at_cursor s (delete_forward_kill s n).
Proof.
  intros Hwf. unfold delete_forward_kill. destruct (_ || _); [by left|]. right.
  destruct (step_forward_ok s n _ (wf_elements _ Hwf) (wf_cursor _ Hwf)).
  eexists _, _. split; [done|]. split; [split_and!; cbn; [apply Hwf|done|done]|cbn; lia].
Qed.

Lemma delete_backward_word_kills s : wf s → kills_at_cursor s (delete_backward_word s).
Proof.
  intros Hwf. unfold delete_backward_word.
  destruct (beginning_of_previous_word_ok s Hwf) as (b & -> & Hb & Hle). right.
  eexists _, _. split; [done|]. split; [split_and!; cbn; [done|apply Hwf|done]|cbn; lia].
Qed.

Lemma delete_forward_word_kills s : wf s → kills_at_cursor s (delete_forward_word s).
Proof.
  intros Hwf. unfold delete_forward_word.
  destruct (end_of_next_word_ok s Hwf) as (e & -> & He & Hle). cbn [mbind option_bind].
  destruct (_ <? _); [right|by left].
  eexists _, _. split; [done|]. split; [split_and!; cbn; [apply Hwf|done|done]|cbn; lia].
Qed.

Lemma kill_to_end_of_line_kills s : wf s → kills_at_cursor s (kill_to_end_of_line s).
Proof.
  intros Hwf. unfold kill_to_end_of_line, end_of_current_line.
  destruct (end_of_line_ok _ _ (wf_cursor _ Hwf)) as (e & -> & He & Hle & Hn). cbn [mbind option_bind].
  destruct (Z.eqb_spec (cursor_pos s) e) as [Heq|Hneq].
  - destruct (Z.ltb_spec e (slen (text s))); [right|by left]. eexists _, _. split; [done|].
    split; [split_and!; cbn; [apply Hwf|by apply Hn|lia]|cbn; lia].
  - right. eexists _, _. split; [done|]. split; [split_and!; cbn; [apply Hwf|done|lia]|cbn; lia].
Qed.

Lemma vim_kill_to_end_of_line_kills s : wf s → kills_at_cursor s (vim_kill_to_end_of_line s).
Proof.
  intros Hwf. unfold vim_kill_to_end_of_line, end_of_current_line.
  destruct (end_of_line_ok _ _ (wf_cursor _ Hwf)) as (e & -> & He & Hle & _). cbn [mbind option_bind].
  destruct (_ <? _); [right|by left].
  eexists _, _. split; [done|]. split; [split_and!; cbn; [apply Hwf|done|lia]|cbn; lia].
Qed.

(** The byte before the beginning of a line that is not the first is a newline. *)
Lemma bol_pred s pos b : bd (text s) pos → beginning_of_line s pos = Some b → 0 < b →
  bd (text s) (b - 1).
Proof.
  intros (p & q & Ht & Hp & Hto & _)%bd_split. unfold beginning_of_line. rewrite Hto.
  cbn [mbind option_bind]. intros [= <-]. destruct (str_rfind is_lf p) as [i|] eqn:Hf; [|lia].
  apply str_rfind_spec in Hf as (a & c & b & -> & -> & _). intros _.
  replace (slen a + 1 - 1) with (slen a) by lia. rewrite Ht, <- app_assoc. apply bd_app.
Qed.

Lemma kill_to_beginning_of_line_kills s : wf s → kills_at_cursor s (kill_to_beginning_of_line s).
Proof.
  intros Hwf. unfold kill_to_beginning_of_line, beginning_of_current_line.
  destruct (beginning_of_line_ok _ _ (wf_cursor _ Hwf)) as (b & Hbol & Hb & Hle). rewrite Hbol.
  cbn [mbind option_bind]. destruct (Z.eqb_spec (cursor_pos s) b) as [Heq|Hneq].
  - destruct (Z.ltb_spec 0 b); [right|by left]. eexists _, _. split; [done|].
    pose proof (bol_pred _ _ _ (wf_cursor _ Hwf) Hbol).
    split; [split_and!; cbn; [auto|done|lia]|cbn; lia].
  - right. eexists _, _. split; [done|]. split; [split_and!; cbn; [done|apply Hwf|lia]|cbn; lia].
Qed.

Lemma kill_current_line_kills s : wf s → kills_at_cursor s (kill_current_line s).
Proof.
  intros Hwf. unfold kill_current_line.
  destruct (line_range_ok _ (wf_cursor _ Hwf)) as (r & -> & Hr & Hin). right.
  by eexists _, _.
Qed.

Lemma yank_current_line_ok s : wf s → succeeds s (yank_current_line s).
Proof.
  intros Hwf. unfold yank_current_line.
  destruct (line_range_ok _ (wf_cursor _ Hwf)) as (r & -> & Hr & _). by apply yank_range_ok.
Qed.

Lemma yank_ok s : wf s → succeeds s (yank s).
Proof.
  intros Hwf. unfold yank. case_bool_decide; [by apply succeeds_ret, keeps_refl|by apply insert_str_ok].
Qed.

Lemma then_set_cursor s r f : succeeds s r →
  succeeds s (r ≫= λ s', Some (set_cursor s' (f s'))).
Proof.
  intros Hr. apply succeeds_bind; [done|]. intros s' Hk. by apply succeeds_ret, set_cursor_keeps, Hk.
Qed.

Lemma paste_line_ok s : wf s → succeeds s (paste_line_after_current_line s).
Proof.
  intros Hwf. unfold paste_line_after_current_line, end_of_current_line.
  destruct (end_of_line_ok _ _ (wf_cursor _ Hwf)) as (e & -> & He & _). cbn [mbind option_bind].
  apply bd_range in He. apply then_set_cursor, insert_str_at_ok; [done|]. destruct (_ <? _); lia.
Qed.

Lemma paste_after_cursor_ok s : wf s → succeeds s (paste_after_cursor s).
Proof.
  intros Hwf. unfold paste_after_cursor.
  case_bool_decide; [by apply succeeds_ret, keeps_refl|].
  destruct (kill_buffer_kind s); [|by apply paste_line_ok].
  pose proof (set_cursor_keeps s (next_atomic_boundary s (cursor_pos s)) Hwf) as Hk.
  destruct (insert_str_ok (set_cursor s (next_atomic_boundary s (cursor_pos s))) (kill_buffer s))
    as (s' & Hs' & Hk'); [apply Hk|].
  exists s'. split; [exact Hs'|by eapply keeps_trans].
Qed.

Lemma to_beginning_ok s b : wf s → succeeds s (move_cursor_to_beginning_of_line s b).
Proof.
  intros Hwf. unfold move_cursor_to_beginning_of_line, beginning_of_current_line.
  destruct (beginning_of_line_ok _ _ (wf_cursor _ Hwf)) as (bol & Hbol & Hbb & Hbl). rewrite Hbol.
  cbn [mbind option_bind].
  assert (Hin : succeeds s (if b && (cursor_pos s =? bol)
     then pos ← beginning_of_line s (usat_sub (cursor_pos s) 1); Some (set_cursor s pos)
     else Some (set_cursor s bol))).
  { destruct (b && (cursor_pos s =? bol)) eqn:Hb; [|by apply succeeds_ret, set_cursor_keeps].
    assert (Hpos : bd (text s) (usat_sub (cursor_pos s) 1)).
    { unfold usat_sub. pose proof (bd_range _ _ Hbb). destruct (Z.eqb_spec (cursor_pos s) bol) as [Hc|];
        [|by rewrite andb_false_r in Hb]. rewrite Hc. destruct (decide (0 < bol)).
      - rewrite Z.max_l by lia. by apply (bol_pred _ _ _ (wf_cursor _ Hwf) Hbol).
      - rewrite Z.max_r by lia. apply bd_0. }
    destruct (beginning_of_line_ok _ _ Hpos) as (b' & -> & _). cbn [mbind option_bind].
    by apply succeeds_ret, set_cursor_keeps. }
  apply succeeds_bind; [exact Hin|]. intros s' Hk. apply succeeds_ret, same_core_wf; [apply Hk|done].
Qed.

Lemma to_end_ok s b : wf s → succeeds s (move_cursor_to_end_of_line s b).
Proof.
  intros Hwf. unfold move_cursor_to_end_of_line, end_of_current_line.
  destruct (end_of_line_ok _ _ (wf_cursor _ Hwf)) as (e & -> & He & Hle & Hn). cbn [mbind option_bind].
  destruct (b && (cursor_pos s =? e)) eqn:Hb; [|by apply succeeds_ret, set_cursor_keeps].
  assert (Hpos : bd (text s) (Z.min (cursor_pos s + 1) (slen (text s)))).
  { destruct (Z.eqb_spec (cursor_pos s) e) as [Hc|]; [|by rewrite andb_false_r in Hb].
    rewrite Hc. pose proof (bd_range _ _ He). destruct (decide (e < slen (text s))).
    - rewrite Z.min_l by lia. by apply Hn.
    - rewrite Z.min_r by lia. apply bd_len. }
  destruct (end_of_line_ok _ _ Hpos) as (p & -> & _). cbn [mbind option_bind].
  by apply succeeds_ret, set_cursor_keeps.
Qed.
(** ** Keys *)

(** A change of mode after a command. *)
Lemma then_core s r f : succeeds s r → (∀ s', same_core s' (f s')) →
  succeeds s (r ≫= λ s', Some (f s')).
Proof.
  intros Hr Hf. apply succeeds_bind; [done|]. intros s' Hk.
  apply succeeds_ret, same_core_wf; [apply Hk|done].
Qed.

Lemma core_ok s s' : wf s → same_core s s' → succeeds s (Some s').
Proof. intros Hwf Hc. by apply succeeds_ret, same_core_wf. Qed.

(** A cursor movement and a change of mode. *)
Lemma set_cursor_core_ok s p f : wf s → (∀ s', same_core s' (f s')) →
  succeeds s (Some (f (set_cursor s p))).
Proof.
  intros Hwf Hf. apply succeeds_ret. eapply same_core_keeps; [by apply set_cursor_keeps|done].
Qed.

Lemma linewise_range_ok s motion : wf s →
  ∃ r, linewise_range_for_vertical_motion s motion = Some r ∧ object_ok (text s) r.
Proof.
  intros Hwf. unfold linewise_range_for_vertical_motion.
  destruct (line_range_ok _ (wf_cursor _ Hwf)) as (r & Hline & (Hs & He & Hle) & Hin).
  rewrite Hline. cbn [mbind option_bind].
  destruct motion; cbn [mbind option_bind]; try by eexists.
  - assert (Hup : ∃ b, (if (Range.start r =? 0) then Some (Range.start r)
       else beginning_of_line s (usat_sub (Range.start r) 1)) = Some b ∧ bd (text s) b).
    { destruct (Z.eqb_spec (Range.start r) 0); [by eexists|].
      unfold current_line_range_with_newline, beginning_of_current_line in Hline.
      destruct (beginning_of_line s (cursor_pos s)) as [bol|] eqn:Hbol; [|done].
      cbn [mbind option_bind] in Hline. destruct (end_of_current_line s); [|done].
      injection Hline as <-. cbn in *. pose proof (bd_range _ _ Hs).
      unfold usat_sub. rewrite Z.max_l by lia.
      destruct (beginning_of_line_ok s (bol - 1)) as (b & Hb & Hbb & _);
        [apply (bol_pred _ _ _ (wf_cursor _ Hwf) Hbol); lia|]. by exists b. }
    destruct Hup as (b & -> & Hb). cbn [mbind option_bind].
    eexists. split; [done|]. destruct (Z.ltb_spec (Range.start (Range.mk b (Range.end_ r)))
      (Range.end_ (Range.mk b (Range.end_ r)))); intros r' [= <-]; cbn in *.
    split_and!; cbn; [done|done|lia].
  - assert (Hdn : ∃ e, (if (slen (text s) <=? Range.end_ r) then Some (Range.end_ r)
       else next_eol ← end_of_line s (Range.end_ r);
            Some (if (next_eol <? slen (text s)) then next_eol + 1 else next_eol)) = Some e
       ∧ bd (text s) e).
    { destruct (Z.leb_spec (slen (text s)) (Range.end_ r)); [by eexists|].
      destruct (end_of_line_ok s _ He) as (e & -> & Heb & _ & Hn). cbn [mbind option_bind].
      eexists. split; [done|]. destruct (Z.ltb_spec e (slen (text s))); auto. }
    destruct Hdn as (e & -> & Hb). cbn [mbind option_bind].
    eexists. split; [done|]. destruct (Z.ltb_spec (Range.start (Range.mk (Range.start r) e))
      (Range.end_ (Range.mk (Range.start r) e))); intros r' [= <-]; cbn in *.
    split_and!; cbn; [done|done|lia].
Qed.

(** The motions but the vertical ones move the cursor and nothing else. *)
Definition moves (s : TextArea) (r : option TextArea) : Prop :=
  ∃ s', r = Some s' ∧ text s' = text s ∧ elements s' = elements s ∧ wrap_cache s' = wrap_cache s
    ∧ bd (text s) (cursor_pos s').

Lemma set_cursor_moves s r : wf s → (∃ p, r = Some p) → moves s (set_cursor s <$> r).
Proof.
  intros Hwf [p ->]. eexists. split_and!; [done|done|done|done|].
  apply (wf_cursor _ (keeps_wf _ _ (set_cursor_keeps s p Hwf))).
Qed.

Lemma range_for_motion_ok s motion : wf s →
  ∃ r s', range_for_motion s motion = Some (r, s') ∧ object_ok (text s) r ∧ same_core s s'.
Proof.
  intros Hwf.
  assert (Hmove : ∀ r, moves s r →
    ∃ range s', ('(target, s') ← (s' ← r; Some (cursor_pos s', with_preferred_col (preferred_col s)
        (with_cursor_pos (cursor_pos s) s')));
      Some (if (cursor_pos s =? target) then None
            else if (target <? cursor_pos s) then Some (Range.mk target (cursor_pos s))
            else Some (Range.mk (cursor_pos s) target), s')) = Some (range, s')
      ∧ object_ok (text s) range ∧ same_core s s').
  { intros r (s' & -> & Ht & He & Hw & Hb). cbn [mbind option_bind]. eexists _, _. split; [done|].
    split; [|by split_and!].
    destruct (Z.eqb_spec (cursor_pos s) (cursor_pos s')); [done|].
    destruct (Z.ltb_spec (cursor_pos s') (cursor_pos s)); intros r [= <-];
      (split_and!; cbn; [| |lia]); auto; apply Hwf. }
  assert (Hw : ∀ P, (∃ e : Z, P = Some e ∧ bd (text s) e ∧ cursor_pos s ≤ e) → ∃ e, P = Some e)
    by (intros P (e & -> & _); by exists e).
  destruct motion; cbn [range_for_motion];
    try (unfold target_for_motion; cbv zeta; apply Hmove).
  - eexists. split_and!; [done|done|done|done|].
    apply (wf_cursor _ (keeps_wf _ _ (move_left_keeps s Hwf))).
  - eexists. split_and!; [done|done|done|done|].
    apply (wf_cursor _ (keeps_wf _ _ (move_right_keeps s Hwf))).
  - destruct (linewise_range_ok s VimMotion.Up Hwf) as (r & -> & Hr). by eexists _, _.
  - destruct (linewise_range_ok s VimMotion.Down Hwf) as (r & -> & Hr). by eexists _, _.
  - by apply set_cursor_moves, beginning_of_next_word_ok.
  - apply set_cursor_moves; [done|]. destruct (beginning_of_previous_word_ok s Hwf) as (b & -> & _).
    by exists b.
  - by apply set_cursor_moves, Hw, vim_word_end_exclusive_ok.
  - by apply set_cursor_moves, bol_ok.
  - by apply set_cursor_moves, eol_ok.
Qed.

Lemma apply_operator_ok s op motion : wf s → succeeds s (apply_vim_operator s op motion).
Proof.
  intros Hwf. unfold apply_vim_operator.
  destruct (range_for_motion_ok s motion Hwf) as (r & s' & -> & Hr & Hc). cbn [mbind option_bind].
  pose proof (same_core_wf _ _ Hwf Hc) as Hk.
  destruct r as [r|]; [|by apply succeeds_ret]. pose proof (Hr r eq_refl) as Hr'.
  destruct Hc as (Ht & _). rewrite <- Ht in Hr'.
  assert (Hs : succeeds s' (match op with Delete => kill_range s' r | Yank => yank_range s' r
                            | Change => Some s' end)).
  { destruct op; [by apply kill_ok; [apply Hk|]|by apply yank_range_ok; [apply Hk|]|].
    apply succeeds_ret, keeps_refl, Hk. }
  destruct Hs as (s2 & -> & Hk2). exists s2. split; [done|by eapply keeps_trans].
Qed.

(** The range of a motion touches the cursor. *)
Lemma range_for_motion_touches s motion r s' : wf s →
  range_for_motion s motion = Some (Some r, s') → Range.start r ≤ cursor_pos s ≤ Range.end_ r.
Proof.
  intros Hwf.
  assert (Hmove : ∀ m, ('(target, s') ← target_for_motion s m;
      Some (if (cursor_pos s =? target) then None
            else if (target <? cursor_pos s) then Some (Range.mk target (cursor_pos s))
            else Some (Range.mk (cursor_pos s) target), s')) = Some (Some r, s') →
      Range.start r ≤ cursor_pos s ≤ Range.end_ r).
  { intros m ([target s1] & _ & Hr)%bind_Some. destruct (Z.eqb_spec (cursor_pos s) target); [done|].
    destruct (Z.ltb_spec target (cursor_pos s)); injection Hr as <- <-; cbn; lia. }
  assert (Hline : ∀ m, (range ← linewise_range_for_vertical_motion s m; Some (range, s))
      = Some (Some r, s') → Range.start r ≤ cursor_pos s ≤ Range.end_ r).
  { intros m (range & Hr & [= -> <-])%bind_Some. unfold linewise_range_for_vertical_motion in Hr.
    destruct (line_range_ok s (wf_cursor _ Hwf)) as (cur & Hcur & (Hs & He & Hle) & Hin).
    rewrite Hcur in Hr. cbn [mbind option_bind] in Hr.
    apply bind_Some in Hr as (range & Hr & Hsel). destruct range as [range|]; [|done].
    destruct (_ <? _); [|done]. injection Hsel as ->. destruct m; try done.
    - apply bind_Some in Hr as (st & Hst & [= <-]). cbn. destruct (Z.eqb_spec (Range.start cur) 0).
      + injection Hst as <-. lia.
      + pose proof (bd_range _ _ Hs). unfold usat_sub in Hst. rewrite Z.max_l in Hst by lia.
        destruct (slice_to (text s) (Range.start cur - 1)) as [pre|] eqn:Hpre;
          [|by unfold beginning_of_line in Hst; rewrite Hpre in Hst].
        destruct (beginning_of_line_ok s (Range.start cur - 1)) as (b & Hb & _ & Hbl);
          [apply slice_to_Some in Hpre as (q & -> & <-); apply bd_app|].
        rewrite Hst in Hb. injection Hb as ->. lia.
    - apply bind_Some in Hr as (en & Hen & [= <-]). cbn. destruct (_ <=? _); [injection Hen as <-; lia|].
      destruct (end_of_line_ok s _ He) as (e & Hee & _ & Hel & _). rewrite Hee in Hen.
      cbn [mbind option_bind] in Hen. injection Hen as <-. destruct (_ <? _); lia. }
  destruct motion; cbn [range_for_motion]; first [apply Hline|apply Hmove].
Qed.

(** A delete with a motion can be yanked back, and so can an operator on a range that
    touches the cursor. *)
Lemma operator_yank s motion s1 : wf s → apply_vim_operator s Delete motion = Some s1 →
  text s1 ≠ text s → ∃ s2, yank s1 = Some s2 ∧ text s2 = text s.
Proof.
  intros Hwf. unfold apply_vim_operator.
  destruct (range_for_motion_ok s motion Hwf) as (r & s' & Hrange & Hr & Hc). rewrite Hrange.
  cbn [mbind option_bind]. pose proof (keeps_wf _ _ (same_core_wf _ _ Hwf Hc)) as Hwf'.
  destruct Hc as (Ht & Hcur & _). rewrite <- Ht. destruct r as [r|]; [|by intros [= <-]].
  pose proof (range_for_motion_touches s motion r s' Hwf Hrange) as Hin. rewrite <- Hcur in Hin.
  apply kill_yank; [done| |done]. rewrite Ht. by apply Hr.
Qed.

Lemma yank_with_vim_mode s mode : yank (with_vim_mode mode s) = with_vim_mode mode <$> yank s.
Proof.
  unfold yank. cbn [kill_buffer with_vim_mode]. case_bool_decide; [done|]. unfold insert_str, insert_str_at.
  change (clamp_pos_for_insertion (with_vim_mode mode s)) with (clamp_pos_for_insertion s).
  cbn [text cursor_pos with_vim_mode]. destruct (string_insert_str _ _ _); [|done].
  cbn [mbind option_bind]. cbn [cursor_pos with_wrap_cache with_text]. by destruct (_ <=? _).
Qed.

Lemma operator_to_range_yank s op r s1 : wf s → op ≠ Yank → range_ok (text s) r →
  Range.start r ≤ cursor_pos s ≤ Range.end_ r → apply_vim_operator_to_range s op r = Some s1 →
  text s1 ≠ text s → ∃ s2, yank s1 = Some s2 ∧ text s2 = text s.
Proof.
  intros Hwf Hop Hr Hin. destruct op; [|done|]; cbn [apply_vim_operator_to_range];
    [by apply kill_yank|].
  intros (s' & Hk & [= <-])%bind_Some Hne.
  destruct (kill_yank _ _ _ _ Hwf Hr Hin Hk Hne) as (s2 & Hy & Ht).
  exists (with_vim_mode Insert s2). by rewrite yank_with_vim_mode, Hy.
Qed.

Lemma apply_operator_to_range_ok s op r : wf s → range_ok (text s) r →
  succeeds s (apply_vim_operator_to_range s op r).
Proof.
  intros Hwf Hr. destruct op; cbn [apply_vim_operator_to_range];
    [by apply kill_ok|by apply yank_range_ok|]. by apply then_core; [apply kill_ok|].
Qed.

Lemma handle_vim_operator_ok s op event : wf s → succeeds s (handle_vim_operator s op event).
Proof.
  intros Hwf. unfold handle_vim_operator. cbv zeta.
  destruct (_ && _); [by apply kills_ok, kill_current_line_kills|].
  destruct (_ && _); [by apply yank_current_line_ok|].
  destruct (is_pressed _ _); [by apply core_ok|].
  destruct (vim_text_object_scope_for_event s event); [by apply core_ok|].
  destruct (if bool_decide _ then _ else _); [by apply apply_operator_ok|by apply core_ok].
Qed.

Lemma handle_vim_text_object_ok s op scope event : wf s →
  succeeds s (handle_vim_text_object s op scope event).
Proof.
  intros Hwf. unfold handle_vim_text_object.
  destruct (is_pressed _ _); [by apply core_ok|].
  destruct (vim_text_object_for_event s event) as [object|]; [|by apply core_ok].
  destruct (text_object_ok s object scope Hwf) as (r & -> & Hr). cbn [mbind option_bind].
  destruct r as [r|]; [|by apply core_ok]. by apply apply_operator_to_range_ok, Hr.
Qed.

Lemma open_line_ok s pos cursor : wf s → 0 ≤ pos →
  succeeds s (s' ← insert_str_at s pos [LF]; Some (with_vim_mode Insert (set_cursor s' cursor))).
Proof.
  intros Hwf Hpos. apply succeeds_bind; [by apply insert_str_at_ok|].
  intros s' Hk. by apply set_cursor_core_ok; [apply Hk|].
Qed.

Lemma vim_normal_key_ok s event : wf s → succeeds s (vim_normal_key s event).
Proof.
  intros Hwf. destruct (bol_ok s Hwf) as [bol Hbol]. destruct (eol_ok s Hwf) as [eol Heol].
  assert (Hb0 : 0 ≤ bol).
  { destruct (beginning_of_line_ok _ _ (wf_cursor _ Hwf)) as (b & Hb & Hbb%bd_range & _).
    unfold beginning_of_current_line in Hbol. rewrite Hb in Hbol. injection Hbol as <-. lia. }
  assert (He0 : 0 ≤ eol).
  { destruct (end_of_line_ok _ _ (wf_cursor _ Hwf)) as (b & Hb & Hbb%bd_range & _).
    unfold end_of_current_line in Heol. rewrite Hb in Heol. injection Heol as <-. lia. }
  unfold vim_normal_key. cbv zeta. rewrite Hbol, Heol. cbn [mbind option_bind].
  destruct (is_pressed _ _); [by apply core_ok|].
  destruct (is_pressed _ _); [by apply set_cursor_core_ok|].
  destruct (is_pressed _ _); [by apply set_cursor_core_ok|].
  destruct (is_pressed _ _).
  { destruct (first_non_blank_ok s (wf_cursor _ Hwf)) as [p ->]. by apply set_cursor_core_ok. }
  destruct (is_pressed _ _); [apply open_line_ok; [done|destruct (_ <? _); lia]|].
  destruct (is_pressed _ _); [by apply open_line_ok|].
  destruct (is_pressed _ _); [by apply succeeds_ret, move_left_keeps|].
  destruct (is_pressed _ _); [by apply succeeds_ret, move_right_keeps|].
  destruct (is_pressed _ _); [by apply move_down_ok|].
  destruct (is_pressed _ _); [by apply move_up_ok|].
  destruct (is_pressed _ _); [by apply set_cursor_opt_ok, beginning_of_next_word_ok|].
  destruct (is_pressed _ _).
  { apply set_cursor_opt_ok; [done|]. destruct (beginning_of_previous_word_ok s Hwf) as (b & -> & _).
    by exists b. }
  destruct (is_pressed _ _); [by apply set_cursor_opt_ok, vim_word_end_cursor_ok|].
  destruct (is_pressed _ _); [by apply succeeds_ret, set_cursor_keeps|].
  destruct (is_pressed _ _); [by apply set_cursor_opt_ok, vim_line_end_cursor_ok|].
  destruct (is_pressed _ _); [by apply kills_ok, delete_forward_kill_kills|].
  destruct (is_pressed _ _).
  { apply then_core; [|done]. destruct (_ <? _); [|by apply core_ok].
    by apply kills_ok, delete_forward_kill_kills. }
  destruct (is_pressed _ _); [by apply kills_ok, vim_kill_to_end_of_line_kills|].
  destruct (is_pressed _ _); [by apply then_core; [apply kills_ok, vim_kill_to_end_of_line_kills|]|].
  destruct (is_pressed _ _); [by apply yank_current_line_ok|].
  destruct (is_pressed _ _); [by apply paste_after_cursor_ok|].
  repeat (destruct (is_pressed _ _); [by apply core_ok|]). by apply core_ok.
Qed.

(** The same from a state with another pending operator. *)
Lemma from_core s s' r : wf s → same_core s s' → (wf s' → succeeds s' r) → succeeds s r.
Proof.
  intros Hwf Hc Hr. pose proof (same_core_wf _ _ Hwf Hc) as Hk.
  destruct (Hr (keeps_wf _ _ Hk)) as (s2 & -> & Hk2). exists s2. split; [done|by eapply keeps_trans].
Qed.

Lemma handle_vim_normal_ok s event : wf s → succeeds s (handle_vim_normal s event).
Proof.
  intros Hwf. unfold handle_vim_normal. cbv zeta.
  apply (from_core s (with_vim_pending VimPending.None s)); [done|done|]. intros Hwf'.
  destruct (vim_pending s);
    [by apply vim_normal_key_ok|by apply handle_vim_operator_ok|by apply handle_vim_text_object_ok].
Qed.

Lemma input_with_keymap_ok s event keymap : wf s → succeeds s (input_with_keymap s event keymap).
Proof.
  intros Hwf. unfold input_with_keymap.
  destruct (is_pressed _ _); [by apply insert_str_ok|].
  destruct (is_pressed _ _); [by apply kills_ok, delete_backward_word_kills|].
  destruct (altgr_char event); [by apply insert_str_ok|].
  destruct (is_pressed _ _); [by apply delete_backward_ok|].
  destruct (is_pressed _ _); [by apply kills_ok, delete_forward_word_kills|].
  destruct (is_pressed _ _); [by apply delete_forward_ok|].
  destruct (is_pressed _ _); [by apply kills_ok, kill_to_beginning_of_line_kills|].
  destruct (is_pressed _ _); [by apply kills_ok, kill_current_line_kills|].
  destruct (is_pressed _ _); [by apply kills_ok, kill_to_end_of_line_kills|].
  destruct (is_pressed _ _); [by apply yank_ok|].
  destruct (is_pressed _ _).
  { apply set_cursor_opt_ok; [done|]. destruct (beginning_of_previous_word_ok s Hwf) as (b & -> & _).
    by exists b. }
  destruct (is_pressed _ _).
  { apply set_cursor_opt_ok; [done|]. destruct (end_of_next_word_ok s Hwf) as (b & -> & _). by exists b. }
  destruct (is_pressed _ _); [by apply succeeds_ret, move_left_keeps|].
  destruct (is_pressed _ _); [by apply succeeds_ret, move_right_keeps|].
  destruct (is_pressed _ _); [by apply move_up_ok|].
  destruct (is_pressed _ _); [by apply move_down_ok|].
  destruct (is_pressed _ _); [by apply to_beginning_ok|].
  destruct (is_pressed _ _); [by apply to_end_ok|].
  destruct (KeyEvent.code event); try by apply core_ok.
  destruct (_ || _); [|by apply core_ok]. destruct (is_ascii_control _); [by apply core_ok|].
  by apply insert_str_ok.
Qed.

(** Within a line, the start of the line is not inside an element that spans no lines. *)
Lemma bol_free s bol : wf s → single_line s → beginning_of_current_line s = Some bol →
  free (elements s) bol.
Proof.
  intros Hwf Hl Hbol e He Hin. destruct (elem_ok _ _ _ (wf_elements _ Hwf) He) as (Hs & Hn & Hle).
  unfold beginning_of_current_line, beginning_of_line in Hbol.
  destruct (bd_split _ _ (wf_cursor _ Hwf)) as (p & q & Ht & Hp & Hto & _). rewrite Hto in Hbol.
  cbn [mbind option_bind] in Hbol. injection Hbol as <-. apply bd_range in Hs as Hs'.
  destruct (str_rfind is_lf p) as [i|] eqn:Hf; [|lia].
  apply str_rfind_spec in Hf as (a & c & b & Hpe & -> & ->%is_lf_true).
  destruct (bd_split2 _ _ _ Hs Hn Hle) as (x & m & y & Hxy & Hx & Hm & Hsl).
  assert (Hpay : (TextElement.id e, m) ∈ payloads (text s) (elements s)).
  { unfold payloads. apply list_elem_of_omap. exists e. split; [done|]. unfold str_get.
    fold (estart e) (eend e). rewrite (proj2 (Z.leb_le _ _) Hle), Hsl. done. }
  apply (Forall_elem _ _ _ Hl) in Hpay. cbn in Hpay. apply Hpay.
  assert (Heq : x ++ m ++ y = a ++ LF :: b ++ q) by (rewrite <- Hxy, Ht, Hpe, <- app_assoc; done).
  destruct (split_le _ _ _ _ Heq) as (z & -> & Hz); [lia|].
  destruct z as [|d z].
  { cbn in Hz. destruct m as [|d m]; [rewrite slen_nil in Hm; lia|]. injection Hz as -> _. by left. }
  symmetry in Hz. destruct (split_le ((d :: z) ++ [LF]) (b ++ q) m y) as (w & -> & _).
  - rewrite <- app_assoc. exact Hz.
  - assert (len_utf8 LF = 1%nat) by done. slen_lia.
  - rewrite !elem_of_app. left. right. by left.
Qed.

Lemma handle_vim_insert_ok s event : wf s → succeeds s (handle_vim_insert s event).
Proof.
  intros Hwf. unfold handle_vim_insert. case_bool_decide; [|by apply input_with_keymap_ok].
  destruct (beginning_of_line_ok _ _ (wf_cursor _ Hwf)) as (bol & Hbol & Hb & Hle).
  fold (beginning_of_current_line s) in Hbol. rewrite Hbol. cbn [mbind option_bind].
  set (s1 := if bol <? cursor_pos s then _ else s).
  assert (Hk : keeps s s1).
  { unfold s1. destruct (_ <? _); [|by apply keeps_refl].
    destruct (prev_atomic_ok s _ (wf_elements _ Hwf) (wf_cursor _ Hwf)) as (Hp & Hf & _).
    apply move_keeps; [done|by apply row_end_ok; [|..|apply Hwf|]|].
    intros _ Hl. destruct (Z.max_spec (prev_atomic_boundary s (cursor_pos s)) bol) as [[_ ->]|[_ ->]];
      [by apply bol_free|done]. }
  apply succeeds_ret. eapply same_core_keeps; [exact Hk|].
  unfold enter_vim_normal_mode. by destruct (vim_enabled s1).
Qed.

Lemma input_ok s event : wf s → succeeds s (input s event).
Proof.
  intros Hwf. unfold input. destruct (negb _); [by apply core_ok|].
  destruct (vim_enabled s); [|by apply input_with_keymap_ok].
  unfold handle_vim_input. destruct (vim_mode s);
    [by apply handle_vim_normal_ok|by apply handle_vim_insert_ok].
Qed.

End Laws.
