(* ===== verification/TextAreaElements.v ===== *)
(** * Adding, renaming, removing and restoring elements of the text area

    The operations on elements keep the area well formed; saving a draft and restoring it
    gives its elements back. *)

From Stdlib Require Import String ZArith NArith Lia Sorting.Sorted Permutation.
From stdpp Require Import base option list numbers.
From S2P Require Import Prelude StrBytes ThreadItems Keymap TextArea TextAreaFacts.

Local Open Scope Z_scope.

(** ** Sorting elements that do not overlap *)

Lemma sep_sym e f : sep e f → sep f e.
Proof. intros [?|?]; [by right|by left]. Qed.

Lemma insert_elements_perm e es : insert_by_start e es ≡ₚ e :: es.
Proof.
  induction es as [|f es IH]; cbn [insert_by_start]; [done|]. destruct (_ <=? _); [done|].
  rewrite IH. apply Permutation_swap.
Qed.

Lemma sort_elements_perm es : sort_by_start es ≡ₚ es.
Proof.
  unfold sort_by_start. induction es as [|e es IH]; cbn [foldr]; [done|].
  rewrite insert_elements_perm. by apply perm_skip.
Qed.

Lemma insert_elements_sorted e es : StronglySorted el_before es → Forall (sep e) es →
  StronglySorted el_before (insert_by_start e es).
Proof.
  intros Hs Hsep. induction Hs as [|f es Hs IH Hf]; cbn [insert_by_start].
  { constructor; constructor. }
  apply list.Forall_cons in Hsep as [Hef Hes]. fold (estart e) (estart f).
  destruct (Z.leb_spec (estart e) (estart f)) as [Hle|Hlt].
  - constructor; [by constructor|]. constructor; [by split|].
    apply list.Forall_forall. intros g Hg. split; [|by apply (Forall_elem _ _ _ Hes)].
    destruct (Forall_elem _ _ _ Hf Hg). lia.
  - constructor; [by apply IH|]. rewrite insert_elements_perm.
    constructor; [|done]. split; [lia|by apply sep_sym].
Qed.

Lemma sort_by_start_ok t es : spread t es → elements_ok t (sort_by_start es).
Proof.
  intros [Hok Hs]. split; [by rewrite sort_elements_perm|]. clear Hok. unfold sort_by_start.
  induction Hs as [|e es He Hs IH]; cbn [foldr]; [constructor|].
  apply insert_elements_sorted; [done|]. fold (sort_by_start es). by rewrite sort_elements_perm.
Qed.

Lemma ord_pairs_snoc {A} (R : A → A → Prop) l x :
  ForallOrdPairs R l → Forall (λ y, R y x) l → ForallOrdPairs R (l ++ [x]).
Proof.
  induction 1 as [|y l Hy Hl IH]; intros Hx; cbn [app]; [repeat constructor|].
  apply list.Forall_cons in Hx as [Hyx Hx]. constructor; [|by apply IH].
  apply Forall_snoc. by split.
Qed.

Lemma ord_pairs_perm {A} (R : A → A → Prop) l k : (∀ x y, R x y → R y x) →
  l ≡ₚ k → ForallOrdPairs R l → ForallOrdPairs R k.
Proof.
  intros Hsym. induction 1 as [|x l k Hp IH|x y l|l k j _ IH1 _ IH2]; intros Hl; auto.
  - inversion_clear Hl. constructor; [by rewrite <- Hp|by apply IH].
  - inversion_clear Hl as [|? ? Hx Hl']. inversion_clear Hl' as [|? ? Hy Hl'']. 
    apply list.Forall_cons in Hx as [Hxy Hx]. constructor; [constructor; auto|by constructor].
Qed.

Lemma ord_pairs_map {A} (R : A → A → Prop) (g : A → A) l :
  (∀ x y, x ∈ l → y ∈ l → R x y → R (g x) (g y)) → ForallOrdPairs R l → ForallOrdPairs R (map g l).
Proof.
  intros Hg Hl. induction Hl as [|x l Hx Hl IH]; cbn; [constructor|]. constructor.
  - apply list.Forall_forall. intros y' Hy'. apply list_elem_of_In, in_map_iff in Hy' as (y & <- & Hy).
    apply list_elem_of_In in Hy. apply Hg; [by left|by right|]. by apply (Forall_elem _ _ _ Hx).
  - apply IH. intros y z Hy Hz. apply Hg; by right.
Qed.

Lemma spread_perm t l k : l ≡ₚ k → spread t l → spread t k.
Proof. intros Hp [H1 H2]. split; [by rewrite <- Hp|by apply (ord_pairs_perm _ l k sep_sym)]. Qed.

#[export] Instance spread_proper t : Proper ((≡ₚ) ==> iff) (spread t).
Proof. intros l k Hp. split; by apply spread_perm. Qed.

(** ** Adding an element *)

Lemma add_element_ok s r :
  wf s → range_ok (text s) r →
  (∀ e, e ∈ elements s → eend e ≤ Range.start r ∨ Range.end_ r ≤ estart e) →
  wf (add_element s r).2.
Proof.
  intros Hwf (Hb1 & Hb2 & Hle) Hap. unfold add_element, take_element_id. cbn.
  set (e := TextElement.mk _ _).
  split; [apply Hwf| |apply Hwf]. apply (sort_by_start_ok (text s)).
  destruct (elements_spread _ _ (wf_elements _ Hwf)) as [Hok Hs]. split.
  - apply Forall_snoc. by split.
  - apply ord_pairs_snoc; [done|]. apply list.Forall_forall. intros f Hf. apply (Hap f Hf).
Qed.

Lemma insert_element_ok s t : wf s → ∃ id s', insert_element s t = Some (id, s') ∧ wf s'.
Proof.
  intros Hwf. unfold insert_element.
  pose proof (bd_range _ _ (wf_cursor _ Hwf)) as Hc.
  destruct (clamp_nearest_ok s _ (wf_elements _ Hwf) (proj1 Hc)) as [Hb Hf].
  change (clamp_pos_for_insertion s (cursor_pos s))
    with (clamp_pos_to_nearest_boundary s (cursor_pos s)).
  set (p := clamp_pos_to_nearest_boundary s (cursor_pos s)) in *. pose proof (bd_range _ _ Hb).
  destruct (insert_spec s p t Hwf) as (a & b & s1 & _ & Ha & Hins & Ht1 & _ & _ & Hk & Hap); [lia|].
  rewrite (clamp_nearest_id s p Hb Hf) in Ha, Hap.
  rewrite Hins. cbn [mbind option_bind].
  assert (Hwf1 : wf (add_element s1 (Range.mk p (p + slen t))).2).
  { apply add_element_ok; [apply Hk| |done]. pose proof (slen_nonneg t).
    rewrite Ht1, <- Ha. split_and!; cbn; [apply bd_app|apply bd_app_r, bd_app|lia]. }
  destruct (add_element s1 (Range.mk p (p + slen t))) as [id s2]. cbn in Hwf1.
  eexists _, _. split; [done|]. apply (set_cursor_keeps s2 _ Hwf1).
Qed.

Lemma add_element_range_ok s r :
  wf s → 0 ≤ Range.start r → 0 ≤ Range.end_ r → wf (add_element_range s r).2.
Proof.
  intros Hwf H1 H2. unfold add_element_range. pose proof (slen_nonneg (text s)).
  set (start := clamp_pos_to_char_boundary s (Z.min (Range.start r) _)).
  set (end_ := clamp_pos_to_char_boundary s (Z.min (Range.end_ r) _)).
  assert (Hs : bd (text s) start) by (apply clamp_char_bd; lia).
  assert (He : bd (text s) end_) by (apply clamp_char_bd; lia).
  destruct (Z.leb_spec end_ start); [done|]. destruct (existsb _ _); [done|].
  destruct (existsb (λ e, (start <? _) && _) (elements s)) eqn:Hov; [done|].
  pose proof (add_element_ok s (Range.mk start end_) Hwf) as Hadd.
  destruct (add_element s (Range.mk start end_)) as [id s2]. cbn in *. apply Hadd.
  - split_and!; cbn; [done|done|lia].
  - intros e Hin. apply list_elem_of_In in Hin.
    assert (Hn : ¬ ((start <? eend e) && (estart e <? end_) = true)).
    { intros Hb. enough (true = false) by done. rewrite <- Hov. symmetry.
      apply existsb_exists. by exists e. }
    lia.
Qed.

Lemma remove_element_range_ok s r : wf s → wf (remove_element_range s r).2.
Proof.
  intros Hwf. unfold remove_element_range. destruct (_ <=? _); [done|]. cbn.
  split; [apply Hwf| |apply Hwf]. destruct (wf_elements _ Hwf) as [Hok Hs].
  cbn [text elements with_elements]. set (p := λ e, _). clearbody p. split.
  - apply list.Forall_forall. intros e He. apply list_elem_of_In, filter_In in He as [He _].
    apply list_elem_of_In in He. by apply (Forall_elem _ _ _ Hok).
  - clear Hok. induction Hs as [|e es Hs IH He]; cbn; [constructor|].
    destruct (p e); [|done]. constructor; [done|].
    apply list.Forall_forall. intros f Hf. apply list_elem_of_In, filter_In in Hf as [Hf _].
    apply list_elem_of_In in Hf. by apply (Forall_elem _ _ _ He).
Qed.

(** ** Renaming an element *)

Lemma position_spec {A} (p : A → bool) l n : position p l = Some n →
  ∃ l1 x l2, l = l1 ++ x :: l2 ∧ length l1 = n ∧ p x = true.
Proof.
  revert n. induction l as [|x l IH]; intros n; cbn [position]; [done|].
  destruct (p x) eqn:Hp; [intros [= <-]; by exists [], x, l|].
  intros (m & Hm & ->)%fmap_Some. destruct (IH m Hm) as (l1 & y & l2 & -> & <- & Hy).
  by exists (x :: l1), y, l2.
Qed.

Lemma imap_map {A B} (f : nat → A → B) (g : A → B) (l : list A) :
  (∀ i x, l !! i = Some x → f i x = g x) → imap f l = map g l.
Proof.
  revert f. induction l as [|x l IH]; intros f Hfg; [done|]. cbn. f_equal; [by apply (Hfg 0%nat)|].
  apply IH. intros i y Hi. by apply (Hfg (S i)).
Qed.

(** Elements on one side of a replaced element move with the text. *)
Definition moved (p q n : Z) (e : TextElement.t) : TextElement.t :=
  if (eend e <=? p) then e
  else TextElement.mk (TextElement.id e) (Range.mk (estart e + (n - (q - p))) (eend e + (n - (q - p)))).

Lemma renamed_imap l1 e l2 p q n :
  estart e = p → eend e = q → Forall (sep e) (l1 ++ l2) →
  imap (λ j f, if (j =? length l1)%nat
               then TextElement.mk (TextElement.id e) (Range.mk p (p + n))
               else if (n - (q - p) =? 0) then f
               else shift_renamed p q n (n - (q - p)) f) (l1 ++ e :: l2)
  = map (moved p q n) l1 ++ TextElement.mk (TextElement.id e) (Range.mk p (p + n))
      :: map (moved p q n) l2.
Proof.
  intros Hp Hq Hsep.
  assert (Hone : ∀ f, sep e f → (if (n - (q - p) =? 0) then f
      else shift_renamed p q n (n - (q - p)) f) = moved p q n f).
  { intros [id [fs fe]] Hs. unfold moved, shift_renamed, sep, estart, eend in *. cbn in *.
    destruct (Z.eqb_spec (n - (q - p)) 0) as [->|].
    - rewrite !Z.add_0_r. by destruct (fe <=? p).
    - destruct (Z.leb_spec fe p); [done|]. destruct (Z.leb_spec q fs); [done|lia]. }
  apply Forall_app in Hsep as [H1 H2]. rewrite imap_app. f_equal; [|cbn [imap]; f_equal].
  - apply imap_map. intros i x Hi. rewrite (proj2 (Nat.eqb_neq _ _)).
    + by apply Hone, (Forall_lookup_1 _ _ _ _ H1 Hi).
    + apply lookup_lt_Some in Hi. lia.
  - cbn. by rewrite Nat.add_0_r, Nat.eqb_refl.
  - apply imap_map. intros i x Hi. cbn. rewrite (proj2 (Nat.eqb_neq _ _)) by lia.
    by apply Hone, (Forall_lookup_1 _ _ _ _ H2 Hi).
Qed.

(** A boundary after a replaced text. *)
Lemma bd_shift a m b t n : bd (a ++ m ++ b) n → slen a + slen m ≤ n →
  bd (a ++ t ++ b) (n + (slen t - slen m)).
Proof.
  rewrite !app_assoc. intros Hb Hle. apply bd_app_r_inv in Hb; [|by rewrite slen_app].
  apply (bd_app_r (a ++ t)) in Hb. rewrite !slen_app in Hb. eapply bd_eq; [exact Hb|lia].
Qed.

(** The elements after a renaming. *)
Lemma renamed_spread a m b t l1 e l2 :
  spread (a ++ m ++ b) (l1 ++ e :: l2) → estart e = slen a → eend e = slen a + slen m →
  spread (a ++ t ++ b)
    (map (moved (slen a) (slen a + slen m) (slen t)) l1
     ++ TextElement.mk (TextElement.id e) (Range.mk (slen a) (slen a + slen t))
     :: map (moved (slen a) (slen a + slen m) (slen t)) l2).
Proof.
  intros Hsp He1 He2. rewrite <- Permutation_middle in Hsp.
  rewrite <- Permutation_middle.
  rewrite <- map_app. set (l := l1 ++ l2) in *. destruct Hsp as [Hok Hs].
  apply list.Forall_cons in Hok as [_ Hok]. inversion_clear Hs as [|? ? Hsep Hs'].
  pose proof (slen_nonneg m). pose proof (slen_nonneg t).
  assert (Hside : ∀ f, f ∈ l → estart f ≤ eend f
    ∧ (eend f ≤ slen a ∧ moved (slen a) (slen a + slen m) (slen t) f = f
       ∨ slen a + slen m ≤ estart f ∧ slen a < eend f
         ∧ moved (slen a) (slen a + slen m) (slen t) f
           = TextElement.mk (TextElement.id f) (Range.mk (estart f + (slen t - slen m))
                                                  (eend f + (slen t - slen m))))).
  { intros f Hf. destruct (Forall_elem _ _ _ Hok Hf) as (_ & _ & Hle). split; [done|].
    specialize (Forall_elem _ _ _ Hsep Hf) as Hef. unfold sep, moved in *.
    destruct (Z.leb_spec (eend f) (slen a)); [by left|right]. split_and!; [lia|lia|].
    by replace (slen a + slen m - slen a) with (slen m) by lia. }
  split; [constructor|constructor].
  - split_and!; cbn; [apply bd_app|apply bd_app_r, bd_app|lia].
  - apply list.Forall_forall. intros f' Hf'. apply list_elem_of_In, in_map_iff in Hf' as (f & <- & Hf).
    apply list_elem_of_In in Hf. destruct (Forall_elem _ _ _ Hok Hf) as (Hb1 & Hb2 & _).
    destruct (Hside f Hf) as [Hle [[Hlt ->]|(Hge & _ & ->)]].
    + split_and!; [| |done]; (apply bd_app_l; eapply bd_app_l_inv; [done|lia]).
    + split_and!; cbn; [| |lia]; (apply bd_shift; [done|lia]).
  - apply list.Forall_forall. intros f' Hf'. apply list_elem_of_In, in_map_iff in Hf' as (f & <- & Hf).
    apply list_elem_of_In in Hf. unfold sep, estart, eend in *. cbn.
    destruct (Hside f Hf) as [Hle [[Hlt ->]|(Hge & _ & ->)]]; cbn; lia.
  - apply ord_pairs_map; [|done]. intros f g Hf Hg Hfg. unfold sep, estart, eend in *.
    destruct (Hside f Hf) as [Hle [[Hlt ->]|(Hge & ? & ->)]];
      destruct (Hside g Hg) as [Hle' [[Hlt' ->]|(Hge' & ? & ->)]]; cbn; lia.
Qed.

Lemma replace_element_payload_ok s old new_ : wf s →
  ∃ b s', replace_element_payload s old new_ = Some (b, s') ∧ wf s'.
Proof.
  intros Hwf. unfold replace_element_payload.
  destruct (position _ _) as [idx|] eqn:Hpos; [|by eexists _, _].
  apply position_spec in Hpos as (l1 & e & l2 & Hes & <- & _).
  rewrite Hes, list_lookup_middle by done. cbn [mbind option_bind].
  assert (He : el_ok (text s) e) by (apply (elem_ok _ _ _ (wf_elements _ Hwf)); rewrite Hes, elem_of_app; right; by left).
  destruct He as (Hb1 & Hb2 & Hle). fold (estart e) (eend e).
  destruct (_ || _); [by eexists _, _|].
  destruct (bd_split2 _ _ _ Hb1 Hb2 Hle) as (a & m & b & Ht & Ha & Hm & _).
  assert (Hrep : string_replace_range (text s) (estart e) (eend e) new_ = Some (a ++ new_ ++ b)).
  { unfold string_replace_range. rewrite (proj2 (Z.leb_le _ _) Hle), <- Ha, <- Hm, Ht, slice_to_app.
    cbn [mbind option_bind]. by rewrite app_assoc, <- slen_app, slice_from_app. }
  rewrite Hrep. cbn [mbind option_bind]. eexists _, _. split; [reflexivity|].
  cbn [elements with_preferred_col with_wrap_cache with_text].
  pose proof (elements_spread _ _ (wf_elements _ Hwf)) as Hsp. rewrite Ht, Hes in Hsp.
  rewrite Hes, (renamed_imap l1 e l2 (estart e) (eend e) (slen new_)); [|done|done|].
  2: { rewrite <- Permutation_middle in Hsp. destruct Hsp as [_ Hs]. by inversion_clear Hs. }
  rewrite <- Ha, <- Hm. eapply renamed_spread in Hsp as Hsp'; [|done|done].
  set (es' := map _ l1 ++ _) in *. set (cur := if _ <? _ then _ else _).
  assert (Hcur : 0 ≤ cur).
  { pose proof (bd_range _ _ (wf_cursor _ Hwf)). pose proof (slen_nonneg new_).
    pose proof (slen_nonneg a). pose proof (slen_nonneg m). unfold cur. cbn. repeat case_match; lia. }
  set (s1 := with_cursor_pos cur _).
  destruct (clamp_nearest_spread s1 cur Hsp' Hcur) as [Hb _].
  split; [exact Hb| |done]. by apply sort_by_start_ok.
Qed.

(** ** Replacing the text *)

Definition given_range (g : CoreTextElement.t) : Range.t :=
  Range.mk (CoreByteRange.start (CoreTextElement.byte_range g))
    (CoreByteRange.end_ (CoreTextElement.byte_range g)).

Definition range_sep (r r' : Range.t) : Prop :=
  Range.end_ r ≤ Range.start r' ∨ Range.end_ r' ≤ Range.start r.

(** Given elements that lie on the text and do not overlap. *)
Definition given_ok (t : str) (given : list CoreTextElement.t) : Prop :=
  Forall (range_ok t) (map given_range given) ∧ ForallOrdPairs range_sep (map given_range given).

Definition nonempty (r : Range.t) : bool := Range.start r <? Range.end_ r.

Lemma push_elements_spec s given :
  Forall (range_ok (text s)) (map given_range given) →
  let s' := push_elements s given in
  text s' = text s ∧ cursor_pos s' = cursor_pos s
  ∧ text_element_ranges s' = text_element_ranges s ++ List.filter nonempty (map given_range given).
Proof.
  revert s. induction given as [|g given IH]; intros s Hg; cbn [push_elements map].
  { by rewrite app_nil_r. }
  cbn [map] in Hg. apply list.Forall_cons in Hg as [(H1 & H2 & H3) Hg]. cbn in H1, H2, H3.
  pose proof (bd_range _ _ H1). pose proof (bd_range _ _ H2). cbv zeta.
  rewrite !Z.min_l by lia. rewrite !clamp_char_id by done. cbn [List.filter].
  unfold nonempty at 1. cbn [given_range Range.start Range.end_].
  destruct (Z.leb_spec (CoreByteRange.end_ (CoreTextElement.byte_range g))
              (CoreByteRange.start (CoreTextElement.byte_range g))).
  - rewrite (proj2 (Z.ltb_ge _ _)) by lia. by apply IH.
  - rewrite (proj2 (Z.ltb_lt _ _)) by lia. cbn.
    match goal with |- context [push_elements ?s1 given] => destruct (IH s1 Hg) as (? & ? & Hr) end.
    split_and!; [done|done|]. rewrite Hr. unfold text_element_ranges. cbn.
    rewrite map_app, <- app_assoc. done.
Qed.

Lemma ranges_spread t es :
  Forall (range_ok t) (map TextElement.range es) →
  ForallOrdPairs range_sep (map TextElement.range es) → spread t es.
Proof.
  intros H1 H2. split.
  - apply list.Forall_forall. intros e He. apply (Forall_elem _ _ _ H1).
    apply list_elem_of_fmap. by exists e.
  - clear H1. induction es as [|e es IH]; cbn in H2; [constructor|]. inversion_clear H2 as [|? ? He Hes].
    constructor; [|by apply IH]. apply list.Forall_forall. intros f Hf. apply (Forall_elem _ _ _ He).
    apply list_elem_of_fmap. by exists f.
Qed.

Lemma filter_ord_pairs {A} (R : A → A → Prop) p l :
  ForallOrdPairs R l → ForallOrdPairs R (List.filter p l).
Proof.
  induction 1 as [|x l Hx Hl IH]; cbn; [constructor|]. destruct (p x); [|done].
  constructor; [|done]. apply list.Forall_forall. intros y Hy.
  apply list_elem_of_In, filter_In in Hy as [Hy _]. apply list_elem_of_In in Hy.
  by apply (Forall_elem _ _ _ Hx).
Qed.

Lemma filter_Forall {A} (P : A → Prop) p l : Forall P l → Forall P (List.filter p l).
Proof. induction 1 as [|x l Hx Hl IH]; cbn; [constructor|]. destruct (p x); [by constructor|done]. Qed.

Lemma set_text_wf s t given :
  (∀ g, given = Some g → given_ok t g) → wf (set_text_inner s t given).
Proof.
  intros Hg. unfold set_text_inner. cbv zeta.
  set (s1 := with_elements [] _).
  set (s2 := match given with Some g => _ | None => s1 end).
  assert (Hs2 : text s2 = t ∧ 0 ≤ cursor_pos s2 ∧ elements_ok t (elements s2)).
  { assert (Hc : 0 ≤ cursor_pos s1) by (cbn; unfold clamp_len; lia).
    unfold s2. destruct given as [g|]; [|split_and!; [done|done|split; constructor]].
    destruct (Hg g eq_refl) as [Hg1 Hg2]. destruct (push_elements_spec s1 g Hg1) as (Ht & Hcu & Hr).
    change (text s1) with t in Ht. cbn [text cursor_pos elements with_elements].
    split_and!; [done|by rewrite Hcu|]. apply sort_by_start_ok, ranges_spread.
    - unfold text_element_ranges in Hr. rewrite Hr. cbn. by apply filter_Forall.
    - unfold text_element_ranges in Hr. rewrite Hr. cbn. by apply filter_ord_pairs. }
  destruct Hs2 as (Ht & Hc & Hok). rewrite <- Ht in Hok.
  destruct (clamp_nearest_ok s2 (cursor_pos s2) Hok Hc) as [Hb _].
  split; [exact Hb|exact Hok|done].
Qed.

(** Sorting does nothing to elements in order. *)
Lemma sort_sorted es : StronglySorted (λ e f, estart e ≤ estart f) es → sort_by_start es = es.
Proof.
  intros Hs. unfold sort_by_start. induction Hs as [|e es Hs IH He]; [done|].
  cbn [foldr]. rewrite IH. destruct es as [|f es]; [done|]. cbn [insert_by_start].
  apply list.Forall_cons in He as [Hef _]. unfold estart in Hef. by rewrite (proj2 (Z.leb_le _ _) Hef).
Qed.

Lemma ranges_sorted es :
  StronglySorted (λ r r', Range.start r ≤ Range.start r') (map TextElement.range es) →
  StronglySorted (λ e f, estart e ≤ estart f) es.
Proof.
  induction es as [|e es IH]; cbn; intros Hs; [constructor|]. inversion_clear Hs as [|? ? Hes He].
  constructor; [by apply IH|]. apply list.Forall_forall. intros f Hf. apply (Forall_elem _ _ _ He).
  apply list_elem_of_fmap. by exists f.
Qed.

Lemma filter_sorted {A} (R : A → A → Prop) p l : StronglySorted R l → StronglySorted R (List.filter p l).
Proof.
  induction 1 as [|x l Hl IH Hx]; cbn; [constructor|]. destruct (p x); [|done].
  constructor; [done|]. by apply filter_Forall.
Qed.

Lemma given_of_elements s : map given_range (text_elements s) = text_element_ranges s.
Proof.
  unfold text_elements, text_element_ranges. rewrite map_map. apply map_ext. by intros [id [a b]].
Qed.

Lemma elements_given_ok s : wf s → given_ok (text s) (text_elements s).
Proof.
  intros Hwf. unfold given_ok. rewrite given_of_elements. unfold text_element_ranges.
  destruct (elements_spread _ _ (wf_elements _ Hwf)) as [H1 H2]. split.
  - apply list.Forall_fmap. exact H1.
  - clear H1. induction H2 as [|e es He Hes IH]; cbn; constructor; [|done].
    apply list.Forall_fmap. exact He.
Qed.

Lemma ranges_in_order s : wf s →
  StronglySorted (λ r r', Range.start r ≤ Range.start r') (text_element_ranges s).
Proof.
  intros Hwf. destruct (wf_elements _ Hwf) as [_ Hs]. unfold text_element_ranges.
  induction Hs as [|e es Hs IH He]; cbn; constructor; [done|].
  apply list.Forall_fmap. apply (Forall_weaken _ _ _ He). by intros f [? _].
Qed.

(** A draft that is saved and restored has its text and its elements again, but for empty
    elements. *)
Lemma restored_ranges s s0 : wf s →
  let s' := set_text_with_elements s0 (text s) (text_elements s) in
  text s' = text s ∧ text_element_ranges s' = List.filter nonempty (text_element_ranges s) ∧ wf s'.
Proof.
  intros Hwf. cbv zeta. pose proof (elements_given_ok s Hwf) as Hg.
  split; [|split]; [| |by apply set_text_wf; intros g [= <-]].
  - unfold set_text_with_elements, set_text_inner. cbv zeta.
    match goal with |- context [push_elements ?s1 _] => destruct (push_elements_spec s1 (text_elements s))
      as (Ht & _); [apply Hg|exact Ht] end.
  - unfold set_text_with_elements, set_text_inner. cbv zeta. set (s1 := with_elements [] _).
    destruct (push_elements_spec s1 (text_elements s)) as (_ & _ & Hr); [apply Hg|].
    rewrite given_of_elements in Hr. change (text_element_ranges s1) with (@nil Range.t) in Hr.
    cbn [app] in Hr. change (map TextElement.range (sort_by_start (elements (push_elements s1 (text_elements s))))
      = List.filter nonempty (text_element_ranges s)).
    rewrite sort_sorted; [exact Hr|]. apply ranges_sorted.
    change (StronglySorted (λ r r', Range.start r ≤ Range.start r')
      (text_element_ranges (push_elements s1 (text_elements s)))).
    rewrite Hr. apply filter_sorted. by apply ranges_in_order.
Qed.

(** ** Cached rows *)

Lemma insert_str_at_cache s pos t s' : insert_str_at s pos t = Some s' → wrap_cache s' = None.
Proof.
  unfold insert_str_at. destruct (string_insert_str _ _ _); [|done]. intros [= <-]. cbn.
  by destruct (_ <=? _).
Qed.

Lemma insert_element_cache s t id s' : insert_element s t = Some (id, s') → cache_kept s s'.
Proof.
  unfold insert_element. destruct (insert_str_at _ _ _) as [s1|] eqn:Hi; [|done].
  apply insert_str_at_cache in Hi. intros [= <- <-]. by left.
Qed.

Lemma add_element_range_cache s r : cache_kept s (add_element_range s r).2.
Proof.
  unfold add_element_range. destruct (_ <=? _); [by right|]. destruct (existsb _ _); [by right|].
  destruct (existsb _ _); by right.
Qed.

Lemma remove_element_range_cache s r : cache_kept s (remove_element_range s r).2.
Proof. unfold remove_element_range. case_match; by right. Qed.

Lemma replace_element_payload_cache s old new_ b s' :
  replace_element_payload s old new_ = Some (b, s') → cache_kept s s'.
Proof.
  unfold replace_element_payload. destruct (position _ _); [|intros [= <- <-]; by right].
  destruct (_ !! _); [|done]. cbn [mbind option_bind].
  destruct (_ || _); [intros [= <- <-]; by right|].
  destruct (string_replace_range _ _ _ _); [|done]. cbn [mbind option_bind]. intros [= <- <-]. by left.
Qed.
