(* ===== verification/TextAreaWrap.v ===== *)
(** * Visual lines of the text area: [tui/src/wrapping.rs] and [textarea.rs]

    The wrapping of the text into rows, the cache of the rows, and the scroll offset and
    the screen position of the cursor that follow from them.  The wrapping algorithm is
    that of the [textwrap] crate; texts with halfwidth sound marks are wrapped through a
    projection that keeps their width. *)

From Stdlib Require Import String ZArith NArith.
From stdpp Require Import base option list numbers.
From S2P Require Import Prelude StrBytes TextArea.

Local Open Scope Z_scope.

(** ** The wrapping crate *)

(** The options [wrapping.rs] reads; the word separator, the word splitter and the
    algorithm are behind the operations of the class below, and lines end with a newline. *)
Module Options.
Record t : Type := mk {
  width : Z;
  initial_indent : str;
  subsequent_indent : str;
  break_words : bool
}.
End Options.

(** A wrapped line: a slice, with its address relative to the wrapped text, or a text of
    its own. *)
Module WrappedLine.
Inductive t : Type :=
| Borrowed (address : Z) (slice : str)
| Owned (slice : str).
End WrappedLine.

(** A word, with its address relative to the line it was found in. *)
Module Word.
Record t : Type := mk { address : Z; word : str; whitespace : str; penalty : str }.
End Word.

Class Textwrap : Type := {
  wrap : str → Options.t → list WrappedLine.t;
  find_words : Options.t → str → list Word.t;
  split_words : Options.t → list Word.t → list Word.t;
  wrap_words : Options.t → list Word.t → list Z → list (list Word.t);
  (** [Word::from]: the word and the spaces that follow it. *)
  word_from : str → str * str
}.

(** [Options::new] with the first-fit algorithm. *)
Definition first_fit_options (width : Z) : Options.t := Options.mk width [] [] true.

(** ** Mapping wrapped lines to ranges *)

Definition borrowed_slice_range (text : str) (address : Z) (slice : str) : option Range.t :=
  if (address <? 0) || (slen text <? address + slen slice) then None
  else Some (Range.mk address (address + slen slice)).

(** The spaces at the start of a text end at this offset from [start]. *)
Fixpoint skip_spaces (start : Z) (rest : str) : Z :=
  match rest with
  | ch :: rest' => if (ch =? SPACE)%N then skip_spaces (start + Z.of_nat (len_utf8 ch)) rest' else start
  | [] => start
  end.

(** The loop that matches the characters of an owned line with the source. *)
Fixpoint match_source (text : str) (chars : str) (end_ : Z) (saw_source_char : bool) : option Z :=
  match chars with
  | [] => Some end_
  | ch :: chars' =>
      src ← (if (end_ <? slen text) then rest ← slice_from text end_; Some (head rest) else Some None);
      match src with
      | Some src =>
          if (ch =? src)%N then match_source text chars' (end_ + Z.of_nat (len_utf8 src)) true
          else if (ch =? MINUS)%N && bool_decide (chars' = []) then match_source text chars' end_ saw_source_char
          else if negb saw_source_char then match_source text chars' end_ saw_source_char
          else Some end_
      | None =>
          if (ch =? MINUS)%N && bool_decide (chars' = []) then match_source text chars' end_ saw_source_char
          else if negb saw_source_char then match_source text chars' end_ saw_source_char
          else Some end_
      end
  end.

Definition map_owned_wrapped_line_to_range (text : str) (cursor : Z) (wrapped synthetic_prefix : str)
    : option Range.t :=
  let wrapped := if bool_decide (synthetic_prefix = []) then wrapped
                 else default wrapped (strip_prefix synthetic_prefix wrapped) in
  start ← (if (cursor <? slen text) && negb (starts_with [SPACE] wrapped)
           then rest ← slice_from text cursor; Some (skip_spaces cursor rest)
           else Some cursor);
  end_ ← match_source text wrapped start false;
  Some (Range.mk start end_).

(** The number of spaces at the start of a text. *)
Fixpoint leading_spaces (s : str) : Z :=
  match s with
  | ch :: s' => if (ch =? SPACE)%N then 1 + leading_spaces s' else 0
  | [] => 0
  end.

(** ** Halfwidth sound marks *)

Definition is_sound_mark (ch : char) : bool := ((ch =? 65438) || (ch =? 65439))%N.
Definition WORD_JOINER : char := 8288%N.
Definition WIDE_PLACEHOLDER : char := 30028%N.
Definition NARROW_PLACEHOLDER : char := 97%N.

Module ProjectedText.
Record t : Type := mk {
  text : str;
  source_boundaries : list (Z * Z);
  grapheme_boundaries : list Z
}.
End ProjectedText.

(** Pushing a character that stands for the source up to [source]. *)
Definition project_char (p : ProjectedText.t) (ch : char) (source : Z) : ProjectedText.t :=
  let text := ProjectedText.text p ++ [ch] in
  ProjectedText.mk text (ProjectedText.source_boundaries p ++ [(slen text, source)])
    (ProjectedText.grapheme_boundaries p).

Definition end_grapheme (p : ProjectedText.t) : ProjectedText.t :=
  ProjectedText.mk (ProjectedText.text p) (ProjectedText.source_boundaries p)
    (ProjectedText.grapheme_boundaries p ++ [slen (ProjectedText.text p)]).

(** The characters of a grapheme, one by one. *)
Definition project_chars (p : ProjectedText.t) (source_start : Z) (grapheme : str)
    : ProjectedText.t :=
  foldl (λ p ic, project_char p ic.2 (source_start + ic.1 + Z.of_nat (len_utf8 ic.2)))
    p (char_indices grapheme).

(** The whitespace before the content of a grapheme with a sound mark. *)
Definition project_whitespace (p : ProjectedText.t) (source_start : Z) (whitespace : str)
    : ProjectedText.t :=
  foldl (λ p ic, end_grapheme (project_char p ic.2 (source_start + ic.1 + Z.of_nat (len_utf8 ic.2))))
    p (char_indices whitespace).

(** A placeholder, after a joiner unless it is the first of its content. *)
Definition project_placeholder (projected_start source_end : Z) (ch : char) (p : ProjectedText.t)
    : ProjectedText.t :=
  let p := if (projected_start <? slen (ProjectedText.text p))
           then ProjectedText.mk (ProjectedText.text p ++ [WORD_JOINER])
                  (ProjectedText.source_boundaries p) (ProjectedText.grapheme_boundaries p)
           else p in
  project_char p ch source_end.

(** A rectangle of cells. *)
Module Rect.
Record t : Type := mk { x : Z; y : Z; width : Z; height : Z }.
End Rect.

Section Segmented.
Context {U : UnicodeText}.

Definition project_grapheme (p : ProjectedText.t) (indexed : Z * str) : ProjectedText.t :=
  let '(source_start, grapheme) := indexed in
  if existsb is_sound_mark grapheme then
    let source_end := source_start + slen grapheme in
    let whitespace := take (length grapheme - length (trim_start grapheme)) grapheme in
    let content := trim_start grapheme in
    let p := project_whitespace p source_start whitespace in
    let width := display_width content in
    let projected_start := slen (ProjectedText.text p) in
    let p := Nat.iter (Z.to_nat (width / 2))
               (project_placeholder projected_start source_end WIDE_PLACEHOLDER) p in
    let p := if (width mod 2 =? 1)
             then project_placeholder projected_start source_end NARROW_PLACEHOLDER p else p in
    end_grapheme p
  else end_grapheme (project_chars p source_start grapheme).

Definition project_halfwidth_sound_marks (text : str) : option ProjectedText.t :=
  if negb (existsb is_sound_mark text) then None
  else Some (foldl project_grapheme (ProjectedText.mk [] [(0, 0)] [0]) (grapheme_indices text)).

(** The offsets of a projection increase, so that the binary search finds the one entry
    there is. *)
Definition source_offset (boundaries : list (Z * Z)) (projected_offset : Z) : Z :=
  match List.find (λ b, b.1 =? projected_offset) boundaries with
  | Some (_, source) => source
  | None => projected_offset
  end.

Context {W : Textwrap}.

(** A word of a slice of the projected text. *)
Definition word_of (slice : str) (address : Z) : Word.t :=
  let '(word, whitespace) := word_from slice in Word.mk address word whitespace [].

(** The loop over the atoms of an oversized word: the pieces, and the start of the last. *)
Fixpoint break_atoms (projected : str) (line_width word_end : Z) (atoms : list Z)
    (piece_start piece_width atom_start : Z) : option (list Word.t * Z) :=
  match atoms with
  | [] => Some ([], piece_start)
  | atom_end :: atoms' =>
      if (word_end <? atom_end) then Some ([], piece_start)
      else
        atom ← slice_range projected atom_start atom_end;
        let atom_width := display_width atom in
        if (0 <? piece_width) && (line_width <? piece_width + atom_width) then
          piece ← slice_range projected piece_start atom_start;
          '(pieces, last_start) ←
            break_atoms projected line_width word_end atoms' atom_start atom_width atom_end;
          Some (word_of piece piece_start :: pieces, last_start)
        else
          break_atoms projected line_width word_end atoms' piece_start (piece_width + atom_width)
            atom_end
  end.

Fixpoint break_projected_words (words : list Word.t) (projected : ProjectedText.t)
    (line_width : Z) : option (list Word.t) :=
  match words with
  | [] => Some []
  | word :: words' =>
      rest ← break_projected_words words' projected line_width;
      if (display_width (Word.word word) <=? line_width) then Some (word :: rest)
      else
        let word_start := Word.address word in
        let word_end := word_start + slen (Word.word word) in
        let boundary_start := partition_point (λ atom_end, atom_end <=? word_start)
                                (ProjectedText.grapheme_boundaries projected) in
        '(pieces, last_start) ←
          break_atoms (ProjectedText.text projected) line_width word_end
            (drop boundary_start (ProjectedText.grapheme_boundaries projected))
            word_start 0 word_start;
        last_piece ← slice_range (ProjectedText.text projected) last_start word_end;
        let last_word := word_of last_piece last_start in
        Some (pieces ++ [Word.mk last_start (Word.word last_word) (Word.whitespace word)
                           (Word.penalty word)] ++ rest)
  end.

Definition word_len (w : Word.t) : Z := slen (Word.word w) + slen (Word.whitespace w).

(** The ranges of the rows of one line, from [cursor]. *)
Fixpoint projected_rows (projected : ProjectedText.t) (include_trailing_spaces : bool)
    (cursor : Z) (rows : list (list Word.t)) : option (list Range.t) :=
  let sentinel := if include_trailing_spaces then 1 else 0 in
  match rows with
  | [] => Some []
  | words :: rows' =>
      match last words with
      | None =>
          let source := source_offset (ProjectedText.source_boundaries projected) cursor in
          rest ← projected_rows projected include_trailing_spaces cursor rows';
          Some (Range.mk source (source + sentinel) :: rest)
      | Some last_word =>
          let len := foldr Z.add 0 (map word_len words) - slen (Word.whitespace last_word) in
          let end_ := cursor + len in
          trailing_spaces ← (if include_trailing_spaces
                             then after ← slice_from (ProjectedText.text projected) end_;
                                  Some (leading_spaces after)
                             else Some 0);
          let source_start := source_offset (ProjectedText.source_boundaries projected) cursor in
          let source_end := source_offset (ProjectedText.source_boundaries projected)
                              (end_ + trailing_spaces) in
          rest ← projected_rows projected include_trailing_spaces
                   (end_ + slen (Word.whitespace last_word)) rows';
          Some (Range.mk source_start (source_end + sentinel) :: rest)
      end
  end.

(** The rows of the lines, from the byte [line_start]. *)
Fixpoint projected_lines (projected : ProjectedText.t) (opts : Options.t)
    (include_trailing_spaces : bool) (line_start : Z) (ls : list str) : option (list Range.t) :=
  match ls with
  | [] => Some []
  | line :: ls' =>
      let line_widths :=
        [usat_sub (Options.width opts) (display_width (Options.initial_indent opts));
         usat_sub (Options.width opts) (display_width (Options.subsequent_indent opts))] in
      let words := split_words opts (find_words opts line) in
      let words := map (λ w, Word.mk (line_start + Word.address w) (Word.word w)
                               (Word.whitespace w) (Word.penalty w)) words in
      broken ← (if Options.break_words opts
                then break_projected_words words projected (nth 1 line_widths 0)
                else Some words);
      let broken := if Options.break_words opts && negb (bool_decide (Options.initial_indent opts = []))
                    then word_of [] 0 :: broken else broken in
      rows ← projected_rows projected include_trailing_spaces line_start
               (wrap_words opts broken line_widths);
      rest ← projected_lines projected opts include_trailing_spaces
               (line_start + slen line + slen [LF]) ls';
      Some (rows ++ rest)
  end.

Definition wrap_projected_ranges (projected : ProjectedText.t) (opts : Options.t)
    (include_trailing_spaces : bool) : option (list Range.t) :=
  projected_lines projected opts include_trailing_spaces 0
    (split_char LF (ProjectedText.text projected)).

(** ** Wrapping *)

Definition synthetic_prefix (opts : Options.t) (line_index : nat) : str :=
  if (line_index =? 0)%nat then Options.initial_indent opts else Options.subsequent_indent opts.

(** The loop of [wrap_ranges] over the wrapped lines. *)
Fixpoint wrap_lines (text : str) (opts : Options.t) (line_index : nat) (cursor : Z)
    (ls : list WrappedLine.t) : option (list Range.t) :=
  match ls with
  | [] => Some []
  | line :: ls' =>
      range ← match line with
              | WrappedLine.Borrowed address slice =>
                  match borrowed_slice_range text address slice with
                  | Some range => Some range
                  | None => map_owned_wrapped_line_to_range text cursor slice
                              (synthetic_prefix opts line_index)
                  end
              | WrappedLine.Owned slice =>
                  map_owned_wrapped_line_to_range text cursor slice
                    (synthetic_prefix opts line_index)
              end;
      after ← slice_from text (Range.end_ range);
      let trailing_spaces := leading_spaces after in
      rest ← wrap_lines text opts (S line_index) (Range.end_ range + trailing_spaces) ls';
      Some (Range.mk (Range.start range) (Range.end_ range + trailing_spaces + 1) :: rest)
  end.

Definition wrap_ranges (text : str) (opts : Options.t) : option (list Range.t) :=
  match project_halfwidth_sound_marks text with
  | Some projected => wrap_projected_ranges projected opts true
  | None => wrap_lines text opts 0 0 (wrap text opts)
  end.

(** ** Rows of the text area *)

(** The loop over the graphemes of a wrapped line: the rows it closes, and the start and
    the width of the row that is open at its end. *)
Fixpoint split_row (width base line_start line_width : Z) (gs : list (Z * str))
    : list Range.t * Z * Z :=
  match gs with
  | [] => ([], line_start, line_width)
  | (offset, grapheme) :: gs' =>
      let grapheme_width := display_width grapheme in
      if (0 <? line_width) && (width <? line_width + grapheme_width) then
        let next_line_start := base + offset in
        let '(rows, start, w) := split_row width base next_line_start grapheme_width gs' in
        (Range.mk line_start (next_line_start + 1) :: rows, start, w)
      else split_row width base line_start (line_width + grapheme_width) gs'
  end.

(** The rows of a wrapped line.  A full line is followed by a row for the insertion point. *)
Definition split_wrapped_line (display_text : str) (width : Z) (wrapped_line : Range.t)
    : option (list Range.t) :=
  let line_end := usat_sub (Range.end_ wrapped_line) 1 in
  line ← slice_range display_text (Range.start wrapped_line) line_end;
  let '(rows, line_start, line_width) :=
    split_row width (Range.start wrapped_line) (Range.start wrapped_line) 0
      (grapheme_indices line) in
  let at_line_end := match slice_from display_text line_end with
                     | Some (ch :: _) => is_lf ch
                     | _ => true
                     end in
  Some (rows ++ [Range.mk line_start (line_end + 1)]
        ++ if (width <=? line_width) && at_line_end then [Range.mk line_end (line_end + 1)] else []).

Fixpoint split_wrapped_lines (display_text : str) (width : Z) (ls : list Range.t)
    : option (list Range.t) :=
  match ls with
  | [] => Some []
  | l :: ls' =>
      rows ← split_wrapped_line display_text width l;
      rest ← split_wrapped_lines display_text width ls';
      Some (rows ++ rest)
  end.

(** The rows of a text, and the cached rows with the area that caches them. *)
Definition text_rows (t : str) (width : Z) : option (list Range.t) :=
  let display_text := text_for_display t in
  ls ← wrap_ranges display_text (first_fit_options width);
  if (0 <? width) then split_wrapped_lines display_text width ls else Some ls.

Definition wrapped_lines (s : TextArea) (width : Z) : option (list Range.t * TextArea) :=
  match wrap_cache s with
  | Some c =>
      if (WrapCache.width c =? width) then Some (WrapCache.lines c, s)
      else ls ← text_rows (text s) width; Some (ls, with_wrap_cache (Some (WrapCache.mk width ls)) s)
  | None =>
      ls ← text_rows (text s) width; Some (ls, with_wrap_cache (Some (WrapCache.mk width ls)) s)
  end.

(** ** The viewport *)

Definition as_u16 (n : Z) : Z := n mod 2 ^ 16.

(** An addition of [u16] that overflows panics. *)
Definition u16_add (a b : Z) : option Z := if (a + b <? 2 ^ 16) then Some (a + b) else None.

Definition desired_height (s : TextArea) (width : Z) : option (Z * TextArea) :=
  '(ls, s) ← wrapped_lines s width; Some (as_u16 (Z.of_nat (length ls)), s).

(** The sums are below [2 ^ 16] when the number of rows is. *)
Definition effective_scroll (s : TextArea) (area_height : Z) (ls : list Range.t)
    (current_scroll : Z) : Z :=
  let total_lines := as_u16 (Z.of_nat (length ls)) in
  if (total_lines <=? area_height) then 0
  else
    let cursor_line_idx :=
      as_u16 (Z.of_nat (default 0%nat (wrapped_line_index_by_start ls (cursor_pos s)))) in
    let max_scroll := usat_sub total_lines area_height in
    let scroll := Z.min current_scroll max_scroll in
    if (cursor_line_idx <? scroll) then cursor_line_idx
    else if (scroll + area_height <=? cursor_line_idx) then cursor_line_idx + 1 - area_height
    else scroll.

Definition cursor_pos_with_state (s : TextArea) (area : Rect.t) (scroll : Z)
    : option (option (Z * Z) * TextArea) :=
  if (Rect.width area =? 0) || (Rect.height area =? 0) then Some (None, s)
  else
    '(ls, s) ← wrapped_lines s (Rect.width area);
    let effective := effective_scroll s (Rect.height area) ls scroll in
    match wrapped_line_index_by_start ls (cursor_pos s) with
    | None => Some (None, s)
    | Some i =>
        row ← ls !! i;
        before ← slice_range (text s) (Range.start row) (cursor_pos s);
        let col := Z.min (display_width before) (usat_sub (Rect.width area) 1) in
        let screen_row := usat_sub (Z.of_nat i) effective in
        let screen_row := if (screen_row <? 2 ^ 16) then screen_row else 0 in
        x ← u16_add (Rect.x area) (as_u16 col);
        y ← u16_add (Rect.y area) screen_row;
        Some (Some (x, y), s)
    end.

End Segmented.
