(* ===== verification/TextAreaRows.v ===== *)
(** * Rows of the text area lie on the text, fit the width and keep the cursor in view *)

From Stdlib Require Import String ZArith NArith Lia.
From stdpp Require Import base option list numbers.
From S2P Require Import Prelude StrBytes Keymap TextArea TextAreaFacts TextAreaMoves TextAreaWrap.

Local Open Scope Z_scope.

(** ** What the crates promise *)

(** A borrowed line whose address lies in the text is a slice of it, and without
    indentation the first line is the start of the text. *)
Class TextwrapLaws {W : Textwrap} : Prop := {
  borrowed_law t opts address slice : WrappedLine.Borrowed address slice ∈ wrap t opts →
    0 ≤ address → address + slen slice ≤ slen t → piece_at t (address, slice);
  first_line_law t width : 0 < width →
    ∃ slice rest, wrap t (first_fit_options width) = WrappedLine.Borrowed 0 slice :: rest
      ∧ slen slice ≤ slen t
}.

(** Widths are [usize]. *)
Class WidthLaws {U : UnicodeText} : Prop := {
  unicode_width_nonneg s : 0 ≤ unicode_width s
}.

(** ** Mapping wrapped lines *)

Lemma skip_spaces_ok t p rest start : t = p ++ rest → slen p = start →
  bd t (skip_spaces start rest) ∧ start ≤ skip_spaces start rest.
Proof.
  revert p start. induction rest as [|c rest IH]; intros p start Ht Hp; cbn [skip_spaces].
  - split; [rewrite Ht, <- Hp; apply bd_app|lia].
  - destruct (c =? SPACE)%N; [|split; [rewrite Ht, <- Hp; apply bd_app|lia]].
    destruct (IH (p ++ [c]) (start + Z.of_nat (len_utf8 c))) as [H1 H2];
      [by rewrite <- app_assoc|slen_lia|]. split; [done|lia].
Qed.

Lemma leading_spaces_ok t e rest : bd t e → slice_from t e = Some rest →
  bd t (e + leading_spaces rest) ∧ 0 ≤ leading_spaces rest.
Proof.
  intros _ (p & -> & <-)%slice_from_Some. revert p.
  induction rest as [|c rest IH]; intros p; cbn [leading_spaces].
  - rewrite Z.add_0_r. split; [apply bd_app|lia].
  - destruct (N.eqb_spec c SPACE) as [->|_]; [|rewrite Z.add_0_r; split; [apply bd_app|lia]].
    destruct (IH (p ++ [SPACE])) as [H1 H2]. rewrite <- app_assoc, slen_app in H1.
    change (slen [SPACE]) with 1 in H1. split; [|lia]. eapply bd_eq; [exact H1|lia].
Qed.

Lemma match_source_ok t chars e saw : bd t e →
  ∃ e', match_source t chars e saw = Some e' ∧ bd t e' ∧ e ≤ e'.
Proof.
  revert e saw. induction chars as [|ch chars IH]; intros e saw He; cbn [match_source].
  { exists e. split_and!; [done|done|lia]. }
  assert (Hstay : ∀ saw', ∃ e', (if (ch =? MINUS)%N && bool_decide (chars = [])
      then match_source t chars e saw'
      else if negb saw' then match_source t chars e saw' else Some e) = Some e' ∧ bd t e' ∧ e ≤ e').
  { intros saw'. destruct (_ && _); [by apply IH|]. destruct saw'; [|by apply IH].
    exists e. split_and!; [done|done|lia]. }
  destruct (Z.ltb_spec e (slen t)); cbn [mbind option_bind]; [|by apply Hstay].
  destruct (bd_split _ _ He) as (p & q & Ht & Hp & _ & ->). cbn [mbind option_bind].
  destruct q as [|src q]; cbn [head]; [by apply Hstay|].
  destruct (N.eqb_spec ch src) as [->|_]; [|by apply Hstay].
  destruct (char_bounds t p src q Ht) as (_ & Hb & _). rewrite Hp in Hb.
  destruct (IH _ true Hb) as (e' & ? & ? & ?). exists e'. split_and!; [done|done|lia].
Qed.

Lemma map_owned_ok t cursor wrapped prefix : bd t cursor →
  ∃ r, map_owned_wrapped_line_to_range t cursor wrapped prefix = Some r ∧ range_ok t r.
Proof.
  intros Hc. unfold map_owned_wrapped_line_to_range. set (w := if bool_decide _ then _ else _).
  assert (Hs : ∃ st, (if (cursor <? slen t) && negb (starts_with [SPACE] w)
     then rest ← slice_from t cursor; Some (skip_spaces cursor rest) else Some cursor) = Some st
     ∧ bd t st).
  { destruct (_ && _); [|by exists cursor].
    destruct (bd_split _ _ Hc) as (p & q & Ht & Hp & _ & ->). cbn [mbind option_bind].
    eexists. split; [done|]. by apply (skip_spaces_ok t p q cursor). }
  destruct Hs as (st & -> & Hst). cbn [mbind option_bind].
  destruct (match_source_ok t w st false Hst) as (e & -> & He & Hle). cbn [mbind option_bind].
  eexists. split; [done|]. by split_and!.
Qed.

Section Laws.
Context {U : UnicodeText} {UL : UnicodeLaws} {WU : WidthLaws} {W : Textwrap} {WL : TextwrapLaws}.

Lemma wrap_lines_ok t opts i cursor ls : bd t cursor →
  (∀ address slice, WrappedLine.Borrowed address slice ∈ ls → 0 ≤ address →
     address + slen slice ≤ slen t → piece_at t (address, slice)) →
  ∃ rs, wrap_lines t opts i cursor ls = Some rs ∧ Forall (line_ok t) rs.
Proof.
  revert i cursor. induction ls as [|l ls IH]; intros i cursor Hc Hb; cbn [wrap_lines].
  { eexists. split; [done|constructor]. }
  assert (Hr : ∃ r, match l with
      | WrappedLine.Borrowed address slice =>
          match borrowed_slice_range t address slice with
          | Some range => Some range
          | None => map_owned_wrapped_line_to_range t cursor slice (synthetic_prefix opts i)
          end
      | WrappedLine.Owned slice =>
          map_owned_wrapped_line_to_range t cursor slice (synthetic_prefix opts i)
      end = Some r ∧ range_ok t r).
  { destruct l as [address slice|slice]; [|by apply map_owned_ok]. unfold borrowed_slice_range.
    destruct (_ || _) eqn:Hin; [by apply map_owned_ok|]. eexists. split; [done|].
    destruct (piece_at_bounds t address slice) as [H1 H2]; [apply Hb; [by left|lia|lia]|].
    pose proof (slen_nonneg slice). split_and!; cbn; [done|done|lia]. }
  destruct Hr as (r & -> & Hr1 & Hr2 & Hr3). cbn [mbind option_bind].
  destruct (bd_split _ _ Hr2) as (p & q & _ & _ & _ & Hq). rewrite Hq. cbn [mbind option_bind].
  destruct (leading_spaces_ok _ _ _ Hr2 Hq) as [Hb2 Hnn].
  destruct (IH (S i) _ Hb2) as (rs & -> & Hrs); [intros; apply Hb; [by right|done|done]|].
  cbn [mbind option_bind]. eexists. split; [done|]. constructor; [|done].
  split_and!; cbn; [done|eapply bd_eq; [exact Hb2|lia]|lia].
Qed.

(** ** Rows *)

Definition widths (gs : list str) : Z := foldr Z.add 0 (map display_width gs).

(** The graphemes of a row fit the width, or one of them alone fills it. *)
Definition fits (width : Z) (gs : list str) : Prop :=
  widths gs ≤ width ∨ ∃ g, g ∈ gs ∧ widths gs = display_width g.

Lemma display_width_nonneg s : 0 ≤ display_width s.
Proof. unfold display_width. pose proof (unicode_width_nonneg s). lia. Qed.

Lemma widths_snoc gs g : widths (gs ++ [g]) = widths gs + display_width g.
Proof. unfold widths. induction gs as [|x gs IH]; cbn in *; lia. Qed.

Lemma widths_nonneg gs : 0 ≤ widths gs.
Proof.
  unfold widths. induction gs as [|x gs IH]; cbn in *; [lia|]. pose proof (display_width_nonneg x). lia.
Qed.

(** The rows of consecutive groups of graphemes, from the byte [pos] on. *)
Fixpoint group_rows (pos : Z) (groups : list (list str)) : list Range.t :=
  match groups with
  | [] => []
  | gs :: groups' =>
      Range.mk pos (pos + slen (concat gs) + 1) :: group_rows (pos + slen (concat gs)) groups'
  end.

(** The rows of a wrapped line: its graphemes, all of them and in order, in groups that fit
    the width; one more empty row at its end is for the insertion point when the last group
    fills the width. *)
Definition line_rows (t : str) (width : Z) (l : Range.t) (rows : list Range.t) : Prop :=
  ∃ line groups final,
    slice_range t (Range.start l) (Range.end_ l - 1) = Some line
    ∧ concat (groups ++ [final]) = graphemes line ∧ Forall (fits width) (groups ++ [final])
    ∧ (rows = group_rows (Range.start l) (groups ++ [final])
       ∨ rows = group_rows (Range.start l) (groups ++ [final])
                ++ [Range.mk (Range.end_ l - 1) (Range.end_ l)] ∧ width ≤ widths final).

Lemma group_rows_app pos a b :
  group_rows pos (a ++ b) = group_rows pos a ++ group_rows (pos + slen (concat (concat a))) b.
Proof.
  revert pos. induction a as [|gs a IH]; intros pos; cbn [app group_rows concat].
  - by rewrite slen_nil, Z.add_0_r.
  - by rewrite IH, concat_app, slen_app, Z.add_assoc.
Qed.

Lemma split_row_spec width base pos cur rest rows st w : fits width cur →
  split_row width base pos (widths cur)
    (indices_from (pos - base + slen (concat cur)) rest) = (rows, st, w) →
  ∃ groups final, concat (groups ++ [final]) = cur ++ rest ∧ Forall (fits width) (groups ++ [final])
    ∧ rows = group_rows pos groups ∧ st = pos + slen (concat (concat groups)) ∧ w = widths final.
Proof.
  revert pos cur rows st w. induction rest as [|g rest IH]; intros pos cur rows st w Hf;
    cbn [indices_from split_row].
  { intros [= <- <- <-]. exists [], cur. cbn. rewrite !app_nil_r, slen_nil, Z.add_0_r.
    split_and!; [done|by constructor|done..]. }
  pose proof (widths_nonneg cur). pose proof (display_width_nonneg g).
  destruct ((0 <? widths cur) && (width <? widths cur + display_width g)) eqn:Hb.
  - assert (Hg : widths [g] = display_width g) by (unfold widths; cbn; lia).
    replace (base + (pos - base + slen (concat cur))) with (pos + slen (concat cur)) by lia.
    replace (pos - base + slen (concat cur) + slen g)
      with (pos + slen (concat cur) - base + slen (concat [g])) by (cbn; rewrite app_nil_r; lia).
    rewrite <- Hg. destruct (split_row _ _ _ _ _) as [[rows' st'] w'] eqn:Hrec. intros [= <- <- <-].
    apply IH in Hrec as (groups & final & Hc & Hfits & -> & -> & ->);
      [|right; exists g; split; [by left|lia]].
    exists (cur :: groups), final. cbn [app concat]. rewrite Hc, concat_app, slen_app, Z.add_assoc.
    split_and!; [done|by constructor|done..].
  - rewrite <- widths_snoc.
    replace (pos - base + slen (concat cur) + slen g) with (pos - base + slen (concat (cur ++ [g])))
      by (rewrite concat_app; cbn; rewrite app_nil_r, slen_app; lia).
    intros Hrec. apply IH in Hrec as (groups & final & Hc & H').
    + exists groups, final. by rewrite Hc, <- app_assoc.
    + unfold fits. rewrite widths_snoc. destruct (decide (widths cur = 0)) as [Hz|Hz].
      * right. exists g. split; [apply elem_of_app; right; by left|lia].
      * left. lia.
Qed.

(** Rows of the text lie on it. *)
Lemma group_rows_ok t a groups b :
  t = a ++ concat (concat groups) ++ b → Forall (line_ok t) (group_rows (slen a) groups).
Proof.
  revert a. induction groups as [|gs groups IH]; intros a Ht; cbn [group_rows]; constructor.
  - cbn [concat] in Ht. rewrite concat_app in Ht. pose proof (slen_nonneg (concat gs)).
    assert (Hb : bd t (slen a + slen (concat gs))).
    { rewrite Ht, <- slen_app, <- (app_assoc (concat gs)), app_assoc. apply bd_app. }
    split_and!; cbn; [rewrite Ht; apply bd_app|eapply bd_eq; [exact Hb|lia]|lia].
  - rewrite <- slen_app. apply IH. rewrite Ht. cbn [concat]. by rewrite concat_app, <- !app_assoc.
Qed.

Lemma line_rows_ok t width l rows : line_ok t l → line_rows t width l rows → Forall (line_ok t) rows.
Proof.
  intros (Hb1 & Hb2 & Hle) (line & groups & final & Hs & Hc & _ & Hrows).
  destruct (bd_split2 _ _ _ Hb1 Hb2 Hle) as (a & line' & b & Ht & Ha & Hl & Hs').
  rewrite Hs in Hs'. injection Hs' as <-.
  assert (Hok : Forall (line_ok t) (group_rows (Range.start l) (groups ++ [final]))).
  { rewrite <- Ha. apply (group_rows_ok t a _ b). by rewrite Hc, graphemes_concat. }
  destruct Hrows as [->|[-> _]]; [done|]. apply Forall_app. split; [done|].
  constructor; [|constructor]. split_and!; cbn; [done|done|lia].
Qed.

Lemma split_wrapped_line_ok t width l : 0 < width → line_ok t l →
  ∃ rows, split_wrapped_line t width l = Some rows ∧ line_rows t width l rows.
Proof.
  intros Hw (Hb1 & Hb2 & Hle). unfold split_wrapped_line, usat_sub.
  pose proof (bd_range _ _ Hb1). rewrite Z.max_l by lia.
  destruct (bd_split2 _ _ _ Hb1 Hb2 Hle) as (a & line & b & Ht & Ha & Hl & Hs). rewrite Hs.
  cbn [mbind option_bind]. unfold grapheme_indices.
  destruct (split_row _ _ _ _ _) as [[rows st] w] eqn:Hrow.
  assert (Hf0 : fits width []) by (left; unfold widths; cbn; lia).
  pose proof (split_row_spec width (Range.start l) (Range.start l) [] (graphemes line) rows st w Hf0) as Hspec.
  cbn [app concat] in Hspec. rewrite slen_nil, Z.sub_diag in Hspec. change (widths []) with 0 in Hspec.
  destruct (Hspec Hrow) as (groups & final & Hc & Hfit & -> & -> & ->).
  assert (Hlen : slen (concat (concat (groups ++ [final]))) = slen line) by by rewrite Hc, graphemes_concat.
  assert (Hall : group_rows (Range.start l) groups
      ++ [Range.mk (Range.start l + slen (concat (concat groups))) (Range.end_ l - 1 + 1)]
    = group_rows (Range.start l) (groups ++ [final])).
  { rewrite group_rows_app. cbn [group_rows]. rewrite concat_app, concat_app, slen_app in Hlen.
    cbn in Hlen. rewrite app_nil_r in Hlen. do 2 f_equal. f_equal. lia. }
  eexists. split; [done|]. exists line, groups, final. split_and!; [done|done|done|].
  rewrite app_assoc, Hall. destruct (width <=? widths final) eqn:Hfull; cbn [andb];
    [|left; by rewrite app_nil_r]. destruct (match slice_from _ _ with Some _ => _ | None => _ end);
    [right|left; by rewrite app_nil_r]. replace (Range.end_ l - 1 + 1) with (Range.end_ l) by lia.
  split; [done|lia].
Qed.

Lemma split_wrapped_lines_ok t width ls : 0 < width → Forall (line_ok t) ls →
  ∃ rss, split_wrapped_lines t width ls = Some (concat rss) ∧ Forall2 (line_rows t width) ls rss.
Proof.
  intros Hw. induction 1 as [|l ls Hl Hls IH]; cbn [split_wrapped_lines].
  { exists []. split; [done|constructor]. }
  destruct (split_wrapped_line_ok t width l Hw Hl) as (rows & -> & Hrows).
  destruct IH as (rss & -> & Hrest). cbn [mbind option_bind].
  exists (rows :: rss). split; [done|]. by constructor.
Qed.

(** ** Tabs *)

Lemma display_bd t n : bd (text_for_display t) n ↔ bd t n.
Proof.
  unfold text_for_display. destruct (contains_char TAB t); [|done].
  set (f := λ c, if (c =? TAB)%N then SPACE else c).
  assert (Hf : ∀ s, slen (map f s) = slen s).
  { induction s as [|c s IH]; [done|]. cbn [map]. rewrite !slen_cons, IH. unfold f.
    by destruct (N.eqb_spec c TAB) as [->|]. }
  split.
  - intros (p & q & Heq & <-). apply map_eq_app in Heq as (p' & q' & -> & <- & <-).
    rewrite Hf. apply bd_app.
  - intros (p & q & -> & <-). rewrite map_app, <- (Hf p). apply bd_app.
Qed.

Lemma display_line_ok t r : line_ok (text_for_display t) r ↔ line_ok t r.
Proof. unfold line_ok. by rewrite !display_bd. Qed.

Lemma display_marks t : existsb is_sound_mark (text_for_display t) = existsb is_sound_mark t.
Proof.
  unfold text_for_display. destruct (contains_char TAB t); [|done].
  induction t as [|c t IH]; [done|]. cbn. rewrite IH. by destruct (N.eqb_spec c TAB) as [->|].
Qed.

(** ** The rows of a text *)

Definition mark_free (t : str) : bool := negb (existsb is_sound_mark t).

Lemma wrap_ranges_ok t width : mark_free t = true →
  ∃ ls, wrap_ranges (text_for_display t) (first_fit_options width) = Some ls
    ∧ Forall (line_ok (text_for_display t)) ls.
Proof.
  intros Hm. unfold wrap_ranges, project_halfwidth_sound_marks.
  rewrite display_marks. fold (mark_free t). rewrite Hm.
  apply wrap_lines_ok; [apply bd_0|]. intros address slice. apply borrowed_law.
Qed.

(** The rows of a text at a width: the rows of its wrapped lines, one line after the other. *)
Definition rows_of_text (t : str) (width : Z) (rows : list Range.t) : Prop :=
  ∃ ls rss, wrap_ranges t (first_fit_options width) = Some ls ∧ rows = concat rss
    ∧ Forall2 (line_rows t width) ls rss.

Lemma text_rows_ok t width : mark_free t = true →
  ∃ rows, text_rows t width = Some rows ∧ Forall (line_ok t) rows
    ∧ (0 < width → rows_of_text (text_for_display t) width rows).
Proof.
  intros Hm. unfold text_rows. destruct (wrap_ranges_ok t width Hm) as (ls & Hwrap & Hls).
  rewrite Hwrap. cbn [mbind option_bind]. destruct (Z.ltb_spec 0 width) as [Hw|Hw].
  - destruct (split_wrapped_lines_ok _ width ls Hw Hls) as (rss & -> & Hrss).
    eexists. split_and!; [done| |by exists ls, rss].
    clear Hwrap. induction Hrss as [|l rs ls rss Hl Hrss IH]; cbn [concat]; [constructor|].
    apply list.Forall_cons in Hls as [Hok Hls]. apply Forall_app. split; [|by apply IH].
    apply (Forall_weaken _ _ _ (line_rows_ok _ _ _ _ Hok Hl)). intros r Hr. by apply display_line_ok.
  - exists ls. split_and!; [done| |lia]. apply (Forall_weaken _ _ _ Hls).
    intros r Hr. by apply display_line_ok.
Qed.

(** The first row starts with the text. *)
Definition starts_at (pos : Z) (rows : list Range.t) : Prop :=
  ∃ r rest, rows = r :: rest ∧ Range.start r = pos.

Lemma split_row_start width base st w gs rows st' w' :
  split_row width base st w gs = (rows, st', w') → ∀ e, starts_at st (rows ++ [Range.mk st' e]).
Proof.
  revert st w rows st' w'. induction gs as [|[offset g] gs IH]; intros st w rows st' w'; cbn [split_row].
  { intros [= <- <- <-] e. by eexists _, _. }
  destruct (_ && _); [|apply IH]. destruct (split_row _ _ _ _ gs) as [[rows1 st1] w1].
  intros [= <- <- <-] e. by eexists _, _.
Qed.

Lemma split_wrapped_line_start t width l rows :
  split_wrapped_line t width l = Some rows → starts_at (Range.start l) rows.
Proof.
  unfold split_wrapped_line. destruct (slice_range _ _ _) as [line|]; [|done]. cbn [mbind option_bind].
  destruct (split_row _ _ _ _ _) as [[rows1 st] w] eqn:Hrow. intros [= <-].
  destruct (split_row_start _ _ _ _ _ _ _ _ Hrow (usat_sub (Range.end_ l) 1 + 1)) as (r & rest & Hr & Hs).
  rewrite cons_middle, app_assoc, Hr. by eexists _, _.
Qed.

Lemma text_rows_start t width rows : mark_free t = true → 0 < width →
  text_rows t width = Some rows → starts_at 0 rows.
Proof.
  intros Hm Hw. unfold text_rows, wrap_ranges, project_halfwidth_sound_marks.
  rewrite display_marks. fold (mark_free t). rewrite Hm. cbn [negb].
  destruct (first_line_law (text_for_display t) width Hw) as (slice & ls & -> & Hle).
  cbn [wrap_lines]. unfold borrowed_slice_range. pose proof (slen_nonneg slice).
  rewrite (proj2 (Z.ltb_ge (slen (text_for_display t)) (0 + slen slice))) by lia.
  change (0 <? 0) with false.
  cbn [orb mbind option_bind Range.end_ Range.start].
  destruct (slice_from _ _) as [after|]; [|done]. cbn [mbind option_bind].
  destruct (wrap_lines _ _ _ _ _) as [rs|]; [|done]. cbn [mbind option_bind].
  rewrite (proj2 (Z.ltb_lt 0 width)) by done. cbn [split_wrapped_lines].
  destruct (split_wrapped_line _ _ _) as [rows1|] eqn:Hl; [|done]. cbn [mbind option_bind].
  destruct (split_wrapped_lines _ _ _) as [rest|]; [|done]. intros [= <-].
  destruct (split_wrapped_line_start _ _ _ _ Hl) as (r & rest1 & -> & Hr). by eexists _, _.
Qed.

(** The cache holds the rows of the text. *)
Definition cache_fresh (s : TextArea) : Prop :=
  ∀ c, wrap_cache s = Some c → text_rows (text s) (WrapCache.width c) = Some (WrapCache.lines c).

Lemma cache_fresh_kept s s' : cache_fresh s → cache_kept s s' → cache_fresh s'.
Proof.
  intros Hf [Hn|[Hw Ht]] c; [by rewrite Hn|]. rewrite Hw, Ht. apply Hf.
Qed.

Lemma wrapped_lines_fresh s width rows s' : cache_fresh s →
  wrapped_lines s width = Some (rows, s') → text_rows (text s) width = Some rows ∧ cache_fresh s'.
Proof.
  intros Hf. unfold wrapped_lines.
  assert (Hnew : (ls ← text_rows (text s) width;
      Some (ls, with_wrap_cache (Some (WrapCache.mk width ls)) s)) = Some (rows, s') →
      text_rows (text s) width = Some rows ∧ cache_fresh s').
  { destruct (text_rows (text s) width) as [ls|] eqn:Hl; [|done]. intros [= <- <-].
    split; [done|]. by intros c [= <-]. }
  destruct (wrap_cache s) as [c|] eqn:Hc; [|done].
  destruct (Z.eqb_spec (WrapCache.width c) width) as [<-|]; [|done]. intros [= <- <-].
  split; [by apply Hf|done].
Qed.

Lemma wrapped_lines_ok s width : wf s → mark_free (text s) = true →
  ∃ rows s', wrapped_lines s width = Some (rows, s') ∧ wf s' ∧ Forall (line_ok (text s)) rows
    ∧ text s' = text s ∧ cursor_pos s' = cursor_pos s ∧ elements s' = elements s.
Proof.
  intros Hwf Hm.
  assert (Hnew : ∃ rows s', (ls ← text_rows (text s) width;
      Some (ls, with_wrap_cache (Some (WrapCache.mk width ls)) s)) = Some (rows, s')
      ∧ wf s' ∧ Forall (line_ok (text s)) rows ∧ text s' = text s ∧ cursor_pos s' = cursor_pos s
      ∧ elements s' = elements s).
  { destruct (text_rows_ok (text s) width Hm) as (rows & -> & Hrows & _). cbn [mbind option_bind].
    eexists _, _. split_and!; [done| |done..].
    split; [apply Hwf|apply Hwf|]. by intros c [= <-]. }
  unfold wrapped_lines. destruct (wrap_cache s) as [c|] eqn:Hc; [|done].
  destruct (_ =? _); [|done]. eexists _, _.
  split_and!; [done|done|by apply (wf_cache _ Hwf)|done..].
Qed.

(** ** The viewport *)

Lemma partition_point_le {A} (p : A → bool) l : (partition_point p l ≤ length l)%nat.
Proof. induction l as [|x l IH]; cbn; [done|]. destruct (p x); lia. Qed.

Lemma line_index_lt ls pos i : wrapped_line_index_by_start ls pos = Some i → (i < length ls)%nat.
Proof.
  unfold wrapped_line_index_by_start. pose proof (partition_point_le (λ r, Range.start r <=? pos) ls).
  destruct (partition_point _ _); [done|]. intros [= <-]. lia.
Qed.

Lemma line_index_starts rows pos : starts_at 0 rows → 0 ≤ pos →
  ∃ i, wrapped_line_index_by_start rows pos = Some i.
Proof.
  intros (r & rest & -> & Hr) Hpos. unfold wrapped_line_index_by_start. cbn [partition_point].
  rewrite Hr, (proj2 (Z.leb_le 0 pos)) by done. by eexists.
Qed.

(** The scroll offset shows the row of the cursor. *)
Lemma effective_scroll_shows s height ls scroll i :
  1 ≤ height → 0 ≤ scroll → Z.of_nat (length ls) < 2 ^ 16 →
  wrapped_line_index_by_start ls (cursor_pos s) = Some i →
  effective_scroll s height ls scroll ≤ Z.of_nat i < effective_scroll s height ls scroll + height
  ∧ (Z.of_nat (length ls) ≤ height → effective_scroll s height ls scroll = 0).
Proof.
  intros Hh Hs Hlen Hi. pose proof (line_index_lt _ _ _ Hi) as Hlt.
  unfold effective_scroll, as_u16, usat_sub. rewrite Hi. cbn [default from_option]. unfold id.
  rewrite !Z.mod_small by lia.
  destruct (Z.leb_spec (Z.of_nat (length ls)) height); [lia|].
  split; [|lia]. repeat case_match; lia.
Qed.

End Laws.
