(* ===== verification/TextAreaReach.v ===== *)
(** * What holds of every text area a front end can reach

    A text area starts empty; its owner feeds it key events and calls its other
    operations.  Whatever the sequence, nothing panics, the elements keep their texts, a
    kill can be yanked back, a saved draft can be restored, and the rows fit the screen. *)

From Stdlib Require Import String ZArith NArith Lia.
From stdpp Require Import base option list numbers.
From S2P Require Import Prelude StrBytes ThreadItems Keymap TextArea TextAreaInput TextAreaFacts.
From S2P Require Import TextAreaMoves TextAreaEditing TextAreaElements TextAreaWrap TextAreaRows.

Local Open Scope Z_scope.

(** ** Reachable text areas *)

Section Reach.
Context {U : UnicodeText} {W : Textwrap}.

(** The calls a text area may receive.  A range to replace lies on character boundaries of
    the text; elements given with a text lie on its character boundaries and apart
    from each other ([given_ok]); rows are asked for while the text has no halfwidth sound
    marks.  Key events, insertions, cursor positions and element operations are arbitrary. *)
Inductive reachable : TextArea → Prop :=
| reach_new : reachable new
| reach_keymap s keymap : reachable s → reachable (set_keymap_bindings s keymap)
| reach_input s event s' : reachable s → input s event = Some s' → reachable s'
| reach_insert s pos t s' :
    reachable s → 0 ≤ pos → insert_str_at s pos t = Some s' → reachable s'
| reach_replace s r t s' :
    reachable s → range_ok (text s) r → replace_range s r t = Some s' → reachable s'
| reach_cursor s pos : reachable s → reachable (set_cursor s pos)
| reach_text s t given :
    reachable s → (∀ g, given = Some g → given_ok t g) → reachable (set_text_inner s t given)
| reach_element s t id s' : reachable s → insert_element s t = Some (id, s') → reachable s'
| reach_add_range s r :
    reachable s → 0 ≤ Range.start r → 0 ≤ Range.end_ r → reachable (add_element_range s r).2
| reach_remove_range s r : reachable s → reachable (remove_element_range s r).2
| reach_rename s old new_ b s' :
    reachable s → replace_element_payload s old new_ = Some (b, s') → reachable s'
| reach_rows s width rows s' :
    reachable s → mark_free (text s) = true → wrapped_lines s width = Some (rows, s') → reachable s'
| reach_vim s enabled : reachable s → reachable (set_vim_enabled s enabled)
| reach_vim_insert s : reachable s → reachable (enter_vim_insert_mode s)
| reach_vim_normal s : reachable s → reachable (enter_vim_normal_mode s).

(** The commands that put what they remove in the kill buffer, and what they return: those
    of the editor's keymap, the Vim deletes with a motion and of a line, and the Vim deletes
    and changes of a text object that touches the cursor. *)
Inductive kill_command (s : TextArea) : option TextArea → Prop :=
| kill_backward_word : kill_command s (delete_backward_word s)
| kill_forward_word : kill_command s (delete_forward_word s)
| kill_end_of_line : kill_command s (kill_to_end_of_line s)
| kill_vim_end_of_line : kill_command s (vim_kill_to_end_of_line s)
| kill_beginning_of_line : kill_command s (kill_to_beginning_of_line s)
| kill_line : kill_command s (kill_current_line s)
| kill_forward : kill_command s (delete_forward_kill s 1)
| kill_motion motion : kill_command s (apply_vim_operator s Delete motion)
| kill_text_object op object scope range :
    op ≠ Yank → text_object_range s object scope = Some (Some range) →
    Range.start range ≤ cursor_pos s ≤ Range.end_ range →
    kill_command s (apply_vim_operator_to_range s op range).

(** The id and the text of an element. *)
Definition id_and_text (e : TextElementSnapshot.t) : Z * str :=
  (TextElementSnapshot.id e, TextElementSnapshot.text e).

Definition nonempty_text (t : str) : bool := negb (bool_decide (t = [])).

(** An area whose corners are [u16]. *)
Definition on_screen (area : Rect.t) : Prop :=
  0 ≤ Rect.x area ∧ Rect.x area + Rect.width area < 2 ^ 16
  ∧ 0 ≤ Rect.y area ∧ Rect.y area + Rect.height area < 2 ^ 16.

(** A cell of a rectangle. *)
Definition in_rect (area : Rect.t) (cell : Z * Z) : Prop :=
  Rect.x area ≤ cell.1 < Rect.x area + Rect.width area
  ∧ Rect.y area ≤ cell.2 < Rect.y area + Rect.height area.
End Reach.

Section Laws.
Context {U : UnicodeText} {UL : UnicodeLaws} {WU : WidthLaws} {W : Textwrap} {WL : TextwrapLaws}.

Lemma succeeds_inv s r s' : succeeds s r → r = Some s' → keeps s s'.
Proof. intros (s1 & -> & Hk) [= <-]. done. Qed.

Lemma reachable_wf s : reachable s → wf s.
Proof.
  induction 1 as [|s keymap Hr IH|s event s' Hr IH Hi|s pos t s' Hr IH Hp Hi|s r t s' Hr IH Ho Hi
    |s pos Hr IH|s t given Hr IH Hg|s t id s' Hr IH Hi|s r Hr IH H1 H2|s r Hr IH
    |s old new_ b s' Hr IH Hi|s width rows s' Hr IH Hm Hi|s enabled Hr IH|s Hr IH|s Hr IH].
  - split; [apply bd_0|split; constructor|done].
  - by apply (keeps_wf s), same_core_wf.
  - by apply (succeeds_inv _ _ _ (input_ok s event IH)).
  - by apply (succeeds_inv _ _ _ (insert_str_at_ok s pos t IH Hp)).
  - by apply (succeeds_inv _ _ _ (replace_range_ok s r t IH Ho)).
  - by apply (set_cursor_keeps s).
  - by apply set_text_wf.
  - destruct (insert_element_ok s t IH) as (id' & s1 & Hs1 & Hwf). rewrite Hi in Hs1. by injection Hs1 as -> ->.
  - by apply add_element_range_ok.
  - by apply remove_element_range_ok.
  - destruct (replace_element_payload_ok s old new_ IH) as (b' & s1 & Hs1 & Hwf).
    rewrite Hi in Hs1. by injection Hs1 as -> ->.
  - destruct (wrapped_lines_ok s width IH Hm) as (rows' & s1 & Hs1 & Hk & _).
    rewrite Hi in Hs1. by injection Hs1 as -> ->.
  - by apply (keeps_wf s), same_core_wf.
  - apply (keeps_wf s), same_core_wf; [done|]. unfold enter_vim_insert_mode. by destruct (vim_enabled s).
  - apply (keeps_wf s), same_core_wf; [done|]. unfold enter_vim_normal_mode. by destruct (vim_enabled s).
Qed.

(** No operation leaves the rows of an older text in the cache. *)
Lemma reachable_fresh s : reachable s → cache_fresh s.
Proof.
  intros Hreach. induction Hreach as [|s keymap Hr IH|s event s' Hr IH Hi|s pos t s' Hr IH Hp Hi
    |s r t s' Hr IH Ho Hi|s pos Hr IH|s t given Hr IH Hg|s t id s' Hr IH Hi|s r Hr IH H1 H2|s r Hr IH
    |s old new_ b s' Hr IH Hi|s width rows s' Hr IH Hm Hi|s enabled Hr IH|s Hr IH|s Hr IH];
    try (pose proof (reachable_wf s Hr) as Hwf).
  1: done.
  11: by apply (wrapped_lines_fresh s width rows s').
  all: apply (cache_fresh_kept s); [done|].
  - by right.
  - by apply (succeeds_inv _ _ _ (input_ok s event Hwf)).
  - by apply (succeeds_inv _ _ _ (insert_str_at_ok s pos t Hwf Hp)).
  - by apply (succeeds_inv _ _ _ (replace_range_ok s r t Hwf Ho)).
  - by apply (set_cursor_keeps s).
  - by left.
  - by eapply insert_element_cache.
  - apply add_element_range_cache.
  - apply remove_element_range_cache.
  - by eapply replace_element_payload_cache.
  - by right.
  - unfold enter_vim_insert_mode. destruct (vim_enabled s); by right.
  - unfold enter_vim_normal_mode. destruct (vim_enabled s); by right.
Qed.

(** The rows a reachable area shows. *)
Lemma reachable_rows s width : reachable s → mark_free (text s) = true →
  ∃ rows s', wrapped_lines s width = Some (rows, s') ∧ text_rows (text s) width = Some rows
    ∧ wf s' ∧ Forall (line_ok (text s)) rows ∧ text s' = text s ∧ cursor_pos s' = cursor_pos s
    ∧ elements s' = elements s.
Proof.
  intros Hr Hm. destruct (wrapped_lines_ok s width (reachable_wf s Hr) Hm) as (rows & s' & Hl & H).
  exists rows, s'. split; [done|]. split; [|done].
  by apply (wrapped_lines_fresh s width rows s' (reachable_fresh s Hr)).
Qed.

Lemma succeeds_is_Some s r : succeeds s r → is_Some r.
Proof. intros (s' & -> & _). by eexists. Qed.

(** C7: Take a text area reached from a new one by any sequence of key events, insertions,
    cursor moves, element operations, mode changes and requests for rows, in which the ranges
    passed to [replace_range] lie on character boundaries, the elements passed with a text lie
    on its character boundaries and do not overlap, and rows are requested for texts without
    halfwidth sound marks.  Then the cursor and the elements lie on character boundaries, the
    elements are in order and do not overlap, the cached rows lie on the text, and no further
    such operation panics: every key event, insertion and element operation returns, and so
    does every replacement of a range on character boundaries and every request for rows of a
    text without those marks. *)
Theorem textarea_never_panics s : reachable s →
  wf s ∧ (∀ event, is_Some (input s event))
  ∧ (∀ pos t, 0 ≤ pos → is_Some (insert_str_at s pos t))
  ∧ (∀ r t, range_ok (text s) r → is_Some (replace_range s r t))
  ∧ (∀ t, is_Some (insert_element s t))
  ∧ (∀ old new_, is_Some (replace_element_payload s old new_))
  ∧ (mark_free (text s) = true → ∀ width, is_Some (wrapped_lines s width)).
Proof.
  intros Hwf%reachable_wf. split_and!; [done|..].
  - intros event. by eapply succeeds_is_Some, input_ok.
  - intros pos t Hp. by eapply succeeds_is_Some, insert_str_at_ok.
  - intros r t Hr. by eapply succeeds_is_Some, replace_range_ok.
  - intros t. destruct (insert_element_ok s t Hwf) as (id & s' & -> & _). by eexists.
  - intros old new_. destruct (replace_element_payload_ok s old new_ Hwf) as (b & s' & -> & _). by eexists.
  - intros Hm width. destruct (wrapped_lines_ok s width Hwf Hm) as (rows & s' & -> & _). by eexists.
Qed.

Lemma snapshots_payloads s :
  map id_and_text (text_element_snapshots s) = payloads (text s) (elements s).
Proof.
  unfold text_element_snapshots, payloads, element_text. induction (elements s) as [|e es IH]; [done|].
  cbn [omap list_omap]. destruct (str_get (text s) (TextElement.range e)); cbn; by rewrite IH.
Qed.

(** C8: Elements are atomic in a reachable text area, one whose callers pass ranges and
    elements on character boundaries, the elements apart from each other: a key event removes
    elements or keeps them, in their order, each with its id and its text to the byte, and
    never changes the text of one; and when no element spans lines, a cursor that is not
    inside an element is not inside one afterwards. *)
Theorem elements_move_atomically s event s' :
  reachable s → input s event = Some s' →
  map id_and_text (text_element_snapshots s') `sublist_of` map id_and_text (text_element_snapshots s)
  ∧ (cursor_outside s → single_line s → cursor_outside s' ∧ single_line s').
Proof.
  intros Hwf%reachable_wf Hi. pose proof (succeeds_inv _ _ _ (input_ok s event Hwf) Hi) as Hk.
  rewrite !snapshots_payloads. split; [apply Hk|]. intros Ho Hl.
  split; [by apply Hk|by eapply keeps_single_line].
Qed.

(** C19: A kill can be undone: whatever one of the kill commands removed from the text, by
    word, by line, by character, by a Vim motion or by a Vim text object that touches the
    cursor, the elements it had to take along included, yanking right after it gives back
    the text to the byte.  (A text object beside the cursor is killed without moving the
    cursor, so that a yank puts it elsewhere.) *)
Theorem kill_then_yank s killed s1 :
  reachable s → kill_command s killed → killed = Some s1 → text s1 ≠ text s →
  ∃ s2, yank s1 = Some s2 ∧ text s2 = text s.
Proof.
  intros Hwf%reachable_wf Hkill. destruct Hkill as [| | | | | | |motion|op object scope range Hop Hr Hin].
  8: by apply operator_yank.
  8: { apply operator_to_range_yank; try done.
       destruct (text_object_ok s object scope Hwf) as (r & Hr' & Hok).
       rewrite Hr in Hr'. injection Hr' as <-. by apply Hok. }
  all: apply kills_yank; [done|].
  - by apply delete_backward_word_kills.
  - by apply delete_forward_word_kills.
  - by apply kill_to_end_of_line_kills.
  - by apply vim_kill_to_end_of_line_kills.
  - by apply kill_to_beginning_of_line_kills.
  - by apply kill_current_line_kills.
  - by apply delete_forward_kill_kills.
Qed.

Lemma payloads_of_ranges s : element_payloads s = omap (str_get (text s)) (text_element_ranges s).
Proof.
  unfold element_payloads, text_element_ranges, element_text.
  induction (elements s) as [|e es IH]; [done|]. cbn. by rewrite IH.
Qed.

Lemma payloads_filter t rs : Forall (range_ok t) rs →
  omap (str_get t) (List.filter nonempty rs) = List.filter nonempty_text (omap (str_get t) rs).
Proof.
  induction 1 as [|r rs (H1 & H2 & H3) Hrs IH]; [done|]. cbn [List.filter omap list_omap].
  destruct (bd_split2 _ _ _ H1 H2 H3) as (a & m & b & Ht & Ha & Hm & Hsl).
  assert (Hg : str_get t r = Some m) by (unfold str_get; by rewrite (proj2 (Z.leb_le _ _) H3)).
  rewrite Hg. cbn [List.filter]. unfold nonempty at 1, nonempty_text at 1.
  case_bool_decide as Hem.
  - subst m. rewrite slen_nil in Hm. rewrite (proj2 (Z.ltb_ge _ _)) by lia. cbn. done.
  - assert (Hlt : 0 < slen m).
    { pose proof (slen_nonneg m). pose proof (slen_zero m). destruct (decide (slen m = 0)); [tauto|lia]. }
    rewrite (proj2 (Z.ltb_lt _ _)) by lia. cbn [omap list_omap]. rewrite Hg. cbn. by rewrite IH.
Qed.

(** C20: A draft survives being saved and restored: replacing the text of any text area with
    the text of a reachable one and its elements gives a text area with that text and with
    the same elements, at the same bytes and with the same texts, but for empty ones. *)
Theorem draft_restored s s0 : reachable s →
  let s' := set_text_with_elements s0 (text s) (text_elements s) in
  text s' = text s
  ∧ text_element_ranges s' = List.filter nonempty (text_element_ranges s)
  ∧ element_payloads s' = List.filter nonempty_text (element_payloads s)
  ∧ wf s' ∧ kill_buffer s' = kill_buffer s0.
Proof.
  intros Hwf%reachable_wf. cbv zeta. destruct (restored_ranges s s0 Hwf) as (Ht & Hr & Hwf').
  split_and!; [done|done| |done|].
  - rewrite !payloads_of_ranges, Ht, Hr. apply payloads_filter.
    destruct (wf_elements _ Hwf) as [Hok _]. apply list.Forall_fmap. exact Hok.
  - unfold set_text_with_elements, set_text_inner. cbv zeta.
    set (s1 := with_elements [] _).
    assert (Hk : ∀ given s, kill_buffer (push_elements s given) = kill_buffer s).
    { induction given as [|g given IH]; intros s2; [done|]. cbn [push_elements]. cbv zeta.
      destruct (_ <=? _); [apply IH|]. cbn. by rewrite IH. }
    apply (Hk (text_elements s) s1).
Qed.

(** C21: Rows fit and are current: the rows a reachable area without halfwidth sound marks
    shows at a width of at least one column, cached or not, are those of its present text.
    They are the rows of the wrapped lines of the text as it is displayed, one line after the
    other: each wrapped line is cut into groups of its graphemes, all of them and in order,
    and the widths of a group add up to at most the width, unless a single grapheme is wider;
    a wrapped line whose last group fills the width may be followed by one empty row. *)
Theorem rows_fit s width : reachable s → mark_free (text s) = true → 0 < width →
  ∃ rows s', wrapped_lines s width = Some (rows, s') ∧ text_rows (text s) width = Some rows
    ∧ rows_of_text (text_for_display (text s)) width rows.
Proof.
  intros Hr Hm Hw. destruct (reachable_rows s width Hr Hm) as (rows & s' & Hl & Ht & _).
  destruct (text_rows_ok (text s) width Hm) as (rows' & Ht' & _ & Hrows).
  rewrite Ht in Ht'. injection Ht' as <-. exists rows, s'. auto.
Qed.

(** The column and the row of a cell of an area are [u16]. *)
Lemma u16_add_small a b n : b ≤ n → a + n < 2 ^ 16 → u16_add a b = Some (a + b).
Proof. intros Hb Hn. unfold u16_add. by rewrite (proj2 (Z.ltb_lt _ _)) by lia. Qed.

(** C22: The cursor is drawn inside its area: for a reachable text area whose text has no
    halfwidth sound marks, an area of the screen with at least one cell, any scroll offset and fewer
    than 65536 rows, the screen position of the cursor is computed without a panic or an
    overflow, and it is a cell of the area. *)
Theorem cursor_stays_in_view s area scroll rows :
  reachable s → mark_free (text s) = true →
  1 ≤ Rect.width area → 1 ≤ Rect.height area → on_screen area → 0 ≤ scroll →
  text_rows (text s) (Rect.width area) = Some rows → Z.of_nat (length rows) < 2 ^ 16 →
  ∃ cell s', cursor_pos_with_state s area scroll = Some (Some cell, s') ∧ in_rect area cell.
Proof.
  intros Hreach Hm Hw Hh (Hx0 & Hx & Hy0 & Hy) Hs Hrows Hlen. unfold cursor_pos_with_state.
  rewrite (proj2 (Z.eqb_neq (Rect.width area) 0)), (proj2 (Z.eqb_neq (Rect.height area) 0)) by lia.
  destruct (reachable_rows s (Rect.width area) Hreach Hm)
    as (rows' & s1 & -> & H2 & Hwf & Hok & Ht & Hc & _).
  rewrite Hrows in H2. injection H2 as <-. cbn [orb mbind option_bind].
  pose proof (bd_range _ _ (wf_cursor _ Hwf)) as Hpos.
  destruct (line_index_starts rows (cursor_pos s1)) as [i Hi];
    [apply (text_rows_start (text s) (Rect.width area)); [done|lia|done]|lia|].
  rewrite Hi. destruct (effective_scroll_shows s1 (Rect.height area) rows scroll i Hh Hs Hlen Hi) as [Hin _].
  pose proof (line_index_lookup _ _ _ Hi) as (r & Hr & Hle). rewrite Hr. cbn [mbind option_bind].
  destruct (Forall_lookup_1 _ _ _ _ Hok Hr) as (Hb & _ & _). rewrite <- Ht in Hb.
  destruct (bd_split2 _ _ _ Hb (wf_cursor _ Hwf) Hle) as (a & m & b & _ & _ & _ & ->).
  cbn [mbind option_bind]. pose proof (display_width_nonneg m). unfold usat_sub, as_u16.
  rewrite Z.mod_small, (proj2 (Z.ltb_lt _ (2 ^ 16))) by lia.
  rewrite (u16_add_small (Rect.x area) _ (Rect.width area)) by lia. cbn [mbind option_bind].
  rewrite (u16_add_small (Rect.y area) _ (Rect.height area)) by lia.
  cbn [mbind option_bind]. eexists _, _. split; [done|]. unfold in_rect. cbn. lia.
Qed.
End Laws.

(** ** A concrete text area

    Segmentation by characters and by runs, and rows that end with the lines. *)
Module Sample.

Definition split_runs (s : str) : list str := match s with [] => [] | _ => [s] end.

Definition char_before (s : str) (n : Z) : result GraphemeIncomplete (option Z) :=
  match slice_to s n with
  | None => Err InvalidOffset
  | Some p => match rev p with
              | [] => Ok None
              | c :: _ => Ok (Some (n - Z.of_nat (len_utf8 c)))
              end
  end.

Definition char_after (s : str) (n : Z) : result GraphemeIncomplete (option Z) :=
  match slice_from s n with
  | None => Err InvalidOffset
  | Some [] => Ok None
  | Some (c :: _) => Ok (Some (n + Z.of_nat (len_utf8 c)))
  end.

#[export] Instance unicode : UnicodeText := {|
  graphemes := map (λ c, [c]);
  split_word_bounds := split_runs;
  prev_boundary := char_before;
  next_boundary := char_after;
  unicode_width := λ s, Z.of_nat (length s)
|}.

Fixpoint borrow_lines (i : Z) (ls : list str) : list WrappedLine.t :=
  match ls with
  | [] => []
  | l :: ls' => WrappedLine.Borrowed i l :: borrow_lines (i + slen l + 1) ls'
  end.

#[export] Instance textwrap : Textwrap := {|
  wrap := λ t _, borrow_lines 0 (split_char LF t);
  find_words := λ _ line, [Word.mk 0 line [] []];
  split_words := λ _ ws, ws;
  wrap_words := λ _ ws _, [ws];
  word_from := λ s, (s, [])
|}.

#[export] Instance unicode_laws : UnicodeLaws.
Proof.
  split.
  - intros s. induction s as [|c s IH]; [done|]. cbn in *. by rewrite IH.
  - intros [|c s]; [done|]. cbn. by rewrite app_nil_r.
  - intros s n (p & q & Hs & Hp & Hto & _)%bd_split Hn. cbn. unfold char_before. rewrite Hto.
    destruct p as [|c p _] using rev_ind; [rewrite slen_nil in Hp; lia|].
    rewrite rev_app_distr. cbn. eexists. split; [done|]. rewrite <- app_assoc in Hs.
    rewrite slen_app, slen_cons, slen_nil in Hp. pose proof (len_utf8_bounds c).
    split; [|lia]. rewrite Hs. eapply bd_eq; [apply bd_app|lia].
  - intros s n (p & q & Hs & Hp & _ & Hfrom)%bd_split Hn. cbn. unfold char_after. rewrite Hfrom.
    destruct q as [|c q]; [rewrite Hs, app_nil_r in Hn; lia|].
    eexists. split; [done|]. pose proof (len_utf8_bounds c). split; [|lia]. rewrite <- Hp.
    by apply (char_bounds s p c q).
Qed.

#[export] Instance width_laws : WidthLaws.
Proof. split. intros s. cbn. lia. Qed.

Lemma borrow_lines_pieces t ls pre address slice :
  t = pre ++ join [LF] ls → WrappedLine.Borrowed address slice ∈ borrow_lines (slen pre) ls →
  piece_at t (address, slice).
Proof.
  revert pre. induction ls as [|l ls IH]; intros pre Ht; cbn [borrow_lines]; [by intros ?%elem_of_nil|].
  intros [[= -> ->]|Hin]%elem_of_cons.
  - destruct ls as [|l' ls].
    + exists pre, []. cbn in *. by rewrite app_nil_r.
    + rewrite join_cons in Ht by done. exists pre, ([LF] ++ join [LF] (l' :: ls)). done.
  - destruct ls as [|l' ls]; [by apply elem_of_nil in Hin|]. rewrite join_cons in Ht by done.
    apply (IH (pre ++ l ++ [LF])); [by rewrite Ht, <- !app_assoc|].
    rewrite !slen_app. change (slen [LF]) with 1. by rewrite Z.add_assoc.
Qed.

#[export] Instance textwrap_laws : TextwrapLaws.
Proof.
  split.
  - intros t opts address slice Hin _ _. cbn in Hin.
    apply (borrow_lines_pieces t (split_char LF t) []); [|done]. cbn. by rewrite join_split_char.
  - intros t width _. cbn. pose proof (join_split_char LF t) as Hj.
    destruct (split_char LF t) as [|l ls] eqn:Hl; [by destruct (split_char_nonempty LF t)|].
    exists l. eexists. split; [done|]. rewrite <- Hj. destruct ls as [|l' ls]; [done|].
    rewrite join_cons, slen_app by done. pose proof (slen_nonneg ([LF] ++ join [LF] (l' :: ls))). lia.
Qed.

(** Typing a text, adding an element and typing more. *)
Definition typed : TextArea := default new (insert_str_at new 0 (lit "see ")).
Definition attached : TextArea := (default (0, typed) (insert_element typed (lit "[image]"))).2.
Definition press (c : string) : KeyEvent.t := KeyEvent.mk (chr c) KeyModifiers.NONE KeyEventKind.Press.
Definition control (c : string) : KeyEvent.t :=
  KeyEvent.mk (chr c) KeyModifiers.CONTROL KeyEventKind.Press.
Definition area : TextArea := default attached (input attached (press "!")).

Lemma area_reachable : reachable area.
Proof.
  assert (H1 : reachable typed).
  { apply (reach_insert new 0 (lit "see ")); [apply reach_new|lia|reflexivity]. }
  assert (H2 : reachable attached).
  { apply (reach_element typed (lit "[image]") 1); [done|reflexivity]. }
  apply (reach_input attached (press "!")); [done|reflexivity].
Qed.

Lemma area_text : text area = lit "see [image]!" ∧ element_payloads area = [lit "[image]"].
Proof. by vm_compute. Qed.

Lemma textarea_never_panics_witness :
  reachable area ∧ wf area ∧ is_Some (input area (control "w")).
Proof.
  split; [exact area_reachable|].
  destruct (textarea_never_panics area area_reachable) as (Hwf & Hin & _).
  split; [exact Hwf|apply Hin].
Defined.

Lemma elements_move_atomically_witness :
  map id_and_text (text_element_snapshots (default area (input area (control "a"))))
    `sublist_of` map id_and_text (text_element_snapshots area).
Proof.
  apply (elements_move_atomically area (control "a") (default area (input area (control "a"))));
    [exact area_reachable|vm_compute; reflexivity].
Defined.

Lemma kill_then_yank_witness :
  ∃ s2, yank (default area (delete_backward_word area)) = Some s2 ∧ text s2 = lit "see [image]!".
Proof.
  apply (kill_then_yank area (delete_backward_word area) (default area (delete_backward_word area)));
    [exact area_reachable|constructor|vm_compute; reflexivity|vm_compute; discriminate].
Defined.

Lemma draft_restored_witness :
  text (set_text_with_elements new (text area) (text_elements area)) = lit "see [image]!"
  ∧ element_payloads (set_text_with_elements new (text area) (text_elements area))
    = [lit "[image]"].
Proof.
  destruct (draft_restored area new area_reachable) as (Ht & _ & Hp & _).
  split; [rewrite Ht; vm_compute; reflexivity|rewrite Hp; vm_compute; reflexivity].
Defined.

Lemma rows_fit_witness :
  ∃ rows s', wrapped_lines area 5 = Some (rows, s') ∧ text_rows (text area) 5 = Some rows
    ∧ rows_of_text (text_for_display (text area)) 5 rows.
Proof. apply (rows_fit area 5); [exact area_reachable|vm_compute; reflexivity|lia]. Defined.

Lemma cursor_stays_in_view_witness :
  ∃ cell s', cursor_pos_with_state area (Rect.mk 2 3 5 2) 0 = Some (Some cell, s')
    ∧ in_rect (Rect.mk 2 3 5 2) cell.
Proof.
  apply (cursor_stays_in_view area (Rect.mk 2 3 5 2) 0 (default [] (text_rows (text area) 5)));
    [exact area_reachable|vm_compute; reflexivity|cbn; lia|cbn; lia|unfold on_screen; cbn; lia|lia
    |vm_compute; reflexivity|vm_compute; reflexivity].
Defined.

(** Leaving insert mode moves the cursor into an element that spans lines. *)
Lemma escape_enters_element :
  ∃ s s', reachable s ∧ cursor_outside s
    ∧ input s (KeyEvent.mk KeyCode.Esc KeyModifiers.NONE KeyEventKind.Press) = Some s'
    ∧ ¬ cursor_outside s'.
Proof.
  set (s0 := enter_vim_insert_mode (set_vim_enabled new true)).
  set (s1 := (default (0, s0) (insert_element s0 (lit "ab" ++ [LF] ++ lit "cd"))).2).
  exists s1. eexists. split_and!.
  - apply (reach_element s0 (lit "ab" ++ [LF] ++ lit "cd") 1); [|reflexivity].
    apply reach_vim_insert, reach_vim, reach_new.
  - intros e He. vm_compute in He. apply list_elem_of_singleton in He as ->. vm_compute. by intros [_ ?].
  - vm_compute. reflexivity.
  - intros Hout. apply (Hout (TextElement.mk 1 (Range.mk 0 5))); [by left|by vm_compute].
Qed.

(** A vertical delete of lines is pasted after the cursor, within a line. *)
Lemma vertical_delete_pastes_within_line :
  let s0 := set_vim_enabled (set_cursor (set_text_clearing_elements new
    (lit "a" ++ [LF] ++ lit "b" ++ [LF] ++ lit "cd")) 0) true in
  text <$> (s ← input s0 (press "d"); s ← input s (press "j"); input s (press "p"))
  = Some (lit "ca" ++ [LF] ++ lit "b" ++ [LF] ++ lit "d").
Proof. by vm_compute. Qed.

(** A change of a quoted text with the cursor on the opening quote leaves the cursor there,
    so that what is typed, or yanked, goes before the quotes. *)
Lemma change_in_quotes_types_before_them :
  let s0 := set_vim_enabled (set_cursor (set_text_clearing_elements new (lit "'ab'")) 0) true in
  let changed := s ← input s0 (press "c"); s ← input s (press "i"); input s (press "'") in
  text <$> changed = Some (lit "''") ∧ text <$> (s ← changed; input s (press "x")) = Some (lit "x''")
  ∧ text <$> (s ← changed; yank s) = Some (lit "ab''").
Proof. by vm_compute. Qed.
End Sample.
