(* ===== verification/TextAreaDraw.v ===== *)
(** * Drawing the text area: the renderers of [tui/src/bottom_pane/textarea.rs]

    The buffer of the terminal library is known by the calls it receives: drawing is the
    list of the calls a renderer makes, in their order.  Drawing a reachable text area does
    not panic and stays inside the area it is given. *)

From Stdlib Require Import String ZArith NArith Lia.
From stdpp Require Import base option list numbers.
From S2P Require Import Prelude StrBytes Keymap TextArea TextAreaFacts TextAreaMoves TextAreaWrap.
From S2P Require Import TextAreaRows TextAreaReach.

Local Open Scope Z_scope.

(** ** The terminal *)

(** Styles of the terminal library; the style of a reference depends on the colours of the
    running terminal. *)
Class Styling : Type := {
  Style : Type;
  default_style : Style;
  patch : Style → Style → Style;
  operational_reference_style : Style
}.

(** [Buffer::set_style] and [Buffer::set_stringn]. *)
Module DrawCall.
Inductive t `{Styling} : Type :=
| set_style (area : Rect.t) (style : Style)
| set_stringn (x y : Z) (string : str) (max_width : Z) (style : Style).
End DrawCall.

(** ** Rendering *)

Section Render.
Context {S : Styling}.

(** A loop that draws: the calls of its rounds, in order. *)
Fixpoint draw_all {A} (draw : A → option (list DrawCall.t)) (l : list A)
    : option (list DrawCall.t) :=
  match l with
  | [] => Some []
  | x :: l' => calls ← draw x; rest ← draw_all draw l'; Some (calls ++ rest)
  end.

(** The numbers of a range, each with its position. *)
Definition enumerated (start end_ : nat) : list (nat * nat) :=
  imap (λ row idx, (row, idx)) (seq start (end_ - start)).

Context {U : UnicodeText} {W : Textwrap}.

(** A range of the text drawn over a row in a style of its own. *)
Definition draw_overlay (s : TextArea) (area : Rect.t) (y : Z) (line_range : Range.t)
    (overlay : Range.t * Style) : option (list DrawCall.t) :=
  let '(range, style) := overlay in
  let overlap_start := Z.max (Range.start range) (Range.start line_range) in
  let overlap_end := Z.min (Range.end_ range) (Range.end_ line_range) in
  if (overlap_end <=? overlap_start) then Some []
  else
    styled ← slice_range (text s) overlap_start overlap_end;
    before ← slice_range (text s) (Range.start line_range) overlap_start;
    let x_off := as_u16 (display_width before) in
    x ← u16_add (Rect.x area) x_off;
    Some [DrawCall.set_stringn x y (text_for_display styled) (usat_sub (Rect.width area) x_off) style].

(** The range of the text a row shows. *)
Definition line_range_of (r : Range.t) : option Range.t :=
  if (Range.end_ r <? 1) then None else Some (Range.mk (Range.start r) (Range.end_ r - 1)).

(** One round of [render_lines]: the base line, the elements, the highlights. *)
Definition render_line (s : TextArea) (area : Rect.t) (lines : list Range.t) (base_style : Style)
    (highlights : list (Range.t * Style)) (round : nat * nat) : option (list DrawCall.t) :=
  let '(row, idx) := round in
  r ← lines !! idx;
  y ← u16_add (Rect.y area) (as_u16 (Z.of_nat row));
  line_range ← line_range_of r;
  line ← slice_range (text s) (Range.start line_range) (Range.end_ line_range);
  elems ← draw_all (draw_overlay s area y line_range)
            (map (λ e, (TextElement.range e, patch base_style operational_reference_style))
               (elements s));
  marks ← draw_all (draw_overlay s area y line_range) highlights;
  Some ([DrawCall.set_style (Rect.mk (Rect.x area) y (Rect.width area) 1) base_style;
         DrawCall.set_stringn (Rect.x area) y (text_for_display line) (Rect.width area) base_style]
        ++ elems ++ marks).

Definition render_lines (s : TextArea) (area : Rect.t) (lines : list Range.t) (start end_ : nat)
    (base_style : Style) (highlights : list (Range.t * Style)) : option (list DrawCall.t) :=
  draw_all (render_line s area lines base_style highlights) (enumerated start end_).

(** One round of [render_lines_masked]. *)
Definition masked_line (s : TextArea) (area : Rect.t) (lines : list Range.t) (mask_char : char)
    (round : nat * nat) : option (list DrawCall.t) :=
  let '(row, idx) := round in
  r ← lines !! idx;
  y ← u16_add (Rect.y area) (as_u16 (Z.of_nat row));
  line_range ← line_range_of r;
  line ← slice_range (text s) (Range.start line_range) (Range.end_ line_range);
  let masked := concat (map (λ grapheme, repeat mask_char (Z.to_nat (display_width grapheme)))
                          (graphemes line)) in
  Some [DrawCall.set_stringn (Rect.x area) y masked (Rect.width area) default_style].

Definition render_lines_masked (s : TextArea) (area : Rect.t) (lines : list Range.t)
    (start end_ : nat) (mask_char : char) : option (list DrawCall.t) :=
  draw_all (masked_line s area lines mask_char) (enumerated start end_).

(** [WidgetRef::render_ref]: the rows from the first on. *)
Definition render_ref (s : TextArea) (area : Rect.t) : option (list DrawCall.t * TextArea) :=
  '(lines, s) ← wrapped_lines s (Rect.width area);
  calls ← render_lines s area lines 0
            (Nat.min (length lines) (Z.to_nat (Rect.height area))) default_style [];
  Some (calls, s).

(** What the renderers with a scroll state share: the rows, the new scroll offset, and the
    first and the last row to draw. *)
Definition viewport (s : TextArea) (area : Rect.t) (scroll : Z)
    : option (list Range.t * Z * nat * nat * TextArea) :=
  '(lines, s) ← wrapped_lines s (Rect.width area);
  let scroll := effective_scroll s (Rect.height area) lines scroll in
  bottom ← u16_add scroll (Rect.height area);
  Some (lines, scroll, Z.to_nat scroll,
        Z.to_nat (Z.min bottom (as_u16 (Z.of_nat (length lines)))), s).

Definition render_ref_styled_with_highlights (s : TextArea) (area : Rect.t) (scroll : Z)
    (base_style : Style) (highlights : list (Range.t * Style))
    : option (list DrawCall.t * Z * TextArea) :=
  '(lines, scroll, start, end_, s) ← viewport s area scroll;
  calls ← render_lines s area lines start end_ base_style highlights;
  Some (calls, scroll, s).

(** [StatefulWidgetRef::render_ref]. *)
Definition render_ref_stateful (s : TextArea) (area : Rect.t) (scroll : Z)
    : option (list DrawCall.t * Z * TextArea) :=
  render_ref_styled_with_highlights s area scroll default_style [].

Definition render_ref_masked (s : TextArea) (area : Rect.t) (scroll : Z) (mask_char : char)
    : option (list DrawCall.t * Z * TextArea) :=
  '(lines, scroll, start, end_, s) ← viewport s area scroll;
  calls ← render_lines_masked s area lines start end_ mask_char;
  Some (calls, scroll, s).
End Render.

(** ** Drawing stays inside *)

Section Inside.
Context {S : Styling}.

(** What a call changes lies in the area. *)
Definition call_inside (area : Rect.t) (call : DrawCall.t) : Prop :=
  match call with
  | DrawCall.set_style r _ =>
      Rect.x r = Rect.x area ∧ Rect.width r = Rect.width area
      ∧ Rect.y area ≤ Rect.y r ∧ Rect.y r + Rect.height r ≤ Rect.y area + Rect.height area
  | DrawCall.set_stringn x y _ max_width _ =>
      Rect.x area ≤ x ∧ (max_width = 0 ∨ x + max_width ≤ Rect.x area + Rect.width area)
      ∧ Rect.y area ≤ y < Rect.y area + Rect.height area
  end.

Context {U : UnicodeText}.

(** What is drawn of a range of the text over a row at [y]: where it overlaps the row, the
    overlapping text, in its style, behind the columns of the text before it. *)
Definition overlay_shown (t : str) (area : Rect.t) (y : Z) (r : Range.t) (block : list DrawCall.t)
    (overlay : Range.t * Style) : Prop :=
  let from := Z.max (Range.start overlay.1) (Range.start r) in
  let to := Z.min (Range.end_ overlay.1) (Range.end_ r - 1) in
  from < to →
  ∃ styled before, slice_range t from to = Some styled ∧ slice_range t (Range.start r) from = Some before
    ∧ DrawCall.set_stringn (Rect.x area + display_width before) y (text_for_display styled)
        (usat_sub (Rect.width area) (display_width before)) overlay.2 ∈ block.

(** The calls for a row: its background, its text, and the overlays that touch it. *)
Definition row_shown (t : str) (area : Rect.t) (base : Style) (overlays : list (Range.t * Style))
    (y : Z) (r : Range.t) (block : list DrawCall.t) : Prop :=
  ∃ line rest, slice_range t (Range.start r) (Range.end_ r - 1) = Some line
    ∧ block = DrawCall.set_style (Rect.mk (Rect.x area) y (Rect.width area) 1) base
              :: DrawCall.set_stringn (Rect.x area) y (text_for_display line) (Rect.width area) base
              :: rest
    ∧ Forall (overlay_shown t area y r block) overlays.

(** The call for a masked row: the mask character as often as its graphemes are wide. *)
Definition row_masked (t : str) (area : Rect.t) (mask : char) (y : Z) (r : Range.t)
    (block : list DrawCall.t) : Prop :=
  ∃ line, slice_range t (Range.start r) (Range.end_ r - 1) = Some line
    ∧ block = [DrawCall.set_stringn (Rect.x area) y
                 (repeat mask (Z.to_nat (widths (graphemes line)))) (Rect.width area) default_style].

(** Drawing makes one block of calls for each row that is in view from [scroll] on, at the
    position of the row in the area, and each of its calls stays inside. *)
Definition rows_drawn (area : Rect.t) (rows : list Range.t) (scroll : Z)
    (shown : Z → Range.t → list DrawCall.t → Prop) (calls : list DrawCall.t) : Prop :=
  ∃ blocks, calls = concat blocks ∧ Forall (call_inside area) calls
    ∧ Z.of_nat (length blocks) = Z.min (Rect.height area) (Z.of_nat (length rows) - scroll)
    ∧ ∀ n block, blocks !! n = Some block →
        ∃ r, rows !! (Z.to_nat scroll + n)%nat = Some r ∧ shown (Rect.y area + Z.of_nat n) r block.

(** A loop whose rounds succeed makes a block of calls for each. *)
Lemma draw_all_blocks {A} (P : A → list DrawCall.t → Prop) (draw : A → option (list DrawCall.t)) l :
  (∀ x, x ∈ l → ∃ calls, draw x = Some calls ∧ P x calls) →
  ∃ blocks, draw_all draw l = Some (concat blocks) ∧ Forall2 P l blocks.
Proof.
  induction l as [|x l IH]; intros Hl; cbn [draw_all]; [by exists []|].
  destruct (Hl x) as (calls & -> & Hc); [by left|].
  destruct IH as (rest & -> & Hr); [intros y Hy; apply Hl; by right|].
  cbn [mbind option_bind]. exists (calls :: rest). split; [done|]. by constructor.
Qed.

Lemma concat_all {A B} (P : B → Prop) (Q : A → list B → Prop) l bs :
  Forall2 (λ x b, Forall P b ∧ Q x b) l bs → Forall P (concat bs).
Proof. induction 1 as [|x b l bs [H1 _] _ IH]; cbn; [constructor|]. by apply Forall_app. Qed.

Lemma enumerated_elem start end_ row idx :
  (row, idx) ∈ enumerated start end_ → idx = (start + row)%nat ∧ (idx < end_)%nat.
Proof.
  unfold enumerated. intros (i & Hi)%list_elem_of_lookup. rewrite list_lookup_imap in Hi.
  apply fmap_Some in Hi as (n & Hn & [= -> ->]). apply lookup_seq in Hn as [-> Hlt]. lia.
Qed.

Context {UL : UnicodeLaws} {WU : WidthLaws} {W : Textwrap} {WL : TextwrapLaws}.

(** The columns before any position of a row can be told apart on the screen. *)
Definition offsets_fit (t : str) (area : Rect.t) (rows : list Range.t) : Prop :=
  ∀ r pos before, r ∈ rows → pos < Range.end_ r → slice_range t (Range.start r) pos = Some before →
    Rect.x area + display_width before < 2 ^ 16.

Lemma overlay_ok s area y (line_range r : Range.t) (overlay : Range.t * Style) :
  range_ok (text s) line_range → Range.start line_range = Range.start r →
  Range.end_ line_range = Range.end_ r - 1 → range_ok (text s) overlay.1 → on_screen area →
  0 ≤ Rect.width area →
  (∀ pos before, pos ≤ Range.end_ line_range →
     slice_range (text s) (Range.start line_range) pos = Some before →
     Rect.x area + display_width before < 2 ^ 16) →
  Rect.y area ≤ y < Rect.y area + Rect.height area →
  ∃ calls, draw_overlay s area y line_range overlay = Some calls
    ∧ Forall (call_inside area) calls ∧ overlay_shown (text s) area y r calls overlay.
Proof.
  destruct overlay as [range style]. intros (Hl1 & Hl2 & Hle) Hst Hen (Hr1 & Hr2 & Hre) Hscr Hw Hfit Hy.
  unfold draw_overlay, overlay_shown. cbn [fst snd]. cbv zeta. rewrite <- Hst, <- Hen.
  destruct (Z.leb_spec (Range.end_ range `min` Range.end_ line_range)
    (Range.start range `max` Range.start line_range)) as [|Hlt];
    [exists []; split_and!; [done|constructor|lia]|].
  assert (Hbs : bd (text s) (Range.start range `max` Range.start line_range))
    by (destruct (Z.max_spec (Range.start range) (Range.start line_range)) as [[_ ->]|[_ ->]]; done).
  assert (Hbe : bd (text s) (Range.end_ range `min` Range.end_ line_range))
    by (destruct (Z.min_spec (Range.end_ range) (Range.end_ line_range)) as [[_ ->]|[_ ->]]; done).
  destruct (bd_split2 _ _ _ Hbs Hbe) as (_ & m & _ & _ & _ & _ & Hm); [lia|].
  destruct (bd_split2 _ _ _ Hl1 Hbs) as (_ & before & _ & _ & _ & _ & Hb); [lia|].
  rewrite Hm, Hb. cbn [mbind option_bind]. pose proof (display_width_nonneg before) as Hnn.
  pose proof Hb as Hb'. apply Hfit in Hb'; [|lia]. destruct Hscr as (Hx & _). unfold as_u16.
  rewrite Z.mod_small, (u16_add_small _ _ (display_width before)) by lia.
  cbn [mbind option_bind]. eexists. split_and!; [done| |].
  - constructor; [|constructor]. unfold call_inside, usat_sub. lia.
  - intros _. exists m, before. split_and!; [done|done|by left].
Qed.

Lemma drawn_range_ok t r : line_ok t r →
  ∃ lr, line_range_of r = Some lr ∧ Range.start lr = Range.start r ∧ Range.end_ lr = Range.end_ r - 1
    ∧ range_ok t lr.
Proof.
  intros (H1 & H2 & H3). pose proof (bd_range _ _ H2). unfold line_range_of.
  rewrite (proj2 (Z.ltb_ge _ _)) by lia. eexists. by split_and!.
Qed.

(** A row that is drawn at a position of the area. *)
Lemma drawn_row s area rows row idx bottom :
  Forall (line_ok (text s)) rows → on_screen area →
  (idx < bottom)%nat → (bottom ≤ length rows)%nat → Z.of_nat row < Rect.height area →
  ∃ r lr line, rows !! idx = Some r ∧ r ∈ rows
    ∧ u16_add (Rect.y area) (as_u16 (Z.of_nat row)) = Some (Rect.y area + Z.of_nat row)
    ∧ line_range_of r = Some lr ∧ Range.start lr = Range.start r ∧ Range.end_ lr = Range.end_ r - 1
    ∧ range_ok (text s) lr ∧ slice_range (text s) (Range.start lr) (Range.end_ lr) = Some line.
Proof.
  intros Hrows (_ & _ & Hy0 & Hy) Hidx Hbot Hrow.
  destruct (lookup_lt_is_Some_2 rows idx) as [r Hr]; [lia|].
  destruct (drawn_range_ok (text s) r) as (lr & Hlr & H1 & H2 & Hok); [by eapply Forall_lookup_1|].
  destruct (bd_split2 _ _ _ (proj1 Hok) (proj1 (proj2 Hok)) (proj2 (proj2 Hok)))
    as (_ & line & _ & _ & _ & _ & Hline).
  exists r, lr, line. split_and!; [done|by eapply list_elem_of_lookup_2| |done|done|done|done|done].
  unfold as_u16. rewrite Z.mod_small by lia. apply (u16_add_small _ _ (Rect.height area)); lia.
Qed.

(** The overlays of a row. *)
Lemma overlays_ok s area y lr r overlays :
  (∀ ov, ov ∈ overlays → ∃ calls, draw_overlay s area y lr ov = Some calls
     ∧ Forall (call_inside area) calls ∧ overlay_shown (text s) area y r calls ov) →
  ∃ calls, draw_all (draw_overlay s area y lr) overlays = Some calls
    ∧ Forall (call_inside area) calls ∧ Forall (overlay_shown (text s) area y r calls) overlays.
Proof.
  intros Hov.
  destruct (draw_all_blocks (λ ov b, Forall (call_inside area) b ∧ overlay_shown (text s) area y r b ov)
    (draw_overlay s area y lr) overlays Hov) as (blocks & -> & Hb).
  exists (concat blocks). split_and!; [done|by apply (concat_all _ (λ ov b, overlay_shown (text s) area y r b ov) overlays)|].
  apply list.Forall_forall. intros ov [k Hk]%list_elem_of_lookup.
  destruct (Forall2_lookup_l _ _ _ _ _ Hb Hk) as (block & Hbk & _ & Hs). intros Hlt.
  destruct (Hs Hlt) as (styled & before & H1 & H2 & Hin). exists styled, before.
  split_and!; [done|done|]. apply list_elem_of_In, in_concat. exists block.
  split; apply list_elem_of_In; [by eapply list_elem_of_lookup_2|done].
Qed.

Lemma overlay_shown_mono t area y r calls calls' ov :
  (∀ c, c ∈ calls → c ∈ calls') → overlay_shown t area y r calls ov → overlay_shown t area y r calls' ov.
Proof. intros Hin Hs Hlt. destruct (Hs Hlt) as (a & b & H1 & H2 & H3). exists a, b. auto. Qed.

(** The blocks of the rounds are those of the rows in view. *)
Lemma rounds_drawn area rows start bottom shown blocks :
  (bottom ≤ length rows)%nat → (start ≤ bottom)%nat →
  Z.of_nat (bottom - start) = Z.min (Rect.height area) (Z.of_nat (length rows) - Z.of_nat start) →
  Forall2 (λ '(row, idx) block, Forall (call_inside area) block
     ∧ ∃ r, rows !! idx = Some r ∧ shown (Rect.y area + Z.of_nat row) r block)
    (enumerated start bottom) blocks →
  rows_drawn area rows (Z.of_nat start) shown (concat blocks).
Proof.
  intros Hbot Hle Hn Hb. exists blocks.
  assert (Hlen : length blocks = (bottom - start)%nat).
  { rewrite <- (list.Forall2_length _ _ _ Hb). unfold enumerated. by rewrite length_imap, length_seq. }
  split_and!; [done| |lia|].
  - apply (concat_all _ (λ '(row, idx) block, ∃ r, rows !! idx = Some r
      ∧ shown (Rect.y area + Z.of_nat row) r block) (enumerated start bottom)).
    apply (list.Forall2_impl _ _ _ _ Hb). by intros [row idx] block.
  - intros n block Hblk. destruct (Forall2_lookup_r _ _ _ _ _ Hb Hblk) as ([row idx] & He & _ & r & Hr & Hs).
    unfold enumerated in He. rewrite list_lookup_imap in He.
    apply fmap_Some in He as (m & Hm & [= -> ->]). apply lookup_seq in Hm as [-> _].
    exists r. rewrite Nat2Z.id. done.
Qed.

Lemma render_lines_ok s area rows start bottom base highlights :
  wf s → Forall (line_ok (text s)) rows → on_screen area → 0 ≤ Rect.width area →
  (bottom ≤ length rows)%nat → (start ≤ bottom)%nat →
  Z.of_nat (bottom - start) = Z.min (Rect.height area) (Z.of_nat (length rows) - Z.of_nat start) →
  Forall (λ h, range_ok (text s) h.1) highlights → offsets_fit (text s) area rows →
  ∃ calls, render_lines s area rows start bottom base highlights = Some calls
    ∧ rows_drawn area rows (Z.of_nat start) (row_shown (text s) area base
        (map (λ e, (TextElement.range e, patch base operational_reference_style)) (elements s)
         ++ highlights)) calls.
Proof.
  intros Hwf Hrows Hscr Hw Hbot Hle Hn Hhl Hfit. set (refs := map _ (elements s)).
  destruct (draw_all_blocks (λ '(row, idx) block, Forall (call_inside area) block
     ∧ ∃ r, rows !! idx = Some r ∧ row_shown (text s) area base (refs ++ highlights)
         (Rect.y area + Z.of_nat row) r block)
    (render_line s area rows base highlights) (enumerated start bottom)) as (blocks & Hd & Hb);
    [|exists (concat blocks); split; [exact Hd|by apply (rounds_drawn area rows start bottom)]].
  intros [row idx] Hin. apply enumerated_elem in Hin as [-> Hlt].
  destruct (drawn_row s area rows row (start + row) bottom Hrows Hscr) as
    (r & lr & line & Hr & Hin & Hy & Hlr & Hst & Hen & Hok & Hline); [lia|done|lia|].
  unfold render_line. rewrite Hr, Hy. cbn [mbind option_bind]. rewrite Hlr. cbn [mbind option_bind].
  rewrite Hline. cbn [mbind option_bind]. fold refs.
  assert (Hov : ∀ ov : Range.t * Style, range_ok (text s) ov.1 →
    ∃ calls, draw_overlay s area (Rect.y area + Z.of_nat row) lr ov = Some calls
      ∧ Forall (call_inside area) calls
      ∧ overlay_shown (text s) area (Rect.y area + Z.of_nat row) r calls ov).
  { intros ov Hov. apply overlay_ok; [done..| |lia]. intros pos before Hpos. rewrite Hst.
    apply Hfit; [done|lia]. }
  destruct (overlays_ok s area (Rect.y area + Z.of_nat row) lr r refs) as (elems & -> & Helems & Hse).
  { intros ov Hin'. apply list_elem_of_In, in_map_iff in Hin' as (e & <- & He). apply Hov.
    apply list_elem_of_In in He. by apply (elem_ok _ _ _ (wf_elements _ Hwf)). }
  destruct (overlays_ok s area (Rect.y area + Z.of_nat row) lr r highlights) as (marks & -> & Hmarks & Hsm).
  { intros ov Hin'. apply Hov. by apply (Forall_elem _ _ _ Hhl). }
  cbn [mbind option_bind]. eexists. split; [done|]. split.
  - apply Forall_app. split; [|by apply Forall_app]. repeat constructor; cbn; lia.
  - exists r. split; [done|]. rewrite Hst, Hen in Hline. exists line, (elems ++ marks).
    split_and!; [done|done|]. apply Forall_app. split.
    + apply (Forall_weaken _ _ _ Hse). intros ov. apply overlay_shown_mono. intros c Hc.
      do 2 right. apply elem_of_app. by left.
    + apply (Forall_weaken _ _ _ Hsm). intros ov. apply overlay_shown_mono. intros c Hc.
      do 2 right. apply elem_of_app. by right.
Qed.

Lemma repeat_widths (mask : char) (gs : list str) :
  concat (map (λ g, repeat mask (Z.to_nat (display_width g))) gs) = repeat mask (Z.to_nat (widths gs)).
Proof.
  induction gs as [|g gs IH]; [done|]. cbn [map concat]. rewrite IH, <- repeat_app.
  pose proof (display_width_nonneg g). pose proof (widths_nonneg gs).
  change (widths (g :: gs)) with (display_width g + widths gs). f_equal. lia.
Qed.

Lemma render_masked_ok s area rows start bottom mask :
  Forall (line_ok (text s)) rows → on_screen area → 0 ≤ Rect.width area →
  (bottom ≤ length rows)%nat → (start ≤ bottom)%nat →
  Z.of_nat (bottom - start) = Z.min (Rect.height area) (Z.of_nat (length rows) - Z.of_nat start) →
  ∃ calls, render_lines_masked s area rows start bottom mask = Some calls
    ∧ rows_drawn area rows (Z.of_nat start) (row_masked (text s) area mask) calls.
Proof.
  intros Hrows Hscr Hw Hbot Hle Hn.
  destruct (draw_all_blocks (λ '(row, idx) block, Forall (call_inside area) block
     ∧ ∃ r, rows !! idx = Some r ∧ row_masked (text s) area mask (Rect.y area + Z.of_nat row) r block)
    (masked_line s area rows mask) (enumerated start bottom)) as (blocks & Hd & Hb);
    [|exists (concat blocks); split; [exact Hd|by apply (rounds_drawn area rows start bottom)]].
  intros [row idx] Hin. apply enumerated_elem in Hin as [-> Hlt].
  destruct (drawn_row s area rows row (start + row) bottom Hrows Hscr) as
    (r & lr & line & Hr & Hin & Hy & Hlr & Hst & Hen & Hok & Hline); [lia|done|lia|].
  unfold masked_line. rewrite Hr, Hy. cbn [mbind option_bind]. rewrite Hlr. cbn [mbind option_bind].
  rewrite Hline. cbn [mbind option_bind]. rewrite repeat_widths. eexists. split; [done|]. split.
  - constructor; [cbn; lia|constructor].
  - exists r. split; [done|]. rewrite Hst, Hen in Hline. by exists line.
Qed.

(** The rows of the viewport. *)
Lemma effective_scroll_bounds s height rows scroll :
  0 ≤ height → 0 ≤ scroll → Z.of_nat (length rows) < 2 ^ 16 →
  0 ≤ effective_scroll s height rows scroll
  ∧ (effective_scroll s height rows scroll = 0
     ∨ effective_scroll s height rows scroll + height ≤ Z.of_nat (length rows)).
Proof.
  intros Hh Hs Hlen. unfold effective_scroll, as_u16, usat_sub.
  rewrite (Z.mod_small (Z.of_nat (length rows))) by lia.
  destruct (Z.leb_spec (Z.of_nat (length rows)) height); [lia|].
  set (i := default 0%nat _). assert (Hi : (i < length rows)%nat).
  { unfold i. destruct (wrapped_line_index_by_start rows (cursor_pos s)) as [n|] eqn:Hn; cbn; [|lia].
    by eapply line_index_lt. }
  rewrite Z.mod_small by lia. repeat case_match; lia.
Qed.

Lemma viewport_ok s area scroll rows :
  reachable s → mark_free (text s) = true → on_screen area → 0 ≤ Rect.height area → 0 ≤ scroll →
  text_rows (text s) (Rect.width area) = Some rows → Z.of_nat (length rows) < 2 ^ 16 →
  ∃ scroll' bottom s', viewport s area scroll = Some (rows, scroll', Z.to_nat scroll', bottom, s')
    ∧ wf s' ∧ Forall (line_ok (text s)) rows ∧ text s' = text s ∧ elements s' = elements s
    ∧ 0 ≤ scroll' ∧ (bottom ≤ length rows)%nat ∧ (Z.to_nat scroll' ≤ bottom)%nat
    ∧ Z.of_nat (bottom - Z.to_nat scroll')
      = Z.min (Rect.height area) (Z.of_nat (length rows) - Z.of_nat (Z.to_nat scroll'))
    ∧ ∀ i, wrapped_line_index_by_start rows (cursor_pos s) = Some i → 1 ≤ Rect.height area →
        scroll' ≤ Z.of_nat i < Z.of_nat bottom ∧ Z.of_nat i < scroll' + Rect.height area.
Proof.
  intros Hreach Hm (_ & _ & Hy0 & Hy) Hh Hs Hrows Hlen. unfold viewport.
  destruct (reachable_rows s (Rect.width area) Hreach Hm)
    as (rows' & s' & -> & H2 & Hwf & Hok & Ht & Hc & He).
  rewrite Hrows in H2. injection H2 as <-. cbn [mbind option_bind].
  destruct (effective_scroll_bounds s' (Rect.height area) rows scroll Hh Hs Hlen) as [Hge Hle].
  set (scroll' := effective_scroll s' (Rect.height area) rows scroll) in *.
  rewrite (u16_add_small scroll' _ (Rect.height area)) by lia.
  cbn [mbind option_bind]. unfold as_u16. rewrite Z.mod_small by lia.
  eexists _, _, _. split; [done|]. split_and!; [done..|lia|lia|lia|].
  intros i Hi Hh1. rewrite <- Hc in Hi. pose proof (line_index_lt _ _ _ Hi).
  destruct (effective_scroll_shows s' (Rect.height area) rows scroll i Hh1 Hs Hlen Hi) as [Hin _].
  fold scroll' in Hin. lia.
Qed.

(** C23: Drawing shows the rows in view and stays inside the area.  Take a reachable text
    area whose text has no halfwidth sound marks, an area of the screen, any scroll offset,
    fewer than 65536 rows, highlights on character boundaries, and rows in which the column
    of every position is below 65536 on the screen.  Then drawing does not panic or overflow;
    it makes, for each row from the new scroll offset on that the area has room for, a block
    of calls that draws the row's background, its text, and each element and highlight over
    the text it covers, at the row's position; every call changes cells of the area only; and
    the row of the cursor is among those drawn.  Drawing with a mask draws, for each such row,
    the mask character as often as the graphemes of the row are wide, and nothing else. *)
Theorem drawing_stays_inside s area scroll rows base highlights mask :
  reachable s → mark_free (text s) = true →
  on_screen area → 0 ≤ Rect.width area → 0 ≤ Rect.height area → 0 ≤ scroll →
  text_rows (text s) (Rect.width area) = Some rows → Z.of_nat (length rows) < 2 ^ 16 →
  Forall (λ h, range_ok (text s) h.1) highlights → offsets_fit (text s) area rows →
  let overlays := map (λ e, (TextElement.range e, patch base operational_reference_style)) (elements s)
                  ++ highlights in
  ∃ scroll' calls s' masked s'',
    render_ref_styled_with_highlights s area scroll base highlights = Some (calls, scroll', s')
    ∧ rows_drawn area rows scroll' (row_shown (text s) area base overlays) calls
    ∧ render_ref_masked s area scroll mask = Some (masked, scroll', s'')
    ∧ rows_drawn area rows scroll' (row_masked (text s) area mask) masked
    ∧ ∀ i, wrapped_line_index_by_start rows (cursor_pos s) = Some i → 1 ≤ Rect.height area →
        scroll' ≤ Z.of_nat i < scroll' + Z.min (Rect.height area) (Z.of_nat (length rows) - scroll').
Proof.
  intros Hreach Hm Hscr Hw Hh Hs Hrows Hlen Hhl Hfit. cbv zeta.
  destruct (viewport_ok s area scroll rows Hreach Hm Hscr Hh Hs Hrows Hlen)
    as (scroll' & bottom & s' & Hv & Hwf & Hok & Ht & He & Hs0 & Hbot & Hle & Hn & Hcur).
  rewrite <- Ht in Hok, Hhl, Hfit. rewrite <- Ht, <- He.
  unfold render_ref_styled_with_highlights, render_ref_masked. rewrite Hv. cbn [mbind option_bind].
  destruct (render_lines_ok s' area rows (Z.to_nat scroll') bottom base highlights)
    as (calls & -> & Hcalls); [done..|].
  destruct (render_masked_ok s' area rows (Z.to_nat scroll') bottom mask)
    as (masked & -> & Hmasked); [done..|].
  rewrite Z2Nat.id in Hcalls, Hmasked, Hn by done.
  cbn [mbind option_bind]. eexists _, _, _, _, _. split_and!; [done|done|done|done|].
  intros i Hi Hh1. specialize (Hcur i Hi Hh1). lia.
Qed.
End Inside.

(** ** A concrete drawing *)
Module DrawSample.
Import Sample.

#[export] Instance styling : Styling := {|
  Style := nat;
  default_style := 0%nat;
  patch := λ _ s, s;
  operational_reference_style := 1%nat
|}.

Definition screen : Rect.t := Rect.mk 2 3 5 2.
Definition screen_rows : list Range.t := default [] (text_rows (text area) 5).

Lemma sample_offsets_fit : offsets_fit (text area) screen screen_rows.
Proof.
  intros r pos before _ _ (rest & (a & Ha & _)%slice_from_Some & (b & Hb & _)%slice_to_Some)%bind_Some.
  assert (Hlen : (length before ≤ length (text area))%nat) by (rewrite Ha, Hb, !length_app; lia).
  unfold display_width. cbn [unicode_width unicode].
  pose proof (filter_length_le (λ c, (c =? 65438)%N || (c =? 65439)%N) before).
  change (length (text area)) with 12%nat in Hlen. cbn [Rect.x screen]. lia.
Qed.

Lemma drawing_stays_inside_witness :
  ∃ scroll' calls s' masked s'',
    render_ref_styled_with_highlights area screen 0 default_style
      [(Range.mk 0 3, operational_reference_style)] = Some (calls, scroll', s')
    ∧ rows_drawn screen screen_rows scroll' (row_shown (text area) screen default_style
        (map (λ e, (TextElement.range e, patch default_style operational_reference_style))
           (elements area) ++ [(Range.mk 0 3, operational_reference_style)])) calls
    ∧ render_ref_masked area screen 0 42%N = Some (masked, scroll', s'')
    ∧ rows_drawn screen screen_rows scroll' (row_masked (text area) screen 42%N) masked
    ∧ ∀ i, wrapped_line_index_by_start screen_rows (cursor_pos area) = Some i → 1 ≤ Rect.height screen →
        scroll' ≤ Z.of_nat i
        < scroll' + Z.min (Rect.height screen) (Z.of_nat (length screen_rows) - scroll').
Proof.
  apply (drawing_stays_inside area screen 0 screen_rows default_style
    [(Range.mk 0 3, operational_reference_style)] 42%N);
    [exact area_reachable|vm_compute; reflexivity|unfold on_screen; cbn; lia|cbn; lia|cbn; lia
    |lia|vm_compute; reflexivity|vm_compute; reflexivity| |exact sample_offsets_fit].
  constructor; [|constructor]. cbn. split_and!; [apply bd_0| |cbn; lia].
  apply (bd_app (lit "see") (lit " [image]!")).
Defined.
End DrawSample.
