(* ===== verification/ItemBuilders.v ===== *)
(** * The items clients see: [cli-protocol/src/protocol/v2/item.rs], [turn.rs],
    [shared.rs], [thread_data.rs] and [cli-protocol/src/protocol/item_builders.rs]

    [ThreadItem.t], the conversion of the core's items into it, and the builders that
    make items out of the events of old rollouts. *)

From Stdlib Require Import String ZArith NArith.
From stdpp Require Import base option list numbers gmap.
From S2P Require Import Prelude StrBytes Models ThreadItems.

(** ** The types of the protocol with clients *)
Module CodexErrorInfo.
Inductive t : Type :=
| ContextWindowExceeded
| SessionBudgetExceeded
| UsageLimitExceeded
| ServerOverloaded
| CyberPolicy
| HttpConnectionFailed (http_status_code : option Z)
| ResponseStreamConnectionFailed (http_status_code : option Z)
| InternalServerError
| Unauthorized
| BadRequest
| ThreadRollbackFailed
| SandboxError
| ResponseStreamDisconnected (http_status_code : option Z)
| ResponseTooManyFailedAttempts (http_status_code : option Z)
| ActiveTurnNotSteerable (turn_kind : NonSteerableTurnKind.t)
| Other.

Definition from (value : CoreCodexErrorInfo.t) : t :=
  match value with
  | CoreCodexErrorInfo.ContextWindowExceeded => ContextWindowExceeded
  | CoreCodexErrorInfo.SessionBudgetExceeded => SessionBudgetExceeded
  | CoreCodexErrorInfo.UsageLimitExceeded => UsageLimitExceeded
  | CoreCodexErrorInfo.ServerOverloaded => ServerOverloaded
  | CoreCodexErrorInfo.CyberPolicy => CyberPolicy
  | CoreCodexErrorInfo.HttpConnectionFailed c => HttpConnectionFailed c
  | CoreCodexErrorInfo.ResponseStreamConnectionFailed c => ResponseStreamConnectionFailed c
  | CoreCodexErrorInfo.InternalServerError => InternalServerError
  | CoreCodexErrorInfo.Unauthorized => Unauthorized
  | CoreCodexErrorInfo.BadRequest => BadRequest
  | CoreCodexErrorInfo.ThreadRollbackFailed => ThreadRollbackFailed
  | CoreCodexErrorInfo.SandboxError => SandboxError
  | CoreCodexErrorInfo.ResponseStreamDisconnected c => ResponseStreamDisconnected c
  | CoreCodexErrorInfo.ResponseTooManyFailedAttempts c => ResponseTooManyFailedAttempts c
  | CoreCodexErrorInfo.ActiveTurnNotSteerable k => ActiveTurnNotSteerable k
  | CoreCodexErrorInfo.Other => Other
  end.
End CodexErrorInfo.

Module MemoryCitationEntry.
Record t : Type := mk { path : str; line_start : Z; line_end : Z; note : str }.

Definition from (value : CoreMemoryCitationEntry.t) : t :=
  mk (CoreMemoryCitationEntry.path value) (CoreMemoryCitationEntry.line_start value)
    (CoreMemoryCitationEntry.line_end value) (CoreMemoryCitationEntry.note value).
End MemoryCitationEntry.

Module MemoryCitation.
Record t : Type := mk { entries : list MemoryCitationEntry.t; thread_ids : list str }.

Definition from (value : CoreMemoryCitation.t) : t :=
  mk (map MemoryCitationEntry.from (CoreMemoryCitation.entries value))
    (CoreMemoryCitation.rollout_ids value).
End MemoryCitation.

Module TextElement.
Record t : Type := mk { byte_range : Z * Z; placeholder : option str }.

(** The range is the pair of [start] and [end]. *)
Definition from (value : CoreTextElement.t) : t :=
  mk (CoreByteRange.start (CoreTextElement.byte_range value),
      CoreByteRange.end_ (CoreTextElement.byte_range value))
    (CoreTextElement.placeholder value).
End TextElement.

Module UserInput.
Inductive t : Type :=
| Text (text : str) (text_elements : list TextElement.t)
| Image (detail : option ImageDetail) (url : str)
| LocalImage (detail : option ImageDetail) (path : str)
| Audio (url : str)
| LocalAudio (path : str)
| Skill (name path : str)
| Mention (name path : str).

Definition from (value : CoreUserInput.t) : t :=
  match value with
  | CoreUserInput.Text text text_elements => Text text (map TextElement.from text_elements)
  | CoreUserInput.Image image_url detail => Image detail image_url
  | CoreUserInput.LocalImage path detail => LocalImage detail path
  | CoreUserInput.Audio audio_url => Audio audio_url
  | CoreUserInput.LocalAudio path => LocalAudio path
  | CoreUserInput.Skill name path => Skill name path
  | CoreUserInput.Mention name path => Mention name path
  end.
End UserInput.

Module CommandAction.
Inductive t : Type :=
| Read (command name path : str)
| ListFiles (command : str) (path : option str)
| Search (command : str) (query path : option str)
| Unknown (command : str).
End CommandAction.

Module CommandExecutionStatus.
Inductive t : Type := InProgress | Completed | Failed | Declined.

Definition from_core (value : CoreCommandExecutionStatus.t) : t :=
  match value with
  | CoreCommandExecutionStatus.InProgress => InProgress
  | CoreCommandExecutionStatus.Completed => Completed
  | CoreCommandExecutionStatus.Failed => Failed
  | CoreCommandExecutionStatus.Declined => Declined
  end.

Definition from_exec (value : ExecCommandStatus.t) : t :=
  match value with
  | ExecCommandStatus.Completed => Completed
  | ExecCommandStatus.Failed => Failed
  | ExecCommandStatus.Declined => Declined
  end.
End CommandExecutionStatus.

Module CommandExecutionSource.
Inductive t : Type := Agent | UserShell | UnifiedExecStartup | UnifiedExecInteraction.

Definition from (value : ExecCommandSource.t) : t :=
  match value with
  | ExecCommandSource.Agent => Agent
  | ExecCommandSource.UserShell => UserShell
  | ExecCommandSource.UnifiedExecStartup => UnifiedExecStartup
  | ExecCommandSource.UnifiedExecInteraction => UnifiedExecInteraction
  end.
End CommandExecutionSource.

Module CollabAgentTool.
Inductive t : Type := SpawnAgent | SendInput | ResumeAgent | Wait | CloseAgent.

Definition from (value : CoreCollabAgentTool.t) : t :=
  match value with
  | CoreCollabAgentTool.SpawnAgent => SpawnAgent
  | CoreCollabAgentTool.SendInput => SendInput
  | CoreCollabAgentTool.ResumeAgent => ResumeAgent
  | CoreCollabAgentTool.Wait => Wait
  | CoreCollabAgentTool.CloseAgent => CloseAgent
  end.
End CollabAgentTool.

Module PatchChangeKind.
Inductive t : Type := Add | Delete | Update (move_path : option str).
End PatchChangeKind.

Module FileUpdateChange.
Record t : Type := mk { path : str; kind : PatchChangeKind.t; diff : str }.
End FileUpdateChange.

Module PatchApplyStatus.
Inductive t : Type := InProgress | Completed | Failed | Declined.

Definition from (value : CorePatchApplyStatus.t) : t :=
  match value with
  | CorePatchApplyStatus.Completed => Completed
  | CorePatchApplyStatus.Failed => Failed
  | CorePatchApplyStatus.Declined => Declined
  end.
End PatchApplyStatus.

Module DynamicToolCallStatus.
Inductive t : Type := InProgress | Completed | Failed.

Definition from (value : CoreDynamicToolCallStatus.t) : t :=
  match value with
  | CoreDynamicToolCallStatus.InProgress => InProgress
  | CoreDynamicToolCallStatus.Completed => Completed
  | CoreDynamicToolCallStatus.Failed => Failed
  end.
End DynamicToolCallStatus.

Module DynamicToolCallOutputContentItem.
Inductive t : Type :=
| InputText (text : str)
| InputImage (image_url : str)
| InputAudio (audio_url : str).

Definition from (item : CoreDynamicToolCallOutputContentItem.t) : t :=
  match item with
  | CoreDynamicToolCallOutputContentItem.InputText text => InputText text
  | CoreDynamicToolCallOutputContentItem.InputImage image_url => InputImage image_url
  | CoreDynamicToolCallOutputContentItem.InputAudio audio_url => InputAudio audio_url
  end.
End DynamicToolCallOutputContentItem.

Module CollabAgentToolCallStatus.
Inductive t : Type := InProgress | Completed | Failed.

Definition from (value : CoreCollabAgentToolCallStatus.t) : t :=
  match value with
  | CoreCollabAgentToolCallStatus.InProgress => InProgress
  | CoreCollabAgentToolCallStatus.Completed => Completed
  | CoreCollabAgentToolCallStatus.Failed => Failed
  end.
End CollabAgentToolCallStatus.

Module SubAgentActivityKind.
Inductive t : Type := Started | Interacted | Interrupted.

Definition from (value : CoreSubAgentActivityKind.t) : t :=
  match value with
  | CoreSubAgentActivityKind.Started => Started
  | CoreSubAgentActivityKind.Interacted => Interacted
  | CoreSubAgentActivityKind.Interrupted => Interrupted
  end.
End SubAgentActivityKind.

Module CollabAgentStatus.
Inductive t : Type :=
| PendingInit | Running | Interrupted | Completed | Errored | Shutdown | NotFound.
End CollabAgentStatus.

Module CollabAgentState.
Record t : Type := mk { status : CollabAgentStatus.t; message : option str }.

Definition from (value : AgentStatus.t) : t :=
  match value with
  | AgentStatus.PendingInit => mk CollabAgentStatus.PendingInit None
  | AgentStatus.Running => mk CollabAgentStatus.Running None
  | AgentStatus.Interrupted => mk CollabAgentStatus.Interrupted None
  | AgentStatus.Completed message => mk CollabAgentStatus.Completed message
  | AgentStatus.Errored message => mk CollabAgentStatus.Errored (Some message)
  | AgentStatus.Shutdown => mk CollabAgentStatus.Shutdown None
  | AgentStatus.NotFound => mk CollabAgentStatus.NotFound None
  end.
End CollabAgentState.

Module NativeCodeModePhase.
Inductive t : Type :=
| Invocation | Generating | Compiling | Repairing | Running | Repair | Artifact
| Succeeded | Failed | Interrupted.

(** The [match] on the phase inside [From<CoreTurnItem> for ThreadItem]. *)
Definition from (value : CoreNativeCodeModePhase.t) : t :=
  match value with
  | CoreNativeCodeModePhase.Invocation => Invocation
  | CoreNativeCodeModePhase.Generating => Generating
  | CoreNativeCodeModePhase.Compiling => Compiling
  | CoreNativeCodeModePhase.Repairing => Repairing
  | CoreNativeCodeModePhase.Running => Running
  | CoreNativeCodeModePhase.Repair => Repair
  | CoreNativeCodeModePhase.Artifact => Artifact
  | CoreNativeCodeModePhase.Succeeded => Succeeded
  | CoreNativeCodeModePhase.Failed => Failed
  | CoreNativeCodeModePhase.Interrupted => Interrupted
  end.
End NativeCodeModePhase.

Definition web_search_action_from_core (value : WebSearchAction) : ExtWebSearchAction.t :=
  match value with
  | Search query queries => ExtWebSearchAction.Search query queries
  | OpenPage url => ExtWebSearchAction.OpenPage url
  | FindInPage url pattern => ExtWebSearchAction.FindInPage url pattern
  | OtherAction => ExtWebSearchAction.Other
  end.

Module ThreadItem.
Inductive t `{WireTypes} : Type :=
| UserMessage (id : str) (client_id : option str) (content : list UserInput.t)
| AgentMessage (id text : str) (phase : option MessagePhase)
    (memory_citation : option MemoryCitation.t)
| Plan (id text : str)
| Reasoning (id : str) (summary content : list str)
| CommandExecution (id command cwd : str) (process_id : option str)
    (source : CommandExecutionSource.t) (status : CommandExecutionStatus.t)
    (command_actions : list CommandAction.t) (aggregated_output : option str)
    (exit_code duration_ms : option Z)
| FileChange (id : str) (changes : list FileUpdateChange.t) (status : PatchApplyStatus.t)
| DynamicToolCall (id : str) (namespace : option str) (tool : str) (arguments : Value)
    (status : DynamicToolCallStatus.t)
    (content_items : option (list DynamicToolCallOutputContentItem.t))
    (success : option bool) (duration_ms : option Z)
| CollabAgentToolCall (id : str) (tool : CollabAgentTool.t)
    (status : CollabAgentToolCallStatus.t) (sender_thread_id : str)
    (receiver_thread_ids : list str) (prompt model : option str)
    (reasoning_effort : option ReasoningEffort)
    (agents_states : gmap str CollabAgentState.t)
| SubAgentActivity (id : str) (kind : SubAgentActivityKind.t) (agent_thread_id agent_path : str)
| WebSearch (item : WebSearchItem.t)
| ImageView (id path : str)
| Sleep (item : SleepItem.t)
| ImageGeneration (item : ImageGenerationItem.t)
| EnteredReviewMode (id review : str)
| ExitedReviewMode (id review : str)
| ContextCompaction (id : str)
| NativeCodeMode (id run_id : str) (phase : NativeCodeModePhase.t) (text : str).

Definition id `{WireTypes} (i : t) : str :=
  match i with
  | UserMessage id _ _ | AgentMessage id _ _ _ | Plan id _ | Reasoning id _ _
  | CommandExecution id _ _ _ _ _ _ _ _ _ | FileChange id _ _
  | DynamicToolCall id _ _ _ _ _ _ _ | CollabAgentToolCall id _ _ _ _ _ _ _ _
  | SubAgentActivity id _ _ _ | ImageView id _ | EnteredReviewMode id _
  | ExitedReviewMode id _ | ContextCompaction id => id
  | NativeCodeMode id _ _ _ => id
  | WebSearch item => WebSearchItem.id item
  | Sleep item => SleepItem.id item
  | ImageGeneration item => ImageGenerationItem.id item
  end.
End ThreadItem.

(** ** Turns: [v2/thread_data.rs] and [v2/turn.rs] *)
Module TurnStatus.
Inductive t : Type := Completed | Interrupted | Failed | InProgress.

#[export] Instance eq_dec : EqDecision t.
Proof. solve_decision. Defined.
End TurnStatus.

Module TurnError.
Record t : Type := mk {
  message : str;
  codex_error_info : option CodexErrorInfo.t;
  additional_details : option str;
}.
End TurnError.

Module TurnItemsView.
Inductive t : Type := NotLoaded | Summary | Full.
End TurnItemsView.

Module Turn.
Record t `{WireTypes} : Type := mk {
  id : str;
  items : list ThreadItem.t;
  items_view : TurnItemsView.t;
  status : TurnStatus.t;
  error : option TurnError.t;
  started_at : option Z;
  completed_at : option Z;
  duration_ms : option Z;
}.
End Turn.

(** ** Reviews: [protocol/src/review_format.rs] *)
Definition format_location (item : ReviewFinding.t) : str :=
  let loc := ReviewFinding.code_location item in
  ReviewCodeLocation.absolute_file_path loc ++ lit ":"
  ++ decimal (Z.to_N (ReviewLineRange.start (ReviewCodeLocation.line_range loc))) ++ lit "-"
  ++ decimal (Z.to_N (ReviewLineRange.end_ (ReviewCodeLocation.line_range loc))).

Definition REVIEW_FALLBACK_MESSAGE : str := lit "Reviewer failed to output a response.".

(** The dash of ["- {title} — {location}"]. *)
Definition EM_DASH : char := 8212%N.

(** [selection] gives the checkbox of a finding by its index. *)
Definition finding_lines (selection : option (list bool)) (idx : nat) (item : ReviewFinding.t)
    : list str :=
  let title := ReviewFinding.title item in
  let location := format_location item in
  let rest := title ++ lit " " ++ [EM_DASH] ++ lit " " ++ location in
  let head :=
    match selection with
    | Some flags =>
        let checked := default true (flags !! idx) in
        lit "- " ++ (if checked then lit "[x]" else lit "[ ]") ++ lit " " ++ rest
    | None => lit "- " ++ rest
    end in
  [] :: head :: map (λ body_line, lit "  " ++ body_line) (lines (ReviewFinding.body item)).

Definition format_review_findings_block (findings : list ReviewFinding.t)
    (selection : option (list bool)) : str :=
  join [LF]
    ([] :: (if (1 <? length findings)%nat then lit "Full review comments:"
            else lit "Review comment:")
     :: concat (imap (finding_lines selection) findings)).

Definition render_review_output_text (output : ReviewOutputEvent.t) : str :=
  let explanation := trim (ReviewOutputEvent.overall_explanation output) in
  let sections := match explanation with [] => [] | _ => [explanation] end in
  let sections :=
    match ReviewOutputEvent.findings output with
    | [] => sections
    | findings =>
        let trimmed := trim (format_review_findings_block findings None) in
        match trimmed with [] => sections | _ => sections ++ [trimmed] end
    end in
  match sections with
  | [] => REVIEW_FALLBACK_MESSAGE
  | _ => join [LF; LF] sections
  end.

Definition review_output_text (output : option ReviewOutputEvent.t) : str :=
  match output with
  | Some o => render_review_output_text o
  | None => REVIEW_FALLBACK_MESSAGE
  end.

(** ** Builders *)
Section builders.
Context `{WireTypes, HistoryEnv}.

Definition shlex_join (tokens : list str) : str :=
  default (lit "<command included NUL byte>") (shlex_try_join tokens).

(** A read action whose path cannot be resolved is left out. *)
Definition command_action (cwd : str) (parsed : ParsedCommand.t) : option CommandAction.t :=
  match parsed with
  | ParsedCommand.Read cmd name path =>
      match path_uri_join cwd path with
      | Some path => Some (CommandAction.Read (redact_secrets cmd) name (legacy_app_path path))
      | None => None
      end
  | ParsedCommand.ListFiles cmd path => Some (CommandAction.ListFiles (redact_secrets cmd) path)
  | ParsedCommand.Search cmd query path =>
      Some (CommandAction.Search (redact_secrets cmd) (redact_secrets <$> query) path)
  | ParsedCommand.Unknown cmd => Some (CommandAction.Unknown (redact_secrets cmd))
  end.

Definition command_actions_for_path_uri (parsed_cmd : list ParsedCommand.t) (cwd : str)
    : list CommandAction.t := omap (command_action cwd) parsed_cmd.

(** The fields [command] and [command_actions] of [CommandExecutionPresentation]. *)
Definition from_raw (command : list str) (parsed_cmd : list ParsedCommand.t) (cwd : str)
    : str * list CommandAction.t :=
  (redact_secrets (shlex_join command), command_actions_for_path_uri parsed_cmd cwd).

Definition map_patch_change_kind (change : FileChange.t) : PatchChangeKind.t :=
  match change with
  | FileChange.Add _ => PatchChangeKind.Add
  | FileChange.Delete _ => PatchChangeKind.Delete
  | FileChange.Update _ move_path => PatchChangeKind.Update move_path
  end.

Definition format_file_change_diff (change : FileChange.t) : str :=
  match change with
  | FileChange.Add content => content
  | FileChange.Delete content => content
  | FileChange.Update unified_diff move_path =>
      match move_path with
      | Some path => unified_diff ++ [LF; LF] ++ lit "Moved to: " ++ path
      | None => unified_diff
      end
  end.

(** [sort_by] on the paths, which are distinct. *)
Fixpoint insert_by_path (c : FileUpdateChange.t) (l : list FileUpdateChange.t)
    : list FileUpdateChange.t :=
  match l with
  | [] => [c]
  | d :: l' =>
      if str_ltb (FileUpdateChange.path d) (FileUpdateChange.path c)
      then d :: insert_by_path c l' else c :: l
  end.

Definition convert_patch_changes (changes : gmap str FileChange.t) : list FileUpdateChange.t :=
  foldr insert_by_path []
    (map (λ pc : str * FileChange.t,
            FileUpdateChange.mk pc.1 (map_patch_change_kind pc.2) (format_file_change_diff pc.2))
       (map_to_list changes)).

Definition build_file_change_begin_item (payload : PatchApplyBeginEvent.t) : ThreadItem.t :=
  ThreadItem.FileChange (PatchApplyBeginEvent.call_id payload)
    (convert_patch_changes (PatchApplyBeginEvent.changes payload)) PatchApplyStatus.InProgress.

Definition build_file_change_end_item (payload : PatchApplyEndEvent.t) : ThreadItem.t :=
  ThreadItem.FileChange (PatchApplyEndEvent.call_id payload)
    (convert_patch_changes (PatchApplyEndEvent.changes payload))
    (PatchApplyStatus.from (PatchApplyEndEvent.status payload)).

Definition build_command_execution_begin_item (payload : ExecCommandBeginEvent.t)
    : ThreadItem.t :=
  let '(command, command_actions) :=
    from_raw (ExecCommandBeginEvent.command payload) (ExecCommandBeginEvent.parsed_cmd payload)
      (ExecCommandBeginEvent.cwd payload) in
  ThreadItem.CommandExecution (ExecCommandBeginEvent.call_id payload) command
    (legacy_app_path (ExecCommandBeginEvent.cwd payload))
    (ExecCommandBeginEvent.process_id payload)
    (CommandExecutionSource.from (ExecCommandBeginEvent.source payload))
    CommandExecutionStatus.InProgress command_actions None None None.

Definition build_command_execution_end_item (payload : ExecCommandEndEvent.t) : ThreadItem.t :=
  let aggregated_output :=
    match ExecCommandEndEvent.aggregated_output payload with [] => None | o => Some o end in
  let duration_ms :=
    default I64_MAX (i64_try_from (as_millis (ExecCommandEndEvent.duration payload))) in
  let '(command, command_actions) :=
    from_raw (ExecCommandEndEvent.command payload) (ExecCommandEndEvent.parsed_cmd payload)
      (ExecCommandEndEvent.cwd payload) in
  ThreadItem.CommandExecution (ExecCommandEndEvent.call_id payload) command
    (legacy_app_path (ExecCommandEndEvent.cwd payload))
    (ExecCommandEndEvent.process_id payload)
    (CommandExecutionSource.from (ExecCommandEndEvent.source payload))
    (CommandExecutionStatus.from_exec (ExecCommandEndEvent.status payload))
    command_actions aggregated_output (Some (ExecCommandEndEvent.exit_code payload))
    (Some duration_ms).

(** [HashMap<ThreadId, AgentStatus>] collected into [HashMap<String, CollabAgentState>]. *)
Definition agents_states_from (m : gmap ThreadId AgentStatus.t) : gmap str CollabAgentState.t :=
  list_to_map (map (λ p : N * AgentStatus.t,
                      (thread_id_to_string p.1, CollabAgentState.from p.2)) (map_to_list m)).

(** [From<CoreTurnItem> for ThreadItem]. *)
Definition thread_item_from (value : CoreTurnItem.t) : ThreadItem.t :=
  match value with
  | CoreTurnItem.UserMessage user =>
      ThreadItem.UserMessage (UserMessageItem.id user) (UserMessageItem.client_id user)
        (map UserInput.from (UserMessageItem.content user))
  | CoreTurnItem.AgentMessage agent =>
      ThreadItem.AgentMessage (AgentMessageItem.id agent)
        (concat (map (λ entry, match entry with AgentText text => text end)
                   (AgentMessageItem.content agent)))
        (AgentMessageItem.phase agent)
        (MemoryCitation.from <$> AgentMessageItem.memory_citation agent)
  | CoreTurnItem.Plan plan => ThreadItem.Plan (PlanItem.id plan) (PlanItem.text plan)
  | CoreTurnItem.Reasoning reasoning =>
      ThreadItem.Reasoning (ReasoningItem.id reasoning) (ReasoningItem.summary_text reasoning)
        (ReasoningItem.raw_content reasoning)
  | CoreTurnItem.CommandExecution command =>
      let '(text, command_actions) :=
        from_raw (CommandExecutionItem.command command)
          (CommandExecutionItem.parsed_cmd command) (CommandExecutionItem.cwd command) in
      ThreadItem.CommandExecution (CommandExecutionItem.id command) text
        (legacy_app_path (CommandExecutionItem.cwd command))
        (CommandExecutionItem.process_id command)
        (CommandExecutionSource.from (CommandExecutionItem.source command))
        (CommandExecutionStatus.from_core (CommandExecutionItem.status command))
        command_actions
        (match CommandExecutionItem.aggregated_output command with
         | Some [] => None
         | o => o
         end)
        (CommandExecutionItem.exit_code command)
        (CommandExecutionItem.duration command ≫= λ d, i64_try_from (as_millis d))
  | CoreTurnItem.DynamicToolCall call =>
      ThreadItem.DynamicToolCall (DynamicToolCallItem.id call)
        (DynamicToolCallItem.namespace call) (DynamicToolCallItem.tool call)
        (DynamicToolCallItem.arguments call)
        (DynamicToolCallStatus.from (DynamicToolCallItem.status call))
        (map DynamicToolCallOutputContentItem.from <$> DynamicToolCallItem.content_items call)
        (DynamicToolCallItem.success call)
        (DynamicToolCallItem.duration call ≫= λ d, i64_try_from (as_millis d))
  | CoreTurnItem.CollabAgentToolCall call =>
      ThreadItem.CollabAgentToolCall (CollabAgentToolCallItem.id call)
        (CollabAgentTool.from (CollabAgentToolCallItem.tool call))
        (CollabAgentToolCallStatus.from (CollabAgentToolCallItem.status call))
        (thread_id_to_string (CollabAgentToolCallItem.sender_thread_id call))
        (map thread_id_to_string (CollabAgentToolCallItem.receiver_thread_ids call))
        (CollabAgentToolCallItem.prompt call) (CollabAgentToolCallItem.model call)
        (CollabAgentToolCallItem.reasoning_effort call)
        (agents_states_from (CollabAgentToolCallItem.agents_states call))
  | CoreTurnItem.SubAgentActivity activity =>
      ThreadItem.SubAgentActivity (SubAgentActivityItem.id activity)
        (SubAgentActivityKind.from (SubAgentActivityItem.kind activity))
        (thread_id_to_string (SubAgentActivityItem.agent_thread_id activity))
        (SubAgentActivityItem.agent_path activity)
  | CoreTurnItem.WebSearch search =>
      ThreadItem.WebSearch
        (WebSearchItem.mk _ (CoreWebSearchItem.id search) (CoreWebSearchItem.query search)
           (Some (web_search_action_from_core (CoreWebSearchItem.action search)))
           (CoreWebSearchItem.results search))
  | CoreTurnItem.ImageView image =>
      ThreadItem.ImageView (ImageViewItem.id image) (legacy_app_path (ImageViewItem.path image))
  | CoreTurnItem.Extension extension =>
      match extension with
      | ExtensionItem.ImageGeneration item => ThreadItem.ImageGeneration item
      | ExtensionItem.Sleep item => ThreadItem.Sleep item
      | ExtensionItem.WebSearch item => ThreadItem.WebSearch item
      end
  | CoreTurnItem.ImageGeneration image =>
      ThreadItem.ImageGeneration
        (ImageGenerationItem.mk (CoreImageGenerationItem.id image)
           (CoreImageGenerationItem.status image)
           (CoreImageGenerationItem.revised_prompt image)
           (CoreImageGenerationItem.result image) None
           (CoreImageGenerationItem.saved_path image))
  | CoreTurnItem.EnteredReviewMode review =>
      ThreadItem.EnteredReviewMode (EnteredReviewModeItem.id review)
        (EnteredReviewModeItem.user_facing_hint review)
  | CoreTurnItem.ExitedReviewMode review =>
      ThreadItem.ExitedReviewMode (ExitedReviewModeItem.id review)
        (review_output_text (ExitedReviewModeItem.review_output review))
  | CoreTurnItem.FileChange file_change =>
      ThreadItem.FileChange (FileChangeItem.id file_change)
        (convert_patch_changes (FileChangeItem.changes file_change))
        (match FileChangeItem.status file_change with
         | Some status => PatchApplyStatus.from status
         | None => PatchApplyStatus.InProgress
         end)
  | CoreTurnItem.ContextCompaction compaction =>
      ThreadItem.ContextCompaction (ContextCompactionItem.id compaction)
  | CoreTurnItem.NativeCodeMode item =>
      ThreadItem.NativeCodeMode (NativeCodeModeItem.id item) (NativeCodeModeItem.run_id item)
        (NativeCodeModePhase.from (NativeCodeModeItem.phase item)) (NativeCodeModeItem.text item)
  end.
End builders.
