(* ===== verification/ThreadHistory.v ===== *)
(** * Turns out of rollouts: [cli-protocol/src/protocol/thread_history.rs]

    The builder folds the records of a rollout, or the events of a running thread,
    into turns and their items.  With the [_with_changes] handlers it also reports
    which items and turns a record changed, and the accumulator coalesces those
    reports over a batch.  A handler returns the new builder.  [new_turn] draws a UUID
    for a turn without an id while no rollout record has been handled; the UUID that
    would be drawn is the argument [uuid], and one event draws at most one. *)

From Stdlib Require Import String ZArith NArith.
From stdpp Require Import base option list numbers gmap.
From S2P Require Import Prelude StrBytes Models ThreadItems ItemBuilders.

(** ** Change sets *)
Module ItemChange.
Record t `{WireTypes} : Type := mk {
  turn_id : str;
  item : ThreadItem.t;
  started_at_ms : option Z;
  completed_at_ms : option Z;
}.
End ItemChange.

Module PendingTurn.
Record t `{WireTypes} : Type := mk {
  id : str;
  items : list ThreadItem.t;
  error : option TurnError.t;
  status : TurnStatus.t;
  started_at : option Z;
  completed_at : option Z;
  duration_ms : option Z;
  opened_explicitly : bool;
  saw_compaction : bool;
  rollout_start_index : nat;
}.

(** The updates the builder makes: of the items, of status and error, of the times at
    the end of the turn, of the compaction mark, and the three of [impl PendingTurn]. *)
Definition set_items `{WireTypes} (t : t) (items : list ThreadItem.t) : PendingTurn.t :=
  mk _ (id t) items (error t) (status t) (started_at t) (completed_at t) (duration_ms t)
    (opened_explicitly t) (saw_compaction t) (rollout_start_index t).
Definition set_outcome `{WireTypes} (t : t) (status : TurnStatus.t) (error : option TurnError.t)
    : PendingTurn.t :=
  mk _ (id t) (items t) error status (started_at t) (completed_at t) (duration_ms t)
    (opened_explicitly t) (saw_compaction t) (rollout_start_index t).
Definition set_end `{WireTypes} (t : t) (completed_at duration_ms : option Z) : PendingTurn.t :=
  mk _ (id t) (items t) (error t) (status t) (started_at t) completed_at duration_ms
    (opened_explicitly t) (saw_compaction t) (rollout_start_index t).
Definition set_saw_compaction `{WireTypes} (t : t) : PendingTurn.t :=
  mk _ (id t) (items t) (error t) (status t) (started_at t) (completed_at t) (duration_ms t)
    (opened_explicitly t) true (rollout_start_index t).
Definition set_opened_explicitly `{WireTypes} (t : t) : PendingTurn.t :=
  mk _ (id t) (items t) (error t) (status t) (started_at t) (completed_at t) (duration_ms t)
    true (saw_compaction t) (rollout_start_index t).
Definition with_status `{WireTypes} (t : t) (status : TurnStatus.t) : PendingTurn.t :=
  set_outcome t status (error t).
Definition with_started_at `{WireTypes} (t : t) (started_at : option Z) : PendingTurn.t :=
  mk _ (id t) (items t) (error t) (status t) started_at (completed_at t) (duration_ms t)
    (opened_explicitly t) (saw_compaction t) (rollout_start_index t).
End PendingTurn.

(** [From<PendingTurn> for Turn]. *)
Definition turn_from `{WireTypes} (value : PendingTurn.t) : Turn.t :=
  Turn.mk _ (PendingTurn.id value) (PendingTurn.items value) TurnItemsView.Full
    (PendingTurn.status value) (PendingTurn.error value) (PendingTurn.started_at value)
    (PendingTurn.completed_at value) (PendingTurn.duration_ms value).

Module TurnChange.
Record t : Type := mk {
  turn_id : str;
  status : TurnStatus.t;
  error : option TurnError.t;
  started_at : option Z;
  completed_at : option Z;
  duration_ms : option Z;
}.

Definition from_pending_turn `{WireTypes} (turn : PendingTurn.t) : t :=
  mk (PendingTurn.id turn) (PendingTurn.status turn) (PendingTurn.error turn)
    (PendingTurn.started_at turn) (PendingTurn.completed_at turn)
    (PendingTurn.duration_ms turn).

Definition from_turn `{WireTypes} (turn : Turn.t) : t :=
  mk (Turn.id turn) (Turn.status turn) (Turn.error turn) (Turn.started_at turn)
    (Turn.completed_at turn) (Turn.duration_ms turn).
End TurnChange.

Module ChangeSet.
Record t `{WireTypes} : Type := mk {
  changed_items : list ItemChange.t;
  changed_turns : list TurnChange.t;
  removed_turn_ids : list str;
}.

Definition empty `{WireTypes} : t := mk _ [] [] [].

Definition is_empty `{WireTypes} (cs : t) : bool :=
  match changed_items cs, changed_turns cs, removed_turn_ids cs with
  | [], [], [] => true
  | _, _, _ => false
  end.
End ChangeSet.

(** ** The accumulator of a batch *)
Module Accumulator.
Record t `{WireTypes} : Type := mk {
  changed_items : list (option ItemChange.t);
  changed_item_indexes : gmap (str * str) nat;
  changed_turns : list (option TurnChange.t);
  changed_turn_indexes : gmap str nat;
  removed_turn_ids : list str;
  removed_turn_indexes : gmap str nat;
}.

Section accumulator.
Context `{WireTypes}.

Definition empty : t := mk _ [] ∅ [] ∅ [] ∅.

Definition push_item_change (acc : t) (change : ItemChange.t) : t :=
  let key := (ItemChange.turn_id change, ThreadItem.id (ItemChange.item change)) in
  match changed_item_indexes acc !! key with
  | Some index =>
      mk _ (<[index := Some change]> (changed_items acc)) (changed_item_indexes acc)
        (changed_turns acc) (changed_turn_indexes acc) (removed_turn_ids acc)
        (removed_turn_indexes acc)
  | None =>
      mk _ (changed_items acc ++ [Some change])
        (<[key := length (changed_items acc)]> (changed_item_indexes acc))
        (changed_turns acc) (changed_turn_indexes acc) (removed_turn_ids acc)
        (removed_turn_indexes acc)
  end.

Definition push_turn_change (acc : t) (change : TurnChange.t) : t :=
  match changed_turn_indexes acc !! TurnChange.turn_id change with
  | Some index =>
      mk _ (changed_items acc) (changed_item_indexes acc)
        (<[index := Some change]> (changed_turns acc)) (changed_turn_indexes acc)
        (removed_turn_ids acc) (removed_turn_indexes acc)
  | None =>
      mk _ (changed_items acc) (changed_item_indexes acc)
        (changed_turns acc ++ [Some change])
        (<[TurnChange.turn_id change := length (changed_turns acc)]> (changed_turn_indexes acc))
        (removed_turn_ids acc) (removed_turn_indexes acc)
  end.

(** The removal of one key of [removed_item_keys]. *)
Definition remove_item_key (acc : list (option ItemChange.t) * gmap (str * str) nat)
    (key : str * str) : list (option ItemChange.t) * gmap (str * str) nat :=
  match acc.2 !! key with
  | Some index => (<[index := None]> acc.1, delete key acc.2)
  | None => acc
  end.

Definition push_removed_turn_id (acc : t) (turn_id : str) : t :=
  let '(removed_ids, removed_idx) :=
    match removed_turn_indexes acc !! turn_id with
    | Some _ => (removed_turn_ids acc, removed_turn_indexes acc)
    | None =>
        (removed_turn_ids acc ++ [turn_id],
         <[turn_id := length (removed_turn_ids acc)]> (removed_turn_indexes acc))
    end in
  let '(turns, turn_idx) :=
    match changed_turn_indexes acc !! turn_id with
    | Some index =>
        (<[index := None]> (changed_turns acc), delete turn_id (changed_turn_indexes acc))
    | None => (changed_turns acc, changed_turn_indexes acc)
    end in
  let removed_item_keys :=
    filter (λ key : str * str, key.1 = turn_id)
      (map fst (map_to_list (changed_item_indexes acc))) in
  let '(items, item_idx) :=
    foldl remove_item_key (changed_items acc, changed_item_indexes acc) removed_item_keys in
  mk _ items item_idx turns turn_idx removed_ids removed_idx.

Definition push (acc : t) (changes : ChangeSet.t) : t :=
  let acc := foldl push_removed_turn_id acc (ChangeSet.removed_turn_ids changes) in
  let acc := foldl push_item_change acc (ChangeSet.changed_items changes) in
  foldl push_turn_change acc (ChangeSet.changed_turns changes).

Definition finish (acc : t) : ChangeSet.t :=
  ChangeSet.mk _ (omap id (changed_items acc)) (omap id (changed_turns acc))
    (removed_turn_ids acc).
End accumulator.
End Accumulator.

(** ** The builder *)
Record ThreadHistoryBuilder `{WireTypes} : Type := mkBuilder {
  turns : list Turn.t;
  current_turn : option PendingTurn.t;
  next_item_index : Z;
  current_rollout_index : nat;
  next_rollout_index : nat;
  active_change_set : option ChangeSet.t;
}.

(** [find] followed by an update in place: the new list and the new element. *)
Fixpoint update_first {A} (p : A → bool) (f : A → A) (l : list A) : option (list A * A) :=
  match l with
  | [] => None
  | x :: l' =>
      if p x then Some (f x :: l', f x)
      else match update_first p f l' with
           | Some (l'', y) => Some (x :: l'', y)
           | None => None
           end
  end.

(** Replaces the first item with the id, or appends. *)
Fixpoint upsert_turn_item `{WireTypes} (items : list ThreadItem.t) (item : ThreadItem.t)
    : list ThreadItem.t :=
  match items with
  | [] => [item]
  | existing :: items' =>
      if ThreadItem.id existing ==s ThreadItem.id item then item :: items'
      else existing :: upsert_turn_item items' item
  end.

Definition convert_dynamic_tool_content_items (l : list CoreDynamicToolCallOutputContentItem.t)
    : list DynamicToolCallOutputContentItem.t :=
  map (λ item, match item with
               | CoreDynamicToolCallOutputContentItem.InputText text =>
                   DynamicToolCallOutputContentItem.InputText text
               | CoreDynamicToolCallOutputContentItem.InputImage image_url =>
                   DynamicToolCallOutputContentItem.InputImage image_url
               | CoreDynamicToolCallOutputContentItem.InputAudio audio_url =>
                   DynamicToolCallOutputContentItem.InputAudio audio_url
               end) l.

Section builder.
Context `{WireTypes, HistoryEnv}.
Implicit Types b : ThreadHistoryBuilder.

Definition new_builder : ThreadHistoryBuilder := mkBuilder _ [] None 1 0 0 None.

Definition set_turns b (ts : list Turn.t) : ThreadHistoryBuilder :=
  mkBuilder _ ts (current_turn b) (next_item_index b) (current_rollout_index b)
    (next_rollout_index b) (active_change_set b).
Definition set_current b (t : option PendingTurn.t) : ThreadHistoryBuilder :=
  mkBuilder _ (turns b) t (next_item_index b) (current_rollout_index b)
    (next_rollout_index b) (active_change_set b).
Definition set_next_item_index b (i : Z) : ThreadHistoryBuilder :=
  mkBuilder _ (turns b) (current_turn b) i (current_rollout_index b)
    (next_rollout_index b) (active_change_set b).
Definition set_changes b (cs : option ChangeSet.t) : ThreadHistoryBuilder :=
  mkBuilder _ (turns b) (current_turn b) (next_item_index b) (current_rollout_index b)
    (next_rollout_index b) cs.

(** *** Recording changes *)
Definition is_tracking_changes b : bool :=
  match active_change_set b with Some _ => true | None => false end.

Definition record_changed_item b (turn_id : str) (item : ThreadItem.t) : ThreadHistoryBuilder :=
  match active_change_set b with
  | Some cs =>
      set_changes b (Some (ChangeSet.mk _
        (ChangeSet.changed_items cs ++ [ItemChange.mk _ turn_id item None None])
        (ChangeSet.changed_turns cs) (ChangeSet.removed_turn_ids cs)))
  | None => b
  end.

Definition record_changed_turn b (turn : TurnChange.t) : ThreadHistoryBuilder :=
  match active_change_set b with
  | Some cs =>
      set_changes b (Some (ChangeSet.mk _ (ChangeSet.changed_items cs)
        (ChangeSet.changed_turns cs ++ [turn]) (ChangeSet.removed_turn_ids cs)))
  | None => b
  end.

Definition record_changed_pending_turn b (turn : PendingTurn.t) : ThreadHistoryBuilder :=
  if is_tracking_changes b
  then record_changed_turn b (TurnChange.from_pending_turn turn) else b.

Definition record_removed_turn_ids b (ids : list str) : ThreadHistoryBuilder :=
  match active_change_set b with
  | Some cs =>
      set_changes b (Some (ChangeSet.mk _ (ChangeSet.changed_items cs)
        (ChangeSet.changed_turns cs) (ChangeSet.removed_turn_ids cs ++ ids)))
  | None => b
  end.

(** *** Turns and items *)
Definition next_item_id b : str * ThreadHistoryBuilder :=
  (lit "item-" ++ decimal (Z.to_N (next_item_index b)),
   set_next_item_index b (next_item_index b + 1)).

Definition finish_current_turn b : ThreadHistoryBuilder :=
  match current_turn b with
  | Some turn =>
      let b := set_current b None in
      match PendingTurn.items turn with
      | [] =>
          if negb (PendingTurn.opened_explicitly turn) && negb (PendingTurn.saw_compaction turn)
          then b else set_turns b (turns b ++ [turn_from turn])
      | _ => set_turns b (turns b ++ [turn_from turn])
      end
  | None => b
  end.

Definition new_turn (uuid : str) b (id : option str) : PendingTurn.t :=
  let id :=
    match id with
    | Some id => id
    | None =>
        if (next_rollout_index b =? 0)%nat then uuid
        else lit "rollout-" ++ decimal (N.of_nat (current_rollout_index b))
    end in
  PendingTurn.mk _ id [] None TurnStatus.Completed None None None false false
    (current_rollout_index b).

Definition ensure_turn (uuid : str) b : PendingTurn.t * ThreadHistoryBuilder :=
  match current_turn b with
  | Some turn => (turn, b)
  | None =>
      let turn := new_turn uuid b None in
      (turn, set_current (record_changed_pending_turn b turn) (Some turn))
  end.

Definition push_item_in_current_turn (uuid : str) b (item : ThreadItem.t)
    : ThreadHistoryBuilder :=
  let tracking_changes := is_tracking_changes b in
  let '(turn, b) := ensure_turn uuid b in
  let b := set_current b (Some (PendingTurn.set_items turn (PendingTurn.items turn ++ [item]))) in
  if tracking_changes then record_changed_item b (PendingTurn.id turn) item else b.

Definition upsert_item_in_current_turn (uuid : str) b (item : ThreadItem.t)
    : ThreadHistoryBuilder :=
  let tracking_changes := is_tracking_changes b in
  let '(turn, b) := ensure_turn uuid b in
  let b := set_current b
             (Some (PendingTurn.set_items turn (upsert_turn_item (PendingTurn.items turn) item))) in
  if tracking_changes then record_changed_item b (PendingTurn.id turn) item else b.

(** An upsert into a finished turn. *)
Definition upsert_into (item : ThreadItem.t) (turn : Turn.t) : Turn.t :=
  Turn.mk _ (Turn.id turn) (upsert_turn_item (Turn.items turn) item) (Turn.items_view turn)
    (Turn.status turn) (Turn.error turn) (Turn.started_at turn) (Turn.completed_at turn)
    (Turn.duration_ms turn).

Definition upsert_in_finished b (turn_id : str) (item : ThreadItem.t) : ThreadHistoryBuilder :=
  let tracking_changes := is_tracking_changes b in
  match update_first (λ turn, Turn.id turn ==s turn_id) (upsert_into item) (turns b) with
  | Some (ts, turn) =>
      let b := set_turns b ts in
      if tracking_changes then record_changed_item b (Turn.id turn) item else b
  | None => b
  end.

Definition upsert_item_in_turn_id b (turn_id : str) (item : ThreadItem.t)
    : ThreadHistoryBuilder :=
  let tracking_changes := is_tracking_changes b in
  match current_turn b with
  | Some turn =>
      if PendingTurn.id turn ==s turn_id then
        let b := set_current b
          (Some (PendingTurn.set_items turn (upsert_turn_item (PendingTurn.items turn) item))) in
        if tracking_changes then record_changed_item b (PendingTurn.id turn) item else b
      else upsert_in_finished b turn_id item
  | None => upsert_in_finished b turn_id item
  end.

(** *** Messages *)
Definition build_user_inputs (payload : UserMessageEvent.t) : list UserInput.t :=
  (match trim (UserMessageEvent.message payload) with
   | [] => []
   | _ => [UserInput.Text (UserMessageEvent.message payload)
             (map TextElement.from (UserMessageEvent.text_elements payload))]
   end)
  ++ (match UserMessageEvent.images payload with
      | Some images =>
          imap (λ idx image, UserInput.Image
                  (default None (UserMessageEvent.image_details payload !! idx)) image) images
      | None => []
      end)
  ++ imap (λ idx path, UserInput.LocalImage
             (default None (UserMessageEvent.local_image_details payload !! idx)) path)
       (UserMessageEvent.local_images payload)
  ++ (match UserMessageEvent.audio payload with
      | Some audio => map UserInput.Audio audio
      | None => []
      end)
  ++ map UserInput.LocalAudio (UserMessageEvent.local_audio payload).

(** A message goes to a turn that was opened explicitly, or to one that has only seen
    a compaction; any other turn is closed first. *)
Definition close_implicit_turn b : ThreadHistoryBuilder :=
  match current_turn b with
  | Some turn =>
      if negb (PendingTurn.opened_explicitly turn)
         && negb (PendingTurn.saw_compaction turn
                  && match PendingTurn.items turn with [] => true | _ => false end)
      then finish_current_turn b else b
  | None => b
  end.

Definition handle_user_message (uuid : str) b (payload : UserMessageEvent.t)
    : ThreadHistoryBuilder :=
  let b := close_implicit_turn b in
  let '(id, b) := next_item_id b in
  let content := build_user_inputs payload in
  push_item_in_current_turn uuid b
    (ThreadItem.UserMessage id (UserMessageEvent.client_id payload) content).

Definition handle_agent_message (uuid : str) b (text : str) (phase : option MessagePhase)
    (memory_citation : option MemoryCitation.t) : ThreadHistoryBuilder :=
  match text with
  | [] => b
  | _ =>
      let '(id, b) := next_item_id b in
      push_item_in_current_turn uuid b (ThreadItem.AgentMessage id text phase memory_citation)
  end.

(** The last item of the turn, replaced by [f] of it when it is a reasoning item. *)
Definition replace_last_reasoning (f : list str → list str → list str * list str)
    (items : list ThreadItem.t) : option (list ThreadItem.t * ThreadItem.t) :=
  match last items with
  | Some (ThreadItem.Reasoning id summary content) =>
      let '(summary, content) := f summary content in
      let item := ThreadItem.Reasoning id summary content in
      Some (removelast items ++ [item], item)
  | _ => None
  end.

(** The two reasoning handlers, which differ in the list the text goes to. *)
Definition append_reasoning (uuid : str) b (f : list str → list str → list str * list str)
    : ThreadHistoryBuilder :=
  let tracking_changes := is_tracking_changes b in
  let '(turn, b) := ensure_turn uuid b in
  match replace_last_reasoning f (PendingTurn.items turn) with
  | Some (items, item) =>
      let b := set_current b (Some (PendingTurn.set_items turn items)) in
      if tracking_changes then record_changed_item b (PendingTurn.id turn) item else b
  | None =>
      let '(id, b) := next_item_id b in
      let '(summary, content) := f [] [] in
      push_item_in_current_turn uuid b (ThreadItem.Reasoning id summary content)
  end.

Definition handle_agent_reasoning (uuid : str) b (payload : AgentReasoningEvent)
    : ThreadHistoryBuilder :=
  match reasoning_text payload with
  | [] => b
  | text => append_reasoning uuid b (λ summary content, (summary ++ [text], content))
  end.

Definition handle_agent_reasoning_raw_content (uuid : str) b
    (payload : AgentReasoningRawContentEvent) : ThreadHistoryBuilder :=
  match raw_reasoning_text payload with
  | [] => b
  | text => append_reasoning uuid b (λ summary content, (summary, content ++ [text]))
  end.

(** *** Items whose lifecycle the core records *)
Definition is_review_mode_item (item : CoreTurnItem.t) : bool :=
  match item with
  | CoreTurnItem.EnteredReviewMode _ | CoreTurnItem.ExitedReviewMode _ => true
  | _ => false
  end.

Definition should_upsert (item : CoreTurnItem.t) : bool :=
  match item with
  | CoreTurnItem.Plan plan => match PlanItem.text plan with [] => false | _ => true end
  | CoreTurnItem.CommandExecution _ | CoreTurnItem.DynamicToolCall _
  | CoreTurnItem.CollabAgentToolCall _ | CoreTurnItem.SubAgentActivity _
  | CoreTurnItem.Extension _ | CoreTurnItem.NativeCodeMode _
  | CoreTurnItem.EnteredReviewMode _ | CoreTurnItem.ExitedReviewMode _ => true
  | CoreTurnItem.UserMessage _ | CoreTurnItem.AgentMessage _ | CoreTurnItem.Reasoning _
  | CoreTurnItem.WebSearch _ | CoreTurnItem.ImageView _ | CoreTurnItem.ImageGeneration _
  | CoreTurnItem.FileChange _ | CoreTurnItem.ContextCompaction _ => false
  end.

(** The test of [upsert_review_mode_item] for a turn that exists. *)
Definition knows_turn b (turn_id : str) : bool :=
  match current_turn b with
  | Some turn => PendingTurn.id turn ==s turn_id
  | None => false
  end || existsb (λ turn, Turn.id turn ==s turn_id) (turns b).

Definition upsert_review_mode_item (uuid : str) b (turn_id : option str) (item : ThreadItem.t)
    : ThreadHistoryBuilder :=
  match turn_id with
  | None => upsert_item_in_current_turn uuid b item
  | Some turn_id =>
      let b :=
        if knows_turn b turn_id then b
        else
          let b := finish_current_turn b in
          let turn := new_turn uuid b (Some turn_id) in
          set_current (record_changed_pending_turn b turn) (Some turn) in
      upsert_item_in_turn_id b turn_id item
  end.

Definition handle_materialized_item_lifecycle (uuid : str) b (turn_id : str)
    (item : CoreTurnItem.t) : ThreadHistoryBuilder :=
  if should_upsert item then
    if is_review_mode_item item
    then upsert_review_mode_item uuid b (Some turn_id) (thread_item_from item)
    else upsert_item_in_turn_id b turn_id (thread_item_from item)
  else b.

Definition handle_item_started (uuid : str) b (payload : ItemStartedEvent.t)
    : ThreadHistoryBuilder :=
  handle_materialized_item_lifecycle uuid b (ItemStartedEvent.turn_id payload)
    (ItemStartedEvent.item payload).

Definition handle_item_completed (uuid : str) b (payload : ItemCompletedEvent.t)
    : ThreadHistoryBuilder :=
  handle_materialized_item_lifecycle uuid b (ItemCompletedEvent.turn_id payload)
    (ItemCompletedEvent.item payload).

(** *** Tool calls *)
Definition handle_web_search_begin (uuid : str) b (payload : WebSearchBeginEvent)
    : ThreadHistoryBuilder :=
  upsert_item_in_current_turn uuid b
    (ThreadItem.WebSearch (WebSearchItem.mk _ (web_search_begin_call_id payload) [] None None)).

Definition handle_web_search_end (uuid : str) b (payload : WebSearchEndEvent.t)
    : ThreadHistoryBuilder :=
  upsert_item_in_current_turn uuid b
    (ThreadItem.WebSearch
       (WebSearchItem.mk _ (WebSearchEndEvent.call_id payload) (WebSearchEndEvent.query payload)
          (Some (web_search_action_from_core (WebSearchEndEvent.action payload)))
          (WebSearchEndEvent.results payload))).

Definition handle_exec_command_begin b (payload : ExecCommandBeginEvent.t)
    : ThreadHistoryBuilder :=
  upsert_item_in_turn_id b (ExecCommandBeginEvent.turn_id payload)
    (build_command_execution_begin_item payload).

Definition handle_exec_command_end b (payload : ExecCommandEndEvent.t) : ThreadHistoryBuilder :=
  upsert_item_in_turn_id b (ExecCommandEndEvent.turn_id payload)
    (build_command_execution_end_item payload).

(** An event with an empty turn id belongs to the current turn. *)
Definition upsert_by_turn_id (uuid : str) b (turn_id : str) (item : ThreadItem.t)
    : ThreadHistoryBuilder :=
  match turn_id with
  | [] => upsert_item_in_current_turn uuid b item
  | _ => upsert_item_in_turn_id b turn_id item
  end.

Definition handle_patch_apply_begin (uuid : str) b (payload : PatchApplyBeginEvent.t)
    : ThreadHistoryBuilder :=
  upsert_by_turn_id uuid b (PatchApplyBeginEvent.turn_id payload)
    (build_file_change_begin_item payload).

Definition handle_patch_apply_end (uuid : str) b (payload : PatchApplyEndEvent.t)
    : ThreadHistoryBuilder :=
  upsert_by_turn_id uuid b (PatchApplyEndEvent.turn_id payload)
    (build_file_change_end_item payload).

Definition handle_dynamic_tool_call_request (uuid : str) b (payload : DynamicToolCallRequest.t)
    : ThreadHistoryBuilder :=
  upsert_by_turn_id uuid b (DynamicToolCallRequest.turn_id payload)
    (ThreadItem.DynamicToolCall (DynamicToolCallRequest.call_id payload)
       (DynamicToolCallRequest.namespace payload) (DynamicToolCallRequest.tool payload)
       (DynamicToolCallRequest.arguments payload) DynamicToolCallStatus.InProgress
       None None None).

Definition handle_dynamic_tool_call_response (uuid : str) b
    (payload : DynamicToolCallResponseEvent.t) : ThreadHistoryBuilder :=
  let status :=
    if DynamicToolCallResponseEvent.success payload
    then DynamicToolCallStatus.Completed else DynamicToolCallStatus.Failed in
  let duration_ms := i64_try_from (as_millis (DynamicToolCallResponseEvent.duration payload)) in
  upsert_by_turn_id uuid b (DynamicToolCallResponseEvent.turn_id payload)
    (ThreadItem.DynamicToolCall (DynamicToolCallResponseEvent.call_id payload)
       (DynamicToolCallResponseEvent.namespace payload)
       (DynamicToolCallResponseEvent.tool payload)
       (DynamicToolCallResponseEvent.arguments payload) status
       (Some (convert_dynamic_tool_content_items
                (DynamicToolCallResponseEvent.content_items payload)))
       (Some (DynamicToolCallResponseEvent.success payload)) duration_ms).

Definition handle_view_image_tool_call (uuid : str) b (payload : ViewImageToolCallEvent.t)
    : ThreadHistoryBuilder :=
  upsert_item_in_current_turn uuid b
    (ThreadItem.ImageView (ViewImageToolCallEvent.call_id payload)
       (legacy_app_path (ViewImageToolCallEvent.path payload))).

Definition handle_image_generation_begin (uuid : str) b (payload : ImageGenerationBeginEvent)
    : ThreadHistoryBuilder :=
  upsert_item_in_current_turn uuid b
    (ThreadItem.ImageGeneration
       (ImageGenerationItem.mk (image_begin_call_id payload) [] None [] None None)).

Definition handle_image_generation_end (uuid : str) b (payload : ImageGenerationEndEvent.t)
    : ThreadHistoryBuilder :=
  upsert_item_in_current_turn uuid b
    (ThreadItem.ImageGeneration
       (ImageGenerationItem.mk (ImageGenerationEndEvent.call_id payload)
          (ImageGenerationEndEvent.status payload)
          (ImageGenerationEndEvent.revised_prompt payload)
          (ImageGenerationEndEvent.result payload)
          (ImageGenerationEndEvent.transparent_background payload)
          (ImageGenerationEndEvent.saved_path payload))).

(** *** Collaboration between agents *)
Definition is_failed_status (s : AgentStatus.t) : bool :=
  match s with AgentStatus.Errored _ | AgentStatus.NotFound => true | _ => false end.

Definition call_status (s : AgentStatus.t) : CollabAgentToolCallStatus.t :=
  if is_failed_status s then CollabAgentToolCallStatus.Failed
  else CollabAgentToolCallStatus.Completed.

(** The single entry of [agents_states] for a receiver. *)
Definition receiver_state (id : ThreadId) (s : AgentStatus.t) : gmap str CollabAgentState.t :=
  {[ thread_id_to_string id := CollabAgentState.from s ]}.

Definition handle_collab_agent_spawn_begin (uuid : str) b
    (payload : CollabAgentSpawnBeginEvent.t) : ThreadHistoryBuilder :=
  upsert_item_in_current_turn uuid b
    (ThreadItem.CollabAgentToolCall (CollabAgentSpawnBeginEvent.call_id payload)
       CollabAgentTool.SpawnAgent CollabAgentToolCallStatus.InProgress
       (thread_id_to_string (CollabAgentSpawnBeginEvent.sender_thread_id payload)) []
       (Some (CollabAgentSpawnBeginEvent.prompt payload))
       (Some (CollabAgentSpawnBeginEvent.model payload))
       (Some (CollabAgentSpawnBeginEvent.reasoning_effort payload)) ∅).

Definition handle_collab_agent_spawn_end (uuid : str) b (payload : CollabAgentSpawnEndEvent.t)
    : ThreadHistoryBuilder :=
  let agent_status := CollabAgentSpawnEndEvent.status payload in
  let status :=
    if is_failed_status agent_status then CollabAgentToolCallStatus.Failed
    else match CollabAgentSpawnEndEvent.new_thread_id payload with
         | Some _ => CollabAgentToolCallStatus.Completed
         | None => CollabAgentToolCallStatus.Failed
         end in
  let '(receiver_thread_ids, agents_states) :=
    match CollabAgentSpawnEndEvent.new_thread_id payload with
    | Some id => ([thread_id_to_string id], receiver_state id agent_status)
    | None => ([], ∅)
    end in
  upsert_item_in_current_turn uuid b
    (ThreadItem.CollabAgentToolCall (CollabAgentSpawnEndEvent.call_id payload)
       CollabAgentTool.SpawnAgent status
       (thread_id_to_string (CollabAgentSpawnEndEvent.sender_thread_id payload))
       receiver_thread_ids (Some (CollabAgentSpawnEndEvent.prompt payload))
       (Some (CollabAgentSpawnEndEvent.model payload))
       (Some (CollabAgentSpawnEndEvent.reasoning_effort payload)) agents_states).

Definition handle_collab_agent_interaction_begin (uuid : str) b
    (payload : CollabAgentInteractionBeginEvent.t) : ThreadHistoryBuilder :=
  upsert_item_in_current_turn uuid b
    (ThreadItem.CollabAgentToolCall (CollabAgentInteractionBeginEvent.call_id payload)
       CollabAgentTool.SendInput CollabAgentToolCallStatus.InProgress
       (thread_id_to_string (CollabAgentInteractionBeginEvent.sender_thread_id payload))
       [thread_id_to_string (CollabAgentInteractionBeginEvent.receiver_thread_id payload)]
       (Some (CollabAgentInteractionBeginEvent.prompt payload)) None None ∅).

Definition handle_collab_agent_interaction_end (uuid : str) b
    (payload : CollabAgentInteractionEndEvent.t) : ThreadHistoryBuilder :=
  let receiver := CollabAgentInteractionEndEvent.receiver_thread_id payload in
  let agent_status := CollabAgentInteractionEndEvent.status payload in
  upsert_item_in_current_turn uuid b
    (ThreadItem.CollabAgentToolCall (CollabAgentInteractionEndEvent.call_id payload)
       CollabAgentTool.SendInput (call_status agent_status)
       (thread_id_to_string (CollabAgentInteractionEndEvent.sender_thread_id payload))
       [thread_id_to_string receiver] (Some (CollabAgentInteractionEndEvent.prompt payload))
       None None (receiver_state receiver agent_status)).

Definition handle_sub_agent_activity (uuid : str) b (payload : SubAgentActivityEvent.t)
    : ThreadHistoryBuilder :=
  upsert_item_in_current_turn uuid b
    (ThreadItem.SubAgentActivity (SubAgentActivityEvent.event_id payload)
       (SubAgentActivityKind.from (SubAgentActivityEvent.kind payload))
       (thread_id_to_string (SubAgentActivityEvent.agent_thread_id payload))
       (SubAgentActivityEvent.agent_path payload)).

Definition handle_collab_waiting_begin (uuid : str) b (payload : CollabWaitingBeginEvent.t)
    : ThreadHistoryBuilder :=
  upsert_item_in_current_turn uuid b
    (ThreadItem.CollabAgentToolCall (CollabWaitingBeginEvent.call_id payload)
       CollabAgentTool.Wait CollabAgentToolCallStatus.InProgress
       (thread_id_to_string (CollabWaitingBeginEvent.sender_thread_id payload))
       (map thread_id_to_string (CollabWaitingBeginEvent.receiver_thread_ids payload))
       None None None ∅).

Definition handle_collab_waiting_end (uuid : str) b (payload : CollabWaitingEndEvent.t)
    : ThreadHistoryBuilder :=
  let statuses := map_to_list (CollabWaitingEndEvent.statuses payload) in
  let status :=
    if existsb (λ p : N * AgentStatus.t, is_failed_status p.2) statuses
    then CollabAgentToolCallStatus.Failed else CollabAgentToolCallStatus.Completed in
  let receiver_thread_ids :=
    sort_strs (map (λ p : N * AgentStatus.t, thread_id_to_string p.1) statuses) in
  upsert_item_in_current_turn uuid b
    (ThreadItem.CollabAgentToolCall (CollabWaitingEndEvent.call_id payload)
       CollabAgentTool.Wait status
       (thread_id_to_string (CollabWaitingEndEvent.sender_thread_id payload))
       receiver_thread_ids None None None
       (agents_states_from (CollabWaitingEndEvent.statuses payload))).

Definition handle_collab_close_begin (uuid : str) b (payload : CollabCloseBeginEvent.t)
    : ThreadHistoryBuilder :=
  upsert_item_in_current_turn uuid b
    (ThreadItem.CollabAgentToolCall (CollabCloseBeginEvent.call_id payload)
       CollabAgentTool.CloseAgent CollabAgentToolCallStatus.InProgress
       (thread_id_to_string (CollabCloseBeginEvent.sender_thread_id payload))
       [thread_id_to_string (CollabCloseBeginEvent.receiver_thread_id payload)]
       None None None ∅).

Definition handle_collab_close_end (uuid : str) b (payload : CollabCloseEndEvent.t)
    : ThreadHistoryBuilder :=
  let receiver := CollabCloseEndEvent.receiver_thread_id payload in
  let agent_status := CollabCloseEndEvent.status payload in
  upsert_item_in_current_turn uuid b
    (ThreadItem.CollabAgentToolCall (CollabCloseEndEvent.call_id payload)
       CollabAgentTool.CloseAgent (call_status agent_status)
       (thread_id_to_string (CollabCloseEndEvent.sender_thread_id payload))
       [thread_id_to_string receiver] None None None (receiver_state receiver agent_status)).

Definition handle_collab_resume_begin (uuid : str) b (payload : CollabResumeBeginEvent.t)
    : ThreadHistoryBuilder :=
  upsert_item_in_current_turn uuid b
    (ThreadItem.CollabAgentToolCall (CollabResumeBeginEvent.call_id payload)
       CollabAgentTool.ResumeAgent CollabAgentToolCallStatus.InProgress
       (thread_id_to_string (CollabResumeBeginEvent.sender_thread_id payload))
       [thread_id_to_string (CollabResumeBeginEvent.receiver_thread_id payload)]
       None None None ∅).

Definition handle_collab_resume_end (uuid : str) b (payload : CollabResumeEndEvent.t)
    : ThreadHistoryBuilder :=
  let receiver := CollabResumeEndEvent.receiver_thread_id payload in
  let agent_status := CollabResumeEndEvent.status payload in
  upsert_item_in_current_turn uuid b
    (ThreadItem.CollabAgentToolCall (CollabResumeEndEvent.call_id payload)
       CollabAgentTool.ResumeAgent (call_status agent_status)
       (thread_id_to_string (CollabResumeEndEvent.sender_thread_id payload))
       [thread_id_to_string receiver] None None None (receiver_state receiver agent_status)).

(** *** Compaction and reviews *)
Definition handle_context_compacted (uuid : str) b : ThreadHistoryBuilder :=
  let '(id, b) := next_item_id b in
  push_item_in_current_turn uuid b (ThreadItem.ContextCompaction id).

(** [item_id.unwrap_or_else(|| self.next_item_id())]. *)
Definition item_id_or_next b (item_id : option str) : str * ThreadHistoryBuilder :=
  match item_id with
  | Some id => (id, b)
  | None => next_item_id b
  end.

Definition handle_entered_review_mode (uuid : str) b (payload : EnteredReviewModeEvent.t)
    : ThreadHistoryBuilder :=
  let review :=
    default (lit "Review requested.") (EnteredReviewModeEvent.user_facing_hint payload) in
  let '(id, b) := item_id_or_next b (EnteredReviewModeEvent.item_id payload) in
  upsert_review_mode_item uuid b (EnteredReviewModeEvent.turn_id payload)
    (ThreadItem.EnteredReviewMode id review).

Definition handle_exited_review_mode (uuid : str) b (payload : ExitedReviewModeEvent.t)
    : ThreadHistoryBuilder :=
  let review := review_output_text (ExitedReviewModeEvent.review_output payload) in
  let '(id, b) := item_id_or_next b (ExitedReviewModeEvent.item_id payload) in
  upsert_review_mode_item uuid b (ExitedReviewModeEvent.turn_id payload)
    (ThreadItem.ExitedReviewMode id review).

Definition handle_compacted (uuid : str) b : ThreadHistoryBuilder :=
  let '(turn, b) := ensure_turn uuid b in
  set_current b (Some (PendingTurn.set_saw_compaction turn)).

(** *** The lifecycle of turns *)
Definition turn_error (e : ErrorEvent.t) : TurnError.t :=
  TurnError.mk (ErrorEvent.message e) (CodexErrorInfo.from <$> ErrorEvent.codex_error_info e)
    None.

Definition handle_error b (payload : ErrorEvent.t) : ThreadHistoryBuilder :=
  if negb (ErrorEvent.affects_turn_status payload) then b
  else
    let tracking_changes := is_tracking_changes b in
    match current_turn b with
    | Some turn =>
        let turn := PendingTurn.set_outcome turn TurnStatus.Failed (Some (turn_error payload)) in
        let b := set_current b (Some turn) in
        if tracking_changes
        then record_changed_turn b (TurnChange.from_pending_turn turn) else b
    | None => b
    end.

(** [apply_abort] on the turn that is open, and the same updates of a finished one. *)
Definition apply_abort (payload : TurnAbortedEvent.t) (turn : PendingTurn.t) : PendingTurn.t :=
  PendingTurn.set_end
    (PendingTurn.set_outcome turn TurnStatus.Interrupted (PendingTurn.error turn))
    (TurnAbortedEvent.completed_at payload) (TurnAbortedEvent.duration_ms payload).

Definition abort_finished (payload : TurnAbortedEvent.t) (turn : Turn.t) : Turn.t :=
  Turn.mk _ (Turn.id turn) (Turn.items turn) (Turn.items_view turn) TurnStatus.Interrupted
    (Turn.error turn) (Turn.started_at turn) (TurnAbortedEvent.completed_at payload)
    (TurnAbortedEvent.duration_ms payload).

Definition abort_current b (payload : TurnAbortedEvent.t) : ThreadHistoryBuilder :=
  match current_turn b with
  | Some turn =>
      let turn := apply_abort payload turn in
      record_changed_turn (set_current b (Some turn)) (TurnChange.from_pending_turn turn)
  | None => b
  end.

Definition is_current b (turn_id : str) : bool :=
  match current_turn b with
  | Some turn => PendingTurn.id turn ==s turn_id
  | None => false
  end.

Definition handle_turn_aborted b (payload : TurnAbortedEvent.t) : ThreadHistoryBuilder :=
  match TurnAbortedEvent.turn_id payload with
  | Some turn_id =>
      if is_current b turn_id then abort_current b payload
      else
        match update_first (λ turn, Turn.id turn ==s turn_id) (abort_finished payload)
                (turns b) with
        | Some (ts, turn) =>
            record_changed_turn (set_turns b ts) (TurnChange.from_turn turn)
        | None => abort_current b payload
        end
  | None => abort_current b payload
  end.

Definition handle_turn_started (uuid : str) b (payload : TurnStartedEvent.t)
    : ThreadHistoryBuilder :=
  let b := finish_current_turn b in
  let turn :=
    PendingTurn.set_opened_explicitly
      (PendingTurn.with_started_at
         (PendingTurn.with_status (new_turn uuid b (Some (TurnStartedEvent.turn_id payload)))
            TurnStatus.InProgress)
         (TurnStartedEvent.started_at payload)) in
  set_current (record_changed_pending_turn b turn) (Some turn).

(** The status and error of a turn at its completion. *)
Definition completion_outcome (terminal_error : option TurnError.t) (status : TurnStatus.t)
    (error : option TurnError.t) : TurnStatus.t * option TurnError.t :=
  match terminal_error with
  | Some e => (TurnStatus.Failed, Some e)
  | None =>
      match status with
      | TurnStatus.Completed | TurnStatus.InProgress => (TurnStatus.Completed, error)
      | _ => (status, error)
      end
  end.

Definition apply_completion (payload : TurnCompleteEvent.t) (turn : PendingTurn.t)
    : PendingTurn.t :=
  let '(status, error) :=
    completion_outcome (turn_error <$> TurnCompleteEvent.error payload)
      (PendingTurn.status turn) (PendingTurn.error turn) in
  PendingTurn.set_end (PendingTurn.set_outcome turn status error)
    (TurnCompleteEvent.completed_at payload) (TurnCompleteEvent.duration_ms payload).

Definition complete_finished (payload : TurnCompleteEvent.t) (turn : Turn.t) : Turn.t :=
  let '(status, error) :=
    completion_outcome (turn_error <$> TurnCompleteEvent.error payload)
      (Turn.status turn) (Turn.error turn) in
  Turn.mk _ (Turn.id turn) (Turn.items turn) (Turn.items_view turn) status error
    (Turn.started_at turn) (TurnCompleteEvent.completed_at payload)
    (TurnCompleteEvent.duration_ms payload).

Definition complete_current b (payload : TurnCompleteEvent.t) : ThreadHistoryBuilder :=
  match current_turn b with
  | Some turn =>
      let turn := apply_completion payload turn in
      finish_current_turn
        (record_changed_turn (set_current b (Some turn)) (TurnChange.from_pending_turn turn))
  | None => b
  end.

Definition handle_turn_complete b (payload : TurnCompleteEvent.t) : ThreadHistoryBuilder :=
  if is_current b (TurnCompleteEvent.turn_id payload) then complete_current b payload
  else
    match update_first (λ turn, Turn.id turn ==s TurnCompleteEvent.turn_id payload)
            (complete_finished payload) (turns b) with
    | Some (ts, turn) => record_changed_turn (set_turns b ts) (TurnChange.from_turn turn)
    | None => complete_current b payload
    end.

Definition handle_thread_rollback b (payload : ThreadRolledBackEvent) : ThreadHistoryBuilder :=
  let b := finish_current_turn b in
  let n := Z.to_nat (num_turns payload) in
  let len := length (turns b) in
  let removed_turn_ids :=
    if (len <=? n)%nat then map Turn.id (turns b)
    else if (n =? 0)%nat then []
    else map Turn.id (drop (len - n) (turns b)) in
  let b := record_removed_turn_ids b removed_turn_ids in
  let b :=
    set_turns b (if (len <=? n)%nat then [] else take (len - n) (turns b)) in
  let item_count := Z.of_nat (sum_list (map (λ turn, length (Turn.items turn)) (turns b))) in
  set_next_item_index b (default I64_MAX (i64_try_from (usat_add item_count 1))).

(** *** The reducer *)
Definition handle_event (uuid : str) b (event : EventMsg.t) : ThreadHistoryBuilder :=
  match event with
  | EventMsg.UserMessage payload => handle_user_message uuid b payload
  | EventMsg.AgentMessage payload =>
      handle_agent_message uuid b (AgentMessageEvent.message payload)
        (AgentMessageEvent.phase payload)
        (MemoryCitation.from <$> AgentMessageEvent.memory_citation payload)
  | EventMsg.AgentReasoning payload => handle_agent_reasoning uuid b payload
  | EventMsg.AgentReasoningRawContent payload =>
      handle_agent_reasoning_raw_content uuid b payload
  | EventMsg.WebSearchBegin payload => handle_web_search_begin uuid b payload
  | EventMsg.WebSearchEnd payload => handle_web_search_end uuid b payload
  | EventMsg.ExecCommandBegin payload => handle_exec_command_begin b payload
  | EventMsg.ExecCommandEnd payload => handle_exec_command_end b payload
  | EventMsg.GuardianAssessment _ | EventMsg.ApplyPatchApprovalRequest _ => b
  | EventMsg.PatchApplyBegin payload => handle_patch_apply_begin uuid b payload
  | EventMsg.PatchApplyEnd payload => handle_patch_apply_end uuid b payload
  | EventMsg.DynamicToolCallRequested payload =>
      handle_dynamic_tool_call_request uuid b payload
  | EventMsg.DynamicToolCallResponse payload =>
      handle_dynamic_tool_call_response uuid b payload
  | EventMsg.ViewImageToolCall payload => handle_view_image_tool_call uuid b payload
  | EventMsg.ImageGenerationBegin payload => handle_image_generation_begin uuid b payload
  | EventMsg.ImageGenerationEnd payload => handle_image_generation_end uuid b payload
  | EventMsg.CollabAgentSpawnBegin payload => handle_collab_agent_spawn_begin uuid b payload
  | EventMsg.CollabAgentSpawnEnd payload => handle_collab_agent_spawn_end uuid b payload
  | EventMsg.CollabAgentInteractionBegin payload =>
      handle_collab_agent_interaction_begin uuid b payload
  | EventMsg.CollabAgentInteractionEnd payload =>
      handle_collab_agent_interaction_end uuid b payload
  | EventMsg.SubAgentActivity payload => handle_sub_agent_activity uuid b payload
  | EventMsg.CollabWaitingBegin payload => handle_collab_waiting_begin uuid b payload
  | EventMsg.CollabWaitingEnd payload => handle_collab_waiting_end uuid b payload
  | EventMsg.CollabCloseBegin payload => handle_collab_close_begin uuid b payload
  | EventMsg.CollabCloseEnd payload => handle_collab_close_end uuid b payload
  | EventMsg.CollabResumeBegin payload => handle_collab_resume_begin uuid b payload
  | EventMsg.CollabResumeEnd payload => handle_collab_resume_end uuid b payload
  | EventMsg.ContextCompacted => handle_context_compacted uuid b
  | EventMsg.EnteredReviewMode payload => handle_entered_review_mode uuid b payload
  | EventMsg.ExitedReviewMode payload => handle_exited_review_mode uuid b payload
  | EventMsg.ItemStarted payload => handle_item_started uuid b payload
  | EventMsg.ItemCompleted payload => handle_item_completed uuid b payload
  | EventMsg.Error payload => handle_error b payload
  | EventMsg.TokenCount _ => b
  | EventMsg.ThreadRolledBack payload => handle_thread_rollback b payload
  | EventMsg.TurnAborted payload => handle_turn_aborted b payload
  | EventMsg.TurnStarted payload => handle_turn_started uuid b payload
  | EventMsg.TurnComplete payload => handle_turn_complete b payload
  | EventMsg.Other _ => b
  end.

(** After the increment no UUID is drawn, so the argument is immaterial. *)
Definition handle_rollout_item b (item : RolloutItem.t) : ThreadHistoryBuilder :=
  let b := mkBuilder _ (turns b) (current_turn b) (next_item_index b) (next_rollout_index b)
             (S (next_rollout_index b)) (active_change_set b) in
  match item with
  | RolloutItem.EventMsg event => handle_event [] b event
  | RolloutItem.Compacted _ => handle_compacted [] b
  | RolloutItem.ResponseItem _ => b
  | RolloutItem.InterAgentCommunication _ | RolloutItem.InterAgentCommunicationMetadata _
  | RolloutItem.TurnContext _ | RolloutItem.WorldState _ | RolloutItem.SessionMeta _ => b
  end.

Definition collect_changes (handle : ThreadHistoryBuilder → ThreadHistoryBuilder) b
    : ThreadHistoryBuilder * ChangeSet.t :=
  let b := handle (set_changes b (Some ChangeSet.empty)) in
  (set_changes b None, default ChangeSet.empty (active_change_set b)).

Definition handle_event_with_changes (uuid : str) b (event : EventMsg.t)
    : ThreadHistoryBuilder * ChangeSet.t :=
  collect_changes (λ b, handle_event uuid b event) b.

Definition handle_rollout_item_with_changes b (item : RolloutItem.t)
    : ThreadHistoryBuilder * ChangeSet.t :=
  collect_changes (λ b, handle_rollout_item b item) b.

(** The loop of [handle_rollout_items_with_changes] over the remaining records. *)
Fixpoint accumulate_changes (acc : Accumulator.t) b (items : list RolloutItem.t)
    : ThreadHistoryBuilder * Accumulator.t :=
  match items with
  | [] => (b, acc)
  | item :: items' =>
      let '(b, changes) := handle_rollout_item_with_changes b item in
      accumulate_changes (Accumulator.push acc changes) b items'
  end.

Definition handle_rollout_items_with_changes b (items : list RolloutItem.t)
    : ThreadHistoryBuilder * ChangeSet.t :=
  let '(b, acc) := accumulate_changes Accumulator.empty b items in
  (b, Accumulator.finish acc).

(** *** Reading the builder *)
Definition finish b : list Turn.t := turns (finish_current_turn b).

Definition build_turns_from_rollout_items (items : list RolloutItem.t) : list Turn.t :=
  finish (foldl handle_rollout_item new_builder items).

Definition active_turn_snapshot b : option Turn.t :=
  match current_turn b with
  | Some turn => Some (turn_from turn)
  | None => last (turns b)
  end.

Definition active_turn_id b : option str :=
  match current_turn b with
  | Some turn => Some (PendingTurn.id turn)
  | None => Turn.id <$> last (turns b)
  end.

Definition turn_snapshot b (turn_id : str) : option Turn.t :=
  let found := List.find (λ turn, Turn.id turn ==s turn_id) (turns b) in
  match current_turn b with
  | Some turn => if PendingTurn.id turn ==s turn_id then Some (turn_from turn) else found
  | None => found
  end.

Definition active_turn_position b : option nat :=
  match current_turn b with
  | Some _ => Some (length (turns b))
  | None => match turns b with [] => None | _ => Some (length (turns b) - 1) end
  end.

Definition active_turn_id_if_explicit b : option str :=
  match current_turn b with
  | Some turn => if PendingTurn.opened_explicitly turn then Some (PendingTurn.id turn) else None
  | None => None
  end.

Definition active_turn_start_index b : option nat :=
  PendingTurn.rollout_start_index <$> current_turn b.
End builder.
