(* ===== verification/ThreadHistoryChanges.v ===== *)
(** * Applying change sets

    What a client does with a change set of [ThreadHistory]: it drops the removed
    turns, updates or appends the changed turns, then updates or appends the changed
    items.  The accumulator of a batch is shown to coalesce: applying what it holds is
    applying the change sets that were pushed, one after the other. *)

From Stdlib Require Import String ZArith NArith Lia.
From stdpp Require Import base option list numbers gmap.
From S2P Require Import Prelude StrBytes Models ThreadItems ItemBuilders ThreadHistory.

Section apply.
Context `{WireTypes}.
Implicit Types (v : list Turn.t) (c : TurnChange.t) (i : ItemChange.t).

(** ** Definitions *)
Definition with_meta c (items : list ThreadItem.t) (items_view : TurnItemsView.t) : Turn.t :=
  Turn.mk _ (TurnChange.turn_id c) items items_view (TurnChange.status c) (TurnChange.error c)
    (TurnChange.started_at c) (TurnChange.completed_at c) (TurnChange.duration_ms c).

Fixpoint apply_turn v c : list Turn.t :=
  match v with
  | [] => [with_meta c [] TurnItemsView.Full]
  | t :: v' =>
      if Turn.id t ==s TurnChange.turn_id c
      then with_meta c (Turn.items t) (Turn.items_view t) :: v'
      else t :: apply_turn v' c
  end.

Fixpoint apply_item v i : list Turn.t :=
  match v with
  | [] => []
  | t :: v' =>
      if Turn.id t ==s ItemChange.turn_id i then upsert_into (ItemChange.item i) t :: v'
      else t :: apply_item v' i
  end.

Definition remove_turn (id : str) v : list Turn.t := filter (λ t, Turn.id t ≠ id) v.

Definition apply_removed v (ids : list str) : list Turn.t :=
  filter (λ t, Turn.id t ∉ ids) v.

(** The turns after the removals and the turn changes. *)
Definition apply_turns v (cs : ChangeSet.t) : list Turn.t :=
  foldl apply_turn (apply_removed v (ChangeSet.removed_turn_ids cs)) (ChangeSet.changed_turns cs).

Definition apply_changes v (cs : ChangeSet.t) : list Turn.t :=
  foldl apply_item (apply_turns v cs) (ChangeSet.changed_items cs).

Definition turn_ids v : list str := map Turn.id v.

(** Every changed item belongs to a turn that is there when it is applied. *)
Definition closed v (cs : ChangeSet.t) : Prop :=
  Forall (λ i, ItemChange.turn_id i ∈ turn_ids (apply_turns v cs)) (ChangeSet.changed_items cs).

Definition item_key i : str * str :=
  (ItemChange.turn_id i, ThreadItem.id (ItemChange.item i)).

(** ** Items of a turn *)
Definition item_ids (l : list ThreadItem.t) : list str := map ThreadItem.id l.

Lemma upsert_same (l : list ThreadItem.t) x y :
  ThreadItem.id x = ThreadItem.id y →
  upsert_turn_item (upsert_turn_item l x) y = upsert_turn_item l y.
Proof.
  intros E. induction l as [|z l IH]; cbn; case_bool_decide; try done; cbn;
    repeat case_bool_decide; congruence.
Qed.

Lemma upsert_comm (l : list ThreadItem.t) x y :
  ThreadItem.id x ≠ ThreadItem.id y → ThreadItem.id x ∈ item_ids l →
  upsert_turn_item (upsert_turn_item l y) x = upsert_turn_item (upsert_turn_item l x) y.
Proof.
  intros N Hin. induction l as [|z l IH]; [set_solver|].
  apply elem_of_cons in Hin. cbn.
  repeat case_bool_decide; cbn; repeat case_bool_decide; try congruence.
  f_equal. apply IH. destruct Hin; [congruence|done].
Qed.

Lemma upsert_elem (l : list ThreadItem.t) x : ThreadItem.id x ∈ item_ids (upsert_turn_item l x).
Proof. induction l as [|z l IH]; cbn; [set_solver|]. case_bool_decide; cbn; set_solver. Qed.

Lemma upsert_mono (l : list ThreadItem.t) x k :
  k ∈ item_ids l → k ∈ item_ids (upsert_turn_item l x).
Proof.
  induction l as [|z l IH]; cbn; [set_solver|]. case_bool_decide; cbn; [|set_solver].
  by rewrite H0.
Qed.

Lemma upsert_fresh (l : list ThreadItem.t) x :
  ThreadItem.id x ∉ item_ids l → upsert_turn_item l x = l ++ [x].
Proof.
  induction l as [|z l IH]; cbn; [done|]. intros N. case_bool_decide; [set_solver|].
  rewrite IH; [done|set_solver].
Qed.

(** ** One change *)
Lemma apply_item_ids v i : turn_ids (apply_item v i) = turn_ids v.
Proof. induction v as [|t v IH]; cbn; [done|]. case_bool_decide; cbn; [done|by f_equal]. Qed.

Lemma apply_items_ids v l : turn_ids (foldl apply_item v l) = turn_ids v.
Proof. revert v. induction l as [|i l IH]; intros v; cbn [foldl]; [done|]. by rewrite IH, apply_item_ids. Qed.

Lemma apply_turn_ids v c k :
  k ∈ turn_ids (apply_turn v c) ↔ k ∈ turn_ids v ∨ k = TurnChange.turn_id c.
Proof.
  induction v as [|t v IH]; cbn; [set_solver|]. case_bool_decide as E; cbn; [|set_solver].
  rewrite elem_of_cons, <- E. set_solver.
Qed.

Lemma remove_turn_ids id v k : k ∈ turn_ids (remove_turn id v) ↔ k ∈ turn_ids v ∧ k ≠ id.
Proof.
  unfold turn_ids, remove_turn. rewrite !list_elem_of_fmap. setoid_rewrite list_elem_of_filter.
  naive_solver.
Qed.

Lemma apply_turn_same v c c' :
  TurnChange.turn_id c = TurnChange.turn_id c' → apply_turn (apply_turn v c) c' = apply_turn v c'.
Proof.
  intros E. induction v as [|t v IH]; cbn; repeat case_bool_decide; cbn;
    repeat case_bool_decide; congruence.
Qed.

Lemma apply_turn_comm v c c' :
  TurnChange.turn_id c ≠ TurnChange.turn_id c' → TurnChange.turn_id c ∈ turn_ids v →
  apply_turn (apply_turn v c') c = apply_turn (apply_turn v c) c'.
Proof.
  intros N Hin. induction v as [|t v IH]; [set_solver|].
  apply elem_of_cons in Hin. cbn.
  repeat case_bool_decide; cbn; repeat case_bool_decide; try congruence.
  f_equal. apply IH. destruct Hin; [congruence|done].
Qed.

Lemma apply_turn_item v c i :
  ItemChange.turn_id i ∈ turn_ids v →
  apply_item (apply_turn v c) i = apply_turn (apply_item v i) c.
Proof.
  intros Hin. induction v as [|t v IH]; [set_solver|].
  apply elem_of_cons in Hin. cbn.
  repeat case_bool_decide; cbn; repeat case_bool_decide; try congruence; [done|].
  f_equal. apply IH. destruct Hin; [congruence|done].
Qed.

Lemma apply_turn_items v c l :
  Forall (λ i, ItemChange.turn_id i ∈ turn_ids v) l →
  foldl apply_item (apply_turn v c) l = apply_turn (foldl apply_item v l) c.
Proof.
  revert v. induction l as [|i l IH]; intros v Hl; cbn [foldl]; [done|].
  apply list.Forall_cons in Hl as [Hi Hl]. rewrite apply_turn_item by done.
  apply IH. by setoid_rewrite apply_item_ids.
Qed.

(** ** Replacing an earlier change of the same item or turn *)

(** The first turn of the id, which is the one a change reaches, has the item. *)
Fixpoint first_settled v i : Prop :=
  match v with
  | [] => True
  | t :: v' =>
      if Turn.id t ==s ItemChange.turn_id i
      then ThreadItem.id (ItemChange.item i) ∈ item_ids (Turn.items t) else first_settled v' i
  end.

Lemma apply_item_settles v i j : item_key i = item_key j → first_settled (apply_item v i) j.
Proof.
  intros [= E1 E2]. induction v as [|t v IH]; cbn; [done|].
  repeat case_bool_decide; cbn; repeat case_bool_decide; try congruence.
  rewrite <- E2. apply upsert_elem.
Qed.

Lemma first_settled_mono v i j : first_settled v j → first_settled (apply_item v i) j.
Proof.
  induction v as [|t v IH]; cbn; [done|].
  repeat case_bool_decide; cbn; repeat case_bool_decide; try congruence; auto.
  apply upsert_mono.
Qed.

Lemma apply_item_same v i j : item_key i = item_key j → apply_item (apply_item v i) j = apply_item v j.
Proof.
  intros [= E1 E2]. induction v as [|t v IH]; cbn; [done|].
  repeat case_bool_decide; cbn; repeat case_bool_decide; try congruence.
  unfold upsert_into; cbn. by rewrite upsert_same.
Qed.

Lemma apply_item_comm v i j :
  item_key i ≠ item_key j → first_settled v j →
  apply_item (apply_item v i) j = apply_item (apply_item v j) i.
Proof.
  intros N Hj. induction v as [|t v IH]; cbn; [done|]. cbn in Hj.
  repeat case_bool_decide; cbn; repeat case_bool_decide; try congruence.
  - unfold upsert_into; cbn. rewrite upsert_comm; [done| |done].
    intros E. apply N. unfold item_key. congruence.
  - by rewrite IH.
Qed.

Lemma replace_item v l i j :
  item_key i = item_key j → Forall (λ k, item_key k ≠ item_key j) l →
  foldl apply_item (apply_item v j) l = apply_item (foldl apply_item (apply_item v i) l) j.
Proof.
  intros E Hl.
  assert (∀ u, first_settled u j → apply_item (foldl apply_item u l) j
                                   = foldl apply_item (apply_item u j) l) as Hc.
  { clear E. induction l as [|k l IH]; intros u Hu; cbn [foldl]; [done|].
    apply list.Forall_cons in Hl as [Hk Hl]. rewrite IH by (done || by apply first_settled_mono).
    by rewrite apply_item_comm. }
  rewrite Hc by (by apply apply_item_settles). by rewrite apply_item_same.
Qed.

Lemma replace_turn v l c c' :
  TurnChange.turn_id c = TurnChange.turn_id c' →
  Forall (λ k, TurnChange.turn_id k ≠ TurnChange.turn_id c') l →
  foldl apply_turn (apply_turn v c') l = apply_turn (foldl apply_turn (apply_turn v c) l) c'.
Proof.
  intros E Hl.
  assert (∀ u, TurnChange.turn_id c' ∈ turn_ids u → apply_turn (foldl apply_turn u l) c'
                                   = foldl apply_turn (apply_turn u c') l) as Hc.
  { clear E. induction l as [|k l IH]; intros u Hu; cbn [foldl]; [done|].
    apply list.Forall_cons in Hl as [Hk Hl].
    rewrite IH by (done || rewrite apply_turn_ids; by left).
    rewrite apply_turn_comm; [done|congruence|done]. }
  rewrite Hc by (rewrite apply_turn_ids; by right). by rewrite apply_turn_same.
Qed.

(** ** Removing a turn *)
Lemma remove_turn_cons id t v :
  remove_turn id (t :: v)
  = if decide (Turn.id t = id) then remove_turn id v else t :: remove_turn id v.
Proof. unfold remove_turn. rewrite filter_cons. by repeat case_decide. Qed.

Lemma remove_apply_item id v i :
  remove_turn id (apply_item v i)
  = if decide (ItemChange.turn_id i = id) then remove_turn id v
    else apply_item (remove_turn id v) i.
Proof.
  induction v as [|t v IH]; [by case_decide|]. cbn [apply_item].
  rewrite remove_turn_cons. case_bool_decide as E; rewrite remove_turn_cons; cbn [Turn.id upsert_into];
    rewrite ?IH; repeat case_decide; try congruence; cbn [apply_item]; by case_bool_decide.
Qed.

Lemma remove_apply_turn id v c :
  remove_turn id (apply_turn v c)
  = if decide (TurnChange.turn_id c = id) then remove_turn id v
    else apply_turn (remove_turn id v) c.
Proof.
  induction v as [|t v IH].
  { cbn [apply_turn]. rewrite remove_turn_cons. cbn. by repeat case_decide. }
  cbn [apply_turn]. rewrite remove_turn_cons.
  case_bool_decide as E; rewrite remove_turn_cons; cbn [Turn.id with_meta];
    rewrite ?IH; repeat case_decide; try congruence; cbn [apply_turn]; by case_bool_decide.
Qed.

Lemma remove_apply_items id v l :
  remove_turn id (foldl apply_item v l)
  = foldl apply_item (remove_turn id v) (filter (λ i, ItemChange.turn_id i ≠ id) l).
Proof.
  revert v. induction l as [|i l IH]; intros v; cbn [foldl]; [done|].
  rewrite IH, remove_apply_item, filter_cons. repeat case_decide; done.
Qed.

Lemma remove_apply_turns id v l :
  remove_turn id (foldl apply_turn v l)
  = foldl apply_turn (remove_turn id v) (filter (λ c, TurnChange.turn_id c ≠ id) l).
Proof.
  revert v. induction l as [|i l IH]; intros v; cbn [foldl]; [done|].
  rewrite IH, remove_apply_turn, filter_cons. repeat case_decide; done.
Qed.

Lemma apply_removed_snoc v ids id : apply_removed v (ids ++ [id]) = remove_turn id (apply_removed v ids).
Proof.
  unfold apply_removed, remove_turn. rewrite list_filter_filter.
  apply list_filter_iff. set_solver.
Qed.

Lemma apply_removed_again v ids id :
  id ∈ ids → remove_turn id (apply_removed v ids) = apply_removed v ids.
Proof.
  intros Hin. unfold apply_removed, remove_turn. rewrite list_filter_filter.
  apply list_filter_iff. set_solver.
Qed.
End apply.

(** ** A list of slots with an index by key *)
Lemma filter_keeps_all {A} (P : A → Prop) `{!∀ x, Decision (P x)} (l : list A) :
  Forall P l → filter P l = l.
Proof.
  induction 1 as [|x l Hx Hl IH]; [done|]. rewrite filter_cons_True by done. by rewrite IH.
Qed.

Lemma filter_none {A} (P : A → Prop) `{!∀ x, Decision (P x)} (l : list A) :
  Forall (λ x, ¬ P x) l → filter P l = [].
Proof. induction 1 as [|x l Hx Hl IH]; [done|]. by rewrite filter_cons_False. Qed.

Lemma filter_iff_Forall {A} (P Q : A → Prop) `{!∀ x, Decision (P x), !∀ x, Decision (Q x)}
    (l : list A) : Forall (λ x, P x ↔ Q x) l → filter P l = filter Q l.
Proof.
  induction 1 as [|x l Hx Hl IH]; [done|]. rewrite !filter_cons, IH.
  repeat case_decide; naive_solver.
Qed.

Section indexed.
Context {A K : Type} `{Countable K} (key : A → K).
Implicit Types (l : list (option A)) (m : gmap K nat).

Definition indexed l m : Prop :=
  ∀ k n, m !! k = Some n ↔ ∃ x, l !! n = Some (Some x) ∧ key x = k.

Lemma omap_id_elem l x : x ∈ omap id l ↔ ∃ n : nat, l !! n = Some (Some x).
Proof.
  rewrite list_elem_of_omap. split.
  - intros (y & Hy & E). cbn in E. subst. by apply list_elem_of_lookup_1.
  - intros [n Hn]. exists (Some x). split; [by eapply list_elem_of_lookup_2|done].
Qed.

Lemma indexed_None l m k : indexed l m → m !! k = None → Forall (λ x, key x ≠ k) (omap id l).
Proof.
  intros Hi Hk. apply list.Forall_forall. intros x Hx <-.
  apply omap_id_elem in Hx as [n Hn]. assert (m !! key x = Some n) by (apply Hi; eauto). congruence.
Qed.

Lemma indexed_split l m k n :
  indexed l m → m !! k = Some n →
  ∃ a x d, l = a ++ Some x :: d ∧ length a = n ∧ key x = k
           ∧ Forall (λ y, key y ≠ k) (omap id a) ∧ Forall (λ y, key y ≠ k) (omap id d).
Proof.
  intros Hi Hk. apply Hi in Hk as Hx. destruct Hx as (x & Hn & Hx).
  destruct (list_elem_of_split_length l n (Some x) Hn) as (a & d & -> & Ha).
  exists a, x, d. split_and!; [done..| |]; apply list.Forall_forall; intros y Hy E;
    apply omap_id_elem in Hy as [p Hp]; pose proof (lookup_lt_Some _ _ _ Hp) as Hlt.
  - assert (m !! k = Some p); [|simplify_eq; lia]. apply Hi. exists y. split; [|done].
    by rewrite lookup_app_l.
  - assert (m !! k = Some (length a + S p)); [|simplify_eq; lia]. apply Hi. exists y.
    split; [|done]. rewrite lookup_app_r by lia.
    replace (length a + S p - length a) with (S p) by lia. done.
Qed.

Lemma indexed_replace l m n x :
  indexed l m → m !! key x = Some n →
  indexed (<[n := Some x]> l) m
  ∧ ∃ a y d, omap id l = a ++ y :: d ∧ omap id (<[n := Some x]> l) = a ++ x :: d
             ∧ key y = key x ∧ Forall (λ z, key z ≠ key x) d.
Proof.
  intros Hi Hk. destruct (indexed_split _ _ _ _ Hi Hk) as (a & y & d & -> & <- & Hy & _ & Hd).
  split.
  - intros k p. rewrite (Hi k p). destruct (decide (p = length a)) as [->|Hp].
    + rewrite list_lookup_insert_eq by (rewrite length_app; cbn; lia).
      rewrite list_lookup_middle by done. naive_solver congruence.
    + by rewrite list_lookup_insert_ne.
  - exists (omap id a), y, (omap id d). rewrite insert_app_r_alt by lia.
    replace (length a - length a) with 0 by lia. cbn [insert list_insert].
    by rewrite !omap_app.
Qed.

Lemma indexed_push l m x :
  indexed l m → m !! key x = None →
  indexed (l ++ [Some x]) (<[key x := length l]> m) ∧ omap id (l ++ [Some x]) = omap id l ++ [x].
Proof.
  intros Hi Hk. split; [|by rewrite omap_app]. intros k n.
  destruct (decide (n < length l)) as [Hlt|Hge].
  - rewrite lookup_app_l by done. destruct (decide (k = key x)) as [->|N].
    + rewrite lookup_insert_eq. split; [intros; simplify_eq; lia|]. intros Hx.
      apply Hi in Hx. congruence.
    + by rewrite lookup_insert_ne.
  - rewrite lookup_app_r by lia. destruct (decide (n = length l)) as [->|N'].
    + rewrite Nat.sub_diag. cbn [lookup list_lookup]. destruct (decide (k = key x)) as [->|N].
      * rewrite lookup_insert_eq. naive_solver.
      * rewrite lookup_insert_ne by done. split; [|naive_solver].
        intros Hx%Hi. destruct Hx as (y & Hy & _). apply lookup_lt_Some in Hy. lia.
    + rewrite (lookup_ge_None_2 [Some x]) by (cbn; lia). split; [|naive_solver].
      destruct (decide (k = key x)) as [->|N].
      * rewrite lookup_insert_eq. intros; simplify_eq.
      * rewrite lookup_insert_ne by done. intros Hx%Hi. destruct Hx as (y & Hy & _).
        apply lookup_lt_Some in Hy. lia.
Qed.

Lemma indexed_delete l m k n :
  indexed l m → m !! k = Some n →
  indexed (<[n := None]> l) (delete k m)
  ∧ omap id (<[n := None]> l) = filter (λ x, key x ≠ k) (omap id l).
Proof.
  intros Hi Hk. destruct (indexed_split _ _ _ _ Hi Hk) as (a & y & d & -> & <- & Hy & Ha & Hd).
  split.
  - intros k' p. destruct (decide (k' = k)) as [->|N].
    + rewrite lookup_delete_eq. split; [done|]. intros (x & Hx & Ex).
      destruct (decide (p = length a)) as [->|Hp].
      * rewrite list_lookup_insert_eq in Hx by (rewrite length_app; cbn; lia). done.
      * rewrite list_lookup_insert_ne in Hx by done.
        assert (m !! k = Some p) by (apply Hi; eauto). congruence.
    + rewrite lookup_delete_ne by done. rewrite (Hi k' p).
      destruct (decide (p = length a)) as [->|Hp].
      * rewrite list_lookup_insert_eq by (rewrite length_app; cbn; lia).
        rewrite list_lookup_middle by done. naive_solver congruence.
      * by rewrite list_lookup_insert_ne.
  - rewrite insert_app_r_alt by lia. replace (length a - length a) with 0 by lia.
    cbn [insert list_insert]. rewrite !omap_app. cbn [omap list_omap id].
    rewrite list.filter_app, filter_cons_False by (by intros []).
    by rewrite !filter_keeps_all.
Qed.
End indexed.

(** ** The accumulator coalesces *)
Section accumulate.
Context `{WireTypes}.
Implicit Types (v : list Turn.t) (acc : Accumulator.t) (cs : ChangeSet.t).

Record acc_wf acc : Prop := {
  wf_items : indexed item_key (Accumulator.changed_items acc) (Accumulator.changed_item_indexes acc);
  wf_turns :
    indexed TurnChange.turn_id (Accumulator.changed_turns acc) (Accumulator.changed_turn_indexes acc);
  wf_removed : ∀ id, is_Some (Accumulator.removed_turn_indexes acc !! id)
                     ↔ id ∈ Accumulator.removed_turn_ids acc;
}.

Lemma empty_wf : acc_wf Accumulator.empty.
Proof.
  split; cbn.
  - intros k n. rewrite lookup_empty. naive_solver.
  - intros k n. rewrite lookup_empty. naive_solver.
  - intros id. rewrite lookup_empty. split; [intros []|]; set_solver.
Qed.

(** The effect of the three pushes on what [finish] returns. *)
Lemma push_item_finish acc i v :
  acc_wf acc →
  acc_wf (Accumulator.push_item_change acc i)
  ∧ apply_turns v (Accumulator.finish (Accumulator.push_item_change acc i))
    = apply_turns v (Accumulator.finish acc)
  ∧ apply_changes v (Accumulator.finish (Accumulator.push_item_change acc i))
    = apply_item (apply_changes v (Accumulator.finish acc)) i
  ∧ (closed v (Accumulator.finish acc) →
     ItemChange.turn_id i ∈ turn_ids (apply_turns v (Accumulator.finish acc)) →
     closed v (Accumulator.finish (Accumulator.push_item_change acc i))).
Proof.
  intros [Hi Ht Hr]. unfold Accumulator.push_item_change. fold (item_key i).
  destruct (Accumulator.changed_item_indexes acc !! item_key i) as [n|] eqn:E.
  - destruct (indexed_replace item_key _ _ _ i Hi E) as [Hi' (a & y & d & E1 & E2 & Hy & Hd)].
    unfold closed, apply_changes, Accumulator.finish, apply_turns; cbn. rewrite E1, E2.
    split_and!; [by split|done| |].
    + rewrite !foldl_app. cbn. by apply replace_item.
    + rewrite !list.Forall_app, !list.Forall_cons. naive_solver.
  - destruct (indexed_push item_key _ _ i Hi E) as [Hi' E1].
    unfold closed, apply_changes, Accumulator.finish, apply_turns; cbn. rewrite E1.
    split_and!; [by split|done|by rewrite foldl_app|].
    rewrite list.Forall_app, list.Forall_cons, list.Forall_nil. naive_solver.
Qed.

Lemma push_turn_finish acc c v :
  acc_wf acc → closed v (Accumulator.finish acc) →
  acc_wf (Accumulator.push_turn_change acc c)
  ∧ closed v (Accumulator.finish (Accumulator.push_turn_change acc c))
  ∧ apply_turns v (Accumulator.finish (Accumulator.push_turn_change acc c))
    = apply_turn (apply_turns v (Accumulator.finish acc)) c
  ∧ apply_changes v (Accumulator.finish (Accumulator.push_turn_change acc c))
    = apply_turn (apply_changes v (Accumulator.finish acc)) c.
Proof.
  intros [Hi Ht Hr] Hc.
  assert (acc_wf (Accumulator.push_turn_change acc c)
    ∧ Accumulator.changed_items (Accumulator.push_turn_change acc c) = Accumulator.changed_items acc
    ∧ apply_turns v (Accumulator.finish (Accumulator.push_turn_change acc c))
      = apply_turn (apply_turns v (Accumulator.finish acc)) c) as (Hwf & Ei & Et).
  { unfold Accumulator.push_turn_change.
    destruct (Accumulator.changed_turn_indexes acc !! TurnChange.turn_id c) as [n|] eqn:E.
    - destruct (indexed_replace TurnChange.turn_id _ _ _ c Ht E)
        as [Ht' (a & y & d & E1 & E2 & Hy & Hd)].
      unfold Accumulator.finish, apply_turns; cbn. rewrite E1, E2.
      split_and!; [by split|done|]. rewrite !foldl_app. cbn. by apply replace_turn.
    - destruct (indexed_push TurnChange.turn_id _ _ c Ht E) as [Ht' E1].
      unfold Accumulator.finish, apply_turns; cbn. rewrite E1.
      split_and!; [by split|done|by rewrite foldl_app]. }
  split_and!; [done| |done|].
  - unfold closed. rewrite Et. unfold Accumulator.finish at 1; cbn. rewrite Ei.
    eapply Forall_impl; [exact Hc|]. intros i Hin. apply apply_turn_ids. by left.
  - unfold apply_changes. rewrite Et. unfold Accumulator.finish at 1; cbn. rewrite Ei.
    by apply apply_turn_items.
Qed.

Lemma remove_keys (items : list (option ItemChange.t)) idx keys :
  indexed item_key items idx →
  ∃ items' idx', foldl Accumulator.remove_item_key (items, idx) keys = (items', idx')
    ∧ indexed item_key items' idx'
    ∧ omap id items' = filter (λ i, item_key i ∉ keys) (omap id items).
Proof.
  revert items idx. induction keys as [|k keys IH]; intros items idx Hi.
  - exists items, idx. split_and!; [done..|]. symmetry. apply filter_keeps_all.
    apply list.Forall_forall. set_solver.
  - cbn [foldl]. unfold Accumulator.remove_item_key at 2; cbn [fst snd].
    destruct (idx !! k) as [n|] eqn:E.
    + destruct (indexed_delete item_key _ _ _ _ Hi E) as [Hi' E'].
      destruct (IH _ _ Hi') as (items' & idx' & -> & Hi'' & E''). exists items', idx'.
      split_and!; [done..|]. rewrite E'', E', list_filter_filter. apply list_filter_iff. set_solver.
    + destruct (IH _ _ Hi) as (items' & idx' & -> & Hi'' & E''). exists items', idx'.
      split_and!; [done..|]. rewrite E''.
      apply filter_iff_Forall. eapply Forall_impl; [by eapply indexed_None|].
      intros i Hk. cbn. rewrite elem_of_cons. naive_solver.
Qed.

Lemma push_removed_finish acc id v :
  acc_wf acc →
  let acc' := Accumulator.push_removed_turn_id acc id in
  acc_wf acc'
  ∧ apply_turns v (Accumulator.finish acc') = remove_turn id (apply_turns v (Accumulator.finish acc))
  ∧ ChangeSet.changed_items (Accumulator.finish acc')
    = filter (λ i, ItemChange.turn_id i ≠ id) (ChangeSet.changed_items (Accumulator.finish acc)).
Proof.
  intros [Hi Ht Hr]. unfold Accumulator.push_removed_turn_id.
  set (keys := filter _ _).
  assert (∃ rids ridx, match Accumulator.removed_turn_indexes acc !! id with
    | Some _ => (Accumulator.removed_turn_ids acc, Accumulator.removed_turn_indexes acc)
    | None => (Accumulator.removed_turn_ids acc ++ [id],
        <[id := length (Accumulator.removed_turn_ids acc)]> (Accumulator.removed_turn_indexes acc))
    end = (rids, ridx) ∧ (∀ k, is_Some (ridx !! k) ↔ k ∈ rids)
    ∧ apply_removed v rids = remove_turn id (apply_removed v (Accumulator.removed_turn_ids acc)))
    as (rids & ridx & -> & Hr' & Erem).
  { destruct (Accumulator.removed_turn_indexes acc !! id) as [n|] eqn:E; eexists _, _; split_and!; try done.
    - symmetry. apply apply_removed_again, Hr. by exists n.
    - intros k. rewrite lookup_insert_is_Some', Hr, elem_of_app, list_elem_of_singleton. naive_solver.
    - apply apply_removed_snoc. }
  assert (∃ ts tidx, match Accumulator.changed_turn_indexes acc !! id with
    | Some index => (<[index := None]> (Accumulator.changed_turns acc),
        delete id (Accumulator.changed_turn_indexes acc))
    | None => (Accumulator.changed_turns acc, Accumulator.changed_turn_indexes acc)
    end = (ts, tidx) ∧ indexed TurnChange.turn_id ts tidx
    ∧ omap Datatypes.id ts = filter (λ c, TurnChange.turn_id c ≠ id)
                     (omap Datatypes.id (Accumulator.changed_turns acc)))
    as (ts & tidx & -> & Ht' & Et).
  { destruct (Accumulator.changed_turn_indexes acc !! id) as [n|] eqn:E; eexists _, _; split_and!; try done.
    - by eapply indexed_delete.
    - by eapply indexed_delete.
    - symmetry. apply filter_keeps_all. by eapply indexed_None. }
  destruct (remove_keys _ _ keys Hi) as (items' & idx' & -> & Hi' & Ei).
  cbn. split_and!; [by split|unfold apply_turns; cbn; rewrite Erem, Et; symmetry; apply remove_apply_turns|].
  rewrite Ei. apply filter_iff_Forall, list.Forall_forall. intros i Hin. unfold keys.
  apply omap_id_elem in Hin as [n Hn].
  rewrite list_elem_of_filter, list_elem_of_fmap. split; [|naive_solver].
  intros Hk E. apply Hk. split; [done|]. exists (item_key i, n). split; [done|].
  apply elem_of_map_to_list, Hi. by exists i.
Qed.

Lemma push_removed_apply acc id v :
  acc_wf acc → closed v (Accumulator.finish acc) →
  let acc' := Accumulator.push_removed_turn_id acc id in
  acc_wf acc' ∧ closed v (Accumulator.finish acc')
  ∧ apply_changes v (Accumulator.finish acc')
    = remove_turn id (apply_changes v (Accumulator.finish acc)).
Proof.
  intros Hwf Hc. destruct (push_removed_finish acc id v Hwf) as (Hwf' & Et & Ei).
  split_and!; [done| |].
  - unfold closed. rewrite Et, Ei. apply list.Forall_forall. intros i.
    rewrite list_elem_of_filter, remove_turn_ids. intros [? Hin]. split; [|done].
    unfold closed in Hc. rewrite list.Forall_forall in Hc. by apply Hc.
  - unfold apply_changes. by rewrite Et, Ei, remove_apply_items.
Qed.

Lemma push_removed_all acc ids v :
  acc_wf acc → closed v (Accumulator.finish acc) →
  let acc' := foldl Accumulator.push_removed_turn_id acc ids in
  acc_wf acc' ∧ closed v (Accumulator.finish acc')
  ∧ apply_changes v (Accumulator.finish acc')
    = apply_removed (apply_changes v (Accumulator.finish acc)) ids.
Proof.
  revert ids. refine (rev_ind _ _ _); [|intros id ids IH]; intros Hwf Hc; cbn zeta.
  - split_and!; [done..|]. symmetry. apply filter_keeps_all, list.Forall_forall. set_solver.
  - rewrite foldl_snoc. destruct (IH Hwf Hc) as (Hwf' & Hc' & E).
    rewrite apply_removed_snoc, <- E. by apply push_removed_apply.
Qed.

Lemma push_turns_all acc (ts : list TurnChange.t) v :
  acc_wf acc → closed v (Accumulator.finish acc) →
  let acc' := foldl Accumulator.push_turn_change acc ts in
  acc_wf acc' ∧ closed v (Accumulator.finish acc')
  ∧ apply_turns v (Accumulator.finish acc')
    = foldl apply_turn (apply_turns v (Accumulator.finish acc)) ts
  ∧ apply_changes v (Accumulator.finish acc')
    = foldl apply_turn (apply_changes v (Accumulator.finish acc)) ts.
Proof.
  revert ts. refine (rev_ind _ _ _); [|intros c ts IH]; intros Hwf Hc; cbn zeta; [done|].
  rewrite !foldl_snoc. destruct (IH Hwf Hc) as (Hwf' & Hc' & E1 & E2).
  rewrite <- E1, <- E2. by apply push_turn_finish.
Qed.

Lemma push_items_all acc ics v :
  acc_wf acc → closed v (Accumulator.finish acc) →
  Forall (λ i, ItemChange.turn_id i ∈ turn_ids (apply_turns v (Accumulator.finish acc))) ics →
  let acc' := foldl Accumulator.push_item_change acc ics in
  acc_wf acc' ∧ closed v (Accumulator.finish acc')
  ∧ apply_turns v (Accumulator.finish acc') = apply_turns v (Accumulator.finish acc)
  ∧ apply_changes v (Accumulator.finish acc')
    = foldl apply_item (apply_changes v (Accumulator.finish acc)) ics.
Proof.
  revert ics. refine (rev_ind _ _ _); [|intros i ics IH]; intros Hwf Hc Hi; cbn zeta; [done|].
  apply list.Forall_app in Hi as [Hi Hi1]. apply list.Forall_cons in Hi1 as [Hi1 _].
  rewrite !foldl_snoc. destruct (IH Hwf Hc Hi) as (Hwf' & Hc' & E1 & E2).
  destruct (push_item_finish (foldl Accumulator.push_item_change acc ics) i v Hwf')
    as (Hwf'' & E3 & E4 & Hc''). rewrite E4, E3, E1, E2. split_and!; try done.
  apply Hc''; [done|]. by rewrite E1.
Qed.

(** Items and turns are kept in different fields, so their pushes commute. *)
Lemma push_turn_item acc i c :
  Accumulator.push_turn_change (Accumulator.push_item_change acc i) c
  = Accumulator.push_item_change (Accumulator.push_turn_change acc c) i.
Proof.
  unfold Accumulator.push_turn_change, Accumulator.push_item_change.
  destruct (Accumulator.changed_item_indexes acc !! _) eqn:E1,
    (Accumulator.changed_turn_indexes acc !! _) eqn:E2; cbn; rewrite ?E1, ?E2; done.
Qed.

Lemma push_turns_items acc ics (ts : list TurnChange.t) :
  foldl Accumulator.push_turn_change (foldl Accumulator.push_item_change acc ics) ts
  = foldl Accumulator.push_item_change (foldl Accumulator.push_turn_change acc ts) ics.
Proof.
  revert acc. induction ics as [|i ics IH]; intros acc; cbn; [done|]. rewrite IH. f_equal.
  clear IH. revert acc. induction ts as [|c ts IH]; intros acc; cbn; [done|].
  by rewrite push_turn_item, IH.
Qed.

(** Pushing a change set is applying it after what was there. *)
Lemma push_apply acc cs v :
  acc_wf acc → closed v (Accumulator.finish acc) →
  closed (apply_changes v (Accumulator.finish acc)) cs →
  acc_wf (Accumulator.push acc cs) ∧ closed v (Accumulator.finish (Accumulator.push acc cs))
  ∧ apply_changes v (Accumulator.finish (Accumulator.push acc cs))
    = apply_changes (apply_changes v (Accumulator.finish acc)) cs.
Proof.
  intros Hwf Hc Hcs. unfold Accumulator.push. rewrite push_turns_items.
  destruct (push_removed_all acc (ChangeSet.removed_turn_ids cs) v Hwf Hc) as (Hwf1 & Hc1 & E1).
  destruct (push_turns_all _ (ChangeSet.changed_turns cs) v Hwf1 Hc1) as (Hwf2 & Hc2 & E2 & E3).
  destruct (push_items_all _ (ChangeSet.changed_items cs) v Hwf2 Hc2) as (Hwf4 & Hc4 & _ & E4).
  - eapply Forall_impl; [exact Hcs|]. intros i. unfold apply_turns at 1. rewrite <- E1, <- E3.
    unfold apply_changes. by rewrite apply_items_ids.
  - split_and!; [done..|]. rewrite E4, E3, E1. done.
Qed.
End accumulate.
