(* ===== verification/ThreadHistoryFacts.v ===== *)
(** * Facts on the thread history builder

    A turn that is open is never one [finish_current_turn] drops, and tracking changes
    does not change the history. *)

From Stdlib Require Import String ZArith NArith Lia.
From stdpp Require Import base option list numbers gmap.
From S2P Require Import Prelude StrBytes Models ThreadItems ItemBuilders ThreadHistory.
From S2P Require Import ThreadHistoryChanges.

Section facts.
Context `{WireTypes, HistoryEnv}.
Implicit Types (b : ThreadHistoryBuilder) (v : list Turn.t).

(** ** The turns of a builder *)

(** The finished turns and the one that is open. *)
Definition snapshot b : list Turn.t :=
  turns b ++ match current_turn b with Some t => [turn_from t] | None => [] end.

(** The turn that is open has an item, or is one of those that stay without. *)
Definition kept b : Prop :=
  ∀ t, current_turn b = Some t →
    PendingTurn.items t ≠ [] ∨ PendingTurn.opened_explicitly t = true
    ∨ PendingTurn.saw_compaction t = true.

(** No id names two turns, or two items of a turn. *)
Definition unique_ids v : Prop :=
  NoDup (turn_ids v) ∧ Forall (λ t, NoDup (item_ids (Turn.items t))) v.

#[global] Instance unique_ids_dec v : Decision (unique_ids v).
Proof. unfold unique_ids. apply _. Defined.

(** The builder without the change set. *)
Definition erase b : ThreadHistoryBuilder := set_changes b None.

(** ** Tracking does not change the history *)
Ltac erase_tac :=
  repeat match goal with b : ThreadHistoryBuilder |- _ => destruct b as [? [?|] ? ? ? [?|]] end;
  cbn; repeat case_match; simplify_eq; done.

Lemma erase_push uuid b i :
  erase (push_item_in_current_turn uuid b i) = push_item_in_current_turn uuid (erase b) i.
Proof. erase_tac. Qed.

Lemma erase_upsert_current uuid b i :
  erase (upsert_item_in_current_turn uuid b i) = upsert_item_in_current_turn uuid (erase b) i.
Proof. erase_tac. Qed.

Lemma erase_upsert_turn b id i :
  erase (upsert_item_in_turn_id b id i) = upsert_item_in_turn_id (erase b) id i.
Proof.
  unfold upsert_item_in_turn_id, upsert_in_finished. erase_tac.
Qed.

Lemma erase_finish_current b : erase (finish_current_turn b) = finish_current_turn (erase b).
Proof. unfold finish_current_turn. erase_tac. Qed.

Lemma erase_open uuid b id (f : PendingTurn.t → PendingTurn.t) :
  let open b := set_current (record_changed_pending_turn b (f (new_turn uuid b id)))
                  (Some (f (new_turn uuid b id))) in
  erase (open b) = open (erase b).
Proof. erase_tac. Qed.

Lemma erase_reasoning uuid b f :
  erase (append_reasoning uuid b f) = append_reasoning uuid (erase b) f.
Proof.
  unfold append_reasoning. destruct (f [] []) as [s c].
  destruct b as [ts [t|] ni ci nx [cs|]]; cbn; try done;
    destruct (replace_last_reasoning f _) as [[? ?]|]; done.
Qed.

Lemma erase_knows b id : knows_turn (erase b) id = knows_turn b id.
Proof. done. Qed.

Lemma erase_review uuid b id i :
  erase (upsert_review_mode_item uuid b id i) = upsert_review_mode_item uuid (erase b) id i.
Proof.
  destruct id as [id|]; cbn [upsert_review_mode_item]; [|apply erase_upsert_current].
  rewrite erase_upsert_turn, erase_knows. f_equal. destruct (knows_turn b id); [done|].
  rewrite <- erase_finish_current. apply (erase_open uuid _ (Some id) (λ t, t)).
Qed.

Lemma erase_close b : erase (close_implicit_turn b) = close_implicit_turn (erase b).
Proof.
  unfold close_implicit_turn. change (current_turn (erase b)) with (current_turn b).
  destruct (current_turn b) as [t|]; [|done]. case_match; [apply erase_finish_current|done].
Qed.

Lemma erase_user uuid b p : erase (handle_user_message uuid b p) = handle_user_message uuid (erase b) p.
Proof. unfold handle_user_message. rewrite <- erase_close. cbn [next_item_id]. by rewrite erase_push. Qed.

Lemma erase_abort_current b p : erase (abort_current b p) = abort_current (erase b) p.
Proof. unfold abort_current. erase_tac. Qed.

Lemma erase_complete_current b p : erase (complete_current b p) = complete_current (erase b) p.
Proof.
  unfold complete_current. change (current_turn (erase b)) with (current_turn b).
  destruct (current_turn b) as [t|]; [|done]. rewrite erase_finish_current. f_equal. erase_tac.
Qed.

Lemma erase_aborted b p : erase (handle_turn_aborted b p) = handle_turn_aborted (erase b) p.
Proof.
  unfold handle_turn_aborted. change (turns (erase b)) with (turns b).
  change (is_current (erase b)) with (is_current b).
  destruct (TurnAbortedEvent.turn_id p) as [id|]; [|apply erase_abort_current].
  destruct (is_current b id); [apply erase_abort_current|].
  destruct (update_first _ _ (turns b)) as [[ts t]|]; [erase_tac|apply erase_abort_current].
Qed.

Lemma erase_complete b p : erase (handle_turn_complete b p) = handle_turn_complete (erase b) p.
Proof.
  unfold handle_turn_complete. change (turns (erase b)) with (turns b).
  change (is_current (erase b)) with (is_current b).
  destruct (is_current b _); [apply erase_complete_current|].
  destruct (update_first _ _ (turns b)) as [[ts t]|]; [erase_tac|apply erase_complete_current].
Qed.

Lemma erase_rollback b p : erase (handle_thread_rollback b p) = handle_thread_rollback (erase b) p.
Proof.
  unfold handle_thread_rollback. rewrite <- erase_finish_current.
  generalize (finish_current_turn b). clear b. intros b.
  destruct b as [ts ct ni ci nx [cs|]]; done.
Qed.

Lemma erase_started uuid b p : erase (handle_turn_started uuid b p) = handle_turn_started uuid (erase b) p.
Proof.
  unfold handle_turn_started. rewrite <- erase_finish_current.
  apply (erase_open uuid _ (Some (TurnStartedEvent.turn_id p))
           (λ t, PendingTurn.set_opened_explicitly (PendingTurn.with_started_at
              (PendingTurn.with_status t TurnStatus.InProgress) (TurnStartedEvent.started_at p)))).
Qed.

Lemma erase_error b p : erase (handle_error b p) = handle_error (erase b) p.
Proof. unfold handle_error. destruct (negb _); [done|]. erase_tac. Qed.

Lemma erase_compacted uuid b : erase (handle_compacted uuid b) = handle_compacted uuid (erase b).
Proof. unfold handle_compacted, ensure_turn. erase_tac. Qed.

Lemma erase_by_turn_id uuid b id i :
  erase (upsert_by_turn_id uuid b id i) = upsert_by_turn_id uuid (erase b) id i.
Proof. destruct id; [apply erase_upsert_current|apply erase_upsert_turn]. Qed.

Lemma erase_materialized uuid b id i :
  erase (handle_materialized_item_lifecycle uuid b id i)
  = handle_materialized_item_lifecycle uuid (erase b) id i.
Proof.
  unfold handle_materialized_item_lifecycle.
  destruct (should_upsert i); [|done]. destruct (is_review_mode_item i);
    [apply erase_review|apply erase_upsert_turn].
Qed.

Ltac erase_apply :=
  first [apply erase_user | apply erase_upsert_current | apply erase_upsert_turn
        | apply erase_by_turn_id | apply erase_materialized | apply erase_aborted
        | apply erase_complete | apply erase_rollback | apply erase_started | apply erase_error
        | apply erase_reasoning | apply erase_push].

Lemma erase_handle_event uuid b e : erase (handle_event uuid b e) = handle_event uuid (erase b) e.
Proof.
  destruct e; cbn [handle_event]; try done; try erase_apply.
  - unfold handle_agent_message. destruct (AgentMessageEvent.message payload); [done|].
    apply erase_push.
  - unfold handle_agent_reasoning. destruct (reasoning_text payload); [done|erase_apply].
  - unfold handle_agent_reasoning_raw_content. destruct (raw_reasoning_text payload);
      [done|erase_apply].
  - unfold handle_collab_agent_spawn_end.
    destruct (CollabAgentSpawnEndEvent.new_thread_id payload); apply erase_upsert_current.
  - unfold handle_entered_review_mode.
    destruct (EnteredReviewModeEvent.item_id payload); cbn; by rewrite erase_review.
  - unfold handle_exited_review_mode.
    destruct (ExitedReviewModeEvent.item_id payload); cbn; by rewrite erase_review.
Qed.

Lemma erase_handle_rollout_item b i : erase (handle_rollout_item b i) = handle_rollout_item (erase b) i.
Proof.
  destruct i; cbn [handle_rollout_item]; try done.
  - rewrite erase_compacted. done.
  - rewrite erase_handle_event. done.
Qed.

(** ** No turn is lost *)
Lemma upsert_nonempty (l : list ThreadItem.t) i : upsert_turn_item l i ≠ [].
Proof. destruct l; cbn; [done|]. by case_bool_decide. Qed.

(** The records of changes leave turns and indexes alone. *)
Lemma record_item_fields b id i :
  turns (record_changed_item b id i) = turns b
  ∧ current_turn (record_changed_item b id i) = current_turn b.
Proof. unfold record_changed_item. by destruct (active_change_set b). Qed.

Lemma record_turn_fields b c :
  turns (record_changed_turn b c) = turns b
  ∧ current_turn (record_changed_turn b c) = current_turn b.
Proof. unfold record_changed_turn. by destruct (active_change_set b). Qed.

Lemma kept_current b t :
  current_turn b = Some t → PendingTurn.items t ≠ [] → kept b.
Proof. intros E N t' E'. simplify_eq. by left. Qed.

Lemma kept_None b : current_turn b = None → kept b.
Proof. intros E t E'. congruence. Qed.

Lemma kept_set_items b b' t items id i (tracking : bool) :
  items ≠ [] →
  b' = set_current b (Some (PendingTurn.set_items t items)) →
  kept (if tracking then record_changed_item b' id i else b').
Proof.
  intros N ->. apply kept_current with (t := PendingTurn.set_items t items); [|exact N].
  destruct tracking; [|done]. by rewrite (proj2 (record_item_fields _ _ _)).
Qed.

Lemma kept_push uuid b i : kept (push_item_in_current_turn uuid b i).
Proof.
  unfold push_item_in_current_turn. destruct (ensure_turn uuid b) as [t b'].
  eapply kept_set_items; [|done]. by destruct (PendingTurn.items t).
Qed.

Lemma kept_upsert_current uuid b i : kept (upsert_item_in_current_turn uuid b i).
Proof.
  unfold upsert_item_in_current_turn. destruct (ensure_turn uuid b) as [t b'].
  eapply kept_set_items; [|done]. apply upsert_nonempty.
Qed.

Lemma upsert_in_finished_current b id i :
  current_turn (upsert_in_finished b id i) = current_turn b.
Proof.
  unfold upsert_in_finished. destruct (update_first _ _ _) as [[ts t]|]; [|done].
  case_match; [|done]. by rewrite (proj2 (record_item_fields _ _ _)).
Qed.

Lemma kept_upsert_turn b id i :
  kept b ∨ is_current b id = true → kept (upsert_item_in_turn_id b id i).
Proof.
  unfold upsert_item_in_turn_id, is_current. intros Hb.
  assert (kept b → kept (upsert_in_finished b id i)) as Hf.
  { intros Hk t. rewrite upsert_in_finished_current. apply Hk. }
  destruct (current_turn b) as [t|]; [case_bool_decide|].
  - eapply kept_set_items; [|done]. apply upsert_nonempty.
  - naive_solver.
  - naive_solver.
Qed.

Lemma finish_current_None b : current_turn (finish_current_turn b) = None.
Proof.
  unfold finish_current_turn. destruct (current_turn b) as [t|] eqn:E; [|done].
  destruct (PendingTurn.items t); [case_match|]; done.
Qed.

Lemma kept_finish_current b : kept (finish_current_turn b).
Proof. apply kept_None, finish_current_None. Qed.

Lemma kept_review uuid b id i : kept b → kept (upsert_review_mode_item uuid b id i).
Proof.
  intros Hk. destruct id as [id|]; cbn [upsert_review_mode_item]; [|apply kept_upsert_current].
  apply kept_upsert_turn. destruct (knows_turn b id); [by left|right].
  unfold is_current. cbn. by case_bool_decide.
Qed.

Lemma kept_reasoning uuid b f : kept (append_reasoning uuid b f).
Proof.
  unfold append_reasoning. destruct (ensure_turn uuid b) as [t b'].
  destruct (replace_last_reasoning f (PendingTurn.items t)) as [[l x]|] eqn:E.
  - eapply kept_set_items; [|done]. unfold replace_last_reasoning in E.
    destruct (last _) as [[]|]; try done. destruct (f summary content). simplify_eq.
    by destruct (removelast _).
  - cbn [next_item_id]. destruct (f [] []). apply kept_push.
Qed.

Lemma kept_abort_current b p : kept b → kept (abort_current b p).
Proof.
  intros Hk. unfold abort_current. destruct (current_turn b) as [t|] eqn:E; [|done].
  intros t'. rewrite (proj2 (record_turn_fields _ _)). cbn. intros [= <-]. by apply Hk in E.
Qed.

Lemma kept_complete_current b p : kept b → kept (complete_current b p).
Proof.
  intros Hk. unfold complete_current. destruct (current_turn b); [|done]. apply kept_finish_current.
Qed.

Lemma kept_record_turns b ts c : kept b → kept (record_changed_turn (set_turns b ts) c).
Proof. intros Hk t. rewrite (proj2 (record_turn_fields _ _)). apply Hk. Qed.

Lemma kept_aborted b p : kept b → kept (handle_turn_aborted b p).
Proof.
  intros Hk. unfold handle_turn_aborted.
  destruct (TurnAbortedEvent.turn_id p) as [id|]; [|by apply kept_abort_current].
  destruct (is_current b id); [by apply kept_abort_current|].
  destruct (update_first _ _ (turns b)) as [[ts t]|];
    [by apply kept_record_turns|by apply kept_abort_current].
Qed.

Lemma kept_complete b p : kept b → kept (handle_turn_complete b p).
Proof.
  intros Hk. unfold handle_turn_complete.
  destruct (is_current b _); [by apply kept_complete_current|].
  destruct (update_first _ _ (turns b)) as [[ts t]|];
    [by apply kept_record_turns|by apply kept_complete_current].
Qed.

Lemma kept_started uuid b p : kept (handle_turn_started uuid b p).
Proof. intros t. unfold handle_turn_started. cbn. intros [= <-]. by right; left. Qed.

Lemma kept_error b p : kept b → kept (handle_error b p).
Proof.
  intros Hk. unfold handle_error. destruct (negb _); [done|].
  destruct (current_turn b) as [t|] eqn:E; [|done].
  intros t'. destruct (is_tracking_changes b); rewrite ?(proj2 (record_turn_fields _ _)); cbn;
    intros [= <-]; by apply Hk in E.
Qed.

Lemma kept_rollback b p : kept (handle_thread_rollback b p).
Proof.
  apply kept_None. unfold handle_thread_rollback. cbn.
  unfold record_removed_turn_ids. destruct (active_change_set _); cbn; apply finish_current_None.
Qed.

Lemma kept_by_turn_id uuid b id i : kept b → kept (upsert_by_turn_id uuid b id i).
Proof. intros Hk. destruct id; [apply kept_upsert_current|]. apply kept_upsert_turn. by left. Qed.

Lemma kept_materialized uuid b id i : kept b → kept (handle_materialized_item_lifecycle uuid b id i).
Proof.
  intros Hk. unfold handle_materialized_item_lifecycle. destruct (should_upsert i); [|done].
  destruct (is_review_mode_item i); [by apply kept_review|]. apply kept_upsert_turn. by left.
Qed.

Ltac kept_apply :=
  first [apply kept_upsert_current | apply kept_upsert_turn; by left | by apply kept_by_turn_id
        | by apply kept_materialized | by apply kept_aborted | by apply kept_complete
        | apply kept_rollback | apply kept_started | by apply kept_error
        | apply kept_reasoning | apply kept_push].

Lemma kept_handle_event uuid b e : kept b → kept (handle_event uuid b e).
Proof.
  intros Hk. destruct e; cbn [handle_event]; try done; try kept_apply.
  - unfold handle_agent_message. destruct (AgentMessageEvent.message payload); [done|kept_apply].
  - unfold handle_agent_reasoning. destruct (reasoning_text payload); [done|kept_apply].
  - unfold handle_agent_reasoning_raw_content.
    destruct (raw_reasoning_text payload); [done|kept_apply].
  - unfold handle_collab_agent_spawn_end.
    destruct (CollabAgentSpawnEndEvent.new_thread_id payload); kept_apply.
  - unfold handle_entered_review_mode.
    destruct (EnteredReviewModeEvent.item_id payload); by apply kept_review.
  - unfold handle_exited_review_mode.
    destruct (ExitedReviewModeEvent.item_id payload); by apply kept_review.
Qed.

Lemma kept_handle_rollout_item b i : kept b → kept (handle_rollout_item b i).
Proof.
  intros Hk. destruct i; cbn [handle_rollout_item]; try done; [|by apply kept_handle_event].
  intros t. unfold handle_compacted, ensure_turn. cbn.
  destruct (current_turn b); cbn; intros [= <-]; by right; right.
Qed.

Lemma kept_run b items : kept b → kept (foldl handle_rollout_item b items).
Proof.
  revert b. induction items as [|i items IH]; intros b Hk; cbn [foldl]; [done|].
  by apply IH, kept_handle_rollout_item.
Qed.

Lemma snapshot_finish_current b : kept b → snapshot (finish_current_turn b) = snapshot b.
Proof.
  intros Hk. unfold snapshot, finish_current_turn.
  destruct (current_turn b) as [t|] eqn:E; [|by rewrite E].
  destruct (Hk t E) as [N|[N|N]]; destruct (PendingTurn.items t); try done;
    rewrite ?N, ?andb_false_r; cbn; by rewrite app_nil_r.
Qed.

Lemma finish_snapshot b : kept b → finish b = snapshot b.
Proof.
  intros Hk. rewrite <- snapshot_finish_current by done. unfold finish, snapshot.
  by rewrite finish_current_None, app_nil_r.
Qed.

(** *** Where an event goes *)
Definition upsert_where (id : str) (i : ThreadItem.t) (t : Turn.t) : Turn.t :=
  if Turn.id t ==s id then upsert_into i t else t.

Lemma upsert_where_none id i l : id ∉ turn_ids l → map (upsert_where id i) l = l.
Proof.
  induction l as [|t l IH]; cbn; [done|]. intros N. unfold upsert_where at 1.
  rewrite bool_decide_false by set_solver. f_equal. apply IH. set_solver.
Qed.

Lemma update_first_where id i l :
  NoDup (turn_ids l) →
  match update_first (λ u, Turn.id u ==s id) (upsert_into i) l with
  | Some (l', _) => l' = map (upsert_where id i) l
  | None => id ∉ turn_ids l
  end.
Proof.
  induction l as [|t l IH]; intros Hn; cbn; [set_solver|].
  apply list.NoDup_cons in Hn as [Ht Hn]. unfold upsert_where at 1. case_bool_decide as E.
  - by rewrite upsert_where_none by (by rewrite <- E).
  - specialize (IH Hn). destruct (update_first _ _ l) as [[l' u]|]; [by subst|].
    intros [?|?]%elem_of_cons; [congruence|done].
Qed.

Lemma upsert_turn_snapshot b id i :
  unique_ids (snapshot b) →
  snapshot (upsert_item_in_turn_id b id i) = map (upsert_where id i) (snapshot b).
Proof.
  intros [Hn _]. unfold upsert_item_in_turn_id, upsert_in_finished.
  unfold snapshot, turn_ids in *. rewrite map_app in *. apply NoDup_app in Hn as (Hts & Hd & _).
  pose proof (update_first_where id i (turns b) Hts) as Hup.
  assert (∀ b' (c : bool) k, turns (if c then record_changed_item b' k i else b') = turns b'
    ∧ current_turn (if c then record_changed_item b' k i else b') = current_turn b') as Hrec.
  { intros b' c k. destruct c; [apply record_item_fields|done]. }
  destruct (current_turn b) as [t|] eqn:Ec; [case_bool_decide as E|].
  - destruct (Hrec (set_current b (Some (PendingTurn.set_items t
      (upsert_turn_item (PendingTurn.items t) i)))) (is_tracking_changes b) (PendingTurn.id t))
      as [-> ->]. cbn. rewrite upsert_where_none.
    + f_equal. f_equal. unfold upsert_where. by rewrite bool_decide_true.
    + intros Hin. apply (Hd _ Hin). cbn. rewrite E. set_solver.
  - assert (map (upsert_where id i) [turn_from t] = [turn_from t]) as ->.
    { cbn. unfold upsert_where. by rewrite bool_decide_false. }
    destruct (update_first _ _ (turns b)) as [[ts u]|].
    + destruct (Hrec (set_turns b ts) (is_tracking_changes b) (Turn.id u)) as [-> ->].
      cbn. by rewrite Ec, Hup.
    + by rewrite Ec, upsert_where_none.
  - destruct (update_first _ _ (turns b)) as [[ts u]|].
    + destruct (Hrec (set_turns b ts) (is_tracking_changes b) (Turn.id u)) as [-> ->].
      cbn. by rewrite Ec, Hup.
    + by rewrite Ec, upsert_where_none.
Qed.
End facts.
