(* ===== verification/ThreadHistoryFeed.v ===== *)
(** * The change feed of a thread

    The change set that [ThreadHistory] reports for a batch of records takes a client
    from the turns before the batch to the turns after it. *)

From Stdlib Require Import String ZArith NArith Lia.
From stdpp Require Import base option list numbers gmap.
From S2P Require Import Prelude StrBytes Models ThreadItems ItemBuilders ThreadHistory.
From S2P Require Import ThreadHistoryChanges ThreadHistoryFacts.

Section feed.
Context `{WireTypes, HistoryEnv}.
Implicit Types (b : ThreadHistoryBuilder) (v : list Turn.t).

(** ** The changes of one record *)

(** The change set applied to [v] gives the turns of the builder; in the first phase of
    a handler no item has been recorded yet. *)
Definition tracks v b : Prop :=
  ∃ cs, active_change_set b = Some cs ∧ closed v cs ∧ snapshot b = apply_changes v cs.

Definition tracks_turns v b : Prop :=
  ∃ cs, active_change_set b = Some cs ∧ ChangeSet.changed_items cs = []
        ∧ snapshot b = apply_turns v cs.

Lemma tracks_turns_tracks v b : tracks_turns v b → tracks v b.
Proof.
  intros (cs & E & Ei & Es). exists cs. unfold closed, apply_changes. rewrite Ei. done.
Qed.

Lemma tracks_is_tracking v b : tracks v b → is_tracking_changes b = true.
Proof. intros (cs & E & _). unfold is_tracking_changes. by rewrite E. Qed.

Lemma snapshot_record_item b id i : snapshot (record_changed_item b id i) = snapshot b.
Proof. unfold snapshot. by destruct (record_item_fields b id i) as [-> ->]. Qed.

Lemma snapshot_record_turn b c : snapshot (record_changed_turn b c) = snapshot b.
Proof. unfold snapshot. by destruct (record_turn_fields b c) as [-> ->]. Qed.

Lemma tracks_item v b b' id i :
  tracks v b → active_change_set b' = active_change_set b → id ∈ turn_ids (snapshot b) →
  snapshot b' = apply_item (snapshot b) (ItemChange.mk _ id i None None) →
  tracks v (record_changed_item b' id i).
Proof.
  intros (cs & E & Hc & Es) E' Hin Hs. unfold record_changed_item. rewrite E', E.
  eexists. split_and!; [done| |].
  - unfold closed. cbn. change (apply_turns v _) with (apply_turns v cs).
    rewrite list.Forall_app, list.Forall_cons. split_and!; [done| |done].
    rewrite Es in Hin. unfold apply_changes in Hin. by rewrite apply_items_ids in Hin.
  - change (snapshot (set_changes b' _)) with (snapshot b'). rewrite Hs, Es.
    unfold apply_changes. cbn. by rewrite foldl_app.
Qed.

Lemma tracks_turn v b b' c :
  tracks_turns v b → active_change_set b' = active_change_set b →
  snapshot b' = apply_turn (snapshot b) c → tracks_turns v (record_changed_turn b' c).
Proof.
  intros (cs & E & Hc & Es) E' Hs. unfold record_changed_turn. rewrite E', E.
  eexists. split_and!; [done|done|].
  change (snapshot (set_changes b' _)) with (snapshot b'). rewrite Hs, Es.
  unfold apply_turns. cbn. by rewrite foldl_app.
Qed.

(** *** How a change acts on a list of turns *)
Lemma apply_item_at ts t i :
  ItemChange.turn_id i ∉ turn_ids ts → Turn.id t = ItemChange.turn_id i →
  apply_item (ts ++ [t]) i = ts ++ [upsert_into (ItemChange.item i) t].
Proof.
  intros N E. induction ts as [|u ts IH]; cbn; case_bool_decide; try done; [set_solver|].
  rewrite IH; [done|set_solver].
Qed.

Lemma apply_turn_at ts t c :
  TurnChange.turn_id c ∉ turn_ids ts → Turn.id t = TurnChange.turn_id c →
  apply_turn (ts ++ [t]) c = ts ++ [with_meta c (Turn.items t) (Turn.items_view t)].
Proof.
  intros N E. induction ts as [|u ts IH]; cbn; case_bool_decide; try done; [set_solver|].
  rewrite IH; [done|set_solver].
Qed.

Lemma apply_turn_new v c :
  TurnChange.turn_id c ∉ turn_ids v → apply_turn v c = v ++ [with_meta c [] TurnItemsView.Full].
Proof.
  intros N. induction v as [|u v IH]; cbn; [done|]. case_bool_decide; [set_solver|].
  rewrite IH; [done|set_solver].
Qed.

Lemma update_first_spec {A} (p : A → bool) f l l' y :
  update_first p f l = Some (l', y) →
  ∃ l1 x l2, l = l1 ++ x :: l2 ∧ Forall (λ z, p z = false) l1 ∧ p x = true
             ∧ y = f x ∧ l' = l1 ++ y :: l2.
Proof.
  revert l'. induction l as [|x l IH]; intros l' E; cbn in E; [done|].
  destruct (p x) eqn:Hp.
  - simplify_eq. exists [], x, l. done.
  - destruct (update_first p f l) as [[l'' z]|]; [|done]. simplify_eq.
    destruct (IH _ eq_refl) as (l1 & x' & l2 & -> & Hl1 & Hx & -> & ->).
    exists (x :: l1), x', l2. split_and!; try done. by constructor.
Qed.

Lemma apply_item_first l1 t l2 rest i :
  Forall (λ u, bool_decide (Turn.id u = ItemChange.turn_id i) = false) l1 →
  Turn.id t = ItemChange.turn_id i →
  apply_item ((l1 ++ t :: l2) ++ rest) i = (l1 ++ upsert_into (ItemChange.item i) t :: l2) ++ rest.
Proof.
  intros Hl E. induction Hl as [|u l1 Hu Hl IH]; cbn [app apply_item].
  - by rewrite bool_decide_true.
  - rewrite Hu. f_equal. apply IH.
Qed.

Lemma apply_turn_first l1 t l2 rest c :
  Forall (λ u, bool_decide (Turn.id u = TurnChange.turn_id c) = false) l1 →
  Turn.id t = TurnChange.turn_id c →
  apply_turn ((l1 ++ t :: l2) ++ rest) c
  = (l1 ++ with_meta c (Turn.items t) (Turn.items_view t) :: l2) ++ rest.
Proof.
  intros Hl E. induction Hl as [|u l1 Hu Hl IH]; cbn [app apply_turn].
  - by rewrite bool_decide_true.
  - rewrite Hu. f_equal. apply IH.
Qed.

(** *** The handlers *)
Lemma current_fresh b t :
  unique_ids (snapshot b) → current_turn b = Some t → PendingTurn.id t ∉ turn_ids (turns b).
Proof.
  intros [Hn _] E. unfold snapshot, turn_ids in Hn. rewrite E, map_app in Hn.
  apply NoDup_app in Hn as (_ & Hn & _). intros Hin. apply (Hn _ Hin). cbn. set_solver.
Qed.

Lemma tracks_open v b t :
  tracks_turns v b → current_turn b = None → PendingTurn.items t = [] →
  PendingTurn.id t ∉ turn_ids (turns b) →
  tracks_turns v (set_current (record_changed_pending_turn b t) (Some t)).
Proof.
  intros Ht E Ei Hf. unfold record_changed_pending_turn.
  rewrite (tracks_is_tracking v) by (by apply tracks_turns_tracks).
  assert (set_current (record_changed_turn b (TurnChange.from_pending_turn t)) (Some t)
    = record_changed_turn (set_current b (Some t)) (TurnChange.from_pending_turn t)) as ->.
  { unfold record_changed_turn. cbn. by destruct (active_change_set b). }
  eapply tracks_turn; [done|done|]. unfold snapshot. rewrite E, app_nil_r. cbn.
  rewrite apply_turn_new by done. unfold turn_from, with_meta. by rewrite Ei.
Qed.

Lemma ensure_turn_spec uuid b t b' :
  ensure_turn uuid b = (t, b') →
  turns b' = turns b ∧ current_turn b' = Some t
  ∧ ∀ v, tracks_turns v b → PendingTurn.id t ∉ turn_ids (turns b) → tracks_turns v b'.
Proof.
  unfold ensure_turn. destruct (current_turn b) as [u|] eqn:E; intros [= <- <-]; [done|].
  split_and!; [|done|].
  - unfold record_changed_pending_turn. destruct (is_tracking_changes b); [|done]. cbn.
    by rewrite (proj1 (record_turn_fields _ _)).
  - intros v Hv Hf. by apply tracks_open.
Qed.

(** An item put into the current turn and recorded. *)
Lemma tracks_current_item v b t i :
  tracks v b → current_turn b = Some t → PendingTurn.id t ∉ turn_ids (turns b) →
  tracks v (record_changed_item
    (set_current b (Some (PendingTurn.set_items t (upsert_turn_item (PendingTurn.items t) i))))
    (PendingTurn.id t) i).
Proof.
  intros Hv E Hf. eapply tracks_item; [done|done| |]; unfold snapshot; rewrite E.
  - unfold turn_ids. rewrite map_app. cbn. set_solver.
  - cbn. rewrite apply_item_at by done. done.
Qed.

Lemma set_items_ids b t l :
  current_turn b = Some t →
  turn_ids (snapshot (set_current b (Some (PendingTurn.set_items t l)))) = turn_ids (snapshot b).
Proof. intros E. unfold snapshot, turn_ids. rewrite E, !map_app. done. Qed.

Lemma tracks_upsert_current v uuid b i :
  tracks_turns v b → unique_ids (snapshot (upsert_item_in_current_turn uuid b i)) →
  tracks v (upsert_item_in_current_turn uuid b i).
Proof.
  intros Hv Hu. unfold upsert_item_in_current_turn in *.
  rewrite (tracks_is_tracking v) in * by (by apply tracks_turns_tracks).
  destruct (ensure_turn uuid b) as [t b'] eqn:E. destruct (ensure_turn_spec _ _ _ _ E) as (Et & Ec & Hv').
  rewrite snapshot_record_item in Hu. apply current_fresh with (t := PendingTurn.set_items t
    (upsert_turn_item (PendingTurn.items t) i)) in Hu as Hf; [|done]. cbn in Hf.
  apply tracks_current_item; [|done|done]. apply tracks_turns_tracks, Hv'; [done|]. by rewrite <- Et.
Qed.

Lemma tracks_push v uuid b i :
  tracks_turns v b → unique_ids (snapshot (push_item_in_current_turn uuid b i)) →
  tracks v (push_item_in_current_turn uuid b i).
Proof.
  intros Hv Hu. unfold push_item_in_current_turn in *.
  rewrite (tracks_is_tracking v) in * by (by apply tracks_turns_tracks).
  destruct (ensure_turn uuid b) as [t b'] eqn:E. destruct (ensure_turn_spec _ _ _ _ E) as (Et & Ec & Hv').
  rewrite snapshot_record_item in Hu. apply current_fresh with (t := PendingTurn.set_items t
    (PendingTurn.items t ++ [i])) in Hu as Hf; [|done]. cbn in Hf.
  rewrite <- (upsert_fresh (PendingTurn.items t) i).
  - apply tracks_current_item; [|done|done]. apply tracks_turns_tracks, Hv'; [done|]. by rewrite <- Et.
  - destruct Hu as [_ Hu]. unfold snapshot in Hu. apply list.Forall_app in Hu as [_ Hu]. cbn in Hu.
    apply list.Forall_cons in Hu as [Hu _]. cbn in Hu. unfold item_ids in *. rewrite map_app in Hu.
    apply NoDup_app in Hu as (_ & Hn & _). intros Hin. apply (Hn _ Hin). cbn. set_solver.
Qed.

Lemma tracks_upsert_turn v b id i :
  tracks v b → unique_ids (snapshot b) → tracks v (upsert_item_in_turn_id b id i).
Proof.
  intros Hv Hu. unfold upsert_item_in_turn_id. rewrite (tracks_is_tracking v b Hv).
  assert (is_current b id = false → tracks v (upsert_in_finished b id i)) as Hf.
  { intros Hc. unfold upsert_in_finished. rewrite (tracks_is_tracking v b Hv).
    destruct (update_first _ _ (turns b)) as [[ts t]|] eqn:E; [|done].
    apply update_first_spec in E as (l1 & x & l2 & Ets & Hl1 & Hx & -> & ->).
    apply bool_decide_eq_true in Hx. cbn [Turn.id upsert_into].
    eapply tracks_item; [done|done| |]; unfold snapshot; cbn; rewrite Ets.
    - unfold turn_ids. rewrite !map_app. cbn. set_solver.
    - rewrite Hx. by rewrite apply_item_first. }
  unfold is_current in Hf. destruct (current_turn b) as [t|] eqn:E; [|by apply Hf].
  case_bool_decide; [|by apply Hf].
  apply tracks_current_item; [done|done|]. by eapply current_fresh.
Qed.

Lemma tracks_finish_current v b :
  kept b → tracks_turns v b → tracks_turns v (finish_current_turn b).
Proof.
  intros Hk (cs & E & Ei & Es). exists cs. rewrite snapshot_finish_current by done.
  split_and!; [|done|done]. unfold finish_current_turn.
  destruct (current_turn b); [|done]. destruct (PendingTurn.items t); [case_match|]; done.
Qed.

(** Replacing the last item is an upsert when the ids differ. *)
Lemma replace_last_upsert f l l' x :
  replace_last_reasoning f l = Some (l', x) → NoDup (item_ids l') → l' = upsert_turn_item l x.
Proof.
  unfold replace_last_reasoning. intros E Hn.
  destruct (last l) as [y|] eqn:El; [|done].
  apply last_Some in El as [l0 ->]. rewrite removelast_last in E.
  destruct y; try done. destruct (f summary content) as [s' c'] eqn:Ef. simplify_eq.
  unfold item_ids in Hn. rewrite map_app in Hn. apply NoDup_app in Hn as (_ & Hn & _).
  cbn in Hn. revert Hn. clear Ef. induction l0 as [|z l0 IH]; intros Hn; cbn.
  - by rewrite bool_decide_true.
  - rewrite bool_decide_false by (intros Hz; apply (Hn id); cbn; rewrite ?Hz; set_solver).
    f_equal. apply IH. intros k Hk. apply Hn. cbn. by right.
Qed.

Lemma tracks_reasoning v uuid b f :
  tracks_turns v b → unique_ids (snapshot (append_reasoning uuid b f)) →
  tracks v (append_reasoning uuid b f).
Proof.
  intros Hv Hu. unfold append_reasoning in *.
  rewrite (tracks_is_tracking v) in * by (by apply tracks_turns_tracks).
  destruct (ensure_turn uuid b) as [t b'] eqn:E.
  destruct (ensure_turn_spec _ _ _ _ E) as (Et & Ec & Hv').
  destruct (replace_last_reasoning f (PendingTurn.items t)) as [[l x]|] eqn:Er.
  - rewrite snapshot_record_item in Hu. apply current_fresh with (t := PendingTurn.set_items t l)
      in Hu as Hf; [|done]. cbn in Hf. destruct Hu as [_ Hu]. unfold snapshot in Hu.
    apply list.Forall_app in Hu as [_ Hu]. cbn in Hu. apply list.Forall_cons in Hu as [Hu _].
    rewrite (replace_last_upsert _ _ _ _ Er Hu).
    apply tracks_current_item; [|done|done]. apply tracks_turns_tracks, Hv'; [done|]. by rewrite <- Et.
  - cbn [next_item_id] in *. destruct (f [] []) as [sm ct]. apply tracks_push; [|done].
    unfold push_item_in_current_turn, ensure_turn in Hu. cbn in Hu. rewrite Ec in Hu.
    assert (tracks_turns v b') as (cs & ? & ? & ?); [|by exists cs].
    apply Hv'; [done|]. rewrite <- Et.
    destruct (is_tracking_changes _); rewrite ?snapshot_record_item in Hu;
      (eapply current_fresh in Hu; [|done]); exact Hu.
Qed.

(** A turn id that is not known names no turn. *)
Lemma unknown_turn b id : knows_turn b id = false → id ∉ turn_ids (snapshot b).
Proof.
  unfold knows_turn. intros [Ec Ef]%orb_false_iff Hid.
  unfold snapshot, turn_ids in Hid. rewrite map_app, elem_of_app in Hid. destruct Hid as [Hid|Hid].
  - apply list_elem_of_fmap in Hid as (u & Eu & Hu1). apply list_elem_of_In in Hu1.
    apply not_true_iff_false in Ef. apply Ef, existsb_exists. exists u.
    split; [done|]. by apply bool_decide_eq_true.
  - destruct (current_turn b) as [u|]; cbn in Hid; [|set_solver].
    apply bool_decide_eq_false in Ec. set_solver.
Qed.

(** Opening an empty turn with a fresh id keeps the ids unique. *)
Lemma unique_open b t :
  current_turn b = None → unique_ids (snapshot b) → PendingTurn.id t ∉ turn_ids (snapshot b) →
  PendingTurn.items t = [] →
  unique_ids (snapshot (set_current (record_changed_pending_turn b t) (Some t))).
Proof.
  intros Ec [Hn Hi] Hf El.
  assert (turns (record_changed_pending_turn b t) = turns b) as Et.
  { unfold record_changed_pending_turn. destruct (is_tracking_changes _); [|done].
    apply record_turn_fields. }
  unfold snapshot in *. rewrite Ec, app_nil_r in *.
  unfold unique_ids, turn_ids. cbn [turns set_current current_turn]. rewrite Et, map_app.
  split; [|apply list.Forall_app; split; [done|]].
  - apply NoDup_app. split_and!; [done| |apply NoDup_singleton]. cbn. intros k Hin Hk1.
    apply list_elem_of_singleton in Hk1 as ->. done.
  - apply list.Forall_cons. split; [|done]. cbn. rewrite El. apply NoDup_nil_2.
Qed.

Lemma tracks_review v uuid b id i :
  kept b → tracks_turns v b → unique_ids (snapshot b) →
  unique_ids (snapshot (upsert_review_mode_item uuid b id i)) →
  tracks v (upsert_review_mode_item uuid b id i).
Proof.
  intros Hk Hv Hu Hu'. destruct id as [id|]; cbn [upsert_review_mode_item] in *;
    [|by apply tracks_upsert_current].
  destruct (knows_turn b id) eqn:Ek; [by apply tracks_upsert_turn; [apply tracks_turns_tracks|]|].
  apply unknown_turn in Ek. rewrite <- snapshot_finish_current in Hu, Ek by done.
  pose proof (finish_current_None b) as Ec.
  apply tracks_upsert_turn; [apply tracks_turns_tracks, tracks_open|by apply unique_open].
  - by apply tracks_finish_current.
  - done.
  - done.
  - unfold snapshot in Ek. by rewrite Ec, app_nil_r in Ek.
Qed.

(** A change of the status, the error or the times of the open turn. *)
Lemma tracks_current_turn v b t t' :
  tracks_turns v b → unique_ids (snapshot b) → current_turn b = Some t →
  PendingTurn.id t' = PendingTurn.id t → PendingTurn.items t' = PendingTurn.items t →
  tracks_turns v (record_changed_turn (set_current b (Some t')) (TurnChange.from_pending_turn t')).
Proof.
  intros Hv Hu E Ei El. eapply tracks_turn; [done|done|].
  unfold snapshot. rewrite E. cbn. rewrite apply_turn_at; [|cbn; rewrite Ei; by eapply current_fresh|done].
  unfold with_meta, turn_from. cbn. by rewrite El.
Qed.

(** The same for a finished turn. *)
Lemma tracks_finished_turn v b id f ts t :
  tracks_turns v b →
  (∀ u, Turn.id (f u) = Turn.id u ∧ Turn.items (f u) = Turn.items u
        ∧ Turn.items_view (f u) = Turn.items_view u) →
  update_first (λ u, Turn.id u ==s id) f (turns b) = Some (ts, t) →
  tracks_turns v (record_changed_turn (set_turns b ts) (TurnChange.from_turn t)).
Proof.
  intros Hv Hfu E. apply update_first_spec in E as (l1 & x & l2 & Ets & Hl1 & Hx & -> & ->).
  apply bool_decide_eq_true in Hx. destruct (Hfu x) as (Ei & El & Ev).
  eapply tracks_turn; [done|done|]. unfold snapshot. cbn [turns set_turns current_turn]. rewrite Ets.
  rewrite apply_turn_first; [| |cbn; by rewrite Ei].
  - f_equal. f_equal. unfold with_meta. cbn. rewrite <- El, <- Ev. by destruct (f x).
  - cbn. by rewrite Ei, Hx.
Qed.

Lemma tracks_abort_current v b p :
  tracks_turns v b → unique_ids (snapshot b) → tracks_turns v (abort_current b p).
Proof.
  intros Hv Hu. unfold abort_current. destruct (current_turn b) as [t|] eqn:E; [|done].
  by eapply tracks_current_turn.
Qed.

Lemma apply_completion_same p t :
  PendingTurn.id (apply_completion p t) = PendingTurn.id t
  ∧ PendingTurn.items (apply_completion p t) = PendingTurn.items t
  ∧ PendingTurn.opened_explicitly (apply_completion p t) = PendingTurn.opened_explicitly t
  ∧ PendingTurn.saw_compaction (apply_completion p t) = PendingTurn.saw_compaction t.
Proof. unfold apply_completion. by destruct (completion_outcome _ _ _). Qed.

Lemma tracks_complete_current v b p :
  kept b → tracks_turns v b → unique_ids (snapshot b) → tracks_turns v (complete_current b p).
Proof.
  intros Hk Hv Hu. unfold complete_current. destruct (current_turn b) as [t|] eqn:E; [|done].
  destruct (apply_completion_same p t) as (E1 & E2 & E3 & E4).
  apply tracks_finish_current; [|by eapply tracks_current_turn].
  intros t'. rewrite (proj2 (record_turn_fields _ _)). cbn. intros [= <-].
  rewrite E2, E3, E4. by apply Hk.
Qed.

Lemma tracks_aborted v b p :
  tracks_turns v b → unique_ids (snapshot b) → tracks_turns v (handle_turn_aborted b p).
Proof.
  intros Hv Hu. unfold handle_turn_aborted.
  destruct (TurnAbortedEvent.turn_id p) as [id|]; [|by apply tracks_abort_current].
  destruct (is_current b id); [by apply tracks_abort_current|].
  destruct (update_first _ _ (turns b)) as [[ts t]|] eqn:E;
    [|by apply tracks_abort_current].
  by eapply (tracks_finished_turn v b id (abort_finished p)).
Qed.

Lemma tracks_complete v b p :
  kept b → tracks_turns v b → unique_ids (snapshot b) → tracks_turns v (handle_turn_complete b p).
Proof.
  intros Hk Hv Hu. unfold handle_turn_complete.
  destruct (is_current b _); [by apply tracks_complete_current|].
  destruct (update_first _ _ (turns b)) as [[ts t]|] eqn:E; [|by apply tracks_complete_current].
  eapply tracks_finished_turn; [done| |done]. intros u. unfold complete_finished.
  by destruct (completion_outcome _ _ _).
Qed.

Lemma tracks_error v b p :
  tracks_turns v b → unique_ids (snapshot b) → tracks_turns v (handle_error b p).
Proof.
  intros Hv Hu. unfold handle_error. destruct (negb _); [done|].
  rewrite (tracks_is_tracking v) by (by apply tracks_turns_tracks).
  destruct (current_turn b) as [t|] eqn:E; [|done]. by eapply tracks_current_turn.
Qed.

Lemma tracks_started v uuid b p :
  kept b → tracks_turns v b → unique_ids (snapshot (handle_turn_started uuid b p)) →
  tracks_turns v (handle_turn_started uuid b p).
Proof.
  intros Hk Hv Hu. unfold handle_turn_started in *.
  apply tracks_open; [by apply tracks_finish_current|apply finish_current_None|done|].
  eapply current_fresh in Hu; [|done]. cbn in Hu. unfold record_changed_pending_turn in Hu.
  destruct (is_tracking_changes _); cbn in Hu; [|done].
  by rewrite (proj1 (record_turn_fields _ _)) in Hu.
Qed.

Lemma tracks_compacted v uuid b :
  tracks_turns v b → unique_ids (snapshot (handle_compacted uuid b)) →
  tracks_turns v (handle_compacted uuid b).
Proof.
  intros Hv Hu. unfold handle_compacted in *.
  destruct (ensure_turn uuid b) as [t b'] eqn:E.
  destruct (ensure_turn_spec _ _ _ _ E) as (Et & Ec & Hv').
  eapply current_fresh in Hu; [|done]. cbn in Hu. rewrite Et in Hu.
  destruct (Hv' v Hv Hu) as (cs & E1 & E2 & E3). exists cs. split_and!; [done|done|].
  rewrite <- E3. unfold snapshot. by rewrite Ec.
Qed.

(** Removing the ids of the last turns leaves the others. *)
Lemma apply_removed_last v k :
  NoDup (turn_ids v) → apply_removed v (map Turn.id (drop k v)) = take k v.
Proof.
  intros Hn. rewrite <- (take_drop k v) at 1. unfold apply_removed. rewrite list.filter_app.
  rewrite <- (take_drop k v) in Hn. unfold turn_ids in Hn. rewrite map_app in Hn.
  apply NoDup_app in Hn as (_ & Hn & _).
  rewrite filter_keeps_all, filter_none, app_nil_r; [done| |]; apply list.Forall_forall; intros t Ht.
  - intros N. apply N, list_elem_of_fmap. eauto.
  - apply Hn, list_elem_of_fmap. eauto.
Qed.

Lemma tracks_rollback v b p :
  kept b → active_change_set b = Some ChangeSet.empty → snapshot b = v → unique_ids v →
  tracks_turns v (handle_thread_rollback b p).
Proof.
  intros Hk Ea Es [Hn _]. unfold handle_thread_rollback.
  assert (active_change_set (finish_current_turn b) = Some ChangeSet.empty) as Ea'.
  { unfold finish_current_turn. destruct (current_turn b); [|done].
    destruct (PendingTurn.items t); [case_match|]; done. }
  assert (turns (finish_current_turn b) = v) as Ev.
  { rewrite <- Es, <- snapshot_finish_current by done. unfold snapshot.
    by rewrite finish_current_None, app_nil_r. }
  pose proof (finish_current_None b) as Ec.
  revert Ea' Ev Ec. generalize (finish_current_turn b). intros b' Ea' <- Ec.
  set (n := Z.to_nat (num_turns p)).
  unfold record_removed_turn_ids. rewrite Ea'. eexists. split_and!; [done|done|].
  unfold snapshot, apply_turns. cbn. rewrite Ec, app_nil_r. symmetry.
  destruct (Nat.leb_spec (length (turns b')) n) as [Hle|Hlt].
  - apply (apply_removed_last _ 0 Hn).
  - destruct (Nat.eqb_spec n 0) as [->|Hn0]; [|by apply apply_removed_last].
    rewrite Nat.sub_0_r, firstn_all. apply filter_keeps_all, list.Forall_forall. set_solver.
Qed.

(** ** A record, then a batch *)
Ltac tracks_apply :=
  first [by apply tracks_upsert_current | by apply tracks_upsert_turn; [apply tracks_turns_tracks|]
        | by apply tracks_reasoning | by apply tracks_push].

Lemma tracks_by_turn_id v uuid b id i :
  tracks_turns v b → unique_ids (snapshot b) →
  unique_ids (snapshot (upsert_by_turn_id uuid b id i)) → tracks v (upsert_by_turn_id uuid b id i).
Proof. intros Hv Hu Hu'. destruct id; cbn [upsert_by_turn_id] in *; tracks_apply. Qed.

Lemma tracks_materialized v uuid b id i :
  kept b → tracks_turns v b → unique_ids (snapshot b) →
  unique_ids (snapshot (handle_materialized_item_lifecycle uuid b id i)) →
  tracks v (handle_materialized_item_lifecycle uuid b id i).
Proof.
  intros Hk Hv Hu Hu'. unfold handle_materialized_item_lifecycle in *.
  destruct (should_upsert i); [|by apply tracks_turns_tracks].
  destruct (is_review_mode_item i); [by apply tracks_review|tracks_apply].
Qed.

Lemma tracks_user v uuid b p :
  kept b → tracks_turns v b → unique_ids (snapshot (handle_user_message uuid b p)) →
  tracks v (handle_user_message uuid b p).
Proof.
  intros Hk Hv Hu. unfold handle_user_message in *. cbn [next_item_id] in *.
  apply tracks_push; [|done].
  assert (tracks_turns v (close_implicit_turn b)) as (cs & ? & ? & ?); [|by exists cs].
  unfold close_implicit_turn. destruct (current_turn b); [|done].
  case_match; [by apply tracks_finish_current|done].
Qed.

Lemma tracks_handle_event v uuid b e :
  kept b → active_change_set b = Some ChangeSet.empty → snapshot b = v → unique_ids v →
  unique_ids (snapshot (handle_event uuid b e)) → tracks v (handle_event uuid b e).
Proof.
  intros Hk Ea Es Hu Hu'.
  assert (tracks_turns v b) as Hv.
  { exists ChangeSet.empty. split_and!; [done|done|]. unfold apply_turns. cbn. rewrite Es.
    symmetry. apply filter_keeps_all, list.Forall_forall. set_solver. }
  assert (unique_ids (snapshot b)) as Hub by (by rewrite Es).
  destruct e; cbn [handle_event] in *; try (by apply tracks_turns_tracks); try tracks_apply;
    try (by apply tracks_by_turn_id); try (by apply tracks_materialized);
    try (by apply tracks_turns_tracks, tracks_aborted);
    try (by apply tracks_turns_tracks, tracks_complete);
    try (by apply tracks_turns_tracks, tracks_started);
    try (by apply tracks_turns_tracks, tracks_error);
    try (by apply tracks_turns_tracks, tracks_rollback); try (by apply tracks_user).
  - unfold handle_agent_message in *. destruct (AgentMessageEvent.message payload);
      [by apply tracks_turns_tracks|tracks_apply].
  - unfold handle_agent_reasoning in *. destruct (reasoning_text payload);
      [by apply tracks_turns_tracks|tracks_apply].
  - unfold handle_agent_reasoning_raw_content in *. destruct (raw_reasoning_text payload);
      [by apply tracks_turns_tracks|tracks_apply].
  - unfold handle_collab_agent_spawn_end in *.
    destruct (CollabAgentSpawnEndEvent.new_thread_id payload); tracks_apply.
  - unfold handle_entered_review_mode in *.
    destruct (EnteredReviewModeEvent.item_id payload); by apply tracks_review.
  - unfold handle_exited_review_mode in *.
    destruct (ExitedReviewModeEvent.item_id payload); by apply tracks_review.
Qed.

Lemma tracks_handle_rollout_item v b i :
  kept b → active_change_set b = Some ChangeSet.empty → snapshot b = v → unique_ids v →
  unique_ids (snapshot (handle_rollout_item b i)) → tracks v (handle_rollout_item b i).
Proof.
  intros Hk Ea Es Hu Hu'.
  assert (tracks_turns v b) as Hv.
  { exists ChangeSet.empty. split_and!; [done|done|]. unfold apply_turns. cbn. rewrite Es.
    symmetry. apply filter_keeps_all, list.Forall_forall. set_solver. }
  destruct i; cbn [handle_rollout_item] in *; try (by apply tracks_turns_tracks).
  - by apply tracks_turns_tracks, tracks_compacted.
  - by apply tracks_handle_event.
Qed.

Lemma rollout_item_with_changes b i :
  kept b → active_change_set b = None →
  unique_ids (snapshot b) → unique_ids (snapshot (handle_rollout_item b i)) →
  ∃ cs, handle_rollout_item_with_changes b i = (handle_rollout_item b i, cs)
        ∧ closed (snapshot b) cs
        ∧ apply_changes (snapshot b) cs = snapshot (handle_rollout_item b i).
Proof.
  intros Hk Ea Hu Hu'. unfold handle_rollout_item_with_changes, collect_changes.
  set (b0 := set_changes b (Some ChangeSet.empty)).
  assert (erase (handle_rollout_item b0 i) = handle_rollout_item b i) as Ee.
  { rewrite erase_handle_rollout_item. f_equal. destruct b. cbn in *. by subst. }
  assert (snapshot (handle_rollout_item b0 i) = snapshot (handle_rollout_item b i)) as Es.
  { rewrite <- Ee. done. }
  destruct (tracks_handle_rollout_item (snapshot b) b0 i) as (cs & Ec & Hc & Ev); try done.
  { by rewrite Es. }
  exists cs. unfold erase in Ee. rewrite Ee, Ec. split_and!; [done|done|]. by rewrite <- Es.
Qed.

Lemma untracked b i : active_change_set b = None → active_change_set (handle_rollout_item b i) = None.
Proof.
  intros E. assert (erase b = b) as Eb by (destruct b; cbn in *; by subst).
  rewrite <- Eb at 1. rewrite <- erase_handle_rollout_item. done.
Qed.

(** The ids are unique before the batch and after each of its records. *)
Fixpoint unique_along b (items : list RolloutItem.t) : Prop :=
  unique_ids (snapshot b)
  ∧ match items with
    | [] => True
    | i :: items' => unique_along (handle_rollout_item b i) items'
    end.

#[global] Instance unique_along_dec b items : Decision (unique_along b items).
Proof. revert b. induction items; intros b; cbn; apply _. Defined.

Lemma accumulate_spec v acc b items :
  kept b → active_change_set b = None → unique_along b items →
  acc_wf acc → closed v (Accumulator.finish acc) →
  apply_changes v (Accumulator.finish acc) = snapshot b →
  ∃ acc', accumulate_changes acc b items = (foldl handle_rollout_item b items, acc')
    ∧ apply_changes v (Accumulator.finish acc') = snapshot (foldl handle_rollout_item b items).
Proof.
  revert acc b. induction items as [|i items IH]; intros acc b Hk Ea Hu Hwf Hc Es.
  { exists acc. done. }
  cbn [unique_along] in Hu. destruct Hu as [Hu0 Hu].
  assert (unique_ids (snapshot (handle_rollout_item b i))) as Hu1 by (by destruct items; destruct Hu).
  destruct (rollout_item_with_changes b i) as (cs & E & Hcs & Ev); [done..|].
  cbn [accumulate_changes foldl]. rewrite E.
  destruct (push_apply acc cs v Hwf Hc) as (Hwf' & Hc' & E'); [by rewrite Es|].
  apply IH; [by apply kept_handle_rollout_item|by apply untracked|done|done|done|].
  by rewrite E', Es.
Qed.

Lemma apply_changes_empty v : apply_changes v (Accumulator.finish Accumulator.empty) = v.
Proof. apply filter_keeps_all, list.Forall_forall. set_solver. Qed.

Lemma new_kept : kept new_builder.
Proof. by intros t. Qed.

(** ** Properties *)

(** C13: A client that applies the change set of a batch of records to the turns it
    knows has exactly the turns of the builder after the batch, in order, with their
    items in order, statuses, errors and times; and the builder ends in the state that
    handling the records without tracking gives.  The ids of turns, and of the items of
    a turn, must be unique before the batch and after each record. *)
Theorem change_feed_faithful b items :
  kept b → active_change_set b = None → unique_along b items →
  let '(b', changes) := handle_rollout_items_with_changes b items in
  b' = foldl handle_rollout_item b items ∧ snapshot b' = apply_changes (snapshot b) changes.
Proof.
  intros Hk Ea Hu. unfold handle_rollout_items_with_changes.
  destruct (accumulate_spec (snapshot b) Accumulator.empty b items) as (acc & -> & E);
    [done..|apply empty_wf|apply list.Forall_nil; done|apply apply_changes_empty|done].
Qed.

(** Replaying a rollout loses no turn: what [finish] returns is the finished turns
    followed by the one that is open, whatever the records are, and
    [active_turn_position] is the index the active turn has there. *)
Theorem replay_keeps_every_turn items :
  let b := foldl handle_rollout_item new_builder items in
  build_turns_from_rollout_items items = snapshot b
  ∧ ∀ n, active_turn_position b = Some n → finish b !! n = active_turn_snapshot b.
Proof.
  intros b. pose proof (kept_run new_builder items new_kept) as Hk. fold b in Hk.
  split; [by apply finish_snapshot|]. intros n. rewrite finish_snapshot by done.
  unfold active_turn_position, active_turn_snapshot, snapshot.
  destruct (current_turn b) as [t|].
  - intros [= <-]. by rewrite list_lookup_middle.
  - rewrite app_nil_r, last_lookup. destruct (turns b); [done|]. intros [= <-]. cbn.
    by rewrite Nat.sub_0_r.
Qed.

(** The completion of a command goes to the turn that started it, also when a newer
    turn is open: in that turn it replaces the item of the call or is appended, no other
    turn changes, and a completion for an unknown turn changes nothing. *)
Theorem late_completion_routed b payload :
  unique_ids (snapshot b) →
  snapshot (handle_event [] b (EventMsg.ExecCommandEnd payload))
  = map (λ t, if Turn.id t ==s ExecCommandEndEvent.turn_id payload
              then upsert_into (build_command_execution_end_item payload) t else t) (snapshot b).
Proof. apply upsert_turn_snapshot. Qed.
End feed.

(** ** Witnesses *)
Module Sample.
#[local] Instance wire : WireTypes := {| Value := unit; ExecutedToolCall := unit |}.
#[local] Instance env : HistoryEnv := {|
  thread_id_to_string := decimal; shlex_try_join := λ l, Some (join [SPACE] l);
  redact_secrets := λ s, s; path_uri_join := λ a b, Some (a ++ lit "/" ++ b);
  legacy_app_path := λ s, s; SessionMetaRest := unit; InterAgentCommunication := unit;
  TurnContextItem := unit; WorldStateItem := unit; GuardianAssessmentEvent := unit;
  ApplyPatchApprovalRequestEvent := unit; TokenCountEvent := unit; OtherEvent := unit |}.

Definition started (id : str) : RolloutItem.t :=
  RolloutItem.EventMsg (EventMsg.TurnStarted (TurnStartedEvent.mk id None (Some 7%Z) None)).
Definition user (text : str) : RolloutItem.t :=
  RolloutItem.EventMsg (EventMsg.UserMessage
    (UserMessageEvent.mk None text None [] [] [] None [] [])).
Definition agent (text : str) : RolloutItem.t :=
  RolloutItem.EventMsg (EventMsg.AgentMessage (AgentMessageEvent.mk text None None)).
Definition exec_end_event (turn call : str) : ExecCommandEndEvent.t :=
  ExecCommandEndEvent.mk call None turn 0 [lit "ls"] (lit "file:///w") [] ExecCommandSource.Agent
    None [] [] (lit "out") 0 5000000 [] ExecCommandStatus.Completed.
Definition exec_end (turn call : str) : RolloutItem.t :=
  RolloutItem.EventMsg (EventMsg.ExecCommandEnd (exec_end_event turn call)).
Definition completed (turn : str) : RolloutItem.t :=
  RolloutItem.EventMsg (EventMsg.TurnComplete
    (TurnCompleteEvent.mk turn None None None (Some 9%Z) (Some 2%Z) None)).
Definition rolled_back (n : Z) : RolloutItem.t :=
  RolloutItem.EventMsg (EventMsg.ThreadRolledBack (mkRollback n)).

(** Two turns, a command of the first that completes during the second, a rollback of
    the second and a third turn with its id. *)
Definition before : list RolloutItem.t :=
  [started (lit "a"); user (lit "hi"); exec_end (lit "a") (lit "c1")].
Definition batch : list RolloutItem.t :=
  [completed (lit "a"); started (lit "b"); user (lit "more"); exec_end (lit "a") (lit "c1");
   rolled_back 1; started (lit "b"); agent (lit "done"); completed (lit "b")].

Lemma change_feed_faithful_witness :
  let b := foldl handle_rollout_item new_builder before in
  let r := handle_rollout_items_with_changes b batch in
  length (snapshot r.1) = 2 ∧ ChangeSet.removed_turn_ids r.2 = [lit "b"]
  ∧ snapshot r.1 = apply_changes (snapshot b) r.2.
Proof.
  cbn zeta. split; [vm_compute; reflexivity|]. split; [vm_compute; reflexivity|].
  set (b := foldl handle_rollout_item new_builder before).
  assert (kept b) as Hk by apply kept_run, new_kept.
  assert (active_change_set b = None) as Ea by (vm_compute; reflexivity).
  assert (bool_decide (unique_along b batch) = true) as Hu by (vm_compute; reflexivity).
  apply bool_decide_eq_true in Hu. pose proof (change_feed_faithful b batch Hk Ea Hu) as Hf.
  clearbody b. destruct (handle_rollout_items_with_changes b batch) as [b' changes].
  exact (proj2 Hf).
Defined.

Lemma late_completion_routed_witness :
  let b := foldl handle_rollout_item new_builder
             (before ++ [completed (lit "a"); started (lit "b")]) in
  snapshot (handle_event [] b (EventMsg.ExecCommandEnd (exec_end_event (lit "a") (lit "c1"))))
  = map (λ t, if Turn.id t ==s lit "a"
              then upsert_into (build_command_execution_end_item (exec_end_event (lit "a") (lit "c1"))) t
              else t) (snapshot b).
Proof.
  cbn zeta. set (b := foldl handle_rollout_item new_builder _).
  assert (bool_decide (unique_ids (snapshot b)) = true) as Hu by (vm_compute; reflexivity).
  apply bool_decide_eq_true in Hu. clearbody b. exact (late_completion_routed b _ Hu).
Defined.
End Sample.
