(* ===== verification/SeekSequence.v ===== *)
(** * Locating a block of lines: [apply-patch/src/seek_sequence.rs]

    [seek_sequence] searches a file's lines for the lines of a patch chunk with
    four passes of decreasing strictness.  Slice and index accesses that could
    panic are modelled: the outer [option] is [None] exactly when the Rust code
    would panic, and the specification theorem shows that it never is. *)

From stdpp Require Import base option list numbers.
From S2P Require Import Prelude.

(** The punctuation table of [normalise]. *)
Definition DASHES : list char := [0x2010; 0x2011; 0x2012; 0x2013; 0x2014; 0x2015; 0x2212]%N.
Definition SINGLE_QUOTES : list char := [0x2018; 0x2019; 0x201A; 0x201B]%N.
Definition DOUBLE_QUOTES : list char := [0x201C; 0x201D; 0x201E; 0x201F]%N.
Definition ODD_SPACES : list char :=
  [0x00A0; 0x2002; 0x2003; 0x2004; 0x2005; 0x2006; 0x2007; 0x2008; 0x2009; 0x200A;
   0x202F; 0x205F; 0x3000]%N.

Definition normalise_char (c : char) : char :=
  if existsb (N.eqb c) DASHES then 45%N
  else if existsb (N.eqb c) SINGLE_QUOTES then 39%N
  else if existsb (N.eqb c) DOUBLE_QUOTES then 34%N
  else if existsb (N.eqb c) ODD_SPACES then 32%N
  else c.

Definition normalise (s : str) : str := map normalise_char (trim s).

(** [lines[i..i + pattern.len()] == *pattern]; [None] when the slice is out of
    range. *)
Definition exact_match (lines pattern : list str) (i : nat) : option bool :=
  if length lines <? i + length pattern then None
  else Some (bool_decide (take (length pattern) (drop i lines) = pattern)).

(** The inner loop of the other passes, comparing [f lines[i + p_idx]] with
    [f pat]; [None] when an index is out of range. *)
Fixpoint lines_match (f : str → str) (lines pattern : list str) (i : nat) : option bool :=
  match pattern with
  | [] => Some true
  | pat :: pattern' =>
      match lines !! i with
      | None => None
      | Some line =>
          if f line ==s f pat then lines_match f lines pattern' (S i) else Some false
      end
  end.

(** [for i in lo..=hi { if m(i) { return Some(i) } }], with [cnt] positions left. *)
Fixpoint scan (m : nat → option bool) (lo cnt : nat) : option (option nat) :=
  match cnt with
  | O => Some None
  | S cnt' =>
      match m lo with
      | None => None
      | Some true => Some (Some lo)
      | Some false => scan m (S lo) cnt'
      end
  end.

Definition scan_range (m : nat → option bool) (lo hi : nat) : option (option nat) :=
  scan m lo (S hi - lo).

(** Passes run one after the other until one of them finds a position. *)
Fixpoint first_pass (passes : list (nat → option bool)) (lo hi : nat) : option (option nat) :=
  match passes with
  | [] => Some None
  | m :: passes' =>
      match scan_range m lo hi with
      | None => None
      | Some (Some i) => Some (Some i)
      | Some None => first_pass passes' lo hi
      end
  end.

Definition seek_sequence (lines pattern : list str) (start : nat) (eof : bool)
  : option (option nat) :=
  if bool_decide (pattern = []) then Some (Some start)
  else if length lines <? length pattern then Some None
  else
    let search_start :=
      if eof && (length pattern <=? length lines) then length lines - length pattern
      else start in
    first_pass
      [ exact_match lines pattern;
        lines_match trim_end lines pattern;
        lines_match trim lines pattern;
        lines_match normalise lines pattern ]
      search_start (length lines - length pattern).

(** ** Specification *)

(** The strictness levels, strictest first. *)
Definition levels : list (str → str) := [id; trim_end; trim; normalise].

(** The block of [pattern]'s length at line [i] equals [pattern] up to [f]. *)
Definition block_matches (f : str → str) (lines pattern : list str) (i : nat) : Prop :=
  i + length pattern ≤ length lines
  ∧ f <$> take (length pattern) (drop i lines) = f <$> pattern.

(** The first line the search looks at. *)
Definition seek_from (lines pattern : list str) (start : nat) (eof : bool) : nat :=
  if eof then length lines - length pattern else start.

(** What the search from a line on promises: the answer is the earliest position, at or
    after that line, of the strictest level that matches anywhere there; [None] means
    that no level matches anywhere there. *)
Definition seek_spec (lines pattern : list str) (lo : nat) (r : option nat) : Prop :=
  match r with
  | Some i =>
      ∃ k f, levels !! k = Some f ∧ lo ≤ i ∧ block_matches f lines pattern i
        ∧ (∀ j, lo ≤ j → j < i → ¬ block_matches f lines pattern j)
        ∧ (∀ k' f' j, k' < k → levels !! k' = Some f' → lo ≤ j →
             ¬ block_matches f' lines pattern j)
  | None => ∀ k f j, levels !! k = Some f → lo ≤ j → ¬ block_matches f lines pattern j
  end.

(** ** Proofs *)

Lemma exact_match_spec lines pattern i :
  i + length pattern ≤ length lines →
  ∃ b, exact_match lines pattern i = Some b ∧ (b = true ↔ block_matches id lines pattern i).
Proof.
  intros Hi. unfold exact_match, block_matches.
  destruct (Nat.ltb_spec (length lines) (i + length pattern)); [lia|].
  eexists. split; [done|]. rewrite bool_decide_eq_true, !list_fmap_id. tauto.
Qed.

Lemma lines_match_spec f lines pattern i :
  i + length pattern ≤ length lines →
  ∃ b, lines_match f lines pattern i = Some b ∧ (b = true ↔ block_matches f lines pattern i).
Proof.
  revert i. induction pattern as [|pat pattern IH]; intros i Hi; cbn [lines_match length] in *.
  { exists true. split; [done|]. split; [|done]. by split; [simpl; lia|]. }
  destruct (lookup_lt_is_Some_2 lines i) as [line Hline]; [lia|]. rewrite Hline.
  assert (Hdrop : drop i lines = line :: drop (S i) lines) by by apply drop_S.
  unfold block_matches; cbn [length]; rewrite Hdrop; cbn [take fmap list_fmap].
  destruct (IH (S i)) as (b & Hb & Hspec); [lia|]. unfold block_matches in Hspec.
  case_bool_decide as Hf.
  - exists b. split; [done|]. rewrite Hspec, Hf. split.
    + intros [? ->]. split; [lia|done].
    + intros [? [= ?]]. split; [lia|done].
  - exists false. split; [done|]. split; [done|]. intros [_ [= ? ?]]. done.
Qed.

(** A pass whose test is total and decides [P] returns the first position of the
    range where [P] holds. *)
Lemma scan_spec (m : nat → option bool) (P : nat → Prop) lo cnt :
  (∀ j, lo ≤ j < lo + cnt → ∃ b, m j = Some b ∧ (b = true ↔ P j)) →
  ∃ r, scan m lo cnt = Some r ∧
    match r with
    | Some i => lo ≤ i < lo + cnt ∧ P i ∧ ∀ j, lo ≤ j < i → ¬ P j
    | None => ∀ j, lo ≤ j < lo + cnt → ¬ P j
    end.
Proof.
  revert lo. induction cnt as [|cnt IH]; intros lo Hm; cbn [scan].
  { exists None. split; [done|]. intros; lia. }
  destruct (Hm lo) as (b & -> & Hb); [lia|]. destruct b.
  - exists (Some lo). split; [done|]. split; [lia|]. split; [by apply Hb|]. intros; lia.
  - destruct (IH (S lo)) as (r & -> & Hr); [intros j Hj; apply Hm; lia|].
    assert (¬ P lo) by (intros HP; by apply Hb in HP).
    exists r. split; [done|]. destruct r as [i|].
    + destruct Hr as (? & ? & Hmin). split; [lia|]. split; [done|]. intros j Hj.
      destruct (decide (j = lo)) as [->|]; [done|]. apply Hmin; lia.
    + intros j Hj. destruct (decide (j = lo)) as [->|]; [done|]. apply Hr; lia.
Qed.

Lemma first_pass_spec (passes : list (nat → option bool)) (Ps : list (nat → Prop)) lo hi :
  Forall2 (λ m P, ∀ j, lo ≤ j ≤ hi → ∃ b, m j = Some b ∧ (b = true ↔ P j)) passes Ps →
  ∃ r, first_pass passes lo hi = Some r ∧
    match r with
    | Some i => ∃ k P, Ps !! k = Some P ∧ lo ≤ i ≤ hi ∧ P i ∧ (∀ j, lo ≤ j < i → ¬ P j)
        ∧ (∀ k' P' j, k' < k → Ps !! k' = Some P' → lo ≤ j ≤ hi → ¬ P' j)
    | None => ∀ k P j, Ps !! k = Some P → lo ≤ j ≤ hi → ¬ P j
    end.
Proof.
  induction 1 as [|m P passes Ps Hm _ IH]; cbn [first_pass].
  { exists None. split; [done|]. intros k P j Hk. by rewrite lookup_nil in Hk. }
  unfold scan_range.
  destruct (scan_spec m P lo (S hi - lo)) as (r & -> & Hr); [intros j ?; apply Hm; lia|].
  destruct r as [i|].
  - destruct Hr as (? & ? & ?). exists (Some i). split; [done|]. exists 0, P.
    split; [done|]. split; [lia|]. do 2 (split; [done|]). intros; lia.
  - destruct IH as (r & -> & Hr'). exists r. split; [done|]. destruct r as [i|].
    + destruct Hr' as (k & Q & ? & ? & ? & ? & Hk). exists (S k), Q. do 4 (split; [done|]).
      intros [|k'] P' j Hlt Heq Hj; [simplify_eq/=; apply Hr; lia|].
      apply (Hk k'); [lia|done|done].
    + intros [|k] Q j Heq Hj; [simplify_eq/=; apply Hr; lia|]. by apply (Hr' k).
Qed.

Lemma block_matches_bound f lines pattern i :
  block_matches f lines pattern i → i + length pattern ≤ length lines.
Proof. by intros [? _]. Qed.

Lemma seek_sequence_meets_spec lines pattern start eof :
  pattern ≠ [] →
  ∃ r, seek_sequence lines pattern start eof = Some r
       ∧ seek_spec lines pattern (seek_from lines pattern start eof) r.
Proof.
  intros Hne. unfold seek_sequence, seek_spec.
  rewrite bool_decide_eq_false_2 by done.
  destruct (Nat.ltb_spec (length lines) (length pattern)) as [Hlen|Hlen].
  { exists None. split; [done|]. intros k f j _ _ Hm%block_matches_bound. lia. }
  rewrite (proj2 (Nat.leb_le _ _) Hlen), andb_true_r. fold (seek_from lines pattern start eof).
  set (lo := seek_from lines pattern start eof). set (hi := length lines - length pattern).
  destruct (first_pass_spec
    [exact_match lines pattern; lines_match trim_end lines pattern;
     lines_match trim lines pattern; lines_match normalise lines pattern]
    ((λ f, block_matches f lines pattern) <$> levels) lo hi) as (r & -> & Hr).
  { repeat constructor; intros j Hj;
      first [apply exact_match_spec | apply lines_match_spec]; lia. }
  assert (Hlook : ∀ k f, levels !! k = Some f →
    ((λ f, block_matches f lines pattern) <$> levels) !! k = Some (block_matches f lines pattern)).
  { intros k f Hk. by rewrite list_lookup_fmap, Hk. }
  exists r. split; [done|]. destruct r as [i|].
  - destruct Hr as (k & P & HP & Hi & HPi & Hmin & Hstrict).
    rewrite list_lookup_fmap in HP. destruct (levels !! k) as [f|] eqn:Hk; [|done].
    simplify_eq/=. exists k, f. split; [done|]. split; [lia|]. split; [done|]. split.
    + intros j ? ?. apply Hmin; lia.
    + intros k' f' j Hk' Hf' Hj Hm. pose proof (block_matches_bound _ _ _ _ Hm).
      apply (Hstrict k' _ j Hk' (Hlook _ _ Hf')); [lia|done].
  - intros k f j Hf Hj Hm. pose proof (block_matches_bound _ _ _ _ Hm).
    apply (Hr k _ j (Hlook _ _ Hf)); [lia|done].
Qed.

Lemma seek_sequence_empty lines start eof : seek_sequence lines [] start eof = Some (Some start).
Proof. done. Qed.

Lemma seek_sequence_total lines pattern start eof :
  ∃ r, seek_sequence lines pattern start eof = Some r.
Proof.
  destruct (decide (pattern = [])) as [->|Hne]; [by eexists|].
  destruct (seek_sequence_meets_spec lines pattern start eof Hne) as (r & -> & _). by eexists.
Qed.

(** What a caller may rely on: a position returned is a match of some level, and
    without [eof] it is not before [start]. *)
Lemma seek_sequence_found lines pattern start eof i :
  start ≤ length lines →
  seek_sequence lines pattern start eof = Some (Some i) →
  (∃ f, f ∈ levels ∧ block_matches f lines pattern i) ∧ (eof = false → start ≤ i).
Proof.
  intros Hstart. destruct (decide (pattern = [])) as [->|Hne].
  - intros [= <-]. split; [|lia]. exists id. split; [by constructor|]. split; cbn; [lia|done].
  - destruct (seek_sequence_meets_spec lines pattern start eof Hne) as (r & -> & Hr).
    intros [= ->]. destruct Hr as (k & f & Hk & Hlo & Hm & _). split.
    + exists f. split; [by eapply list_elem_of_lookup_2|done].
    + intros ->. done.
Qed.

(** A verbatim occurrence with no earlier one at or after [start] is the answer. *)
Lemma seek_sequence_first_exact lines pattern start i :
  pattern ≠ [] → start ≤ i → block_matches id lines pattern i →
  (∀ j, start ≤ j < i → ¬ block_matches id lines pattern j) →
  seek_sequence lines pattern start false = Some (Some i).
Proof.
  intros Hne Hi Hm Hmin.
  destruct (seek_sequence_meets_spec lines pattern start false Hne) as (r & -> & Hr).
  destruct r as [i'|]; cbn in Hr.
  - destruct Hr as (k & f & Hk & Hlo & Hm' & Hfirst & Hstrict).
    destruct k as [|k]; [|by destruct (Hstrict 0 id i); [lia|..]].
    injection Hk as <-. do 2 f_equal. destruct (lt_eq_lt_dec i i') as [[?|?]|?]; [|done|].
    + by destruct (Hfirst i).
    + by destruct (Hmin i').
  - by destruct (Hr 0 id i).
Qed.

(** The block that ends the file. *)
Definition last_window (lines pattern : list str) : nat := length lines - length pattern.

(** C30: the search never panics.  The empty pattern is found at [start].  Without [eof]
    the answer is the earliest position at or after [start] of the strictest level that
    matches anywhere there, and there is no answer only if no level matches.  With [eof]
    a block that ends the file, at one of the levels, is found there. *)
Theorem seek_sequence_correct lines pattern start eof :
  ∃ r, seek_sequence lines pattern start eof = Some r
       ∧ (pattern = [] → r = Some start)
       ∧ (pattern ≠ [] → eof = false → seek_spec lines pattern start r)
       ∧ (pattern ≠ [] → eof = true →
          ∀ f, f ∈ levels → block_matches f lines pattern (last_window lines pattern) →
          r = Some (last_window lines pattern)).
Proof.
  destruct (decide (pattern = [])) as [->|Hne]; [by exists (Some start)|].
  destruct (seek_sequence_meets_spec lines pattern start eof Hne) as (r & Hr & Hspec).
  exists r. split; [done|]. split; [done|]. split; [by intros _ ->|].
  intros _ -> f (k & Hk)%list_elem_of_lookup Hm. cbn [seek_from] in Hspec. destruct r as [i|].
  - destruct Hspec as (k' & f' & _ & Hlo & Hm' & _). apply block_matches_bound in Hm, Hm'.
    unfold last_window in *. f_equal. lia.
  - by destruct (Hspec k f (last_window lines pattern) Hk).
Qed.

(** With [eof] only the last window of the file is looked at: a block that occurs
    earlier in the file, after [start], is not found. *)
Lemma seek_sequence_eof_no_fallback :
  seek_sequence [[97%N]; [98%N]] [[97%N]] 0 true = Some None
  ∧ seek_sequence [[97%N]; [98%N]] [[97%N]] 0 false = Some (Some 0).
Proof. done. Qed.
