(* ===== verification/PatchParser.v ===== *)
(** * The patch format: [apply-patch/src/parser.rs] and [streaming_parser.rs]

    Patch text is parsed into hunks by a streaming state machine that receives the
    text in deltas, processes it line by line and keeps the hunks found so far.
    [parse_patch] checks the begin and end markers (removing a here-document
    wrapper in lenient mode) and runs the streaming parser on the whole text.

    A Rust [PathBuf] built from a string is represented by that string.  Every
    handler returns the parser state next to its [Result], so that the state after
    an error is modelled too. *)

From Stdlib Require Import String.
From stdpp Require Import base option list numbers.
From S2P Require Import Prelude.

(** ** Markers *)
Definition BEGIN_PATCH_MARKER : str := lit "*** Begin Patch".
Definition END_PATCH_MARKER : str := lit "*** End Patch".
Definition ADD_FILE_MARKER : str := lit "*** Add File: ".
Definition DELETE_FILE_MARKER : str := lit "*** Delete File: ".
Definition UPDATE_FILE_MARKER : str := lit "*** Update File: ".
Definition MOVE_TO_MARKER : str := lit "*** Move to: ".
Definition EOF_MARKER : str := lit "*** End of File".
Definition CHANGE_CONTEXT_MARKER : str := lit "@@ ".
Definition EMPTY_CHANGE_CONTEXT_MARKER : str := lit "@@".
Definition ENVIRONMENT_ID_MARKER : str := lit "*** Environment ID:".

(** ** Data *)
Inductive ParseError : Type :=
| InvalidPatchError (message : str)
| InvalidHunkError (message : str) (line_number : nat).

Record UpdateFileChunk : Type := mkChunk {
  change_context : option str;
  old_lines : list str;
  new_lines : list str;
  is_end_of_file : bool;
}.

Inductive Hunk : Type :=
| AddFile (path contents : str)
| DeleteFile (path : str)
| UpdateFile (path : str) (move_path : option str) (chunks : list UpdateFileChunk).

(** [Hunk::path]: the affected path, the destination for a rename. *)
Definition hunk_path (h : Hunk) : str :=
  match h with
  | AddFile path _ => path
  | DeleteFile path => path
  | UpdateFile _ (Some path) _ => path
  | UpdateFile path None _ => path
  end.

(** The path [Hunk::resolve_path] resolves: the source of a rename. *)
Definition hunk_source_path (h : Hunk) : str :=
  match h with
  | UpdateFile path _ _ => path
  | AddFile _ _ | DeleteFile _ => hunk_path h
  end.

Inductive StreamingParserMode : Type :=
| ModeNotStarted
| ModeStartedPatch
| ModeAddFile
| ModeDeleteFile
| ModeUpdateFile (hunk_line_number : nat)
| ModeEndedPatch.

Record StreamingPatchParser : Type := mkParser {
  line_buffer : str;
  mode : StreamingParserMode;
  hunks : list Hunk;
  environment_id : option str;
  line_number : nat;
}.

Definition default_parser : StreamingPatchParser := mkParser [] ModeNotStarted [] None 0.

Definition set_mode (p : StreamingPatchParser) (m : StreamingParserMode) : StreamingPatchParser :=
  mkParser (line_buffer p) m (hunks p) (environment_id p) (line_number p).
Definition set_hunks (p : StreamingPatchParser) (hs : list Hunk) : StreamingPatchParser :=
  mkParser (line_buffer p) (mode p) hs (environment_id p) (line_number p).
Definition set_environment_id (p : StreamingPatchParser) (e : str) : StreamingPatchParser :=
  mkParser (line_buffer p) (mode p) (hunks p) (Some e) (line_number p).

(** Replace the last element ([last_mut] followed by an assignment). *)
Definition set_last {A} (l : list A) (x : A) : list A := removelast l ++ [x].

Definition empty_chunk (ctx : option str) : UpdateFileChunk := mkChunk ctx [] [] false.

Definition chunk_has_no_lines (c : UpdateFileChunk) : bool :=
  bool_decide (old_lines c = []) && bool_decide (new_lines c = []).

#[global] Arguments set_last : simpl never.

(** [chunks.last().is_some_and(f)]. *)
Definition last_is {A} (f : A → bool) (l : list A) : bool :=
  match last l with Some x => f x | None => false end.

(** ** Error messages *)
Definition unexpected_line_message (line : str) : str :=
  lit "Unexpected line found in update hunk: '" ++ line ++
  lit "'. Every line should start with ' ' (context line), '+' (added line), or '-' (removed line)".

Definition expected_context_message (line : str) : str :=
  lit "Expected update hunk to start with a @@ context marker, got: '" ++ line ++ lit "'".

Definition invalid_header_message (trimmed : str) : str :=
  lit "'" ++ trimmed ++
  lit "' is not a valid hunk header. Valid hunk headers: '*** Add File: {path}', '*** Delete File: {path}', '*** Update File: {path}'".

Definition FIRST_LINE_MESSAGE : str := lit "The first line of the patch must be '*** Begin Patch'".
Definition LAST_LINE_MESSAGE : str := lit "The last line of the patch must be '*** End Patch'".
Definition NO_LINES_MESSAGE : str := lit "Update hunk does not contain any lines".

(** ** Handlers of [StreamingPatchParser] *)

Definition ensure_update_hunk_is_not_empty (p : StreamingPatchParser) (line : str)
  : result ParseError unit :=
  match last (hunks p) with
  | Some (UpdateFile path _ chunks) =>
      match chunks, mode p with
      | [], ModeUpdateFile hunk_line_number =>
          Err (InvalidHunkError
            (lit "Update file hunk for path '" ++ path ++ lit "' is empty") hunk_line_number)
      | _, _ =>
          if last_is chunk_has_no_lines chunks then
            if line ==s END_PATCH_MARKER
            then Err (InvalidHunkError NO_LINES_MESSAGE (line_number p))
            else Err (InvalidHunkError (unexpected_line_message line) (line_number p))
          else Ok tt
      end
  | _ => Ok tt
  end.

(** The markers [handle_hunk_headers_and_end_patch] tries in order, once the
    environment line is out of the way: the hunk a marker line appends (none for
    the end marker) and the mode it switches to. *)
Definition header_action (trimmed : str) (line_no : nat)
  : option (list Hunk * StreamingParserMode) :=
  if trimmed ==s END_PATCH_MARKER then Some ([], ModeEndedPatch)
  else
    match strip_prefix ADD_FILE_MARKER trimmed with
    | Some path => Some ([AddFile path []], ModeAddFile)
    | None =>
        match strip_prefix DELETE_FILE_MARKER trimmed with
        | Some path => Some ([DeleteFile path], ModeDeleteFile)
        | None =>
            match strip_prefix UPDATE_FILE_MARKER trimmed with
            | Some path => Some ([UpdateFile path None []], ModeUpdateFile line_no)
            | None => None
            end
        end
    end.

Definition handle_hunk_headers_and_end_patch (p : StreamingPatchParser) (trimmed : str)
  : StreamingPatchParser * result ParseError bool :=
  match mode p, strip_prefix ENVIRONMENT_ID_MARKER trimmed with
  | ModeStartedPatch, Some id =>
      match environment_id p with
      | Some _ => (p, Err (InvalidPatchError
                     (lit "apply_patch environment_id cannot be specified more than once")))
      | None =>
          if trim id ==s []
          then (p, Err (InvalidPatchError (lit "apply_patch environment_id cannot be empty")))
          else (set_environment_id p (trim id), Ok true)
      end
  | _, _ =>
      match header_action trimmed (line_number p) with
      | Some (new_hunks, m) =>
          match ensure_update_hunk_is_not_empty p trimmed with
          | Err e => (p, Err e)
          | Ok _ => (set_mode (set_hunks p (hunks p ++ new_hunks)) m, Ok true)
          end
      | None => (p, Ok false)
      end
  end.

(** Make sure there is a chunk, then change the last one. *)
Definition modify_last_chunk (f : UpdateFileChunk → UpdateFileChunk)
    (chunks : list UpdateFileChunk) : list UpdateFileChunk :=
  let chunks := match chunks with [] => [empty_chunk None] | _ => chunks end in
  match last chunks with
  | Some c => set_last chunks (f c)
  | None => chunks
  end.

Definition push_old (line : str) (c : UpdateFileChunk) : UpdateFileChunk :=
  mkChunk (change_context c) (old_lines c ++ [line]) (new_lines c) (is_end_of_file c).
Definition push_new (line : str) (c : UpdateFileChunk) : UpdateFileChunk :=
  mkChunk (change_context c) (old_lines c) (new_lines c ++ [line]) (is_end_of_file c).
Definition mark_end_of_file (c : UpdateFileChunk) : UpdateFileChunk :=
  mkChunk (change_context c) (old_lines c) (new_lines c) true.

Definition is_context_marker (line : str) : bool :=
  (line ==s EMPTY_CHANGE_CONTEXT_MARKER) || starts_with CHANGE_CONTEXT_MARKER line.

(** The body of the [UpdateFile] mode, once the line is known not to be a header
    and the last hunk is an update: the new move path and chunks. *)
Definition update_file_line (line update_line : str) (line_no : nat)
    (move_path : option str) (chunks : list UpdateFileChunk)
  : result ParseError (option str * list UpdateFileChunk) :=
  let after_eof := last_is is_end_of_file chunks in
  if after_eof && (update_line ==s []) then Ok (move_path, chunks)
  else if after_eof && negb (is_context_marker update_line) then
    Err (InvalidHunkError (expected_context_message line) line_no)
  else
    match (match chunks, move_path with
           | [], None => strip_prefix MOVE_TO_MARKER update_line
           | _, _ => None
           end) with
    | Some move_to_path => Ok (Some move_to_path, chunks)
    | None =>
        if is_context_marker update_line && last_is chunk_has_no_lines chunks then
          Err (InvalidHunkError (unexpected_line_message line) line_no)
        else if update_line ==s EMPTY_CHANGE_CONTEXT_MARKER then
          Ok (move_path, chunks ++ [empty_chunk None])
        else
          match strip_prefix CHANGE_CONTEXT_MARKER update_line with
          | Some ctx => Ok (move_path, chunks ++ [empty_chunk (Some ctx)])
          | None =>
              if update_line ==s EOF_MARKER then
                if last_is chunk_has_no_lines chunks then
                  Err (InvalidHunkError NO_LINES_MESSAGE line_no)
                else
                  Ok (move_path,
                      match last chunks with
                      | Some c => set_last chunks (mark_end_of_file c)
                      | None => chunks
                      end)
              else
                match line with
                | [] => Ok (move_path, modify_last_chunk (λ c, push_new [] (push_old [] c)) chunks)
                | c0 :: text =>
                    if (c0 =? SPACE)%N then
                      Ok (move_path, modify_last_chunk (λ c, push_new text (push_old text c)) chunks)
                    else if (c0 =? PLUS)%N then
                      Ok (move_path, modify_last_chunk (push_new text) chunks)
                    else if (c0 =? MINUS)%N then
                      Ok (move_path, modify_last_chunk (push_old text) chunks)
                    else if last_is (λ c, negb (chunk_has_no_lines c)) chunks then
                      Err (InvalidHunkError (expected_context_message line) line_no)
                    else Err (InvalidHunkError (unexpected_line_message line) line_no)
                end
          end
    end.

Definition process_line (p : StreamingPatchParser) (line : str)
  : StreamingPatchParser * result ParseError unit :=
  let trimmed := trim line in
  let invalid_header := Err (InvalidHunkError (invalid_header_message trimmed) (line_number p)) in
  match mode p with
  | ModeNotStarted =>
      if trimmed ==s BEGIN_PATCH_MARKER then (set_mode p ModeStartedPatch, Ok tt)
      else (p, Err (InvalidPatchError FIRST_LINE_MESSAGE))
  | ModeStartedPatch =>
      match handle_hunk_headers_and_end_patch p trimmed with
      | (p', Err e) => (p', Err e)
      | (p', Ok true) => (p', Ok tt)
      | (p', Ok false) => (p', invalid_header)
      end
  | ModeAddFile =>
      match handle_hunk_headers_and_end_patch p trimmed with
      | (p', Err e) => (p', Err e)
      | (p', Ok true) => (p', Ok tt)
      | (p', Ok false) =>
          match strip_prefix [PLUS] line, last (hunks p') with
          | Some line_to_add, Some (AddFile path contents) =>
              (set_hunks p' (set_last (hunks p') (AddFile path (contents ++ line_to_add ++ [LF]))),
               Ok tt)
          | _, _ => (p', invalid_header)
          end
      end
  | ModeDeleteFile =>
      match handle_hunk_headers_and_end_patch p trimmed with
      | (p', Err e) => (p', Err e)
      | (p', Ok true) => (p', Ok tt)
      | (p', Ok false) => (p', invalid_header)
      end
  | ModeUpdateFile hunk_line_number =>
      let update_line := trim_end line in
      match handle_hunk_headers_and_end_patch p update_line with
      | (p', Err e) => (p', Err e)
      | (p', Ok true) => (p', Ok tt)
      | (p', Ok false) =>
          match last (hunks p') with
          | Some (UpdateFile path move_path chunks) =>
              match update_file_line line update_line (line_number p') move_path chunks with
              | Ok (move_path', chunks') =>
                  (set_mode (set_hunks p' (set_last (hunks p') (UpdateFile path move_path' chunks')))
                     (ModeUpdateFile hunk_line_number), Ok tt)
              | Err e => (p', Err e)
              end
          | _ => (p', Err (InvalidHunkError (unexpected_line_message line) (line_number p')))
          end
      end
  | ModeEndedPatch =>
      if trimmed ==s [] then (p, Ok tt) else (p, Err (InvalidPatchError LAST_LINE_MESSAGE))
  end.

(** One character of [push_delta]'s loop. *)
Definition push_char (p : StreamingPatchParser) (ch : char)
  : StreamingPatchParser * result ParseError unit :=
  if (ch =? LF)%N then
    process_line (mkParser [] (mode p) (hunks p) (environment_id p) (S (line_number p)))
      (strip_cr (line_buffer p))
  else
    (mkParser (line_buffer p ++ [ch]) (mode p) (hunks p) (environment_id p) (line_number p), Ok tt).

Fixpoint push_chars (p : StreamingPatchParser) (delta : str)
  : StreamingPatchParser * result ParseError unit :=
  match delta with
  | [] => (p, Ok tt)
  | ch :: delta' =>
      match push_char p ch with
      | (p', Ok _) => push_chars p' delta'
      | (p', Err e) => (p', Err e)
      end
  end.

Definition push_delta (p : StreamingPatchParser) (delta : str)
  : StreamingPatchParser * result ParseError (list Hunk) :=
  match push_chars p delta with
  | (p', Ok _) => (p', Ok (hunks p'))
  | (p', Err e) => (p', Err e)
  end.

Definition finish_check (p : StreamingPatchParser) : result ParseError (list Hunk) :=
  match mode p with
  | ModeEndedPatch => Ok (hunks p)
  | _ => Err (InvalidPatchError LAST_LINE_MESSAGE)
  end.

Definition finish (p : StreamingPatchParser) : StreamingPatchParser * result ParseError (list Hunk) :=
  match line_buffer p with
  | [] => (p, finish_check p)
  | line =>
      let p1 := mkParser [] (mode p) (hunks p) (environment_id p) (S (line_number p)) in
      if trim line ==s END_PATCH_MARKER then
        match ensure_update_hunk_is_not_empty p1 (trim line) with
        | Err e => (p1, Err e)
        | Ok _ => let p2 := set_mode p1 ModeEndedPatch in (p2, finish_check p2)
        end
      else
        match process_line p1 line with
        | (p2, Err e) => (p2, Err e)
        | (p2, Ok _) => (p2, finish_check p2)
        end
  end.

(** ** [parse_patch] *)

Record ApplyPatchArgs : Type := mkArgs {
  args_patch : str;
  args_hunks : list Hunk;
  args_workdir : option str;
  args_environment_id : option str;
}.

Inductive ParseMode : Type := Strict | Lenient.
Definition PARSE_IN_STRICT_MODE : bool := false.

Definition check_start_and_end_lines_strict (first_line last_line : option str)
  : result ParseError unit :=
  match trim <$> first_line, trim <$> last_line with
  | Some first, last =>
      if first ==s BEGIN_PATCH_MARKER then
        match last with
        | Some l => if l ==s END_PATCH_MARKER then Ok tt
                    else Err (InvalidPatchError LAST_LINE_MESSAGE)
        | None => Err (InvalidPatchError LAST_LINE_MESSAGE)
        end
      else Err (InvalidPatchError FIRST_LINE_MESSAGE)
  | None, _ => Err (InvalidPatchError LAST_LINE_MESSAGE)
  end.

Definition check_patch_boundaries_strict (ls : list str) : result ParseError (list str) :=
  check? check_start_and_end_lines_strict (head ls) (last ls) in Ok ls.

Definition HEREDOC_OPENERS : list str :=
  [lit "<<EOF"; lit "<<'EOF'"; lit "<<" ++ [34%N] ++ lit "EOF" ++ [34%N]].

Definition check_patch_boundaries_lenient (original_lines : list str)
  : result ParseError (list str) :=
  match check_patch_boundaries_strict original_lines with
  | Ok ls => Ok ls
  | Err original_parse_error =>
      match original_lines with
      | first :: _ :: _ =>
          if bool_decide (first ∈ HEREDOC_OPENERS)
             && last_is (ends_with (lit "EOF")) original_lines
             && (4 <=? length original_lines)
          then check_patch_boundaries_strict (removelast (tail original_lines))
          else Err original_parse_error
      | _ => Err original_parse_error
      end
  end.

Definition parse_patch_text (patch : str) (m : ParseMode) : result ParseError ApplyPatchArgs :=
  let ls := lines (trim patch) in
  let? patch_lines :=
    match m with
    | Strict => check_patch_boundaries_strict ls
    | Lenient => check_patch_boundaries_lenient ls
    end in
  let patch := join [LF] patch_lines in
  let '(p1, r1) := push_delta default_parser patch in
  check? r1 in
  let '(p2, r2) := finish p1 in
  let? hs := r2 in
  Ok (mkArgs patch hs None (environment_id p2)).

Definition parse_patch (patch : str) : result ParseError ApplyPatchArgs :=
  parse_patch_text patch (if PARSE_IN_STRICT_MODE then Strict else Lenient).
