(* ===== verification/PatchParserFacts.v ===== *)
(** * Invariants of the streaming patch parser

    Every state the parser can reach is well formed, whatever text is pushed and
    whether or not an earlier push failed, and a successful parse only yields
    complete hunks. Pushing a text in pieces is the same as pushing it at once. *)

From Stdlib Require Import String.
From stdpp Require Import base option list numbers.
From S2P Require Import Prelude PatchParser.

(** ** Well-formedness *)

(** The lines of a chunk never contain a line feed. *)
Definition chunk_lines_ok (c : UpdateFileChunk) : Prop :=
  Forall no_lf (old_lines c) ∧ Forall no_lf (new_lines c)
  ∧ (∀ ctx, change_context c = Some ctx → no_lf ctx).

Definition chunk_complete (c : UpdateFileChunk) : Prop :=
  chunk_has_no_lines c = false ∧ chunk_lines_ok c.

(** What a finished hunk satisfies. *)
Definition hunk_complete (h : Hunk) : Prop :=
  match h with
  | AddFile path contents => no_lf path ∧ (contents = [] ∨ ∃ body, contents = body ++ [LF])
  | DeleteFile path => no_lf path
  | UpdateFile path move_path chunks =>
      no_lf path ∧ (∀ d, move_path = Some d → no_lf d)
      ∧ chunks ≠ [] ∧ Forall chunk_complete chunks
  end.

(** What an update hunk that is still being read satisfies: every chunk but the
    last has lines. *)
Definition update_open (path : str) (move_path : option str) (chunks : list UpdateFileChunk) : Prop :=
  no_lf path ∧ (∀ d, move_path = Some d → no_lf d)
  ∧ Forall chunk_lines_ok chunks ∧ Forall (λ c, chunk_has_no_lines c = false) (removelast chunks).

Definition hunks_wf (m : StreamingParserMode) (hs : list Hunk) : Prop :=
  match m with
  | ModeNotStarted | ModeStartedPatch => hs = []
  | ModeAddFile =>
      Forall hunk_complete hs ∧ ∃ path contents, last hs = Some (AddFile path contents)
  | ModeDeleteFile => Forall hunk_complete hs ∧ ∃ path, last hs = Some (DeleteFile path)
  | ModeUpdateFile _ =>
      ∃ init path move_path chunks, hs = init ++ [UpdateFile path move_path chunks]
        ∧ Forall hunk_complete init ∧ update_open path move_path chunks
  | ModeEndedPatch => Forall hunk_complete hs
  end.

Definition parser_wf (p : StreamingPatchParser) : Prop :=
  no_lf (line_buffer p) ∧ hunks_wf (mode p) (hunks p).

(** ** Preservation *)

Lemma last_is_snoc {A} (f : A → bool) l x : last_is f (l ++ [x]) = f x.
Proof. unfold last_is. by rewrite last_snoc. Qed.

Lemma set_last_snoc {A} (l : list A) x y : set_last (l ++ [x]) y = l ++ [y].
Proof. unfold set_last. by rewrite removelast_snoc. Qed.

Lemma update_open_complete path move_path chunks :
  update_open path move_path chunks → chunks ≠ [] →
  last_is chunk_has_no_lines chunks = false → hunk_complete (UpdateFile path move_path chunks).
Proof.
  intros (? & ? & Hok & Hinit) Hne Hlast. do 3 (split; [done|]).
  destruct (exists_last Hne) as (init & c & ->).
  rewrite last_is_snoc in Hlast. rewrite removelast_snoc in Hinit.
  rewrite Forall_snoc in Hok |- *. destruct Hok as [Hok Hc]. split; [|done].
  apply Forall_and; done.
Qed.

Lemma ensure_complete p line :
  hunks_wf (mode p) (hunks p) → ensure_update_hunk_is_not_empty p line = Ok tt →
  Forall hunk_complete (hunks p).
Proof.
  unfold hunks_wf, ensure_update_hunk_is_not_empty.
  destruct (mode p) eqn:Hm; try (intros ->; done || constructor); try (by intros [? _]); [|done].
  intros (init & path & mp & chunks & -> & Hinit & Hopen).
  rewrite last_snoc. intros Hens. apply Forall_snoc; split; [done|].
  apply update_open_complete; [done|by intros ->|].
  destruct chunks; [done|].
  destruct (last_is chunk_has_no_lines _); [|done]. by case_bool_decide.
Qed.

Lemma header_action_wf hs trimmed n new_hunks m :
  Forall hunk_complete hs → no_lf trimmed → header_action trimmed n = Some (new_hunks, m) →
  hunks_wf m (hs ++ new_hunks).
Proof.
  intros Hhs Htr. unfold header_action. case_bool_decide as Hend.
  { intros [= <- <-]. simpl. by rewrite app_nil_r. }
  destruct (strip_prefix ADD_FILE_MARKER trimmed) as [path|] eqn:Eadd.
  { intros [= <- <-]. split; [|by eexists _, _; apply last_snoc].
    apply Forall_snoc; split; [done|].
    split; [eauto with strings|by left]. }
  destruct (strip_prefix DELETE_FILE_MARKER trimmed) as [path|] eqn:Edel.
  { intros [= <- <-]. split; [|by eexists; apply last_snoc].
    apply Forall_snoc; split; [done|]. simpl; eauto with strings. }
  destruct (strip_prefix UPDATE_FILE_MARKER trimmed) as [path|] eqn:Eupd; [|done].
  intros [= <- <-]. exists hs, path, None, []. do 2 (split; [done|]).
  split; [eauto with strings|]. by repeat split.
Qed.

Lemma handle_headers_wf p trimmed p' r :
  parser_wf p → no_lf trimmed → handle_hunk_headers_and_end_patch p trimmed = (p', r) →
  parser_wf p' ∧ (r = Ok false → p' = p).
Proof.
  intros [Hbuf Hhs] Htr. unfold handle_hunk_headers_and_end_patch.
  assert (Hhead : match header_action trimmed (line_number p) with
      | Some (new_hunks, m) =>
          match ensure_update_hunk_is_not_empty p trimmed with
          | Err e => (p, Err e)
          | Ok _ => (set_mode (set_hunks p (hunks p ++ new_hunks)) m, Ok true)
          end
      | None => (p, Ok false)
      end = (p', r) → parser_wf p' ∧ (r = Ok false → p' = p)).
  { destruct (header_action trimmed (line_number p)) as [[new_hunks m]|] eqn:Ehead;
      [|by intros [= <- <-]].
    destruct (ensure_update_hunk_is_not_empty p trimmed) as [[]|e] eqn:Eens; intros [= <- <-];
      [|done].
    split; [|done]. split; [done|]. eapply header_action_wf; [|done|done].
    by eapply ensure_complete. }
  destruct (mode p) eqn:Hm; try exact Hhead.
  destruct (strip_prefix ENVIRONMENT_ID_MARKER trimmed); [|exact Hhead].
  destruct (environment_id p).
  { intros [= <- <-]. split; [split; [done|by rewrite Hm]|done]. }
  case_bool_decide; intros [= <- <-]; (split; [split; simpl; by rewrite ?Hm|done]).
Qed.

(** Appending to the lines of the last chunk keeps an update hunk open. *)
Lemma modify_last_chunk_open f chunks :
  (∀ c, chunk_lines_ok c → chunk_lines_ok (f c)) →
  Forall chunk_lines_ok chunks →
  Forall (λ c, chunk_has_no_lines c = false) (removelast chunks) →
  Forall chunk_lines_ok (modify_last_chunk f chunks)
  ∧ Forall (λ c, chunk_has_no_lines c = false) (removelast (modify_last_chunk f chunks)).
Proof.
  intros Hf Hok Hne. unfold modify_last_chunk.
  set (chunks' := match chunks with [] => [empty_chunk None] | _ => chunks end).
  assert (Forall chunk_lines_ok chunks' ∧
          Forall (λ c, chunk_has_no_lines c = false) (removelast chunks')) as [Hok' Hne'].
  { destruct chunks; [|done]. split; [|constructor].
    apply Forall_singleton. by repeat split; try constructor. }
  clearbody chunks'. destruct (last chunks') as [c|] eqn:E; [|done].
  apply last_Some in E as [init ->]. rewrite set_last_snoc, !removelast_snoc in *.
  apply Forall_snoc in Hok' as [? Hc].
  split; [|done]. apply Forall_snoc; auto.
Qed.

Lemma push_old_ok text c : no_lf text → chunk_lines_ok c → chunk_lines_ok (push_old text c).
Proof. intros ? (? & ? & ?). split; [|done]. apply Forall_app; auto. Qed.

Lemma push_new_ok text c : no_lf text → chunk_lines_ok c → chunk_lines_ok (push_new text c).
Proof. intros ? (? & ? & ?). split; [done|]. split; [|done]. apply Forall_app; auto. Qed.

#[local] Hint Resolve push_old_ok push_new_ok : strings.

(** A new chunk may be opened when the last one has lines. *)
Lemma open_chunk_ok ctx chunks :
  (∀ s, ctx = Some s → no_lf s) → Forall chunk_lines_ok chunks →
  Forall (λ c, chunk_has_no_lines c = false) (removelast chunks) →
  last_is chunk_has_no_lines chunks = false →
  Forall chunk_lines_ok (chunks ++ [empty_chunk ctx])
  ∧ Forall (λ c, chunk_has_no_lines c = false) (removelast (chunks ++ [empty_chunk ctx])).
Proof.
  intros Hctx Hok Hne Hlast. rewrite removelast_snoc. split.
  - apply Forall_snoc; split; [done|]. by repeat split; try constructor.
  - destruct chunks as [|c chunks'] eqn:E; [constructor|]. rewrite <- E in *.
    destruct (exists_last (l:=chunks)) as (init & x & ->); [by subst|].
    rewrite removelast_snoc in Hne. rewrite last_is_snoc in Hlast.
    by apply Forall_snoc.
Qed.

Lemma is_context_marker_true line :
  is_context_marker line = true →
  line = EMPTY_CHANGE_CONTEXT_MARKER ∨ ∃ ctx, strip_prefix CHANGE_CONTEXT_MARKER line = Some ctx.
Proof.
  unfold is_context_marker, starts_with. case_bool_decide; [by left|].
  destruct (strip_prefix _ _); [|done]. right. eauto.
Qed.

Lemma is_context_marker_false line :
  is_context_marker line = false →
  line ≠ EMPTY_CHANGE_CONTEXT_MARKER ∧ strip_prefix CHANGE_CONTEXT_MARKER line = None.
Proof.
  unfold is_context_marker, starts_with. case_bool_decide; [done|].
  by destruct (strip_prefix _ _).
Qed.

Lemma mark_end_of_file_open chunks :
  Forall chunk_lines_ok chunks →
  Forall (λ c, chunk_has_no_lines c = false) (removelast chunks) →
  let chunks' := match last chunks with
                 | Some c => set_last chunks (mark_end_of_file c) | None => chunks end in
  Forall chunk_lines_ok chunks' ∧ Forall (λ c, chunk_has_no_lines c = false) (removelast chunks').
Proof.
  intros Hok Hne. simpl. destruct (last chunks) as [c|] eqn:E; [|done].
  apply last_Some in E as [init ->]. rewrite set_last_snoc, !removelast_snoc in *.
  apply Forall_snoc in Hok as [? Hc]. split; [|done].
  by apply Forall_snoc.
Qed.

(** The last part of [update_file_line]: the line is a context, added, removed or
    blank line. *)
Definition content_line (line : str) (n : nat) (move_path : option str)
    (chunks : list UpdateFileChunk) : result ParseError (option str * list UpdateFileChunk) :=
  match line with
  | [] => Ok (move_path, modify_last_chunk (λ c, push_new [] (push_old [] c)) chunks)
  | c0 :: text =>
      if (c0 =? SPACE)%N then
        Ok (move_path, modify_last_chunk (λ c, push_new text (push_old text c)) chunks)
      else if (c0 =? PLUS)%N then Ok (move_path, modify_last_chunk (push_new text) chunks)
      else if (c0 =? MINUS)%N then Ok (move_path, modify_last_chunk (push_old text) chunks)
      else if last_is (λ c, negb (chunk_has_no_lines c)) chunks then
        Err (InvalidHunkError (expected_context_message line) n)
      else Err (InvalidHunkError (unexpected_line_message line) n)
  end.

Lemma content_line_open line n move_path chunks move_path' chunks' :
  no_lf line → (∀ d, move_path = Some d → no_lf d) → Forall chunk_lines_ok chunks →
  Forall (λ c, chunk_has_no_lines c = false) (removelast chunks) →
  content_line line n move_path chunks = Ok (move_path', chunks') →
  (∀ d, move_path' = Some d → no_lf d) ∧ Forall chunk_lines_ok chunks'
  ∧ Forall (λ c, chunk_has_no_lines c = false) (removelast chunks').
Proof.
  intros Hline Hmp Hok Hne. unfold content_line. destruct line as [|c0 text].
  { intros [= <- <-]. split; [done|]. apply modify_last_chunk_open; auto with strings. }
  apply Forall_cons_1 in Hline as [_ Htext]. fold (no_lf text) in Htext.
  repeat case_match; try done; intros [= <- <-]; (split; [done|]);
    apply modify_last_chunk_open; auto with strings.
Qed.

Lemma update_file_line_open line n path move_path chunks move_path' chunks' :
  no_lf line → update_open path move_path chunks →
  update_file_line line (trim_end line) n move_path chunks = Ok (move_path', chunks') →
  update_open path move_path' chunks'.
Proof.
  intros Hline (Hpath & Hmp & Hok & Hne). pose proof (no_lf_trim_end _ Hline) as Hul.
  unfold update_file_line.
  destruct (last_is is_end_of_file chunks && _); [by intros [= <- <-]|].
  destruct (last_is is_end_of_file chunks && _); [done|].
  destruct (match chunks, move_path with [], None => _ | _, _ => _ end) as [mv|] eqn:Emv.
  { intros [= <- <-]. destruct chunks, move_path; try done.
    split; [done|]. split; [|done]. intros d [= <-]. eauto with strings. }
  destruct (is_context_marker (trim_end line)) eqn:Ectx; cbn [andb].
  - destruct (last_is chunk_has_no_lines chunks) eqn:Elast; [done|]. case_bool_decide.
    { intros [= <- <-]. do 2 (split; [done|]). by apply open_chunk_ok. }
    apply is_context_marker_true in Ectx as [?|[ctx Hctx]]; [done|]. rewrite Hctx.
    intros [= <- <-]. do 2 (split; [done|]). apply open_chunk_ok; [|done..].
    intros s [= <-]; eauto with strings.
  - apply is_context_marker_false in Ectx as [? Hctx].
    rewrite bool_decide_eq_false_2, Hctx by done. case_bool_decide.
    { destruct (last_is chunk_has_no_lines chunks); [done|]. intros [= <- <-].
      do 2 (split; [done|]). by apply mark_end_of_file_open. }
    intros Hres. split; [done|]. by eapply (content_line_open line n move_path chunks).
Qed.

Lemma add_file_line_wf p line e :
  parser_wf p → no_lf line → mode p = ModeAddFile →
  parser_wf (fst (match strip_prefix [PLUS] line, last (hunks p) with
    | Some line_to_add, Some (AddFile path contents) =>
        (set_hunks p (set_last (hunks p) (AddFile path (contents ++ line_to_add ++ [LF]))), Ok tt)
    | _, _ => (p, Err e : result ParseError unit)
    end)).
Proof.
  intros [Hbuf Hhs] Hline Hm. rewrite Hm in Hhs. destruct Hhs as (Hall & path & contents & Hlast).
  rewrite Hlast. destruct (strip_prefix [PLUS] line) as [text|] eqn:E.
  2: { split; [done|]. simpl. rewrite Hm. split; eauto. }
  split; [done|]. simpl. rewrite Hm.
  apply last_Some in Hlast as [init Hhs]. rewrite Hhs in Hall |- *. rewrite set_last_snoc.
  apply Forall_snoc in Hall as [? [Hpath _]].
  split; [|by eexists _, _; apply last_snoc].
  apply Forall_snoc; split; [done|]. split; [done|].
  right. exists (contents ++ text). by rewrite app_assoc.
Qed.

Lemma process_line_wf p line :
  parser_wf p → no_lf line → parser_wf (fst (process_line p line)).
Proof.
  intros Hwf Hline. unfold process_line.
  assert (Hhandle : ∀ t, no_lf t → ∀ p' r, handle_hunk_headers_and_end_patch p t = (p', r) →
    parser_wf p' ∧ (r = Ok false → p' = p)) by (intros; eapply handle_headers_wf; eauto).
  destruct (mode p) eqn:Hm.
  - case_bool_decide; [|done]. destruct Hwf as [? Hh]. split; [done|]. by rewrite Hm in Hh.
  - destruct (handle_hunk_headers_and_end_patch p (trim line)) as [p' [[]|]] eqn:E;
      apply Hhandle in E as [? _]; eauto with strings.
  - destruct (handle_hunk_headers_and_end_patch p (trim line)) as [p' [[]|]] eqn:E;
      apply Hhandle in E as [? Heq]; eauto with strings.
    rewrite (Heq eq_refl) in *. by apply add_file_line_wf.
  - destruct (handle_hunk_headers_and_end_patch p (trim line)) as [p' [[]|]] eqn:E;
      apply Hhandle in E as [? _]; eauto with strings.
  - destruct (handle_hunk_headers_and_end_patch p (trim_end line)) as [p' [[]|]] eqn:E;
      apply Hhandle in E as [? Heq]; eauto with strings.
    rewrite (Heq eq_refl) in *. destruct Hwf as [Hbuf Hhs]. rewrite Hm in Hhs.
    destruct Hhs as (init & path & mp & chunks & Hhs & Hinit & Hopen). rewrite Hhs, last_snoc.
    destruct (update_file_line _ _ _ _ _) as [[mp' chunks']|] eqn:Eu; [|done].
    split; [done|]. simpl. rewrite set_last_snoc. exists init, path, mp', chunks'.
    do 2 (split; [done|]). by eapply update_file_line_open.
  - by case_bool_decide.
Qed.

Lemma push_char_wf p ch : parser_wf p → parser_wf (fst (push_char p ch)).
Proof.
  intros [Hbuf Hhs]. unfold push_char. destruct (N.eqb_spec ch LF).
  - apply process_line_wf; [|auto with strings]. split; [apply no_lf_nil|done].
  - split; [|done]. by apply Forall_snoc.
Qed.

Lemma push_chars_wf p delta : parser_wf p → parser_wf (fst (push_chars p delta)).
Proof.
  revert p. induction delta as [|ch delta IH]; intros p Hwf; [done|]. cbn [push_chars].
  pose proof (push_char_wf p ch Hwf) as Hwf'.
  destruct (push_char p ch) as [p' [[]|e]]; [by apply IH|done].
Qed.

Lemma push_delta_wf p delta : parser_wf p → parser_wf (fst (push_delta p delta)).
Proof.
  intros Hwf%(λ H, push_chars_wf p delta H). unfold push_delta.
  by destruct (push_chars p delta) as [p' []].
Qed.

Lemma default_parser_wf : parser_wf default_parser.
Proof. split; [apply no_lf_nil|done]. Qed.

Lemma finish_check_complete p hs :
  hunks_wf (mode p) (hunks p) → finish_check p = Ok hs → Forall hunk_complete hs.
Proof. unfold finish_check. by destruct (mode p); try done; intros ? [= <-]. Qed.

Lemma finish_complete p hs :
  parser_wf p → snd (finish p) = Ok hs → Forall hunk_complete hs.
Proof.
  intros [Hbuf Hhs]. unfold finish. destruct (line_buffer p) as [|c buf] eqn:E.
  { by apply finish_check_complete. }
  set (p1 := mkParser [] (mode p) (hunks p) (environment_id p) (S (line_number p))).
  assert (parser_wf p1) as Hp1 by (split; [apply no_lf_nil|done]).
  case_bool_decide.
  - destruct (ensure_update_hunk_is_not_empty p1 _) as [[]|] eqn:Eens; [|done].
    apply finish_check_complete. exact (ensure_complete p1 _ (proj2 Hp1) Eens).
  - pose proof (process_line_wf p1 (c :: buf) Hp1 Hbuf) as Hp2.
    destruct (process_line p1 (c :: buf)) as [p2 [[]|]]; [|done].
    apply finish_check_complete, Hp2.
Qed.

(** The states the streaming parser can be in: any texts pushed, errors included. *)
Definition run_deltas (deltas : list str) : StreamingPatchParser :=
  foldl (λ p d, fst (push_delta p d)) default_parser deltas.

Lemma run_deltas_wf deltas : parser_wf (run_deltas deltas).
Proof.
  unfold run_deltas. generalize default_parser_wf. generalize default_parser.
  induction deltas as [|d deltas IH]; intros p Hwf; [done|]. by apply IH, push_delta_wf.
Qed.

(** Pushing with [?] after each delta: stop at the first error. *)
Fixpoint push_all (p : StreamingPatchParser) (deltas : list str)
  : StreamingPatchParser * result ParseError (list Hunk) :=
  match deltas with
  | [] => (p, Ok (hunks p))
  | d :: deltas' =>
      match push_delta p d with
      | (p', Ok _) => push_all p' deltas'
      | (p', Err e) => (p', Err e)
      end
  end.

Lemma push_chars_app p a b :
  push_chars p (a ++ b) =
  match push_chars p a with
  | (p', Ok _) => push_chars p' b
  | (p', Err e) => (p', Err e)
  end.
Proof.
  revert p. induction a as [|ch a IH]; intros p; [done|]. cbn [push_chars app].
  destruct (push_char p ch) as [p' [[]|e]]; [apply IH|done].
Qed.

(** Hunks that a later hunk has followed are never touched again. *)
Definition extends (p p' : StreamingPatchParser) : Prop :=
  removelast (hunks p) `prefix_of` removelast (hunks p').

#[local] Instance extends_preorder : PreOrder extends.
Proof. split; [by intros p; unfold extends|]. unfold extends. by intros p q r ->. Qed.

Lemma removelast_prefix {A} (l : list A) : removelast l `prefix_of` l.
Proof.
  destruct (decide (l = [])) as [->|Hne]; [done|].
  destruct (exists_last Hne) as (init & x & ->). rewrite removelast_snoc. by eexists.
Qed.

Lemma header_action_short trimmed n new_hunks m :
  header_action trimmed n = Some (new_hunks, m) → new_hunks = [] ∨ ∃ h, new_hunks = [h].
Proof. unfold header_action. repeat case_match; intros; simplify_eq; eauto. Qed.

Lemma handle_headers_extends p t : extends p (fst (handle_hunk_headers_and_end_patch p t)).
Proof.
  unfold handle_hunk_headers_and_end_patch, extends.
  destruct (mode p), (strip_prefix ENVIRONMENT_ID_MARKER t);
    try (destruct (environment_id p); [done|]; by case_bool_decide);
    (destruct (header_action t (line_number p)) as [[new_hunks m]|] eqn:E; [|done]);
    (destruct (ensure_update_hunk_is_not_empty p t); [|done]); simpl;
    (apply header_action_short in E as [->|[h ->]];
      [by rewrite app_nil_r|rewrite removelast_snoc; apply removelast_prefix]).
Qed.

Lemma process_line_extends p line : extends p (fst (process_line p line)).
Proof.
  unfold process_line.
  assert (Hset : ∀ p' h, extends p p' →
    removelast (hunks p) `prefix_of` removelast (set_last (hunks p') h)).
  { intros p' h H. unfold set_last. by rewrite removelast_snoc. }
  pose proof (handle_headers_extends p (trim line)) as H1.
  pose proof (handle_headers_extends p (trim_end line)) as H2.
  destruct (mode p);
    try (destruct (handle_hunk_headers_and_end_patch p (trim line)) as [p' [[]|]]);
    try (destruct (handle_hunk_headers_and_end_patch p (trim_end line)) as [p' [[]|]]);
    repeat case_match; simplify_eq; unfold extends in *; simpl in *;
    first [done | by apply Hset].
Qed.

Lemma push_chars_extends p delta : extends p (fst (push_chars p delta)).
Proof.
  revert p. induction delta as [|ch delta IH]; intros p; [done|]. cbn [push_chars].
  assert (Hch : extends p (fst (push_char p ch))).
  { unfold push_char. destruct (ch =? LF)%N; [|by unfold extends].
    etrans; [|apply process_line_extends]. by unfold extends. }
  destruct (push_char p ch) as [p' [[]|e]]; [|done]. etrans; [exact Hch|apply IH].
Qed.

(** ** Growing hunks

    What the parser shows while the text arrives only grows: entries are added at the end,
    and the last entry is completed. *)
Section Grows.
Context {A : Type} (R : A → A → Prop) `{!PreOrder R}.

Inductive grows : list A → list A → Prop :=
| grows_nil l : grows [] l
| grows_last x y l : R x y → grows [x] (y :: l)
| grows_cons x l l' : grows l l' → grows (x :: l) (x :: l').

Lemma grows_app l l' : grows l (l ++ l').
Proof. induction l; by constructor. Qed.

#[export] Instance grows_preorder : PreOrder grows.
Proof.
  split.
  - intros l. induction l; by constructor.
  - intros l l' l'' Hl. revert l''. induction Hl as [l|x y l Hxy|x l l' Hl IH]; intros l'' Hl'.
    + constructor.
    + inversion Hl'; subst; constructor; [by etrans|done].
    + inversion Hl'; subst; [|by constructor; apply IH].
      inversion Hl; subst. by constructor.
Qed.

Lemma grows_set_last l x y : last l = Some x → R x y → grows l (set_last l y).
Proof.
  intros [init ->]%last_Some Hxy. unfold set_last. rewrite removelast_snoc.
  induction init; by constructor.
Qed.
End Grows.

Definition chunk_grows (c c' : UpdateFileChunk) : Prop :=
  change_context c = change_context c' ∧ old_lines c `prefix_of` old_lines c'
  ∧ new_lines c `prefix_of` new_lines c' ∧ (is_end_of_file c = true → is_end_of_file c' = true).

Definition hunk_grows (h h' : Hunk) : Prop :=
  match h, h' with
  | AddFile p c, AddFile p' c' => p = p' ∧ c `prefix_of` c'
  | DeleteFile p, DeleteFile p' => p = p'
  | UpdateFile p m cs, UpdateFile p' m' cs' =>
      p = p' ∧ (m = None ∨ m = m') ∧ grows chunk_grows cs cs'
  | _, _ => False
  end.

#[export] Instance chunk_grows_preorder : PreOrder chunk_grows.
Proof.
  split; [by intros c; split_and!|]. intros c d e (? & ? & ? & ?) (? & ? & ? & ?).
  split_and!; [congruence|by etrans..|auto].
Qed.

#[export] Instance hunk_grows_preorder : PreOrder hunk_grows.
Proof.
  split.
  - intros []; cbn; [done|done|]. split_and!; [done|by right|done].
  - intros [] [] [] H1 H2; cbn in *; try done.
    + destruct H1, H2. split; [congruence|by etrans].
    + congruence.
    + destruct H1 as (? & ? & ?), H2 as (? & ? & ?). split_and!; [congruence|naive_solver|by etrans].
Qed.

Lemma modify_last_chunk_grows f cs : (∀ c, chunk_grows c (f c)) →
  grows chunk_grows cs (modify_last_chunk f cs).
Proof.
  intros Hf. unfold modify_last_chunk. destruct cs as [|c cs]; [constructor|].
  destruct (last (c :: cs)) as [x|] eqn:Hl; [|done]. by apply (grows_set_last _ _ x).
Qed.

Lemma push_lines_grow c old new :
  chunk_grows c (mkChunk (change_context c) (old_lines c ++ old) (new_lines c ++ new) (is_end_of_file c)).
Proof. split_and!; [done|by apply prefix_app_r..|done]. Qed.

Lemma update_file_line_grows line update_line n mv cs mv' cs' :
  update_file_line line update_line n mv cs = Ok (mv', cs') →
  (mv = None ∨ mv = mv') ∧ grows chunk_grows cs cs'.
Proof.
  assert (Hpush : ∀ old new, grows chunk_grows cs (modify_last_chunk (λ c,
    mkChunk (change_context c) (old_lines c ++ old) (new_lines c ++ new) (is_end_of_file c)) cs)).
  { intros. apply modify_last_chunk_grows. intros. apply push_lines_grow. }
  assert (Hold : ∀ l, grows chunk_grows cs (modify_last_chunk (push_old l) cs)).
  { intros l. apply modify_last_chunk_grows. intros c. split_and!; [done|by apply prefix_app_r|done|done]. }
  assert (Hnew : ∀ l, grows chunk_grows cs (modify_last_chunk (push_new l) cs)).
  { intros l. apply modify_last_chunk_grows. intros c. split_and!; [done|done|by apply prefix_app_r|done]. }
  unfold update_file_line.
  repeat case_match; intros; simplify_eq; (split; [first [by left|by right]|]);
    first [done | apply grows_nil | apply grows_app | apply grows_cons, grows_app | eapply grows_set_last; [eassumption|by split_and!]
      | apply Hold | apply Hnew | apply (Hpush [_] [_])].
Qed.

Lemma handle_headers_grows p t :
  grows hunk_grows (hunks p) (hunks (fst (handle_hunk_headers_and_end_patch p t))).
Proof.
  unfold handle_hunk_headers_and_end_patch. repeat case_match; simpl; first [done | apply grows_app].
Qed.

Lemma process_line_grows p line : grows hunk_grows (hunks p) (hunks (fst (process_line p line))).
Proof.
  unfold process_line.
  pose proof (handle_headers_grows p (trim line)) as H1.
  pose proof (handle_headers_grows p (trim_end line)) as H2.
  destruct (mode p);
    try (destruct (handle_hunk_headers_and_end_patch p (trim line)) as [p' [[]|]]);
    try (destruct (handle_hunk_headers_and_end_patch p (trim_end line)) as [p' [[]|]]);
    repeat case_match; simplify_eq; simpl in *; try done.
  1: etrans; [exact H1|]; eapply grows_set_last; [eassumption|]; split; [done|by apply prefix_app_r].
  all: etrans; [exact H2|]; eapply grows_set_last; [eassumption|]; split; [done|];
    by eapply update_file_line_grows.
Qed.

Lemma push_chars_grows p delta : grows hunk_grows (hunks p) (hunks (fst (push_chars p delta))).
Proof.
  revert p. induction delta as [|ch delta IH]; intros p; [done|]. cbn [push_chars].
  assert (Hch : grows hunk_grows (hunks p) (hunks (fst (push_char p ch)))).
  { unfold push_char. destruct (ch =? LF)%N; [|done]. etrans; [|apply process_line_grows]. done. }
  destruct (push_char p ch) as [p' [[]|e]]; [|done]. etrans; [exact Hch|apply IH].
Qed.

(** ** Properties *)

(** C31: whatever text fragments arrive, in whatever pieces, the parser keeps its
    state invariant (every finished hunk complete, every stored line free of line
    breaks, the open hunk matching the mode), and when it finishes successfully all
    the hunks it returns are complete. *)
Theorem streaming_parser_invariant deltas :
  parser_wf (run_deltas deltas)
  ∧ ∀ hs, snd (finish (run_deltas deltas)) = Ok hs → Forall hunk_complete hs.
Proof.
  pose proof (run_deltas_wf deltas) as Hwf. split; [done|]. intros hs. by apply finish_complete.
Qed.

(** Parsing does not depend on how the text is cut into fragments: pushing the
    fragments one after the other is pushing their concatenation. *)
Lemma push_all_concat p deltas : push_all p deltas = push_delta p (concat deltas).
Proof.
  revert p. induction deltas as [|d deltas IH]; intros p; [done|]. cbn [push_all concat].
  unfold push_delta at 1 2. rewrite push_chars_app.
  destruct (push_chars p d) as [p' [[]|e]]; [apply IH|done].
Qed.

(** Hunks already finished are never revised: all hunks but the last of a
    parser state are a prefix of the hunks after any further input. *)
Theorem push_delta_keeps_finished_hunks p delta :
  removelast (hunks p) `prefix_of` hunks (fst (push_delta p delta)).
Proof.
  unfold push_delta. pose proof (push_chars_extends p delta) as H. unfold extends in H.
  destruct (push_chars p delta) as [p' []]; (etrans; [exact H|apply removelast_prefix]).
Qed.

(** Every hunk of a parsed patch is complete: update hunks have at least one
    chunk, every chunk has lines, and no line contains a line break. *)
Theorem parse_patch_hunks_complete patch args :
  parse_patch patch = Ok args → Forall hunk_complete (args_hunks args).
Proof.
  unfold parse_patch, parse_patch_text. generalize (if PARSE_IN_STRICT_MODE then Strict else Lenient).
  intros m. destruct (match m with Strict => _ | Lenient => _ end) as [ls|]; [|done]. cbn [rbind].
  pose proof (push_delta_wf _ (join [LF] ls) default_parser_wf) as Hwf.
  destruct (push_delta default_parser (join [LF] ls)) as [p1 [hs1|]]; [|done]. cbn [rbind].
  pose proof (finish_complete p1) as Hfin.
  destruct (finish p1) as [p2 [hs|]]; [|done]. cbn [rbind]. intros [= <-]. by apply Hfin.
Qed.

Definition sample_patch : str :=
  join [LF] [lit "*** Begin Patch"; lit "*** Update File: a"; lit "@@"; lit "-x"; lit "+y";
             lit "*** End Patch"].

Lemma parse_patch_hunks_complete_witness :
  Forall hunk_complete [UpdateFile (lit "a") None [mkChunk None [lit "x"] [lit "y"] false]].
Proof.
  exact (parse_patch_hunks_complete sample_patch
    (mkArgs sample_patch [UpdateFile (lit "a") None [mkChunk None [lit "x"] [lit "y"] false]]
       None None) ltac:(vm_compute; reflexivity)).
Defined.
