(* ===== verification/PatchGrammar.v ===== *)
(** * The documented patch grammar and the parser

    The module comment of [apply-patch/src/parser.rs] gives the grammar of the patch
    format.  This file states it as a syntax tree with its rendering and the hunks
    it denotes, and proves that the parser reads every rendered tree back. *)

From Stdlib Require Import String.
From stdpp Require Import base option list numbers.
From S2P Require Import Prelude PatchParser PatchParserFacts.

(** ** Syntax *)

(** [change_line: ("+" | "-" | " ") /(.+)/ LF]. *)
Inductive change_line : Type :=
| ContextLine (text : str)
| AddedLine (text : str)
| RemovedLine (text : str).

(** [change_context], the lines below it and an optional [eof_line].  The first
    change of a hunk may have no [@@] line. *)
Inductive change_header : Type := NoHeader | EmptyHeader | ContextHeader (ctx : str).

Record change : Type := mkChange {
  ch_header : change_header;
  ch_body : list change_line;
  ch_eof : bool;
}.

Inductive hunk_tree : Type :=
| AddHunk (path : str) (contents : list str)
| DeleteHunk (path : str)
| UpdateHunk (path : str) (move : option str) (changes : list change).

Record patch_tree : Type := mkPatch {
  pt_environment : option str;
  pt_hunks : list hunk_tree;
}.

(** ** Rendering *)
Definition render_change_line (l : change_line) : str :=
  match l with
  | ContextLine s => SPACE :: s
  | AddedLine s => PLUS :: s
  | RemovedLine s => MINUS :: s
  end.

Definition render_header (h : change_header) : list str :=
  match h with
  | NoHeader => []
  | EmptyHeader => [EMPTY_CHANGE_CONTEXT_MARKER]
  | ContextHeader ctx => [CHANGE_CONTEXT_MARKER ++ ctx]
  end.

Definition render_change (c : change) : list str :=
  render_header (ch_header c) ++ map render_change_line (ch_body c)
  ++ (if ch_eof c then [EOF_MARKER] else []).

Definition render_move (m : option str) : list str :=
  match m with Some d => [MOVE_TO_MARKER ++ d] | None => [] end.

Definition render_hunk (h : hunk_tree) : list str :=
  match h with
  | AddHunk path contents => (ADD_FILE_MARKER ++ path) :: map (cons PLUS) contents
  | DeleteHunk path => [DELETE_FILE_MARKER ++ path]
  | UpdateHunk path move changes =>
      (UPDATE_FILE_MARKER ++ path) :: render_move move ++ concat (map render_change changes)
  end.

Definition render_environment (e : option str) : list str :=
  match e with Some id => [ENVIRONMENT_ID_MARKER ++ SPACE :: id] | None => [] end.

Definition render_lines (t : patch_tree) : list str :=
  BEGIN_PATCH_MARKER :: render_environment (pt_environment t)
  ++ concat (map render_hunk (pt_hunks t)) ++ [END_PATCH_MARKER].

Definition render_patch (t : patch_tree) : str := join [LF] (render_lines t).

(** ** Denotation *)
Definition add_change_line (c : UpdateFileChunk) (l : change_line) : UpdateFileChunk :=
  match l with
  | ContextLine s => push_new s (push_old s c)
  | AddedLine s => push_new s c
  | RemovedLine s => push_old s c
  end.

Definition header_chunk (h : change_header) : UpdateFileChunk :=
  empty_chunk (match h with ContextHeader ctx => Some ctx | _ => None end).

Definition denote_change (c : change) : UpdateFileChunk :=
  let chunk := foldl add_change_line (header_chunk (ch_header c)) (ch_body c) in
  if ch_eof c then mark_end_of_file chunk else chunk.

Definition denote_hunk (h : hunk_tree) : Hunk :=
  match h with
  | AddHunk path contents => AddFile path (concat (map (λ s, s ++ [LF]) contents))
  | DeleteHunk path => DeleteFile path
  | UpdateHunk path move changes => UpdateFile path move (map denote_change changes)
  end.

(** ** Side conditions *)

(** A text line: no line break inside and no trailing carriage return. *)
Definition text_ok (s : str) : Prop := no_lf s ∧ last s ≠ Some CR.

(** A name at the end of a marker line: no line break, and the last character is
    visible (the parser trims marker lines). *)
Definition name_ok (s : str) : Prop :=
  no_lf s ∧ ∃ s' c, s = s' ++ [c] ∧ is_whitespace c = false.

Definition change_line_ok (l : change_line) : Prop :=
  match l with ContextLine s | AddedLine s | RemovedLine s => text_ok s end.

Definition change_ok (c : change) : Prop :=
  ch_body c ≠ [] ∧ Forall change_line_ok (ch_body c)
  ∧ (∀ ctx, ch_header c = ContextHeader ctx → name_ok ctx).

Definition hunk_ok (h : hunk_tree) : Prop :=
  match h with
  | AddHunk path contents => name_ok path ∧ Forall text_ok contents
  | DeleteHunk path => name_ok path
  | UpdateHunk path move changes =>
      name_ok path ∧ (∀ d, move = Some d → name_ok d) ∧ changes ≠ []
      ∧ Forall change_ok changes ∧ Forall (λ c, ch_header c ≠ NoHeader) (tail changes)
  end.

Definition tree_ok (t : patch_tree) : Prop :=
  (∀ id, pt_environment t = Some id → name_ok id ∧ trim id = id) ∧ Forall hunk_ok (pt_hunks t).

(** ** Running the parser line by line *)
Definition bump (p : StreamingPatchParser) : StreamingPatchParser :=
  mkParser [] (mode p) (hunks p) (environment_id p) (S (line_number p)).

Fixpoint run_lines (p : StreamingPatchParser) (ls : list str)
  : StreamingPatchParser * result ParseError unit :=
  match ls with
  | [] => (p, Ok tt)
  | l :: ls' =>
      match process_line (bump p) l with
      | (p', Ok _) => run_lines p' ls'
      | (p', Err e) => (p', Err e)
      end
  end.

Lemma run_lines_app p a b :
  run_lines p (a ++ b) =
  match run_lines p a with (p', Ok _) => run_lines p' b | (p', Err e) => (p', Err e) end.
Proof.
  revert p. induction a as [|l a IH]; intros p; [done|]. cbn [run_lines app].
  destruct (process_line (bump p) l) as [p' [[]|e]]; [apply IH|done].
Qed.

Lemma push_chars_text p s :
  no_lf s →
  push_chars p s =
  (mkParser (line_buffer p ++ s) (mode p) (hunks p) (environment_id p) (line_number p), Ok tt).
Proof.
  intros Hs. revert p. induction Hs as [|c s Hc Hs IH]; intros p.
  { cbn. rewrite app_nil_r. by destruct p. }
  cbn [push_chars]. unfold push_char. rewrite (proj2 (N.eqb_neq _ _) Hc), IH. cbn.
  by rewrite <- app_assoc.
Qed.

Lemma push_chars_line p line rest :
  line_buffer p = [] → no_lf line → strip_cr line = line →
  push_chars p (line ++ LF :: rest) =
  match process_line (bump p) line with
  | (p', Ok _) => push_chars p' rest
  | (p', Err e) => (p', Err e)
  end.
Proof.
  intros Hbuf Hlf Hcr. rewrite push_chars_app, push_chars_text by done.
  cbn [push_chars]. unfold push_char. rewrite N.eqb_refl, Hbuf. cbn [line_buffer app].
  by rewrite Hcr.
Qed.

Lemma handle_headers_buffer p t :
  line_buffer (fst (handle_hunk_headers_and_end_patch p t)) = line_buffer p.
Proof. unfold handle_hunk_headers_and_end_patch. by repeat case_match. Qed.

Lemma process_line_buffer p line : line_buffer (fst (process_line p line)) = line_buffer p.
Proof.
  unfold process_line.
  pose proof (handle_headers_buffer p (trim line)) as H1.
  pose proof (handle_headers_buffer p (trim_end line)) as H2.
  by repeat case_match; simplify_eq; simpl in *.
Qed.

(** Pushing all lines but the last, each ended by a line feed, and then the last
    one without, leaves the last one in the buffer. *)
Lemma push_chars_lines p ls l :
  line_buffer p = [] → Forall no_lf (ls ++ [l]) → Forall (λ l, strip_cr l = l) (ls ++ [l]) →
  push_chars p (join [LF] (ls ++ [l])) =
  match run_lines p ls with
  | (p', Ok _) =>
      (mkParser l (mode p') (hunks p') (environment_id p') (line_number p'), Ok tt)
  | (p', Err e) => (p', Err e)
  end.
Proof.
  revert p. induction ls as [|x ls IH]; intros p Hbuf Hlf Hcr; cbn [app] in *.
  { inversion Hlf; subst. cbn. rewrite push_chars_text by done. by rewrite Hbuf. }
  inversion Hlf; inversion Hcr; subst. rewrite join_cons by by destruct ls.
  cbn [app run_lines]. rewrite push_chars_line by done.
  pose proof (process_line_buffer (bump p) x) as Hb.
  destruct (process_line (bump p) x) as [p' [[]|e]]; [|done]. by apply IH.
Qed.

(** ** Update hunks *)

(** The parser inside an update hunk. *)
Definition upd_state (env : option str) (n : nat) (hs : list Hunk) (path : str)
    (mv : option str) (cs : list UpdateFileChunk) (ln : nat) : StreamingPatchParser :=
  mkParser [] (ModeUpdateFile n) (hs ++ [UpdateFile path mv cs]) env ln.

Section update_hunk.
Context (env : option str) (n : nat) (hs : list Hunk) (path : str).
Implicit Types (mv : option str) (cs : list UpdateFileChunk) (ln : nat).
Local Abbreviation upd := (upd_state env n hs path).

Lemma upd_line mv cs ln line mv' cs' :
  header_action (trim_end line) (S ln) = None →
  update_file_line line (trim_end line) (S ln) mv cs = Ok (mv', cs') →
  process_line (bump (upd mv cs ln)) line = (upd mv' cs' (S ln), Ok tt).
Proof.
  intros Hhead Hupd. unfold process_line, handle_hunk_headers_and_end_patch. cbn.
  rewrite Hhead. cbn. rewrite last_snoc, Hupd. unfold upd_state. by rewrite set_last_snoc.
Qed.

(** The first character of a text line tells it apart from every marker. *)
Definition line_lead (c : char) : Prop := c = SPACE ∨ c = PLUS ∨ c = MINUS.

Lemma text_line_not_marker c s k :
  line_lead c → let t := trim_end (c :: s) in
  header_action t k = None ∧ is_context_marker t = false
  ∧ strip_prefix MOVE_TO_MARKER t = None ∧ t ≠ EOF_MARKER.
Proof.
  intros Hc. cbn zeta. destruct (trim_end_cons c s) as [->| ->]; [done|].
  generalize (trim_end s). intros t.
  unfold header_action, is_context_marker, starts_with.
  destruct Hc as [-> |[-> | ->]]; repeat split; by repeat case_bool_decide.
Qed.

Lemma update_text_line c s k mv cs :
  line_lead c → last_is is_end_of_file cs = false →
  update_file_line (c :: s) (trim_end (c :: s)) k mv cs = content_line (c :: s) k mv cs.
Proof.
  intros Hc Heof. destruct (text_line_not_marker c s k Hc) as (_ & Hctx & Hmv & Hne).
  unfold update_file_line. rewrite Heof, Hctx. cbn [andb].
  assert (match cs, mv with [], None => strip_prefix MOVE_TO_MARKER (trim_end (c :: s))
          | _, _ => None end = None) as -> by by repeat case_match.
  apply is_context_marker_false in Hctx as [Hne1 Hsp].
  rewrite bool_decide_eq_false_2, Hsp, bool_decide_eq_false_2 by done. done.
Qed.

Lemma render_change_line_lead l :
  ∃ c s, render_change_line l = c :: s ∧ line_lead c.
Proof. unfold line_lead. destruct l; eexists _, _; (split; [done|]); eauto. Qed.

Lemma content_change_line l k mv cs :
  content_line (render_change_line l) k mv cs
  = Ok (mv, modify_last_chunk (λ c, add_change_line c l) cs).
Proof. by destruct l. Qed.

Lemma change_line_step l mv cs ln :
  last_is is_end_of_file cs = false →
  process_line (bump (upd mv cs ln)) (render_change_line l)
  = (upd mv (modify_last_chunk (λ c, add_change_line c l) cs) (S ln), Ok tt).
Proof.
  intros Heof. destruct (render_change_line_lead l) as (c & s & Hl & Hc). apply upd_line.
  - rewrite Hl. by apply text_line_not_marker.
  - rewrite Hl, update_text_line, <- Hl by done. apply content_change_line.
Qed.

Lemma modify_last_chunk_snoc f cs c : modify_last_chunk f (cs ++ [c]) = cs ++ [f c].
Proof.
  unfold modify_last_chunk. destruct (cs ++ [c]) as [|c1 cs1] eqn:E; [by destruct cs|].
  rewrite <- E, last_snoc. apply set_last_snoc.
Qed.

Lemma add_change_line_eof c l : is_end_of_file (add_change_line c l) = is_end_of_file c.
Proof. by destruct l. Qed.

Lemma add_change_line_nonempty c l : chunk_has_no_lines (add_change_line c l) = false.
Proof.
  unfold chunk_has_no_lines. destruct l; cbn;
    rewrite ?(bool_decide_eq_false_2 (_ ++ [_] = [])); rewrite ?andb_false_r; try done;
    by intros []%app_eq_nil.
Qed.

Lemma body_nonempty c l ls :
  chunk_has_no_lines (foldl add_change_line c (l :: ls)) = false
  ∧ is_end_of_file (foldl add_change_line c (l :: ls)) = is_end_of_file c.
Proof.
  revert c l. induction ls as [|l' ls IH]; intros c l.
  - split; [apply add_change_line_nonempty|apply add_change_line_eof].
  - destruct (IH (add_change_line c l) l') as [? Heq]. split; [done|].
    by rewrite <- (add_change_line_eof c l), <- Heq.
Qed.

Lemma body_steps ls mv cs c ln :
  is_end_of_file c = false →
  run_lines (upd mv (cs ++ [c]) ln) (map render_change_line ls)
  = (upd mv (cs ++ [foldl add_change_line c ls]) (ln + length ls), Ok tt).
Proof.
  revert c ln. induction ls as [|l ls IH]; intros c ln Hc; cbn [map run_lines length foldl].
  { by rewrite Nat.add_0_r. }
  rewrite change_line_step by by rewrite last_is_snoc.
  rewrite modify_last_chunk_snoc, IH by by rewrite add_change_line_eof.
  by rewrite Nat.add_succ_r.
Qed.

(** The lines up to the end of a change's text. *)
Lemma header_body_steps h l ls mv cs ln :
  (h = NoHeader → cs = []) → (∀ ctx, h = ContextHeader ctx → name_ok ctx) →
  last_is chunk_has_no_lines cs = false →
  run_lines (upd mv cs ln) (render_header h ++ map render_change_line (l :: ls))
  = (upd mv (cs ++ [foldl add_change_line (header_chunk h) (l :: ls)])
       (ln + length (render_header h) + S (length ls)), Ok tt).
Proof.
  intros Hno Hctx Hlast. destruct h as [| |ctx]; cbn [render_header app length].
  - rewrite Hno by done. cbn [map run_lines]. rewrite change_line_step by done. cbn.
    rewrite (body_steps ls mv [] (add_change_line (empty_chunk None) l)) by by destruct l.
    f_equal. f_equal. lia.
  - cbn [run_lines]. rewrite (upd_line mv cs ln _ mv (cs ++ [empty_chunk None])).
    + rewrite body_steps by done. f_equal. f_equal. cbn [length]. lia.
    + done.
    + unfold update_file_line. rewrite Hlast.
      rewrite !andb_false_r. destruct cs, mv; done.
  - destruct (Hctx ctx eq_refl) as [_ (s & c & Hs & Hc)].
    assert (Htrim : trim_end (CHANGE_CONTEXT_MARKER ++ ctx) = CHANGE_CONTEXT_MARKER ++ ctx).
    { rewrite Hs, app_assoc. by apply trim_end_snoc. }
    cbn [run_lines]. rewrite (upd_line mv cs ln _ mv (cs ++ [empty_chunk (Some ctx)])).
    + rewrite body_steps by done. f_equal. f_equal. cbn [length]. lia.
    + by rewrite Htrim.
    + rewrite Htrim. unfold update_file_line. rewrite Hlast, !andb_false_r.
      rewrite (bool_decide_eq_false_2 (_ = EMPTY_CHANGE_CONTEXT_MARKER)).
      2: { rewrite Hs. by destruct s. }
      rewrite strip_prefix_app. destruct cs, mv; done.
Qed.

Lemma eof_step mv cs c ln :
  chunk_has_no_lines c = false → is_end_of_file c = false →
  process_line (bump (upd mv (cs ++ [c]) ln)) EOF_MARKER
  = (upd mv (cs ++ [mark_end_of_file c]) (S ln), Ok tt).
Proof.
  intros Hc Heof. apply upd_line; [done|]. unfold update_file_line.
  rewrite !last_is_snoc, last_snoc, set_last_snoc, Hc, Heof. by destruct cs, mv.
Qed.

Lemma change_steps ch mv cs ln :
  (ch_header ch = NoHeader → cs = []) → change_ok ch →
  last_is chunk_has_no_lines cs = false →
  ∃ ln', run_lines (upd mv cs ln) (render_change ch)
         = (upd mv (cs ++ [denote_change ch]) ln', Ok tt)
    ∧ chunk_has_no_lines (denote_change ch) = false.
Proof.
  intros Hno (Hne & _ & Hctx) Hlast. destruct ch as [h body eof]; cbn in *.
  destruct body as [|l ls]; [done|]. unfold render_change; cbn [ch_header ch_body ch_eof].
  rewrite app_assoc, run_lines_app, header_body_steps by done.
  destruct (body_nonempty (header_chunk h) l ls) as [Hn He].
  unfold denote_change; cbn [ch_header ch_body ch_eof]. destruct eof; cbn [run_lines].
  - rewrite eof_step by done. eauto.
  - eauto.
Qed.

Lemma changes_steps chs mv cs ln :
  (cs = [] ∨ Forall (λ c, ch_header c ≠ NoHeader) chs) →
  Forall (λ c, ch_header c ≠ NoHeader) (tail chs) →
  Forall change_ok chs → last_is chunk_has_no_lines cs = false →
  ∃ ln', run_lines (upd mv cs ln) (concat (map render_change chs))
         = (upd mv (cs ++ map denote_change chs) ln', Ok tt)
    ∧ last_is chunk_has_no_lines (cs ++ map denote_change chs) = false.
Proof.
  intros Hfirst Htail Hok. revert cs ln Hfirst Htail.
  induction Hok as [|ch chs Hch Hchs IH]; intros cs ln Hfirst Htail Hlast.
  { cbn. rewrite app_nil_r. eauto. }
  cbn [map concat]. rewrite run_lines_app.
  destruct (change_steps ch mv cs ln) as (ln1 & -> & Hn); [|done..|].
  { intros HNo. destruct Hfirst as [|Hf]; [done|]. by inversion Hf. }
  destruct (IH (cs ++ [denote_change ch]) ln1) as (ln2 & -> & ?).
  - by right.
  - by destruct chs as [|? ?]; [|inversion Htail].
  - by rewrite last_is_snoc.
  - rewrite <- app_assoc in *. eauto.
Qed.
End update_hunk.

(** ** Hunks *)

(** The parser between two hunks: a header line is welcome. *)
Definition ready (p : StreamingPatchParser) : Prop :=
  line_buffer p = [] ∧ mode p ≠ ModeNotStarted ∧ mode p ≠ ModeEndedPatch
  ∧ ∀ line, ensure_update_hunk_is_not_empty p line = Ok tt.

Lemma ready_bump p line : ready p → ensure_update_hunk_is_not_empty (bump p) line = Ok tt.
Proof.
  intros (_ & _ & _ & Hens). specialize (Hens line). revert Hens.
  unfold ensure_update_hunk_is_not_empty, bump; cbn.
  by repeat case_match.
Qed.

Lemma header_step p h new_hunks m :
  ready p → header_action h (S (line_number p)) = Some (new_hunks, m) →
  trim h = h → trim_end h = h → strip_prefix ENVIRONMENT_ID_MARKER h = None →
  process_line (bump p) h
  = (mkParser [] m (hunks p ++ new_hunks) (environment_id p) (S (line_number p)), Ok tt).
Proof.
  intros Hready Hact Htrim Htrim_end Henv.
  assert (Hh : handle_hunk_headers_and_end_patch (bump p) h
    = (mkParser [] m (hunks p ++ new_hunks) (environment_id p) (S (line_number p)), Ok true)).
  { unfold handle_hunk_headers_and_end_patch. rewrite Henv, ready_bump by done. cbn.
    rewrite Hact. by destruct (mode p). }
  destruct Hready as (_ & ? & ? & _).
  unfold process_line. rewrite Htrim, Htrim_end, Hh. cbn. by destruct (mode p).
Qed.

(** A marker followed by a name is not changed by trimming. *)
Lemma marker_trim c m name :
  is_whitespace c = false → name_ok name →
  trim ((c :: m) ++ name) = (c :: m) ++ name ∧ trim_end ((c :: m) ++ name) = (c :: m) ++ name.
Proof.
  intros Hc [_ (s & d & -> & Hd)]. rewrite app_assoc. cbn [app].
  rewrite trim_cons by done. change (c :: (m ++ s) ++ [d]) with ((c :: m ++ s) ++ [d]).
  by rewrite trim_end_snoc.
Qed.

Lemma add_lines_steps env hs path contents ls n :
  run_lines (mkParser [] ModeAddFile (hs ++ [AddFile path contents]) env n) (map (cons PLUS) ls)
  = (mkParser [] ModeAddFile
       (hs ++ [AddFile path (contents ++ concat (map (λ s, s ++ [LF]) ls))]) env (n + length ls),
     Ok tt).
Proof.
  revert contents n. induction ls as [|l ls IH]; intros contents n; cbn [map run_lines concat length].
  { by rewrite app_nil_r, Nat.add_0_r. }
  assert (Hstep : process_line (bump (mkParser [] ModeAddFile (hs ++ [AddFile path contents]) env n))
                    (PLUS :: l)
    = (mkParser [] ModeAddFile (hs ++ [AddFile path (contents ++ l ++ [LF])]) env (S n), Ok tt)).
  { unfold process_line, handle_hunk_headers_and_end_patch. cbn [mode bump line_number].
    rewrite trim_cons by done.
    destruct (text_line_not_marker PLUS l (S n)) as [Hhead _]; [by right; left|].
    cbn [mode bump line_number]. rewrite Hhead. cbn. rewrite last_snoc. by rewrite set_last_snoc. }
  rewrite Hstep, IH, <- !app_assoc. f_equal. f_equal. lia.
Qed.

Lemma hunk_steps p h :
  ready p → hunk_ok h →
  ∃ p', run_lines p (render_hunk h) = (p', Ok tt) ∧ ready p'
    ∧ hunks p' = hunks p ++ [denote_hunk h] ∧ environment_id p' = environment_id p.
Proof.
  intros Hp Hok. destruct h as [path contents|path|path mv chs]; cbn [render_hunk run_lines].
  - destruct Hok as [Hpath _].
    destruct (marker_trim 42%N (tail ADD_FILE_MARKER) path eq_refl Hpath) as [Ht1 Ht2].
    rewrite (header_step p _ [AddFile path []] ModeAddFile) by done.
    rewrite add_lines_steps. eexists. split; [done|]. repeat split; try done.
    intros line. unfold ensure_update_hunk_is_not_empty. cbn. by rewrite last_snoc.
  - destruct (marker_trim 42%N (tail DELETE_FILE_MARKER) path eq_refl Hok) as [Ht1 Ht2].
    rewrite (header_step p _ [DeleteFile path] ModeDeleteFile) by done.
    eexists. split; [done|]. repeat split; try done.
    intros line. unfold ensure_update_hunk_is_not_empty. cbn. by rewrite last_snoc.
  - destruct Hok as (Hpath & Hmv & Hne & Hchs & Htail).
    destruct (marker_trim 42%N (tail UPDATE_FILE_MARKER) path eq_refl Hpath) as [Ht1 Ht2].
    set (n := S (line_number p)).
    rewrite (header_step p _ [UpdateFile path None []] (ModeUpdateFile n)) by done. fold n.
    change (mkParser [] (ModeUpdateFile n) (hunks p ++ [UpdateFile path None []]) (environment_id p) n)
      with (upd_state (environment_id p) n (hunks p) path None [] n).
    assert (Hmove : ∃ ln, run_lines (upd_state (environment_id p) n (hunks p) path None [] n)
        (render_move mv) = (upd_state (environment_id p) n (hunks p) path mv [] ln, Ok tt)).
    { destruct mv as [d|]; [|eauto]. cbn [render_move run_lines].
      destruct (marker_trim 42%N (tail MOVE_TO_MARKER) d eq_refl (Hmv d eq_refl)) as [_ Hd].
      change (42%N :: list.tail MOVE_TO_MARKER) with MOVE_TO_MARKER in Hd.
      exists (S n). rewrite (upd_line _ _ _ _ None [] n _ (Some d) []); [done|by rewrite Hd|].
      rewrite Hd. unfold update_file_line. cbn [last_is andb]. by rewrite strip_prefix_app. }
    destruct Hmove as [ln Hmove]. rewrite run_lines_app, Hmove.
    destruct (changes_steps (environment_id p) n (hunks p) path chs mv [] ln)
      as (ln' & Hrun & Hlast); [by left|done|done|done|].
    rewrite Hrun. eexists. split; [done|]. repeat split; try done. intros line.
    unfold ensure_update_hunk_is_not_empty. cbn. rewrite last_snoc. cbn in Hlast. rewrite Hlast.
    by destruct chs.
Qed.

Lemma hunks_steps p hs :
  ready p → Forall hunk_ok hs →
  ∃ p', run_lines p (concat (map render_hunk hs)) = (p', Ok tt) ∧ ready p'
    ∧ hunks p' = hunks p ++ map denote_hunk hs ∧ environment_id p' = environment_id p.
Proof.
  intros Hp Hok. revert p Hp. induction Hok as [|h hs Hh Hhs IH]; intros p Hp; cbn [map concat].
  { exists p. rewrite app_nil_r. done. }
  destruct (hunk_steps p h Hp Hh) as (p1 & Hrun1 & Hp1 & Hh1 & He1).
  destruct (IH p1 Hp1) as (p2 & Hrun2 & Hp2 & Hh2 & He2).
  exists p2. rewrite run_lines_app, Hrun1. split; [done|]. split; [done|].
  rewrite Hh2, Hh1, <- app_assoc, He2, He1. done.
Qed.

(** ** The lines of a rendered patch *)

Lemma text_ok_cons c s : c ≠ LF → c ≠ CR → text_ok s → text_ok (c :: s).
Proof.
  intros Hlf Hcr [Hs Hlast]. split; [by constructor|]. by destruct s; [intros [= ->]|].
Qed.

Lemma text_ok_name m s : no_lf m → name_ok s → text_ok (m ++ s).
Proof.
  intros Hm [Hs (s' & c & -> & Hc)]. split; [by apply no_lf_app|].
  rewrite app_assoc, last_snoc. by intros [= ->].
Qed.

Lemma text_ok_dec s : bool_decide (no_lf s ∧ last s ≠ Some CR) = true → text_ok s.
Proof. by intros ?%bool_decide_eq_true. Qed.

Lemma no_lf_dec s : bool_decide (no_lf s) = true → no_lf s.
Proof. by intros ?%bool_decide_eq_true. Qed.

Lemma render_change_text_ok c : change_ok c → Forall text_ok (render_change c).
Proof.
  intros (_ & Hbody & Hctx). unfold render_change. rewrite !Forall_app. split; [|split].
  - destruct (ch_header c) as [| |ctx]; [done| |].
    + by repeat constructor.
    + constructor; [|done]. apply text_ok_name; [|by apply Hctx]. by apply no_lf_dec.
  - apply Forall_fmap. eapply Forall_impl; [|exact Hbody]. intros l Hl.
    destruct l; by apply text_ok_cons.
  - destruct (ch_eof c); [|done]. constructor; [|done]. by apply text_ok_dec.
Qed.

Lemma render_hunk_text_ok h : hunk_ok h → Forall text_ok (render_hunk h).
Proof.
  destruct h as [path contents|path|path mv chs]; cbn.
  - intros [Hpath Hc]. constructor; [apply text_ok_name; [by apply no_lf_dec|done]|].
    apply Forall_fmap. eapply Forall_impl; [|exact Hc]. intros l Hl. by apply text_ok_cons.
  - intros Hpath. constructor; [apply text_ok_name; [by apply no_lf_dec|done]|done].
  - intros (Hpath & Hmv & _ & Hchs & _). constructor; [apply text_ok_name; [by apply no_lf_dec|done]|].
    apply Forall_app. split.
    + destruct mv as [d|]; [|done]. constructor; [|done].
      apply text_ok_name; [by apply no_lf_dec|by apply Hmv].
    + clear -Hchs. induction Hchs; cbn; [done|]. apply Forall_app; split; [|done].
      by apply render_change_text_ok.
Qed.

Lemma render_lines_text_ok t : tree_ok t → Forall text_ok (render_lines t).
Proof.
  intros [Henv Hhs]. unfold render_lines. constructor; [by apply text_ok_dec|].
  rewrite !Forall_app. split; [|split].
  - destruct (pt_environment t) as [id|]; [|done]. constructor; [|done].
    change (SPACE :: id) with ([SPACE] ++ id). rewrite app_assoc.
    apply text_ok_name; [by apply no_lf_dec|by apply Henv].
  - clear Henv. induction Hhs; cbn; [done|]. apply Forall_app; split; [|done].
    by apply render_hunk_text_ok.
  - constructor; [|done]. by apply text_ok_dec.
Qed.

(** ** Round trip *)

Lemma preamble_steps t :
  tree_ok t →
  ∃ p, run_lines default_parser (BEGIN_PATCH_MARKER :: render_environment (pt_environment t)) = (p, Ok tt)
    ∧ ready p ∧ hunks p = [] ∧ environment_id p = pt_environment t.
Proof.
  intros [Henv _]. destruct (pt_environment t) as [id|]; [|by eexists].
  destruct (Henv id eq_refl) as [Hid Htrim].
  set (p1 := mkParser [] ModeStartedPatch [] None 1).
  change (run_lines default_parser (BEGIN_PATCH_MARKER :: render_environment (Some id)))
    with (run_lines p1 [ENVIRONMENT_ID_MARKER ++ SPACE :: id]).
  change (ENVIRONMENT_ID_MARKER ++ SPACE :: id)
    with ((42%N :: list.tail ENVIRONMENT_ID_MARKER ++ [SPACE]) ++ id).
  destruct (marker_trim 42%N (list.tail ENVIRONMENT_ID_MARKER ++ [SPACE]) id eq_refl Hid) as [Ht _].
  assert (Hsp : trim (SPACE :: id) = id) by (rewrite <- Htrim at 2; done).
  assert (Hne : id ≠ []) by (destruct Hid as [_ (s & c & -> & _)]; by destruct s).
  cbn [run_lines]. unfold process_line, handle_hunk_headers_and_end_patch. cbn [mode bump p1].
  rewrite Ht. cbn [mode bump p1].
  change (strip_prefix ENVIRONMENT_ID_MARKER
    ((42%N :: list.tail ENVIRONMENT_ID_MARKER ++ [SPACE]) ++ id)) with (Some (SPACE :: id)).
  cbn. rewrite Hsp, bool_decide_eq_false_2 by done. by eexists.
Qed.

Lemma finish_end_marker p :
  ready p →
  finish (mkParser END_PATCH_MARKER (mode p) (hunks p) (environment_id p) (line_number p))
  = (set_mode (bump p) ModeEndedPatch, Ok (hunks p)).
Proof.
  intros Hp. pose proof (λ line, ready_bump p line Hp) as Hens. unfold finish.
  cbn [line_buffer mode hunks environment_id line_number]. fold (bump p).
  destruct END_PATCH_MARKER as [|c m] eqn:E; [done|]. rewrite <- E.
  rewrite Hens. by rewrite (bool_decide_eq_true_2 (trim END_PATCH_MARKER = END_PATCH_MARKER)).
Qed.

Lemma render_lines_snoc t :
  render_lines t =
  (BEGIN_PATCH_MARKER :: render_environment (pt_environment t)
     ++ concat (map render_hunk (pt_hunks t))) ++ [END_PATCH_MARKER].
Proof. unfold render_lines. cbn. by rewrite <- app_assoc. Qed.

Lemma render_patch_trim t : trim (render_patch t) = render_patch t.
Proof.
  unfold render_patch. rewrite render_lines_snoc, join_snoc by done.
  set (init := BEGIN_PATCH_MARKER :: _).
  assert (∃ s, join [LF] init = 42%N :: s) as [s ->].
  { unfold init. destruct (render_environment _ ++ _); by eexists. }
  cbn [app]. rewrite trim_cons by done.
  change END_PATCH_MARKER with (removelast END_PATCH_MARKER ++ [104%N]).
  replace (42%N :: s ++ LF :: removelast END_PATCH_MARKER ++ [104%N])
    with ((42%N :: s ++ LF :: removelast END_PATCH_MARKER) ++ [104%N])
    by (cbn [app]; by rewrite <- app_assoc).
  by apply trim_end_snoc.
Qed.

(** The parser after the text of a patch. *)
Lemma push_rendered t : tree_ok t →
  ∃ p, push_chars default_parser (render_patch t) = (p, Ok tt)
    ∧ hunks p = map denote_hunk (pt_hunks t)
    ∧ ∃ p', finish p = (p', Ok (map denote_hunk (pt_hunks t))) ∧ environment_id p' = pt_environment t.
Proof.
  intros Hok. pose proof (render_lines_text_ok t Hok) as Htext.
  pose proof (render_lines_snoc t) as Hlines. set (init := BEGIN_PATCH_MARKER :: _) in Hlines.
  assert (Hlf : Forall no_lf (render_lines t)) by (eapply Forall_impl; [|exact Htext]; by intros ? []).
  assert (Hcr : Forall (λ l, strip_cr l = l) (render_lines t)).
  { eapply Forall_impl; [|exact Htext]. intros l [_ ?]. by apply strip_cr_no_cr. }
  destruct (preamble_steps t Hok) as (p1 & Hrun1 & Hp1 & Hh1 & He1).
  destruct (hunks_steps p1 (pt_hunks t) Hp1 (proj2 Hok)) as (p2 & Hrun2 & Hp2 & Hh2 & He2).
  assert (Hrun : run_lines default_parser init = (p2, Ok tt)).
  { unfold init. rewrite app_comm_cons, run_lines_app, Hrun1. done. }
  unfold render_patch. rewrite Hlines in *. rewrite push_chars_lines, Hrun by done.
  assert (Hh : hunks p2 = map denote_hunk (pt_hunks t)) by by rewrite Hh2, Hh1.
  eexists. split; [done|]. split; [done|]. rewrite finish_end_marker, Hh by done.
  eexists. split; [done|]. cbn. by rewrite He2, He1.
Qed.

(** C1: every patch written by the grammar is parsed back to the hunks it denotes:
    for every well-formed syntax tree, parsing its text yields the denoted hunks,
    the environment id and the unchanged patch text. *)
Theorem parse_render_roundtrip t :
  tree_ok t →
  parse_patch (render_patch t)
  = Ok (mkArgs (render_patch t) (map denote_hunk (pt_hunks t)) None (pt_environment t)).
Proof.
  intros Hok. pose proof (render_lines_text_ok t Hok) as Htext.
  pose proof (render_lines_snoc t) as Hlines.
  assert (Hlf : Forall no_lf (render_lines t)) by (eapply Forall_impl; [|exact Htext]; by intros ? []).
  assert (Hcr : Forall (λ l, strip_cr l = l) (render_lines t)).
  { eapply Forall_impl; [|exact Htext]. intros l [_ ?]. by apply strip_cr_no_cr. }
  unfold parse_patch, parse_patch_text. cbn [PARSE_IN_STRICT_MODE].
  rewrite render_patch_trim. unfold render_patch at 1. rewrite lines_join; [|done|done|done|].
  2: { rewrite Hlines, last_snoc. done. }
  assert (Hb : check_patch_boundaries_lenient (render_lines t) = Ok (render_lines t)).
  { unfold check_patch_boundaries_lenient, check_patch_boundaries_strict.
    rewrite Hlines at 2. rewrite last_snoc. done. }
  rewrite Hb. cbn [rbind]. fold (render_patch t).
  destruct (push_rendered t Hok) as (p & Hp & Hh & p' & Hfin & Henv).
  unfold push_delta. rewrite Hp. cbn [rbind]. rewrite Hfin. cbn. by rewrite Henv.
Qed.

(** C32: streaming the text of a patch, cut into any fragments, succeeds: every push
    returns hunks, these only grow towards the hunks of the patch (the last hunk and its
    last chunk are completed, then others follow), and at the end the parser returns the
    hunks and the environment the patch denotes. *)
Theorem streamed_patch_grows t fragments :
  tree_ok t → concat fragments = render_patch t →
  (∀ before after, fragments = before ++ after →
     ∃ p hs, push_all default_parser before = (p, Ok hs)
       ∧ grows hunk_grows hs (map denote_hunk (pt_hunks t)))
  ∧ ∃ p p' hs, push_all default_parser fragments = (p, Ok hs)
      ∧ finish p = (p', Ok (map denote_hunk (pt_hunks t))) ∧ environment_id p' = pt_environment t.
Proof.
  intros Hok Hf. destruct (push_rendered t Hok) as (p & Hp & Hh & p' & Hfin & Henv). split.
  - intros before after ->. rewrite concat_app in Hf. rewrite push_all_concat. unfold push_delta.
    rewrite <- Hf, push_chars_app in Hp.
    destruct (push_chars default_parser (concat before)) as [q [[]|e]]; [|done].
    eexists _, _. split; [done|]. rewrite <- Hh.
    pose proof (push_chars_grows q (concat after)) as Hg. by rewrite Hp in Hg.
  - exists p, p', (hunks p). rewrite push_all_concat, Hf. unfold push_delta. by rewrite Hp.
Qed.

(** A patch with every kind of hunk. *)
Definition sample_tree : patch_tree :=
  mkPatch (Some (lit "env"))
    [ AddHunk (lit "new.txt") [lit "one"; lit "two"];
      DeleteHunk (lit "old.txt");
      UpdateHunk (lit "a.txt") (Some (lit "b.txt"))
        [ mkChange (ContextHeader (lit "fn main")) [ContextLine (lit "x"); RemovedLine (lit "y")] false;
          mkChange EmptyHeader [AddedLine (lit "z")] true ] ].

Lemma name_ok_snoc s c : no_lf (s ++ [c]) → is_whitespace c = false → name_ok (s ++ [c]).
Proof. intros. split; [done|]. by exists s, c. Qed.

Ltac solve_name :=
  match goal with |- name_ok ?s =>
    let t := eval vm_compute in s in change (name_ok t);
    let i := eval cbn in (removelast t) in let c := eval cbn in (List.last t 0%N) in
    change (name_ok (i ++ [c])); apply name_ok_snoc; [repeat constructor; done | reflexivity]
  end.

Lemma sample_tree_ok : tree_ok sample_tree.
Proof.
  split.
  - intros id [= <-]. split; [solve_name|vm_compute; reflexivity].
  - repeat first [progress cbn [hunk_ok] | solve_name | done
      | progress intros; simplify_eq/=; solve_name | constructor].
Qed.

Lemma parse_render_roundtrip_witness :
  tree_ok sample_tree
  ∧ parse_patch (render_patch sample_tree)
    = Ok (mkArgs (render_patch sample_tree) (map denote_hunk (pt_hunks sample_tree)) None
            (pt_environment sample_tree)).
Proof.
  split; [exact sample_tree_ok|]. exact (parse_render_roundtrip sample_tree sample_tree_ok).
Defined.

Lemma streamed_patch_grows_witness :
  ∃ p hs, push_all default_parser [take 40 (render_patch sample_tree)] = (p, Ok hs)
    ∧ grows hunk_grows hs (map denote_hunk (pt_hunks sample_tree)).
Proof.
  apply (proj1 (streamed_patch_grows sample_tree
    [take 40 (render_patch sample_tree); drop 40 (render_patch sample_tree)]
    sample_tree_ok ltac:(vm_compute; reflexivity)) _ [drop 40 (render_patch sample_tree)]).
  reflexivity.
Defined.
