(* ===== verification/PatchApply.v ===== *)
(** * Applying update chunks to a file's lines: [apply-patch/src/lib.rs]

    [compute_replacements] locates every chunk of an update hunk in the file and
    [apply_replacements] rewrites the located regions.  As in [SeekSequence], the
    outer [option] is [None] where the Rust code would panic. *)

From Stdlib Require Import String.
From stdpp Require Import base option list numbers sorting.
From S2P Require Import Prelude SeekSequence PatchParser PatchParserFacts.

(** [std::io::ErrorKind], as far as the code distinguishes it. *)
Inductive IoErrorKind : Type := NotFound | InvalidInput | OtherKind.

Record IoSource : Type := mkIoError { io_kind : IoErrorKind; io_message : str }.

Inductive ApplyPatchError : Type :=
| ParseErr (e : ParseError)
| IoErr (context : str) (source : IoSource)
| ComputeReplacements (message : str)
| PathUriErr (message : str)
| ImplicitInvocation.

(** [(start_index, old_len, new_lines)]. *)
Definition Replacement : Type := nat * nat * list str.
Definition rep_start (r : Replacement) : nat := r.1.1.
Definition rep_len (r : Replacement) : nat := r.1.2.
Definition rep_lines (r : Replacement) : list str := r.2.

Definition is_empty_str (s : str) : bool := s ==s [].

(** The context line of a chunk: where to continue from. *)
Definition seek_context (original_lines : list str) (path : str) (line_index : nat)
    (chunk : UpdateFileChunk) : option (result ApplyPatchError nat) :=
  match change_context chunk with
  | None => Some (Ok line_index)
  | Some ctx_line =>
      found ← seek_sequence original_lines [ctx_line] line_index false;
      match found with
      | Some idx => Some (Ok (idx + 1))
      | None => Some (Err (ComputeReplacements
                  (lit "Failed to find context '" ++ ctx_line ++ lit "' in " ++ path)))
      end
  end.

(** The old lines of a chunk: the region to replace and its replacement, and the
    line index to continue from. *)
Definition seek_old_lines (original_lines : list str) (path : str) (line_index : nat)
    (chunk : UpdateFileChunk) : option (result ApplyPatchError (Replacement * nat)) :=
  let pattern := old_lines chunk in
  let new_slice := new_lines chunk in
  found ← seek_sequence original_lines pattern line_index (is_end_of_file chunk);
  '(found, pattern, new_slice) ←
    match found with
    | None =>
        if last_is is_empty_str pattern then
          let pattern := removelast pattern in
          let new_slice :=
            if last_is is_empty_str new_slice then removelast new_slice else new_slice in
          found ← seek_sequence original_lines pattern line_index (is_end_of_file chunk);
          Some (found, pattern, new_slice)
        else Some (found, pattern, new_slice)
    | Some _ => Some (found, pattern, new_slice)
    end;
  match found with
  | Some start_idx =>
      Some (Ok ((start_idx, length pattern, new_slice), start_idx + length pattern))
  | None =>
      Some (Err (ComputeReplacements
        (lit "Failed to find expected lines in " ++ path ++ lit ":" ++ [LF]
         ++ join [LF] (old_lines chunk))))
  end.

(** One iteration of the loop over the chunks. *)
Definition compute_chunk (original_lines : list str) (path : str) (line_index : nat)
    (chunk : UpdateFileChunk) : option (result ApplyPatchError (Replacement * nat)) :=
  r ← seek_context original_lines path line_index chunk;
  match r with
  | Err e => Some (Err e)
  | Ok line_index =>
      if bool_decide (old_lines chunk = []) then
        let insertion_idx :=
          if last_is is_empty_str original_lines then length original_lines - 1
          else length original_lines in
        Some (Ok ((insertion_idx, 0, new_lines chunk), line_index))
      else seek_old_lines original_lines path line_index chunk
  end.

Fixpoint compute_loop (original_lines : list str) (path : str) (line_index : nat)
    (chunks : list UpdateFileChunk) : option (result ApplyPatchError (list Replacement)) :=
  match chunks with
  | [] => Some (Ok [])
  | chunk :: chunks' =>
      r ← compute_chunk original_lines path line_index chunk;
      match r with
      | Err e => Some (Err e)
      | Ok (rep, line_index') =>
          rest ← compute_loop original_lines path line_index' chunks';
          Some (let? reps := rest in Ok (rep :: reps))
      end
  end.

(** [sort_by_key(|(index, _, _)| *index)], a stable sort. *)
Fixpoint insert_by_start (r : Replacement) (rs : list Replacement) : list Replacement :=
  match rs with
  | [] => [r]
  | r' :: rs' => if rep_start r <=? rep_start r' then r :: rs else r' :: insert_by_start r rs'
  end.

Definition sort_by_start (rs : list Replacement) : list Replacement :=
  foldr insert_by_start [] rs.

Definition compute_replacements (original_lines : list str) (path : str)
    (chunks : list UpdateFileChunk) : option (result ApplyPatchError (list Replacement)) :=
  r ← compute_loop original_lines path 0 chunks;
  Some (let? reps := r in Ok (sort_by_start reps)).

(** [for _ in 0..old_len { if start_idx < lines.len() { lines.remove(start_idx); } }] *)
Fixpoint remove_lines (ls : list str) (start_idx old_len : nat) : list str :=
  match old_len with
  | O => ls
  | S n => remove_lines (if start_idx <? length ls then delete start_idx ls else ls) start_idx n
  end.

(** [Vec::insert], which panics past the end. *)
Definition vec_insert (ls : list str) (i : nat) (x : str) : option (list str) :=
  if i <=? length ls then Some (take i ls ++ x :: drop i ls) else None.

Fixpoint insert_lines (ls : list str) (i : nat) (new_segment : list str) : option (list str) :=
  match new_segment with
  | [] => Some ls
  | x :: rest => ls' ← vec_insert ls i x; insert_lines ls' (S i) rest
  end.

Definition apply_replacement (ls : list str) (r : Replacement) : option (list str) :=
  insert_lines (remove_lines ls (rep_start r) (rep_len r)) (rep_start r) (rep_lines r).

Definition apply_replacements (ls : list str) (reps : list Replacement) : option (list str) :=
  foldr (λ r acc, ls ← acc; apply_replacement ls r) (Some ls) reps.

(** [derive_new_contents_from_chunks] once the file has been read. *)
Definition file_lines (original_contents : str) : list str :=
  let original_lines := split_char LF original_contents in
  if last_is is_empty_str original_lines then removelast original_lines else original_lines.

Definition contents_of_lines (new_lines : list str) : str :=
  join [LF] (if last_is is_empty_str new_lines then new_lines else new_lines ++ [[]]).

Definition derive_new_contents (original_contents path : str) (chunks : list UpdateFileChunk)
  : option (result ApplyPatchError str) :=
  let original_lines := file_lines original_contents in
  r ← compute_replacements original_lines path chunks;
  match r with
  | Err e => Some (Err e)
  | Ok replacements =>
      new_lines ← apply_replacements original_lines replacements;
      Some (Ok (contents_of_lines new_lines))
  end.

(** ** Specification *)

(** The region a chunk's old lines were located at.  The chunk's lines are used
    as they are, or without the empty line that stands for the file's final
    newline. *)
Definition chunk_sides (c : UpdateFileChunk) (pattern new_slice : list str) : Prop :=
  (old_lines c = pattern ∧ new_lines c = new_slice)
  ∨ (old_lines c = pattern ++ [[]]
     ∧ (new_lines c = new_slice ∨ new_lines c = new_slice ++ [[]])).

Definition matches_somehow (ls pattern : list str) (i : nat) : Prop :=
  ∃ f, f ∈ levels ∧ block_matches f ls pattern i.

Definition context_found (ls : list str) (lo hi : nat) (ctx : option str) : Prop :=
  match ctx with
  | None => True
  | Some l => ∃ idx, lo ≤ idx < hi ∧ matches_somehow ls [l] idx
  end.

Definition chunk_region (ls : list str) (c : UpdateFileChunk) (r : Replacement) : Prop :=
  ∃ pattern, chunk_sides c pattern (rep_lines r) ∧ rep_len r = length pattern
             ∧ matches_somehow ls pattern (rep_start r).

(** Replacements of consecutive chunks, each found after the previous one. *)
Inductive located (ls : list str) : nat → list UpdateFileChunk → list Replacement → Prop :=
| located_nil lo : located ls lo [] []
| located_cons lo c cs r rs :
    lo ≤ rep_start r →
    (change_context c ≠ None → lo < rep_start r) →
    context_found ls lo (rep_start r) (change_context c) →
    chunk_region ls c r →
    located ls (rep_start r + rep_len r) cs rs →
    located ls lo (c :: cs) (r :: rs).

(** A chunk with old lines and no end-of-file marker. *)
Definition anchored (c : UpdateFileChunk) : Prop :=
  old_lines c ≠ [] ∧ is_end_of_file c = false.

(** Rewriting disjoint regions from left to right; [ls] starts at line [off]. *)
Fixpoint splice (off : nat) (ls : list str) (reps : list Replacement) : list str :=
  match reps with
  | [] => ls
  | r :: rs =>
      take (rep_start r - off) ls ++ rep_lines r
        ++ splice (rep_start r + rep_len r) (drop (rep_start r + rep_len r - off) ls) rs
  end.

(** The text of some lines, each with its line feed. *)
Definition lines_text (ls : list str) : str := concat (map (λ l, l ++ [LF]) ls).

Fixpoint disjoint_from (off : nat) (reps : list Replacement) : Prop :=
  match reps with
  | [] => True
  | r :: rs => off ≤ rep_start r ∧ disjoint_from (rep_start r + rep_len r) rs
  end.

Definition fits (ls : list str) (r : Replacement) : Prop :=
  rep_start r + rep_len r ≤ length ls.

Definition by_start (r r' : Replacement) : Prop := rep_start r ≤ rep_start r'.

(** ** Locating chunks *)

Lemma last_is_true {A} (f : A → bool) l :
  last_is f l = true → ∃ l' x, l = l' ++ [x] ∧ f x = true.
Proof.
  unfold last_is. destruct (last l) as [x|] eqn:Hl; [|done].
  apply last_Some_snoc in Hl as [l' ->]. eauto.
Qed.

Lemma is_empty_str_true s : is_empty_str s = true → s = [].
Proof. apply bool_decide_eq_true_1. Qed.

Lemma matches_somehow_bound ls pattern i :
  matches_somehow ls pattern i → i + length pattern ≤ length ls.
Proof. intros (f & _ & Hm). by eapply block_matches_bound. Qed.

Lemma seek_context_spec ls path li c :
  li ≤ length ls →
  ∃ r, seek_context ls path li c = Some r ∧
    ∀ li', r = Ok li' →
      li ≤ li' ≤ length ls ∧ (change_context c ≠ None → li < li')
      ∧ context_found ls li li' (change_context c).
Proof.
  intros Hli. unfold seek_context, context_found. destruct (change_context c) as [ctx|].
  2:{ eexists. split; [done|]. intros ? [= <-]. by split_and!. }
  destruct (seek_sequence_total ls [ctx] li false) as [[idx|] Hs]; rewrite Hs; cbn [mbind option_bind];
    eexists; (split; [done|]); [|done].
  intros ? [= <-]. destruct (seek_sequence_found _ _ _ _ _ Hli Hs) as [Hm Hge].
  specialize (Hge eq_refl). pose proof (matches_somehow_bound _ _ _ Hm); cbn in *.
  split; [lia|]. split; [lia|]. exists idx. split; [lia|done].
Qed.

Lemma seek_old_lines_spec ls path li c :
  li ≤ length ls →
  ∃ r, seek_old_lines ls path li c = Some r ∧
    ∀ rep li', r = Ok (rep, li') →
      chunk_region ls c rep ∧ li' = rep_start rep + rep_len rep
      ∧ (is_end_of_file c = false → li ≤ rep_start rep).
Proof.
  intros Hli. unfold seek_old_lines.
  assert (Hfin : ∀ pattern new_slice i, chunk_sides c pattern new_slice →
    seek_sequence ls pattern li (is_end_of_file c) = Some (Some i) →
    ∀ rep li', Ok (E := ApplyPatchError) ((i, length pattern, new_slice), i + length pattern)
                 = Ok (rep, li') →
      chunk_region ls c rep ∧ li' = rep_start rep + rep_len rep
      ∧ (is_end_of_file c = false → li ≤ rep_start rep)).
  { intros pattern new_slice i Hsides Hs rep li' [= <- <-].
    destruct (seek_sequence_found _ _ _ _ _ Hli Hs) as [Hm Hge].
    split; [by exists pattern|]. by split. }
  destruct (seek_sequence_total ls (old_lines c) li (is_end_of_file c)) as [[i|] Hs];
    rewrite Hs; cbn [mbind option_bind].
  { eexists. split; [done|]. eapply Hfin; [by left|done]. }
  destruct (last_is is_empty_str (old_lines c)) eqn:Hl; cbn [mbind option_bind];
    [|by eexists].
  apply last_is_true in Hl as (pre & x & Hold & ->%is_empty_str_true).
  rewrite Hold, removelast_snoc.
  destruct (seek_sequence_total ls pre li (is_end_of_file c)) as [[i|] Hs'];
    rewrite Hs'; cbn [mbind option_bind]; [|by eexists].
  eexists. split; [done|]. eapply Hfin; [|done]. right. split; [done|].
  destruct (last_is is_empty_str (new_lines c)) eqn:Hl; [|by left].
  apply last_is_true in Hl as (pre' & x & Hnew & ->%is_empty_str_true).
  rewrite Hnew, removelast_snoc. by right.
Qed.

Lemma chunk_region_fits ls c r : chunk_region ls c r → fits ls r.
Proof.
  intros (pattern & _ & Hlen & Hm%matches_somehow_bound). unfold fits. by rewrite Hlen.
Qed.

(** One chunk: no panic, the replacement lies in the file, and an anchored chunk
    is located after the current line. *)
Lemma compute_chunk_spec ls path li c :
  li ≤ length ls →
  ∃ r, compute_chunk ls path li c = Some r ∧
    ∀ rep li', r = Ok (rep, li') →
      fits ls rep ∧ li' ≤ length ls
      ∧ (anchored c →
           li' = rep_start rep + rep_len rep ∧ li ≤ rep_start rep
           ∧ (change_context c ≠ None → li < rep_start rep)
           ∧ context_found ls li (rep_start rep) (change_context c) ∧ chunk_region ls c rep).
Proof.
  intros Hli. unfold compute_chunk.
  destruct (seek_context_spec ls path li c Hli) as ([li1|e] & -> & Hctx); cbn [mbind option_bind];
    [|by eexists].
  destruct (Hctx li1 eq_refl) as (Hli1 & Hlt & Hfound).
  case_bool_decide as Hold.
  { eexists. split; [done|]. intros rep li' [= <- <-].
    split; [|split; [lia|by intros []]]. unfold fits; cbn. destruct (last_is _ _); lia. }
  destruct (seek_old_lines_spec ls path li1 c ltac:(lia)) as (r & Hr & Hspec).
  exists r. split; [done|]. intros rep li' Heq.
  destruct (Hspec rep li' Heq) as (Hreg & -> & Hge).
  pose proof (chunk_region_fits _ _ _ Hreg) as Hfits.
  split; [done|]. split; [done|]. intros [_ Heof]. specialize (Hge Heof).
  split; [done|]. split; [lia|]. split; [intros; apply Hlt in H; lia|]. split; [|done].
  unfold context_found in *. destruct (change_context c); [|done].
  destruct Hfound as (idx & ? & ?). exists idx. split; [lia|done].
Qed.

Lemma compute_loop_spec ls path li cs :
  li ≤ length ls →
  ∃ r, compute_loop ls path li cs = Some r ∧
    ∀ reps, r = Ok reps →
      Forall (fits ls) reps ∧ (Forall anchored cs → located ls li cs reps).
Proof.
  revert li. induction cs as [|c cs IH]; intros li Hli; cbn [compute_loop].
  { eexists. split; [done|]. intros ? [= <-]. split; constructor. }
  destruct (compute_chunk_spec ls path li c Hli) as ([[rep li']|e] & -> & Hc);
    cbn [mbind option_bind]; [|by eexists].
  destruct (Hc rep li' eq_refl) as (Hfits & Hli' & Hanch).
  destruct (IH li' Hli') as ([rest|e] & -> & Hrest); cbn [mbind option_bind rbind]; [|by eexists].
  eexists. split; [done|]. intros ? [= <-]. destruct (Hrest rest eq_refl) as [Hall Hloc].
  split; [by constructor|]. intros [Hc1 Hcs]%Forall_cons_1.
  destruct (Hanch Hc1) as (-> & ? & ? & ? & ?). constructor; auto.
Qed.

(** ** The sort *)

Lemma insert_by_start_perm r rs : insert_by_start r rs ≡ₚ r :: rs.
Proof.
  induction rs as [|r' rs IH]; cbn; [done|]. destruct (_ <=? _); [done|].
  rewrite IH. constructor.
Qed.

Lemma sort_by_start_perm rs : sort_by_start rs ≡ₚ rs.
Proof. induction rs as [|r rs IH]; cbn; [done|]. by rewrite insert_by_start_perm, IH. Qed.

Lemma insert_by_start_sorted r rs :
  StronglySorted by_start rs → StronglySorted by_start (insert_by_start r rs).
Proof.
  induction 1 as [|r' rs Hs IH Hall]; cbn; [by repeat constructor|].
  destruct (Nat.leb_spec (rep_start r) (rep_start r')).
  - constructor; [by constructor|]. constructor; [done|].
    apply (Forall_impl _ _ _ Hall). unfold by_start; intros; lia.
  - constructor; [done|]. rewrite insert_by_start_perm. constructor; [unfold by_start; lia|done].
Qed.

Lemma sort_by_start_sorted rs : StronglySorted by_start (sort_by_start rs).
Proof. induction rs; cbn; [constructor|by apply insert_by_start_sorted]. Qed.

Lemma sort_by_start_id rs : StronglySorted by_start rs → sort_by_start rs = rs.
Proof.
  induction 1 as [|r rs Hs IH Hall]; cbn; [done|].
  fold (sort_by_start rs). rewrite IH.
  destruct rs as [|r' rs]; [done|]. cbn.
  destruct (Nat.leb_spec (rep_start r) (rep_start r')); [done|].
  apply Forall_cons_1 in Hall as [Hle _]. unfold by_start in Hle. lia.
Qed.

Lemma disjoint_from_sorted off reps :
  disjoint_from off reps →
  StronglySorted by_start reps ∧ Forall (λ r, off ≤ rep_start r) reps.
Proof.
  revert off. induction reps as [|r rs IH]; intros off; [by repeat constructor|].
  intros [Hoff Hd]. destruct (IH _ Hd) as [Hs Hall]. split; constructor; [done| |done|].
  - apply (Forall_impl _ _ _ Hall). unfold by_start; cbn; intros; lia.
  - apply (Forall_impl _ _ _ Hall). cbn; intros; lia.
Qed.

Lemma located_disjoint ls lo cs reps : located ls lo cs reps → disjoint_from lo reps.
Proof. induction 1; cbn; auto. Qed.

(** ** Rewriting *)

Lemma remove_lines_eq ls start n :
  remove_lines ls start n = take start ls ++ drop (start + n) ls.
Proof.
  revert ls. induction n as [|n IH]; intros ls; cbn [remove_lines].
  { rewrite Nat.add_0_r. by rewrite take_drop. }
  rewrite IH. destruct (Nat.ltb_spec start (length ls)).
  - rewrite delete_take_drop. rewrite take_app_le by (rewrite length_take; lia).
    rewrite take_take, Nat.min_id. f_equal.
    rewrite drop_app_ge by (rewrite length_take; lia). rewrite length_take, drop_drop.
    f_equal. lia.
  - by rewrite !(drop_ge ls) by lia.
Qed.

Lemma insert_lines_eq ls i new :
  i ≤ length ls → insert_lines ls i new = Some (take i ls ++ new ++ drop i ls).
Proof.
  revert ls i. induction new as [|x new IH]; intros ls i Hi; cbn [insert_lines].
  { cbn. by rewrite take_drop. }
  unfold vec_insert. rewrite (proj2 (Nat.leb_le _ _) Hi). cbn [mbind option_bind].
  rewrite IH by (rewrite length_app, length_take; cbn; lia).
  f_equal. rewrite take_app_ge, drop_app_ge by (rewrite length_take; lia).
  rewrite !length_take. replace (S i - i `min` length ls) with 1 by lia. cbn.
  by rewrite <- app_assoc.
Qed.

Lemma apply_replacement_eq ls r :
  rep_start r ≤ length ls →
  apply_replacement ls r
  = Some (take (rep_start r) ls ++ rep_lines r ++ drop (rep_start r + rep_len r) ls).
Proof.
  intros Hs. unfold apply_replacement. rewrite remove_lines_eq.
  rewrite insert_lines_eq by (rewrite length_app, length_take; lia).
  rewrite take_app_le, drop_app_ge by (rewrite length_take; lia).
  rewrite take_take, Nat.min_id, length_take. do 3 f_equal.
  by replace (rep_start r - rep_start r `min` length ls) with 0 by lia.
Qed.

Lemma apply_replacements_cons ls r rs :
  apply_replacements ls (r :: rs) = ls' ← apply_replacements ls rs; apply_replacement ls' r.
Proof. done. Qed.

(** Replacements in order of their start never panic, and leave the lines before
    the first of them alone. *)
Lemma apply_replacements_total ls reps :
  StronglySorted by_start reps → Forall (λ r, rep_start r ≤ length ls) reps →
  ∃ ls', apply_replacements ls reps = Some ls' ∧
    ∀ k, k ≤ length ls → Forall (λ r, k ≤ rep_start r) reps →
         k ≤ length ls' ∧ take k ls' = take k ls.
Proof.
  induction 1 as [|r rs Hs IH Hall]; intros Hfit; [by eexists|].
  rewrite apply_replacements_cons.
  apply Forall_cons_1 in Hfit as [Hr Hfit]. destruct (IH Hfit) as (ls1 & -> & Hpre).
  destruct (Hpre (rep_start r) Hr Hall) as [Hlen Htake]. cbn [mbind option_bind].
  eexists. split; [by apply apply_replacement_eq|].
  intros k Hk [Hkr _]%Forall_cons_1. rewrite Htake. split.
  - rewrite length_app, length_take. lia.
  - rewrite take_app_le by (rewrite length_take; lia). rewrite take_take. f_equal. lia.
Qed.

Lemma apply_replacements_splice ls off reps :
  off ≤ length ls → disjoint_from off reps → Forall (fits ls) reps →
  apply_replacements ls reps = Some (take off ls ++ splice off (drop off ls) reps).
Proof.
  revert off. induction reps as [|r rs IH]; intros off Hoff Hd Hfit.
  { cbn. by rewrite take_drop. }
  rewrite apply_replacements_cons. cbn [splice].
  destruct Hd as [Hle Hd]. apply Forall_cons_1 in Hfit as [Hr Hfit]. unfold fits in Hr.
  rewrite (IH _ Hr Hd Hfit). cbn [mbind option_bind].
  rewrite apply_replacement_eq by (rewrite length_app, length_take; lia).
  rewrite take_app_le, drop_app_ge by (rewrite length_take; lia).
  rewrite take_take, length_take, drop_drop.
  replace (off + (rep_start r + rep_len r - off)) with (rep_start r + rep_len r) by lia.
  replace (rep_start r + rep_len r - (rep_start r + rep_len r) `min` length ls) with 0 by lia.
  rewrite drop_0, (app_assoc (take off ls)), take_take_drop.
  by replace (off + (rep_start r - off)) with (rep_start r `min` (rep_start r + rep_len r)) by lia.
Qed.

(** ** The whole update *)

Lemma compute_replacements_spec ls path cs :
  ∃ r, compute_replacements ls path cs = Some r ∧
    ∀ reps, r = Ok reps →
      StronglySorted by_start reps ∧ Forall (fits ls) reps
      ∧ (Forall anchored cs → located ls 0 cs reps).
Proof.
  unfold compute_replacements.
  destruct (compute_loop_spec ls path 0 cs ltac:(lia)) as (r & -> & Hr). cbn [mbind option_bind].
  eexists. split; [done|]. destruct r as [reps|e]; cbn; [|done]. intros ? [= <-].
  destruct (Hr reps eq_refl) as [Hfits Hloc]. split; [by apply sort_by_start_sorted|].
  split; [by rewrite sort_by_start_perm|]. intros Hanch. specialize (Hloc Hanch).
  rewrite sort_by_start_id; [done|].
  by eapply disjoint_from_sorted, located_disjoint.
Qed.

Lemma fits_starts ls reps :
  Forall (fits ls) reps → Forall (λ r, rep_start r ≤ length ls) reps.
Proof. intros H. apply (Forall_impl _ _ _ H). unfold fits. intros; lia. Qed.

Lemma file_lines_text ls :
  Forall no_lf ls → ls ≠ [] → file_lines (join [LF] (ls ++ [[]])) = ls.
Proof.
  intros Hls Hne. unfold file_lines. rewrite split_char_join.
  - by rewrite last_is_snoc, removelast_snoc.
  - by destruct ls.
  - apply Forall_snoc. by split; [|constructor].
Qed.

Lemma contents_of_lines_snoc ls :
  last_is is_empty_str ls = false → contents_of_lines ls = join [LF] (ls ++ [[]]).
Proof. unfold contents_of_lines. by intros ->. Qed.

Lemma join_lines_text ls : join [LF] (ls ++ [[]]) = lines_text ls.
Proof.
  unfold lines_text. induction ls as [|l ls IH]; [done|]. cbn [map concat app].
  rewrite <- IH, join_cons by by destruct ls. by rewrite <- app_assoc.
Qed.

(** The lines of a file make up its text, up to a missing final line feed. *)
Lemma file_lines_spec contents :
  Forall no_lf (file_lines contents)
  ∧ (contents = lines_text (file_lines contents) ∨ contents ++ [LF] = lines_text (file_lines contents)).
Proof.
  unfold file_lines. pose proof (join_split_char LF contents) as Hj.
  pose proof (split_char_Forall LF contents) as Hf.
  destruct (last_is is_empty_str (split_char LF contents)) eqn:Hl.
  - apply last_is_true in Hl as (ls & x & Hs & ->%is_empty_str_true). rewrite Hs in *.
    rewrite removelast_snoc. apply Forall_snoc in Hf as [Hf _]. split; [done|]. left.
    by rewrite <- join_lines_text.
  - split; [done|]. right. by rewrite <- join_lines_text, join_snoc, Hj by apply split_char_nonempty.
Qed.

Lemma block_matches_at (pre old post : list str) : block_matches id (pre ++ old ++ post) old (length pre).
Proof.
  split; [rewrite !length_app; lia|]. rewrite drop_app_length, take_app_length. done.
Qed.

Lemma derive_total contents path chunks :
  ∃ r, derive_new_contents contents path chunks = Some r.
Proof.
  unfold derive_new_contents.
  destruct (compute_replacements_spec (file_lines contents) path chunks) as ([reps|e] & -> & Hr);
    cbn [mbind option_bind]; [|by eexists].
  destruct (Hr reps eq_refl) as (Hs & Hf & _).
  destruct (apply_replacements_total _ _ Hs (fits_starts _ _ Hf)) as (ls' & -> & _). by eexists.
Qed.

(** C3: an update whose chunks all have old lines and no end-of-file marker rewrites
    exactly the located regions: the chunks are located one after the other, each after
    its context line and after the previous region, each region matches its chunk's old
    lines at one of the four levels, and the new file is the text of the old file's lines
    with those regions replaced and every other line unchanged, except that one empty
    line at the end of what comes out is dropped.  The lines of a file make up its text,
    to which a missing final line feed is added. *)
Theorem derive_new_contents_splices contents path chunks new :
  Forall anchored chunks →
  derive_new_contents contents path chunks = Some (Ok new) →
  let ls := file_lines contents in
  (contents = lines_text ls ∨ contents ++ [LF] = lines_text ls) ∧ Forall no_lf ls
  ∧ ∃ reps, located ls 0 chunks reps
            ∧ (last (splice 0 ls reps) ≠ Some [] → new = lines_text (splice 0 ls reps))
            ∧ ∀ kept, splice 0 ls reps = kept ++ [[]] → new = lines_text kept.
Proof.
  intros Hanch Hd ls. destruct (file_lines_spec contents) as [Hlf Htext].
  split; [done|]. split; [done|]. revert Hd. unfold derive_new_contents. fold ls.
  destruct (compute_replacements_spec ls path chunks) as ([reps|e] & -> & Hr);
    cbn [mbind option_bind]; [|done].
  destruct (Hr reps eq_refl) as (_ & Hf & Hloc). specialize (Hloc Hanch).
  rewrite (apply_replacements_splice _ 0 reps (Nat.le_0_l _) (located_disjoint _ _ _ _ Hloc) Hf).
  cbn [mbind option_bind]. intros [= <-]. exists reps. split; [done|]. cbn [take app]. rewrite drop_0. split.
  - intros Hlast. rewrite contents_of_lines_snoc; [apply join_lines_text|].
    unfold last_is. destruct (last (splice 0 ls reps)) as [l|]; [|done].
    apply bool_decide_eq_false_2. congruence.
  - intros kept ->. unfold contents_of_lines, last_is. rewrite last_snoc. cbn.
    by rewrite join_lines_text.
Qed.

(** A chunk whose old lines occur verbatim in the file replaces their first
    occurrence and nothing else. *)
Theorem derive_new_contents_first_occurrence path pre old new post :
  Forall no_lf (pre ++ old ++ post) → old ≠ [] →
  (∀ j, j < length pre → ¬ block_matches id (pre ++ old ++ post) old j) →
  last_is is_empty_str (pre ++ new ++ post) = false →
  derive_new_contents (join [LF] ((pre ++ old ++ post) ++ [[]])) path
    [mkChunk None old new false]
  = Some (Ok (join [LF] ((pre ++ new ++ post) ++ [[]]))).
Proof.
  intros Hlf Hne Hfirst Hlast. unfold derive_new_contents, compute_replacements.
  rewrite file_lines_text; [|done|by destruct pre, old]. cbn [compute_loop].
  unfold compute_chunk, seek_context, seek_old_lines.
  cbn [change_context old_lines new_lines is_end_of_file mbind option_bind].
  rewrite bool_decide_eq_false_2 by done.
  rewrite (seek_sequence_first_exact _ _ 0 (length pre) Hne) by
    (first [lia | apply block_matches_at | intros j Hj; apply Hfirst; lia]).
  cbn [mbind option_bind rbind sort_by_start foldr insert_by_start].
  rewrite apply_replacements_cons. cbn [apply_replacements foldr mbind option_bind].
  rewrite apply_replacement_eq by (cbn; rewrite !length_app; lia).
  cbn [rep_start rep_len rep_lines fst snd].
  rewrite take_app_length, <- drop_drop, drop_app_length, drop_app_length.
  cbn [mbind option_bind]. by rewrite contents_of_lines_snoc.
Qed.

(** A file that ends with a blank line loses it when any chunk is applied: the
    final newline is dropped with [pop], and the blank line then stands in for it. *)
Lemma derive_new_contents_drops_blank_line :
  derive_new_contents (lit "a" ++ [LF; LF]) (lit "f")
    [mkChunk None [lit "a"] [lit "b"] false]
  = Some (Ok (lit "b" ++ [LF])).
Proof. by vm_compute. Qed.

Definition sample_chunks : list UpdateFileChunk :=
  [ mkChunk (Some (lit "b")) [lit "x"] [lit "y"] false; mkChunk None [lit "x"] [] false ].

Lemma derive_new_contents_splices_witness :
  let ls := [lit "x"; lit "b"; lit "x"; lit "x"] in
  ∃ reps, located ls 0 sample_chunks reps
    ∧ (last (splice 0 ls reps) ≠ Some [] →
       lit "x" ++ [LF] ++ lit "b" ++ [LF] ++ lit "y" ++ [LF] = lines_text (splice 0 ls reps))
    ∧ ∀ kept, splice 0 ls reps = kept ++ [[]] →
        lit "x" ++ [LF] ++ lit "b" ++ [LF] ++ lit "y" ++ [LF] = lines_text kept.
Proof.
  exact (proj2 (proj2 (derive_new_contents_splices (join [LF] [lit "x"; lit "b"; lit "x"; lit "x"; []])
    (lit "f") sample_chunks _ ltac:(repeat constructor; done) ltac:(vm_compute; reflexivity)))).
Defined.

Lemma derive_new_contents_first_occurrence_witness :
  derive_new_contents (join [LF] ([lit "k"; lit "x"; lit "x"] ++ [[]])) (lit "f")
    [mkChunk None [lit "x"] [lit "y"; lit "z"] false]
  = Some (Ok (join [LF] ([lit "k"; lit "y"; lit "z"; lit "x"] ++ [[]]))).
Proof.
  apply (derive_new_contents_first_occurrence (lit "f") [lit "k"] [lit "x"] [lit "y"; lit "z"]
    [lit "x"]); [repeat constructor; done|done| |reflexivity].
  intros [|j] Hj [_ Hm]; [discriminate Hm|cbn in Hj; lia].
Defined.
