(* ===== verification/PatchFs.v ===== *)
(** * Applying hunks to a file system: [apply-patch/src/lib.rs]

    [apply_patch], [apply_hunks] and [apply_hunks_to_files], over any path type and
    any file system that implement the interfaces the Rust code is generic in.  The
    file system is an explicit state [W]; a handler returns the new state, the
    delta it accumulated and its result, errors included.  The outer [option] is
    [None] where the code would panic. *)

From Stdlib Require Import String.
From stdpp Require Import base option list numbers gmap.
From S2P Require Import Prelude SeekSequence PatchParser PatchApply.

(** ** Interfaces *)

(** [codex_utils_path_uri::PathUri], as far as this crate uses it: [join] with a
    patch path (an error is its message), [parent], and the native spelling. *)
Class PathUri (P : Type) : Type := {
  uri_join : P → str → result str P;
  uri_parent : P → option P;
  inferred_native_path_string : P → str;
}.

Record FileMetadata : Type := mkMetadata {
  is_directory : bool;
  is_file : bool;
  is_symlink : bool;
}.

(** [codex_file_system::ExecutorFileSystem]: the operations the crate calls.
    [fs_remove] is the call with [recursive: false, force: false] and
    [fs_create_directory] the one with [recursive: true]. *)
Class ExecutorFileSystem (P W : Type) : Type := {
  read_file_text : W → P → result IoSource str;
  get_metadata : W → P → result IoSource FileMetadata;
  write_file : W → P → str → W * result IoSource unit;
  fs_remove : W → P → W * result IoSource unit;
  fs_create_directory : W → P → W * result IoSource unit;
}.

(** [std::io::Write] on the two output streams. *)
Class IoWrite (O : Type) : Type := {
  write_str : O → str → O * result IoSource unit;
}.

(** ** Data *)

Inductive AppliedPatchFileChange (P : Type) : Type :=
| ChangeAdd (content : str) (overwritten_content : option str)
| ChangeDelete (content : str)
| ChangeUpdate (move_path : option P) (old_content : str)
    (overwritten_move_content : option str) (new_content : str).
Arguments ChangeAdd {P} _ _.
Arguments ChangeDelete {P} _.
Arguments ChangeUpdate {P} _ _ _ _.

Record AppliedPatchChange (P : Type) : Type := mkChange {
  change_path : P;
  change_kind : AppliedPatchFileChange P;
}.
Arguments mkChange {P} _ _.
Arguments change_path {P} _.
Arguments change_kind {P} _.

Record AppliedPatchDelta (P : Type) : Type := mkDelta {
  delta_changes : list (AppliedPatchChange P);
  delta_exact : bool;
}.
Arguments mkDelta {P} _ _.
Arguments delta_changes {P} _.
Arguments delta_exact {P} _.

Definition empty_delta {P} : AppliedPatchDelta P := mkDelta [] true.

(** [AppliedPatchDelta::append]. *)
Definition delta_append {P} (d other : AppliedPatchDelta P) : AppliedPatchDelta P :=
  mkDelta (delta_changes d ++ delta_changes other) (delta_exact d && delta_exact other).

Definition push_change {P} (d : AppliedPatchDelta P) (c : AppliedPatchChange P)
  : AppliedPatchDelta P := mkDelta (delta_changes d ++ [c]) (delta_exact d).

Definition set_exact {P} (d : AppliedPatchDelta P) (exact : bool) : AppliedPatchDelta P :=
  mkDelta (delta_changes d) exact.

Record AffectedPaths : Type := mkAffected {
  added : list str;
  modified : list str;
  deleted : list str;
}.

Definition add_added (a : AffectedPaths) (p : str) : AffectedPaths :=
  mkAffected (added a ++ [p]) (modified a) (deleted a).
Definition add_modified (a : AffectedPaths) (p : str) : AffectedPaths :=
  mkAffected (added a) (modified a ++ [p]) (deleted a).
Definition add_deleted (a : AffectedPaths) (p : str) : AffectedPaths :=
  mkAffected (added a) (modified a) (deleted a ++ [p]).

(** [anyhow::Error]: an I/O error under a context, which [downcast_ref] still finds,
    or any other error by its message. *)
Inductive AnyError : Type :=
| IoContext (context : str) (source : IoSource)
| PlainError (message : str).

Definition any_error_string (e : AnyError) : str :=
  match e with IoContext context _ => context | PlainError message => message end.

(** [ParseError]'s [Display]. *)
Definition parse_error_string (e : ParseError) : str :=
  match e with
  | InvalidPatchError message => lit "invalid patch: " ++ message
  | InvalidHunkError message n =>
      lit "invalid hunk at line " ++ decimal (N.of_nat n) ++ lit ", " ++ message
  end.

(** [ApplyPatchError]'s [Display]. *)
Definition apply_patch_error_string (e : ApplyPatchError) : str :=
  match e with
  | ParseErr e => parse_error_string e
  | IoErr context source => context ++ lit ": " ++ io_message source
  | ComputeReplacements message => message
  | PathUriErr message => message
  | ImplicitInvocation =>
      lit "patch detected without explicit call to apply_patch. Rerun as ["
      ++ [34%N] ++ lit "apply_patch" ++ [34%N] ++ lit ", " ++ [34%N] ++ lit "<patch>" ++ [34%N]
      ++ lit "]"
  end.

Definition is_not_found (e : IoSource) : bool :=
  match io_kind e with NotFound => true | _ => false end.

(** [Result::with_context] on an I/O result. *)
Definition with_context {A} (context : str) (r : result IoSource A) : result AnyError A :=
  match r with Ok a => Ok a | Err e => Err (IoContext context e) end.

(** ** Operations *)

Section apply.
Context {P W O : Type}.
Context `{!PathUri P, !ExecutorFileSystem P W, !IoWrite O}.

Definition failed_to (what : string) (path : P) : str :=
  lit what ++ inferred_native_path_string path.

Definition note_existing_path_delta_support (w : W) (path : P) (exact : bool) : bool :=
  match get_metadata w path with
  | Ok m => if is_file m && negb (is_symlink m) then exact else false
  | Err e => if is_not_found e then exact else false
  end.

Definition read_optional_file_text_for_delta (w : W) (path : P) (exact : bool)
  : option str * bool :=
  let exact := note_existing_path_delta_support w path exact in
  match read_file_text w path with
  | Ok content => (Some content, exact)
  | Err e => if is_not_found e then (None, exact) else (None, false)
  end.

Definition ensure_not_directory (w : W) (path : P) : result IoSource unit :=
  let? m := get_metadata w path in
  if is_directory m then Err (mkIoError InvalidInput (lit "path is a directory")) else Ok tt.

Definition remove_failure_was_side_effect_free (w : W) (path : P) (expected : option str) : bool :=
  match expected with
  | Some expected_content =>
      match read_file_text w path with
      | Ok content => content ==s expected_content
      | Err _ => false
      end
  | None => false
  end.

Definition write_file_with_missing_parent_retry (w : W) (path : P) (contents : str)
  : W * result AnyError unit :=
  let write_context := failed_to "Failed to write file " path in
  match write_file w path contents with
  | (w, Ok _) => (w, Ok tt)
  | (w, Err e) =>
      if is_not_found e then
        let '(w, r) :=
          match uri_parent path with
          | Some parent =>
              let '(w, r) := fs_create_directory w parent in
              (w, with_context (failed_to "Failed to create parent directories for " path) r)
          | None => (w, Ok tt)
          end in
        match r with
        | Err e => (w, Err e)
        | Ok _ =>
            let '(w, r) := write_file w path contents in (w, with_context write_context r)
        end
      else (w, Err (IoContext write_context e))
  end.

(** [derive_new_contents_from_chunks]: the original and the new contents. *)
Definition derive_new_contents_from_chunks (w : W) (path : P) (chunks : list UpdateFileChunk)
  : option (result ApplyPatchError (str * str)) :=
  match read_file_text w path with
  | Err e => Some (Err (IoErr (failed_to "Failed to read file to update " path) e))
  | Ok original =>
      r ← derive_new_contents original (inferred_native_path_string path) chunks;
      Some (let? new := r in Ok (original, new))
  end.

(** A hunk's result: the new file system and delta, and the error if it failed. *)
Definition outcome : Type := W * AppliedPatchDelta P * result AnyError unit.

(** The [Hunk::AddFile] arm. *)
Definition apply_add (w : W) (d : AppliedPatchDelta P) (path : P) (contents : str) : outcome :=
  let '(overwritten, exact) := read_optional_file_text_for_delta w path (delta_exact d) in
  let d := set_exact d exact in
  match write_file_with_missing_parent_retry w path contents with
  | (w, Err e) => (w, set_exact d false, Err e)
  | (w, Ok _) => (w, push_change d (mkChange path (ChangeAdd contents overwritten)), Ok tt)
  end.

(** [fs.remove] with its context; on failure [exact] is updated from what is left. *)
Definition remove_checked (w : W) (d : AppliedPatchDelta P) (path : P) (context : str)
    (expected : option str) : outcome :=
  match with_context context (ensure_not_directory w path) with
  | Err e => (w, d, Err e)
  | Ok _ =>
      match fs_remove w path with
      | (w, Err e) =>
          (w, set_exact d (delta_exact d && remove_failure_was_side_effect_free w path expected),
           Err (IoContext context e))
      | (w, Ok _) => (w, d, Ok tt)
      end
  end.

(** The [Hunk::DeleteFile] arm. *)
Definition apply_delete (w : W) (d : AppliedPatchDelta P) (path : P) : outcome :=
  let d := set_exact d (note_existing_path_delta_support w path (delta_exact d)) in
  let deleted_content :=
    match read_file_text w path with Ok content => Some content | Err _ => None end in
  let d := if bool_decide (deleted_content = None) then set_exact d false else d in
  match remove_checked w d path (failed_to "Failed to delete file " path) deleted_content with
  | (w, d, Err e) => (w, d, Err e)
  | (w, d, Ok _) =>
      (w, match deleted_content with
          | Some content => push_change d (mkChange path (ChangeDelete content))
          | None => d
          end, Ok tt)
  end.

(** The move of the [Hunk::UpdateFile] arm. *)
Definition apply_move (w : W) (d : AppliedPatchDelta P) (path dest : P) (original new : str)
  : outcome :=
  let '(overwritten, exact) := read_optional_file_text_for_delta w dest (delta_exact d) in
  let d := set_exact d exact in
  match write_file_with_missing_parent_retry w dest new with
  | (w, Err e) => (w, set_exact d false, Err e)
  | (w, Ok _) =>
      let before := delta_changes d in
      let d := push_change d (mkChange dest (ChangeAdd new overwritten)) in
      match remove_checked w d path (failed_to "Failed to remove original " path) (Some original) with
      | (w, d, Err e) => (w, d, Err e)
      | (w, d, Ok _) =>
          (w, mkDelta (before ++ [mkChange path (ChangeUpdate (Some dest) original overwritten new)])
                (delta_exact d), Ok tt)
      end
  end.

(** The [Hunk::UpdateFile] arm. *)
Definition apply_update (w : W) (d : AppliedPatchDelta P) (cwd path : P) (move_path : option str)
    (chunks : list UpdateFileChunk) : option outcome :=
  let d := set_exact d (note_existing_path_delta_support w path (delta_exact d)) in
  r ← derive_new_contents_from_chunks w path chunks;
  Some match r with
       | Err e => (w, d, Err (PlainError (apply_patch_error_string e)))
       | Ok (original, new) =>
           match move_path with
           | Some dest =>
               match uri_join cwd dest with
               | Err message => (w, d, Err (PlainError message))
               | Ok dest => apply_move w d path dest original new
               end
           | None =>
               match write_file w path new with
               | (w, Err e) =>
                   (w, set_exact d false, Err (IoContext (failed_to "Failed to write file " path) e))
               | (w, Ok _) =>
                   (w, push_change d (mkChange path (ChangeUpdate None original None new)), Ok tt)
               end
           end
       end.

(** One iteration of the loop over the hunks. *)
Definition apply_hunk (w : W) (d : AppliedPatchDelta P) (cwd : P) (hunk : Hunk) : option outcome :=
  match uri_join cwd (hunk_source_path hunk) with
  | Err message => Some (w, d, Err (PlainError message))
  | Ok path =>
      match hunk with
      | AddFile _ contents => Some (apply_add w d path contents)
      | DeleteFile _ => Some (apply_delete w d path)
      | UpdateFile _ move_path chunks => apply_update w d cwd path move_path chunks
      end
  end.

Definition note_affected (a : AffectedPaths) (hunk : Hunk) : AffectedPaths :=
  match hunk with
  | AddFile _ _ => add_added a (hunk_path hunk)
  | DeleteFile _ => add_deleted a (hunk_path hunk)
  | UpdateFile _ _ _ => add_modified a (hunk_path hunk)
  end.

Fixpoint apply_hunks_loop (w : W) (d : AppliedPatchDelta P) (cwd : P) (a : AffectedPaths)
    (hunks : list Hunk) : option (W * AppliedPatchDelta P * result AnyError AffectedPaths) :=
  match hunks with
  | [] => Some (w, d, Ok a)
  | hunk :: hunks' =>
      o ← apply_hunk w d cwd hunk;
      match o with
      | (w, d, Err e) => Some (w, d, Err e)
      | (w, d, Ok _) => apply_hunks_loop w d cwd (note_affected a hunk) hunks'
      end
  end.

Definition apply_hunks_to_files (w : W) (d : AppliedPatchDelta P) (cwd : P) (hunks : list Hunk)
  : option (W * AppliedPatchDelta P * result AnyError AffectedPaths) :=
  match hunks with
  | [] => Some (w, d, Err (PlainError (lit "No files were modified.")))
  | _ :: _ => apply_hunks_loop w d cwd (mkAffected [] [] []) hunks
  end.

(** [writeln!]s in sequence, stopping at the first error. *)
Fixpoint write_lines (out : O) (ls : list str) : O * result IoSource unit :=
  match ls with
  | [] => (out, Ok tt)
  | l :: ls' =>
      match write_str out (l ++ [LF]) with
      | (out, Err e) => (out, Err e)
      | (out, Ok _) => write_lines out ls'
      end
  end.

Definition summary_lines (a : AffectedPaths) : list str :=
  [lit "Success. Updated the following files:"]
  ++ map (λ p, lit "A " ++ p) (added a)
  ++ map (λ p, lit "M " ++ p) (modified a)
  ++ map (λ p, lit "D " ++ p) (deleted a).

Definition print_summary (out : O) (a : AffectedPaths) : O * result IoSource unit :=
  write_lines out (summary_lines a).

(** [ApplyPatchError::from(std::io::Error)]. *)
Definition io_apply_error (e : IoSource) : ApplyPatchError := IoErr (lit "I/O error") e.

Definition apply_error_of_any (e : AnyError) : ApplyPatchError :=
  match e with
  | IoContext _ source => io_apply_error source
  | PlainError message => IoErr message (mkIoError OtherKind message)
  end.

(** The caller's view of a run: the file system, the two streams, and the delta on
    success or the error with the delta on failure. *)
Record run : Type := mkRun {
  run_fs : W;
  run_stdout : O;
  run_stderr : O;
  run_result : result (ApplyPatchError * AppliedPatchDelta P) (AppliedPatchDelta P);
}.

Definition apply_hunks (w : W) (cwd : P) (stdout stderr : O) (hunks : list Hunk) : option run :=
  o ← apply_hunks_to_files w empty_delta cwd hunks;
  let '(w, d, r) := o in
  Some match r with
       | Ok affected =>
           match print_summary stdout affected with
           | (stdout, Err e) => mkRun w stdout stderr (Err (io_apply_error e, d))
           | (stdout, Ok _) => mkRun w stdout stderr (Ok d)
           end
       | Err e =>
           match write_str stderr (any_error_string e ++ [LF]) with
           | (stderr, Err e') => mkRun w stdout stderr (Err (io_apply_error e', d))
           | (stderr, Ok _) => mkRun w stdout stderr (Err (apply_error_of_any e, d))
           end
       end.

Definition invalid_patch_message (e : ParseError) : str :=
  match e with
  | InvalidPatchError message => lit "Invalid patch: " ++ message
  | InvalidHunkError message n =>
      lit "Invalid patch hunk on line " ++ decimal (N.of_nat n) ++ lit ": " ++ message
  end.

Definition apply_patch (w : W) (cwd : P) (stdout stderr : O) (patch : str) : option run :=
  match parse_patch patch with
  | Ok source => apply_hunks w cwd stdout stderr (args_hunks source)
  | Err e =>
      match write_str stderr (invalid_patch_message e ++ [LF]) with
      | (stderr, Err e') => Some (mkRun w stdout stderr (Err (io_apply_error e', empty_delta)))
      | (stderr, Ok _) => Some (mkRun w stdout stderr (Err (ParseErr e, empty_delta)))
      end
  end.
End apply.
