(* ===== verification/PatchFsFacts.v ===== *)
(** * What a patch's delta says about the file system

    [apply_hunks_to_files] returns a delta: the textual changes it committed, with
    an [exact] flag.  This file states what the flag promises and proves it for any
    file system that satisfies a few laws, which [MemFs] shows are satisfiable. *)

From Stdlib Require Import String.
From stdpp Require Import base option list numbers gmap.
From S2P Require Import Prelude SeekSequence PatchParser PatchApply PatchFs.

(** ** Contents of the regular files *)

Definition store (P : Type) : Type := P → option str.

#[global] Instance store_equiv {P} : Equiv (store P) := λ v v', ∀ p, v p = v' p.

#[global] Instance store_equivalence {P} : Equivalence (≡@{store P}).
Proof.
  split; [by intros v p|by intros v v' Hv p|].
  intros v1 v2 v3 H12 H23 p. by rewrite (H12 p).
Qed.

Definition upd {P} `{EqDecision P} (v : store P) (p : P) (x : option str) : store P :=
  λ q, if decide (q = p) then x else v q.

#[global] Instance upd_proper {P} `{EqDecision P} :
  Proper ((≡) ==> (=) ==> (=) ==> (≡)) (@upd P _).
Proof. intros v v' Hv p ? <- x ? <- q. unfold upd. by case_decide. Qed.

Section store.
Context {P : Type} `{EqDecision P}.
Implicit Types v : store P.

Lemma upd_same v p x : upd v p x p = x.
Proof. unfold upd. by rewrite decide_True. Qed.

Lemma upd_id v p : upd v p (v p) ≡ v.
Proof. intros q. unfold upd. by case_decide; subst. Qed.

Lemma upd_upd v p x y : upd (upd v p x) p y ≡ upd v p y.
Proof. intros q. unfold upd. by case_decide. Qed.

(** What a committed change does to the contents. *)
Definition replay_change v (c : AppliedPatchChange P) : store P :=
  match change_kind c with
  | ChangeAdd content _ => upd v (change_path c) (Some content)
  | ChangeDelete _ => upd v (change_path c) None
  | ChangeUpdate None _ _ new => upd v (change_path c) (Some new)
  | ChangeUpdate (Some dest) _ _ new => upd (upd v dest (Some new)) (change_path c) None
  end.

(** How the recorded old contents take it back. *)
Definition undo_change v (c : AppliedPatchChange P) : store P :=
  match change_kind c with
  | ChangeAdd _ overwritten => upd v (change_path c) overwritten
  | ChangeDelete content => upd v (change_path c) (Some content)
  | ChangeUpdate None old _ _ => upd v (change_path c) (Some old)
  | ChangeUpdate (Some dest) old overwritten _ =>
      upd (upd v dest overwritten) (change_path c) (Some old)
  end.

(** The old contents a change records are those of [v]. *)
Definition records v (c : AppliedPatchChange P) : Prop :=
  match change_kind c with
  | ChangeAdd _ overwritten => overwritten = v (change_path c)
  | ChangeDelete content => v (change_path c) = Some content
  | ChangeUpdate None old _ _ => v (change_path c) = Some old
  | ChangeUpdate (Some dest) old overwritten _ =>
      v (change_path c) = Some old ∧ overwritten = v dest
  end.

#[global] Instance replay_change_proper : Proper ((≡) ==> (=) ==> (≡)) replay_change.
Proof.
  intros v v' Hv c ? <-. unfold replay_change.
  destruct (change_kind c) as [| |[]]; by rewrite Hv.
Qed.

#[global] Instance undo_change_proper : Proper ((≡) ==> (=) ==> (≡)) undo_change.
Proof.
  intros v v' Hv c ? <-. unfold undo_change.
  destruct (change_kind c) as [| |[]]; by rewrite Hv.
Qed.

Lemma undo_replay v c : records v c → undo_change (replay_change v c) c ≡ v.
Proof.
  unfold records, undo_change, replay_change. destruct c as [p k]; cbn.
  destruct k as [content ow|content|[dest|] old ow new].
  - intros ->. by rewrite upd_upd, upd_id.
  - intros <-. by rewrite upd_upd, upd_id.
  - intros [Hp ->] q. unfold upd. do 3 (case_decide; subst; try done).
  - intros <-. by rewrite upd_upd, upd_id.
Qed.

Definition replay v (cs : list (AppliedPatchChange P)) : store P := foldl replay_change v cs.
Definition undo v (cs : list (AppliedPatchChange P)) : store P :=
  foldr (λ c acc, undo_change acc c) v cs.

(** The changes lead from [v] to [v'] and record the right old contents. *)
Fixpoint tracks v (cs : list (AppliedPatchChange P)) v' : Prop :=
  match cs with
  | [] => v ≡ v'
  | c :: cs' => records v c ∧ tracks (replay_change v c) cs' v'
  end.

Lemma records_proper v v' c : v ≡ v' → records v c → records v' c.
Proof.
  intros Heq. unfold records. destruct (change_kind c) as [| |[]]; by rewrite !(Heq _).
Qed.

Lemma tracks_proper v1 v2 cs v : v1 ≡ v2 → tracks v2 cs v → tracks v1 cs v.
Proof.
  revert v1 v2. induction cs as [|c cs IH]; intros v1 v2 Heq; cbn; [by rewrite Heq|].
  intros [Hrec Ht]. split; [by apply (records_proper v2)|].
  apply (IH _ (replay_change v2 c)); [by rewrite Heq|done].
Qed.

Lemma tracks_app v1 cs1 v2 cs2 v3 :
  tracks v1 cs1 v2 → tracks v2 cs2 v3 → tracks v1 (cs1 ++ cs2) v3.
Proof.
  revert v1. induction cs1 as [|c cs1 IH]; intros v1; cbn.
  - apply tracks_proper.
  - intros [? ?] ?. auto.
Qed.

Lemma tracks_replay v cs v' : tracks v cs v' → replay v cs ≡ v'.
Proof. revert v. induction cs as [|c cs IH]; intros v; cbn; [done|]. intros [_ ?]. by apply IH. Qed.

Lemma tracks_undo v cs v' : tracks v cs v' → undo v' cs ≡ v.
Proof.
  revert v. induction cs as [|c cs IH]; intros v; cbn; [by intros ->|].
  intros [Hrec Ht]. rewrite (IH _ Ht). by apply undo_replay.
Qed.
End store.

(** ** The file system laws *)

Section laws.
Context {P W : Type} `{EqDecision P} `{!PathUri P, !ExecutorFileSystem P W}.
Implicit Types w : W.
Implicit Types d : AppliedPatchDelta P.

(** The text of the regular file at a path. *)
Definition view w : store P := λ p,
  match get_metadata w p with
  | Ok m =>
      if is_file m && negb (is_symlink m) then
        match read_file_text w p with Ok c => Some c | Err _ => None end
      else None
  | Err _ => None
  end.

(** A path that is a regular file or does not exist. *)
Definition settled w (p : P) : Prop := note_existing_path_delta_support w p true = true.

(** What [std::fs] documents of the operations, on regular files and missing
    paths: a write sets the file and nothing else, a write that reports a missing
    parent changed nothing, creating the parents changes no file, a removal
    removes the file and nothing else, and a failed one either did or did not. *)
Class FileSystemLaws : Prop := {
  missing_unreadable w p e c :
    get_metadata w p = Err e → is_not_found e = true → read_file_text w p ≠ Ok c;
  write_file_ok w p c w' :
    settled w p → write_file w p c = (w', Ok tt) → view w' ≡ upd (view w) p (Some c);
  write_file_not_found w p c w' e :
    settled w p → write_file w p c = (w', Err e) → is_not_found e = true →
    view w' ≡ view w ∧ settled w' p;
  create_parent_ok w p parent w' :
    settled w p → uri_parent p = Some parent → fs_create_directory w parent = (w', Ok tt) →
    view w' ≡ view w ∧ settled w' p;
  remove_ok w p w' :
    settled w p → fs_remove w p = (w', Ok tt) → view w' ≡ upd (view w) p None;
  remove_err w p w' e :
    settled w p → fs_remove w p = (w', Err e) →
    settled w' p ∧ (view w' ≡ view w ∨ view w' ≡ upd (view w) p None);
}.

Lemma note_support_true w p exact :
  note_existing_path_delta_support w p exact = true → exact = true ∧ settled w p.
Proof.
  unfold settled, note_existing_path_delta_support.
  destruct (get_metadata w p) as [m|e]; [destruct (_ && _)|destruct (is_not_found e)];
    by intros ?.
Qed.

Lemma view_settled w p c : view w p = Some c → settled w p.
Proof.
  unfold view, settled, note_existing_path_delta_support.
  destruct (get_metadata w p) as [m|e]; [|done]. by destruct (_ && _).
Qed.

Context `{!FileSystemLaws}.

(** On a settled path, what is read is the view. *)
Lemma settled_read w p c : settled w p → read_file_text w p = Ok c → view w p = Some c.
Proof.
  unfold settled, note_existing_path_delta_support, view.
  destruct (get_metadata w p) as [m|e] eqn:Hm.
  - destruct (_ && _); [|done]. by intros _ ->.
  - destruct (is_not_found e) eqn:He; [|done]. intros _ Hr.
    by destruct (missing_unreadable w p e c).
Qed.

Lemma settled_unread w p e : read_file_text w p = Err e → view w p = None.
Proof.
  unfold view. intros ->. by destruct (get_metadata w p) as [m|]; [destruct (_ && _)|].
Qed.

Lemma read_optional_exact w p exact o :
  read_optional_file_text_for_delta w p exact = (o, true) →
  exact = true ∧ settled w p ∧ o = view w p.
Proof.
  unfold read_optional_file_text_for_delta.
  destruct (read_file_text w p) as [c|e] eqn:Hr.
  - intros [= <- [-> Hs]%note_support_true]. by rewrite (settled_read w p c).
  - destruct (is_not_found e); [|done]. intros [= <- [-> Hs]%note_support_true].
    by rewrite (settled_unread w p e).
Qed.

Lemma write_retry_ok w p c w' u :
  settled w p → write_file_with_missing_parent_retry w p c = (w', Ok u) →
  view w' ≡ upd (view w) p (Some c).
Proof.
  intros Hs. unfold write_file_with_missing_parent_retry.
  destruct (write_file w p c) as [w1 [[]|e]] eqn:Hw.
  { intros [= <- _]. by apply write_file_ok. }
  destruct (is_not_found e) eqn:He; [|done].
  destruct (write_file_not_found w p c w1 e Hs Hw He) as [Hv1 Hs1].
  assert (Hretry : ∀ w2, settled w2 p → view w2 ≡ view w1 →
    (let '(w3, r) := write_file w2 p c in
     (w3, with_context (failed_to "Failed to write file " p) r)) = (w', Ok u) →
    view w' ≡ upd (view w) p (Some c)).
  { intros w2 Hs2 Hv2. destruct (write_file w2 p c) as [w3 [[]|]] eqn:Hw2; [|done].
    intros [= <- _]. rewrite (write_file_ok w2 p c w3 Hs2 Hw2). by rewrite Hv2, Hv1. }
  destruct (uri_parent p) as [parent|] eqn:Hparent; [|by apply Hretry].
  destruct (fs_create_directory w1 parent) as [w2 [[]|]] eqn:Hmk; cbn; [|done].
  destruct (create_parent_ok w1 p parent w2 Hs1 Hparent Hmk) as [? ?]. by apply Hretry.
Qed.

Lemma remove_checked_delta w d p context o w' d' r :
  remove_checked w d p context o = (w', d', r) →
  delta_changes d' = delta_changes d ∧ (delta_exact d' = true → delta_exact d = true).
Proof.
  unfold remove_checked. destruct (with_context _ _); [|by intros [= <- <- <-]].
  destruct (fs_remove w p) as [w1 [[]|e]]; intros [= <- <- <-]; [done|].
  cbn. split; [done|]. by intros [? _]%andb_true_iff.
Qed.

Lemma remove_checked_view w d p context c w' d' r :
  settled w p → remove_checked w d p context (Some c) = (w', d', r) → delta_exact d' = true →
  view w' ≡ match r with Ok _ => upd (view w) p None | Err _ => view w end.
Proof.
  intros Hs. unfold remove_checked.
  destruct (with_context _ _); [|by intros [= <- <- <-]].
  destruct (fs_remove w p) as [w1 [[]|e]] eqn:Hrm.
  { intros [= <- <- <-] _. by apply remove_ok. }
  intros [= <- <- <-]. cbn. intros [? Hfree]%andb_true_iff.
  destruct (remove_err w p w1 e Hs Hrm) as [Hs1 [?|Hgone]]; [done|].
  destruct (read_file_text w1 p) as [c1|] eqn:Hread; [|done].
  pose proof (settled_read w1 p c1 Hs1 Hread) as Hv. rewrite (Hgone p), upd_same in Hv. done.
Qed.

(** One handler: if the delta is exact afterwards it was before, and the changes
    added account for what happened to the files. *)
Definition accounts w d w' d' : Prop :=
  delta_exact d' = true →
  delta_exact d = true ∧
  ∃ cs, delta_changes d' = delta_changes d ++ cs ∧ tracks (view w) cs (view w').

Lemma accounts_none w d w' d' :
  delta_changes d' = delta_changes d →
  (delta_exact d' = true → delta_exact d = true ∧ view w ≡ view w') → accounts w d w' d'.
Proof.
  intros Hc He Hd. destruct (He Hd) as [? ?]. split; [done|]. exists []. by rewrite app_nil_r.
Qed.

Lemma accounts_one w d w' d' c :
  delta_changes d' = delta_changes d ++ [c] →
  (delta_exact d' = true → delta_exact d = true ∧ records (view w) c
     ∧ replay_change (view w) c ≡ view w') → accounts w d w' d'.
Proof.
  intros Hc He Hd. destruct (He Hd) as (? & ? & ?). split; [done|]. by exists [c].
Qed.

Lemma accounts_trans w1 d1 w2 d2 w3 d3 :
  accounts w1 d1 w2 d2 → accounts w2 d2 w3 d3 → accounts w1 d1 w3 d3.
Proof.
  intros H12 H23 Hd3. destruct (H23 Hd3) as (Hd2 & cs2 & -> & Ht2).
  destruct (H12 Hd2) as (Hd1 & cs1 & -> & Ht1). split; [done|].
  exists (cs1 ++ cs2). split; [by rewrite app_assoc|].
  by eapply tracks_app.
Qed.

Lemma apply_add_accounts w d p contents w' d' r :
  apply_add w d p contents = (w', d', r) → accounts w d w' d'.
Proof.
  unfold apply_add.
  destruct (read_optional_file_text_for_delta w p (delta_exact d)) as [o exact] eqn:Hopt.
  destruct (write_file_with_missing_parent_retry w p contents) as [w1 [u|e]] eqn:Hw;
    intros [= <- <- <-]; [|by apply accounts_none].
  eapply accounts_one; [done|]. cbn. intros ->.
  apply read_optional_exact in Hopt as (? & Hs & ->). split; [done|]. split; [done|].
  symmetry. by eapply write_retry_ok.
Qed.

Lemma apply_delete_accounts w d p w' d' r :
  apply_delete w d p = (w', d', r) → accounts w d w' d'.
Proof.
  unfold apply_delete. destruct (read_file_text w p) as [c|e] eqn:Hread.
  - rewrite bool_decide_eq_false_2 by done.
    destruct (remove_checked w _ p _ (Some c)) as [[w1 d1] r1] eqn:Hrm.
    destruct (remove_checked_delta _ _ _ _ _ _ _ _ Hrm) as [Hchanges Hexact]; cbn in *.
    assert (Hspec : delta_exact d1 = true → delta_exact d = true ∧ view w p = Some c
      ∧ view w1 ≡ match r1 with Ok _ => upd (view w) p None | Err _ => view w end).
    { intros He. destruct (note_support_true _ _ _ (Hexact He)) as [? Hs].
      split; [done|]. split; [by apply settled_read|]. by eapply remove_checked_view. }
    destruct r1 as [u|e]; intros [= <- <- <-].
    + eapply accounts_one; [by cbn; rewrite Hchanges|]. cbn.
      intros (? & ? & Hv)%Hspec. split; [done|]. by split.
    + apply accounts_none; [done|]. intros (? & ? & Hv)%Hspec. by split.
  - rewrite bool_decide_eq_true_2 by done.
    destruct (remove_checked w _ p _ None) as [[w1 d1] r1] eqn:Hrm.
    destruct (remove_checked_delta _ _ _ _ _ _ _ _ Hrm) as [Hchanges Hexact]; cbn in *.
    destruct r1 as [u|e1]; intros [= <- <- <-]; apply accounts_none; by try intros ?%Hexact.
Qed.

Lemma apply_move_accounts w d p dest original new w' d' r :
  (delta_exact d = true → view w p = Some original) →
  apply_move w d p dest original new = (w', d', r) → accounts w d w' d'.
Proof.
  intros Horig. unfold apply_move.
  destruct (read_optional_file_text_for_delta w dest (delta_exact d)) as [o exact] eqn:Hopt.
  destruct (write_file_with_missing_parent_retry w dest new) as [w1 [u|e]] eqn:Hw;
    [|by intros [= <- <- <-]; apply accounts_none].
  destruct (remove_checked w1 _ p _ (Some original)) as [[w2 d2] r2] eqn:Hrm.
  destruct (remove_checked_delta _ _ _ _ _ _ _ _ Hrm) as [Hchanges Hexact]; cbn in *.
  assert (Hspec : delta_exact d2 = true → delta_exact d = true ∧ o = view w dest
    ∧ view w p = Some original
    ∧ view w2 ≡ match r2 with Ok _ => upd (upd (view w) dest (Some new)) p None
                | Err _ => upd (view w) dest (Some new) end).
  { intros He. specialize (Hexact He) as ->.
    apply read_optional_exact in Hopt as (Hd & Hs & ->). specialize (Horig Hd).
    pose proof (write_retry_ok _ _ _ _ _ Hs Hw) as Hv1.
    assert (Hs1 : settled w1 p).
    { destruct (decide (p = dest)) as [->|Hne].
      - apply (view_settled w1 dest new). by rewrite (Hv1 dest), upd_same.
      - apply (view_settled w1 p original). rewrite (Hv1 p). unfold upd. by rewrite decide_False. }
    do 3 (split; [done|]). rewrite (remove_checked_view _ _ _ _ _ _ _ _ Hs1 Hrm He).
    destruct r2; by rewrite Hv1. }
  destruct r2 as [u2|e]; intros [= <- <- <-]; eapply accounts_one; try done;
    cbn; intros (? & ? & ? & Hv)%Hspec; (split; [done|]); by split.
Qed.

Lemma apply_update_accounts w d cwd p move_path chunks w' d' r :
  apply_update w d cwd p move_path chunks = Some (w', d', r) → accounts w d w' d'.
Proof.
  unfold apply_update, derive_new_contents_from_chunks.
  destruct (read_file_text w p) as [original|e] eqn:Hread; cbn [mbind option_bind].
  2:{ intros [= <- <- <-]. apply accounts_none; [done|]. by intros [? _]%note_support_true. }
  destruct (derive_new_contents _ _ _) as [[new|e]|]; cbn [mbind option_bind rbind]; [| |done].
  2:{ intros [= <- <- <-]. apply accounts_none; [done|]. by intros [? _]%note_support_true. }
  destruct move_path as [dest|].
  - destruct (uri_join cwd dest) as [dest_uri|msg].
    2:{ intros [= <- <- <-]. apply accounts_none; [done|]. by intros [? _]%note_support_true. }
    intros [= Hmove]. eapply accounts_trans; [|eapply apply_move_accounts, Hmove].
    + apply accounts_none; [done|]. by intros [? _]%note_support_true.
    + cbn. intros [_ ?]%note_support_true. by apply settled_read.
  - destruct (write_file w p new) as [w1 [[]|e]] eqn:Hw; intros [= <- <- <-];
      [|by apply accounts_none].
    eapply accounts_one; [done|]. cbn. intros [? Hs]%note_support_true.
    split; [done|]. split; [by apply settled_read|]. symmetry. by apply write_file_ok.
Qed.

Lemma apply_hunk_accounts w d cwd hunk w' d' r :
  apply_hunk w d cwd hunk = Some (w', d', r) → accounts w d w' d'.
Proof.
  unfold apply_hunk. destruct (uri_join _ _) as [p|msg].
  2:{ intros [= <- <- <-]. by apply accounts_none. }
  destruct hunk as [path contents|path|path move_path chunks]; [intros [= Hrun]..|].
  - by eapply apply_add_accounts.
  - by eapply apply_delete_accounts.
  - by apply apply_update_accounts.
Qed.

Lemma apply_hunks_loop_accounts w d cwd a hunks w' d' r :
  apply_hunks_loop w d cwd a hunks = Some (w', d', r) → accounts w d w' d'.
Proof.
  revert w d a. induction hunks as [|hunk hunks IH]; intros w d a; cbn.
  { intros [= <- <- <-]. by apply accounts_none. }
  destruct (apply_hunk w d cwd hunk) as [[[w1 d1] [u|e]]|] eqn:Hh; cbn; [| |done];
    apply apply_hunk_accounts in Hh.
  - intros Hl%IH. by eapply accounts_trans.
  - by intros [= <- <- <-].
Qed.

(** C2: the delta of a run of hunks, successful or not, is faithful when it is
    marked exact: replaying it on the old file contents gives the new ones, and
    undoing it from the new contents gives back the old ones. *)
Theorem exact_delta_faithful w cwd hunks w' d r :
  apply_hunks_to_files w empty_delta cwd hunks = Some (w', d, r) →
  delta_exact d = true →
  replay (view w) (delta_changes d) ≡ view w' ∧ undo (view w') (delta_changes d) ≡ view w.
Proof.
  intros Hrun He. assert (Hacc : accounts w empty_delta w' d).
  { destruct hunks; [|by eapply apply_hunks_loop_accounts].
    cbn in Hrun. simplify_eq. by apply accounts_none. }
  destruct (Hacc He) as (_ & cs & Hcs & Ht). cbn in Hcs. rewrite Hcs.
  split; [by apply tracks_replay|by apply tracks_undo].
Qed.
End laws.

(** ** What a successful run did *)

Section success.
Context {P W O : Type} `{!PathUri P, !ExecutorFileSystem P W, !IoWrite O}.
Implicit Types w : W.
Implicit Types d : AppliedPatchDelta P.

(** The change a hunk stands for. *)
Definition describes (cwd : P) (hunk : Hunk) (c : AppliedPatchChange P) : Prop :=
  uri_join cwd (hunk_source_path hunk) = Ok (change_path c) ∧
  match hunk with
  | AddFile _ contents => ∃ overwritten, change_kind c = ChangeAdd contents overwritten
  | DeleteFile _ => ∃ content, change_kind c = ChangeDelete content
  | UpdateFile _ move_path chunks =>
      ∃ dest old overwritten new, change_kind c = ChangeUpdate dest old overwritten new
        ∧ derive_new_contents old (inferred_native_path_string (change_path c)) chunks
          = Some (Ok new)
        ∧ match move_path with
          | Some m => ∃ p, uri_join cwd m = Ok p ∧ dest = Some p
          | None => dest = None
          end
  end.

Lemma note_support_exact w p exact :
  note_existing_path_delta_support w p exact = true → exact = true.
Proof.
  unfold note_existing_path_delta_support.
  by destruct (get_metadata w p) as [m|e]; [destruct (_ && _)|destruct (is_not_found e)].
Qed.

Lemma read_optional_flag w p exact o :
  read_optional_file_text_for_delta w p exact = (o, true) → exact = true.
Proof.
  unfold read_optional_file_text_for_delta. destruct (read_file_text w p) as [c|e].
  - by intros [= _ ?%note_support_exact].
  - destruct (is_not_found e); [|done]. by intros [= _ ?%note_support_exact].
Qed.

Lemma apply_hunk_describes w d cwd hunk w' d' u :
  apply_hunk w d cwd hunk = Some (w', d', Ok u) → delta_exact d' = true →
  delta_exact d = true ∧
  ∃ c, describes cwd hunk c ∧ delta_changes d' = delta_changes d ++ [c].
Proof.
  unfold apply_hunk, describes. destruct (uri_join cwd _) as [p|msg]; [|done].
  destruct hunk as [path contents|path|path move_path chunks]; [intros [= Hrun]..|]; cbn.
  - revert Hrun. unfold apply_add.
    destruct (read_optional_file_text_for_delta _ _ _) as [o exact] eqn:Hopt.
    destruct (write_file_with_missing_parent_retry _ _ _) as [w1 [?|]]; intros [= <- <-]; cbn.
    intros ->. split; [by eapply read_optional_flag|]. eexists. split; [|done]. cbn. eauto.
  - revert Hrun. unfold apply_delete.
    destruct (read_file_text w p) as [c|e];
      [rewrite bool_decide_eq_false_2 by done|rewrite bool_decide_eq_true_2 by done];
      destruct (remove_checked _ _ _ _ _) as [[w1 d1] [?|]] eqn:Hrm; intros [= <- <-];
      destruct (remove_checked_delta _ _ _ _ _ _ _ _ Hrm) as [Hc He]; cbn in *.
    + intros Hd. split; [by eapply note_support_exact, He|]. rewrite Hc.
      eexists. split; [|done]. cbn. eauto.
    + by intros ?%He.
  - unfold apply_update, derive_new_contents_from_chunks.
    destruct (read_file_text w p) as [original|]; cbn [mbind option_bind]; [|done].
    destruct (derive_new_contents _ _ _) as [[new|]|] eqn:Hderive; cbn [mbind option_bind rbind];
      [|done..].
    destruct move_path as [dest|].
    + destruct (uri_join cwd dest) as [dest_uri|] eqn:Hdest; [|done]. unfold apply_move.
      destruct (read_optional_file_text_for_delta _ _ _) as [o exact] eqn:Hopt.
      destruct (write_file_with_missing_parent_retry _ _ _) as [w1 [?|]]; [|done].
      destruct (remove_checked _ _ _ _ _) as [[w2 d2] [?|]] eqn:Hrm; intros [= <- <-]; cbn.
      destruct (remove_checked_delta _ _ _ _ _ _ _ _ Hrm) as [_ He]; cbn in *.
      intros Hd. specialize (He Hd) as ->. apply read_optional_flag, note_support_exact in Hopt.
      split; [done|]. eexists. split; [|done]. cbn. split; [done|]. do 4 eexists. eauto.
    + destruct (write_file w p new) as [w1 [?|]]; intros [= <- <-]; cbn.
      intros ?%note_support_exact. split; [done|]. eexists. split; [|done]. cbn.
      split; [done|]. do 4 eexists. eauto.
Qed.

Lemma apply_hunks_loop_describes w d cwd a hunks w' d' a' :
  apply_hunks_loop w d cwd a hunks = Some (w', d', Ok a') → delta_exact d' = true →
  delta_exact d = true ∧
  ∃ cs, Forall2 (describes cwd) hunks cs ∧ delta_changes d' = delta_changes d ++ cs.
Proof.
  revert w d a. induction hunks as [|hunk hunks IH]; intros w d a; cbn.
  { intros [= <- <- <-] He. split; [done|]. exists []. split; [done|]. by rewrite app_nil_r. }
  destruct (apply_hunk w d cwd hunk) as [[[w1 d1] [u|e]]|] eqn:Hh; cbn; [|done..].
  intros Hrun He. destruct (IH _ _ _ Hrun He) as (He1 & cs & Hcs & ->).
  destruct (apply_hunk_describes _ _ _ _ _ _ _ Hh He1) as (He0 & c & Hc & ->).
  split; [done|]. exists (c :: cs). split; [by constructor|]. by rewrite <- app_assoc.
Qed.

(** A successful run with an exact delta committed one change per hunk, in
    order, and each is the change the hunk asks for. *)
Theorem successful_run_describes w cwd hunks w' d a :
  apply_hunks_to_files w empty_delta cwd hunks = Some (w', d, Ok a) →
  delta_exact d = true →
  Forall2 (describes cwd) hunks (delta_changes d).
Proof.
  intros Hrun He. destruct hunks as [|h hunks]; [done|].
  by destruct (apply_hunks_loop_describes _ _ _ _ _ _ _ _ Hrun He) as (_ & cs & Hcs & ->).
Qed.

Lemma derive_from_chunks_total w p chunks :
  ∃ r, derive_new_contents_from_chunks w p chunks = Some r.
Proof.
  unfold derive_new_contents_from_chunks. destruct (read_file_text w p) as [c|]; [|by eexists].
  destruct (derive_total c (inferred_native_path_string p) chunks) as [r ->]. by eexists.
Qed.

Lemma apply_hunk_total w d cwd hunk : ∃ o, apply_hunk w d cwd hunk = Some o.
Proof.
  unfold apply_hunk. destruct (uri_join _ _) as [p|]; [|by eexists].
  destruct hunk as [| |path move_path chunks]; [by eexists..|].
  unfold apply_update. destruct (derive_from_chunks_total w p chunks) as [r ->]. by eexists.
Qed.

Lemma apply_hunks_loop_total w d cwd a hunks : ∃ o, apply_hunks_loop w d cwd a hunks = Some o.
Proof.
  revert w d a. induction hunks as [|hunk hunks IH]; intros w d a; cbn; [by eexists|].
  destruct (apply_hunk_total w d cwd hunk) as [[[w1 d1] [u|e]] ->]; cbn; [done|by eexists].
Qed.

(** C33: [apply_patch] never panics, whatever the patch text, the file system and the
    streams, and a patch that does not parse leaves the file system as it is and
    reports an empty exact delta. *)
Theorem apply_patch_total w cwd (stdout stderr : O) patch :
  ∃ r, apply_patch w cwd stdout stderr patch = Some r
    ∧ (is_ok (parse_patch patch) = false →
       run_fs r = w ∧ ∃ e, run_result r = Err (e, empty_delta)).
Proof.
  unfold apply_patch. destruct (parse_patch patch) as [source|e].
  - unfold apply_hunks, apply_hunks_to_files.
    destruct (args_hunks source) as [|h hs]; [by eexists|].
    destruct (apply_hunks_loop_total w empty_delta cwd (mkAffected [] [] []) (h :: hs))
      as [[[w1 d1] r] ->]. by eexists.
  - destruct (write_str _ _) as [stderr1 [|]]; eexists; (split; [done|]); cbn; eauto.
Qed.
End success.

(** ** An in-memory file system *)

Module MemFs.
Inductive node : Type := File (contents : str) | Dir | Symlink.

(** Paths are segment lists; the empty path is the root directory. *)
Abbreviation mpath := (list str).
Abbreviation world := (gmap mpath node).

Definition node_at (w : world) (p : mpath) : option node :=
  match p with [] => Some Dir | _ :: _ => w !! p end.

Definition not_found : IoSource := mkIoError NotFound (lit "not found").
Definition other_error : IoSource := mkIoError OtherKind (lit "not a file").

Definition mem_write (w : world) (p : mpath) (c : str) : world * result IoSource unit :=
  match node_at w (removelast p), node_at w p with
  | Some Dir, (Some (File _) | None) => (<[p := File c]> w, Ok tt)
  | Some Dir, Some _ => (w, Err other_error)
  | _, _ => (w, Err not_found)
  end.

Definition mem_remove (w : world) (p : mpath) : world * result IoSource unit :=
  match node_at w p with
  | Some (File _) | Some Symlink => (delete p w, Ok tt)
  | Some Dir => (w, Err other_error)
  | None => (w, Err not_found)
  end.

(** Creates the directories [pre ++ q] for every prefix [q] of [rest]. *)
Fixpoint mem_mkdirs (w : world) (pre rest : mpath) : world * result IoSource unit :=
  match rest with
  | [] => (w, Ok tt)
  | s :: rest' =>
      let p := pre ++ [s] in
      match node_at w p with
      | None => mem_mkdirs (<[p := Dir]> w) p rest'
      | Some Dir => mem_mkdirs w p rest'
      | Some _ => (w, Err other_error)
      end
  end.

#[global] Instance mem_path : PathUri mpath := {
  uri_join base s := Ok (base ++ split_char 47%N s);
  uri_parent p := match p with [] => None | _ :: _ => Some (removelast p) end;
  inferred_native_path_string p := join [47%N] p;
}.

#[global] Instance mem_fs : ExecutorFileSystem mpath world := {
  read_file_text w p :=
    match node_at w p with
    | Some (File c) => Ok c
    | Some _ => Err other_error
    | None => Err not_found
    end;
  get_metadata w p :=
    match node_at w p with
    | Some (File _) => Ok (mkMetadata false true false)
    | Some Dir => Ok (mkMetadata true false false)
    | Some Symlink => Ok (mkMetadata false false true)
    | None => Err not_found
    end;
  write_file := mem_write;
  fs_remove := mem_remove;
  fs_create_directory w p := mem_mkdirs w [] p;
}.

#[global] Instance mem_out : IoWrite str := { write_str out s := (out ++ s, Ok tt) }.

Lemma mem_view w p :
  view w p = match node_at w p with Some (File c) => Some c | _ => None end.
Proof. unfold view; cbn. by destruct (node_at w p) as [[| |]|]. Qed.

Lemma mem_settled (w : world) p :
  settled w p ↔ match node_at w p with Some (File _) | None => True | Some _ => False end.
Proof.
  unfold settled, note_existing_path_delta_support; cbn.
  by destruct (node_at w p) as [[| |]|]; cbn.
Qed.

Lemma node_at_insert w p n q :
  p ≠ [] → node_at (<[p := n]> w) q = if decide (q = p) then Some n else node_at w q.
Proof.
  intros Hp. destruct q as [|s q]; cbn; [by rewrite decide_False|].
  case_decide as Hq; [subst; by rewrite lookup_insert_eq|by rewrite lookup_insert_ne].
Qed.

Lemma node_at_delete w p q :
  p ≠ [] → node_at (delete p w) q = if decide (q = p) then None else node_at w q.
Proof.
  intros Hp. destruct q as [|s q]; cbn; [by rewrite decide_False|].
  case_decide as Hq; [subst; by rewrite lookup_delete_eq|by rewrite lookup_delete_ne].
Qed.

(** Creating directories turns missing paths along the way into directories. *)
Lemma mem_mkdirs_nodes w pre rest w' r q :
  mem_mkdirs w pre rest = (w', r) →
  node_at w' q = node_at w q
  ∨ (node_at w q = None ∧ node_at w' q = Some Dir ∧ length q ≤ length pre + length rest).
Proof.
  revert w pre. induction rest as [|s rest IH]; intros w pre; cbn.
  { intros [= <- <-]. by left. }
  assert (Hne : pre ++ [s] ≠ []) by by destruct pre.
  destruct (node_at w (pre ++ [s])) as [[c| |]|] eqn:Hn.
  - intros [= <- <-]. by left.
  - intros [?|(? & ? & Hle)]%IH; [by left|right]. rewrite length_app in Hle. cbn in Hle.
    repeat split; [done..|lia].
  - intros [= <- <-]. by left.
  - intros Hrun%IH. rewrite length_app in Hrun. cbn in Hrun. rewrite node_at_insert in Hrun by done.
    destruct (decide (q = pre ++ [s])) as [->|]; [|destruct Hrun as [?|(? & ? & ?)]; [by left|]].
    + right. destruct Hrun as [Hq|(? & _)]; [|done]. rewrite length_app. cbn. repeat split; [done..|lia].
    + right. repeat split; [done..|lia].
Qed.

#[global] Instance mem_laws : FileSystemLaws (P := mpath) (W := world).
Proof.
  split.
  - intros w p e c. cbn. by destruct (node_at w p) as [[| |]|].
  - intros w p c w' Hs%mem_settled. cbn. unfold mem_write.
    destruct p as [|s p]; [done|].
    destruct (node_at w (removelast _)) as [[| |]|], (node_at w (s :: p)) as [[| |]|]; try done;
      intros [= <-] q; unfold upd; rewrite !mem_view, node_at_insert by done; by case_decide.
  - intros w p c w' e Hs. cbn. unfold mem_write.
    destruct (node_at w (removelast p)) as [[| |]|], (node_at w p) as [[| |]|]; try done;
      by intros [= <- <-].
  - intros w p parent w' Hs Hp Hmk.
    destruct p as [|s p]; [done|]. cbn -[removelast] in Hp, Hmk. injection Hp as <-.
    assert (Hlen : length (removelast (s :: p)) < length (s :: p)).
    { destruct (exists_last (l := s :: p)) as (l & x & ->); [done|].
      rewrite removelast_snoc, length_app. cbn. lia. }
    split.
    + intros q. rewrite !mem_view.
      destruct (mem_mkdirs_nodes _ _ _ _ _ q Hmk) as [->|(-> & -> & _)]; done.
    + apply mem_settled. apply mem_settled in Hs.
      destruct (mem_mkdirs_nodes _ _ _ _ _ (s :: p) Hmk) as [->|(_ & _ & Hle)]; [done|].
      cbn [removelast length] in *. lia.
  - intros w p w' Hs%mem_settled. cbn. unfold mem_remove.
    destruct p as [|s p]; [done|].
    destruct (node_at w (s :: p)) as [[| |]|]; try done;
      intros [= <-] q; unfold upd; rewrite !mem_view, node_at_delete by done; by case_decide.
  - intros w p w' e Hs. cbn. unfold mem_remove.
    destruct (node_at w p) as [[| |]|]; try done; intros [= <- <-]; split; try done; by left.
Qed.

(** A small world, and a patch that adds a file in a new directory, updates one
    file and moves another. *)
Definition line (s : string) : str := lit s ++ [LF].

Definition sample_world : world :=
  {[ [lit "a"] := File (line "x"); [lit "b"] := File (line "y") ]}.

Definition sample_hunks : list Hunk :=
  [ AddFile (lit "d/n") (line "new");
    UpdateFile (lit "a") None [mkChunk None [lit "x"] [lit "z"] false];
    UpdateFile (lit "b") (Some (lit "d/c")) [mkChunk None [lit "y"] [lit "w"] false] ].

Definition exact_of {A B} (o : option (A * AppliedPatchDelta mpath * B)) : bool :=
  match o with Some (_, d, _) => delta_exact d | None => false end.

Lemma exact_delta_faithful_witness :
  ∃ w' d r, apply_hunks_to_files sample_world empty_delta [] sample_hunks = Some (w', d, r)
    ∧ delta_exact d = true
    ∧ replay (view sample_world) (delta_changes d) ≡ view w'
    ∧ undo (view w') (delta_changes d) ≡ view sample_world.
Proof.
  assert (He : exact_of (apply_hunks_to_files sample_world empty_delta [] sample_hunks) = true)
    by (vm_compute; reflexivity).
  destruct (apply_hunks_to_files sample_world empty_delta [] sample_hunks)
    as [[[w' d] r]|] eqn:Hrun; [|discriminate He].
  exists w', d, r. split; [reflexivity|]. split; [exact He|].
  exact (exact_delta_faithful sample_world [] sample_hunks w' d r Hrun He).
Defined.

Lemma successful_run_describes_witness :
  ∃ w' d a, apply_hunks_to_files sample_world empty_delta [] sample_hunks = Some (w', d, Ok a)
    ∧ Forall2 (describes []) sample_hunks (delta_changes d).
Proof.
  assert (He : exact_of (apply_hunks_to_files sample_world empty_delta [] sample_hunks) = true)
    by (vm_compute; reflexivity).
  assert (Hok : match apply_hunks_to_files sample_world empty_delta [] sample_hunks with
                | Some (_, _, r) => is_ok r | None => false end = true)
    by (vm_compute; reflexivity).
  destruct (apply_hunks_to_files sample_world empty_delta [] sample_hunks)
    as [[[w' d] [a|e]]|] eqn:Hrun; [|discriminate Hok|discriminate He].
  exists w', d, a. split; [reflexivity|].
  exact (successful_run_describes sample_world [] sample_hunks w' d a Hrun He).
Defined.

(** Moving a file onto itself reports success and removes it: the new contents are
    written to the destination, then the original, which is the same path, is
    removed. *)
Definition self_move : list Hunk :=
  [UpdateFile (lit "a") (Some (lit "a")) [mkChunk None [lit "x"] [lit "z"] false]].

Lemma self_move_removes_file :
  match apply_hunks_to_files sample_world empty_delta [] self_move with
  | Some (w', d, Ok a) =>
      modified a = [lit "a"] ∧ delta_exact d = true ∧ view w' [lit "a"] = None
  | _ => False
  end.
Proof. by vm_compute. Qed.
End MemFs.
