(* ===== verification/PatchInvocation.v ===== *)
(** * Recognising and previewing patches: [apply-patch/src/invocation.rs]

    A command may be a call of [apply_patch], directly or as a shell script with a
    here-document.  [maybe_parse_apply_patch] recognises it, and
    [try_verify_apply_patch_args] computes the changes that are shown for approval.
    The tree-sitter parser with the query of the source is the parameter
    [apply_patch_matches], the path convention of a directory is
    [infer_path_convention], and the diff of two texts (the [similar] crate) is
    [unified_diff].  The outer [option] is [None] where the code would panic. *)

From Stdlib Require Import String.
From stdpp Require Import base option list numbers gmap.
From S2P Require Import Prelude SeekSequence PatchParser PatchApply PatchFs PatchFsFacts.

Definition APPLY_PATCH_COMMANDS : list str := [lit "apply_patch"; lit "applypatch"].

Inductive ExtractHeredocError : Type :=
| CommandDidNotStartWithApplyPatch
| FailedToLoadBashGrammar (message : str)
| HeredocNotUtf8
| FailedToParsePatchIntoAst
| FailedToFindHeredocBody.

Inductive MaybeApplyPatch : Type :=
| Body (args : ApplyPatchArgs)
| ShellParseError (e : ExtractHeredocError)
| PatchParseError (e : ParseError)
| NotApplyPatch.

(** [codex_utils_path_uri::PathConvention]. *)
Inductive PathConvention : Type := Posix | Windows.

Fixpoint split_on (p : char → bool) (s : str) : list str :=
  match s with
  | [] => [[]]
  | c :: s' =>
      if p c then [] :: split_on p s'
      else match split_on p s' with
           | part :: parts => (c :: part) :: parts
           | [] => [[c]]
           end
  end.

Definition path_segments (convention : PathConvention) (path : str) : list str :=
  split_on (λ c, match convention with
                 | Posix => N.eqb c 47
                 | Windows => N.eqb c 47 || N.eqb c 92
                 end) path.

Definition classify_shell_name (shell : str) (convention : PathConvention) : option str :=
  basename ← last (path_segments convention shell);
  let stem :=
    match rsplit_once 46%N basename with
    | Some (stem, _) => if bool_decide (stem = []) then basename else stem
    | None => basename
    end in
  Some (to_ascii_lowercase stem).

(** [ApplyPatchShell::Unix] is the only shell. *)
Definition classify_shell (shell flag : str) (convention : PathConvention) : option unit :=
  name ← classify_shell_name shell convention;
  if bool_decide (name ∈ [lit "bash"; lit "zsh"; lit "sh"]) && bool_decide (flag ∈ [lit "-lc"; lit "-c"])
  then Some tt else None.

(** A capture of the query: its name and the text of its node, if it is UTF-8. *)
Record Capture : Type := mkCapture { capture_name : str; capture_text : option str }.

(** The texts found in one match. *)
Definition read_capture (acc : option str * option str) (c : Capture)
    : result ExtractHeredocError (option str * option str) :=
  if capture_name c ==s lit "heredoc" then
    match capture_text c with
    | Some text => Ok (Some (trim_end_matches (N.eqb LF) text), acc.2)
    | None => Err HeredocNotUtf8
    end
  else if capture_name c ==s lit "cd_path" then
    match capture_text c with
    | Some text => Ok (acc.1, Some text)
    | None => Err HeredocNotUtf8
    end
  else if capture_name c ==s lit "cd_raw_string" then
    match capture_text c with
    | Some raw =>
        let trimmed := default raw (s ← strip_prefix [39%N] raw; strip_suffix [39%N] s) in
        Ok (acc.1, Some trimmed)
    | None => Err HeredocNotUtf8
    end
  else Ok acc.

Fixpoint read_captures (acc : option str * option str) (cs : list Capture)
    : result ExtractHeredocError (option str * option str) :=
  match cs with
  | [] => Ok acc
  | c :: cs' => let? acc := read_capture acc c in read_captures acc cs'
  end.

Fixpoint first_heredoc (ms : list (list Capture)) : result ExtractHeredocError (str * option str) :=
  match ms with
  | [] => Err CommandDidNotStartWithApplyPatch
  | m :: ms' =>
      let? found := read_captures (None, None) m in
      match found with
      | (Some heredoc, cd_path) => Ok (heredoc, cd_path)
      | (None, _) => first_heredoc ms'
      end
  end.

(** A change that is proposed for a file. *)
Inductive ApplyPatchFileChange (P : Type) : Type :=
| ProposeAdd (content : str)
| ProposeDelete (content : str)
| ProposeUpdate (unified_diff : str) (move_path : option P) (new_content : str).
Arguments ProposeAdd {P} _.
Arguments ProposeDelete {P} _.
Arguments ProposeUpdate {P} _ _ _.

Record ApplyPatchAction (P : Type) `{Countable P} : Type := mkAction {
  changes : gmap P (ApplyPatchFileChange P);
  action_patch : str;
  action_cwd : P;
}.
Arguments mkAction {P _ _} _ _ _.
Arguments changes {P _ _} _.
Arguments action_patch {P _ _} _.
Arguments action_cwd {P _ _} _.

Inductive MaybeApplyPatchVerified (P : Type) `{Countable P} : Type :=
| VerifiedBody (action : ApplyPatchAction P)
| VerifiedShellParseError (e : ExtractHeredocError)
| CorrectnessError (e : ApplyPatchError)
| VerifiedNotApplyPatch.
Arguments VerifiedBody {P _ _} _.
Arguments VerifiedShellParseError {P _ _} _.
Arguments CorrectnessError {P _ _} _.
Arguments VerifiedNotApplyPatch {P _ _}.

Section invocation.
Context {P W : Type} `{Countable P} `{!PathUri P, !ExecutorFileSystem P W}.
Context (infer_path_convention : P → option PathConvention).
Context (apply_patch_matches : str → result ExtractHeredocError (list (list Capture))).
Context (unified_diff : str → str → str).

Definition parse_shell_script (argv : list str) (cwd : P) : option str :=
  convention ← infer_path_convention cwd;
  match argv with
  | [shell; flag; script] => classify_shell shell flag convention ≫= λ _, Some script
  | _ => None
  end.

Definition extract_apply_patch_from_bash (src : str) : result ExtractHeredocError (str * option str) :=
  let? ms := apply_patch_matches src in first_heredoc ms.

Definition set_workdir (args : ApplyPatchArgs) (workdir : option str) : ApplyPatchArgs :=
  mkArgs (args_patch args) (args_hunks args) workdir (args_environment_id args).

Definition maybe_parse_shell (argv : list str) (cwd : P) : MaybeApplyPatch :=
  match parse_shell_script argv cwd with
  | Some script =>
      match extract_apply_patch_from_bash script with
      | Ok (body, workdir) =>
          match parse_patch body with
          | Ok source => Body (set_workdir source workdir)
          | Err e => PatchParseError e
          end
      | Err CommandDidNotStartWithApplyPatch => NotApplyPatch
      | Err e => ShellParseError e
      end
  | None => NotApplyPatch
  end.

Definition maybe_parse_apply_patch (argv : list str) (cwd : P) : MaybeApplyPatch :=
  match argv with
  | [cmd; body] =>
      if bool_decide (cmd ∈ APPLY_PATCH_COMMANDS) then
        match parse_patch body with
        | Ok source => Body source
        | Err e => PatchParseError e
        end
      else maybe_parse_shell argv cwd
  | _ => maybe_parse_shell argv cwd
  end.

(** [unified_diff_from_chunks]: the diff and the new content. *)
Definition unified_diff_from_chunks (w : W) (path : P) (chunks : list UpdateFileChunk)
    : option (result ApplyPatchError (str * str)) :=
  r ← derive_new_contents_from_chunks w path chunks;
  Some (let? contents := r in Ok (unified_diff contents.1 contents.2, contents.2)).

Definition join_path (cwd : P) (path : str) : result ApplyPatchError P :=
  match uri_join cwd path with Ok p => Ok p | Err message => Err (PathUriErr message) end.

(** One iteration of the loop over the hunks. *)
Definition verify_hunk (w : W) (cwd : P) (m : gmap P (ApplyPatchFileChange P)) (hunk : Hunk)
    : option (result ApplyPatchError (gmap P (ApplyPatchFileChange P))) :=
  match join_path cwd (hunk_source_path hunk) with
  | Err e => Some (Err e)
  | Ok path =>
      match hunk with
      | AddFile _ contents => Some (Ok (<[path := ProposeAdd contents]> m))
      | DeleteFile _ =>
          Some match read_file_text w path with
               | Ok content => Ok (<[path := ProposeDelete content]> m)
               | Err source => Err (IoErr (failed_to "Failed to read " path) source)
               end
      | UpdateFile _ move_path chunks =>
          r ← unified_diff_from_chunks w path chunks;
          Some (let? update := r in
                let? dest := match move_path with
                             | Some p => let? dest := join_path cwd p in Ok (Some dest)
                             | None => Ok None
                             end in
                Ok (<[path := ProposeUpdate update.1 dest update.2]> m))
      end
  end.

Fixpoint verify_hunks (w : W) (cwd : P) (m : gmap P (ApplyPatchFileChange P)) (hunks : list Hunk)
    : option (result ApplyPatchError (gmap P (ApplyPatchFileChange P))) :=
  match hunks with
  | [] => Some (Ok m)
  | hunk :: hunks' =>
      r ← verify_hunk w cwd m hunk;
      match r with
      | Ok m => verify_hunks w cwd m hunks'
      | Err e => Some (Err e)
      end
  end.

Definition try_verify_apply_patch_args (args : ApplyPatchArgs) (cwd : P) (w : W)
    : option (result ApplyPatchError (ApplyPatchAction P)) :=
  match match args_workdir args with Some dir => join_path cwd dir | None => Ok cwd end with
  | Err e => Some (Err e)
  | Ok effective_cwd =>
      r ← verify_hunks w effective_cwd ∅ (args_hunks args);
      Some (let? m := r in Ok (mkAction m (args_patch args) effective_cwd))
  end.

Definition verify_apply_patch_args (args : ApplyPatchArgs) (cwd : P) (w : W)
    : option (MaybeApplyPatchVerified P) :=
  r ← try_verify_apply_patch_args args cwd w;
  Some match r with Ok action => VerifiedBody action | Err e => CorrectnessError e end.

Definition implicit_invocation (argv : list str) (cwd : P) : bool :=
  match argv with [body] => is_ok (parse_patch body) | _ => false end
  || match parse_shell_script argv cwd with Some script => is_ok (parse_patch script) | None => false end.

Definition maybe_parse_apply_patch_verified (argv : list str) (cwd : P) (w : W)
    : option (MaybeApplyPatchVerified P) :=
  if implicit_invocation argv cwd then Some (CorrectnessError ImplicitInvocation)
  else match maybe_parse_apply_patch argv cwd with
       | Body args => verify_apply_patch_args args cwd w
       | ShellParseError e => Some (VerifiedShellParseError e)
       | PatchParseError e => Some (CorrectnessError (ParseErr e))
       | NotApplyPatch => Some VerifiedNotApplyPatch
       end.
End invocation.

(** ** The preview is what applying does *)

Section preview.
Context {P W : Type} `{Countable P} `{!PathUri P, !ExecutorFileSystem P W, !FileSystemLaws (P := P) (W := W)}.
Context (unified_diff : str → str → str).
Implicit Types w : W.

(** The paths a hunk reads or writes. *)
Definition touched (cwd : P) (hunk : Hunk) : list P :=
  let resolve p := match uri_join cwd p with Ok q => [q] | Err _ => [] end in
  resolve (hunk_source_path hunk)
  ++ match hunk with UpdateFile _ (Some dest) _ => resolve dest | _ => [] end.

(** A committed change as it is proposed. *)
Definition proposed (c : AppliedPatchChange P) : P * ApplyPatchFileChange P :=
  (change_path c,
   match change_kind c with
   | ChangeAdd content _ => ProposeAdd content
   | ChangeDelete content => ProposeDelete content
   | ChangeUpdate dest old _ new => ProposeUpdate (unified_diff old new) dest new
   end).

Definition change_paths (c : AppliedPatchChange P) : list P :=
  change_path c :: match change_kind c with ChangeUpdate (Some dest) _ _ _ => [dest] | _ => [] end.

Lemma describes_touched cwd hunk c :
  describes cwd hunk c → change_paths c = touched cwd hunk.
Proof.
  unfold describes, touched, change_paths. intros [-> Hk]. cbn. f_equal.
  destruct hunk as [path contents|path|path move_path chunks].
  - by destruct Hk as [ow ->].
  - by destruct Hk as [content ->].
  - destruct Hk as (dest & old & ow & new & -> & _ & Hm). destruct move_path as [m|]; [|by subst].
    by destruct Hm as (p & -> & ->).
Qed.

(** A change leaves the other paths alone. *)
Lemma replay_other (v : store P) c p : p ∉ change_paths c → replay_change v c p = v p.
Proof.
  unfold change_paths, replay_change. intros [Hp Hd]%not_elem_of_cons.
  destruct (change_kind c) as [| |[dest|]]; unfold upd; rewrite ?decide_False by done; try done.
  rewrite decide_False; [done|]. by apply not_elem_of_cons in Hd as [? _].
Qed.

Lemma view_read w p content : view w p = Some content → read_file_text w p = Ok content.
Proof.
  unfold view. destruct (get_metadata w p) as [m|]; [|done]. destruct (_ && _); [|done].
  by destruct (read_file_text w p) as [c|]; [intros [= ->]|].
Qed.

(** The preview of a hunk, on any file system that agrees on its source file. *)
Lemma verify_hunk_describes w w0 cwd hunk c m :
  describes cwd hunk c → records (view w) c → view w0 (change_path c) = view w (change_path c) →
  verify_hunk unified_diff w0 cwd m hunk = Some (Ok (<[(proposed c).1 := (proposed c).2]> m)).
Proof.
  unfold describes, verify_hunk, records, proposed, join_path. intros [-> Hk] Hrec Hv. cbn.
  destruct hunk as [path contents|path|path move_path chunks].
  - by destruct Hk as [ow ->].
  - destruct Hk as [content Hk]. rewrite Hk in *. by rewrite (view_read w0 _ content) by congruence.
  - destruct Hk as (dest & old & ow & new & Hk & Hder & Hm). rewrite Hk in *.
    assert (Hold : view w (change_path c) = Some old) by (destruct dest; [apply Hrec|done]).
    unfold unified_diff_from_chunks, derive_new_contents_from_chunks.
    rewrite (view_read w0 _ old) by congruence. cbn [mbind option_bind]. rewrite Hder.
    cbn [mbind option_bind rbind fst snd]. destruct move_path as [m'|]; [|by subst].
    destruct Hm as (p & -> & ->). done.
Qed.

Lemma apply_hunk_proposed w d cwd hunk w1 d1 u :
  apply_hunk w d cwd hunk = Some (w1, d1, Ok u) → delta_exact d1 = true →
  ∃ c, delta_changes d1 = delta_changes d ++ [c] ∧ describes cwd hunk c ∧ records (view w) c
       ∧ replay_change (view w) c ≡ view w1.
Proof.
  intros Hh He. destruct (apply_hunk_describes _ _ _ _ _ _ _ Hh He) as (_ & c & Hdesc & Hc).
  destruct (apply_hunk_accounts _ _ _ _ _ _ _ Hh He) as (_ & cs & Hcs & Ht).
  rewrite Hc in Hcs. apply app_inv_head in Hcs as <-. destruct Ht as [Hrec Hview]. by exists c.
Qed.

Lemma describes_paths cwd hunks cs p :
  Forall2 (describes cwd) hunks cs → p ∈ (proposed <$> cs).*1 → p ∈ (hunks ≫= touched cwd).
Proof.
  induction 1 as [|hunk c hunks cs Hd _ IH]; [done|].
  rewrite !fmap_cons, bind_cons, elem_of_cons, elem_of_app, <- (describes_touched _ _ _ Hd).
  intros [->|Hp]; [left; by left|right; by apply IH].
Qed.

Lemma verify_loop_matches w0 w d cwd a (m : gmap P (ApplyPatchFileChange P)) hunks w' d' a' :
  apply_hunks_loop w d cwd a hunks = Some (w', d', Ok a') → delta_exact d' = true →
  NoDup (hunks ≫= touched cwd) → (∀ p, p ∈ (hunks ≫= touched cwd) → view w p = view w0 p) →
  ∃ cs, delta_changes d' = delta_changes d ++ cs ∧ Forall2 (describes cwd) hunks cs
    ∧ verify_hunks unified_diff w0 cwd m hunks
      = Some (Ok (list_to_map (proposed <$> cs) ∪ m)).
Proof.
  revert w d a m. induction hunks as [|hunk hunks IH]; intros w d a m; cbn [apply_hunks_loop].
  { intros [= <- <- <-] _ _ _. exists []. cbn. by rewrite app_nil_r, (left_id_L ∅ (∪)). }
  destruct (apply_hunk w d cwd hunk) as [[[w1 d1] [u|e]]|] eqn:Hh; cbn [mbind option_bind]; [|done..].
  intros Hrun He Hnd Hv. destruct (apply_hunks_loop_describes _ _ _ _ _ _ _ _ Hrun He) as (He1 & _).
  destruct (apply_hunk_proposed _ _ _ _ _ _ _ Hh He1) as (c & Hc & Hdesc & Hrec & Hview).
  rewrite bind_cons in Hnd, Hv. apply NoDup_app in Hnd as (_ & Hdisj & Hnd).
  rewrite <- (describes_touched _ _ _ Hdesc) in Hdisj.
  destruct (IH w1 d1 (note_affected a hunk) (<[(proposed c).1 := (proposed c).2]> m) Hrun He Hnd)
    as (cs & Hcs & Hall & Hver).
  { intros p Hp. rewrite <- (Hview p), replay_other; [|by intros Hin; apply (Hdisj p)].
    apply Hv, elem_of_app. by right. }
  exists (c :: cs). split; [by rewrite Hcs, Hc, <- app_assoc|]. split; [by constructor|].
  cbn [verify_hunks]. rewrite (verify_hunk_describes w w0 cwd hunk c m Hdesc Hrec).
  2:{ symmetry. apply Hv, elem_of_app. left. rewrite <- (describes_touched _ _ _ Hdesc). by left. }
  cbn [mbind option_bind]. rewrite Hver. do 2 f_equal. cbn [fmap list_fmap].
  destruct (proposed c) as [k v] eqn:Ek. cbn [list_to_map foldr fst snd curry uncurry].
  rewrite <- insert_union_r, insert_union_l; [done|].
  apply not_elem_of_list_to_map_1. intros Hin%(describes_paths cwd hunks); [|done].
  apply (Hdisj (change_path c)); [by left|]. by change (change_path c) with (proposed c).1; rewrite Ek.
Qed.

(** C4: the preview of a patch is what applying it does: when the hunks name distinct
    files and applying them succeeds with an exact delta, verifying the patch
    beforehand succeeds, and the changes it proposes are exactly the committed ones,
    with the same contents, destinations and diffs. *)
Theorem preview_matches_application w cwd workdir effective_cwd args w' d a :
  args_workdir args = workdir →
  match workdir with Some dir => uri_join cwd dir | None => Ok cwd end = Ok effective_cwd →
  NoDup (args_hunks args ≫= touched effective_cwd) →
  apply_hunks_to_files w empty_delta effective_cwd (args_hunks args) = Some (w', d, Ok a) →
  delta_exact d = true →
  try_verify_apply_patch_args unified_diff args cwd w
  = Some (Ok (mkAction (list_to_map (proposed <$> delta_changes d)) (args_patch args) effective_cwd)).
Proof.
  intros <- Hcwd Hnd Hrun He. unfold try_verify_apply_patch_args, join_path.
  assert (Hl : ∃ a0, apply_hunks_loop w empty_delta effective_cwd a0 (args_hunks args)
                     = Some (w', d, Ok a)).
  { unfold apply_hunks_to_files in Hrun. destruct (args_hunks args); [done|by eexists]. }
  destruct Hl as [a0 Hl].
  destruct (verify_loop_matches w w empty_delta effective_cwd a0 ∅ _ w' d a Hl He Hnd)
    as (cs & Hcs & _ & Hver); [done|]. cbn in Hcs. rewrite Hcs, (right_id_L ∅ (∪)) in *.
  destruct (args_workdir args) as [dir|]; cbn in Hcwd; [rewrite Hcwd|simplify_eq];
    by rewrite Hver.
Qed.
End preview.

(** The sample patch of [MemFs], previewed. *)
Lemma preview_matches_application_witness :
  ∃ w' d a, apply_hunks_to_files MemFs.sample_world empty_delta [] MemFs.sample_hunks
      = Some (w', d, Ok a)
    ∧ try_verify_apply_patch_args (λ old new, old ++ new) (mkArgs [] MemFs.sample_hunks None None)
        [] MemFs.sample_world
      = Some (Ok (mkAction (list_to_map (proposed (λ old new, old ++ new) <$> delta_changes d)) [] [])).
Proof.
  assert (He : MemFs.exact_of (apply_hunks_to_files MemFs.sample_world empty_delta []
    MemFs.sample_hunks) = true) by (vm_compute; reflexivity).
  assert (Hok : match apply_hunks_to_files MemFs.sample_world empty_delta [] MemFs.sample_hunks with
                | Some (_, _, r) => is_ok r | None => false end = true)
    by (vm_compute; reflexivity).
  destruct (apply_hunks_to_files MemFs.sample_world empty_delta [] MemFs.sample_hunks)
    as [[[w' d] [a|e]]|] eqn:Hrun; [|discriminate Hok|discriminate He].
  exists w', d, a. split; [reflexivity|].
  apply (preview_matches_application (λ old new, old ++ new) MemFs.sample_world [] None []
    (mkArgs [] MemFs.sample_hunks None None) w' d a); [reflexivity|reflexivity| |exact Hrun|exact He].
  apply (bool_decide_unpack _). vm_compute. exact I.
Defined.

(** A file that two hunks update is previewed with the second change alone, computed
    on the old file; applying commits both. *)
Definition twice_hunks : list Hunk :=
  [ UpdateFile (lit "a") None [mkChunk None [lit "x"] [lit "x"; lit "y"] false];
    UpdateFile (lit "a") None [mkChunk None [lit "x"] [lit "z"] false] ].

Lemma preview_loses_first_update :
  let diff (old new : str) : str := [] in
  try_verify_apply_patch_args diff (mkArgs [] twice_hunks None None) [] MemFs.sample_world
  = Some (Ok (mkAction {[ [lit "a"] := ProposeUpdate [] None (MemFs.line "z") ]} [] []))
  ∧ match apply_hunks_to_files MemFs.sample_world empty_delta [] twice_hunks with
    | Some (w', _, Ok _) => read_file_text w' [lit "a"] = Ok (MemFs.line "z" ++ MemFs.line "y")
    | _ => False
    end.
Proof. split; vm_compute; reflexivity. Qed.
