(* ===== verification/ExecRule.v ===== *)
(** * Command and network rules: [execpolicy/src/{decision,error,rule}.rs]

    Decisions, prefix rules over command tokens, and the normalisation of network
    rule hosts. *)

From Stdlib Require Import String.
From stdpp Require Import base option list numbers.
From S2P Require Import Prelude.

(** ** Decisions *)

Inductive Decision : Type := Allow | Prompt | Forbidden.

#[global] Instance Decision_eq_dec : EqDecision Decision.
Proof. solve_decision. Defined.

(** The derived [Ord]: the order of the variants. *)
Definition decision_rank (d : Decision) : nat :=
  match d with Allow => 0 | Prompt => 1 | Forbidden => 2 end.

Definition decision_le (a b : Decision) : bool := decision_rank a <=? decision_rank b.

Definition decision_max (a b : Decision) : Decision := if decision_le a b then b else a.

Record TextPosition : Type := mkPos { pos_line : nat; pos_column : nat }.
Record TextRange : Type := mkRange { range_start : TextPosition; range_end : TextPosition }.
Record ErrorLocation : Type := mkLocation { location_path : str; location_range : TextRange }.

Inductive Error : Type :=
| InvalidDecision (raw : str)
| InvalidPattern (message : str)
| InvalidExample (message : str)
| InvalidRule (message : str)
| ExampleDidNotMatch (rules examples : list str) (location : option ErrorLocation)
| ExampleDidMatch (rule example : str) (location : option ErrorLocation)
| Starlark (cause : str).

(** [Error::with_location]. *)
Definition with_location (e : Error) (location : ErrorLocation) : Error :=
  match e with
  | ExampleDidNotMatch rules examples None => ExampleDidNotMatch rules examples (Some location)
  | ExampleDidMatch rule example None => ExampleDidMatch rule example (Some location)
  | other => other
  end.

(** [Decision::parse]. *)
Definition parse_decision (raw : str) : result Error Decision :=
  if raw ==s lit "allow" then Ok Allow
  else if raw ==s lit "prompt" then Ok Prompt
  else if raw ==s lit "forbidden" then Ok Forbidden
  else Err (InvalidDecision raw).

(** ** Prefix rules *)

Inductive PatternToken : Type :=
| Single (expected : str)
| Alts (alternatives : list str).

Definition token_matches (t : PatternToken) (token : str) : bool :=
  match t with
  | Single expected => expected ==s token
  | Alts alternatives => existsb (λ alt, alt ==s token) alternatives
  end.

Definition token_alternatives (t : PatternToken) : list str :=
  match t with
  | Single expected => [expected]
  | Alts alternatives => alternatives
  end.

Record PrefixPattern : Type := mkPattern { first : str; rest : list PatternToken }.

Fixpoint rest_matches (rest : list PatternToken) (cmd : list str) : bool :=
  match rest, cmd with
  | t :: rest', token :: cmd' => token_matches t token && rest_matches rest' cmd'
  | _, _ => true
  end.

Definition matches_prefix (p : PrefixPattern) (cmd : list str) : option (list str) :=
  let pattern_length := length (rest p) + 1 in
  match cmd with
  | [] => None
  | head :: tokens =>
      if (length cmd <? pattern_length) || negb (head ==s first p) then None
      else if rest_matches (rest p) (take (length (rest p)) tokens)
      then Some (take pattern_length cmd) else None
  end.

Inductive RuleMatch : Type :=
| PrefixRuleMatch (matched_prefix : list str) (decision : Decision)
    (resolved_program : option str) (justification : option str)
| HeuristicsRuleMatch (command : list str) (decision : Decision).

Definition match_decision (m : RuleMatch) : Decision :=
  match m with PrefixRuleMatch _ d _ _ => d | HeuristicsRuleMatch _ d => d end.

Definition with_resolved_program (m : RuleMatch) (program : str) : RuleMatch :=
  match m with
  | PrefixRuleMatch matched_prefix d _ justification =>
      PrefixRuleMatch matched_prefix d (Some program) justification
  | other => other
  end.

Record PrefixRule : Type := mkRule {
  pattern : PrefixPattern;
  rule_decision : Decision;
  rule_justification : option str;
}.

(** [impl Rule for PrefixRule]. *)
Definition program (r : PrefixRule) : str := first (pattern r).

Definition rule_matches (r : PrefixRule) (cmd : list str) : option RuleMatch :=
  matched_prefix ← matches_prefix (pattern r) cmd;
  Some (PrefixRuleMatch matched_prefix (rule_decision r) None (rule_justification r)).

#[global] Arguments matches_prefix : simpl never.
#[global] Arguments rule_matches : simpl never.

(** ** Network rules *)

Inductive NetworkRuleProtocol : Type := Http | Https | Socks5Tcp | Socks5Udp.

Definition parse_protocol (raw : str) : result Error NetworkRuleProtocol :=
  if raw ==s lit "http" then Ok Http
  else if (raw ==s lit "https") || (raw ==s lit "https_connect") || (raw ==s lit "http-connect")
  then Ok Https
  else if raw ==s lit "socks5_tcp" then Ok Socks5Tcp
  else if raw ==s lit "socks5_udp" then Ok Socks5Udp
  else Err (InvalidRule
    (lit "network_rule protocol must be one of http, https, socks5_tcp, socks5_udp (got "
     ++ raw ++ lit ")")).

Definition as_policy_string (p : NetworkRuleProtocol) : str :=
  match p with
  | Http => lit "http" | Https => lit "https"
  | Socks5Tcp => lit "socks5_tcp" | Socks5Udp => lit "socks5_udp"
  end.

Record NetworkRule : Type := mkNetworkRule {
  nr_host : str;
  nr_protocol : NetworkRuleProtocol;
  nr_decision : Decision;
  nr_justification : option str;
}.

Definition all_digits (port : str) : bool :=
  negb (port ==s []) && forallb is_ascii_digit port.

(** Brackets and port of the host: what is left of [[v6]], [[v6]:port] and
    [host:port]. *)
Definition strip_host_port (raw host : str) : result Error str :=
  match strip_prefix (lit "[") host with
  | Some stripped =>
      match split_once 93%N stripped with
      | None => Err (InvalidRule (lit "network_rule host has an invalid bracketed IPv6 literal"))
      | Some (inside, rest) =>
          let port_ok := match strip_prefix (lit ":") rest with
                         | Some port => all_digits port | None => false end in
          if negb (rest ==s []) && negb port_ok
          then Err (InvalidRule (lit "network_rule host contains an unsupported suffix: " ++ raw))
          else Ok inside
      end
  | None =>
      if length (filter (λ c, c = 58%N) host) =? 1 then
        match rsplit_once 58%N host with
        | Some (candidate, port) =>
            if negb (candidate ==s []) && all_digits port then Ok candidate else Ok host
        | None => Ok host
        end
      else Ok host
  end.

Definition has_scheme_or_path (host : str) : bool :=
  contains_str (lit "://") host || contains_char 47%N host || contains_char 63%N host || contains_char 35%N host.

Definition normalize_network_rule_host (raw : str) : result Error str :=
  let host := trim raw in
  if host ==s [] then Err (InvalidRule (lit "network_rule host cannot be empty"))
  else if has_scheme_or_path host then
    Err (InvalidRule
      (lit "network_rule host must be a hostname or IP literal (without scheme or path)"))
  else
    let? host := strip_host_port raw host in
    let normalized := to_ascii_lowercase (trim (trim_end_matches (N.eqb 46) host)) in
    if normalized ==s [] then Err (InvalidRule (lit "network_rule host cannot be empty"))
    else if contains_char 42%N normalized then
      Err (InvalidRule
        (lit "network_rule host must be a specific host; wildcards are not allowed"))
    else if existsb is_whitespace normalized then
      Err (InvalidRule (lit "network_rule host cannot contain whitespace"))
    else Ok normalized.

(** ** Facts on decisions *)

Lemma decision_le_refl d : decision_le d d = true.
Proof. by destruct d. Qed.

Lemma decision_le_trans a b c :
  decision_le a b = true → decision_le b c = true → decision_le a c = true.
Proof. by destruct a, b, c. Qed.

Lemma decision_le_antisym a b : decision_le a b = true → decision_le b a = true → a = b.
Proof. by destruct a, b. Qed.

Lemma decision_le_forbidden d : decision_le d Forbidden = true.
Proof. by destruct d. Qed.

Lemma decision_max_le_l a b : decision_le a (decision_max a b) = true.
Proof. by destruct a, b. Qed.

Lemma decision_max_le_r a b : decision_le b (decision_max a b) = true.
Proof. by destruct a, b. Qed.

Lemma decision_max_cases a b : decision_max a b = a ∨ decision_max a b = b.
Proof. destruct a, b; auto. Qed.

Lemma decision_max_assoc a b c :
  decision_max a (decision_max b c) = decision_max (decision_max a b) c.
Proof. by destruct a, b, c. Qed.

(** ** Facts on prefix rules *)

(** A pattern as a predicate on commands. *)
Definition pattern_accepts (p : PrefixPattern) (cmd : list str) : Prop :=
  ∃ tokens tail, cmd = first p :: tokens ++ tail
    ∧ Forall2 (λ t token, token ∈ token_alternatives t) (rest p) tokens.

Lemma token_matches_true t token :
  token_matches t token = true ↔ token ∈ token_alternatives t.
Proof.
  destruct t as [expected|alts]; cbn.
  - rewrite bool_decide_eq_true, list_elem_of_singleton. naive_solver.
  - rewrite existsb_exists. split.
    + intros (x & Hin & ->%bool_decide_eq_true). by apply list_elem_of_In.
    + intros Hin. exists token. by rewrite bool_decide_eq_true, <- list_elem_of_In.
Qed.

Lemma rest_matches_true rest tokens :
  length rest = length tokens →
  rest_matches rest tokens = true ↔
  Forall2 (λ t token, token ∈ token_alternatives t) rest tokens.
Proof.
  revert tokens. induction rest as [|t rest IH]; intros [|token tokens] Hlen; cbn; try done.
  rewrite andb_true_iff, token_matches_true, IH by (cbn in Hlen; lia).
  split; [intros []; by constructor|by inversion 1].
Qed.

Lemma matches_prefix_spec p cmd :
  (∀ m, matches_prefix p cmd = Some m → m = take (length (rest p) + 1) cmd)
  ∧ (is_Some (matches_prefix p cmd) ↔ pattern_accepts p cmd).
Proof.
  unfold matches_prefix, pattern_accepts. destruct cmd as [|head tokens].
  { split; [done|]. split; [by intros []|]. by intros (? & ? & ? & _). }
  destruct (Nat.ltb_spec (length (head :: tokens)) (length (rest p) + 1)) as [Hlt|Hge]; cbn in *.
  { split; [done|]. split; [by intros []|]. intros (ts & tl & [= _ ->] & Hts).
    apply Forall2_length in Hts. rewrite length_app in Hlt. lia. }
  case_bool_decide as Hhead; cbn.
  2:{ split; [done|]. split; [by intros []|]. intros (ts & tl & [= ? _] & _). done. }
  set (ts := take (length (rest p)) tokens).
  assert (Hts : length (rest p) = length ts) by (unfold ts; rewrite length_take; lia).
  destruct (rest_matches (rest p) ts) eqn:Hm.
  - split; [by intros m [= <-]|]. split; [|by eexists]. intros _.
    exists ts, (drop (length (rest p)) tokens). unfold ts at 1. rewrite take_drop, Hhead.
    split; [done|]. by apply rest_matches_true.
  - split; [done|]. split; [by intros []|]. intros (ts' & tl & [= _ Htok] & Hts').
    assert (ts = ts') as Heq.
    { unfold ts. rewrite Htok. apply take_app_length'. by apply Forall2_length in Hts'. }
    rewrite <- Heq in Hts'. apply rest_matches_true in Hts'; [congruence|done].
Qed.

Lemma rule_matches_is_Some r cmd :
  is_Some (rule_matches r cmd) ↔ pattern_accepts (pattern r) cmd.
Proof.
  rewrite <- (proj2 (matches_prefix_spec (pattern r) cmd)). unfold rule_matches.
  rewrite !is_Some_alt. by destruct (matches_prefix (pattern r) cmd).
Qed.

Lemma rule_matches_decision r cmd m :
  rule_matches r cmd = Some m → match_decision m = rule_decision r.
Proof. unfold rule_matches. destruct (matches_prefix _ _); [|done]. by intros [= <-]. Qed.

Lemma rule_matches_head r cmd m :
  rule_matches r cmd = Some m → head cmd = Some (program r).
Proof.
  intros Hm. assert (pattern_accepts (pattern r) cmd) as (? & ? & -> & _).
  { apply rule_matches_is_Some. by eexists. }
  done.
Qed.

(** ** Facts on network rule hosts *)

Lemma to_ascii_lowercase_char_idemp c :
  to_ascii_lowercase_char (to_ascii_lowercase_char c) = to_ascii_lowercase_char c.
Proof.
  unfold to_ascii_lowercase_char.
  destruct ((65 <=? c)%N && (c <=? 90)%N) eqn:E; [|by rewrite E].
  destruct ((65 <=? c + 32)%N && (c + 32 <=? 90)%N) eqn:E'; [|done].
  rewrite !andb_true_iff, !N.leb_le in *. lia.
Qed.

Lemma to_ascii_lowercase_idemp s :
  to_ascii_lowercase (to_ascii_lowercase s) = to_ascii_lowercase s.
Proof.
  unfold to_ascii_lowercase. rewrite map_map. apply map_ext, to_ascii_lowercase_char_idemp.
Qed.

Lemma split_once_Some sep s a b : split_once sep s = Some (a, b) → s = a ++ sep :: b.
Proof.
  revert a. induction s as [|c s IH]; intros a; cbn; [done|].
  destruct (N.eqb_spec c sep) as [->|].
  - by intros [= <- <-].
  - destruct (split_once sep s) as [[a' b']|]; [|done]. intros [= <- <-].
    by rewrite (IH a' eq_refl).
Qed.

Lemma rsplit_once_Some sep s a b : rsplit_once sep s = Some (a, b) → s = a ++ sep :: b.
Proof.
  unfold rsplit_once. destruct (split_once sep (rev s)) as [[x y]|] eqn:E; [|done].
  intros [= <- <-]. apply split_once_Some in E. rewrite <- (rev_involutive s), E.
  rewrite rev_app_distr. cbn. by rewrite <- app_assoc.
Qed.

(** A predicate on the characters of the raw host holds of those of the result of
    the bracket and port step. *)
Lemma strip_host_port_Forall (Q : char → Prop) raw host h :
  Forall Q host → strip_host_port raw host = Ok h → Forall Q h.
Proof.
  intros Hq. unfold strip_host_port.
  destruct (strip_prefix (lit "[") host) as [stripped|] eqn:Hs.
  - apply strip_prefix_Some in Hs as ->. apply Forall_app in Hq as [_ Hq].
    destruct (split_once 93%N stripped) as [[inside rest']|] eqn:Ho; [|done].
    apply split_once_Some in Ho as ->. apply Forall_app in Hq as [Hq _].
    destruct (negb _ && negb _); [done|]. by intros [= <-].
  - destruct (_ =? 1); [|by intros [= <-]].
    destruct (rsplit_once 58%N host) as [[candidate port]|] eqn:Ho; [|by intros [= <-]].
    apply rsplit_once_Some in Ho as ->.
    destruct (negb _ && _); intros [= <-]; [by apply Forall_app in Hq as [? _]|done].
Qed.

(** What a normalised host is: not empty, lower case, without whitespace, wildcard,
    path, query or fragment characters. *)
Definition host_ok (h : str) : Prop :=
  h ≠ [] ∧ to_ascii_lowercase h = h
  ∧ Forall (λ c, is_whitespace c = false ∧ c ≠ 42 ∧ c ≠ 47 ∧ c ≠ 63 ∧ c ≠ 35)%N h.

Lemma contains_char_false c s : contains_char c s = false ↔ Forall (λ d, d ≠ c) s.
Proof.
  induction s as [|d s IH]; cbn; [by split|]. rewrite orb_false_iff, Forall_cons_iff, N.eqb_neq.
  unfold contains_char in IH. rewrite IH. split; intros []; split; auto.
Qed.

Lemma existsb_false {A} (f : A → bool) l : existsb f l = false ↔ Forall (λ x, f x = false) l.
Proof.
  induction l as [|x l IH]; cbn; [by split|]. by rewrite orb_false_iff, Forall_cons_iff, IH.
Qed.

Lemma Forall_lowercase c s :
  (c < 65 \/ 122 < c)%N → Forall (λ d, d ≠ c) s → Forall (λ d, d ≠ c) (to_ascii_lowercase s).
Proof.
  intros Hc Hs. unfold to_ascii_lowercase. apply Forall_map.
  eapply Forall_weaken; [exact Hs|]. cbn. intros d Hd. unfold to_ascii_lowercase_char.
  destruct ((65 <=? d)%N && (d <=? 90)%N) eqn:E; [|done].
  rewrite andb_true_iff, !N.leb_le in E. lia.
Qed.

Lemma Forall_trim (Q : char → Prop) s : Forall Q s → Forall Q (trim s).
Proof. intros. unfold trim, trim_start. apply Forall_trim_end_matches. by apply drop_while_Forall. Qed.

Lemma normalize_host_ok raw h : normalize_network_rule_host raw = Ok h → host_ok h.
Proof.
  unfold normalize_network_rule_host. case_bool_decide; [done|].
  destruct (has_scheme_or_path (trim raw)) eqn:Hpath; [done|].
  unfold has_scheme_or_path in Hpath. rewrite !orb_false_iff, !contains_char_false in Hpath.
  destruct Hpath as [[[_ H47] H63] H35].
  destruct (strip_host_port raw (trim raw)) as [host|] eqn:Hport; [|done]. cbn [rbind].
  set (n := to_ascii_lowercase _).
  assert (Hchar : ∀ c, (c < 65)%N → Forall (λ d, d ≠ c) (trim raw) → Forall (λ d, d ≠ c) n).
  { intros c Hc Hraw. apply Forall_lowercase; [by left|].
    apply Forall_trim, Forall_trim_end_matches. by eapply strip_host_port_Forall. }
  case_bool_decide as Hne; [done|].
  destruct (contains_char 42%N n) eqn:Hstar; [done|].
  destruct (existsb is_whitespace n) eqn:Hws; [done|]. intros [= <-].
  rewrite contains_char_false in Hstar. apply existsb_false in Hws.
  split; [done|]. split; [apply to_ascii_lowercase_idemp|].
  apply (Hchar 47%N) in H47; [|lia]. apply (Hchar 63%N) in H63; [|lia].
  apply (Hchar 35%N) in H35; [|lia].
  rewrite !Forall_forall in *. auto 10.
Qed.
