(* ===== verification/ExecPolicy.v ===== *)
(** * The execution policy: [execpolicy/src/{policy,executable_name}.rs]

    A policy keeps prefix rules by program name, network rules in order, and the
    paths host executables may have.  Absolutising a program path depends on the
    process (home and current directory) and is a parameter. *)

From Stdlib Require Import String.
From stdpp Require Import base option list numbers gmap sorting.
From S2P Require Import Prelude ExecRule.

(** ** Paths (Unix [std::path]) *)

Inductive path_component : Type := RootDir | CurDir | ParentDir | Normal (name : str).

Definition component_of (piece : str) : option path_component :=
  if piece ==s [] then None
  else if piece ==s lit "." then None
  else if piece ==s lit ".." then Some ParentDir
  else Some (Normal piece).

(** [Path::components]: repeated separators and inner [.] are skipped, a leading
    [.] is kept. *)
Definition components (path : str) : list path_component :=
  let pieces := split_char 47%N path in
  let body := omap component_of pieces in
  match pieces with
  | [] => []
  | [] :: _ :: _ => RootDir :: body
  | piece :: _ => if piece ==s lit "." then CurDir :: body else body
  end.

(** [Path::file_name]. *)
Definition file_name (path : str) : option str :=
  match last (components path) with Some (Normal name) => Some name | _ => None end.

(** [executable_lookup_key] and [executable_path_lookup_key] on Unix. *)
Definition executable_lookup_key (raw : str) : str := raw.

Definition executable_path_lookup_key (path : str) : option str :=
  executable_lookup_key <$> file_name path.

(** ** The policy *)

Record MatchOptions : Type := mkOptions { resolve_host_executables : bool }.

Definition default_options : MatchOptions := mkOptions false.

Record Policy : Type := mkPolicy {
  rules_by_program : gmap str (list PrefixRule);
  network_rules : list NetworkRule;
  host_executables_by_name : gmap str (list str);
}.

Definition empty_policy : Policy := mkPolicy ∅ [] ∅.

(** [MultiMap::insert] and [get_vec]. *)
Definition multimap_insert (m : gmap str (list PrefixRule)) (k : str) (r : PrefixRule)
  : gmap str (list PrefixRule) :=
  <[k := default [] (m !! k) ++ [r]]> m.

Definition render_pattern_token (t : PatternToken) : str :=
  match t with
  | Single value => value
  | Alts alternatives => lit "[" ++ join (lit "|") alternatives ++ lit "]"
  end.

Definition add_prefix_rule (p : Policy) (prefix : list str) (d : Decision)
  : result Error Policy :=
  match prefix with
  | [] => Err (InvalidPattern (lit "prefix cannot be empty"))
  | first_token :: rest =>
      let rule := mkRule (mkPattern first_token (map Single rest)) d None in
      Ok (mkPolicy (multimap_insert (rules_by_program p) first_token rule)
            (network_rules p) (host_executables_by_name p))
  end.

Definition blank_justification (j : option str) : bool :=
  match j with Some raw => trim raw ==s [] | None => false end.

Definition add_network_rule (p : Policy) (host : str) (protocol : NetworkRuleProtocol)
    (d : Decision) (justification : option str) : result Error Policy :=
  let? host := normalize_network_rule_host host in
  if blank_justification justification
  then Err (InvalidRule (lit "justification cannot be empty"))
  else Ok (mkPolicy (rules_by_program p)
             (network_rules p ++ [mkNetworkRule host protocol d justification])
             (host_executables_by_name p)).

Definition set_host_executable_paths (p : Policy) (name : str) (paths : list str) : Policy :=
  mkPolicy (rules_by_program p) (network_rules p)
    (<[name := paths]> (host_executables_by_name p)).

(** The overlay's rules are appended program by program; its host executables
    replace those of the same name. *)
Definition merge_overlay (p overlay : Policy) : Policy :=
  mkPolicy
    (union_with (λ a b, Some (a ++ b)) (rules_by_program p) (rules_by_program overlay))
    (network_rules p ++ network_rules overlay)
    (host_executables_by_name overlay ∪ host_executables_by_name p).

Definition upsert_domain (entries : list str) (host : str) : list str :=
  filter (λ e, e ≠ host) entries ++ [host].

Definition compile_network_rule (acc : list str * list str) (r : NetworkRule)
  : list str * list str :=
  let '(allowed, denied) := acc in
  match nr_decision r with
  | Allow => (upsert_domain allowed (nr_host r), filter (λ e, e ≠ nr_host r) denied)
  | Forbidden => (filter (λ e, e ≠ nr_host r) allowed, upsert_domain denied (nr_host r))
  | Prompt => (allowed, denied)
  end.

Definition compiled_network_domains (p : Policy) : list str * list str :=
  foldl compile_network_rule ([], []) (network_rules p).

(** ** Evaluation *)

Record Evaluation : Type := mkEvaluation {
  decision : Decision;
  matched_rules : list RuleMatch;
}.

Definition is_match (e : Evaluation) : bool :=
  existsb (λ m, match m with HeuristicsRuleMatch _ _ => false | _ => true end) (matched_rules e).

(** [Iterator::max] of the decisions. *)
Fixpoint max_decision (ms : list RuleMatch) : option Decision :=
  match ms with
  | [] => None
  | m :: ms' =>
      Some match max_decision ms' with
           | None => match_decision m
           | Some d => decision_max (match_decision m) d
           end
  end.

(** [Evaluation::from_matches]; [None] where its [expect] panics. *)
Definition from_matches (ms : list RuleMatch) : option Evaluation :=
  d ← max_decision ms; Some (mkEvaluation d ms).

Section eval.
(** [AbsolutePathBuf::try_from]; an error is its message. *)
Variable absolute_path : str → result str str.

Definition match_exact_rules (p : Policy) (cmd : list str) : option (list RuleMatch) :=
  first ← head cmd;
  Some (omap (λ r, rule_matches r cmd) (default [] (rules_by_program p !! first))).

Definition match_host_executable_rules (p : Policy) (cmd : list str) : list RuleMatch :=
  match cmd with
  | [] => []
  | first :: args =>
      match absolute_path first with
      | Err _ => []
      | Ok prog =>
          match executable_path_lookup_key prog with
          | None => []
          | Some basename =>
              match rules_by_program p !! basename with
              | None => []
              | Some rules =>
                  let allowed :=
                    match host_executables_by_name p !! basename with
                    | Some paths => existsb (λ path, path ==s prog) paths
                    | None => true
                    end in
                  if allowed then
                    map (λ m, with_resolved_program m prog)
                      (omap (λ r, rule_matches r (basename :: args)) rules)
                  else []
              end
          end
      end
  end.

(** [matched.filter(|m| !m.is_empty())]. *)
Definition nonempty_matches (ms : list RuleMatch) : option (list RuleMatch) :=
  match ms with [] => None | _ :: _ => Some ms end.

Definition matches_for_command_with_options (p : Policy) (cmd : list str)
    (heuristics_fallback : option (list str → Decision)) (options : MatchOptions)
  : list RuleMatch :=
  let matched :=
    match match_exact_rules p cmd ≫= nonempty_matches with
    | Some ms => ms
    | None =>
        if resolve_host_executables options
        then default [] (nonempty_matches (match_host_executable_rules p cmd))
        else []
    end in
  match matched, heuristics_fallback with
  | [], Some fallback => [HeuristicsRuleMatch cmd (fallback cmd)]
  | _, _ => matched
  end.

Definition matches_for_command (p : Policy) (cmd : list str)
    (heuristics_fallback : option (list str → Decision)) : list RuleMatch :=
  matches_for_command_with_options p cmd heuristics_fallback default_options.

Definition check_with_options (p : Policy) (cmd : list str) (fallback : list str → Decision)
    (options : MatchOptions) : option Evaluation :=
  from_matches (matches_for_command_with_options p cmd (Some fallback) options).

Definition check (p : Policy) (cmd : list str) (fallback : list str → Decision)
  : option Evaluation := check_with_options p cmd fallback default_options.

Definition check_multiple_with_options (p : Policy) (commands : list (list str))
    (fallback : list str → Decision) (options : MatchOptions) : option Evaluation :=
  from_matches
    (concat (map (λ cmd, matches_for_command_with_options p cmd (Some fallback) options) commands)).

Definition check_multiple (p : Policy) (commands : list (list str))
    (fallback : list str → Decision) : option Evaluation :=
  check_multiple_with_options p commands fallback default_options.
End eval.

(** ** Listing the allowed prefixes *)

(** The lexicographic [Ord] of [Vec<T>] and [String]. *)
Fixpoint list_compare {A} (cmp : A → A → comparison) (l k : list A) : comparison :=
  match l, k with
  | [], [] => Eq
  | [], _ :: _ => Lt
  | _ :: _, [] => Gt
  | x :: l', y :: k' =>
      match cmp x y with Eq => list_compare cmp l' k' | c => c end
  end.

Definition prefix_compare : list str → list str → comparison :=
  list_compare (list_compare N.compare).

Definition compare_le (c : comparison) : bool := match c with Gt => false | _ => true end.

(** [Vec::sort] and [dedup]. *)
Fixpoint insert_prefix (x : list str) (l : list (list str)) : list (list str) :=
  match l with
  | [] => [x]
  | y :: l' => if compare_le (prefix_compare x y) then x :: l else y :: insert_prefix x l'
  end.

Definition sort_prefixes (l : list (list str)) : list (list str) := foldr insert_prefix [] l.

Fixpoint dedup (l : list (list str)) : list (list str) :=
  match l with
  | x :: ((y :: _) as l') => if bool_decide (x = y) then dedup l' else x :: dedup l'
  | _ => l
  end.

Definition all_rules (p : Policy) : list PrefixRule :=
  concat (map_to_list (rules_by_program p)).*2.

Definition rule_prefix (r : PrefixRule) : list str :=
  first (pattern r) :: map render_pattern_token (rest (pattern r)).

Definition get_allowed_prefixes (p : Policy) : list (list str) :=
  dedup (sort_prefixes
    (map rule_prefix (filter (λ r, rule_decision r = Allow) (all_rules p)))).

(** ** The order on prefixes *)

(** The laws of a total order given by a comparison function. *)
Class CompareLaws {A} (cmp : A → A → comparison) : Prop := {
  cmp_eq x y : cmp x y = Eq ↔ x = y;
  cmp_opp x y : cmp y x = CompOpp (cmp x y);
  cmp_trans x y z : cmp x y = Lt → cmp y z = Lt → cmp x z = Lt;
}.

#[global] Instance N_compare_laws : CompareLaws N.compare.
Proof.
  split; intros *; [apply N.compare_eq_iff|apply N.compare_antisym|].
  rewrite !N.compare_lt_iff. lia.
Qed.

#[global] Instance list_compare_laws {A} (cmp : A → A → comparison) :
  CompareLaws cmp → CompareLaws (list_compare cmp).
Proof.
  intros Hcmp. split.
  - intros l. induction l as [|x l IH]; intros [|y k]; cbn; try done.
    destruct (cmp x y) eqn:E.
    + apply cmp_eq in E as ->. rewrite IH. split; congruence.
    + split; [done|]. intros [= -> _]. by rewrite (proj2 (cmp_eq y y) eq_refl) in E.
    + split; [done|]. intros [= -> _]. by rewrite (proj2 (cmp_eq y y) eq_refl) in E.
  - intros l. induction l as [|x l IH]; intros [|y k]; cbn; try done.
    rewrite (cmp_opp x y). destruct (cmp x y); cbn; auto.
  - intros l. induction l as [|x l IH]; intros [|y k] [|z m]; cbn; try done.
    destruct (cmp x y) eqn:Exy; [| |done].
    + apply cmp_eq in Exy as ->. destruct (cmp y z); [apply IH|done|done].
    + intros _. destruct (cmp y z) eqn:Eyz; [| |done].
      * apply cmp_eq in Eyz as ->. by rewrite Exy.
      * by rewrite (cmp_trans (cmp := cmp) x y z).
Qed.

#[global] Instance prefix_compare_laws : CompareLaws prefix_compare.
Proof. unfold prefix_compare. apply _. Qed.

Definition prefix_lt (x y : list str) : Prop := prefix_compare x y = Lt.
Definition prefix_le (x y : list str) : Prop := compare_le (prefix_compare x y) = true.

Lemma prefix_le_lt x y : prefix_le x y ↔ x = y ∨ prefix_lt x y.
Proof.
  unfold prefix_le, prefix_lt. rewrite <- (cmp_eq (cmp := prefix_compare) x y).
  destruct (prefix_compare x y); cbn; split; auto; [done|by intros [|]].
Qed.

Lemma prefix_le_trans x y z : prefix_le x y → prefix_le y z → prefix_le x z.
Proof.
  rewrite !prefix_le_lt. intros [->|Hxy] [->|Hyz]; auto. right. by eapply (cmp_trans (cmp := prefix_compare) x y z).
Qed.

Lemma prefix_not_le x y : compare_le (prefix_compare x y) = false → prefix_le y x.
Proof.
  unfold prefix_le. rewrite (cmp_opp (cmp := prefix_compare) x y).
  by destruct (prefix_compare x y).
Qed.

Lemma insert_prefix_perm x l : insert_prefix x l ≡ₚ x :: l.
Proof.
  induction l as [|y l IH]; cbn; [done|]. destruct (compare_le _); [done|].
  rewrite IH. constructor.
Qed.

Lemma sort_prefixes_perm l : sort_prefixes l ≡ₚ l.
Proof. induction l as [|x l IH]; cbn; [done|]. by rewrite insert_prefix_perm, IH. Qed.

Lemma insert_prefix_sorted x l :
  StronglySorted prefix_le l → StronglySorted prefix_le (insert_prefix x l).
Proof.
  induction 1 as [|y l Hl IH Hall]; cbn; [by repeat constructor|].
  destruct (compare_le (prefix_compare x y)) eqn:E.
  - constructor; [by constructor|]. constructor; [done|].
    eapply Forall_weaken; [exact Hall|]. intros z. by apply prefix_le_trans.
  - constructor; [done|]. rewrite insert_prefix_perm. constructor; [by apply prefix_not_le|done].
Qed.

Lemma sort_prefixes_sorted l : StronglySorted prefix_le (sort_prefixes l).
Proof. induction l; cbn; [constructor|by apply insert_prefix_sorted]. Qed.

Lemma dedup_elem x l : x ∈ dedup l ↔ x ∈ l.
Proof.
  induction l as [|y l IH]; [done|]. destruct l as [|z l]; [done|].
  change (dedup (y :: z :: l))
    with (if bool_decide (y = z) then dedup (z :: l) else y :: dedup (z :: l)).
  case_bool_decide as Hyz; [|by rewrite elem_of_cons, IH, <- elem_of_cons].
  rewrite IH, Hyz, !elem_of_cons. tauto.
Qed.

Lemma dedup_sorted l : StronglySorted prefix_le l → StronglySorted prefix_lt (dedup l).
Proof.
  induction 1 as [|y l Hl IH Hall]; [constructor|]. destruct l as [|z l]; [by repeat constructor|].
  change (dedup (y :: z :: l))
    with (if bool_decide (y = z) then dedup (z :: l) else y :: dedup (z :: l)).
  case_bool_decide as Hyz; [done|]. constructor; [done|].
  apply Forall_forall. intros x Hx. rewrite dedup_elem in Hx.
  apply Forall_cons_1 in Hall as [Hz Hall]. apply prefix_le_lt in Hz as [?|Hz]; [done|].
  assert (prefix_le z x) as [->|Hlt]%prefix_le_lt.
  { apply elem_of_cons in Hx as [->|Hx]; [apply prefix_le_lt; by left|].
    inversion Hl as [|?? _ Hzl]; subst. rewrite Forall_forall in Hzl.
    by apply Hzl. }
  - done.
  - by eapply (cmp_trans (cmp := prefix_compare)).
Qed.
