(* ===== verification/ExecPolicyFacts.v ===== *)
(** * Properties of the execution policy

    A policy's answer is specified over the flat list of its rules; the indexed
    lookup of [check] is shown to implement it. *)

From Stdlib Require Import String.
From stdpp Require Import base option list numbers gmap sorting.
From S2P Require Import Prelude ExecRule ExecPolicy.

Set Warnings "-clear-no-such-hyp".

(** ** Invariant *)

(** Rules are filed under their program, and network hosts are normalised. *)
Definition rules_wf (m : gmap str (list PrefixRule)) : Prop :=
  ∀ k rs, m !! k = Some rs → Forall (λ r, program r = k) rs.

Definition policy_wf (p : Policy) : Prop :=
  rules_wf (rules_by_program p) ∧ Forall (λ r, host_ok (nr_host r)) (network_rules p).

Lemma multimap_insert_wf m k r : rules_wf m → program r = k → rules_wf (multimap_insert m k r).
Proof.
  intros Hm Hr k' rs. unfold multimap_insert. rewrite lookup_insert_Some.
  intros [[<- <-]|[_ ?]]; [|by apply Hm]. apply Forall_snoc. split; [|done].
  destruct (m !! k) as [rs'|] eqn:Hk; cbn; [by apply Hm|constructor].
Qed.

Lemma empty_policy_wf : policy_wf empty_policy.
Proof. split; [|constructor]. intros k rs. cbn. by rewrite lookup_empty. Qed.

Lemma add_prefix_rule_wf p prefix d p' :
  policy_wf p → add_prefix_rule p prefix d = Ok p' → policy_wf p'.
Proof.
  intros [Hr Hn]. destruct prefix as [|first rest]; [done|]. intros [= <-].
  split; [by apply multimap_insert_wf|done].
Qed.

Lemma add_network_rule_wf p host protocol d j p' :
  policy_wf p → add_network_rule p host protocol d j = Ok p' → policy_wf p'.
Proof.
  intros [Hr Hn]. unfold add_network_rule.
  destruct (normalize_network_rule_host host) as [h|] eqn:Hh; [|done]. cbn.
  destruct (blank_justification j); [done|]. intros [= <-]. split; [done|].
  apply Forall_snoc. split; [done|]. by eapply normalize_host_ok.
Qed.

Lemma set_host_executable_paths_wf p name paths :
  policy_wf p → policy_wf (set_host_executable_paths p name paths).
Proof. done. Qed.

Lemma merge_overlay_wf p overlay : policy_wf p → policy_wf overlay → policy_wf (merge_overlay p overlay).
Proof.
  intros [Hr Hn] [Hr' Hn']. split; [|by apply Forall_app].
  intros k rs. cbn. rewrite lookup_union_with.
  destruct (rules_by_program p !! k) as [a|] eqn:Ha,
    (rules_by_program overlay !! k) as [b|] eqn:Hb; cbn; intros [= <-].
  - apply Forall_app. split; [by apply Hr|by apply Hr'].
  - by apply Hr.
  - by apply Hr'.
Qed.

(** ** The specification *)

(** The decision a list of rules takes on a command: the most severe decision of
    the rules that accept it, and the fallback's when none does. *)
Definition policy_decides (rules : list PrefixRule) (fallback : list str → Decision)
    (cmd : list str) (d : Decision) : Prop :=
  (∀ r, r ∈ rules → pattern_accepts (pattern r) cmd → decision_le (rule_decision r) d = true)
  ∧ ((∃ r, r ∈ rules ∧ pattern_accepts (pattern r) cmd ∧ rule_decision r = d)
     ∨ (∀ r, r ∈ rules → ¬ pattern_accepts (pattern r) cmd) ∧ d = fallback cmd).

(** ** Maxima *)

Lemma max_decision_spec ms :
  match max_decision ms with
  | None => ms = []
  | Some d => (∀ m, m ∈ ms → decision_le (match_decision m) d = true)
              ∧ ∃ m, m ∈ ms ∧ match_decision m = d
  end.
Proof.
  induction ms as [|m ms IH]; cbn; [done|].
  destruct (max_decision ms) as [d|].
  - destruct IH as [Hle (m0 & Hm0 & Heq)]. split.
    + intros m' [->|Hin]%elem_of_cons; [apply decision_max_le_l|].
      eapply decision_le_trans; [by apply Hle|apply decision_max_le_r].
    + destruct (decision_max_cases (match_decision m) d) as [-> | ->].
      * exists m. split; [by left|done].
      * exists m0. split; [by right|done].
  - subst. split; [|exists m; split; [by left|done]].
    intros m' [->|Hin]%elem_of_cons; [apply decision_le_refl|by inversion Hin].
Qed.

Lemma from_matches_spec ms :
  ms ≠ [] →
  ∃ ev, from_matches ms = Some ev ∧ matched_rules ev = ms
    ∧ (∀ m, m ∈ ms → decision_le (match_decision m) (decision ev) = true)
    ∧ ∃ m, m ∈ ms ∧ match_decision m = decision ev.
Proof.
  intros Hne. unfold from_matches. pose proof (max_decision_spec ms) as Hspec.
  destruct (max_decision ms) as [d|]; [|done]. by eexists.
Qed.

(** ** Lookup *)

Lemma elem_of_all_rules p r :
  r ∈ all_rules p ↔ ∃ k rs, rules_by_program p !! k = Some rs ∧ r ∈ rs.
Proof.
  unfold all_rules. rewrite list_elem_of_In, in_concat. split.
  - intros (rs & Hrs & Hr). apply list_elem_of_In, list_elem_of_fmap in Hrs as ([k rs'] & -> & Hin).
    apply elem_of_map_to_list in Hin. exists k, rs'. by rewrite list_elem_of_In.
  - intros (k & rs & Hk & Hr). exists rs. rewrite <- !list_elem_of_In. split; [|done].
    apply list_elem_of_fmap. exists (k, rs). by rewrite elem_of_map_to_list.
Qed.

Definition exact_matches (p : Policy) (cmd : list str) : list RuleMatch :=
  default [] (match_exact_rules p cmd).

(** The rules filed under the command's program are all the rules that can match. *)
Lemma elem_of_exact_matches p cmd m :
  rules_wf (rules_by_program p) →
  m ∈ exact_matches p cmd ↔ ∃ r, r ∈ all_rules p ∧ rule_matches r cmd = Some m.
Proof.
  intros Hwf. unfold exact_matches, match_exact_rules.
  destruct cmd as [|first args]; cbn.
  { split; [by inversion 1|]. by intros (r & _ & Hm%rule_matches_head). }
  rewrite list_elem_of_omap. setoid_rewrite elem_of_all_rules. split.
  - intros (r & Hr & Hm). destruct (rules_by_program p !! first) as [rs|] eqn:Hk;
      [|by inversion Hr]. eauto 10.
  - intros (r & (k & rs & Hk & Hr) & Hm). exists r. split; [|done].
    apply rule_matches_head in Hm as Hhead. injection Hhead as ->.
    pose proof (Hwf _ _ Hk) as Hall. rewrite Forall_forall in Hall.
    by rewrite (Hall _ Hr), Hk.
Qed.

Lemma matches_default abs p cmd fallback :
  matches_for_command_with_options abs p cmd (Some fallback) default_options =
  match exact_matches p cmd with
  | [] => [HeuristicsRuleMatch cmd (fallback cmd)]
  | ms => ms
  end.
Proof.
  unfold matches_for_command_with_options, exact_matches.
  destruct (match_exact_rules p cmd) as [[|m ms]|]; done.
Qed.

Lemma matches_nonempty abs p cmd fallback options :
  matches_for_command_with_options abs p cmd (Some fallback) options ≠ [].
Proof. unfold matches_for_command_with_options. by destruct (match _ ≫= _ with Some _ => _ | _ => _ end). Qed.

Lemma check_decides_lemma abs p cmd fallback :
  policy_wf p →
  ∃ ev, check abs p cmd fallback = Some ev
        ∧ policy_decides (all_rules p) fallback cmd (decision ev).
Proof.
  intros [Hwf _]. unfold check, check_with_options.
  destruct (from_matches_spec _ (matches_nonempty abs p cmd fallback default_options))
    as (ev & -> & _ & Hmax & m & Hm & Hd).
  rewrite matches_default in Hmax, Hm. exists ev. split; [done|].
  pose proof (λ m, elem_of_exact_matches p cmd m Hwf) as Hex.
  assert (Hacc : ∀ r, r ∈ all_rules p → pattern_accepts (pattern r) cmd →
    ∃ m, m ∈ exact_matches p cmd ∧ match_decision m = rule_decision r).
  { intros r Hr [m' Hm']%rule_matches_is_Some. exists m'. split; [apply Hex; eauto|].
    by eapply rule_matches_decision. }
  destruct (exact_matches p cmd) as [|m0 ms] eqn:Hms.
  - assert (Hnone : ∀ r, r ∈ all_rules p → ¬ pattern_accepts (pattern r) cmd).
    { intros r Hr Ha. destruct (Hacc r Hr Ha) as (? & Hin & _). by inversion Hin. }
    split; [intros r Hr Ha; by destruct (Hnone r Hr)|]. right. split; [done|].
    apply list_elem_of_singleton in Hm as ->. done.
  - split.
    + intros r Hr Ha. destruct (Hacc r Hr Ha) as (m' & Hin & <-). by apply Hmax.
    + left. apply Hex in Hm as (r & Hr & Hrm). exists r. split; [done|].
      split; [apply rule_matches_is_Some; by eexists|].
      by rewrite <- (rule_matches_decision _ _ _ Hrm).
Qed.

(** C35: the policy's decision is the one its rules specify: [check] never panics,
    and on a well-formed policy it returns the most severe decision of the rules
    that accept the command, or the fallback's decision when no rule accepts it. *)
Theorem check_decides abs p cmd fallback :
  policy_wf p →
  ∃ ev, check abs p cmd fallback = Some ev
        ∧ policy_decides (all_rules p) fallback cmd (decision ev).
Proof. apply check_decides_lemma. Qed.

(** ** Overlays *)

Lemma exact_matches_merge p overlay cmd :
  exact_matches (merge_overlay p overlay) cmd = exact_matches p cmd ++ exact_matches overlay cmd.
Proof.
  unfold exact_matches, match_exact_rules. destruct cmd as [|first args]; [done|]. cbn.
  rewrite lookup_union_with, <- omap_app. f_equal.
  destruct (rules_by_program p !! first), (rules_by_program overlay !! first); cbn;
    by rewrite ?app_nil_r.
Qed.

Lemma check_exact abs p cmd fallback ev :
  exact_matches p cmd ≠ [] → check abs p cmd fallback = Some ev →
  from_matches (exact_matches p cmd) = Some ev.
Proof.
  unfold check, check_with_options. rewrite matches_default.
  by destruct (exact_matches p cmd).
Qed.

(** An overlay can only make a policy's own verdict more severe: if a rule of
    the base policy matches the command, the merged policy's decision is at least
    the base policy's, and a rule match is reported in both. *)
Theorem merge_overlay_monotone abs p overlay cmd fallback ev ev' :
  exact_matches p cmd ≠ [] →
  check abs p cmd fallback = Some ev →
  check abs (merge_overlay p overlay) cmd fallback = Some ev' →
  decision_le (decision ev) (decision ev') = true
  ∧ matched_rules ev `prefix_of` matched_rules ev'.
Proof.
  intros Hne Hev Hev'. apply check_exact in Hev; [|done].
  apply check_exact in Hev'; rewrite exact_matches_merge in *;
    [|intros [? _]%app_eq_nil; done].
  destruct (from_matches_spec _ Hne) as (e & He & Hms & _ & m & Hm & Hd).
  rewrite He in Hev. injection Hev as <-.
  destruct (from_matches_spec (exact_matches p cmd ++ exact_matches overlay cmd))
    as (e' & He' & Hms' & Hmax & _); [intros [? _]%app_eq_nil; done|].
  rewrite He' in Hev'. injection Hev' as <-. split.
  - rewrite <- Hd. apply Hmax, elem_of_app. by left.
  - rewrite Hms, Hms'. by apply prefix_app_r.
Qed.

(** ** Several commands *)

(** The verdict on a sequence of commands is the most severe of the verdicts on
    its commands, and there is one for every non-empty sequence. *)
Theorem check_multiple_is_max abs p commands fallback options :
  commands ≠ [] →
  ∃ ev, check_multiple_with_options abs p commands fallback options = Some ev
    ∧ (∀ cmd, cmd ∈ commands → ∃ e, check_with_options abs p cmd fallback options = Some e
         ∧ decision_le (decision e) (decision ev) = true)
    ∧ (∃ cmd e, cmd ∈ commands ∧ check_with_options abs p cmd fallback options = Some e
         ∧ decision e = decision ev).
Proof.
  intros Hne. unfold check_multiple_with_options, check_with_options.
  set (ms := λ cmd, matches_for_command_with_options abs p cmd (Some fallback) options).
  assert (Hms : ∀ cmd, ms cmd ≠ []) by (intros; apply matches_nonempty).
  assert (Helem : ∀ m, m ∈ concat (map ms commands) ↔ ∃ cmd, cmd ∈ commands ∧ m ∈ ms cmd).
  { intros m. setoid_rewrite list_elem_of_In. rewrite in_concat. setoid_rewrite in_map_iff.
    split; [intros (? & (cmd & <- & ?) & ?)|intros (cmd & ? & ?)]; eauto. }
  destruct (from_matches_spec (concat (map ms commands))) as (ev & -> & _ & Hmax & m & Hm & Hd).
  { destruct commands as [|cmd commands]; [done|]. cbn. intros [? _]%app_eq_nil. by apply (Hms cmd). }
  exists ev. split; [done|]. split.
  - intros cmd Hcmd. destruct (from_matches_spec (ms cmd) (Hms cmd)) as (e & He & _ & _ & m' & Hm' & Hd').
    exists e. split; [exact He|]. rewrite <- Hd'. apply Hmax, Helem. eauto.
  - apply Helem in Hm as (cmd & Hcmd & Hm).
    destruct (from_matches_spec (ms cmd) (Hms cmd)) as (e & He & _ & Hmax' & m' & Hm' & Hd').
    exists cmd, e. split; [done|]. split; [done|]. apply decision_le_antisym.
    + rewrite <- Hd'. apply Hmax, Helem. eauto.
    + rewrite <- Hd. by apply Hmax'.
Qed.

(** Callers must not pass an empty sequence: [from_matches] then panics. *)
Lemma check_multiple_empty abs p fallback : check_multiple abs p [] fallback = None.
Proof. done. Qed.

(** ** Network domains *)

(** The verdict on a host: that of the last rule on it that is not a prompt. *)
Definition verdict_step (host : str) (acc : option bool) (r : NetworkRule) : option bool :=
  if nr_host r ==s host then
    match nr_decision r with Allow => Some true | Forbidden => Some false | Prompt => acc end
  else acc.

Definition last_verdict (rules : list NetworkRule) (host : str) : option bool :=
  foldl (verdict_step host) None rules.

Definition domains_ok (acc : list str * list str) (verdict : str → option bool) : Prop :=
  NoDup acc.1 ∧ NoDup acc.2
  ∧ (∀ h, h ∈ acc.1 ↔ verdict h = Some true) ∧ (∀ h, h ∈ acc.2 ↔ verdict h = Some false).

Lemma upsert_domain_elem l host h : h ∈ upsert_domain l host ↔ h = host ∨ h ∈ l ∧ h ≠ host.
Proof.
  unfold upsert_domain. rewrite elem_of_app, list_elem_of_filter, list_elem_of_singleton. tauto.
Qed.

Lemma upsert_domain_NoDup l host : NoDup l → NoDup (upsert_domain l host).
Proof.
  intros Hl. unfold upsert_domain. apply NoDup_app. split; [by apply NoDup_filter|].
  split; [|apply NoDup_singleton]. intros x [? _]%list_elem_of_filter ?%list_elem_of_singleton. done.
Qed.

Lemma compile_network_rule_ok acc verdict r :
  domains_ok acc verdict →
  domains_ok (compile_network_rule acc r) (λ h, verdict_step h (verdict h) r).
Proof.
  destruct acc as [allowed denied]. intros (Ha & Hd & Hain & Hdin); cbn in *.
  unfold compile_network_rule, domains_ok, verdict_step.
  destruct (nr_decision r); cbn.
  - split; [by apply upsert_domain_NoDup|]. split; [by apply NoDup_filter|].
    split; intros h; rewrite ?upsert_domain_elem, ?list_elem_of_filter, ?Hain, ?Hdin;
      case_bool_decide; naive_solver.
  - split; [done|]. split; [done|]. split; intros h; rewrite ?Hain, ?Hdin; by case_bool_decide.
  - split; [by apply NoDup_filter|]. split; [by apply upsert_domain_NoDup|].
    split; intros h; rewrite ?upsert_domain_elem, ?list_elem_of_filter, ?Hain, ?Hdin;
      case_bool_decide; naive_solver.
Qed.

Lemma compile_rules_ok rules acc verdict :
  domains_ok acc verdict →
  domains_ok (foldl compile_network_rule acc rules) (λ h, foldl (verdict_step h) (verdict h) rules).
Proof.
  revert acc verdict. induction rules as [|r rules IH]; intros acc verdict Hok; [done|].
  cbn. by apply (IH _ (λ h, verdict_step h (verdict h) r)), compile_network_rule_ok.
Qed.

(** The compiled domain lists are the last verdicts: a host is in the allowed
    (denied) list exactly when the last allow-or-deny rule on it allows (denies) it;
    neither list has duplicates, and so no host is in both. *)
Theorem compiled_network_domains_correct p :
  domains_ok (compiled_network_domains p) (last_verdict (network_rules p)).
Proof.
  apply (compile_rules_ok _ ([], []) (λ _, None)).
  split_and!; [constructor..| |]; cbn; intros h; split; [by inversion 1|done|by inversion 1|done].
Qed.

(** ** Host executables *)

(** A rule is applied through the base name of a program path only if the host
    executables registered under that base name, when there are any, include that
    very path; the match reports the path. *)
Theorem host_executable_match_listed abs p cmd m :
  m ∈ match_host_executable_rules abs p cmd →
  ∃ program args path basename prefix d j,
    cmd = program :: args ∧ abs program = Ok path ∧ file_name path = Some basename
    ∧ m = PrefixRuleMatch prefix d (Some path) j
    ∧ ∀ paths, host_executables_by_name p !! basename = Some paths → path ∈ paths.
Proof.
  unfold match_host_executable_rules. destruct cmd as [|prog args]; [by inversion 1|].
  destruct (abs prog) as [path|] eqn:Habs; [|by inversion 1].
  unfold executable_path_lookup_key, executable_lookup_key.
  destruct (file_name path) as [basename|] eqn:Hname; cbn; [|by inversion 1].
  destruct (rules_by_program p !! basename) as [rules|]; [|by inversion 1].
  destruct (match host_executables_by_name p !! basename with Some _ => _ | _ => _ end) eqn:Hall;
    [|by inversion 1].
  rewrite list_elem_of_In, in_map_iff. intros (m0 & <- & Hm0%list_elem_of_In).
  apply list_elem_of_omap in Hm0 as (r & _ & Hr). unfold rule_matches in Hr.
  destruct (matches_prefix _ _) as [prefix|]; [|done]. injection Hr as <-.
  exists prog, args, path, basename. do 3 eexists. do 4 (split; [done|]).
  intros paths Hp. rewrite Hp in Hall. apply existsb_exists in Hall as (x & Hin & ->%bool_decide_eq_true).
  by apply list_elem_of_In.
Qed.

(** ** Allowed prefixes *)

(** The listed prefixes are those of the allow rules, each once, in
    lexicographic order. *)
Theorem get_allowed_prefixes_correct p :
  StronglySorted prefix_lt (get_allowed_prefixes p)
  ∧ ∀ x, x ∈ get_allowed_prefixes p ↔
         ∃ r, r ∈ all_rules p ∧ rule_decision r = Allow ∧ rule_prefix r = x.
Proof.
  unfold get_allowed_prefixes. split; [apply dedup_sorted, sort_prefixes_sorted|].
  intros x. rewrite dedup_elem, sort_prefixes_perm, list_elem_of_In, in_map_iff.
  setoid_rewrite <- list_elem_of_In. setoid_rewrite list_elem_of_filter. naive_solver.
Qed.

(** ** Adding rules *)

Lemma pattern_accepts_singles first rest cmd :
  pattern_accepts (mkPattern first (map Single rest)) cmd ↔ (first :: rest) `prefix_of` cmd.
Proof.
  unfold pattern_accepts; cbn. split.
  - intros (tokens & tail & -> & Hts). exists tail. cbn. do 2 f_equal.
    apply Forall2_fmap_l in Hts. clear -Hts.
    induction Hts as [|x y l k Hxy _ IH]; [done|]. cbn in Hxy.
    apply list_elem_of_singleton in Hxy as ->. by rewrite IH.
  - intros [tail ->]. exists rest, tail. split; [done|]. apply Forall2_fmap_l.
    apply Forall_Forall2_diag, Forall_forall. intros x _. cbn. by apply list_elem_of_singleton.
Qed.

Lemma add_prefix_rule_rules p first rest d p' :
  add_prefix_rule p (first :: rest) d = Ok p' →
  all_rules p' ≡ₚ mkRule (mkPattern first (map Single rest)) d None :: all_rules p.
Proof.
  intros [= <-]. unfold all_rules, multimap_insert; cbn.
  set (r := mkRule _ _ _). set (m := rules_by_program p).
  rewrite <- insert_delete_eq, map_to_list_insert by apply lookup_delete_eq. cbn.
  destruct (m !! first) as [rs|] eqn:Hm; cbn.
  - rewrite <- (insert_delete_id m first rs Hm) at 2.
    rewrite map_to_list_insert by apply lookup_delete_eq. cbn.
    rewrite (Permutation_app_comm rs [r]). done.
  - by rewrite delete_id.
Qed.

(** After a prefix rule is added, commands that start with the prefix are judged
    with at least its decision, and the verdict on every other command is decided by
    the same rules as before. *)
Theorem add_prefix_rule_effect abs p prefix d p' cmd fallback ev :
  policy_wf p → add_prefix_rule p prefix d = Ok p' →
  check abs p' cmd fallback = Some ev →
  (prefix `prefix_of` cmd → decision_le d (decision ev) = true)
  ∧ (¬ prefix `prefix_of` cmd → policy_decides (all_rules p) fallback cmd (decision ev)).
Proof.
  intros Hwf Hadd Hcheck. pose proof (add_prefix_rule_wf _ _ _ _ Hwf Hadd) as Hwf'.
  destruct (check_decides_lemma abs p' cmd fallback Hwf') as (ev' & Heq & Hdec).
  rewrite Hcheck in Heq. injection Heq as <-.
  destruct prefix as [|first rest]; [done|].
  pose proof (add_prefix_rule_rules _ _ _ _ _ Hadd) as Hrules.
  set (r := mkRule _ _ _) in Hrules.
  assert (Hr : pattern_accepts (pattern r) cmd ↔ (first :: rest) `prefix_of` cmd)
    by apply pattern_accepts_singles.
  destruct Hdec as [Hmax Hwhich]. setoid_rewrite Hrules in Hmax. setoid_rewrite Hrules in Hwhich.
  split.
  - intros Hp. apply (Hmax r); [by left|by apply Hr].
  - intros Hp. split; [intros r' Hr'; apply Hmax; by right|].
    destruct Hwhich as [(r' & Hin & Ha & Hd)|[Hnone Hd]].
    + left. apply elem_of_cons in Hin as [->|Hin]; [by apply Hr in Ha|]. eauto.
    + right. split; [|done]. intros r' Hin. apply Hnone. by right.
Qed.

(** ** Policies built by the operations *)

Inductive built : Policy → Prop :=
| built_empty : built empty_policy
| built_prefix p prefix d p' : built p → add_prefix_rule p prefix d = Ok p' → built p'
| built_network p host protocol d j p' :
    built p → add_network_rule p host protocol d j = Ok p' → built p'
| built_host p name paths : built p → built (set_host_executable_paths p name paths)
| built_merge p overlay : built p → built overlay → built (merge_overlay p overlay).

(** Every policy built with the policy's operations is well formed: its rules
    are filed under their programs and its network hosts are normalised (non-empty,
    lower case, without whitespace, wildcards, paths, queries or fragments). *)
Theorem built_policy_wf p : built p → policy_wf p.
Proof.
  induction 1; eauto using empty_policy_wf, add_prefix_rule_wf, add_network_rule_wf,
    set_host_executable_paths_wf, merge_overlay_wf.
Qed.

(** The normalisation strips trailing dots before it trims, so a dot before a blank
    survives. *)
Lemma normalize_keeps_inner_dot :
  normalize_network_rule_host (lit "a. .") = Ok (lit "a.")
  ∧ normalize_network_rule_host (lit "a.") = Ok (lit "a").
Proof. by vm_compute. Qed.

(** ** Witnesses *)

Definition no_paths (_ : str) : result str str := Err (lit "no path").
Definition unix_path (s : str) : result str str := Ok s.
Definition prompt_always (_ : list str) : Decision := Prompt.

Definition git_status : PrefixRule := mkRule (mkPattern (lit "git") [Single (lit "status")]) Allow None.
Definition git_any : PrefixRule := mkRule (mkPattern (lit "git") []) Forbidden None.

Definition sample_policy : Policy :=
  mkPolicy {[ lit "git" := [git_status] ]} [] {[ lit "git" := [lit "/usr/bin/git"] ]}.

Lemma sample_policy_wf : policy_wf sample_policy.
Proof.
  split; [|constructor]. intros k rs. cbn.
  intros [<- <-]%lookup_singleton_Some. by repeat constructor.
Qed.

Lemma check_decides_witness :
  ∃ ev, check no_paths sample_policy [lit "git"; lit "status"] prompt_always = Some ev
    ∧ policy_decides (all_rules sample_policy) prompt_always [lit "git"; lit "status"] (decision ev).
Proof.
  exact (check_decides no_paths sample_policy [lit "git"; lit "status"] prompt_always sample_policy_wf).
Defined.

Definition sample_overlay : Policy := mkPolicy {[ lit "git" := [git_any] ]} [] ∅.

Definition evaluation_of (o : option Evaluation) : Evaluation := default (mkEvaluation Allow []) o.

Lemma merge_overlay_monotone_witness :
  let cmd := [lit "git"; lit "status"] in
  let ev := evaluation_of (check no_paths sample_policy cmd prompt_always) in
  let ev' := evaluation_of (check no_paths (merge_overlay sample_policy sample_overlay) cmd prompt_always) in
  decision_le (decision ev) (decision ev') = true ∧ matched_rules ev `prefix_of` matched_rules ev'.
Proof.
  apply (merge_overlay_monotone no_paths sample_policy sample_overlay [lit "git"; lit "status"]
    prompt_always); vm_compute; [discriminate|reflexivity|reflexivity].
Defined.

Lemma check_multiple_is_max_witness :
  ∃ ev, check_multiple_with_options no_paths sample_policy
          [[lit "git"; lit "status"]; [lit "ls"]] prompt_always default_options = Some ev
    ∧ (∀ cmd, cmd ∈ [[lit "git"; lit "status"]; [lit "ls"]] → ∃ e,
         check_with_options no_paths sample_policy cmd prompt_always default_options = Some e
         ∧ decision_le (decision e) (decision ev) = true)
    ∧ (∃ cmd e, cmd ∈ [[lit "git"; lit "status"]; [lit "ls"]]
         ∧ check_with_options no_paths sample_policy cmd prompt_always default_options = Some e
         ∧ decision e = decision ev).
Proof.
  exact (check_multiple_is_max no_paths sample_policy [[lit "git"; lit "status"]; [lit "ls"]]
    prompt_always default_options ltac:(discriminate)).
Defined.

Lemma host_executable_match_listed_witness :
  ∃ program args path basename prefix d j,
    [lit "/usr/bin/git"; lit "status"] = program :: args
    ∧ unix_path program = Ok path ∧ file_name path = Some basename
    ∧ PrefixRuleMatch [lit "git"; lit "status"] Allow (Some (lit "/usr/bin/git")) None
      = PrefixRuleMatch prefix d (Some path) j
    ∧ ∀ paths, host_executables_by_name sample_policy !! basename = Some paths → path ∈ paths.
Proof.
  apply (host_executable_match_listed unix_path sample_policy [lit "/usr/bin/git"; lit "status"]).
  vm_compute. left.
Defined.

Lemma add_prefix_rule_effect_witness :
  let p' := mkPolicy (multimap_insert (rules_by_program sample_policy) (lit "ls")
              (mkRule (mkPattern (lit "ls") (map Single [lit "-l"])) Forbidden None))
              [] (host_executables_by_name sample_policy) in
  let ev := evaluation_of (check no_paths p' [lit "ls"; lit "-l"; lit "x"] prompt_always) in
  ([lit "ls"; lit "-l"] `prefix_of` [lit "ls"; lit "-l"; lit "x"] →
     decision_le Forbidden (decision ev) = true)
  ∧ (¬ [lit "ls"; lit "-l"] `prefix_of` [lit "ls"; lit "-l"; lit "x"] →
     policy_decides (all_rules sample_policy) prompt_always [lit "ls"; lit "-l"; lit "x"] (decision ev)).
Proof.
  apply (add_prefix_rule_effect no_paths sample_policy [lit "ls"; lit "-l"] Forbidden _ _ _ _
    sample_policy_wf eq_refl). vm_compute. reflexivity.
Defined.

Lemma built_policy_wf_witness :
  policy_wf (merge_overlay empty_policy (set_host_executable_paths empty_policy (lit "git") [])).
Proof.
  apply built_policy_wf. apply built_merge; [apply built_empty|].
  apply built_host, built_empty.
Defined.
