(* ===== verification/ExecPolicyParser.v ===== *)
(** * Building policies: [execpolicy/src/parser.rs]

    Policy files are Starlark programs whose calls to three builtins fill a policy
    builder.  The Starlark interpreter is a parameter that says which builtin calls
    a program makes, in order, and the error it ends with of its own, if any; the
    builtins and the builder are modelled. *)

From Stdlib Require Import String.
From stdpp Require Import base option list numbers gmap.
From S2P Require Import Prelude ExecRule ExecPolicy ExecPolicyFacts.

Set Warnings "-register-all".

(** ** Starlark values, as far as the builtins inspect them *)

Inductive Value : Type :=
| VStr (s : str)
| VList (items : list Value)
| VOther (type_name : str).

Definition unpack_str (v : Value) : option str :=
  match v with VStr s => Some s | _ => None end.

(** [Value::get_type]. *)
Definition get_type (v : Value) : str :=
  match v with VStr _ => lit "string" | VList _ => lit "list" | VOther t => t end.

(** [collect::<Result<Vec<_>, _>>]: the first error, or all the values. *)
Fixpoint collect {A B E} (f : A → result E B) (l : list A) : result E (list B) :=
  match l with
  | [] => Ok []
  | x :: l' => let? y := f x in let? ys := collect f l' in Ok (y :: ys)
  end.

Definition alternative_token (v : Value) : result Error str :=
  match unpack_str v with
  | Some s => Ok s
  | None => Err (InvalidPattern
              (lit "pattern alternative must be a string (got " ++ get_type v ++ lit ")"))
  end.

Definition parse_pattern_token (v : Value) : result Error PatternToken :=
  match v with
  | VStr s => Ok (Single s)
  | VList items =>
      let? tokens := collect alternative_token items in
      match tokens with
      | [] => Err (InvalidPattern (lit "pattern alternatives cannot be empty"))
      | [single] => Ok (Single single)
      | _ => Ok (Alts tokens)
      end
  | VOther _ => Err (InvalidPattern
      (lit "pattern element must be a string or list of strings (got " ++ get_type v ++ lit ")"))
  end.

Definition parse_pattern (items : list Value) : result Error (list PatternToken) :=
  let? tokens := collect parse_pattern_token items in
  match tokens with
  | [] => Err (InvalidPattern (lit "pattern cannot be empty"))
  | _ => Ok tokens
  end.

Definition example_token (v : Value) : result Error str :=
  match unpack_str v with
  | Some s => Ok s
  | None => Err (InvalidExample
              (lit "example tokens must be strings (got " ++ get_type v ++ lit ")"))
  end.

Definition parse_list_example (items : list Value) : result Error (list str) :=
  let? tokens := collect example_token items in
  match tokens with
  | [] => Err (InvalidExample (lit "example cannot be an empty list"))
  | _ => Ok tokens
  end.

Definition validate_host_executable_name (name : str) : result Error unit :=
  if name ==s [] then Err (InvalidRule (lit "host_executable name cannot be empty"))
  else if negb (length (components name) =? 1) || negb (bool_decide (file_name name = Some name))
  then Err (InvalidRule
         (lit "host_executable name must be a bare executable name (got " ++ name ++ lit ")"))
  else Ok tt.

Definition parse_network_rule_decision (raw : str) : result Error Decision :=
  if raw ==s lit "deny" then Ok Forbidden else parse_decision raw.

Definition check_justification (j : option str) : result Error (option str) :=
  if blank_justification j then Err (InvalidRule (lit "justification cannot be empty")) else Ok j.

Definition attach_validation_location (e : Error) (location : option ErrorLocation) : Error :=
  match location with Some l => with_location e l | None => e end.

(** ** The builder *)

Record PendingExampleValidation : Type := mkPending {
  pv_rules : list PrefixRule;
  pv_matches : list (list str);
  pv_not_matches : list (list str);
  pv_location : option ErrorLocation;
}.

Record PolicyBuilder : Type := mkBuilder {
  b_rules_by_program : gmap str (list PrefixRule);
  b_network_rules : list NetworkRule;
  b_host_executables : gmap str (list str);
  b_pending : list PendingExampleValidation;
}.

Definition new_builder : PolicyBuilder := mkBuilder ∅ [] ∅ [].

Definition builder_add_rule (b : PolicyBuilder) (r : PrefixRule) : PolicyBuilder :=
  mkBuilder (multimap_insert (b_rules_by_program b) (program r) r) (b_network_rules b)
    (b_host_executables b) (b_pending b).

Definition builder_add_network_rule (b : PolicyBuilder) (r : NetworkRule) : PolicyBuilder :=
  mkBuilder (b_rules_by_program b) (b_network_rules b ++ [r]) (b_host_executables b) (b_pending b).

Definition builder_add_host_executable (b : PolicyBuilder) (name : str) (paths : list str)
  : PolicyBuilder :=
  mkBuilder (b_rules_by_program b) (b_network_rules b) (<[name := paths]> (b_host_executables b))
    (b_pending b).

Definition add_pending_example_validation (b : PolicyBuilder) (v : PendingExampleValidation)
  : PolicyBuilder :=
  mkBuilder (b_rules_by_program b) (b_network_rules b) (b_host_executables b) (b_pending b ++ [v]).

Definition build (b : PolicyBuilder) : Policy :=
  mkPolicy (b_rules_by_program b) (b_network_rules b) (b_host_executables b).

(** A call of a builtin, with the location of the call. *)
Inductive builtin_call : Type :=
| PrefixRuleCall (pattern : list Value) (decision : option str) (match_ not_match : option (list Value))
    (justification : option str) (location : option ErrorLocation)
| NetworkRuleCall (host protocol decision : str) (justification : option str)
| HostExecutableCall (name : str) (paths : list Value).

Section parser.
(** [shlex::split] and [try_join], the [Debug] rendering of rules and matches,
    [Path::is_absolute] with [AbsolutePathBuf::try_from], the rendering of a builtin's
    error by the interpreter, and the interpreter. *)
Variable shlex_split : str → option (list str).
Variable shlex_join : list str → option str.
Variable debug_rule : PrefixRule → str.
Variable debug_match : RuleMatch → str.
Variable is_absolute : str → bool.
Variable absolute_path : str → result str str.
Variable error_string : Error → str.
Variable starlark_run : str → str → result str (list builtin_call * option str).

Definition parse_string_example (raw : str) : result Error (list str) :=
  match shlex_split raw with
  | None => Err (InvalidExample (lit "example string has invalid shell syntax"))
  | Some [] => Err (InvalidExample (lit "example cannot be an empty string"))
  | Some tokens => Ok tokens
  end.

Definition parse_example (v : Value) : result Error (list str) :=
  match v with
  | VStr raw => parse_string_example raw
  | VList items => parse_list_example items
  | VOther _ => Err (InvalidExample
      (lit "example must be a string or list of strings (got " ++ get_type v ++ lit ")"))
  end.

Definition parse_examples (items : list Value) : result Error (list (list str)) :=
  collect parse_example items.

Definition parse_optional_examples (o : option (list Value)) : result Error (list (list str)) :=
  match o with Some items => parse_examples items | None => Ok [] end.

Definition parse_literal_absolute_path (raw : str) : result Error str :=
  if negb (is_absolute raw)
  then Err (InvalidRule (lit "host_executable paths must be absolute (got " ++ raw ++ lit ")"))
  else match absolute_path raw with
       | Ok path => Ok path
       | Err error =>
           Err (InvalidRule (lit "invalid absolute path `" ++ raw ++ lit "`: " ++ error))
       end.

(** The rules of one [prefix_rule] call: one per alternative of the first token. *)
Definition rules_of_pattern (first_token : PatternToken) (rest : list PatternToken)
    (d : Decision) (j : option str) : list PrefixRule :=
  map (λ head, mkRule (mkPattern head rest) d j) (token_alternatives first_token).

Definition prefix_rule (b : PolicyBuilder) (pattern : list Value) (d : option str)
    (match_ not_match : option (list Value)) (justification : option str)
    (location : option ErrorLocation) : result Error PolicyBuilder :=
  let? d := match d with Some raw => parse_decision raw | None => Ok Allow end in
  let? justification := check_justification justification in
  let? pattern_tokens := parse_pattern pattern in
  let? matches := parse_optional_examples match_ in
  let? not_matches := parse_optional_examples not_match in
  match pattern_tokens with
  | [] => Err (InvalidPattern (lit "pattern cannot be empty"))
  | first_token :: remaining_tokens =>
      let rules := rules_of_pattern first_token remaining_tokens d justification in
      let b := add_pending_example_validation b (mkPending rules matches not_matches location) in
      Ok (foldl builder_add_rule b rules)
  end.

Definition network_rule (b : PolicyBuilder) (host protocol d : str) (justification : option str)
  : result Error PolicyBuilder :=
  let? protocol := parse_protocol protocol in
  let? d := parse_network_rule_decision d in
  let? justification := check_justification justification in
  let? host := normalize_network_rule_host host in
  Ok (builder_add_network_rule b (mkNetworkRule host protocol d justification)).

(** The loop over the paths of a [host_executable] call. *)
Fixpoint parse_host_paths (name : str) (parsed : list str) (paths : list Value)
  : result Error (list str) :=
  match paths with
  | [] => Ok parsed
  | v :: paths' =>
      let? raw := match unpack_str v with
        | Some raw => Ok raw
        | None => Err (InvalidRule
                    (lit "host_executable paths must be strings (got " ++ get_type v ++ lit ")"))
        end in
      let? path := parse_literal_absolute_path raw in
      if bool_decide (executable_path_lookup_key path = Some (executable_lookup_key name)) then
        parse_host_paths name
          (if existsb (λ existing, existing ==s path) parsed then parsed else parsed ++ [path]) paths'
      else Err (InvalidRule (lit "host_executable path `" ++ raw ++ lit "` must have basename `"
                             ++ name ++ lit "`"))
  end.

Definition host_executable (b : PolicyBuilder) (name : str) (paths : list Value)
  : result Error PolicyBuilder :=
  check? validate_host_executable_name name in
  let? parsed := parse_host_paths name [] paths in
  Ok (builder_add_host_executable b (executable_lookup_key name) parsed).

Definition run_builtin (b : PolicyBuilder) (c : builtin_call) : result Error PolicyBuilder :=
  match c with
  | PrefixRuleCall pattern d m nm j location => prefix_rule b pattern d m nm j location
  | NetworkRuleCall host protocol d j => network_rule b host protocol d j
  | HostExecutableCall name paths => host_executable b name paths
  end.

(** The calls of a program in order; the builder keeps what was added before the
    first failing call. *)
Fixpoint run_builtins (b : PolicyBuilder) (calls : list builtin_call)
  : PolicyBuilder * result Error unit :=
  match calls with
  | [] => (b, Ok tt)
  | c :: calls' =>
      match run_builtin b c with
      | Ok b' => run_builtins b' calls'
      | Err e => (b, Err (Starlark (error_string e)))
      end
  end.

Definition render_example (example : list str) : str :=
  default (lit "unable to render example") (shlex_join example).

Definition example_options : MatchOptions := mkOptions true.

Definition example_matches (p : Policy) (example : list str) : list RuleMatch :=
  matches_for_command_with_options absolute_path p example None example_options.

Definition validate_match_examples (p : Policy) (rules : list PrefixRule)
    (examples : list (list str)) : result Error unit :=
  match filter (λ example, example_matches p example = []) examples with
  | [] => Ok tt
  | unmatched => Err (ExampleDidNotMatch (map debug_rule rules) (map render_example unmatched) None)
  end.

Fixpoint validate_not_match_examples (p : Policy) (examples : list (list str))
  : result Error unit :=
  match examples with
  | [] => Ok tt
  | example :: examples' =>
      match example_matches p example with
      | m :: _ => Err (ExampleDidMatch (debug_match m) (render_example example) None)
      | [] => validate_not_match_examples p examples'
      end
  end.

(** The policy a validation is run against: its own rules, with the builder's host
    executables. *)
Definition validation_policy (b : PolicyBuilder) (v : PendingExampleValidation) : Policy :=
  mkPolicy (foldl (λ m r, multimap_insert m (program r) r) ∅ (pv_rules v)) []
    (b_host_executables b).

Definition map_err {E F A} (f : E → F) (r : result E A) : result F A :=
  match r with Ok a => Ok a | Err e => Err (f e) end.

Fixpoint validate_pending (b : PolicyBuilder) (vs : list PendingExampleValidation)
  : result Error unit :=
  match vs with
  | [] => Ok tt
  | v :: vs' =>
      let p := validation_policy b v in
      let attach e := attach_validation_location e (pv_location v) in
      check? map_err attach (validate_not_match_examples p (pv_not_matches v)) in
      check? map_err attach (validate_match_examples p (pv_rules v) (pv_matches v)) in
      validate_pending b vs'
  end.

Definition validate_pending_examples_from (b : PolicyBuilder) (start : nat) : result Error unit :=
  validate_pending b (drop start (b_pending b)).

(** [PolicyParser::parse]. *)
Definition parse_policy (b : PolicyBuilder) (policy_identifier policy_file_contents : str)
  : PolicyBuilder * result Error unit :=
  let pending_validation_count := length (b_pending b) in
  match starlark_run policy_identifier policy_file_contents with
  | Err e => (b, Err (Starlark e))
  | Ok (calls, own_error) =>
      match run_builtins b calls with
      | (b', Err e) => (b', Err e)
      | (b', Ok _) =>
          match own_error with
          | Some e => (b', Err (Starlark e))
          | None => (b', validate_pending_examples_from b' pending_validation_count)
          end
      end
  end.
End parser.

(** ** The builder's invariant *)

Definition builder_wf (b : PolicyBuilder) : Prop :=
  policy_wf (build b)
  ∧ map_Forall (λ name paths, NoDup paths ∧ Forall (λ p, file_name p = Some name) paths)
      (b_host_executables b).

Lemma new_builder_wf : builder_wf new_builder.
Proof. split; [apply empty_policy_wf|apply map_Forall_empty]. Qed.

Lemma builder_add_rule_wf b r : builder_wf b → builder_wf (builder_add_rule b r).
Proof. intros [[Hr Hn] Hh]. split; [|done]. split; [by apply multimap_insert_wf|done]. Qed.

Lemma builder_add_rules_wf b rs : builder_wf b → builder_wf (foldl builder_add_rule b rs).
Proof.
  revert b. induction rs as [|r rs IH]; intros b Hb; cbn; [done|].
  by apply IH, builder_add_rule_wf.
Qed.

Section builder_facts.
Context (shlex_split : str → option (list str)) (shlex_join : list str → option str).
Context (debug_rule : PrefixRule → str) (debug_match : RuleMatch → str).
Context (is_absolute : str → bool) (absolute_path : str → result str str).
Context (error_string : Error → str).
Context (starlark_run : str → str → result str (list builtin_call * option str)).

Lemma parse_host_paths_ok name parsed paths out :
  NoDup parsed → Forall (λ p, file_name p = Some name) parsed →
  parse_host_paths is_absolute absolute_path name parsed paths = Ok out →
  NoDup out ∧ Forall (λ p, file_name p = Some name) out.
Proof.
  revert parsed. induction paths as [|v paths IH]; intros parsed Hnd Hall; cbn [parse_host_paths].
  { by intros [= <-]. }
  destruct (unpack_str v) as [raw|]; cbn [rbind]; [|done].
  destruct (parse_literal_absolute_path _ _ raw) as [path|]; cbn [rbind]; [|done].
  case_bool_decide as Hkey; [|done]. apply IH.
  - destruct (existsb _ parsed) eqn:Hex; [done|].
    apply NoDup_app. split; [done|]. split; [|apply NoDup_singleton].
    intros x Hx ->%list_elem_of_singleton.
    apply list_elem_of_In in Hx. assert (existsb (λ e, e ==s path) parsed = true) as Heq.
    { apply existsb_exists. exists path. by rewrite bool_decide_eq_true. }
    by rewrite Hex in Heq.
  - destruct (existsb _ parsed); [done|]. apply Forall_snoc. split; [done|].
    unfold executable_path_lookup_key, executable_lookup_key in Hkey.
    by destruct (file_name path).
Qed.

Lemma run_builtin_wf b c b' :
  builder_wf b → run_builtin shlex_split is_absolute absolute_path b c = Ok b' → builder_wf b'.
Proof.
  intros Hb. destruct c as [pat d m nm j loc|host protocol d j|name paths]; cbn [run_builtin].
  - unfold prefix_rule.
    destruct (match d with Some _ => _ | None => _ end); cbn [rbind]; [|done].
    destruct (check_justification j); cbn [rbind]; [|done].
    destruct (parse_pattern pat) as [ts|]; cbn [rbind]; [|done].
    destruct (parse_optional_examples _ m); cbn [rbind]; [|done].
    destruct (parse_optional_examples _ nm); cbn [rbind]; [|done].
    destruct ts as [|t ts]; [done|].
    intros [= <-]. by apply builder_add_rules_wf.
  - unfold network_rule. destruct (parse_protocol protocol); cbn [rbind]; [|done].
    destruct (parse_network_rule_decision d); cbn [rbind]; [|done].
    destruct (check_justification j); cbn [rbind]; [|done].
    destruct (normalize_network_rule_host host) as [h|] eqn:Hh; cbn [rbind]; [|done].
    intros [= <-]. destruct Hb as [[Hr Hn] Hx]. split; [|done]. split; [done|]. cbn.
    apply Forall_snoc. split; [done|]. by eapply normalize_host_ok.
  - unfold host_executable. destruct (validate_host_executable_name name); cbn [rbind]; [|done].
    destruct (parse_host_paths _ _ name [] paths) as [parsed|] eqn:Hp; cbn [rbind]; [|done].
    intros [= <-]. destruct Hb as [Hpol Hx]. split; [done|]. cbn.
    apply map_Forall_insert_2; [|done]. eapply parse_host_paths_ok; [constructor..|done].
Qed.

Lemma run_builtins_wf b calls :
  builder_wf b →
  builder_wf (run_builtins shlex_split is_absolute absolute_path error_string b calls).1.
Proof.
  revert b. induction calls as [|c calls IH]; intros b Hb; cbn [run_builtins]; [done|].
  destruct (run_builtin _ _ _ b c) as [b'|] eqn:Hc; [|done].
  by eapply IH, run_builtin_wf.
Qed.

(** Whatever policy program is run, also one that fails half way, the builder
    stays well formed: rules are filed under their program, network hosts are
    normalised, and the paths of a host executable are distinct and carry its name. *)
Theorem parse_policy_wf b identifier contents :
  builder_wf b →
  builder_wf (parse_policy shlex_split shlex_join debug_rule debug_match is_absolute absolute_path
                error_string starlark_run b identifier contents).1.
Proof.
  intros Hb. unfold parse_policy.
  destruct (starlark_run identifier contents) as [[calls own]|]; [|done].
  pose proof (run_builtins_wf b calls Hb) as Hrun.
  destruct (run_builtins _ _ _ _ b calls) as [b' [|]]; [|done]. by destruct own.
Qed.

(** The examples of a pending validation are as its author said. *)
Definition examples_hold (b : PolicyBuilder) (v : PendingExampleValidation) : Prop :=
  Forall (λ ex, example_matches absolute_path (validation_policy b v) ex ≠ []) (pv_matches v)
  ∧ Forall (λ ex, example_matches absolute_path (validation_policy b v) ex = []) (pv_not_matches v).

Lemma validate_not_match_ok p examples u :
  validate_not_match_examples shlex_join debug_match absolute_path p examples = Ok u →
  Forall (λ ex, example_matches absolute_path p ex = []) examples.
Proof.
  induction examples as [|ex examples IH]; cbn; [constructor|].
  destruct (example_matches absolute_path p ex) eqn:He; [|done]. constructor; auto.
Qed.

Lemma validate_match_ok p rules examples u :
  validate_match_examples shlex_join debug_rule absolute_path p rules examples = Ok u →
  Forall (λ ex, example_matches absolute_path p ex ≠ []) examples.
Proof.
  unfold validate_match_examples.
  destruct (filter _ examples) as [|x l] eqn:Hf; [|done]. intros _.
  apply Forall_forall. intros ex Hin Hnil.
  assert (ex ∈ filter (λ example, example_matches absolute_path p example = []) examples) as Hex
    by by apply list_elem_of_filter.
  rewrite Hf in Hex. by inversion Hex.
Qed.

Lemma validate_pending_ok b vs u :
  validate_pending shlex_join debug_rule debug_match absolute_path b vs = Ok u →
  Forall (examples_hold b) vs.
Proof.
  induction vs as [|v vs IH]; cbn [validate_pending]; [constructor|].
  destruct (validate_not_match_examples _ _ _ _ _) as [u1|] eqn:Hn; cbn [map_err rbind]; [|done].
  destruct (validate_match_examples _ _ _ _ _ _) as [u2|] eqn:Hm; cbn [map_err rbind]; [|done].
  intros Hrest. constructor; [|by apply IH].
  split; [by eapply validate_match_ok|by eapply validate_not_match_ok].
Qed.

(** A policy program that is accepted has examples that hold: every [match]
    example of every prefix rule it added is matched by that call's rules, and no
    [not_match] example is. *)
Theorem parse_policy_examples_hold b identifier contents b' u :
  parse_policy shlex_split shlex_join debug_rule debug_match is_absolute absolute_path
    error_string starlark_run b identifier contents = (b', Ok u) →
  Forall (examples_hold b') (drop (length (b_pending b)) (b_pending b')).
Proof.
  unfold parse_policy.
  destruct (starlark_run identifier contents) as [[calls own]|]; [|done].
  destruct (run_builtins _ _ _ _ b calls) as [b1 [|]]; [|done].
  destruct own; [done|]. unfold validate_pending_examples_from.
  intros [= <- Hv]. by eapply validate_pending_ok.
Qed.
End builder_facts.

(** ** Witnesses *)

Definition toy_starlark (_ contents : str) : result str (list builtin_call * option str) :=
  Ok ([PrefixRuleCall [VStr (lit "git"); VList [VStr (lit "status"); VStr (lit "log")]]
         (Some (lit "allow")) (Some [VList [VStr (lit "git"); VStr (lit "log")]])
         (Some [VList [VStr (lit "git"); VStr (lit "push")]]) None None], None).

Definition toy_parse : PolicyBuilder * result Error unit :=
  parse_policy (λ _, None) (λ _, None) (λ _, []) (λ _, []) (λ _, true) no_paths (λ _, [])
    toy_starlark new_builder (lit "id") [].

Lemma parse_policy_wf_witness : builder_wf toy_parse.1.
Proof. apply parse_policy_wf, new_builder_wf. Defined.

Lemma parse_policy_examples_hold_witness :
  Forall (examples_hold no_paths toy_parse.1) (drop 0 (b_pending toy_parse.1))
  ∧ length (b_pending toy_parse.1) = 1.
Proof.
  split; [|vm_compute; reflexivity].
  apply (parse_policy_examples_hold (λ _, None) (λ _, None) (λ _, []) (λ _, []) (λ _, true) no_paths
    (λ _, []) toy_starlark new_builder (lit "id") [] toy_parse.1 tt).
  vm_compute. reflexivity.
Defined.
