(* ===== verification/ExecPolicyAmend.v ===== *)
(** * Amending policy files: [execpolicy/src/amend.rs]

    Accepted rules are appended, as a line of source, to a policy file.  The file is
    its contents; the outcome of every system call is an input, so that each error
    path is a value of the result. *)

From Stdlib Require Import String.
From stdpp Require Import base option list numbers gmap.
From S2P Require Import Prelude ExecRule ExecPolicy ExecPolicyFacts ExecPolicyParser.

Inductive AmendError : Type :=
| EmptyPrefix
| InvalidNetworkRule (message : str)
| MissingParent (path : str)
| CreatePolicyDir (dir : list path_component) (source : str)
| SerializePrefix (source : str)
| SerializeNetworkRule (source : str)
| OpenPolicyFile (path source : str)
| WritePolicyFile (path source : str)
| LockPolicyFile (path source : str)
| SeekPolicyFile (path source : str)
| ReadPolicyFile (path source : str)
| PolicyMetadata (path source : str).

(** What the system answers: the error of each call, if any.  [create_dir] tells an
    existing directory apart; a failing write has written some characters. *)
Record AmendIo : Type := mkAmendIo {
  io_create_dir : option (bool * str);
  io_open : option str;
  io_lock : option str;
  io_seek : option str;
  io_read : option str;
  io_write_newline : option (nat * str);
  io_write_line : option (nat * str);
}.

(** [Path::parent], by components. *)
Definition parent (path : str) : option (list path_component) :=
  match last (components path) with
  | None | Some RootDir => None
  | Some _ => Some (removelast (components path))
  end.

(** [write_all] on a file opened for appending. *)
Definition write_all (outcome : option (nat * str)) (contents data : str) : str * option str :=
  match outcome with
  | None => (contents ++ data, None)
  | Some (written, source) => (contents ++ take written data, Some source)
  end.

Definition fails (path : str) (outcome : option str) (error : str → str → AmendError)
  : result AmendError unit :=
  match outcome with Some source => Err (error path source) | None => Ok tt end.

(** Opening, locking, rewinding and reading the file. *)
Definition open_locked (io : AmendIo) (path : str) : result AmendError unit :=
  check? fails path (io_lock io) LockPolicyFile in
  check? fails path (io_seek io) SeekPolicyFile in
  fails path (io_read io) ReadPolicyFile.

(** [append_locked_line]; opening creates a missing file. *)
Definition append_locked_line (io : AmendIo) (path : str) (file : option str) (line : str)
  : option str * result AmendError unit :=
  match fails path (io_open io) OpenPolicyFile with
  | Err e => (file, Err e)
  | Ok _ =>
      let contents := default [] file in
      match open_locked io path with
      | Err e => (Some contents, Err e)
      | Ok _ =>
          if existsb (λ existing, existing ==s line) (lines contents) then (Some contents, Ok tt)
          else
            let '(contents, error) :=
              if negb (contents ==s []) && negb (ends_with [LF] contents)
              then write_all (io_write_newline io) contents [LF] else (contents, None) in
            match error with
            | Some source => (Some contents, Err (WritePolicyFile path source))
            | None =>
                let '(contents, error) := write_all (io_write_line io) contents (line ++ [LF]) in
                match error with
                | Some source => (Some contents, Err (WritePolicyFile path source))
                | None => (Some contents, Ok tt)
                end
            end
      end
  end.

Definition append_rule_line (io : AmendIo) (path : str) (file : option str) (rule : str)
  : option str * result AmendError unit :=
  match parent path with
  | None => (file, Err (MissingParent path))
  | Some dir =>
      match io_create_dir io with
      | Some (false, source) => (file, Err (CreatePolicyDir dir source))
      | _ => append_locked_line io path file rule
      end
  end.

Section amend.
(** [serde_json::to_string] on a string, and [Error]'s [Display]. *)
Variable json_string : str → result str str.
Variable rule_error_string : Error → str.

Definition serialize (error : str → AmendError) (s : str) : result AmendError str :=
  match json_string s with Ok j => Ok j | Err e => Err (error e) end.

Definition quoted (s : str) : str := [34%N] ++ s ++ [34%N].

(** The line of [blocking_append_allow_prefix_rule]. *)
Definition allow_prefix_rule_line (prefix : list str) : result AmendError str :=
  match prefix with
  | [] => Err EmptyPrefix
  | _ =>
      let? tokens := collect (serialize SerializePrefix) prefix in
      Ok (lit "prefix_rule(pattern=[" ++ join (lit ", ") tokens ++ lit "], decision="
          ++ quoted (lit "allow") ++ lit ")")
  end.

Definition amend_decision_string (d : Decision) : str :=
  match d with Allow => lit "allow" | Prompt => lit "prompt" | Forbidden => lit "deny" end.

(** The line of [blocking_append_network_rule]. *)
Definition network_rule_line (host : str) (protocol : NetworkRuleProtocol) (d : Decision)
    (justification : option str) : result AmendError str :=
  let? host := match normalize_network_rule_host host with
               | Ok h => Ok h | Err e => Err (InvalidNetworkRule (rule_error_string e)) end in
  if blank_justification justification
  then Err (InvalidNetworkRule (lit "justification cannot be empty"))
  else
    let? host := serialize SerializeNetworkRule host in
    let? protocol := serialize SerializeNetworkRule (as_policy_string protocol) in
    let? d := serialize SerializeNetworkRule (amend_decision_string d) in
    let? extra := match justification with
                  | Some j =>
                      let? j := serialize SerializeNetworkRule j in Ok [lit "justification=" ++ j]
                  | None => Ok []
                  end in
    Ok (lit "network_rule("
        ++ join (lit ", ") ([lit "host=" ++ host; lit "protocol=" ++ protocol; lit "decision=" ++ d]
                            ++ extra)
        ++ lit ")").

Definition append_allow_prefix_rule (io : AmendIo) (path : str) (file : option str)
    (prefix : list str) : option str * result AmendError unit :=
  match allow_prefix_rule_line prefix with
  | Err e => (file, Err e)
  | Ok line => append_rule_line io path file line
  end.

Definition append_network_rule (io : AmendIo) (path : str) (file : option str) (host : str)
    (protocol : NetworkRuleProtocol) (d : Decision) (justification : option str)
  : option str * result AmendError unit :=
  match network_rule_line host protocol d justification with
  | Err e => (file, Err e)
  | Ok line => append_rule_line io path file line
  end.
End amend.

(** ** Specification *)

(** The contents after the line was appended, if it was not there. *)
Definition appended (contents line : str) : str :=
  if existsb (λ existing, existing ==s line) (lines contents) then contents
  else contents
       ++ (if negb (contents ==s []) && negb (ends_with [LF] contents) then [LF] else [])
       ++ line ++ [LF].

(** ** Appending lines *)

Lemma lines_of_pieces_snoc ps p :
  lines_of_pieces (ps ++ [p]) = map strip_cr ps ++ (if p ==s [] then [] else [p]).
Proof.
  induction ps as [|q ps IH]; [by destruct p|].
  cbn [app map]. destruct (ps ++ [p]) as [|x l] eqn:Hl; [by destruct ps|].
  change (strip_cr q :: lines_of_pieces (x :: l) =
          strip_cr q :: map strip_cr ps ++ (if p ==s [] then [] else [p])).
  by rewrite IH.
Qed.

Lemma lines_of_join ps p :
  Forall no_lf (ps ++ [p]) →
  lines (join [LF] (ps ++ [p])) = map strip_cr ps ++ (if p ==s [] then [] else [p]).
Proof.
  intros Hlf. unfold lines. rewrite split_char_join; [apply lines_of_pieces_snoc|by destruct ps|done].
Qed.

(** A text is its pieces joined; the last piece says how it ends. *)
Lemma text_pieces s :
  ∃ ps p, s = join [LF] (ps ++ [p]) ∧ Forall no_lf (ps ++ [p]).
Proof.
  destruct (exists_last (split_char_nonempty LF s)) as (ps & p & Hsp).
  exists ps, p. rewrite <- Hsp. split; [by rewrite join_split_char|apply split_char_Forall].
Qed.

Lemma join_snoc_lf ps l : join [LF] ((ps ++ [l]) ++ [[]]) = join [LF] (ps ++ [l]) ++ [LF].
Proof. rewrite join_snoc by by destruct ps. done. Qed.

Lemma ends_with_lf ps p :
  Forall no_lf (ps ++ [p]) →
  negb (join [LF] (ps ++ [p]) ==s []) && negb (ends_with [LF] (join [LF] (ps ++ [p])))
  = negb (p ==s []).
Proof.
  intros Hlf. apply Forall_snoc in Hlf as [_ Hp].
  assert (Hjoin : ∃ s, join [LF] (ps ++ [p]) = s ++ p ∧ (s = [] ∨ ends_with [LF] s = true)).
  { destruct ps as [|q ps]; [by exists []; split; [|left]|].
    exists (join [LF] (q :: ps) ++ [LF]). rewrite join_snoc by done. split.
    - by rewrite <- app_assoc.
    - right. apply ends_with_true. by eexists. }
  destruct Hjoin as (s & -> & Hs). destruct (decide (p = [])) as [->|Hne].
  - rewrite app_nil_r, (bool_decide_eq_true_2 ([] = [])) by done.
    destruct Hs as [-> | ->]; [done|]. by rewrite andb_false_r.
  - rewrite !bool_decide_eq_false_2 by (destruct s; done || by destruct p).
    destruct (ends_with [LF] (s ++ p)) eqn:He; [|done].
    apply ends_with_true in He as [r Hr].
    destruct (exists_last Hne) as (p' & c & ->). rewrite app_assoc in Hr.
    apply app_snoc_inj in Hr as [_ ->]. apply Forall_snoc in Hp as [_ Hc]. done.
Qed.

(** The pieces of the text after a fresh line was appended. *)
Lemma append_fresh ps p line :
  Forall no_lf (ps ++ [p]) →
  let contents := join [LF] (ps ++ [p]) in
  contents ++ (if negb (contents ==s []) && negb (ends_with [LF] contents) then [LF] else [])
    ++ line ++ [LF]
  = join [LF] (((if p ==s [] then ps else ps ++ [p]) ++ [line]) ++ [[]]).
Proof.
  intros Hlf contents. unfold contents. rewrite ends_with_lf, join_snoc_lf by done.
  case_bool_decide as Hp; cbn [negb].
  - subst p. destruct ps as [|q ps]; [done|]. rewrite !join_snoc by done.
    by rewrite <- !app_assoc.
  - rewrite (join_snoc _ (ps ++ [p])) by by destruct ps. by rewrite <- !app_assoc.
Qed.

Lemma existsb_lines_elem c line :
  existsb (λ e, e ==s line) (lines c) = bool_decide (line ∈ lines c).
Proof.
  apply eq_true_iff_eq. rewrite existsb_exists, bool_decide_eq_true. split.
  - intros (x & Hx & ->%bool_decide_eq_true). by apply list_elem_of_In.
  - intros Hx%list_elem_of_In. exists line. by rewrite bool_decide_eq_true.
Qed.

Lemma appended_known contents line :
  line ∈ lines contents → appended contents line = contents.
Proof.
  intros Hin. unfold appended. by rewrite existsb_lines_elem, bool_decide_eq_true_2.
Qed.

Lemma appended_fresh contents line :
  no_lf line → last line ≠ Some CR → last contents ≠ Some CR → line ∉ lines contents →
  lines (appended contents line) = lines contents ++ [line]
  ∧ contents `prefix_of` appended contents line.
Proof.
  intros Hlf Hcr Hend Hout. unfold appended.
  rewrite existsb_lines_elem, bool_decide_eq_false_2 by done. split; [|by eexists].
  destruct (text_pieces contents) as (ps & p & -> & Hps). rewrite append_fresh by done.
  apply Forall_snoc in Hps as Hps'. destruct Hps' as [Hps' Hp].
  rewrite !lines_of_join; [|done|].
  2:{ rewrite !Forall_snoc. split_and!; [by case_bool_decide|done|constructor]. }
  rewrite map_app. cbn [map]. rewrite (strip_cr_no_cr line), app_nil_r by done. f_equal.
  case_bool_decide as Hpe; [by rewrite app_nil_r|]. rewrite map_app. cbn [map].
  rewrite strip_cr_no_cr; [done|]. destruct (exists_last Hpe) as (p' & c & ->).
  rewrite last_snoc. intros [= ->]. apply Hend.
  destruct ps as [|q ps]; [cbn [app join]; by rewrite last_snoc|].
  rewrite join_snoc, !app_assoc, last_snoc by done. done.
Qed.


Lemma appended_lines contents line :
  no_lf line → last line ≠ Some CR → last contents ≠ Some CR →
  contents `prefix_of` appended contents line
  ∧ line ∈ lines (appended contents line)
  ∧ lines (appended contents line)
    = lines contents ++ (if bool_decide (line ∈ lines contents) then [] else [line]).
Proof.
  intros Hlf Hcr Hend. case_bool_decide as Hold.
  - rewrite !appended_known by done. by rewrite app_nil_r.
  - destruct (appended_fresh contents line) as [Hlines Hpre]; [done..|].
    split_and!; [done| |done]. rewrite Hlines. apply elem_of_app. right.
    by apply list_elem_of_singleton.
Qed.

(** Once the line is there no append changes the file. *)
Lemma append_rule_line_again io path contents line :
  line ∈ lines contents → (append_rule_line io path (Some contents) line).1 = Some contents.
Proof.
  intros Hin. assert (H : (append_locked_line io path (Some contents) line).1 = Some contents).
  { unfold append_locked_line. destruct (fails _ _ _); [|done]. cbn [default].
    destruct (open_locked io path); [|done].
    by rewrite existsb_lines_elem, bool_decide_eq_true_2. }
  unfold append_rule_line. by destruct (parent path), (io_create_dir io) as [[[] source]|].
Qed.

Lemma collect_literals tokens : collect parse_pattern_token (map VStr tokens) = Ok (map Single tokens).
Proof. induction tokens as [|t tokens IH]; [done|]. cbn. by rewrite IH. Qed.

(** ** Properties *)

(** What a run leaves in the file: everything on success, and on failure the old
    contents and a beginning of what was to be added. *)
Lemma append_locked_line_spec io path file line :
  let '(file', r) := append_locked_line io path file line in
  let old := default [] file in
  match r with
  | Ok _ => file' = Some (appended old line)
  | Err _ => old `prefix_of` default [] file' ∧ default [] file' `prefix_of` appended old line
  end.
Proof.
  unfold append_locked_line, appended. set (old := default [] file).
  assert (Hold : ∀ t, old `prefix_of` old ++ t) by (intros; by eexists).
  destruct (fails path (io_open io) _); [|split; [done|]; case_match; [done|apply Hold]].
  destruct (open_locked io path); [|cbn; split; [done|]; case_match; [done|apply Hold]].
  destruct (existsb _ _); [done|].
  destruct (negb _ && negb _); cbn [app].
  - destruct (io_write_newline io) as [[k source]|]; cbn [write_all].
    { split; [apply Hold|]. apply prefix_app. by destruct k as [|[]]; eexists. }
    destruct (io_write_line io) as [[k source]|]; cbn [write_all default].
    + rewrite <- app_assoc. split; [apply Hold|]. apply prefix_app, prefix_cons, prefix_take.
    + by rewrite <- app_assoc.
  - destruct (io_write_line io) as [[k source]|]; cbn [write_all default]; [|done].
    split; [apply Hold|]. apply prefix_app, prefix_take.
Qed.

Lemma append_rule_line_spec io path file line :
  let '(file', r) := append_rule_line io path file line in
  let old := default [] file in
  match r with
  | Ok _ => file' = Some (appended old line)
  | Err _ => old `prefix_of` default [] file' ∧ default [] file' `prefix_of` appended old line
  end.
Proof.
  assert (Hkeep : default [] file `prefix_of` appended (default [] file) line).
  { unfold appended. case_match; [done|]. by eexists. }
  unfold append_rule_line. destruct (parent path); [|by split].
  destruct (io_create_dir io) as [[[] source]|]; [|by split|]; apply append_locked_line_spec.
Qed.

(** Appending a rule line that succeeds keeps the file's text and makes the line one of
    its lines: exactly one line is added at the end when it was not there, none when it
    was, and no later append of the same line changes the file.  An append that fails
    at any system call has lost nothing: the file holds the old text and a beginning
    of what was to be added. *)
Theorem append_rule_line_correct io path file line :
  no_lf line → last line ≠ Some CR → last (default [] file) ≠ Some CR →
  let '(file', r) := append_rule_line io path file line in
  let old := default [] file in
  match r with
  | Ok _ =>
      ∃ new, file' = Some new ∧ old `prefix_of` new
        ∧ lines new = lines old ++ (if bool_decide (line ∈ lines old) then [] else [line])
        ∧ ∀ io', (append_rule_line io' path file' line).1 = file'
  | Err _ => old `prefix_of` default [] file' ∧ default [] file' `prefix_of` appended old line
  end.
Proof.
  intros Hlf Hcr Hend. pose proof (append_rule_line_spec io path file line) as H.
  destruct (append_rule_line io path file line) as [file' [[]|e]]; cbn in H; [|done]. subst file'.
  destruct (appended_lines (default [] file) line) as (Hpre & Hin & Hlines); [done..|].
  eexists. split_and!; [done..|]. intros io'. by apply append_rule_line_again.
Qed.

(** An amended rule is read back as the rule that is added in memory: the call a prefix
    line denotes gives the policy of [add_prefix_rule], and the call a network line
    denotes gives the policy of [add_network_rule] when the normalized host is stable
    under normalization. *)
Theorem amended_rules_reload json rule_error shlex b :
  (∀ prefix line location,
     allow_prefix_rule_line json prefix = Ok line →
     ∃ b', prefix_rule shlex b (map VStr prefix) (Some (lit "allow")) None None None location
             = Ok b'
           ∧ add_prefix_rule (build b) prefix Allow = Ok (build b'))
  ∧ (∀ host h protocol d j line,
       network_rule_line json rule_error host protocol d j = Ok line →
       normalize_network_rule_host host = Ok h → normalize_network_rule_host h = Ok h →
       ∃ b', network_rule b h (as_policy_string protocol) (amend_decision_string d) j = Ok b'
             ∧ add_network_rule (build b) host protocol d j = Ok (build b')).
Proof.
  split.
  - intros prefix line location. destruct prefix as [|first rest]; [done|]. intros _.
    unfold prefix_rule, parse_pattern. rewrite collect_literals. by eexists.
  - intros host h protocol d j line Hl Hh Hs. unfold network_rule_line in Hl.
    rewrite Hh in Hl. cbn in Hl. destruct (blank_justification j) eqn:Hj; [done|].
    unfold network_rule, add_network_rule, check_justification. rewrite Hh, Hs, Hj.
    destruct protocol, d; by eexists.
Qed.

(** Normalization is not idempotent on every host. *)
Lemma normalize_not_idempotent :
  normalize_network_rule_host (lit "[a:1]") = Ok (lit "a:1")
  ∧ normalize_network_rule_host (lit "a:1") = Ok (lit "a").
Proof. by split. Qed.

(** ** Witnesses *)

Definition io_ok : AmendIo := mkAmendIo None None None None None None None.

Lemma append_rule_line_correct_witness :
  ∃ new, (append_rule_line io_ok (lit "r/d") (Some (lit "a")) (lit "b")).1 = Some new
    ∧ lines new = [lit "a"; lit "b"].
Proof.
  pose proof (append_rule_line_correct io_ok (lit "r/d") (Some (lit "a")) (lit "b")) as H.
  destruct H as (new & Hn & _ & Hl & _);
    [repeat constructor; discriminate|vm_compute; discriminate..|].
  exists new. split; [exact Hn|]. rewrite Hl. vm_compute. reflexivity.
Defined.
