(* ===== verification/HeadTail.v ===== *)
(** * The head/tail output buffer: [core/src/unified_exec/head_tail_buffer.rs]

    A capped buffer that keeps the first and the last bytes of a stream.  Lengths
    are lists' lengths; the omission counter is a [usize] and saturates. *)

From Stdlib Require Import String.
From stdpp Require Import base option list numbers.
From S2P Require Import Prelude.

Abbreviation bytes := (list N) (only parsing).

Definition UNIFIED_EXEC_OUTPUT_MAX_BYTES : nat := N.to_nat (1024 * 1024).

Record HeadTailBuffer : Type := mkHeadTail {
  max_bytes : nat;
  head_budget : nat;
  tail_budget : nat;
  ht_head : bytes;
  ht_tail : bytes;
  omitted_bytes : Z;
}.

(** [usize] conversion of a length. *)
Definition len (l : bytes) : Z := Z.of_nat (length l).

Definition new_buffer (max_bytes : nat) : HeadTailBuffer :=
  let head_budget := max_bytes / 2 in
  mkHeadTail max_bytes head_budget (max_bytes - head_budget) [] [] 0.

Definition retained_bytes (b : HeadTailBuffer) : Z := usat_add (len (ht_head b)) (len (ht_tail b)).

Definition total_bytes (b : HeadTailBuffer) : Z := usat_add (retained_bytes b) (omitted_bytes b).

Definition set_omitted (b : HeadTailBuffer) (n : Z) : HeadTailBuffer :=
  mkHeadTail (max_bytes b) (head_budget b) (tail_budget b) (ht_head b) (ht_tail b) n.

Definition set_tail (b : HeadTailBuffer) (t : bytes) : HeadTailBuffer :=
  mkHeadTail (max_bytes b) (head_budget b) (tail_budget b) (ht_head b) t (omitted_bytes b).

Definition extend_head (b : HeadTailBuffer) (h : bytes) : HeadTailBuffer :=
  mkHeadTail (max_bytes b) (head_budget b) (tail_budget b) (ht_head b ++ h) (ht_tail b)
    (omitted_bytes b).

Definition trim_tail_to_budget (b : HeadTailBuffer) : HeadTailBuffer :=
  let excess := length (ht_tail b) - tail_budget b in
  if 0 <? excess
  then set_omitted (set_tail b (drop excess (ht_tail b)))
         (usat_add (omitted_bytes b) (Z.of_nat excess))
  else b.

Definition push_to_tail (b : HeadTailBuffer) (chunk : bytes) : HeadTailBuffer :=
  if bool_decide (chunk = []) then b
  else if tail_budget b =? 0 then set_omitted b (usat_add (omitted_bytes b) (len chunk))
  else if tail_budget b <=? length chunk then
    let start := length chunk - tail_budget b in
    let kept := drop start chunk in
    let dropped := length chunk - length kept in
    set_tail
      (set_omitted b
         (usat_add (usat_add (omitted_bytes b) (len (ht_tail b))) (Z.of_nat dropped)))
      kept
  else trim_tail_to_budget (set_tail b (ht_tail b ++ chunk)).

Definition push_chunk (b : HeadTailBuffer) (chunk : bytes) : HeadTailBuffer :=
  if bool_decide (chunk = []) then b
  else if max_bytes b =? 0 then set_omitted b (usat_add (omitted_bytes b) (len chunk))
  else
    let remaining_head := head_budget b - length (ht_head b) in
    let head_len := remaining_head `min` length chunk in
    let b := if 0 <? head_len then extend_head b (take head_len chunk) else b in
    push_to_tail b (drop head_len chunk).

Definition snapshot_chunks (b : HeadTailBuffer) : list bytes :=
  (if bool_decide (ht_head b = []) then [] else [ht_head b])
  ++ (if bool_decide (ht_tail b = []) then [] else [ht_tail b]).

Definition to_bytes (b : HeadTailBuffer) : bytes := ht_head b ++ ht_tail b.

Definition format_output_omission_marker (omitted : Z) : bytes :=
  lit "... " ++ decimal (Z.to_N omitted) ++ lit " bytes omitted ...".

Definition to_bytes_with_omission_marker (b : HeadTailBuffer) : bytes :=
  if (omitted_bytes b =? 0)%Z then to_bytes b
  else ht_head b ++ [LF] ++ format_output_omission_marker (omitted_bytes b) ++ [LF] ++ ht_tail b.

(** The drained contents, and the buffer left behind. *)
Definition drain (b : HeadTailBuffer) : HeadTailBuffer * HeadTailBuffer :=
  (b, mkHeadTail (max_bytes b) (head_budget b) (tail_budget b) [] [] 0).

Definition push_buffer (b other : HeadTailBuffer) : HeadTailBuffer :=
  let b := push_chunk b (ht_head other) in
  let b := push_chunk b (ht_tail other) in
  set_omitted b (usat_add (omitted_bytes b) (omitted_bytes other)).

(** ** Specification *)

(** The last [n] elements. *)
Definition lastn {A} (n : nat) (l : list A) : list A := drop (length l - n) l.
#[global] Arguments lastn : simpl never.
#[global] Arguments len : simpl never.

(** The buffer a stream of bytes amounts to: its first [max / 2] bytes, the last
    [max - max / 2] of the others, and the number of bytes in neither. *)
Definition buffer_of (max : nat) (bs : bytes) : HeadTailBuffer :=
  let hb := max / 2 in
  let head := take hb bs in
  let tail := lastn (max - hb) (drop hb bs) in
  mkHeadTail max hb (max - hb) head tail (Z.min USIZE_MAX (len bs - len head - len tail)).

(** ** Lemmas *)

Lemma lastn_all {A} n (l : list A) : length l ≤ n → lastn n l = l.
Proof. intros H. unfold lastn. by replace (length l - n) with 0 by lia. Qed.

Lemma length_lastn {A} n (l : list A) : length (lastn n l) = n `min` length l.
Proof. unfold lastn. rewrite length_drop. lia. Qed.

Lemma lastn_app_r {A} n (l k : list A) : n ≤ length k → lastn n (l ++ k) = lastn n k.
Proof.
  intros H. unfold lastn. rewrite length_app, drop_app_ge by lia. f_equal. lia.
Qed.

Lemma lastn_app_lastn {A} n (l k : list A) : lastn n (lastn n l ++ k) = lastn n (l ++ k).
Proof.
  unfold lastn at 1 3. rewrite !length_app, length_lastn. unfold lastn.
  destruct (decide (length l ≤ n)).
  { replace (length l - n) with 0 by lia. rewrite drop_0. do 2 f_equal. lia. }
  destruct (decide (n ≤ length k)).
  - rewrite !drop_app_ge by (rewrite ?length_drop; lia). rewrite length_drop. f_equal. lia.
  - rewrite !drop_app_le by (rewrite ?length_drop; lia). rewrite drop_drop. do 2 f_equal. lia.
Qed.

Lemma usat_add_min a b : (0 ≤ b → usat_add (Z.min USIZE_MAX a) b = Z.min USIZE_MAX (a + b))%Z.
Proof. unfold usat_add. lia. Qed.

Lemma len_app l k : len (l ++ k) = (len l + len k)%Z.
Proof. unfold len. rewrite length_app. lia. Qed.

(** What [push_to_tail] does to a buffer whose tail is within budget. *)
Lemma push_to_tail_eq b chunk n :
  omitted_bytes b = Z.min USIZE_MAX n → length (ht_tail b) ≤ tail_budget b →
  push_to_tail b chunk
  = mkHeadTail (max_bytes b) (head_budget b) (tail_budget b) (ht_head b)
      (lastn (tail_budget b) (ht_tail b ++ chunk))
      (Z.min USIZE_MAX
         (n + len (ht_tail b ++ chunk) - len (lastn (tail_budget b) (ht_tail b ++ chunk)))).
Proof.
  destruct b as [mx hb tb h t o]; cbn [omitted_bytes ht_tail tail_budget max_bytes head_budget ht_head].
  intros -> Ht. unfold push_to_tail, trim_tail_to_budget, set_tail, set_omitted;
    cbn [omitted_bytes ht_tail tail_budget max_bytes head_budget ht_head].
  case_bool_decide as Hc.
  { subst. rewrite app_nil_r, lastn_all by done. f_equal. lia. }
  destruct (Nat.eqb_spec tb 0) as [->|Hne].
  { destruct t; [|cbn in Ht; lia]. unfold lastn. cbn [app].
    rewrite Nat.sub_0_r, drop_all. f_equal. unfold len at 3; cbn [length].
    rewrite usat_add_min by (unfold len; lia). lia. }
  destruct (Nat.leb_spec tb (length chunk)) as [Hbig|Hsmall].
  - rewrite lastn_app_r by done. fold (lastn tb chunk). f_equal.
    rewrite !usat_add_min by (unfold len; lia). rewrite len_app. unfold len.
    rewrite length_lastn. lia.
  - destruct (Nat.ltb_spec 0 (length (t ++ chunk) - tb)) as [Hex|Hfit].
    + fold (lastn tb (t ++ chunk)). f_equal. rewrite usat_add_min by lia. unfold len.
      rewrite length_lastn. lia.
    + rewrite lastn_all by lia. f_equal. lia.
Qed.

Lemma push_chunk_split b chunk :
  chunk ≠ [] → max_bytes b ≠ 0 →
  push_chunk b chunk
  = push_to_tail (extend_head b (take (head_budget b - length (ht_head b)) chunk))
      (drop (head_budget b - length (ht_head b)) chunk).
Proof.
  intros Hc Hmax. unfold push_chunk. rewrite bool_decide_eq_false_2 by done.
  destruct (Nat.eqb_spec (max_bytes b) 0); [done|]. cbv zeta.
  set (k := head_budget b - length (ht_head b)).
  replace (drop (k `min` length chunk) chunk) with (drop k chunk).
  2:{ destruct (decide (length chunk ≤ k)); [rewrite !drop_ge by lia; done|f_equal; lia]. }
  f_equal. destruct (Nat.ltb_spec 0 (k `min` length chunk)) as [Hpos|Hz].
  - f_equal. destruct (decide (length chunk ≤ k)); [rewrite !take_ge by lia; done|f_equal; lia].
  - replace k with 0 by (destruct chunk; cbn in *; [done|lia]).
    unfold extend_head. rewrite take_0, app_nil_r. by destruct b.
Qed.

(** Pushing a chunk onto the buffer of a stream gives the buffer of the longer
    stream. *)
Lemma push_chunk_buffer_of max bs chunk :
  push_chunk (buffer_of max bs) chunk = buffer_of max (bs ++ chunk).
Proof.
  destruct (decide (chunk = [])) as [->|Hc]; [by rewrite app_nil_r|].
  destruct (decide (max = 0)) as [->|Hmax].
  { unfold push_chunk. rewrite bool_decide_eq_false_2 by done. cbn [max_bytes buffer_of Nat.eqb].
    unfold buffer_of, set_omitted; cbn [max_bytes head_budget tail_budget ht_head ht_tail omitted_bytes].
    change (0 / 2) with 0. cbn [Nat.sub]. rewrite !take_0, !drop_0.
    unfold lastn. rewrite !Nat.sub_0_r, !drop_all. f_equal.
    rewrite usat_add_min by (unfold len; lia). rewrite len_app. unfold len; cbn [length]. lia. }
  rewrite push_chunk_split by done. unfold extend_head, buffer_of.
  cbn [max_bytes head_budget tail_budget ht_head ht_tail omitted_bytes].
  set (hb := max / 2). set (tb := max - hb).
  replace (hb - length (take hb bs)) with (hb - length bs) by (rewrite length_take; lia).
  rewrite <- take_app.
  rewrite (push_to_tail_eq _ _ (len bs - len (take hb bs) - len (lastn tb (drop hb bs))));
    cbn [omitted_bytes ht_tail tail_budget max_bytes head_budget ht_head];
    [|done|rewrite length_lastn; lia].
  rewrite lastn_app_lastn, <- drop_app. f_equal. f_equal.
  rewrite !len_app. unfold len.
  rewrite !length_take, !length_drop, !length_lastn, !length_drop, !length_app. lia.
Qed.

Lemma new_buffer_of max : new_buffer max = buffer_of max [].
Proof.
  unfold new_buffer, buffer_of, lastn. rewrite take_nil, drop_nil. cbn [length Nat.sub drop].
  by rewrite drop_nil.
Qed.

Lemma push_chunks_buffer_of max bs chunks :
  foldl push_chunk (buffer_of max bs) chunks = buffer_of max (bs ++ concat chunks).
Proof.
  revert bs. induction chunks as [|c chunks IH]; intros bs; cbn; [by rewrite app_nil_r|].
  rewrite push_chunk_buffer_of, IH. by rewrite app_assoc.
Qed.

Lemma total_bytes_buffer_of max bs : total_bytes (buffer_of max bs) = Z.min USIZE_MAX (len bs).
Proof.
  unfold total_bytes, retained_bytes, usat_add, buffer_of, len, USIZE_MAX;
    cbn [ht_head ht_tail omitted_bytes].
  rewrite length_take, length_lastn, length_drop. lia.
Qed.

Lemma to_bytes_buffer_of max bs :
  (len (to_bytes (buffer_of max bs)) ≤ Z.of_nat max ∧ len (to_bytes (buffer_of max bs)) ≤ len bs)%Z.
Proof.
  unfold to_bytes, buffer_of, len; cbn [ht_head ht_tail].
  rewrite length_app, length_take, length_lastn, length_drop.
  pose proof (Nat.Div0.div_le_upper_bound max 2 max ltac:(lia)). lia.
Qed.

(** The buffer refines its specification: after any sequence of chunks it holds
    the first half-capacity bytes and the last half-capacity bytes of the whole
    stream, and counts exactly the bytes in between, up to saturation of the
    counter.  The way the stream was cut into chunks does not matter. *)
Theorem push_chunks_refine max chunks :
  foldl push_chunk (new_buffer max) chunks = buffer_of max (concat chunks).
Proof. rewrite new_buffer_of. apply push_chunks_buffer_of. Qed.

(** A stream that fits is kept verbatim and shown without an omission marker; any
    stream's retained bytes fit the capacity, and the total is the stream's length
    (saturated at the machine width). *)
Theorem buffer_keeps_what_fits max chunks :
  let b := foldl push_chunk (new_buffer max) chunks in
  (len (to_bytes b) ≤ Z.of_nat max)%Z
  ∧ total_bytes b = Z.min USIZE_MAX (len (concat chunks))
  ∧ (length (concat chunks) ≤ max → to_bytes_with_omission_marker b = concat chunks).
Proof.
  cbv zeta. rewrite new_buffer_of, push_chunks_buffer_of. cbn [app].
  set (bs := concat chunks). split; [apply to_bytes_buffer_of|].
  split; [apply total_bytes_buffer_of|]. intros Hfit.
  assert (Htail : lastn (max - max / 2) (drop (max / 2) bs) = drop (max / 2) bs).
  { apply lastn_all. rewrite length_drop. lia. }
  unfold to_bytes_with_omission_marker, to_bytes, buffer_of; cbn [ht_head ht_tail omitted_bytes]. rewrite Htail, take_drop.
  destruct (Z.eqb_spec (Z.min USIZE_MAX
    (len bs - len (take (max / 2) bs) - len (drop (max / 2) bs))) 0) as [|Hne]; [done|].
  exfalso. apply Hne. unfold len. rewrite length_take, length_drop. unfold USIZE_MAX. lia.
Qed.

(** Merging the drained contents of another buffer appends the bytes it retained,
    conserves the total count, and equals having seen both streams when the other
    buffer omitted nothing; draining resets the buffer to a fresh one. *)
Theorem push_buffer_merges max max' bs bs' :
  let b := buffer_of max bs in
  let other := buffer_of max' bs' in
  total_bytes (push_buffer b other) = Z.min USIZE_MAX (len bs + len bs')
  ∧ to_bytes (push_buffer b other) = to_bytes (buffer_of max (bs ++ to_bytes other))
  ∧ (length bs' ≤ max' → push_buffer b other = buffer_of max (bs ++ bs'))
  ∧ drain b = (b, new_buffer max).
Proof.
  cbv zeta. unfold push_buffer. rewrite !push_chunk_buffer_of, <- app_assoc.
  fold (to_bytes (buffer_of max' bs')).
  set (kept := to_bytes (buffer_of max' bs')).
  assert (Hom : omitted_bytes (buffer_of max' bs') = Z.min USIZE_MAX (len bs' - len kept)).
  { unfold kept, to_bytes. rewrite len_app. cbn [buffer_of ht_head ht_tail omitted_bytes]. f_equal. lia. }
  pose proof (to_bytes_buffer_of max' bs') as [_ Hkept]. fold kept in Hkept.
  split; [|split; [done|split; [|done]]].
  - rewrite Hom. unfold total_bytes, retained_bytes, set_omitted, usat_add, buffer_of, USIZE_MAX;
      cbn [ht_head ht_tail omitted_bytes].
    rewrite len_app. unfold len in *.
    rewrite length_take, length_lastn, length_drop, length_app. lia.
  - intros Hfit. assert (Hall : kept = bs').
    { unfold kept, to_bytes, buffer_of; cbn [ht_head ht_tail]. rewrite lastn_all, take_drop; [done|].
      rewrite length_drop. lia. }
    rewrite Hom, Hall. unfold set_omitted, usat_add. unfold buffer_of; cbn [ht_head ht_tail omitted_bytes max_bytes head_budget tail_budget].
    f_equal. unfold USIZE_MAX. lia.
Qed.
