(* ===== verification/AutoCompact.v ===== *)
(** * The auto-compaction window: [core/src/state/auto_compact_window.rs]

    A small state machine: window identifiers, the input-token baseline of the
    window, and three one-shot flags.  A fresh identifier ([Uuid::now_v7]) is an
    argument of the operation that draws it. *)

From stdpp Require Import base option list numbers.
From S2P Require Import Prelude.

Definition U64_MAX : Z := 2 ^ 64 - 1.

Section window.
Context {Uuid : Type}.

Record AutoCompactWindowIds : Type := mkIds {
  first_window_id : Uuid;
  previous_window_id : option Uuid;
  window_id : Uuid;
}.

Definition new_initial (now_v7 : Uuid) : AutoCompactWindowIds := mkIds now_v7 None now_v7.

Inductive AutoCompactWindowPrefill : Type :=
| ServerObserved (tokens : Z)
| Estimated (tokens : Z).

Record AutoCompactWindow : Type := mkWindow {
  window_number : Z;
  ids : AutoCompactWindowIds;
  new_context_window_requested : bool;
  prefill_input_tokens : option AutoCompactWindowPrefill;
  token_budget_reminder_delivered : bool;
  auto_compact_fallback_delivered : bool;
}.

Definition new_with_ids (i : AutoCompactWindowIds) : AutoCompactWindow :=
  mkWindow 0 i false None false false.

Definition set_prefill (w : AutoCompactWindow) (p : option AutoCompactWindowPrefill)
  : AutoCompactWindow :=
  mkWindow (window_number w) (ids w) (new_context_window_requested w) p
    (token_budget_reminder_delivered w) (auto_compact_fallback_delivered w).

Definition clear_prefill (w : AutoCompactWindow) : AutoCompactWindow := set_prefill w None.

Definition restore (w : AutoCompactWindow) (n : Z) (i : AutoCompactWindowIds)
  : AutoCompactWindow :=
  mkWindow n i (new_context_window_requested w) (prefill_input_tokens w)
    (token_budget_reminder_delivered w) (auto_compact_fallback_delivered w).

Definition advance (w : AutoCompactWindow) (now_v7 : Uuid)
  : AutoCompactWindow * (Z * AutoCompactWindowIds) :=
  let n := Z.min (window_number w + 1) U64_MAX in
  let i := mkIds (first_window_id (ids w)) (Some (window_id (ids w))) now_v7 in
  (mkWindow n i false (prefill_input_tokens w) false false, (n, i)).

Definition claim_token_budget_reminder (w : AutoCompactWindow) : AutoCompactWindow * bool :=
  (mkWindow (window_number w) (ids w) (new_context_window_requested w) (prefill_input_tokens w)
     true (auto_compact_fallback_delivered w),
   negb (token_budget_reminder_delivered w)).

Definition claim_auto_compact_fallback (w : AutoCompactWindow) : AutoCompactWindow * bool :=
  (mkWindow (window_number w) (ids w) (new_context_window_requested w) (prefill_input_tokens w)
     (token_budget_reminder_delivered w) true,
   negb (auto_compact_fallback_delivered w)).

Definition set_requested (w : AutoCompactWindow) (r : bool) : AutoCompactWindow :=
  mkWindow (window_number w) (ids w) r (prefill_input_tokens w)
    (token_budget_reminder_delivered w) (auto_compact_fallback_delivered w).

Definition request_new_context_window (w : AutoCompactWindow) : AutoCompactWindow :=
  set_requested w true.

Definition take_new_context_window_request (w : AutoCompactWindow) : AutoCompactWindow * bool :=
  (set_requested w false, new_context_window_requested w).

Definition is_server_observed (p : option AutoCompactWindowPrefill) : bool :=
  match p with Some (ServerObserved _) => true | _ => false end.

(** The argument is the sample's [input_tokens]. *)
Definition ensure_server_observed_prefill_from_usage (w : AutoCompactWindow) (input_tokens : Z)
  : AutoCompactWindow :=
  if is_server_observed (prefill_input_tokens w) then w
  else set_prefill w (Some (ServerObserved (Z.max input_tokens 0))).

Definition set_estimated_prefill (w : AutoCompactWindow) (tokens : Z) : AutoCompactWindow :=
  if is_server_observed (prefill_input_tokens w) then w
  else set_prefill w (Some (Estimated (Z.max tokens 0))).

Definition snapshot (w : AutoCompactWindow) : option Z :=
  match prefill_input_tokens w with
  | Some (ServerObserved tokens) | Some (Estimated tokens) => Some tokens
  | None => None
  end.

(** ** The machine *)

Inductive op : Type :=
| ClearPrefill
| Restore (n : Z) (i : AutoCompactWindowIds)
| Advance (now_v7 : Uuid)
| ClaimReminder
| ClaimFallback
| RequestWindow
| TakeRequest
| ObserveUsage (input_tokens : Z)
| EstimatePrefill (tokens : Z).

(** One operation; the answer is that of the claims and of the take, and [false]
    for the operations that return nothing. *)
Definition step (w : AutoCompactWindow) (o : op) : AutoCompactWindow * bool :=
  match o with
  | ClearPrefill => (clear_prefill w, false)
  | Restore n i => (restore w n i, false)
  | Advance u => ((advance w u).1, false)
  | ClaimReminder => claim_token_budget_reminder w
  | ClaimFallback => claim_auto_compact_fallback w
  | RequestWindow => (request_new_context_window w, false)
  | TakeRequest => take_new_context_window_request w
  | ObserveUsage n => (ensure_server_observed_prefill_from_usage w n, false)
  | EstimatePrefill n => (set_estimated_prefill w n, false)
  end.

(** The answers of a run, with the operation that gave each. *)
Fixpoint run (w : AutoCompactWindow) (ops : list op) : AutoCompactWindow * list (op * bool) :=
  match ops with
  | [] => (w, [])
  | o :: ops' =>
      let '(w1, a) := step w o in
      let '(w2, as_) := run w1 ops' in (w2, (o, a) :: as_)
  end.

Definition is_advance (o : op) : bool := match o with Advance _ => true | _ => false end.

Definition granted (which : op → bool) (e : op * bool) : bool := which e.1 && e.2.

Definition is_reminder (o : op) : bool := match o with ClaimReminder => true | _ => false end.
Definition is_fallback (o : op) : bool := match o with ClaimFallback => true | _ => false end.

Definition count {A} (f : A → bool) (l : list A) : nat := length (List.filter f l).

(** ** Lemmas *)

(** Case analysis on an operation, with the step unfolded. *)
Ltac step_cases o :=
  destruct o; cbn;
  unfold ensure_server_observed_prefill_from_usage, set_estimated_prefill;
  try done.

Lemma run_cons w o ops :
  run w (o :: ops) =
  let '(w1, a) := step w o in let '(w2, as_) := run w1 ops in (w2, (o, a) :: as_).
Proof. done. Qed.

Lemma count_cons {A} (f : A → bool) x l : count f (x :: l) = (if f x then 1 else 0) + count f l.
Proof. unfold count. cbn. by destruct (f x). Qed.

(** A one-shot flag is granted at most once between advances. *)
Lemma claims_bounded (which : op → bool) (flag : AutoCompactWindow → bool) w ops :
  (∀ w o, which o = true → step w o = ((step w o).1, negb (flag w)) ∧ flag (step w o).1 = true) →
  (∀ w o, which o = false → is_advance o = false → flag w = true → flag (step w o).1 = true) →
  count (granted which) (run w ops).2
  ≤ (if flag w then 0 else 1) + count is_advance ops.
Proof.
  intros Hclaim Hkeep. revert w. induction ops as [|o ops IH]; intros w; [cbn; lia|].
  rewrite run_cons, (count_cons is_advance).
  destruct (step w o) as [w1 a] eqn:Hs. specialize (IH w1).
  destruct (run w1 ops) as [w2 as_]; cbn [snd] in *. rewrite count_cons. unfold granted at 1; cbn [fst snd].
  destruct (which o) eqn:Hw; cbn [andb].
  - destruct (Hclaim w o Hw) as [Ha Hf]. rewrite Hs in Ha, Hf. cbn in Ha, Hf.
    injection Ha as ->. rewrite Hf in IH. destruct (flag w), (is_advance o); cbn in *; lia.
  - destruct (is_advance o) eqn:Hadv; [destruct (flag w), (flag w1); lia|].
    pose proof (Hkeep w o Hw Hadv) as Hk. rewrite Hs in Hk. cbn in Hk.
    destruct (flag w); [rewrite Hk in IH by done|destruct (flag w1)]; lia.
Qed.

(** In any run from a fresh window the token-budget reminder, and likewise the
    auto-compaction fallback, is granted at most once per window: no more often than
    one plus the number of times the window advanced. *)
Theorem claims_once_per_window (i : AutoCompactWindowIds) ops :
  count (granted is_reminder) (run (new_with_ids i) ops).2 ≤ 1 + count is_advance ops
  ∧ count (granted is_fallback) (run (new_with_ids i) ops).2 ≤ 1 + count is_advance ops.
Proof.
  split.
  - apply (claims_bounded is_reminder token_budget_reminder_delivered).
    + by intros w [].
    + intros w o; step_cases o; by destruct (is_server_observed _).
  - apply (claims_bounded is_fallback auto_compact_fallback_delivered).
    + by intros w [].
    + intros w o; step_cases o; by destruct (is_server_observed _).
Qed.

(** The invariant: a non-negative baseline and a window number in range. *)
Definition window_wf (w : AutoCompactWindow) : Prop :=
  (0 ≤ window_number w ≤ U64_MAX)%Z
  ∧ match snapshot w with Some n => (0 ≤ n)%Z | None => True end.

Definition op_ok (o : op) : Prop :=
  match o with Restore n _ => (0 ≤ n ≤ U64_MAX)%Z | _ => True end.

Lemma step_wf w o : window_wf w → op_ok o → window_wf (step w o).1.
Proof.
  intros [Hn Hs] Ho. unfold window_wf, snapshot in *. cbn in Ho. step_cases o;
    try (destruct (prefill_input_tokens w) as [[]|] eqn:Hp; cbn; rewrite ?Hp);
    split; try done; try lia; unfold U64_MAX; lia.
Qed.

(** Once the server's usage has set the baseline, nothing but clearing it changes
    it; and in every run the baseline is never negative and the window number stays
    within 64 bits. *)
Theorem server_baseline_sticky w ops :
  window_wf w → Forall op_ok ops →
  window_wf (run w ops).1
  ∧ (is_server_observed (prefill_input_tokens w) = true → ClearPrefill ∉ ops →
     prefill_input_tokens (run w ops).1 = prefill_input_tokens w).
Proof.
  intros Hwf Hok. revert w Hwf. induction Hok as [|o ops Ho Hok IH]; intros w Hwf; [done|].
  rewrite run_cons. destruct (step w o) as [w1 a] eqn:Hs.
  assert (Hwf1 : window_wf w1) by (rewrite <- (f_equal fst Hs : _ = w1); by apply step_wf).
  destruct (IH w1 Hwf1) as [Hwf2 Hkeep]. destruct (run w1 ops) as [w2 as_]; cbn in *.
  split; [done|]. intros Hobs [Hne Hnin]%not_elem_of_cons.
  assert (Hp : prefill_input_tokens w1 = prefill_input_tokens w).
  { rewrite <- (f_equal fst Hs : _ = w1). step_cases o; by rewrite ?Hobs. }
  rewrite <- Hp. apply Hkeep; [by rewrite Hp|done].
Qed.

(** Whether a request is outstanding after an operation. *)
Definition pending_request (acc : bool) (o : op) : bool :=
  match o with RequestWindow => true | TakeRequest | Advance _ => false | _ => acc end.

(** A request for a new context window is delivered exactly once: the next take
    answers [true] iff a request came after the last take and the last advance. *)
Theorem request_delivered_once w ops :
  (take_new_context_window_request (run w ops).1).2
  = foldl pending_request (new_context_window_requested w) ops.
Proof.
  revert w. induction ops as [|o ops IH]; intros w; [done|].
  rewrite run_cons. cbn [foldl]. destruct (step w o) as [w1 a] eqn:Hs.
  specialize (IH w1). destruct (run w1 ops) as [w2 as_]; cbn in *. rewrite IH. f_equal.
  rewrite <- (f_equal fst Hs : _ = w1). step_cases o; by try destruct (is_server_observed _).
Qed.
End window.

Lemma server_baseline_sticky_witness :
  let w := set_prefill (new_with_ids (new_initial 0)) (Some (ServerObserved 7)) in
  let ops := [EstimatePrefill 3; Advance 1; ObserveUsage 9] in
  window_wf (run w ops).1
  ∧ (is_server_observed (prefill_input_tokens w) = true → ClearPrefill ∉ ops →
     prefill_input_tokens (run w ops).1 = prefill_input_tokens w).
Proof.
  apply server_baseline_sticky; [|repeat constructor].
  unfold window_wf, U64_MAX; cbn. lia.
Defined.
