(* ===== verification/StreamParser.v ===== *)
(** * Streaming text parsers: [utils/stream-parser/src]

    [stream_text.rs], [inline_hidden_tag.rs], [citation.rs] and [assistant_text.rs]:
    parsers that receive text in pieces and separate the visible text from the
    contents of hidden inline tags.  Positions are counted in characters; the Rust
    code cuts strings at the same places by byte offsets. *)

From Stdlib Require Import String.
From stdpp Require Import base option list numbers.
From S2P Require Import Prelude.

(** ** The interface *)

(** [StreamTextChunk]. *)
Record StreamTextChunk (T : Type) : Type := mkTextChunk {
  visible_text : str;
  extracted : list T;
}.
Arguments mkTextChunk {T} _ _.
Arguments visible_text {T} _.
Arguments extracted {T} _.

Definition empty_text_chunk {T} : StreamTextChunk T := mkTextChunk [] [].

Definition chunk_is_empty {T} (c : StreamTextChunk T) : bool :=
  bool_decide (visible_text c = []) && match extracted c with [] => true | _ => false end.

(** Output accumulated by a caller. *)
Definition chunk_app {T} (a b : StreamTextChunk T) : StreamTextChunk T :=
  mkTextChunk (visible_text a ++ visible_text b) (extracted a ++ extracted b).

(** The trait [StreamTextParser]: a state with [push_str] and [finish]. *)
Class StreamTextParser (S T : Type) : Type := {
  push_str : S → str → S * StreamTextChunk T;
  finish_str : S → S * StreamTextChunk T;
}.

(** A caller that pushes pieces and then finishes. *)
Fixpoint push_all_str {S T} `{!StreamTextParser S T} (s : S) (chunks : list str)
  : S * StreamTextChunk T :=
  match chunks with
  | [] => (s, empty_text_chunk)
  | c :: chunks' =>
      let '(s1, o1) := push_str s c in
      let '(s2, o2) := push_all_str s1 chunks' in (s2, chunk_app o1 o2)
  end.

Definition collect_stream {S T} `{!StreamTextParser S T} (s : S) (chunks : list str)
  : StreamTextChunk T :=
  let '(s1, o1) := push_all_str s chunks in chunk_app o1 (finish_str s1).2.

(** What a parser promises its clients: from a fresh state, the collected output is a
    function of the whole text, however it is cut. *)
Class StreamTextSpec (S T : Type) `{!StreamTextParser S T} (fresh : S)
    (spec : str → StreamTextChunk T) : Prop := {
  stream_spec chunks : collect_stream fresh chunks = spec (concat chunks);
}.

(** ** [inline_hidden_tag.rs] *)

Record ExtractedInlineTag (T : Type) : Type := mkTag { tag : T; content : str }.
Arguments mkTag {T} _ _.
Arguments tag {T} _.
Arguments content {T} _.

Record InlineTagSpec (T : Type) : Type := mkSpec {
  spec_tag : T;
  open : str;
  close : str;
}.
Arguments mkSpec {T} _ _ _.
Arguments spec_tag {T} _.
Arguments open {T} _.
Arguments close {T} _.

Record ActiveTag (T : Type) : Type := mkActive {
  active_tag : T;
  active_close : str;
  active_content : str;
}.
Arguments mkActive {T} _ _ _.
Arguments active_tag {T} _.
Arguments active_close {T} _.
Arguments active_content {T} _.

Record InlineHiddenTagParser (T : Type) : Type := mkInline {
  specs : list (InlineTagSpec T);
  pending : str;
  active : option (ActiveTag T);
}.
Arguments mkInline {T} _ _ _.
Arguments specs {T} _.
Arguments pending {T} _.
Arguments active {T} _.

(** [str::find(&str)]. *)
Fixpoint find (needle s : str) : option nat :=
  if starts_with needle s then Some 0
  else match s with [] => None | _ :: s' => S <$> find needle s' end.

(** The loop [for k in (1..=max).rev()], from [k] down. *)
Fixpoint longest_from (s needle : str) (k : nat) : nat :=
  match k with
  | O => 0
  | S k' => if ends_with (take k needle) s then k else longest_from s needle k'
  end.

Definition longest_suffix_prefix_len (s needle : str) : nat :=
  longest_from s needle (length s `min` (length needle - 1)).

Section inline.
Context {T : Type}.
Implicit Types p : InlineHiddenTagParser T.

(** [InlineHiddenTagParser::new]; [None] where an assertion fails. *)
Definition new_inline (ss : list (InlineTagSpec T)) : option (InlineHiddenTagParser T) :=
  if match ss with [] => true | _ => false end then None
  else if forallb (λ s, negb (bool_decide (open s = [])) && negb (bool_decide (close s = []))) ss
  then Some (mkInline ss [] None) else None.

(** Candidates [(position, length, index)] and the order of [find_next_open]: the
    earliest, then the longest, then the first. *)
Definition candidate : Type := nat * nat * nat.

Definition better (a b : candidate) : bool :=
  let '(pos_a, len_a, idx_a) := a in
  let '(pos_b, len_b, idx_b) := b in
  (pos_a <? pos_b)
  || (pos_a =? pos_b) && ((len_b <? len_a) || (len_b =? len_a) && (idx_a <? idx_b)).

(** [Iterator::min_by]: the first of the minimal elements. *)
Fixpoint min_candidate (best : candidate) (l : list candidate) : candidate :=
  match l with
  | [] => best
  | c :: l' => min_candidate (if better c best then c else best) l'
  end.

Definition min_by (l : list candidate) : option candidate :=
  match l with [] => None | c :: l' => Some (min_candidate c l') end.

Fixpoint open_candidates (text : str) (idx : nat) (ss : list (InlineTagSpec T)) : list candidate :=
  match ss with
  | [] => []
  | s :: ss' =>
      match find (open s) text with
      | Some pos => [(pos, byte_len (open s), idx)]
      | None => []
      end ++ open_candidates text (S idx) ss'
  end.

Definition find_next_open (ss : list (InlineTagSpec T)) (text : str) : option (nat * nat) :=
  match min_by (open_candidates text 0 ss) with
  | Some (pos, _, idx) => Some (pos, idx)
  | None => None
  end.

Definition max_open_prefix_suffix_len (ss : list (InlineTagSpec T)) (text : str) : nat :=
  max_list (map (λ s, longest_suffix_prefix_len text (open s)) ss).

(** The body of the loop: the new pending text and active tag, what was output, and
    whether the loop goes on. *)
Definition inline_step (ss : list (InlineTagSpec T)) (act : option (ActiveTag T)) (text : str)
  : option (ActiveTag T) * str * StreamTextChunk (ExtractedInlineTag T) * bool :=
  match act with
  | Some a =>
      match find (active_close a) text with
      | Some close_idx =>
          (None, drop (close_idx + length (active_close a)) text,
           mkTextChunk [] [mkTag (active_tag a) (active_content a ++ take close_idx text)], true)
      | None =>
          let keep := longest_suffix_prefix_len text (active_close a) in
          let n := length text - keep in
          (Some (mkActive (active_tag a) (active_close a) (active_content a ++ take n text)),
           drop n text, empty_text_chunk, false)
      end
  | None =>
      match find_next_open ss text with
      | Some (open_idx, spec_idx) =>
          match ss !! spec_idx with
          | Some s =>
              (Some (mkActive (spec_tag s) (close s) []),
               drop (open_idx + length (open s)) text,
               mkTextChunk (take open_idx text) [], true)
          | None => (None, text, empty_text_chunk, false)
          end
      | None =>
          let keep := max_open_prefix_suffix_len ss text in
          let n := length text - keep in
          (None, drop n text, mkTextChunk (take n text) [], false)
      end
  end.

(** The loop; every iteration that goes on removes a delimiter, so the length of the
    text bounds their number. *)
Fixpoint inline_loop (fuel : nat) (ss : list (InlineTagSpec T)) (act : option (ActiveTag T))
    (text : str) : option (ActiveTag T) * str * StreamTextChunk (ExtractedInlineTag T) :=
  match fuel with
  | O => (act, text, empty_text_chunk)
  | S fuel' =>
      let '(act1, text1, o1, continue) := inline_step ss act text in
      if continue then
        let '(act2, text2, o2) := inline_loop fuel' ss act1 text1 in
        (act2, text2, chunk_app o1 o2)
      else (act1, text1, o1)
  end.

Definition inline_push p (chunk : str)
  : InlineHiddenTagParser T * StreamTextChunk (ExtractedInlineTag T) :=
  let text := pending p ++ chunk in
  let '(act, text, out) := inline_loop (S (length text)) (specs p) (active p) text in
  (mkInline (specs p) text act, out).

Definition inline_finish p
  : InlineHiddenTagParser T * StreamTextChunk (ExtractedInlineTag T) :=
  match active p with
  | Some a =>
      (mkInline (specs p) [] None,
       mkTextChunk [] [mkTag (active_tag a) (active_content a ++ pending p)])
  | None => (mkInline (specs p) [] None, mkTextChunk (pending p) [])
  end.

#[global] Instance inline_parser :
  StreamTextParser (InlineHiddenTagParser T) (ExtractedInlineTag T) :=
  { push_str := inline_push; finish_str := inline_finish }.
End inline.

(** ** [citation.rs] *)

Inductive CitationTag : Type := Citation.

Definition CITATION_OPEN : str := lit "<oai-mem-citation>".
Definition CITATION_CLOSE : str := lit "</oai-mem-citation>".

Definition citation_specs : list (InlineTagSpec CitationTag) :=
  [mkSpec Citation CITATION_OPEN CITATION_CLOSE].

Record CitationStreamParser : Type := mkCitation { cit_inner : InlineHiddenTagParser CitationTag }.

Definition new_citation : CitationStreamParser := mkCitation (mkInline citation_specs [] None).

Definition citation_chunk (o : StreamTextChunk (ExtractedInlineTag CitationTag))
  : StreamTextChunk str :=
  mkTextChunk (visible_text o) (map content (extracted o)).

#[global] Instance citation_parser : StreamTextParser CitationStreamParser str := {
  push_str p chunk :=
    let '(inner, o) := push_str (cit_inner p) chunk in (mkCitation inner, citation_chunk o);
  finish_str p :=
    let '(inner, o) := finish_str (cit_inner p) in (mkCitation inner, citation_chunk o);
}.

Definition strip_citations (text : str) : str * list str :=
  let '(p, out) := push_str new_citation text in
  let '(_, tail) := finish_str p in
  (visible_text out ++ visible_text tail, extracted out ++ extracted tail).

(** ** [assistant_text.rs] *)

Record AssistantTextChunk : Type := mkAssistantChunk {
  assistant_visible : str;
  citations : list str;
}.

Definition assistant_chunk (o : StreamTextChunk str) : AssistantTextChunk :=
  mkAssistantChunk (visible_text o) (extracted o).

Definition assistant_push (p : CitationStreamParser) (chunk : str)
  : CitationStreamParser * AssistantTextChunk :=
  let '(p', o) := push_str p chunk in (p', assistant_chunk o).

Definition assistant_finish (p : CitationStreamParser)
  : CitationStreamParser * AssistantTextChunk :=
  let '(p', o) := finish_str p in (p', assistant_chunk o).
