(* ===== verification/StreamParserFacts.v ===== *)
(** * The hidden-tag parsers implement a one-pass reference semantics

    The reference reads the whole text from left to right; the streaming parser is
    shown to produce the same output however the text is cut into pieces. *)

From Stdlib Require Import String.
From stdpp Require Import base option list numbers.
From S2P Require Import Prelude StreamParser.

(** ** Searching *)

(** [needle] occurs in [s] at position [i]. *)
Definition occurs (needle s : str) (i : nat) : Prop := ∃ r, drop i s = needle ++ r ∧ i ≤ length s.

Lemma occurs_length needle s i : occurs needle s i → i + length needle ≤ length s.
Proof.
  intros (r & Hr & Hi). apply (f_equal length) in Hr. rewrite length_drop, length_app in Hr. lia.
Qed.

Lemma occurs_cons needle c s i : occurs needle (c :: s) (S i) ↔ occurs needle s i.
Proof. unfold occurs; cbn. split; intros (r & ? & ?); exists r; (split; [done|lia]). Qed.

Lemma starts_with_occurs needle s : starts_with needle s = true ↔ occurs needle s 0.
Proof.
  unfold occurs. rewrite drop_0, starts_with_true. split; intros [r ?]; exists r; [|tauto].
  split; [done|lia].
Qed.

Lemma find_spec needle s :
  match find needle s with
  | Some i => occurs needle s i ∧ ∀ j, j < i → ¬ occurs needle s j
  | None => ∀ j, ¬ occurs needle s j
  end.
Proof.
  induction s as [|c s IH]; cbn [find].
  - destruct (starts_with needle []) eqn:E.
    + apply starts_with_occurs in E. split; [done|]. intros; lia.
    + intros j Hj. pose proof (occurs_length _ _ _ Hj) as Hl. cbn in Hl.
      replace j with 0 in Hj by lia. apply starts_with_occurs in Hj. congruence.
  - destruct (starts_with needle (c :: s)) eqn:E.
    + apply starts_with_occurs in E. split; [done|]. intros; lia.
    + assert (H0 : ¬ occurs needle (c :: s) 0) by (intros H%starts_with_occurs; congruence).
      destruct (find needle s) as [i|]; cbn.
      * destruct IH as [Hi Hmin]. split; [by apply occurs_cons|].
        intros [|j] Hj; [done|]. rewrite occurs_cons. apply Hmin. lia.
      * intros [|j]; [done|]. by rewrite occurs_cons.
Qed.

Lemma occurs_app_l needle s t i : occurs needle s i → occurs needle (s ++ t) i.
Proof.
  intros Ho. pose proof (occurs_length _ _ _ Ho) as Hl. destruct Ho as (r & Hr & Hi).
  exists (r ++ t). rewrite drop_app_le, Hr, length_app by lia. split; [by rewrite app_assoc|lia].
Qed.

(** An occurrence in [s ++ t] lies in [s], or its needle starts with a suffix of [s]. *)
Lemma occurs_app needle s t i :
  occurs needle (s ++ t) i → i ≤ length s →
  occurs needle s i ∨ (take (length s - i) needle = drop i s ∧ length s - i < length needle).
Proof.
  intros Ho Hi. pose proof (occurs_length _ _ _ Ho) as Hl. destruct Ho as (r & Hr & _).
  rewrite drop_app_le in Hr by done.
  destruct (decide (i + length needle ≤ length s)) as [Hin|Hout].
  - left. exists (drop (length needle) (drop i s)). split; [|done].
    rewrite <- (take_drop (length needle) (drop i s)) at 1. f_equal.
    apply (f_equal (take (length needle))) in Hr.
    by rewrite take_app_le, take_app_length in Hr by (rewrite length_drop; lia).
  - right. split; [|lia]. apply (f_equal (take (length s - i))) in Hr.
    rewrite take_app_le, (take_ge (drop i s)) in Hr by (rewrite length_drop; lia).
    by rewrite Hr, take_app_le by lia.
Qed.

Lemma occurs_drop needle s n i : occurs needle (drop n s) i → n ≤ length s → occurs needle s (n + i).
Proof.
  intros (r & Hr & Hi) Hn. exists r. rewrite drop_drop in Hr. rewrite length_drop in Hi.
  split; [done|lia].
Qed.

Lemma occurs_drop_inv needle s n i : n ≤ i → occurs needle s i → occurs needle (drop n s) (i - n).
Proof.
  intros Hn (r & Hr & Hi). exists r. rewrite drop_drop, length_drop.
  replace (n + (i - n)) with i by lia. split; [done|lia].
Qed.

Lemma longest_from_spec s needle k :
  let m := longest_from s needle k in
  m ≤ k ∧ ends_with (take m needle) s = true
  ∧ ∀ j, m < j ≤ k → ends_with (take j needle) s = false.
Proof.
  cbv zeta. induction k as [|k IH]; cbn [longest_from].
  - split; [lia|]. split; [|intros; lia]. apply ends_with_true. exists s. by rewrite app_nil_r.
  - destruct (ends_with (take (S k) needle) s) eqn:E.
    + split; [lia|]. split; [done|]. intros; lia.
    + destruct IH as (? & ? & Hj). split; [lia|]. split; [done|]. intros j Hj'.
      destruct (decide (j = S k)) as [->|]; [done|]. apply Hj. lia.
Qed.

Lemma longest_suffix_prefix_len_le s needle : longest_suffix_prefix_len s needle ≤ length s.
Proof.
  unfold longest_suffix_prefix_len.
  pose proof (longest_from_spec s needle (length s `min` (length needle - 1))) as (H & _). lia.
Qed.

(** Any suffix of [s] that is a proper prefix of the needle is within the longest. *)
Lemma longest_suffix_prefix_len_max s needle i :
  i ≤ length s → take (length s - i) needle = drop i s → length s - i < length needle →
  length s - i ≤ longest_suffix_prefix_len s needle.
Proof.
  intros Hi Heq Hlt. unfold longest_suffix_prefix_len.
  pose proof (longest_from_spec s needle (length s `min` (length needle - 1))) as (_ & _ & Hmax).
  destruct (decide (length s - i ≤ longest_from s needle (length s `min` (length needle - 1))))
    as [|Hgt]; [done|].
  assert (Hf := Hmax (length s - i) ltac:(lia)).
  assert (ends_with (take (length s - i) needle) s = true) as Ht; [|congruence].
  apply ends_with_true. exists (take i s). by rewrite Heq, take_drop.
Qed.

(** After the part that may be cut off, no occurrence starts, whatever follows. *)
Lemma no_occurrence_before needle s t i keep :
  (∀ j, ¬ occurs needle s j) → longest_suffix_prefix_len s needle ≤ keep → keep ≤ length s →
  i < length s - keep → ¬ occurs needle (s ++ t) i.
Proof.
  intros Hnone Hkeep Hlen Hi Ho. destruct (occurs_app _ _ _ _ Ho) as [Hin|[Heq Hlt]]; [lia| |].
  - by apply (Hnone i).
  - pose proof (longest_suffix_prefix_len_max s needle i ltac:(lia) Heq Hlt). lia.
Qed.

(** The first occurrence does not move when text before it is removed or added. *)
Lemma find_app_some needle s t i : find needle s = Some i → find needle (s ++ t) = Some i.
Proof.
  intros Hf. pose proof (find_spec needle s) as Hs. rewrite Hf in Hs. destruct Hs as [Ho Hmin].
  pose proof (find_spec needle (s ++ t)) as Hst. pose proof (occurs_length _ _ _ Ho) as Hl.
  destruct (find needle (s ++ t)) as [j|]; [|by destruct (Hst i); apply occurs_app_l].
  destruct Hst as [Hj Hminj]. destruct (lt_eq_lt_dec i j) as [[Hlt|?]|Hgt]; [|by f_equal|].
  - by destruct (Hminj i Hlt); apply occurs_app_l.
  - destruct (occurs_app _ _ _ _ Hj) as [Hin|[_ Hlt]]; [lia|by destruct (Hmin j)|].
    lia.
Qed.

Lemma find_none_app needle s t n :
  n ≤ length s → (∀ i, i < n → ¬ occurs needle (s ++ t) i) →
  find needle (s ++ t) = Nat.add n <$> find needle (drop n s ++ t).
Proof.
  intros Hn Hno. rewrite <- drop_app_le by done.
  pose proof (find_spec needle (s ++ t)) as Hst.
  pose proof (find_spec needle (drop n (s ++ t))) as Hd.
  assert (Hlen : n ≤ length (s ++ t)) by (rewrite length_app; lia).
  destruct (find needle (drop n (s ++ t))) as [j|]; cbn.
  - destruct Hd as [Hj Hminj]. apply occurs_drop in Hj; [|done].
    destruct (find needle (s ++ t)) as [i|]; [|by destruct (Hst (n + j))].
    destruct Hst as [Hi Hmini]. f_equal.
    assert (n ≤ i) by (destruct (decide (i < n)); [by destruct (Hno i)|lia]).
    destruct (lt_eq_lt_dec i (n + j)) as [[Hlt|?]|Hgt]; [|done|by destruct (Hmini (n + j))].
    destruct (Hminj (i - n)); [lia|]. by apply occurs_drop_inv.
  - destruct (find needle (s ++ t)) as [i|]; [|done]. destruct Hst as [Hi _].
    destruct (decide (i < n)); [by destruct (Hno i)|].
    destruct (Hd (i - n)). apply occurs_drop_inv; [lia|done].
Qed.

(** ** The reference semantics *)

Section reference.
Context {T : Type}.
Implicit Types ss : list (InlineTagSpec T).
Implicit Types act : option (ActiveTag T).

(** The tag that opens at the start of a text: the longest, then the first. *)
Fixpoint starting_candidates (text : str) (idx : nat) ss : list candidate :=
  match ss with
  | [] => []
  | s :: ss' =>
      (if starts_with (open s) text then [(0, byte_len (open s), idx)] else [])
      ++ starting_candidates text (S idx) ss'
  end.

Definition spec_at ss (text : str) : option (InlineTagSpec T) :=
  match min_by (starting_candidates text 0 ss) with
  | Some (_, _, idx) => ss !! idx
  | None => None
  end.

Definition cons_visible (c : char) (o : StreamTextChunk (ExtractedInlineTag T))
  : StreamTextChunk (ExtractedInlineTag T) := mkTextChunk (c :: visible_text o) (extracted o).

Definition cons_extracted (t : ExtractedInlineTag T) (o : StreamTextChunk (ExtractedInlineTag T))
  : StreamTextChunk (ExtractedInlineTag T) := mkTextChunk (visible_text o) (t :: extracted o).

(** Reading a text from the left, inside or outside a tag.  Every call shortens the
    text, so its length bounds the fuel needed. *)
Fixpoint hide_tags (fuel : nat) ss act (text : str) : StreamTextChunk (ExtractedInlineTag T) :=
  match fuel with
  | O => empty_text_chunk
  | S fuel' =>
      match act with
      | Some a =>
          match find (active_close a) text with
          | Some i =>
              cons_extracted (mkTag (active_tag a) (active_content a ++ take i text))
                (hide_tags fuel' ss None (drop (i + length (active_close a)) text))
          | None => mkTextChunk [] [mkTag (active_tag a) (active_content a ++ text)]
          end
      | None =>
          match text with
          | [] => empty_text_chunk
          | c :: text' =>
              match spec_at ss text with
              | Some s =>
                  hide_tags fuel' ss (Some (mkActive (spec_tag s) (close s) []))
                    (drop (length (open s)) text)
              | None => cons_visible c (hide_tags fuel' ss None text')
              end
          end
      end
  end.

Definition reference ss act (text : str) : StreamTextChunk (ExtractedInlineTag T) :=
  hide_tags (S (length text)) ss act text.
Arguments reference : simpl never.

(** ** Well-formed specifications *)

(** Delimiters are not empty, and no opening delimiter occurs inside another. *)
Definition specs_ok ss : Prop :=
  Forall (λ s, open s ≠ [] ∧ close s ≠ []) ss
  ∧ ∀ s1 s2 i, s1 ∈ ss → s2 ∈ ss → occurs (open s1) (open s2) i → open s1 = open s2.

Definition act_ok act : Prop := ∀ a, act = Some a → active_close a ≠ [].

(** *** The candidate order *)

Lemma better_irrefl a : better a a = false.
Proof. destruct a as [[p l] i]. unfold better. rewrite !Nat.ltb_irrefl. by rewrite !andb_false_r. Qed.

Lemma better_spec a b :
  better a b = true ↔
  a.1.1 < b.1.1 ∨ a.1.1 = b.1.1 ∧ (b.1.2 < a.1.2 ∨ b.1.2 = a.1.2 ∧ a.2 < b.2).
Proof.
  destruct a as [[p l] i], b as [[p' l'] i']; unfold better; cbn [fst snd].
  rewrite !orb_true_iff, !andb_true_iff, !orb_true_iff, !andb_true_iff.
  rewrite !Nat.ltb_lt, !Nat.eqb_eq. lia.
Qed.

Lemma min_candidate_spec best l :
  let m := min_candidate best l in
  (m = best ∨ m ∈ l) ∧ better best m = false ∧ ∀ c, c ∈ l → better c m = false.
Proof.
  cbv zeta. revert best. induction l as [|c l IH]; intros best; cbn [min_candidate].
  { split; [by left|]. split; [apply better_irrefl|]. by inversion 1. }
  destruct (IH (if better c best then c else best)) as (Hin & Hbest & Hall).
  set (m := min_candidate _ l) in *.
  assert (Hc : better c m = false ∧ better best m = false).
  { destruct (better c best) eqn:E; (split; [|try done]); try done.
    - destruct (better best m) eqn:E2; [|done]. apply better_spec in E, E2.
      assert (better c m = true) by (apply better_spec; lia). congruence.
    - destruct (better c m) eqn:E2; [|done]. apply better_spec in E2.
      assert (Hn : ¬ (better c best = true)) by congruence. rewrite better_spec in Hn.
      assert (Hm : ¬ (better best m = true)) by congruence. rewrite better_spec in Hm. lia. }
  split; [|split; [tauto|]].
  - destruct Hin as [Hm|Hm]; [|right; by right]. rewrite Hm.
    destruct (better c best); [right; by left|by left].
  - intros c' [->|Hc']%elem_of_cons; [tauto|by apply Hall].
Qed.

Lemma min_by_spec l :
  match min_by l with
  | None => l = []
  | Some m => m ∈ l ∧ ∀ c, c ∈ l → better c m = false
  end.
Proof.
  destruct l as [|c l]; [done|]. cbn [min_by].
  destruct (min_candidate_spec c l) as (Hin & Hc & Hall). split.
  - destruct Hin as [->|?]; [by left|by right].
  - intros c' [->|?]%elem_of_cons; auto.
Qed.

Lemma elem_of_open_candidates text idx ss c :
  c ∈ open_candidates text idx ss ↔
  ∃ k s pos, ss !! k = Some s ∧ find (open s) text = Some pos
             ∧ c = (pos, byte_len (open s), idx + k).
Proof.
  revert idx. induction ss as [|s ss IH]; intros idx; cbn [open_candidates].
  { split; [by inversion 1|]. by intros (k & ? & ? & Hk & _). }
  rewrite elem_of_app, IH. split.
  - intros [Hc|(k & s' & pos & Hk & Hf & ->)].
    + destruct (find (open s) text) as [pos|] eqn:Hf; [|by inversion Hc].
      apply list_elem_of_singleton in Hc as ->. exists 0, s, pos. by rewrite Nat.add_0_r.
    + exists (S k), s', pos. split; [done|]. split; [done|]. by rewrite Nat.add_succ_r.
  - intros ([|k] & s' & pos & Hk & Hf & ->); cbn in Hk.
    + injection Hk as <-. left. rewrite Hf, Nat.add_0_r. by apply list_elem_of_singleton.
    + right. exists k, s', pos. split; [done|]. split; [done|]. by rewrite Nat.add_succ_r.
Qed.

Lemma elem_of_starting_candidates text idx ss c :
  c ∈ starting_candidates text idx ss ↔
  ∃ k s, ss !! k = Some s ∧ occurs (open s) text 0 ∧ c = (0, byte_len (open s), idx + k).
Proof.
  revert idx. induction ss as [|s ss IH]; intros idx; cbn [starting_candidates].
  { split; [by inversion 1|]. by intros (k & ? & Hk & _). }
  rewrite elem_of_app, IH. split.
  - intros [Hc|(k & s' & Hk & Hf & ->)].
    + destruct (starts_with (open s) text) eqn:Hf; [|by inversion Hc].
      apply list_elem_of_singleton in Hc as ->. apply starts_with_occurs in Hf.
      exists 0, s. by rewrite Nat.add_0_r.
    + exists (S k), s'. split; [done|]. split; [done|]. by rewrite Nat.add_succ_r.
  - intros ([|k] & s' & Hk & Hf & ->); cbn in Hk.
    + injection Hk as <-. left. apply starts_with_occurs in Hf. rewrite Hf, Nat.add_0_r.
      by apply list_elem_of_singleton.
    + right. exists k, s'. split; [done|]. split; [done|]. by rewrite Nat.add_succ_r.
Qed.

Lemma spec_at_none ss text : (∀ s, s ∈ ss → ¬ occurs (open s) text 0) → spec_at ss text = None.
Proof.
  intros Hno. unfold spec_at. pose proof (min_by_spec (starting_candidates text 0 ss)) as Hm.
  destruct (min_by _) as [[[p l] k]|]; [|done]. destruct Hm as [Hin _].
  apply elem_of_starting_candidates in Hin as (k' & s & Hk & Ho & _).
  destruct (Hno s); [by eapply list_elem_of_lookup_2|done].
Qed.

Lemma spec_at_some ss text k s :
  ss !! k = Some s → occurs (open s) text 0 →
  (∀ k' s', ss !! k' = Some s' → occurs (open s') text 0 →
     better (0, byte_len (open s'), k') (0, byte_len (open s), k) = false) →
  spec_at ss text = Some s.
Proof.
  intros Hk Ho Hbest. unfold spec_at.
  pose proof (min_by_spec (starting_candidates text 0 ss)) as Hm.
  assert (Hin : (0, byte_len (open s), k) ∈ starting_candidates text 0 ss).
  { apply elem_of_starting_candidates. eauto. }
  destruct (min_by _) as [[[p l] k0]|]; [|by rewrite Hm in Hin; inversion Hin].
  destruct Hm as [Hmin Hall]. specialize (Hall _ Hin).
  apply elem_of_starting_candidates in Hmin as (k' & s' & Hk' & Ho' & [= -> -> ->]).
  specialize (Hbest _ _ Hk' Ho'). cbn [Nat.add] in *.
  assert (¬ better (0, byte_len (open s), k) (0, byte_len (open s'), k') = true) as H1 by congruence.
  assert (¬ better (0, byte_len (open s'), k') (0, byte_len (open s), k) = true) as H2 by congruence.
  rewrite better_spec in H1, H2; cbn in H1, H2. replace k' with k by lia. done.
Qed.

Lemma find_next_open_spec ss text :
  match find_next_open ss text with
  | Some (i, k) => ∃ s, ss !! k = Some s ∧ find (open s) text = Some i
      ∧ ∀ k' s' i', ss !! k' = Some s' → find (open s') text = Some i' →
          better (i', byte_len (open s'), k') (i, byte_len (open s), k) = false
  | None => ∀ s, s ∈ ss → find (open s) text = None
  end.
Proof.
  unfold find_next_open. pose proof (min_by_spec (open_candidates text 0 ss)) as Hm.
  destruct (min_by _) as [[[i l] k]|].
  - destruct Hm as [Hin Hall].
    apply elem_of_open_candidates in Hin as (k' & s & pos & Hk & Hf & [= -> -> ->]).
    exists s. split; [done|]. split; [done|]. intros k'' s' i' Hk'' Hf'.
    apply Hall, elem_of_open_candidates. eauto 10.
  - intros s [k Hk]%list_elem_of_lookup. destruct (find (open s) text) as [pos|] eqn:Hf; [|done].
    assert (Hin : (pos, byte_len (open s), 0 + k) ∈ open_candidates text 0 ss)
      by (apply elem_of_open_candidates; eauto 10).
    rewrite Hm in Hin. by inversion Hin.
Qed.

(** The next opening delimiter is final: text that follows cannot bring an earlier or
    a longer one. *)
Lemma next_open_stable ss p rest i k s :
  specs_ok ss → find_next_open ss p = Some (i, k) → ss !! k = Some s →
  (∀ j, j < i → spec_at ss (drop j (p ++ rest)) = None)
  ∧ spec_at ss (drop i (p ++ rest)) = Some s.
Proof.
  intros [_ Hfree] Hnext Hs. pose proof (find_next_open_spec ss p) as Hspec.
  rewrite Hnext in Hspec. destruct Hspec as (s0 & Hs0 & Hf & Hbest). simplify_eq.
  pose proof (find_spec (open s) p) as Hfs. rewrite Hf in Hfs. destruct Hfs as [Ho _].
  pose proof (occurs_length _ _ _ Ho) as Hlen.
  (* an opening delimiter at [j ≤ i] in the longer text lies in [p] *)
  assert (Hinside : ∀ s' j, s' ∈ ss → j ≤ i → occurs (open s') (drop j (p ++ rest)) 0 →
    occurs (open s') p j).
  { intros s' j Hs' Hj Hoc.
    apply occurs_drop in Hoc; [|rewrite length_app; lia]. rewrite Nat.add_0_r in Hoc.
    destruct (occurs_app _ _ _ _ Hoc) as [?|[Heq Hlt]]; [lia|done|].
    assert (Hfac : occurs (open s) (open s') (i - j)).
    { apply (occurs_drop_inv _ _ j) in Ho as Ho'; [|done].
      rewrite <- Heq in Ho'. rewrite <- (take_drop (length p - j) (open s')).
      by apply occurs_app_l. }
    apply occurs_length in Hfac as Hl'.
    apply (Hfree s s') in Hfac; [|by eapply list_elem_of_lookup_2|done].
    exists (drop (length (open s')) (drop j p)). split; [|lia].
    rewrite Hfac in *. lia. }
  split.
  - intros j Hj. apply spec_at_none. intros s' Hs' Hoc.
    apply list_elem_of_lookup in Hs' as Hk'. destruct Hk' as [k' Hk'].
    apply Hinside in Hoc; [|done|lia].
    pose proof (find_spec (open s') p) as Hfs'.
    destruct (find (open s') p) as [i'|] eqn:Hf'; [|by destruct (Hfs' j)].
    destruct Hfs' as [_ Hmin']. assert (i' ≤ j) by
      (destruct (decide (j < i')); [by destruct (Hmin' j)|lia]).
    specialize (Hbest _ _ _ Hk' Hf').
    assert (better (i', byte_len (open s'), k') (i, byte_len (open s), k) = true); [|congruence].
    apply better_spec; cbn. lia.
  - apply (spec_at_some ss _ k); [done| |].
    + pose proof (occurs_app_l _ _ rest _ Ho) as Ho'.
      apply (occurs_drop_inv _ _ i) in Ho'; [|done]. by rewrite Nat.sub_diag in Ho'.
    + intros k' s' Hk' Hoc. apply Hinside in Hoc; [|by eapply list_elem_of_lookup_2|done].
      pose proof (find_spec (open s') p) as Hfs'.
      destruct (find (open s') p) as [i'|] eqn:Hf'; [|by destruct (Hfs' i)].
      destruct Hfs' as [_ Hmin']. assert (i' ≤ i) by
        (destruct (decide (i < i')); [by destruct (Hmin' i)|lia]).
      specialize (Hbest _ _ _ Hk' Hf').
      assert (¬ better (i', byte_len (open s'), k') (i, byte_len (open s), k) = true) as Hb
        by congruence.
      rewrite better_spec in Hb; cbn in Hb.
      destruct (better (0, _, _) _) eqn:E; [|done]. apply better_spec in E; cbn in E. lia.
Qed.

(** *** Equations of the reference *)

Lemma spec_at_elem ss text s : spec_at ss text = Some s → s ∈ ss ∧ occurs (open s) text 0.
Proof.
  unfold spec_at. pose proof (min_by_spec (starting_candidates text 0 ss)) as Hm.
  destruct (min_by _) as [[[p l] k]|]; [|done]. destruct Hm as [Hin _].
  apply elem_of_starting_candidates in Hin as (k' & s' & Hk & Ho & [= -> -> ->]).
  intros Hs. change (ss !! k' = Some s) in Hs. rewrite Hk in Hs. injection Hs as <-.
  split; [by eapply list_elem_of_lookup_2|done].
Qed.

Lemma specs_ok_elem ss s : specs_ok ss → s ∈ ss → open s ≠ [] ∧ close s ≠ [].
Proof. intros [Hne _] Hs. exact (Forall_elem _ _ _ Hne Hs). Qed.

Lemma length_pos {A} (l : list A) : l ≠ [] → 0 < length l.
Proof. destruct l; cbn; [done|lia]. Qed.

Lemma close_shorter needle text i :
  needle ≠ [] → find needle text = Some i →
  length (drop (i + length needle) text) < length text.
Proof.
  intros Hne Hf. pose proof (find_spec needle text) as Hs. rewrite Hf in Hs.
  destruct Hs as [Ho%occurs_length _]. rewrite length_drop. pose proof (length_pos _ Hne). lia.
Qed.

Lemma open_shorter ss text s :
  specs_ok ss → spec_at ss text = Some s → length (drop (length (open s)) text) < length text.
Proof.
  intros Hok [Hs Ho%occurs_length]%spec_at_elem. rewrite length_drop.
  destruct (specs_ok_elem _ _ Hok Hs) as [Hne _]. pose proof (length_pos _ Hne). lia.
Qed.

Lemma new_active_ok ss text s :
  specs_ok ss → spec_at ss text = Some s → act_ok (Some (mkActive (spec_tag s) (close s) [])).
Proof.
  intros Hok [Hs _]%spec_at_elem a [= <-]. by apply (specs_ok_elem ss).
Qed.

Lemma act_ok_none : act_ok None.
Proof. done. Qed.

Lemma hide_tags_enough ss n m act text :
  specs_ok ss → act_ok act → length text < n → length text < m →
  hide_tags n ss act text = hide_tags m ss act text.
Proof.
  intros Hok. revert m act text. induction n as [|n IH]; intros m act text Hact Hn Hm; [lia|].
  destruct m as [|m]; [lia|]. cbn [hide_tags]. destruct act as [a|].
  - destruct (find (active_close a) text) as [i|] eqn:Hf; [|done].
    pose proof (close_shorter _ _ _ (Hact a eq_refl) Hf). f_equal. apply IH; [done|lia..].
  - destruct text as [|c text]; [done|]. destruct (spec_at ss (c :: text)) as [s|] eqn:Hs.
    + pose proof (open_shorter _ _ _ Hok Hs). apply IH; [by eapply new_active_ok|lia..].
    + f_equal. cbn in Hn, Hm. apply IH; [done|lia..].
Qed.

Lemma reference_close ss a text i :
  specs_ok ss → active_close a ≠ [] → find (active_close a) text = Some i →
  reference ss (Some a) text
  = cons_extracted (mkTag (active_tag a) (active_content a ++ take i text))
      (reference ss None (drop (i + length (active_close a)) text)).
Proof.
  intros Hok Ha Hf. unfold reference at 1. cbn [hide_tags]. rewrite Hf. f_equal.
  pose proof (close_shorter _ _ _ Ha Hf). unfold reference. apply hide_tags_enough; [done|done|lia..].
Qed.

Lemma reference_open ss text s :
  specs_ok ss → spec_at ss text = Some s →
  reference ss None text
  = reference ss (Some (mkActive (spec_tag s) (close s) [])) (drop (length (open s)) text).
Proof.
  intros Hok Hs. pose proof (open_shorter _ _ _ Hok Hs). unfold reference.
  destruct text as [|c text]; [cbn in *; rewrite drop_nil in *; cbn in *; lia|].
  change (hide_tags (S (length (c :: text))) ss None (c :: text))
    with (match spec_at ss (c :: text) with
          | Some s => hide_tags (length (c :: text)) ss (Some (mkActive (spec_tag s) (close s) []))
                        (drop (length (open s)) (c :: text))
          | None => cons_visible c (hide_tags (length (c :: text)) ss None text) end).
  rewrite Hs. apply hide_tags_enough; [done|by eapply new_active_ok|lia..].
Qed.

Lemma reference_skip ss text n :
  specs_ok ss → n ≤ length text → (∀ j, j < n → spec_at ss (drop j text) = None) →
  reference ss None text
  = chunk_app (mkTextChunk (take n text) []) (reference ss None (drop n text)).
Proof.
  intros Hok. revert text. induction n as [|n IH]; intros text Hn Hno.
  { rewrite take_0, drop_0. by destruct (reference ss None text). }
  destruct text as [|c text]; [cbn in Hn; lia|]. cbn in Hn.
  assert (Heq : reference ss None (c :: text) = cons_visible c (reference ss None text)).
  { unfold reference at 1. cbn [hide_tags]. pose proof (Hno 0 ltac:(lia)) as H0.
    rewrite drop_0 in H0. rewrite H0. done. }
  rewrite Heq, IH; [done|lia|]. intros j Hj. apply (Hno (S j)). lia.
Qed.

(** *** The loop *)

(** Nothing is left to do in a pending text. *)
Definition quiet ss act (text : str) : Prop :=
  match act with
  | Some a => find (active_close a) text = None
  | None => ∀ s, s ∈ ss → find (open s) text = None
  end.

Lemma find_none_drop needle text n :
  n ≤ length text → find needle text = None → find needle (drop n text) = None.
Proof.
  intros Hn Hf. pose proof (find_spec needle text) as Hs. rewrite Hf in Hs.
  pose proof (find_spec needle (drop n text)) as Hd.
  destruct (find needle (drop n text)) as [i|]; [|done]. destruct Hd as [Ho _].
  apply occurs_drop in Ho; [|done]. by destruct (Hs (n + i)).
Qed.

Lemma max_open_le ss text s :
  s ∈ ss → longest_suffix_prefix_len text (open s) ≤ max_open_prefix_suffix_len ss text.
Proof.
  intros Hs. unfold max_open_prefix_suffix_len. apply max_list_elem_of_le.
  by apply (list_elem_of_fmap_2 (λ s, longest_suffix_prefix_len text (open s))).
Qed.

Lemma max_open_bound ss text : max_open_prefix_suffix_len ss text ≤ length text.
Proof.
  unfold max_open_prefix_suffix_len. induction ss as [|s ss IH]; cbn; [lia|].
  pose proof (longest_suffix_prefix_len_le text (open s)). lia.
Qed.

(** One iteration outputs a beginning of the reference's output, and shortens the text
    or leaves nothing to do. *)
Definition step_sound ss act (text : str) rest
    (r : option (ActiveTag T) * str * StreamTextChunk (ExtractedInlineTag T) * bool) : Prop :=
  let '(act', text', o, continue) := r in
  reference ss act (text ++ rest) = chunk_app o (reference ss act' (text' ++ rest))
  ∧ act_ok act'
  ∧ (if continue then length text' < length text else quiet ss act' text').

Lemma inline_step_active ss a text rest :
  specs_ok ss → active_close a ≠ [] →
  step_sound ss (Some a) text rest (inline_step ss (Some a) text).
Proof.
  intros Hok Hne. unfold inline_step, step_sound.
  destruct (find (active_close a) text) as [i|] eqn:Hf.
  + pose proof (find_spec (active_close a) text) as Hs. rewrite Hf in Hs.
    destruct Hs as [Ho%occurs_length _].
    split; [|split; [done|by apply close_shorter]].
    rewrite (reference_close ss a _ i); [|done..|by apply find_app_some].
    rewrite take_app_le, drop_app_le by lia. done.
  + pose proof (longest_suffix_prefix_len_le text (active_close a)) as Hle.
    pose proof (find_spec (active_close a) text) as Hs. rewrite Hf in Hs.
    set (n := length text - longest_suffix_prefix_len text (active_close a)).
    split; [|split; [by intros ? [= <-]|apply find_none_drop; [lia|done]]].
    assert (Hno : ∀ i, i < n → ¬ occurs (active_close a) (text ++ rest) i)
      by (intros i Hi; by apply (no_occurrence_before _ _ _ _ _ Hs (le_n _) Hle)).
    assert (Hfind := find_none_app _ text rest n ltac:(lia) Hno).
    destruct (find (active_close a) (drop n text ++ rest)) as [i|] eqn:Hi; cbn in Hfind.
    * rewrite (reference_close ss a _ (n + i)) by done.
      rewrite (reference_close ss (mkActive _ _ _) _ i) by done. cbn.
      unfold cons_extracted, chunk_app; cbn. f_equal.
      -- do 2 f_equal. rewrite <- Nat.add_assoc, <- drop_drop, drop_app_le by lia. done.
      -- f_equal; [|do 2 f_equal; rewrite <- Nat.add_assoc, <- drop_drop, drop_app_le by lia; done].
         f_equal. rewrite <- app_assoc. f_equal.
         rewrite <- take_take_drop, take_app_le, drop_app_le by lia. done.
    * unfold reference. cbn [hide_tags]. rewrite Hfind. cbn [active_close]. rewrite Hi.
      unfold chunk_app; cbn. do 3 f_equal. rewrite <- app_assoc. f_equal.
      by rewrite app_assoc, take_drop.
Qed.

Lemma inline_step_inactive ss text rest :
  specs_ok ss → step_sound ss None text rest (inline_step ss None text).
Proof.
  intros Hok. unfold inline_step, step_sound.
  destruct (find_next_open ss text) as [[i k]|] eqn:Hnext.
  + pose proof (find_next_open_spec ss text) as Hspec. rewrite Hnext in Hspec.
    destruct Hspec as (s & Hk & Hf & _). rewrite Hk.
    destruct (next_open_stable ss text rest i k s Hok Hnext Hk) as [Hno Hat].
    pose proof (find_spec (open s) text) as Hs. rewrite Hf in Hs.
    destruct Hs as [Ho%occurs_length _].
    destruct (specs_ok_elem ss s Hok) as [Hne _]; [by eapply list_elem_of_lookup_2|].
    split; [|split; [by eapply new_active_ok|by apply close_shorter]].
    rewrite (reference_skip ss _ i) by (try done; rewrite length_app; lia).
    rewrite (reference_open ss _ s) by done.
    rewrite drop_drop, take_app_le, drop_app_le by lia. done.
  + pose proof (find_next_open_spec ss text) as Hspec.
    rewrite Hnext in Hspec. pose proof (max_open_bound ss text) as Hmax.
    set (n := length text - max_open_prefix_suffix_len ss text).
    split; [|split; [done|intros s Hs; apply find_none_drop; [lia|by apply Hspec]]].
    assert (Hno : ∀ j, j < n → spec_at ss (drop j (text ++ rest)) = None).
    { intros j Hj. apply spec_at_none. intros s Hs Hoc.
      pose proof (find_spec (open s) text) as Hfs. rewrite (Hspec s Hs) in Hfs.
      apply occurs_drop in Hoc; [|rewrite length_app; lia]. rewrite Nat.add_0_r in Hoc.
      by apply (no_occurrence_before (open s) text rest j _ Hfs (max_open_le ss text s Hs) Hmax Hj). }
    rewrite (reference_skip ss _ n); [|done|rewrite length_app; lia|done].
    by rewrite take_app_le, drop_app_le by lia.
Qed.

Lemma inline_step_sound ss act text rest :
  specs_ok ss → act_ok act → step_sound ss act text rest (inline_step ss act text).
Proof.
  intros Hok Hact. destruct act as [a|]; [|by apply inline_step_inactive].
  apply inline_step_active; [done|by apply Hact].
Qed.

Lemma chunk_app_assoc {U} (a b c : StreamTextChunk U) :
  chunk_app a (chunk_app b c) = chunk_app (chunk_app a b) c.
Proof. unfold chunk_app; cbn. by rewrite !app_assoc. Qed.

Lemma chunk_app_nil_l {U} (a : StreamTextChunk U) : chunk_app empty_text_chunk a = a.
Proof. by destruct a. Qed.

Lemma inline_loop_reference fuel ss act text act' text' o rest :
  specs_ok ss → act_ok act → length text < fuel →
  inline_loop fuel ss act text = (act', text', o) →
  reference ss act (text ++ rest) = chunk_app o (reference ss act' (text' ++ rest))
  ∧ act_ok act' ∧ quiet ss act' text'.
Proof.
  intros Hok. revert act text act' text' o.
  induction fuel as [|fuel IH]; intros act text act' text' o Hact Hfuel; [lia|].
  cbn [inline_loop]. pose proof (inline_step_sound ss act text rest Hok Hact) as Hstep.
  destruct (inline_step ss act text) as [[[act1 text1] o1] continue].
  destruct Hstep as (Href & Hact1 & Hend). destruct continue.
  - destruct (inline_loop fuel ss act1 text1) as [[act2 text2] o2] eqn:Hloop.
    intros [= <- <- <-]. destruct (IH act1 text1 act2 text2 o2 Hact1 ltac:(lia) Hloop)
      as (Href2 & Hact2 & Hq2).
    split; [|done]. by rewrite Href, Href2, chunk_app_assoc.
  - by intros [= <- <- <-].
Qed.

Lemma finish_reference ss act text :
  specs_ok ss → quiet ss act text →
  (inline_finish (mkInline ss text act)).2 = reference ss act text.
Proof.
  intros Hok Hq. destruct act as [a|]; cbn in *.
  - unfold reference. cbn [hide_tags]. by rewrite Hq.
  - rewrite (reference_skip ss text (length text)); [|done|done|].
    + rewrite take_ge, drop_ge by lia. unfold chunk_app; cbn. by rewrite app_nil_r.
    + intros j Hj. apply spec_at_none. intros s Hs Ho.
      pose proof (find_spec (open s) text) as Hf. rewrite (Hq s Hs) in Hf.
      apply occurs_drop in Ho; [|lia]. by apply (Hf (j + 0)).
Qed.

Lemma collect_reference ss act text chunks :
  specs_ok ss → act_ok act → quiet ss act text →
  collect_stream (mkInline ss text act) chunks = reference ss act (text ++ concat chunks).
Proof.
  intros Hok. unfold collect_stream. revert act text.
  induction chunks as [|c chunks IH]; intros act text Hact Hq; cbn [push_all_str concat].
  { rewrite app_nil_r, chunk_app_nil_l. by apply finish_reference. }
  unfold push_str; cbn [inline_parser]. unfold inline_push; cbn [pending specs active].
  destruct (inline_loop _ ss act (text ++ c)) as [[act1 text1] o1] eqn:Hloop.
  destruct (inline_loop_reference _ _ _ _ _ _ _ (concat chunks) Hok Hact (Nat.lt_succ_diag_r _) Hloop)
    as (Href & Hact1 & Hq1).
  specialize (IH act1 text1 Hact1 Hq1).
  destruct (push_all_str (mkInline ss text1 act1) chunks) as [s2 o2].
  by rewrite <- chunk_app_assoc, IH, <- Href, app_assoc.
Qed.
End reference.

(** ** The parsers meet the interface *)

Section instances.
Context {T : Type} (ss : list (InlineTagSpec T)).

Lemma fresh_quiet : specs_ok ss → quiet ss None [].
Proof.
  intros Hok s Hs. destruct (specs_ok_elem _ _ Hok Hs) as [Hne _].
  by destruct (open s).
Qed.

#[global] Instance inline_stream_spec :
  specs_ok ss → StreamTextSpec _ _ (mkInline ss [] None) (reference ss None).
Proof.
  intros Hok. split. intros chunks. by apply collect_reference; [|done|apply fresh_quiet].
Qed.
End instances.

Lemma citation_specs_ok : specs_ok citation_specs.
Proof.
  split; [by repeat constructor|].
  by intros s1 s2 i ->%list_elem_of_singleton ->%list_elem_of_singleton _.
Qed.

Lemma citation_chunk_app a b : citation_chunk (chunk_app a b) = chunk_app (citation_chunk a) (citation_chunk b).
Proof. unfold citation_chunk, chunk_app; cbn. by rewrite map_app. Qed.

Lemma citation_collect (p : InlineHiddenTagParser CitationTag) chunks :
  collect_stream (mkCitation p) chunks = citation_chunk (collect_stream p chunks).
Proof.
  unfold collect_stream. revert p. induction chunks as [|c chunks IH]; intros p.
  { cbn -[finish_str]. rewrite !chunk_app_nil_l. cbn. by destruct (inline_finish p). }
  cbn [push_all_str]. unfold push_str at 1; cbn [citation_parser cit_inner].
  destruct (push_str p c) as [p1 o1]. specialize (IH p1).
  destruct (push_all_str (mkCitation p1) chunks) as [s2 o2], (push_all_str p1 chunks) as [q2 u2].
  by rewrite <- !chunk_app_assoc, IH, (citation_chunk_app o1).
Qed.

#[global] Instance citation_stream_spec :
  StreamTextSpec _ _ new_citation (λ text, citation_chunk (reference citation_specs None text)).
Proof.
  split. intros chunks. unfold new_citation. rewrite citation_collect. f_equal.
  apply (inline_stream_spec citation_specs citation_specs_ok).
Qed.

(** C37: the hidden-tag parser is the left-to-right reference whatever the pieces:
    pushing a text in any pieces and finishing yields the visible text and the tag
    contents that the reference reads off the whole text, an unterminated tag being
    closed at the end.  The tag specifications are those with non-empty delimiters (the
    constructor asserts that) in which no opening delimiter occurs inside a different
    one (it does not check that, and with [<a] and [<ab] the pieces do matter). *)
Theorem hidden_tags_streaming {T} (ss : list (InlineTagSpec T)) chunks :
  specs_ok ss →
  collect_stream (mkInline ss [] None) chunks = reference ss None (concat chunks).
Proof. intros Hok. by apply (inline_stream_spec ss Hok). Qed.

(** Two specifications the constructor accepts, the opener of one beginning the
    other's: the tag found depends on where the text is cut. *)
Definition nested_openers : list (InlineTagSpec nat) :=
  [mkSpec 1 (lit "<a") (lit ">"); mkSpec 2 (lit "<ab") (lit ">")].

Lemma nested_openers_depend_on_pieces :
  extracted (collect_stream (mkInline nested_openers [] None) [lit "<abx>"])
    = [mkTag 2 (lit "x")]
  ∧ extracted (collect_stream (mkInline nested_openers [] None) [lit "<a"; lit "bx>"])
    = [mkTag 1 (lit "bx")].
Proof. by split; vm_compute. Qed.

(** ** Citations written and stripped *)

(** No proper part of the needle is both its beginning and its end. *)
Definition border_free (needle : str) : bool :=
  forallb (λ k, negb (bool_decide (take k needle = drop (length needle - k) needle)))
    (seq 1 (length needle - 1)).

Lemma find_border_free needle v r :
  border_free needle = true → (∀ j, ¬ occurs needle v j) →
  find needle (v ++ needle ++ r) = Some (length v).
Proof.
  intros Hb Hv. pose proof (find_spec needle (v ++ needle ++ r)) as Hf.
  assert (Hat : occurs needle (v ++ needle ++ r) (length v)).
  { exists r. rewrite drop_app_length, !length_app. split; [done|lia]. }
  destruct (find needle (v ++ needle ++ r)) as [j|]; [|by destruct (Hf (length v))].
  destruct Hf as [Hj Hmin]. f_equal.
  destruct (lt_eq_lt_dec j (length v)) as [[Hlt|?]|Hgt]; [exfalso|done|by destruct (Hmin (length v))].
  destruct (occurs_app _ _ _ _ Hj) as [Hin|[Heq Hk]]; [lia|by apply (Hv j)|].
  set (k := length v - j) in *.
  destruct Hj as (r' & Hr & _). rewrite drop_app_le, <- Heq in Hr by lia.
  rewrite <- (take_drop k needle) in Hr at 3. rewrite <- app_assoc in Hr. apply app_inv_head in Hr.
  apply (f_equal (take (length needle - k))) in Hr.
  rewrite !take_app_le in Hr by (rewrite ?length_drop; lia).
  rewrite (take_ge (drop k needle)) in Hr by (rewrite length_drop; lia).
  unfold border_free in Hb. rewrite forallb_forall in Hb.
  assert (Hin : In (length needle - k) (seq 1 (length needle - 1))) by (apply in_seq; lia).
  apply Hb in Hin. rewrite negb_true_iff, bool_decide_eq_false in Hin. apply Hin.
  rewrite Hr. f_equal. lia.
Qed.

(** A text with citations: visible pieces, each followed by a citation, and a tail. *)
Definition cite (segs : list (str * str)) (tail : str) : str :=
  concat (map (λ seg, seg.1 ++ CITATION_OPEN ++ seg.2 ++ CITATION_CLOSE) segs) ++ tail.

Definition seg_ok (seg : str * str) : Prop :=
  find CITATION_OPEN seg.1 = None ∧ find CITATION_CLOSE seg.2 = None.

Lemma find_none_occurs needle s : find needle s = None → ∀ j, ¬ occurs needle s j.
Proof. intros Hf. pose proof (find_spec needle s) as Hs. by rewrite Hf in Hs. Qed.

Lemma citation_next_open text i :
  find CITATION_OPEN text = Some i → find_next_open citation_specs text = Some (i, 0).
Proof.
  intros Hf. unfold find_next_open, citation_specs. cbn [open_candidates open].
  by rewrite Hf.
Qed.

Lemma reference_citation v text :
  find CITATION_OPEN v = None →
  reference citation_specs None (v ++ CITATION_OPEN ++ text)
  = chunk_app (mkTextChunk v [])
      (reference citation_specs (Some (mkActive Citation CITATION_CLOSE [])) text).
Proof.
  intros Hv. assert (Hf : find CITATION_OPEN (v ++ CITATION_OPEN ++ text) = Some (length v))
    by (by apply find_border_free; [|apply find_none_occurs]).
  apply citation_next_open in Hf.
  destruct (next_open_stable citation_specs _ [] _ _ _ citation_specs_ok Hf eq_refl) as [Hno Hat].
  rewrite app_nil_r in Hno, Hat.
  rewrite (reference_skip _ _ (length v) citation_specs_ok); [|rewrite length_app; lia|done].
  rewrite (reference_open _ _ _ citation_specs_ok Hat), take_app_length.
  cbn [open close spec_tag citation_specs]. by rewrite drop_app_length, drop_app_length.
Qed.

Lemma reference_cite segs tail :
  Forall seg_ok segs → find CITATION_OPEN tail = None →
  reference citation_specs None (cite segs tail)
  = mkTextChunk (concat segs.*1 ++ tail) (mkTag Citation <$> segs.*2).
Proof.
  intros Hsegs Htail. induction Hsegs as [|[v c] segs [Hv Hc] _ IH]; [|cbn in Hv, Hc].
  - change (cite [] tail) with tail.
    rewrite <- (finish_reference citation_specs None tail citation_specs_ok); [done|].
    by intros s ->%list_elem_of_singleton.
  - set (rest := cite segs tail) in *.
    assert (Hcite : cite ((v, c) :: segs) tail
                    = v ++ CITATION_OPEN ++ c ++ CITATION_CLOSE ++ rest).
    { unfold rest, cite. cbn [map concat fst snd]. by rewrite <- !app_assoc. }
    rewrite Hcite, reference_citation by done.
    rewrite (reference_close citation_specs (mkActive Citation CITATION_CLOSE []) _ (length c));
      [|apply citation_specs_ok|done|by apply find_border_free; [|apply find_none_occurs]].
    cbn [active_tag active_content active_close app].
    rewrite take_app_length, <- drop_drop, drop_app_length, drop_app_length, IH.
    unfold chunk_app; cbn. by rewrite <- app_assoc.
Qed.

Lemma strip_citations_collect text :
  strip_citations text = (visible_text (collect_stream new_citation [text]),
                          extracted (collect_stream new_citation [text])).
Proof.
  unfold strip_citations, collect_stream. cbn [push_all_str].
  destruct (push_str new_citation text) as [p out]. destruct (finish_str p) as [p' tail].
  unfold chunk_app; cbn. by rewrite !app_nil_r.
Qed.

(** Stripping citations inverts writing them: from visible pieces and citations
    written with their tags, [strip_citations] returns the visible text and the
    citations, provided no visible piece contains an opening tag and no citation a
    closing one. *)
Theorem strip_citations_roundtrip segs tail :
  Forall seg_ok segs → find CITATION_OPEN tail = None →
  strip_citations (cite segs tail) = (concat segs.*1 ++ tail, segs.*2).
Proof.
  intros Hsegs Htail. rewrite strip_citations_collect.
  rewrite (stream_spec (fresh := new_citation)). cbn [concat]. rewrite app_nil_r.
  rewrite reference_cite by done. unfold citation_chunk; cbn. f_equal.
  rewrite map_map. cbn. by rewrite map_id.
Qed.

(** ** Witnesses *)

Lemma hidden_tags_streaming_witness :
  collect_stream (mkInline citation_specs [] None) [lit "a<oai-mem-"; lit "citation>b"]
  = reference citation_specs None (concat [lit "a<oai-mem-"; lit "citation>b"]).
Proof. apply hidden_tags_streaming, citation_specs_ok. Defined.

Lemma strip_citations_roundtrip_witness :
  strip_citations (cite [(lit "a <", lit "doc"); (lit "b", [])] (lit "</oai"))
  = (lit "a <b</oai", [lit "doc"; []]).
Proof.
  apply (strip_citations_roundtrip [(lit "a <", lit "doc"); (lit "b", [])] (lit "</oai"));
    [repeat constructor|]; vm_compute; reflexivity.
Defined.
