(* ===== verification/Utf8Stream.v ===== *)
(** * Byte streams: [utils/stream-parser/src/utf8_stream.rs]

    [Utf8StreamParser] feeds a text parser from raw bytes, keeping an incomplete
    character back until its bytes have arrived.  [std::str::from_utf8] is modelled
    with the offset and the length it reports for an error. *)

From Stdlib Require Import String.
From stdpp Require Import base option list numbers.
From S2P Require Import Prelude StreamParser StreamParserFacts.

Abbreviation bytes := (list N) (only parsing).

(** ** [std::str::from_utf8] *)

(** One character at the start of a byte string: the character and its length, or the
    bytes end too early, or an invalid sequence of the given length. *)
Inductive utf8_char : Type :=
| U8Char (c : char) (n : nat)
| U8Incomplete
| U8Invalid (n : nat).

Definition in_range (lo hi b : N) : bool := ((lo <=? b) && (b <=? hi))%N.

Definition is_continuation (b : N) : bool := in_range 0x80 0xBF b.

(** The valid second bytes of three- and four-byte sequences. *)
Definition second_ok3 (b0 b1 : N) : bool :=
  if (b0 =? 0xE0)%N then in_range 0xA0 0xBF b1
  else if (b0 =? 0xED)%N then in_range 0x80 0x9F b1
  else is_continuation b1.

Definition second_ok4 (b0 b1 : N) : bool :=
  if (b0 =? 0xF0)%N then in_range 0x90 0xBF b1
  else if (b0 =? 0xF4)%N then in_range 0x80 0x8F b1
  else is_continuation b1.

Definition next_char (bs : bytes) : utf8_char :=
  match bs with
  | [] => U8Incomplete
  | b0 :: bs1 =>
      if (b0 <? 0x80)%N then U8Char b0 1
      else if in_range 0xC2 0xDF b0 then
        match bs1 with
        | [] => U8Incomplete
        | b1 :: _ =>
            if is_continuation b1 then U8Char ((b0 - 0xC0) * 64 + (b1 - 0x80))%N 2
            else U8Invalid 1
        end
      else if in_range 0xE0 0xEF b0 then
        match bs1 with
        | [] => U8Incomplete
        | b1 :: bs2 =>
            if second_ok3 b0 b1 then
              match bs2 with
              | [] => U8Incomplete
              | b2 :: _ =>
                  if is_continuation b2
                  then U8Char ((b0 - 0xE0) * 4096 + (b1 - 0x80) * 64 + (b2 - 0x80))%N 3
                  else U8Invalid 2
              end
            else U8Invalid 1
        end
      else if in_range 0xF0 0xF4 b0 then
        match bs1 with
        | [] => U8Incomplete
        | b1 :: bs2 =>
            if second_ok4 b0 b1 then
              match bs2 with
              | [] => U8Incomplete
              | b2 :: bs3 =>
                  if is_continuation b2 then
                    match bs3 with
                    | [] => U8Incomplete
                    | b3 :: _ =>
                        if is_continuation b3
                        then U8Char ((b0 - 0xF0) * 262144 + (b1 - 0x80) * 4096
                                     + (b2 - 0x80) * 64 + (b3 - 0x80))%N 4
                        else U8Invalid 3
                    end
                  else U8Invalid 2
              end
            else U8Invalid 1
        end
      else U8Invalid 1
  end.

(** How the validation of a byte string ends: at its end, inside a character, or at an
    invalid sequence of the given length. *)
Inductive utf8_end : Type := AtEnd | InsideChar | AtInvalid (error_len : nat).

(** The characters before the end, and the number of bytes they take. *)
Fixpoint validate (fuel : nat) (bs : bytes) : str * nat * utf8_end :=
  match fuel, bs with
  | O, _ | _, [] => ([], 0, AtEnd)
  | S fuel', _ :: _ =>
      match next_char bs with
      | U8Incomplete => ([], 0, InsideChar)
      | U8Invalid n => ([], 0, AtInvalid n)
      | U8Char c n =>
          let '(text, len, e) := validate fuel' (drop n bs) in (c :: text, n + len, e)
      end
  end.

Definition decode (bs : bytes) : str * nat * utf8_end := validate (length bs) bs.

(** [Utf8Error]: [valid_up_to], and [error_len] when it is not the end. *)
Record Utf8Error : Type := mkUtf8Error { valid_up_to : nat; error_len : option nat }.

Definition from_utf8 (bs : bytes) : result Utf8Error str :=
  match decode bs with
  | (text, _, AtEnd) => Ok text
  | (_, n, InsideChar) => Err (mkUtf8Error n None)
  | (_, n, AtInvalid l) => Err (mkUtf8Error n (Some l))
  end.

(** ** The parser *)

Inductive Utf8StreamParserError : Type :=
| InvalidUtf8 (valid_up_to error_len : nat)
| IncompleteUtf8AtEof.

Section utf8.
Context {S T : Type} `{!StreamTextParser S T}.

Record Utf8StreamParser : Type := mkUtf8 { inner : S; pending_utf8 : bytes }.

Definition new_utf8 (s : S) : Utf8StreamParser := mkUtf8 s [].

Definition push_bytes (p : Utf8StreamParser) (chunk : bytes)
  : Utf8StreamParser * result Utf8StreamParserError (StreamTextChunk T) :=
  let old := pending_utf8 p in
  let buffer := old ++ chunk in
  match from_utf8 buffer with
  | Ok text =>
      let '(s, out) := push_str (inner p) text in (mkUtf8 s [], Ok out)
  | Err e =>
      match error_len e with
      | Some l => (mkUtf8 (inner p) (take (length old) buffer), Err (InvalidUtf8 (valid_up_to e) l))
      | None =>
          let n := valid_up_to e in
          if n =? 0 then (mkUtf8 (inner p) buffer, Ok empty_text_chunk)
          else
            match from_utf8 (take n buffer) with
            | Ok text =>
                let '(s, out) := push_str (inner p) text in (mkUtf8 s (drop n buffer), Ok out)
            | Err e' =>
                (mkUtf8 (inner p) (take (length old) buffer),
                 Err (InvalidUtf8 (valid_up_to e') (default 0 (error_len e'))))
            end
      end
  end.

Definition finish_bytes (p : Utf8StreamParser)
  : Utf8StreamParser * result Utf8StreamParserError (StreamTextChunk T) :=
  let check :=
    if bool_decide (pending_utf8 p = []) then None
    else match from_utf8 (pending_utf8 p) with
         | Ok _ => None
         | Err e =>
             Some match error_len e with
                  | Some l => InvalidUtf8 (valid_up_to e) l
                  | None => IncompleteUtf8AtEof
                  end
         end in
  match check with
  | Some e => (p, Err e)
  | None =>
      let flushed :=
        if bool_decide (pending_utf8 p = []) then Ok (inner p, empty_text_chunk)
        else match from_utf8 (pending_utf8 p) with
             | Ok text => Ok (push_str (inner p) text)
             | Err e => Err (InvalidUtf8 (valid_up_to e) (default 0 (error_len e)))
             end in
      match flushed with
      | Err e => (p, Err e)
      | Ok (s, out) =>
          let '(s, tail) := finish_str s in (mkUtf8 s [], Ok (chunk_app out tail))
      end
  end.

(** [into_inner], and [into_inner_lossy]. *)
Definition into_inner (p : Utf8StreamParser) : result Utf8StreamParserError S :=
  if bool_decide (pending_utf8 p = []) then Ok (inner p)
  else match from_utf8 (pending_utf8 p) with
       | Ok _ => Ok (inner p)
       | Err e =>
           Err match error_len e with
               | Some l => InvalidUtf8 (valid_up_to e) l
               | None => IncompleteUtf8AtEof
               end
       end.

Definition into_inner_lossy (p : Utf8StreamParser) : S := inner p.
End utf8.
Arguments Utf8StreamParser : clear implicits.

(** ** Facts on decoding *)

(** Case analysis on the byte patterns of [next_char]. *)
Ltac byte_cases bs :=
  destruct bs as [|?b0 [|?b1 [|?b2 [|?b3 bs]]]]; cbn;
  repeat match goal with |- context [if ?c then _ else _] => destruct c end.

Lemma next_char_char bs c n r :
  next_char bs = U8Char c n → next_char (bs ++ r) = U8Char c n ∧ 0 < n ≤ length bs.
Proof. byte_cases bs; intros [= <- <-]; (split; [done|cbn; lia]). Qed.

Lemma next_char_take bs c n : next_char bs = U8Char c n → next_char (take n bs) = U8Char c n.
Proof.
  destruct bs as [|b0 [|b1 [|b2 [|b3 bs]]]]; cbn;
    repeat match goal with |- context [if ?c then _ else _] => destruct c eqn:? end;
    intros [= <- <-]; cbn;
    repeat match goal with H : _ = _ |- _ => rewrite H; clear H end; done.
Qed.

Lemma next_char_invalid bs n r : next_char bs = U8Invalid n → next_char (bs ++ r) = U8Invalid n.
Proof. byte_cases bs; by intros [= <-]. Qed.

Lemma validate_enough n m bs :
  length bs ≤ n → length bs ≤ m → validate n bs = validate m bs.
Proof.
  revert m bs. induction n as [|n IH]; intros m bs Hn Hm.
  { destruct bs; [|cbn in Hn; lia]. by destruct m. }
  destruct bs as [|b bs]; [by destruct m|]. destruct m as [|m]; [cbn in Hm; lia|].
  cbn [validate]. destruct (next_char (b :: bs)) as [c k| |] eqn:Hc; [|done..].
  apply (next_char_char _ _ _ []) in Hc as [_ Hk].
  rewrite (IH m); [done|rewrite length_drop; cbn [length] in *; lia..].
Qed.

Lemma decode_cons bs :
  bs ≠ [] →
  decode bs =
  match next_char bs with
  | U8Incomplete => ([], 0, InsideChar)
  | U8Invalid n => ([], 0, AtInvalid n)
  | U8Char c n => let '(text, len, e) := decode (drop n bs) in (c :: text, n + len, e)
  end.
Proof.
  destruct bs as [|b bs]; [done|]. intros _. unfold decode at 1. cbn [length validate].
  destruct (next_char (b :: bs)) as [c k| |] eqn:Hc; [|done..].
  apply (next_char_char _ _ _ []) in Hc as [_ Hk]. unfold decode.
  rewrite (validate_enough (length bs) (length (drop k (b :: bs)))); [done| |done].
  rewrite length_drop. cbn [length] in *. lia.
Qed.

(** Induction along the characters of a byte string. *)
Lemma bytes_ind (P : bytes → Prop) :
  P [] →
  (∀ bs, bs ≠ [] → (∀ c n, next_char bs = U8Char c n → P (drop n bs)) → P bs) →
  ∀ bs, P bs.
Proof.
  intros Hnil Hstep bs.
  induction bs as [bs IH] using (well_founded_induction (well_founded_ltof _ (@length N))).
  destruct (decide (bs = [])) as [->|Hne]; [done|]. apply Hstep; [done|].
  intros c n Hc. apply IH. apply (next_char_char _ _ _ []) in Hc as [_ Hn].
  unfold ltof. rewrite length_drop. lia.
Qed.

(** A byte string splits at the end of its valid part. *)
Lemma decode_split bs :
  let '(text, n, e) := decode bs in
  n ≤ length bs ∧ decode (take n bs) = (text, n, AtEnd)
  ∧ decode (drop n bs) = ([], 0, e)
  ∧ (n = 0 ↔ text = []) ∧ match e with AtEnd => drop n bs = [] | _ => drop n bs ≠ [] end.
Proof.
  induction bs as [|bs Hne IH] using bytes_ind; [by cbn|].
  rewrite (decode_cons bs Hne). destruct (next_char bs) as [c k| |k] eqn:Hc.
  - specialize (IH c k eq_refl). destruct (decode (drop k bs)) as [[text n] e].
    destruct IH as (Hn & Htake & Hdrop & Hz & He).
    pose proof (next_char_char _ _ _ (drop (k + n) bs) Hc) as [_ Hk].
    rewrite drop_drop in Hdrop, He. rewrite length_drop in Hn.
    split; [lia|]. split; [|split; [done|split; [split; [lia|done]|done]]].
    assert (Hsub : take (k + n) bs = take k bs ++ take n (drop k bs)).
    { rewrite <- take_take_drop. done. }
    rewrite Hsub, decode_cons by (destruct bs; [done|]; destruct k; [lia|done]).
    pose proof (next_char_take _ _ _ Hc) as Hkb.
    rewrite (proj1 (next_char_char _ _ _ _ Hkb)).
    rewrite drop_app_ge, length_take by (rewrite length_take; lia).
    replace (k - k `min` length bs) with 0 by lia. rewrite drop_0, Htake. done.
  - rewrite take_0, drop_0, (decode_cons bs Hne), Hc. by split_and!; [lia|..].
  - rewrite take_0, drop_0, (decode_cons bs Hne), Hc. by split_and!; [lia|..].
Qed.

Lemma decode_app a b text n :
  decode a = (text, n, AtEnd) →
  decode (a ++ b) = let '(text', n', e) := decode b in (text ++ text', n + n', e).
Proof.
  revert text n. induction a as [|a Hne IH] using bytes_ind; intros text n.
  { intros [= <- <-]. cbn [app]. by destruct (decode b) as [[? ?] ?]. }
  rewrite (decode_cons a Hne), (decode_cons (a ++ b)) by by destruct a.
  destruct (next_char a) as [c k| |] eqn:Hc; [|done..].
  destruct (next_char_char _ _ _ b Hc) as [-> Hk].
  rewrite drop_app_le by lia. specialize (IH c k eq_refl).
  destruct (decode (drop k a)) as [[text' n'] e]. intros [= <- <- ->].
  rewrite (IH text' n' eq_refl). destruct (decode b) as [[t2 n2] e2].
  by rewrite Nat.add_assoc.
Qed.

Lemma decode_invalid_app a b text n l :
  decode a = (text, n, AtInvalid l) → decode (a ++ b) = (text, n, AtInvalid l).
Proof.
  revert text n. induction a as [|a Hne IH] using bytes_ind; intros text n; [done|].
  rewrite (decode_cons a Hne), (decode_cons (a ++ b)) by by destruct a.
  destruct (next_char a) as [c k| |] eqn:Hc; [|done|].
  - destruct (next_char_char _ _ _ b Hc) as [-> Hk].
    rewrite drop_app_le by lia. specialize (IH c k eq_refl).
    destruct (decode (drop k a)) as [[text' n'] e]. intros [= <- <- ->].
    by rewrite (IH text' n' eq_refl).
  - by rewrite (next_char_invalid _ _ b Hc).
Qed.

(** ** Facts on the parser *)

Section facts.
Context {S T : Type} `{!StreamTextParser S T}.
Implicit Types p : Utf8StreamParser S.

(** [push_bytes] by the way the buffered bytes end. *)
Lemma push_bytes_eq p chunk :
  let buffer := pending_utf8 p ++ chunk in
  push_bytes p chunk =
  match decode buffer with
  | (_, n, AtInvalid l) => (p, Err (InvalidUtf8 n l))
  | (text, n, e) =>
      match e, n with
      | InsideChar, O => (mkUtf8 (inner p) buffer, Ok empty_text_chunk)
      | _, _ => let '(s, out) := push_str (inner p) text in (mkUtf8 s (drop n buffer), Ok out)
      end
  end.
Proof.
  cbv zeta. unfold push_bytes, from_utf8. pose proof (decode_split (pending_utf8 p ++ chunk)) as Hs.
  destruct (decode (pending_utf8 p ++ chunk)) as [[text n] e].
  destruct Hs as (Hn & Htake & Hdrop & Hz & He). destruct e as [| |l]; cbn [error_len valid_up_to].
  - rewrite He. by destruct n.
  - destruct n as [|n]; [done|]. cbn [Nat.eqb]. by rewrite Htake.
  - rewrite take_app_length. by destruct p.
Qed.

(** A buffer that holds back at most an incomplete character. *)
Definition held_back p : Prop :=
  pending_utf8 p = [] ∨ decode (pending_utf8 p) = ([], 0, InsideChar).

(** A caller that pushes byte chunks and goes on after an error: the collected output
    and the chunks that were accepted. *)
Fixpoint push_all_bytes p (chunks : list bytes)
  : Utf8StreamParser S * StreamTextChunk T * list bytes :=
  match chunks with
  | [] => (p, empty_text_chunk, [])
  | c :: chunks' =>
      match push_bytes p c with
      | (p1, Ok o1) =>
          let '(p2, o2, accepted) := push_all_bytes p1 chunks' in
          (p2, chunk_app o1 o2, c :: accepted)
      | (p1, Err _) => push_all_bytes p1 chunks'
      end
  end.

(** The inner parser has seen the decoding of the accepted bytes, and the bytes held
    back are its rest. *)
Definition tracked p (accepted : bytes) p' (out : StreamTextChunk T) : Prop :=
  ∃ texts n e,
    push_all_str (inner p) texts = (inner p', out)
    ∧ decode (pending_utf8 p ++ accepted) = (concat texts, n, e)
    ∧ pending_utf8 p' = drop n (pending_utf8 p ++ accepted)
    ∧ (e = AtEnd ∨ e = InsideChar).

Lemma push_bytes_tracked p chunk p' o :
  push_bytes p chunk = (p', Ok o) → tracked p chunk p' o.
Proof.
  rewrite push_bytes_eq. cbv zeta. unfold tracked.
  pose proof (decode_split (pending_utf8 p ++ chunk)) as Hs.
  destruct (decode (pending_utf8 p ++ chunk)) as [[text n] e].
  destruct Hs as (Hn & Htake & Hdrop & Hz & He).
  assert (Hpush : ∀ s out, push_str (inner p) text = (s, out) →
    push_all_str (inner p) [text] = (s, out)).
  { intros s out Hpush. cbn [push_all_str]. rewrite Hpush. unfold chunk_app; cbn.
    rewrite !app_nil_r. by destruct out. }
  destruct e as [| |l]; [| |done].
  - destruct (push_str (inner p) text) as [s out] eqn:Hs.
    intros Heq. assert (p' = mkUtf8 s (drop n (pending_utf8 p ++ chunk)) ∧ o = out) as [-> ->]
      by (destruct n; by simplify_eq).
    exists [text], n, AtEnd. cbn [concat]. rewrite app_nil_r. cbn. auto.
  - destruct n as [|n].
    + intros [= <- <-]. exists [], 0, InsideChar. cbn. rewrite (proj1 Hz eq_refl), drop_0. auto.
    + destruct (push_str (inner p) text) as [s out] eqn:Hs. intros [= <- <-].
      exists [text], (Datatypes.S n), InsideChar. cbn [concat]. rewrite app_nil_r. cbn. auto.
Qed.

Lemma push_all_str_app (s : S) a b :
  push_all_str s (a ++ b) =
  let '(s1, o1) := push_all_str s a in
  let '(s2, o2) := push_all_str s1 b in (s2, chunk_app o1 o2).
Proof.
  revert s. induction a as [|c a IH]; intros s; cbn [push_all_str app].
  { destruct (push_all_str s b) as [s2 o2]. by rewrite chunk_app_nil_l. }
  destruct (push_str s c) as [s1 o1]. rewrite IH.
  destruct (push_all_str s1 a) as [s2 o2]. destruct (push_all_str s2 b) as [s3 o3].
  by rewrite chunk_app_assoc.
Qed.

Lemma tracked_trans p1 a p2 o1 b p3 o2 :
  tracked p1 a p2 o1 → tracked p2 b p3 o2 → tracked p1 (a ++ b) p3 (chunk_app o1 o2).
Proof.
  intros (t1 & n1 & e1 & Hp1 & Hd1 & Hr1 & He1) (t2 & n2 & e2 & Hp2 & Hd2 & Hr2 & He2).
  exists (t1 ++ t2), (n1 + n2), e2. split; [by rewrite push_all_str_app, Hp1, Hp2|].
  set (buffer := pending_utf8 p1 ++ a) in *.
  pose proof (decode_split buffer) as Hs. rewrite Hd1 in Hs. destruct Hs as (Hn & Htake & _ & _ & _).
  assert (Hsplit : pending_utf8 p1 ++ a ++ b = take n1 buffer ++ pending_utf8 p2 ++ b).
  { rewrite Hr1, !app_assoc, take_drop. unfold buffer. done. }
  rewrite Hsplit, (decode_app _ _ _ _ Htake), Hd2, concat_app. split; [done|]. split; [|done].
  rewrite Hr2, <- drop_drop. f_equal.
  rewrite drop_app_ge, length_take by (rewrite length_take; lia).
  by replace (n1 - n1 `min` length buffer) with 0 by lia.
Qed.

Lemma push_all_bytes_tracked p chunks p' out accepted :
  held_back p → push_all_bytes p chunks = (p', out, accepted) →
  tracked p (concat accepted) p' out.
Proof.
  revert p p' out accepted. induction chunks as [|c chunks IH]; intros p p' out accepted Hp; cbn [push_all_bytes].
  { intros [= <- <- <-]. exists [], 0. cbn. rewrite app_nil_r, drop_0.
    destruct Hp as [Hp|Hp]; rewrite Hp; eexists; split_and!; auto. }
  destruct (push_bytes p c) as [p1 [o1|e]] eqn:Hpush.
  - destruct (push_all_bytes p1 chunks) as [[p2 o2] acc] eqn:Hall. intros [= <- <- <-].
    apply push_bytes_tracked in Hpush as Ht. cbn [concat]. eapply tracked_trans; [done|].
    eapply IH; [|done]. destruct Ht as (texts & n & e & _ & Hd & Hr & He).
    pose proof (decode_split (pending_utf8 p ++ c)) as Hs. rewrite Hd in Hs.
    destruct Hs as (_ & _ & Hdrop & _ & Hend). unfold held_back. rewrite Hr.
    destruct He as [-> | ->]; [by left|by right].
  - rewrite push_bytes_eq in Hpush. cbv zeta in Hpush.
    assert (p1 = p) as ->; [|by apply IH].
    destruct (decode (pending_utf8 p ++ c)) as [[text n] [| |l]]; [| |by simplify_eq];
      destruct n; try done; by destruct (push_str (inner p) text).
Qed.
End facts.

(** ** Encoding *)

(** A Unicode scalar value. *)
Definition is_scalar (c : char) : bool := ((c <? 0xD800) || (0xE000 <=? c) && (c <=? 0x10FFFF))%N.

(** [char::encode_utf8]. *)
Definition encode_char (c : char) : bytes :=
  if (c <? 0x80)%N then [c]
  else if (c <? 0x800)%N then [0xC0 + c / 64; 0x80 + c mod 64]%N
  else if (c <? 0x10000)%N then [0xE0 + c / 4096; 0x80 + c / 64 mod 64; 0x80 + c mod 64]%N
  else [0xF0 + c / 262144; 0x80 + c / 4096 mod 64; 0x80 + c / 64 mod 64; 0x80 + c mod 64]%N.

Definition encode (s : str) : bytes := concat (map encode_char s).

Lemma in_range_true lo hi b : in_range lo hi b = true ↔ (lo ≤ b ≤ hi)%N.
Proof. unfold in_range. rewrite andb_true_iff, !N.leb_le. lia. Qed.

Lemma in_range_false lo hi b : in_range lo hi b = false ↔ (b < lo ∨ hi < b)%N.
Proof.
  rewrite <- not_true_iff_false, in_range_true. lia.
Qed.

Ltac nlia := zify; Z.to_euclidean_division_equations; lia.

Lemma is_continuation_low c : is_continuation (0x80 + c mod 64)%N = true.
Proof. apply in_range_true. nlia. Qed.

Lemma next_char_encode2 c r :
  (0x80 ≤ c < 0x800)%N → next_char ([0xC0 + c / 64; 0x80 + c mod 64]%N ++ r) = U8Char c 2.
Proof.
  intros Hc. cbn [app next_char].
  rewrite (proj2 (N.ltb_ge _ _)) by nlia.
  rewrite (proj2 (in_range_true 0xC2 0xDF _)) by nlia.
  rewrite is_continuation_low. f_equal. nlia.
Qed.

Lemma next_char_encode3 c r :
  (0x800 ≤ c < 0x10000)%N → ¬ (0xD800 ≤ c < 0xE000)%N →
  next_char ([0xE0 + c / 4096; 0x80 + c / 64 mod 64; 0x80 + c mod 64]%N ++ r) = U8Char c 3.
Proof.
  intros Hc Hs. cbn [app next_char].
  rewrite (proj2 (N.ltb_ge _ _)) by nlia.
  rewrite (proj2 (in_range_false 0xC2 0xDF _)) by nlia.
  rewrite (proj2 (in_range_true 0xE0 0xEF _)) by nlia.
  assert (second_ok3 (0xE0 + c / 4096) (0x80 + c / 64 mod 64) = true) as ->.
  { unfold second_ok3. destruct (N.eqb_spec (0xE0 + c / 4096) 0xE0); [apply in_range_true; nlia|].
    destruct (N.eqb_spec (0xE0 + c / 4096) 0xED); [apply in_range_true; nlia|].
    apply is_continuation_low. }
  rewrite is_continuation_low. f_equal. nlia.
Qed.

Lemma next_char_encode4 c r :
  (0x10000 ≤ c ≤ 0x10FFFF)%N →
  next_char ([0xF0 + c / 262144; 0x80 + c / 4096 mod 64; 0x80 + c / 64 mod 64;
              0x80 + c mod 64]%N ++ r) = U8Char c 4.
Proof.
  intros Hc. cbn [app next_char].
  rewrite (proj2 (N.ltb_ge _ _)) by nlia.
  rewrite (proj2 (in_range_false 0xC2 0xDF _)) by nlia.
  rewrite (proj2 (in_range_false 0xE0 0xEF _)) by nlia.
  rewrite (proj2 (in_range_true 0xF0 0xF4 _)) by nlia.
  assert (second_ok4 (0xF0 + c / 262144) (0x80 + c / 4096 mod 64) = true) as ->.
  { unfold second_ok4. destruct (N.eqb_spec (0xF0 + c / 262144) 0xF0); [apply in_range_true; nlia|].
    destruct (N.eqb_spec (0xF0 + c / 262144) 0xF4); [apply in_range_true; nlia|].
    apply is_continuation_low. }
  rewrite !is_continuation_low. f_equal. nlia.
Qed.

Lemma next_char_encode c r :
  is_scalar c = true → next_char (encode_char c ++ r) = U8Char c (length (encode_char c)).
Proof.
  unfold is_scalar. rewrite orb_true_iff, andb_true_iff, N.ltb_lt, !N.leb_le. intros Hc.
  unfold encode_char. destruct (N.ltb_spec c 0x80); [cbn; by rewrite (proj2 (N.ltb_lt _ _))|].
  destruct (N.ltb_spec c 0x800); [by apply next_char_encode2|].
  destruct (N.ltb_spec c 0x10000); [apply next_char_encode3; lia|apply next_char_encode4; lia].
Qed.

Lemma decode_encode s :
  Forall (λ c, is_scalar c = true) s → decode (encode s) = (s, length (encode s), AtEnd).
Proof.
  induction 1 as [|c s Hc Hs IH]; [done|]. change (encode (c :: s)) with (encode_char c ++ encode s).
  pose proof (next_char_encode c (encode s) Hc) as Hn.
  rewrite decode_cons by (by unfold encode_char; repeat case_match).
  rewrite Hn, drop_app_length, IH, length_app. done.
Qed.

(** ** The byte parser meets its inner parser's specification *)

Section correctness.
Context {S T : Type} (fresh : S) (spec : str → StreamTextChunk T).
Context `{!StreamTextParser S T, !StreamTextSpec S T fresh spec}.

Lemma finish_bytes_eq (p : Utf8StreamParser S) :
  pending_utf8 p = [] →
  finish_bytes p = (mkUtf8 (finish_str (inner p)).1 [], Ok (finish_str (inner p)).2).
Proof.
  intros Hp. unfold finish_bytes. rewrite Hp, bool_decide_eq_true_2 by done.
  destruct (finish_str (inner p)) as [s tail]. cbn. by rewrite chunk_app_nil_l.
Qed.

(** C40: the byte parser computes its inner parser's specification on the decoded text:
    whatever chunks arrive, a chunk that is rejected leaves no trace, and at the end
    either the accepted bytes are valid UTF-8 and the output is the specification of
    their text, or they end inside a character and finishing reports just that. *)
Theorem utf8_stream_correct chunks p out accepted :
  push_all_bytes (new_utf8 fresh) chunks = (p, out, accepted) →
  match (finish_bytes p).2 with
  | Ok tail => ∃ text, from_utf8 (concat accepted) = Ok text ∧ chunk_app out tail = spec text
  | Err e => e = IncompleteUtf8AtEof
             ∧ ∃ n, from_utf8 (concat accepted) = Err (mkUtf8Error n None)
  end.
Proof.
  intros Hrun. apply push_all_bytes_tracked in Hrun; [|by left].
  destruct Hrun as (texts & n & e & Hpush & Hd & Hr & He). cbn [new_utf8 pending_utf8 inner app] in *.
  pose proof (decode_split (concat accepted)) as Hs. rewrite Hd in Hs.
  destruct Hs as (_ & _ & Hdrop & _ & Hend). destruct He as [-> | ->].
  - rewrite finish_bytes_eq by by rewrite Hr. cbn. exists (concat texts).
    split; [unfold from_utf8; by rewrite Hd|].
    rewrite <- (stream_spec (fresh := fresh) texts). unfold collect_stream. by rewrite Hpush.
  - unfold finish_bytes. rewrite bool_decide_eq_false_2 by by rewrite Hr.
    assert (Hinc : from_utf8 (pending_utf8 p) = Err (mkUtf8Error 0 None))
      by (unfold from_utf8; by rewrite Hr, Hdrop).
    rewrite Hinc. cbn. split; [done|]. exists n. unfold from_utf8. by rewrite Hd.
Qed.

(** Bytes that complete what is held back to valid UTF-8 are accepted however they are
    cut. *)
Lemma push_all_bytes_valid cs (p : Utf8StreamParser S) text :
  decode (pending_utf8 p ++ concat cs) = (text, length (pending_utf8 p ++ concat cs), AtEnd) →
  ∃ p' out, push_all_bytes p cs = (p', out, cs).
Proof.
  revert p text. induction cs as [|c cs IH]; intros p text Hd; [by do 2 eexists|]. cbn [push_all_bytes concat] in *.
  rewrite app_assoc in Hd. pose proof (decode_split (pending_utf8 p ++ c)) as Hs.
  destruct (push_bytes p c) as [p1 [o|e]] eqn:Hp.
  - destruct (push_bytes_tracked _ _ _ _ Hp) as (ts & n & e & _ & Hdc & Hr & _).
    rewrite Hdc in Hs. destruct Hs as (Hn & Htake & _).
    destruct (decode (pending_utf8 p1 ++ concat cs)) as [[t1 n1] e1] eqn:Hd1.
    assert (Hsplit : (pending_utf8 p ++ c) ++ concat cs
      = take n (pending_utf8 p ++ c) ++ pending_utf8 p1 ++ concat cs)
      by by rewrite Hr, app_assoc, take_drop.
    pose proof (decode_app _ (pending_utf8 p1 ++ concat cs) _ _ Htake) as Happ.
    rewrite Hd1, <- Hsplit, Hd in Happ. injection Happ as -> Hlen <-.
    rewrite Hsplit, length_app, length_take in Hlen.
    destruct (IH p1 t1) as (p' & out & ->); [|by do 2 eexists].
    rewrite Hd1. f_equal. f_equal. lia.
  - rewrite push_bytes_eq in Hp. cbv zeta in Hp.
    destruct (decode (pending_utf8 p ++ c)) as [[t n] [| |l]] eqn:Hdc.
    + destruct n; by destruct (push_str (inner p) t).
    + destruct n; [done|]. by destruct (push_str (inner p) t).
    + by rewrite (decode_invalid_app _ _ _ _ _ Hdc) in Hd.
Qed.

(** The UTF-8 bytes of a text, cut anywhere, are all accepted and give the inner
    parser's output on that text. *)
Theorem utf8_stream_roundtrip chunks text :
  Forall (λ c, is_scalar c = true) text → concat chunks = encode text →
  ∃ p out tail, push_all_bytes (new_utf8 fresh) chunks = (p, out, chunks)
    ∧ finish_bytes p = (mkUtf8 (finish_str (inner p)).1 [], Ok tail)
    ∧ chunk_app out tail = spec text.
Proof.
  intros Htext Hchunks.
  destruct (push_all_bytes_valid chunks (new_utf8 fresh) text) as (p & out & Hrun).
  { cbn. rewrite Hchunks. by apply decode_encode. }
  exists p, out. pose proof Hrun as Ht. apply push_all_bytes_tracked in Ht; [|by left].
  destruct Ht as (texts & n & e & Hpush & Hd & Hr & He). cbn [new_utf8 pending_utf8 inner app] in *.
  rewrite Hchunks, decode_encode in Hd by done. injection Hd as Htexts <- <-.
  rewrite Hchunks, drop_all in Hr. exists (finish_str (inner p)).2.
  split; [done|]. split; [by apply finish_bytes_eq|].
  rewrite Htexts, <- (stream_spec (fresh := fresh) texts). unfold collect_stream. by rewrite Hpush.
Qed.
End correctness.

(** ** Witnesses *)

Definition citation_output (text : str) : StreamTextChunk str :=
  citation_chunk (reference citation_specs None text).

(** An accented letter cut between its two bytes, after a rejected chunk. *)
Definition sample_bytes : list bytes := [[97; 0xC3]; [0xFF]; [0xA9; 98]]%N.

Lemma utf8_stream_correct_witness :
  let '(p, out, accepted) := push_all_bytes (new_utf8 new_citation) sample_bytes in
  match (finish_bytes p).2 with
  | Ok tail => ∃ text, from_utf8 (concat accepted) = Ok text
                       ∧ chunk_app out tail = citation_output text
  | Err e => e = IncompleteUtf8AtEof
             ∧ ∃ n, from_utf8 (concat accepted) = Err (mkUtf8Error n None)
  end.
Proof.
  destruct (push_all_bytes (new_utf8 new_citation) sample_bytes) as [[p out] accepted] eqn:Hrun.
  exact (utf8_stream_correct new_citation citation_output sample_bytes p out accepted Hrun).
Defined.

Lemma utf8_stream_roundtrip_witness :
  ∃ p out tail, push_all_bytes (new_utf8 new_citation) [[97; 0xC3]; [0xA9; 98]]%N
                = (p, out, [[97; 0xC3]; [0xA9; 98]]%N)
    ∧ finish_bytes p = (mkUtf8 (finish_str (inner p)).1 [], Ok tail)
    ∧ chunk_app out tail = citation_output [97; 0xE9; 98]%N.
Proof.
  apply (utf8_stream_roundtrip new_citation citation_output _ [97; 0xE9; 98]%N);
    [repeat constructor|vm_compute; reflexivity].
Defined.
