(* ===== verification/HistoryProjection.v ===== *)
(** * Projecting a rollout file: [cli-protocol/src/protocol/thread_history_projection.rs]
    and [thread-store/src/local/thread_history_materialization.rs]

    A paginated thread appends one JSON record per line to its rollout file.  The
    suffix that has not been projected yet is read, its complete lines are turned into
    steps, and a line that cannot be read is left pending until a later record shows
    whether it consumed an ordinal.  Offsets and ordinals are [u64].  The last part reads
    the session metadata of a file. *)

From Stdlib Require Import String ZArith NArith.
From stdpp Require Import base option list numbers gmap.
From S2P Require Import Prelude StrBytes Models ThreadItems ItemBuilders ThreadHistory.
From S2P Require Import Utf8Stream.

Local Open Scope Z_scope.

(** ** Errors: [thread-store/src/error.rs] *)
Inductive ThreadStoreError : Type :=
| ThreadNotFound (thread_id : ThreadId)
| InvalidRequest (message : str)
| Conflict (message : str)
| Unsupported (operation : str)
| Internal (message : str).

(** [u64] additions that are checked. *)
Definition U64_MAX : Z := 2 ^ 64 - 1.
Definition u64_checked_add (a b : Z) : option Z :=
  if (a + b <=? U64_MAX) then Some (a + b) else None.

Module RolloutLine.
Record t `{WireTypes, HistoryEnv} : Type := mk {
  timestamp : str;
  ordinal : option Z;
  item : RolloutItem.t;
}.
End RolloutLine.

(** [serde_json], as far as a line is concerned, and [chrono]: a line as a value, the
    fields [ordinal], [type] and [payload.history_mode] of a value, and a value or a
    text as a [RolloutLine]. *)
Class RolloutJson `{WireTypes, HistoryEnv} := {
  JsonRecord : Type;
  json_from_slice : list N → option JsonRecord;
  record_ordinal : JsonRecord → option Z;
  record_line : JsonRecord → option RolloutLine.t;
  record_type : JsonRecord → option str;
  record_history_mode : JsonRecord → option JsonRecord;
  history_mode_from_value : JsonRecord → result str ThreadHistoryMode.t;
  value_from_str : str → option JsonRecord;
  line_from_str : str → option RolloutLine.t;
  timestamp_millis : str → option Z;
}.

(** ** The projection of one record *)
Section project.
Context `{WireTypes, HistoryEnv}.

Definition project_rollout_line (line : RolloutLine.t) : ChangeSet.t :=
  match RolloutLine.item line with
  | RolloutItem.EventMsg (EventMsg.TurnStarted event) =>
      ChangeSet.mk _ []
        [TurnChange.mk (TurnStartedEvent.turn_id event) TurnStatus.InProgress None
           (TurnStartedEvent.started_at event) None None] []
  | RolloutItem.EventMsg (EventMsg.TurnComplete event) =>
      ChangeSet.mk _ []
        [TurnChange.mk (TurnCompleteEvent.turn_id event)
           (match TurnCompleteEvent.error event with
            | Some _ => TurnStatus.Failed
            | None => TurnStatus.Completed
            end)
           (turn_error <$> TurnCompleteEvent.error event) (TurnCompleteEvent.started_at event)
           (TurnCompleteEvent.completed_at event) (TurnCompleteEvent.duration_ms event)] []
  | RolloutItem.EventMsg (EventMsg.TurnAborted event) =>
      match TurnAbortedEvent.turn_id event with
      | None => ChangeSet.empty
      | Some turn_id =>
          ChangeSet.mk _ []
            [TurnChange.mk turn_id TurnStatus.Interrupted None
               (TurnAbortedEvent.started_at event) (TurnAbortedEvent.completed_at event)
               (TurnAbortedEvent.duration_ms event)] []
      end
  | RolloutItem.EventMsg (EventMsg.ItemCompleted event) =>
      ChangeSet.mk _
        [ItemChange.mk _ (ItemCompletedEvent.turn_id event)
           (thread_item_from (ItemCompletedEvent.item event))
           (ItemCompletedEvent.started_at_ms event)
           (if ItemCompletedEvent.completed_at_ms event =? 0 then None
            else Some (ItemCompletedEvent.completed_at_ms event))] [] []
  | _ => ChangeSet.empty
  end.
End project.

(** ** Steps *)
Module ProjectedRolloutLine.
Record t `{WireTypes} : Type := mk {
  ordinal : Z;
  start_byte_offset : Z;
  end_byte_offset : Z;
  fallback_created_at_ms : option Z;
  changes : ChangeSet.t;
}.
End ProjectedRolloutLine.

Inductive RolloutProjectionStep `{WireTypes} : Type :=
| Line (line : ProjectedRolloutLine.t)
| SkippedOrdinalRange (start_ordinal end_ordinal_exclusive : Z).

(** ** Lines *)

(** [split_inclusive(|byte| *byte == b'\n')]. *)
Fixpoint split_inclusive (bytes : list N) : list (list N) :=
  match bytes with
  | [] => []
  | c :: rest =>
      if (c =? LF)%N then [c] :: split_inclusive rest
      else match split_inclusive rest with
           | [] => [[c]]
           | w :: ws => (c :: w) :: ws
           end
  end.

(** [rposition(|byte| *byte == b'\n').map_or(0, |index| index + 1)]. *)
Fixpoint complete_byte_count (bytes : list N) : nat :=
  match bytes with
  | [] => 0
  | c :: rest =>
      match complete_byte_count rest with
      | O => if (c =? LF)%N then 1 else 0
      | n => S n
      end
  end.

(** [u8::is_ascii_whitespace]. *)
Definition is_ascii_whitespace (c : N) : bool :=
  ((c =? 32) || (c =? 9) || (c =? 10) || (c =? 12) || (c =? 13))%N.

(** ** The loop over the lines *)
Record ReadState `{WireTypes} : Type := mkReadState {
  projections : list RolloutProjectionStep;
  next_ordinal : Z;
  next_offset : Z;
  pending_rejected_line_count : Z;
  line_start_offset : Z;
}.

Section read.
Context `{RolloutJson}.
Variable thread_id : ThreadId.
Variable subagent_history_start_ordinal : option Z.
Implicit Types st : ReadState.

Definition overflow_error : ThreadStoreError :=
  Internal (lit "durable rollout byte offset overflow").

Definition ordinal_overflow_error : ThreadStoreError :=
  Internal (lit "rollout ordinal exceeds SQLite integer range").

Definition missing_ordinal_error : ThreadStoreError :=
  Internal (lit "paginated rollout line for " ++ thread_id_to_string thread_id
            ++ lit " is missing an ordinal").

Definition unexpected_ordinal (next_ordinal ordinal : Z) : str :=
  lit "thread history projection for " ++ thread_id_to_string thread_id
  ++ lit " expected ordinal " ++ decimal (Z.to_N next_ordinal) ++ lit ", got "
  ++ decimal (Z.to_N ordinal).

Definition gap_error st (ordinal : Z) : ThreadStoreError :=
  Internal (unexpected_ordinal (next_ordinal st) ordinal ++ lit "; "
            ++ decimal (Z.to_N (pending_rejected_line_count st))
            ++ lit " rejected rollout lines cannot cover that gap").

(** A line that waits for a later ordinal. *)
Definition defer_line st (line_end_offset : Z) : ReadState :=
  mkReadState _ (projections st) (next_ordinal st) (next_offset st)
    (pending_rejected_line_count st + 1) line_end_offset.

(** A blank line advances the offset unless rejected lines are pending. *)
Definition skip_blank st (line_end_offset : Z) : ReadState :=
  mkReadState _ (projections st) (next_ordinal st)
    (if pending_rejected_line_count st =? 0 then line_end_offset else next_offset st)
    (pending_rejected_line_count st) line_end_offset.

Definition line_changes (ordinal : Z) (line : RolloutLine.t) : ChangeSet.t :=
  match subagent_history_start_ordinal with
  | Some start => if ordinal <? start then ChangeSet.empty else project_rollout_line line
  | None => project_rollout_line line
  end.

(** Whether the timestamp of the line is needed: an item without a start. *)
Definition needs_timestamp (changes : ChangeSet.t) : bool :=
  existsb (λ item, match ItemChange.started_at_ms item with None => true | Some _ => false end)
    (ChangeSet.changed_items changes).

(** A line with an ordinal that can be projected. *)
Definition accept_line st (line_end_offset ordinal : Z) (line : RolloutLine.t)
    : result ThreadStoreError ReadState :=
  let skipped_ordinal_count := ordinal - next_ordinal st in
  if pending_rejected_line_count st <? skipped_ordinal_count then Err (gap_error st ordinal)
  else
    let changes := line_changes ordinal line in
    let push fallback_created_at_ms :=
      match u64_checked_add ordinal 1 with
      | None => Err ordinal_overflow_error
      | Some next_line_ordinal =>
          Ok (mkReadState _
            (projections st
             ++ (if 0 <? skipped_ordinal_count
                 then [SkippedOrdinalRange (next_ordinal st) ordinal] else [])
             ++ [Line (ProjectedRolloutLine.mk _ ordinal (line_start_offset st) line_end_offset
                         fallback_created_at_ms changes)])
            next_line_ordinal line_end_offset 0 line_end_offset)
      end in
    if needs_timestamp changes then
      match timestamp_millis (RolloutLine.timestamp line) with
      | Some millis => push (Some millis)
      | None => Ok (defer_line st line_end_offset)
      end
    else push None.

(** One round of the loop. *)
Definition read_line st (line_bytes : list N) : result ThreadStoreError ReadState :=
  match u64_checked_add (line_start_offset st) (Z.of_nat (length line_bytes)) with
  | None => Err overflow_error
  | Some line_end_offset =>
      if forallb is_ascii_whitespace line_bytes then Ok (skip_blank st line_end_offset)
      else
        match json_from_slice line_bytes with
        | None => Ok (defer_line st line_end_offset)
        | Some value =>
            let line := record_line value in
            let line_ordinal :=
              match line ≫= RolloutLine.ordinal with
              | Some ordinal => Some ordinal
              | None => record_ordinal value
              end in
            match line_ordinal, line with
            | None, None => Ok (defer_line st line_end_offset)
            | None, Some _ => Err missing_ordinal_error
            | Some ordinal, _ =>
                if ordinal <? next_ordinal st
                then Err (Internal (unexpected_ordinal (next_ordinal st) ordinal))
                else
                  match line with
                  | None => Ok (defer_line st line_end_offset)
                  | Some line => accept_line st line_end_offset ordinal line
                  end
            end
        end
  end.

Fixpoint read_lines st (ls : list (list N)) : result ThreadStoreError ReadState :=
  match ls with
  | [] => Ok st
  | l :: ls' => let? st := read_line st l in read_lines st ls'
  end.

(** [file] is what the rollout file holds. *)
Definition read_projection_steps (file : list N) (start_offset expected_ordinal : Z)
    : result ThreadStoreError (list RolloutProjectionStep * Z) :=
  if Z.of_nat (length file) <? start_offset
  then Err (Internal (lit "durable rollout shrank before projection"))
  else
    let bytes := drop (Z.to_nat start_offset) file in
    let? st :=
      read_lines (mkReadState _ [] expected_ordinal start_offset 0 start_offset)
        (split_inclusive (take (complete_byte_count bytes) bytes)) in
    Ok (projections st, next_offset st).
End read.

(** ** The metadata of a rollout file

    [read_session_meta_line] of [rollout/src/list.rs]: the file is read line by line until
    a record holds the session metadata.  Metadata read from complete lines is the metadata
    of every file that extends them. *)

(** [tokio::io::Lines] drops the line feed that ends a line, and a carriage return
    before it. *)
Definition strip_line_end (line : list N) : list N :=
  match rev line with
  | c :: r =>
      if (c =? LF)%N then
        match r with
        | c' :: r' => if (c' =? CR)%N then rev r' else rev r
        | [] => []
        end
      else line
  | [] => []
  end.

Section meta.
Context `{RolloutJson}.
Variable path : str.

Definition reject_unknown_thread_history_mode (value : JsonRecord) : result str unit :=
  if negb (bool_decide (record_type value = Some (lit "session_meta"))) then Ok tt
  else
    match record_history_mode value with
    | None => Ok tt
    | Some history_mode =>
        match history_mode_from_value history_mode with
        | Ok _ => Ok tt
        | Err err => Err (lit "invalid session metadata history_mode: " ++ err)
        end
    end.

(** The loop over [next_line]. *)
Fixpoint read_meta_lines (lines : list (list N)) : result str SessionMeta.t :=
  match lines with
  | [] => Err (lit "rollout at " ++ path ++ lit " is empty")
  | bytes :: lines' =>
      match from_utf8 (strip_line_end bytes) with
      | Err _ => Err (lit "stream did not contain valid UTF-8")
      | Ok line =>
          let trimmed := trim line in
          match trimmed with
          | [] => read_meta_lines lines'
          | _ =>
              match line_from_str trimmed with
              | None =>
                  match value_from_str trimmed with
                  | Some value =>
                      let? _ := reject_unknown_thread_history_mode value in
                      read_meta_lines lines'
                  | None => read_meta_lines lines'
                  end
              | Some rollout_line =>
                  match RolloutLine.item rollout_line with
                  | RolloutItem.SessionMeta session_meta_line => Ok session_meta_line
                  | RolloutItem.ResponseItem _ | RolloutItem.InterAgentCommunication _ =>
                      Err (lit "rollout at " ++ path
                           ++ lit " does not start with session metadata")
                  | RolloutItem.InterAgentCommunicationMetadata _ | RolloutItem.Compacted _
                  | RolloutItem.TurnContext _ | RolloutItem.WorldState _
                  | RolloutItem.EventMsg _ => read_meta_lines lines'
                  end
              end
          end
      end
  end.

Definition read_session_meta_line (file : list N) : result str SessionMeta.t :=
  read_meta_lines (split_inclusive file).

(** ** Extending a file *)
Lemma read_meta_lines_app ls ls' m :
  read_meta_lines ls = Ok m → read_meta_lines (ls ++ ls') = Ok m.
Proof.
  induction ls as [|l ls IH]; [done|]. cbn [read_meta_lines app].
  destruct (from_utf8 _) as [line|]; [|done]. destruct (trim line) as [|c t]; [exact IH|].
  destruct (line_from_str _) as [r|].
  - destruct (RolloutLine.item r); auto.
  - destruct (value_from_str _) as [v|]; [|exact IH].
    by destruct (reject_unknown_thread_history_mode v).
Qed.
End meta.
