(* ===== verification/HistoryProjectionFacts.v ===== *)
(** * Facts on reading a rollout file

    The complete lines of a file, how they grow when the file does, and the loop of
    [read_projection_steps]: the lines it has put off are exactly the ones it reads
    again when it starts from its result. *)

From Stdlib Require Import String ZArith NArith Lia.
From stdpp Require Import base option list numbers gmap.
From S2P Require Import Prelude StrBytes Models ThreadItems ItemBuilders ThreadHistory.
From S2P Require Import HistoryProjection.

Local Open Scope Z_scope.

(** ** Complete lines *)
Definition complete_lines (bytes : list N) : list (list N) :=
  split_inclusive (take (complete_byte_count bytes) bytes).

Definition is_line (l : list N) : Prop := ∃ w, l = w ++ [LF] ∧ Forall (λ c, c ≠ LF) w.

(** The steps lead from one ordinal to another. *)
Fixpoint steps_end `{WireTypes} (n : Z) (steps : list RolloutProjectionStep) : Z :=
  match steps with
  | [] => n
  | Line line :: steps' => steps_end (ProjectedRolloutLine.ordinal line + 1) steps'
  | SkippedOrdinalRange _ e :: steps' => steps_end e steps'
  end.

(** The state in which the loop starts again after [st], and [st] without its steps. *)
Definition resume `{WireTypes} (st : ReadState) : ReadState :=
  mkReadState _ [] (next_ordinal st) (next_offset st) 0 (next_offset st).
Definition with_steps `{WireTypes} (steps : list RolloutProjectionStep) (st : ReadState)
    : ReadState :=
  mkReadState _ steps (next_ordinal st) (next_offset st) (pending_rejected_line_count st)
    (line_start_offset st).

(** The bytes of some lines. *)
Definition line_bytes (ls : list (list N)) : Z := Z.of_nat (length (mjoin ls)).

Lemma split_at_lf bs :
  Forall (λ c, c ≠ LF) bs ∨ ∃ w rest, bs = w ++ LF :: rest ∧ Forall (λ c, c ≠ LF) w.
Proof.
  induction bs as [|c bs [IH|(w & rest & -> & IH)]]; [by left| |].
  - destruct (decide (c = LF)) as [->|]; [right; by exists [], bs|left; by constructor].
  - right. destruct (decide (c = LF)) as [->|]; [by exists [], (w ++ LF :: rest)|].
    exists (c :: w), rest. by split; [|constructor].
Qed.

Lemma count_no_lf w : Forall (λ c, c ≠ LF) w → complete_byte_count w = 0%nat.
Proof.
  induction 1 as [|c w Hc Hw IH]; [done|]. cbn [complete_byte_count]. rewrite IH.
  by destruct (N.eqb_spec c LF).
Qed.

Lemma count_line w rest :
  complete_byte_count (w ++ LF :: rest) = (length w + 1 + complete_byte_count rest)%nat.
Proof.
  induction w as [|c w IH]; cbn [complete_byte_count app length].
  - rewrite N.eqb_refl. by destruct (complete_byte_count rest).
  - rewrite IH. replace (length w + 1 + complete_byte_count rest)%nat
      with (S (length w + complete_byte_count rest)) by lia. lia.
Qed.

Lemma split_line w rest :
  Forall (λ c, c ≠ LF) w → split_inclusive (w ++ LF :: rest) = (w ++ [LF]) :: split_inclusive rest.
Proof.
  induction 1 as [|c w Hc Hw IH]; cbn [split_inclusive app]; [by rewrite N.eqb_refl|].
  rewrite IH. by destruct (N.eqb_spec c LF).
Qed.

Lemma complete_lines_line w rest :
  Forall (λ c, c ≠ LF) w →
  complete_lines (w ++ LF :: rest) = (w ++ [LF]) :: complete_lines rest.
Proof.
  intros Hw. unfold complete_lines. rewrite count_line.
  replace (take _ (w ++ LF :: rest)) with (w ++ LF :: take (complete_byte_count rest) rest);
    [by apply split_line|].
  rewrite take_app_ge by lia. f_equal.
  by replace (length w + 1 + complete_byte_count rest - length w)%nat
    with (S (complete_byte_count rest)) by lia.
Qed.

Lemma complete_lines_concat ls b :
  Forall is_line ls → complete_lines (mjoin ls ++ b) = ls ++ complete_lines b.
Proof.
  induction 1 as [|l ls (w & -> & Hw) Hls IH]; [done|].
  cbn [mjoin list_join]. rewrite <- !(assoc_L (++)). cbn [app].
  rewrite (complete_lines_line _ _ Hw). cbn. f_equal. exact IH.
Qed.

Lemma complete_lines_split bs :
  ∃ rest, bs = mjoin (complete_lines bs) ++ rest ∧ Forall is_line (complete_lines bs).
Proof.
  remember (length bs) as n eqn:Hn. assert (length bs ≤ n)%nat as Hle by lia. clear Hn.
  revert bs Hle. induction n as [|n IH]; intros bs Hle.
  { destruct bs; [by exists []|cbn in Hle; lia]. }
  destruct (split_at_lf bs) as [Hbs|(w & rest & -> & Hw)].
  - exists bs. unfold complete_lines. rewrite (count_no_lf _ Hbs). by split; [|constructor].
  - destruct (IH rest) as (rest' & Heq & Hls); [rewrite length_app in Hle; cbn in Hle; lia|].
    exists rest'. rewrite (complete_lines_line _ _ Hw). split.
    + cbn [mjoin list_join]. rewrite <- !(assoc_L (++)). cbn [app]. do 2 f_equal. exact Heq.
    + constructor; [by exists w|exact Hls].
Qed.

Lemma split_inclusive_concat ls b :
  Forall is_line ls → split_inclusive (mjoin ls ++ b) = ls ++ split_inclusive b.
Proof.
  induction 1 as [|l ls (w & -> & Hw) Hls IH]; [done|].
  cbn [mjoin list_join]. rewrite <- !(assoc_L (++)). cbn [app].
  rewrite (split_line _ _ Hw). cbn. f_equal. exact IH.
Qed.

(** The complete lines of a file that has grown, from its old start and from a later
    line. *)
Lemma grown_lines f1 off l1 l2 :
  0 ≤ off → off ≤ Z.of_nat (length f1) → complete_lines (drop (Z.to_nat off) f1) = l1 ++ l2 →
  off + line_bytes l1 ≤ Z.of_nat (length f1) ∧
  ∃ tail : list N, ∀ f2,
    complete_lines (drop (Z.to_nat off) (f1 ++ f2)) = l1 ++ l2 ++ complete_lines (tail ++ f2)
    ∧ complete_lines (drop (Z.to_nat (off + line_bytes l1)) (f1 ++ f2))
      = l2 ++ complete_lines (tail ++ f2).
Proof.
  intros Hoff Hlen Hl. destruct (complete_lines_split (drop (Z.to_nat off) f1)) as (tail & Hb & Hls).
  rewrite Hl in Hb, Hls. apply Forall_app in Hls as [Hl1 Hl2].
  assert (Hlen1 : off + line_bytes l1 ≤ Z.of_nat (length f1)).
  { pose proof (f_equal length Hb) as Hn. rewrite join_app, !length_app, length_drop in Hn.
    unfold line_bytes. lia. }
  split; [done|]. exists tail. intros f2. assert (0 ≤ line_bytes l1) by (unfold line_bytes; lia).
  rewrite !drop_app_le by lia.
  replace (Z.to_nat (off + line_bytes l1)) with (Z.to_nat off + length (mjoin l1))%nat
    by (unfold line_bytes; lia).
  rewrite <- drop_drop, Hb, join_app, <- !(assoc_L (++)), drop_app_length.
  rewrite <- (assoc_L (++)). by rewrite !complete_lines_concat.
Qed.

Lemma line_bytes_app l1 l2 : line_bytes (l1 ++ l2) = line_bytes l1 + line_bytes l2.
Proof. unfold line_bytes. rewrite join_app, length_app. lia. Qed.

Lemma steps_end_app `{WireTypes} n s1 s2 :
  steps_end n (s1 ++ s2) = steps_end (steps_end n s1) s2.
Proof. revert n. induction s1 as [|[]]; intros n; cbn; auto. Qed.

Section read_facts.
Context `{RolloutJson}.
Variable thread_id : ThreadId.
Variable subagent_start : option Z.
Implicit Types st : ReadState.

#[local] Abbreviation rd := (read_line thread_id subagent_start).
#[local] Abbreviation rds := (read_lines thread_id subagent_start).

Lemma read_projection_steps_lines file off ord :
  read_projection_steps thread_id subagent_start file off ord
  = if Z.of_nat (length file) <? off
    then Err (Internal (lit "durable rollout shrank before projection"))
    else let? st := rds (mkReadState _ [] ord off 0 off)
                      (complete_lines (drop (Z.to_nat off) file)) in
         Ok (projections st, next_offset st).
Proof. done. Qed.

Lemma read_lines_app st ls ls' :
  rds st (ls ++ ls') = let? st' := rds st ls in rds st' ls'.
Proof.
  revert st. induction ls as [|l ls IH]; intros st; [done|]. cbn [read_lines app].
  destruct (rd st l); [apply IH|done].
Qed.

(** Steps read earlier are only carried along. *)
Lemma read_line_steps st l :
  rd st l = let? st' := rd (with_steps [] st) l in
            Ok (with_steps (projections st ++ projections st') st').
Proof.
  destruct st as [steps ord off pend start].
  unfold read_line, with_steps; cbn [line_start_offset next_ordinal].
  destruct (u64_checked_add start _) as [e|]; [|done].
  destruct (forallb _ _); [by cbn; rewrite app_nil_r|].
  destruct (json_from_slice l) as [v|]; [|by cbn; rewrite app_nil_r].
  set (lo := match record_line v ≫= _ with Some _ => _ | None => _ end).
  destruct lo as [o|]; destruct (record_line v) as [line|]; try done;
    try (by cbn; rewrite app_nil_r).
  - destruct (o <? ord); [done|]. unfold accept_line, gap_error, defer_line;
      cbn [pending_rejected_line_count next_ordinal].
    destruct (pend <? _); [done|].
    destruct (needs_timestamp _); [destruct (timestamp_millis _)|];
      try (by cbn; rewrite app_nil_r); by destruct (u64_checked_add o 1).
  - destruct (o <? ord); [done|]. by cbn; rewrite app_nil_r.
Qed.

Lemma read_lines_steps st ls :
  rds st ls = let? st' := rds (with_steps [] st) ls in
              Ok (with_steps (projections st ++ projections st') st').
Proof.
  revert st. induction ls as [|l ls IH]; intros st.
  { destruct st. cbn. by rewrite app_nil_r. }
  cbn [read_lines]. rewrite read_line_steps.
  destruct (rd (with_steps [] st) l) as [st'|]; [|done].
  cbn [rbind]. rewrite IH, (IH st').
  change (with_steps [] (with_steps _ st')) with (with_steps [] st').
  destruct (rds (with_steps [] st') ls) as [st2|]; [|done]. cbn. by rewrite (assoc_L (++)).
Qed.

(** A line moves both checkpoints to its end, or it is put off. *)
Definition settles st st' : Prop :=
  pending_rejected_line_count st' = 0 ∧ next_offset st' = line_start_offset st'.
Definition puts_off st st' : Prop :=
  projections st' = projections st ∧ next_ordinal st' = next_ordinal st
  ∧ next_offset st' = next_offset st.

Lemma defer_puts_off st e : puts_off st (defer_line st e).
Proof. done. Qed.

Lemma accept_line_cases st e o line st' :
  next_ordinal st ≤ o → accept_line thread_id subagent_start st e o line = Ok st' →
  line_start_offset st' = e ∧ (settles st st' ∨ puts_off st st') ∧
  ∃ steps, projections st' = projections st ++ steps
    ∧ next_ordinal st' = steps_end (next_ordinal st) steps ∧ next_ordinal st ≤ next_ordinal st'.
Proof.
  intros Hle. unfold accept_line, u64_checked_add. destruct (_ <? _); [done|].
  destruct (needs_timestamp _); [destruct (timestamp_millis _)|]; try destruct (_ <=? _);
    intros [= <-]; cbn [line_start_offset projections next_ordinal defer_line];
    (split; [done|split; [by (left + right)|]]);
    first [by (exists []; rewrite app_nil_r)
          |eexists; split; [reflexivity|]; rewrite steps_end_app; split; [done|lia]].
Qed.

Lemma read_line_cases st l st' :
  rd st l = Ok st' →
  line_start_offset st' = line_start_offset st + Z.of_nat (length l)
  ∧ (settles st st' ∨ puts_off st st') ∧
  ∃ steps, projections st' = projections st ++ steps
    ∧ next_ordinal st' = steps_end (next_ordinal st) steps ∧ next_ordinal st ≤ next_ordinal st'.
Proof.
  assert (Hsame : ∀ st2, projections st2 = projections st → next_ordinal st2 = next_ordinal st →
    ∃ steps, projections st2 = projections st ++ steps
      ∧ next_ordinal st2 = steps_end (next_ordinal st) steps
      ∧ next_ordinal st ≤ next_ordinal st2).
  { intros st2 -> ->. exists []. rewrite app_nil_r. split_and!; [done..|]. lia. }
  unfold read_line, u64_checked_add. destruct (_ + _ <=? _); [|done].
  destruct (forallb _ _).
  { intros [= <-]. cbn [line_start_offset skip_blank]. split_and!; [done| |by apply Hsame].
    unfold settles, puts_off, skip_blank; cbn. destruct (Z.eqb_spec (pending_rejected_line_count st) 0);
      [by left|by right]. }
  destruct (json_from_slice l) as [v|];
    [|by intros [= <-]; split_and!; [done|right; apply defer_puts_off|apply Hsame]].
  set (lo := match record_line v ≫= _ with Some _ => _ | None => _ end).
  destruct lo as [o|]; destruct (record_line v) as [line|];
    try (by intros [= <-]; split_and!; [done|right; apply defer_puts_off|apply Hsame]); [|..];
    try done; destruct (Z.ltb_spec o (next_ordinal st)); try done.
  - by apply accept_line_cases.
  - by intros [= <-]; split_and!; [done|right; apply defer_puts_off|apply Hsame].
Qed.

(** What was put off is read again from the two checkpoints, with the same outcome. *)
Lemma reread st0 ls st :
  pending_rejected_line_count st0 = 0 → next_offset st0 = line_start_offset st0 →
  rds st0 ls = Ok st →
  line_start_offset st = line_start_offset st0 + line_bytes ls ∧
  ∃ l1 l2, ls = l1 ++ l2 ∧ next_offset st = next_offset st0 + line_bytes l1
    ∧ rds (resume st) l2 = Ok (with_steps [] st).
Proof.
  intros Hpend Hoff. revert st. induction ls as [|l ls IH] using rev_ind; intros st.
  { intros [= <-]. split; [unfold line_bytes; cbn; lia|]. exists [], []. split; [done|].
    split; [unfold line_bytes; cbn; lia|]. unfold resume, with_steps. cbn.
    by rewrite Hpend, Hoff. }
  rewrite read_lines_app. destruct (rds st0 ls) as [st1|] eqn:E1; [|done].
  destruct (IH st1 eq_refl) as [Hstart (l1 & l2 & -> & Hoff1 & Hre)]. cbn [read_lines rbind].
  destruct (rd st1 l) as [st'|] eqn:El; cbn [rbind]; [|done]. intros [= <-].
  destruct (read_line_cases _ _ _ El) as (Hs & Hcase & _).
  assert (Hs' : line_start_offset st' = line_start_offset st0 + line_bytes ((l1 ++ l2) ++ [l])).
  { rewrite line_bytes_app, Hs, Hstart. unfold line_bytes at 3. cbn. rewrite app_nil_r. lia. }
  split; [exact Hs'|]. destruct Hcase as [[Hp Ho]|(Hpr & Hord & Hno)].
  - exists ((l1 ++ l2) ++ [l]), []. rewrite app_nil_r. split; [done|].
    split; [congruence|]. unfold resume, with_steps. cbn. by rewrite Hp, Ho.
  - exists l1, (l2 ++ [l]). split; [by rewrite (assoc_L (++))|]. split; [congruence|].
    replace (resume st') with (resume st1) by (unfold resume; by rewrite Hord, Hno).
    rewrite read_lines_app, Hre. cbn [read_lines rbind]. rewrite read_line_steps in El.
    destruct (rd (with_steps [] st1) l) as [st2|]; cbn [rbind] in *; [|done].
    injection El as <-. cbn [with_steps projections] in *.
    assert (projections st2 = []) as Hnil.
    { eapply (app_inv_head (projections st1)). by rewrite app_nil_r. }
    destruct st2; cbn in *. by subst.
Qed.

Lemma read_lines_ordinals st ls st' :
  rds st ls = Ok st' →
  ∃ steps, projections st' = projections st ++ steps
    ∧ next_ordinal st' = steps_end (next_ordinal st) steps ∧ next_ordinal st ≤ next_ordinal st'.
Proof.
  revert st. induction ls as [|l ls IH]; intros st.
  { intros [= <-]. exists []. rewrite app_nil_r. split_and!; [done..|]. lia. }
  cbn [read_lines]. destruct (rd st l) as [st1|] eqn:El; [|done]. intros Hls.
  destruct (read_line_cases _ _ _ El) as (_ & _ & s1 & Hp1 & Ho1 & Hle1).
  destruct (IH _ Hls) as (s2 & Hp2 & Ho2 & Hle2). exists (s1 ++ s2).
  rewrite steps_end_app, <- Ho1, Hp2, Hp1, (assoc_L (++)). split_and!; [done..|]. lia.
Qed.

(** Reading a file that has grown: the steps read earlier, and the ones read from the
    checkpoints they lead to. *)
Lemma read_grown f1 off ord steps1 off1 :
  0 ≤ off → read_projection_steps thread_id subagent_start f1 off ord = Ok (steps1, off1) →
  off ≤ off1 ∧ ord ≤ steps_end ord steps1 ∧
  ∀ f2, read_projection_steps thread_id subagent_start (f1 ++ f2) off ord
    = let? s := read_projection_steps thread_id subagent_start (f1 ++ f2) off1
                  (steps_end ord steps1) in
      Ok (steps1 ++ s.1, s.2).
Proof.
  intros Hoff. rewrite read_projection_steps_lines.
  destruct (Z.ltb_spec (Z.of_nat (length f1)) off) as [|Hlen]; [done|].
  set (st0 := mkReadState _ [] ord off 0 off).
  destruct (rds st0 _) as [st|] eqn:Hrd; cbn [rbind]; [|done]. intros [= <- <-].
  destruct (reread st0 _ _ eq_refl eq_refl Hrd) as (_ & l1 & l2 & Hl & Ho & Hre).
  destruct (read_lines_ordinals _ _ _ Hrd) as (steps & Hp & Hord & Hle).
  cbn [st0 projections next_ordinal next_offset app] in Hp, Hord, Hle, Ho. subst steps.
  destruct (grown_lines f1 off l1 l2 Hoff Hlen Hl) as (Hlen1 & tail & Hgrown).
  split; [unfold line_bytes in *; lia|]. split; [lia|]. intros f2.
  destruct (Hgrown f2) as [Hd0 Hd1]. rewrite !read_projection_steps_lines.
  rewrite length_app, !(proj2 (Z.ltb_ge _ _)) by lia.
  rewrite <- Ho in Hd1. rewrite Hd0, Hd1, <- Hord. fold st0. fold (resume st).
  rewrite Hl in Hrd. rewrite (assoc_L (++) l1), !read_lines_app, <- read_lines_app, Hrd, Hre.
  cbn [rbind].
  rewrite (read_lines_steps st). by destruct (rds (with_steps [] st) _).
Qed.
End read_facts.
