(* ===== verification/HistoryStore.v ===== *)
(** * The history tables: [thread-store/src/local/thread_history.rs]

    The SQLite tables of [state/thread_history_migrations] as maps from their primary
    keys, the statements that write them as functions, and a transaction as a function
    whose error leaves the tables as they were.  A column that holds JSON holds the
    value it encodes, and [json_extract] is the corresponding field.  The unique index
    of a table on [(thread_id, rollout_ordinal)] makes an insert of a second row with
    an ordinal fail. *)

From Stdlib Require Import String ZArith NArith.
From stdpp Require Import base option list numbers gmap.
From S2P Require Import Prelude StrBytes Models ThreadItems ItemBuilders ThreadHistory.
From S2P Require Import HistoryProjection.

Local Open Scope Z_scope.

(** ** Tables *)
Module TurnRow.
Record t : Type := mk {
  rollout_ordinal : Z;
  rollout_byte_offset : option Z;
  rollout_end_ordinal : option Z;
  rollout_end_byte_offset : option Z;
  status : str;
  error_json : option TurnError.t;
  started_at : option Z;
  completed_at : option Z;
  duration_ms : option Z;
  first_user_item_id : option str;
  final_agent_item_id : option str;
}.

(** [SET first_user_item_id = ..., final_agent_item_id = ...]. *)
Definition set_summary (r : t) (first_user final_agent : option str) : t :=
  mk (rollout_ordinal r) (rollout_byte_offset r) (rollout_end_ordinal r)
    (rollout_end_byte_offset r) (status r) (error_json r) (started_at r) (completed_at r)
    (duration_ms r) first_user final_agent.
End TurnRow.

Module ItemRow.
Record t `{WireTypes} : Type := mk {
  rollout_ordinal : Z;
  updated_at_ordinal : Z;
  created_at_ms : Z;
  item_json : ThreadItem.t;
}.
End ItemRow.

(** The key of an item row is its thread, its turn and its id. *)
Record HistoryDb `{WireTypes} : Type := mkDb {
  thread_turns : gmap (str * str) TurnRow.t;
  thread_items : gmap (str * str * str) ItemRow.t;
  projection_states : gmap str (Z * Z);
}.

Definition empty_db `{WireTypes} : HistoryDb := mkDb _ ∅ ∅ ∅.

Definition turn_status (status : TurnStatus.t) : str :=
  match status with
  | TurnStatus.Completed => lit "completed"
  | TurnStatus.Interrupted => lit "interrupted"
  | TurnStatus.Failed => lit "failed"
  | TurnStatus.InProgress => lit "inProgress"
  end.

Section store.
Context `{WireTypes}.
Implicit Types (db : HistoryDb) (thread : str).

Definition sqlite_integer (value : Z) (field : str) : result ThreadStoreError Z :=
  if value <=? I64_MAX then Ok value
  else Err (Internal (field ++ lit " exceeds SQLite integer range")).

(** What SQLite reports when an insert meets the unique index of a table. *)
Definition unique_violation (columns : str) : ThreadStoreError :=
  Internal (lit "failed to access thread history: UNIQUE constraint failed: " ++ columns).

(** ** Queries on items *)

(** [json_extract(item_json, '$.type')] and [json_extract(item_json, '$.phase')]. *)
Definition is_user_message (i : ThreadItem.t) : bool :=
  match i with ThreadItem.UserMessage _ _ _ => true | _ => false end.
Definition is_final_answer (i : ThreadItem.t) : bool :=
  match i with ThreadItem.AgentMessage _ _ (Some FinalAnswer) _ => true | _ => false end.
Definition is_unphased_message (i : ThreadItem.t) : bool :=
  match i with ThreadItem.AgentMessage _ _ None _ => true | _ => false end.

(** The rows of a turn that satisfy a condition. *)
Definition turn_items db thread (turn : str) (p : ThreadItem.t → bool) : list (str * ItemRow.t) :=
  omap (λ kv : str * str * str * ItemRow.t,
          let '(th, tu, item, row) := kv in
          if (th ==s thread) && (tu ==s turn) && p (ItemRow.item_json row)
          then Some (item, row) else None)
    (map_to_list (thread_items db)).

(** [ORDER BY rollout_ordinal LIMIT 1], and the same with [DESC]. *)
Definition pick (better : Z → Z → bool) (l : list (str * ItemRow.t)) : option str :=
  fst <$> foldr (λ x best,
    match best with
    | Some y =>
        if better (ItemRow.rollout_ordinal x.2) (ItemRow.rollout_ordinal y.2)
        then Some x else Some y
    | None => Some x
    end) None l.

Definition first_by_ordinal (l : list (str * ItemRow.t)) : option str := pick Z.leb l.
Definition last_by_ordinal (l : list (str * ItemRow.t)) : option str := pick Z.geb l.

(** ** Turns *)

(** No row of the thread with another turn has the ordinal. *)
Definition turn_ordinal_taken db thread (ordinal : Z) : bool :=
  existsb (λ kv : str * str * TurnRow.t,
             (kv.1.1 ==s thread) && (TurnRow.rollout_ordinal kv.2 =? ordinal))
    (map_to_list (thread_turns db)).

(** [WHERE rollout_end_ordinal IS NULL AND status = 'inProgress']. *)
Definition is_open_row (row : TurnRow.t) : bool :=
  match TurnRow.rollout_end_ordinal row with
  | None => TurnRow.status row ==s lit "inProgress"
  | Some _ => false
  end.

(** [INSERT INTO thread_turns ... ON CONFLICT(thread_id, turn_id) DO UPDATE ...]. *)
Definition upsert_turn_row db thread (rollout_ordinal rollout_byte_offset : Z)
    (rollout_end_byte_offset : Z) (turn : TurnChange.t) : result ThreadStoreError HistoryDb :=
  let '(terminal_ordinal, terminal_byte_offset) :=
    match TurnChange.status turn with
    | TurnStatus.Completed | TurnStatus.Interrupted | TurnStatus.Failed =>
        (Some rollout_ordinal, Some rollout_end_byte_offset)
    | TurnStatus.InProgress => (None, None)
    end in
  let key := (thread, TurnChange.turn_id turn) in
  let store row := Ok (mkDb _ (<[key := row]> (thread_turns db)) (thread_items db)
                         (projection_states db)) in
  match thread_turns db !! key with
  | Some row =>
      if is_open_row row then
        store (TurnRow.mk (TurnRow.rollout_ordinal row) (TurnRow.rollout_byte_offset row)
                 terminal_ordinal terminal_byte_offset (turn_status (TurnChange.status turn))
                 (TurnChange.error turn) (TurnChange.started_at turn)
                 (TurnChange.completed_at turn) (TurnChange.duration_ms turn)
                 (TurnRow.first_user_item_id row) (TurnRow.final_agent_item_id row))
      else Ok db
  | None =>
      if turn_ordinal_taken db thread rollout_ordinal
      then Err (unique_violation (lit "thread_turns.thread_id, thread_turns.rollout_ordinal"))
      else
        store (TurnRow.mk rollout_ordinal (Some rollout_byte_offset) terminal_ordinal
                 terminal_byte_offset (turn_status (TurnChange.status turn))
                 (TurnChange.error turn) (TurnChange.started_at turn)
                 (TurnChange.completed_at turn) (TurnChange.duration_ms turn) None None)
  end.

(** [status IN ('completed', 'interrupted', 'failed')]. *)
Definition is_terminal_row (row : TurnRow.t) : bool :=
  (TurnRow.status row ==s lit "completed") || (TurnRow.status row ==s lit "interrupted")
  || (TurnRow.status row ==s lit "failed").

(** [COALESCE]. *)
Definition coalesce {A} (a b : option A) : option A :=
  match a with Some x => Some x | None => b end.

(** The update that fills the summary ids from the items of the turn. *)
Definition fill_summary_ids db thread (turn : str) (rollout_ordinal : Z) : HistoryDb :=
  let key := (thread, turn) in
  match thread_turns db !! key with
  | Some row =>
      if bool_decide (TurnRow.rollout_end_ordinal row = Some rollout_ordinal)
         || (TurnRow.status row ==s lit "inProgress") then
        let first_user :=
          coalesce (TurnRow.first_user_item_id row)
            (first_by_ordinal (turn_items db thread turn is_user_message)) in
        let final_agent :=
          coalesce (last_by_ordinal (turn_items db thread turn is_final_answer))
            (coalesce
               (if is_terminal_row row
                then last_by_ordinal (turn_items db thread turn is_unphased_message) else None)
               (TurnRow.final_agent_item_id row)) in
        mkDb _ (<[key := TurnRow.set_summary row first_user final_agent]> (thread_turns db))
          (thread_items db) (projection_states db)
      else db
  | None => db
  end.

Definition apply_turn_change db thread (rollout_ordinal rollout_byte_offset : Z)
    (rollout_end_byte_offset : Z) (turn : TurnChange.t) : result ThreadStoreError HistoryDb :=
  let? db := upsert_turn_row db thread rollout_ordinal rollout_byte_offset
               rollout_end_byte_offset turn in
  Ok (fill_summary_ids db thread (TurnChange.turn_id turn) rollout_ordinal).

(** ** Items *)
Definition item_ordinal_taken db thread (ordinal : Z) : bool :=
  existsb (λ kv : str * str * str * ItemRow.t,
             (kv.1.1.1 ==s thread) && (ItemRow.rollout_ordinal kv.2 =? ordinal))
    (map_to_list (thread_items db)).

(** [INSERT INTO thread_items ... ON CONFLICT(thread_id, turn_id, item_id) DO UPDATE ...]. *)
Definition upsert_item_row db thread (rollout_ordinal created_at_ms : Z) (item : ItemChange.t)
    : result ThreadStoreError HistoryDb :=
  let key := (thread, ItemChange.turn_id item, ThreadItem.id (ItemChange.item item)) in
  let store row := Ok (mkDb _ (thread_turns db) (<[key := row]> (thread_items db))
                         (projection_states db)) in
  match thread_items db !! key with
  | Some row =>
      store (ItemRow.mk _ (ItemRow.rollout_ordinal row) rollout_ordinal
               (ItemRow.created_at_ms row) (ItemChange.item item))
  | None =>
      if item_ordinal_taken db thread rollout_ordinal
      then Err (unique_violation (lit "thread_items.thread_id, thread_items.rollout_ordinal"))
      else store (ItemRow.mk _ rollout_ordinal rollout_ordinal created_at_ms
                    (ItemChange.item item))
  end.

(** An update of the row of a turn that is still open. *)
Definition update_open_turn db thread (turn : str) (f : TurnRow.t → TurnRow.t) : HistoryDb :=
  match thread_turns db !! (thread, turn) with
  | Some row =>
      if is_open_row row
      then mkDb _ (<[(thread, turn) := f row]> (thread_turns db)) (thread_items db)
             (projection_states db)
      else db
  | None => db
  end.

(** The summary ids a new item sets. *)
Definition note_summary_item db thread (turn : str) (item : ThreadItem.t) : HistoryDb :=
  match item with
  | ThreadItem.UserMessage id _ _ =>
      update_open_turn db thread turn (λ row,
        TurnRow.set_summary row (coalesce (TurnRow.first_user_item_id row) (Some id))
          (TurnRow.final_agent_item_id row))
  | ThreadItem.AgentMessage id _ (Some FinalAnswer) _ =>
      update_open_turn db thread turn (λ row,
        TurnRow.set_summary row (TurnRow.first_user_item_id row) (Some id))
  | _ => db
  end.

Definition missing_timestamp_error thread : ThreadStoreError :=
  Internal (lit "thread history projection for " ++ thread
            ++ lit " is missing an item creation timestamp").

Definition apply_item_change db thread (rollout_ordinal : Z) (fallback_created_at_ms : option Z)
    (item : ItemChange.t) : result ThreadStoreError HistoryDb :=
  match coalesce (ItemChange.started_at_ms item) fallback_created_at_ms with
  | None => Err (missing_timestamp_error thread)
  | Some created_at_ms =>
      let? db := upsert_item_row db thread rollout_ordinal created_at_ms item in
      Ok (note_summary_item db thread (ItemChange.turn_id item) (ItemChange.item item))
  end.

(** ** Change sets and steps *)
Fixpoint rfold {A} (f : HistoryDb → A → result ThreadStoreError HistoryDb) db (l : list A)
    : result ThreadStoreError HistoryDb :=
  match l with
  | [] => Ok db
  | x :: l' => let? db := f db x in rfold f db l'
  end.

Definition apply_change_set db thread (rollout_ordinal rollout_byte_offset : Z)
    (rollout_end_byte_offset : Z) (fallback_created_at_ms : option Z) (changes : ChangeSet.t)
    : result ThreadStoreError HistoryDb :=
  let? db := rfold (λ db turn, apply_turn_change db thread rollout_ordinal rollout_byte_offset
                                 rollout_end_byte_offset turn) db
               (ChangeSet.changed_turns changes) in
  rfold (λ db item, apply_item_change db thread rollout_ordinal fallback_created_at_ms item) db
    (ChangeSet.changed_items changes).

Definition expected_ordinal_error thread (expected got : Z) : ThreadStoreError :=
  Internal (lit "thread history projection for " ++ thread ++ lit " expected ordinal "
            ++ decimal (Z.to_N expected) ++ lit ", got " ++ decimal (Z.to_N got)).

Definition empty_range_error thread : ThreadStoreError :=
  Internal (lit "thread history projection for " ++ thread
            ++ lit " has an empty skipped ordinal range").

(** One round of the loop of [apply_projection]: the tables and the next ordinal. *)
Definition apply_step thread (s : HistoryDb * Z) (projection : RolloutProjectionStep)
    : result ThreadStoreError (HistoryDb * Z) :=
  let '(db, next_ordinal) := s in
  match projection with
  | Line line =>
      let? ordinal := sqlite_integer (ProjectedRolloutLine.ordinal line) (lit "rollout ordinal") in
      if negb (ordinal =? next_ordinal) then Err (expected_ordinal_error thread next_ordinal ordinal)
      else
        let? start :=
          sqlite_integer (ProjectedRolloutLine.start_byte_offset line) (lit "rollout byte offset") in
        let? finish :=
          sqlite_integer (ProjectedRolloutLine.end_byte_offset line) (lit "rollout byte offset") in
        let? db := apply_change_set db thread ordinal start finish
                     (ProjectedRolloutLine.fallback_created_at_ms line)
                     (ProjectedRolloutLine.changes line) in
        match i64_try_from (next_ordinal + 1) with
        | Some next_ordinal => Ok (db, next_ordinal)
        | None => Err ordinal_overflow_error
        end
  | SkippedOrdinalRange start_ordinal end_ordinal_exclusive =>
      let? start_ordinal := sqlite_integer start_ordinal (lit "rollout ordinal") in
      if negb (start_ordinal =? next_ordinal)
      then Err (expected_ordinal_error thread next_ordinal start_ordinal)
      else
        let? end_ordinal_exclusive :=
          sqlite_integer end_ordinal_exclusive (lit "rollout ordinal") in
        if end_ordinal_exclusive <=? start_ordinal then Err (empty_range_error thread)
        else Ok (db, end_ordinal_exclusive)
  end.

Fixpoint apply_steps thread (s : HistoryDb * Z) (steps : list RolloutProjectionStep)
    : result ThreadStoreError (HistoryDb * Z) :=
  match steps with
  | [] => Ok s
  | step :: steps' => let? s := apply_step thread s step in apply_steps thread s steps'
  end.

Definition behind_error thread : ThreadStoreError :=
  Internal (lit "thread history projection for " ++ thread ++ lit " is behind durable rollout").

(** The transaction: an error leaves the tables unchanged. *)
Definition apply_projection db thread (start_offset next_offset initial_ordinal : Z)
    (steps : list RolloutProjectionStep) : result ThreadStoreError HistoryDb :=
  let? initial := sqlite_integer initial_ordinal (lit "rollout ordinal") in
  let '(expected_offset, next_ordinal) := default (0, initial) (projection_states db !! thread) in
  let? start_offset := sqlite_integer start_offset (lit "rollout byte offset") in
  if negb (expected_offset =? start_offset) then Err (behind_error thread)
  else
    let? s := apply_steps thread (db, next_ordinal) steps in
    let? next_offset := sqlite_integer next_offset (lit "rollout byte offset") in
    Ok (mkDb _ (thread_turns s.1) (thread_items s.1)
          (<[thread := (next_offset, s.2)]> (projection_states s.1))).

Definition delete_thread db thread : HistoryDb :=
  mkDb _ (filter (λ kv, kv.1.1 ≠ thread) (thread_turns db))
    (filter (λ kv, kv.1.1.1 ≠ thread) (thread_items db)) (delete thread (projection_states db)).
End store.

(** ** Materialization: [thread_history_materialization.rs] *)

Definition negative_error (thread what : str) : ThreadStoreError :=
  Internal (lit "thread history projection for " ++ thread ++ lit " has a negative " ++ what).

Section materialize.
Context `{RolloutJson}.

Definition projection_state (db : HistoryDb) (thread : str)
    : result ThreadStoreError (option (Z * Z)) :=
  match projection_states db !! thread with
  | None => Ok None
  | Some (next_byte_offset, next_ordinal) =>
      if next_byte_offset <? 0 then Err (negative_error thread (lit "byte offset"))
      else if next_ordinal <? 0 then Err (negative_error thread (lit "ordinal"))
      else Ok (Some (next_byte_offset, next_ordinal))
  end.

(** [file] is what the rollout file holds, [None] when there is none. *)
Definition materialize_to_sqlite (db : HistoryDb) (thread_id : ThreadId) (rollout_path : str)
    (file : option (list N)) : result ThreadStoreError HistoryDb :=
  let thread := thread_id_to_string thread_id in
  let? state := projection_state db thread in
  let start_offset := match state with Some s => s.1 | None => 0 end in
  match file with
  | None =>
      match state with
      | None => Ok db
      | Some _ => Err (Internal (lit "No such file or directory (os error 2)"))
      end
  | Some file =>
      match read_session_meta_line rollout_path file with
      | Err message => Err (Internal message)
      | Ok meta =>
          let initial_ordinal := 
            match SessionMeta.history_base meta with
            | Some base => Z.of_N (HistoryPosition.end_ordinal_exclusive base)
            | None => 0
            end in
          let expected_ordinal := match state with Some s => s.2 | None => initial_ordinal end in
          let? steps := read_projection_steps thread_id
                          (Z.of_N <$> SessionMeta.subagent_history_start_ordinal meta) file
                          start_offset expected_ordinal in
          let '(projections, next_offset) := steps in
          if match projections with [] => true | _ => false end && (start_offset =? next_offset)
          then Ok db
          else apply_projection db thread start_offset next_offset initial_ordinal projections
      end
  end.
End materialize.
