(* ===== verification/HistoryStoreFacts.v ===== *)
(** * Facts on the history tables

    Materialization may run at any moment while the file grows: an attempt that
    succeeds is a prefix of the run that reads the whole file, and one that fails
    leaves no trace. *)

From Stdlib Require Import String ZArith NArith Lia Sorted.
From stdpp Require Import base option list numbers gmap.
From S2P Require Import Prelude StrBytes Models ThreadItems ItemBuilders ThreadHistory.
From S2P Require Import HistoryProjection HistoryProjectionFacts HistoryStore.

Local Open Scope Z_scope.

(** The tables with other checkpoints. *)
Definition with_states `{WireTypes} (ps : gmap str (Z * Z)) (db : HistoryDb) : HistoryDb :=
  mkDb _ (thread_turns db) (thread_items db) ps.

(** An attempt to catch up with the file: a failure is retried later. *)
Definition catch_up `{RolloutJson} (thread_id : ThreadId) (path : str) (db : HistoryDb)
    (file : list N) : HistoryDb :=
  match materialize_to_sqlite db thread_id path (Some file) with
  | Ok db' => db'
  | Err _ => db
  end.

(** ** Checkpoints are not looked at while the rows are written *)
Section states.
Context `{WireTypes}.
Implicit Types (db : HistoryDb) (thread : str) (ps : gmap str (Z * Z)).

Lemma apply_turn_change_states ps db thread o s e turn :
  apply_turn_change (with_states ps db) thread o s e turn
  = let? db' := apply_turn_change db thread o s e turn in Ok (with_states ps db').
Proof.
  unfold apply_turn_change, upsert_turn_row, turn_ordinal_taken, fill_summary_ids, turn_items.
  destruct (TurnChange.status turn); cbn [with_states thread_turns thread_items];
    (destruct (thread_turns db !! _) as [row|] eqn:E;
     [destruct (is_open_row row)|destruct (existsb _ _)]); cbn [rbind]; try done;
    cbn [thread_turns thread_items with_states];
    rewrite ?lookup_insert_eq, ?E; by destruct (_ || _).
Qed.

Lemma apply_item_change_states ps db thread o fb item :
  apply_item_change (with_states ps db) thread o fb item
  = let? db' := apply_item_change db thread o fb item in Ok (with_states ps db').
Proof.
  unfold apply_item_change. destruct (coalesce _ _); [|done].
  unfold upsert_item_row, item_ordinal_taken, note_summary_item, update_open_turn.
  cbn [with_states thread_items thread_turns].
  destruct (thread_items db !! _) as [row|]; [|destruct (existsb _ _); [done|]];
    cbn [rbind thread_turns thread_items with_states];
    destruct (ItemChange.item item); try done;
    try (match goal with p : option MessagePhase |- _ => destruct p as [[]|] end; try done);
    cbn [thread_turns thread_items];
    destruct (thread_turns db !! _) as [r|]; try done; by destruct (is_open_row r).
Qed.

Lemma rfold_states {A} (f : HistoryDb → A → result ThreadStoreError HistoryDb) ps db l :
  (∀ db x, f (with_states ps db) x = let? db' := f db x in Ok (with_states ps db')) →
  rfold f (with_states ps db) l = let? db' := rfold f db l in Ok (with_states ps db').
Proof.
  intros Hf. revert db. induction l as [|x l IH]; intros db; [done|]. cbn [rfold].
  rewrite Hf. by destruct (f db x); cbn [rbind].
Qed.

Lemma apply_steps_states ps thread db n steps :
  apply_steps thread (with_states ps db, n) steps
  = let? s := apply_steps thread (db, n) steps in Ok (with_states ps s.1, s.2).
Proof.
  revert db n. induction steps as [|step steps IH]; intros db n; [done|]. cbn [apply_steps].
  destruct step as [line|a b]; cbn [apply_step].
  - destruct (sqlite_integer _ _) as [o|]; cbn [rbind]; [|done]. destruct (negb _); [done|].
    do 2 (destruct (sqlite_integer _ _); cbn [rbind]; [|done]). unfold apply_change_set.
    rewrite rfold_states by (intros; apply apply_turn_change_states).
    destruct (rfold _ db _) as [db1|]; cbn [rbind]; [|done].
    rewrite rfold_states by (intros; apply apply_item_change_states).
    destruct (rfold _ db1 _) as [db2|]; cbn [rbind]; [|done].
    destruct (i64_try_from _); cbn [rbind]; [apply IH|done].
  - destruct (sqlite_integer _ _) as [o|]; cbn [rbind]; [|done]. destruct (negb _); [done|].
    destruct (sqlite_integer _ _) as [o'|]; cbn [rbind]; [|done].
    destruct (o' <=? o); cbn [rbind]; [done|apply IH].
Qed.

Lemma rfold_keeps {A} (f : HistoryDb → A → result ThreadStoreError HistoryDb) (P : HistoryDb → Prop)
    db l db' :
  (∀ db x db', x ∈ l → f db x = Ok db' → P db → P db') → rfold f db l = Ok db' → P db → P db'.
Proof.
  revert db. induction l as [|x l IH]; intros db Hf; cbn [rfold]; [by intros [= <-]|].
  destruct (f db x) as [db1|] eqn:E; cbn [rbind]; [|done]. intros Hl HP.
  eapply IH; [|exact Hl|]; [intros; eapply Hf; [by right|done..]|].
  eapply Hf; [by left|done..].
Qed.

Lemma apply_steps_app thread s l1 l2 :
  apply_steps thread s (l1 ++ l2) = let? s' := apply_steps thread s l1 in apply_steps thread s' l2.
Proof.
  revert s. induction l1 as [|x l1 IH]; intros s; [done|]. cbn [apply_steps app].
  destruct (apply_step thread s x); cbn [rbind]; [apply IH|done].
Qed.

Lemma apply_step_ordinal thread db n step db' n' :
  apply_step thread (db, n) step = Ok (db', n') → n' = steps_end n [step] ∧ n < n'.
Proof.
  unfold apply_step, sqlite_integer, i64_try_from. destruct step as [line|a b]; cbn [steps_end].
  - destruct (_ <=? _); cbn [rbind]; [|done].
    destruct (Z.eqb_spec (ProjectedRolloutLine.ordinal line) n) as [->|]; [|done]; cbn [negb].
    do 2 (destruct (_ <=? _); cbn [rbind]; [|done]).
    destruct (apply_change_set _ _ _ _ _ _ _); cbn [rbind]; [|done].
    destruct (_ <=? _); [|done]. intros [= _ <-]. lia.
  - destruct (_ <=? _); cbn [rbind]; [|done]. destruct (Z.eqb_spec a n) as [->|]; [|done].
    cbn [negb]. destruct (_ <=? I64_MAX); cbn [rbind]; [|done].
    destruct (Z.leb_spec b n); [done|]. intros [= _ <-]. lia.
Qed.

Lemma apply_steps_ordinal thread db n steps db' n' :
  apply_steps thread (db, n) steps = Ok (db', n') → n' = steps_end n steps ∧ n ≤ n'.
Proof.
  revert db n. induction steps as [|step steps IH]; intros db n; cbn [apply_steps].
  { intros [= _ <-]. cbn. lia. }
  destruct (apply_step _ _ _) as [[db1 n1]|] eqn:E; cbn [rbind]; [|done]. intros Hs.
  destruct (apply_step_ordinal _ _ _ _ _ _ E) as [-> ?]. destruct (IH _ _ Hs) as [-> ?].
  split; [by destruct step|]. lia.
Qed.
End states.

(** ** One transaction for two runs *)
Section append.
Context `{WireTypes}.
Implicit Types (db : HistoryDb) (thread : str).

(** The checkpoints a run starts from. *)
Definition checkpoint db thread (initial : Z) : Z * Z :=
  default (0, initial) (projection_states db !! thread).

Lemma apply_steps_keep_states thread db n steps db' n' :
  apply_steps thread (db, n) steps = Ok (db', n') → projection_states db' = projection_states db.
Proof.
  intros Hs. pose proof (apply_steps_states (projection_states db) thread db n steps) as Heq.
  replace (with_states (projection_states db) db) with db in Heq by (by destruct db).
  rewrite Hs in Heq. cbn in Heq. injection Heq as ->. done.
Qed.

Lemma sqlite_integer_Ok z field v : sqlite_integer z field = Ok v → v = z ∧ z ≤ I64_MAX.
Proof. unfold sqlite_integer. destruct (Z.leb_spec z I64_MAX); [|done]. by intros [= <-]. Qed.

Lemma sqlite_integer_fits z field : z ≤ I64_MAX → sqlite_integer z field = Ok z.
Proof. unfold sqlite_integer. by destruct (Z.leb_spec z I64_MAX); [|lia]. Qed.

(** A run that starts from its checkpoint. *)
Lemma apply_projection_eq db thread off off1 initial steps :
  initial ≤ I64_MAX → off ≤ I64_MAX → off = (checkpoint db thread initial).1 →
  apply_projection db thread off off1 initial steps
  = let? s := apply_steps thread (db, (checkpoint db thread initial).2) steps in
    let? o := sqlite_integer off1 (lit "rollout byte offset") in
    Ok (with_states (<[thread := (o, s.2)]> (projection_states db)) s.1).
Proof.
  intros Hi Ho Hc. unfold apply_projection. rewrite (sqlite_integer_fits _ _ Hi). cbn [rbind].
  fold (checkpoint db thread initial).
  destruct (checkpoint db thread initial) as [eo no]. cbn [fst snd] in *. subst eo.
  rewrite (sqlite_integer_fits _ _ Ho). cbn [rbind]. rewrite Z.eqb_refl. cbn [negb].
  destruct (apply_steps _ _ _) as [[db2 n2]|] eqn:Hs; cbn [rbind fst snd]; [|done].
  by rewrite (apply_steps_keep_states _ _ _ _ _ _ Hs).
Qed.

Lemma apply_projection_Ok db thread off off1 initial steps db1 :
  apply_projection db thread off off1 initial steps = Ok db1 →
  initial ≤ I64_MAX ∧ off ≤ I64_MAX ∧ off1 ≤ I64_MAX ∧ off = (checkpoint db thread initial).1
  ∧ ∃ s, apply_steps thread (db, (checkpoint db thread initial).2) steps = Ok s
    ∧ db1 = with_states (<[thread := (off1, s.2)]> (projection_states db)) s.1.
Proof.
  intros Hap. assert (initial ≤ I64_MAX ∧ off ≤ I64_MAX ∧ off = (checkpoint db thread initial).1)
    as (Hi & Ho & Hc).
  { revert Hap. unfold apply_projection.
    destruct (sqlite_integer initial _) as [i|] eqn:Hi; cbn [rbind]; [|done].
    apply sqlite_integer_Ok in Hi as [-> Hi]. fold (checkpoint db thread initial).
    destruct (checkpoint db thread initial) as [eo no] eqn:Hc.
    destruct (sqlite_integer off _) as [o|] eqn:Ho; cbn [rbind]; [|done].
    apply sqlite_integer_Ok in Ho as [-> Ho]. by destruct (Z.eqb_spec eo off) as [->|]. }
  revert Hap. rewrite (apply_projection_eq _ _ _ _ _ _ Hi Ho Hc).
  destruct (apply_steps _ _ _) as [s|]; cbn [rbind]; [|done].
  destruct (sqlite_integer off1 _) as [o1|] eqn:Ho1; cbn [rbind]; [|done].
  apply sqlite_integer_Ok in Ho1 as [-> Ho1]. intros [= <-]. split_and!; [done..|]. by exists s.
Qed.

(** Two runs in a row are the run with both lists of steps. *)
Lemma apply_projection_app db thread off off1 off2 initial steps1 steps2 db1 :
  apply_projection db thread off off1 initial steps1 = Ok db1 →
  apply_projection db thread off off2 initial (steps1 ++ steps2)
  = apply_projection db1 thread off1 off2 initial steps2.
Proof.
  intros Hap. destruct (apply_projection_Ok _ _ _ _ _ _ _ Hap)
    as (Hi & Ho & Ho1 & Hc & [dbs n1] & Hs & ->).
  rewrite (apply_projection_eq _ _ _ _ _ _ Hi Ho Hc), apply_projection_eq;
    [|done..|by unfold checkpoint, with_states; cbn; rewrite lookup_insert_eq].
  unfold checkpoint at 2. cbn [with_states projection_states fst snd].
  rewrite lookup_insert_eq, apply_steps_app, Hs. cbn [rbind default from_option id snd].
  fold (with_states (<[thread := (off1, n1)]> (projection_states db)) dbs).
  rewrite apply_steps_states. destruct (apply_steps thread (dbs, n1) steps2) as [s2|];
    cbn [rbind]; [|done].
  destruct (sqlite_integer off2 _); cbn [rbind fst snd]; [|done].
  by rewrite insert_insert_eq.
Qed.

(** A run without steps that stays where it is changes nothing. *)
Lemma apply_projection_idle db thread off off1 initial steps db1 :
  apply_projection db thread off off1 initial steps = Ok db1 →
  apply_projection db1 thread off1 off1 initial [] = Ok db1.
Proof.
  intros Hap. rewrite <- (apply_projection_app _ _ _ _ off1 _ _ [] _ Hap).
  by rewrite app_nil_r.
Qed.
End append.

(** ** Catching up with a file that grows *)
Section catch_up.
Context `{RolloutJson}.
Variable thread_id : ThreadId.
Variable path : str.
Implicit Types (db : HistoryDb) (file : list N) (meta : SessionMeta.t).

#[local] Abbreviation thread := (thread_id_to_string thread_id).

Definition initial_ordinal meta : Z :=
  match SessionMeta.history_base meta with
  | Some base => Z.of_N (HistoryPosition.end_ordinal_exclusive base)
  | None => 0
  end.

#[local] Abbreviation rsteps meta :=
  (read_projection_steps thread_id (Z.of_N <$> SessionMeta.subagent_history_start_ordinal meta)).

Lemma materialize_eq db file meta :
  read_session_meta_line path file = Ok meta →
  materialize_to_sqlite db thread_id path (Some file)
  = let? _ := projection_state db thread in
    let '(off, ord) := checkpoint db thread (initial_ordinal meta) in
    let? s := rsteps meta file off ord in
    if bool_decide (s.1 = []) && (off =? s.2) then Ok db
    else apply_projection db thread off s.2 (initial_ordinal meta) s.1.
Proof.
  intros Hm. unfold materialize_to_sqlite, checkpoint. rewrite Hm.
  fold (initial_ordinal meta). unfold projection_state.
  destruct (projection_states db !! _) as [[off ord]|]; cbn [rbind default from_option id].
  - destruct (off <? 0); [done|]. destruct (ord <? 0); [done|]. cbn [rbind fst snd].
    destruct (rsteps meta file off ord) as [[[|p ps] off1]|]; cbn [rbind fst snd]; [done|done|done].
  - destruct (rsteps meta file 0 _) as [[[|p ps] off1]|]; cbn [rbind fst snd]; [done|done|done].
Qed.

Lemma projection_state_Ok db meta st :
  projection_state db thread = Ok st →
  0 ≤ (checkpoint db thread (initial_ordinal meta)).1
  ∧ 0 ≤ (checkpoint db thread (initial_ordinal meta)).2.
Proof.
  unfold projection_state, checkpoint, initial_ordinal.
  destruct (projection_states db !! _) as [[off ord]|]; cbn.
  - destruct (Z.ltb_spec off 0); [done|]. destruct (Z.ltb_spec ord 0); [done|]. lia.
  - intros _. destruct (SessionMeta.history_base meta); cbn; lia.
Qed.

Lemma read_meta_extends f1 f2 head rest meta :
  Forall is_line head → f1 = mjoin head ++ rest →
  read_session_meta_line path (mjoin head) = Ok meta →
  read_session_meta_line path (f1 ++ f2) = Ok meta.
Proof.
  intros Hhead ->. unfold read_session_meta_line.
  rewrite <- (app_nil_r (mjoin head)) at 1.
  rewrite <- (assoc_L (++)), !split_inclusive_concat, app_nil_r by done.
  apply read_meta_lines_app.
Qed.

Lemma materialize_grown db db1 f1 f2 meta :
  read_session_meta_line path f1 = Ok meta →
  read_session_meta_line path (f1 ++ f2) = Ok meta →
  materialize_to_sqlite db thread_id path (Some f1) = Ok db1 →
  materialize_to_sqlite db1 thread_id path (Some (f1 ++ f2))
  = materialize_to_sqlite db thread_id path (Some (f1 ++ f2)).
Proof.
  intros Hm1 Hm2. rewrite !(materialize_eq _ _ _ Hm1), !(materialize_eq _ _ _ Hm2).
  destruct (projection_state db thread) as [st|] eqn:Hst; cbn [rbind]; [|done].
  pose proof (projection_state_Ok _ meta _ Hst) as [Hoff Hord].
  destruct (checkpoint db thread _) as [off ord] eqn:Hc. cbn [fst snd] in *.
  destruct (rsteps meta f1 off ord) as [[steps1 off1]|] eqn:Hr; cbn [rbind fst snd]; [|done].
  destruct (read_grown _ _ _ _ _ _ _ Hoff Hr) as (Hle & Hord1 & Hgrown).
  destruct (bool_decide (steps1 = []) && (off =? off1)) eqn:Hskip.
  { intros [= <-]. by rewrite Hst, Hc. }
  intros Hap. destruct (apply_projection_Ok _ _ _ _ _ _ _ Hap)
    as (_ & _ & _ & _ & [dbs n1] & Hs & Hdb1).
  rewrite Hc in Hs. cbn [snd] in Hs.
  destruct (apply_steps_ordinal _ _ _ _ _ _ Hs) as [-> _].
  assert (Hps : projection_states db1 !! thread = Some (off1, steps_end ord steps1)).
  { subst db1. cbn. apply lookup_insert_eq. }
  unfold projection_state, checkpoint. rewrite Hps. cbn [default from_option id].
  do 2 (rewrite (proj2 (Z.ltb_ge _ _)) by lia). cbn [rbind]. rewrite Hgrown.
  destruct (rsteps meta (f1 ++ f2) off1 _) as [[steps2 off2]|] eqn:Hr2; cbn [rbind fst snd]; [|done].
  assert (Hoff1 : 0 ≤ off1) by lia.
  destruct (read_grown _ _ _ _ _ _ _ Hoff1 Hr2) as (Hle2 & _).
  assert (bool_decide (steps1 ++ steps2 = []) && (off =? off2) = false) as ->.
  { apply andb_false_iff. apply andb_false_iff in Hskip as [Hne|Hne].
    - left. apply bool_decide_eq_false in Hne. apply bool_decide_eq_false. by destruct steps1.
    - right. apply Z.eqb_neq in Hne. apply Z.eqb_neq. lia. }
  rewrite (apply_projection_app _ _ _ _ _ _ _ _ _ Hap).
  destruct (bool_decide (steps2 = []) && (off1 =? off2)) eqn:Hidle; [|done].
  apply andb_true_iff in Hidle as [->%bool_decide_eq_true <-%Z.eqb_eq].
  symmetry. exact (apply_projection_idle _ _ _ _ _ _ _ Hap).
Qed.
End catch_up.
