(* ===== verification/HistoryTables.v ===== *)
(** * What the history tables hold

    The invariant of the rows of a thread, that projecting a file can only fail on a
    number SQLite cannot store, and the rows as a function of the log. *)

From Stdlib Require Import String ZArith NArith Lia.
From stdpp Require Import base option list numbers gmap.
From S2P Require Import Prelude StrBytes Models ThreadItems ItemBuilders ThreadHistory.
From S2P Require Import HistoryProjection HistoryProjectionFacts HistoryStore.
From S2P Require Import HistoryStoreFacts.

Local Open Scope Z_scope.

Section tables.
Context `{WireTypes}.
Implicit Types (db : HistoryDb) (thread turn item : str).

(** A summary id names an item of the turn. *)
Definition names_item db thread turn (id : option str) : Prop :=
  ∀ i, id = Some i → is_Some (thread_items db !! (thread, turn, i)).

Definition turn_row_ok db thread (n : Z) turn (row : TurnRow.t) : Prop :=
  TurnRow.rollout_ordinal row < n
  ∧ (∀ e, TurnRow.rollout_end_ordinal row = Some e →
       TurnRow.rollout_ordinal row ≤ e < n ∧ TurnRow.status row ≠ lit "inProgress")
  ∧ (∃ s, TurnRow.status row = turn_status s)
  ∧ names_item db thread turn (TurnRow.first_user_item_id row)
  ∧ names_item db thread turn (TurnRow.final_agent_item_id row).

(** The rows of a thread when [n] is the next ordinal. *)
Record tables_ok db thread (n : Z) : Prop := mk_tables_ok {
  turns_ok : ∀ turn row, thread_turns db !! (thread, turn) = Some row →
    turn_row_ok db thread n turn row;
  items_ok : ∀ turn item row, thread_items db !! (thread, turn, item) = Some row →
    ItemRow.rollout_ordinal row ≤ ItemRow.updated_at_ordinal row < n;
  turns_distinct : ∀ turn1 turn2 row1 row2,
    thread_turns db !! (thread, turn1) = Some row1 →
    thread_turns db !! (thread, turn2) = Some row2 →
    TurnRow.rollout_ordinal row1 = TurnRow.rollout_ordinal row2 → turn1 = turn2;
  items_distinct : ∀ k1 k2 row1 row2,
    thread_items db !! (thread, k1.1, k1.2) = Some row1 →
    thread_items db !! (thread, k2.1, k2.2) = Some row2 →
    ItemRow.rollout_ordinal row1 = ItemRow.rollout_ordinal row2 → k1 = k2;
}.

(** What a projection leaves alone: the rows of other threads and closed turns. *)
Definition frame thread db db' : Prop :=
  (∀ thread' turn, thread' ≠ thread →
     thread_turns db' !! (thread', turn) = thread_turns db !! (thread', turn))
  ∧ (∀ thread' turn item, thread' ≠ thread →
     thread_items db' !! (thread', turn, item) = thread_items db !! (thread', turn, item))
  ∧ (∀ turn row, thread_turns db !! (thread, turn) = Some row → is_open_row row = false →
     thread_turns db' !! (thread, turn) = Some row).

(** ** The rows as a function of the log *)

(** The records of an item: ordinal, creation time and snapshot. *)
Definition line_item_records (line : ProjectedRolloutLine.t) turn item
    : list (Z * option Z * ThreadItem.t) :=
  omap (λ c, if (ItemChange.turn_id c ==s turn) && (ThreadItem.id (ItemChange.item c) ==s item)
             then Some (ProjectedRolloutLine.ordinal line,
                        coalesce (ItemChange.started_at_ms c)
                          (ProjectedRolloutLine.fallback_created_at_ms line),
                        ItemChange.item c) else None)
    (ChangeSet.changed_items (ProjectedRolloutLine.changes line)).

Definition item_records (steps : list RolloutProjectionStep) turn item
    : list (Z * option Z * ThreadItem.t) :=
  mjoin (map (λ step, match step with
                      | Line line => line_item_records line turn item
                      | SkippedOrdinalRange _ _ => []
                      end) steps).

(** The first record creates the row, a later one replaces the snapshot. *)
Definition record_item (row : option ItemRow.t) (r : Z * option Z * ThreadItem.t)
    : option ItemRow.t :=
  let '(ordinal, created, snapshot) := r in
  match row with
  | Some row =>
      Some (ItemRow.mk _ (ItemRow.rollout_ordinal row) ordinal (ItemRow.created_at_ms row)
              snapshot)
  | None => (λ created, ItemRow.mk _ ordinal ordinal created snapshot) <$> created
  end.

(** The changes of a turn. *)
Definition turn_records (steps : list RolloutProjectionStep) turn
    : list (ProjectedRolloutLine.t * TurnChange.t) :=
  mjoin (map (λ step, match step with
                      | Line line =>
                          (line,.) <$> filter (λ c, TurnChange.turn_id c = turn)
                            (ChangeSet.changed_turns (ProjectedRolloutLine.changes line))
                      | SkippedOrdinalRange _ _ => []
                      end) steps).

(** The row a change of a turn writes. *)
Definition written_row (line : ProjectedRolloutLine.t) (c : TurnChange.t) (ordinal : Z)
    (offset : option Z) (first final : option str) : TurnRow.t :=
  let ended := match TurnChange.status c with TurnStatus.InProgress => false | _ => true end in
  TurnRow.mk ordinal offset
    (if ended then Some (ProjectedRolloutLine.ordinal line) else None)
    (if ended then Some (ProjectedRolloutLine.end_byte_offset line) else None)
    (turn_status (TurnChange.status c)) (TurnChange.error c) (TurnChange.started_at c)
    (TurnChange.completed_at c) (TurnChange.duration_ms c) first final.

(** The first change creates the row, the later ones replace what they carry until one
    of them has ended the turn. *)
Definition record_turn (row : option TurnRow.t) (r : ProjectedRolloutLine.t * TurnChange.t)
    : option TurnRow.t :=
  let '(line, c) := r in
  match row with
  | None =>
      Some (written_row line c (ProjectedRolloutLine.ordinal line)
              (Some (ProjectedRolloutLine.start_byte_offset line)) None None)
  | Some row =>
      if is_open_row row
      then Some (written_row line c (TurnRow.rollout_ordinal row)
                   (TurnRow.rollout_byte_offset row) None None)
      else Some row
  end.

(** A row without its summary ids. *)
Definition bare (row : TurnRow.t) : TurnRow.t := TurnRow.set_summary row None None.

(** ** Steps that can be applied *)
Definition line_ok (line : ProjectedRolloutLine.t) : Prop :=
  let changes := ProjectedRolloutLine.changes line in
  (length (ChangeSet.changed_turns changes) + length (ChangeSet.changed_items changes) ≤ 1)%nat
  ∧ (needs_timestamp changes = true → is_Some (ProjectedRolloutLine.fallback_created_at_ms line)).

Fixpoint steps_ok (n limit : Z) (steps : list RolloutProjectionStep) : Prop :=
  match steps with
  | [] => True
  | Line line :: steps' =>
      ProjectedRolloutLine.ordinal line = n ∧ line_ok line
      ∧ ProjectedRolloutLine.start_byte_offset line ≤ limit
      ∧ ProjectedRolloutLine.end_byte_offset line ≤ limit ∧ steps_ok (n + 1) limit steps'
  | SkippedOrdinalRange a b :: steps' => a = n ∧ n < b ∧ steps_ok b limit steps'
  end.

Lemma steps_ok_app n limit s1 s2 :
  steps_ok n limit (s1 ++ s2) ↔ steps_ok n limit s1 ∧ steps_ok (steps_end n s1) limit s2.
Proof.
  revert n. induction s1 as [|[line|a b] s1 IH]; intros n; cbn [steps_ok steps_end app];
    [tauto| |].
  - rewrite IH. split; [intros (-> & ?); tauto|intros ((-> & ?) & ?); tauto].
  - rewrite IH. tauto.
Qed.

Lemma steps_ok_limit n l1 l2 steps : l1 ≤ l2 → steps_ok n l1 steps → steps_ok n l2 steps.
Proof.
  intros Hle. revert n. induction steps as [|[line|a b] steps IH]; intros n; cbn; [done| |].
  - intros (? & ? & ? & ? & ?). split_and!; [done|done|lia|lia|auto].
  - intros (? & ? & ?). auto.
Qed.

Lemma steps_ok_end n limit steps : steps_ok n limit steps → n ≤ steps_end n steps.
Proof.
  revert n. induction steps as [|[line|a b] steps IH]; intros n; cbn [steps_ok steps_end]; [lia| |].
  - intros (-> & _ & _ & _ & Hs). specialize (IH _ Hs). lia.
  - intros (_ & ? & Hs). specialize (IH _ Hs). lia.
Qed.

(** ** Queries *)
Lemma existsb_map_to_list `{Countable K} {A} (m : gmap K A) (f : K * A → bool) :
  existsb f (map_to_list m) = true ↔ ∃ k x, m !! k = Some x ∧ f (k, x) = true.
Proof.
  rewrite existsb_exists. split.
  - intros ([k x] & Hin%list_elem_of_In & Hf). exists k, x. by rewrite <- elem_of_map_to_list.
  - intros (k & x & Hm & Hf). exists (k, x). by rewrite <- list_elem_of_In, elem_of_map_to_list.
Qed.

Lemma turn_ordinal_free db thread n : tables_ok db thread n → turn_ordinal_taken db thread n = false.
Proof.
  intros Hok. apply not_true_iff_false. unfold turn_ordinal_taken.
  rewrite existsb_map_to_list. intros ([th tu] & row & Hrow & Hf). cbn in Hf.
  apply andb_true_iff in Hf as [->%bool_decide_eq_true Hn%Z.eqb_eq].
  pose proof (turns_ok _ _ _ Hok _ _ Hrow) as [? _]. lia.
Qed.

Lemma item_ordinal_free db thread n : tables_ok db thread n → item_ordinal_taken db thread n = false.
Proof.
  intros Hok. apply not_true_iff_false. unfold item_ordinal_taken.
  rewrite existsb_map_to_list. intros ([[th tu] it] & row & Hrow & Hf). cbn in Hf.
  apply andb_true_iff in Hf as [->%bool_decide_eq_true Hn%Z.eqb_eq].
  pose proof (items_ok _ _ _ Hok _ _ _ Hrow). lia.
Qed.

Lemma pick_In better l i : pick better l = Some i → ∃ row, (i, row) ∈ l.
Proof.
  unfold pick. intros ([i' row] & Hf & ->)%fmap_Some. exists row. cbn. revert i' row Hf.
  induction l as [|x l IH]; intros i' row; cbn [foldr]; [done|].
  destruct (foldr _ None l) as [y|].
  - destruct (better _ _); intros [= ->]; [by left|right; by apply IH].
  - intros [= ->]. by left.
Qed.

Lemma turn_items_named db thread turn p i row :
  (i, row) ∈ turn_items db thread turn p → thread_items db !! (thread, turn, i) = Some row.
Proof.
  unfold turn_items. intros ([[[th tu] it] r] & Hin & Hf)%list_elem_of_omap. cbn in Hf.
  destruct (bool_decide (th = thread)) eqn:E1; [|done].
  destruct (bool_decide (tu = turn)) eqn:E2; [|done].
  apply bool_decide_eq_true in E1 as ->, E2 as ->. cbn in Hf.
  destruct (p _); [|done]. injection Hf as -> ->. by apply elem_of_map_to_list.
Qed.

Lemma names_pick db thread turn better p :
  names_item db thread turn (pick better (turn_items db thread turn p)).
Proof. intros i (row & Hin)%pick_In. exists row. by eapply turn_items_named. Qed.

Lemma names_coalesce db thread turn a b :
  names_item db thread turn a → names_item db thread turn b →
  names_item db thread turn (coalesce a b).
Proof. destruct a; cbn; auto. Qed.

(** ** What applying steps does *)
Record applied thread (n : Z) (steps : list RolloutProjectionStep) db db' : Prop := mk_applied {
  applied_ok : tables_ok db' thread n;
  applied_frame : frame thread db db';
  applied_items : ∀ turn item, thread_items db' !! (thread, turn, item)
    = foldl record_item (thread_items db !! (thread, turn, item)) (item_records steps turn item);
  applied_turns : ∀ turn, bare <$> thread_turns db' !! (thread, turn)
    = foldl record_turn (bare <$> thread_turns db !! (thread, turn)) (turn_records steps turn);
}.

Lemma tables_ok_mono db thread n n' : n ≤ n' → tables_ok db thread n → tables_ok db thread n'.
Proof.
  intros Hle [Ht Hi Htd Hid]. split; [..|exact Htd|exact Hid].
  - intros tu row Hrow. destruct (Ht _ _ Hrow) as (? & He & ? & ? & ?). split_and!; [lia| |done..].
    intros e He'. destruct (He _ He'). split; [lia|done].
  - intros tu it row Hrow. specialize (Hi _ _ _ Hrow). lia.
Qed.

Lemma frame_refl thread db : frame thread db db.
Proof. by split_and!. Qed.

Lemma frame_trans thread db1 db2 db3 : frame thread db1 db2 → frame thread db2 db3 → frame thread db1 db3.
Proof.
  intros (Ht1 & Hi1 & Hc1) (Ht2 & Hi2 & Hc2). split_and!.
  - intros th tu Hne. by rewrite Ht2, Ht1.
  - intros th tu it Hne. by rewrite Hi2, Hi1.
  - intros tu row Hrow Hopen. auto.
Qed.

Lemma applied_refl thread n n' a b db :
  n ≤ n' → tables_ok db thread n → applied thread n' [] db db
  ∧ applied thread n' [SkippedOrdinalRange a b] db db.
Proof.
  intros Hle Hok. split; (split; [by eapply tables_ok_mono|apply frame_refl|done|done]).
Qed.

Lemma applied_states thread n steps db db' ps :
  applied thread n steps db db' → applied thread n steps db (with_states ps db').
Proof. intros [[? ? ? ?] ? ? ?]. split; [by split|done..]. Qed.

Lemma applied_trans thread n n' s1 s2 db1 db2 db3 :
  applied thread n s1 db1 db2 → applied thread n' s2 db2 db3 → applied thread n' (s1 ++ s2) db1 db3.
Proof.
  intros [_ Hf1 Hi1 Ht1] [Hok Hf2 Hi2 Ht2]. split; [done|by eapply frame_trans|..].
  - intros tu it. rewrite Hi2, Hi1. unfold item_records. by rewrite map_app, join_app, foldl_app.
  - intros tu. rewrite Ht2, Ht1. unfold turn_records. by rewrite map_app, join_app, foldl_app.
Qed.

(** A row that is written at the next ordinal. *)
Lemma write_turn_ok db thread n turn row ps :
  tables_ok db thread n → turn_row_ok db thread (n + 1) turn row →
  match thread_turns db !! (thread, turn) with
  | Some row0 => TurnRow.rollout_ordinal row = TurnRow.rollout_ordinal row0
  | None => TurnRow.rollout_ordinal row = n
  end →
  tables_ok (mkDb _ (<[(thread, turn) := row]> (thread_turns db)) (thread_items db) ps) thread (n + 1).
Proof.
  intros Hok Hrow Hord. apply (tables_ok_mono _ _ _ (n + 1)) in Hok as Hok'; [|lia].
  destruct Hok' as [Ht Hi Htd Hid]. split; cbn [thread_turns thread_items]; [|exact Hi| |exact Hid].
  - intros tu r. destruct (decide (tu = turn)) as [->|Hne].
    + rewrite lookup_insert_eq. by intros [= <-].
    + rewrite lookup_insert_ne by congruence. apply Ht.
  - assert (Hnew : ∀ tu r, tu ≠ turn → thread_turns db !! (thread, tu) = Some r →
      TurnRow.rollout_ordinal r ≠ TurnRow.rollout_ordinal row).
    { intros tu r Hne Hr Heq. destruct (thread_turns db !! (thread, turn)) as [r0|] eqn:E.
      - apply Hne. eapply Htd; [done..|congruence].
      - destruct (turns_ok _ _ _ Hok _ _ Hr). lia. }
    intros t1 t2 r1 r2. destruct (decide (t1 = turn)) as [->|H1], (decide (t2 = turn)) as [->|H2];
      [done|..]; rewrite ?lookup_insert_eq, ?lookup_insert_ne by congruence.
    + intros [= <-] Hr2 Heq. by destruct (Hnew _ _ H2 Hr2).
    + intros Hr1 [= <-] Heq. by destruct (Hnew _ _ H1 Hr1).
    + by eapply Htd.
Qed.

(** The update that follows the upsert of a row. *)
Lemma fill_summary_ids_eq db thread turn n row :
  thread_turns db !! (thread, turn) = Some row →
  TurnRow.rollout_end_ordinal row = Some n ∨ TurnRow.status row = lit "inProgress" →
  ∃ a b,
    fill_summary_ids db thread turn n
    = mkDb _ (<[(thread, turn) := TurnRow.set_summary row a b]> (thread_turns db))
        (thread_items db) (projection_states db)
    ∧ (names_item db thread turn (TurnRow.first_user_item_id row) → names_item db thread turn a)
    ∧ (names_item db thread turn (TurnRow.final_agent_item_id row) → names_item db thread turn b).
Proof.
  intros Hrow Hcond. unfold fill_summary_ids. rewrite Hrow.
  assert (bool_decide (TurnRow.rollout_end_ordinal row = Some n)
          || (TurnRow.status row ==s lit "inProgress") = true) as ->.
  { apply orb_true_iff. destruct Hcond; [left|right]; by apply bool_decide_eq_true. }
  do 2 eexists. split; [reflexivity|]. split; intros Hn.
  - apply names_coalesce; [done|apply names_pick].
  - apply names_coalesce; [apply names_pick|]. apply names_coalesce; [|done].
    destruct (is_terminal_row row); [apply names_pick|done].
Qed.

Lemma fill_summary_ids_closed db thread turn n row :
  tables_ok db thread n → thread_turns db !! (thread, turn) = Some row → is_open_row row = false →
  fill_summary_ids db thread turn n = db.
Proof.
  intros Hok Hrow Hclosed. unfold fill_summary_ids. rewrite Hrow.
  destruct (turns_ok _ _ _ Hok _ _ Hrow) as (_ & He & _).
  assert (bool_decide (TurnRow.rollout_end_ordinal row = Some n)
          || (TurnRow.status row ==s lit "inProgress") = false) as ->; [|done].
  apply orb_false_iff. unfold is_open_row in Hclosed.
  destruct (TurnRow.rollout_end_ordinal row) as [e|] eqn:E.
  - destruct (He e eq_refl) as [? Hs]. split; apply bool_decide_eq_false; [|done].
    intros [= ->]. lia.
  - by split; [apply bool_decide_eq_false|].
Qed.

(** A line with one change of a turn. *)
Definition turn_line (line : ProjectedRolloutLine.t) (c : TurnChange.t) : Prop :=
  ChangeSet.changed_turns (ProjectedRolloutLine.changes line) = [c]
  ∧ ChangeSet.changed_items (ProjectedRolloutLine.changes line) = [].

Lemma turn_line_records line c turn item :
  turn_line line c →
  item_records [Line line] turn item = []
  ∧ turn_records [Line line] turn = (if decide (TurnChange.turn_id c = turn) then [(line, c)] else []).
Proof.
  intros [Ht Hi]. unfold item_records, turn_records, line_item_records. cbn. rewrite Ht, Hi.
  split; [done|]. rewrite app_nil_r. by destruct (decide _) eqn:E; cbn; rewrite E.
Qed.

Lemma write_turn_applied db thread n line c row ps :
  tables_ok db thread n → turn_line line c →
  turn_row_ok db thread (n + 1) (TurnChange.turn_id c) row →
  match thread_turns db !! (thread, TurnChange.turn_id c) with
  | Some row0 =>
      TurnRow.rollout_ordinal row = TurnRow.rollout_ordinal row0
      ∧ (is_open_row row0 = false → row = row0)
  | None => TurnRow.rollout_ordinal row = n
  end →
  Some (bare row)
  = record_turn (bare <$> thread_turns db !! (thread, TurnChange.turn_id c)) (line, c) →
  applied thread (n + 1) [Line line] db
    (mkDb _ (<[(thread, TurnChange.turn_id c) := row]> (thread_turns db)) (thread_items db) ps).
Proof.
  intros Hok Hline Hrow Hold Hrec. split; [|split_and!|..]; cbn [thread_turns thread_items].
  - apply write_turn_ok; [done..|]. by destruct (thread_turns db !! _); [destruct Hold|].
  - intros th tu Hne. by rewrite lookup_insert_ne by congruence.
  - done.
  - intros tu row0 Hrow0 Hclosed. destruct (decide (tu = TurnChange.turn_id c)) as [->|];
      [|by rewrite lookup_insert_ne by congruence].
    rewrite Hrow0 in Hold. rewrite lookup_insert_eq. f_equal. by apply Hold.
  - intros tu it. by destruct (turn_line_records _ _ tu it Hline) as [-> _].
  - intros tu. destruct (turn_line_records _ _ tu [] Hline) as [_ ->].
    destruct (decide (TurnChange.turn_id c = tu)) as [<-|].
    + rewrite lookup_insert_eq. exact Hrec.
    + by rewrite lookup_insert_ne by congruence.
Qed.

Lemma upsert_turn_row_eq db thread line c :
  let store row := mkDb _ (<[(thread, TurnChange.turn_id c) := row]> (thread_turns db))
                     (thread_items db) (projection_states db) in
  upsert_turn_row db thread (ProjectedRolloutLine.ordinal line)
    (ProjectedRolloutLine.start_byte_offset line) (ProjectedRolloutLine.end_byte_offset line) c
  = match thread_turns db !! (thread, TurnChange.turn_id c) with
    | Some row =>
        if is_open_row row
        then Ok (store (written_row line c (TurnRow.rollout_ordinal row)
                          (TurnRow.rollout_byte_offset row) (TurnRow.first_user_item_id row)
                          (TurnRow.final_agent_item_id row)))
        else Ok db
    | None =>
        if turn_ordinal_taken db thread (ProjectedRolloutLine.ordinal line)
        then Err (unique_violation (lit "thread_turns.thread_id, thread_turns.rollout_ordinal"))
        else Ok (store (written_row line c (ProjectedRolloutLine.ordinal line)
                          (Some (ProjectedRolloutLine.start_byte_offset line)) None None))
    end.
Proof.
  intros store. unfold upsert_turn_row, written_row. by destruct (TurnChange.status c).
Qed.

(** A row that is written and then summarized. *)
Lemma written_row_applied db thread n line c ordinal offset first final :
  tables_ok db thread n → ProjectedRolloutLine.ordinal line = n → turn_line line c →
  names_item db thread (TurnChange.turn_id c) first →
  names_item db thread (TurnChange.turn_id c) final →
  match thread_turns db !! (thread, TurnChange.turn_id c) with
  | Some row0 =>
      ordinal = TurnRow.rollout_ordinal row0 ∧ offset = TurnRow.rollout_byte_offset row0
      ∧ is_open_row row0 = true
  | None => ordinal = n ∧ offset = Some (ProjectedRolloutLine.start_byte_offset line)
  end →
  applied thread (n + 1) [Line line] db
    (fill_summary_ids
       (mkDb _ (<[(thread, TurnChange.turn_id c) := written_row line c ordinal offset first final]>
                  (thread_turns db)) (thread_items db) (projection_states db))
       thread (TurnChange.turn_id c) n).
Proof.
  intros Hok Hn Hline Hfirst Hfinal Hold.
  edestruct (fill_summary_ids_eq (mkDb _ (<[(thread, TurnChange.turn_id c) :=
      written_row line c ordinal offset first final]> (thread_turns db)) (thread_items db)
      (projection_states db)) thread (TurnChange.turn_id c) n) as (a & b & -> & Ha & Hb).
  { cbn. apply lookup_insert_eq. }
  { unfold written_row; cbn. rewrite Hn. destruct (TurnChange.status c); cbn; auto. }
  cbn [thread_turns thread_items projection_states]. rewrite insert_insert_eq.
  assert (Hord : ordinal ≤ n).
  { destruct (thread_turns db !! _) as [row0|] eqn:E; [|lia].
    destruct Hold as (-> & _), (turns_ok _ _ _ Hok _ _ E). lia. }
  apply (write_turn_applied _ _ _ _ c); [done..| | |].
  - split_and!; [cbn; lia| |by eexists|by apply Ha|by apply Hb]. cbn. intros e. rewrite Hn.
    by destruct (TurnChange.status c); intros [= <-]; (split; [lia|]).
  - destruct (thread_turns db !! _); [|by cbn; destruct Hold]. destruct Hold as (? & ? & Ho).
    split; [done|]. by rewrite Ho.
  - destruct (thread_turns db !! _) as [row0|]; cbn [fmap option_fmap option_map record_turn].
    + destruct Hold as (-> & -> & Ho). change (is_open_row (bare row0)) with (is_open_row row0).
      by rewrite Ho.
    + by destruct Hold as [-> ->]; rewrite Hn.
Qed.

Lemma turn_change_applied db thread n line c :
  tables_ok db thread n → ProjectedRolloutLine.ordinal line = n → turn_line line c →
  ∃ db', apply_turn_change db thread n (ProjectedRolloutLine.start_byte_offset line)
           (ProjectedRolloutLine.end_byte_offset line) c = Ok db'
    ∧ applied thread (n + 1) [Line line] db db'.
Proof.
  intros Hok <- Hline. unfold apply_turn_change.
  rewrite upsert_turn_row_eq, (turn_ordinal_free _ _ _ Hok).
  destruct (thread_turns db !! _) as [row|] eqn:Hrow; [destruct (is_open_row row) eqn:Hopen|];
    cbn [rbind]; (eexists; split; [reflexivity|]).
  - destruct (turns_ok _ _ _ Hok _ _ Hrow) as (_ & _ & _ & Hf & Hg).
    apply written_row_applied; [done..|]. by rewrite Hrow.
  - rewrite (fill_summary_ids_closed _ _ _ _ _ Hok Hrow Hopen).
    replace db with (mkDb _ (<[(thread, TurnChange.turn_id c) := row]> (thread_turns db))
      (thread_items db) (projection_states db)) at 2
      by (rewrite insert_id by done; by destruct db).
    apply (write_turn_applied _ _ _ _ c); [done..| |by rewrite Hrow|].
    + apply (turns_ok db thread); [|done]. eapply tables_ok_mono; [|done]. lia.
    + rewrite Hrow. cbn [fmap option_fmap option_map record_turn].
      change (is_open_row (bare row)) with (is_open_row row). by rewrite Hopen.
  - apply written_row_applied; [done..|]. by rewrite Hrow.
Qed.

(** ** Items *)
Definition item_line (line : ProjectedRolloutLine.t) (c : ItemChange.t) : Prop :=
  ChangeSet.changed_turns (ProjectedRolloutLine.changes line) = []
  ∧ ChangeSet.changed_items (ProjectedRolloutLine.changes line) = [c].

Lemma item_line_records line c turn item :
  item_line line c →
  turn_records [Line line] turn = []
  ∧ item_records [Line line] turn item
    = (if decide ((turn, item) = (ItemChange.turn_id c, ThreadItem.id (ItemChange.item c)))
       then [(ProjectedRolloutLine.ordinal line,
              coalesce (ItemChange.started_at_ms c)
                (ProjectedRolloutLine.fallback_created_at_ms line), ItemChange.item c)] else []).
Proof.
  intros [Ht Hi]. unfold item_records, turn_records, line_item_records. cbn. rewrite Ht, Hi.
  split; [done|]. rewrite app_nil_r. cbn.
  destruct (decide ((turn, item) = _)) as [[= -> ->]|Hne]; [by rewrite !bool_decide_true by done|].
  destruct (bool_decide (ItemChange.turn_id c = turn)) eqn:E1; [|done].
  destruct (bool_decide (ThreadItem.id _ = item)) eqn:E2; [|done].
  apply bool_decide_eq_true in E1 as <-, E2 as <-. done.
Qed.

(** Only open rows get new summary ids, which name items. *)
Definition resummarized thread db db' : Prop :=
  thread_items db' = thread_items db ∧
  (thread_turns db' = thread_turns db ∨
   ∃ turn row a b, thread_turns db !! (thread, turn) = Some row ∧ is_open_row row = true
     ∧ (names_item db thread turn (TurnRow.first_user_item_id row) → names_item db thread turn a)
     ∧ (names_item db thread turn (TurnRow.final_agent_item_id row) → names_item db thread turn b)
     ∧ thread_turns db' = <[(thread, turn) := TurnRow.set_summary row a b]> (thread_turns db)).

Lemma update_open_turn_resummarized thread db turn (f : TurnRow.t → TurnRow.t) :
  (∀ row, ∃ a b, f row = TurnRow.set_summary row a b
     ∧ (names_item db thread turn (TurnRow.first_user_item_id row) → names_item db thread turn a)
     ∧ (names_item db thread turn (TurnRow.final_agent_item_id row) → names_item db thread turn b)) →
  resummarized thread db (update_open_turn db thread turn f).
Proof.
  intros Hf. unfold update_open_turn.
  destruct (thread_turns db !! _) as [row|] eqn:E; [|by split; [|left]].
  destruct (is_open_row row) eqn:Ho; [|by split; [|left]].
  split; [done|]. right. destruct (Hf row) as (a & b & Heq & Ha & Hb).
  exists turn, row, a, b. by rewrite <- Heq.
Qed.

Lemma note_summary_item_resummarized thread db turn (item : ThreadItem.t) :
  is_Some (thread_items db !! (thread, turn, ThreadItem.id item)) →
  resummarized thread db (note_summary_item db thread turn item).
Proof.
  intros Hitem. assert (Hid : names_item db thread turn (Some (ThreadItem.id item)))
    by (by intros i [= <-]).
  destruct item; cbn [note_summary_item]; try (by split; [|left]).
  - apply update_open_turn_resummarized. intros row. do 2 eexists. split; [done|].
    split; [|done]. intros Hn. by apply names_coalesce.
  - destruct phase as [[]|]; try (by split; [|left]).
    apply update_open_turn_resummarized. intros row. do 2 eexists. split; [done|]. by split.
Qed.

Lemma resummarized_ok thread n db db' :
  resummarized thread db db' → tables_ok db thread n → tables_ok db' thread n.
Proof.
  destruct db' as [turns' items' ps']. unfold resummarized; cbn [thread_turns thread_items].
  intros [-> Hcase] [Ht Hi Htd Hid].
  destruct Hcase as [->|(turn & row & a & b & Hrow & _ & Ha & Hb & ->)]; [by split|].
  assert (Hlook : ∀ tu r, <[(thread, turn) := TurnRow.set_summary row a b]> (thread_turns db)
      !! (thread, tu) = Some r → ∃ r0, thread_turns db !! (thread, tu) = Some r0
      ∧ TurnRow.rollout_ordinal r = TurnRow.rollout_ordinal r0).
  { intros tu r. destruct (decide (tu = turn)) as [->|].
    - rewrite lookup_insert_eq. intros [= <-]. eauto.
    - rewrite lookup_insert_ne by congruence. eauto. }
  split; cbn [thread_turns thread_items]; [|exact Hi| |exact Hid].
  - intros tu r. destruct (decide (tu = turn)) as [->|].
    + rewrite lookup_insert_eq. intros [= <-]. destruct (Ht _ _ Hrow) as (? & ? & ? & ? & ?).
      split_and!; [done..|by apply Ha|by apply Hb].
    + rewrite lookup_insert_ne by congruence. apply Ht.
  - intros t1 t2 r1 r2 (r3 & H3 & ->)%Hlook (r4 & H4 & ->)%Hlook. by eapply Htd.
Qed.

Lemma resummarized_turns thread db db' :
  resummarized thread db db' →
  (∀ thread' turn, thread' ≠ thread →
     thread_turns db' !! (thread', turn) = thread_turns db !! (thread', turn))
  ∧ (∀ turn row, thread_turns db !! (thread, turn) = Some row → is_open_row row = false →
       thread_turns db' !! (thread, turn) = Some row)
  ∧ ∀ turn, bare <$> thread_turns db' !! (thread, turn) = bare <$> thread_turns db !! (thread, turn).
Proof.
  intros [_ [->|(turn & row & a & b & Hrow & Ho & _ & _ & ->)]]; [done|]. split_and!.
  - intros th tu Hne. by rewrite lookup_insert_ne by congruence.
  - intros tu r Hr Hc. rewrite lookup_insert_ne; [done|]. intros [= <-]. congruence.
  - intros tu. destruct (decide (tu = turn)) as [->|]; [|by rewrite lookup_insert_ne by congruence].
    by rewrite lookup_insert_eq, Hrow.
Qed.

(** An item row that is written at the next ordinal. *)
Lemma write_item_ok db thread n turn item row :
  tables_ok db thread n →
  ItemRow.rollout_ordinal row ≤ ItemRow.updated_at_ordinal row < n + 1 →
  match thread_items db !! (thread, turn, item) with
  | Some row0 => ItemRow.rollout_ordinal row = ItemRow.rollout_ordinal row0
  | None => ItemRow.rollout_ordinal row = n
  end →
  tables_ok (mkDb _ (thread_turns db) (<[(thread, turn, item) := row]> (thread_items db))
               (projection_states db)) thread (n + 1).
Proof.
  intros Hok Hrow Hold. apply (tables_ok_mono _ _ _ (n + 1)) in Hok as Hok'; [|lia].
  destruct Hok' as [Ht Hi Htd Hid]. split; cbn [thread_turns thread_items]; [| |exact Htd|].
  - assert (Hnames : ∀ tu i, names_item db thread tu i → names_item (mkDb _ (thread_turns db)
      (<[(thread, turn, item) := row]> (thread_items db)) (projection_states db)) thread tu i).
    { intros tu i Hn j Hj. cbn. apply lookup_insert_is_Some'. right. by apply Hn. }
    intros tu r Hr. destruct (Ht _ _ Hr) as (? & ? & ? & ? & ?). split_and!; auto.
  - intros tu it r. destruct (decide ((tu, it) = (turn, item))) as [[= -> ->]|].
    + rewrite lookup_insert_eq. by intros [= <-].
    + rewrite lookup_insert_ne by congruence. apply Hi.
  - assert (Hnew : ∀ k r, k ≠ (turn, item) → thread_items db !! (thread, k.1, k.2) = Some r →
      ItemRow.rollout_ordinal r ≠ ItemRow.rollout_ordinal row).
    { intros k r Hne Hr Heq. destruct (thread_items db !! (thread, turn, item)) as [r0|] eqn:E.
      - apply Hne. eapply (Hid k (turn, item)); [done..|congruence].
      - pose proof (items_ok _ _ _ Hok _ _ _ Hr). lia. }
    intros k1 k2 r1 r2.
    destruct (decide (k1 = (turn, item))) as [->|H1], (decide (k2 = (turn, item))) as [->|H2];
      [done|..]; cbn [fst snd]; rewrite ?lookup_insert_eq.
    + rewrite lookup_insert_ne by (destruct k2; cbn in *; congruence).
      intros [= <-] Hr2 Heq. by destruct (Hnew _ _ H2 Hr2).
    + rewrite lookup_insert_ne by (destruct k1; cbn in *; congruence).
      intros Hr1 [= <-] Heq. by destruct (Hnew _ _ H1 Hr1).
    + rewrite !lookup_insert_ne by (destruct k1, k2; cbn in *; congruence). by eapply Hid.
Qed.

Lemma item_change_applied db thread n line c created :
  tables_ok db thread n → ProjectedRolloutLine.ordinal line = n → item_line line c →
  coalesce (ItemChange.started_at_ms c) (ProjectedRolloutLine.fallback_created_at_ms line)
  = Some created →
  ∃ db', apply_item_change db thread n (ProjectedRolloutLine.fallback_created_at_ms line) c = Ok db'
    ∧ applied thread (n + 1) [Line line] db db'.
Proof.
  intros Hok Hn Hline Hcreated. unfold apply_item_change. rewrite Hcreated.
  set (turn := ItemChange.turn_id c). set (item := ThreadItem.id (ItemChange.item c)).
  assert (∃ row, upsert_item_row db thread n created c
      = Ok (mkDb _ (thread_turns db) (<[(thread, turn, item) := row]> (thread_items db))
              (projection_states db))
    ∧ ItemRow.rollout_ordinal row ≤ ItemRow.updated_at_ordinal row < n + 1
    ∧ match thread_items db !! (thread, turn, item) with
      | Some row0 => ItemRow.rollout_ordinal row = ItemRow.rollout_ordinal row0
      | None => ItemRow.rollout_ordinal row = n
      end
    ∧ Some row = record_item (thread_items db !! (thread, turn, item))
                   (n, Some created, ItemChange.item c)) as (row & -> & Hrow & Hold & Hrec).
  { unfold upsert_item_row. fold turn item. rewrite (item_ordinal_free _ _ _ Hok).
    destruct (thread_items db !! _) as [row0|] eqn:E; (eexists; split; [reflexivity|]); cbn;
      [pose proof (items_ok _ _ _ Hok _ _ _ E)|]; (split; [lia|done]). }
  cbn [rbind]. set (db1 := mkDb _ _ _ _). eexists. split; [reflexivity|].
  assert (Hsum : resummarized thread db1 (note_summary_item db1 thread turn (ItemChange.item c))).
  { apply note_summary_item_resummarized. cbn. fold item. rewrite lookup_insert_eq. by eexists. }
  destruct (resummarized_turns _ _ _ Hsum) as (Hth & Hclosed & Hbare).
  split; [|split_and!|..].
  - eapply resummarized_ok; [done|]. by apply write_item_ok.
  - intros th tu Hne. by apply Hth.
  - intros th tu it Hne. rewrite (proj1 Hsum). cbn. by rewrite lookup_insert_ne by congruence.
  - intros tu r Hr. by apply Hclosed.
  - intros tu it. rewrite (proj1 Hsum). cbn [db1 thread_items].
    destruct (item_line_records _ _ tu it Hline) as [_ ->]. fold turn item.
    destruct (decide ((tu, it) = (turn, item))) as [[= -> ->]|].
    + rewrite lookup_insert_eq, Hrec, Hcreated, Hn. done.
    + by rewrite lookup_insert_ne by congruence.
  - intros tu. rewrite Hbare. by destruct (item_line_records _ _ tu [] Hline) as [-> _].
Qed.
End tables.
