(* ===== verification/HistoryMaterialize.v ===== *)
(** * Materializing a rollout file

    Steps read from a file can be applied to tables that satisfy their invariant, and
    the rows are then a function of the log.  Examples evaluate the model. *)

From Stdlib Require Import String ZArith NArith Lia Sorted.
From stdpp Require Import base option list numbers gmap.
From S2P Require Import Prelude StrBytes Models ThreadItems ItemBuilders ThreadHistory.
From S2P Require Import HistoryProjection HistoryProjectionFacts HistoryStore.
From S2P Require Import HistoryStoreFacts HistoryTables.

Local Open Scope Z_scope.

Section apply.
Context `{WireTypes}.
Implicit Types (db : HistoryDb) (thread : str).

Lemma line_applied db thread n line :
  tables_ok db thread n → ProjectedRolloutLine.ordinal line = n → line_ok line →
  ∃ db', apply_change_set db thread n (ProjectedRolloutLine.start_byte_offset line)
           (ProjectedRolloutLine.end_byte_offset line)
           (ProjectedRolloutLine.fallback_created_at_ms line) (ProjectedRolloutLine.changes line)
         = Ok db'
    ∧ applied thread (n + 1) [Line line] db db'.
Proof.
  intros Hok Hn [Hlen Hts]. unfold apply_change_set.
  destruct (ChangeSet.changed_turns _) as [|c [|]] eqn:Ht; cbn in Hlen; [| |lia];
    (destruct (ChangeSet.changed_items _) as [|ic [|]] eqn:Hi; cbn in Hlen; [| |lia]); [| | |lia];
    cbn [rfold rbind].
  - exists db. split; [done|]. split; [eapply tables_ok_mono; [|done]; lia|apply frame_refl|..].
    + intros tu it. unfold item_records, line_item_records. cbn. by rewrite Hi.
    + intros tu. unfold turn_records. cbn. by rewrite Ht.
  - assert (∃ created, coalesce (ItemChange.started_at_ms ic)
      (ProjectedRolloutLine.fallback_created_at_ms line) = Some created) as [created Hc].
    { destruct (ItemChange.started_at_ms ic) as [m|] eqn:Em; [by exists m|]. cbn. apply Hts.
      unfold needs_timestamp. rewrite Hi. cbn. by rewrite Em. }
    destruct (item_change_applied db thread n line ic created Hok Hn (conj Ht Hi) Hc)
      as (db' & -> & Happ). by exists db'.
  - destruct (turn_change_applied db thread n line c Hok Hn (conj Ht Hi)) as (db' & -> & Happ).
    by exists db'.
Qed.

Lemma steps_applied db thread n limit steps :
  tables_ok db thread n → steps_ok n limit steps → limit ≤ I64_MAX →
  steps_end n steps ≤ I64_MAX →
  ∃ db', apply_steps thread (db, n) steps = Ok (db', steps_end n steps)
    ∧ applied thread (steps_end n steps) steps db db'.
Proof.
  revert db n. induction steps as [|step steps IH]; intros db n Hok Hsteps Hlim Hend.
  { exists db. split; [done|]. by apply (applied_refl _ n _ 0 0). }
  destruct step as [line|a b]; cbn [steps_ok steps_end apply_steps] in *.
  - destruct Hsteps as (Hn & Hline & Hs & He & Hsteps). rewrite Hn in Hend |- *.
    pose proof (steps_ok_end _ _ _ Hsteps). unfold apply_step.
    destruct (line_applied db thread n line Hok Hn Hline) as (db1 & Hap & Happ1).
    rewrite Hn, !sqlite_integer_fits by lia. cbn [rbind]. rewrite Z.eqb_refl. cbn [negb].
    rewrite Hap. cbn [rbind]. unfold i64_try_from. rewrite (proj2 (Z.leb_le _ _)) by lia.
    cbn [rbind].
    destruct (IH db1 (n + 1) (applied_ok _ _ _ _ _ Happ1) Hsteps Hlim Hend) as (db2 & -> & Happ2).
    exists db2. split; [done|]. exact (applied_trans _ _ _ [_] _ _ _ _ Happ1 Happ2).
  - destruct Hsteps as (-> & Hlt & Hsteps). pose proof (steps_ok_end _ _ _ Hsteps).
    unfold apply_step. rewrite !sqlite_integer_fits by lia. cbn [rbind]. rewrite Z.eqb_refl.
    cbn [negb]. rewrite (proj2 (Z.leb_gt _ _)) by lia. cbn [rbind].
    destruct (IH db b) as (db2 & -> & Happ2);
      [eapply tables_ok_mono; [|exact Hok]; lia|done..|].
    exists db2. split; [done|]. eapply (applied_trans _ b _ [_] _ _ db); [|exact Happ2].
    eapply (applied_refl _ n); [lia|done].
Qed.
End apply.

(** ** Steps that were read can be applied *)
Section read_ok.
Context `{RolloutJson}.
Variable thread_id : ThreadId.
Variable subagent_start : option Z.

#[local] Abbreviation rd := (read_line thread_id subagent_start).
#[local] Abbreviation rds := (read_lines thread_id subagent_start).

Lemma line_changes_short ordinal line :
  (length (ChangeSet.changed_turns (line_changes subagent_start ordinal line))
   + length (ChangeSet.changed_items (line_changes subagent_start ordinal line)) ≤ 1)%nat.
Proof.
  assert (Hp : (length (ChangeSet.changed_turns (project_rollout_line line))
    + length (ChangeSet.changed_items (project_rollout_line line)) ≤ 1)%nat).
  { unfold project_rollout_line. destruct (RolloutLine.item line); cbn; try lia.
    destruct event; cbn; try lia. destruct (TurnAbortedEvent.turn_id payload); cbn; lia. }
  unfold line_changes. destruct subagent_start; [|done]. by destruct (_ <? _); [cbn; lia|].
Qed.

(** The steps of a state, up to its offset. *)
Definition read_ok (ord : Z) (st : ReadState) : Prop :=
  steps_ok ord (next_offset st) (projections st)
  ∧ next_ordinal st = steps_end ord (projections st)
  ∧ next_offset st ≤ line_start_offset st.

Lemma accept_line_ok ord st e o line st' :
  line_start_offset st ≤ e → next_ordinal st ≤ o →
  accept_line thread_id subagent_start st e o line = Ok st' → read_ok ord st → read_ok ord st'.
Proof.
  intros He Ho. unfold accept_line, u64_checked_add.
  destruct (_ <? _); [done|]. set (changes := line_changes subagent_start o line).
  assert (Hdefer : read_ok ord st → read_ok ord (defer_line st e)).
  { intros (? & ? & ?). split_and!; [done..|]. cbn. lia. }
  assert (Hpush : ∀ fb, (needs_timestamp changes = true → is_Some fb) → read_ok ord st →
    read_ok ord (mkReadState _ (projections st
      ++ (if 0 <? o - next_ordinal st then [SkippedOrdinalRange (next_ordinal st) o] else [])
      ++ [Line (ProjectedRolloutLine.mk _ o (line_start_offset st) e fb changes)])
      (o + 1) e 0 e)).
  { intros fb Hfb (Hs & Hend & Hoff). unfold read_ok. cbn [projections next_offset next_ordinal
      line_start_offset]. rewrite !steps_end_app. split_and!; [|done|lia].
    apply steps_ok_app. split; [eapply steps_ok_limit; [|done]; lia|]. rewrite <- Hend.
    apply steps_ok_app. cbn [steps_ok ProjectedRolloutLine.ordinal
      ProjectedRolloutLine.start_byte_offset ProjectedRolloutLine.end_byte_offset].
    assert (line_ok (ProjectedRolloutLine.mk _ o (line_start_offset st) e fb changes)).
    { split; [apply line_changes_short|done]. }
    destruct (Z.ltb_spec 0 (o - next_ordinal st)); cbn [steps_ok steps_end];
      split_and!; (done || lia). }
  destruct (needs_timestamp changes) eqn:Hts; [destruct (timestamp_millis _)|];
    [destruct (_ <=? _); [|done]| |destruct (_ <=? _); [|done]]; intros [= <-].
  - by apply Hpush.
  - exact Hdefer.
  - by apply Hpush.
Qed.

Lemma read_line_ok ord st l st' : rd st l = Ok st' → read_ok ord st → read_ok ord st'.
Proof.
  unfold read_line, u64_checked_add. destruct (_ <=? U64_MAX); [|done].
  set (e := _ + _). assert (He : line_start_offset st ≤ e) by (subst e; lia).
  assert (Hdefer : read_ok ord st → read_ok ord (defer_line st e)).
  { intros (? & ? & ?). split_and!; [done..|]. cbn. lia. }
  destruct (forallb _ _).
  { intros [= <-] (Hs & ? & ?). unfold read_ok, skip_blank. cbn.
    destruct (_ =? 0); split_and!; try done; [eapply steps_ok_limit; [|done]; lia|lia]. }
  destruct (json_from_slice l) as [v|]; [|by intros [= <-]].
  set (lo := match record_line v ≫= _ with Some _ => _ | None => _ end).
  destruct lo as [o|]; destruct (record_line v) as [line|]; try done; try (by intros [= <-]);
    (destruct (Z.ltb_spec o (next_ordinal st)); [done|]); [|by intros [= <-]].
  by apply accept_line_ok.
Qed.

Lemma read_steps_ok file off ord steps off1 :
  read_projection_steps thread_id subagent_start file off ord = Ok (steps, off1) →
  steps_ok ord off1 steps.
Proof.
  rewrite read_projection_steps_lines. destruct (_ <? _); [done|].
  assert (Hrds : ∀ ls st st', rds st ls = Ok st' → read_ok ord st → read_ok ord st').
  { induction ls as [|l ls IH]; intros st st'; cbn [read_lines]; [by intros [= <-]|].
    destruct (rd st l) as [st1|] eqn:E; cbn [rbind]; [|done]. intros Hls Hok.
    eapply IH; [done|]. by eapply read_line_ok. }
  destruct (rds _ _) as [st|] eqn:E; cbn [rbind]; [|done]. intros [= <- <-].
  apply Hrds in E as (Hs & _); [exact Hs|]. split_and!; [done..|]. cbn. lia.
Qed.
End read_ok.

Section theorems.
Context `{RolloutJson}.

Lemma materialize_steps db thread_id path file meta steps off1 :
  let thread := thread_id_to_string thread_id in
  let start := checkpoint db thread (initial_ordinal meta) in
  0 ≤ start.1 → 0 ≤ start.2 → tables_ok db thread start.2 →
  read_session_meta_line path file = Ok meta →
  read_projection_steps thread_id (Z.of_N <$> SessionMeta.subagent_history_start_ordinal meta)
    file start.1 start.2 = Ok (steps, off1) →
  initial_ordinal meta ≤ I64_MAX → off1 ≤ I64_MAX → steps_end start.2 steps ≤ I64_MAX →
  ∃ db', materialize_to_sqlite db thread_id path (Some file) = Ok db'
    ∧ applied thread (steps_end start.2 steps) steps db db'
    ∧ (checkpoint db' thread (initial_ordinal meta)).2 = steps_end start.2 steps.
Proof.
  intros thread start Hs1 Hs2 Hok Hmeta Hread Hinit Hoff Hend.
  rewrite (materialize_eq _ _ _ _ _ Hmeta). fold thread.
  assert (is_ok (projection_state db thread) = true) as Hst.
  { unfold projection_state. subst start. unfold checkpoint in *.
    destruct (projection_states db !! thread) as [[o n]|]; [|done]. cbn in *.
    by rewrite !(proj2 (Z.ltb_ge _ _)) by lia. }
  destruct (projection_state db thread) as [st|]; [|done]. clear Hst. cbn [rbind].
  subst start. destruct (checkpoint db thread _) as [off ord] eqn:Hstart in *.
  cbn [fst snd] in *. rewrite Hread. cbn [rbind fst snd].
  pose proof (read_steps_ok _ _ _ _ _ _ _ Hread) as Hsteps.
  pose proof (read_grown _ _ _ _ _ _ _ Hs1 Hread) as (Hle & _).
  destruct (steps_applied db thread ord off1 steps Hok Hsteps Hoff Hend) as (db1 & Hap & Happ).
  destruct (bool_decide (steps = []) && (off =? off1)) eqn:Hskip.
  - apply andb_true_iff in Hskip as [->%bool_decide_eq_true _]. exists db. split; [done|].
    injection Hap as <-. split; [done|]. by rewrite Hstart.
  - rewrite apply_projection_eq; [|done|lia|by rewrite Hstart].
    rewrite Hstart. cbn [snd]. rewrite Hap. cbn [rbind]. rewrite sqlite_integer_fits by done.
    cbn [rbind fst snd]. eexists. split; [reflexivity|]. split; [by apply applied_states|].
    unfold checkpoint. cbn. by rewrite lookup_insert_eq.
Qed.

(** C12: The history tables do not depend on when they are brought up to date.  While a
    rollout file grows behind its header, any number of attempts may run on any of its
    states, with a partial last line or rejected lines at the end, and any of them may
    fail.  The next run has the outcome, in its tables as in its error, of a single run
    on the whole file from the tables at the start. *)
Theorem catching_up_is_one_run thread_id path db head files file meta :
  Forall is_line head →
  read_session_meta_line path (mjoin head) = Ok meta →
  Forall (λ f, mjoin head `prefix_of` f) files →
  Sorted prefix (files ++ [file]) →
  materialize_to_sqlite (foldl (catch_up thread_id path) db files) thread_id path (Some file)
  = materialize_to_sqlite db thread_id path (Some file).
Proof.
  intros Hhead Hmeta. revert db. induction files as [|f1 files IH]; intros db Hfs Hsort; [done|].
  apply list.Forall_cons in Hfs as [[rest ->] Hfs]. cbn [foldl].
  apply Sorted_StronglySorted in Hsort; [|intros ???; apply (transitivity (R := prefix))].
  apply StronglySorted_inv in Hsort as [Hsort Hall].
  rewrite IH; [|done|by apply StronglySorted_Sorted].
  apply Forall_app in Hall as [_ Hlast]. apply Forall_inv in Hlast as [f2 ->].
  unfold catch_up. destruct (materialize_to_sqlite db _ _ _) as [db1|] eqn:E; [|done].
  apply (materialize_grown thread_id path _ _ _ _ meta); [| |done].
  - rewrite <- (app_nil_r (_ ++ _)). by eapply read_meta_extends.
  - by eapply read_meta_extends.
Qed.

(** C14: Catching up never trips over its own tables, and keeps them in order.  Whenever
    the new part of the file can be read and its numbers fit a SQLite integer, the
    transaction commits: no unique index is violated and no creation time is missing.
    Afterwards the ordinals of the turns and of the items of the thread are again
    distinct and below the next ordinal, the status texts are those of the four outcomes,
    the summary ids name items, and neither the
    rows of turns that had ended nor the rows of other threads have changed. *)
Theorem materialize_keeps_tables db thread_id path file meta steps off1 :
  let thread := thread_id_to_string thread_id in
  let start := checkpoint db thread (initial_ordinal meta) in
  0 ≤ start.1 → 0 ≤ start.2 → tables_ok db thread start.2 →
  read_session_meta_line path file = Ok meta →
  read_projection_steps thread_id (Z.of_N <$> SessionMeta.subagent_history_start_ordinal meta)
    file start.1 start.2 = Ok (steps, off1) →
  initial_ordinal meta ≤ I64_MAX → off1 ≤ I64_MAX → steps_end start.2 steps ≤ I64_MAX →
  ∃ db', materialize_to_sqlite db thread_id path (Some file) = Ok db'
    ∧ tables_ok db' thread (checkpoint db' thread (initial_ordinal meta)).2
    ∧ frame thread db db'.
Proof.
  intros thread start H1s H2s Hok Hmeta Hread Hinit Hoff Hend.
  destruct (materialize_steps db thread_id path file meta steps off1) as (db' & Hm & Happ & Hc);
    [done..|].
  exists db'. split; [done|]. fold thread in Hc. rewrite Hc. by destruct Happ.
Qed.

(** C17: After catching up the rows of a thread are a function of the log.  An item has
    the ordinal and the creation time of its first record and the snapshot of its last
    one; a turn has the ordinal and the offset of its first record, the outcome, error
    and times of its last record, and no record after the one that ended it counts. *)
Theorem materialized_rows_follow_log db thread_id path file meta steps off1 db' :
  let thread := thread_id_to_string thread_id in
  let start := checkpoint db thread (initial_ordinal meta) in
  0 ≤ start.1 → 0 ≤ start.2 → tables_ok db thread start.2 →
  read_session_meta_line path file = Ok meta →
  read_projection_steps thread_id (Z.of_N <$> SessionMeta.subagent_history_start_ordinal meta)
    file start.1 start.2 = Ok (steps, off1) →
  initial_ordinal meta ≤ I64_MAX → off1 ≤ I64_MAX → steps_end start.2 steps ≤ I64_MAX →
  materialize_to_sqlite db thread_id path (Some file) = Ok db' →
  (∀ turn item, thread_items db' !! (thread, turn, item)
     = foldl record_item (thread_items db !! (thread, turn, item)) (item_records steps turn item))
  ∧ (∀ turn, bare <$> thread_turns db' !! (thread, turn)
     = foldl record_turn (bare <$> thread_turns db !! (thread, turn)) (turn_records steps turn)).
Proof.
  intros thread start Hs1 Hs2 Hok Hmeta Hread Hinit Hoff Hend Hm.
  destruct (materialize_steps db thread_id path file meta steps off1) as (db1 & Hm1 & Happ & _);
    [done..|].
  assert (db1 = db') as -> by congruence. by destruct Happ.
Qed.
End theorems.

(** ** Examples *)
Module Sample.
#[local] Instance wire : WireTypes := {| Value := unit; ExecutedToolCall := unit |}.
#[local] Instance env : HistoryEnv := {|
  thread_id_to_string := decimal; shlex_try_join := λ l, Some (join [SPACE] l);
  redact_secrets := λ s, s; path_uri_join := λ a b, Some (a ++ lit "/" ++ b);
  legacy_app_path := λ s, s; SessionMetaRest := unit; InterAgentCommunication := unit;
  TurnContextItem := unit; WorldStateItem := unit; GuardianAssessmentEvent := unit;
  ApplyPatchApprovalRequestEvent := unit; TokenCountEvent := unit; OtherEvent := unit |}.

(** A record is a letter, a digit for its ordinal and a letter for what it is about. *)
Definition record_item_of (kind : N) (id : str) : option RolloutItem.t :=
  if (kind =? 77)%N then
    Some (RolloutItem.SessionMeta (SessionMeta.mk _ 5 ThreadHistoryMode.Paginated None None tt))
  else if (kind =? 83)%N then
    Some (RolloutItem.EventMsg (EventMsg.TurnStarted (TurnStartedEvent.mk id None (Some 7) None)))
  else if (kind =? 73)%N then
    Some (RolloutItem.EventMsg (EventMsg.ItemCompleted (ItemCompletedEvent.mk _ 5 (lit "a")
      (CoreTurnItem.UserMessage (UserMessageItem.mk id None [])) (Some 8) 9)))
  else if (kind =? 67)%N then
    Some (RolloutItem.EventMsg (EventMsg.TurnComplete
      (TurnCompleteEvent.mk id None None None (Some 9) (Some 2) None)))
  else None.

Definition decode_record (s : list N) : option RolloutLine.t :=
  match s with
  | kind :: digit :: id :: _ =>
      RolloutLine.mk _ _ [] (Some (Z.of_N digit - 48)) <$> record_item_of kind [id]
  | _ => None
  end.

#[local] Instance json : RolloutJson := {|
  JsonRecord := list N;
  json_from_slice := λ s, match s with 88%N :: _ => None | _ => Some s end;
  record_ordinal := λ s, match s with _ :: digit :: _ => Some (Z.of_N digit - 48) | _ => None end;
  record_line := decode_record;
  record_type := λ _, None; record_history_mode := λ _, None;
  history_mode_from_value := λ _, Ok ThreadHistoryMode.Legacy;
  value_from_str := λ _, None; line_from_str := decode_record;
  timestamp_millis := λ _, None |}.

Definition line (s : str) : list N := s ++ [LF].
Definition head : list (list N) := [line (lit "M0h")].
(** A rejected line and the start of a record; then the record, which shows that the
    rejected line had an ordinal; then the end of the turn. *)
Definition file1 : list N := mjoin head ++ line (lit "S1a") ++ line (lit "X") ++ lit "I3".
Definition file2 : list N := file1 ++ line (lit "u").
Definition file3 : list N := file2 ++ line (lit "C4a").
Definition meta : SessionMeta.t := SessionMeta.mk _ 5 ThreadHistoryMode.Paginated None None tt.

Lemma catching_up_is_one_run_witness :
  materialize_to_sqlite (foldl (catch_up 5%N []) empty_db [file1; file2]) 5%N [] (Some file3)
  = materialize_to_sqlite empty_db 5%N [] (Some file3).
Proof.
  apply (catching_up_is_one_run 5%N [] empty_db head [file1; file2] file3 meta).
  - constructor; [|constructor]. exists (lit "M0h"). split; [done|]. repeat (constructor; [done|]).
    constructor.
  - vm_compute. reflexivity.
  - constructor; [|constructor; [|constructor]]; unfold file1, file2, file1;
      rewrite <- ?(assoc_L (++)); by eexists.
  - repeat constructor; by eexists.
Defined.

(** The steps of the three files and where they end. *)
Definition steps3 : list RolloutProjectionStep :=
  match read_projection_steps 5%N None file3 0 0 with Ok s => s.1 | Err _ => [] end.

Lemma empty_db_ok thread n : tables_ok empty_db thread n.
Proof. split; cbn; intros *; rewrite ?lookup_empty; done. Qed.

Lemma materialize_keeps_tables_witness :
  ∃ db', materialize_to_sqlite empty_db 5%N [] (Some file3) = Ok db'
    ∧ tables_ok db' (decimal 5) (checkpoint db' (decimal 5) 0).2
    ∧ frame (decimal 5) empty_db db'.
Proof.
  apply (materialize_keeps_tables empty_db 5%N [] file3 meta steps3 18).
  - vm_compute. discriminate.
  - vm_compute. discriminate.
  - apply empty_db_ok.
  - vm_compute. reflexivity.
  - vm_compute. reflexivity.
  - vm_compute. discriminate.
  - vm_compute. discriminate.
  - vm_compute. discriminate.
Defined.

Definition db3 : HistoryDb :=
  match materialize_to_sqlite empty_db 5%N [] (Some file3) with Ok db => db | Err _ => empty_db end.

Lemma materialized_rows_follow_log_witness :
  thread_items db3 !! (decimal 5, lit "a", lit "u")
  = foldl record_item None (item_records steps3 (lit "a") (lit "u"))
  ∧ is_Some (thread_items db3 !! (decimal 5, lit "a", lit "u"))
  ∧ bare <$> thread_turns db3 !! (decimal 5, lit "a")
    = foldl record_turn None (turn_records steps3 (lit "a")).
Proof.
  destruct (materialized_rows_follow_log empty_db 5%N [] file3 meta steps3 18 db3) as [Hi Ht].
  - vm_compute. discriminate.
  - vm_compute. discriminate.
  - apply empty_db_ok.
  - vm_compute. reflexivity.
  - vm_compute. reflexivity.
  - vm_compute. discriminate.
  - vm_compute. discriminate.
  - vm_compute. discriminate.
  - vm_compute. reflexivity.
  - split; [exact (Hi (lit "a") (lit "u"))|]. split; [|exact (Ht (lit "a"))].
    eexists. vm_compute. reflexivity.
Defined.
End Sample.
