(* ===== verification/RolloutLineage.v ===== *)
(** * Fork lineages: [thread-store/src/local/rollout_lineage.rs]

    A forked thread inherits a prefix of another rollout.  The ranges that make up its
    history are found by following [history_base] from file to file. *)

From Stdlib Require Import String ZArith NArith Lia.
From stdpp Require Import base option list numbers gmap.
From S2P Require Import Prelude StrBytes Models ThreadItems ItemBuilders ThreadHistory.
From S2P Require Import HistoryProjection.

Local Open Scope Z_scope.

Module RolloutLineageSegment.
Record t : Type := mk {
  thread_id : ThreadId;
  rollout_path : str;
  start_ordinal : Z;
  cutoff : option HistoryPosition.t;
}.

Definition end_ordinal (s : t) : option Z :=
  Z.of_N ∘ HistoryPosition.end_ordinal_exclusive <$> cutoff s.
End RolloutLineageSegment.

Abbreviation RolloutLineage := (list RolloutLineageSegment.t) (only parsing).

Section lineage.
Context `{RolloutJson}.
(** The rollout file of a thread, archived ones included: its path and its contents. *)
Variable rollouts : gmap ThreadId (str * list N).

Definition malformed_lineage (thread_id : ThreadId) (detail : str) : ThreadStoreError :=
  InvalidRequest (lit "invalid paginated history lineage for " ++ thread_id_to_string thread_id
                  ++ lit ": " ++ detail).

Definition validate_cutoff_bounds (requested_thread_id : ThreadId) (file : list N)
    (cutoff : HistoryPosition.t) : result ThreadStoreError unit :=
  if (HistoryPosition.end_ordinal_exclusive cutoff =? 0)%N
  then Err (malformed_lineage requested_thread_id
              (lit "cutoff cannot include source session metadata"))
  else if Z.of_nat (length file) <? Z.of_N (HistoryPosition.end_byte_offset cutoff)
  then Err (malformed_lineage requested_thread_id
              (lit "cutoff byte offset is past the source rollout"))
  else Ok tt.

(** One round of the loop: the segment of a thread and the position it continues from. *)
Definition lineage_segment (requested_thread_id thread_id : ThreadId)
    (cutoff : option HistoryPosition.t)
    : result ThreadStoreError (RolloutLineageSegment.t * option HistoryPosition.t) :=
  match rollouts !! thread_id with
  | None => Err (malformed_lineage thread_id (lit "missing source rollout"))
  | Some (rollout_path, file) =>
      match read_session_meta_line rollout_path file with
      | Err err =>
          Err (Internal (lit "failed to read lineage metadata " ++ rollout_path ++ lit ": " ++ err))
      | Ok meta =>
          if negb (SessionMeta.id meta =? thread_id)%N
          then Err (malformed_lineage requested_thread_id
                      (lit "source rollout belongs to another thread"))
          else
            match SessionMeta.history_mode meta with
            | ThreadHistoryMode.Legacy =>
                Err (malformed_lineage requested_thread_id (lit "source rollout is not paginated"))
            | ThreadHistoryMode.Paginated =>
                let? _ := match cutoff with
                          | Some cutoff => validate_cutoff_bounds requested_thread_id file cutoff
                          | None => Ok tt
                          end in
                let? start_ordinal :=
                  match SessionMeta.history_base meta with
                  | Some base =>
                      match u64_checked_add
                              (Z.of_N (HistoryPosition.end_ordinal_exclusive base)) 1 with
                      | Some start => Ok start
                      | None => Err (malformed_lineage requested_thread_id
                                       (lit "source ordinal overflow"))
                      end
                  | None => Ok 1
                  end in
                Ok (RolloutLineageSegment.mk thread_id rollout_path start_ordinal cutoff,
                    SessionMeta.history_base meta)
            end
      end
  end.

(** The loop; [segments] is the vector before it is reversed, from the requested thread
    to its ancestors.  [None] is the end of the fuel. *)
Fixpoint lineage_loop (fuel : nat) (requested_thread_id : ThreadId) (seen : gset ThreadId)
    (thread_id : ThreadId) (cutoff : option HistoryPosition.t)
    (segments : list RolloutLineageSegment.t)
    : option (result ThreadStoreError RolloutLineage) :=
  match fuel with
  | O => None
  | S fuel' =>
      if bool_decide (thread_id ∈ seen)
      then Some (Err (malformed_lineage requested_thread_id (lit "cycle detected")))
      else
        match lineage_segment requested_thread_id thread_id cutoff with
        | Err e => Some (Err e)
        | Ok (segment, history_base) =>
            let segments := segments ++ [segment] in
            match history_base with
            | None => Some (Ok (rev segments))
            | Some base =>
                lineage_loop fuel' requested_thread_id ({[thread_id]} ∪ seen)
                  (HistoryPosition.thread_id base) (Some base) segments
            end
        end
  end.

(** One round per rollout and one for the thread that closes a cycle. *)
Definition lineage_fuel : nat := S (size rollouts).

Definition resolve_rollout_lineage (requested_thread_id : ThreadId)
    : option (result ThreadStoreError RolloutLineage) :=
  lineage_loop lineage_fuel requested_thread_id ∅ requested_thread_id None [].

(** [position] of the first element that satisfies a condition. *)
Fixpoint position {A} (p : A → bool) (l : list A) : option nat :=
  match l with
  | [] => None
  | x :: l' => if p x then Some 0%nat else S <$> position p l'
  end.

Definition contains_ordinal (ordinal : Z) (segment : RolloutLineageSegment.t) : bool :=
  (RolloutLineageSegment.start_ordinal segment <=? ordinal)
  && match RolloutLineageSegment.end_ordinal segment with
     | Some end_ordinal => ordinal <? end_ordinal
     | None => true
     end.

Definition segment_index_for_ordinal (lineage : RolloutLineage) (ordinal : Z) : option nat :=
  position (contains_ordinal ordinal) lineage.

(** [truncate_at]: the lineage of a fork at a position. *)
Definition truncate_at (lineage : RolloutLineage) (cutoff : HistoryPosition.t)
    : result ThreadStoreError RolloutLineage :=
  match position (λ s, (RolloutLineageSegment.thread_id s =? HistoryPosition.thread_id cutoff)%N)
          lineage with
  | None => Err (Internal (lit "fork position is outside the source lineage"))
  | Some segment_index =>
      let kept := take (S segment_index) lineage in
      match last kept with
      | None => Err (Internal (lit "rollout lineage has no segments"))
      | Some segment =>
          match rollouts !! RolloutLineageSegment.thread_id segment with
          | None =>
              Err (Internal (lit "failed to read lineage metadata "
                             ++ RolloutLineageSegment.rollout_path segment
                             ++ lit ": No such file or directory (os error 2)"))
          | Some (_, file) =>
              let? _ := validate_cutoff_bounds (HistoryPosition.thread_id cutoff) file cutoff in
              Ok (take segment_index lineage
                  ++ [RolloutLineageSegment.mk (RolloutLineageSegment.thread_id segment)
                        (RolloutLineageSegment.rollout_path segment)
                        (RolloutLineageSegment.start_ordinal segment) (Some cutoff)])
          end
      end
  end.
End lineage.

(** ** The shape of a lineage *)

(** Each segment but the last ends where the next one was forked, and the next one
    starts behind its own header. *)
Fixpoint linked (lineage : RolloutLineage) : Prop :=
  match lineage with
  | s1 :: (s2 :: _) as rest =>
      (∃ cutoff, RolloutLineageSegment.cutoff s1 = Some cutoff
        ∧ HistoryPosition.thread_id cutoff = RolloutLineageSegment.thread_id s1
        ∧ RolloutLineageSegment.start_ordinal s2
          = Z.of_N (HistoryPosition.end_ordinal_exclusive cutoff) + 1)
      ∧ linked rest
  | _ => True
  end.

Section lineage_facts.
Context `{RolloutJson}.
Variable rollouts : gmap ThreadId (str * list N).

Lemma lineage_segment_Ok requested thread_id cutoff segment base :
  lineage_segment rollouts requested thread_id cutoff = Ok (segment, base) →
  thread_id ∈ dom rollouts
  ∧ RolloutLineageSegment.thread_id segment = thread_id
  ∧ RolloutLineageSegment.cutoff segment = cutoff
  ∧ RolloutLineageSegment.start_ordinal segment
    = match base with
      | Some base => Z.of_N (HistoryPosition.end_ordinal_exclusive base) + 1
      | None => 1
      end
  ∧ (∀ c, cutoff = Some c → (0 < HistoryPosition.end_ordinal_exclusive c)%N).
Proof.
  unfold lineage_segment. destruct (rollouts !! thread_id) as [[path file]|] eqn:E; [|done].
  destruct (read_session_meta_line path file) as [meta|]; [|done].
  destruct (negb _); [done|]. destruct (SessionMeta.history_mode meta); [done|].
  assert (Hc : ∀ r, match cutoff with
      | Some cutoff => validate_cutoff_bounds requested file cutoff
      | None => Ok tt
      end = Ok r → ∀ c, cutoff = Some c → (0 < HistoryPosition.end_ordinal_exclusive c)%N).
  { intros r Hv c ->. revert Hv. unfold validate_cutoff_bounds. destruct (N.eqb_spec (HistoryPosition.end_ordinal_exclusive c) 0); [done|lia]. }
  destruct (match cutoff with Some _ => _ | None => _ end) as [u|]; cbn [rbind]; [|done].
  specialize (Hc u eq_refl). unfold u64_checked_add.
  destruct (SessionMeta.history_base meta) as [b|]; [destruct (_ <=? _); [|done]|]; cbn [rbind];
    intros [= <- <-]; (split_and!; [by apply elem_of_dom_2 in E|done..|exact Hc]).
Qed.

(** The vector while the loop runs: what is still missing is the segment of
    [thread_id] that ends at [cutoff]. *)
Record visiting (requested : ThreadId) (seen : gset ThreadId) (thread_id : ThreadId)
    (cutoff : option HistoryPosition.t) (segments : list RolloutLineageSegment.t) : Prop :=
  mk_visiting {
  visiting_seen : ∀ t, t ∈ seen ↔ t ∈ (RolloutLineageSegment.thread_id <$> segments);
  visiting_dom : seen ⊆ dom rollouts;
  visiting_NoDup : NoDup (RolloutLineageSegment.thread_id <$> segments);
  visiting_linked : linked (rev segments);
  visiting_next : match rev segments with
    | [] => thread_id = requested ∧ cutoff = None
    | s :: _ => ∃ c, cutoff = Some c ∧ HistoryPosition.thread_id c = thread_id
        ∧ RolloutLineageSegment.start_ordinal s = Z.of_N (HistoryPosition.end_ordinal_exclusive c) + 1
    end;
  visiting_first : match segments with
    | [] => True
    | s :: _ => RolloutLineageSegment.thread_id s = requested ∧ RolloutLineageSegment.cutoff s = None
    end;
}.

Lemma visiting_push requested seen thread_id cutoff segments segment base :
  visiting requested seen thread_id cutoff segments → thread_id ∉ seen →
  lineage_segment rollouts requested thread_id cutoff = Ok (segment, base) →
  linked (rev (segments ++ [segment]))
  ∧ NoDup (RolloutLineageSegment.thread_id <$> segments ++ [segment])
  ∧ (∀ b, base = Some b →
       visiting requested ({[thread_id]} ∪ seen) (HistoryPosition.thread_id b) (Some b)
         (segments ++ [segment]))
  ∧ (∃ s rest, segments ++ [segment] = s :: rest ∧ RolloutLineageSegment.thread_id s = requested
       ∧ RolloutLineageSegment.cutoff s = None).
Proof.
  intros [Hseen Hdom Hnd Hlink Hnext Hfirst] Hnew Hseg.
  destruct (lineage_segment_Ok _ _ _ _ _ Hseg) as (Hin & Hid & Hcut & Hstart & _).
  assert (Hlink' : linked (rev (segments ++ [segment]))).
  { rewrite rev_app_distr. cbn [rev app].
    destruct (rev segments) as [|s rest]; [done|]. split; [|exact Hlink].
    destruct Hnext as (c & -> & Hc & Hs). exists c. by rewrite Hid. }
  assert (Hnd' : NoDup (RolloutLineageSegment.thread_id <$> segments ++ [segment])).
  { rewrite fmap_app. cbn. apply NoDup_app. split_and!; [done| |apply NoDup_singleton].
    intros t Ht ->%list_elem_of_singleton. apply Hnew. rewrite Hseen. by rewrite <- Hid. }
  assert (Hfirst' : ∃ s rest, segments ++ [segment] = s :: rest
      ∧ RolloutLineageSegment.thread_id s = requested ∧ RolloutLineageSegment.cutoff s = None).
  { destruct segments as [|s rest]; cbn; [|by exists s, (rest ++ [segment])].
    exists segment, []. destruct Hnext as [-> ->]. by rewrite Hid, Hcut. }
  split_and!; [done..| |done]. intros b ->. split.
  - intros t. rewrite elem_of_union, elem_of_singleton, Hseen, fmap_app, elem_of_app. cbn.
    rewrite list_elem_of_singleton, Hid. tauto.
  - set_solver.
  - done.
  - done.
  - rewrite rev_app_distr. cbn. by exists b.
  - destruct Hfirst' as (s & rest & -> & ?). done.
Qed.

Lemma lineage_loop_spec fuel requested seen thread_id cutoff segments :
  visiting requested seen thread_id cutoff segments →
  (size rollouts < fuel + size seen)%nat →
  ∃ r, lineage_loop rollouts fuel requested seen thread_id cutoff segments = Some r
    ∧ ∀ lineage, r = Ok lineage →
      linked lineage ∧ NoDup (RolloutLineageSegment.thread_id <$> lineage)
      ∧ (∃ s, last lineage = Some s ∧ RolloutLineageSegment.thread_id s = requested
           ∧ RolloutLineageSegment.cutoff s = None).
Proof.
  revert seen thread_id cutoff segments.
  induction fuel as [|fuel IH]; intros seen thread_id cutoff segments Hv Hfuel.
  { pose proof (subseteq_size _ _ (visiting_dom _ _ _ _ _ Hv)). rewrite size_dom in *. lia. }
  cbn [lineage_loop]. destruct (bool_decide (thread_id ∈ seen)) eqn:Hb; [by eexists|].
  apply bool_decide_eq_false in Hb.
  destruct (lineage_segment _ _ _ _) as [[segment base]|] eqn:Hseg; [|by eexists].
  destruct (visiting_push _ _ _ _ _ _ _ Hv Hb Hseg) as (Hlink & Hnd & Hnext & s & rest & Hs & Hreq).
  destruct base as [b|].
  - apply (IH _ _ _ _ (Hnext b eq_refl)). rewrite size_union by set_solver.
    rewrite size_singleton. lia.
  - eexists. split; [done|]. intros lineage [= <-]. split_and!; [done|..].
    + rewrite rev_alt. change (rev_append (segments ++ [segment]) []) with (reverse (segments ++ [segment])).
      rewrite fmap_reverse. by rewrite reverse_Permutation.
    + exists s. rewrite Hs. cbn. by rewrite last_snoc.
Qed.
End lineage_facts.

Section lineage_theorem.
Context `{RolloutJson}.

(** C18: Resolving a lineage always returns, whatever the files say about their bases: a
    cycle is reported after at most one visit per rollout.  A resolved lineage ends
    with the requested thread, visits no thread twice, and its segments fit together:
    each one ends where the next was forked, and the next starts behind its header. *)
Theorem lineage_resolves rollouts requested :
  ∃ r, resolve_rollout_lineage rollouts requested = Some r
    ∧ ∀ lineage, r = Ok lineage →
      linked lineage ∧ NoDup (RolloutLineageSegment.thread_id <$> lineage)
      ∧ (∃ s, last lineage = Some s ∧ RolloutLineageSegment.thread_id s = requested
           ∧ RolloutLineageSegment.cutoff s = None).
Proof.
  apply lineage_loop_spec; [|unfold lineage_fuel; lia]. split; cbn; try done; [set_solver..|constructor].
Qed.
End lineage_theorem.
