(* ===== verification/HistoryPaging.v ===== *)
(** * Pages of the history: [thread-store/src/local/thread_history/read.rs],
    [segment_paging.rs] and [turn_lookup.rs]

    Turns and items are listed segment by segment along the lineage of a thread, in
    pages that are linked by cursors.  A SELECT is the list of the rows of its table
    that satisfy its WHERE clause, sorted by its ORDER BY column and cut at its LIMIT. *)

From Stdlib Require Import String ZArith NArith Lia.
From stdpp Require Import base option list numbers gmap.
From S2P Require Import Prelude StrBytes Models ThreadItems ItemBuilders ThreadHistory.
From S2P Require Import HistoryProjection HistoryStore RolloutLineage.

Local Open Scope Z_scope.

Inductive SortDirection : Type := Asc | Desc.
Inductive ItemSortKey : Type := CreatedAtOrdinal | UpdatedAtOrdinal.
Inductive StoredTurnItemsView : Type := NotLoaded | Summary.

Inductive CursorScope : Type := Turns | ItemsByCreatedAtOrdinal | ItemsByUpdatedAtOrdinal.
#[global] Instance CursorScope_eq_dec : EqDecision CursorScope.
Proof. solve_decision. Defined.

Module HistoryCursor.
Record t : Type := mk {
  requested_thread_id : ThreadId;
  rollout_ordinal : Z;
  include_anchor : bool;
  scope : CursorScope;
}.
End HistoryCursor.

(** [serde_json] on a cursor. *)
Class CursorJson := {
  cursor_to_string : HistoryCursor.t → str;
  cursor_from_str : str → option HistoryCursor.t;
}.

(** ** Rows *)
Module StoredThreadItem.
Record t `{WireTypes} : Type := mk {
  turn_id : str;
  item_id : str;
  updated_at_ordinal : Z;
  created_at_ms : Z;
  item_json : ThreadItem.t;
}.
End StoredThreadItem.

Module StoredTurnRow.
Record t `{WireTypes} : Type := mk {
  position : Z;
  turn_id : str;
  status : TurnStatus.t;
  error : option TurnError.t;
  started_at : option Z;
  completed_at : option Z;
  duration_ms : option Z;
  first_user_item_id : option str;
  final_agent_item_id : option str;
  summary_items : list StoredThreadItem.t;
}.
End StoredTurnRow.

Module StoredThreadItemRow.
Record t `{WireTypes} : Type := mk { position : Z; item : StoredThreadItem.t }.
End StoredThreadItemRow.

Class HasPosition (A : Type) := position_of : A → Z.
#[global] Instance turn_row_position `{WireTypes} : HasPosition StoredTurnRow.t :=
  StoredTurnRow.position.
#[global] Instance item_row_position `{WireTypes} : HasPosition StoredThreadItemRow.t :=
  StoredThreadItemRow.position.

Module SegmentPage.
Record t (A : Type) : Type := mk {
  rows : list A;
  next_cursor : option str;
  backwards_cursor : option str;
}.
Arguments mk {A} _ _ _.
Arguments rows {A} _.
Arguments next_cursor {A} _.
Arguments backwards_cursor {A} _.
End SegmentPage.

(** ** Errors and checks *)
Definition page_size_too_large : ThreadStoreError := InvalidRequest (lit "page size is too large").
Definition invalid_cursor (cursor : str) : ThreadStoreError :=
  InvalidRequest (lit "invalid cursor: " ++ cursor).

(** [usize::checked_add]. *)
Definition usize_checked_add (a b : Z) : option Z :=
  if a + b <=? USIZE_MAX then Some (a + b) else None.

Definition validate_page_size (page_size : Z) : result ThreadStoreError unit :=
  if page_size =? 0 then Err (InvalidRequest (lit "page size must be positive"))
  else
    match usize_checked_add page_size 1 with
    | None => Err page_size_too_large
    | Some limit =>
        match i64_try_from limit with Some _ => Ok tt | None => Err page_size_too_large end
    end.

Definition remaining_limit (page_size row_count : Z) : result ThreadStoreError Z :=
  match usize_checked_add page_size 1 with
  | None => Err page_size_too_large
  | Some limit =>
      if limit <? row_count then Err page_size_too_large
      else match i64_try_from (limit - row_count) with
           | Some limit => Ok limit
           | None => Err page_size_too_large
           end
  end.

(** The [sqlite_integer] of [segment_paging.rs]. *)
Definition page_integer (value : Z) : result ThreadStoreError Z :=
  if value <=? I64_MAX then Ok value
  else Err (InvalidRequest (lit "rollout ordinal exceeds SQLite integer range")).

(** ** Cursors *)
Section cursors.
Context `{CursorJson}.

Definition parse_cursor (cursor : option str) (requested_thread_id : ThreadId)
    (scope : CursorScope) : result ThreadStoreError (option HistoryCursor.t) :=
  match cursor with
  | None => Ok None
  | Some cursor =>
      match cursor_from_str cursor with
      | None => Err (invalid_cursor cursor)
      | Some cursor_value =>
          if negb (HistoryCursor.requested_thread_id cursor_value =? requested_thread_id)%N
             || negb (bool_decide (HistoryCursor.scope cursor_value = scope))
          then Err (invalid_cursor cursor)
          else Ok (Some cursor_value)
      end
  end.

Definition serialize_cursor (requested_thread_id : ThreadId) (scope : CursorScope)
    (rollout_ordinal : Z) (include_anchor : bool) : result ThreadStoreError str :=
  if rollout_ordinal <? 0 then Err (invalid_cursor (lit "negative rollout ordinal"))
  else Ok (cursor_to_string
             (HistoryCursor.mk requested_thread_id rollout_ordinal include_anchor scope)).

(** [finish_page]: one row more than a page was asked for. *)
Definition finish_page {A} `{HasPosition A} (requested_thread_id : ThreadId)
    (scope : CursorScope) (rows : list A) (page_size : Z)
    : result ThreadStoreError (SegmentPage.t A) :=
  let has_more := page_size <? Z.of_nat (length rows) in
  let rows := take (Z.to_nat page_size) rows in
  let? backwards_cursor :=
    match head rows with
    | Some row =>
        let? c := serialize_cursor requested_thread_id scope (position_of row) true in Ok (Some c)
    | None => Ok None
    end in
  let? next_cursor :=
    if has_more then
      match last rows with
      | Some row =>
          let? c := serialize_cursor requested_thread_id scope (position_of row) false in
          Ok (Some c)
      | None => Ok None
      end
    else Ok None in
  Ok (SegmentPage.mk rows next_cursor backwards_cursor).

(** ** The segments a page starts from *)
Definition segments_from_cursor (lineage : RolloutLineage) (direction : SortDirection)
    (cursor : option HistoryCursor.t)
    : result ThreadStoreError
        (list (nat * RolloutLineageSegment.t * option HistoryCursor.t)) :=
  let? cursor_index :=
    match cursor with
    | None => Ok None
    | Some cursor =>
        match segment_index_for_ordinal lineage (HistoryCursor.rollout_ordinal cursor) with
        | Some index => Ok (Some index)
        | None => Err (invalid_cursor (lit "position outside thread lineage"))
        end
    end in
  let indexes :=
    match direction with
    | Asc =>
        let first := default 0%nat cursor_index in seq first (length lineage - first)
    | Desc => rev (seq 0 (S (default (length lineage - 1)%nat cursor_index)))
    end in
  Ok (omap (λ index,
        (λ segment,
           (index, segment, if bool_decide (Some index = cursor_index) then cursor else None))
        <$> lineage !! index) indexes).

(** [push_cursor_clause]: which ordinals lie behind the cursor. *)
Definition beyond (direction : SortDirection) (cursor : option HistoryCursor.t) (ordinal : Z)
    : bool :=
  match cursor with
  | None => true
  | Some cursor =>
      let anchor := HistoryCursor.rollout_ordinal cursor in
      match direction, HistoryCursor.include_anchor cursor with
      | Asc, true => anchor <=? ordinal
      | Asc, false => anchor <? ordinal
      | Desc, true => ordinal <=? anchor
      | Desc, false => ordinal <? anchor
      end
  end.

(** The integers a query binds: the range of the segment and the cursor. *)
Definition bind_range (segment : RolloutLineageSegment.t) : result ThreadStoreError unit :=
  let? _ := page_integer (RolloutLineageSegment.start_ordinal segment) in
  match RolloutLineageSegment.end_ordinal segment with
  | Some end_ordinal => let? _ := page_integer end_ordinal in Ok tt
  | None => Ok tt
  end.

Definition bind_cursor (cursor : option HistoryCursor.t) : result ThreadStoreError unit :=
  match cursor with
  | Some cursor => let? _ := page_integer (HistoryCursor.rollout_ordinal cursor) in Ok tt
  | None => Ok tt
  end.

Fixpoint bind_ranges (segments : list RolloutLineageSegment.t) : result ThreadStoreError unit :=
  match segments with
  | [] => Ok tt
  | segment :: segments' => let? _ := bind_range segment in bind_ranges segments'
  end.

(** [ORDER BY ... LIMIT]. *)
Definition precedes (direction : SortDirection) (a b : Z) : bool :=
  match direction with Asc => a <=? b | Desc => b <=? a end.

Fixpoint insert_row {R} (direction : SortDirection) (x : Z * R) (l : list (Z * R))
    : list (Z * R) :=
  match l with
  | [] => [x]
  | y :: l' => if precedes direction x.1 y.1 then x :: l else y :: insert_row direction x l'
  end.
Definition order_by {R} (direction : SortDirection) (l : list (Z * R)) : list (Z * R) :=
  foldr (insert_row direction) [] l.

(** [collect::<Result<Vec<_>, _>>]. *)
Fixpoint collect {A B} (f : A → result ThreadStoreError B) (l : list A)
    : result ThreadStoreError (list B) :=
  match l with
  | [] => Ok []
  | x :: l' => let? y := f x in let? ys := collect f l' in Ok (y :: ys)
  end.

(** The loop over the segments of a page. *)
Fixpoint page_loop {A}
    (query : nat → RolloutLineageSegment.t → option HistoryCursor.t → Z →
             result ThreadStoreError (list A))
    (page_size : Z) (segments : list (nat * RolloutLineageSegment.t * option HistoryCursor.t))
    (rows : list A) : result ThreadStoreError (list A) :=
  match segments with
  | [] => Ok rows
  | (segment_index, segment, segment_cursor) :: segments' =>
      let? remaining := remaining_limit page_size (Z.of_nat (length rows)) in
      if remaining =? 0 then Ok rows
      else
        let? more := query segment_index segment segment_cursor remaining in
        page_loop query page_size segments' (rows ++ more)
  end.
End cursors.

(** ** Queries *)
Section queries.
Context `{CursorJson, RolloutJson}.
Variable db : HistoryDb.
Variable lineage : RolloutLineage.

#[local] Abbreviation tid segment :=
  (thread_id_to_string (RolloutLineageSegment.thread_id segment)).

(** [NOT EXISTS (SELECT 1 FROM thread_turns AS newer_turn ...)], negated. *)
Definition shadowed_by (turn_id : str) (newer_segment : RolloutLineageSegment.t) : bool :=
  match thread_turns db !! (tid newer_segment, turn_id) with
  | Some row => contains_ordinal (TurnRow.rollout_ordinal row) newer_segment
  | None => false
  end.

(** The rows of a segment that its query selects, before the order. *)
Definition turn_rows (segment_index : nat) (segment : RolloutLineageSegment.t)
    : list (Z * (str * TurnRow.t)) :=
  omap (λ kv : str * str * TurnRow.t,
          let '(thread, turn_id, row) := kv in
          if (thread ==s tid segment)
             && contains_ordinal (TurnRow.rollout_ordinal row) segment
             && negb (existsb (shadowed_by turn_id) (drop (S segment_index) lineage))
          then Some (TurnRow.rollout_ordinal row, (turn_id, row)) else None)
    (map_to_list (thread_turns db)).

Definition stored_status (status : str) : result ThreadStoreError TurnStatus.t :=
  if status ==s lit "completed" then Ok TurnStatus.Completed
  else if status ==s lit "interrupted" then Ok TurnStatus.Interrupted
  else if status ==s lit "failed" then Ok TurnStatus.Failed
  else if status ==s lit "inProgress" then Ok TurnStatus.InProgress
  else Err (Internal (lit "unknown stored turn status: " ++ status)).

Definition stored_turn_row (row : Z * (str * TurnRow.t)) (summary_items : list StoredThreadItem.t)
    : result ThreadStoreError StoredTurnRow.t :=
  let '(position, (turn_id, row)) := row in
  let? status := stored_status (TurnRow.status row) in
  Ok (StoredTurnRow.mk _ position turn_id status (TurnRow.error_json row) (TurnRow.started_at row)
        (TurnRow.completed_at row) (TurnRow.duration_ms row) (TurnRow.first_user_item_id row)
        (TurnRow.final_agent_item_id row) summary_items).

Definition negative_text (z : Z) : str :=
  if z <? 0 then lit "-" ++ decimal (Z.to_N (- z)) else decimal (Z.to_N z).

Definition stored_updated_at_ordinal (updated_at_ordinal : Z) : result ThreadStoreError Z :=
  if updated_at_ordinal <? 0
  then Err (Internal (lit "invalid stored item updated-at ordinal: "
                      ++ negative_text updated_at_ordinal))
  else Ok updated_at_ordinal.

Definition stored_thread_item (turn_id item_id : str) (row : ItemRow.t)
    : result ThreadStoreError StoredThreadItem.t :=
  let? updated_at_ordinal := stored_updated_at_ordinal (ItemRow.updated_at_ordinal row) in
  Ok (StoredThreadItem.mk _ turn_id item_id updated_at_ordinal (ItemRow.created_at_ms row)
        (ItemRow.item_json row)).

(** [LEFT JOIN thread_items ... ON ...], within the range of the segment. *)
Definition joined_item (segment : RolloutLineageSegment.t) (turn_id : str) (item_id : option str)
    : option (str * ItemRow.t) :=
  match item_id with
  | None => None
  | Some item_id =>
      match thread_items db !! (tid segment, turn_id, item_id) with
      | Some row =>
          if contains_ordinal (ItemRow.rollout_ordinal row) segment then Some (item_id, row)
          else None
      | None => None
      end
  end.

(** [StoredSummaryItemColumns::into_stored_item]. *)
Definition into_stored_item (turn_id : str) (joined : option (str * ItemRow.t))
    : result ThreadStoreError (list (Z * StoredThreadItem.t)) :=
  match joined with
  | None => Ok []
  | Some (item_id, row) =>
      let? item := stored_thread_item turn_id item_id row in
      Ok [(ItemRow.rollout_ordinal row, item)]
  end.

(** [StoredSummaryColumns::into_stored_items]; the sort is stable. *)
Definition into_stored_items (segment : RolloutLineageSegment.t) (turn_id : str) (row : TurnRow.t)
    : result ThreadStoreError (list StoredThreadItem.t) :=
  let? first_user :=
    into_stored_item turn_id (joined_item segment turn_id (TurnRow.first_user_item_id row)) in
  let? final_agent :=
    into_stored_item turn_id (joined_item segment turn_id (TurnRow.final_agent_item_id row)) in
  Ok (snd <$> order_by Asc (first_user ++ final_agent)).

(** A selected row with its summary. *)
Definition decode_turn (items_view : StoredTurnItemsView) (segment : RolloutLineageSegment.t)
    (row : Z * (str * TurnRow.t)) : result ThreadStoreError StoredTurnRow.t :=
  let? summary_items :=
    match items_view with
    | Summary => into_stored_items segment row.2.1 row.2.2
    | NotLoaded => Ok []
    end in
  stored_turn_row row summary_items.

Definition query_turns (direction : SortDirection) (items_view : StoredTurnItemsView)
    (segment_index : nat) (segment : RolloutLineageSegment.t)
    (segment_cursor : option HistoryCursor.t) (limit : Z)
    : result ThreadStoreError (list StoredTurnRow.t) :=
  let? _ := bind_range segment in
  let? _ := bind_ranges (drop (S segment_index) lineage) in
  let? _ := bind_cursor segment_cursor in
  collect (decode_turn items_view segment)
    (take (Z.to_nat limit)
       (order_by direction
          (filter (λ row, beyond direction segment_cursor row.1 = true)
             (turn_rows segment_index segment)))).

Definition page_turn_rows (requested_thread_id : ThreadId) (cursor : option str) (page_size : Z)
    (direction : SortDirection) (items_view : StoredTurnItemsView)
    : result ThreadStoreError (SegmentPage.t StoredTurnRow.t) :=
  let? cursor := parse_cursor cursor requested_thread_id Turns in
  let? segments := segments_from_cursor lineage direction cursor in
  let? rows := page_loop (query_turns direction items_view) page_size segments [] in
  finish_page requested_thread_id Turns rows page_size.

(** ** Items *)
Definition stored_thread_item_row (row : Z * (str * str * ItemRow.t))
    : result ThreadStoreError StoredThreadItemRow.t :=
  let '(position, (turn_id, item_id, row)) := row in
  if position <? 0
  then Err (Internal (lit "invalid stored item rollout ordinal: " ++ negative_text position))
  else
    let? item := stored_thread_item turn_id item_id row in
    Ok (StoredThreadItemRow.mk _ position item).

(** The filters of [ListItemsParams]. *)
Definition wanted_item (turn_filter : option str) (after_updated_at_ordinal : option Z)
    (turn_id : str) (row : ItemRow.t) : bool :=
  match after_updated_at_ordinal with
  | Some after => after <? ItemRow.updated_at_ordinal row
  | None => true
  end
  && match turn_filter with Some t => turn_id ==s t | None => true end.

Definition item_rows (turn_filter : option str) (after_updated_at_ordinal : option Z)
    (segment : RolloutLineageSegment.t) : list (Z * (str * str * ItemRow.t)) :=
  omap (λ kv : str * str * str * ItemRow.t,
          let '(thread, turn_id, item_id, row) := kv in
          if (thread ==s tid segment)
             && contains_ordinal (ItemRow.rollout_ordinal row) segment
             && wanted_item turn_filter after_updated_at_ordinal turn_id row
          then Some (ItemRow.rollout_ordinal row, (turn_id, item_id, row)) else None)
    (map_to_list (thread_items db)).

Definition bind_after (after_updated_at_ordinal : option Z) : result ThreadStoreError unit :=
  match after_updated_at_ordinal with
  | Some after => let? _ := page_integer after in Ok tt
  | None => Ok tt
  end.

Definition query_items (direction : SortDirection) (turn_filter : option str)
    (after_updated_at_ordinal : option Z) (segment_index : nat)
    (segment : RolloutLineageSegment.t) (segment_cursor : option HistoryCursor.t) (limit : Z)
    : result ThreadStoreError (list StoredThreadItemRow.t) :=
  let? _ := bind_range segment in
  let? _ := bind_after after_updated_at_ordinal in
  let? _ := bind_cursor segment_cursor in
  collect stored_thread_item_row
    (take (Z.to_nat limit)
       (order_by direction
          (filter (λ row, beyond direction segment_cursor row.1 = true)
             (item_rows turn_filter after_updated_at_ordinal segment)))).
End queries.

Module ListItemsParams.
Record t : Type := mk {
  thread_id : ThreadId;
  turn_id : option str;
  include_archived : bool;
  cursor : option str;
  page_size : Z;
  sort_direction : SortDirection;
  sort_key : ItemSortKey;
  after_updated_at_ordinal : option Z;
}.
End ListItemsParams.

Module ListTurnsParams.
Record t : Type := mk {
  thread_id : ThreadId;
  include_archived : bool;
  cursor : option str;
  page_size : Z;
  sort_direction : SortDirection;
  items_view : StoredTurnItemsView;
}.
End ListTurnsParams.

Section items.
Context `{CursorJson, RolloutJson}.
Variable db : HistoryDb.

(** Items by the ordinal of their last update; the row's position is that ordinal. *)
Definition updated_item_rows (thread_id : ThreadId) (turn_filter : option str) (after : Z)
    : list (Z * (str * str * ItemRow.t)) :=
  omap (λ kv : str * str * str * ItemRow.t,
          let '(thread, turn_id, item_id, row) := kv in
          if (thread ==s thread_id_to_string thread_id)
             && wanted_item turn_filter (Some after) turn_id row
          then Some (ItemRow.updated_at_ordinal row, (turn_id, item_id, row)) else None)
    (map_to_list (thread_items db)).

Definition page_updated_item_rows (params : ListItemsParams.t) (after_updated_at_ordinal : Z)
    : result ThreadStoreError (SegmentPage.t StoredThreadItemRow.t) :=
  let? cursor := parse_cursor (ListItemsParams.cursor params) (ListItemsParams.thread_id params)
                   ItemsByUpdatedAtOrdinal in
  let? _ := page_integer after_updated_at_ordinal in
  let? _ := bind_cursor cursor in
  let? limit := remaining_limit (ListItemsParams.page_size params) 0 in
  let direction := ListItemsParams.sort_direction params in
  let? rows :=
    collect stored_thread_item_row
      (take (Z.to_nat limit)
         (order_by direction
            (filter (λ row, beyond direction cursor row.1 = true)
               (updated_item_rows (ListItemsParams.thread_id params)
                  (ListItemsParams.turn_id params) after_updated_at_ordinal)))) in
  finish_page (ListItemsParams.thread_id params) ItemsByUpdatedAtOrdinal rows
    (ListItemsParams.page_size params).

Definition page_item_rows (lineage : RolloutLineage) (params : ListItemsParams.t)
    : result ThreadStoreError (SegmentPage.t StoredThreadItemRow.t) :=
  if match ListItemsParams.after_updated_at_ordinal params with Some _ => true | None => false end
     && (1 <? length lineage)%nat
  then Err (InvalidRequest
              (lit "incremental item replay is not supported for forked threads"))
  else
    match ListItemsParams.sort_key params with
    | UpdatedAtOrdinal =>
        match ListItemsParams.after_updated_at_ordinal params with
        | None => Err (InvalidRequest
                         (lit "update-ordinal item sorting requires an update watermark"))
        | Some after_updated_at_ordinal => page_updated_item_rows params after_updated_at_ordinal
        end
    | CreatedAtOrdinal =>
        let? cursor :=
          parse_cursor (ListItemsParams.cursor params) (ListItemsParams.thread_id params)
            ItemsByCreatedAtOrdinal in
        let? segments :=
          segments_from_cursor lineage (ListItemsParams.sort_direction params) cursor in
        let? rows :=
          page_loop (query_items db (ListItemsParams.sort_direction params)
                       (ListItemsParams.turn_id params)
                       (ListItemsParams.after_updated_at_ordinal params))
            (ListItemsParams.page_size params) segments [] in
        finish_page (ListItemsParams.thread_id params) ItemsByCreatedAtOrdinal rows
          (ListItemsParams.page_size params)
    end.
End items.

(** ** Lookups: [turn_lookup.rs] *)
Section lookup.
Context `{CursorJson, RolloutJson}.
Variable db : HistoryDb.

Definition query_turn_row (segment : RolloutLineageSegment.t) (turn_id : str)
    : result ThreadStoreError (option (ThreadId * TurnRow.t)) :=
  let? _ :=
    match RolloutLineageSegment.end_ordinal segment with
    | Some end_ordinal =>
        let? _ := sqlite_integer end_ordinal (lit "rollout ordinal") in Ok tt
    | None => Ok tt
    end in
  let? _ := sqlite_integer (RolloutLineageSegment.start_ordinal segment) (lit "rollout ordinal") in
  Ok (match thread_turns db
              !! (thread_id_to_string (RolloutLineageSegment.thread_id segment), turn_id) with
      | Some row =>
          if contains_ordinal (TurnRow.rollout_ordinal row) segment
          then Some (RolloutLineageSegment.thread_id segment, row) else None
      | None => None
      end).

Fixpoint find_turn (segments : list RolloutLineageSegment.t) (turn_id : str)
    : result ThreadStoreError (ThreadId * TurnRow.t) :=
  match segments with
  | [] => Err (InvalidRequest (lit "turn not found: " ++ turn_id))
  | segment :: segments' =>
      let? row := query_turn_row segment turn_id in
      match row with
      | Some row => Ok row
      | None => find_turn segments' turn_id
      end
  end.

Definition find_source_turn (lineage : RolloutLineage) (turn_id : str)
    : result ThreadStoreError (ThreadId * TurnRow.t) := find_turn lineage turn_id.
Definition find_visible_turn (lineage : RolloutLineage) (turn_id : str)
    : result ThreadStoreError (ThreadId * TurnRow.t) := find_turn (rev lineage) turn_id.

(** The summary of a turn that a fork cut short, from the thread it came from. *)
Definition load_inherited_summary_items (lineage : RolloutLineage) (turn : StoredTurnRow.t)
    : result ThreadStoreError (list StoredThreadItem.t) :=
  let? source := find_source_turn lineage (StoredTurnRow.turn_id turn) in
  match list_find (λ s, RolloutLineageSegment.thread_id s = source.1) lineage with
  | None => Ok []
  | Some (_, segment) =>
      let? _ :=
        sqlite_integer (RolloutLineageSegment.start_ordinal segment) (lit "rollout ordinal") in
      let? _ :=
        match RolloutLineageSegment.end_ordinal segment with
        | Some end_ordinal =>
            let? _ := sqlite_integer end_ordinal (lit "rollout ordinal") in Ok tt
        | None => Ok tt
        end in
      let wanted item_id :=
        bool_decide (TurnRow.first_user_item_id source.2 = Some item_id)
        || bool_decide (TurnRow.final_agent_item_id source.2 = Some item_id) in
      let rows :=
        omap (λ kv : str * str * str * ItemRow.t,
                let '(thread, turn_id, item_id, row) := kv in
                if (thread ==s thread_id_to_string source.1)
                   && (turn_id ==s StoredTurnRow.turn_id turn)
                   && contains_ordinal (ItemRow.rollout_ordinal row) segment && wanted item_id
                then Some (ItemRow.rollout_ordinal row, (turn_id, item_id, row)) else None)
          (map_to_list (thread_items db)) in
      collect (λ row : Z * (str * str * ItemRow.t),
                 let '(_, (turn_id, item_id, row)) := row in stored_thread_item turn_id item_id row)
        (order_by Asc rows)
  end.
End lookup.

(** ** The listings *)
Module StoredTurn.
Record t `{WireTypes} : Type := mk {
  turn_id : str;
  items : list StoredThreadItem.t;
  items_view : StoredTurnItemsView;
  status : TurnStatus.t;
  error : option TurnError.t;
  started_at : option Z;
  completed_at : option Z;
  duration_ms : option Z;
}.
End StoredTurn.

(** What [validate_thread_for_paginated_reads] reads of a thread's metadata. *)
Record ThreadMetadata : Type := mkThreadMetadata {
  archived_at : option Z;
  metadata_history_mode : ThreadHistoryMode.t;
}.

Section listings.
Context `{CursorJson, RolloutJson}.
Variable db : HistoryDb.
Variable rollouts : gmap ThreadId (str * list N).
(** The state database, when there is one. *)
Variable state_db : option (gmap ThreadId ThreadMetadata).

Definition validate_thread_for_paginated_reads (thread_id : ThreadId) (include_archived : bool)
    (operation : str) : result ThreadStoreError unit :=
  match state_db with
  | None => Err (Unsupported operation)
  | Some threads =>
      match threads !! thread_id with
      | None => Err (Unsupported operation)
      | Some metadata =>
          if match archived_at metadata with Some _ => true | None => false end
             && negb include_archived
          then Err (InvalidRequest
                      (lit "thread " ++ thread_id_to_string thread_id ++ lit " is archived"))
          else
            match metadata_history_mode metadata with
            | ThreadHistoryMode.Legacy => Err (Unsupported operation)
            | ThreadHistoryMode.Paginated => Ok tt
            end
      end
  end.

(** The items shown with a turn. *)
Definition listed_items (lineage : RolloutLineage) (items_view : StoredTurnItemsView)
    (turn : StoredTurnRow.t) : result ThreadStoreError (list StoredThreadItem.t) :=
  match items_view with
  | NotLoaded => Ok []
  | Summary =>
      match StoredTurnRow.status turn, StoredTurnRow.first_user_item_id turn,
            StoredTurnRow.final_agent_item_id turn with
      | TurnStatus.Interrupted, None, None => load_inherited_summary_items db lineage turn
      | _, _, _ => Ok (StoredTurnRow.summary_items turn)
      end
  end.

Definition list_turns (params : ListTurnsParams.t)
    : option (result ThreadStoreError (SegmentPage.t StoredTurn.t)) :=
  match (let? _ := validate_thread_for_paginated_reads (ListTurnsParams.thread_id params)
                     (ListTurnsParams.include_archived params) (lit "list_turns") in
         validate_page_size (ListTurnsParams.page_size params)) with
  | Err e => Some (Err e)
  | Ok _ =>
      (λ resolved,
         let? lineage := resolved in
         let? page :=
           page_turn_rows db lineage (ListTurnsParams.thread_id params)
             (ListTurnsParams.cursor params) (ListTurnsParams.page_size params)
             (ListTurnsParams.sort_direction params) (ListTurnsParams.items_view params) in
         let? turns :=
           collect (λ turn,
             let? items := listed_items lineage (ListTurnsParams.items_view params) turn in
             Ok (StoredTurn.mk _ (StoredTurnRow.turn_id turn) items
                   (ListTurnsParams.items_view params) (StoredTurnRow.status turn)
                   (StoredTurnRow.error turn) (StoredTurnRow.started_at turn)
                   (StoredTurnRow.completed_at turn) (StoredTurnRow.duration_ms turn)))
             (SegmentPage.rows page) in
         Ok (SegmentPage.mk turns (SegmentPage.next_cursor page)
               (SegmentPage.backwards_cursor page)))
      <$> resolve_rollout_lineage rollouts (ListTurnsParams.thread_id params)
  end.

Definition list_items (params : ListItemsParams.t)
    : option (result ThreadStoreError (SegmentPage.t StoredThreadItem.t)) :=
  match (let? _ := validate_thread_for_paginated_reads (ListItemsParams.thread_id params)
                     (ListItemsParams.include_archived params) (lit "list_items") in
         validate_page_size (ListItemsParams.page_size params)) with
  | Err e => Some (Err e)
  | Ok _ =>
      (λ resolved,
         let? lineage := resolved in
         let? page := page_item_rows db lineage params in
         Ok (SegmentPage.mk (StoredThreadItemRow.item <$> SegmentPage.rows page)
               (SegmentPage.next_cursor page) (SegmentPage.backwards_cursor page)))
      <$> resolve_rollout_lineage rollouts (ListItemsParams.thread_id params)
  end.
End listings.
