(* ===== verification/HistoryPagingFacts.v ===== *)
(** * Facts on pages

    Pages over the segments of a lineage, for any query: a page at a cursor is the part
    of the whole listing behind the cursor, so following the cursors enumerates the
    listing. *)

From Stdlib Require Import String ZArith NArith Lia Sorted.
From stdpp Require Import base option list numbers gmap sorting.
From S2P Require Import Prelude StrBytes Models ThreadItems ItemBuilders ThreadHistory.
From S2P Require Import HistoryProjection HistoryStore RolloutLineage HistoryPaging.

Local Open Scope Z_scope.

(** [a] comes before [b] in the direction. *)
Definition strictly (direction : SortDirection) (a b : Z) : Prop :=
  match direction with Asc => a < b | Desc => b < a end.
Definition strictly_index (direction : SortDirection) (i j : nat) : Prop :=
  match direction with Asc => (i < j)%nat | Desc => (j < i)%nat end.

(** Reading pages until there is no next cursor; [None] is the end of the fuel. *)
Fixpoint follow_pages {A} (fetch : option str → result ThreadStoreError (SegmentPage.t A))
    (fuel : nat) (cursor : option str) : option (result ThreadStoreError (list (list A))) :=
  match fuel with
  | O => None
  | S fuel' =>
      match fetch cursor with
      | Err e => Some (Err e)
      | Ok page =>
          match SegmentPage.next_cursor page with
          | None => Some (Ok [SegmentPage.rows page])
          | Some next =>
              (λ rest, let? pages := rest in Ok (SegmentPage.rows page :: pages))
              <$> follow_pages fetch fuel' (Some next)
          end
      end
  end.

(** The segments of a lineage in the order of a direction. *)
Definition in_direction (direction : SortDirection) (n : nat) : list nat :=
  match direction with Asc => seq 0 n | Desc => rev (seq 0 n) end.
Definition from_index (direction : SortDirection) (n k : nat) : list nat :=
  match direction with Asc => seq k (n - k) | Desc => rev (seq 0 (S k)) end.

Lemma in_direction_split direction n k :
  (k < n)%nat →
  ∃ pre post, in_direction direction n = pre ++ k :: post
    ∧ from_index direction n k = k :: post
    ∧ (∀ i, i ∈ pre → (i < n)%nat ∧ strictly_index direction i k)
    ∧ (∀ i, i ∈ post → (i < n)%nat ∧ strictly_index direction k i).
Proof.
  intros Hk. assert (Hn : n = (k + S (n - S k))%nat) by lia.
  assert (Hseq : seq 0 n = seq 0 k ++ k :: seq (S k) (n - S k)).
  { rewrite Hn at 1. rewrite seq_app. done. }
  destruct direction; cbn [in_direction from_index strictly_index].
  - exists (seq 0 k), (seq (S k) (n - S k)). split_and!; [done| |..].
    + by replace (n - k)%nat with (S (n - S k)) by lia.
    + intros i Hi%elem_of_seq. lia.
    + intros i Hi%elem_of_seq. lia.
  - exists (rev (seq (S k) (n - S k))), (rev (seq 0 k)). split_and!.
    + rewrite Hseq, rev_app_distr. cbn. by rewrite <- (assoc_L (++)).
    + by rewrite seq_S, rev_app_distr.
    + intros i Hi%list_elem_of_In%in_rev%list_elem_of_In%elem_of_seq. lia.
    + intros i Hi%list_elem_of_In%in_rev%list_elem_of_In%elem_of_seq. lia.
Qed.

Lemma in_direction_lt direction n i : i ∈ in_direction direction n → (i < n)%nat.
Proof.
  destruct direction; cbn; [intros Hi%elem_of_seq; lia|].
  intros Hi%list_elem_of_In%in_rev%list_elem_of_In%elem_of_seq. lia.
Qed.

Lemma in_direction_sorted direction n :
  StronglySorted (strictly_index direction) (in_direction direction n).
Proof.
  destruct direction; cbn [in_direction strictly_index].
  - generalize 0%nat. induction n as [|n IH]; intros a; cbn; [constructor|].
    constructor; [apply IH|]. apply list.Forall_forall. intros i Hi%elem_of_seq. cbn. lia.
  - induction n as [|n IH]; [constructor|]. rewrite seq_S, rev_app_distr. cbn.
    constructor; [exact IH|]. apply list.Forall_forall.
    intros i Hi%list_elem_of_In%in_rev%list_elem_of_In%elem_of_seq. cbn. lia.
Qed.

Lemma in_direction_elem direction n i : (i < n)%nat → i ∈ in_direction direction n.
Proof.
  intros Hi. destruct direction; cbn; [apply elem_of_seq; lia|].
  apply list_elem_of_In, in_rev. rewrite rev_involutive. apply list_elem_of_In, elem_of_seq. lia.
Qed.

Lemma beyond_iff direction c x :
  beyond direction (Some c) x = true
  ↔ strictly direction (HistoryCursor.rollout_ordinal c) x
    ∨ (HistoryCursor.include_anchor c = true ∧ x = HistoryCursor.rollout_ordinal c).
Proof.
  unfold beyond, strictly. destruct direction, (HistoryCursor.include_anchor c);
    rewrite ?Z.leb_le, ?Z.ltb_lt; split; try lia;
    (intros [|[]]; [lia|first [lia|done]]).
Qed.

Lemma strictly_irrefl direction a : ¬ strictly direction a a.
Proof. destruct direction; cbn; lia. Qed.
Lemma strictly_asymm direction a b : strictly direction a b → ¬ strictly direction b a.
Proof. destruct direction; cbn; lia. Qed.
Lemma strictly_index_irrefl direction i : ¬ strictly_index direction i i.
Proof. destruct direction; cbn; lia. Qed.

Lemma filter_all_true {A} (f : A → bool) l :
  Forall (λ x, f x = true) l → filter (λ x, f x = true) l = l.
Proof. induction 1; [done|]. rewrite filter_cons_True by done. by f_equal. Qed.

Lemma filter_all_false {A} (f : A → bool) l :
  Forall (λ x, f x = false) l → filter (λ x, f x = true) l = [].
Proof. induction 1; [done|]. rewrite filter_cons_False by congruence. done. Qed.

Section paging.
Context {A : Type} `{!HasPosition A} `{!CursorJson}.
Variable lineage : RolloutLineage.
Variable direction : SortDirection.
Variable seg_rows : nat → RolloutLineageSegment.t → list A.
Variable query : nat → RolloutLineageSegment.t → option HistoryCursor.t → Z →
  result ThreadStoreError (list A).

(** The segments follow each other, and so do the rows of a segment. *)
Hypothesis segments_ordered : ∀ i j s t a b,
  lineage !! i = Some s → lineage !! j = Some t → (i < j)%nat →
  contains_ordinal a s = true → contains_ordinal b t = true → a < b.
Hypothesis rows_ordered : ∀ i s, lineage !! i = Some s →
  StronglySorted (λ x y, strictly direction (position_of x) (position_of y)) (seg_rows i s).
Hypothesis rows_inside : ∀ i s x, lineage !! i = Some s → x ∈ seg_rows i s →
  contains_ordinal (position_of x) s = true ∧ 0 ≤ position_of x ≤ I64_MAX.
Hypothesis query_rows : ∀ i s cursor limit, lineage !! i = Some s →
  (∀ c, cursor = Some c → HistoryCursor.rollout_ordinal c ≤ I64_MAX) →
  query i s cursor limit
  = Ok (take (Z.to_nat limit)
          (filter (λ x, beyond direction cursor (position_of x) = true) (seg_rows i s))).

Definition rows_at (i : nat) : list A :=
  match lineage !! i with Some s => seg_rows i s | None => [] end.

(** Everything there is to list. *)
Definition listing : list A := mjoin (rows_at <$> in_direction direction (length lineage)).

Lemma rows_at_elem i x : x ∈ rows_at i → ∃ s, lineage !! i = Some s ∧ x ∈ seg_rows i s.
Proof. unfold rows_at. destruct (lineage !! i) as [s|] eqn:E; [eauto|]. by intros ?%elem_of_nil. Qed.

Lemma rows_across i j x y :
  strictly_index direction i j → x ∈ rows_at i → y ∈ rows_at j →
  strictly direction (position_of x) (position_of y).
Proof.
  intros Hij (s & Hs & Hx)%rows_at_elem (t & Ht & Hy)%rows_at_elem.
  destruct (rows_inside _ _ _ Hs Hx) as [Hxs _], (rows_inside _ _ _ Ht Hy) as [Hyt _].
  clear rows_ordered query_rows.
  destruct direction; cbn in *; [exact (segments_ordered i j _ _ _ _ Hs Ht Hij Hxs Hyt)|].
  exact (segments_ordered j i _ _ _ _ Ht Hs Hij Hyt Hxs).
Qed.

Lemma listing_elem x : x ∈ listing ↔ ∃ i, x ∈ rows_at i.
Proof.
  unfold listing. rewrite list_elem_of_join. split.
  - intros (l & Hx & (i & -> & Hi)%list_elem_of_fmap). eauto.
  - intros (i & Hx). exists (rows_at i). split; [done|]. apply list_elem_of_fmap. exists i.
    split; [done|]. apply rows_at_elem in Hx as (s & Hs & _). apply lookup_lt_Some in Hs.
    by apply in_direction_elem.
Qed.

Lemma listing_inside x : x ∈ listing → 0 ≤ position_of x ≤ I64_MAX.
Proof.
  intros (i & (s & Hs & Hx)%rows_at_elem)%listing_elem. by destruct (rows_inside _ _ _ Hs Hx).
Qed.

Lemma listing_sorted :
  StronglySorted (λ x y, strictly direction (position_of x) (position_of y)) listing.
Proof.
  unfold listing. pose proof (in_direction_sorted direction (length lineage)) as Hidx.
  induction Hidx as [|i idx _ IH Hi]; cbn [fmap list_fmap mjoin list_join]; [constructor|].
  apply StronglySorted_app. split_and!; [|..|exact IH].
  - intros x y Hx (l & Hy & (j & -> & Hj)%list_elem_of_fmap)%list_elem_of_join.
    rewrite list.Forall_forall in Hi. exact (rows_across _ _ _ _ (Hi j Hj) Hx Hy).
  - unfold rows_at. destruct (lineage !! i) as [s|] eqn:E; [by apply rows_ordered|constructor].
Qed.

(** ** A page at a cursor *)
Definition cursor_known (cursor : option HistoryCursor.t) : Prop :=
  ∀ c, cursor = Some c → ∃ x, x ∈ listing ∧ HistoryCursor.rollout_ordinal c = position_of x.

Definition piece (seg : nat * RolloutLineageSegment.t * option HistoryCursor.t) : list A :=
  filter (λ x, beyond direction seg.2 (position_of x) = true) (seg_rows seg.1.1 seg.1.2).

Lemma remaining_limit_Ok page_size count :
  0 ≤ page_size → page_size + 1 ≤ I64_MAX → 0 ≤ count ≤ page_size + 1 →
  remaining_limit page_size count = Ok (page_size + 1 - count).
Proof.
  intros Hp Hmax Hc. unfold remaining_limit, usize_checked_add, i64_try_from.
  rewrite (proj2 (Z.leb_le (page_size + 1) USIZE_MAX)) by (unfold I64_MAX, USIZE_MAX in *; lia).
  rewrite (proj2 (Z.ltb_ge _ _)) by lia. by rewrite (proj2 (Z.leb_le _ _)) by lia.
Qed.

Lemma page_loop_rows page_size segs rows :
  0 ≤ page_size → page_size + 1 ≤ I64_MAX → Z.of_nat (length rows) ≤ page_size + 1 →
  Forall (λ seg : nat * RolloutLineageSegment.t * option HistoryCursor.t,
            lineage !! seg.1.1 = Some seg.1.2
            ∧ ∀ c, seg.2 = Some c → HistoryCursor.rollout_ordinal c ≤ I64_MAX) segs →
  page_loop query page_size segs rows
  = Ok (take (Z.to_nat (page_size + 1)) (rows ++ mjoin (piece <$> segs))).
Proof.
  intros Hp Hmax Hlen Hsegs. revert rows Hlen.
  induction Hsegs as [|[[i s] c] segs [Hs Hc] _ IH]; intros rows Hlen; cbn [page_loop].
  { cbn. rewrite app_nil_r, take_ge by lia. done. }
  rewrite remaining_limit_Ok by lia. cbn [rbind].
  destruct (Z.eqb_spec (page_size + 1 - Z.of_nat (length rows)) 0) as [Heq|Hne].
  { rewrite take_app_ge by lia. rewrite (proj2 (Nat.sub_0_le _ _)) by lia. cbn.
    by rewrite app_nil_r. }
  cbn [fst snd] in *. rewrite query_rows by done. cbn [rbind]. fold (piece (i, s, c)).
  rewrite IH; [|rewrite length_app, length_take; lia]. f_equal.
  cbn [fmap list_fmap mjoin list_join]. rewrite <- (assoc_L (++)).
  rewrite !(take_app_ge rows) by lia. f_equal.
  replace (Z.to_nat (page_size + 1 - Z.of_nat (length rows)))
    with (Z.to_nat (page_size + 1) - length rows)%nat by lia.
  rewrite !take_app, take_take, Nat.min_id, length_take. f_equal.
  f_equal. unfold piece. cbn [fst snd]. lia.
Qed.

(** The entries of [segments_from_cursor] for some indexes. *)
Lemma entries_rows (k : option nat) cursor idx :
  (∀ i, i ∈ idx → (i < length lineage)%nat) →
  let segs := omap (λ index,
        (λ segment, (index, segment, if bool_decide (Some index = k) then cursor else None))
        <$> lineage !! index) idx in
  Forall (λ seg, lineage !! seg.1.1 = Some seg.1.2 ∧ (seg.2 = cursor ∨ seg.2 = None)) segs
  ∧ mjoin (piece <$> segs)
    = mjoin ((λ i, filter (λ x, beyond direction (if bool_decide (Some i = k) then cursor else None)
                                  (position_of x) = true) (rows_at i)) <$> idx).
Proof.
  induction idx as [|i idx IH]; intros Hidx segs; [done|]. subst segs.
  destruct (lookup_lt_is_Some_2 lineage i) as [s Hs]; [apply Hidx; by left|].
  cbn [omap list_omap]. rewrite Hs. cbn [fmap option_fmap option_map list_fmap mjoin list_join].
  destruct IH as [IH1 IH2]; [intros j Hj; apply Hidx; by right|]. split.
  - constructor; [|exact IH1]. split; [done|]. cbn. destruct (bool_decide _); auto.
  - etransitivity; [exact (f_equal (app _) IH2)|]. f_equal. unfold piece, rows_at. by rewrite Hs.
Qed.

(** From a segment that contains the position of the cursor. *)
Lemma from_index_rows k s c :
  lineage !! k = Some s → contains_ordinal (HistoryCursor.rollout_ordinal c) s = true →
  mjoin ((λ i, filter (λ x, beyond direction (if bool_decide (Some i = Some k) then Some c else None)
                              (position_of x) = true) (rows_at i))
         <$> from_index direction (length lineage) k)
  = filter (λ x, beyond direction (Some c) (position_of x) = true) listing.
Proof.
  intros Hk Hc. pose proof (lookup_lt_Some _ _ _ Hk) as Hlt.
  assert (Hacross : ∀ i x, (i < length lineage)%nat → x ∈ rows_at i →
    (strictly_index direction i k → strictly direction (position_of x) (HistoryCursor.rollout_ordinal c))
    ∧ (strictly_index direction k i → strictly direction (HistoryCursor.rollout_ordinal c) (position_of x))).
  { intros i x Hi (t & Ht & Hx)%rows_at_elem. destruct (rows_inside _ _ _ Ht Hx) as [Hin _].
    clear rows_ordered query_rows. destruct direction; cbn; split; intros Hik;
      first [exact (segments_ordered i k _ _ _ _ Ht Hk Hik Hin Hc)
            |exact (segments_ordered k i _ _ _ _ Hk Ht Hik Hc Hin)]. }
  destruct (in_direction_split direction _ _ Hlt) as (pre & post & Hall & -> & Hpre & Hpost).
  unfold listing. rewrite Hall, fmap_app, join_app, filter_app.
  rewrite (filter_all_false (λ x, beyond direction (Some c) (position_of x)) (mjoin _)).
  2:{ apply list.Forall_forall. intros x (l & Hx & (i & -> & Hi)%list_elem_of_fmap)%list_elem_of_join.
      destruct (Hpre i Hi) as [Hin Hik]. destruct (Hacross i x Hin Hx) as [Hbefore _].
      apply not_true_iff_false. rewrite beyond_iff. intros [Hs|[_ Heq]].
      - exact (strictly_asymm _ _ _ (Hbefore Hik) Hs).
      - apply (strictly_irrefl direction (position_of x)). rewrite Heq at 2. by apply Hbefore. }
  cbn [fmap list_fmap mjoin list_join app]. rewrite filter_app, bool_decide_true by done. f_equal.
  rewrite (filter_all_true (λ x, beyond direction (Some c) (position_of x)) (mjoin _)).
  2:{ apply list.Forall_forall. intros x (l & Hx & (i & -> & Hi)%list_elem_of_fmap)%list_elem_of_join.
      destruct (Hpost i Hi) as [Hin Hik]. destruct (Hacross i x Hin Hx) as [_ Hafter].
      apply beyond_iff. left. by apply Hafter. }
  f_equal. apply list_fmap_ext. intros j i Hi%list_elem_of_lookup_2. destruct (Hpost i Hi) as [_ Hik].
  rewrite bool_decide_false; [by apply filter_all_true, list.Forall_forall|].
  intros [= ->]. exact (strictly_index_irrefl _ _ Hik).
Qed.

Lemma position_Some {B} (f : B → bool) l k :
  position f l = Some k → ∃ x, l !! k = Some x ∧ f x = true.
Proof.
  revert k. induction l as [|x l IH]; intros k; cbn; [done|]. destruct (f x) eqn:E.
  - intros [= <-]. by exists x.
  - intros (k' & Hk & ->)%fmap_Some. exact (IH _ Hk).
Qed.

Lemma position_exists {B} (f : B → bool) l i x :
  l !! i = Some x → f x = true → ∃ k, position f l = Some k.
Proof.
  revert i. induction l as [|y l IH]; intros i; cbn; [done|]. destruct (f y) eqn:E; [eauto|].
  destruct i as [|i]; cbn; [congruence|]. intros Hi Hf. destruct (IH i Hi Hf) as [k ->]. eauto.
Qed.

(** The segments for a cursor hold what lies behind it. *)
Lemma segments_from_cursor_rows cursor :
  lineage ≠ [] → cursor_known cursor →
  ∃ segs, segments_from_cursor lineage direction cursor = Ok segs
    ∧ Forall (λ seg : nat * RolloutLineageSegment.t * option HistoryCursor.t,
                lineage !! seg.1.1 = Some seg.1.2
                ∧ ∀ c, seg.2 = Some c → HistoryCursor.rollout_ordinal c ≤ I64_MAX) segs
    ∧ mjoin (piece <$> segs)
      = filter (λ x, beyond direction cursor (position_of x) = true) listing.
Proof.
  intros Hne Hknown. assert (Hpos : (0 < length lineage)%nat) by (by (apply Nat.neq_0_lt_0; rewrite length_zero_iff_nil)).
  assert (Hfits : ∀ segs, Forall (λ seg : nat * RolloutLineageSegment.t * option HistoryCursor.t,
      lineage !! seg.1.1 = Some seg.1.2 ∧ (seg.2 = cursor ∨ seg.2 = None)) segs →
    Forall (λ seg, lineage !! seg.1.1 = Some seg.1.2
      ∧ ∀ c, seg.2 = Some c → HistoryCursor.rollout_ordinal c ≤ I64_MAX) segs).
  { intros segs Hsegs. eapply Forall_impl; [exact Hsegs|]. intros seg [Hseg Hcur]. split; [done|].
    intros c Hc. destruct Hcur as [Hcur|Hcur]; [|congruence].
    destruct (Hknown c) as (x & Hx & ->); [congruence|]. apply listing_inside in Hx. lia. }
  unfold segments_from_cursor. destruct cursor as [c|]; cbn [rbind].
  - destruct (Hknown c eq_refl) as (x & Hx & Hcx).
    apply listing_elem in Hx as (i & (s & Hs & Hx)%rows_at_elem).
    destruct (rows_inside _ _ _ Hs Hx) as [Hin _]. rewrite <- Hcx in Hin.
    destruct (position_exists _ _ _ _ Hs Hin) as [k Hk]. unfold segment_index_for_ordinal.
    rewrite Hk. cbn [rbind default from_option id].
    destruct (position_Some _ _ _ Hk) as (t & Ht & Hct). pose proof (lookup_lt_Some _ _ _ Ht).
    change (match direction with Asc => seq k (length lineage - k) | Desc => rev (seq 0 (S k)) end)
      with (from_index direction (length lineage) k).
    destruct (entries_rows (Some k) (Some c) (from_index direction (length lineage) k)) as [H1 H2].
    { destruct (in_direction_split direction _ _ (lookup_lt_Some _ _ _ Ht))
        as (pre & post & _ & -> & _ & Hpost).
      intros j [->|Hj]%elem_of_cons; [done|by apply Hpost]. }
    eexists. split; [reflexivity|]. split; [by apply Hfits|]. rewrite H2.
    by eapply from_index_rows.
  - cbn [default from_option id].
    assert ((match direction with Asc => seq 0 (length lineage - 0)
             | Desc => rev (seq 0 (S (length lineage - 1))) end) = in_direction direction (length lineage))
      as ->.
    { clear rows_ordered query_rows. destruct direction; cbn [in_direction]; [by rewrite Nat.sub_0_r|].
      by replace (S (length lineage - 1)) with (length lineage) by lia. }
    destruct (entries_rows None None (in_direction direction (length lineage))) as [H1 H2];
      [apply in_direction_lt|].
    eexists. split; [reflexivity|]. split; [by apply Hfits|]. rewrite H2.
    rewrite (filter_all_true (λ x, beyond direction None (position_of x)) listing)
      by (by apply list.Forall_forall).
    unfold listing. f_equal. apply list_fmap_ext. intros j i _.
    apply (filter_all_true (λ x, beyond direction None (position_of x))). by apply list.Forall_forall.
Qed.

(** The page a list request returns. *)
Definition fetch (requested : ThreadId) (scope : CursorScope) (page_size : Z)
    (cursor : option str) : result ThreadStoreError (SegmentPage.t A) :=
  let? cursor := parse_cursor cursor requested scope in
  let? segments := segments_from_cursor lineage direction cursor in
  let? rows := page_loop query page_size segments [] in
  finish_page requested scope rows page_size.

Definition token (requested : ThreadId) (scope : CursorScope) (include_anchor : bool) (x : A) : str :=
  cursor_to_string (HistoryCursor.mk requested (position_of x) include_anchor scope).

Lemma finish_page_Ok requested scope page_size l :
  0 ≤ page_size → Forall (λ x, 0 ≤ position_of x) l →
  finish_page requested scope (take (Z.to_nat (page_size + 1)) l) page_size
  = Ok (SegmentPage.mk (take (Z.to_nat page_size) l)
          (if page_size <? Z.of_nat (length l)
           then token requested scope false <$> last (take (Z.to_nat page_size) l) else None)
          (token requested scope true <$> head (take (Z.to_nat page_size) l))).
Proof.
  intros Hp Hl. unfold finish_page.
  rewrite take_take. replace (Z.to_nat page_size `min` Z.to_nat (page_size + 1))%nat
    with (Z.to_nat page_size) by lia.
  rewrite length_take.
  replace (page_size <? Z.of_nat (Z.to_nat (page_size + 1) `min` length l))
    with (page_size <? Z.of_nat (length l)).
  2:{ destruct (Z.ltb_spec page_size (Z.of_nat (length l))); symmetry;
        [apply Z.ltb_lt|apply Z.ltb_ge]; lia. }
  assert (Hser : ∀ x anchor, x ∈ take (Z.to_nat page_size) l →
    serialize_cursor requested scope (position_of x) anchor = Ok (token requested scope anchor x)).
  { intros x anchor Hx%(subseteq_take (Z.to_nat page_size)). rewrite list.Forall_forall in Hl.
    unfold serialize_cursor. by rewrite (proj2 (Z.ltb_ge _ _)) by (apply Hl, Hx). }
  destruct (head (take _ l)) as [h|] eqn:Hh.
  - apply head_Some_elem_of in Hh. rewrite (Hser h) by done. cbn [rbind].
    destruct (page_size <? Z.of_nat (length l)); [|done].
    destruct (last (take _ l)) as [x|] eqn:Hx; [|done].
    apply last_Some_elem_of in Hx. rewrite (Hser x) by done. done.
  - apply head_None in Hh. rewrite Hh. cbn. by destruct (page_size <? Z.of_nat (length l)).
Qed.

Lemma fetch_rows requested scope page_size token_text cursor :
  lineage ≠ [] → 0 ≤ page_size → page_size + 1 ≤ I64_MAX →
  parse_cursor token_text requested scope = Ok cursor → cursor_known cursor →
  let l := filter (λ x, beyond direction cursor (position_of x) = true) listing in
  fetch requested scope page_size token_text
  = Ok (SegmentPage.mk (take (Z.to_nat page_size) l)
          (if page_size <? Z.of_nat (length l)
           then token requested scope false <$> last (take (Z.to_nat page_size) l) else None)
          (token requested scope true <$> head (take (Z.to_nat page_size) l))).
Proof.
  intros Hne Hp Hmax Hparse Hknown l. unfold fetch. rewrite Hparse. cbn [rbind].
  destruct (segments_from_cursor_rows cursor Hne Hknown) as (segs & -> & Hsegs & Hrows).
  cbn [rbind]. rewrite page_loop_rows by (done || (cbn; lia)). cbn [rbind app]. rewrite Hrows.
  apply finish_page_Ok; [done|]. apply list.Forall_forall. intros x [_ Hx]%list_elem_of_filter.
  apply listing_inside in Hx. lia.
Qed.

(** ** Following the cursors *)
Hypothesis cursor_roundtrip : ∀ c, cursor_from_str (cursor_to_string c) = Some c.

Lemma parse_token requested scope anchor x :
  parse_cursor (Some (token requested scope anchor x)) requested scope
  = Ok (Some (HistoryCursor.mk requested (position_of x) anchor scope)).
Proof.
  unfold parse_cursor, token. rewrite cursor_roundtrip. cbn.
  by rewrite N.eqb_refl, bool_decide_true by done.
Qed.

(** Behind a row of the listing. *)
Lemma beyond_row requested scope anchor l1 x l2 :
  listing = l1 ++ x :: l2 →
  filter (λ y, beyond direction (Some (HistoryCursor.mk requested (position_of x) anchor scope))
                 (position_of y) = true) listing
  = if anchor then x :: l2 else l2.
Proof.
  intros Heq. pose proof listing_sorted as Hsort. rewrite Heq in *.
  apply StronglySorted_app in Hsort as (H12 & _ & H2). apply StronglySorted_inv in H2 as [_ H2].
  set (c := HistoryCursor.mk requested (position_of x) anchor scope).
  rewrite filter_app, filter_cons.
  rewrite (filter_all_false (λ y, beyond direction (Some c) (position_of y)) l1).
  2:{ apply list.Forall_forall. intros y Hy. apply not_true_iff_false. rewrite beyond_iff. cbn.
      specialize (H12 y x Hy ltac:(by left)). intros [Hs|[_ Hs]].
      - exact (strictly_asymm _ _ _ H12 Hs).
      - rewrite Hs in H12. exact (strictly_irrefl _ _ H12). }
  rewrite (filter_all_true (λ y, beyond direction (Some c) (position_of y)) l2).
  2:{ eapply Forall_impl; [exact H2|]. intros y Hy. apply beyond_iff. by left. }
  cbn [app]. destruct anchor.
  - rewrite decide_True; [done|]. apply beyond_iff. by right.
  - rewrite decide_False; [done|]. rewrite beyond_iff. cbn.
    intros [Hs|[[=] _]]. exact (strictly_irrefl _ _ Hs).
Qed.

Lemma follow_pages_from requested scope page_size token_text cursor l fuel :
  lineage ≠ [] → 0 < page_size → page_size + 1 ≤ I64_MAX →
  parse_cursor token_text requested scope = Ok cursor → cursor_known cursor →
  filter (λ x, beyond direction cursor (position_of x) = true) listing = l →
  l `suffix_of` listing → (length l < fuel)%nat →
  ∃ pages, follow_pages (fetch requested scope page_size) fuel token_text = Some (Ok pages)
    ∧ mjoin pages = l ∧ Forall (λ p, Z.of_nat (length p) ≤ page_size) pages.
Proof.
  intros Hne Hp Hmax. revert token_text cursor l.
  induction fuel as [|fuel IH]; intros token_text cursor l Hparse Hknown Hl Hsuf Hfuel; [lia|].
  cbn [follow_pages]. rewrite (fetch_rows _ _ _ _ cursor) by (done || lia). rewrite Hl.
  cbn [SegmentPage.next_cursor SegmentPage.rows].
  destruct (Z.ltb_spec page_size (Z.of_nat (length l))) as [Hmore|Hlast].
  2:{ eexists. split; [reflexivity|]. rewrite take_ge by lia. cbn. rewrite app_nil_r.
      split; [done|]. by constructor; [lia|]. }
  destruct (last (take (Z.to_nat page_size) l)) as [x|] eqn:Hx.
  2:{ apply last_None, (f_equal length) in Hx. rewrite length_take in Hx. cbn in Hx. lia. }
  apply last_Some in Hx as [l1 Hx]. cbn [fmap option_fmap option_map].
  destruct Hsuf as [l0 Hsuf].
  assert (Hlist : listing = (l0 ++ l1) ++ x :: drop (Z.to_nat page_size) l).
  { rewrite Hsuf, <- (take_drop (Z.to_nat page_size) l) at 1. by rewrite Hx, <- !(assoc_L (++)). }
  destruct (IH (Some (token requested scope false x))
              (Some (HistoryCursor.mk requested (position_of x) false scope))
              (drop (Z.to_nat page_size) l)) as (pages & -> & Hpages & Hall).
  - apply parse_token.
  - intros c [= <-]. exists x. split; [|done]. rewrite Hlist. set_solver.
  - exact (beyond_row _ _ _ _ _ _ Hlist).
  - rewrite Hlist. exists ((l0 ++ l1) ++ [x]). by rewrite <- (assoc_L (++) (l0 ++ l1)).
  - rewrite length_drop. lia.
  - eexists. split; [reflexivity|]. split.
    + etransitivity; [exact (f_equal (app _) Hpages)|]. apply take_drop.
    + constructor; [rewrite length_take; lia|done].
Qed.

(** The cursors of the pages lead through the whole listing. *)
Lemma follow_pages_all requested scope page_size :
  lineage ≠ [] → 0 < page_size → page_size + 1 ≤ I64_MAX →
  ∃ pages, follow_pages (fetch requested scope page_size) (S (length listing)) None = Some (Ok pages)
    ∧ mjoin pages = listing ∧ Forall (λ p, Z.of_nat (length p) ≤ page_size) pages.
Proof.
  intros Hne Hp Hmax. eapply (follow_pages_from _ _ _ _ None); try done; [|lia].
  apply (filter_all_true (λ x, beyond direction None (position_of x))). by apply list.Forall_forall.
Qed.
End paging.
