(* ===== verification/HistoryListing.v ===== *)
(** * Listings of turns and items

    The queries of [segment_paging.rs] in the terms of the paging facts: following the
    cursors enumerates the visible rows, and the visible turns are the ones the lookup
    finds. *)

From Stdlib Require Import String ZArith NArith Lia Sorted.
From stdpp Require Import base option list numbers gmap sorting.
From S2P Require Import Prelude StrBytes Models ThreadItems ItemBuilders ThreadHistory.
From S2P Require Import HistoryProjection HistoryStore HistoryTables RolloutLineage.
From S2P Require Import HistoryPaging HistoryPagingFacts.

Local Open Scope Z_scope.

(** ** The order of a query *)
Section order.
Context {R : Type}.
Implicit Types (l : list (Z * R)) (d : SortDirection).

Lemma insert_row_perm d x l : insert_row d x l ≡ₚ x :: l.
Proof.
  induction l as [|y l IH]; cbn; [done|]. destruct (precedes d x.1 y.1); [done|].
  rewrite IH. by constructor.
Qed.

Lemma order_by_perm d l : order_by d l ≡ₚ l.
Proof. induction l as [|x l IH]; cbn; [done|]. by rewrite insert_row_perm, IH. Qed.

#[local] Abbreviation sorted d := (StronglySorted (λ x y : Z * R, precedes d x.1 y.1 = true)).

Lemma precedes_spec d a b :
  precedes d a b = true ↔ a = b ∨ strictly d a b.
Proof. destruct d; cbn; rewrite Z.leb_le; lia. Qed.

Lemma precedes_total d a b : precedes d a b = false → strictly d b a.
Proof. destruct d; cbn; rewrite Z.leb_gt; lia. Qed.

Lemma insert_row_sorted d x l : sorted d l → sorted d (insert_row d x l).
Proof.
  induction 1 as [|y l Hl IH Hy]; cbn; [by repeat constructor|].
  destruct (precedes d x.1 y.1) eqn:E.
  - constructor; [by constructor|]. constructor; [done|]. eapply Forall_impl; [exact Hy|].
    cbn. intros z Hz. revert E Hz. destruct d; cbn; rewrite !Z.leb_le; lia.
  - constructor; [exact IH|]. rewrite insert_row_perm. constructor; [|done].
    apply precedes_total in E. apply precedes_spec. by right.
Qed.

Lemma order_by_sorted d l : sorted d (order_by d l).
Proof. induction l as [|x l IH]; cbn; [constructor|]. by apply insert_row_sorted. Qed.

Lemma order_by_strict d l :
  NoDup l.*1 → StronglySorted (λ x y, strictly d x.1 y.1) (order_by d l).
Proof.
  intros Hnd. pose proof (order_by_sorted d l) as Hs.
  assert (Hnd' : NoDup (order_by d l).*1) by (by rewrite order_by_perm).
  induction Hs as [|x l' Hl IH Hx]; [constructor|]. apply NoDup_cons in Hnd' as [Hnew Hnd'].
  constructor; [by apply IH|]. apply list.Forall_forall. intros y Hy.
  rewrite list.Forall_forall in Hx. specialize (Hx y Hy). apply precedes_spec in Hx as [Heq|]; [|done].
  destruct Hnew. rewrite Heq. apply list_elem_of_fmap. eauto.
Qed.

Lemma insert_row_filter d (p : Z → bool) x l :
  sorted d l →
  filter (λ r, p r.1 = true) (insert_row d x l)
  = if p x.1 then insert_row d x (filter (λ r, p r.1 = true) l) else filter (λ r, p r.1 = true) l.
Proof.
  induction 1 as [|y l Hl IH Hy]; cbn [insert_row].
  - rewrite filter_cons. destruct (p x.1); [by rewrite decide_True|by rewrite decide_False].
  - destruct (precedes d x.1 y.1) eqn:E.
    + rewrite (filter_cons _ x). destruct (p x.1) eqn:Ex; [rewrite decide_True by done|by rewrite decide_False].
      assert (Hins : ∀ l', (∀ z, z ∈ l' → precedes d x.1 z.1 = true) → insert_row d x l' = x :: l').
      { intros [|z l'] Hz; [done|]. cbn. by rewrite Hz by (by left). }
      symmetry. apply Hins. intros z [_ [->|Hz]%elem_of_cons]%list_elem_of_filter; [done|].
      rewrite list.Forall_forall in Hy. specialize (Hy z Hz). revert E Hy.
      destruct d; cbn; rewrite !Z.leb_le; lia.
    + rewrite !(filter_cons _ y). destruct (p y.1) eqn:Ey;
        [rewrite !decide_True by done|rewrite !decide_False by congruence; exact IH].
      rewrite IH. destruct (p x.1); [|done]. cbn. by rewrite E.
Qed.

Lemma order_by_filter d (p : Z → bool) l :
  order_by d (filter (λ r, p r.1 = true) l) = filter (λ r, p r.1 = true) (order_by d l).
Proof.
  induction l as [|x l IH]; [done|]. cbn [order_by foldr]. fold (order_by d l).
  rewrite insert_row_filter by apply order_by_sorted. rewrite filter_cons.
  destruct (p x.1); [rewrite decide_True by done|by rewrite decide_False].
  cbn [order_by foldr]. fold (order_by d (filter (λ r, p r.1 = true) l)). by rewrite IH.
Qed.
End order.

(** ** Decoding rows *)
Lemma collect_Ok {A B} (f : A → result ThreadStoreError B) l ys :
  collect f l = Ok ys ↔ Forall2 (λ x y, f x = Ok y) l ys.
Proof.
  revert ys. induction l as [|x l IH]; intros ys; cbn [collect].
  - split; [intros [= <-]; constructor|]. intros Hf. by inversion Hf.
  - split.
    + destruct (f x) as [y|] eqn:Ey; cbn [rbind]; [|done].
      destruct (collect f l) as [ys'|] eqn:E; [|done].
      intros [= <-]. constructor; [done|]. by apply IH.
    + intros Hf. inversion Hf as [|? y ? ys' Hy Hl]; subst. apply IH in Hl. rewrite Hy, Hl. done.
Qed.

Lemma Forall2_elem_of_r {A B} (P : A → B → Prop) l k y :
  Forall2 P l k → y ∈ k → ∃ x, x ∈ l ∧ P x y.
Proof.
  induction 1 as [|x y' l k Hxy Hl IH]; [by intros ?%elem_of_nil|].
  intros [->|Hy]%elem_of_cons; [exists x; split; [by left|done]|].
  destruct (IH Hy) as (x' & Hx & HP). exists x'. split; [by right|done].
Qed.

Lemma Forall2_elem_of_l {A B} (P : A → B → Prop) l k x :
  Forall2 P l k → x ∈ l → ∃ y, y ∈ k ∧ P x y.
Proof. intros Hf%Forall2_flip Hx. by apply (Forall2_elem_of_r _ _ _ _ Hf). Qed.

Lemma collect_total {A B} (f : A → result ThreadStoreError B) l :
  (∀ x, x ∈ l → ∃ y, f x = Ok y) → ∃ ys, collect f l = Ok ys.
Proof.
  induction l as [|x l IH]; intros Hf; [by eexists|]. cbn [collect].
  destruct (Hf x) as [y ->]; [by left|]. destruct IH as [ys ->]; [intros; apply Hf; by right|].
  by eexists.
Qed.

(** Cutting and filtering by the position commute with decoding. *)
Lemma collect_page {R B} `{!HasPosition B} (f : Z * R → result ThreadStoreError B) (p : Z → bool)
    n l ys :
  (∀ x y, f x = Ok y → position_of y = x.1) → collect f l = Ok ys →
  collect f (take n (filter (λ x, p x.1 = true) l))
  = Ok (take n (filter (λ y, p (position_of y) = true) ys)).
Proof.
  intros Hpos Hl%collect_Ok. apply collect_Ok, Forall2_take.
  induction Hl as [|x y l ys Hxy Hl IH]; [constructor|]. rewrite !filter_cons, (Hpos _ _ Hxy).
  destruct (decide (p x.1 = true)); [by constructor|done].
Qed.

Lemma omap_NoDup_fst {K R} (f : K → option (Z * R)) l :
  NoDup l →
  (∀ x y a b, x ∈ l → y ∈ l → f x = Some a → f y = Some b → a.1 = b.1 → x = y) →
  NoDup (omap f l).*1.
Proof.
  induction 1 as [|x l Hx Hl IH]; intros Hf; [constructor|]. cbn.
  assert (IH' : NoDup (omap f l).*1) by (apply IH; intros; eapply Hf; [by right|by right|done..]).
  destruct (f x) as [a|] eqn:E; [|exact IH']. cbn. apply NoDup_cons. split; [|exact IH'].
  intros (b & Hab & (y & Hy & Hfy)%list_elem_of_omap)%list_elem_of_fmap.
  destruct Hx. rewrite (Hf x y a b); [done|by left|by right|done..].
Qed.

(** ** The rows a query contributes to a listing *)
Section decoded.
Context {R B : Type} `{!HasPosition B}.
Variable f : Z * R → result ThreadStoreError B.
Variable raw : list (Z * R).

Definition decoded (direction : SortDirection) : list B :=
  match collect f (order_by direction raw) with Ok l => l | Err _ => [] end.

Hypothesis f_total : ∀ row, row ∈ raw → ∃ y, f row = Ok y.
Hypothesis f_position : ∀ row y, f row = Ok y → position_of y = row.1.

Lemma decoded_collect direction : collect f (order_by direction raw) = Ok (decoded direction).
Proof.
  unfold decoded. destruct (collect_total f (order_by direction raw)) as [ys ->]; [|done].
  intros row Hrow. rewrite order_by_perm in Hrow. by apply f_total.
Qed.

Lemma decoded_elem direction y : y ∈ decoded direction ↔ ∃ row, row ∈ raw ∧ f row = Ok y.
Proof.
  pose proof (decoded_collect direction) as Hf%collect_Ok.
  setoid_rewrite <- (order_by_perm direction raw). split.
  - intros Hy. destruct (Forall2_elem_of_r _ _ _ y Hf Hy) as (x & Hx & Hxy). eauto.
  - intros (x & Hx & Hxy). destruct (Forall2_elem_of_l _ _ _ x Hf Hx) as (y' & Hy & Hxy').
    congruence.
Qed.

Lemma decoded_sorted direction :
  NoDup raw.*1 →
  StronglySorted (λ x y, strictly direction (position_of x) (position_of y)) (decoded direction).
Proof.
  intros Hnd. pose proof (order_by_strict direction _ Hnd) as Hsort.
  pose proof (decoded_collect direction) as Hc%collect_Ok. revert Hsort.
  induction Hc as [|x y l ys Hxy Hl IH]; intros Hsort; [constructor|].
  apply StronglySorted_inv in Hsort as [Hsort Hx]. constructor; [by apply IH|].
  rewrite (f_position _ _ Hxy). apply list.Forall_forall. intros z Hz.
  destruct (Forall2_elem_of_r _ _ _ z Hl Hz) as (x' & Hx' & Hdec).
  rewrite (f_position _ _ Hdec). rewrite list.Forall_forall in Hx. by apply Hx.
Qed.

(** A query with a cursor and a limit. *)
Lemma decoded_page direction (p : Z → bool) n :
  collect f (take n (order_by direction (filter (λ row, p row.1 = true) raw)))
  = Ok (take n (filter (λ y, p (position_of y) = true) (decoded direction))).
Proof.
  rewrite (order_by_filter direction p). apply (collect_page _ p); [exact f_position|].
  apply decoded_collect.
Qed.
End decoded.

(** ** A readable lineage *)
#[local] Abbreviation tid segment :=
  (thread_id_to_string (RolloutLineageSegment.thread_id segment)).

Record readable `{WireTypes, HistoryEnv} (db : HistoryDb) (lineage : RolloutLineage) : Prop :=
  mk_readable {
  readable_nonempty : lineage ≠ [];
  readable_linked : linked lineage;
  readable_bounds : ∀ s, s ∈ lineage →
    0 ≤ RolloutLineageSegment.start_ordinal s ≤ I64_MAX
    ∧ ∀ e, RolloutLineageSegment.end_ordinal s = Some e →
        RolloutLineageSegment.start_ordinal s ≤ e ≤ I64_MAX;
  readable_rows : ∀ s, s ∈ lineage → ∃ n, n ≤ I64_MAX + 1 ∧ tables_ok db (tid s) n;
}.

Section ordered.
Context `{WireTypes, HistoryEnv}.

Lemma linked_tail s lineage : linked (s :: lineage) → linked lineage.
Proof. destruct lineage; [done|]. by intros [_ ?]. Qed.

(** The starts of the segments increase. *)
Lemma linked_starts lineage :
  linked lineage →
  (∀ s e, s ∈ lineage → RolloutLineageSegment.end_ordinal s = Some e →
     RolloutLineageSegment.start_ordinal s ≤ e) →
  ∀ s rest t, lineage = s :: rest → t ∈ rest →
    ∃ e, RolloutLineageSegment.end_ordinal s = Some e ∧ e < RolloutLineageSegment.start_ordinal t.
Proof.
  induction lineage as [|s0 lineage IH]; intros Hl Hin s rest t; [done|]. intros [= -> ->] Ht.
  destruct rest as [|s1 rest]; [by apply elem_of_nil in Ht|].
  destruct Hl as [(cut & Hcut & _ & Hstart) Hl].
  assert (Hend : RolloutLineageSegment.end_ordinal s
                 = Some (Z.of_N (HistoryPosition.end_ordinal_exclusive cut))).
  { unfold RolloutLineageSegment.end_ordinal. by rewrite Hcut. }
  eexists. split; [exact Hend|]. apply elem_of_cons in Ht as [->|Ht]; [lia|].
  destruct (IH Hl) with (s := s1) (rest := rest) (t := t) as (e & He & Hlt);
    [intros; eapply Hin; [by right|done]|done|done|].
  specialize (Hin s1 e ltac:(right; by left) He). lia.
Qed.

Lemma segments_follow lineage i j s t a b :
  linked lineage →
  (∀ s e, s ∈ lineage → RolloutLineageSegment.end_ordinal s = Some e →
     RolloutLineageSegment.start_ordinal s ≤ e) →
  lineage !! i = Some s → lineage !! j = Some t → (i < j)%nat →
  contains_ordinal a s = true → contains_ordinal b t = true → a < b.
Proof.
  revert i j. induction lineage as [|s0 lineage IH]; intros i j Hl Hin Hi Hj Hij Ha Hb; [done|].
  destruct i as [|i], j as [|j]; try lia.
  - injection Hi as ->. cbn in Hj. apply list_elem_of_lookup_2 in Hj.
    destruct (linked_starts _ Hl Hin s lineage t eq_refl Hj) as (e & He & Hlt).
    unfold contains_ordinal in Ha, Hb. rewrite He in Ha.
    apply andb_true_iff in Ha as [_ Ha%Z.ltb_lt], Hb as [Hb%Z.leb_le _]. lia.
  - eapply (IH i j); [by eapply linked_tail| |done|done|lia|done|done].
    intros; eapply Hin; [by right|done].
Qed.

Lemma readable_ordered db lineage i j s t a b :
  readable db lineage →
  lineage !! i = Some s → lineage !! j = Some t → (i < j)%nat →
  contains_ordinal a s = true → contains_ordinal b t = true → a < b.
Proof.
  intros Hr. apply segments_follow; [by eapply readable_linked|].
  intros s0 e Hs0 He. by destruct (readable_bounds _ _ Hr s0 Hs0) as [_ Hb]; apply Hb.
Qed.

Lemma bind_range_Ok db lineage s : readable db lineage → s ∈ lineage → bind_range s = Ok tt.
Proof.
  intros Hr Hs. destruct (readable_bounds _ _ Hr s Hs) as [Hstart Hend].
  unfold bind_range, page_integer. rewrite (proj2 (Z.leb_le _ _)) by lia. cbn [rbind].
  destruct (RolloutLineageSegment.end_ordinal s) as [e|]; [|done].
  specialize (Hend e eq_refl). by rewrite (proj2 (Z.leb_le _ _)) by lia.
Qed.

Lemma bind_ranges_Ok db lineage l :
  readable db lineage → (∀ s, s ∈ l → s ∈ lineage) → bind_ranges l = Ok tt.
Proof.
  intros Hr. induction l as [|s l IH]; intros Hl; [done|]. cbn [bind_ranges].
  rewrite (bind_range_Ok _ _ _ Hr) by (apply Hl; by left). cbn [rbind].
  apply IH. intros t Ht. apply Hl. by right.
Qed.

Lemma bind_cursor_Ok cursor :
  (∀ c, cursor = Some c → HistoryCursor.rollout_ordinal c ≤ I64_MAX) → bind_cursor cursor = Ok tt.
Proof.
  intros Hc. destruct cursor as [c|]; [|done]. unfold bind_cursor, page_integer.
  by rewrite (proj2 (Z.leb_le _ _)) by (by apply Hc).
Qed.
End ordered.

(** ** Turns *)
Section turns.
Context `{!CursorJson, RolloutJson}.
Variable db : HistoryDb.
Variable lineage : RolloutLineage.

(** The rows a segment contributes to the listing. *)
Definition turn_list (direction : SortDirection) (items_view : StoredTurnItemsView) (i : nat)
    (s : RolloutLineageSegment.t) : list StoredTurnRow.t :=
  decoded (decode_turn db items_view s) (turn_rows db lineage i s) direction.

Definition visible_turns (direction : SortDirection) (items_view : StoredTurnItemsView)
    : list StoredTurnRow.t :=
  listing lineage direction (turn_list direction items_view).

(** The row of a turn in a segment. *)
Definition turn_hit (turn : str) (s : RolloutLineageSegment.t) : option (ThreadId * TurnRow.t) :=
  match thread_turns db !! (tid s, turn) with
  | Some row =>
      if contains_ordinal (TurnRow.rollout_ordinal row) s
      then Some (RolloutLineageSegment.thread_id s, row) else None
  | None => None
  end.

Lemma shadowed_by_hit turn s : shadowed_by db turn s = true ↔ is_Some (turn_hit turn s).
Proof.
  unfold shadowed_by, turn_hit. destruct (thread_turns db !! _) as [row|];
    [destruct (contains_ordinal _ _)|]; split; try done; try (by eexists); by intros [??].
Qed.

Lemma turn_rows_elem i s o turn row :
  (o, (turn, row)) ∈ turn_rows db lineage i s ↔
  o = TurnRow.rollout_ordinal row
  ∧ turn_hit turn s = Some (RolloutLineageSegment.thread_id s, row)
  ∧ Forall (λ s', turn_hit turn s' = None) (drop (S i) lineage).
Proof.
  assert (Hshadow : negb (existsb (shadowed_by db turn) (drop (S i) lineage)) = true
    ↔ Forall (λ s', turn_hit turn s' = None) (drop (S i) lineage)).
  { rewrite negb_true_iff, <- not_true_iff_false, existsb_exists, list.Forall_forall.
    setoid_rewrite eq_None_not_Some. setoid_rewrite <- shadowed_by_hit.
    setoid_rewrite list_elem_of_In. naive_solver. }
  unfold turn_rows. rewrite list_elem_of_omap. unfold turn_hit at 1. split.
  - intros ([[th tu] r] & Hin%elem_of_map_to_list & Hf). cbn in Hf.
    destruct (bool_decide (th = tid s)) eqn:E1; [|done].
    destruct (contains_ordinal _ s) eqn:E2; [|done].
    destruct (negb (existsb (shadowed_by db tu) (drop (S i) lineage))) eqn:E3; [|done].
    injection Hf as <- -> ->.
    apply bool_decide_eq_true in E1 as ->. rewrite Hin, E2. by rewrite <- Hshadow.
  - intros (-> & Hhit & Hnew%Hshadow). exists (tid s, turn, row). rewrite elem_of_map_to_list.
    destruct (thread_turns db !! _) as [r|] eqn:E; [|done].
    destruct (contains_ordinal _ s) eqn:E2; [|done]. injection Hhit as ->. split; [done|].
    cbn. rewrite bool_decide_true by done. by rewrite E2, Hnew.
Qed.

Lemma stored_status_turn_status status : stored_status (turn_status status) = Ok status.
Proof. by destruct status. Qed.

Hypothesis Hreadable : readable db lineage.

Lemma decode_turn_total view i s row :
  lineage !! i = Some s → row ∈ turn_rows db lineage i s → ∃ y, decode_turn db view s row = Ok y.
Proof.
  intros Hs%list_elem_of_lookup_2 Hrow. destruct row as [o [turn row]].
  apply turn_rows_elem in Hrow as (-> & Hhit & _).
  destruct (readable_rows _ _ Hreadable s Hs) as (n & _ & Hok).
  destruct (readable_bounds _ _ Hreadable s Hs) as [Hstart _].
  unfold turn_hit in Hhit. destruct (thread_turns db !! _) as [r|] eqn:E; [|done].
  destruct (contains_ordinal _ s) eqn:E2; [|done]. injection Hhit as ->.
  destruct (turns_ok _ _ _ Hok _ _ E) as (_ & _ & (st & Hst) & _).
  assert (Hitem : ∀ id, ∃ l, into_stored_item turn (joined_item db s turn id) = Ok l).
  { intros id. unfold joined_item. destruct id as [id|]; [|by eexists].
    destruct (thread_items db !! _) as [ir|] eqn:Ei; [|by eexists].
    destruct (contains_ordinal (ItemRow.rollout_ordinal ir) s) eqn:Ec; [|by eexists].
    unfold into_stored_item, stored_thread_item, stored_updated_at_ordinal.
    pose proof (items_ok _ _ _ Hok _ _ _ Ei) as Hir. unfold contains_ordinal in Ec.
    apply andb_true_iff in Ec as [Ec%Z.leb_le _].
    rewrite (proj2 (Z.ltb_ge _ _)) by lia. by eexists. }
  unfold decode_turn, stored_turn_row. cbn [fst snd].
  destruct view; cbn [rbind].
  - rewrite Hst, stored_status_turn_status. by eexists.
  - unfold into_stored_items. destruct (Hitem (TurnRow.first_user_item_id row)) as [l1 ->].
    cbn [rbind]. destruct (Hitem (TurnRow.final_agent_item_id row)) as [l2 ->]. cbn [rbind].
    rewrite Hst, stored_status_turn_status. by eexists.
Qed.

Lemma decode_turn_position view s row y : decode_turn db view s row = Ok y → position_of y = row.1.
Proof.
  destruct row as [o [turn row]]. unfold decode_turn, stored_turn_row.
  destruct (match view with NotLoaded => _ | Summary => _ end); cbn [rbind]; [|done].
  destruct (stored_status _); cbn [rbind]; [|done]. by intros [= <-].
Qed.

Lemma turn_list_elem direction view i s y :
  lineage !! i = Some s →
  y ∈ turn_list direction view i s ↔
  ∃ row, row ∈ turn_rows db lineage i s ∧ decode_turn db view s row = Ok y.
Proof. intros Hs. apply decoded_elem. intros row. by apply decode_turn_total. Qed.

Lemma turn_rows_NoDup i s : lineage !! i = Some s → NoDup (turn_rows db lineage i s).*1.
Proof.
  intros Hs%list_elem_of_lookup_2. apply omap_NoDup_fst; [apply NoDup_map_to_list|].
  destruct (readable_rows _ _ Hreadable s Hs) as (n & _ & Hok).
  intros [[th1 tu1] r1] [[th2 tu2] r2] a b Hx%elem_of_map_to_list Hy%elem_of_map_to_list.
  destruct (bool_decide (th1 = tid s)) eqn:E1; [|done].
  destruct (bool_decide (th2 = tid s)) eqn:E2; [|by intros _].
  apply bool_decide_eq_true in E1 as ->, E2 as ->.
  do 2 (destruct (_ && _); [|by intros]). intros [= <-] [= <-] Ho. cbn in Ho.
  assert (tu1 = tu2) as -> by (by eapply (turns_distinct _ _ _ Hok)). congruence.
Qed.

Lemma turn_list_inside direction view i s y :
  lineage !! i = Some s → y ∈ turn_list direction view i s →
  contains_ordinal (position_of y) s = true ∧ 0 ≤ position_of y ≤ I64_MAX.
Proof.
  intros Hs Hy. apply turn_list_elem in Hy as ([o [turn row]] & Hrow & Hdec); [|done].
  apply decode_turn_position in Hdec as ->. apply turn_rows_elem in Hrow as (-> & Hhit & _).
  apply list_elem_of_lookup_2 in Hs. destruct (readable_rows _ _ Hreadable s Hs) as (n & Hn & Hok).
  destruct (readable_bounds _ _ Hreadable s Hs) as [Hstart _]. cbn [fst].
  unfold turn_hit in Hhit. destruct (thread_turns db !! _) as [r|] eqn:E; [|done].
  destruct (contains_ordinal _ s) eqn:E2; [|done]. injection Hhit as ->.
  destruct (turns_ok _ _ _ Hok _ _ E) as [Hlt _]. split; [done|]. unfold contains_ordinal in E2.
  apply andb_true_iff in E2 as [E2%Z.leb_le _]. lia.
Qed.

Lemma turn_list_sorted direction view i s :
  lineage !! i = Some s →
  StronglySorted (λ x y, strictly direction (position_of x) (position_of y))
    (turn_list direction view i s).
Proof.
  intros Hs. apply decoded_sorted; [intros row; by apply decode_turn_total|apply decode_turn_position|].
  by apply turn_rows_NoDup.
Qed.

Lemma query_turns_rows direction view i s cursor limit :
  lineage !! i = Some s →
  (∀ c, cursor = Some c → HistoryCursor.rollout_ordinal c ≤ I64_MAX) →
  query_turns db lineage direction view i s cursor limit
  = Ok (take (Z.to_nat limit)
          (filter (λ x, beyond direction cursor (position_of x) = true)
             (turn_list direction view i s))).
Proof.
  intros Hs Hcur. unfold query_turns.
  rewrite (bind_range_Ok _ _ _ Hreadable) by (by eapply list_elem_of_lookup_2). cbn [rbind].
  rewrite (bind_ranges_Ok _ _ _ Hreadable) by (intros t; apply subseteq_drop). cbn [rbind].
  rewrite (bind_cursor_Ok _ Hcur). cbn [rbind].
  apply (decoded_page _ _ ltac:(intros row; by apply decode_turn_total) (decode_turn_position view s)
           direction (beyond direction cursor)).
Qed.

(** ** Lookup *)
Lemma query_turn_row_hit s turn : s ∈ lineage → query_turn_row db s turn = Ok (turn_hit turn s).
Proof.
  intros Hs. destruct (readable_bounds _ _ Hreadable s Hs) as [Hstart Hend].
  unfold query_turn_row, sqlite_integer.
  destruct (RolloutLineageSegment.end_ordinal s) as [e|];
    [specialize (Hend e eq_refl); rewrite (proj2 (Z.leb_le e _)) by lia|]; cbn [rbind];
    by rewrite (proj2 (Z.leb_le _ _)) by lia.
Qed.

Lemma find_turn_Ok l turn x :
  (∀ s, s ∈ l → s ∈ lineage) →
  find_turn db l turn = Ok x ↔
  ∃ l1 s l2, l = l1 ++ s :: l2 ∧ turn_hit turn s = Some x
    ∧ Forall (λ s', turn_hit turn s' = None) l1.
Proof.
  induction l as [|s l IH]; intros Hl; cbn [find_turn].
  { split; [done|]. intros (l1 & s & l2 & Heq & _). by destruct l1. }
  rewrite query_turn_row_hit by (apply Hl; by left). cbn [rbind].
  destruct (turn_hit turn s) as [y|] eqn:E.
  - split; [intros [= ->]; by exists [], s, l|]. intros ([|s1 l1] & s' & l2 & [= -> ->] & Hhit & Hnone).
    + congruence.
    + apply list.Forall_cons in Hnone as [? _]. congruence.
  - rewrite IH by (intros; apply Hl; by right). split.
    + intros (l1 & s' & l2 & -> & Hhit & Hnone). exists (s :: l1), s', l2.
      split_and!; [done..|by constructor].
    + intros ([|s1 l1] & s' & l2 & [= -> ->] & Hhit & Hnone); [congruence|].
      apply list.Forall_cons in Hnone as [_ Hnone]. by exists l1, s', l2.
Qed.

(** The newest segment with a row of the turn. *)
Lemma find_visible_turn_Ok turn x :
  find_visible_turn db lineage turn = Ok x ↔
  ∃ i s, lineage !! i = Some s ∧ turn_hit turn s = Some x
    ∧ Forall (λ s', turn_hit turn s' = None) (drop (S i) lineage).
Proof.
  unfold find_visible_turn.
  rewrite find_turn_Ok by (intros s Hs%list_elem_of_In%in_rev; by apply list_elem_of_In). split.
  - intros (l1 & s & l2 & Heq & Hhit & Hnone). apply (f_equal (@rev _)) in Heq.
    rewrite rev_involutive, rev_app_distr in Heq. cbn [rev] in Heq. rewrite <- (assoc_L (++)) in Heq. cbn [app] in Heq.
    exists (length (rev l2)), s. rewrite Heq, list_lookup_middle by done. split_and!; [done..|].
    rewrite cons_middle, (assoc_L (++)), drop_app_ge by (rewrite length_app; cbn; lia).
    rewrite length_app. cbn [length]. replace (S _ - _)%nat with 0%nat by lia. cbn [drop].
    rewrite list.Forall_forall in *. intros s' Hs'%list_elem_of_In%in_rev%list_elem_of_In. auto.
  - intros (i & s & Hs & Hhit & Hnone). exists (rev (drop (S i) lineage)), s, (rev (take i lineage)).
    split_and!; [|done|].
    + rewrite <- (take_drop_middle lineage i s Hs) at 1. rewrite rev_app_distr. cbn.
      by rewrite <- (assoc_L (++)).
    + rewrite list.Forall_forall in *. intros s' Hs'%list_elem_of_In%in_rev%list_elem_of_In. auto.
Qed.
End turns.

(** ** Items *)
Section items.
Context `{!CursorJson, RolloutJson}.
Variable db : HistoryDb.
Variable lineage : RolloutLineage.
Variable turn_filter : option str.
Variable after : option Z.

Definition item_list (direction : SortDirection) (_ : nat) (s : RolloutLineageSegment.t)
    : list StoredThreadItemRow.t :=
  decoded stored_thread_item_row (item_rows db turn_filter after s) direction.

Definition visible_items (direction : SortDirection) : list StoredThreadItemRow.t :=
  listing lineage direction (item_list direction).

Lemma item_rows_elem s o turn item row :
  (o, (turn, item, row)) ∈ item_rows db turn_filter after s ↔
  o = ItemRow.rollout_ordinal row ∧ thread_items db !! (tid s, turn, item) = Some row
  ∧ contains_ordinal (ItemRow.rollout_ordinal row) s = true
  ∧ wanted_item turn_filter after turn row = true.
Proof.
  unfold item_rows. rewrite list_elem_of_omap. split.
  - intros ([[[th tu] it] r] & Hin%elem_of_map_to_list & Hf). cbn in Hf.
    destruct (bool_decide (th = tid s)) eqn:E1; [|done].
    destruct (contains_ordinal (ItemRow.rollout_ordinal r) s) eqn:E2; [|done].
    destruct (wanted_item turn_filter after tu r) eqn:E3; [|done]. injection Hf as <- -> -> ->.
    apply bool_decide_eq_true in E1 as ->. done.
  - intros (-> & Hrow & Hc & Hw). exists (tid s, turn, item, row). rewrite elem_of_map_to_list.
    split; [done|]. cbn. rewrite bool_decide_true by done. by rewrite Hc, Hw.
Qed.

(** What the row of an item is shown as. *)
Definition shown_item (turn item : str) (row : ItemRow.t) : StoredThreadItemRow.t :=
  StoredThreadItemRow.mk _ (ItemRow.rollout_ordinal row)
    (StoredThreadItem.mk _ turn item (ItemRow.updated_at_ordinal row) (ItemRow.created_at_ms row)
       (ItemRow.item_json row)).

Hypothesis Hreadable : readable db lineage.
Hypothesis Hafter : ∀ a, after = Some a → a ≤ I64_MAX.

Lemma item_rows_bounds s turn item row :
  s ∈ lineage → thread_items db !! (tid s, turn, item) = Some row →
  contains_ordinal (ItemRow.rollout_ordinal row) s = true →
  0 ≤ ItemRow.rollout_ordinal row ≤ I64_MAX ∧ 0 ≤ ItemRow.updated_at_ordinal row.
Proof.
  intros Hs Hrow Hc. destruct (readable_rows _ _ Hreadable s Hs) as (n & Hn & Hok).
  destruct (readable_bounds _ _ Hreadable s Hs) as [Hstart _].
  pose proof (items_ok _ _ _ Hok _ _ _ Hrow). unfold contains_ordinal in Hc.
  apply andb_true_iff in Hc as [Hc%Z.leb_le _]. lia.
Qed.

Lemma stored_item_shown s o turn item row :
  s ∈ lineage → (o, (turn, item, row)) ∈ item_rows db turn_filter after s →
  stored_thread_item_row (o, (turn, item, row)) = Ok (shown_item turn item row).
Proof.
  intros Hs (-> & Hrow & Hc & _)%item_rows_elem.
  destruct (item_rows_bounds _ _ _ _ Hs Hrow Hc) as [Hpos Hupd].
  unfold stored_thread_item_row, stored_thread_item, stored_updated_at_ordinal.
  by rewrite !(proj2 (Z.ltb_ge _ _)) by lia.
Qed.

Lemma stored_item_total s row :
  s ∈ lineage → row ∈ item_rows db turn_filter after s → ∃ y, stored_thread_item_row row = Ok y.
Proof.
  intros Hs Hrow. destruct row as [o [[turn item] row]]. eexists. by eapply stored_item_shown.
Qed.

Lemma stored_item_position (row : Z * (str * str * ItemRow.t)) y :
  stored_thread_item_row row = Ok y → position_of y = row.1.
Proof.
  destruct row as [o [[turn item] row]]. unfold stored_thread_item_row.
  destruct (o <? 0); [done|]. destruct (stored_thread_item _ _ _); cbn [rbind]; [|done].
  by intros [= <-].
Qed.

Lemma item_list_elem direction i s y :
  s ∈ lineage →
  y ∈ item_list direction i s ↔
  ∃ turn item row, y = shown_item turn item row
    ∧ thread_items db !! (tid s, turn, item) = Some row
    ∧ contains_ordinal (ItemRow.rollout_ordinal row) s = true
    ∧ wanted_item turn_filter after turn row = true.
Proof.
  intros Hs. unfold item_list. rewrite decoded_elem by (intros row; by apply stored_item_total). split.
  - intros ([o [[turn item] row]] & Hrow & Hf). rewrite (stored_item_shown s) in Hf by done.
    injection Hf as <-. apply item_rows_elem in Hrow as (_ & ?). by exists turn, item, row.
  - intros (turn & item & row & -> & Hrow). exists (ItemRow.rollout_ordinal row, (turn, item, row)).
    assert (Hin : (ItemRow.rollout_ordinal row, (turn, item, row)) ∈ item_rows db turn_filter after s)
      by (by apply item_rows_elem).
    split; [done|]. by apply (stored_item_shown s).
Qed.

Lemma item_rows_NoDup s : s ∈ lineage → NoDup (item_rows db turn_filter after s).*1.
Proof.
  intros Hs. apply omap_NoDup_fst; [apply NoDup_map_to_list|].
  destruct (readable_rows _ _ Hreadable s Hs) as (n & _ & Hok).
  intros [[[th1 tu1] it1] r1] [[[th2 tu2] it2] r2] a b Hx%elem_of_map_to_list Hy%elem_of_map_to_list.
  destruct (bool_decide (th1 = tid s)) eqn:E1; [|done].
  destruct (bool_decide (th2 = tid s)) eqn:E2; [|by intros _].
  apply bool_decide_eq_true in E1 as ->, E2 as ->.
  do 2 (destruct (_ && _); [|by intros]). intros [= <-] [= <-] Ho. cbn in Ho.
  assert ((tu1, it1) = (tu2, it2)) as [= -> ->]
    by (by eapply (items_distinct _ _ _ Hok (_, _) (_, _))).
  congruence.
Qed.

Lemma item_list_inside direction i s y :
  lineage !! i = Some s → y ∈ item_list direction i s →
  contains_ordinal (position_of y) s = true ∧ 0 ≤ position_of y ≤ I64_MAX.
Proof.
  intros Hs%list_elem_of_lookup_2 Hy.
  apply item_list_elem in Hy as (turn & item & row & -> & Hrow & Hc & _); [|done].
  split; [done|]. by destruct (item_rows_bounds _ _ _ _ Hs Hrow Hc).
Qed.

Lemma item_list_sorted direction i s :
  lineage !! i = Some s →
  StronglySorted (λ x y, strictly direction (position_of x) (position_of y)) (item_list direction i s).
Proof.
  intros Hs%list_elem_of_lookup_2. apply decoded_sorted;
    [intros row; by apply stored_item_total|apply stored_item_position|by apply item_rows_NoDup].
Qed.

Lemma query_items_rows direction i s cursor limit :
  lineage !! i = Some s →
  (∀ c, cursor = Some c → HistoryCursor.rollout_ordinal c ≤ I64_MAX) →
  query_items db direction turn_filter after i s cursor limit
  = Ok (take (Z.to_nat limit)
          (filter (λ x, beyond direction cursor (position_of x) = true) (item_list direction i s))).
Proof.
  intros Hs%list_elem_of_lookup_2 Hcur. unfold query_items.
  rewrite (bind_range_Ok _ _ _ Hreadable) by done. cbn [rbind].
  assert (bind_after after = Ok tt) as ->.
  { unfold bind_after, page_integer. destruct after as [a|]; [|done].
    by rewrite (proj2 (Z.leb_le _ _)) by (by apply Hafter). }
  cbn [rbind]. rewrite (bind_cursor_Ok _ Hcur). cbn [rbind].
  apply (decoded_page _ _ ltac:(intros row; by apply stored_item_total) stored_item_position
           direction (beyond direction cursor)).
Qed.
End items.
