(* ===== verification/HistoryPages.v ===== *)
(** * Reading the history page by page

    Following the cursors of the turn and item listings enumerates the visible rows of a
    forked thread in order, each once; a turn is listed exactly when the lookup finds it,
    with the row the lookup finds. *)

From Stdlib Require Import String ZArith NArith Lia Sorted.
From stdpp Require Import base option list numbers gmap sorting.
From S2P Require Import Prelude StrBytes Models ThreadItems ItemBuilders ThreadHistory.
From S2P Require Import HistoryProjection HistoryStore HistoryTables RolloutLineage.
From S2P Require Import HistoryPaging HistoryPagingFacts HistoryListing.

Local Open Scope Z_scope.

Section pages.
Context `{!CursorJson, RolloutJson}.

Lemma visible_turns_elem db lineage direction view y :
  y ∈ visible_turns db lineage direction view ↔
  ∃ i s, lineage !! i = Some s ∧ y ∈ turn_list db lineage direction view i s.
Proof.
  unfold visible_turns. rewrite listing_elem. unfold rows_at. split.
  - intros (i & Hy). destruct (lineage !! i) as [s|] eqn:E; [eauto|by apply elem_of_nil in Hy].
  - intros (i & s & Hs & Hy). exists i. by rewrite Hs.
Qed.

Lemma visible_turns_sorted db lineage direction view :
  readable db lineage →
  StronglySorted (λ x y, strictly direction (position_of x) (position_of y))
    (visible_turns db lineage direction view).
Proof.
  intros Hr. apply listing_sorted.
  - intros *. by eapply readable_ordered.
  - intros i s. by apply turn_list_sorted.
  - intros i s x. by apply turn_list_inside.
Qed.

Lemma decode_turn_fields db view s o turn row y :
  decode_turn db view s (o, (turn, row)) = Ok y →
  StoredTurnRow.turn_id y = turn
  ∧ stored_turn_row (o, (turn, row)) (StoredTurnRow.summary_items y) = Ok y.
Proof.
  unfold decode_turn, stored_turn_row.
  destruct (match view with NotLoaded => _ | Summary => _ end); cbn [rbind]; [|done].
  destruct (stored_status _); cbn [rbind]; [|done]. by intros [= <-].
Qed.

(** A listed row is the one the lookup finds. *)
Lemma listed_row_found db lineage direction view y :
  readable db lineage → y ∈ visible_turns db lineage direction view →
  ∃ thread row, find_visible_turn db lineage (StoredTurnRow.turn_id y) = Ok (thread, row)
    ∧ stored_turn_row (TurnRow.rollout_ordinal row, (StoredTurnRow.turn_id y, row))
        (StoredTurnRow.summary_items y) = Ok y ∧ position_of y = TurnRow.rollout_ordinal row.
Proof.
  intros Hr (i & s & Hs & Hy)%visible_turns_elem.
  apply (turn_list_elem db lineage Hr) in Hy as ([o [turn row]] & Hrow & Hdec); [|done].
  pose proof (decode_turn_position _ _ _ _ _ Hdec) as Hpos.
  apply decode_turn_fields in Hdec as [<- Hst]. apply turn_rows_elem in Hrow as (-> & Hhit & Hnew).
  exists (RolloutLineageSegment.thread_id s), row. split_and!; [|done..].
  apply (find_visible_turn_Ok db lineage Hr). eauto.
Qed.

(** C15: Following the cursors of the turn listing from the start ends, in either
    direction, and the pages together are the visible turns of the thread and its
    ancestors: every row once, in the order of the rollout ordinals, no page longer than
    asked for. *)
Theorem turn_pages_enumerate db lineage requested page_size direction view :
  (∀ c, cursor_from_str (cursor_to_string c) = Some c) →
  readable db lineage → 0 < page_size → page_size + 1 ≤ I64_MAX →
  ∃ pages,
    follow_pages (λ cursor, page_turn_rows db lineage requested cursor page_size direction view)
      (S (length (visible_turns db lineage direction view))) None = Some (Ok pages)
    ∧ mjoin pages = visible_turns db lineage direction view
    ∧ Forall (λ p, Z.of_nat (length p) ≤ page_size) pages
    ∧ StronglySorted (λ x y, strictly direction (position_of x) (position_of y)) (mjoin pages).
Proof.
  intros Hjson Hr Hp Hmax.
  destruct (follow_pages_all lineage direction (turn_list db lineage direction view)
    (query_turns db lineage direction view)) with (requested := requested) (scope := Turns)
    (page_size := page_size) as (pages & Hf & Hall & Hlen).
  - intros *. by eapply readable_ordered.
  - intros i s. by apply turn_list_sorted.
  - intros i s x. by apply turn_list_inside.
  - intros i s cursor limit. by apply query_turns_rows.
  - done.
  - by eapply readable_nonempty.
  - done.
  - done.
  - exists pages. split_and!; [exact Hf|exact Hall|done|]. rewrite Hall.
    by apply visible_turns_sorted.
Qed.

(** C16: The turn listing and the turn lookup agree on a forked thread.  A listed row is
    the row that looking up its turn finds, which is the one of the newest segment; a
    turn that the lookup finds is listed; and no turn is listed twice, although a fork
    may carry rows of the same turn in several segments. *)
Theorem turn_listing_is_lookup db lineage direction view :
  readable db lineage →
  (∀ y, y ∈ visible_turns db lineage direction view →
     ∃ thread row, find_visible_turn db lineage (StoredTurnRow.turn_id y) = Ok (thread, row)
       ∧ stored_turn_row (TurnRow.rollout_ordinal row, (StoredTurnRow.turn_id y, row))
           (StoredTurnRow.summary_items y) = Ok y)
  ∧ (∀ turn thread row, find_visible_turn db lineage turn = Ok (thread, row) →
       ∃ y, y ∈ visible_turns db lineage direction view ∧ StoredTurnRow.turn_id y = turn)
  ∧ NoDup (StoredTurnRow.turn_id <$> visible_turns db lineage direction view).
Proof.
  intros Hr. pose proof (λ y, listed_row_found db lineage direction view y Hr) as Hlisted.
  split_and!.
  - intros y Hy. destruct (Hlisted y Hy) as (th & row & ? & ? & _). eauto.
  - intros turn th row (i & s & Hs & Hhit & Hnew)%(find_visible_turn_Ok db lineage Hr).
    assert (th = RolloutLineageSegment.thread_id s) as ->.
    { revert Hhit. unfold turn_hit. destruct (thread_turns db !! _) as [r|]; [|done].
      destruct (contains_ordinal _ _); [|done]. by intros [= <- _]. }
    assert (Hrow : (TurnRow.rollout_ordinal row, (turn, row)) ∈ turn_rows db lineage i s)
      by (by apply turn_rows_elem).
    destruct (decode_turn_total db lineage Hr view i s _ Hs Hrow) as [y Hy].
    exists y. split; [|by apply decode_turn_fields in Hy as [? _]].
    apply visible_turns_elem. exists i, s. split; [done|].
    apply (turn_list_elem db lineage Hr); [done|]. eauto.
  - pose proof (visible_turns_sorted db lineage direction view Hr) as Hsort. revert Hlisted.
    induction Hsort as [|y l Hl IH Hy]; intros Hlisted; [constructor|]. cbn. apply NoDup_cons. split.
    + intros (z & Heq & Hz)%list_elem_of_fmap. rewrite list.Forall_forall in Hy.
      specialize (Hy z Hz). destruct (Hlisted y ltac:(by left)) as (t1 & r1 & Hf1 & _ & Hp1).
      destruct (Hlisted z ltac:(by right)) as (t2 & r2 & Hf2 & _ & Hp2).
      rewrite Heq, Hf2 in Hf1. injection Hf1 as -> ->. rewrite Hp1, Hp2 in Hy.
      by destruct direction; cbn in Hy; lia.
    + apply IH. intros z Hz. apply Hlisted. by right.
Qed.

(** The listing by creation is the general page of the item query. *)
Lemma page_item_rows_created db lineage thread turn_filter archived cursor page_size direction after :
  (∀ a, after = Some a → length lineage = 1%nat) →
  page_item_rows db lineage
    (ListItemsParams.mk thread turn_filter archived cursor page_size direction CreatedAtOrdinal after)
  = fetch lineage direction (query_items db direction turn_filter after) thread
      ItemsByCreatedAtOrdinal page_size cursor.
Proof.
  intros Hafter. unfold page_item_rows, fetch. cbn [ListItemsParams.after_updated_at_ordinal].
  destruct after as [a|]; [by rewrite (Hafter a eq_refl)|done].
Qed.

Lemma follow_pages_ext {A} (f1 f2 : option str → result ThreadStoreError (SegmentPage.t A)) fuel c :
  (∀ c, f1 c = f2 c) → follow_pages f1 fuel c = follow_pages f2 fuel c.
Proof.
  intros Heq. revert c. induction fuel as [|fuel IH]; intros c; [done|]. cbn. rewrite Heq.
  destruct (f2 c) as [page|]; [|done]. destruct (SegmentPage.next_cursor page); [|done].
  by rewrite IH.
Qed.

Lemma visible_items_elem db lineage turn_filter after direction y :
  readable db lineage →
  y ∈ visible_items db lineage turn_filter after direction ↔
  ∃ s turn item row, s ∈ lineage ∧ y = shown_item turn item row
    ∧ thread_items db
        !! (thread_id_to_string (RolloutLineageSegment.thread_id s), turn, item) = Some row
    ∧ contains_ordinal (ItemRow.rollout_ordinal row) s = true
    ∧ wanted_item turn_filter after turn row = true.
Proof.
  intros Hr. unfold visible_items. rewrite listing_elem. unfold rows_at. split.
  - intros (i & Hy). destruct (lineage !! i) as [s|] eqn:E; [|by apply elem_of_nil in Hy].
    apply list_elem_of_lookup_2 in E as Hs.
    apply (item_list_elem db lineage) in Hy as (turn & item & row & Hy); [|done..].
    exists s, turn, item, row. naive_solver.
  - intros (s & turn & item & row & Hs & Hy). apply list_elem_of_lookup in Hs as [i Hs].
    exists i. rewrite Hs. apply list_elem_of_lookup_2 in Hs.
    apply (item_list_elem db lineage); [done..|]. eauto.
Qed.

(** Following the cursors of the item listing ends, and the pages together are, in
    the order of the ordinals and without repetition, exactly the rows of the segments
    that pass the filters of the request.  A watermark is only accepted for a thread
    that is not forked. *)
Theorem item_pages_enumerate db lineage thread turn_filter archived page_size direction after :
  let items := visible_items db lineage turn_filter after direction in
  (∀ c, cursor_from_str (cursor_to_string c) = Some c) →
  readable db lineage → 0 < page_size → page_size + 1 ≤ I64_MAX →
  (∀ a, after = Some a → a ≤ I64_MAX ∧ length lineage = 1%nat) →
  (∃ pages,
    follow_pages (λ cursor,
        page_item_rows db lineage
          (ListItemsParams.mk thread turn_filter archived cursor page_size direction
             CreatedAtOrdinal after))
      (S (length items)) None = Some (Ok pages)
    ∧ mjoin pages = items ∧ Forall (λ p, Z.of_nat (length p) ≤ page_size) pages)
  ∧ StronglySorted (λ x y, strictly direction (position_of x) (position_of y)) items
  ∧ (∀ y, y ∈ items ↔
       ∃ s turn item row, s ∈ lineage ∧ y = shown_item turn item row
         ∧ thread_items db
             !! (thread_id_to_string (RolloutLineageSegment.thread_id s), turn, item) = Some row
         ∧ contains_ordinal (ItemRow.rollout_ordinal row) s = true
         ∧ wanted_item turn_filter after turn row = true).
Proof.
  intros items Hjson Hr Hp Hmax Hafter.
  assert (Hfits : ∀ a, after = Some a → a ≤ I64_MAX) by (intros a Ha; by apply Hafter).
  assert (Hord : ∀ i j s t a b, lineage !! i = Some s → lineage !! j = Some t → (i < j)%nat →
    contains_ordinal a s = true → contains_ordinal b t = true → a < b)
    by (intros *; by eapply readable_ordered).
  split_and!; [|..|intros y; by apply visible_items_elem].
  - destruct (follow_pages_all lineage direction (item_list db turn_filter after direction)
      (query_items db direction turn_filter after))
      with (requested := thread) (scope := ItemsByCreatedAtOrdinal)
      (page_size := page_size) as (pages & Hf & Hall & Hlen);
      [done|intros i s; by eapply item_list_sorted|intros i s x; by eapply item_list_inside
      |intros i s cursor limit; by eapply query_items_rows|done|by eapply readable_nonempty|done..|].
    exists pages. split_and!; [|exact Hall|done]. rewrite <- Hf. apply follow_pages_ext.
    intros c. apply page_item_rows_created. intros a Ha. by apply Hafter in Ha as [_ ?].
  - apply listing_sorted; [done|intros i s; by eapply item_list_sorted|].
    intros i s x. by eapply item_list_inside.
Qed.
End pages.

(** ** Examples *)
Module Sample.
#[local] Instance wire : WireTypes := {| Value := unit; ExecutedToolCall := unit |}.
#[local] Instance env : HistoryEnv := {|
  thread_id_to_string := decimal; shlex_try_join := λ l, Some (join [SPACE] l);
  redact_secrets := λ s, s; path_uri_join := λ a b, Some (a ++ lit "/" ++ b);
  legacy_app_path := λ s, s; SessionMetaRest := unit; InterAgentCommunication := unit;
  TurnContextItem := unit; WorldStateItem := unit; GuardianAssessmentEvent := unit;
  ApplyPatchApprovalRequestEvent := unit; TokenCountEvent := unit; OtherEvent := unit |}.

(** A cursor as its numbers. *)
#[local] Instance cursors : CursorJson := {|
  cursor_to_string := λ c,
    [HistoryCursor.requested_thread_id c; N.pos (encode (HistoryCursor.rollout_ordinal c));
     if HistoryCursor.include_anchor c then 1 else 0;
     match HistoryCursor.scope c with
     | Turns => 0 | ItemsByCreatedAtOrdinal => 1 | ItemsByUpdatedAtOrdinal => 2 end]%N;
  cursor_from_str := λ s,
    match s with
    | [thread; N.pos ordinal; anchor; scope] =>
        (λ z, HistoryCursor.mk thread z (anchor =? 1)%N
           (match scope with 0%N => Turns | 1%N => ItemsByCreatedAtOrdinal
            | _ => ItemsByUpdatedAtOrdinal end)) <$> decode ordinal
    | _ => None
    end |}.

Lemma cursors_roundtrip c : cursor_from_str (cursor_to_string c) = Some c.
Proof.
  destruct c as [thread ordinal anchor scope]. cbn [cursor_from_str cursor_to_string cursors].
  cbn [HistoryCursor.requested_thread_id HistoryCursor.rollout_ordinal HistoryCursor.include_anchor
       HistoryCursor.scope]. rewrite decode_encode. cbn. by destruct anchor, scope.
Qed.

(** Thread 6 was forked from thread 5 behind ordinal 3, and has its own row of the turn
    that was running then. *)
Definition row (ordinal : Z) : TurnRow.t :=
  TurnRow.mk ordinal None None None (lit "inProgress") None None None None None None.
Definition item (ordinal : Z) : ItemRow.t :=
  ItemRow.mk _ ordinal ordinal 0 (ThreadItem.Plan (lit "i") (lit "text")).
Definition db : HistoryDb :=
  mkDb _ {[ (decimal 5, lit "a") := row 1; (decimal 5, lit "b") := row 3;
            (decimal 6, lit "b") := row 5; (decimal 6, lit "c") := row 7 ]}
    {[ (decimal 5, lit "a", lit "i") := item 2; (decimal 6, lit "c", lit "i") := item 8 ]} ∅.
Definition lineage : RolloutLineage :=
  [RolloutLineageSegment.mk 5 [] 1 (Some (HistoryPosition.mk 5 4 0));
   RolloutLineageSegment.mk 6 [] 5 None].

Lemma db_ok thread : tables_ok db thread 9.
Proof.
  unfold db. split; cbn [thread_turns thread_items].
  - intros turn r Hr. assert (∃ n, n < 9 ∧ r = row n) as (n & Hn & ->).
    { rewrite !lookup_insert_Some, lookup_singleton_Some in Hr.
      destruct Hr as [[_ <-]|[_ [[_ <-]|[_ [[_ <-]|[_ [_ <-]]]]]]];
        (eexists; split; [|reflexivity]; done). }
    split_and!; [done|done|by exists TurnStatus.InProgress|done|done].
  - intros turn i r Hr. assert (∃ n, n < 9 ∧ r = item n) as (n & Hn & ->).
    { rewrite !lookup_insert_Some, lookup_singleton_Some in Hr.
      destruct Hr as [[_ <-]|[_ [_ <-]]]; (eexists; split; [|reflexivity]; done). }
    cbn. lia.
  - intros t1 t2 r1 r2 H1 H2. rewrite !lookup_insert_Some, lookup_singleton_Some in H1, H2.
    naive_solver.
  - intros [t1 i1] [t2 i2] r1 r2 H1 H2. cbn [fst snd] in *.
    rewrite !lookup_insert_Some, lookup_singleton_Some in H1, H2. naive_solver.
Qed.

Lemma lineage_readable : readable db lineage.
Proof.
  split; [done| | |].
  - split; [|done]. eexists. split; [reflexivity|]. done.
  - intros s Hs. repeat (apply elem_of_cons in Hs as [->|Hs]; [split; [done|by intros e [= <-]]|]).
    by apply elem_of_nil in Hs.
  - intros s _. exists 9. split; [done|apply db_ok].
Qed.

Lemma turn_pages_enumerate_witness :
  (∃ pages,
    follow_pages (λ cursor, page_turn_rows db lineage 6%N cursor 2 Desc NotLoaded)
      (S (length (visible_turns db lineage Desc NotLoaded))) None = Some (Ok pages)
    ∧ mjoin pages = visible_turns db lineage Desc NotLoaded
    ∧ Forall (λ p, Z.of_nat (length p) ≤ 2) pages
    ∧ StronglySorted (λ x y, strictly Desc (position_of x) (position_of y)) (mjoin pages))
  ∧ StoredTurnRow.turn_id <$> visible_turns db lineage Desc NotLoaded = [lit "c"; lit "b"; lit "a"].
Proof.
  split; [|vm_compute; reflexivity].
  apply (turn_pages_enumerate db lineage 6%N 2 Desc NotLoaded);
    [exact cursors_roundtrip|exact lineage_readable|done|done].
Defined.

Lemma turn_listing_is_lookup_witness :
  NoDup (StoredTurnRow.turn_id <$> visible_turns db lineage Asc Summary)
  ∧ ∃ y, y ∈ visible_turns db lineage Asc Summary ∧ StoredTurnRow.turn_id y = lit "b".
Proof.
  destruct (turn_listing_is_lookup db lineage Asc Summary lineage_readable) as (_ & Hfound & Hnd).
  split; [exact Hnd|]. apply (Hfound (lit "b") 6%N (row 5)). vm_compute. reflexivity.
Defined.

Lemma item_pages_enumerate_witness :
  (∃ pages,
    follow_pages (λ cursor,
        page_item_rows db lineage
          (ListItemsParams.mk 6%N None false cursor 1 Asc CreatedAtOrdinal None))
      (S (length (visible_items db lineage None None Asc))) None = Some (Ok pages)
    ∧ mjoin pages = visible_items db lineage None None Asc
    ∧ Forall (λ p, Z.of_nat (length p) ≤ 1) pages)
  ∧ StoredThreadItemRow.position <$> visible_items db lineage None None Asc = [2; 8].
Proof.
  split; [|vm_compute; reflexivity].
  apply (item_pages_enumerate db lineage 6%N None false 1 Asc None);
    [exact cursors_roundtrip|exact lineage_readable|done|done|done].
Defined.
End Sample.
