(* ===== verification/ShellScript.v ===== *)
(** * Reading shell scripts: [shell-command/src/{bash,shell_detect}.rs]

    The commands of a [bash -lc] script, read off its syntax tree.  The parser,
    tree-sitter with the bash grammar, is a parameter; the traversals of the tree are
    modelled with their stacks. *)

From Stdlib Require Import String.
From stdpp Require Import base option list numbers.
From S2P Require Import Prelude ExecPolicy.

Set Warnings "-register-all".

(** ** Shell detection *)

Inductive ShellType : Type := Zsh | Bash | Sh.

Definition shell_type_name (t : ShellType) : str :=
  match t with Zsh => lit "zsh" | Bash => lit "bash" | Sh => lit "sh" end.

(** [Path::file_stem]: the file name up to its last dot, unless the dot leads. *)
Definition file_stem (path : str) : option str :=
  name ← file_name path;
  Some match rsplit_once 46%N name with
       | Some (stem, _) => if bool_decide (stem = []) then name else stem
       | None => name
       end.

Definition path_component_eqb (a b : path_component) : bool :=
  match a, b with
  | RootDir, RootDir | CurDir, CurDir | ParentDir, ParentDir => true
  | Normal x, Normal y => bool_decide (x = y)
  | _, _ => false
  end.

(** [Path]'s equality: component by component. *)
Fixpoint components_eqb (a b : list path_component) : bool :=
  match a, b with
  | [], [] => true
  | x :: a', y :: b' => path_component_eqb x y && components_eqb a' b'
  | _, _ => false
  end.

Definition path_eqb (a b : str) : bool := components_eqb (components a) (components b).

(** The recursion on the stem; every call is on a shorter name, so the length of the
    path bounds their number. *)
Fixpoint detect_shell_type_fuel (fuel : nat) (path : str) : option ShellType :=
  if bool_decide (path = lit "zsh") then Some Zsh
  else if bool_decide (path = lit "sh") then Some Sh
  else if bool_decide (path = lit "bash") then Some Bash
  else match fuel, file_stem path with
       | S fuel', Some name =>
           if negb (path_eqb name path) then detect_shell_type_fuel fuel' name else None
       | _, _ => None
       end.

Definition detect_shell_type (path : str) : option ShellType :=
  detect_shell_type_fuel (length path) path.

(** ** Shell selection *)

Record DetectedShell : Type := mkDetected { shell_type : ShellType; shell_path : str }.

Definition detected_name (s : DetectedShell) : str := shell_type_name (shell_type s).

(** What the host answers: the regular files it has, the programs found on the search
    path, and whether it is a macOS host. *)
Record Host : Type := mkHost {
  is_file : str → bool;
  which : str → option str;
  user_shell_path : option str;
  is_macos : bool
}.

Section selection.
Variable host : Host.

Definition file_exists (path : str) : option str :=
  if is_file host path then Some path else None.

Definition fallback_path (paths : list str) : option str := head (omap file_exists paths).

Definition get_shell_path (t : ShellType) (provided : option str) (binary_name : str)
  (fallback_paths : list str) : option str :=
  match provided ≫= file_exists with
  | Some path => Some path
  | None =>
      match user_shell_path host with
      | Some path =>
          if match detect_shell_type path, t with
             | Some Zsh, Zsh | Some Bash, Bash | Some Sh, Sh => true
             | _, _ => false
             end && bool_decide (is_Some (file_exists path))
          then Some path
          else match which host binary_name with
               | Some path => Some path
               | None => fallback_path fallback_paths
               end
      | None =>
          match which host binary_name with
          | Some path => Some path
          | None => fallback_path fallback_paths
          end
      end
  end.

Definition ZSH_FALLBACK_PATHS : list str := [lit "/bin/zsh"].
Definition BASH_FALLBACK_PATHS : list str := [lit "/bin/bash"; lit "/usr/bin/bash"].
Definition SH_FALLBACK_PATHS : list str := [lit "/bin/sh"].

Definition get_zsh_shell (path : option str) : option DetectedShell :=
  mkDetected Zsh <$> get_shell_path Zsh path (lit "zsh") ZSH_FALLBACK_PATHS.

Definition get_bash_shell (path : option str) : option DetectedShell :=
  mkDetected Bash <$> get_shell_path Bash path (lit "bash") BASH_FALLBACK_PATHS.

Definition get_sh_shell (path : option str) : option DetectedShell :=
  mkDetected Sh <$> get_shell_path Sh path (lit "sh") SH_FALLBACK_PATHS.

Definition ultimate_fallback_shell : DetectedShell := mkDetected Sh (lit "/bin/sh").

Definition get_shell (t : ShellType) (path : option str) : option DetectedShell :=
  match t with
  | Zsh => get_zsh_shell path
  | Bash => get_bash_shell path
  | Sh => get_sh_shell path
  end.

Definition get_shell_by_model_provided_path (path : str) : DetectedShell :=
  default ultimate_fallback_shell (t ← detect_shell_type path; get_shell t (Some path)).

Definition or_else {A} (a b : option A) : option A := match a with Some x => Some x | None => b end.

Definition default_user_shell_from_path (user_shell : option str) : DetectedShell :=
  let user_default := shell ← user_shell; t ← detect_shell_type shell; get_shell t None in
  default ultimate_fallback_shell
    (if is_macos host
     then or_else (or_else user_default (get_shell Zsh None)) (get_shell Bash None)
     else or_else (or_else user_default (get_shell Bash None)) (get_shell Zsh None)).

Definition default_user_shell : DetectedShell :=
  default_user_shell_from_path (user_shell_path host).
End selection.

(** ** Syntax trees *)

(** A tree-sitter node: its kind, whether it is named, its text and start in the
    source, and its children. *)
Inductive Node : Type :=
| mkNode (node_kind : str) (node_named : bool) (node_text : str) (node_start : nat)
    (node_children : list Node).

Definition kind (n : Node) : str := let '(mkNode k _ _ _ _) := n in k.
Definition is_named (n : Node) : bool := let '(mkNode _ b _ _ _) := n in b.
Definition text (n : Node) : str := let '(mkNode _ _ t _ _) := n in t.
Definition start_byte (n : Node) : nat := let '(mkNode _ _ _ s _) := n in s.
Definition children (n : Node) : list Node := let '(mkNode _ _ _ _ c) := n in c.

Definition named_children (n : Node) : list Node := filter (λ c, is_named c = true) (children n).

Definition kind_is (n : Node) (k : string) : bool := bool_decide (kind n = lit k).

Definition kind_in (n : Node) (ks : list string) : bool := existsb (kind_is n) ks.

(** The number of nodes, which bounds every traversal. *)
Fixpoint tree_size (n : Node) : nat :=
  let '(mkNode _ _ _ _ cs) := n in S (sum_list (map tree_size cs)).

(** [while let Some(node) = stack.pop() { visit; push next(node) }]: the nodes in the
    order in which they are popped.  The head of the list is the top of the stack. *)
Fixpoint pop_all (fuel : nat) (next : Node → list Node) (stack : list Node) : list Node :=
  match fuel, stack with
  | S fuel', n :: stack' => n :: pop_all fuel' next (rev (next n) ++ stack')
  | _, _ => []
  end.

Definition traverse (next : Node → list Node) (root : Node) : list Node :=
  pop_all (tree_size root) next [root].

(** ** Words *)

Definition strip_quotes (q : char) (raw : str) : option str :=
  inner ← strip_prefix [q] raw; strip_suffix [q] inner.

Definition parse_double_quoted_string (n : Node) : option str :=
  if negb (kind_is n "string") then None
  else if forallb (λ part, kind_is part "string_content") (named_children n)
  then strip_quotes 34%N (text n) else None.

Definition parse_raw_string (n : Node) : option str :=
  if negb (kind_is n "raw_string") then None else strip_quotes 39%N (text n).

Definition is_literal_word_or_number (n : Node) : bool :=
  kind_in n ["word"; "number"]%string
  && match named_children n with [] => true | _ => false end.

(** [push_str] of the parts of a concatenation, stopping at the first failure. *)
Fixpoint concat_parts (f : Node → option str) (parts : list Node) : option str :=
  match parts with
  | [] => Some []
  | p :: parts' => a ← f p; b ← concat_parts f parts'; Some (a ++ b)
  end.

Definition nonempty_word (w : str) : option str := if bool_decide (w = []) then None else Some w.

Definition plain_part (part : Node) : option str :=
  if kind_in part ["word"; "number"]%string then Some (text part)
  else if kind_is part "string" then parse_double_quoted_string part
  else if kind_is part "raw_string" then parse_raw_string part
  else None.

(** One named child of a plain command. *)
Definition plain_word (child : Node) : option str :=
  if kind_is child "command_name" then
    match named_children child with
    | word_node :: _ => if kind_is word_node "word" then Some (text word_node) else None
    | [] => None
    end
  else if kind_is child "concatenation" then
    w ← concat_parts plain_part (named_children child); nonempty_word w
  else plain_part child.

Definition parse_plain_command_from_node (cmd : Node) : option (list str) :=
  if negb (kind_is cmd "command") then None else mapM plain_word (named_children cmd).

(** [parse_literal_shell_word], structurally on the tree. *)
Fixpoint parse_literal_shell_word (n : Node) : option str :=
  let '(mkNode _ _ _ _ cs) := n in
  if kind_in n ["word"; "number"]%string && is_literal_word_or_number n then Some (text n)
  else if kind_is n "string" then parse_double_quoted_string n
  else if kind_is n "raw_string" then parse_raw_string n
  else if kind_is n "concatenation" then
    w ← (fix parts (l : list Node) : option str :=
           match l with
           | [] => Some []
           | p :: l' =>
               if is_named p then
                 a ← parse_literal_shell_word p; b ← parts l'; Some (a ++ b)
               else parts l'
           end) cs;
    nonempty_word w
  else None.

(** The loop over the named children; [None] when the command name is not literal. *)
Fixpoint literal_words (found : bool) (words : list str) (cs : list Node)
  : option (bool * list str) :=
  match cs with
  | [] => Some (found, words)
  | child :: cs' =>
      if kind_is child "command_name" then
        word_node ← head (named_children child);
        name ← parse_literal_shell_word word_node;
        literal_words true (words ++ [name]) cs'
      else if found then
        match parse_literal_shell_word child with
        | Some word => literal_words found (words ++ [word]) cs'
        | None => literal_words found words cs'
        end
      else literal_words found words cs'
  end.

Definition parse_literal_command_from_node (cmd : Node) : option (list str) :=
  if negb (kind_is cmd "command") then None
  else
    r ← literal_words false [] (named_children cmd);
    let '(found, words) := r in if found : bool then Some words else None.

Definition is_allowed_heredoc_attachment_kind (n : Node) : bool :=
  kind_in n ["heredoc_body"; "simple_heredoc_body"; "heredoc_redirect"; "herestring_redirect";
             "redirected_statement"]%string.

Fixpoint heredoc_words (cs : list Node) : option (list str) :=
  match cs with
  | [] => Some []
  | child :: cs' =>
      if kind_is child "command_name" then
        word_node ← head (named_children child);
        if is_literal_word_or_number word_node
        then ws ← heredoc_words cs'; Some (text word_node :: ws) else None
      else if kind_in child ["word"; "number"]%string then
        if is_literal_word_or_number child
        then ws ← heredoc_words cs'; Some (text child :: ws) else None
      else if kind_is child "comment" || is_allowed_heredoc_attachment_kind child
      then heredoc_words cs'
      else None
  end.

Definition parse_heredoc_command_words (cmd : Node) : option (list str) :=
  if negb (kind_is cmd "command") then None
  else ws ← heredoc_words (named_children cmd); match ws with [] => None | _ => Some ws end.

(** ** Scripts *)

Definition ALLOWED_KINDS : list string :=
  ["program"; "list"; "pipeline"; "command"; "command_name"; "word"; "string"; "string_content";
   "raw_string"; "number"; "concatenation"]%string.

Definition ALLOWED_PUNCT_TOKENS : list str :=
  [lit "&&"; lit "||"; lit ";"; lit "|"; [34%N]; [39%N]].

Definition punct_allowed (k : str) : bool := existsb (λ t, bool_decide (t = k)) ALLOWED_PUNCT_TOKENS.

(** The tests of the loop body on one node. *)
Definition node_allowed (n : Node) : bool :=
  if is_named n then kind_in n ALLOWED_KINDS
  else
    negb (existsb (λ c, existsb (N.eqb c) (lit "&;|")) (kind n) && negb (punct_allowed (kind n)))
    && (punct_allowed (kind n) || bool_decide (trim (kind n) = [])).

(** [sort_by_key(Node::start_byte)], a stable sort. *)
Fixpoint insert_by_byte (n : Node) (l : list Node) : list Node :=
  match l with
  | [] => [n]
  | m :: l' => if start_byte n <=? start_byte m then n :: l else m :: insert_by_byte n l'
  end.

Definition sort_by_byte (l : list Node) : list Node := foldr insert_by_byte [] l.

(** A parsed script: the root node and whether the tree has errors. *)
Record Tree : Type := mkTree { root_node : Node; has_error : bool }.

Definition command_nodes (visited : list Node) : list Node :=
  filter (λ n, is_named n && kind_is n "command" = true) visited.

Definition try_parse_word_only_commands_sequence (tree : Tree) : option (list (list str)) :=
  if has_error tree then None
  else
    let visited := traverse children (root_node tree) in
    if forallb node_allowed visited
    then mapM parse_plain_command_from_node (sort_by_byte (command_nodes visited))
    else None.

Definition has_named_descendant_kind (n : Node) (k : string) : bool :=
  existsb (λ m, kind_is m k) (traverse named_children n).

(** The single command node; [None] if there is none or a second one. *)
Definition find_single_command_node (root : Node) : option Node :=
  match filter (λ n, kind_is n "command" = true) (traverse named_children root) with
  | [n] => Some n
  | _ => None
  end.

Definition extract_bash_command (command : list str) : option (str * str) :=
  match command with
  | [shell; flag; script] =>
      if negb (bool_decide (flag = lit "-lc") || bool_decide (flag = lit "-c")) then None
      else match detect_shell_type shell with
           | Some _ => Some (shell, script)
           | None => None
           end
  | _ => None
  end.

Section scripts.
Variable try_parse_shell : str → option Tree.

Definition parse_shell_script_into_commands (script : str) : option (list (list str)) :=
  tree ← try_parse_shell script; try_parse_word_only_commands_sequence tree.

Definition parse_shell_lc_plain_commands (command : list str) : option (list (list str)) :=
  '(_, script) ← extract_bash_command command; parse_shell_script_into_commands script.

Definition parse_shell_lc_literal_commands (command : list str) : option (list (list str)) :=
  '(_, script) ← extract_bash_command command;
  tree ← try_parse_shell script;
  if has_error tree then None
  else Some (omap (λ n, if kind_is n "command" then parse_literal_command_from_node n else None)
               (traverse named_children (root_node tree))).

Definition parse_shell_lc_single_command_prefix (command : list str) : option (list str) :=
  '(_, script) ← extract_bash_command command;
  tree ← try_parse_shell script;
  if has_error tree then None
  else if negb (has_named_descendant_kind (root_node tree) "heredoc_redirect") then None
  else if has_named_descendant_kind (root_node tree) "file_redirect" then None
  else n ← find_single_command_node (root_node tree); parse_heredoc_command_words n.
End scripts.
