(* ===== verification/ShellScriptFacts.v ===== *)
(** * Facts about shell scripts and shell selection

    The traversals of a syntax tree visit exactly the descendants of its root within
    the fuel they are given, a word-only script yields all of its commands in source
    order, and a selected shell is one the host has. *)

From Stdlib Require Import String.
From stdpp Require Import base option list numbers sorting relations.
From S2P Require Import Prelude ExecRule ExecPolicy ShellScript.

Set Warnings "-clear-no-such-hyp".

(** ** Traversals *)

(** [m] is reached from [n] by the children the traversal pushes. *)
Definition descendant (next : Node → list Node) : Node → Node → Prop :=
  rtc (λ a b, b ∈ next a).

Definition forest_size (l : list Node) : nat := sum_list (map tree_size l).

(** What a traversal pushes: a sublist of the children. *)
Definition pushes_children (next : Node → list Node) : Prop :=
  ∀ n, sublist (next n) (children n).

(** The order of the nodes in the source. *)
Definition by_start (a b : Node) : Prop := start_byte a ≤ start_byte b.

Lemma forest_size_app l k : forest_size (l ++ k) = forest_size l + forest_size k.
Proof. unfold forest_size. induction l as [|n l IH]; cbn in *; [done|]. rewrite IH. lia. Qed.

Lemma forest_size_rev l : forest_size (rev l) = forest_size l.
Proof.
  induction l as [|n l IH]; [done|]. cbn [rev]. rewrite forest_size_app, IH.
  unfold forest_size. cbn. lia.
Qed.

Lemma forest_size_sublist l k : sublist l k → forest_size l ≤ forest_size k.
Proof. unfold forest_size. induction 1; cbn in *; lia. Qed.

Lemma tree_size_children n : tree_size n = S (forest_size (children n)).
Proof. by destruct n. Qed.

Lemma pushes_all : pushes_children children.
Proof. intros n. reflexivity. Qed.

Lemma pushes_named : pushes_children named_children.
Proof. intros n. apply sublist_filter. Qed.

#[export] Hint Resolve pushes_all pushes_named : strings.

Lemma elem_of_rev {A} (l : list A) x : x ∈ rev l ↔ x ∈ l.
Proof. rewrite !list_elem_of_In. symmetry. apply in_rev. Qed.

Section traversal.
Context (next : Node → list Node) (Hnext : pushes_children next).

Lemma pop_all_elem fuel stack m :
  forest_size stack ≤ fuel →
  m ∈ pop_all fuel next stack ↔ ∃ n, n ∈ stack ∧ descendant next n m.
Proof.
  revert stack. induction fuel as [|fuel IH]; intros [|n stack] Hf.
  - set_solver.
  - cbn in Hf. pose proof (tree_size_children n). unfold forest_size in Hf. cbn in Hf. lia.
  - set_solver.
  - assert (Hs : forest_size (rev (next n) ++ stack) ≤ fuel).
    { rewrite forest_size_app, forest_size_rev.
      pose proof (forest_size_sublist _ _ (Hnext n)). pose proof (tree_size_children n).
      unfold forest_size in *. cbn in Hf. lia. }
    cbn [pop_all]. rewrite elem_of_cons, (IH _ Hs). split.
    + intros [->|(k & Hk & Hd)]; [exists n; split; [set_solver|apply rtc_refl]|].
      apply elem_of_app in Hk as [Hk|Hk]; [|exists k; set_solver].
      exists n. split; [set_solver|]. eapply rtc_l; [|done]. by apply elem_of_rev.
    + intros (k & Hk & Hd). apply elem_of_cons in Hk as [->|Hk]; [|right; exists k; set_solver].
      inversion Hd as [|? k' ? Hk' Hd']; subst; [by left|]. right. exists k'. split; [|done].
      apply elem_of_app. left. by apply elem_of_rev.
Qed.

(** The traversal visits exactly the descendants of its root: the size of the tree is
    enough fuel. *)
Lemma traverse_elem root m : m ∈ traverse next root ↔ descendant next root m.
Proof.
  unfold traverse. rewrite pop_all_elem; [set_solver|]. unfold forest_size. cbn. lia.
Qed.
End traversal.

Lemma descendant_named n m : descendant named_children n m → descendant children n m.
Proof.
  apply rtc_subrel. intros a b Hb. unfold named_children in Hb.
  by apply list_elem_of_filter in Hb as [_ Hb].
Qed.

(** ** Word-only scripts *)

Lemma insert_by_byte_elem n l m : m ∈ insert_by_byte n l ↔ m = n ∨ m ∈ l.
Proof.
  induction l as [|k l IH]; cbn; [set_solver|].
  destruct (start_byte n <=? start_byte k); set_solver.
Qed.

Lemma sort_by_byte_elem l m : m ∈ sort_by_byte l ↔ m ∈ l.
Proof.
  induction l as [|n l IH]; [done|]. cbn. rewrite insert_by_byte_elem, IH. set_solver.
Qed.

Lemma insert_by_byte_sorted n l :
  StronglySorted by_start l → StronglySorted by_start (insert_by_byte n l).
Proof.
  induction 1 as [|k l Hs IH Hf]; cbn; [repeat constructor|].
  destruct (Nat.leb_spec (start_byte n) (start_byte k)) as [Hle|Hlt].
  - constructor; [by constructor|]. constructor; [done|].
    apply (Forall_weaken _ _ _ Hf). unfold by_start. lia.
  - constructor; [done|]. apply Forall_forall. intros m Hm.
    apply insert_by_byte_elem in Hm as [->|Hm]; [unfold by_start; lia|].
    exact (Forall_elem _ _ _ Hf Hm).
Qed.

Lemma sort_by_byte_sorted l : StronglySorted by_start (sort_by_byte l).
Proof. induction l; cbn; [constructor|by apply insert_by_byte_sorted]. Qed.

Lemma command_nodes_elem root n :
  n ∈ command_nodes (traverse children root) ↔
  descendant children root n ∧ is_named n = true ∧ kind_is n "command" = true.
Proof.
  unfold command_nodes. rewrite list_elem_of_filter, andb_true_iff, traverse_elem; [|apply pushes_all].
  tauto.
Qed.

Lemma try_parse_word_only_inv tree cmds :
  try_parse_word_only_commands_sequence tree = Some cmds →
  has_error tree = false
  ∧ (∀ n, descendant children (root_node tree) n → node_allowed n = true)
  ∧ ∃ nodes,
      mapM parse_plain_command_from_node nodes = Some cmds
      ∧ StronglySorted by_start nodes
      ∧ ∀ n, n ∈ nodes ↔
          descendant children (root_node tree) n ∧ is_named n = true ∧ kind_is n "command" = true.
Proof.
  unfold try_parse_word_only_commands_sequence.
  destruct (has_error tree); [done|]. destruct (forallb _ _) eqn:Ha; [|done]. intros Hm.
  split_and!; [done| |].
  - intros n Hn. rewrite forallb_forall in Ha. apply Ha, list_elem_of_In.
    by apply traverse_elem; [apply pushes_all|].
  - eexists. split_and!; [done|apply sort_by_byte_sorted|]. intros n.
    by rewrite sort_by_byte_elem, command_nodes_elem.
Qed.

(** A script read as a word-only sequence parsed without errors, every node of its
    tree is of an allowed kind (so there is no redirection, substitution or control
    flow in it), and the commands returned are the words of exactly its command nodes,
    in source order. *)
Theorem word_only_sequence_sound parse script cmds :
  parse_shell_script_into_commands parse script = Some cmds →
  ∃ tree nodes,
    parse script = Some tree ∧ has_error tree = false
    ∧ (∀ n, descendant children (root_node tree) n → node_allowed n = true)
    ∧ Forall2 (λ n words, parse_plain_command_from_node n = Some words) nodes cmds
    ∧ StronglySorted by_start nodes
    ∧ ∀ n, n ∈ nodes ↔
        descendant children (root_node tree) n ∧ is_named n = true ∧ kind n = lit "command".
Proof.
  unfold parse_shell_script_into_commands. intros (tree & Ht & Hp)%bind_Some.
  apply try_parse_word_only_inv in Hp as (He & Ha & nodes & Hm & Hs & Hn).
  exists tree, nodes. split_and!; try done; [by apply mapM_Some_1|].
  intros n. rewrite Hn. unfold kind_is. by rewrite bool_decide_eq_true.
Qed.

(** A parser that knows one script, [ls -l | wc], and its tree. *)
Module SampleScript.

Definition word (t : string) (at_byte : nat) : Node := mkNode (lit "word") true (lit t) at_byte [].

Definition simple_command (name : string) (args : list Node) (at_byte : nat) : Node :=
  mkNode (lit "command") true (lit name) at_byte
    (mkNode (lit "command_name") true (lit name) at_byte [word name at_byte] :: args).

Definition script : str := lit "ls -l | wc".

Definition tree : Tree :=
  mkTree
    (mkNode (lit "program") true script 0
       [mkNode (lit "pipeline") true script 0
          [simple_command "ls" [word "-l" 3] 0; mkNode (lit "|") false (lit "|") 6 [];
           simple_command "wc" [] 8]])
    false.

Definition parse (s : str) : option Tree := if bool_decide (s = script) then Some tree else None.

End SampleScript.

Lemma word_only_sequence_sound_witness :
  ∃ tree nodes,
    SampleScript.parse SampleScript.script = Some tree ∧ has_error tree = false
    ∧ (∀ n, descendant children (root_node tree) n → node_allowed n = true)
    ∧ Forall2 (λ n words, parse_plain_command_from_node n = Some words) nodes
        [[lit "ls"; lit "-l"]; [lit "wc"]]
    ∧ StronglySorted by_start nodes
    ∧ ∀ n, n ∈ nodes ↔
        descendant children (root_node tree) n ∧ is_named n = true ∧ kind n = lit "command".
Proof. apply word_only_sequence_sound. vm_compute. reflexivity. Defined.

(** ** Shell detection *)

Lemma join_elem_length c l x : x ∈ l → x = join [c] l ∨ length x < length (join [c] l).
Proof.
  induction l as [|y l IH]; intros Hx; [by apply elem_of_nil in Hx|].
  destruct l as [|z l]; [apply list_elem_of_singleton in Hx as ->; by left|].
  right. rewrite join_cons by done. rewrite !length_app. cbn [length].
  apply elem_of_cons in Hx as [->|Hx]; [lia|]. destruct (IH Hx) as [->|H]; lia.
Qed.

Lemma file_name_piece path name : file_name path = Some name → name ∈ split_char 47%N path.
Proof.
  unfold file_name. destruct (last (components path)) as [c|] eqn:Hl; [|done].
  intros Hn. destruct c; try done. injection Hn as ->.
  assert (Hin : Normal name ∈ components path).
  { apply last_Some_snoc in Hl as [l ->]. apply elem_of_app. right. by apply list_elem_of_singleton. }
  assert (Hb : Normal name ∈ omap component_of (split_char 47%N path)).
  { unfold components in Hin. repeat case_match; try done; try (by apply elem_of_nil in Hin);
      by apply elem_of_cons in Hin as [?|Hin]. }
  apply list_elem_of_omap in Hb as (piece & Hp & Hc). unfold component_of in Hc.
  repeat case_bool_decide; try done. by injection Hc as <-.
Qed.

Lemma components_eqb_refl l : components_eqb l l = true.
Proof.
  induction l as [|[] l IH]; cbn; rewrite ?IH; try done.
  by rewrite bool_decide_true by done.
Qed.

(** The stem of a path is shorter than the path, or is the path. *)
Lemma file_stem_shorter path stem :
  file_stem path = Some stem → stem = path ∨ length stem < length path.
Proof.
  unfold file_stem. intros (name & Hn%file_name_piece & Hs)%bind_Some.
  apply (join_elem_length 47%N) in Hn. rewrite join_split_char in Hn.
  destruct (rsplit_once 46%N name) as [[a b]|] eqn:Hr; [|injection Hs as <-; done].
  apply rsplit_once_Some in Hr as Ha.
  assert (Hlen : length a < length name) by (rewrite Ha, length_app; cbn; lia).
  injection Hs as <-. case_bool_decide; [done|]. right. destruct Hn as [->|Hn]; lia.
Qed.

(** The length of the path is enough fuel: more does not change the answer. *)
Lemma detect_shell_type_enough fuel path :
  length path ≤ fuel → detect_shell_type_fuel fuel path = detect_shell_type path.
Proof.
  assert (Hind : ∀ n fuel path, length path ≤ n → length path ≤ fuel →
    detect_shell_type_fuel fuel path = detect_shell_type_fuel n path).
  { clear fuel path. induction n as [|n IH]; intros [|fuel] path Hn Hf; try done.
    1,2: assert (path = []) as -> by (apply length_zero_iff_nil; lia); done.
    cbn [detect_shell_type_fuel]. destruct (file_stem path) as [stem|] eqn:Hs; [|done].
    destruct (path_eqb stem path) eqn:He; [done|].
    destruct (file_stem_shorter _ _ Hs) as [->|Hl].
    { unfold path_eqb in He. by rewrite components_eqb_refl in He. }
    by rewrite (IH fuel stem) by lia. }
  intros Hf. unfold detect_shell_type. by apply Hind.
Qed.

(** ** Shell selection *)

(** The path of a shell of type [t] comes from a source that vouches for it. *)
Definition vouched (h : Host) (t : ShellType) (provided : option str) (path : str) : Prop :=
  (provided = Some path ∧ is_file h path = true)
  ∨ (user_shell_path h = Some path ∧ detect_shell_type path = Some t ∧ is_file h path = true)
  ∨ which h (shell_type_name t) = Some path
  ∨ is_file h path = true.

Lemma file_exists_Some h p q : file_exists h p = Some q ↔ q = p ∧ is_file h p = true.
Proof. unfold file_exists. destruct (is_file h p); naive_solver. Qed.

Lemma fallback_path_file h paths q : fallback_path h paths = Some q → is_file h q = true.
Proof.
  unfold fallback_path. induction paths as [|p paths IH]; cbn; [done|].
  destruct (file_exists h p) as [r|] eqn:E; [|done].
  intros [= ->]. by apply file_exists_Some in E as [-> Hf].
Qed.

Lemma get_shell_path_vouched h t provided fallbacks path :
  get_shell_path h t provided (shell_type_name t) fallbacks = Some path →
  vouched h t provided path.
Proof.
  unfold get_shell_path, vouched. intros Hg.
  destruct (provided ≫= file_exists h) as [p|] eqn:Hp.
  { injection Hg as ->. apply bind_Some in Hp as (x & -> & [-> Hf]%file_exists_Some). by left. }
  destruct (user_shell_path h) as [u|] eqn:Hu.
  - destruct (_ && _) eqn:Hc.
    + injection Hg as ->. apply andb_true_iff in Hc as [Ht Hf]. right; left.
      apply bool_decide_eq_true in Hf as [x [-> Hf]%file_exists_Some].
      split_and!; [done| |done]. by destruct (detect_shell_type path) as [[]|], t.
    + destruct (which h _) eqn:Hw; [naive_solver|]. apply fallback_path_file in Hg. tauto.
  - destruct (which h _) eqn:Hw; [naive_solver|]. apply fallback_path_file in Hg. tauto.
Qed.

Lemma get_shell_vouched h t provided s :
  get_shell h t provided = Some s → shell_type s = t ∧ vouched h t provided (shell_path s).
Proof.
  destruct t; cbn; unfold get_zsh_shell, get_bash_shell, get_sh_shell;
    intros (path & Hp & ->)%fmap_Some; (split; [done|]); by eapply get_shell_path_vouched.
Qed.

Lemma get_shell_provided h t path :
  is_file h path = true → get_shell h t (Some path) = Some (mkDetected t path).
Proof.
  intros Hf. assert (He : file_exists h path = Some path) by by apply file_exists_Some.
  by destruct t; cbn; unfold get_zsh_shell, get_bash_shell, get_sh_shell, get_shell_path;
    cbn; rewrite He.
Qed.

(** A shell path chosen by the model is used as given when it names an existing file
    of a known shell; otherwise the shell is one of the detected type that the host
    vouches for (the user's own shell of that type, one on the search path, or an
    existing fallback file), and only [/bin/sh] when there is none or the type is
    unknown. *)
Theorem model_shell_selection h path :
  let s := get_shell_by_model_provided_path h path in
  match detect_shell_type path with
  | None => s = ultimate_fallback_shell
  | Some t =>
      if is_file h path then s = mkDetected t path
      else (get_shell h t (Some path) = None ∧ s = ultimate_fallback_shell)
           ∨ (shell_type s = t ∧ vouched h t None (shell_path s))
  end.
Proof.
  cbn. unfold get_shell_by_model_provided_path. destruct (detect_shell_type path) as [t|]; [|done].
  cbn. destruct (is_file h path) eqn:Hf; [by rewrite get_shell_provided|].
  destruct (get_shell h t (Some path)) as [s|] eqn:Hg; [|by left]. right. cbn.
  apply get_shell_vouched in Hg as [Ht Hv]. split; [done|].
  unfold vouched in *. destruct Hv as [[[= <-] Hx]|Hv]; [congruence|by right].
Qed.
