(* ===== verification/CommandSafety.v ===== *)
(** * Command safety: [shell-command/src/command_safety/*.rs]

    Two classifiers over tokenized commands: those known to be safe, which run without
    approval, and those known to be dangerous.  Both look into the scripts of [bash -lc]
    invocations; the shell parser is a parameter. *)

From Stdlib Require Import String.
From stdpp Require Import base option list numbers.
From S2P Require Import Prelude ExecRule ExecPolicy ShellScript.

Open Scope string_scope.

Definition one_of (s : str) (options : list string) : bool :=
  existsb (λ o, bool_decide (s = lit o)) options.

Definition executable_name_lookup_key (raw : str) : option str := file_name raw.

(** ** Git *)

Definition is_git_global_option_with_value (arg : str) : bool :=
  one_of arg ["-C"; "-c"; "--config-env"; "--exec-path"; "--git-dir"; "--namespace";
              "--super-prefix"; "--work-tree"].

Definition is_git_global_option_with_inline_value (arg : str) : bool :=
  existsb (λ p, starts_with (lit p) arg)
    ["--config-env="; "--exec-path="; "--git-dir="; "--namespace="; "--super-prefix=";
     "--work-tree="]
  || ((starts_with (lit "-C") arg || starts_with (lit "-c") arg) && (2 <? byte_len arg)%nat).

(** The loop over the arguments, at index [idx]. *)
Fixpoint find_subcommand (subcommands : list string) (idx : nat) (skip_next : bool)
  (args : list str) : option (nat * str) :=
  match args with
  | [] => None
  | arg :: args' =>
      if skip_next then find_subcommand subcommands (S idx) false args'
      else if is_git_global_option_with_inline_value arg
      then find_subcommand subcommands (S idx) false args'
      else if is_git_global_option_with_value arg
      then find_subcommand subcommands (S idx) true args'
      else if bool_decide (arg = lit "--") || starts_with (lit "-") arg
      then find_subcommand subcommands (S idx) false args'
      else if one_of arg subcommands then Some (idx, arg)
      else None
  end.

Definition find_git_subcommand (command : list str) (subcommands : list string)
  : option (nat * str) :=
  match command with
  | [] => None
  | cmd0 :: args =>
      if bool_decide (executable_name_lookup_key cmd0 = Some (lit "git"))
      then find_subcommand subcommands 1 false args else None
  end.

Inductive GitOptionPattern : Type :=
| Exact (option : string)
| ShortWithInlineValue (option : string)
| Prefix (prefix : string).

Definition option_matches (p : GitOptionPattern) (arg : str) : bool :=
  match p with
  | Exact o => bool_decide (arg = lit o)
  | ShortWithInlineValue o => starts_with (lit o) arg && (byte_len (lit o) <? byte_len arg)%nat
  | Prefix p => starts_with (lit p) arg
  end.

Definition UNSAFE_GIT_GLOBAL_OPTIONS : list GitOptionPattern :=
  [Exact "-C"; ShortWithInlineValue "-C"; Exact "-c"; ShortWithInlineValue "-c"; Exact "-p";
   Exact "--config-env"; Prefix "--config-env="; Exact "--exec-path"; Prefix "--exec-path=";
   Exact "--git-dir"; Prefix "--git-dir="; Exact "--namespace"; Prefix "--namespace=";
   Exact "--paginate"; Exact "--super-prefix"; Prefix "--super-prefix="; Exact "--work-tree";
   Prefix "--work-tree="].

Definition UNSAFE_GIT_SUBCOMMAND_OPTIONS : list GitOptionPattern :=
  [Exact "--output"; Prefix "--output="; Exact "--ext-diff"; Exact "--textconv"; Exact "--exec";
   Prefix "--exec="].

Definition git_matches_option_pattern (arg : str) (patterns : list GitOptionPattern) : bool :=
  existsb (λ p, option_matches p arg) patterns.

Definition git_has_unsafe_global_option (global_args : list str) : bool :=
  existsb (λ arg, git_matches_option_pattern arg UNSAFE_GIT_GLOBAL_OPTIONS) global_args.

Definition git_subcommand_args_are_read_only (args : list str) : bool :=
  negb (existsb (λ arg, git_matches_option_pattern arg UNSAFE_GIT_SUBCOMMAND_OPTIONS) args).

Definition branch_flag_is_read_only (arg : str) : bool :=
  one_of arg ["--list"; "-l"; "--show-current"; "-a"; "--all"; "-r"; "--remotes"; "-v"; "-vv";
              "--verbose"]
  || starts_with (lit "--format=") arg.

(** The loop of [git_branch_is_read_only], with [saw_read_only_flag]. *)
Fixpoint branch_flags_loop (saw : bool) (args : list str) : bool :=
  match args with
  | [] => saw
  | arg :: args' => if branch_flag_is_read_only arg then branch_flags_loop true args' else false
  end.

Definition git_branch_is_read_only (branch_args : list str) : bool :=
  match branch_args with [] => true | _ => branch_flags_loop false branch_args end.

Definition is_safe_git_command (command : list str) : bool :=
  match find_git_subcommand command ["status"; "log"; "diff"; "show"; "branch"] with
  | None => false
  | Some (idx, subcommand) =>
      let global_args := take (idx - 1) (drop 1 command) in
      if git_has_unsafe_global_option global_args then false
      else
        let args := drop (S idx) command in
        if one_of subcommand ["status"; "log"; "diff"; "show"]
        then git_subcommand_args_are_read_only args
        else if one_of subcommand ["branch"]
        then git_subcommand_args_are_read_only args && git_branch_is_read_only args
        else false
  end.

(** ** Safe commands *)

Definition is_valid_sed_n_arg (arg : option str) : bool :=
  match arg with
  | None => false
  | Some s =>
      match strip_suffix (lit "p") s with
      | None => false
      | Some core =>
          match split_char 44%N core with
          | [num] => negb (bool_decide (num = [])) && forallb is_ascii_digit num
          | [a; b] =>
              negb (bool_decide (a = [])) && negb (bool_decide (b = []))
              && forallb is_ascii_digit a && forallb is_ascii_digit b
          | _ => false
          end
      end
  end.

(** Programs that are safe with any arguments. *)
Definition SAFE_PROGRAMS : list string :=
  ["cat"; "cd"; "cut"; "echo"; "expr"; "false"; "grep"; "head"; "id"; "ls"; "nl"; "paste"; "pwd";
   "rev"; "seq"; "stat"; "tail"; "tr"; "true"; "uname"; "uniq"; "wc"; "which"; "whoami"].

Definition unsafe_base64_arg (arg : str) : bool :=
  one_of arg ["-o"; "--output"] || starts_with (lit "--output=") arg
  || (starts_with (lit "-o") arg && negb (bool_decide (arg = lit "-o"))).

Definition UNSAFE_FIND_OPTIONS : list string :=
  ["-exec"; "-execdir"; "-ok"; "-okdir"; "-delete"; "-fls"; "-fprint"; "-fprint0"; "-fprintf"].

Definition unsafe_ripgrep_arg (arg : str) : bool :=
  one_of arg ["--search-zip"; "-z"]
  || existsb (λ opt, bool_decide (arg = lit opt) || starts_with (lit opt ++ lit "=") arg)
       ["--pre"; "--hostname-bin"].

Definition is_safe_to_call_with_exec (command : list str) : bool :=
  match command with
  | [] => false
  | cmd0 :: args =>
      match executable_name_lookup_key cmd0 with
      | None => false
      | Some name =>
          if one_of name SAFE_PROGRAMS then true
          else if one_of name ["base64"] then negb (existsb unsafe_base64_arg args)
          else if one_of name ["find"]
          then negb (existsb (λ arg, one_of arg UNSAFE_FIND_OPTIONS) command)
          else if one_of name ["rg"] then negb (existsb unsafe_ripgrep_arg command)
          else if one_of name ["git"] then is_safe_git_command command
          else if one_of name ["sed"]
          then (length command <=? 4)%nat && bool_decide (command !! 1 = Some (lit "-n"))
               && is_valid_sed_n_arg (command !! 2)
          else false
      end
  end.

Definition zsh_as_bash (s : str) : str := if bool_decide (s = lit "zsh") then lit "bash" else s.

(** ** Dangerous commands *)

Inductive DangerousCommandMatch : Type := ForcedRm | Other.

Definition MAX_DANGEROUS_COMMAND_WRAPPER_DEPTH : nat := 8.

(** [take_while(|arg| arg != "--").any(..)] over the arguments of [rm]. *)
Fixpoint rm_args_include_force_option (args : list str) : bool :=
  match args with
  | [] => false
  | arg :: args' =>
      if bool_decide (arg = lit "--") then false
      else
        bool_decide (arg = lit "--force")
        || match strip_prefix (lit "-") arg with
           | Some flags => negb (starts_with (lit "-") flags) && contains_char 102%N flags
           | None => false
           end
        || rm_args_include_force_option args'
  end.

Definition env_skips (argument : str) : bool :=
  one_of argument ["-i"; "--ignore-environment"]
  || match split_once 61%N argument with
     | Some (name, _) => negb (bool_decide (name = [])) && negb (starts_with (lit "-") name)
     | None => false
     end.

(** The command that [env] runs: its arguments from [command_index] on. *)
Fixpoint env_command (args : list str) : list str :=
  match args with
  | [] => []
  | argument :: args' =>
      if bool_decide (argument = lit "--") then args'
      else if env_skips argument then env_command args'
      else args
  end.

(** The action of a [trap]: its first operand, unless that looks like an option. *)
Definition trap_action (args : list str) : option str :=
  let operand :=
    match args with
    | arg :: args' => if bool_decide (arg = lit "--") then head args' else Some arg
    | [] => None
    end in
  action ← operand; if starts_with (lit "-") action then None else Some action.

Section classifiers.
Variable try_parse_shell : str → option Tree.

Definition is_known_safe_command (command : list str) : bool :=
  let command := map zsh_as_bash command in
  is_safe_to_call_with_exec command
  || match parse_shell_lc_plain_commands try_parse_shell command with
     | Some all_commands =>
         negb (bool_decide (all_commands = [])) && forallb is_safe_to_call_with_exec all_commands
     | None => false
     end.

(** [dangerous_command_match_for_exec], with the recursive call as an argument. *)
Definition dangerous_command_match_for_exec
  (nested : list str → option DangerousCommandMatch) (command : list str)
  : option DangerousCommandMatch :=
  match command with
  | [] => None
  | cmd0 :: args =>
      match executable_name_lookup_key cmd0 with
      | None => None
      | Some name =>
          if one_of name ["rm"] && rm_args_include_force_option args then Some ForcedRm
          else if one_of name ["sudo"] then nested args
          else if one_of name ["env"] then nested (env_command args)
          else if one_of name ["trap"]
          then action ← trap_action args; nested [lit "sh"; lit "-c"; action]
          else None
      end
  end.

(** [find_map]. *)
Fixpoint find_map {A B} (f : A → option B) (l : list A) : option B :=
  match l with
  | [] => None
  | x :: l' => match f x with Some y => Some y | None => find_map f l' end
  end.

(** [dangerous_command_match_with_depth] at depth [9 - budget]: the depth is over the
    limit exactly when the budget is used up. *)
Fixpoint dangerous_command_match_budget (budget : nat) (command : list str)
  : option DangerousCommandMatch :=
  match budget with
  | 0 => None
  | S budget' =>
      match dangerous_command_match_for_exec (dangerous_command_match_budget budget') command with
      | Some m => Some m
      | None =>
          commands ← parse_shell_lc_literal_commands try_parse_shell command;
          find_map (dangerous_command_match_budget budget') commands
      end
  end.

Definition dangerous_command_match_with_depth (command : list str) (wrapper_depth : nat)
  : option DangerousCommandMatch :=
  dangerous_command_match_budget (S MAX_DANGEROUS_COMMAND_WRAPPER_DEPTH - wrapper_depth) command.

Definition dangerous_command_match (command : list str) : option DangerousCommandMatch :=
  dangerous_command_match_with_depth command 0.
End classifiers.
