(* ===== verification/CommandSafetyFacts.v ===== *)
(** * Facts about command safety

    What the two classifiers accept, stated without their loops, and that no command is
    classified as both safe and dangerous. *)

From Stdlib Require Import String.
From stdpp Require Import base option list numbers relations.
From S2P Require Import Prelude ExecRule ExecPolicy ShellScript ShellScriptFacts CommandSafety.

Set Warnings "-clear-no-such-hyp".
Open Scope string_scope.
Open Scope list_scope.

#[global] Arguments lit : simpl never.
#[global] Arguments file_name : simpl never.

(** ** Specifications *)

(** A command that amounts to a forced [rm] under [k] layers of wrappers. *)
Inductive runs_forced_rm (parse : str → option Tree) : nat → list str → Prop :=
| forced_rm_here cmd0 args :
    executable_name_lookup_key cmd0 = Some (lit "rm") →
    rm_args_include_force_option args = true →
    runs_forced_rm parse 0 (cmd0 :: args)
| forced_rm_sudo k cmd0 args :
    executable_name_lookup_key cmd0 = Some (lit "sudo") →
    runs_forced_rm parse k args →
    runs_forced_rm parse (S k) (cmd0 :: args)
| forced_rm_env k cmd0 args :
    executable_name_lookup_key cmd0 = Some (lit "env") →
    runs_forced_rm parse k (env_command args) →
    runs_forced_rm parse (S k) (cmd0 :: args)
| forced_rm_trap k cmd0 args action :
    executable_name_lookup_key cmd0 = Some (lit "trap") →
    trap_action args = Some action →
    runs_forced_rm parse k [lit "sh"; lit "-c"; action] →
    runs_forced_rm parse (S k) (cmd0 :: args)
| forced_rm_script k command shell script tree n words :
    extract_bash_command command = Some (shell, script) →
    parse script = Some tree →
    has_error tree = false →
    descendant named_children (root_node tree) n →
    parse_literal_command_from_node n = Some words →
    runs_forced_rm parse k words →
    runs_forced_rm parse (S k) command.

(** One or more digits. *)
Definition digits (s : str) : Prop := s ≠ [] ∧ Forall (λ c, is_ascii_digit c = true) s.

(** The language [/^(\d+,)?\d+p$/]. *)
Definition sed_print_range (s : str) : Prop :=
  (∃ n, digits n ∧ s = n ++ lit "p")
  ∨ (∃ a b, digits a ∧ digits b ∧ s = a ++ lit "," ++ b ++ lit "p").

(** Global options of a read-only [git] call: flags, none of them unsafe. *)
Definition safe_git_global (arg : str) : Prop :=
  starts_with (lit "-") arg = true
  ∧ git_matches_option_pattern arg UNSAFE_GIT_GLOBAL_OPTIONS = false.

Definition safe_git_arg (arg : str) : Prop :=
  git_matches_option_pattern arg UNSAFE_GIT_SUBCOMMAND_OPTIONS = false.

Definition GIT_READ_SUBCOMMANDS : list string := ["status"; "log"; "diff"; "show"; "branch"].

(** Evaluates membership of a literal in a list of literals. *)
Ltac eval_one_of :=
  repeat match goal with
  | |- context [one_of (lit ?x) ?l] =>
      let b := eval vm_compute in (one_of (lit x) l) in change (one_of (lit x) l) with b
  end; cbn iota.

(** ** Generic lemmas *)

Lemma one_of_true s options : one_of s options = true ↔ ∃ o, o ∈ options ∧ s = lit o.
Proof.
  unfold one_of. rewrite existsb_exists. split.
  - intros (o & Ho%list_elem_of_In & ->%bool_decide_eq_true). eauto.
  - intros (o & Ho & ->). exists o. split; [by apply list_elem_of_In|]. by apply bool_decide_eq_true.
Qed.

Lemma one_of_single s o : one_of s [o] = bool_decide (s = lit o).
Proof. unfold one_of. cbn. by rewrite orb_false_r. Qed.

Lemma existsb_false_Forall {A} (f : A → bool) l :
  existsb f l = false ↔ Forall (λ x, f x = false) l.
Proof.
  induction l as [|x l IH]; cbn; [by split|]. rewrite orb_false_iff, IH.
  split; [intros [H1 H2]; by constructor|inversion 1; tauto].
Qed.

Lemma drop_past {A} (l : list A) x k : drop (S (length l)) (l ++ x :: k) = k.
Proof. induction l; [done|]. done. Qed.

Lemma find_map_Some {A B} (f : A → option B) l y :
  find_map f l = Some y → ∃ x, x ∈ l ∧ f x = Some y.
Proof.
  induction l as [|x l IH]; cbn; [done|].
  destruct (f x) eqn:E; [intros [= ->]; exists x; set_solver|].
  intros (x' & ? & ?)%IH. exists x'. set_solver.
Qed.

Lemma find_map_None {A B} (f : A → option B) l :
  (∀ x, x ∈ l → f x = None) → find_map f l = None.
Proof.
  induction l as [|x l IH]; cbn; [done|]. intros H. rewrite (H x); [|set_solver].
  apply IH. set_solver.
Qed.

(** ** The [sed] pattern *)

Lemma digits_bool s :
  negb (bool_decide (s = [])) && forallb is_ascii_digit s = true ↔ digits s.
Proof.
  unfold digits. rewrite andb_true_iff, negb_true_iff, bool_decide_eq_false, forallb_forall.
  by rewrite <- List.Forall_forall.
Qed.

Lemma digits_no_comma s : digits s → Forall (λ c, c ≠ 44%N) s.
Proof. intros [_ H]. apply (Forall_weaken _ _ _ H). intros c Hc ->. done. Qed.

Lemma is_valid_sed_n_arg_spec s : is_valid_sed_n_arg (Some s) = true ↔ sed_print_range s.
Proof.
  unfold is_valid_sed_n_arg, sed_print_range. split.
  - destruct (strip_suffix (lit "p") s) as [core|] eqn:E; [|done].
    apply strip_suffix_Some in E as ->. pose proof (join_split_char 44%N core) as J.
    destruct (split_char 44%N core) as [|a [|b [|]]]; try done; intros H.
    + left. exists a. cbn in J. subst. by apply digits_bool in H.
    + right. exists a, b. cbn in J. subst core. rewrite <- !app_assoc.
      rewrite !andb_true_iff in H. destruct H as [[[H1 H2] H3] H4].
      split_and!; [apply digits_bool, andb_true_iff; tauto..|done].
  - intros [(n & Hn & ->)|(a & b & Ha & Hb & ->)].
    + assert (E : strip_suffix (lit "p") (n ++ lit "p") = Some n) by by apply strip_suffix_Some.
      rewrite E, split_char_no_sep by by apply digits_no_comma. by apply digits_bool.
    + assert (E : strip_suffix (lit "p") (a ++ lit "," ++ b ++ lit "p") = Some (a ++ 44%N :: b)).
      { apply strip_suffix_Some. by rewrite <- app_assoc. }
      rewrite E, split_char_app_sep, split_char_no_sep by by apply digits_no_comma.
      apply digits_bool, andb_true_iff in Ha, Hb. rewrite !andb_true_iff. tauto.
Qed.

(** The [sed] calls that run without approval are exactly [sed -n RANGE] and
    [sed -n RANGE FILE] where RANGE is in the language [(\d+,)?\d+p]. *)
Theorem safe_sed_spec sed args :
  executable_name_lookup_key sed = Some (lit "sed") →
  is_safe_to_call_with_exec (sed :: args) = true ↔
  ∃ range, sed_print_range range
    ∧ (args = [lit "-n"; range] ∨ ∃ operand, args = [lit "-n"; range; operand]).
Proof.
  intros Hs. unfold is_safe_to_call_with_exec. rewrite Hs.
  eval_one_of.
  rewrite !andb_true_iff, Nat.leb_le, bool_decide_eq_true. split.
  - intros [[Hl H1] H2]. destruct args as [|flag [|range rest]]; try done.
    cbn in H1. injection H1 as ->. apply is_valid_sed_n_arg_spec in H2.
    exists range. split; [done|]. destruct rest as [|operand [|]]; cbn in Hl; [by left|eauto|lia].
  - intros (range & Hr%is_valid_sed_n_arg_spec & [->|[operand ->]]); cbn; (split; [split|]);
      try done; lia.
Qed.

Lemma safe_sed_spec_witness :
  executable_name_lookup_key (lit "/bin/sed") = Some (lit "sed")
  ∧ (is_safe_to_call_with_exec [lit "/bin/sed"; lit "-n"; lit "1,5p"; lit "a"] = true ↔
     ∃ range, sed_print_range range
       ∧ ([lit "-n"; lit "1,5p"; lit "a"] = [lit "-n"; range]
          ∨ ∃ operand, [lit "-n"; lit "1,5p"; lit "a"] = [lit "-n"; range; operand])).
Proof. split; [reflexivity|]. apply safe_sed_spec. reflexivity. Defined.

(** The operand of a safe [sed] may itself be an option that carries a script. *)
Lemma safe_sed_accepts_expression :
  is_safe_to_call_with_exec [lit "sed"; lit "-n"; lit "1p"; lit "--expression=w out"] = true.
Proof. reflexivity. Qed.

(** Bundled short flags hide [-z] from the ripgrep check. *)
Lemma safe_rg_accepts_bundled_zip :
  is_safe_to_call_with_exec [lit "rg"; lit "-z"; lit "x"] = false
  ∧ is_safe_to_call_with_exec [lit "rg"; lit "-iz"; lit "x"] = true.
Proof. by split. Qed.

(** ** Git *)

(** An option that takes a value is unsafe, so no value precedes a safe subcommand. *)
Lemma with_value_unsafe arg :
  is_git_global_option_with_value arg = true →
  git_matches_option_pattern arg UNSAFE_GIT_GLOBAL_OPTIONS = true.
Proof.
  intros (o & Ho & ->)%one_of_true.
  repeat (apply elem_of_cons in Ho as [->|Ho]; [reflexivity|]). by apply elem_of_nil in Ho.
Qed.

Lemma inline_value_unsafe arg :
  is_git_global_option_with_inline_value arg = true →
  git_matches_option_pattern arg UNSAFE_GIT_GLOBAL_OPTIONS = true.
Proof.
  unfold is_git_global_option_with_inline_value, git_matches_option_pattern. intros H.
  apply orb_true_iff in H as [H|H].
  - apply existsb_exists in H as (p & Hp & H).
    apply existsb_exists. exists (Prefix p). split; [|done]. cbn in Hp |- *. naive_solver.
  - apply andb_true_iff in H as [[H|H]%orb_true_iff Hl]; apply existsb_exists;
      [exists (ShortWithInlineValue "-C")|exists (ShortWithInlineValue "-c")];
      (split; [cbn; tauto|cbn [option_matches]; by rewrite H]).
Qed.

(** On a prefix of safe flags the search reaches the first other argument. *)
Lemma find_subcommand_flags subs idx globals rest :
  Forall safe_git_global globals →
  find_subcommand subs idx false (globals ++ rest)
  = find_subcommand subs (idx + length globals) false rest.
Proof.
  intros H. revert idx. induction H as [|g globals [Hd Hu] H IH]; intros idx.
  { cbn. by rewrite Nat.add_0_r. }
  cbn [app find_subcommand length].
  destruct (is_git_global_option_with_inline_value g) eqn:Hi;
    [apply inline_value_unsafe in Hi; congruence|].
  destruct (is_git_global_option_with_value g) eqn:Hv;
    [apply with_value_unsafe in Hv; congruence|].
  rewrite Hd, orb_true_r, IH. f_equal. lia.
Qed.

Lemma find_subcommand_le subs idx skip args i sub :
  find_subcommand subs idx skip args = Some (i, sub) → idx ≤ i.
Proof.
  revert idx skip. induction args as [|arg args IH]; intros idx skip; cbn; [done|].
  repeat case_match; try done; try (intros ?%IH; lia). naive_solver lia.
Qed.

(** An argument passed over on the way to the subcommand is among the global ones. *)
Lemma find_subcommand_passed subs idx skip arg args i sub :
  find_subcommand subs (S idx) skip args = Some (i, sub) →
  git_has_unsafe_global_option (take (i - idx) (arg :: args)) = false →
  git_matches_option_pattern arg UNSAFE_GIT_GLOBAL_OPTIONS = false
  ∧ git_has_unsafe_global_option (take (i - S idx) args) = false.
Proof.
  intros Hle%find_subcommand_le. replace (i - idx) with (S (i - S idx)) by lia.
  apply orb_false_iff.
Qed.

(** The arguments before a subcommand are flags when none of them is unsafe. *)
Lemma find_subcommand_inv subs idx args i sub :
  find_subcommand subs idx false args = Some (i, sub) →
  git_has_unsafe_global_option (take (i - idx) args) = false →
  ∃ globals rest, args = globals ++ sub :: rest ∧ i = idx + length globals
    ∧ Forall safe_git_global globals ∧ one_of sub subs = true.
Proof.
  revert idx. induction args as [|arg args IH]; intros idx; [done|]. cbn [find_subcommand].
  destruct (is_git_global_option_with_inline_value arg) eqn:Hi.
  { intros Hf Hu. destruct (find_subcommand_passed _ _ _ _ _ _ _ Hf Hu) as [Ha _].
    apply inline_value_unsafe in Hi. congruence. }
  destruct (is_git_global_option_with_value arg) eqn:Hv.
  { intros Hf Hu. destruct (find_subcommand_passed _ _ _ _ _ _ _ Hf Hu) as [Ha _].
    apply with_value_unsafe in Hv. congruence. }
  destruct (_ || _) eqn:Hd.
  - intros Hf Hu. destruct (find_subcommand_passed _ _ _ _ _ _ _ Hf Hu) as [Ha Hu'].
    destruct (IH (S idx) Hf Hu') as (globals & rest & -> & -> & Hg & Hs).
    exists (arg :: globals), rest. split_and!; [done|cbn; lia| |done]. constructor; [|done].
    split; [|done]. by apply orb_true_iff in Hd as [->%bool_decide_eq_true|Hd].
  - destruct (one_of arg subs) eqn:Hs; [|done]. intros [= <- <-] _.
    exists [], args. split_and!; [done|cbn; lia|constructor|done].
Qed.

Lemma branch_flags_loop_spec saw args :
  branch_flags_loop saw args = true ↔
  Forall (λ a, branch_flag_is_read_only a = true) args ∧ (args = [] → saw = true).
Proof.
  revert saw. induction args as [|a args IH]; intros saw; cbn [branch_flags_loop].
  { split; [by intros ->|intros [_ H]; by apply H]. }
  destruct (branch_flag_is_read_only a) eqn:E.
  - rewrite IH. split; [intros [H _]; split; [by constructor|done]|].
    intros [H _]. inversion H. by split.
  - split; [done|]. intros [H _]. inversion H. congruence.
Qed.

Lemma git_branch_is_read_only_spec args :
  git_branch_is_read_only args = true ↔ Forall (λ a, branch_flag_is_read_only a = true) args.
Proof.
  destruct args as [|a args]; [by split|]. unfold git_branch_is_read_only.
  rewrite branch_flags_loop_spec. naive_solver.
Qed.

Lemma read_only_args_spec args :
  git_subcommand_args_are_read_only args = true ↔ Forall safe_git_arg args.
Proof.
  unfold git_subcommand_args_are_read_only. by rewrite negb_true_iff, existsb_false_Forall.
Qed.

(** The test on the subcommand and its arguments. *)
Lemma git_subcommand_test sub args :
  one_of sub GIT_READ_SUBCOMMANDS = true →
  (if one_of sub ["status"; "log"; "diff"; "show"] then git_subcommand_args_are_read_only args
   else if one_of sub ["branch"]
   then git_subcommand_args_are_read_only args && git_branch_is_read_only args
   else false) = true ↔
  Forall safe_git_arg args
  ∧ (sub = lit "branch" → Forall (λ a, branch_flag_is_read_only a = true) args).
Proof.
  intros (o & Ho & ->)%one_of_true. unfold GIT_READ_SUBCOMMANDS in Ho.
  repeat (apply elem_of_cons in Ho as [->|Ho];
    [eval_one_of; rewrite ?andb_true_iff, read_only_args_spec, ?git_branch_is_read_only_spec;
     first [tauto | split; [intros H; split; [exact H|discriminate]|tauto]]|]).
  by apply elem_of_nil in Ho.
Qed.

Lemma git_subcommand_no_option sub :
  one_of sub GIT_READ_SUBCOMMANDS = true →
  is_git_global_option_with_inline_value sub = false
  ∧ is_git_global_option_with_value sub = false
  ∧ bool_decide (sub = lit "--") || starts_with (lit "-") sub = false.
Proof.
  intros (o & Ho & ->)%one_of_true. unfold GIT_READ_SUBCOMMANDS in Ho.
  repeat (apply elem_of_cons in Ho as [->|Ho]; [by split_and!|]). by apply elem_of_nil in Ho.
Qed.

(** The [git] calls that run without approval are exactly those of the form
    [git FLAGS SUBCOMMAND ARGS] where every flag is an option that takes no value and
    redirects nothing (no other repository, configuration, helper or pager), the
    subcommand is a read-only one, no argument writes a file or runs a helper, and
    [git branch] has listing flags only. *)
Theorem safe_git_spec command :
  is_safe_git_command command = true ↔
  ∃ git globals sub args,
    command = git :: globals ++ sub :: args
    ∧ executable_name_lookup_key git = Some (lit "git")
    ∧ Forall safe_git_global globals
    ∧ one_of sub GIT_READ_SUBCOMMANDS = true
    ∧ Forall safe_git_arg args
    ∧ (sub = lit "branch" → Forall (λ a, branch_flag_is_read_only a = true) args).
Proof.
  unfold is_safe_git_command, find_git_subcommand. fold GIT_READ_SUBCOMMANDS. split.
  - destruct command as [|git rest]; [done|]. case_bool_decide as Hg; [|done].
    destruct (find_subcommand _ _ _ _) as [[i sub]|] eqn:Hf; [|done].
    destruct (git_has_unsafe_global_option _) eqn:Hu; [done|]. intros H.
    destruct (find_subcommand_inv _ _ _ _ _ Hf Hu) as (globals & args & -> & -> & Hgl & Hs).
    cbn [drop Nat.add] in H. rewrite drop_past in H.
    apply (git_subcommand_test _ _ Hs) in H as [Ha Hb].
    by exists git, globals, sub, args.
  - intros (git & globals & sub & args & -> & Hg & Hgl & Hs & Ht).
    rewrite bool_decide_true, find_subcommand_flags by done. cbn [find_subcommand].
    destruct (git_subcommand_no_option _ Hs) as (-> & -> & ->). rewrite Hs.
    change (drop 1 (git :: globals ++ sub :: args)) with (globals ++ sub :: args).
    replace (1 + length globals - 1) with (length globals) by lia. rewrite take_app_length.
    unfold git_has_unsafe_global_option.
    rewrite (proj2 (existsb_false_Forall _ _)); [|apply (Forall_weaken _ _ _ Hgl); by intros ? []].
    cbn [drop Nat.add]. rewrite drop_past. by apply git_subcommand_test.
Qed.

(** ** Dangerous commands *)

Section dangerous.
Context (parse : str → option Tree).

Abbreviation dangerous := (dangerous_command_match_budget parse).

Lemma literal_commands_elem command words :
  (∃ commands, parse_shell_lc_literal_commands parse command = Some commands ∧ words ∈ commands) ↔
  ∃ shell script tree n,
    extract_bash_command command = Some (shell, script) ∧ parse script = Some tree
    ∧ has_error tree = false ∧ descendant named_children (root_node tree) n
    ∧ parse_literal_command_from_node n = Some words.
Proof.
  unfold parse_shell_lc_literal_commands. split.
  - intros (commands & ([shell script] & He & (tree & Ht & Hc)%bind_Some)%bind_Some & Hw).
    destruct (has_error tree) eqn:Hh; [done|]. injection Hc as <-.
    apply list_elem_of_omap in Hw as (n & Hn & Hk). exists shell, script, tree, n.
    apply (traverse_elem _ pushes_named) in Hn. by destruct (kind_is n "command").
  - intros (shell & script & tree & n & -> & Ht & Hh & Hd & Hp). cbn. rewrite Ht. cbn. rewrite Hh.
    eexists. split; [done|]. apply list_elem_of_omap. exists n.
    split; [by apply (traverse_elem _ pushes_named)|].
    unfold parse_literal_command_from_node in *. by destruct (kind_is n "command").
Qed.

(** One unfolding of the budgeted recursion, with the first match of the script. *)
Lemma dangerous_step b command m :
  dangerous (S b) command = Some m →
  dangerous_command_match_for_exec (dangerous b) command = Some m
  ∨ ∃ commands words, parse_shell_lc_literal_commands parse command = Some commands
      ∧ words ∈ commands ∧ dangerous b words = Some m.
Proof.
  cbn. destruct (dangerous_command_match_for_exec _ _); [naive_solver|].
  intros (commands & Hc & (w & Hw & Hm)%find_map_Some)%bind_Some. right. by exists commands, w.
Qed.

Lemma dangerous_sound b command m :
  dangerous b command = Some m → m = ForcedRm ∧ ∃ k, k < b ∧ runs_forced_rm parse k command.
Proof.
  revert command m. induction b as [|b IH]; intros command m; [done|].
  intros [He|(commands & words & Hc & Hw & [-> (k & Hk & Hr)]%IH)]%dangerous_step.
  - destruct command as [|cmd0 args]; [done|]. unfold dangerous_command_match_for_exec in He.
    destruct (executable_name_lookup_key cmd0) as [name|] eqn:Hn; [|done].
    rewrite !one_of_single in He.
    destruct (_ && _) eqn:Hrm in He.
    { apply andb_true_iff in Hrm as [->%bool_decide_eq_true Hf]. injection He as <-.
      split; [done|]. exists 0. split; [lia|by constructor]. }
    repeat case_bool_decide; subst; try done.
    + apply IH in He as [-> (k & Hk & Hr)]. split; [done|]. exists (S k).
      split; [lia|by apply forced_rm_sudo].
    + apply IH in He as [-> (k & Hk & Hr)]. split; [done|]. exists (S k).
      split; [lia|by apply forced_rm_env].
    + apply bind_Some in He as (action & Ha & [-> (k & Hk & Hr)]%IH). split; [done|].
      exists (S k). split; [lia|by eapply forced_rm_trap].
  - split; [done|]. exists (S k). split; [lia|].
    destruct (proj1 (literal_commands_elem command words)) as (shell & script & tree & n & H);
      [by exists commands|]. naive_solver eauto using forced_rm_script.
Qed.

Lemma find_map_found {A} (f : A → option DangerousCommandMatch) l x :
  x ∈ l → is_Some (f x) → is_Some (find_map f l).
Proof.
  intros Hx Hf. destruct (find_map f l) as [y|] eqn:E; [done|]. exfalso.
  induction l as [|a l IH]; [set_solver|]. cbn in E. destruct (f a) eqn:Ea; [done|].
  apply elem_of_cons in Hx as [->|Hx]; [rewrite Ea in Hf; by destruct Hf|by apply IH].
Qed.

Lemma dangerous_exec b command :
  is_Some (dangerous_command_match_for_exec (dangerous b) command) →
  is_Some (dangerous (S b) command).
Proof. intros [m Hm]. cbn. by rewrite Hm. Qed.

Lemma dangerous_complete k b command :
  runs_forced_rm parse k command → k < b → is_Some (dangerous b command).
Proof.
  intros Hr. revert b. induction Hr as [cmd0 args Hn Hf|k cmd0 args Hn Hr IH|k cmd0 args Hn Hr IH
    |k cmd0 args action Hn Ha Hr IH|k command shell script tree n words He Hp Hh Hd Hw Hr IH];
    intros [|b] Hb; try lia.
  1-4: apply dangerous_exec; unfold dangerous_command_match_for_exec; rewrite Hn; eval_one_of.
  - rewrite Hf. done.
  - apply IH. lia.
  - apply IH. lia.
  - rewrite Ha. apply IH. lia.
  - cbn. destruct (dangerous_command_match_for_exec _ _); [done|].
    destruct (proj2 (literal_commands_elem command words)) as (commands & -> & Hin);
      [by exists shell, script, tree, n|].
    apply (find_map_found _ _ words Hin), IH. lia.
Qed.

(** C36: a command is reported as dangerous exactly when it amounts to a forced [rm] under
    at most eight layers of [sudo], [env], [trap] and shell scripts, and a forced [rm]
    is the only rule that is ever reported.  The recursion always ends. *)
Theorem dangerous_command_spec command m :
  dangerous_command_match parse command = Some m ↔
  m = ForcedRm
  ∧ ∃ k, k ≤ MAX_DANGEROUS_COMMAND_WRAPPER_DEPTH ∧ runs_forced_rm parse k command.
Proof.
  unfold dangerous_command_match, dangerous_command_match_with_depth. rewrite Nat.sub_0_r. split.
  - intros [-> (k & Hk & Hr)]%dangerous_sound. split; [done|]. exists k. split; [lia|done].
  - intros [-> (k & Hk & Hr)].
    destruct (dangerous_complete k (S MAX_DANGEROUS_COMMAND_WRAPPER_DEPTH) command Hr) as [m Hm];
      [lia|]. by rewrite Hm; apply dangerous_sound in Hm as [-> _].
Qed.
End dangerous.

(** ** Safe commands are not dangerous *)

(** The bash grammar of the parser.  In a tree without errors only assignments,
    redirections and comments come before the name of a command; the script that is the
    single word [bash] is the command of that name. *)
Class BashGrammar (parse : str → option Tree) : Prop := {
  command_name_first : ∀ script tree n,
    parse script = Some tree → has_error tree = false →
    descendant children (root_node tree) n → kind n = lit "command" →
    ∃ pre name post, named_children n = pre ++ name :: post
      ∧ kind name = lit "command_name"
      ∧ Forall (λ c, kind_in c ["variable_assignment"; "file_redirect"; "herestring_redirect";
                                "comment"] = true) pre;
  one_word_script : ∀ tree n,
    parse (lit "bash") = Some tree → has_error tree = false →
    descendant children (root_node tree) n → kind n = lit "command" →
    ∃ name word, named_children n = [name] ∧ kind name = lit "command_name"
      ∧ named_children name = [word] ∧ text word = lit "bash" }.

(** The programs with a safe form, and those the dangerous classifier looks into. *)
Definition SAFE_NAMES : list string := SAFE_PROGRAMS ++ ["base64"; "find"; "rg"; "git"; "sed"].
Definition WRAPPER_NAMES : list string := ["rm"; "sudo"; "env"; "trap"].

Lemma names_are_stems o fuel :
  o ∈ SAFE_NAMES ++ WRAPPER_NAMES → detect_shell_type_fuel fuel (lit o) = None.
Proof.
  unfold SAFE_NAMES, SAFE_PROGRAMS, WRAPPER_NAMES. cbn [app]. intros Ho.
  repeat (apply elem_of_cons in Ho as [->|Ho]; [destruct fuel; vm_compute; reflexivity|]). by apply elem_of_nil in Ho.
Qed.

Lemma names_stem o cmd0 :
  o ∈ SAFE_NAMES ++ WRAPPER_NAMES → file_name cmd0 = Some (lit o) → file_stem cmd0 = Some (lit o).
Proof.
  unfold file_stem. intros Ho ->. cbn. f_equal.
  unfold SAFE_NAMES, SAFE_PROGRAMS, WRAPPER_NAMES in Ho. cbn [app] in Ho.
  repeat (apply elem_of_cons in Ho as [->|Ho]; [reflexivity|]). by apply elem_of_nil in Ho.
Qed.

Lemma not_shell_name o : o ∈ SAFE_NAMES ++ WRAPPER_NAMES → one_of (lit o) ["zsh"; "sh"; "bash"] = false.
Proof.
  unfold SAFE_NAMES, SAFE_PROGRAMS, WRAPPER_NAMES. cbn [app]. intros Ho.
  repeat (apply elem_of_cons in Ho as [->|Ho]; [reflexivity|]). by apply elem_of_nil in Ho.
Qed.

(** A program known by one of these names is not a shell. *)
Lemma not_a_shell o cmd0 :
  o ∈ SAFE_NAMES ++ WRAPPER_NAMES → file_name cmd0 = Some (lit o) → detect_shell_type cmd0 = None.
Proof.
  intros Ho Hf. unfold detect_shell_type. pose proof (not_shell_name _ Ho) as Hn.
  assert (Hne : ∀ x, x ∈ ["zsh"; "sh"; "bash"] → cmd0 ≠ lit x).
  { intros x Hx ->. assert (Hx' : file_name (lit x) = Some (lit x)).
    { repeat (apply elem_of_cons in Hx as [->|Hx]; [reflexivity|]). by apply elem_of_nil in Hx. }
    rewrite Hx' in Hf. injection Hf as Hf. rewrite <- Hf in Hn.
    apply not_true_iff_false in Hn. apply Hn, one_of_true. eauto. }
  destruct (length cmd0) as [|fuel]; cbn [detect_shell_type_fuel];
    rewrite !bool_decide_false by (apply Hne; set_solver); [done|].
  rewrite (names_stem _ _ Ho Hf). destruct (negb _); [by apply names_are_stems|done].
Qed.

Lemma safe_exec_name command :
  is_safe_to_call_with_exec command = true →
  ∃ cmd0 args o, command = cmd0 :: args ∧ o ∈ SAFE_NAMES ∧ file_name cmd0 = Some (lit o).
Proof.
  destruct command as [|cmd0 args]; [done|]. unfold is_safe_to_call_with_exec.
  unfold executable_name_lookup_key. destruct (file_name cmd0) as [name|] eqn:Hn; [|done].
  assert (Hin : ∀ l, (∀ o, o ∈ l → o ∈ SAFE_NAMES) → one_of name l = true →
    ∃ cmd1 args1 o, cmd0 :: args = cmd1 :: args1 ∧ o ∈ SAFE_NAMES ∧ file_name cmd1 = Some (lit o)).
  { intros l Hl (o & Ho & ->)%one_of_true. exists cmd0, args, o. auto. }
  assert (Hone : ∀ o, bool_decide (o ∈ SAFE_NAMES) = true → ∀ o', o' ∈ [o] → o' ∈ SAFE_NAMES).
  { intros o Ho%bool_decide_eq_true o' ->%list_elem_of_singleton. done. }
  intros H. destruct (one_of name SAFE_PROGRAMS) eqn:Hs.
  { apply (Hin SAFE_PROGRAMS); [|done]. intros o Ho. unfold SAFE_NAMES. apply elem_of_app. by left. }
  repeat match type of H with context [if one_of name [?x] then _ else _] =>
    destruct (one_of name [x]) eqn:?; [by apply (Hin [x]); [apply Hone|]|] end. done.
Qed.

Section safe.
Context (parse : str → option Tree).

(** A program with a safe name does not run anything the dangerous classifier knows. *)
Lemma safe_name_harmless b cmd0 args o :
  o ∈ SAFE_NAMES → file_name cmd0 = Some (lit o) →
  dangerous_command_match_budget parse b (cmd0 :: args) = None.
Proof.
  intros Ho Hf. destruct b as [|b]; [done|]. cbn [dangerous_command_match_budget].
  assert (Hx : extract_bash_command (cmd0 :: args) = None).
  { unfold extract_bash_command. rewrite (not_a_shell o); [|apply elem_of_app; by left|done].
    by destruct args as [|flag [|script [|]]]; try case_match. }
  unfold parse_shell_lc_literal_commands. rewrite Hx. cbn.
  unfold executable_name_lookup_key. rewrite Hf.
  unfold SAFE_NAMES, SAFE_PROGRAMS in Ho. cbn [app] in Ho.
  repeat (apply elem_of_cons in Ho as [->|Ho]; [reflexivity|]). by apply elem_of_nil in Ho.
Qed.

(** A shell runs none of the wrappers itself. *)
Lemma shell_not_wrapper nested cmd0 args :
  is_Some (detect_shell_type cmd0) → dangerous_command_match_for_exec nested (cmd0 :: args) = None.
Proof.
  intros [t Ht]. unfold dangerous_command_match_for_exec, executable_name_lookup_key.
  destruct (file_name cmd0) as [name|] eqn:Hf; [|done].
  assert (Hno : ∀ o, o ∈ WRAPPER_NAMES → one_of name [o] = false).
  { intros o Ho. rewrite one_of_single. apply bool_decide_eq_false. intros ->.
    rewrite (not_a_shell o) in Ht; [done|apply elem_of_app; by right|done]. }
  unfold WRAPPER_NAMES in Hno. by rewrite !Hno by set_solver.
Qed.

Lemma literal_words_extend found words cs f ws :
  literal_words found words cs = Some (f, ws) → ∃ t, ws = words ++ t.
Proof.
  revert found words. induction cs as [|c cs IH]; intros found words; cbn [literal_words].
  { intros [= <- <-]. exists []. by rewrite app_nil_r. }
  assert (Hs : ∀ found' x, literal_words found' (words ++ [x]) cs = Some (f, ws) → ∃ t, ws = words ++ t).
  { intros found' x (t & ->)%IH. exists (x :: t). by rewrite <- app_assoc. }
  destruct (kind_is c "command_name"); [|repeat case_match; eauto].
  intros (? & _ & (? & _ & H)%bind_Some)%bind_Some. eauto.
Qed.

Lemma literal_word_text n w :
  kind_is n "word" = true → parse_literal_shell_word n = Some w → w = text n.
Proof.
  destruct n as [k nm t st cs]. unfold kind_is. cbn [kind].
  intros ->%bool_decide_eq_true. cbn [parse_literal_shell_word].
  unfold kind_in, kind_is. cbn [kind existsb]. destruct (is_literal_word_or_number _).
  - by intros [= <-].
  - rewrite andb_false_r. by rewrite !bool_decide_false by discriminate.
Qed.

Lemma plain_word_command_name name w :
  kind name = lit "command_name" → plain_word name = Some w →
  ∃ wn, head (named_children name) = Some wn ∧ kind_is wn "word" = true ∧ w = text wn.
Proof.
  intros Hk. unfold plain_word. unfold kind_is at 1. rewrite bool_decide_true by done.
  destruct (named_children name) as [|wn rest]; [done|].
  destruct (kind_is wn "word") eqn:E; [|done]. intros [= <-]. by exists wn.
Qed.

(** In a word-only tree the literal words of a command start like its plain words. *)
Lemma literal_head name post words f lit_words :
  kind name = lit "command_name" →
  mapM plain_word (name :: post) = Some words →
  literal_words false [] (name :: post) = Some (f, lit_words) →
  ∃ w ws ws', words = w :: ws ∧ lit_words = w :: ws'.
Proof.
  intros Hk Hm Hl. apply bind_Some in Hm as (w & Hw & (ws & _ & [= <-])%bind_Some).
  destruct (plain_word_command_name _ _ Hk Hw) as (wn & Hwn & Hkw & ->).
  cbn [literal_words] in Hl. unfold kind_is in Hl. rewrite bool_decide_true, Hwn in Hl by done.
  apply bind_Some in Hl as (? & [= <-] & (nm & Hnm & (t & ->)%literal_words_extend)%bind_Some).
  apply literal_word_text in Hnm as ->; [|done]. by exists (text wn), ws, t.
Qed.

Lemma allowed_command_named n :
  node_allowed n = true → kind n = lit "command" → is_named n = true.
Proof. unfold node_allowed. intros Ha Hk. rewrite Hk in Ha. by destruct (is_named n). Qed.

Lemma allowed_not_prefix n :
  is_named n = true → node_allowed n = true →
  kind_in n ["variable_assignment"; "file_redirect"; "herestring_redirect"; "comment"] = false.
Proof.
  unfold node_allowed. intros ->. unfold kind_in, kind_is.
  intros (k & Hk & ->%bool_decide_eq_true)%existsb_exists. cbn in Hk.
  by repeat destruct Hk as [<-|Hk].
Qed.

(** Every literal command of a script of safe plain commands starts with a safe name. *)
Lemma literal_commands_harmless `{!BashGrammar parse} script tree all_commands n words :
  parse script = Some tree →
  try_parse_word_only_commands_sequence tree = Some all_commands →
  forallb is_safe_to_call_with_exec all_commands = true →
  descendant named_children (root_node tree) n →
  parse_literal_command_from_node n = Some words →
  ∃ cmd0 args o, words = cmd0 :: args ∧ o ∈ SAFE_NAMES ∧ file_name cmd0 = Some (lit o).
Proof.
  intros Ht (He & Ha & nodes & Hm & _ & Hn)%try_parse_word_only_inv Hs Hd Hl.
  apply descendant_named in Hd. unfold parse_literal_command_from_node in Hl.
  destruct (kind_is n "command") eqn:Hk; [|done]. cbn in Hl.
  apply bool_decide_eq_true in Hk as Hk'.
  apply bind_Some in Hl as ([f ws] & Hl & Hf). destruct f; [|done]. injection Hf as ->.
  destruct (command_name_first script tree n Ht He Hd Hk') as (pre & name & post & Hc & Hname & Hpre).
  assert (pre = []) as ->.
  { destruct pre as [|c pre]; [done|]. apply Forall_cons_1 in Hpre as [Hpre _].
    assert (Hin : c ∈ named_children n) by (rewrite Hc; set_solver).
    apply list_elem_of_filter in Hin as [Hcn Hin].
    rewrite allowed_not_prefix in Hpre; [done|done|]. apply Ha. by eapply rtc_r. }
  assert (Hin : n ∈ nodes).
  { apply Hn. split_and!; [done| |done]. by apply allowed_command_named; [apply Ha|]. }
  apply list_elem_of_lookup in Hin as [i Hi]. apply mapM_Some_1 in Hm.
  destruct (Forall2_lookup_l _ _ _ _ _ Hm Hi) as (plain & Hp & Hpl).
  unfold parse_plain_command_from_node in Hpl. rewrite Hk, Hc in Hpl. cbn [negb app] in Hpl.
  rewrite Hc in Hl. cbn [app] in Hl.
  destruct (literal_head _ _ _ _ _ Hname Hpl Hl) as (w & ws1 & ws2 & -> & ->).
  rewrite forallb_forall in Hs. apply list_elem_of_lookup_2, list_elem_of_In, Hs in Hp.
  destruct (safe_exec_name _ Hp) as (cmd0 & args & o & [= <- <-] & Ho & Hfn).
  by exists w, ws2, o.
Qed.
End safe.

(** A first word that is safe after the renaming was not renamed. *)
Lemma zsh_as_bash_safe cmd0 o :
  o ∈ SAFE_NAMES → file_name (zsh_as_bash cmd0) = Some (lit o) → file_name cmd0 = Some (lit o).
Proof.
  unfold zsh_as_bash. case_bool_decide; [|done]. intros Ho Hf. exfalso.
  assert (Ho' : o ∈ SAFE_NAMES ++ WRAPPER_NAMES) by (apply elem_of_app; by left).
  apply not_shell_name in Ho'. change (file_name (lit "bash")) with (Some (lit "bash")) in Hf.
  injection Hf as Hf. rewrite <- Hf in Ho'. by vm_compute in Ho'.
Qed.

Lemma zsh_as_bash_shell cmd0 :
  is_Some (detect_shell_type (zsh_as_bash cmd0)) → is_Some (detect_shell_type cmd0).
Proof. unfold zsh_as_bash. case_bool_decide as H; [|done]. by rewrite H. Qed.

Lemma extract_bash_command_Some command shell script :
  extract_bash_command command = Some (shell, script) →
  ∃ flag, command = [shell; flag; script] ∧ is_Some (detect_shell_type shell).
Proof.
  destruct command as [|sh [|flag [|scr [|]]]]; try done. cbn.
  destruct (negb _); [done|]. destruct (detect_shell_type sh) eqn:E; [|done].
  intros [= <- <-]. exists flag. by rewrite E.
Qed.

(** A script of safe plain commands is not dangerous at any depth. *)
Lemma safe_script_harmless (parse : str → option Tree) `{!BashGrammar parse}
  b cmd0 flag script tree all_commands :
  is_Some (detect_shell_type cmd0) →
  parse script = Some tree →
  try_parse_word_only_commands_sequence tree = Some all_commands →
  forallb is_safe_to_call_with_exec all_commands = true →
  dangerous_command_match_budget parse b [cmd0; flag; script] = None.
Proof.
  intros Hs Ht Hall Hsafe. destruct b as [|b]; [done|]. cbn [dangerous_command_match_budget].
  rewrite shell_not_wrapper by done.
  destruct (parse_shell_lc_literal_commands parse _) as [cmds|] eqn:Hl; [|done].
  apply find_map_None. intros words Hw.
  destruct (proj1 (literal_commands_elem parse [cmd0; flag; script] words))
    as (sh' & script' & tree' & n & Hx & Ht' & _ & Hd & Hp); [by exists cmds|].
  apply extract_bash_command_Some in Hx as (? & [= <- <- <-] & _).
  rewrite Ht in Ht'. injection Ht' as <-.
  destruct (literal_commands_harmless parse script tree all_commands n words Ht Hall Hsafe Hd Hp)
    as (w & ws & o & -> & Ho & Hf). by apply (safe_name_harmless parse _ w ws o).
Qed.

(** The script [bash] is no list of safe commands. *)
Lemma bash_script_not_safe (parse : str → option Tree) `{!BashGrammar parse} tree all_commands :
  parse (lit "bash") = Some tree →
  try_parse_word_only_commands_sequence tree = Some all_commands →
  all_commands ≠ [] → forallb is_safe_to_call_with_exec all_commands = false.
Proof.
  intros Ht (He & _ & nodes & Hm & _ & Hn)%try_parse_word_only_inv Hne.
  destruct all_commands as [|words all_commands]; [done|].
  destruct nodes as [|n nodes]; [done|].
  apply mapM_Some_1 in Hm. apply list.Forall2_cons in Hm as [Hp _].
  destruct (proj1 (Hn n)) as (Hd & _ & Hk); [set_solver|].
  assert (Hk' : kind n = lit "command") by by apply bool_decide_eq_true in Hk.
  destruct (one_word_script tree n Ht He Hd Hk') as (name & word & Hc & Hname & Hw & Htext).
  unfold parse_plain_command_from_node in Hp. rewrite Hk, Hc in Hp. cbn [negb mapM] in Hp.
  unfold plain_word, kind_is in Hp. rewrite Hname, Hw in Hp. cbn -[bool_decide lit] in Hp.
  rewrite bool_decide_true in Hp by done.
  destruct (bool_decide _); [|done]. rewrite Htext in Hp. by injection Hp as <-.
Qed.

(** The words after the shell are not renamed, a script that is the word [zsh] apart. *)
Lemma renamed_script cmd0 args shell script :
  extract_bash_command (map zsh_as_bash (cmd0 :: args)) = Some (shell, script) →
  is_Some (detect_shell_type cmd0)
  ∧ (script = lit "bash" ∨ ∃ flag, args = [flag; script] ).
Proof.
  destruct args as [|flag [|scr [|]]]; try done. cbn [map].
  intros Hx. apply extract_bash_command_Some in Hx as Hs. destruct Hs as (f & [= Hsh Hf Hscr] & Hs).
  split; [rewrite <- Hsh in Hs; by apply zsh_as_bash_shell|].
  rewrite <- Hscr. unfold zsh_as_bash. case_bool_decide; [by left|]. right. by exists flag.
Qed.

(** C34: no command is both known to be safe and known to be dangerous, whatever the
    scripts in it: a command that runs without approval is never a forced [rm], not
    even inside a pipeline or behind a wrapper.  The parser of the scripts is a
    parameter, of which two facts of the bash grammar are used: in a tree without
    errors only assignments, redirections and comments come before a command's name, and
    the script [bash] is the command of that name (the renaming of [zsh] to [bash] is
    applied to every word of the command, a script included). *)
Theorem safe_not_dangerous (parse : str → option Tree) (G : BashGrammar parse) command :
  is_known_safe_command parse command = true →
  dangerous_command_match parse command = None.
Proof.
  intros H. unfold dangerous_command_match, dangerous_command_match_with_depth.
  destruct command as [|cmd0 args]; [done|]. apply orb_true_iff in H as [He|Hp].
  - destruct (safe_exec_name _ He) as (? & ? & o & [= <- <-] & Ho & Hf).
    apply (safe_name_harmless parse _ _ _ o Ho). by apply zsh_as_bash_safe.
  - destruct (parse_shell_lc_plain_commands _ _) as [all|] eqn:Hall; [|done].
    apply andb_true_iff in Hp as [Hne%negb_true_iff%bool_decide_eq_false Hsafe].
    unfold parse_shell_lc_plain_commands in Hall.
    apply bind_Some in Hall as ([shell script] & Hx & Hall).
    apply bind_Some in Hall as (tree & Ht & Hall).
    destruct (renamed_script _ _ _ _ Hx) as [Hs [->|[flag ->]]].
    + by rewrite (bash_script_not_safe parse tree all) in Hsafe.
    + by apply (safe_script_harmless parse _ cmd0 flag script tree all).
Qed.

#[export] Instance sample_grammar : BashGrammar SampleScript.parse.
Proof.
  split; [|intros tree n Ht; by vm_compute in Ht].
  intros script tree n Ht _ Hd Hk. unfold SampleScript.parse in Ht. case_bool_decide; [|done].
  injection Ht as <-. apply (traverse_elem _ pushes_all) in Hd. vm_compute in Hd.
  repeat (apply elem_of_cons in Hd as [->|Hd];
    [first [discriminate Hk | by eexists [], _, _; split_and!]|]).
  by apply elem_of_nil in Hd.
Qed.

Lemma safe_not_dangerous_witness :
  is_known_safe_command SampleScript.parse [lit "zsh"; lit "-lc"; SampleScript.script] = true
  ∧ dangerous_command_match SampleScript.parse [lit "zsh"; lit "-lc"; SampleScript.script] = None.
Proof.
  split; [reflexivity|]. apply safe_not_dangerous; [apply sample_grammar|reflexivity].
Defined.
